(* ===== verification/_CoqProject ===== *)
-Q . S2P
Prelude.v
Str.v
Retry.v
Http.v
Timing.v
Wait.v
Json.v
Sse.v
Quota.v
Gguf.v
InFlight.v
Errors.v
Protocol.v
Worker.v
Benchmarks.v
Resume.v
EvalStore.v
Identity.v
EvalRun.v
EvalPool.v
EntryLocks.v
Models.v
Fetch.v
CtlState.v
CtlRun.v
Semaphore.v
Script.v
Session.v
Orphans.v
Ssh.v
SshAgent.v
MgmtSig.v
MgmtCall.v
CtlIdentity.v
CtlAuth.v
CtlShared.v
CtlSignIn.v
ProxyBase.v
ProxyServer.v
ProxyHeartbeat.v
ProxyApp.v
ProxyLaunch.v
ProxyJob.v
ProxyResults.v
ProxyLoop.v
ProxyPool.v
ProxyReleases.v
ProxyCatalog.v
ProxyVersion.v
ProxyState.v
ProxyStore.v
ProxyShared.v
ProxyPrune.v
