(* ===== verification/Prelude.v ===== *)
(** * Pipette clients: a verification development

    The repository under [src/] measures language-model runtimes on devices. A worker
    claims jobs from a management server, fetches what they need, waits until the device is
    ready, runs the engines, reads what they stream, and reports the result; a controller
    runs plans over a fleet of such devices and keeps a record of what was run; a proxy
    claims for the iPhones attached to one Mac. This library models the parts that decide
    those things - Rust code, under [src/crates/] and, for the proxy,
    [src/tools/pipette-ios-proxy/src/] - and proves what makes them correct.

    ** How the parts fit together, and where they are

    - The worker ([pipette-cli], [commands/worker.rs]) is [Worker]: the startup gate, the
      claim loop, the heartbeat thread, the run and its report. It calls the wire protocol
      ([client/worker/protocol.rs], [Protocol]), which tells apart the errors of [Errors]
      ([pipette-mgmt-client], [pipette-subprocess], [pipette-artifacts]); the timing of
      [client/worker/timing.rs] ([Timing]); the marker that detects reboots
      ([client/worker/in_flight.rs], [InFlight]); the benchmark cache
      ([benchmarks/store.rs], [Benchmarks]); and the waits of [pipette-wait] and
      [pipette-readiness] ([Wait]).
    - What a job needs is downloaded with the retries of [pipette-http] ([retry.rs],
      [Retry]; one exchange and its errors, [lib.rs], [Http]) and the resumable attempts of
      [pipette-artifacts] ([resume.rs], [Resume]). A model's parts, listings and files are
      [model/fetch.rs] and [vault.rs] ([Fetch]); where it is stored and what its manifest says
      is [model/key.rs], [model/stored.rs] and [model/manifest.rs] ([Models]). Processes share
      the store: one entry, its locks, its staging and its sweep are [entry.rs],
      [model/store.rs] and [ensure.rs] ([EntryLocks]), and the sweep's order is the storage
      quota's ([quota.rs], [Quota]). A GGUF file's metadata decides how it is run
      ([pipette-llamacpp], [gguf_meta.rs], [Gguf]).
    - What an engine streams is read by [pipette-ops] ([sse.rs], [Sse], over the JSON
      values of [Json]). An evaluation runs its samples through
      [measurement/eval.rs] ([EvalRun]), which keeps every answer in the checkpoint of
      [eval_completions.rs] ([EvalStore]), found again by the digest of what was run
      ([Identity], with [custom_label.rs]). The llama.cpp engine answers the samples with a
      server it restarts when it crashes ([pipette-llamacpp], [eval_pool.rs], [EvalPool]).
    - The controller ([pipette-ctl]) records events in a state file ([state.rs] and
      [runner/], [CtlState]), routes cells to devices and runs them on a thread per device
      ([runner/run.rs], [runner/probe.rs], [CtlRun]), throttled per machine
      ([runner/host_semaphore.rs], [Semaphore]).
    - Keys are [pipette-ssh]: the wire framing, key files and the generator of
      [pipette-ctl] ([wire.rs], [key.rs], [private.rs], [ssh_keygen.rs], [Ssh]); an agent's
      answers, the inventory of agents and [~/.ssh], and the choice of a key and its signer
      ([agent.rs], [inventory.rs], [system_keys.rs], [SshAgent]).
    - A person's calls of the management server are signed by [pipette-mgmt-client]
      ([httpsig.rs], [auth.rs], [MgmtSig]), assembled, sent and read ([call.rs],
      [transport.rs], [user_api.rs], [client_api.rs], [MgmtCall]). The controller signs as
      the identity of a working directory, which several commands may write at once:
      [identity.rs] is [CtlIdentity]; [auth register], [login] and [adopt] ([auth.rs]) are
      [CtlAuth]; what holds whatever they do together is [CtlShared], and [CtlSignIn] has the
      theorems.
    - A started engine leads a session of its own. How the session is found, frozen, killed
      and reaped is [pipette-subprocess], [session.rs] ([Session]); the notes of sessions whose
      starter died, and their sweep, are [orphans.rs] ([Orphans]).
    - The iOS proxy is the files [Proxy*]. [ProxyBase] has its errors, the classes of what it
      asks of the management server, of a phone and of its own Mac, its programs and their
      traces. [ProxyServer] is the calls of [server/], their backoff and the failures;
      [ProxyApp] the app's console, its watchdog and its verbs ([app/]) and [ProxyLaunch] a
      claim as launch arguments; [ProxyJob] a claimed job and the installs ([worker/job.rs],
      [worker/install.rs]), with what its traces show in [ProxyResults]; [ProxyLoop] the claim
      loop of one phone, its restarts and the end of the process ([worker/mod.rs], [pause.rs],
      [fleet.rs], [profile.rs], [main.rs]). The loop takes its builds from an interface,
      [Builds], with the laws [BuildsLaws]: [ProxyPool] is the pool's instance, and
      [ProxyVersion] ([worker/version.rs]) the releases bucket's, over the listing of
      [ProxyReleases] ([releases/mod.rs], [s3.rs]) and the catalog of [ProxyCatalog]
      ([releases/catalog.rs]). The thread that keeps a claimed job's lease is
      [ProxyHeartbeat] ([worker/heartbeat.rs]). Several proxies and a [builds prune] share one
      state directory: its locks and documents are [ProxyState] ([state.rs]), the pulled
      builds and their prune [ProxyStore] ([releases/store.rs], [commands.rs]), all written
      as the scripts of [Script]; [ProxyShared] has what holds whatever the processes do, and
      [ProxyPrune] what one prune does with its locks held.
    - [Str] has the Rust strings, UTF-8 and number parsing they all use. This file has
      results, machine integers, durations, stable sorting and reachability.

    ** How the code is modelled

    Rust functions are Gallina functions with the source's names; a struct is a record and
    an enum an inductive type. An integer is a [Z] whose range, saturation and overflow are
    written out; a [Duration] is a number of nanoseconds. A fallible function answers a
    [result]. Code with effects passes a world of any type [W]; a class ([Host],
    [ReadinessHost], [MgmtApi], [WorkerHost], [Disk], [Source], [FetchHost], [MgmtClient],
    [DeviceControl], [ProxyHost], [Bucket], [ReleaseStore], [BuildStore]) lists what it asks
    of the world, and each operation is free to answer anything; the laws a theorem needs are
    a second class ([HostLaws], [DiskLaws], [HonestServer], [CatalogLaws], [PoolClock],
    [PlanLaws]), with a concrete instance in the witness. An evaluation's engine is any relation between a group
    of samples and the attempts ([Prog]) it may make of them. Where the order of effects matters, a traced world records
    them and the theorems speak of the trace. Threads and processes that share state -
    the marker's, the cache's writers, the store's, the run's workers, the semaphore's, an
    evaluation's, the lease's and the llama.cpp pool's - are step relations, and the theorems
    are about every reachable state. The proxy's state directory and the controller's
    identity are shared by any number of processes that start and die at any time: each is a
    [script] of file-system operations, any of which may fail, proved against what it relies
    on ([wp]), and [system_sound] puts the proofs together. In the proxy's directory the
    bytes of a document are its value, unpacking is a function of the archive ([Archiver]),
    and reading metadata does not fail. A kill is a script of operations of a Linux kernel:
    between any two of them other processes fork, exit, lead sessions and are reaped, and
    their pids are given again. A listing is of one instant and may miss any process, and a
    signal finds its process through a pidfd. JSON, SHA-256, URLs, TOML and the plan-types crate
    are parameters ([EvalSerde],
    [JsonText], [PlanTypes], [UrlTypes], [RuntimeTypes], [ReleaseTypes], [ProxyTexts],
    [JobTexts], [LaunchTexts], [VersionTexts]); so are base64, hex, the curve, the URL
    parser, the agent's socket, the transport of a call and the record's encoding ([SshCodecs]
    and [HexText], [Curve], [UrlCrate], [AgentSocket], [SigningHost], [HttpTransport],
    [RecordJson]), with their laws where a theorem needs them.

    ** What the theorems show

    - [Worker], [Protocol]: everything a worker does is for the job it claimed last and
      stops after a refused report; what each ending of a run reports; the number of
      submissions and the time they wait; the rhythm of heartbeats; a job cut off by a
      reboot is reported and not run again.
    - [InFlight]: the marker's write is atomic under crashes; a removed marker stays
      removed under every interleaving; no run gets stuck; when a claim counts as a reboot.
      One theorem shows a failed start that leaves its marker behind.
    - [Benchmarks], [Resume], [Quota]: an ETag is honored only for the body it came with,
      and a job runs the server's current definition; a resumed download never joins two
      objects and a vault file has its pinned digest; a sweep evicts the least recently
      used prefix, ends, and removes nothing it may not.
    - [EvalStore], [Identity], [EvalRun], [EvalPool]: the checkpoint stands for the rows
      written so far, whatever was torn or killed; equal digests mean the same run, up to
      what only changes its speed; every sample is recorded exactly once, a run ends, and a
      published result answers the whole dataset; one server at a time, and a sample is
      given up only when its server has gone.
    - [Fetch], [Models], [EntryLocks]: a model's fetch is exactly the parts it declares, each
      where its manifest says; a published model is found again from any root; an entry with
      an intact manifest has its payload, a run keeps the entry it found and a missing one is
      fetched once, whatever the processes do. Three theorems show where the code does less
      than its comments say.
    - [ProxyServer], [ProxyApp], [ProxyLaunch]: the proxy speaks the worker's protocol; its
      waits and submissions are bounded; the engine's clock and the watchdog; a launch runs
      the claim and nothing else.
    - [ProxyJob], [ProxyResults]: the server hears of a job once; a result leaves the phone
      once the server has it; the record of the installed build names only a checked one.
    - [ProxyLoop], [ProxyPool], [ProxyVersion]: in both modes a phone claims only when it can
      run a job and the server knows its iOS, keeps its budget across restarts and stops for
      good when its identity was replaced.
    - [ProxyHeartbeat]: once the guard is dropped the lease's loss is settled and no beat
      follows; dropping it always returns.
    - [ProxyShared], [ProxyPrune]: a claim's archive stays while its lock is held; a recorded
      digest stands for what was unpacked; a pull leaves a version whole or absent; waiting for
      a lock ends within its budget; a prune removes exactly what nothing names. Two
      theorems show what the locks do not cover.
    - [Ssh], [SshAgent]: a generated key is read back from the file and the line it is written
      to; a signature is the agent's own or the refusal is explained; no agent makes a client
      read more than its ceiling; a chosen key is found again and can sign.
    - [MgmtSig], [MgmtCall]: a signature is for exactly its request, and every request a user
      sends verifies; a progress stream that was cut is never taken for an answer.
    - [CtlSignIn]: a key file once written stays and is one the server accepted; nothing is
      written before it was; the wait for an approval ends in time; a duration shown reads
      back. One theorem shows that the record beside the key can still be torn.
    - [Session], [Orphans]: reaping a child signals nothing but the child and what descends
      from it, and waiting for the killed ends; when nobody else acts a kill leaves the whole
      tree dead. A noted session is killed only if it is the one noted, and a sweep removes
      exactly the notes of the dead.
    - [ProxyReleases], [ProxyCatalog], [ProxyVersion]: listing the bucket ends and a whole
      listing misses no build; what is advertised fits the profile; which build a claim runs
      on; a job is failed for good only when no build anywhere carries its runtime.
    - [CtlState], [CtlRun], [Semaphore]: the index is the history of the state file and
      written events are read back; cells reach only clients they allow and none is lost or
      finished twice; shards partition a run; at most [capacity] guards at once.
    - [Gguf], [Sse]: the readers return what a well-formed file or stream says, and a cut
      stream is never taken for a short answer.
    - [Wait], [Retry], [Timing]: the loops end, within stated bounds, and each answer is
      justified; schedules are exact at the integers' widths.

    ** Fuel

    A loop that is not structural takes fuel. [write_all], [show_uint], [from_utf8] and
    [sleep_cancellably] compute theirs from the input, and [chunks] cuts a list with its
    length; the proxy's sleeps compute their slices and its waits for a lock their naps. A key
    file's padding takes at most seven rounds, and an agent's listing as many as it counts.
    A sign-in's wait takes a number of looks at the server and answers [Ok None] when it is
    spent, which more than [looks timeout] never are. The proxy's loops and restarts and the
    pages of a listing take a number of passes and answer [None] when it is spent: their
    theorems hold for any number, and [bucket_listing_ends] says how many pages are enough.
    The descendants of a session are sought for as many rounds as there are processes, and
    killed ones looked at until their wait is over and once more.
    The arbitration of a failed request takes 61 looks at the server (a 3 s window
    polled every 50 ms, and one more), and a sample three sends, both proved enough. The sweep, the readiness wait and
    the vault download are proved to end within a stated number of rounds, and the public
    download within some number. The worker has no last round: its fuel is how long it is
    followed, and its theorem holds for every prefix of its life.

    ** What is not modelled

    Reading sensors, probing memory and devices, starting processes and engines, sockets
    and HTTP itself: they are I/O, and enter as the answers of a class. The engines' adapters,
    which build command lines and read the output of external programs; the catalog and mgmt
    commands of the controller, which relay one call each and print its answer; the plan ladder
    ([runner/ladder.rs]), which draws a table; the mobile applications. Of the management
    client: uploads, downloads, vault streams and batches. Of child processes: their start, output and ports, SIGTERM to a group,
    containers, the notes' directory, and what macOS and Windows do instead. Of a sign-in: the pages and labels it
    shows beyond their text, and [auth me], [keys] and [pubkey]. Of the proxy:
    devicectl, codesigning, the reading of the pool and configuration. Of [pipette-ssh]: which
    agent sockets a host has. Progress reports and logging are left out everywhere. *)

From stdpp Require Import prelude list gmap sorting.
From Stdlib Require Import ZArith Lia.

Local Open Scope Z_scope.

(** ** Rust results *)

(** [Result<T, E>]: a fallible call answers a value or an error. *)
Inductive result (T E : Type) : Type :=
| Ok (t : T)
| Err (e : E).

Arguments Ok {T E} _.
Arguments Err {T E} _.

(** [std::ops::ControlFlow<B, C>]. *)
Inductive control_flow (B C : Type) : Type :=
| Break (b : B)
| Continue (c : C).

Arguments Break {B C} _.
Arguments Continue {B C} _.

Definition result_bind {T U E} (m : result T E) (k : T -> result U E) : result U E :=
  match m with
  | Ok t => k t
  | Err e => Err e
  end.

Definition result_ok {T E} (m : result T E) : option T :=
  match m with
  | Ok t => Some t
  | Err _ => None
  end.

Declare Scope rust_scope.
Delimit Scope rust_scope with rust.

(** The [?] operator. *)
Notation "'let?' x ':=' m 'in' k" := (result_bind m (fun x => k))
  (at level 10, x pattern, m at level 100, k at level 200) : rust_scope.

(** ** Machine integers

    A [u32], [u64] or [usize] is a [Z] in its range, and what the source does at the
    ends of the range (saturate, fail, wrap) is written out. [usize] is 64 bits wide. *)

Definition u8_max : Z := 2 ^ 8 - 1.
Definition u16_max : Z := 2 ^ 16 - 1.
Definition u32_max : Z := 2 ^ 32 - 1.
Definition u64_max : Z := 2 ^ 64 - 1.
Definition i64_max : Z := 2 ^ 63 - 1.

Definition in_range (max x : Z) : Prop := 0 <= x <= max.

Definition sat_add (max a b : Z) : Z := Z.min max (a + b).
Definition sat_mul (max a b : Z) : Z := Z.min max (a * b).
Definition sat_sub (a b : Z) : Z := Z.max 0 (a - b).

(** ** Durations

    [std::time::Duration] is a number of nanoseconds, at most [u64::MAX] seconds and
    999,999,999 nanoseconds. *)

Definition ns_per_sec : Z := 1000000000.
Definition ns_per_ms : Z := 1000000.
Definition duration_max : Z := u64_max * ns_per_sec + 999999999.

Definition from_secs (s : Z) : Z := s * ns_per_sec.
Definition from_millis (ms : Z) : Z := ms * ns_per_ms.
Definition as_millis (d : Z) : Z := d / ns_per_ms.

(** ** Tactics *)

(** Split boolean tests of the code into the propositions they decide. *)
Ltac bool_to_prop :=
  repeat match goal with
  | H : (_ <? _) = true |- _ => apply Z.ltb_lt in H
  | H : (_ <? _) = false |- _ => apply Z.ltb_ge in H
  | H : (_ <=? _) = true |- _ => apply Z.leb_le in H
  | H : (_ <=? _) = false |- _ => apply Z.leb_gt in H
  | H : (_ =? _) = true |- _ => apply Z.eqb_eq in H
  | H : (_ =? _) = false |- _ => apply Z.eqb_neq in H
  | H : (_ && _) = true |- _ => apply andb_true_iff in H; destruct H
  | H : (_ || _) = false |- _ => apply orb_false_iff in H; destruct H
  | H : negb _ = true |- _ => apply negb_true_iff in H
  | H : negb _ = false |- _ => apply negb_false_iff in H
  | H : bool_decide _ = true |- _ => apply bool_decide_eq_true in H
  | H : bool_decide _ = false |- _ => apply bool_decide_eq_false in H
  end.

(** Case on the next test or match of the goal, keeping what it decided. *)
Ltac cases := case_match; bool_to_prop; simplify_eq/=.

(** Bounds of saturating arithmetic. *)
Ltac solve_bounds :=
  unfold in_range, sat_add, sat_mul, sat_sub, from_secs, from_millis, as_millis,
    duration_max, u8_max, u16_max, u32_max, u64_max, i64_max, ns_per_sec, ns_per_ms in *;
  first [ lia | nia ].

Create HintDb rust.

Lemma sat_add_range max a b :
  in_range max a -> in_range max b -> in_range max (sat_add max a b).
Proof. solve_bounds. Qed.

Lemma sat_mul_range max a b :
  0 <= max -> 0 <= a -> 0 <= b -> in_range max (sat_mul max a b).
Proof. solve_bounds. Qed.

Lemma sat_sub_range max a b : in_range max a -> 0 <= b -> in_range max (sat_sub a b).
Proof. solve_bounds. Qed.

#[export] Hint Resolve sat_add_range sat_mul_range sat_sub_range : rust.

(** ** Lists *)

(** [slice::chunks]: a fuel of the length is enough, as every piece has an element. *)
Fixpoint chunks {A} (fuel : nat) (size : nat) (l : list A) : list (list A) :=
  match fuel, l with
  | _, [] => []
  | O, _ => []
  | S fuel, _ => take size l :: chunks fuel size (drop size l)
  end.

Lemma chunks_concat {A} fuel size (l : list A) :
  (1 <= size)%nat -> (length l <= fuel)%nat -> concat (chunks fuel size l) = l.
Proof.
  intros Hs. revert l. induction fuel as [|fuel IH]; intros [|x l] Hl; cbn in *; try done; [lia|].
  destruct size as [|size]; [lia|]. cbn [take drop]. cbn [concat].
  rewrite IH by (rewrite length_drop; lia). cbn. by rewrite take_drop.
Qed.

(** ** Runs of a transition relation *)

Section Reach.
Context {S : Type} (init : S -> Prop) (step : S -> S -> Prop).

Inductive reachable : S -> Prop :=
| reach_init s : init s -> reachable s
| reach_step s s' : reachable s -> step s s' -> reachable s'.

Lemma reachable_invariant (P : S -> Prop) :
  (forall s, init s -> P s) ->
  (forall s s', P s -> step s s' -> P s') ->
  forall s, reachable s -> P s.
Proof. intros Hi Hs s Hr. induction Hr; eauto. Qed.
End Reach.

(** ** Stable sorting

    [slice::sort_by_key] and [sort_by] are stable; the model inserts each element after
    the ones that compare equal to it. *)

Section StableSort.
Context {A : Type} (leb : A -> A -> bool).

Fixpoint insert_stable (x : A) (l : list A) : list A :=
  match l with
  | [] => [x]
  | y :: l' => if leb x y then x :: y :: l' else y :: insert_stable x l'
  end.

Fixpoint sort_stable (l : list A) : list A :=
  match l with
  | [] => []
  | x :: l' => insert_stable x (sort_stable l')
  end.

Definition le_of (x y : A) : Prop := leb x y = true.

Lemma insert_stable_perm x l : insert_stable x l ≡ₚ x :: l.
Proof.
  induction l as [|y l IH]; simpl; [done|].
  destruct (leb x y); [done|]. rewrite IH. apply Permutation_swap.
Qed.

Lemma sort_stable_perm l : sort_stable l ≡ₚ l.
Proof. induction l as [|x l IH]; simpl; [done|]. by rewrite insert_stable_perm, IH. Qed.

Lemma elem_of_sort_stable x l : x ∈ sort_stable l <-> x ∈ l.
Proof. by rewrite sort_stable_perm. Qed.

Context (leb_total : forall x y, leb x y = true \/ leb y x = true).
Context (leb_trans : forall x y z, leb x y = true -> leb y z = true -> leb x z = true).

Lemma insert_stable_sorted x l :
  StronglySorted le_of l -> StronglySorted le_of (insert_stable x l).
Proof.
  induction 1 as [|y l Hs IH Hy]; simpl; [repeat constructor|].
  destruct (leb x y) eqn:E.
  - repeat constructor; auto. eapply Forall_impl; [exact Hy|].
    intros z; unfold le_of; eauto.
  - constructor; [done|]. rewrite insert_stable_perm. constructor; [|done].
    destruct (leb_total x y); [congruence|done].
Qed.

Lemma sort_stable_sorted l : StronglySorted le_of (sort_stable l).
Proof. induction l; simpl; [constructor|]. by apply insert_stable_sorted. Qed.

(** Stability: the elements a test selects keep their order, when the test does not tell
    apart elements that compare equal both ways. *)
Context (P : A -> bool).
Context (P_ext : forall x y, P x = true -> P y = true -> leb x y = true).

Lemma insert_stable_filter x l :
  List.filter P (insert_stable x l) = List.filter P (x :: l).
Proof.
  induction l as [|y l IH]; [done|]; cbn [insert_stable].
  destruct (leb x y) eqn:E; [done|].
  cbn [List.filter] in *. rewrite IH. destruct (P x) eqn:Px, (P y) eqn:Py; try done.
  rewrite P_ext in E by done. done.
Qed.

Lemma sort_stable_filter l : List.filter P (sort_stable l) = List.filter P l.
Proof.
  induction l as [|x l IH]; [done|]. cbn [sort_stable].
  rewrite insert_stable_filter. cbn [List.filter]. by rewrite IH.
Qed.
End StableSort.

(** ** Options *)

(** [Option::zip]. *)
Definition option_zip {A B} (a : option A) (b : option B) : option (A * B) :=
  match a, b with
  | Some x, Some y => Some (x, y)
  | _, _ => None
  end.

(** [Option::or]. *)
Definition option_or {A} (a b : option A) : option A :=
  match a with
  | Some _ => a
  | None => b
  end.

(** [Option] ordering: [None] sorts before every [Some]. *)
Definition option_leb {A} (leb : A -> A -> bool) (a b : option A) : bool :=
  match a, b with
  | None, _ => true
  | Some _, None => false
  | Some x, Some y => leb x y
  end.
