(* ===== verification/Str.v ===== *)
(** * Rust strings

    What the sources use of [str], [char] and [String]. A string is the list of its
    Unicode scalar values, so a slice at a byte offset inside a character is visible as
    such ([split_at_checked] answers [None]), and its length is counted in UTF-8 bytes. *)

From Stdlib Require Import ZArith Lia String Ascii.
From stdpp Require Import prelude list.
From S2P Require Import Prelude.

Local Open Scope Z_scope.

Abbreviation str := (list Z).

(** A literal of the source. *)
Definition lit (s : string) : str :=
  map (fun c => Z.of_N (N_of_ascii c)) (list_ascii_of_string s).

Definition str_eqb (a b : str) : bool := bool_decide (a = b).

(** ** UTF-8 *)

Definition valid_char (c : Z) : bool :=
  ((0 <=? c) && (c <? 0xD800)) || ((0xE000 <=? c) && (c <=? 0x10FFFF)).

Definition valid_str (s : str) : Prop := Forall (fun c => valid_char c = true) s.

Definition len_utf8 (c : Z) : Z :=
  if c <? 0x80 then 1 else if c <? 0x800 then 2 else if c <? 0x10000 then 3 else 4.

(** [str::len]: the bytes of the UTF-8 encoding. *)
Fixpoint str_len (s : str) : Z :=
  match s with
  | [] => 0
  | c :: s' => len_utf8 c + str_len s'
  end.

Definition encode_char (c : Z) : list Z :=
  if c <? 0x80 then [c]
  else if c <? 0x800 then [0xC0 + c / 64; 0x80 + c mod 64]
  else if c <? 0x10000 then [0xE0 + c / 4096; 0x80 + c / 64 mod 64; 0x80 + c mod 64]
  else [0xF0 + c / 262144; 0x80 + c / 4096 mod 64; 0x80 + c / 64 mod 64; 0x80 + c mod 64].

(** [str::as_bytes]. *)
Definition as_bytes (s : str) : list Z := s ≫= encode_char.

Definition is_cont (b : Z) : bool := (0x80 <=? b) && (b <? 0xC0).

(** The first character of a byte sequence and the bytes after it. A form that is too
    long, a surrogate and a value past U+10FFFF are not UTF-8. *)
Definition decode_char (bs : list Z) : option (Z * list Z) :=
  let ok min c rest :=
    if (min <=? c) && valid_char c then Some (c, rest) else None in
  match bs with
  | [] => None
  | b0 :: r0 =>
      if b0 <? 0x80 then Some (b0, r0) else
      if (0xC0 <=? b0) && (b0 <? 0xE0) then
        match r0 with
        | b1 :: r1 =>
            if is_cont b1 then ok 0x80 ((b0 - 0xC0) * 64 + (b1 - 0x80)) r1 else None
        | _ => None
        end
      else if (0xE0 <=? b0) && (b0 <? 0xF0) then
        match r0 with
        | b1 :: b2 :: r2 =>
            if is_cont b1 && is_cont b2
            then ok 0x800 ((b0 - 0xE0) * 4096 + (b1 - 0x80) * 64 + (b2 - 0x80)) r2
            else None
        | _ => None
        end
      else if (0xF0 <=? b0) && (b0 <? 0xF8) then
        match r0 with
        | b1 :: b2 :: b3 :: r3 =>
            if is_cont b1 && is_cont b2 && is_cont b3
            then ok 0x10000 ((b0 - 0xF0) * 262144 + (b1 - 0x80) * 4096
                             + (b2 - 0x80) * 64 + (b3 - 0x80)) r3
            else None
        | _ => None
        end
      else None
  end.

Fixpoint from_utf8_fuel (fuel : nat) (bs : list Z) : option str :=
  match bs, fuel with
  | [], _ => Some []
  | _, O => None
  | _, S fuel =>
      match decode_char bs with
      | None => None
      | Some (c, rest) => (c ::.) <$> from_utf8_fuel fuel rest
      end
  end.

(** [String::from_utf8]. Every character takes a byte or more, so the length of the input
    bounds the characters. *)
Definition from_utf8 (bs : list Z) : option str := from_utf8_fuel (length bs) bs.

Definition REPLACEMENT : Z := 0xFFFD.

(** How many bytes of an ill-formed sequence one replacement stands for: the longest start
    of a character, or one byte. *)
Definition bad_len (bs : list Z) : nat :=
  match bs with
  | b0 :: b1 :: r =>
      let three :=
        is_cont b1 && (0xE0 <=? b0) && (b0 <? 0xF0)
        && (if b0 =? 0xE0 then 0xA0 <=? b1 else true)
        && (if b0 =? 0xED then b1 <? 0xA0 else true) in
      let four :=
        is_cont b1 && (0xF0 <=? b0) && (b0 <? 0xF5)
        && (if b0 =? 0xF0 then 0x90 <=? b1 else true)
        && (if b0 =? 0xF4 then b1 <? 0x90 else true) in
      if three then 2%nat
      else if four then match r with b2 :: _ => if is_cont b2 then 3%nat else 2%nat | [] => 2%nat end
      else 1%nat
  | _ => 1%nat
  end.

(** [String::from_utf8_lossy]. Each round takes a byte or more. *)
Fixpoint from_utf8_lossy_fuel (fuel : nat) (bs : list Z) : str :=
  match fuel, bs with
  | O, _ | _, [] => []
  | S fuel, _ =>
      match decode_char bs with
      | Some (c, rest) => c :: from_utf8_lossy_fuel fuel rest
      | None => REPLACEMENT :: from_utf8_lossy_fuel fuel (drop (bad_len bs) bs)
      end
  end.

Definition from_utf8_lossy (bs : list Z) : str := from_utf8_lossy_fuel (length bs) bs.

(** ** Searching and splitting *)

Fixpoint strip_prefix (p s : str) : option str :=
  match p, s with
  | [], _ => Some s
  | c :: p', d :: s' => if c =? d then strip_prefix p' s' else None
  | _ :: _, [] => None
  end.

Definition starts_with (s p : str) : bool :=
  match strip_prefix p s with
  | Some _ => true
  | None => false
  end.

Definition strip_suffix (p s : str) : option str := @rev Z <$> strip_prefix (rev p) (rev s).

(** [str::contains] of a string. *)
Fixpoint contains (s p : str) : bool :=
  starts_with s p ||
  match s with
  | [] => false
  | _ :: s' => contains s' p
  end.

(** [str::split_once] at a character: around its first occurrence. *)
Fixpoint split_once (sep : Z) (s : str) : option (str * str) :=
  match s with
  | [] => None
  | c :: s' =>
      if c =? sep then Some ([], s')
      else match split_once sep s' with
           | Some (a, b) => Some (c :: a, b)
           | None => None
           end
  end.

(** [str::split_once] at a string: around its first occurrence. *)
Fixpoint split_once_at (p s : str) : option (str * str) :=
  match strip_prefix p s with
  | Some rest => Some ([], rest)
  | None =>
      match s with
      | [] => None
      | c :: s' =>
          match split_once_at p s' with
          | Some (a, b) => Some (c :: a, b)
          | None => None
          end
      end
  end.

(** [str::rsplit_once] at a character: around its last occurrence. *)
Fixpoint rsplit_once (sep : Z) (s : str) : option (str * str) :=
  match s with
  | [] => None
  | c :: s' =>
      match rsplit_once sep s' with
      | Some (a, b) => Some (c :: a, b)
      | None => if c =? sep then Some ([], s') else None
      end
  end.

(** [Path::extension]: after the last dot, unless the name begins with that dot. *)
Definition extension (name : str) : option str :=
  match rsplit_once 46 name with
  | Some (_ :: _, ext) => Some ext
  | _ => None
  end.

(** [str::split] at a character. *)
Fixpoint split_at (sep : Z) (acc : str) (s : str) : list str :=
  match s with
  | [] => [rev acc]
  | c :: s' => if c =? sep then rev acc :: split_at sep [] s' else split_at sep (c :: acc) s'
  end.

(** [char::is_whitespace]: the Unicode property [White_Space]. *)
Definition is_whitespace (c : Z) : bool :=
  ((9 <=? c) && (c <=? 13)) || (c =? 32) || (c =? 0x85) || (c =? 0xA0) || (c =? 0x1680)
  || ((0x2000 <=? c) && (c <=? 0x200A)) || (c =? 0x2028) || (c =? 0x2029)
  || (c =? 0x202F) || (c =? 0x205F) || (c =? 0x3000).

Fixpoint trim_start (s : str) : str :=
  match s with
  | c :: s' => if is_whitespace c then trim_start s' else s
  | [] => []
  end.

Definition trim_end (s : str) : str := rev (trim_start (rev s)).

(** [str::trim]. *)
Definition trim (s : str) : str := trim_end (trim_start s).

(** [str::split_at_checked]: the two halves at byte [n], if a character starts there. *)
Fixpoint split_at_checked (n : Z) (s : str) : option (str * str) :=
  if n =? 0 then Some ([], s)
  else match s with
       | [] => None
       | c :: s' =>
           if n <? len_utf8 c then None
           else match split_at_checked (n - len_utf8 c) s' with
                | Some (a, b) => Some (c :: a, b)
                | None => None
                end
       end.

(** [str::floor_char_boundary] and [str::ceil_char_boundary]. *)
Fixpoint floor_char_boundary (n : Z) (s : str) : Z :=
  match s with
  | [] => 0
  | c :: s' =>
      if n <? len_utf8 c then 0 else len_utf8 c + floor_char_boundary (n - len_utf8 c) s'
  end.

Fixpoint ceil_char_boundary (n : Z) (s : str) : Z :=
  match s with
  | [] => 0
  | c :: s' =>
      if n <=? 0 then 0 else len_utf8 c + ceil_char_boundary (n - len_utf8 c) s'
  end.

(** [str::lines]: split at newlines, one carriage return before each dropped; what
    follows the last newline is a line if it is not empty. *)
Definition strip_cr (l : str) : str :=
  match strip_suffix [13] l with
  | Some l' => l'
  | None => l
  end.

Fixpoint lines_from (acc : str) (s : str) : list str :=
  match s with
  | [] => match acc with [] => [] | _ => [rev acc] end
  | c :: s' =>
      if c =? 10 then strip_cr (rev acc) :: lines_from [] s' else lines_from (c :: acc) s'
  end.

Definition lines (s : str) : list str := lines_from [] s.

(** [str::split_whitespace]. *)
Fixpoint words_from (acc : str) (s : str) : list str :=
  match s with
  | [] => match acc with [] => [] | _ => [rev acc] end
  | c :: s' =>
      if is_whitespace c then
        match acc with [] => words_from [] s' | _ => rev acc :: words_from [] s' end
      else words_from (c :: acc) s'
  end.

Definition split_whitespace (s : str) : list str := words_from [] s.

Definition to_ascii_lowercase (s : str) : str :=
  map (fun c => if (65 <=? c) && (c <=? 90) then c + 32 else c) s.

(** [slice::join]. *)
Fixpoint join (sep : str) (l : list str) : str :=
  match l with
  | [] => []
  | [x] => x
  | x :: l' => x ++ sep ++ join sep l'
  end.

(** ** Numbers *)

Definition is_digit (c : Z) : bool := (48 <=? c) && (c <=? 57).

Fixpoint parse_digits (max acc : Z) (s : str) : option Z :=
  match s with
  | [] => Some acc
  | c :: s' =>
      if is_digit c then
        let acc' := acc * 10 + (c - 48) in
        if acc' <=? max then parse_digits max acc' s' else None
      else None
  end.

(** [str::parse] to an unsigned integer of range [0..=max]: one or more digits after an
    optional plus sign, with no overflow. *)
Definition parse_uint (max : Z) (s : str) : option Z :=
  match s with
  | [] => None
  | c :: s' =>
      let ds := if c =? 43 then s' else s in
      match ds with
      | [] => None
      | _ => parse_digits max 0 ds
      end
  end.

Fixpoint show_digits (fuel : nat) (n : Z) (acc : str) : str :=
  match fuel with
  | O => acc
  | S fuel =>
      let acc' := (48 + n mod 10) :: acc in
      if n <? 10 then acc' else show_digits fuel (n / 10) acc'
  end.

(** [Display] of an unsigned integer. A number of [b] bits has at most [b] digits. *)
Definition show_uint (n : Z) : str := show_digits (S (Z.to_nat (Z.log2 n))) n [].

(** ** Lemmas *)

Lemma str_eqb_eq a b : str_eqb a b = true <-> a = b.
Proof. apply bool_decide_eq_true. Qed.

Lemma str_eqb_refl a : str_eqb a a = true.
Proof. by apply str_eqb_eq. Qed.

Lemma str_eqb_ne a b : a <> b -> str_eqb a b = false.
Proof. apply bool_decide_eq_false_2. Qed.

Lemma len_utf8_pos c : 1 <= len_utf8 c <= 4.
Proof. unfold len_utf8. repeat case_match; lia. Qed.

Lemma str_len_nonneg s : 0 <= str_len s.
Proof. induction s as [|c s IH]; simpl; [lia|]. pose proof (len_utf8_pos c). lia. Qed.

Lemma str_len_app a b : str_len (a ++ b) = str_len a + str_len b.
Proof. induction a as [|c a IH]; simpl; [done|]. lia. Qed.

Lemma str_len_nil s : str_len s = 0 <-> s = [].
Proof.
  split; [|by intros ->]. destruct s as [|c s]; simpl; [done|].
  pose proof (len_utf8_pos c). pose proof (str_len_nonneg s). lia.
Qed.

Lemma length_encode_char c : Z.of_nat (length (encode_char c)) = len_utf8 c.
Proof. unfold encode_char, len_utf8. by repeat case_match. Qed.

Lemma length_as_bytes s : Z.of_nat (length (as_bytes s)) = str_len s.
Proof.
  induction s as [|c s IH]; [done|]. cbn. rewrite length_app, Nat2Z.inj_add.
  by rewrite length_encode_char, <- IH.
Qed.

Lemma decode_encode_char c rest :
  valid_char c = true -> decode_char (encode_char c ++ rest) = Some (c, rest).
Proof.
  intros Hv. pose proof Hv as Hr.
  unfold valid_char in Hr. rewrite orb_true_iff in Hr.
  assert (0 <= c <= 0x10FFFF) as Hc by (destruct Hr; bool_to_prop; lia). clear Hr.
  pose proof (Z.div_mod c 64 ltac:(lia)). pose proof (Z.mod_pos_bound c 64 ltac:(lia)).
  pose proof (Z.div_mod (c / 64) 64 ltac:(lia)).
  pose proof (Z.mod_pos_bound (c / 64) 64 ltac:(lia)).
  pose proof (Z.div_mod (c / 4096) 64 ltac:(lia)).
  pose proof (Z.mod_pos_bound (c / 4096) 64 ltac:(lia)).
  assert (c / 64 / 64 = c / 4096) by (rewrite Z.div_div by lia; f_equal; lia).
  assert (c / 4096 / 64 = c / 262144) by (rewrite Z.div_div by lia; f_equal; lia).
  unfold encode_char.
  destruct (Z.ltb_spec c 0x80); [|destruct (Z.ltb_spec c 0x800);
    [|destruct (Z.ltb_spec c 0x10000)]]; cbn [app decode_char]; unfold is_cont;
    repeat (case_match; bool_to_prop; try lia);
    repeat match goal with
    | H : context [if ?b then _ else _] |- _ => destruct b eqn:?
    | H : _ && _ = false |- _ => apply andb_false_iff in H; destruct H
    end; bool_to_prop; try lia; simplify_eq; try done;
    repeat f_equal; try lia; exfalso;
    match goal with
    | H : valid_char ?e = false |- _ => replace e with c in H by lia; congruence
    end.
Qed.

Lemma from_utf8_as_bytes s : valid_str s -> from_utf8 (as_bytes s) = Some s.
Proof.
  unfold from_utf8. intros Hv.
  enough (forall n, (length (as_bytes s) <= n)%nat ->
    from_utf8_fuel n (as_bytes s) = Some s) by auto.
  induction Hv as [|c s Hc Hv IH]; intros n Hn; [by destruct n|].
  change (as_bytes (c :: s)) with (encode_char c ++ as_bytes s) in *.
  assert (length (encode_char c) > 0)%nat as Hpos
    by (pose proof (length_encode_char c); pose proof (len_utf8_pos c); lia).
  rewrite length_app in Hn. destruct n as [|n]; [lia|].
  destruct (encode_char c ++ as_bytes s) as [|b bs] eqn:E.
  { apply (f_equal length) in E. rewrite length_app in E. simpl in E. lia. }
  cbn [from_utf8_fuel]. rewrite <- E, decode_encode_char by done.
  rewrite IH by lia. done.
Qed.

(** A text that starts with the bytes of [s] starts with [s]. *)
Lemma from_utf8_prefix s tl r :
  valid_str s -> from_utf8 (as_bytes s ++ tl) = Some r -> exists t, r = s ++ t.
Proof.
  unfold from_utf8. generalize (length (as_bytes s ++ tl)) as n. intros n Hv. revert n r.
  induction Hv as [|c s Hc Hv IH]; intros n r H; [by exists r|].
  change (as_bytes (c :: s)) with (encode_char c ++ as_bytes s) in H. rewrite <- app_assoc in H.
  pose proof (length_encode_char c). pose proof (len_utf8_pos c).
  destruct (encode_char c ++ as_bytes s ++ tl) as [|b bs] eqn:E.
  { apply (f_equal length) in E. rewrite length_app in E. simpl in E. lia. }
  destruct n as [|n]; [done|]. cbn [from_utf8_fuel] in H.
  rewrite <- E, decode_encode_char in H by done.
  apply fmap_Some in H as (r' & H & ->). apply IH in H as [t ->]. by exists t.
Qed.

Lemma strip_prefix_spec p s r : strip_prefix p s = Some r <-> s = p ++ r.
Proof.
  revert s; induction p as [|c p IH]; intros [|d s]; simpl.
  - by split; intros; simplify_eq.
  - by split; intros; simplify_eq.
  - done.
  - destruct (Z.eqb_spec c d); [subst; rewrite IH|]; naive_solver.
Qed.

Lemma strip_prefix_app p r : strip_prefix p (p ++ r) = Some r.
Proof. by apply strip_prefix_spec. Qed.

Lemma starts_with_spec s p : starts_with s p = true <-> exists r, s = p ++ r.
Proof.
  unfold starts_with. destruct (strip_prefix p s) as [r|] eqn:E.
  - apply strip_prefix_spec in E. naive_solver.
  - split; [done|]. intros [r Hr%strip_prefix_spec]. congruence.
Qed.

Lemma strip_suffix_spec p s r : strip_suffix p s = Some r <-> s = r ++ p.
Proof.
  unfold strip_suffix. rewrite fmap_Some. setoid_rewrite strip_prefix_spec. split.
  - intros (x & Hx & ->). rewrite <- (rev_involutive s), Hx, rev_app_distr.
    by rewrite rev_involutive.
  - intros ->. exists (rev r). by rewrite rev_app_distr, rev_involutive.
Qed.

Lemma contains_spec s p : contains s p = true <-> exists a b, s = a ++ p ++ b.
Proof.
  induction s as [|c s IH]; cbn [contains]; rewrite orb_true_iff, starts_with_spec.
  - split.
    + intros [[r Hr]|]; [|done]. by exists [], r.
    + intros (a & b & H). symmetry in H.
      apply app_eq_nil in H as [-> [-> ->]%app_eq_nil]. left. by exists [].
  - rewrite IH. split.
    + intros [[r Hr]|(a & b & ->)]; [by exists [], r|by exists (c :: a), b].
    + intros ([|x a] & b & H); simpl in *; simplify_eq; naive_solver.
Qed.

Lemma split_once_spec sep s a b :
  split_once sep s = Some (a, b) <-> s = a ++ sep :: b /\ sep ∉ a.
Proof.
  revert a b; induction s as [|c s IH]; intros a b; simpl.
  - split; [done|]. intros [H _]. by destruct a.
  - destruct (Z.eqb_spec c sep) as [->|Hne].
    + split; [intros; simplify_eq; split; [done|apply not_elem_of_nil]|].
      intros [H Hn]. destruct a as [|x a]; simplify_eq/=; [done|].
      exfalso. apply Hn. left.
    + split.
      * case_match; [|done]. case_match. intros; simplify_eq.
        destruct (proj1 (IH _ _) eq_refl) as [-> Hn]. split; [done|].
        apply not_elem_of_cons. naive_solver.
      * intros [H Hn]. destruct a as [|x a]; simplify_eq/=.
        apply not_elem_of_cons in Hn as [_ Hn].
        by rewrite (proj2 (IH a b)).
Qed.

Lemma trim_start_spec s :
  exists w, s = w ++ trim_start s /\ Forall (fun c => is_whitespace c = true) w /\
  match trim_start s with c :: _ => is_whitespace c = false | [] => True end.
Proof.
  induction s as [|c s (w & Hs & Hw & Hh)]; simpl; [by exists []|].
  destruct (is_whitespace c) eqn:E.
  - exists (c :: w). split_and!; [by rewrite Hs at 1|by constructor|done].
  - exists []. by split_and!.
Qed.

Lemma trim_nil_iff s : trim s = [] <-> Forall (fun c => is_whitespace c = true) s.
Proof.
  assert (forall t, trim_start t = [] <-> Forall (fun c => is_whitespace c = true) t) as H.
  { induction t as [|c t IH]; simpl; [by split|].
    rewrite Forall_cons. destruct (is_whitespace c); naive_solver. }
  unfold trim, trim_end. split; intros E.
  - apply (f_equal (@rev Z)) in E. rewrite rev_involutive in E. simpl in E.
    apply H in E. apply Forall_rev in E. rewrite rev_involutive in E.
    destruct (trim_start_spec s) as (w & -> & Hw & _). by apply Forall_app.
  - apply H in E. by rewrite E.
Qed.

Lemma split_at_checked_spec n s a b :
  0 <= n -> split_at_checked n s = Some (a, b) <-> s = a ++ b /\ str_len a = n.
Proof.
  revert n a b; induction s as [|c s IH]; intros n a b Hn; cbn [split_at_checked].
  - destruct (Z.eqb_spec n 0) as [->|].
    + split; [intros; by simplify_eq|].
      intros [H%eq_sym%app_eq_nil _]. naive_solver.
    + split; [done|]. intros [H%eq_sym%app_eq_nil H']. destruct H; subst. done.
  - pose proof (len_utf8_pos c). destruct (Z.eqb_spec n 0) as [->|].
    + split; [intros; by simplify_eq|]. intros [H' ->%str_len_nil]. by simpl in H'; subst.
    + destruct (Z.ltb_spec n (len_utf8 c)).
      * split; [done|]. intros [H' <-]. destruct a as [|x a]; simpl in *; [done|].
        simplify_eq. pose proof (str_len_nonneg a). lia.
      * split.
        -- case_match; [|done]. case_match; subst. intros; simplify_eq/=.
           destruct (proj1 (IH (n - len_utf8 c) _ _ ltac:(lia)) ltac:(done)). subst.
           split; [done|]. lia.
        -- intros [H' Hl]. destruct a as [|x a]; simplify_eq/=.
           rewrite (proj2 (IH (len_utf8 x + str_len a - len_utf8 x) a b ltac:(lia)));
             [done|]. split; [done|]. lia.
Qed.

Lemma split_at_checked_app a b : split_at_checked (str_len a) (a ++ b) = Some (a, b).
Proof. apply split_at_checked_spec; [apply str_len_nonneg|done]. Qed.

(** The floor of an offset is the end of a prefix, within three bytes of it. *)
Lemma floor_char_boundary_spec n s :
  0 <= n -> exists a b, s = a ++ b /\ str_len a = floor_char_boundary n s /\
  str_len a <= n /\ (n <= str_len s -> n - 3 <= str_len a).
Proof.
  revert n; induction s as [|c s IH]; intros n Hn; cbn [floor_char_boundary].
  - exists [], []. simpl. split_and!; try done. lia.
  - pose proof (len_utf8_pos c). destruct (Z.ltb_spec n (len_utf8 c)).
    + exists [], (c :: s). simpl. split_and!; try done; lia.
    + destruct (IH (n - len_utf8 c)) as (a & b & -> & Ha & ? & Hlow); [lia|].
      exists (c :: a), b. cbn [str_len app]. split_and!; [done|lia|lia|].
      rewrite str_len_app in *. intros. lia.
Qed.

(** The ceiling of an offset is the end of a prefix, within three bytes of it. *)
Lemma ceil_char_boundary_spec n s :
  n <= str_len s -> exists a b, s = a ++ b /\ str_len a = ceil_char_boundary n s /\
  n <= str_len a /\ (0 <= n -> str_len a <= n + 3).
Proof.
  revert n; induction s as [|c s IH]; intros n Hn; cbn [ceil_char_boundary str_len] in *.
  - exists [], []. simpl. split_and!; try done; lia.
  - pose proof (len_utf8_pos c). destruct (Z.leb_spec n 0).
    + exists [], (c :: s). simpl. split_and!; try done; lia.
    + destruct (IH (n - len_utf8 c)) as (a & b & -> & Ha & ? & Hup); [lia|].
      exists (c :: a), b. cbn [str_len app]. split_and!; [done|lia|lia|].
      intros. destruct (decide (0 <= n - len_utf8 c)); [lia|].
      destruct a as [|d a]; simpl in *; [lia|].
      pose proof (len_utf8_pos d). pose proof (str_len_nonneg a).
      destruct (Z.leb_spec (n - len_utf8 c) 0); lia.
Qed.

Lemma encode_char_bytes c b : 0 <= c -> b ∈ encode_char c -> b = c \/ 128 <= b.
Proof.
  intros Hc. unfold encode_char.
  pose proof (Z.mod_pos_bound c 64 ltac:(lia)). pose proof (Z.mod_pos_bound (c / 64) 64 ltac:(lia)).
  pose proof (Z.mod_pos_bound (c / 4096) 64 ltac:(lia)).
  assert (0 <= c / 64 /\ 0 <= c / 4096 /\ 0 <= c / 262144) by (split_and!; apply Z.div_pos; lia).
  repeat case_match; rewrite ?elem_of_cons, ?elem_of_nil; intros; destruct_or?; subst; lia || done || auto.
Qed.

Lemma as_bytes_app a b : as_bytes (a ++ b) = as_bytes a ++ as_bytes b.
Proof. apply bind_app. Qed.

Lemma valid_str_nonneg s c : valid_str s -> c ∈ s -> 0 <= c.
Proof.
  intros Hv Hc. unfold valid_str in Hv. rewrite Forall_forall in Hv.
  specialize (Hv c Hc). unfold valid_char in Hv.
  apply orb_true_iff in Hv as [Hv|Hv]; bool_to_prop; lia.
Qed.

(** An ASCII byte of the encoding is a character of the text. *)
Lemma as_bytes_ascii s b : valid_str s -> b < 128 -> b ∈ as_bytes s -> b ∈ s.
Proof.
  intros Hv Hb Hin. unfold as_bytes in Hin. apply list_elem_of_bind in Hin as (c & Hin & Hc).
  apply encode_char_bytes in Hin as [->|]; [done|lia|by eapply valid_str_nonneg].
Qed.

(** ** Numbers read back *)

Lemma show_digits_are_digits fuel n acc :
  Forall (fun c => is_digit c = true) acc -> Forall (fun c => is_digit c = true) (show_digits fuel n acc).
Proof.
  revert n acc. induction fuel as [|fuel IH]; intros n acc Ha; cbn [show_digits]; [done|].
  assert (Forall (fun c => is_digit c = true) ((48 + n mod 10) :: acc)).
  { constructor; [|done]. pose proof (Z.mod_pos_bound n 10 ltac:(lia)). unfold is_digit. lia. }
  destruct (n <? 10); [done|]. by apply IH.
Qed.

Lemma show_uint_digits n : Forall (fun c => is_digit c = true) (show_uint n).
Proof. by apply show_digits_are_digits. Qed.

Lemma show_digits_nonempty fuel n acc : acc <> [] -> show_digits fuel n acc <> [].
Proof.
  revert n acc. induction fuel as [|fuel IH]; intros n acc Ha; cbn [show_digits]; [done|].
  destruct (n <? 10); [done|]. by apply IH.
Qed.

Lemma show_uint_nonempty n : show_uint n <> [].
Proof.
  unfold show_uint. cbn [show_digits]. destruct (n <? 10); [done|]. by apply show_digits_nonempty.
Qed.

Lemma parse_digit_app max a c rest :
  is_digit c = true -> a * 10 + (c - 48) <= max ->
  parse_digits max a (c :: rest) = parse_digits max (a * 10 + (c - 48)) rest.
Proof. intros Hc Hm. cbn [parse_digits]. by rewrite Hc, (proj2 (Z.leb_le _ _) Hm). Qed.

(** Digits written read as the number, whatever stands before and after them. *)
Lemma show_digits_read fuel n acc :
  0 <= n < 10 ^ Z.of_nat fuel -> (0 < fuel)%nat ->
  exists ds, show_digits fuel n acc = ds ++ acc /\ forall max a rest,
    0 <= a -> a * 10 ^ Z.of_nat (length ds) + n <= max ->
    parse_digits max a (ds ++ rest) = parse_digits max (a * 10 ^ Z.of_nat (length ds) + n) rest.
Proof.
  revert n acc. induction fuel as [|fuel IH]; intros n acc Hn Hf; [lia|]. cbn [show_digits].
  pose proof (Z.div_mod n 10 ltac:(lia)). pose proof (Z.mod_pos_bound n 10 ltac:(lia)).
  assert (Hd : is_digit (48 + n mod 10) = true) by (unfold is_digit; lia).
  destruct (Z.ltb_spec n 10).
  - exists [48 + n mod 10]. split; [done|]. intros max a rest Ha Hm. cbn [app length] in *. rewrite Z.pow_1_r in *.
    rewrite parse_digit_app by (done || lia). f_equal. lia.
  - rewrite Nat2Z.inj_succ, Z.pow_succ_r in Hn by lia.
    assert (0 < n / 10) by (apply Z.div_str_pos; lia).
    destruct (IH (n / 10) ((48 + n mod 10) :: acc)) as (ds & -> & Hp); [lia|destruct fuel; cbn in *; lia|].
    exists (ds ++ [48 + n mod 10]). split; [by rewrite <- app_assoc|]. intros max a rest Ha Hm.
    rewrite length_app, Nat.add_1_r, Nat2Z.inj_succ, Z.pow_succ_r in * by lia.
    assert (0 <= 10 ^ Z.of_nat (length ds)) by (apply Z.pow_nonneg; lia).
    rewrite <- app_assoc, Hp by nia. cbn [app]. rewrite parse_digit_app by (done || nia). f_equal. nia.
Qed.

(** What [Display] of an integer writes, [parse] reads. *)
Lemma parse_uint_show max n : 0 <= n <= max -> parse_uint max (show_uint n) = Some n.
Proof.
  intros Hn. pose proof (show_uint_digits n) as Hd. pose proof (show_uint_nonempty n) as Hne. unfold parse_uint.
  assert (Hp : parse_digits max 0 (show_uint n) = Some n).
  { unfold show_uint. destruct (show_digits_read (S (Z.to_nat (Z.log2 n))) n []) as (ds & -> & Hp); [|lia|].
    - rewrite Nat2Z.inj_succ, Z2Nat.id by apply Z.log2_nonneg. split; [lia|].
      destruct (decide (n = 0)) as [->|]; [done|]. pose proof (Z.log2_spec n ltac:(lia)) as [_ H].
      eapply Z.lt_le_trans; [exact H|]. apply Z.pow_le_mono_l. lia.
    - rewrite Hp by lia. done. }
  destruct (show_uint n) as [|c s]; [done|]. apply Forall_cons in Hd as [Hc _].
  destruct (Z.eqb_spec c 43) as [->|]; [done|]. exact Hp.
Qed.

(** ** Lines *)

Definition newline_free (s : str) : Prop := Forall (fun c => c <> 10) s.

Lemma lines_from_line acc l rest :
  newline_free l -> lines_from acc (l ++ 10 :: rest) = strip_cr (rev acc ++ l) :: lines rest.
Proof.
  intros Hl. revert acc; induction Hl as [|c l Hc Hl IH]; intros acc; cbn [app lines_from].
  - by rewrite app_nil_r.
  - rewrite (proj2 (Z.eqb_neq c 10) Hc), IH. cbn [rev]. by rewrite <- app_assoc.
Qed.

Lemma lines_line l rest : newline_free l -> lines (l ++ 10 :: rest) = strip_cr l :: lines rest.
Proof. apply (lines_from_line [] l rest). Qed.

(** A file of whole lines. *)
Definition whole_lines (raw : str) : Prop := raw = [] \/ exists r, raw = r ++ [10].

Lemma lines_from_app acc a b :
  lines_from acc (a ++ 10 :: b) = lines_from acc (a ++ [10]) ++ lines b.
Proof.
  revert acc; induction a as [|c a IH]; intros acc; cbn [app lines_from]; [done|].
  destruct (c =? 10); [|apply IH]. cbn [app]. f_equal. apply IH.
Qed.

Lemma lines_app raw b : whole_lines raw -> lines (raw ++ b) = lines raw ++ lines b.
Proof.
  intros [->|(r & ->)]; [done|]. unfold lines. rewrite <- app_assoc. cbn [app].
  apply lines_from_app.
Qed.

Lemma lines_newline_free s : Forall newline_free (lines s).
Proof.
  unfold lines. assert (forall acc, newline_free acc -> Forall newline_free (lines_from acc s)) as H.
  { induction s as [|c s IH]; intros acc Ha; cbn [lines_from].
    - destruct acc; [constructor|]. repeat constructor. by apply Forall_rev.
    - destruct (Z.eqb_spec c 10).
      + constructor; [|apply IH; constructor]. unfold strip_cr.
        destruct (strip_suffix [13] (rev acc)) as [l'|] eqn:E; [|by apply Forall_rev].
        apply strip_suffix_spec in E. apply Forall_rev in Ha. rewrite E in Ha.
        by apply Forall_app in Ha as [? _].
      + apply IH. by constructor. }
  apply H. constructor.
Qed.

(** ** Order

    UTF-8 orders strings as their code points do. *)

Fixpoint str_leb (a b : str) : bool :=
  match a, b with
  | [], _ => true
  | _ :: _, [] => false
  | x :: a, y :: b => if x <? y then true else if y <? x then false else str_leb a b
  end.

Lemma str_leb_total a b : str_leb a b = true \/ str_leb b a = true.
Proof.
  revert b; induction a as [|x a IH]; intros [|y b]; cbn; auto.
  destruct (Z.ltb_spec x y), (Z.ltb_spec y x); auto.
Qed.

Lemma str_leb_trans a b c : str_leb a b = true -> str_leb b c = true -> str_leb a c = true.
Proof.
  revert b c; induction a as [|x a IH]; intros [|y b] [|z c]; cbn; try done.
  destruct (Z.ltb_spec x y), (Z.ltb_spec y x), (Z.ltb_spec y z), (Z.ltb_spec z y),
    (Z.ltb_spec x z), (Z.ltb_spec z x); try done; try lia. apply IH.
Qed.

Lemma str_leb_antisym a b : str_leb a b = true -> str_leb b a = true -> a = b.
Proof.
  revert b; induction a as [|x a IH]; intros [|y b]; cbn; try done.
  destruct (Z.ltb_spec x y), (Z.ltb_spec y x); try done; try lia.
  intros. f_equal; [lia|auto].
Qed.
