(* ===== verification/Retry.v ===== *)
(** * Download retries ([crates/pipette-http/src/retry.rs])

    The backoff schedule, the jitter and the retry loop. The closures the loop is given
    ([attempt], [jitter], [sleep]) act on a world [W]; the traced world records each
    attempt and each sleep in order. *)

From Stdlib Require Import ZArith Lia.
From stdpp Require Import prelude list.
From S2P Require Import Prelude.

Local Open Scope Z_scope.

(** ** Data *)

Record RetryPolicy := {
  attempts : Z;
  first : Z;
  cap : Z;
  retry_after_limit : Z;
}.

Definition DOWNLOAD : RetryPolicy :=
  {| attempts := 5; first := from_secs 1; cap := from_secs 30;
     retry_after_limit := from_secs 120 |}.

Definition IMMEDIATE : RetryPolicy :=
  {| attempts := attempts DOWNLOAD; first := 0; cap := 0;
     retry_after_limit := retry_after_limit DOWNLOAD |}.

Inductive Disposition :=
| Permanent
| Transient (retry_after : option Z).

Definition TRANSIENT : Disposition := Transient None.

Definition valid_policy (p : RetryPolicy) : Prop :=
  in_range u32_max (attempts p) /\ in_range duration_max (first p) /\
  in_range duration_max (cap p) /\ in_range duration_max (retry_after_limit p).

(** ** The schedule *)

Definition exponential_backoff (attempt first cap : Z) : Z :=
  let doublings := Z.min (sat_sub attempt 1) 31 in
  Z.min (sat_mul duration_max first (Z.shiftl 1 doublings)) cap.

Definition full_jitter (wait roll : Z) : Z :=
  let max := if as_millis wait <=? u64_max then as_millis wait else u64_max in
  from_millis (roll mod sat_add u64_max max 1).

(** [jittered], over the draw of [random_u64]. *)
Definition jittered {W} (random_u64 : W -> Z * W) (wait : Z) (w : W) : Z * W :=
  let '(roll, w') := random_u64 w in (full_jitter wait roll, w').

(** ** The loop *)

Section WithRetries.
Context {T E W : Type} (policy : RetryPolicy).
Context (attempt : Z -> W -> result T E * W) (classify : E -> Disposition).
Context (jitter : Z -> W -> Z * W) (sleep : Z -> W -> W).

Fixpoint with_retries_loop (fuel : nat) (n : Z) (w : W) : option (result T E * W) :=
  match fuel with
  | O => None
  | S fuel =>
      match attempt n w with
      | (Ok value, w) => Some (Ok value, w)
      | (Err error, w) =>
          let again (retry_in : Z) (w : W) :=
            with_retries_loop fuel (n + 1) (sleep retry_in w) in
          match classify error with
          | Permanent => Some (Err error, w)
          | Transient retry_after =>
              if attempts policy <=? n then Some (Err error, w)
              else match retry_after with
                   | Some asked =>
                       if retry_after_limit policy <? asked then Some (Err error, w)
                       else again asked w
                   | None =>
                       let '(retry_in, w) :=
                         jitter (exponential_backoff n (first policy) (cap policy)) w in
                       again retry_in w
                   end
          end
      end
  end.

(** At most [max 1 attempts] rounds run, so this fuel is never exhausted
    ([with_retries_total]). *)
Definition with_retries (w : W) : option (result T E * W) :=
  with_retries_loop (S (Z.to_nat (attempts policy))) 1 w.
End WithRetries.

(** [retrying] is [with_retries] with the random jitter. *)
Definition retrying {T E W} (policy : RetryPolicy) (attempt : Z -> W -> result T E * W)
    (classify : E -> Disposition) (random_u64 : W -> Z * W) (thread_sleep : Z -> W -> W)
    (w : W) : option (result T E * W) :=
  with_retries policy attempt classify (jittered random_u64) thread_sleep w.

(** ** Traces *)

Section Trace.
Context {T E W : Type} (policy : RetryPolicy).
Context (attempt : Z -> W -> result T E * W) (classify : E -> Disposition).
Context (jitter : Z -> W -> Z * W) (sleep : Z -> W -> W).

Inductive event :=
| EAttempt (n : Z) (r : result T E)
| ESleep (d : Z).

Definition traced_attempt (n : Z) (w : W * list event) : result T E * (W * list event) :=
  let '(r, w') := attempt n w.1 in (r, (w', w.2 ++ [EAttempt n r])).

Definition traced_jitter (d : Z) (w : W * list event) : Z * (W * list event) :=
  let '(x, w') := jitter d w.1 in (x, (w', w.2)).

Definition traced_sleep (d : Z) (w : W * list event) : W * list event :=
  (sleep d w.1, w.2 ++ [ESleep d]).

Definition traced_run (w : W) : option (result T E * (W * list event)) :=
  with_retries policy traced_attempt classify traced_jitter traced_sleep (w, []).

(** The last attempt: nothing follows it. *)
Definition final (n : Z) (r : result T E) : Prop :=
  match r with
  | Ok _ => True
  | Err e =>
      match classify e with
      | Permanent => True
      | Transient ra =>
          attempts policy <= n \/ exists asked, ra = Some asked /\ retry_after_limit policy < asked
      end
  end.

(** The wait after a failed attempt that is tried again: what the server asked for, within
    the limit, else a jittered step of the schedule. *)
Definition wait_after (n : Z) (e : E) (d : Z) : Prop :=
  n < attempts policy /\
  match classify e with
  | Permanent => False
  | Transient (Some asked) => d = asked /\ asked <= retry_after_limit policy
  | Transient None =>
      exists w, d = (jitter (exponential_backoff n (first policy) (cap policy)) w).1
  end.

(** What a run may do from attempt [n]: the specification of the loop. *)
Inductive legal : Z -> list event -> result T E -> Prop :=
| legal_final n r : final n r -> legal n [EAttempt n r] r
| legal_again n e d tr r :
    wait_after n e d -> legal (n + 1) tr r ->
    legal n (EAttempt n (Err e) :: ESleep d :: tr) r.

Definition attempts_of (tr : list event) : list Z :=
  omap (fun e => match e with EAttempt n _ => Some n | ESleep _ => None end) tr.

Definition sleeps_of (tr : list event) : list Z :=
  omap (fun e => match e with ESleep d => Some d | EAttempt _ _ => None end) tr.

Lemma loop_legal fuel n w tr0 :
  attempts policy - n < Z.of_nat fuel -> (0 < fuel)%nat ->
  exists r w' tr,
    with_retries_loop policy traced_attempt classify traced_jitter traced_sleep fuel n
      (w, tr0) = Some (r, (w', tr0 ++ tr)) /\ legal n tr r.
Proof.
  revert n w tr0; induction fuel as [|fuel IH]; intros n w tr0 Hn Hf; [lia|].
  cbn [with_retries_loop]. unfold traced_attempt at 1. cbn [fst snd].
  destruct (attempt n w) as [[value|e] w1] eqn:Ea.
  { exists (Ok value), w1, [EAttempt n (Ok value)]. split; [done|]. by constructor. }
  assert (forall d w2, wait_after n e d -> n < attempts policy -> exists r w' tr,
    with_retries_loop policy traced_attempt classify traced_jitter traced_sleep fuel (n + 1)
      (traced_sleep d (w2, tr0 ++ [EAttempt n (Err e)])) = Some (r, (w', tr0 ++ tr)) /\
    legal n tr r) as Hagain.
  { intros d w2 Hd Hlt. destruct (IH (n + 1) (sleep d w2)
      (tr0 ++ [EAttempt n (Err e); ESleep d])) as (r & w' & tr & H & Hl); [lia|lia|].
    exists r, w', (EAttempt n (Err e) :: ESleep d :: tr). split; [|by constructor].
    unfold traced_sleep. cbn [fst snd]. rewrite <- !app_assoc in *. exact H. }
  assert (forall b : bool, final n (Err e) -> exists r w' tr,
    Some (Err e, (w1, tr0 ++ [EAttempt n (Err e)])) = Some (r, (w', tr0 ++ tr)) /\
    legal n tr r) as Hstop.
  { intros _ Hfin. exists (Err e), w1, [EAttempt n (Err e)]. split; [done|]. by constructor. }
  destruct (classify e) as [|ra] eqn:Ec; [apply (Hstop true); simpl; by rewrite Ec|].
  destruct (Z.leb_spec (attempts policy) n).
  { apply (Hstop true). simpl. rewrite Ec. by left. }
  destruct ra as [asked|].
  - destruct (Z.ltb_spec (retry_after_limit policy) asked).
    + apply (Hstop true). simpl. rewrite Ec. right. eauto.
    + apply Hagain; [|lia]. split; [lia|]. rewrite Ec. done.
  - unfold traced_jitter. cbn [fst snd].
    destruct (jitter _ w1) as [d w2] eqn:Ej. apply Hagain; [|lia].
    split; [lia|]. rewrite Ec. exists w1. by rewrite Ej.
Qed.

Lemma legal_attempts n tr r :
  legal n tr r -> exists k, (0 < k)%nat /\ attempts_of tr = seqZ n (Z.of_nat k) /\
  length (sleeps_of tr) = pred k /\ n + Z.of_nat k - 1 <= Z.max n (attempts policy).
Proof.
  induction 1 as [n r Hf|n e d tr r [Hlt Hd] Hl (k & Hk & Ha & Hs & Hb)].
  - exists 1%nat. split_and!; try done; lia.
  - exists (S k).
    change (attempts_of (EAttempt n (Err e) :: ESleep d :: tr)) with (n :: attempts_of tr).
    change (sleeps_of (EAttempt n (Err e) :: ESleep d :: tr)) with (d :: sleeps_of tr).
    rewrite (seqZ_cons n), Ha by lia. cbn [length pred]. split_and!; [lia| |lia|lia].
    f_equal. replace (Z.succ n) with (n + 1) by lia. f_equal. lia.
Qed.

Lemma legal_last n tr r : legal n tr r -> exists k tr', tr = tr' ++ [EAttempt k r] /\ final k r.
Proof.
  induction 1 as [n r Hf|n e d tr r Hd Hl (k & tr' & -> & Hf)].
  - by exists n, [].
  - by exists k, (EAttempt n (Err e) :: ESleep d :: tr').
Qed.

Lemma legal_sleeps n tr r (P : Z -> Prop) :
  (forall n e d, wait_after n e d -> P d) -> legal n tr r -> Forall P (sleeps_of tr).
Proof. intros HP. induction 1; [constructor|]. apply Forall_cons. eauto. Qed.
End Trace.

(** ** Theorems *)

Lemma exponential_backoff_range attempt first cap :
  0 <= first -> 0 <= cap -> 0 <= exponential_backoff attempt first cap <= cap.
Proof.
  intros. unfold exponential_backoff.
  assert (0 <= Z.shiftl 1 (Z.min (sat_sub attempt 1) 31)) by (apply Z.shiftl_nonneg; lia).
  assert (0 <= duration_max) by (vm_compute; discriminate).
  pose proof (sat_mul_range duration_max first
    (Z.shiftl 1 (Z.min (sat_sub attempt 1) 31)) ltac:(done) ltac:(done) ltac:(done)).
  unfold in_range in *. lia.
Qed.

Lemma full_jitter_range wait roll :
  in_range duration_max wait -> 0 <= full_jitter wait roll <= wait.
Proof.
  intros Hw. unfold full_jitter.
  set (max := if as_millis wait <=? u64_max then as_millis wait else u64_max).
  assert (0 <= max <= as_millis wait /\ max <= u64_max) as (Hm & Hmu).
  { subst max. assert (0 <= as_millis wait) by (apply Z.div_pos; solve_bounds).
    cases; solve_bounds. }
  assert (0 <= roll mod sat_add u64_max max 1 <= max) as Hr.
  { assert (1 <= sat_add u64_max max 1 <= max + 1) by solve_bounds.
    pose proof (Z.mod_pos_bound roll (sat_add u64_max max 1)). lia. }
  unfold from_millis. assert (as_millis wait * ns_per_ms <= wait).
  { unfold as_millis. rewrite Z.mul_comm. apply Z.mul_div_le. done. }
  assert (0 < ns_per_ms) by done. nia.
Qed.

(** The schedule. The wait after the [n]-th failure is the first wait doubled [n - 1]
    times and held to the cap, for every attempt a [u32] counts: clamping the exponent at
    31 doublings and saturating the product change nothing a cap below [2^31] times a
    nonzero first wait can see. *)
Theorem exponential_backoff_exact (n first cap : Z) :
  1 <= n <= u32_max -> in_range duration_max cap -> 0 < first ->
  cap <= first * 2 ^ 31 ->
  exponential_backoff n first cap = Z.min (first * 2 ^ (n - 1)) cap.
Proof.
  intros Hn Hc Hf Hcap. unfold exponential_backoff, sat_sub, sat_mul, in_range in *.
  rewrite Z.shiftl_1_l, Z.max_r by lia.
  destruct (Z.min_spec (n - 1) 31) as [[Hlt ->]|[Hge ->]]; [lia|].
  assert (first * 2 ^ 31 <= first * 2 ^ (n - 1)).
  { apply Z.mul_le_mono_nonneg_l; [lia|]. apply Z.pow_le_mono_r; lia. }
  lia.
Qed.

Lemma exponential_backoff_exact_witness :
  exponential_backoff 7 (first DOWNLOAD) (cap DOWNLOAD) = from_secs 30 /\
  exponential_backoff 3 (first DOWNLOAD) (cap DOWNLOAD) = from_secs 4.
Proof.
  split.
  - rewrite (exponential_backoff_exact 7); try (split; vm_compute; congruence); try done.
  - rewrite (exponential_backoff_exact 3); try (split; vm_compute; congruence); try done.
Defined.

(** The retry loop against its specification, for every attempt, classifier, jitter
    and sleep. It always returns; the attempts it made are numbered 1, 2, ... without a
    gap and are at most the policy's (one, when the policy allows none); exactly one sleep
    separates two attempts; the answer is the outcome of the last attempt, which was a
    success, a permanent failure, the last attempt allowed, or a server that asked for a
    longer wait than the limit; and every earlier attempt failed transiently ([legal]). *)
Theorem with_retries_correct {T E W} (policy : RetryPolicy)
    (attempt : Z -> W -> result T E * W) (classify : E -> Disposition)
    (jitter : Z -> W -> Z * W) (sleep : Z -> W -> W) (w : W) :
  exists r w' tr k,
    traced_run policy attempt classify jitter sleep w = Some (r, (w', tr)) /\
    legal policy classify jitter 1 tr r /\
    attempts_of tr = seqZ 1 (Z.of_nat (S k)) /\
    Z.of_nat (S k) <= Z.max 1 (attempts policy) /\
    length (sleeps_of tr) = k /\
    exists n tr', tr = tr' ++ [EAttempt n r] /\ final policy classify n r.
Proof.
  destruct (loop_legal policy attempt classify jitter sleep
    (S (Z.to_nat (attempts policy))) 1 w []) as (r & w' & tr & H & Hl); [lia|lia|].
  destruct (legal_attempts _ _ _ _ _ _ Hl) as ([|k] & Hk & Ha & Hs & Hb); [lia|].
  exists r, w', tr, k. split_and!; [exact H|done|done|lia|done|].
  eapply legal_last; eauto.
Qed.

(** No sleep of a download's retries is longer than the schedule's cap or the
    [Retry-After] limit, whatever the random draws are. *)
Theorem retrying_sleeps_bounded {T E W} (policy : RetryPolicy)
    (attempt : Z -> W -> result T E * W) (classify : E -> Disposition)
    (random_u64 : W -> Z * W) (sleep : Z -> W -> W) (w w' : W) (r : result T E) tr :
  valid_policy policy ->
  traced_run policy attempt classify (jittered random_u64) sleep w = Some (r, (w', tr)) ->
  Forall (fun d => d <= Z.max (cap policy) (retry_after_limit policy)) (sleeps_of tr).
Proof.
  intros (_ & Hf & Hc & Hl) Hrun.
  destruct (loop_legal policy attempt classify (jittered random_u64) sleep
    (S (Z.to_nat (attempts policy))) 1 w []) as (r' & w2 & tr' & H & Hleg); [lia|lia|].
  unfold traced_run, with_retries in Hrun. rewrite H in Hrun. simplify_eq/=.
  eapply legal_sleeps; [|exact Hleg]. intros n e d [_ Hd].
  destruct (classify e) as [|[asked|]]; [done|lia|].
  destruct Hd as (w0 & ->). unfold jittered. destruct (random_u64 w0) as [roll w1]. simpl.
  pose proof (exponential_backoff_range n (first policy) (cap policy)
    ltac:(solve_bounds) ltac:(solve_bounds)).
  pose proof (full_jitter_range (exponential_backoff n (first policy) (cap policy)) roll
    ltac:(unfold in_range in *; lia)). lia.
Qed.

(** A source that is refused twice, the second time with a [Retry-After], then answers. *)
Definition flaky_attempt (n : Z) (w : unit) : result Z Z * unit :=
  (if n <? 3 then Err n else Ok 42, w).
Definition flaky_classify (e : Z) : Disposition :=
  if e =? 2 then Transient (Some (from_secs 7)) else TRANSIENT.

Lemma retrying_sleeps_bounded_witness :
  exists tr, traced_run DOWNLOAD flaky_attempt flaky_classify
    (jittered (fun w => (123456, w))) (fun _ w => w) tt = Some (Ok 42, (tt, tr)) /\
  sleeps_of tr = [from_millis 333; from_secs 7] /\
  Forall (fun d => d <= Z.max (cap DOWNLOAD) (retry_after_limit DOWNLOAD)) (sleeps_of tr).
Proof.
  eexists. split; [vm_compute; reflexivity|]. split; [vm_compute; reflexivity|].
  eapply (retrying_sleeps_bounded DOWNLOAD flaky_attempt flaky_classify
    (fun w => (123456, w)) (fun _ w => w) tt tt (Ok 42)).
  - repeat split; vm_compute; congruence.
  - vm_compute; reflexivity.
Defined.
