(* ===== verification/Http.v ===== *)
(** * The HTTP gate ([crates/pipette-http/src/lib.rs])

    What a request ends with: its response, or the error every download classifies. The
    request itself is made by reqwest, whose answer and whose error's tests are data here. *)

From Stdlib Require Import ZArith Lia String.
From stdpp Require Import prelude list.
From S2P Require Import Prelude Str Retry.

Local Open Scope Z_scope.

(** The tests the sources make of reqwest's error. *)
Record ReqwestError := { is_builder : bool; is_redirect : bool; request_timed_out : bool }.

Inductive HttpError :=
| CryptoProviderInstall
| ClientBuild (message : str)
| Request (e : ReqwestError)
| TimedOut (after : Z) (source : ReqwestError)
| Status (status : Z) (body : str) (retry_after : option Z)
| Json (message : str).

Definition is_server_error (status : Z) : bool := (500 <=? status) && (status <? 600).
Definition is_success (status : Z) : bool := (200 <=? status) && (status <? 300).
Definition TOO_MANY_REQUESTS : Z := 429.

Definition disposition (e : HttpError) : Disposition :=
  match e with
  | Request e => if is_builder e || is_redirect e then Permanent else TRANSIENT
  | TimedOut _ _ => TRANSIENT
  | Status status _ retry_after =>
      if is_server_error status || (status =? TOO_MANY_REQUESTS) then Transient retry_after
      else Permanent
  | CryptoProviderInstall | ClientBuild _ | Json _ => Permanent
  end.

(** ** A refusal *)

Definition REFUSAL_BODY_LIMIT : Z := 4096.

(** [refusal_body], of the bytes the read delivered before it ended or broke. *)
Definition refusal_body (delivered : list Z) : str :=
  let bytes := take (Z.to_nat (REFUSAL_BODY_LIMIT + 1)) delivered in
  let text := trim (from_utf8_lossy bytes) in
  if Z.of_nat (length bytes) <=? REFUSAL_BODY_LIMIT then text
  else
    let head :=
      match split_at_checked (floor_char_boundary REFUSAL_BODY_LIMIT text) text with
      | Some (head, _) => head
      | None => text
      end in
    trim_end head ++ lit "...".

(** [retry_after], of the header's value: seconds, or nothing. *)
Definition retry_after_of (header : option str) : option Z :=
  value ← header; from_secs <$> parse_uint u64_max (trim value).

Definition body_suffix (body : str) : str :=
  match body with [] => [] | _ => lit ": " ++ body end.

(** A response as its reader meets it. *)
Record Response := {
  response_status : Z;
  retry_after_header : option str;
  length_header : option str;
  body : list Z;
}.

(** [send], of what reqwest answered after [elapsed]. *)
Definition send (answer : result Response ReqwestError) (elapsed : Z) : result Response HttpError :=
  match answer with
  | Err source => Err (if request_timed_out source then TimedOut elapsed source else Request source)
  | Ok response =>
      if is_success (response_status response) then Ok response
      else Err (Status (response_status response) (refusal_body (body response))
                  (retry_after_of (retry_after_header response)))
  end.

(** ** Lemmas *)

Lemma trim_start_suffix s : exists p, s = p ++ trim_start s.
Proof.
  induction s as [|c s [p IH]]; [by exists []|]. cbn. destruct (is_whitespace c).
  - exists (c :: p). cbn. by rewrite <- IH.
  - by exists [].
Qed.

Lemma trim_end_prefix s : exists t, s = trim_end s ++ t.
Proof.
  destruct (trim_start_suffix (rev s)) as [p Hp]. exists (rev p). unfold trim_end.
  rewrite <- rev_app_distr, <- Hp. by rewrite rev_involutive.
Qed.

Lemma trim_end_len s : str_len (trim_end s) <= str_len s.
Proof.
  destruct (trim_end_prefix s) as [t Ht]. rewrite Ht at 2. rewrite str_len_app.
  pose proof (str_len_nonneg t). lia.
Qed.

(** A long refusal keeps its head: at most [REFUSAL_BODY_LIMIT] bytes and the ellipsis. *)
Lemma long_refusal_bounded delivered :
  REFUSAL_BODY_LIMIT < Z.of_nat (length delivered) ->
  str_len (refusal_body delivered) <= REFUSAL_BODY_LIMIT + 3.
Proof.
  intros Hlen. unfold refusal_body. rewrite length_take.
  destruct (Z.leb_spec (Z.of_nat (Nat.min (Z.to_nat (REFUSAL_BODY_LIMIT + 1)) (length delivered)))
    REFUSAL_BODY_LIMIT) as [Hl|_]; [unfold REFUSAL_BODY_LIMIT in *; lia|].
  set (text := trim _). clearbody text.
  destruct (floor_char_boundary_spec REFUSAL_BODY_LIMIT text) as (a & b & Hab & Hla & Hle & _);
    [unfold REFUSAL_BODY_LIMIT; lia|].
  assert (split_at_checked (floor_char_boundary REFUSAL_BODY_LIMIT text) text = Some (a, b)) as ->
    by (rewrite <- Hla, Hab; apply split_at_checked_app).
  rewrite str_len_app. change (str_len (lit "...")) with 3.
  pose proof (trim_end_len a). lia.
Qed.

(** A refusal is tried again exactly when the server failed or asked to slow down; its
    [Retry-After] is then what the retry waits. *)
Lemma refusal_disposition response elapsed e :
  is_success (response_status response) = false -> send (Ok response) elapsed = Err e ->
  disposition e =
    if is_server_error (response_status response) || (response_status response =? TOO_MANY_REQUESTS)
    then Transient (retry_after_of (retry_after_header response)) else Permanent.
Proof. unfold send. intros ->. by intros [= <-]. Qed.
