(* ===== verification/Timing.v ===== *)
(** * Claim-loop timing ([crates/pipette-cli/src/client/worker/timing.rs])

    The ISO 8601 window a claim carries, the heartbeat interval it gives, the idle wait,
    and the bounded retry the worker submits results through. *)

From Stdlib Require Import ZArith Lia String.
From stdpp Require Import prelude list.
From S2P Require Import Prelude Str Retry.

Local Open Scope Z_scope.

Definition DEFAULT_IDLE_WAIT : Z := from_secs (5 * 60).
Definition DEFAULT_IDLE_JITTER : Z := from_secs 60.

(** ** The window *)

(** The loop of [parse_iso8601_duration] over the characters after [PT]. *)
Fixpoint parse_iso8601_chars (total_secs num : Z) (saw_digit : bool) (s : str) : option Z :=
  match s with
  | [] => if saw_digit then None else Some (from_secs total_secs)
  | ch :: rest =>
      let unit (secs : Z) :=
        parse_iso8601_chars (sat_add u64_max total_secs secs) 0 false rest in
      if (48 <=? ch) && (ch <=? 57) then
        parse_iso8601_chars total_secs
          (sat_add u64_max (sat_mul u64_max num 10) (ch - 48)) true rest
      else if ((ch =? 72) || (ch =? 104)) && saw_digit then unit (sat_mul u64_max num 3600)
      else if ((ch =? 77) || (ch =? 109)) && saw_digit then unit (sat_mul u64_max num 60)
      else if ((ch =? 83) || (ch =? 115)) && saw_digit then unit num
      else None
  end.

Definition parse_iso8601_duration (raw : str) : option Z :=
  let s := trim raw in
  match option_or (strip_prefix (lit "PT") s) (strip_prefix (lit "pt") s) with
  | None => None
  | Some [] => None
  | Some rest => parse_iso8601_chars 0 0 false rest
  end.

Definition resolve_heartbeat_interval (time_window : str) (override_secs : option Z) : Z :=
  let window := default (from_secs (10 * 60)) (parse_iso8601_duration time_window) in
  let half := let h := window / 2 in if h =? 0 then from_secs 1 else h in
  match override_secs with
  | Some secs => from_secs (Z.max secs 1)
  | None => half
  end.

(** [base + jittered(jitter)]; the addition of two durations panics on overflow ([None]). *)
Definition idle_wait_with_jitter {W} (random_u64 : W -> Z * W) (base jitter : Z) (w : W)
    : option Z * W :=
  let '(j, w') := jittered random_u64 jitter w in
  (if base + j <=? duration_max then Some (base + j) else None, w').

(** ** Bounded retries *)

Section RetryWithBackoff.
Context {T W : Type} (first cap : Z).
Context (attempt : Z -> W -> control_flow T unit * W).
Context (sleep : Z -> W -> control_flow unit unit * W).

Fixpoint retry_with_backoff (attempts : list Z) (w : W) : option T * W :=
  match attempts with
  | [] => (None, w)
  | n :: rest =>
      match attempt n w with
      | (Break answer, w) => (Some answer, w)
      | (Continue _, w) =>
          match sleep (exponential_backoff n first cap) w with
          | (Break _, w) => (None, w)
          | (Continue _, w) => retry_with_backoff rest w
          end
      end
  end.
End RetryWithBackoff.

(** ** The text of a window *)

Definition hms (h m s : Z) : str :=
  lit "PT" ++ show_uint h ++ lit "H" ++ show_uint m ++ lit "M" ++ show_uint s ++ lit "S".

(** ** Lemmas *)

(** Reading the digits [show_digits] writes before [acc] leaves the number in [num]. *)
Lemma parse_show_digits fuel n total rest :
  0 <= n <= u64_max -> n < 10 ^ Z.of_nat fuel -> (0 < fuel)%nat ->
  forall acc, exists ds, show_digits fuel n acc = ds ++ acc /\
    forall num b, 0 <= num ->
      num * 10 ^ Z.of_nat (length ds) + n <= u64_max ->
      parse_iso8601_chars total num b (ds ++ rest) =
      parse_iso8601_chars total (num * 10 ^ Z.of_nat (length ds) + n) true rest.
Proof.
  intros Hn Hlt Hf acc. revert n Hn Hlt acc rest.
  induction fuel as [|fuel IH]; intros n Hn Hlt acc rest; [lia|].
  cbn [show_digits].
  pose proof (Z.div_mod n 10 ltac:(lia)). pose proof (Z.mod_pos_bound n 10 ltac:(lia)).
  assert (forall num b r, 0 <= num -> num * 10 + n mod 10 <= u64_max ->
    parse_iso8601_chars total num b ((48 + n mod 10) :: r) =
    parse_iso8601_chars total (num * 10 + n mod 10) true r) as Hdig.
  { intros num b r H1 H2. cbn [parse_iso8601_chars].
    rewrite (proj2 (Z.leb_le 48 _)), (proj2 (Z.leb_le _ 57)) by lia. cbn [andb].
    f_equal. unfold sat_add, sat_mul. lia. }
  destruct (Z.ltb_spec n 10).
  - exists [48 + n mod 10]. split; [done|]. intros num b Hnum Hb. cbn [app length] in *.
    rewrite Z.pow_1_r in *. rewrite Z.mod_small in * by lia. rewrite Hdig by lia. done.
  - assert (n / 10 < 10 ^ Z.of_nat fuel).
    { rewrite Nat2Z.inj_succ, Z.pow_succ_r in Hlt by lia.
      apply Z.div_lt_upper_bound; lia. }
    assert (0 < fuel)%nat by (destruct fuel; [simpl in *; lia|lia]).
    assert (0 < n / 10) by (apply Z.div_str_pos; lia).
    destruct (IH ltac:(done) (n / 10) ltac:(lia) ltac:(done) ((48 + n mod 10) :: acc)
      ((48 + n mod 10) :: rest)) as (ds & Hds & Hp).
    exists (ds ++ [48 + n mod 10]). split; [by rewrite Hds, <- app_assoc|].
    intros num b Hnum Hb. rewrite length_app in *. cbn [length] in *.
    rewrite Nat.add_1_r, Nat2Z.inj_succ, Z.pow_succ_r in * by lia.
    rewrite <- app_assoc. cbn [app]. rewrite Hp by nia. rewrite Hdig by nia.
    f_equal. lia.
Qed.

Lemma parse_show_uint n total rest :
  0 <= n <= u64_max ->
  parse_iso8601_chars total 0 false (show_uint n ++ rest) =
  parse_iso8601_chars total n true rest.
Proof.
  intros Hn. unfold show_uint.
  assert (n < 10 ^ Z.of_nat (S (Z.to_nat (Z.log2 n)))) as Hlt.
  { rewrite Nat2Z.inj_succ, Z2Nat.id by apply Z.log2_nonneg.
    destruct (decide (n = 0)) as [->|]; [done|].
    pose proof (Z.log2_spec n ltac:(lia)) as [_ H].
    eapply Z.lt_le_trans; [exact H|]. apply Z.pow_le_mono_l. lia. }
  destruct (parse_show_digits _ n total rest Hn Hlt ltac:(lia) [])
    as (ds & -> & Hp).
  rewrite app_nil_r, Hp by lia. done.
Qed.

Lemma show_digits_not_space fuel n acc :
  0 <= n -> Forall (fun c => is_whitespace c = false) acc ->
  Forall (fun c => is_whitespace c = false) (show_digits fuel n acc).
Proof.
  revert n acc; induction fuel as [|fuel IH]; intros n acc Hn Ha; simpl; [done|].
  pose proof (Z.mod_pos_bound n 10 ltac:(lia)).
  assert (Forall (fun c => is_whitespace c = false) ((48 + n mod 10) :: acc)).
  { constructor; [|done]. unfold is_whitespace.
    repeat (apply orb_false_iff; split); try apply andb_false_iff; lia. }
  case_match; [done|]. apply IH; [|done]. apply Z.div_pos; lia.
Qed.

Lemma trim_no_space s : Forall (fun c => is_whitespace c = false) s -> trim s = s.
Proof.
  intros H. unfold trim, trim_end.
  assert (forall t, Forall (fun c => is_whitespace c = false) t -> trim_start t = t) as Ht.
  { intros [|c t] Hc; [done|]. simpl. apply Forall_cons in Hc as [-> _]. done. }
  rewrite (Ht s), Ht, rev_involutive by (try apply Forall_rev; done). done.
Qed.

(** ** Theorems *)

(** A window written as hours, minutes and seconds reads back as that time, whenever
    the seconds it comes to fit a [u64]. *)
Theorem parse_iso8601_roundtrip (h m s : Z) :
  0 <= h -> 0 <= m -> 0 <= s -> h * 3600 + m * 60 + s <= u64_max ->
  parse_iso8601_duration (hms h m s) = Some (from_secs (h * 3600 + m * 60 + s)).
Proof.
  intros Hh Hm Hs Hle. unfold parse_iso8601_duration.
  rewrite trim_no_space; cycle 1.
  { unfold hms, show_uint. repeat apply Forall_app_2; try (repeat constructor; fail);
      by apply show_digits_not_space. }
  unfold hms. rewrite strip_prefix_app. cbn [option_or].
  destruct (show_uint h ++ _) as [|c rest] eqn:E.
  { apply app_eq_nil in E as [_ [E _]%app_eq_nil]. done. }
  rewrite <- E. clear E. change (lit "H") with [72]. change (lit "M") with [77].
  change (lit "S") with [83]. rewrite parse_show_uint by lia.
  cbn -[show_uint sat_add sat_mul Z.add Z.mul u64_max].
  rewrite parse_show_uint by lia. cbn -[show_uint sat_add sat_mul Z.add Z.mul u64_max].
  rewrite parse_show_uint by lia. cbn -[show_uint sat_add sat_mul Z.add Z.mul u64_max].
  f_equal. f_equal. unfold sat_add, sat_mul. lia.
Qed.

Lemma parse_iso8601_roundtrip_witness :
  parse_iso8601_duration (hms 1 2 3) = Some (from_secs 3723) /\ hms 1 2 3 = lit "PT1H2M3S".
Proof.
  split; [|reflexivity].
  apply (parse_iso8601_roundtrip 1 2 3); vm_compute; congruence.
Defined.

Lemma parse_iso8601_chars_range total num b s d :
  in_range u64_max total -> in_range u64_max num ->
  parse_iso8601_chars total num b s = Some d ->
  exists secs, d = from_secs secs /\ in_range u64_max secs.
Proof.
  revert total num b; induction s as [|ch s IH]; intros total num b Ht Hnum H.
  - cbn in H. destruct b; simplify_eq. eauto.
  - cbn [parse_iso8601_chars] in H.
    assert (in_range u64_max 0) by (split; vm_compute; congruence).
    assert (0 <= u64_max) by (vm_compute; congruence).
    destruct ((48 <=? ch) && (ch <=? 57)) eqn:E.
    { bool_to_prop. eapply IH; [..|exact H]; [done|].
      unfold in_range, sat_add, sat_mul in *. lia. }
    repeat case_match; simplify_eq; (eapply IH; [..|exact H]; [|done]);
      unfold in_range, sat_add, sat_mul in *; lia.
Qed.

Lemma parse_iso8601_duration_range tw d :
  parse_iso8601_duration tw = Some d -> exists secs, d = from_secs secs /\ in_range u64_max secs.
Proof.
  intros H. unfold parse_iso8601_duration in H. repeat case_match; simplify_eq.
  eapply parse_iso8601_chars_range; [..|exact H]; split; vm_compute; congruence.
Qed.

Lemma resolve_heartbeat_interval_range tw hb :
  (forall secs, hb = Some secs -> in_range u64_max secs) ->
  in_range duration_max (resolve_heartbeat_interval tw hb).
Proof.
  intros Hhb. unfold resolve_heartbeat_interval. destruct hb as [secs|].
  { specialize (Hhb secs eq_refl). solve_bounds. }
  assert (in_range duration_max (default (from_secs (10 * 60)) (parse_iso8601_duration tw))) as Hd.
  { destruct (parse_iso8601_duration tw) as [d|] eqn:E; [|split; vm_compute; congruence].
    apply parse_iso8601_duration_range in E as (secs & -> & Hs).
    change (in_range duration_max (from_secs secs)). solve_bounds. }
  set (d := default _ _) in *. unfold in_range in *. cbv zeta. case_match.
  - split; vm_compute; congruence.
  - split; [apply Z.div_pos; lia|]. apply Z.div_le_upper_bound; lia.
Qed.

(** The heartbeat interval is never zero, and it renews a lease twice within its
    window: for a window of a second or more the default is exactly its half, an
    unreadable window counts as ten minutes, and an override is honored from a second up. *)
Theorem resolve_heartbeat_interval_spec (tw : str) :
  0 < resolve_heartbeat_interval tw None /\
  (parse_iso8601_duration tw = None ->
   resolve_heartbeat_interval tw None = from_secs 300) /\
  (forall d, parse_iso8601_duration tw = Some d ->
     (d = 0 /\ resolve_heartbeat_interval tw None = from_secs 1) \/
     (from_secs 1 <= d /\ 2 * resolve_heartbeat_interval tw None = d)) /\
  (forall secs, resolve_heartbeat_interval tw (Some secs) = from_secs (Z.max secs 1)).
Proof.
  pose proof (parse_iso8601_duration_range tw) as Hr.
  assert (forall d, parse_iso8601_duration tw = Some d ->
     (d = 0 /\ resolve_heartbeat_interval tw None = from_secs 1) \/
     (from_secs 1 <= d /\ 2 * resolve_heartbeat_interval tw None = d)) as Hd.
  { intros d H. destruct (Hr d H) as (secs & -> & Hs). unfold resolve_heartbeat_interval.
    rewrite H. change (default (from_secs (10 * 60)) (Some (from_secs secs))) with (from_secs secs). cbv zeta.
    unfold from_secs, in_range in *.
    assert (secs * ns_per_sec / 2 = secs * 500000000) as ->.
    { unfold ns_per_sec. replace (secs * 1000000000) with (secs * 500000000 * 2) by lia.
      by apply Z.div_mul. }
    unfold ns_per_sec.
    destruct (Z.eqb_spec (secs * 500000000) 0); lia. }
  split_and!; [|by unfold resolve_heartbeat_interval; intros -> |exact Hd|done].
  destruct (parse_iso8601_duration tw) as [d|] eqn:E.
  - destruct (Hd d eq_refl) as [[_ ->]|[H1 H2]]; [done|].
    unfold from_secs, ns_per_sec in *. lia.
  - unfold resolve_heartbeat_interval. by rewrite E.
Qed.

(** The floor of the default interval is not a second. The comment of
    [resolve_heartbeat_interval] says the half is floored at 1 s; the code replaces only a
    zero half, so a one-second window beats every 500 ms. *)
Theorem heartbeat_floor_is_not_one_second :
  resolve_heartbeat_interval (lit "PT1S") None = from_millis 500.
Proof. reflexivity. Qed.

Section RetryTrace.
Context {T W : Type} (first cap : Z).
Context (attempt : Z -> W -> control_flow T unit * W).
Context (sleep : Z -> W -> control_flow unit unit * W).

(** How a bounded retry may end, with the number of attempts made. *)
Inductive backoff_run : list Z -> W -> nat -> option T -> W -> Prop :=
| run_out w : backoff_run [] w 0 None w
| run_answer n rest w a w' :
    attempt n w = (Break a, w') -> backoff_run (n :: rest) w 1 (Some a) w'
| run_stopped n rest w u w1 b w' :
    attempt n w = (Continue u, w1) ->
    sleep (exponential_backoff n first cap) w1 = (Break b, w') ->
    backoff_run (n :: rest) w 1 None w'
| run_on n rest w u w1 v w2 k r w' :
    attempt n w = (Continue u, w1) ->
    sleep (exponential_backoff n first cap) w1 = (Continue v, w2) ->
    backoff_run rest w2 k r w' -> backoff_run (n :: rest) w (S k) r w'.

Lemma retry_with_backoff_run ns w :
  exists k, (k <= length ns)%nat /\
  backoff_run ns w k (retry_with_backoff first cap attempt sleep ns w).1
    (retry_with_backoff first cap attempt sleep ns w).2.
Proof.
  revert w; induction ns as [|n ns IH]; intros w; cbn [retry_with_backoff length].
  - exists 0%nat. split; [lia|constructor].
  - destruct (attempt n w) as [[a|u] w1] eqn:Ea.
    + exists 1%nat. split; [lia|]. by constructor.
    + destruct (sleep _ w1) as [[b|v] w2] eqn:Es.
      * exists 1%nat. split; [lia|]. by econstructor.
      * destruct (IH w2) as (k & Hk & Hrun). exists (S k). split; [lia|].
        by econstructor.
Qed.
End RetryTrace.
