(* ===== verification/Wait.v ===== *)
(** * Cancellable waits and the readiness gate

    [crates/pipette-wait/src/lib.rs] ([sleep_cancellably], [clamp_to_deadline]) and the
    poll loop of [crates/pipette-readiness/src/wait.rs]. A host offers a clock, the
    caller's cancel and sleep callbacks, and a probe; [HostLaws] states what the loop
    relies on of them: the clock does not run backwards and a sleep lasts as long as it
    was asked to. *)

From Stdlib Require Import ZArith Lia.
From stdpp Require Import prelude list.
From S2P Require Import Prelude Str.

Local Open Scope Z_scope.

(** ** Data *)

Definition CANCEL_CHECK_INTERVAL : Z := from_secs 1.
Definition SENSOR_POLL_INTERVAL : Z := from_secs 3.
Definition PROBE_RETRY_POLLS : nat := 3.

Inductive ReadinessPlatform :=
| Android | Linux | RaspberryPi5 | JetsonOrin | MacOs | Windows | Other.

(** The payloads that no branch of the loop reads ([std::io::Error], [OutputError], the
    names of a sensor) are strings. *)
Inductive ReadinessError :=
| ErrTimedOut (max_wait : Z) (observed : str)
| Io (source : str)
| ProbeFailed (source : str)
| ParseFailure (raw : str)
| Unavailable (what : str)
| Cancelled
| UnknownSensor (sensor available : str)
| SensorUnread (sensor : str) (waited : Z)
| BoundWithoutThermalZones
| BoundWithoutSkinSensor
| HeldTouch (pointers irq_per_sec : Z).

Record Probe := { ready : bool; summary : str }.

Inductive ReadinessPhase :=
| Waiting (poll_in : Z)
| Proceeding
| TimedOut.

Record ReadinessStatus := {
  phase : ReadinessPhase;
  platform : ReadinessPlatform;
  observed : str;
  elapsed : Z;
  status_max_wait : Z;
}.

(** ** The host *)

Class Host (W : Type) := {
  now : W -> Z * W;
  is_cancelled : W -> bool * W;
  sleep_for : Z -> W -> W;
}.

Class ReadinessHost (W : Type) := {
  readiness_host :: Host W;
  probe : W -> result Probe ReadinessError * W;
  polled : W -> W;
  report : ReadinessStatus -> W -> W;
}.

(** ** pipette-wait *)

Section Sleep.
Context {W : Type} `{Host W}.

Fixpoint sleep_cancellably_loop (fuel : nat) (remaining : Z) (w : W)
    : option (control_flow unit unit * W) :=
  match fuel with
  | O => None
  | S fuel =>
      if 0 <? remaining then
        let '(c, w) := is_cancelled w in
        if c then Some (Break tt, w)
        else
          let chunk := Z.min remaining CANCEL_CHECK_INTERVAL in
          sleep_cancellably_loop fuel (remaining - chunk) (sleep_for chunk w)
      else
        let '(c, w) := is_cancelled w in
        Some (if c then Break tt else Continue tt, w)
  end.

(** One round per started second of [total], and one to read the flag at the end. *)
Definition sleep_cancellably (total : Z) (w : W) : option (control_flow unit unit * W) :=
  sleep_cancellably_loop (Z.to_nat (total / CANCEL_CHECK_INTERVAL) + 2) total w.

Definition clamp_to_deadline (interval deadline : Z) (w : W) : Z * W :=
  let '(x, w) := now w in (Z.min interval (sat_sub deadline x), w).
End Sleep.

(** ** The readiness loop *)

Definition retriable (err : ReadinessError) : bool :=
  match err with
  | Io _ | ProbeFailed _ | ParseFailure _ | Unavailable _ => true
  | BoundWithoutThermalZones | BoundWithoutSkinSensor | UnknownSensor _ _ => false
  | HeldTouch _ _ => false
  | ErrTimedOut _ _ | Cancelled | SensorUnread _ _ => false
  end.

Section Readiness.
Context {W : Type} `{ReadinessHost W}.

(** The clock is read only when the first two tests fail. *)
Definition on_probe_failure (err : ReadinessError) (failed : nat) (deadline : Z) (w : W)
    : control_flow unit unit * W :=
  if negb (retriable err) then (Break tt, w)
  else if (PROBE_RETRY_POLLS <=? failed)%nat then (Break tt, w)
  else let '(x, w) := now w in
       (if deadline <=? x then Break tt else Continue tt, w).

Definition status_of (pf : ReadinessPlatform) (max_wait started : Z) (summary : str)
    (ph : ReadinessPhase) (w : W) : ReadinessStatus * W :=
  let '(x, w) := now w in
  ({| phase := ph; platform := pf; observed := summary;
      elapsed := sat_sub x started; status_max_wait := max_wait |}, w).

Fixpoint wait_rounds (fuel : nat) (pf : ReadinessPlatform) (max_wait started deadline : Z)
    (failed_probes : nat) (w : W) : option (result unit ReadinessError * W) :=
  match fuel with
  | O => None
  | S fuel =>
      let '(polled_at, w) := now w in
      let '(probed, w) := probe w in
      let w := polled w in
      let '(x, w) := now w in
      let '(rest, w) :=
        clamp_to_deadline (sat_sub SENSOR_POLL_INTERVAL (sat_sub x polled_at)) deadline w in
      let sleep_then (failed : nat) (w : W) :=
        match sleep_cancellably rest w with
        | None => None
        | Some (Break _, w) => Some (Err Cancelled, w)
        | Some (Continue _, w) => wait_rounds fuel pf max_wait started deadline failed w
        end in
      match probed with
      | Err err =>
          let failed_probes := S failed_probes in
          match on_probe_failure err failed_probes deadline w with
          | (Break _, w) => Some (Err err, w)
          | (Continue _, w) => sleep_then failed_probes w
          end
      | Ok p =>
          let '(c, w) := is_cancelled w in
          if c then Some (Err Cancelled, w)
          else if ready p then
            let '(s, w) := status_of pf max_wait started (summary p) Proceeding w in
            Some (Ok tt, report s w)
          else
            let '(x, w) := now w in
            if deadline <=? x then
              let '(s, w) := status_of pf max_wait started (summary p) TimedOut w in
              Some (Err (ErrTimedOut max_wait (summary p)), report s w)
            else
              let '(s, w) := status_of pf max_wait started (summary p) (Waiting rest) w in
              sleep_then 0%nat (report s w)
      end
  end.

Definition wait_loop (fuel : nat) (pf : ReadinessPlatform) (max_wait : Z) (w : W)
    : option (result unit ReadinessError * W) :=
  let '(started, w) := now w in
  let deadline := started + max_wait in
  let '(c, w) := is_cancelled w in
  if c then Some (Err Cancelled, w)
  else wait_rounds fuel pf max_wait started deadline 0 w.
End Readiness.

(** ** What the loop relies on of its host *)

Class HostLaws (W : Type) `{ReadinessHost W} := {
  time : W -> Z;
  now_law w : time w <= (now w).1 <= time (now w).2;
  cancelled_law w : time w <= time (is_cancelled w).2;
  sleep_law d w : 0 <= d -> time w + d <= time (sleep_for d w);
  probe_law w : time w <= time (probe w).2;
  polled_law w : time w <= time (polled w);
  report_law s w : time w <= time (report s w);
}.

(** The rounds a wait of [max_wait] takes at most: one per poll interval, one begun before
    the deadline and one after it. *)
Definition wait_fuel (max_wait : Z) : nat :=
  (Z.to_nat (max_wait / SENSOR_POLL_INTERVAL) + 2)%nat.

(** ** A scripted flag, for the specification of the sleep *)

Record Sleeper := { flags : nat -> bool; reads : nat; slept : list Z; clock : Z }.

#[export] Instance sleeper_host : Host Sleeper := {
  now s := (clock s, s);
  is_cancelled s := (flags s (reads s),
    {| flags := flags s; reads := S (reads s); slept := slept s; clock := clock s |});
  sleep_for d s :=
    {| flags := flags s; reads := reads s; slept := slept s ++ [d]; clock := clock s + d |};
}.

(** The pieces a sleep is cut into. *)
Definition pieces (total : Z) : list Z :=
  replicate (Z.to_nat (total / CANCEL_CHECK_INTERVAL)) CANCEL_CHECK_INTERVAL ++
  (if total mod CANCEL_CHECK_INTERVAL =? 0 then [] else [total mod CANCEL_CHECK_INTERVAL]).

Fixpoint sum_list (l : list Z) : Z :=
  match l with
  | [] => 0
  | x :: l' => x + sum_list l'
  end.

(** The flag is first seen raised before piece [k] of [l], counting reads from [r]. *)
Fixpoint sleep_spec (flag : nat -> bool) (r : nat) (l : list Z)
    : control_flow unit unit * list Z :=
  if flag r then (Break tt, [])
  else match l with
       | [] => (Continue tt, [])
       | d :: l' => let '(o, done) := sleep_spec flag (S r) l' in (o, d :: done)
       end.

(** ** Lemmas *)

Lemma pieces_cons total :
  0 < total ->
  pieces total = Z.min total CANCEL_CHECK_INTERVAL ::
                 pieces (total - Z.min total CANCEL_CHECK_INTERVAL).
Proof.
  intros Ht. unfold pieces. set (I := CANCEL_CHECK_INTERVAL).
  assert (0 < I) by done. destruct (Z.le_gt_cases I total).
  - rewrite Z.min_r by lia.
    assert (total / I = (total - I) / I + 1 /\ total mod I = (total - I) mod I) as [-> ->].
    { rewrite <- Z.div_add, <- (Z.mod_add (total - I) 1 I) by lia. split; f_equal; lia. }
    assert (0 <= (total - I) / I) by (apply Z.div_pos; lia).
    rewrite Z.add_1_r, Z2Nat.inj_succ by lia. done.
  - rewrite Z.min_l, Z.sub_diag, Z.div_small, Z.mod_small by lia. simpl.
    destruct (Z.eqb_spec total 0); [lia|done].
Qed.

Lemma sleep_loop_spec fuel total (s : Sleeper) :
  0 <= total -> (length (pieces total) < fuel)%nat ->
  exists s', sleep_cancellably_loop fuel total s =
      Some ((sleep_spec (flags s) (reads s) (pieces total)).1, s') /\
    slept s' = slept s ++ (sleep_spec (flags s) (reads s) (pieces total)).2 /\
    clock s' = clock s + sum_list (sleep_spec (flags s) (reads s) (pieces total)).2.
Proof.
  revert total s; induction fuel as [|fuel IH]; intros total s Ht Hf; [lia|].
  cbn [sleep_cancellably_loop]. destruct (Z.ltb_spec 0 total).
  - rewrite pieces_cons in * by done. cbn [length] in Hf.
    cbn [is_cancelled sleeper_host sleep_spec].
    destruct (flags s (reads s)) eqn:E.
    + eexists. split_and!; [done| |]; cbn; [by rewrite app_nil_r|lia].
    + destruct (IH (total - Z.min total CANCEL_CHECK_INTERVAL)
        (sleep_for (Z.min total CANCEL_CHECK_INTERVAL)
          {| flags := flags s; reads := S (reads s); slept := slept s; clock := clock s |}))
        as (s' & H1 & H2 & H3); [lia|lia|].
      exists s'. rewrite H1. cbn [flags reads slept clock sleep_for sleeper_host] in *.
      destruct (sleep_spec (flags s) (S (reads s)) _) as [o dn] eqn:Es. cbn in *.
      split_and!; [done|by rewrite H2, <- app_assoc|lia].
  - assert (total = 0) as -> by lia. change (pieces 0) with (@nil Z). cbn.
    destruct (flags s (reads s)); eexists; (split_and!; [done| |]); cbn;
      try rewrite app_nil_r; try done; lia.
Qed.

Lemma length_pieces total :
  0 <= total -> (length (pieces total) <= Z.to_nat (total / CANCEL_CHECK_INTERVAL) + 1)%nat.
Proof.
  intros. unfold pieces. rewrite length_app, length_replicate.
  case_match; simpl; lia.
Qed.

Lemma sum_list_app a b : sum_list (a ++ b) = sum_list a + sum_list b.
Proof. induction a; simpl; lia. Qed.

Lemma pieces_sum total : 0 <= total -> sum_list (pieces total) = total.
Proof.
  intros Ht. unfold pieces. rewrite sum_list_app. set (I := CANCEL_CHECK_INTERVAL).
  assert (0 < I) by done. assert (0 <= total / I) by (apply Z.div_pos; lia).
  assert (forall n, sum_list (replicate n I) = Z.of_nat n * I) as ->.
  { induction n; simpl; lia. }
  pose proof (Z.div_mod total I ltac:(lia)).
  destruct (Z.eqb_spec (total mod I) 0); simpl; lia.
Qed.

(** ** Theorems *)

(** A cancellable sleep. It always returns; it sleeps in pieces of at most a second
    that add up to the time asked for, reading the flag before each and once at the end;
    it stops at the first raised flag, having slept the pieces before it, and answers
    [Break] exactly then. A zero sleep still reads the flag once. *)
Theorem sleep_cancellably_correct (total : Z) (s : Sleeper) :
  0 <= total ->
  exists s', sleep_cancellably total s =
      Some ((sleep_spec (flags s) (reads s) (pieces total)).1, s') /\
    slept s' = slept s ++ (sleep_spec (flags s) (reads s) (pieces total)).2 /\
    sum_list (pieces total) = total /\
    Forall (fun d => 0 < d <= CANCEL_CHECK_INTERVAL) (pieces total).
Proof.
  intros Ht.
  destruct (sleep_loop_spec (Z.to_nat (total / CANCEL_CHECK_INTERVAL) + 2) total s Ht)
    as (s' & H1 & H2 & _).
  { pose proof (length_pieces total Ht). lia. }
  exists s'. split_and!; [done|done|by apply pieces_sum|].
  unfold pieces. apply Forall_app. split; [by apply Forall_replicate|].
  pose proof (Z.mod_pos_bound total CANCEL_CHECK_INTERVAL ltac:(done)).
  case_match; bool_to_prop; repeat constructor; lia.
Qed.

(** Cancelled during the third second of a wait of three and a half. *)
Lemma sleep_cancellably_correct_witness :
  let s := {| flags := fun k => (2 <=? k)%nat; reads := 0; slept := []; clock := 0 |} in
  exists s', sleep_cancellably (from_millis 3500) s = Some (Break tt, s') /\
    slept s' = [from_secs 1; from_secs 1].
Proof.
  intros s. destruct (sleep_cancellably_correct (from_millis 3500) s) as (s' & H & Hs & _).
  { vm_compute. congruence. }
  exists s'. split; [exact H|exact Hs].
Defined.

(** Read the clock or a callback, keeping what its law says of the time. *)
Ltac tick :=
  match goal with
  | |- context [now ?w] =>
      pose proof (now_law w); destruct (now w) as [? ?]; cbn [fst snd] in *
  | |- context [is_cancelled ?w] =>
      pose proof (cancelled_law w); destruct (is_cancelled w) as [? ?]; cbn [fst snd] in *
  | |- context [probe ?w] =>
      pose proof (probe_law w); pose proof (polled_law (probe w).2);
      destruct (probe w) as [? ?]; cbn [fst snd] in *
  end.

Section WaitLaws.
Context {W : Type} `{HostLaws W}.

Lemma sleep_loop_time fuel d (w : W) :
  0 <= d -> d <= Z.of_nat (pred fuel) * CANCEL_CHECK_INTERVAL -> (0 < fuel)%nat ->
  exists o w', sleep_cancellably_loop fuel d w = Some (o, w') /\ time w <= time w' /\
    (o = Continue tt -> time w + d <= time w').
Proof.
  revert d w; induction fuel as [|fuel IH]; intros d w Hd Hle Hf; [lia|].
  cbn [sleep_cancellably_loop pred] in *. assert (0 < CANCEL_CHECK_INTERVAL) by done.
  destruct (Z.ltb_spec 0 d); tick.
  - destruct b; [by eexists _, _|].
    set (chunk := Z.min d CANCEL_CHECK_INTERVAL).
    destruct (IH (d - chunk) (sleep_for chunk w0)) as (o & w' & -> & Ht & Hc); [lia|nia|nia|].
    pose proof (sleep_law chunk w0 ltac:(lia)).
    exists o, w'. split_and!; [done|lia|]. intros Ho. specialize (Hc Ho). lia.
  - destruct b; eexists _, _; split_and!; try done; lia.
Qed.

Lemma sleep_cancellably_time d (w : W) :
  0 <= d -> exists o w', sleep_cancellably d w = Some (o, w') /\ time w <= time w' /\
    (o = Continue tt -> time w + d <= time w').
Proof.
  intros Hd. apply sleep_loop_time; [done| |lia].
  assert (0 < CANCEL_CHECK_INTERVAL) by done.
  pose proof (Z.div_mod d CANCEL_CHECK_INTERVAL ltac:(lia)).
  pose proof (Z.mod_pos_bound d CANCEL_CHECK_INTERVAL ltac:(lia)).
  assert (0 <= d / CANCEL_CHECK_INTERVAL) by (apply Z.div_pos; lia). nia.
Qed.

(** A round that polls again ends at the deadline or a poll interval later. *)
Lemma wait_rounds_total fuel pf max_wait started deadline failed (w : W) :
  deadline <= time w + SENSOR_POLL_INTERVAL * Z.of_nat (pred fuel) -> (0 < fuel)%nat ->
  exists r, wait_rounds fuel pf max_wait started deadline failed w = Some r.
Proof.
  revert failed w; induction fuel as [|fuel IH]; intros failed w Hd Hf; [lia|].
  cbn [wait_rounds pred] in *. assert (0 < SENSOR_POLL_INTERVAL) by done.
  unfold clamp_to_deadline. tick. tick. tick. tick.
  set (rest := Z.min _ _).
  assert (0 <= rest) by (subst rest; unfold sat_sub; lia).
  assert (forall fl w', time w3 <= time w' -> z1 < deadline ->
    exists r, match sleep_cancellably rest w' with
    | None => None
    | Some (Break _, w) => Some (Err Cancelled, w)
    | Some (Continue _, w) => wait_rounds fuel pf max_wait started deadline fl w
    end = Some r) as Hsleep.
  { intros fl w' Hw' Hlt. destruct (sleep_cancellably_time rest w') as (o & w5 & -> & Ht & Hc);
      [done|]. destruct o as [[]|[]]; [by eexists|]. specialize (Hc eq_refl).
    apply IH; subst rest; unfold sat_sub in *; nia. }
  destruct r as [p|err].
  - tick. destruct b; [by eexists|]. unfold status_of.
    destruct (ready p); [tick; by eexists|]. tick.
    destruct (Z.leb_spec deadline z2); tick; [by eexists|].
    match goal with |- context [report ?s ?w] => pose proof (report_law s w) end.
    apply Hsleep; lia.
  - unfold on_probe_failure. destruct (negb _); [by eexists|].
    destruct (_ <=? _)%nat; [by eexists|]. tick.
    destruct (Z.leb_spec deadline z2); [by eexists|]. apply Hsleep; lia.
Qed.
End WaitLaws.

(** The readiness wait always ends. On every host whose clock does not run backwards
    and whose sleeps last, the loop answers within one round per poll interval of
    [max_wait] and two more, whatever the probe reads or fails with and however long each
    probe takes. *)
Theorem wait_loop_terminates {W} `{HostLaws W} (pf : ReadinessPlatform) (max_wait : Z)
    (fuel : nat) (w : W) :
  0 <= max_wait -> (wait_fuel max_wait <= fuel)%nat ->
  exists r w', wait_loop fuel pf max_wait w = Some (r, w').
Proof.
  intros Hm Hf. unfold wait_loop. tick. tick. destruct b; [by eexists _, _|].
  unfold wait_fuel in Hf. assert (0 < SENSOR_POLL_INTERVAL) by done.
  pose proof (Z.div_mod max_wait SENSOR_POLL_INTERVAL ltac:(lia)).
  pose proof (Z.mod_pos_bound max_wait SENSOR_POLL_INTERVAL ltac:(lia)).
  assert (0 <= max_wait / SENSOR_POLL_INTERVAL) by (apply Z.div_pos; lia).
  destruct (wait_rounds_total fuel pf max_wait z (z + max_wait) 0 w1) as [[r w'] Hr];
    [nia|lia|]. eauto.
Qed.

(** ** What an answer means

    The host is wrapped so that it counts the consecutive failed polls. *)

Record Counted (W : Type) := counted { world : W; failures : nat }.
Arguments counted {W} _ _.
Arguments world {W} _.
Arguments failures {W} _.

#[export] Instance counted_host {W} `{Host W} : Host (Counted W) := {
  now c := let '(x, w) := now (world c) in (x, counted w (failures c));
  is_cancelled c := let '(b, w) := is_cancelled (world c) in (b, counted w (failures c));
  sleep_for d c := counted (sleep_for d (world c)) (failures c);
}.

#[export] Instance counted_readiness {W} `{ReadinessHost W} : ReadinessHost (Counted W) := {
  probe c := let '(r, w) := probe (world c) in
    (r, counted w (match r with Ok _ => 0 | Err _ => S (failures c) end)%nat);
  polled c := counted (polled (world c)) (failures c);
  report s c := counted (report s (world c)) (failures c);
}.

Section WaitSound.
Context {W : Type} `{ReadinessHost W}.

(** A probe does not return the outcomes of a wait. *)
Definition is_terminal (e : ReadinessError) : bool :=
  match e with
  | ErrTimedOut _ _ | Cancelled => true
  | _ => false
  end.

Definition probe_answers : Prop :=
  forall w e w', probe (W := W) w = (Err e, w') -> is_terminal e = false.

(** Why the loop may answer [r] and leave the world [c']. *)
Definition answer_reason (max_wait deadline : Z)
    (r : result unit ReadinessError) (c' : Counted W) : Prop :=
  match r with
  | Ok _ => exists (w0 w1 w2 : W) s p, probe w0 = (Ok p, w1) /\ ready p = true /\
      world c' = report s w2 /\ phase s = Proceeding /\ observed s = summary p
  | Err (ErrTimedOut m o) => exists (w0 w1 w2 w3 w4 : W) x s p,
      probe w0 = (Ok p, w1) /\ ready p = false /\ o = summary p /\ m = max_wait /\
      now w2 = (x, w3) /\ deadline <= x /\ world c' = report s w4 /\ phase s = TimedOut
  | Err Cancelled => exists w0 : W, is_cancelled w0 = (true, world c')
  | Err e => exists (w0 w1 : W), probe w0 = (Err e, w1) /\
      (retriable e = false \/ failures c' = PROBE_RETRY_POLLS \/
       exists (w2 : W) x, now w2 = (x, world c') /\ deadline <= x)
  end.

Lemma sleep_loop_counted fuel d (c : Counted W) o c' :
  sleep_cancellably_loop fuel d c = Some (o, c') ->
  failures c' = failures c /\ (o = Break tt -> exists w0 : W, is_cancelled w0 = (true, world c')).
Proof.
  revert d c; induction fuel as [|fuel IH]; intros d c Hs; [done|].
  cbn [sleep_cancellably_loop is_cancelled counted_host counted_readiness readiness_host] in Hs.
  destruct (is_cancelled (world c)) as [b w] eqn:E.
  destruct (0 <? d), b; simplify_eq/=; [by eauto|by apply IH in Hs|by eauto|done].
Qed.

(** Take the loop apart at its next reading of the host. *)
Ltac unroll H :=
  match type of H with
  | context [now ?w] => destruct (now w) as [? ?] eqn:?
  | context [probe ?w] => destruct (probe w) as [? ?] eqn:?
  | context [is_cancelled ?w] => destruct (is_cancelled w) as [? ?] eqn:?
  end; cbn [fst snd world failures counted_host counted_readiness readiness_host
            now probe polled is_cancelled report] in H.

Context (Hprobe : probe_answers).

Lemma wait_rounds_reason fuel pf max_wait started deadline (c : Counted W) r c' :
  (failures c < PROBE_RETRY_POLLS)%nat ->
  wait_rounds fuel pf max_wait started deadline (failures c) c = Some (r, c') ->
  answer_reason max_wait deadline r c'.
Proof.
  revert c; induction fuel as [|fuel IH]; intros c Hc Hr; [done|].
  cbn [wait_rounds] in Hr. unfold clamp_to_deadline in Hr.
  cbn [now counted_host counted_readiness readiness_host probe polled] in Hr.
  unroll Hr. unroll Hr. unroll Hr. unroll Hr.
  set (rest := Z.min _ _) in Hr.
  assert (forall fl c1, failures c1 = fl -> (fl < PROBE_RETRY_POLLS)%nat ->
    match sleep_cancellably rest c1 with
    | None => None
    | Some (Break _, w) => Some (Err Cancelled, w)
    | Some (Continue _, w) => wait_rounds fuel pf max_wait started deadline fl w
    end = Some (r, c') -> answer_reason max_wait deadline r c') as Hsleep.
  { intros fl c1 Hfl Hlt Hs. destruct (sleep_cancellably rest c1) as [[[[]|[]] c2]|] eqn:E;
      [| |done]; apply sleep_loop_counted in E as [Hf Hb].
    - simplify_eq. by apply Hb.
    - subst fl. rewrite <- Hf in *. eauto. }
  destruct r0 as [p|err].
  - unroll Hr. destruct b; [simplify_eq; cbn; eauto|].
    unfold status_of in Hr. cbn [now counted_host counted_readiness readiness_host] in Hr.
    destruct (ready p) eqn:Ep.
    { unroll Hr. simplify_eq. cbn. by eexists _, _, _, _, _. }
    unroll Hr. destruct (Z.leb_spec deadline z2); unroll Hr.
    + simplify_eq. cbn. by eexists w, w0, w3, w4, w5, z2, _, p.
    + eapply Hsleep; [| |exact Hr]; [done|unfold PROBE_RETRY_POLLS; lia].
  - pose proof (Hprobe _ _ _ Heqp0) as Hterm.
    assert (forall c1, (retriable err = false \/ failures c1 = PROBE_RETRY_POLLS \/
       exists (w2 : W) x, now w2 = (x, world c1) /\ deadline <= x) ->
      answer_reason max_wait deadline (Err err) c1) as Herr.
    { intros c1 H1. destruct err; try done; cbn; eauto. }
    unfold on_probe_failure in Hr. destruct (retriable err) eqn:Er; cbn [negb] in Hr.
    2: { simplify_eq. apply Herr. by left. }
    destruct (PROBE_RETRY_POLLS <=? S (failures c))%nat eqn:El.
    { simplify_eq. apply Herr. right. left. cbn.
      apply Nat.leb_le in El. lia. }
    cbn [now counted_host counted_readiness readiness_host] in Hr. unroll Hr.
    destruct (Z.leb_spec deadline z2).
    { simplify_eq. apply Herr. right. right. eauto. }
    apply Nat.leb_gt in El. eapply Hsleep; [| |exact Hr]; [done|lia].
Qed.
End WaitSound.

(** What each answer of the readiness wait means. [Ok] follows a probe that read
    ready, reported last as proceeding; a timeout follows a probe that read not ready and
    a clock at or past the deadline; a cancel follows the caller's callback reading true;
    and a probe's error is handed back unchanged only when no retry can clear it, when it
    is the third failure in a row, or when the deadline has passed. *)
Theorem wait_loop_answers {W} `{ReadinessHost W} (fuel : nat) (pf : ReadinessPlatform)
    (max_wait : Z) (w w0 : W) (started : Z) (r : result unit ReadinessError)
    (c' : Counted W) :
  probe_answers (W := W) ->
  now w = (started, w0) ->
  wait_loop fuel pf max_wait (counted w 0) = Some (r, c') ->
  answer_reason max_wait (started + max_wait) r c'.
Proof.
  intros Hp Hn Hl. unfold wait_loop in Hl.
  cbn [now is_cancelled counted_host counted_readiness readiness_host world failures] in Hl.
  rewrite Hn in Hl. cbn [world failures] in Hl.
  destruct (is_cancelled w0) as [b w1] eqn:E. destruct b.
  - simplify_eq. cbn. eauto.
  - eapply (wait_rounds_reason Hp fuel pf max_wait started _ (counted w1 0)); [|exact Hl].
    unfold PROBE_RETRY_POLLS. cbn. lia.
Qed.

(** ** A simulated host *)

Record Sim := {
  sim_clock : Z;
  sim_probes : list (result Probe ReadinessError);
  sim_cost : Z;
}.

#[export] Instance sim_host : Host Sim := {
  now s := (sim_clock s, s);
  is_cancelled s := (false, s);
  sleep_for d s := {| sim_clock := sim_clock s + d; sim_probes := sim_probes s;
                      sim_cost := sim_cost s |};
}.

(** A probe answers the next line of the script, and takes time. *)
#[export] Instance sim_readiness : ReadinessHost Sim := {
  probe s :=
    (match sim_probes s with
     | [] => Ok {| ready := false; summary := [] |}
     | Err (ErrTimedOut _ _) :: _ | Err Cancelled :: _ => Err (Unavailable [])
     | r :: _ => r
     end,
     {| sim_clock := sim_clock s + Z.abs (sim_cost s); sim_probes := tail (sim_probes s);
        sim_cost := sim_cost s |});
  polled s := s;
  report _ s := s;
}.

#[export] Program Instance sim_laws : HostLaws Sim := { time := sim_clock }.
Solve All Obligations with (intros; simpl; lia).

(** Two failed polls, a busy one, then ready: the wait takes four polls. *)
Definition sim_example : Sim :=
  {| sim_clock := 0;
     sim_probes := [Err (Unavailable []); Err (Io []); Ok {| ready := false; summary := [1] |};
                    Ok {| ready := true; summary := [2] |}];
     sim_cost := from_millis 1000 |}.

Lemma wait_loop_terminates_witness :
  exists r w', wait_loop (wait_fuel (from_secs 300)) Linux (from_secs 300) sim_example
    = Some (r, w') /\ sim_clock w' = from_secs 10.
Proof.
  destruct (wait_loop_terminates Linux (from_secs 300) (wait_fuel (from_secs 300))
    sim_example) as (r & w' & H); [vm_compute; congruence|lia|].
  exists r, w'. split; [exact H|]. vm_compute in H. by simplify_eq.
Defined.

Lemma wait_loop_answers_witness :
  exists c', wait_loop 200 Linux (from_secs 300) (counted sim_example 0) = Some (Ok tt, c') /\
    answer_reason (from_secs 300) (0 + from_secs 300) (Ok tt) c'.
Proof.
  eexists. split; [vm_compute; reflexivity|].
  eapply (wait_loop_answers 200 Linux (from_secs 300) sim_example sim_example 0 (Ok tt)).
  - intros [] e w'. cbn. repeat case_match; intros; by simplify_eq.
  - reflexivity.
  - vm_compute. reflexivity.
Defined.
