(* ===== verification/Json.v ===== *)
(** * JSON values

    The part of [serde_json::Value] the sources read. The parser itself is a parameter of
    the components that use it. *)

From Stdlib Require Import ZArith Lia String.
From stdpp Require Import countable prelude list.
From S2P Require Import Prelude Str.

Local Open Scope Z_scope.

(** A number keeps how it was written: a [u64], a negative [i64], or neither. *)
Inductive number :=
| PosInt (n : Z)
| NegInt (n : Z)
| Float (repr : str).

Inductive Value :=
| Null
| Bool (b : bool)
| Number (n : number)
| String (s : str)
| Array (items : list Value)
| Object (fields : list (str * Value)).

Fixpoint assoc {A} (k : str) (l : list (str * A)) : option A :=
  match l with
  | [] => None
  | (k', v) :: l' => if str_eqb k k' then Some v else assoc k l'
  end.

(** [Value::get] of a key and of an index. *)
Definition get (k : str) (v : Value) : option Value :=
  match v with
  | Object fields => assoc k fields
  | _ => None
  end.

Definition get_index (i : nat) (v : Value) : option Value :=
  match v with
  | Array items => items !! i
  | _ => None
  end.

Definition is_null (v : Value) : bool :=
  match v with
  | Null => true
  | _ => false
  end.

Definition as_str (v : Value) : option str :=
  match v with
  | String s => Some s
  | _ => None
  end.

Definition as_u64 (v : Value) : option Z :=
  match v with
  | Number (PosInt n) => Some n
  | _ => None
  end.

(** A token of a JSON pointer that is an array index: no sign, no leading zero. *)
Definition parse_index (t : str) : option nat :=
  match t with
  | 43 :: _ => None
  | 48 :: _ :: _ => None
  | _ => Z.to_nat <$> parse_uint u64_max t
  end.

(** [Value::pointer], over the tokens of the pointer. *)
Fixpoint pointer (tokens : list str) (v : Value) : option Value :=
  match tokens with
  | [] => Some v
  | t :: rest =>
      match v with
      | Object fields => assoc t fields ≫= pointer rest
      | Array items => parse_index t ≫= fun i => items !! i ≫= pointer rest
      | _ => None
      end
  end.

(** Set a field of an object, in place when it exists: [Map::insert]. *)
Fixpoint assoc_insert {A} (k : str) (x : A) (l : list (str * A)) : list (str * A) :=
  match l with
  | [] => [(k, x)]
  | (k', v) :: l' => if str_eqb k k' then (k', x) :: l' else (k', v) :: assoc_insert k x l'
  end.

Lemma assoc_insert_eq {A} k (x : A) l : assoc k (assoc_insert k x l) = Some x.
Proof.
  induction l as [|[k' v] l IH]; simpl.
  - unfold str_eqb. by rewrite bool_decide_true.
  - destruct (str_eqb k k') eqn:E; simpl; by rewrite E.
Qed.

Lemma assoc_insert_ne {A} k k2 (x : A) l :
  k2 <> k -> assoc k2 (assoc_insert k x l) = assoc k2 l.
Proof.
  intros Hne. induction l as [|[k' v] l IH]; simpl.
  - unfold str_eqb. by rewrite bool_decide_false.
  - destruct (str_eqb k k') eqn:E; simpl; [|by rewrite IH].
    apply str_eqb_eq in E as ->. unfold str_eqb. by rewrite !bool_decide_false by done.
Qed.

(** ** Compact texts

    What [serde_json::to_string] makes of a struct: one line of valid text between braces,
    with every control character escaped. *)

Definition json_line (s : str) : Prop :=
  valid_str s /\ Forall (fun c => 32 <= c) s /\ exists m, s = 123 :: m ++ [125].

Lemma json_line_newline_free s : json_line s -> newline_free (as_bytes s).
Proof.
  intros (Hv & Hc & _). unfold newline_free. rewrite Forall_forall in Hc |- *.
  intros b Hb ->. specialize (Hc 10 (as_bytes_ascii s 10 Hv ltac:(lia) Hb)). lia.
Qed.

Lemma json_line_strip_cr s : json_line s -> strip_cr (as_bytes s) = as_bytes s.
Proof.
  intros (_ & _ & m & ->). unfold strip_cr. destruct (strip_suffix _ _) eqn:E; [|done].
  apply strip_suffix_spec in E. rewrite app_comm_cons, as_bytes_app in E.
  by apply app_inj_2 in E as [_ [=]].
Qed.

(** The first line of a text is that line. *)
Lemma lines_json_line s rest :
  json_line s -> lines (as_bytes s ++ 10 :: rest) = as_bytes s :: lines rest.
Proof.
  intros Hs. rewrite lines_line by by apply json_line_newline_free.
  by rewrite json_line_strip_cr.
Qed.

Lemma json_line_trim s : json_line s -> trim s <> [].
Proof. intros (_ & _ & m & ->) [? _]%trim_nil_iff%Forall_cons. done. Qed.

(** *** A serializer to test with

    Any countable type can be written as a compact text and read back. *)
Fixpoint bits (p : positive) : str :=
  match p with
  | xH => []
  | xO p => 48 :: bits p
  | xI p => 49 :: bits p
  end.

Fixpoint unbits (s : str) : positive :=
  match s with
  | [] => xH
  | c :: s => if c =? 48 then xO (unbits s) else xI (unbits s)
  end.

Lemma unbits_bits p : unbits (bits p) = p.
Proof. induction p; simpl; congruence. Qed.

Lemma bits_chars p : Forall (fun c => c = 48 \/ c = 49) (bits p).
Proof. induction p; simpl; constructor; auto. Qed.

Definition countable_to_string {A} `{Countable A} (a : A) : str :=
  123 :: bits (encode a) ++ [125].

Definition countable_from_str {A} `{Countable A} (s : str) : result A str :=
  match a ← strip_prefix [123] s; b ← strip_suffix [125] a; decode (unbits b) with
  | Some a => Ok a
  | None => Err (lit "invalid")
  end.

Lemma countable_roundtrip {A} `{Countable A} (a : A) :
  countable_from_str (countable_to_string a) = Ok a.
Proof.
  unfold countable_from_str, countable_to_string. cbn [strip_prefix]. rewrite Z.eqb_refl.
  cbn [mbind option_bind].
  rewrite (proj2 (strip_suffix_spec [125] _ (bits (encode a)))) by done.
  cbn [mbind option_bind].
  by rewrite unbits_bits, decode_encode.
Qed.

Lemma countable_json_line {A} `{Countable A} (a : A) : json_line (countable_to_string a).
Proof.
  unfold countable_to_string. split_and!; [| |by eexists].
  - apply Forall_cons; split; [done|]. apply Forall_app; split; [|by repeat constructor].
    eapply Forall_impl; [apply bits_chars|]. by intros c [->| ->].
  - apply Forall_cons; split; [done|]. apply Forall_app; split; [|by repeat constructor].
    eapply Forall_impl; [apply bits_chars|]. by intros c [->| ->].
Qed.
