(* ===== verification/Sse.v ===== *)
(** * Streamed generations ([crates/pipette-ops/src/sse.rs])

    The payloads of a server-sent-events body, the text they carry, and how an
    OpenAI-compatible chat stream ended. A body is the list of its lines as the reader
    hands them out, read errors included; the JSON parser is a parameter. *)

From Stdlib Require Import ZArith Lia String.
From stdpp Require Import prelude list.
From S2P Require Import Prelude Str Json.

Local Open Scope Z_scope.

Definition FLUSH_EVERY : Z := 10.

(** ** Data *)

Inductive IoError :=
| IoTimedOut (idle_timeout : Z)
| IoOther (message : str).

Inductive PayloadError :=
| EndedEarly
| ReadLine (source : IoError).

Inductive StreamError :=
| Payload (e : PayloadError)
| ParseData (data : str)
| FailedMidGeneration (error : Value).

Record Delta := { text : str; delta_terminal : bool }.

Record TextStream := { content : str; terminal : option Value }.

(** ** Payloads *)

(** What the receiver sees of the pump: a line, a closed channel, or silence for the
    whole idle timeout. *)
Inductive Recv :=
| RecvLine (line : result str IoError)
| RecvDisconnected
| RecvTimeout.

(** The pump thread: it stops after the first read error. *)
Fixpoint pump (body : list (result str IoError)) : list (result str IoError) :=
  match body with
  | [] => []
  | Err e :: _ => [Err e]
  | Ok line :: rest => Ok line :: pump rest
  end.

(** The iterator [data_lines] builds over the channel: its state is [cut]. *)
Definition recv_next (idle_timeout : Z) (st : bool * list Recv)
    : option (result str IoError) * (bool * list Recv) :=
  let '(cut, rx) := st in
  if cut then (None, (cut, rx))
  else match rx with
       | RecvLine line :: rx => (Some line, (cut, rx))
       | RecvDisconnected :: rx => (None, (true, rx))
       | RecvTimeout :: rx => (Some (Err (IoTimedOut idle_timeout)), (true, rx))
       | [] => (None, (true, []))
       end.

Section Payloads.
Context {S : Type} (next : S -> option (result str IoError) * S).

(** One call of the iterator [payloads] returns: its state is [done] and the lines. *)
Fixpoint payloads_next (fuel : nat) (st : bool * S)
    : option (option (result str PayloadError) * (bool * S)) :=
  match fuel with
  | O => None
  | Datatypes.S fuel =>
      let '(done, ls) := st in
      if done then Some (None, st)
      else match next ls with
           | (None, ls) => Some (Some (Err EndedEarly), (true, ls))
           | (Some (Err err), ls) => Some (Some (Err (ReadLine err)), (true, ls))
           | (Some (Ok line), ls) =>
               match trim <$> strip_prefix (lit "data:") line with
               | None => payloads_next fuel (false, ls)
               | Some [] => payloads_next fuel (false, ls)
               | Some data =>
                   if str_eqb data (lit "[DONE]") then Some (None, (true, ls))
                   else Some (Some (Ok data), (false, ls))
               end
           end
  end.

(** The events of the iterator, drained. *)
Fixpoint payloads (fuel : nat) (st : bool * S) : option (list (result str PayloadError)) :=
  match fuel with
  | O => None
  | Datatypes.S fuel' =>
      match payloads_next fuel st with
      | None => None
      | Some (None, _) => Some []
      | Some (Some e, st') => (e ::.) <$> payloads fuel' st'
      end
  end.
End Payloads.

(** A list of lines as an iterator. *)
Definition list_next {A} (l : list A) : option A * list A :=
  match l with
  | [] => (None, [])
  | x :: l' => (Some x, l')
  end.

(** Draining the payloads of a body: a round per line, and two at its end. *)
Definition payloads_of (body : list (result str IoError)) : list (result str PayloadError) :=
  default [] (payloads list_next (length body + 2) (false, body)).

Definition data_lines (idle_timeout : Z) (rx : list Recv) : list (result str PayloadError) :=
  default [] (payloads (recv_next idle_timeout) (length rx + 3) (false, (false, rx))).

(** ** Text *)

Section ReadText.
Context (from_str : str -> option Value).
Context {S : Type} (delta : Value -> S -> Delta * S).

(** The loop of [read_text_stream]. [flushed] is what [on_flush] received, in order. *)
Fixpoint read_text_loop (events : list (result str PayloadError)) (stream : TextStream)
    (pending : str) (chunks : Z) (flushed : list str) (s : S)
    : result TextStream StreamError * (list str * S) :=
  let flush p := match p with [] => flushed | _ => flushed ++ [p] end in
  match events with
  | [] => (Ok stream, (flush pending, s))
  | Err e :: _ => (Err (Payload e), (flushed, s))
  | Ok data :: rest =>
      match from_str data with
      | None => (Err (ParseData data), (flushed, s))
      | Some event =>
          match (get (lit "error") event ≫= fun e => if is_null e then None else Some e) with
          | Some error => (Err (FailedMidGeneration error), (flush pending, s))
          | None =>
              let '(d, s) := delta event s in
              let stream := {| content := content stream ++ text d;
                               terminal := terminal stream |} in
              let pending := pending ++ text d in
              let chunks := chunks + 1 in
              let '(flushed, pending) :=
                if (chunks mod FLUSH_EVERY =? 0) && negb (str_eqb pending [])
                then (flushed ++ [pending], []) else (flushed, pending) in
              if delta_terminal d then
                (Ok {| content := content stream; terminal := Some event |},
                 (match pending with [] => flushed | _ => flushed ++ [pending] end, s))
              else read_text_loop rest stream pending chunks flushed s
          end
      end
  end.

Definition read_text_stream (events : list (result str PayloadError)) (s : S)
    : result TextStream StreamError * (list str * S) :=
  read_text_loop events {| content := []; terminal := None |} [] 0 [] s.
End ReadText.

(** ** Chat streams *)

Definition chat_delta (event : Value) : Delta :=
  {| text := default []
       (choices ← get (lit "choices") event; choice ← get_index 0 choices;
        d ← get (lit "delta") choice; c ← get (lit "content") d; as_str c);
     delta_terminal := false |}.

Definition chat_reasoning (event : Value) : str :=
  default []
    (pointer [lit "choices"; lit "0"; lit "delta"; lit "reasoning"] event ≫= as_str).

Record ChatReply := {
  reply_content : str;
  reasoning : str;
  content_before_reasoning : Z;
  finish_reason : option str;
  completion_tokens : option Z;
}.

Definition empty_reply : ChatReply :=
  {| reply_content := []; reasoning := []; content_before_reasoning := 0;
     finish_reason := None; completion_tokens := None |}.

Definition completion_with_reasoning (r : ChatReply) : str :=
  match reasoning r with
  | [] => reply_content r
  | _ =>
      let '(before, answer) :=
        default ([], reply_content r)
          (split_at_checked (content_before_reasoning r) (reply_content r)) in
      let close := match answer with [] => [] | _ => lit "</think>" end in
      before ++ reasoning r ++ close ++ answer
  end.

Inductive StopReason := Eos | Truncated | DoomLoop | Unknown.

Definition stop (r : ChatReply) : StopReason * option str :=
  match finish_reason r with
  | Some reason =>
      if str_eqb reason (lit "stop") then (Eos, None)
      else if str_eqb reason (lit "length") then (Truncated, None)
      else if str_eqb reason (lit "repetition")
           then (DoomLoop, Some (lit "finish_reason=repetition"))
      else (Unknown, Some (lit "unrecognized finish_reason=" ++ reason))
  | None => (Unknown, Some (lit "the stream carried no finish_reason"))
  end.

(** The closure [read_chat_stream] gives as its delta; its state is the reply so far and
    [content_so_far]. *)
Definition chat_step (event : Value) (st : ChatReply * Z) : Delta * (ChatReply * Z) :=
  let '(ending, content_so_far) := st in
  let delta := chat_delta event in
  let r := chat_reasoning event in
  let ending :=
    match r with
    | [] => ending
    | _ =>
        {| reply_content := reply_content ending;
           reasoning := reasoning ending ++ r;
           content_before_reasoning :=
             (match reasoning ending with
              | [] => content_so_far
              | _ => content_before_reasoning ending
              end);
           finish_reason := finish_reason ending;
           completion_tokens := completion_tokens ending |}
    end in
  let content_so_far := content_so_far + str_len (text delta) in
  let ending :=
    match pointer [lit "choices"; lit "0"; lit "finish_reason"] event ≫= as_str with
    | Some reason =>
        {| reply_content := reply_content ending; reasoning := reasoning ending;
           content_before_reasoning := content_before_reasoning ending;
           finish_reason := Some reason; completion_tokens := completion_tokens ending |}
    | None => ending
    end in
  let ending :=
    match pointer [lit "usage"; lit "completion_tokens"] event ≫= as_u64 with
    | Some tokens =>
        {| reply_content := reply_content ending; reasoning := reasoning ending;
           content_before_reasoning := content_before_reasoning ending;
           finish_reason := finish_reason ending; completion_tokens := Some tokens |}
    | None => ending
    end in
  (delta, (ending, content_so_far)).

Definition read_chat_stream (from_str : str -> option Value)
    (events : list (result str PayloadError)) : result ChatReply StreamError * list str :=
  let '(r, (flushed, (ending, _))) :=
    read_text_stream from_str chat_step events (empty_reply, 0) in
  (match r with
   | Err e => Err e
   | Ok stream =>
       Ok {| reply_content := content stream; reasoning := reasoning ending;
             content_before_reasoning := content_before_reasoning ending;
             finish_reason := finish_reason ending;
             completion_tokens := completion_tokens ending |}
   end, flushed).

(** ** Specifications *)

(** The payload of a line, if it carries one. *)
Definition data_of (line : str) : option str :=
  match trim <$> strip_prefix (lit "data:") line with
  | Some [] | None => None
  | Some data => Some data
  end.

(** The events of a body: its payloads up to [[DONE]], and an error where the body is cut. *)
Fixpoint payload_spec (body : list (result str IoError)) : list (result str PayloadError) :=
  match body with
  | [] => [Err EndedEarly]
  | Err e :: _ => [Err (ReadLine e)]
  | Ok line :: rest =>
      match data_of line with
      | None => payload_spec rest
      | Some data =>
          if str_eqb data (lit "[DONE]") then [] else Ok data :: payload_spec rest
      end
  end.

(** The body a receiver saw: what came before the channel closed or fell silent. *)
Fixpoint received (idle_timeout : Z) (rx : list Recv) : list (result str IoError) :=
  match rx with
  | RecvLine line :: rx => line :: received idle_timeout rx
  | RecvTimeout :: _ => [Err (IoTimedOut idle_timeout)]
  | RecvDisconnected :: _ | [] => []
  end.

Section PayloadsSpec.
Context {S : Type} (next : S -> option (result str IoError) * S).

(** [R s l]: the iterator in state [s] yields [l]. *)
Context (R : S -> list (result str IoError) -> Prop).
Context (R_next : forall s l, R s l ->
  match l with
  | [] => (next s).1 = None
  | x :: l' => (next s).1 = Some x /\ R (next s).2 l'
  end).

Lemma payloads_next_spec fuel s l :
  R s l -> (length l < fuel)%nat ->
  (payload_spec l = [] /\
   exists s', payloads_next next fuel (false, s) = Some (None, (true, s'))) \/
  (exists e s', payload_spec l = [Err e] /\
   payloads_next next fuel (false, s) = Some (Some (Err e), (true, s'))) \/
  (exists d s' l', payload_spec l = Ok d :: payload_spec l' /\ R s' l' /\
   (length l' < length l)%nat /\
   payloads_next next fuel (false, s) = Some (Some (Ok d), (false, s'))).
Proof.
  revert s l; induction fuel as [|fuel IH]; intros s l HR Hf; [lia|].
  pose proof (R_next s l HR) as Hn. cbn [payloads_next].
  destruct (next s) as [o s'] eqn:En. cbn [fst snd] in Hn.
  destruct l as [|[line|e] l]; [subst o|destruct Hn as [-> HR']..]; cbn [payload_spec].
  - right; left. eauto.
  - cbn [length] in Hf. unfold data_of.
    destruct (trim <$> strip_prefix (lit "data:") line) as [[|c data]|] eqn:Ed.
    + destruct (IH s' l HR' ltac:(lia)) as [|[|(d & s2 & l2 & ? & ? & ? & ?)]]; [by left|by right; left|].
      right; right. exists d, s2, l2. cbn [length]. split_and!; try done. lia.
    + destruct (str_eqb (c :: data) (lit "[DONE]")); [by eauto|].
      right; right. exists (c :: data), s', l. cbn [length]. split_and!; try done. lia.
    + destruct (IH s' l HR' ltac:(lia)) as [|[|(d & s2 & l2 & ? & ? & ? & ?)]]; [by left|by right; left|].
      right; right. exists d, s2, l2. cbn [length]. split_and!; try done. lia.
  - right; left. eauto.
Qed.

Lemma payloads_done fuel s : payloads next (Datatypes.S fuel) (true, s) = Some [].
Proof. done. Qed.

Lemma payloads_drain fuel s l :
  R s l -> (length l + 2 <= fuel)%nat -> payloads next fuel (false, s) = Some (payload_spec l).
Proof.
  revert s l; induction fuel as [|fuel IH]; intros s l HR Hf; [lia|].
  cbn [payloads].
  destruct (payloads_next_spec (Datatypes.S fuel) s l HR ltac:(lia))
    as [(-> & s' & ->)|[(e & s' & -> & ->)|(d & s' & l' & -> & HR' & Hl & ->)]].
  - done.
  - destruct fuel; [lia|]. by rewrite payloads_done.
  - rewrite (IH s' l') by (done || lia). done.
Qed.
End PayloadsSpec.

Lemma payloads_of_spec body : payloads_of body = payload_spec body.
Proof.
  unfold payloads_of.
  rewrite (payloads_drain list_next eq) with (l := body); [done| |done|lia].
  intros s [|x l] ->; done.
Qed.

Lemma data_lines_spec idle rx : data_lines idle rx = payload_spec (received idle rx).
Proof.
  unfold data_lines.
  rewrite (payloads_drain (recv_next idle)
    (fun st l => l = if st.1 then [] else received idle st.2))
    with (l := received idle rx); [done| |done|].
  - intros [[] [|[line| |] rx']] l ->; done.
  - assert (forall rx, (length (received idle rx) <= length rx + 1)%nat) as H.
    { induction rx0 as [|[| |] ? ?]; simpl; lia. }
    specialize (H rx). lia.
Qed.

(** ** Text: every piece is flushed once *)

Section Flush.
Context (from_str : str -> option Value).
Context {S : Type} (delta : Value -> S -> Delta * S).

(** The [error] a chunk carries, [null] aside. *)
Definition error_of (event : Value) : option Value :=
  get (lit "error") event ≫= fun e => if is_null e then None else Some e.

(** The text of the events up to the first that fails or ends the stream. *)
Fixpoint received_text (events : list (result str PayloadError)) (s : S) : str :=
  match events with
  | Ok data :: rest =>
      match from_str data with
      | Some event =>
          match error_of event with
          | Some _ => []
          | None =>
              let '(d, s) := delta event s in
              text d ++ (if delta_terminal d then [] else received_text rest s)
          end
      | None => []
      end
  | _ => []
  end.

(** What a read hands over, from a stream that already holds [sofar]. *)
Definition handed_over (sofar rest : str) (r : result TextStream StreamError)
    (flushed : list str) : Prop :=
  match r with
  | Ok stream => content stream = sofar ++ rest /\ concat flushed = content stream
  | Err (FailedMidGeneration _) => concat flushed = sofar ++ rest
  | Err _ => concat flushed `prefix_of` sofar ++ rest
  end.

Lemma concat_flush fl (p : str) :
  concat (match p with [] => fl | _ => fl ++ [p] end) = concat fl ++ p.
Proof.
  destruct p as [|c p]; [by rewrite app_nil_r|].
  rewrite concat_app. simpl. by rewrite app_nil_r.
Qed.

Lemma handed_over_app sofar a b r fl :
  handed_over (sofar ++ a) b r fl -> handed_over sofar (a ++ b) r fl.
Proof. unfold handed_over. by rewrite app_assoc. Qed.

Lemma read_text_loop_flush events stream pending chunks flushed s :
  concat flushed ++ pending = content stream ->
  let o := read_text_loop from_str delta events stream pending chunks flushed s in
  handed_over (content stream) (received_text events s) o.1 o.2.1.
Proof.
  revert stream pending chunks flushed s.
  induction events as [|[data|e] events IH]; intros stream pending chunks flushed s Hinv;
    cbn [read_text_loop received_text].
  - cbn. by rewrite concat_flush, app_nil_r.
  - destruct (from_str data) as [event|];
      [|cbn; rewrite app_nil_r, <- Hinv; by apply prefix_app_r].
    fold (error_of event). destruct (error_of event) as [error|].
    { cbn. by rewrite concat_flush, app_nil_r. }
    destruct (delta event s) as [d s'].
    destruct (if _ && _ then _ else _) as [fl pd] eqn:Ef.
    assert (concat fl ++ pd = content stream ++ text d) as Hfl.
    { rewrite <- Hinv, <- app_assoc. destruct (_ && _); simplify_eq; [|done].
      rewrite concat_app. simpl. by rewrite !app_nil_r. }
    destruct (delta_terminal d).
    + cbn. by rewrite concat_flush, Hfl, app_nil_r.
    + specialize (IH {| content := content stream ++ text d; terminal := terminal stream |}
        pd (chunks + 1) fl s' Hfl). cbv zeta in *. cbn [content] in IH.
      by apply handed_over_app.
  - cbn. rewrite app_nil_r, <- Hinv. by apply prefix_app_r.
Qed.
End Flush.

(** ** Chat streams *)

(** The reply so far: reasoning is empty or began at an offset where the content splits. *)
Definition reply_inv (sofar : str) (st : ChatReply * Z) : Prop :=
  st.2 = str_len sofar /\
  (reasoning st.1 = [] /\ content_before_reasoning st.1 = 0 \/
   exists before answer, sofar = before ++ answer /\
     content_before_reasoning st.1 = str_len before).

Lemma chat_step_inv event sofar st :
  reply_inv sofar st ->
  reply_inv (sofar ++ text (chat_delta event)) (chat_step event st).2 /\
  (chat_step event st).1 = chat_delta event.
Proof.
  destruct st as [ending csf]. intros [Hl Hr]. cbn [fst snd] in *. split; [|done].
  unfold chat_step. cbn [snd].
  set (tokens := pointer [lit "usage"; _] event ≫= as_u64).
  set (fin := pointer [lit "choices"; lit "0"; lit "finish_reason"] event ≫= as_str).
  split; [cbn; rewrite str_len_app; lia|].
  destruct (chat_reasoning event) as [|c r]; destruct fin, tokens; cbn.
  all: destruct Hr as [[Hr Hc]|(before & answer & -> & Hc)];
    try (left; done); try (right; exists before, (answer ++ text (chat_delta event));
      rewrite <- app_assoc; done).
  all: right; try rewrite Hr.
  all: try (exists sofar, (text (chat_delta event)); done).
  all: destruct (reasoning ending);
    [exists (before ++ answer), (text (chat_delta event)); by subst
    |exists before, (answer ++ text (chat_delta event)); rewrite <- app_assoc; done].
Qed.

Lemma read_chat_loop_inv from_str events stream pending chunks flushed st r fl st' :
  reply_inv (content stream) st ->
  read_text_loop from_str chat_step events stream pending chunks flushed st
    = (Ok r, (fl, st')) ->
  reply_inv (content r) st'.
Proof.
  revert stream pending chunks flushed st.
  induction events as [|[data|e] events IH]; intros stream pending chunks flushed st Hinv H;
    cbn [read_text_loop] in H; [by simplify_eq| |done].
  destruct (from_str data) as [event|]; [|done].
  destruct (_ ≫= _); [done|].
  pose proof (chat_step_inv event _ _ Hinv) as [Hs Hd].
  destruct (chat_step event st) as [d st1]. cbn [fst snd] in *. subst d.
  destruct (if _ && _ then _ else _) as [fl1 pd1]. cbn [delta_terminal chat_delta] in H.
  eapply IH; [|exact H]. done.
Qed.

(** The events of a chat stream, parsed: their text in order. *)
Definition chat_text (from_str : str -> option Value)
    (events : list (result str PayloadError)) : str :=
  received_text from_str chat_step events (empty_reply, 0).

Lemma chat_step_fst event st : (chat_step event st).1 = chat_delta event.
Proof. by destruct st. Qed.

Lemma chat_text_cons from_str data events st :
  received_text from_str chat_step (Ok data :: events) st =
  match from_str data with
  | Some event =>
      match error_of event with
      | Some _ => []
      | None => text (chat_delta event) ++
                received_text from_str chat_step events (chat_step event st).2
      end
  | None => []
  end.
Proof. by destruct st. Qed.

(** A stream that was read to its end parsed every event and met no error. *)
Lemma read_chat_loop_ok from_str body stream pending chunks flushed st r o :
  read_text_loop from_str chat_step (payload_spec body) stream pending chunks flushed st
    = (Ok r, o) ->
  exists pre line rest,
    body = map Ok pre ++ Ok line :: rest /\ data_of line = Some (lit "[DONE]") /\
    Forall (fun l => data_of l <> Some (lit "[DONE]")) pre /\
    received_text from_str chat_step (payload_spec body) st =
      concat (omap (fun data => text ∘ chat_delta <$> from_str data) (omap data_of pre)).
Proof.
  revert stream pending chunks flushed st.
  induction body as [|[line|e] body IH]; intros stream pending chunks flushed st H;
    cbn [payload_spec] in *; [done| |done].
  destruct (data_of line) as [data|] eqn:Ed.
  - destruct (str_eqb data (lit "[DONE]")) eqn:Eb.
    + apply str_eqb_eq in Eb as ->. exists [], line, body. by split_and!.
    + rewrite chat_text_cons. cbn [read_text_loop] in H. fold (error_of) in H.
      destruct (from_str data) as [event|] eqn:Ep; [|done].
      fold (error_of event) in H. destruct (error_of event); [done|].
      destruct (chat_step event st) as [d st1] eqn:Es.
      assert (d = chat_delta event) as -> by (by rewrite <- (chat_step_fst event st), Es).
      destruct (if _ && _ then _ else _) as [fl1 pd1]. cbn [delta_terminal chat_delta] in H.
      apply IH in H as (pre & line' & rest & -> & Hd & Hpre & Ht).
      exists (line :: pre), line', rest. cbn [snd]. split_and!; [done|done| |].
      * constructor; [|done]. rewrite Ed. intros [= ->].
        rewrite (proj2 (str_eqb_eq _ _) eq_refl) in Eb. done.
      * rewrite Ht. cbn. rewrite Ed. cbn. rewrite Ep. done.
  - apply IH in H as (pre & line' & rest & -> & Hd & Hpre & Ht).
    exists (line :: pre), line', rest. split_and!; [done|done| |].
    + constructor; [by rewrite Ed|done].
    + rewrite Ht. cbn. by rewrite Ed.
Qed.

(** ** Theorems *)

(** The payload iterator over the pump's channel yields exactly the payloads of the
    lines received before the channel closed, fell silent or broke: comments, blank and
    empty [data:] lines are skipped, [[DONE]] ends it cleanly, and any other end (a closed
    channel, a read error, the idle timeout) is its last event, an error. It always
    drains. *)
Theorem data_lines_correct (idle : Z) (rx : list Recv) :
  payloads (recv_next idle) (length rx + 3) (false, (false, rx))
    = Some (data_lines idle rx) /\
  data_lines idle rx = payload_spec (received idle rx).
Proof.
  split; [|apply data_lines_spec].
  unfold data_lines. destruct (payloads _ _ _) eqn:E; [done|].
  pose proof (payloads_drain (recv_next idle)
    (fun st l => l = if st.1 then [] else received idle st.2)) as Hd.
  rewrite (Hd ltac:(intros [[] [|[line| |] rx']] l ->; done) (length rx + 3)%nat (false, rx)
    (received idle rx)) in E; [done|done|].
  assert (forall rx, (length (received idle rx) <= length rx + 1)%nat) as H.
  { induction rx0 as [|[| |] ? ?]; simpl; lia. }
  specialize (H rx). lia.
Qed.

(** No text is lost or handed over twice. Of a stream read to its end, the pieces
    given to [on_flush] concatenate to the content, which is the text of the events; when
    the server reports an error mid-generation everything received was flushed first; and
    on a broken stream what was flushed is a prefix of the text received. *)
Theorem read_text_stream_flushes {S} (from_str : str -> option Value)
    (delta : Value -> S -> Delta * S) (events : list (result str PayloadError)) (s : S) :
  handed_over [] (received_text from_str delta events s)
    (read_text_stream from_str delta events s).1
    (read_text_stream from_str delta events s).2.1.
Proof. by apply (read_text_loop_flush from_str delta events {| content := []; terminal := None |}). Qed.

(** A cut stream never reads as a short answer. If a chat stream is read to a reply,
    its body held a [[DONE]] line, and the content is the text of every payload before it,
    each of which parsed. *)
Theorem read_chat_stream_complete (from_str : str -> option Value) (idle : Z)
    (rx : list Recv) (reply : ChatReply) (flushed : list str) :
  read_chat_stream from_str (data_lines idle rx) = (Ok reply, flushed) ->
  exists pre line rest,
    received idle rx = map Ok pre ++ Ok line :: rest /\ data_of line = Some (lit "[DONE]") /\
    Forall (fun l => data_of l <> Some (lit "[DONE]")) pre /\
    reply_content reply =
      concat (omap (fun data => text ∘ chat_delta <$> from_str data) (omap data_of pre)) /\
    concat flushed = reply_content reply.
Proof.
  rewrite data_lines_spec. unfold read_chat_stream, read_text_stream. intros H.
  destruct (read_text_loop _ _ _ _ _ _ _ _) as [[r|e] [fl [ending n]]] eqn:E; [|done].
  simplify_eq. cbn.
  pose proof (read_text_loop_flush from_str chat_step (payload_spec (received idle rx))
    {| content := []; terminal := None |} [] 0 [] (empty_reply, 0) eq_refl) as Hf.
  rewrite E in Hf. destruct Hf as [Hc Hfl].
  destruct (read_chat_loop_ok _ _ _ _ _ _ _ _ _ E) as (pre & line & rest & H1 & H2 & H3 & H4).
  exists pre, line, rest. split_and!; try done. rewrite Hc. cbn. by rewrite H4.
Qed.

(** The reasoning of a reply goes back where it came from. The recorded offset is
    always a character boundary of the content, so the completion is the content before
    the first reasoning, all the reasoning, and the rest of the content, behind a closing
    tag when there is an answer; nothing is dropped or duplicated. *)
Theorem completion_with_reasoning_complete (from_str : str -> option Value)
    (events : list (result str PayloadError)) (reply : ChatReply) (flushed : list str) :
  read_chat_stream from_str events = (Ok reply, flushed) ->
  exists before answer, reply_content reply = before ++ answer /\
    completion_with_reasoning reply =
      match reasoning reply with
      | [] => before ++ answer
      | r => before ++ r ++ (if str_eqb answer [] then [] else lit "</think>") ++ answer
      end.
Proof.
  unfold read_chat_stream, read_text_stream. intros H.
  destruct (read_text_loop _ _ _ _ _ _ _ _) as [[r|e] [fl [ending n]]] eqn:E; [|done].
  simplify_eq. unfold completion_with_reasoning. cbn.
  assert (reply_inv (content r) (ending, n)) as [_ Hr].
  { eapply read_chat_loop_inv; [|exact E]. split; [done|]. by left. }
  cbn in Hr. destruct (reasoning ending) as [|c rs] eqn:Er.
  { exists (content r), []. by rewrite app_nil_r. }
  destruct Hr as [[? _]|(before & answer & Hc & ->)]; [done|].
  exists before, answer. split; [done|]. rewrite Hc, split_at_checked_app. cbn.
  by destruct answer.
Qed.

(** A parser for the witnesses: a payload [r...] is a reasoning chunk, any other a content
    chunk. *)
Definition toy_parse (data : str) : option Value :=
  let field := match data with 114 :: _ => lit "reasoning" | _ => lit "content" end in
  Some (Object [(lit "choices", Array [Object [(lit "delta", Object [(field, String data)])]])]).

Definition toy_body : list Recv :=
  [RecvLine (Ok (lit ": ping")); RecvLine (Ok (lit "data: a")); RecvLine (Ok (lit "data:re"));
   RecvLine (Ok (lit "data:")); RecvLine (Ok (lit "data: b")); RecvLine (Ok (lit "data: [DONE]"));
   RecvDisconnected].

Lemma read_chat_stream_complete_witness :
  exists reply flushed,
    read_chat_stream toy_parse (data_lines (from_secs 60) toy_body) = (Ok reply, flushed) /\
    reply_content reply = lit "ab" /\ concat flushed = reply_content reply.
Proof.
  eexists _, _. split; [vm_compute; reflexivity|]. split; [reflexivity|].
  edestruct (read_chat_stream_complete toy_parse (from_secs 60) toy_body)
    as (pre & line & rest & H1 & H2 & H3 & H4 & H5); [vm_compute; reflexivity|].
  exact H5.
Defined.

Lemma completion_with_reasoning_complete_witness :
  exists reply flushed,
    read_chat_stream toy_parse (data_lines (from_secs 60) toy_body) = (Ok reply, flushed) /\
    completion_with_reasoning reply = lit "are</think>b" /\
    exists before answer, reply_content reply = before ++ answer.
Proof.
  eexists _, _. split; [vm_compute; reflexivity|]. split; [vm_compute; reflexivity|].
  edestruct (completion_with_reasoning_complete toy_parse (data_lines (from_secs 60) toy_body))
    as (before & answer & H & _); [vm_compute; reflexivity|].
  exists before, answer. exact H.
Defined.
