(* ===== verification/Quota.v ===== *)
(** * The storage quota ([crates/pipette-artifacts/src/quota.rs])

    Survey, plan, apply and the sweep that repeats them. The disk is an interface
    ([Disk]): a survey of what occupies the two store roots, and the removal of one
    entry, which another process's lock can refuse. *)

From Stdlib Require Import ZArith Lia String.
From stdpp Require Import prelude list gmap sorting.
From S2P Require Import Prelude Str.

Local Open Scope Z_scope.

(** ** Data *)

Inductive QuotaError :=
| Oversize (artifact : str) (needed_bytes quota_bytes : Z).

(** The keys of the stores are strings; a timestamp is a number of nanoseconds. *)
Inductive EntryKind :=
| Garbage (reason : str)
| Model (key : str) (last_used_at fetched_at : Z)
| Runtime (key : str) (last_used_at fetched_at : Z) (evictable : bool).

Definition last_used_at (k : EntryKind) : option Z :=
  match k with
  | Garbage _ => None
  | Model _ u _ | Runtime _ u _ _ => Some u
  end.

Definition fetched_at (k : EntryKind) : option Z :=
  match k with
  | Garbage _ => None
  | Model _ _ f | Runtime _ _ f _ => Some f
  end.

Definition rank (k : EntryKind) : Z :=
  match k with
  | Garbage _ => 0
  | Model _ _ _ => 1
  | Runtime _ _ _ _ => 2
  end.

Record StorageEntry := {
  path : str;
  label : str;
  size_bytes : Z;
  kind : EntryKind;
}.

Record StorageSurvey := { entries : list StorageEntry; used_bytes : Z }.

(** The order of [sort_by_key]: rank, then last use, then publish time. *)
Definition opt_z_leb : option Z -> option Z -> bool := option_leb Z.leb.

Definition key_leb (a b : EntryKind) : bool :=
  if rank a =? rank b then
    if bool_decide (last_used_at a = last_used_at b)
    then opt_z_leb (fetched_at a) (fetched_at b)
    else opt_z_leb (last_used_at a) (last_used_at b)
  else rank a <? rank b.

Definition entry_leb (a b : StorageEntry) : bool := key_leb (kind a) (kind b).

Definition total_bytes (l : list StorageEntry) : Z :=
  fold_left (fun total e => sat_add u64_max total (size_bytes e)) l 0.

(** [StorageSurvey::new]. *)
Definition survey_new (l : list StorageEntry) : StorageSurvey :=
  let l := sort_stable entry_leb l in
  {| entries := l; used_bytes := total_bytes l |}.

Record SweepPins := { models : gset str; runtimes : gset str }.

Definition no_pins : SweepPins := {| models := ∅; runtimes := ∅ |}.

(** [with_model] and [with_runtime], over the artifact's storage key: one that is not
    storable has none. *)
Definition with_model (key : option str) (p : SweepPins) : SweepPins :=
  match key with
  | Some k => {| models := {[k]} ∪ models p; runtimes := runtimes p |}
  | None => p
  end.

Definition with_runtime (key : option str) (p : SweepPins) : SweepPins :=
  match key with
  | Some k => {| models := models p; runtimes := {[k]} ∪ runtimes p |}
  | None => p
  end.

Definition for_cell (model_key runtime_key : option str) : SweepPins :=
  with_runtime runtime_key (with_model model_key no_pins).

Definition merge_pins (a b : SweepPins) : SweepPins :=
  {| models := models a ∪ models b; runtimes := runtimes a ∪ runtimes b |}.

Record SweepPlan := {
  evictions : list StorageEntry;
  plan_freed_bytes : Z;
  still_over_by_bytes : option Z;
}.

Record SweepReport := {
  removed : list StorageEntry;
  failed : list (StorageEntry * str);
  freed_bytes : Z;
}.

Definition empty_report : SweepReport := {| removed := []; failed := []; freed_bytes := 0 |}.

(** One failed removal; [HashSet::insert] answers whether the value is new. *)
Definition pin_entry (acc : SweepPins * bool) (f : StorageEntry * str) : SweepPins * bool :=
  let '(p, pinned) := acc in
  match kind f.1 with
  | Model k _ _ =>
      ({| models := {[k]} ∪ models p; runtimes := runtimes p |},
       pinned || negb (bool_decide (k ∈ models p)))
  | Runtime k _ _ _ =>
      ({| models := models p; runtimes := {[k]} ∪ runtimes p |},
       pinned || negb (bool_decide (k ∈ runtimes p)))
  | Garbage _ => (p, pinned || false)
  end.

Definition pin_failed (p : SweepPins) (r : SweepReport) : SweepPins * bool :=
  fold_left pin_entry (failed r) (p, false).

(** ** Planning *)

Definition is_garbage (e : StorageEntry) : bool :=
  match kind e with
  | Garbage _ => true
  | _ => false
  end.

Definition is_candidate (pins : SweepPins) (e : StorageEntry) : bool :=
  match kind e with
  | Garbage _ => true
  | Model k _ _ => negb (bool_decide (k ∈ models pins))
  | Runtime k _ _ evictable => evictable && negb (bool_decide (k ∈ runtimes pins))
  end.

(** The loop of [plan]: what it frees and evicts from [l]. *)
Fixpoint plan_loop (used quota : Z) (pins : SweepPins) (freed : Z) (l : list StorageEntry)
    : Z * list StorageEntry :=
  match l with
  | [] => (freed, [])
  | e :: l' =>
      let over_quota := quota <? sat_sub used freed in
      if negb over_quota && negb (is_garbage e) then (freed, [])
      else if negb (is_candidate pins e) then plan_loop used quota pins freed l'
      else
        let '(f, ev) := plan_loop used quota pins (sat_add u64_max freed (size_bytes e)) l' in
        (f, e :: ev)
  end.

Definition plan (survey : StorageSurvey) (quota_bytes : Z) (pins : SweepPins) : SweepPlan :=
  let '(freed, ev) := plan_loop (used_bytes survey) quota_bytes pins 0 (entries survey) in
  let remaining := sat_sub (used_bytes survey) freed in
  {| evictions := ev; plan_freed_bytes := freed;
     still_over_by_bytes :=
       if quota_bytes <? remaining then Some (remaining - quota_bytes) else None |}.

Definition refuse_if_oversize (artifact : str) (declared_bytes : option Z) (quota_bytes : Z)
    : result unit QuotaError :=
  match declared_bytes with
  | Some needed =>
      if quota_bytes <? needed then Err (Oversize artifact needed quota_bytes) else Ok tt
  | None => Ok tt
  end.

(** [payload_bytes]: the recorded size, else a walk of the entry's blobs. *)
Definition payload_bytes (walk : Z) (recorded : option Z) : Z := default walk recorded.

(** ** Applying *)

Class Disk (D : Type) := {
  (** [scan_store] of both roots, in directory order. *)
  scan : D -> list StorageEntry;
  remove_entry : str -> D -> result unit str * D;
}.

Section Sweep.
Context {D : Type} `{Disk D}.

Definition survey (d : D) : StorageSurvey := survey_new (scan d).

Definition apply_step (acc : SweepReport * D) (e : StorageEntry) : SweepReport * D :=
  let '(report, d) := acc in
  match remove_entry (path e) d with
  | (Ok _, d) =>
      ({| removed := removed report ++ [e]; failed := failed report;
          freed_bytes := sat_add u64_max (freed_bytes report) (size_bytes e) |}, d)
  | (Err source, d) =>
      ({| removed := removed report; failed := failed report ++ [(e, source)];
          freed_bytes := freed_bytes report |}, d)
  end.

Definition apply_sweep (p : SweepPlan) (d : D) : SweepReport * D :=
  fold_left apply_step (evictions p) (empty_report, d).

Definition not_reported (seen : list (StorageEntry * str)) (f : StorageEntry * str) : bool :=
  negb (existsb (fun kept => str_eqb (path kept.1) (path f.1)) seen).

Fixpoint sweep_loop (fuel : nat) (quota : Z) (pins : SweepPins) (dn : SweepReport) (d : D)
    : option ((SweepPlan * SweepReport) * D) :=
  match fuel with
  | O => None
  | S fuel =>
      let p := plan (survey d) quota pins in
      let '(report, d) := apply_sweep p d in
      let '(pins, again) := pin_failed pins report in
      let dn :=
        {| removed := removed dn ++ removed report;
           failed := failed dn ++ List.filter (not_reported (failed dn)) (failed report);
           freed_bytes := sat_add u64_max (freed_bytes dn) (freed_bytes report) |} in
      if again then sweep_loop fuel quota pins dn d else Some ((p, dn), d)
  end.

Definition sweep (fuel : nat) (quota : Z) (pins : SweepPins) (d : D) :=
  sweep_loop fuel quota pins empty_report d.
End Sweep.

(** ** The order *)

Lemma key_leb_total a b : key_leb a b = true \/ key_leb b a = true.
Proof.
  destruct a, b; unfold key_leb, opt_z_leb; cbn; repeat case_bool_decide; simplify_eq;
    rewrite ?Z.leb_le; auto; lia.
Qed.

Lemma key_leb_trans a b c : key_leb a b = true -> key_leb b c = true -> key_leb a c = true.
Proof.
  destruct a, b, c; unfold key_leb, opt_z_leb; cbn; repeat case_bool_decide; simplify_eq;
    rewrite ?Z.leb_le; intros; auto; try lia; try congruence;
    match goal with H : Some _ <> Some _ |- _ => destruct H; f_equal; lia end.
Qed.

Lemma key_leb_rank a b : key_leb a b = true -> rank a <= rank b.
Proof. unfold key_leb. intros H. repeat (cases; try lia). Qed.

Lemma survey_sorted l : StronglySorted (le_of entry_leb) (entries (survey_new l)).
Proof.
  apply sort_stable_sorted; unfold entry_leb; intros; eauto using key_leb_total, key_leb_trans.
Qed.

(** ** The plan *)

Definition freed_by (freed : Z) (l : list StorageEntry) : Z :=
  fold_left (fun total e => sat_add u64_max total (size_bytes e)) l freed.

Lemma is_garbage_candidate pins e : is_garbage e = true -> is_candidate pins e = true.
Proof. unfold is_garbage, is_candidate. by destruct (kind e). Qed.

Lemma garbage_first e l :
  StronglySorted (le_of entry_leb) (e :: l) -> is_garbage e = false ->
  Forall (fun x => is_garbage x = false) (e :: l).
Proof.
  intros [_ Hall]%StronglySorted_inv He. constructor; [done|].
  eapply Forall_impl; [exact Hall|]. intros x Hx%key_leb_rank.
  unfold is_garbage in *. destruct (kind e), (kind x); simpl in *; done || lia.
Qed.

(** What the loop of [plan] guarantees of the entries [ev] it picks from [l]. *)
Definition plan_ok (used quota : Z) (pins : SweepPins) (freed : Z) (l : list StorageEntry)
    (f : Z) (ev : list StorageEntry) : Prop :=
  let cands := List.filter (is_candidate pins) l in
  exists k, ev = take k cands /\ f = freed_by freed ev /\
    (forall e, e ∈ l -> is_garbage e = true -> e ∈ ev) /\
    (forall j e, ev !! j = Some e -> is_garbage e = false ->
       quota < sat_sub used (freed_by freed (take j ev))) /\
    ((k < length cands)%nat -> sat_sub used f <= quota).

Lemma plan_loop_ok used quota pins freed l :
  StronglySorted (le_of entry_leb) l ->
  plan_ok used quota pins freed l (plan_loop used quota pins freed l).1
    (plan_loop used quota pins freed l).2.
Proof.
  intros Hs. revert freed; induction l as [|e l IH]; intros freed.
  { exists 0%nat. split_and!; try done; simpl; try lia. }
  pose proof Hs as [Hs' _]%StronglySorted_inv. cbn [plan_loop].
  destruct (negb _ && negb (is_garbage e)) eqn:Estop; [|destruct (negb (is_candidate pins e)) eqn:Ec].
  - bool_to_prop. exists 0%nat. split_and!; try done.
    intros x Hx Hg. pose proof (garbage_first _ _ Hs ltac:(done)) as Hno.
    rewrite Forall_forall in Hno. specialize (Hno x Hx). congruence.
  - destruct (IH Hs' freed) as (k & H1 & H2 & H3 & H4 & H5). bool_to_prop.
    exists k. cbn [List.filter]. rewrite Ec. split_and!; try done.
    intros x [->|Hx]%elem_of_cons Hg; [|auto].
    rewrite is_garbage_candidate in Ec by done. done.
  - destruct (IH Hs' (sat_add u64_max freed (size_bytes e))) as (k & H1 & H2 & H3 & H4 & H5).
    destruct (plan_loop _ _ _ _ l) as [f ev]. cbn [fst snd] in *. bool_to_prop.
    exists (S k). cbn [List.filter]. rewrite Ec. cbn [take length freed_by fold_left].
    split_and!; [by rewrite H1|done| | |intros; apply H5; lia].
    + intros x [->|Hx]%elem_of_cons Hg; [left|right; auto].
    + intros [|j] x Hj Hg; simpl in Hj; simplify_eq; [|exact (H4 j x Hj Hg)].
      cbn. apply andb_false_iff in Estop as [Hov|Hng]; bool_to_prop; [done|].
      congruence.
Qed.

(** The plan is the least LRU prefix. For every listing of the stores, quota and
    pins: the survey is sorted garbage first, then models, then runtimes, least recently
    used first; the plan evicts a prefix of the entries it may remove, in that order, and
    never one that is pinned or not evictable; all garbage goes; a live entry goes only
    while the store is still over quota without it; and either the rest fits, or every
    entry it may remove is evicted and the overage is reported. *)
Theorem plan_correct (l : list StorageEntry) (quota : Z) (pins : SweepPins) :
  let s := survey_new l in
  let p := plan s quota pins in
  StronglySorted (le_of entry_leb) (entries s) /\ entries s ≡ₚ l /\
  plan_ok (used_bytes s) quota pins 0 (entries s) (plan_freed_bytes p) (evictions p) /\
  match still_over_by_bytes p with
  | None => sat_sub (used_bytes s) (plan_freed_bytes p) <= quota
  | Some over =>
      0 < over /\ sat_sub (used_bytes s) (plan_freed_bytes p) = quota + over /\
      evictions p = List.filter (is_candidate pins) (entries s)
  end.
Proof.
  intros s p. pose proof (survey_sorted l) as Hs.
  pose proof (plan_loop_ok (used_bytes s) quota pins 0 (entries s) Hs) as Hok.
  subst p. unfold plan. destruct (plan_loop _ _ _ _ _) as [f ev]. cbn [fst snd] in Hok.
  cbn [evictions plan_freed_bytes still_over_by_bytes].
  split_and!; [done|apply sort_stable_perm|done|].
  destruct (Z.ltb_spec quota (sat_sub (used_bytes s) f)); [|done].
  split_and!; [lia|lia|]. destruct Hok as (k & -> & _ & _ & _ & Hk).
  apply take_ge. destruct (decide (k < length (List.filter (is_candidate pins) (entries s)))%nat);
    [|lia]. specialize (Hk ltac:(done)). lia.
Qed.

(** ** The sweep *)

Definition model_key (e : StorageEntry) : option str :=
  match kind e with Model k _ _ => Some k | _ => None end.
Definition runtime_key (e : StorageEntry) : option str :=
  match kind e with Runtime k _ _ _ => Some k | _ => None end.
Definition model_keys (l : list StorageEntry) : gset str := list_to_set (omap model_key l).
Definition runtime_keys (l : list StorageEntry) : gset str := list_to_set (omap runtime_key l).

(** What the sweep relies on of the disk: entries have distinct paths and sizes a [u64]
    holds; removing an entry that succeeds leaves nothing at its path, touches no other
    entry, and never makes a live one. *)
Class DiskLaws (D : Type) `{Disk D} := {
  scan_paths d : NoDup (path <$> scan d);
  scan_sizes d : Forall (fun e => in_range u64_max (size_bytes e)) (scan d);
  remove_gone p d d' : remove_entry p d = (Ok tt, d') -> p ∉ path <$> scan d';
  remove_others p d e : e ∈ scan d -> path e <> p -> e ∈ scan (remove_entry p d).2;
  remove_models p d : model_keys (scan (remove_entry p d).2) ⊆ model_keys (scan d);
  remove_runtimes p d : runtime_keys (scan (remove_entry p d).2) ⊆ runtime_keys (scan d);
}.

Definition pins_le (a b : SweepPins) : Prop :=
  models a ⊆ models b /\ runtimes a ⊆ runtimes b.

Lemma is_candidate_mono a b e : pins_le a b -> is_candidate b e = true -> is_candidate a e = true.
Proof.
  intros [Hm Hr]. unfold is_candidate. destruct (kind e); [done|..]; intros; bool_to_prop;
    rewrite ?andb_true_iff, negb_true_iff; rewrite bool_decide_eq_false; set_solver.
Qed.

Definition live_unpinned (pins : SweepPins) (l : list StorageEntry) : nat :=
  (size (model_keys l ∖ models pins) + size (runtime_keys l ∖ runtimes pins))%nat.

Lemma elem_of_model_keys k l :
  k ∈ model_keys l <-> exists e, e ∈ l /\ model_key e = Some k.
Proof. unfold model_keys. rewrite elem_of_list_to_set, list_elem_of_omap. done. Qed.

Lemma elem_of_runtime_keys k l :
  k ∈ runtime_keys l <-> exists e, e ∈ l /\ runtime_key e = Some k.
Proof. unfold runtime_keys. rewrite elem_of_list_to_set, list_elem_of_omap. done. Qed.

(** Pinning the failures of a round: the pins grow, and when they do the entries left to
    try shrink. *)
(** Pinning only grows the pins, and each new pin takes a live entry off the measure. *)
Definition pins_grow (l : list StorageEntry) (acc acc' : SweepPins * bool) : Prop :=
  pins_le acc.1 acc'.1 /\ (live_unpinned acc'.1 l <= live_unpinned acc.1 l)%nat /\
  (acc'.2 = true -> acc.2 = true \/ (live_unpinned acc'.1 l < live_unpinned acc.1 l)%nat).

Lemma pin_entry_grows l acc f : f.1 ∈ l -> pins_grow l acc (pin_entry acc f).
Proof.
  intros Hf. destruct acc as [p b]. unfold pins_grow, pins_le, live_unpinned, pin_entry.
  destruct (kind f.1) as [|k u v|k u v ev] eqn:Ek; cbn [fst snd models runtimes].
  - split_and!; try done. rewrite orb_false_r. auto.
  - split_and!; [set_solver|done| |].
    + apply Nat.add_le_mono_r, subseteq_size. set_solver.
    + rewrite orb_true_iff. intros [|Hn]; [by left|right]. bool_to_prop.
      apply Nat.add_lt_mono_r, subset_size. split; [set_solver|].
      intros Hs. assert (k ∈ model_keys l) as Hk.
      { apply elem_of_model_keys. exists f.1. unfold model_key. by rewrite Ek. }
      set_solver.
  - split_and!; [done|set_solver| |].
    + apply Nat.add_le_mono_l, subseteq_size. set_solver.
    + rewrite orb_true_iff. intros [|Hn]; [by left|right]. bool_to_prop.
      apply Nat.add_lt_mono_l, subset_size. split; [set_solver|].
      intros Hs. assert (k ∈ runtime_keys l) as Hk.
      { apply elem_of_runtime_keys. exists f.1. unfold runtime_key. by rewrite Ek. }
      set_solver.
Qed.

Lemma pin_entries_grow l fs acc :
  (forall f, f ∈ fs -> f.1 ∈ l) -> pins_grow l acc (fold_left pin_entry fs acc).
Proof.
  revert acc; induction fs as [|f fs IH]; intros acc Hin; [by split_and!; auto|].
  cbn [fold_left]. destruct (pin_entry_grows l acc f) as (Ha & Hb & Hc); [apply Hin; left|].
  destruct (IH (pin_entry acc f)) as (H1 & H2 & H3); [intros; apply Hin; by right|].
  split_and!.
  - destruct Ha, H1. split; by etrans.
  - lia.
  - intros Ht. destruct (H3 Ht) as [Hs|]; [|right; lia]. destruct (Hc Hs); [by left|right; lia].
Qed.

Lemma pin_failed_measure pins r l :
  (forall f, f ∈ failed r -> f.1 ∈ l) ->
  pins_le pins (pin_failed pins r).1 /\
  ((pin_failed pins r).2 = true ->
   (live_unpinned (pin_failed pins r).1 l < live_unpinned pins l)%nat) /\
  (live_unpinned (pin_failed pins r).1 l <= live_unpinned pins l)%nat.
Proof.
  intros Hin. destruct (pin_entries_grow l (failed r) (pins, false) Hin) as (H1 & H2 & H3).
  split_and!; [done| |done]. intros Ht. by destruct (H3 Ht).
Qed.

Lemma freed_by_sum freed l :
  in_range u64_max freed -> Forall (fun e => in_range u64_max (size_bytes e)) l ->
  freed_by freed l = Z.min u64_max (freed + fold_right Z.add 0 (size_bytes <$> l)).
Proof.
  intros Hf Hl. revert freed Hf.
  induction Hl as [|e l He Hl IH]; intros freed Hf; cbn; [solve_bounds|].
  change (freed_by (sat_add u64_max freed (size_bytes e)) l = 
    Z.min u64_max (freed + (size_bytes e + fold_right Z.add 0 (size_bytes <$> l)))).
  rewrite IH by auto with rust.
  assert (0 <= fold_right Z.add 0 (size_bytes <$> l)).
  { clear -Hl. induction Hl as [|x l [? ?] _ IH']; cbn; lia. }
  unfold sat_add. lia.
Qed.

Lemma freed_by_app freed a b : freed_by freed (a ++ b) = freed_by (freed_by freed a) b.
Proof. apply fold_left_app. Qed.

Lemma freed_by_range freed l :
  in_range u64_max freed -> Forall (fun e => in_range u64_max (size_bytes e)) l ->
  in_range u64_max (freed_by freed l).
Proof.
  intros Hf Hl. revert freed Hf. induction Hl as [|e l He Hl IH]; intros freed Hf; [done|].
  cbn. apply IH. auto with rust.
Qed.

(** Adding up a round's total is adding up its entries. *)
Lemma freed_by_add a l :
  in_range u64_max a -> Forall (fun e => in_range u64_max (size_bytes e)) l ->
  sat_add u64_max a (freed_by 0 l) = freed_by a l.
Proof.
  intros Ha Hl. assert (in_range u64_max 0) by (split; vm_compute; congruence).
  rewrite !freed_by_sum by done. 
  assert (0 <= fold_right Z.add 0 (size_bytes <$> l)).
  { clear -Hl. induction Hl as [|x l [? ?] _ IH']; cbn; lia. }
  unfold sat_add, in_range in *. lia.
Qed.

Section SweepCorrect.
Context {D : Type} `{DiskLaws D}.

(** What a round of removals leaves, from a report [r0] on the disk [d0]. *)
Lemma apply_steps ev r0 d0 :
  let o := fold_left apply_step ev (r0, d0) in
  (exists rem, removed o.1 = removed r0 ++ rem /\ rem ⊆ ev /\
     freed_bytes o.1 = freed_by (freed_bytes r0) rem) /\
  (exists fl, failed o.1 = failed r0 ++ fl /\ sublist (fst <$> fl) ev) /\
  (forall e, e ∈ scan d0 -> path e ∉ path <$> ev -> e ∈ scan o.2) /\
  model_keys (scan o.2) ⊆ model_keys (scan d0) /\
  runtime_keys (scan o.2) ⊆ runtime_keys (scan d0).
Proof.
  revert r0 d0; induction ev as [|e ev IH]; intros r0 d0; cbn [fold_left].
  { cbn. split_and!; try done; exists []; rewrite app_nil_r; split_and!; try done. }
  pose proof (remove_others (path e) d0) as Hothers.
  pose proof (remove_models (path e) d0) as Hm. pose proof (remove_runtimes (path e) d0) as Hr.
  destruct (apply_step (r0, d0) e) as [r1 d1] eqn:Es. cbn [apply_step] in Es.
  destruct (remove_entry (path e) d0) as [[[]|src] d2] eqn:E; cbn [fst snd] in *;
    injection Es as <- <-.
  - match goal with |- context [fold_left apply_step ev (?r, d2)] => set (r1 := r) end.
    destruct (IH r1 d2) as ((rem & H1 & H2 & H3) & (fl & H4 & H5) & H6 & H7 & H8).
    split_and!; [| | |set_solver|set_solver].
    + exists (e :: rem). rewrite H1, H3. cbn. rewrite <- app_assoc. split_and!; set_solver.
    + exists fl. rewrite H4. split; [done|]. by constructor.
    + intros x Hx Hn. cbn in Hn. apply not_elem_of_cons in Hn as [Hn1 Hn2]. auto.
  - match goal with |- context [fold_left apply_step ev (?r, d2)] => set (r1 := r) end.
    destruct (IH r1 d2) as ((rem & H1 & H2 & H3) & (fl & H4 & H5) & H6 & H7 & H8).
    split_and!; [| | |set_solver|set_solver].
    + exists rem. rewrite H1, H3. split_and!; [done|set_solver|done].
    + exists ((e, src) :: fl). rewrite H4. cbn. rewrite <- app_assoc.
      split; [done|]. by constructor.
    + intros x Hx Hn. cbn in Hn. apply not_elem_of_cons in Hn as [Hn1 Hn2]. auto.
Qed.

Lemma plan_candidates l quota pins e :
  e ∈ evictions (plan (survey_new l) quota pins) -> e ∈ l /\ is_candidate pins e = true.
Proof.
  pose proof (plan_loop_ok (used_bytes (survey_new l)) quota pins 0 _ (survey_sorted l)) as Hok.
  unfold plan. destruct (plan_loop _ _ _ _ _) as [f ev]. cbn [fst snd evictions] in *.
  destruct Hok as (k & -> & _). intros He%elem_of_take. destruct He as (i & Hi & _).
  apply list_elem_of_lookup_2, list_elem_of_In, filter_In in Hi as [Hin Hc].
  split; [|done]. apply list_elem_of_In in Hin. by apply elem_of_sort_stable in Hin.
Qed.

Lemma plan_nodup l quota pins :
  NoDup (path <$> l) -> NoDup (path <$> evictions (plan (survey_new l) quota pins)).
Proof.
  intros Hn.
  pose proof (plan_loop_ok (used_bytes (survey_new l)) quota pins 0 _ (survey_sorted l)) as Hok.
  unfold plan. destruct (plan_loop _ _ _ _ _) as [f ev]. cbn [fst snd evictions] in *.
  destruct Hok as (k & -> & _). 
  assert (NoDup (path <$> entries (survey_new l))) as Hs.
  { cbn. by rewrite (sort_stable_perm entry_leb l). }
  eapply sublist_NoDup; [exact Hs|]. apply fmap_sublist.
  etrans; [apply sublist_take|]. clear. induction (entries (survey_new l)) as [|x es IH]; [done|].
  cbn. destruct (is_candidate pins x); by constructor.
Qed.

(** The state of the sweep between rounds: [pins] and the disk it started from. *)
Record sweep_inv (pins0 : SweepPins) (d0 : D) (pins : SweepPins) (dn : SweepReport) (d : D)
    : Prop := {
  inv_pins : pins_le pins0 pins;
  inv_removed : Forall (fun e => is_candidate pins0 e = true /\
                                 in_range u64_max (size_bytes e)) (removed dn);
  inv_freed : freed_bytes dn = freed_by 0 (removed dn);
  inv_failed : NoDup (path ∘ fst <$> failed dn);
  inv_kept : forall e, e ∈ scan d0 -> is_candidate pins0 e = false -> e ∈ scan d;
}.

(** Failures already reported are not reported again. *)
Lemma failed_once (seen fs : list (StorageEntry * str)) :
  NoDup (path ∘ fst <$> seen) -> NoDup (path ∘ fst <$> fs) ->
  NoDup (path ∘ fst <$> seen ++ List.filter (not_reported seen) fs).
Proof.
  intros Hs Hf. rewrite fmap_app. apply NoDup_app. split_and!; [done| |].
  - intros x Hx Hx2. apply list_elem_of_fmap in Hx2 as (f & -> & Hfl).
    apply list_elem_of_In, filter_In in Hfl as [_ Hfl]. unfold not_reported in Hfl.
    bool_to_prop. apply list_elem_of_fmap in Hx as (g & Hg & Hgin).
    assert (existsb (fun kept => str_eqb (path kept.1) (path f.1)) seen = true); [|congruence].
    apply existsb_exists. exists g. rewrite <- list_elem_of_In. split; [done|].
    apply str_eqb_eq. by symmetry.
  - eapply sublist_NoDup; [exact Hf|]. apply fmap_sublist. clear.
    induction fs as [|x fs IH]; [done|]. cbn. destruct (not_reported _ x); by constructor.
Qed.

Lemma scan_path_inj d e e' : e ∈ scan d -> e' ∈ scan d -> path e = path e' -> e = e'.
Proof.
  intros He He' Hp. pose proof (scan_paths d) as Hnd.
  apply list_elem_of_lookup in He as [i Hi]. apply list_elem_of_lookup in He' as [j Hj].
  assert (i = j) as ->; [|congruence].
  eapply NoDup_lookup; [exact Hnd| |]; rewrite list_lookup_fmap; [by rewrite Hi|].
  rewrite Hj. cbn. by rewrite Hp.
Qed.

Lemma sweep_round pins0 d0 pins dn d quota :
  sweep_inv pins0 d0 pins dn d ->
  let p := plan (survey d) quota pins in
  let rd := apply_sweep p d in
  let pa := pin_failed pins rd.1 in
  let dn' := {| removed := removed dn ++ removed rd.1;
                failed := failed dn ++ List.filter (not_reported (failed dn)) (failed rd.1);
                freed_bytes := sat_add u64_max (freed_bytes dn) (freed_bytes rd.1) |} in
  sweep_inv pins0 d0 pa.1 dn' rd.2 /\
  (live_unpinned pa.1 (scan rd.2) <= live_unpinned pins (scan d))%nat /\
  (pa.2 = true -> (live_unpinned pa.1 (scan rd.2) < live_unpinned pins (scan d))%nat).
Proof.
  intros [Hp Hrem Hfr Hfl Hk] p rd pa dn'.
  destruct (apply_steps (evictions p) empty_report d) as
    ((rem & Hr1 & Hr2 & Hr3) & (fl & Hf1 & Hf2) & Hothers & Hm & Hrt).
  fold (apply_sweep p d) in *. fold rd in Hr1, Hr3, Hf1, Hothers, Hm, Hrt.
  cbn [removed failed freed_bytes empty_report app] in *.
  assert (forall e, e ∈ evictions p -> e ∈ scan d /\ is_candidate pins0 e = true) as Hev.
  { intros e He. apply plan_candidates in He as [? ?]. split; [done|].
    by eapply is_candidate_mono. }
  assert (forall e, e ∈ scan d -> in_range u64_max (size_bytes e)) as Hsz.
  { pose proof (scan_sizes d) as Hz. by rewrite Forall_forall in Hz. }
  assert (forall f, f ∈ failed rd.1 -> f.1 ∈ scan d) as Hfin.
  { intros f Hf. rewrite Hf1 in Hf. apply Hev. eapply sublist_subseteq; [exact Hf2|].
    by apply list_elem_of_fmap_2. }
  destruct (pin_failed_measure pins rd.1 (scan d) Hfin) as (Hpl & Hlt & Hle).
  fold pa in Hpl, Hlt, Hle.
  assert (live_unpinned pa.1 (scan rd.2) <= live_unpinned pa.1 (scan d))%nat as Hmono.
  { unfold live_unpinned. apply Nat.add_le_mono; apply subseteq_size; set_solver. }
  assert (Forall (fun e => is_candidate pins0 e = true /\ in_range u64_max (size_bytes e)) rem)
    as Hrem'.
  { apply Forall_forall. intros e He. apply Hr2, Hev in He as [? ?]. auto. }
  split_and!; [|lia|intros Ht; specialize (Hlt Ht); lia].
  constructor; cbn [removed failed freed_bytes dn'].
  - destruct Hp, Hpl. split; by etrans.
  - rewrite Hr1. apply Forall_app. done.
  - rewrite Hr1, Hr3, freed_by_app, <- Hfr. apply freed_by_add.
    + rewrite Hfr. apply freed_by_range; [split; vm_compute; congruence|].
      eapply Forall_impl; [exact Hrem|]. naive_solver.
    + eapply Forall_impl; [exact Hrem'|]. naive_solver.
  - apply failed_once; [done|]. rewrite Hf1.
    eapply sublist_NoDup; [apply (plan_nodup (scan d) quota pins), scan_paths|].
    rewrite list_fmap_compose. by apply fmap_sublist.
  - intros e He Hc. apply Hothers; [by apply Hk|].
    intros Hin. apply list_elem_of_fmap in Hin as (e' & Hpath & He').
    apply Hev in He' as [Hs Hc']. assert (e = e') as ->; [|congruence].
    by eapply scan_path_inj; [apply Hk|..].
Qed.

Lemma sweep_loop_total fuel quota pins0 d0 pins dn d :
  sweep_inv pins0 d0 pins dn d -> (live_unpinned pins (scan d) < fuel)%nat ->
  exists p r d' pins', sweep_loop fuel quota pins dn d = Some ((p, r), d') /\
    sweep_inv pins0 d0 pins' r d'.
Proof.
  revert pins dn d; induction fuel as [|fuel IH]; intros pins dn d Hinv Hf; [lia|].
  pose proof (sweep_round _ _ _ _ _ quota Hinv) as (Hi & Hle & Hlt). cbn [sweep_loop].
  destruct (apply_sweep (plan (survey d) quota pins) d) as [report d1]. cbn [fst snd] in *.
  destruct (pin_failed pins report) as [pins1 again]. cbn [fst snd] in *.
  destruct again; [|by eauto 10].
  apply IH; [done|]. specialize (Hlt eq_refl). lia.
Qed.
End SweepCorrect.

(** C20: the sweep. On every disk that keeps the laws of a removal, whatever locks refuse,
    the sweep ends within one round per live entry not pinned at the start and one more;
    it removes only entries that were neither pinned nor kept as not evictable, and every
    such entry is still there at the end; the bytes it reports freed are the (saturating)
    sum of what it removed; and no entry is reported failed twice. *)
Theorem sweep_correct {D} `{DiskLaws D} (quota : Z) (pins : SweepPins) (d : D) (fuel : nat) :
  (live_unpinned pins (scan d) < fuel)%nat ->
  exists p r d', sweep fuel quota pins d = Some ((p, r), d') /\
    Forall (fun e => is_candidate pins e = true) (removed r) /\
    (forall e, e ∈ scan d -> is_candidate pins e = false -> e ∈ scan d') /\
    freed_bytes r = freed_by 0 (removed r) /\
    NoDup (path ∘ fst <$> failed r).
Proof.
  intros Hf. unfold sweep.
  destruct (sweep_loop_total fuel quota pins d pins empty_report d) as (p & r & d' & pins' & Hs & Hi).
  - constructor; cbn; try done; try constructor.
  - done.
  - exists p, r, d'. destruct Hi as [_ Hr Hfr Hfl Hk]. split_and!; try done.
    eapply Forall_impl; [exact Hr|]. naive_solver.
Qed.

(** ** A disk that keeps the laws: entries by path, some of them in use *)

Record HeldEntry := { held_size : Z; held_kind : EntryKind; in_use : bool }.

Definition held_entry (kv : str * HeldEntry) : StorageEntry :=
  {| path := kv.1; label := kv.1; size_bytes := Z.min u64_max (Z.abs (held_size kv.2));
     kind := held_kind kv.2 |}.

#[export] Instance held_disk : Disk (gmap str HeldEntry) := {
  scan d := held_entry <$> map_to_list d;
  remove_entry p d :=
    match d !! p with
    | Some e => if in_use e then (Err [], d) else (Ok tt, delete p d)
    | None => (Ok tt, d)
    end;
}.

Lemma held_scan (d : gmap str HeldEntry) (e : StorageEntry) :
  e ∈ scan d <-> exists p h, d !! p = Some h /\ e = held_entry (p, h).
Proof.
  cbn. rewrite list_elem_of_fmap. split.
  - intros ([p h] & -> & Hm%elem_of_map_to_list). eauto.
  - intros (p & h & Hm & ->). exists (p, h). split; [done|]. by apply elem_of_map_to_list.
Qed.

Lemma held_remove_subset (p : str) (d : gmap str HeldEntry) (e : StorageEntry) :
  e ∈ scan (remove_entry p d).2 -> e ∈ scan d.
Proof.
  rewrite !held_scan. intros (q & h & Hq & ->). exists q, h. split; [|done].
  cbn in Hq. destruct (d !! p) as [h'|]; [destruct (in_use h')|]; try done.
  cbn in Hq. by apply lookup_delete_Some in Hq as [_ Hq].
Qed.

#[export] Instance held_disk_laws : DiskLaws (gmap str HeldEntry).
Proof.
  split.
  - intros d. cbn. rewrite <- list_fmap_compose. apply (NoDup_fst_map_to_list d).
  - intros d. apply Forall_forall. intros e (p & h & _ & ->)%held_scan. cbn.
    unfold in_range. assert (0 <= u64_max) by (vm_compute; congruence). lia.
  - intros p d d' Hr Hin. apply list_elem_of_fmap in Hin as (e & -> & (q & h & Hq & ->)%held_scan).
    cbn in *. destruct (d !! q) as [h'|] eqn:E; [destruct (in_use h')|]; simplify_eq.
    by rewrite lookup_delete_eq in Hq.
  - intros p d e (q & h & Hq & ->)%held_scan Hne. apply held_scan. exists q, h.
    split; [|done]. cbn in *. destruct (d !! p) as [h'|]; [destruct (in_use h')|]; try done.
    cbn. by rewrite lookup_delete_ne.
  - intros p d k. rewrite !elem_of_model_keys. intros (e & He%held_remove_subset & ?). eauto.
  - intros p d k. rewrite !elem_of_runtime_keys. intros (e & He%held_remove_subset & ?). eauto.
Qed.

(** Three models and a piece of garbage over a 100-byte quota: the oldest is in use and the
    middle one pinned. *)
Definition held_example : gmap str HeldEntry :=
  <[ lit "a" := {| held_size := 60; held_kind := Model (lit "ka") 1 1; in_use := true |} ]>
  (<[ lit "b" := {| held_size := 60; held_kind := Model (lit "kb") 2 2; in_use := false |} ]>
  (<[ lit "c" := {| held_size := 60; held_kind := Model (lit "kc") 3 3; in_use := false |} ]>
  {[ lit "g" := {| held_size := 5; held_kind := Garbage []; in_use := false |} ]})).

Lemma sweep_correct_witness :
  exists p r d', sweep 10 100 (with_model (Some (lit "kb")) no_pins) held_example
      = Some ((p, r), d') /\
    path <$> removed r = [lit "g"; lit "c"] /\ freed_bytes r = 65 /\
    still_over_by_bytes p = Some 20 /\ NoDup (path ∘ fst <$> failed r).
Proof.
  destruct (sweep_correct 100 (with_model (Some (lit "kb")) no_pins) held_example 10)
    as (p & r & d' & Hs & _ & _ & _ & Hn).
  - vm_compute. lia.
  - exists p, r, d'. split_and!; [exact Hs|..|exact Hn]; vm_compute in Hs; by simplify_eq.
Defined.
