(* ===== verification/Gguf.v ===== *)
(** * GGUF metadata ([crates/pipette-llamacpp/src/gguf_meta.rs])

    The reader of a projector's metadata and of a vocabulary. The file is what is left of
    it after the position; a seek past the end leaves nothing, and the next read fails. *)

From Stdlib Require Import ZArith Lia String.
From stdpp Require Import prelude list.
From S2P Require Import Prelude Str.

Local Open Scope Z_scope.
Local Open Scope rust_scope.

(** ** Constants *)

Definition MAX_KV_COUNT : Z := Z.shiftl 1 20.
Definition MAX_KEPT_STRING : Z := Z.shiftl 1 16.
Definition MAX_TENSOR_COUNT : Z := Z.shiftl 1 16.

Definition HAS_AUDIO_ENCODER : str := lit "clip.has_audio_encoder".
Definition HAS_VISION_ENCODER : str := lit "clip.has_vision_encoder".
Definition AUDIO_PROJECTOR_TYPE : str := lit "clip.audio.projector_type".
Definition PROJECTOR_TYPE : str := lit "clip.projector_type".
Definition ARCHITECTURE : str := lit "general.architecture".
Definition OPENBMB_MINICPMO_AUDIO_ENCODER : str := lit "minicpmoa".
Definition WHISPER_ARCHITECTURE : str := lit "whisper".
Definition AUDIO_POOL_STEP : str := lit "audio_pool_step".
Definition OPENBMB_PROJECTOR_TENSOR : str := lit "audio_projector.linear2.weight".
Definition TOKENS : str := lit "tokenizer.ggml.tokens".

(** ** Data *)

Record ProjectorMetadata := {
  has_audio_encoder : bool;
  has_vision_encoder : bool;
  audio_projector_type : option str;
  projector_type : option str;
  openbmb_minicpmo_audio : bool;
}.

Definition no_metadata : ProjectorMetadata :=
  {| has_audio_encoder := false; has_vision_encoder := false; audio_projector_type := None;
     projector_type := None; openbmb_minicpmo_audio := false |}.

Definition holds_audio_encoder (m : ProjectorMetadata) : bool :=
  has_audio_encoder m || openbmb_minicpmo_audio m.

Definition audio_encoder_name (m : ProjectorMetadata) : option str :=
  option_or (option_or (audio_projector_type m) (projector_type m))
    (if openbmb_minicpmo_audio m then Some OPENBMB_MINICPMO_AUDIO_ENCODER else None).

Inductive ValueType :=
| Uint8 | Int8 | Uint16 | Int16 | Uint32 | Int32 | Float32 | TBool | TString | TArray
| Uint64 | Int64 | Float64.

#[export] Instance ValueType_eq_dec : EqDecision ValueType.
Proof. solve_decision. Defined.

Inductive GgufError :=
| UnexpectedEof
| NotGguf
| UnknownVersion (version : Z)
| TooManyEntries (kv_count : Z)
| KeyTooLong
| UnknownType (tag : Z)
| NestedArray
| LongerThanAnyFile
| SeekFailed
| NotUtf8
| TokensNotStrings (found : ValueType).

Definition value_type_of (tag : Z) : result ValueType GgufError :=
  match tag with
  | 0 => Ok Uint8
  | 1 => Ok Int8
  | 2 => Ok Uint16
  | 3 => Ok Int16
  | 4 => Ok Uint32
  | 5 => Ok Int32
  | 6 => Ok Float32
  | 7 => Ok TBool
  | 8 => Ok TString
  | 9 => Ok TArray
  | 10 => Ok Uint64
  | 11 => Ok Int64
  | 12 => Ok Float64
  | other => Err (UnknownType other)
  end.

Definition width (t : ValueType) : option Z :=
  match t with
  | Uint8 | Int8 | TBool => Some 1
  | Uint16 | Int16 => Some 2
  | Uint32 | Int32 | Float32 => Some 4
  | Uint64 | Int64 | Float64 => Some 8
  | TString | TArray => None
  end.

(** ** The reader *)

Record Reader := { rest : list Z; pos : Z }.

Definition parser (A : Type) : Type := Reader -> result (A * Reader) GgufError.

(** [Read::read_exact]. Reading nothing succeeds even past the end. *)
Definition read_exact (n : Z) : parser (list Z) := fun r =>
  if n <=? Z.of_nat (length (rest r)) then
    Ok (take (Z.to_nat n) (rest r),
        {| rest := drop (Z.to_nat n) (rest r); pos := pos r + n |})
  else Err UnexpectedEof.

Fixpoint le_value (bs : list Z) : Z :=
  match bs with
  | [] => 0
  | b :: bs' => b + 256 * le_value bs'
  end.

Definition read_u32 : parser Z := fun r =>
  let? (bytes, r) := read_exact 4 r in Ok (le_value bytes, r).

Definition read_u64 : parser Z := fun r =>
  let? (bytes, r) := read_exact 8 r in Ok (le_value bytes, r).

(** [skip]: [seek_relative] of a count an [i64] holds; a file offset past [i64::MAX] is
    refused by the seek itself. *)
Definition skip (bytes : Z) : parser unit := fun r =>
  if i64_max <? bytes then Err LongerThanAnyFile
  else if i64_max <? pos r + bytes then Err SeekFailed
  else Ok (tt, {| rest := drop (Z.to_nat (Z.min bytes (Z.of_nat (length (rest r))))) (rest r);
                  pos := pos r + bytes |}).

Definition read_string (max : Z) : parser (option str) := fun r =>
  let? (len, r) := read_u64 r in
  if max <? len then let? (_, r) := skip len r in Ok (None, r)
  else
    let? (bytes, r) := read_exact len r in
    match from_utf8 bytes with
    | Some s => Ok (Some s, r)
    | None => Err NotUtf8
    end.

(** [(0..n).try_for_each]. *)
Fixpoint repeat_parser (n : nat) (p : parser unit) : parser unit := fun r =>
  match n with
  | O => Ok (tt, r)
  | S n => let? (_, r) := p r in repeat_parser n p r
  end.

Definition skip_string : parser unit := fun r =>
  let? (len, r) := read_u64 r in skip len r.

(** The recursive call of the source is on an element type that is a string. *)
Definition skip_value (t : ValueType) : parser unit := fun r =>
  match width t with
  | Some w => skip w r
  | None =>
      if bool_decide (t = TString) then skip_string r
      else
        let? (tag, r) := read_u32 r in
        let? element_type := value_type_of tag in
        let? (len, r) := read_u64 r in
        if bool_decide (element_type = TArray) then Err NestedArray
        else match width element_type with
             | Some w => skip (sat_mul u64_max len w) r
             | None => repeat_parser (Z.to_nat len) skip_string r
             end
  end.

Definition read_counts : parser (Z * Z) := fun r =>
  let? (magic, r) := read_exact 4 r in
  if negb (str_eqb magic (lit "GGUF")) then Err NotGguf
  else
    let? (version, r) := read_u32 r in
    if negb ((2 <=? version) && (version <=? 3)) then Err (UnknownVersion version)
    else
      let? (tensor_count, r) := read_u64 r in
      let? (kv_count, r) := read_u64 r in
      if MAX_KV_COUNT <? kv_count then Err (TooManyEntries kv_count)
      else Ok ((tensor_count, kv_count), r).

Definition read_header : parser Z := fun r =>
  let? ((_, kv_count), r) := read_counts r in Ok (kv_count, r).

(** ** The projector *)

(** What the loop over the entries keeps. *)
Record Found := { found : ProjectorMetadata; architecture : option str; audio_pool_step : bool }.

Definition read_key : parser str := fun r =>
  let? (key, r) := read_string MAX_KEPT_STRING r in
  match key with
  | Some key => Ok (key, r)
  | None => Err KeyTooLong
  end.

Definition read_type : parser ValueType := fun r =>
  let? (tag, r) := read_u32 r in
  let? t := value_type_of tag in Ok (t, r).

Definition read_bool : parser bool := fun r =>
  let? (byte, r) := read_exact 1 r in Ok (negb (le_value byte =? 0), r).

Definition set_found (f : Found) (m : ProjectorMetadata) : Found :=
  {| found := m; architecture := architecture f; audio_pool_step := audio_pool_step f |}.

(** One entry of the loop of [read_projector_metadata]. *)
Definition read_entry (f : Found) : parser Found := fun r =>
  let? (key, r) := read_key r in
  let? (t, r) := read_type r in
  let m := found f in
  if str_eqb key HAS_AUDIO_ENCODER && bool_decide (t = TBool) then
    let? (b, r) := read_bool r in
    Ok (set_found f {| has_audio_encoder := b; has_vision_encoder := has_vision_encoder m;
          audio_projector_type := audio_projector_type m; projector_type := projector_type m;
          openbmb_minicpmo_audio := openbmb_minicpmo_audio m |}, r)
  else if str_eqb key HAS_VISION_ENCODER && bool_decide (t = TBool) then
    let? (b, r) := read_bool r in
    Ok (set_found f {| has_audio_encoder := has_audio_encoder m; has_vision_encoder := b;
          audio_projector_type := audio_projector_type m; projector_type := projector_type m;
          openbmb_minicpmo_audio := openbmb_minicpmo_audio m |}, r)
  else if str_eqb key AUDIO_PROJECTOR_TYPE && bool_decide (t = TString) then
    let? (s, r) := read_string MAX_KEPT_STRING r in
    Ok (set_found f {| has_audio_encoder := has_audio_encoder m;
          has_vision_encoder := has_vision_encoder m;
          audio_projector_type := s; projector_type := projector_type m;
          openbmb_minicpmo_audio := openbmb_minicpmo_audio m |}, r)
  else if str_eqb key PROJECTOR_TYPE && bool_decide (t = TString) then
    let? (s, r) := read_string MAX_KEPT_STRING r in
    Ok (set_found f {| has_audio_encoder := has_audio_encoder m;
          has_vision_encoder := has_vision_encoder m;
          audio_projector_type := audio_projector_type m; projector_type := s;
          openbmb_minicpmo_audio := openbmb_minicpmo_audio m |}, r)
  else if str_eqb key ARCHITECTURE && bool_decide (t = TString) then
    let? (s, r) := read_string MAX_KEPT_STRING r in
    Ok ({| found := m; architecture := s; audio_pool_step := audio_pool_step f |}, r)
  else if str_eqb key AUDIO_POOL_STEP then
    let? (_, r) := skip_value t r in
    Ok ({| found := m; architecture := architecture f; audio_pool_step := true |}, r)
  else
    let? (_, r) := skip_value t r in Ok (f, r).

Fixpoint read_entries (n : nat) (f : Found) : parser Found := fun r =>
  match n with
  | O => Ok (f, r)
  | S n => let? (f, r) := read_entry f r in read_entries n f r
  end.

Fixpoint has_tensor (count : nat) (wanted : str) : parser bool := fun r =>
  match count with
  | O => Ok (false, r)
  | S count =>
      let? (name, r) := read_string MAX_KEPT_STRING r in
      if bool_decide (name = Some wanted) then Ok (true, r)
      else
        let? (dims, r) := read_u32 r in
        let? (_, r) := skip (sat_add u64_max (sat_mul u64_max dims 8) (4 + 8)) r in
        has_tensor count wanted r
  end.

Definition read_projector_metadata : parser ProjectorMetadata := fun r =>
  let? ((tensor_count, kv_count), r) := read_counts r in
  let? (f, r) := read_entries (Z.to_nat kv_count)
    {| found := no_metadata; architecture := None; audio_pool_step := false |} r in
  let m := found f in
  if bool_decide (architecture f = Some WHISPER_ARCHITECTURE) && audio_pool_step f
     && (tensor_count <=? MAX_TENSOR_COUNT) then
    let? (b, r) := has_tensor (Z.to_nat tensor_count) OPENBMB_PROJECTOR_TENSOR r in
    Ok ({| has_audio_encoder := has_audio_encoder m;
           has_vision_encoder := has_vision_encoder m;
           audio_projector_type := audio_projector_type m;
           projector_type := projector_type m; openbmb_minicpmo_audio := b |}, r)
  else Ok (m, r).

(** ** The vocabulary *)

(** The pieces at indices [index .. index + n - 1], each stored at the ids that ask for it. *)
Fixpoint read_pieces (n : nat) (index : Z) (ids : list Z) (pieces : list (option str))
    : parser (list (option str)) := fun r =>
  match n with
  | O => Ok (pieces, r)
  | S n =>
      if existsb (fun id => id =? index) ids then
        let? (piece, r) := read_string MAX_KEPT_STRING r in
        read_pieces n (index + 1) ids
          (zip_with (fun slot id => if id =? index then piece else slot) pieces ids) r
      else
        let? (_, r) := skip_value TString r in read_pieces n (index + 1) ids pieces r
  end.

Definition max_id (ids : list Z) : Z := fold_right Z.max 0 ids.

(** [ids.iter().copied().max().map_or(0, u64::from)] is [max_id]: ids are not negative. *)
Fixpoint read_vocabulary (n : nat) (ids : list Z) : parser (option (list (option str))) :=
  fun r =>
  match n with
  | O => Ok (None, r)
  | S n =>
      let? (key, r) := read_key r in
      let? (t, r) := read_type r in
      if negb (str_eqb key TOKENS) || negb (bool_decide (t = TArray)) then
        let? (_, r) := skip_value t r in read_vocabulary n ids r
      else
        let? (element_type, r) := read_type r in
        if negb (bool_decide (element_type = TString)) then Err (TokensNotStrings element_type)
        else
          let? (len, r) := read_u64 r in
          let? (pieces, r) :=
            read_pieces (Z.to_nat (Z.min len (sat_add u64_max (max_id ids) 1))) 0 ids
              (replicate (length ids) None) r in
          Ok (Some pieces, r)
  end.

Definition read_token_pieces (ids : list Z) : parser (option (list (option str))) := fun r =>
  let? (kv_count, r) := read_header r in read_vocabulary (Z.to_nat kv_count) ids r.

(** ** Encoding: the headers a writer produces *)

Fixpoint le_bytes (n : nat) (v : Z) : list Z :=
  match n with
  | O => []
  | S n => v mod 256 :: le_bytes n (v / 256)
  end.

Definition encode_string (s : str) : list Z := le_bytes 8 (str_len s) ++ as_bytes s.

(** A metadata value: the bytes of a fixed-width one, a string, or an array of either. *)
Inductive GValue :=
| GFixed (t : ValueType) (raw : list Z)
| GString (s : str)
| GFixeds (t : ValueType) (raws : list (list Z))
| GStrings (l : list str).

Definition tag_of (t : ValueType) : Z :=
  match t with
  | Uint8 => 0 | Int8 => 1 | Uint16 => 2 | Int16 => 3 | Uint32 => 4 | Int32 => 5
  | Float32 => 6 | TBool => 7 | TString => 8 | TArray => 9 | Uint64 => 10 | Int64 => 11
  | Float64 => 12
  end.

Definition gtype (v : GValue) : ValueType :=
  match v with
  | GFixed t _ => t
  | GString _ => TString
  | GFixeds _ _ | GStrings _ => TArray
  end.

Definition encode_value (v : GValue) : list Z :=
  match v with
  | GFixed _ raw => raw
  | GString s => encode_string s
  | GFixeds t raws =>
      le_bytes 4 (tag_of t) ++ le_bytes 8 (Z.of_nat (length raws)) ++ concat raws
  | GStrings l =>
      le_bytes 4 (tag_of TString) ++ le_bytes 8 (Z.of_nat (length l)) ++
      concat (map encode_string l)
  end.

Definition encode_entry (kv : str * GValue) : list Z :=
  encode_string kv.1 ++ le_bytes 4 (tag_of (gtype kv.2)) ++ encode_value kv.2.

(** A tensor: its name, its dimensions, its type and offset. *)
Definition encode_tensor (t : str * list Z) : list Z :=
  encode_string t.1 ++ le_bytes 4 (Z.of_nat (length t.2)) ++
  concat (map (le_bytes 8) t.2) ++ le_bytes 4 0 ++ le_bytes 8 0.

(** [fixture::gguf], with tensors. *)
Definition gguf (entries : list (str * GValue)) (tensors : list (str * list Z)) : list Z :=
  lit "GGUF" ++ le_bytes 4 3 ++ le_bytes 8 (Z.of_nat (length tensors)) ++
  le_bytes 8 (Z.of_nat (length entries)) ++ concat (map encode_entry entries) ++
  concat (map encode_tensor tensors).

(** ** What the reader should find *)

Definition value_bool (v : GValue) : bool :=
  match v with
  | GFixed _ raw => negb (le_value raw =? 0)
  | _ => false
  end.

(** A string past the limit is skipped, and reads as none. *)
Definition kept (s : str) : option str := if MAX_KEPT_STRING <? str_len s then None else Some s.

Definition value_str (v : GValue) : option str :=
  match v with
  | GString s => kept s
  | _ => None
  end.

(** The last entry of a key, with the type the reader expects, decides its field. *)
Definition apply_entry (f : Found) (kv : str * GValue) : Found :=
  let '(key, v) := kv in
  let t := gtype v in
  let m := found f in
  if str_eqb key HAS_AUDIO_ENCODER && bool_decide (t = TBool) then
    set_found f {| has_audio_encoder := value_bool v;
      has_vision_encoder := has_vision_encoder m;
      audio_projector_type := audio_projector_type m; projector_type := projector_type m;
      openbmb_minicpmo_audio := openbmb_minicpmo_audio m |}
  else if str_eqb key HAS_VISION_ENCODER && bool_decide (t = TBool) then
    set_found f {| has_audio_encoder := has_audio_encoder m;
      has_vision_encoder := value_bool v;
      audio_projector_type := audio_projector_type m; projector_type := projector_type m;
      openbmb_minicpmo_audio := openbmb_minicpmo_audio m |}
  else if str_eqb key AUDIO_PROJECTOR_TYPE && bool_decide (t = TString) then
    set_found f {| has_audio_encoder := has_audio_encoder m;
      has_vision_encoder := has_vision_encoder m;
      audio_projector_type := value_str v; projector_type := projector_type m;
      openbmb_minicpmo_audio := openbmb_minicpmo_audio m |}
  else if str_eqb key PROJECTOR_TYPE && bool_decide (t = TString) then
    set_found f {| has_audio_encoder := has_audio_encoder m;
      has_vision_encoder := has_vision_encoder m;
      audio_projector_type := audio_projector_type m; projector_type := value_str v;
      openbmb_minicpmo_audio := openbmb_minicpmo_audio m |}
  else if str_eqb key ARCHITECTURE && bool_decide (t = TString) then
    {| found := m; architecture := value_str v; audio_pool_step := audio_pool_step f |}
  else if str_eqb key AUDIO_POOL_STEP then
    {| found := m; architecture := architecture f; audio_pool_step := true |}
  else f.

Definition expected_metadata (entries : list (str * GValue)) (tensors : list (str * list Z))
    : ProjectorMetadata :=
  let f := fold_left apply_entry entries
    {| found := no_metadata; architecture := None; audio_pool_step := false |} in
  let m := found f in
  if bool_decide (architecture f = Some WHISPER_ARCHITECTURE) && audio_pool_step f
     && (Z.of_nat (length tensors) <=? MAX_TENSOR_COUNT) then
    {| has_audio_encoder := has_audio_encoder m; has_vision_encoder := has_vision_encoder m;
       audio_projector_type := audio_projector_type m; projector_type := projector_type m;
       openbmb_minicpmo_audio :=
         existsb (fun t => str_eqb t.1 OPENBMB_PROJECTOR_TENSOR) tensors |}
  else m.

Definition wf_value (v : GValue) : Prop :=
  match v with
  | GFixed t raw => width t = Some (Z.of_nat (length raw))
  | GString s => valid_str s
  | GFixeds t raws =>
      exists w, width t = Some w /\ Forall (fun raw => Z.of_nat (length raw) = w) raws
  | GStrings l => Forall valid_str l
  end.

Definition wf_entry (kv : str * GValue) : Prop :=
  valid_str kv.1 /\ str_len kv.1 <= MAX_KEPT_STRING /\ wf_value kv.2.

Definition wf_tensor (t : str * list Z) : Prop :=
  valid_str t.1 /\ str_len t.1 <= MAX_KEPT_STRING /\ Z.of_nat (length t.2) <= u32_max.

(** ** Lemmas *)

(** [p] reads exactly [enc] and answers [v], wherever [enc] stands in a file. *)
Definition reads {A} (p : parser A) (enc : list Z) (v : A) : Prop :=
  forall r q, q + Z.of_nat (length enc) <= i64_max -> 0 <= q ->
  p {| rest := enc ++ r; pos := q |} =
  Ok (v, {| rest := r; pos := q + Z.of_nat (length enc) |}).

Lemma length_le_bytes n v : length (le_bytes n v) = n.
Proof. revert v; induction n; intros; simpl; auto. Qed.

Lemma le_value_bytes n v : 0 <= v < 256 ^ Z.of_nat n -> le_value (le_bytes n v) = v.
Proof.
  revert v; induction n as [|n IH]; intros v Hv; [simpl in *; lia|].
  rewrite Nat2Z.inj_succ, Z.pow_succ_r in Hv by lia. cbn [le_bytes le_value].
  rewrite IH.
  - pose proof (Z.div_mod v 256 ltac:(lia)). lia.
  - split; [apply Z.div_pos; lia|]. apply Z.div_lt_upper_bound; lia.
Qed.

Lemma reads_exact enc n : n = Z.of_nat (length enc) -> reads (read_exact n) enc enc.
Proof.
  intros -> r q Hq Hq0. unfold read_exact. cbn [rest pos].
  rewrite length_app, (proj2 (Z.leb_le _ _)) by lia.
  by rewrite Nat2Z.id, take_app_length, drop_app_length.
Qed.

Lemma reads_bind {A B} (p : parser A) (k : A -> parser B) e1 e2 v w :
  reads p e1 v -> reads (k v) e2 w ->
  reads (fun r => let? (x, r) := p r in k x r) (e1 ++ e2) w.
Proof.
  intros H1 H2 r q Hq Hq0. rewrite length_app in *. rewrite <- app_assoc, H1 by lia.
  cbn [result_bind]. rewrite H2 by lia. do 3 f_equal. lia.
Qed.

Lemma reads_ret {A} (v : A) : reads (fun r => Ok (v, r)) [] v.
Proof. intros r q _ _. do 3 f_equal. simpl. lia. Qed.

Lemma reads_map {A B} (p : parser A) (f : A -> B) e v :
  reads p e v -> reads (fun r => let? (x, r) := p r in Ok (f x, r)) e (f v).
Proof. intros H. rewrite <- (app_nil_r e). eapply reads_bind; [exact H|]. apply reads_ret. Qed.

Lemma reads_u32 v : 0 <= v <= u32_max -> reads read_u32 (le_bytes 4 v) v.
Proof.
  intros Hv. unfold read_u32.
  rewrite <- (le_value_bytes 4 v) at 2 by (unfold u32_max in Hv; change (256 ^ Z.of_nat 4) with (2 ^ 32); lia).
  apply reads_map, reads_exact. by rewrite length_le_bytes.
Qed.

Lemma reads_u64 v : 0 <= v <= u64_max -> reads read_u64 (le_bytes 8 v) v.
Proof.
  intros Hv. unfold read_u64.
  rewrite <- (le_value_bytes 8 v) at 2 by (unfold u64_max in Hv; change (256 ^ Z.of_nat 8) with (2 ^ 64); lia).
  apply reads_map, reads_exact. by rewrite length_le_bytes.
Qed.

Lemma reads_skip enc n : n = Z.of_nat (length enc) -> reads (skip n) enc tt.
Proof.
  intros -> r q Hq Hq0. unfold skip. cbn [rest pos].
  rewrite !(proj2 (Z.ltb_ge _ _)) by lia. rewrite length_app, Z.min_l by lia.
  by rewrite Nat2Z.id, drop_app_length.
Qed.

Lemma reads_weaken {A} (p : parser A) enc v :
  (Z.of_nat (length enc) <= i64_max -> reads p enc v) -> reads p enc v.
Proof. intros H r q Hq Hq0. apply H; lia. Qed.

Lemma str_len_u64 s : str_len s <= i64_max -> 0 <= str_len s <= u64_max.
Proof. pose proof (str_len_nonneg s). unfold i64_max, u64_max. lia. Qed.

Lemma length_encode_string s : Z.of_nat (length (encode_string s)) = 8 + str_len s.
Proof.
  unfold encode_string. rewrite length_app, length_le_bytes, Nat2Z.inj_add, length_as_bytes.
  lia.
Qed.

Lemma reads_skip_string s : reads skip_string (encode_string s) tt.
Proof.
  apply reads_weaken. rewrite length_encode_string. intros Hl. unfold encode_string, skip_string.
  pose proof (str_len_nonneg s).
  eapply reads_bind; [apply reads_u64, str_len_u64; lia|].
  apply reads_skip. by rewrite length_as_bytes.
Qed.

Lemma reads_string s :
  valid_str s -> reads (read_string MAX_KEPT_STRING) (encode_string s) (kept s).
Proof.
  intros Hv. apply reads_weaken. rewrite length_encode_string. intros Hl.
  unfold encode_string, read_string, kept. pose proof (str_len_nonneg s).
  eapply (reads_bind read_u64 (fun len r =>
    if MAX_KEPT_STRING <? len then let? (_, r) := skip len r in Ok (None, r)
    else let? (bytes, r) := read_exact len r in
         match from_utf8 bytes with Some s => Ok (Some s, r) | None => Err NotUtf8 end));
    [apply reads_u64, str_len_u64; lia|].
  destruct (MAX_KEPT_STRING <? str_len s).
  - apply (reads_map (skip (str_len s)) (fun _ : unit => @None str) _ tt), reads_skip.
    by rewrite length_as_bytes.
  - intros r q Hq Hq0. rewrite (reads_exact (as_bytes s) (str_len s));
      [|by rewrite length_as_bytes|done|done].
    cbn [result_bind]. by rewrite from_utf8_as_bytes.
Qed.

Lemma reads_repeat (p : parser unit) (l : list (list Z)) n :
  n = length l -> Forall (fun e => reads p e tt) l -> reads (repeat_parser n p) (concat l) tt.
Proof.
  intros -> Hl. induction Hl as [|e l He Hl IH]; [apply reads_ret|]. cbn.
  eapply (reads_bind p (fun _ => repeat_parser (length l) p)); done.
Qed.

Lemma value_type_of_tag t : value_type_of (tag_of t) = Ok t.
Proof. by destruct t. Qed.

Lemma tag_range t : 0 <= tag_of t <= u32_max.
Proof. destruct t; vm_compute; split; congruence. Qed.

Lemma reads_type t : reads read_type (le_bytes 4 (tag_of t)) t.
Proof.
  intros r q Hq Hq0. unfold read_type. rewrite reads_u32 by (apply tag_range || done).
  cbn [result_bind]. by rewrite value_type_of_tag.
Qed.

Lemma width_bound t w : width t = Some w -> 1 <= w <= 8.
Proof. destruct t; simpl; intros; simplify_eq; lia. Qed.

Lemma length_concat_fixed (raws : list (list Z)) w :
  Forall (fun raw => Z.of_nat (length raw) = w) raws ->
  Z.of_nat (length (concat raws)) = Z.of_nat (length raws) * w.
Proof.
  induction 1 as [|raw raws Hr _ IH]; [done|]. cbn [concat length].
  rewrite length_app, Nat2Z.inj_add, Nat2Z.inj_succ, IH. lia.
Qed.

Lemma length_concat_strings l :
  Z.of_nat (length l) <= Z.of_nat (length (concat (map encode_string l))).
Proof.
  induction l as [|s l IH]; [done|]. cbn [map concat length].
  rewrite length_app, Nat2Z.inj_add, length_encode_string, Nat2Z.inj_succ.
  pose proof (str_len_nonneg s). lia.
Qed.

(** Skipping a value moves exactly past its encoding. *)
Lemma reads_skip_value v : wf_value v -> reads (skip_value (gtype v)) (encode_value v) tt.
Proof.
  destruct v as [t raw|s|t raws|l]; cbn [gtype encode_value wf_value]; intros Hw;
    apply reads_weaken; intros Hlen.
  - unfold skip_value. rewrite Hw. by apply reads_skip.
  - apply reads_skip_string.
  - destruct Hw as (w & Hw & Hraws). pose proof (width_bound _ _ Hw).
    rewrite !length_app, !length_le_bytes, !Nat2Z.inj_add in Hlen.
    pose proof (length_concat_fixed _ _ Hraws).
    assert (0 <= Z.of_nat (length raws) <= u64_max) by (unfold i64_max, u64_max in *; nia).
    unfold skip_value. cbn [width].
    intros r q Hq Hq0. rewrite !length_app, !length_le_bytes in Hq.
    rewrite <- !app_assoc, reads_u32 by (rewrite ?length_le_bytes; solve [apply tag_range|lia]).
    cbn [result_bind bool_decide]. rewrite value_type_of_tag. cbn [result_bind].
    rewrite reads_u64 by (rewrite ?length_le_bytes; lia). cbn [result_bind].
    rewrite (bool_decide_false (t = TArray)) by (by destruct t). rewrite Hw.
    rewrite reads_skip; rewrite ?length_le_bytes; [| |lia|lia].
    + do 3 f_equal. rewrite !length_app, !length_le_bytes. lia.
    + unfold sat_mul, i64_max, u64_max in *. lia.
  - rewrite !length_app, !length_le_bytes, !Nat2Z.inj_add in Hlen.
    pose proof (length_concat_strings l).
    assert (0 <= Z.of_nat (length l) <= u64_max) by (unfold i64_max, u64_max in *; lia).
    unfold skip_value. cbn [width].
    intros r q Hq Hq0. rewrite !length_app, !length_le_bytes in Hq.
    rewrite <- !app_assoc, reads_u32 by (rewrite ?length_le_bytes; solve [apply tag_range|lia]).
    cbn [result_bind bool_decide]. rewrite value_type_of_tag. cbn [result_bind].
    rewrite reads_u64 by (rewrite ?length_le_bytes; lia). cbn [result_bind].
    rewrite (bool_decide_false (TString = TArray)) by done. cbn [width]. rewrite Nat2Z.id.
    rewrite reads_repeat; rewrite ?length_le_bytes; [|by rewrite length_map| |lia|lia].
    + do 3 f_equal. rewrite !length_app, !length_le_bytes. lia.
    + apply Forall_forall. intros e (s & <- & Hs)%list_elem_of_In%in_map_iff.
      apply reads_skip_string.
Qed.

Lemma reads_key k : valid_str k -> str_len k <= MAX_KEPT_STRING -> reads read_key (encode_string k) k.
Proof.
  intros Hv Hl r q Hq Hq0. unfold read_key. rewrite reads_string by done.
  cbn [result_bind]. unfold kept. by rewrite (proj2 (Z.ltb_ge _ _)).
Qed.

Lemma reads_bool raw :
  length raw = 1%nat -> reads read_bool raw (negb (le_value raw =? 0)).
Proof.
  intros Hl. unfold read_bool.
  apply (reads_map (read_exact 1) (fun b => negb (le_value b =? 0))), reads_exact.
  by rewrite Hl.
Qed.

Lemma bool_value v : wf_value v -> gtype v = TBool ->
  exists raw, encode_value v = raw /\ value_bool v = negb (le_value raw =? 0) /\
  length raw = 1%nat.
Proof.
  destruct v; cbn; intros Hw Ht; simplify_eq. eexists. split_and!; try done.
  cbn in Hw. simplify_eq. lia.
Qed.

Lemma string_value v : wf_value v -> gtype v = TString ->
  exists s, encode_value v = encode_string s /\ value_str v = kept s /\ valid_str s.
Proof.
  destruct v as [t raw|s|t raws|l]; cbn [gtype wf_value encode_value value_str]; intros Hw Ht;
    simplify_eq; eauto.
Qed.

(** One entry of the metadata: the reader does what [apply_entry] says and stops at its end. *)
Lemma reads_entry f kv : wf_entry kv -> reads (read_entry f) (encode_entry kv) (apply_entry f kv).
Proof.
  destruct kv as [k v]. intros (Hk & Hl & Hv). cbn [fst snd] in *.
  unfold read_entry, encode_entry. cbn [fst snd].
  eapply (reads_bind read_key (fun key r => _)); [by apply reads_key|].
  eapply (reads_bind read_type (fun t r => _)); [apply reads_type|].
  assert (forall g : bool -> Found, gtype v = TBool ->
    reads (fun r => let? (b, r) := read_bool r in Ok (g b, r)) (encode_value v)
      (g (value_bool v))) as Hb.
  { intros g Ht. destruct (bool_value v Hv Ht) as (raw & -> & -> & Hr).
    by apply reads_map, reads_bool. }
  assert (forall g : option str -> Found, gtype v = TString ->
    reads (fun r => let? (s, r) := read_string MAX_KEPT_STRING r in Ok (g s, r))
      (encode_value v) (g (value_str v))) as Hs.
  { intros g Ht. destruct (string_value v Hv Ht) as (s & -> & -> & Hr).
    by apply reads_map, reads_string. }
  assert (forall g : Found,
    reads (fun r => let? (_, r) := skip_value (gtype v) r in Ok (g, r)) (encode_value v) g) as Hsk.
  { intros g. by apply (reads_map _ (fun _ => g) _ tt), reads_skip_value. }
  cbn [apply_entry].
  repeat (case_match; bool_to_prop; [first [apply Hb; done | apply Hs; done | apply Hsk]|]).
  apply Hsk.
Qed.

Lemma reads_entries f entries :
  Forall wf_entry entries ->
  reads (read_entries (length entries) f) (concat (map encode_entry entries))
    (fold_left apply_entry entries f).
Proof.
  intros Hw. revert f. induction Hw as [|kv entries Hkv Hw IH]; intros f; [apply reads_ret|].
  cbn [length read_entries map concat fold_left].
  eapply (reads_bind (read_entry f) (fun f => read_entries (length entries) f)); [|apply IH].
  by apply reads_entry.
Qed.

Lemma length_dims (dims : list Z) :
  Z.of_nat (length (concat (map (le_bytes 8) dims))) = 8 * Z.of_nat (length dims).
Proof.
  induction dims as [|d dims IH]; [done|]. cbn [map concat length].
  rewrite length_app, length_le_bytes, Nat2Z.inj_add, IH. lia.
Qed.

(** The tensor infos: the search answers whether a tensor has the name. *)
Lemma has_tensor_correct wanted tensors r q :
  str_len wanted <= MAX_KEPT_STRING -> Forall wf_tensor tensors -> 0 <= q ->
  q + Z.of_nat (length (concat (map encode_tensor tensors))) <= i64_max ->
  exists r', has_tensor (length tensors) wanted
      {| rest := concat (map encode_tensor tensors) ++ r; pos := q |} =
    Ok (existsb (fun t => str_eqb t.1 wanted) tensors, r').
Proof.
  intros Hwl Hw. revert q. induction Hw as [|[name dims] ts (Hn & Hnl & Hd) Hw IH]; intros q Hq Hle;
    [by eexists|].
  cbn [length map concat has_tensor existsb fst snd] in *. unfold encode_tensor in *.
  cbn [fst snd] in *. rewrite !length_app, !Nat2Z.inj_add, length_encode_string,
    !length_le_bytes, length_dims in Hle.
  pose proof (str_len_nonneg name).
  rewrite <- !app_assoc, reads_string by (rewrite ?length_encode_string; done || lia).
  cbn [result_bind]. unfold kept. rewrite (proj2 (Z.ltb_ge _ _)) by done.
  destruct (str_eqb name wanted) eqn:E.
  { apply str_eqb_eq in E as ->. rewrite bool_decide_true by done. by eexists. }
  rewrite bool_decide_false; cycle 1.
  { intros [= ->]. by rewrite (proj2 (str_eqb_eq _ _) eq_refl) in E. }
  rewrite reads_u32 by (rewrite ?length_encode_string, ?length_le_bytes; lia).
  cbn [result_bind orb].
  rewrite (app_assoc (concat (map (le_bytes 8) dims))), (app_assoc (_ ++ le_bytes 4 0)).
  assert (Z.of_nat (length ((concat (map (le_bytes 8) dims) ++ le_bytes 4 0) ++ le_bytes 8 0)) =
    8 * Z.of_nat (length dims) + 12) as Hlen.
  { rewrite !length_app, !length_le_bytes, !Nat2Z.inj_add, length_dims. lia. }
  rewrite reads_skip.
  - cbn [result_bind]. apply IH; rewrite ?Hlen, ?length_encode_string, ?length_le_bytes; lia.
  - rewrite Hlen. unfold sat_add, sat_mul, u64_max, u32_max in *. lia.
  - rewrite Hlen, length_encode_string, !length_le_bytes. lia.
  - rewrite length_encode_string, length_le_bytes. lia.
Qed.

Lemma reads_counts tensors kvs :
  0 <= tensors <= u64_max -> 0 <= kvs <= MAX_KV_COUNT ->
  reads read_counts (lit "GGUF" ++ le_bytes 4 3 ++ le_bytes 8 tensors ++ le_bytes 8 kvs)
    (tensors, kvs).
Proof.
  intros Ht Hk r q Hq Hq0. unfold read_counts.
  rewrite !length_app, !length_le_bytes in *. change (length (lit "GGUF")) with 4%nat in *.
  rewrite <- !app_assoc, (reads_exact (lit "GGUF")) by (done || (simpl; lia)).
  cbn [result_bind]. rewrite (proj2 (str_eqb_eq _ _) eq_refl). cbn [negb].
  rewrite reads_u32; [|by vm_compute|rewrite length_le_bytes; simpl length; lia|simpl length; lia].
  cbn [result_bind Z.leb Z.compare andb negb Pos.compare Pos.compare_cont].
  rewrite reads_u64 by (rewrite ?length_le_bytes; simpl length; lia). cbn [result_bind].
  assert (MAX_KV_COUNT <= u64_max) by (vm_compute; congruence).
  rewrite reads_u64 by (rewrite ?length_le_bytes; simpl length; lia). cbn [result_bind].
  rewrite (proj2 (Z.ltb_ge _ _)) by lia. do 3 f_equal. simpl length. lia.
Qed.

Lemma length_gguf_bound entries tensors :
  Z.of_nat (length entries) <= Z.of_nat (length (gguf entries tensors)) /\
  Z.of_nat (length tensors) <= Z.of_nat (length (gguf entries tensors)).
Proof.
  assert (forall A (f : A -> list Z) l, (forall x, (1 <= length (f x))%nat) ->
    (length l <= length (concat (map f l)))%nat) as Hc.
  { intros A f l Hf. induction l as [|x l IH]; [done|]. cbn. rewrite length_app.
    specialize (Hf x). lia. }
  unfold gguf. rewrite !length_app.
  pose proof (Hc _ encode_entry entries) as H1. pose proof (Hc _ encode_tensor tensors) as H2.
  assert (forall s, (1 <= length (encode_string s))%nat) as Hs.
  { intros s. pose proof (length_encode_string s). pose proof (str_len_nonneg s). lia. }
  split.
  - specialize (H1 ltac:(intros [k v]; unfold encode_entry; rewrite length_app; specialize (Hs k); cbn; lia)). lia.
  - specialize (H2 ltac:(intros [k v]; unfold encode_tensor; rewrite length_app; specialize (Hs k); cbn; lia)). lia.
Qed.

(** ** Theorems *)


(** An audio projector beside values to skip: a vocabulary, an array of floats, a string
    past the limit would be skipped likewise. *)
Definition example_entries : list (str * GValue) :=
  [(lit "general.architecture", GString (lit "whisper"));
   (lit "tokenizer.ggml.tokens", GStrings [lit "a"; lit "bc"; []]);
   (lit "scales", GFixeds Float32 [[0; 0; 128; 63]; [1; 2; 3; 4]]);
   (lit "audio_pool_step", GFixed Uint32 [5; 0; 0; 0]);
   (lit "clip.has_vision_encoder", GFixed TBool [1]);
   (lit "clip.projector_type", GFixed Uint8 [7])].

Definition example_tensors : list (str * list Z) :=
  [(lit "other", [1024; 2]); (lit "audio_projector.linear2.weight", [1024])].

Lemma lit_valid s : forallb valid_char (lit s) = true -> valid_str (lit s).
Proof. intros H. apply Forall_forall. intros c Hc. rewrite forallb_forall in H. by apply H, list_elem_of_In. Qed.

Lemma example_wf : Forall wf_entry example_entries /\ Forall wf_tensor example_tensors.
Proof.
  split; repeat first [apply Forall_nil_2 | apply Forall_cons; split];
    (split_and!; [apply lit_valid; vm_compute; reflexivity|vm_compute; congruence|]);
    cbn [snd wf_value];
    lazymatch goal with
    | |- valid_str _ => apply lit_valid; vm_compute; reflexivity
    | |- width _ = _ => reflexivity
    | |- Z.of_nat _ <= _ => vm_compute; congruence
    | |- Forall valid_str _ =>
        repeat (apply Forall_cons; split; [apply (lit_valid "a") || apply (lit_valid "bc") ||
          apply (lit_valid ""); reflexivity|]); apply Forall_nil_2
    | |- exists w, _ => exists 4; by repeat constructor
    end.
Qed.


(** ** The vocabulary *)

(** The piece of [id], when the strings read start at [index]. *)
Definition piece_at (strs : list str) (index : Z) (slot : option str) (id : Z) : option str :=
  if index <=? id then
    match strs !! Z.to_nat (id - index) with
    | Some s => kept s
    | None => slot
    end
  else slot.

Lemma zip_with_twice {A B} (f g : A -> B -> A) (l : list A) (k : list B) :
  zip_with g (zip_with f l k) k = zip_with (fun a b => g (f a b) b) l k.
Proof. revert k; induction l as [|a l IH]; intros [|b k]; simpl; auto. by rewrite IH. Qed.

Lemma zip_with_ext_in {A B} (f g : A -> B -> A) (l : list A) (k : list B) :
  (forall a b, b ∈ k -> f a b = g a b) -> zip_with f l k = zip_with g l k.
Proof.
  revert k; induction l as [|a l IH]; intros [|b k] Hfg; simpl; auto.
  rewrite Hfg, IH; [done| |left]. intros. apply Hfg. by right.
Qed.

Lemma piece_at_cons s strs index slot id :
  id <> index -> piece_at (s :: strs) index slot id = piece_at strs (index + 1) slot id.
Proof.
  intros Hne. unfold piece_at.
  destruct (Z.leb_spec index id), (Z.leb_spec (index + 1) id); try lia; try done.
  replace (Z.to_nat (id - index)) with (S (Z.to_nat (id - (index + 1)))) by lia. done.
Qed.

Lemma reads_pieces strs index ids pieces :
  length pieces = length ids -> Forall valid_str strs ->
  reads (read_pieces (length strs) index ids pieces) (concat (map encode_string strs))
    (zip_with (piece_at strs index) pieces ids).
Proof.
  intros Hlen Hv. revert index pieces Hlen.
  induction Hv as [|s strs Hs Hv IH]; intros index pieces Hlen.
  { assert (zip_with (piece_at [] index) pieces ids = pieces) as ->; [|apply reads_ret].
    revert ids Hlen. induction pieces as [|p ps IHp]; intros [|id ids] Hl; simplify_eq/=; [done|].
    rewrite IHp by done. unfold piece_at. by case_match. }
  cbn [length read_pieces map concat].
  destruct (existsb _ ids) eqn:E.
  - eapply (reads_bind (read_string MAX_KEPT_STRING) (fun piece => read_pieces (length strs)
      (index + 1) ids (zip_with (fun slot id => if id =? index then piece else slot) pieces ids)));
      [by apply reads_string|].
    assert (zip_with (piece_at (s :: strs) index) pieces ids =
      zip_with (piece_at strs (index + 1))
        (zip_with (fun slot id => if id =? index then kept s else slot) pieces ids) ids) as ->.
    { rewrite zip_with_twice. apply zip_with_ext_in. intros slot id _.
      destruct (Z.eqb_spec id index) as [->|]; [|by apply piece_at_cons].
      unfold piece_at. rewrite Z.leb_refl, Z.sub_diag. cbn.
      by rewrite (proj2 (Z.leb_gt _ _)) by lia. }
    apply IH. by rewrite length_zip_with, Hlen, Nat.min_id.
  - eapply (reads_bind (skip_value TString)
      (fun _ => read_pieces (length strs) (index + 1) ids pieces)).
    { apply (reads_skip_value (GString s)). done. }
    assert (zip_with (piece_at (s :: strs) index) pieces ids =
      zip_with (piece_at strs (index + 1)) pieces ids) as ->; [|by apply IH].
    apply zip_with_ext_in. intros slot id Hid. apply piece_at_cons. intros ->.
    assert (existsb (fun id => id =? index) ids = true); [|congruence].
    apply existsb_exists. exists index. rewrite Z.eqb_refl. by rewrite <- list_elem_of_In.
Qed.

(** What the vocabulary gives the ids, from the first entry that can be one. *)
Fixpoint expected_pieces (entries : list (str * GValue)) (ids : list Z)
    : result (option (list (option str))) GgufError :=
  match entries with
  | [] => Ok None
  | (k, v) :: entries' =>
      if str_eqb k TOKENS then
        match v with
        | GStrings l => Ok (Some (map (fun id => l !! Z.to_nat id ≫= kept) ids))
        | GFixeds t _ => Err (TokensNotStrings t)
        | _ => expected_pieces entries' ids
        end
      else expected_pieces entries' ids
  end.

Lemma max_id_ge ids id : id ∈ ids -> id <= max_id ids.
Proof. induction 1; simpl; lia. Qed.

Lemma max_id_range ids : Forall (fun id => 0 <= id <= u32_max) ids -> 0 <= max_id ids <= u32_max.
Proof. assert (0 <= u32_max) by done. induction 1; simpl; lia. Qed.

(** Reading stops at the largest id asked for, and finds every piece all the same. *)
Lemma pieces_complete l ids :
  Forall (fun id => 0 <= id <= u32_max) ids ->
  let n := Z.to_nat (Z.min (Z.of_nat (length l)) (max_id ids + 1)) in
  zip_with (piece_at (take n l) 0) (replicate (length ids) None) ids =
  map (fun id => l !! Z.to_nat id ≫= kept) ids.
Proof.
  intros Hids n. pose proof (max_id_range _ Hids).
  assert (forall id, id ∈ ids -> piece_at (take n l) 0 None id = l !! Z.to_nat id ≫= kept) as Hp.
  { intros id Hid. rewrite Forall_forall in Hids. specialize (Hids id Hid).
    pose proof (max_id_ge _ _ Hid). unfold piece_at.
    rewrite (proj2 (Z.leb_le _ _)), Z.sub_0_r by lia.
    destruct (decide (Z.to_nat id < n)%nat) as [Hlt|Hge].
    - rewrite lookup_take_lt by done. by destruct (l !! _).
    - rewrite lookup_take_ge, (lookup_ge_None_2 l) by lia. done. }
  clear Hids H. revert Hp. generalize n. intros m Hp.
  induction ids as [|id ids IH]; [done|]. cbn. f_equal; [apply Hp; left|].
  apply IH. intros. apply Hp. by right.
Qed.

(** Only the pieces up to the largest id are read. *)
Lemma reads_asked_pieces l ids tl q :
  Forall valid_str l -> Forall (fun id => 0 <= id <= u32_max) ids -> 0 <= q ->
  q + Z.of_nat (length (concat (map encode_string l))) <= i64_max ->
  exists r', read_pieces
      (Z.to_nat (Z.min (Z.of_nat (length l)) (sat_add u64_max (max_id ids) 1))) 0 ids
      (replicate (length ids) None) {| rest := concat (map encode_string l) ++ tl; pos := q |} =
    Ok (map (fun id => l !! Z.to_nat id ≫= kept) ids, r').
Proof.
  intros Hl Hids Hq Hle. pose proof (max_id_range _ Hids) as Hmax.
  assert (sat_add u64_max (max_id ids) 1 = max_id ids + 1) as ->
    by (unfold sat_add, u32_max, u64_max in *; lia).
  set (n := Z.to_nat (Z.min (Z.of_nat (length l)) (max_id ids + 1))).
  assert (length (take n l) = n) as Hn by (rewrite length_take; lia).
  assert (concat (map encode_string l) =
    concat (map encode_string (take n l)) ++ concat (map encode_string (drop n l))) as Hsplit.
  { by rewrite <- concat_app, <- map_app, take_drop. }
  rewrite Hsplit, length_app in *. rewrite <- app_assoc.
  replace (read_pieces n 0 ids) with (read_pieces (length (take n l)) 0 ids) by (by rewrite Hn).
  rewrite reads_pieces; [| |by apply Forall_take|lia|lia].
  - pose proof (pieces_complete l ids Hids) as Hpc. cbv zeta in Hpc. fold n in Hpc.
    rewrite Hpc. by eexists.
  - by rewrite length_replicate.
Qed.

Lemma read_vocabulary_correct entries ids tl q :
  Forall wf_entry entries -> Forall (fun id => 0 <= id <= u32_max) ids -> 0 <= q ->
  q + Z.of_nat (length (concat (map encode_entry entries))) <= i64_max ->
  match expected_pieces entries ids with
  | Ok x => exists r', read_vocabulary (length entries) ids
      {| rest := concat (map encode_entry entries) ++ tl; pos := q |} = Ok (x, r')
  | Err e => read_vocabulary (length entries) ids
      {| rest := concat (map encode_entry entries) ++ tl; pos := q |} = Err e
  end.
Proof.
  intros Hw Hids. revert q. induction Hw as [|[k v] entries (Hk & Hkl & Hv) Hw IH];
    intros q Hq Hle; [by eexists|].
  cbn [length map concat read_vocabulary expected_pieces] in *. unfold encode_entry in *.
  cbn [fst snd] in *. rewrite !length_app, !Nat2Z.inj_add, length_encode_string,
    !length_le_bytes in Hle.
  pose proof (str_len_nonneg k).
  rewrite <- !app_assoc, reads_key by (rewrite ?length_encode_string; done || lia).
  cbn [result_bind]. rewrite reads_type by (rewrite ?length_encode_string, ?length_le_bytes; lia).
  cbn [result_bind]. rewrite length_encode_string, length_le_bytes.
  assert (Z.of_nat (length (encode_value v)) <= i64_max) by lia.
  destruct (negb (str_eqb k TOKENS) || negb (bool_decide (gtype v = TArray))) eqn:E.
  { rewrite reads_skip_value by (done || lia). cbn [result_bind].
    specialize (IH (q + (8 + str_len k) + Z.of_nat 4 +
      Z.of_nat (length (encode_value v))) ltac:(lia) ltac:(lia)).
    rewrite orb_true_iff in E. destruct (str_eqb k TOKENS); [|exact IH].
    destruct E as [|E]; [done|]. bool_to_prop. destruct v; done || exact IH. }
  apply orb_false_iff in E as [E1 E2]. bool_to_prop. rewrite E1.
  destruct v as [t raw|s|t raws|l]; try done; cbn [encode_value gtype] in *.
  { cbn in E2, Hv. by subst t. }
  - rewrite !length_app, !length_le_bytes in Hle.
    rewrite <- !app_assoc, reads_type by (rewrite ?length_le_bytes; lia).
    cbn [result_bind]. destruct Hv as (w & Hw' & _).
    by rewrite (bool_decide_false (t = TString)) by (by destruct t).
  - rewrite !length_app, !length_le_bytes in Hle.
    rewrite <- !app_assoc, reads_type by (rewrite ?length_le_bytes; lia).
    cbn [result_bind]. rewrite bool_decide_true by done. cbn [negb].
    rewrite !length_le_bytes. pose proof (length_concat_strings l).
    rewrite reads_u64 by (rewrite ?length_le_bytes; unfold i64_max, u64_max in *; lia).
    cbn [result_bind]. rewrite length_le_bytes.
    match goal with
    | |- context [read_pieces _ _ _ _ {| rest := _ ++ ?t; pos := ?p |}] =>
        destruct (reads_asked_pieces l ids t p) as (r' & ->); [done|done|lia|lia|]
    end.
    by eexists.
Qed.

(** Reading token pieces. For every well-formed header and every list of ids, the
    answer is what the vocabulary (the first array under its key) says: each id's piece,
    none past the vocabulary's end or for a piece past the limit, in the order asked for;
    no vocabulary is no answer, and one that does not hold strings is an error. *)
Theorem read_token_pieces_correct (entries : list (str * GValue)) (ids : list Z) :
  Forall wf_entry entries -> Forall (fun id => 0 <= id <= u32_max) ids ->
  Z.of_nat (length entries) <= MAX_KV_COUNT ->
  Z.of_nat (length (gguf entries [])) <= i64_max ->
  match expected_pieces entries ids with
  | Ok x => exists r, read_token_pieces ids {| rest := gguf entries []; pos := 0 |} = Ok (x, r)
  | Err e => read_token_pieces ids {| rest := gguf entries []; pos := 0 |} = Err e
  end.
Proof.
  intros He Hids Hn Hlen. unfold read_token_pieces, read_header.
  assert (gguf entries [] =
    (lit "GGUF" ++ le_bytes 4 3 ++ le_bytes 8 0 ++ le_bytes 8 (Z.of_nat (length entries))) ++
    concat (map encode_entry entries) ++ []) as Hfile.
  { unfold gguf. by rewrite <- !app_assoc. }
  rewrite Hfile in *. clear Hfile. rewrite !length_app, !length_le_bytes in Hlen.
  rewrite (reads_counts 0 (Z.of_nat (length entries)));
    [|split; [done|vm_compute; congruence]|lia|rewrite !length_app, !length_le_bytes; lia|lia].
  cbn [result_bind]. rewrite Nat2Z.id.
  apply read_vocabulary_correct; [done|done|lia|].
  rewrite !length_app, !length_le_bytes. lia.
Qed.

Lemma read_token_pieces_correct_witness :
  exists r, read_token_pieces [1; 0; 9] {| rest := gguf example_entries []; pos := 0 |} =
    Ok (Some [Some (lit "bc"); Some (lit "a"); None], r).
Proof.
  pose proof (read_token_pieces_correct example_entries [1; 0; 9]) as H.
  assert (expected_pieces example_entries [1; 0; 9] =
    Ok (Some [Some (lit "bc"); Some (lit "a"); None])) as E by (vm_compute; reflexivity).
  rewrite E in H. apply H.
  - apply example_wf.
  - repeat constructor; vm_compute; congruence.
  - vm_compute. congruence.
  - vm_compute. congruence.
Defined.
