(* ===== verification/InFlight.v ===== *)
(** * The in-flight marker ([crates/pipette-cli/src/client/worker/in_flight.rs])

    Three models of one file.
    - [decide]: what a worker concludes from the marker a previous run left.
    - [MarkerStore]: [write], [read] and [remove] as the system calls they make, on a disk
      that tells what is visible from what a crash may leave behind. Every call can fail.
    - [InFlightRun]: the claim loop's thread, the heartbeat thread and the teardown hook as
      a step relation over the shared [closing] lock, the [stopped] lock and the marker. *)

From Stdlib Require Import ZArith Lia String.
From stdpp Require Import prelude list gmap.
From S2P Require Import Prelude Str.

Local Open Scope Z_scope.

(** ** Data *)

Definition HEARTBEAT : Z := from_secs 30.
Definition STOP_POLL : Z := from_millis 250.
Definition REBOOT_WINDOW : Z := from_secs 90.

(** An [OffsetDateTime] is its UTC instant in nanoseconds. *)
Record InFlight := {
  job_id : str;
  boot_id : option str;
  started_at : str;
  alive_at : option Z;
}.

#[export] Instance InFlight_eq_dec : EqDecision InFlight.
Proof. solve_decision. Defined.

Record Boot := {
  id : option str;
  boot_started_at : option Z;
}.

Inductive ClaimDecision :=
| Run
| StaleJob (old_job_id : str)
| SameBoot
| EarlierBoot
| Rebooted (old_boot_id new_boot_id : str).

(** [InFlight::new], over the clock's reading and its RFC 3339 text, if it has one. *)
Definition InFlight_new (job : str) (boot : option str) (now : Z) (now_text : option str)
    : InFlight :=
  {| job_id := job; boot_id := boot;
     started_at := default (lit "unknown-time") now_text; alive_at := Some now |}.

(** ** The decision *)

Section Decide.
(** The last instant an [OffsetDateTime] holds. *)
Context (datetime_max : Z).

Definition checked_add (t d : Z) : option Z :=
  if t + d <=? datetime_max then Some (t + d) else None.

Definition alive_at_reboot (m : InFlight) (b : Boot) : bool :=
  match option_zip (a ← alive_at m; checked_add a REBOOT_WINDOW) (boot_started_at b) with
  | Some (latest, started) => started <=? latest
  | None => false
  end.

Definition decide_claim (marker : option InFlight) (job : str) (boot : Boot) : ClaimDecision :=
  match marker with
  | None => Run
  | Some m =>
      if negb (str_eqb (job_id m) job) then StaleJob (job_id m)
      else match boot_id m, id boot with
           | Some old, Some current =>
               if negb (str_eqb old current) then
                 if alive_at_reboot m boot then Rebooted old current else EarlierBoot
               else SameBoot
           | _, _ => SameBoot
           end
  end.
End Decide.

(** ** The disk

    [entry] is what [in-flight.json] names now; [durable] lists what it may name after a
    crash: every value it had since the directory was last synced, newest first. A file
    whose bytes were not synced holds anything after a crash. *)

Record File := { bytes : list Z; synced : bool }.

Record Disk := {
  next_inode : nat;
  inodes : gmap nat File;
  temps : gmap str nat;
  entry : option nat;
  durable : list (option nat);
}.

Definition set_file (i : nat) (f : File) (d : Disk) : Disk :=
  {| next_inode := next_inode d; inodes := <[i := f]> (inodes d); temps := temps d;
     entry := entry d; durable := durable d |}.

Definition set_temps (t : gmap str nat) (d : Disk) : Disk :=
  {| next_inode := next_inode d; inodes := inodes d; temps := t;
     entry := entry d; durable := durable d |}.

Definition set_entry (e : option nat) (d : Disk) : Disk :=
  {| next_inode := next_inode d; inodes := inodes d; temps := temps d;
     entry := e; durable := e :: durable d |}.

(** How the system calls of one [write] or [remove] turn out. *)
Inductive sync_outcome := Synced | SyncUnsupported | SyncFailed.

Record Faults := {
  mkdir_fails : bool;
  create_fails : bool;
  json_stops_at : option nat;
  newline_fails : bool;
  file_sync : sync_outcome;
  rename_fails : bool;
  dir_sync : sync_outcome;
  unlink_fails : bool;
}.

Definition no_faults : Faults :=
  {| mkdir_fails := false; create_fails := false; json_stops_at := None;
     newline_fails := false; file_sync := Synced; rename_fails := false;
     dir_sync := Synced; unlink_fails := false |}.

(** The world of a call: the disk now, and every disk it went through, newest first. *)
Record World := { disk : Disk; past : list Disk }.

Definition IO (A : Type) : Type := World -> result A str * World.

Definition io_bind {A B} (m : IO A) (k : A -> IO B) : IO B :=
  fun w => match m w with
           | (Ok a, w') => k a w'
           | (Err e, w') => (Err e, w')
           end.

Local Notation "x <-? m ; k" := (io_bind m (fun x => k))
  (at level 100, m at level 99, k at level 200, right associativity).

(** One system call: the answer, and the disk it leaves. *)
Definition sys {A} (f : Disk -> result A str * Disk) : IO A :=
  fun w => let '(r, d) := f (disk w) in (r, {| disk := d; past := disk w :: past w |}).

Definition io_error {A} : result A str := Err (lit "io error").

Definition create_new (name : str) (fails : bool) : IO nat :=
  sys (fun d =>
    if fails || bool_decide (is_Some (temps d !! name)) then (io_error, d)
    else
      let i := next_inode d in
      (Ok i, {| next_inode := S i; inodes := <[i := {| bytes := []; synced := false |}]> (inodes d);
                temps := <[name := i]> (temps d); entry := entry d; durable := durable d |})).

(** Append to a file; a failing call may have written part of it. *)
Definition append (i : nat) (bs : list Z) (stops_at : option nat) : IO unit :=
  sys (fun d =>
    let old := default [] (bytes <$> inodes d !! i) in
    match stops_at with
    | Some n => (io_error, set_file i {| bytes := old ++ take n bs; synced := false |} d)
    | None => (Ok tt, set_file i {| bytes := old ++ bs; synced := false |} d)
    end).

(** [sync_file]: a file system that cannot sync counts as success. *)
Definition sync_file (i : nat) (o : sync_outcome) : IO unit :=
  sys (fun d =>
    match o with
    | Synced =>
        (Ok tt, match inodes d !! i with
                | Some f => set_file i {| bytes := bytes f; synced := true |} d
                | None => d
                end)
    | SyncUnsupported => (Ok tt, d)
    | SyncFailed => (io_error, d)
    end).

Definition rename (name : str) (i : nat) (fails : bool) : IO unit :=
  sys (fun d =>
    if fails then (io_error, d)
    else (Ok tt, set_entry (Some i) (set_temps (delete name (temps d)) d))).

Definition sync_dir (o : sync_outcome) : IO unit :=
  sys (fun d =>
    match o with
    | Synced => (Ok tt, {| next_inode := next_inode d; inodes := inodes d; temps := temps d;
                           entry := entry d; durable := [entry d] |})
    | SyncUnsupported => (Ok tt, d)
    | SyncFailed => (io_error, d)
    end).

Definition remove_temp (name : str) (fails : bool) : IO unit :=
  sys (fun d =>
    if fails then (io_error, d) else (Ok tt, set_temps (delete name (temps d)) d)).

Definition mkdir (fails : bool) : IO unit :=
  sys (fun d => (if fails then io_error else Ok tt, d)).

Definition unlink (fails : bool) : IO bool :=
  sys (fun d =>
    match entry d with
    | None => (Ok false, d)
    | Some _ => if fails then (io_error, d) else (Ok true, set_entry None d)
    end).

(** ** [MarkerStore] *)

Module MarkerStore.
Section Store.
(** [serde_json]'s writer and reader. *)
Context (to_writer : InFlight -> list Z) (from_slice : list Z -> result InFlight str).

Definition read (d : Disk) : result (option InFlight) str :=
  match entry d with
  | None => Ok None
  | Some i =>
      match inodes d !! i with
      | None => io_error
      | Some f =>
          match from_slice (bytes f) with
          | Ok m => Ok (Some m)
          | Err e => Err e
          end
      end
  end.

Definition write_body (temporary : str) (m : InFlight) (f : Faults) : IO unit :=
  file <-? create_new temporary (create_fails f);
  _ <-? append file (to_writer m) (json_stops_at f);
  _ <-? append file [10] (if newline_fails f then Some 0%nat else None);
  _ <-? sync_file file (file_sync f);
  _ <-? rename temporary file (rename_fails f);
  sync_dir (dir_sync f).

Definition write (temporary : str) (m : InFlight) (f : Faults) : IO unit :=
  _ <-? mkdir (mkdir_fails f);
  fun w =>
    let '(r, w') := write_body temporary m f w in
    match r with
    | Ok _ => (r, w')
    | Err _ => (r, (remove_temp temporary (unlink_fails f) w').2)
    end.

Definition remove (f : Faults) : IO unit :=
  removed <-? unlink (unlink_fails f);
  if (removed : bool) then sync_dir (dir_sync f) else fun w => (Ok tt, w).

(** What [read] may answer after a crash of a machine whose disk was [d]. *)
Definition after_crash (d : Disk) (r : result (option InFlight) str) : Prop :=
  exists e, e ∈ durable d /\
  match e with
  | None => r = Ok None
  | Some i =>
      exists bs, (forall f, inodes d !! i = Some f -> synced f = true -> bs = bytes f) /\
      r = match from_slice bs with Ok m => Ok (Some m) | Err e => Err e end
  end.

(** A disk at rest: the marker's name and its bytes are durable. *)
Definition settled (d : Disk) : Prop :=
  durable d = [entry d] /\
  (forall i f, inodes d !! i = Some f -> (i < next_inode d)%nat) /\
  (forall i, entry d = Some i -> exists f, inodes d !! i = Some f /\ synced f = true).
(** The file [write] makes, whole and durable. *)
Definition whole (m : InFlight) : File := {| bytes := to_writer m ++ [10]; synced := true |}.

(** A disk some call of [write m] from [d0] went through: the files [d0] had are as they
    were, and the marker may only be what it was, or the whole new file. *)
Definition between (d0 : Disk) (m : InFlight) (d : Disk) : Prop :=
  (forall i, (i < next_inode d0)%nat -> inodes d !! i = inodes d0 !! i) /\
  entry d ∈ durable d /\
  forall e, e ∈ durable d ->
    e = entry d0 \/ e = Some (next_inode d0) /\ inodes d !! next_inode d0 = Some (whole m).

Context (json_roundtrip : forall m, from_slice (to_writer m ++ [10]) = Ok m).

Lemma settled_crash d r : settled d -> after_crash d r -> r = read d.
Proof.
  intros (Hd & _ & Hf) (e & He & Hr). rewrite Hd, list_elem_of_singleton in He. subst e.
  unfold read. destruct (entry d) as [i|] eqn:E; [|done].
  destruct Hr as (bs & Hbs & ->). destruct (Hf i eq_refl) as (f & Hi & Hs).
  rewrite Hi, (Hbs f) by done. done.
Qed.

Lemma between_old d0 m d i :
  settled d0 -> between d0 m d -> entry d0 = Some i -> inodes d !! i = inodes d0 !! i.
Proof.
  intros (_ & Hn & Hf) (Hi & _) He. destruct (Hf i He) as (f & Hif & _).
  apply Hi. eauto.
Qed.

Lemma between_crash d0 m d r :
  settled d0 -> between d0 m d -> after_crash d r -> r = read d0 \/ r = Ok (Some m).
Proof.
  intros Hs Hb (e & He & Hr). destruct (proj2 (proj2 Hb) e He) as [->|[-> Hw]].
  - left. unfold read. destruct (entry d0) as [i|] eqn:E; [|done].
    destruct Hr as (bs & Hbs & ->). destruct Hs as (H1 & H2 & Hf).
    destruct (Hf i E) as (f & Hif & Hsy).
    rewrite Hif, (Hbs f); [done| |done].
    rewrite (between_old d0 m d i); [done|repeat split; auto|done|done].
  - right. destruct Hr as (bs & Hbs & ->). rewrite (Hbs (whole m)) by done.
    cbn [bytes whole]. by rewrite json_roundtrip.
Qed.

Lemma between_read d0 m d :
  settled d0 -> between d0 m d -> read d = read d0 \/ read d = Ok (Some m).
Proof.
  intros Hs Hb. destruct (proj2 (proj2 Hb) (entry d) (proj1 (proj2 Hb))) as [He|[He Hw]].
  - left. unfold read. rewrite He. destruct (entry d0) as [i|] eqn:E; [|done].
    by rewrite (between_old d0 m d i).
  - right. unfold read. rewrite He, Hw. cbn [bytes whole]. by rewrite json_roundtrip.
Qed.

Lemma between_refl d m : settled d -> between d m d.
Proof.
  intros (Hd & _). split; [done|]. rewrite Hd. split; [by left|].
  intros e ->%list_elem_of_singleton. by left.
Qed.

Lemma between_temps d0 m d t : between d0 m d -> between d0 m (set_temps t d).
Proof. done. Qed.

Lemma between_set_file d0 m d f :
  between d0 m d -> durable d = [entry d0] ->
  between d0 m (set_file (next_inode d0) f d).
Proof.
  intros (Hi & He & Hd) Hdur. split; [|split; [done|]].
  - intros i Hlt. cbn. rewrite lookup_insert_ne by lia. auto.
  - intros e Hin. cbn in Hin. rewrite Hdur, list_elem_of_singleton in Hin. auto.
Qed.

Definition visits (P : Disk -> Prop) (w : World) : Prop := Forall P (disk w :: past w).

Definition start_at (d : Disk) : World := {| disk := d; past := [] |}.

(** The new file is being written: nothing points at it yet. *)
Definition staged (d0 : Disk) (m : InFlight) (bs : list Z) (b : bool) (w : World) : Prop :=
  visits (between d0 m) w /\ durable (disk w) = [entry d0] /\ entry (disk w) = entry d0 /\
  inodes (disk w) !! next_inode d0 = Some {| bytes := bs; synced := b |} /\
  (forall i f, inodes (disk w) !! i = Some f -> (i < next_inode (disk w))%nat).

Lemma staged_create d0 m t b w0 :
  settled d0 -> disk w0 = d0 -> visits (between d0 m) w0 ->
  match create_new t b w0 with
  | (Ok i, w) => i = next_inode d0 /\ staged d0 m [] false w
  | (Err _, w) => visits (between d0 m) w
  end.
Proof.
  intros Hs <- Hv. pose proof (between_refl _ m Hs) as Hb.
  destruct (Hs) as (Hdur & Hn & _).
  unfold create_new, sys. destruct (_ || _); cbn.
  - by constructor.
  - split; [done|]. split_and!; cbn; [|done|done|apply lookup_insert_eq|].
    + constructor; [|done].
      apply (between_set_file _ _ _ {| bytes := []; synced := false |} Hb Hdur).
    + intros i f Hi. destruct (Nat.eq_dec i (next_inode (disk w0))) as [->|]; [lia|].
      rewrite lookup_insert_ne in Hi by done. apply Hn in Hi. lia.
Qed.

Lemma staged_set_file d0 m bs b w f :
  staged d0 m bs b w ->
  staged d0 m (bytes f) (synced f)
    {| disk := set_file (next_inode d0) f (disk w); past := disk w :: past w |}.
Proof.
  intros (Hv & Hd & He & Hi & Hn). split_and!; cbn; [|done|done| |].
  - constructor; [|exact Hv]. apply between_set_file; [|done]. by apply Forall_cons in Hv as [? _].
  - rewrite lookup_insert_eq. by destruct f.
  - intros i g Hg. destruct (Nat.eq_dec i (next_inode d0)) as [->|]; [by eapply Hn|].
    rewrite lookup_insert_ne in Hg by done. by eapply Hn.
Qed.

Lemma staged_append d0 m bs b w l o :
  staged d0 m bs b w ->
  match append (next_inode d0) l o w with
  | (Ok _, w') => staged d0 m (bs ++ l) false w'
  | (Err _, w') => visits (between d0 m) w'
  end.
Proof.
  intros H. pose proof H as (_ & _ & _ & Hi & _). unfold append, sys. rewrite Hi. cbn.
  destruct o as [n|]; cbn.
  - by destruct (staged_set_file _ _ _ _ _ {| bytes := bs ++ take n l; synced := false |} H).
  - apply (staged_set_file _ _ _ _ _ {| bytes := bs ++ l; synced := false |} H).
Qed.

Lemma staged_sync d0 m bs b w :
  staged d0 m bs b w ->
  exists w', sync_file (next_inode d0) Synced w = (Ok tt, w') /\ staged d0 m bs true w'.
Proof.
  intros H. pose proof H as (_ & _ & _ & Hi & _). unfold sync_file, sys. rewrite Hi. cbn.
  eexists. split; [done|].
  apply (staged_set_file _ _ _ _ _ {| bytes := bs; synced := true |} H).
Qed.

(** The new file is the marker. *)
Definition published (d0 : Disk) (m : InFlight) (w : World) : Prop :=
  visits (between d0 m) w /\ entry (disk w) = Some (next_inode d0) /\
  inodes (disk w) !! next_inode d0 = Some (whole m) /\
  (forall i f, inodes (disk w) !! i = Some f -> (i < next_inode (disk w))%nat).

Lemma staged_rename d0 m t b w :
  staged d0 m (to_writer m ++ [10]) true w ->
  match rename t (next_inode d0) b w with
  | (Ok _, w') => published d0 m w'
  | (Err _, w') => visits (between d0 m) w'
  end.
Proof.
  intros (Hv & Hd & He & Hi & Hn). pose proof Hv as [Hb _]%Forall_cons.
  unfold rename, sys. destruct b; cbn; [by constructor|].
  split_and!; cbn; [|done|done|done]. constructor; [|done].
  destruct Hb as (H1 & _ & _). split; [done|]. split; [by left|].
  intros e Hin. cbn in Hin. rewrite Hd in Hin.
  apply elem_of_cons in Hin as [->|Hin%list_elem_of_singleton]; auto.
Qed.

Lemma published_sync_dir d0 m o w :
  published d0 m w ->
  let '(r, w') := sync_dir o w in
  published d0 m w' /\ (r = Ok tt -> o = Synced -> settled (disk w')).
Proof.
  intros (Hv & He & Hi & Hn). pose proof Hv as [Hb _]%Forall_cons.
  assert (published d0 m w) as Hp by done.
  unfold sync_dir, sys. destruct o; cbn.
  - split.
    + split_and!; cbn; [|done|done|done]. constructor; [|done].
      destruct Hb as (H1 & _ & _). split; [done|]. split; [by left|].
      intros e Hin. cbn in Hin. rewrite list_elem_of_singleton in Hin. subst. auto.
    + intros _ _. split_and!; cbn; [done|done|].
      rewrite He. intros i [= <-]. eauto.
  - split; [|done]. split_and!; try done. by constructor.
  - split; [|done]. split_and!; try done. by constructor.
Qed.

Lemma write_body_visits d0 t m f w0 :
  settled d0 -> file_sync f = Synced -> disk w0 = d0 -> visits (between d0 m) w0 ->
  let '(r, w) := write_body t m f w0 in
  visits (between d0 m) w /\
  (r = Ok tt -> published d0 m w /\ (dir_sync f = Synced -> settled (disk w))).
Proof.
  intros Hs Hf Hw Hv. unfold write_body, io_bind.
  pose proof (staged_create d0 m t (create_fails f) w0 Hs Hw Hv) as H.
  destruct (create_new _ _ _) as [[i|] w]; [destruct H as [-> H]|by split].
  apply (staged_append _ _ _ _ _ (to_writer m) (json_stops_at f)) in H.
  destruct (append _ (to_writer m) _ _) as [[]w1]; [|by split].
  apply (staged_append _ _ _ _ _ [10] (if newline_fails f then Some 0%nat else None)) in H.
  destruct (append _ [10] _ _) as [[] w2]; [|by split].
  rewrite Hf. destruct (staged_sync _ _ _ _ _ H) as (w3 & -> & H3).
  apply (staged_rename _ _ t (rename_fails f)) in H3.
  destruct (rename _ _ _ _) as [[] w4]; [|by split].
  apply (published_sync_dir _ _ (dir_sync f)) in H3.
  destruct (sync_dir _ _) as [r w5]. destruct H3 as [Hp Hset].
  split; [apply Hp|]. intros ->. auto.
Qed.

Lemma published_temps d0 m t b w :
  visits (between d0 m) w -> visits (between d0 m) (remove_temp t b w).2.
Proof.
  intros Hv. pose proof Hv as [Hb _]%Forall_cons.
  unfold remove_temp, sys. destruct b; by constructor.
Qed.

Lemma write_visits d0 t m f :
  settled d0 -> file_sync f = Synced ->
  let '(r, w) := write t m f (start_at d0) in
  visits (between d0 m) w /\
  (r = Ok tt -> published d0 m w /\ (dir_sync f = Synced -> settled (disk w))).
Proof.
  intros Hs Hf. unfold write, io_bind, mkdir, sys. cbn [disk past start_at].
  pose proof (between_refl d0 m Hs) as Hb.
  assert (visits (between d0 m) {| disk := d0; past := [d0] |}) as Hv.
  { unfold visits; cbn [disk past]; rewrite !Forall_cons, Forall_nil. auto. }
  destruct (mkdir_fails f); cbn; [by split|].
  pose proof (write_body_visits d0 t m f {| disk := d0; past := [d0] |} Hs Hf eq_refl Hv) as Hw.
  destruct (write_body _ _ _ _) as [[[]|e] w]; [exact Hw|].
  split; [|done]. exact (published_temps _ _ _ _ _ (proj1 Hw)).
Qed.

(** [remove] answers [Ok] only once the marker is gone, and never makes one. *)
Lemma remove_entry f w :
  let '(r, w') := remove f w in
  (entry (disk w') = None \/ entry (disk w') = entry (disk w)) /\
  (r = Ok tt -> entry (disk w') = None).
Proof.
  unfold remove, io_bind, unlink, sync_dir, sys.
  destruct (entry (disk w)) as [i|] eqn:E; cbn; [|by rewrite E; auto].
  destruct (unlink_fails f); cbn; [by rewrite E; split; [right|]|].
  destruct (dir_sync f); cbn; auto.
Qed.
End Store.
End MarkerStore.

(** ** [InFlightRun]

    [start], [drop], the heartbeat thread and the teardown hook. A thread's position is its
    program counter; a step is one action on shared state. The [stopped] lock is held by
    the heartbeat thread except while it waits, so [drop] can set the flag only then. *)

Module InFlightRun.

Inductive thread := TMain | THeartbeat | TTeardown.

#[export] Instance thread_eq_dec : EqDecision thread.
Proof. solve_decision. Defined.

(** [start_with_heartbeat], then the job, then [drop]. *)
Inductive main_pc :=
| MStart
| MLocked
| MWriting
| MFailed
| MSpawn
| MRunning
| MStopping
| MJoined
| MRemoving
| MDone (r : result unit str).

(** The closure [Heartbeat::spawn] runs. *)
Inductive hb_pc :=
| HNone
| HWait
| HWoken
| HLocked
| HGoing
| HWriting
| HRemoving
| HExit (removed : option (result unit str)).

(** The hook [register_bounded_teardown] holds. *)
Inductive td_pc :=
| TIdle
| TLocked
| TRemoving
| TDone (r : result unit str)
| TGone.

Record St := {
  st_disk : Disk;
  closing : bool;
  holder : option thread;
  stop : bool;
  stopped : bool;
  clock : Z;
  next_beat : Z;
  marker : InFlight;
  main : main_pc;
  hb : hb_pc;
  td : td_pc;
}.

Definition at_main (s : St) (h : option thread) (pc : main_pc) : St :=
  {| st_disk := st_disk s; closing := closing s; holder := h; stop := stop s;
     stopped := stopped s; clock := clock s; next_beat := next_beat s;
     marker := marker s; main := pc; hb := hb s; td := td s |}.

Definition at_hb (s : St) (h : option thread) (pc : hb_pc) : St :=
  {| st_disk := st_disk s; closing := closing s; holder := h; stop := stop s;
     stopped := stopped s; clock := clock s; next_beat := next_beat s;
     marker := marker s; main := main s; hb := pc; td := td s |}.

Definition at_td (s : St) (h : option thread) (pc : td_pc) : St :=
  {| st_disk := st_disk s; closing := closing s; holder := h; stop := stop s;
     stopped := stopped s; clock := clock s; next_beat := next_beat s;
     marker := marker s; main := main s; hb := hb s; td := pc |}.

Definition on_disk (s : St) (d : Disk) : St :=
  {| st_disk := d; closing := closing s; holder := holder s; stop := stop s;
     stopped := stopped s; clock := clock s; next_beat := next_beat s;
     marker := marker s; main := main s; hb := hb s; td := td s |}.

Definition set_flags (s : St) (c st sd : bool) : St :=
  {| st_disk := st_disk s; closing := c; holder := holder s; stop := st;
     stopped := sd; clock := clock s; next_beat := next_beat s;
     marker := marker s; main := main s; hb := hb s; td := td s |}.

Definition set_times (s : St) (now beat : Z) (m : InFlight) : St :=
  {| st_disk := st_disk s; closing := closing s; holder := holder s; stop := stop s;
     stopped := stopped s; clock := now; next_beat := beat;
     marker := m; main := main s; hb := hb s; td := td s |}.

Definition refreshed (m : InFlight) (utc : Z) : InFlight :=
  {| job_id := job_id m; boot_id := boot_id m; started_at := started_at m;
     alive_at := Some utc |}.

Section Run.
Context (to_writer : InFlight -> list Z) (from_slice : list Z -> result InFlight str).
Context (m0 : InFlight) (interval : Z).

Inductive init : St -> Prop :=
| Init d now beat sreq :
    init {| st_disk := d; closing := false; holder := None; stop := sreq;
            stopped := false; clock := now; next_beat := beat; marker := m0;
            main := MStart; hb := HNone; td := TIdle |}.

(** The heartbeat thread is in [wait_timeout_while], or over: [stopped]'s lock is free. *)
Definition stopped_lock_free (pc : hb_pc) : bool :=
  match pc with HWait | HExit _ => true | _ => false end.

Inductive main_step : St -> St -> Prop :=
| m_lock s : main s = MStart -> holder s = None ->
    main_step s (at_main s (Some TMain) MLocked)
| m_refused s : main s = MLocked -> closing s || stop s = true ->
    main_step s (at_main s None MFailed)
| m_checked s : main s = MLocked -> closing s || stop s = false ->
    main_step s (at_main s (Some TMain) MWriting)
| m_written s t f w : main s = MWriting ->
    MarkerStore.write to_writer t m0 f (MarkerStore.start_at (st_disk s)) = (Ok tt, w) ->
    main_step s (at_main (on_disk s (disk w)) None MSpawn)
| m_not_written s t f e w : main s = MWriting ->
    MarkerStore.write to_writer t m0 f (MarkerStore.start_at (st_disk s)) = (Err e, w) ->
    main_step s (at_main (on_disk s (disk w)) None MFailed)
| m_spawned s : main s = MSpawn ->
    main_step s (at_hb (at_main (set_times s (clock s) (clock s + interval) (marker s))
                          (holder s) MRunning) (holder s) HWait)
| m_not_spawned s : main s = MSpawn -> main_step s (at_main s (holder s) MJoined)
| m_drop s : main s = MRunning -> stopped_lock_free (hb s) = true ->
    main_step s (at_main (set_flags s (closing s) (stop s) true) (holder s) MStopping)
| m_joined s r : main s = MStopping -> hb s = HExit r ->
    main_step s (at_main s (holder s) MJoined)
| m_lock_again s : main s = MJoined -> holder s = None ->
    main_step s (at_main s (Some TMain) MRemoving)
| m_removed s f r w : main s = MRemoving ->
    MarkerStore.remove f (MarkerStore.start_at (st_disk s)) = (r, w) ->
    main_step s (at_main (on_disk s (disk w)) None (MDone r)).

Inductive hb_step : St -> St -> Prop :=
| h_stopped s : hb s = HWait -> stopped s = true -> hb_step s (at_hb s (holder s) (HExit None))
| h_woken s : hb s = HWait -> stopped s = false -> hb_step s (at_hb s (holder s) HWoken)
| h_lock s : hb s = HWoken -> holder s = None ->
    hb_step s (at_hb s (Some THeartbeat) HLocked)
| h_closing s : hb s = HLocked -> closing s = true -> hb_step s (at_hb s None (HExit None))
| h_stop s : hb s = HLocked -> closing s = false -> stop s = true ->
    hb_step s (at_hb (set_flags s true (stop s) (stopped s)) (holder s) HRemoving)
| h_removed s f r w : hb s = HRemoving ->
    MarkerStore.remove f (MarkerStore.start_at (st_disk s)) = (r, w) ->
    hb_step s (at_hb (on_disk s (disk w)) None (HExit (Some r)))
| h_going s : hb s = HLocked -> closing s = false -> stop s = false ->
    hb_step s (at_hb s (holder s) HGoing)
| h_early s : hb s = HGoing -> clock s < next_beat s -> hb_step s (at_hb s None HWait)
| h_due s utc : hb s = HGoing -> next_beat s <= clock s ->
    hb_step s (at_hb (set_times s (clock s) (next_beat s + interval)
                        (refreshed (marker s) utc)) (holder s) HWriting)
| h_written s t f r w : hb s = HWriting ->
    MarkerStore.write to_writer t (marker s) f (MarkerStore.start_at (st_disk s)) = (r, w) ->
    hb_step s (at_hb (on_disk s (disk w)) None HWait).

(** A forced exit runs the hook; the end of [start] or of [drop] unregisters it. *)
Inductive td_step : St -> St -> Prop :=
| t_lock s : td s = TIdle -> holder s = None -> td_step s (at_td s (Some TTeardown) TLocked)
| t_closing s : td s = TLocked ->
    td_step s (at_td (set_flags s true (stop s) (stopped s)) (holder s) TRemoving)
| t_removed s f r w : td s = TRemoving ->
    MarkerStore.remove f (MarkerStore.start_at (st_disk s)) = (r, w) ->
    td_step s (at_td (on_disk s (disk w)) None (TDone r))
| t_unregistered s : td s = TIdle ->
    (main s = MFailed \/ exists r, main s = MDone r) -> td_step s (at_td s (holder s) TGone).

(** The clock advances, and a signal asks for a graceful stop. *)
Inductive env_step : St -> St -> Prop :=
| e_clock s now : clock s <= now -> env_step s (set_times s now (next_beat s) (marker s))
| e_stop s : env_step s (set_flags s (closing s) true (stopped s)).

Inductive step : St -> St -> Prop :=
| step_main s s' : main_step s s' -> step s s'
| step_hb s s' : hb_step s s' -> step s s'
| step_td s s' : td_step s s' -> step s s'
| step_env s s' : env_step s s' -> step s s'.

(** ** The invariant *)

Definition main_holds (pc : main_pc) : bool :=
  match pc with MLocked | MWriting | MRemoving => true | _ => false end.
Definition hb_holds (pc : hb_pc) : bool :=
  match pc with HLocked | HGoing | HWriting | HRemoving => true | _ => false end.
Definition td_holds (pc : td_pc) : bool :=
  match pc with TLocked | TRemoving => true | _ => false end.

(** Threads about to write the marker. *)
Definition main_may_write (pc : main_pc) : bool :=
  match pc with MWriting => true | _ => false end.
Definition hb_may_write (pc : hb_pc) : bool :=
  match pc with HGoing | HWriting => true | _ => false end.

(** Threads that found, or set, [closing]. *)
Definition hb_closed (pc : hb_pc) : bool :=
  match pc with HRemoving | HExit (Some _) => true | _ => false end.
Definition td_closed (pc : td_pc) : bool :=
  match pc with TRemoving | TDone _ => true | _ => false end.

(** Who holds the [closing] lock. *)
Definition lock_fits (m h t : bool) (holder : option thread) : bool :=
  match holder with
  | None => negb m && negb h && negb t
  | Some TMain => m && negb h && negb t
  | Some THeartbeat => negb m && h && negb t
  | Some TTeardown => negb m && negb h && t
  end.

(** Which heartbeat positions go with the claim loop's: none before the spawn, over after
    the join. *)
Definition hb_fits (m : main_pc) (h : hb_pc) (sd : bool) : bool :=
  match m, h with
  | (MStart | MLocked | MWriting | MFailed | MSpawn), HNone => negb sd
  | MRunning, HNone => false
  | MRunning, _ => negb sd
  | MStopping, (HWait | HExit _) => sd
  | (MJoined | MRemoving | MDone _), (HNone | HExit _) => true
  | _, _ => false
  end.

(** Some removal of the marker answered [Ok]. *)
Definition removed_ok (s : St) : Prop :=
  main s = MDone (Ok tt) \/ hb s = HExit (Some (Ok tt)) \/ td s = TDone (Ok tt).

Record Inv (s : St) : Prop := {
  inv_lock : lock_fits (main_holds (main s)) (hb_holds (hb s)) (td_holds (td s)) (holder s) = true;
  inv_writes : main_may_write (main s) || hb_may_write (hb s) = true -> closing s = false;
  inv_closed : hb_closed (hb s) || td_closed (td s) = true -> closing s = true;
  inv_fits : hb_fits (main s) (hb s) (stopped s) = true;
  inv_gone : removed_ok s -> entry (st_disk s) = None;
}.

Lemma init_inv s : init s -> Inv s.
Proof. intros []. constructor; cbn; try done. by intros [|[|]]. Qed.

(** A removal keeps the marker gone, and makes it so when it answers [Ok]. *)
Lemma remove_keeps f d r w :
  MarkerStore.remove f (MarkerStore.start_at d) = (r, w) ->
  (entry d = None -> entry (disk w) = None) /\ (r = Ok tt -> entry (disk w) = None).
Proof.
  intros H. pose proof (MarkerStore.remove_entry f (MarkerStore.start_at d)) as Hr.
  rewrite H in Hr. cbn in Hr. destruct Hr as [[?| ->] ?]; auto.
Qed.

(** A step of one thread: the others' positions are enumerated. *)
Ltac inv_solve :=
  match goal with
  | H : Inv ?s |- Inv _ =>
      destruct H as [Hlock Hw Hc Hf Hg]; destruct s as [? s_closing s_holder ? ? ? ? ? s_main s_hb s_td];
      cbn in *; subst; unfold removed_ok in *; cbn in *;
      repeat match goal with
             | H : MarkerStore.remove _ _ = _ |- _ => apply remove_keeps in H as [? ?]
             end;
      try (destruct s_holder as [[]|]; cbn in *; try discriminate);
      try (destruct s_main; cbn in *; try discriminate);
      try (destruct s_hb as [| | | | | | |[]]; cbn in *; try discriminate);
      try (destruct s_td; cbn in *; try discriminate);
      constructor; unfold removed_ok; cbn in *;
      bool_to_prop; try (intros [?|[?|?]]; simplify_eq); auto; try discriminate;
      try (specialize (Hw eq_refl); specialize (Hc eq_refl); congruence);
      try (by subst)
  end.

Lemma main_step_inv s s' : Inv s -> main_step s s' -> Inv s'.
Proof. intros HI Hs. destruct Hs; inv_solve. Qed.

Lemma hb_step_inv s s' : Inv s -> hb_step s s' -> Inv s'.
Proof. intros HI Hs. destruct Hs; inv_solve. Qed.

Lemma td_step_inv s s' : Inv s -> td_step s s' -> Inv s'.
Proof. intros HI Hs. destruct Hs; inv_solve. Qed.

Lemma env_step_inv s s' : Inv s -> env_step s s' -> Inv s'.
Proof. intros [] Hs. destruct Hs; by constructor. Qed.

Lemma reachable_inv s : reachable init step s -> Inv s.
Proof.
  apply (reachable_invariant init step Inv); [exact init_inv|].
  intros s1 s2 HI Hs. destruct Hs;
    [eapply main_step_inv|eapply hb_step_inv|eapply td_step_inv|eapply env_step_inv]; eauto.
Qed.

(** The locks and joins never leave the run stuck: from every reachable state some thread
    can act, until the run is over and no thread is in the middle of anything. *)
Definition quiescent (s : St) : Prop :=
  (main s = MFailed \/ exists r, main s = MDone r) /\
  (hb s = HNone \/ exists r, hb s = HExit r) /\
  (td s = TGone \/ exists r, td s = TDone r).

Lemma remove_runs f w : exists r w', MarkerStore.remove f w = (r, w').
Proof. destruct (MarkerStore.remove f w); eauto. Qed.

Lemma main_progress s :
  hb_fits (main s) (hb s) (stopped s) = true -> holder s <> Some THeartbeat ->
  holder s <> Some TTeardown -> lock_fits (main_holds (main s)) (hb_holds (hb s)) (td_holds (td s)) (holder s) = true ->
  (main s = MFailed \/ exists r, main s = MDone r) \/
  (exists s', main_step s s') \/ (exists s', hb_step s s').
Proof.
  intros Hf Hh Ht Hl.
  assert (holder s = None \/ holder s = Some TMain) as Hcase
    by (destruct (holder s) as [[]|]; auto; congruence).
  destruct (main s) eqn:E; eauto.
  - right; left. destruct Hcase as [H|H]; [eexists; by apply m_lock|].
    rewrite H in Hl. by cbn in Hl.
  - right; left. destruct (closing s || stop s) eqn:Ec;
      eexists; [by apply m_refused|by apply m_checked].
  - right; left.
    destruct (MarkerStore.write to_writer [] m0 no_faults (MarkerStore.start_at (st_disk s)))
      as [[[]|e] w] eqn:Ew; eexists; [by eapply m_written|by eapply m_not_written].
  - right; left. eexists. by apply m_spawned.
  - destruct (hb s) eqn:Eh; cbn in Hf; try done.
    + right; left. eexists. apply m_drop; [done|by rewrite Eh].
    + right; right. destruct Hcase as [H|H]; [eexists; by apply h_lock|].
      by rewrite H in Hl.
    + by destruct Hcase as [H|H]; rewrite H in Hl.
    + by destruct Hcase as [H|H]; rewrite H in Hl.
    + by destruct Hcase as [H|H]; rewrite H in Hl.
    + by destruct Hcase as [H|H]; rewrite H in Hl.
    + right; left. eexists. apply m_drop; [done|by rewrite Eh].
  - destruct (hb s) eqn:Eh; cbn in Hf; try done.
    + right; right. eexists. by apply h_stopped.
    + right; left. eexists. by eapply m_joined.
  - right; left. destruct Hcase as [H|H]; [eexists; by apply m_lock_again|].
    rewrite H in Hl. by cbn in Hl.
  - right; left. destruct (remove_runs no_faults (MarkerStore.start_at (st_disk s)))
      as (r & w & Hr). eexists. by eapply m_removed.
Qed.

Lemma holder_progress s :
  lock_fits (main_holds (main s)) (hb_holds (hb s)) (td_holds (td s)) (holder s) = true ->
  (holder s = Some THeartbeat -> exists s', hb_step s s') /\
  (holder s = Some TTeardown -> exists s', td_step s s').
Proof.
  intros Hl. split; intros Hh; rewrite Hh in Hl; cbn in Hl; bool_to_prop.
  - destruct (hb s) eqn:E; try done.
    + destruct (closing s) eqn:Ec; [eexists; by apply h_closing|].
      destruct (stop s) eqn:Es; eexists; [by apply h_stop|by apply h_going].
    + destruct (Z.lt_ge_cases (clock s) (next_beat s));
        eexists; [by apply h_early|by apply (h_due s 0)].
    + destruct (MarkerStore.write to_writer [] (marker s) no_faults
        (MarkerStore.start_at (st_disk s))) as [r w] eqn:Ew.
      eexists. by eapply h_written.
    + destruct (remove_runs no_faults (MarkerStore.start_at (st_disk s))) as (r & w & Hr).
      eexists. by eapply h_removed.
  - destruct (td s) eqn:E; try done.
    + eexists. by apply t_closing.
    + destruct (remove_runs no_faults (MarkerStore.start_at (st_disk s))) as (r & w & Hr).
      eexists. by eapply t_removed.
Qed.

(** Threads only: neither the clock nor a signal. *)
Definition thread_step (s s' : St) : Prop :=
  main_step s s' \/ hb_step s s' \/ td_step s s'.

Lemma inv_progress s : Inv s -> quiescent s \/ exists s', thread_step s s'.
Proof.
  intros [Hl _ _ Hf _]. unfold thread_step, quiescent.
  destruct (holder_progress s Hl) as [Hhb Htd].
  destruct (decide (holder s = Some THeartbeat)) as [|Nh]; [right; naive_solver|].
  destruct (decide (holder s = Some TTeardown)) as [|Nt]; [right; naive_solver|].
  destruct (main_progress s Hf Nh Nt Hl) as [Hend|[[s' H]|[s' H]]]; [|by eauto|by eauto].
  assert (hb s = HNone \/ exists r, hb s = HExit r) as Hhb'.
  { destruct Hend as [E|[r E]]; rewrite E in Hf; destruct (hb s); cbn in Hf; naive_solver. }
  assert (td_holds (td s) = true -> False) as Hno.
  { intros Ht. rewrite Ht in Hl. destruct (holder s) as [[]|]; try done; cbn in Hl;
      bool_to_prop; done. }
  destruct (td s) eqn:E; try (by destruct Hno); [right|by eauto 6..].
  exists (at_td s (holder s) TGone). right; right. by apply t_unregistered.
Qed.
End Run.
End InFlightRun.

(** ** Theorems *)

(** A claim is answered as a reboot exactly when the marker is for the same job, both
    boot IDs are known and differ, and the job was seen alive at most [REBOOT_WINDOW]
    before the current boot started. *)
Theorem decide_claim_rebooted (datetime_max : Z) (mk : option InFlight) (job old new : str)
    (boot : Boot) :
  decide_claim datetime_max mk job boot = Rebooted old new <->
  exists m alive started,
    mk = Some m /\ job_id m = job /\ boot_id m = Some old /\ id boot = Some new /\
    old <> new /\ alive_at m = Some alive /\ boot_started_at boot = Some started /\
    alive + REBOOT_WINDOW <= datetime_max /\ started <= alive + REBOOT_WINDOW.
Proof.
  unfold decide_claim, alive_at_reboot, checked_add. split.
  - intros H. destruct mk as [m|]; [|done].
    destruct (str_eqb (job_id m) job) eqn:Ej; [apply str_eqb_eq in Ej|done]. cbn in H.
    destruct (boot_id m) as [o|] eqn:Eo, (id boot) as [c|] eqn:Ec; try done.
    destruct (str_eqb o c) eqn:Eb; [done|]. cbn in H.
    destruct (alive_at m) as [a|] eqn:Ea; [|done]. cbn in H.
    destruct (Z.leb_spec (a + REBOOT_WINDOW) datetime_max); [|done].
    destruct (boot_started_at boot) as [st|] eqn:Es; [|done]. cbn in H.
    destruct (Z.leb_spec st (a + REBOOT_WINDOW)); simplify_eq.
    exists m, a, st. split_and!; try done.
    intros ->. by rewrite (proj2 (str_eqb_eq new new) eq_refl) in Eb.
  - intros (m & a & st & -> & <- & -> & -> & Hne & -> & -> & H1 & H2).
    rewrite (proj2 (str_eqb_eq _ _) eq_refl). cbn.
    destruct (str_eqb old new) eqn:E; [by apply str_eqb_eq in E|]. cbn.
    rewrite (proj2 (Z.leb_le (a + REBOOT_WINDOW) _) H1). cbn.
    by rewrite (proj2 (Z.leb_le st _) H2).
Qed.


(** A concrete text for a record: one number. *)
#[export] Instance InFlight_countable : Countable InFlight.
Proof.
  refine (inj_countable' (fun m => (job_id m, boot_id m, started_at m, alive_at m))
    (fun '(j, b, s, a) => {| job_id := j; boot_id := b; started_at := s; alive_at := a |}) _).
  by intros [].
Defined.

Definition one_number (m : InFlight) : list Z := [Z.pos (encode m)].
Definition one_number_back (bs : list Z) : result InFlight str :=
  match bs with
  | Z.pos p :: _ => match decode p with Some m => Ok m | None => io_error end
  | _ => io_error
  end.

Lemma one_number_roundtrip m : one_number_back (one_number m ++ [10]) = Ok m.
Proof. unfold one_number_back, one_number. cbn [app]. by rewrite decode_encode. Qed.

Definition empty_disk : Disk :=
  {| next_inode := 0; inodes := ∅; temps := ∅; entry := None; durable := [None] |}.

Lemma empty_disk_settled : MarkerStore.settled empty_disk.
Proof. split_and!; [done| |done]. intros i f H. unfold empty_disk in H. cbn [inodes] in H. by rewrite lookup_empty in H. Qed.

Definition demo_marker : InFlight :=
  {| job_id := lit "j"; boot_id := Some (lit "b"); started_at := lit "t"; alive_at := Some 5 |}.

(** A write whose directory sync fails after the rename. *)
Definition dir_sync_fails : Faults :=
  {| mkdir_fails := false; create_fails := false; json_stops_at := None;
     newline_fails := false; file_sync := Synced; rename_fails := false;
     dir_sync := SyncFailed; unlink_fails := false |}.

Definition demo_write (f : Faults) : result unit str * World :=
  MarkerStore.write one_number (lit "u") demo_marker f (MarkerStore.start_at empty_disk).


(** C12: once a removal of the marker answered [Ok] - the end of the run, a stop request seen
    by the heartbeat thread, or a forced exit - it is gone for good, however the threads
    interleave and whatever the disk does: no later state has a marker, so the next claim
    starts afresh and never reads the shutdown as a reboot. *)
Theorem marker_removed_for_good (to_writer : InFlight -> list Z)
    (from_slice : list Z -> result InFlight str) (m0 : InFlight) (interval : Z)
    (s : InFlightRun.St) :
  reachable (InFlightRun.init m0) (InFlightRun.step to_writer m0 interval) s ->
  InFlightRun.removed_ok s ->
  MarkerStore.read from_slice (InFlightRun.st_disk s) = Ok None /\
  forall datetime_max job boot,
    decide_claim datetime_max
      (default None (result_ok (MarkerStore.read from_slice (InFlightRun.st_disk s))))
      job boot = Run.
Proof.
  intros Hr Hg. apply InFlightRun.reachable_inv in Hr. destruct Hr.
  assert (MarkerStore.read from_slice (InFlightRun.st_disk s) = Ok None) as ->.
  { unfold MarkerStore.read. by rewrite inv_gone. }
  done.
Qed.

(** Neither the two locks nor the join leave a run stuck: in every reachable state some
    thread can act, unless the run is over and nothing is left half done. *)
Theorem in_flight_run_progress (to_writer : InFlight -> list Z) (m0 : InFlight)
    (interval : Z) (s : InFlightRun.St) :
  reachable (InFlightRun.init m0) (InFlightRun.step to_writer m0 interval) s ->
  InFlightRun.quiescent s \/ exists s', InFlightRun.thread_step to_writer m0 interval s s'.
Proof. intros Hr. apply InFlightRun.inv_progress. by eapply InFlightRun.reachable_inv. Qed.

(** Runs of a job: one that ends in an orderly way, and one whose first write fails in the
    directory sync. *)
Definition demo_reach : InFlightRun.St -> Prop :=
  reachable (InFlightRun.init demo_marker) (InFlightRun.step one_number demo_marker HEARTBEAT).

Lemma demo_main s s' :
  demo_reach s -> InFlightRun.main_step one_number demo_marker HEARTBEAT s s' -> demo_reach s'.
Proof. intros R H. eapply reach_step; [exact R|]. by apply InFlightRun.step_main. Qed.

Lemma demo_hb s s' :
  demo_reach s -> InFlightRun.hb_step one_number HEARTBEAT s s' -> demo_reach s'.
Proof. intros R H. eapply reach_step; [exact R|]. by apply InFlightRun.step_hb. Qed.

Lemma demo_td s s' : demo_reach s -> InFlightRun.td_step s s' -> demo_reach s'.
Proof. intros R H. eapply reach_step; [exact R|]. by apply InFlightRun.step_td. Qed.

(** Take a step and evaluate the state it leads to. *)
Ltac run R lem tac :=
  eapply lem in R; [|solve [tac]];
  match type of R with
  | demo_reach ?s => let s' := eval vm_compute in s in change (demo_reach s') in R
  end.

Lemma demo_start : exists s, demo_reach s /\ s =
  {| InFlightRun.st_disk := empty_disk; InFlightRun.closing := false;
     InFlightRun.holder := Some InFlightRun.TMain; InFlightRun.stop := false;
     InFlightRun.stopped := false; InFlightRun.clock := 0; InFlightRun.next_beat := 0;
     InFlightRun.marker := demo_marker; InFlightRun.main := InFlightRun.MWriting;
     InFlightRun.hb := InFlightRun.HNone; InFlightRun.td := InFlightRun.TIdle |}.
Proof.
  assert (demo_reach _) as R
    by exact (reach_init _ _ _ (InFlightRun.Init demo_marker empty_disk 0 0 false)).
  run R demo_main ltac:(apply InFlightRun.m_lock; reflexivity).
  run R demo_main ltac:(apply InFlightRun.m_checked; reflexivity).
  eexists. split; [exact R|reflexivity].
Qed.

Lemma demo_orderly : exists s, demo_reach s /\ InFlightRun.removed_ok s.
Proof.
  destruct demo_start as (s & R & ->).
  run R demo_main ltac:(eapply (InFlightRun.m_written _ _ _ _ (lit "u") no_faults); reflexivity).
  run R demo_main ltac:(apply InFlightRun.m_spawned; reflexivity).
  run R demo_main ltac:(apply InFlightRun.m_drop; reflexivity).
  run R demo_hb ltac:(apply InFlightRun.h_stopped; reflexivity).
  run R demo_main ltac:(apply (InFlightRun.m_joined _ _ _ _ None); reflexivity).
  run R demo_main ltac:(apply InFlightRun.m_lock_again; reflexivity).
  run R demo_main ltac:(eapply (InFlightRun.m_removed _ _ _ _ no_faults); reflexivity).
  eexists. split; [exact R|by left].
Qed.

Lemma marker_removed_for_good_witness :
  exists s, demo_reach s /\ InFlightRun.removed_ok s /\
  MarkerStore.read one_number_back (InFlightRun.st_disk s) = Ok None.
Proof.
  destruct demo_orderly as (s & R & Hg). exists s. split; [exact R|]. split; [exact Hg|].
  exact (proj1 (marker_removed_for_good one_number one_number_back demo_marker HEARTBEAT s
    R Hg)).
Defined.

Lemma in_flight_run_progress_witness :
  exists s, demo_reach s /\ InFlightRun.main s = InFlightRun.MWriting /\
  (InFlightRun.quiescent s \/
   exists s', InFlightRun.thread_step one_number demo_marker HEARTBEAT s s').
Proof.
  destruct demo_start as (s & R & E). exists s. split; [exact R|]. split; [by rewrite E|].
  exact (in_flight_run_progress one_number demo_marker HEARTBEAT s R).
Defined.

(** A start that fails leaves its marker behind when the write failed after its rename:
    [start] returns before the [InFlightRun] that would remove the marker exists, and the
    teardown hook goes with it. Nothing of the run is left to remove the marker, and a
    reboot soon after would be reported against a job whose marker the worker announced it
    could not write. *)
Theorem failed_start_leaves_marker :
  exists s, demo_reach s /\ InFlightRun.main s = InFlightRun.MFailed /\
    InFlightRun.quiescent s /\
    MarkerStore.read one_number_back (InFlightRun.st_disk s) = Ok (Some demo_marker) /\
    decide_claim (from_secs 1000) (Some demo_marker) (lit "j")
      {| id := Some (lit "c"); boot_started_at := Some (from_secs 60) |} =
      Rebooted (lit "b") (lit "c").
Proof.
  destruct demo_start as (s & R & ->).
  run R demo_main ltac:(eapply (InFlightRun.m_not_written _ _ _ _ (lit "u") dir_sync_fails); reflexivity).
  eapply demo_td in R; [|apply InFlightRun.t_unregistered;
    [reflexivity|by left]].
  eexists. split; [exact R|]. split_and!; [done|by unfold InFlightRun.quiescent; cbn; eauto 6| |done].
  vm_compute. reflexivity.
Qed.
