(* ===== verification/Errors.v ===== *)
(** * Errors a job can end with

    The errors the worker tells apart: the management client's
    ([crates/pipette-mgmt-client/src/error.rs]), a child's exit
    ([crates/pipette-subprocess/src/error.rs]), the vault's
    ([crates/pipette-artifacts/src/vault.rs]) and the chain [anyhow] keeps of them.

    Payloads that no branch reads are strings. An [anyhow::Error] is the contexts attached
    to it, outermost first, and then the error they wrap with its sources. A [downcast_ref]
    of the whole error sees each context and the wrapped error; [chain] walks every link,
    and a link that is a context is never of a cause's type. *)

From Stdlib Require Import ZArith Lia String.
From stdpp Require Import prelude list.
From S2P Require Import Prelude Str Wait.

Local Open Scope Z_scope.

(** ** The management client *)

Inductive MgmtError :=
| InvalidUrl (url source : str)
| TimestampFormat (source : str)
| UnusableTimestamp (derived : str)
| InvalidPrivateKey (source : str)
| InvalidPublicKey (source : str)
| UnusableKeyId (derived : str)
| OsEntropy (source : str)
| Signer (source : str)
| DotSegment (segment : str)
| EncodeJson (source : str)
| Transport (method url message : str)
| HttpStatus (method url : str) (status : Z) (body : str)
| StreamEnded (method url cause : str)
| DecodeJson (method url body source : str)
| BuildClient (message : str).

Definition http_status (e : MgmtError) : option Z :=
  match e with
  | HttpStatus _ _ status _ => Some status
  | _ => None
  end.

Definition is_transient (e : MgmtError) : bool :=
  match e with
  | Transport _ _ _ => true
  | HttpStatus _ _ status _ => 500 <=? status
  | InvalidUrl _ _ | TimestampFormat _ | UnusableTimestamp _ | InvalidPrivateKey _
  | InvalidPublicKey _ | UnusableKeyId _ | OsEntropy _ | DotSegment _ | EncodeJson _
  | DecodeJson _ _ _ _ | StreamEnded _ _ _ | Signer _ | BuildClient _ => false
  end.

(** ** I/O *)

(** The kinds [names_the_host] lists, and the rest. *)
Inductive ErrorKind :=
| StorageFull | QuotaExceeded | PermissionDenied | ReadOnlyFilesystem | OutOfMemory
| ResourceBusy | OtherKind (name : str).

Definition names_the_host (k : ErrorKind) : bool :=
  match k with
  | StorageFull | QuotaExceeded | PermissionDenied | ReadOnlyFilesystem | OutOfMemory
  | ResourceBusy => true
  | OtherKind _ => false
  end.

(** ** Child processes *)

Inductive ExitError :=
| ExitStatusError (source : str)
| ExitFailed (name status tail : str)
| ExitTimedOut (name : str) (timeout : Z) (tail : str).

Inductive ReadyError :=
| ReadyStatus (source : str)
| ReadyExited (name status tail : str)
| ReadyFailed (name tail source : str)
| ReadyTimedOut (name : str) (timeout : Z) (tail source : str).

(** ** The vault *)

(** [Archive] keeps the I/O kinds of its chain, which is all that is read of it. *)
Inductive VaultFetchError :=
| Unregistered (url : str)
| Refused (resource_id : str) (status : Z) (detail : str)
| PinDisagrees (resource_id plan record : str)
| Drift (resource_id expected actual : str)
| ResumedDrift (resource_id : str) (resumed_at : Z) (expected actual : str)
| VaultMgmt (source : MgmtError)
| VaultIo (dest : str) (kind : ErrorKind)
| Archive (resource_id : str) (io_kinds : list ErrorKind).

Definition host_refused (io_kinds : list ErrorKind) : bool := existsb names_the_host io_kinds.

Definition is_permanent (e : VaultFetchError) : bool :=
  match e with
  | Refused _ _ _ | PinDisagrees _ _ _ | Drift _ _ _ | Unregistered _ => true
  | Archive _ kinds => negb (host_refused kinds)
  | VaultMgmt source =>
      negb (is_transient source) && negb (bool_decide (http_status source = Some 401))
  | VaultIo _ _ | ResumedDrift _ _ _ _ => false
  end.

(** ** Chains *)

(** One error of a chain, by its type. [HttpCause] is an error [pipette_http::is_timeout]
    reads, with its answer. *)
Inductive cause :=
| ExitCause (e : ExitError)
| ReadyCause (e : ReadyError)
| UnrunnableCause
| VaultCause (e : VaultFetchError)
| ReadinessCause (e : ReadinessError)
| SubmitRefusedCause (e : MgmtError)
| HttpCause (timed_out : bool)
| OtherCause.

Inductive context :=
| StoppedContext
| OtherContext.

(** Each link with the text it displays as. *)
Record anyhow_error := {
  contexts : list (context * str);
  root : cause * str;
  sources : list (cause * str);
}.

(** The links of [chain] that have a cause's type. *)
Definition chain (e : anyhow_error) : list cause := (root e).1 :: map fst (sources e).

(** [err.downcast_ref::<Stopped>().is_some()]. *)
Definition is_stopped (e : anyhow_error) : bool :=
  existsb (fun c => match c.1 with StoppedContext => true | OtherContext => false end)
    (contexts e).

(** [err.downcast_ref::<SubmitRefusedError>()]. *)
Definition as_submit_refused (e : anyhow_error) : option MgmtError :=
  match (root e).1 with
  | SubmitRefusedCause m => Some m
  | _ => None
  end.

(** [format!("{err:#}")]. *)
Definition display_chain (e : anyhow_error) : str :=
  join (lit ": ") (map snd (contexts e) ++ (root e).2 :: map snd (sources e)).

Definition is_timeout (c : cause) : bool :=
  match c with
  | HttpCause t => t
  | _ => false
  end.

Definition error_of (c : cause) (text : str) : anyhow_error :=
  {| contexts := []; root := (c, text); sources := [] |}.
