(* ===== verification/Protocol.v ===== *)
(** * The planner wire protocol ([crates/pipette-cli/src/client/worker/protocol.rs])

    Claim, heartbeat and submit, as the enums the worker loop matches on. The management
    server is the class [MgmtApi]: one operation per endpoint of [client_api], each free to
    answer anything. *)

From Stdlib Require Import ZArith Lia String.
From stdpp Require Import prelude list.
From S2P Require Import Prelude Str Retry Timing Wait Json Errors.

Local Open Scope Z_scope.

(** ** Data *)

(** The fields of [ClaimedJob] the worker reads. *)
Record ClaimedJob := {
  job_id : str;
  benchmark_id : str;
  time_window : str;
  client_versions : option (list str);
  spec : Value;
}.

(** [runtime_output] is always its default here and adds no field. *)
Record FailureSubmission := {
  message_type : str;
  fs_job_id : str;
  fs_benchmark_id : str;
  failure_reason : str;
  fs_retriable : bool;
  client_version : str;
  fs_device_time_ms : option Z;
}.

(** What [POST /benchmarks] carries. *)
Inductive Body :=
| SuccessBody (v : Value)
| FailureBody (f : FailureSubmission).

(** ** The server *)

Class MgmtApi (W : Type) := {
  api_claim : W -> result (option ClaimedJob) MgmtError * W;
  api_heartbeat : str -> W -> result unit MgmtError * W;
  api_reclaim : str -> W -> result unit MgmtError * W;
  (** The answer names the job the server filed the body under. *)
  api_submit_result : Body -> W -> result str MgmtError * W;
}.

(** ** Bodies *)

Definition attach_claim_to_success_payload (payload : Value) (job : ClaimedJob)
    : result Value anyhow_error :=
  match payload with
  | Object obj => Ok (Object (assoc_insert (lit "job_id") (String (job_id job)) obj))
  | _ => Err (error_of OtherCause (lit "submission payload is not a JSON object"))
  end.

Section Failure.
Context (CLIENT_VERSION : str).

Definition from_claim (job : ClaimedJob) (reason : str) (retriable : bool) (version : str)
    : FailureSubmission :=
  {| message_type := lit "failure"; fs_job_id := job_id job;
     fs_benchmark_id := benchmark_id job; failure_reason := reason;
     fs_retriable := retriable; client_version := version; fs_device_time_ms := None |}.

Definition failure_from_claim (job : ClaimedJob) (reason : str) (retriable : bool)
    (device_time_ms : option Z) : FailureSubmission :=
  let f := from_claim job reason retriable CLIENT_VERSION in
  {| message_type := message_type f; fs_job_id := fs_job_id f;
     fs_benchmark_id := fs_benchmark_id f; failure_reason := failure_reason f;
     fs_retriable := fs_retriable f; client_version := client_version f;
     fs_device_time_ms := device_time_ms |}.
End Failure.

Definition device_time_ms (device_time : Z) : Z :=
  if as_millis device_time <=? u64_max then as_millis device_time else u64_max.

(** ** Which failures are retriable *)

Definition MEASURING_PROGRAMS : list str := [lit "llama-bench"; lit "llama-batched-bench"].

Definition MODEL_LOAD_FAILED : list str :=
  [lit "failed to load model"; lit "error loading model";
   lit "exiting due to model loading error"].

Definition LOAD_FAILED_ON_FILE_OR_MEMORY : list str :=
  [lit "failed to open"; lit "failed to read magic"; lit "corrupted or incomplete";
   lit "unable to allocate"; lit "failed to allocate"; lit "out of memory";
   lit "cannot allocate memory"; lit "not enough memory resources";
   lit "paging file is too small"; lit "outofdevicememory"; lit "outofhostmemory"].

Definition DSP_REFUSED_OP : str := lit "dsp-error no-support".

Definition non_retriable_markers : list str :=
  [lit "benchmark not found"; lit "is not a known, valid definition";
   lit "runs on-device only"; DSP_REFUSED_OP].

Definition contains_any (s : str) (ms : list str) : bool := existsb (contains s) ms.

Definition is_ready_error (c : cause) : bool :=
  match c with ReadyCause _ => true | _ => false end.

Definition measuring_timed_out (c : cause) : bool :=
  match c with
  | ExitCause (ExitTimedOut name _ _) => existsb (str_eqb name) MEASURING_PROGRAMS
  | _ => false
  end.

Definition measurement_timed_out (err : anyhow_error) : bool :=
  existsb measuring_timed_out (chain err)
  || (is_stopped err && negb (existsb is_ready_error (chain err))
      && existsb is_timeout (chain err)).

Definition quoted_tail (c : cause) : option str :=
  match c with
  | ExitCause (ExitFailed _ _ tail) => Some (to_ascii_lowercase tail)
  | ReadyCause (ReadyExited _ _ tail) => Some (to_ascii_lowercase tail)
  | _ => None
  end.

Definition model_failed_to_load (err : anyhow_error) : bool :=
  existsb (fun c => match quoted_tail c with
                    | Some tail => contains_any tail MODEL_LOAD_FAILED
                        && negb (contains_any tail LOAD_FAILED_ON_FILE_OR_MEMORY)
                    | None => false
                    end) (chain err).

Definition is_unrunnable (c : cause) : bool :=
  match c with UnrunnableCause => true | _ => false end.

Definition is_permanent_vault (c : cause) : bool :=
  match c with VaultCause e => is_permanent e | _ => false end.

Definition classify_run_error (err : anyhow_error) : bool :=
  if existsb is_unrunnable (chain err) then false
  else if existsb is_permanent_vault (chain err) then false
  else if measurement_timed_out err || model_failed_to_load err then false
  else
    let msg := to_ascii_lowercase (display_chain err) in
    negb (contains_any msg non_retriable_markers).

(** ** The reason *)

Definition MAX_DETAIL_BYTES : Z := 8 * 1024.

(** [detail.get(..n)] and [detail.get(n..)]. *)
Definition get_to (s : str) (n : Z) : option str := fst <$> split_at_checked n s.
Definition get_from (s : str) (n : Z) : option str := snd <$> split_at_checked n s.

Definition elision (dropped : Z) : str :=
  [10] ++ lit "[... " ++ show_uint dropped ++ lit " bytes elided ...]" ++ [10].

Definition elide_middle (detail : str) : str :=
  if str_len detail <=? MAX_DETAIL_BYTES then detail
  else
    let head_budget := MAX_DETAIL_BYTES / 2 in
    let tail_budget := MAX_DETAIL_BYTES - head_budget in
    let head := floor_char_boundary head_budget detail in
    let tail := ceil_char_boundary (str_len detail - tail_budget) detail in
    let dropped := tail - head in
    default [] (get_to detail head) ++ elision dropped ++ default [] (get_from detail tail).

(** Over the clock's RFC 3339 text, if it has one. *)
Definition format_failure_reason (now_text : option str) (detail : str) : str :=
  lit "[" ++ default (lit "unknown-time") now_text ++ lit "] " ++ elide_middle detail.

(** ** The endpoints *)

Inductive ClaimPoll :=
| Job (job : ClaimedJob)
| Idle
| ClaimRefused (e : MgmtError)
| ClaimTransient (e : MgmtError)
| ClaimFatal (e : MgmtError).

Inductive LeaseKeepalive := KeepOk | Abort | KeepRetry.

Inductive SubmitDisposition :=
| Accepted (accepted_id : str)
| Dropped
| RetryTransient
| Fatal (e : MgmtError).

Definition has_status (e : MgmtError) (s : Z) : bool := bool_decide (http_status e = Some s).

Section Endpoints.
Context {W : Type} `{MgmtApi W}.

Definition poll_claim (w : W) : ClaimPoll * W :=
  let '(r, w) := api_claim w in
  (match r with
   | Ok (Some job) => Job job
   | Ok None => Idle
   | Err e =>
       if has_status e 403 then ClaimRefused e
       else if is_transient e then ClaimTransient e
       else ClaimFatal e
   end, w).

Definition keepalive_lease (id : str) (w : W) : LeaseKeepalive * W :=
  let '(r, w) := api_heartbeat id w in
  match r with
  | Ok _ => (KeepOk, w)
  | Err e =>
      if has_status e 409 then (Abort, w)
      else if has_status e 404 then
        let '(rr, w) := api_reclaim id w in
        (match rr with
         | Ok _ => KeepOk
         | Err re =>
             if has_status re 404 || has_status re 409 then Abort
             else if is_transient re then KeepRetry
             else Abort
         end, w)
      else if is_transient e then (KeepRetry, w)
      else (KeepRetry, w)
  end.

Definition try_submit_plan_result (id : str) (payload : Body) (w : W) : SubmitDisposition * W :=
  let '(r, w) := api_submit_result payload w in
  match r with
  | Ok accepted => (Accepted accepted, w)
  | Err e =>
      if has_status e 409 then (Dropped, w)
      else if has_status e 404 then
        let '(rr, w) := api_reclaim id w in
        (match rr with
         | Ok _ => RetryTransient
         | Err re =>
             if has_status re 404 || has_status re 409 then Dropped
             else if is_transient re then RetryTransient
             else Dropped
         end, w)
      else if is_transient e then (RetryTransient, w)
      else (Fatal e, w)
  end.

Definition SUBMIT_BACKOFF_FIRST : Z := from_secs 1.
Definition SUBMIT_BACKOFF_CAP : Z := from_secs 30.
Definition SUBMIT_ATTEMPTS : Z := 32.

Definition submit_attempt (id : str) (payload : Body) (_ : Z) (w : W)
    : control_flow SubmitDisposition unit * W :=
  let '(d, w) := try_submit_plan_result id payload w in
  (match d with
   | RetryTransient => Continue tt
   | Accepted _ | Dropped | Fatal _ => Break d
   end, w).

Definition submit_plan_result_with_backoff (id : str) (payload : Body)
    (sleep : Z -> W -> control_flow unit unit * W) (w : W) : SubmitDisposition * W :=
  let '(settled, w) :=
    retry_with_backoff SUBMIT_BACKOFF_FIRST SUBMIT_BACKOFF_CAP (submit_attempt id payload) sleep
      (seqZ 1 SUBMIT_ATTEMPTS) w in
  (default RetryTransient settled, w).
End Endpoints.

(** ** Traces *)

(** A call to the server with its answer, a wait, cut short or not, and what a worker does
    to a job and its stores. *)
Inductive event :=
| EClaim (r : result (option ClaimedJob) MgmtError)
| EHeartbeat (id : str) (r : result unit MgmtError)
| EReclaim (id : str) (r : result unit MgmtError)
| ESubmit (body : Body) (r : result str MgmtError)
| ESleep (d : Z) (cut : bool)
| ERan (id : str)
| EStored (id : str)
| EMarkerRemoved.

Section Traced.
Context {W : Type} `{MgmtApi W}.

#[export] Instance traced_api : MgmtApi (W * list event) := {
  api_claim := fun w => let '(r, w') := api_claim w.1 in (r, (w', w.2 ++ [EClaim r]));
  api_heartbeat := fun id w =>
    let '(r, w') := api_heartbeat id w.1 in (r, (w', w.2 ++ [EHeartbeat id r]));
  api_reclaim := fun id w =>
    let '(r, w') := api_reclaim id w.1 in (r, (w', w.2 ++ [EReclaim id r]));
  api_submit_result := fun b w =>
    let '(r, w') := api_submit_result b w.1 in (r, (w', w.2 ++ [ESubmit b r]));
}.

Definition is_break {A B} (c : control_flow A B) : bool :=
  match c with Break _ => true | Continue _ => false end.

Definition traced_sleep (sleep : Z -> W -> control_flow unit unit * W) (d : Z)
    (w : W * list event) : control_flow unit unit * (W * list event) :=
  let '(c, w') := sleep d w.1 in (c, (w', w.2 ++ [ESleep d (is_break c)])).
End Traced.

Definition submits_of (tr : list event) : list Body :=
  omap (fun e => match e with ESubmit b _ => Some b | _ => None end) tr.

Definition sleeps_of (tr : list event) : list Z :=
  omap (fun e => match e with ESleep d _ => Some d | _ => None end) tr.

Definition total (l : list Z) : Z := foldr Z.add 0 l.

(** ** What a submission may do *)

Section SubmitSpec.
Context (id : str) (payload : Body).

(** One attempt: the body once, and a reclaim after a [404] only. *)
Inductive submit_try : list event -> SubmitDisposition -> Prop :=
| try_accepted a : submit_try [ESubmit payload (Ok a)] (Accepted a)
| try_superseded e :
    http_status e = Some 409 -> submit_try [ESubmit payload (Err e)] Dropped
| try_transient e :
    is_transient e = true -> submit_try [ESubmit payload (Err e)] RetryTransient
| try_refused e :
    is_transient e = false -> http_status e <> Some 409 -> http_status e <> Some 404 ->
    submit_try [ESubmit payload (Err e)] (Fatal e)
| try_reclaimed e r :
    http_status e = Some 404 -> (r = Ok tt \/ exists re, r = Err re /\ is_transient re = true) ->
    submit_try [ESubmit payload (Err e); EReclaim id r] RetryTransient
| try_lost e re :
    http_status e = Some 404 -> is_transient re = false ->
    submit_try [ESubmit payload (Err e); EReclaim id (Err re)] Dropped.

Definition submit_wait (n : Z) : Z :=
  exponential_backoff n SUBMIT_BACKOFF_FIRST SUBMIT_BACKOFF_CAP.

(** A run from attempt [n]. *)
Inductive submit_run : Z -> list event -> SubmitDisposition -> Prop :=
| run_settled n tr d :
    submit_try tr d -> d <> RetryTransient -> submit_run n tr d
| run_stopped n tr :
    submit_try tr RetryTransient ->
    submit_run n (tr ++ [ESleep (submit_wait n) true]) RetryTransient
| run_exhausted tr :
    submit_try tr RetryTransient ->
    submit_run SUBMIT_ATTEMPTS (tr ++ [ESleep (submit_wait SUBMIT_ATTEMPTS) false]) RetryTransient
| run_again n tr tr' d :
    n < SUBMIT_ATTEMPTS -> submit_try tr RetryTransient -> submit_run (n + 1) tr' d ->
    submit_run n (tr ++ ESleep (submit_wait n) false :: tr') d.

Lemma submit_try_events tr d :
  submit_try tr d -> submits_of tr = [payload] /\ sleeps_of tr = [].
Proof. by intros []. Qed.
End SubmitSpec.

(** One heartbeat: a reclaim only after a [404], and the lease given up only when the server
    says another holds it, or refuses the reclaim. *)
Inductive keep_try (id : str) : list event -> LeaseKeepalive -> Prop :=
| keep_renewed : keep_try id [EHeartbeat id (Ok tt)] KeepOk
| keep_conflict e :
    http_status e = Some 409 -> keep_try id [EHeartbeat id (Err e)] Abort
| keep_unsure e :
    http_status e <> Some 409 -> http_status e <> Some 404 ->
    keep_try id [EHeartbeat id (Err e)] KeepRetry
| keep_reclaimed e :
    http_status e = Some 404 ->
    keep_try id [EHeartbeat id (Err e); EReclaim id (Ok tt)] KeepOk
| keep_reclaim_refused e re :
    http_status e = Some 404 -> is_transient re = false ->
    keep_try id [EHeartbeat id (Err e); EReclaim id (Err re)] Abort
| keep_reclaim_later e re :
    http_status e = Some 404 -> is_transient re = true ->
    keep_try id [EHeartbeat id (Err e); EReclaim id (Err re)] KeepRetry.

Lemma has_status_spec e s : has_status e s = true <-> http_status e = Some s.
Proof. apply bool_decide_eq_true. Qed.

Lemma has_status_false e s : has_status e s = false <-> http_status e <> Some s.
Proof. apply bool_decide_eq_false. Qed.

(** A status that is transient is a [5xx]. *)
Lemma status_not_transient e s :
  http_status e = Some s -> s < 500 -> is_transient e = false.
Proof. destruct e; simpl; intros; simplify_eq; try done. by apply Z.leb_gt. Qed.

Lemma submits_of_app a b : submits_of (a ++ b) = submits_of a ++ submits_of b.
Proof. apply omap_app. Qed.

Lemma sleeps_of_app a b : sleeps_of (a ++ b) = sleeps_of a ++ sleeps_of b.
Proof. apply omap_app. Qed.

Section SubmitLemmas.
Context {W : Type} `{MgmtApi W} (id : str) (payload : Body).

Lemma try_submit_traced (w : W) tr0 :
  exists d w' tr, try_submit_plan_result id payload (w, tr0) = (d, (w', tr0 ++ tr)) /\
  submit_try id payload tr d.
Proof.
  unfold try_submit_plan_result. cbn.
  destruct (api_submit_result payload w) as [[a|e] w1] eqn:E; cbn.
  { eexists _, _, _. split; [done|constructor]. }
  destruct (has_status e 409) eqn:E1; [apply has_status_spec in E1|apply has_status_false in E1].
  { eexists _, _, _. split; [done|by constructor]. }
  destruct (has_status e 404) eqn:E2; [apply has_status_spec in E2|apply has_status_false in E2].
  - destruct (api_reclaim id w1) as [[[]|re] w2] eqn:Er; cbn.
    { eexists _, _, [_; _]. rewrite <- app_assoc. split; [done|]. constructor; auto. }
    assert (is_transient re = false ->
      exists d w' tr, (Dropped, (w2, (tr0 ++ [ESubmit payload (Err e)]) ++ [EReclaim id (Err re)]))
        = (d, (w', tr0 ++ tr)) /\ submit_try id payload tr d) as Hlost.
    { intros Ht. eexists _, _, [_; _]. rewrite <- app_assoc. split; [done|]. by constructor. }
    destruct (has_status re 404) eqn:E3; [|destruct (has_status re 409) eqn:E4]; cbn.
    + apply has_status_spec in E3. apply Hlost. by eapply status_not_transient.
    + apply has_status_spec in E4. apply Hlost. by eapply status_not_transient.
    + destruct (is_transient re) eqn:Et; [|by apply Hlost].
      eexists _, _, [_; _]. rewrite <- app_assoc. split; [done|]. constructor; eauto.
  - destruct (is_transient e) eqn:Et; eexists _, _, _; (split; [done|by constructor]).
Qed.

Lemma keepalive_traced (w : W) tr0 :
  exists k w' tr, keepalive_lease id (w, tr0) = (k, (w', tr0 ++ tr)) /\ keep_try id tr k.
Proof.
  unfold keepalive_lease. cbn.
  destruct (api_heartbeat id w) as [[[]|e] w1]; cbn.
  { eexists _, _, _. split; [done|constructor]. }
  destruct (has_status e 409) eqn:E1; [apply has_status_spec in E1|apply has_status_false in E1].
  { eexists _, _, _. split; [done|by constructor]. }
  destruct (has_status e 404) eqn:E2; [apply has_status_spec in E2|apply has_status_false in E2].
  - destruct (api_reclaim id w1) as [[[]|re] w2]; cbn.
    { eexists _, _, [_; _]. rewrite <- app_assoc. split; [done|]. by constructor. }
    destruct (is_transient re) eqn:Et.
    + assert (has_status re 404 || has_status re 409 = false) as ->.
      { apply orb_false_iff; split; apply has_status_false; intros Hs;
          by rewrite (status_not_transient _ _ Hs) in Et. }
      eexists _, _, [_; _]. rewrite <- app_assoc. split; [done|]. by constructor.
    + eexists _, _, [_; _]. rewrite <- app_assoc.
      split; [by destruct (_ || _)|]. by constructor.
  - destruct (is_transient e); eexists _, _, _; (split; [done|by constructor]).
Qed.

Lemma retry_submit_traced sleep m n (w : W) tr0 :
  n + Z.of_nat m = SUBMIT_ATTEMPTS + 1 -> (0 < m)%nat ->
  exists d w' tr,
    (let '(settled, w2) :=
       retry_with_backoff SUBMIT_BACKOFF_FIRST SUBMIT_BACKOFF_CAP (submit_attempt id payload)
         (traced_sleep sleep) (seqZ n (Z.of_nat m)) (w, tr0) in
     (default RetryTransient settled, w2)) = (d, (w', tr0 ++ tr)) /\
    submit_run id payload n tr d.
Proof.
  revert n w tr0; induction m as [|m IH]; intros n w tr0 Hn Hm; [lia|].
  rewrite seqZ_cons by lia. replace (Z.pred (Z.of_nat (S m))) with (Z.of_nat m) by lia.
  cbn [retry_with_backoff]. unfold submit_attempt at 1.
  destruct (try_submit_traced w tr0) as (d & w1 & tr1 & -> & Ht).
  destruct d; try (eexists _, _, _; split; [done|by constructor]).
  unfold traced_sleep at 1. cbn [fst snd].
  destruct (sleep _ w1) as [[[]|[]] w2] eqn:Es; cbn [is_break].
  - eexists _, _, _. rewrite <- app_assoc. split; [done|]. by apply run_stopped.
  - destruct (decide (m = 0%nat)) as [->|Hm0].
    + cbn. eexists _, _, _. rewrite <- app_assoc. split; [done|].
      replace n with SUBMIT_ATTEMPTS by lia. by apply run_exhausted.
    + destruct (IH (Z.succ n) w2 ((tr0 ++ tr1) ++
        [ESleep (exponential_backoff n SUBMIT_BACKOFF_FIRST SUBMIT_BACKOFF_CAP) false]))
        as (d & w' & tr & Hr & Hrun); [lia|lia|].
      rewrite Hr. eexists _, _, _. split.
      * by rewrite <- !app_assoc.
      * apply run_again; [lia|done|]. by replace (n + 1) with (Z.succ n) by lia.
Qed.

Lemma submit_traced sleep (w : W) tr0 :
  exists d w' tr,
    submit_plan_result_with_backoff id payload (traced_sleep sleep) (w, tr0) =
      (d, (w', tr0 ++ tr)) /\ submit_run id payload 1 tr d.
Proof. apply (retry_submit_traced sleep 32 1 w tr0); [done|lia]. Qed.

(** The waits of a run add up to the schedule of the attempts it made. *)
Lemma submit_run_bounds n tr d :
  1 <= n <= SUBMIT_ATTEMPTS -> submit_run id payload n tr d ->
  Forall (eq payload) (submits_of tr) /\
  1 <= Z.of_nat (length (submits_of tr)) <= SUBMIT_ATTEMPTS - n + 1 /\
  0 <= total (sleeps_of tr) <= total (map submit_wait (seqZ n (SUBMIT_ATTEMPTS - n + 1))).
Proof.
  assert (forall k, 0 <= submit_wait k) as Hw.
  { intros k. apply exponential_backoff_range; vm_compute; congruence. }
  assert (forall l, 0 <= total (map submit_wait l)) as Hl.
  { induction l as [|k l IHl]; simpl; [lia|]. pose proof (Hw k). unfold total in *. lia. }
  intros Hn Hr. induction Hr as [n tr d Ht Hd|n tr Ht|tr Ht|n tr tr' d Hlt Ht Hr IH];
    apply submit_try_events in Ht as [Hs Hz];
    rewrite ?submits_of_app, ?sleeps_of_app, ?Hs, ?Hz; cbn;
    rewrite ?Forall_singleton, seqZ_cons by lia; cbn.
  - split_and!; auto; try lia. pose proof (Hw n).
    pose proof (Hl (seqZ (Z.succ n) (Z.pred (SUBMIT_ATTEMPTS - n + 1)))). unfold total in *. lia.
  - split_and!; auto; try lia; pose proof (Hw n);
    pose proof (Hl (seqZ (Z.succ n) (Z.pred (SUBMIT_ATTEMPTS - n + 1)))); unfold total in *; lia.
  - pose proof (Hw SUBMIT_ATTEMPTS). split_and!; auto; try lia;
    pose proof (Hl (seqZ (Z.succ SUBMIT_ATTEMPTS)
      (Z.pred (SUBMIT_ATTEMPTS - SUBMIT_ATTEMPTS + 1)))); unfold total in *; lia.
  - destruct IH as (IH1 & IH2 & IH3); [lia|]. pose proof (Hw n).
    replace (Z.succ n) with (n + 1) by lia.
    replace (Z.pred (SUBMIT_ATTEMPTS - n + 1)) with (SUBMIT_ATTEMPTS - (n + 1) + 1) by lia.
    unfold total, submits_of, sleeps_of in *. split_and!; try lia. by constructor.
Qed.
End SubmitLemmas.

(** ** The elided reason *)

Lemma prefixes_ordered (a b a' b' : str) :
  a ++ b = a' ++ b' -> str_len a <= str_len a' -> exists mid, a' = a ++ mid /\ b = mid ++ b'.
Proof.
  revert a'; induction a as [|c a IH]; intros a' H Hl; [by exists a'|].
  pose proof (len_utf8_pos c). pose proof (str_len_nonneg a).
  destruct a' as [|c' a']; simpl in *; [lia|]. simplify_eq.
  destruct (IH a') as (mid & -> & ->); [done|lia|]. by exists mid.
Qed.

Lemma get_to_app a b : get_to (a ++ b) (str_len a) = Some a.
Proof. unfold get_to. by rewrite split_at_checked_app. Qed.

Lemma get_from_app a b : get_from (a ++ b) (str_len a) = Some b.
Proof. unfold get_from. by rewrite split_at_checked_app. Qed.

(** ** Theorems *)

(** [elide_middle] keeps a detail of at most 8 KiB as it is. A longer one keeps a head
    and a tail of at most 4 KiB each, cut between characters and at most three bytes short,
    and names the bytes between them: nothing else is lost and none of it is reordered. *)
Theorem elide_middle_correct (detail : str) :
  (str_len detail <= MAX_DETAIL_BYTES /\ elide_middle detail = detail) \/
  (MAX_DETAIL_BYTES < str_len detail /\
   exists head mid tail,
     detail = head ++ mid ++ tail /\ elide_middle detail = head ++ elision (str_len mid) ++ tail /\
     MAX_DETAIL_BYTES / 2 - 3 <= str_len head <= MAX_DETAIL_BYTES / 2 /\
     MAX_DETAIL_BYTES / 2 - 3 <= str_len tail <= MAX_DETAIL_BYTES / 2 /\ 0 < str_len mid).
Proof.
  unfold elide_middle. destruct (Z.leb_spec (str_len detail) MAX_DETAIL_BYTES); [by left|right].
  split; [done|]. change (MAX_DETAIL_BYTES - MAX_DETAIL_BYTES / 2) with 4096.
  change (MAX_DETAIL_BYTES / 2) with 4096. change MAX_DETAIL_BYTES with 8192 in *.
  destruct (floor_char_boundary_spec 4096 detail) as (a & b & Hab & Ha & Hle & Hlow); [lia|].
  destruct (ceil_char_boundary_spec (str_len detail - 4096) detail)
    as (a' & b' & Hab' & Ha' & Hge & Hup); [lia|].
  specialize (Hlow ltac:(lia)). specialize (Hup ltac:(lia)).
  destruct (prefixes_ordered a b a' b') as (mid & -> & ->); [congruence|lia|].
  rewrite <- Ha, <- Ha'. exists a, mid, b'. rewrite str_len_app in *. cbv zeta.
  assert (str_len detail = str_len a + str_len mid + str_len b') as Hlen.
  { rewrite Hab, !str_len_app. lia. }
  split; [done|]. split; [|lia].
  rewrite Hab at 1. rewrite get_to_app. rewrite <- str_len_app, Hab', get_from_app, str_len_app.
  cbn [default]. do 3 f_equal. lia.
Qed.

(** A submission, whatever the server answers and however the waits end, is a run of
    [submit_run]: it sends the one body it was given, at most 32 times, reclaims only
    between a [404] and the next send, and stops at the first answer that settles it. It
    says [RetryTransient] only when a wait was cut short or all 32 attempts were transient,
    and its waits add up to at most 841 seconds. *)
Theorem submit_with_backoff_correct {W} `{MgmtApi W} (id : str) (payload : Body)
    (sleep : Z -> W -> control_flow unit unit * W) (w : W) :
  exists d w' tr,
    submit_plan_result_with_backoff id payload (traced_sleep sleep) (w, []) = (d, (w', tr)) /\
    submit_run id payload 1 tr d /\
    Forall (eq payload) (submits_of tr) /\
    1 <= Z.of_nat (length (submits_of tr)) <= 32 /\
    total (sleeps_of tr) <= from_secs 841.
Proof.
  destruct (submit_traced id payload sleep w []) as (d & w' & tr & Hr & Hrun).
  destruct (submit_run_bounds id payload 1 tr d) as (H1 & H2 & H3); [done|done|].
  assert (total (map submit_wait (seqZ 1 (SUBMIT_ATTEMPTS - 1 + 1))) = from_secs 841) as Hsum
    by (vm_compute; reflexivity).
  change (SUBMIT_ATTEMPTS - 1 + 1) with 32 in H2. rewrite Hsum in H3.
  exists d, w', tr. split; [exact Hr|]. split_and!; try done; lia.
Qed.
