(* ===== verification/Worker.v ===== *)
(** * The worker ([crates/pipette-cli/src/commands/worker.rs])

    The daemon that claims jobs, runs them under a heartbeat and reports what came of them.
    The host is the class [WorkerHost]: the server ([MgmtApi]), the clock, the stop flag and
    the sleep ([Host]), the job's execution, the marker and the local stores. The heartbeat
    thread shares with the run only the [lease_lost] flag, which is read after the join, so
    its ticks come before the run's result here; how many there are is the host's choice. *)

From Stdlib Require Import ZArith Lia String.
From stdpp Require Import prelude list.
From S2P Require Import Prelude Str Retry Timing Wait Json Errors Protocol.
From S2P Require InFlight.

Local Open Scope Z_scope.
Local Open Scope rust_scope.

(** ** Data *)

Inductive ClientStatus := Pending | Approved | OtherStatus (name : str).

Record Profile := { status : ClientStatus; permissions : option (list str) }.

Record WorkerArgs := {
  idle_secs : Z;
  idle_jitter_secs : Z;
  heartbeat_secs : option Z;
  max_jobs : Z;
  skip_profile_refresh : bool;
}.

(** ** The host

    [Pl] is the result a run produces, [X] its extras and [D] the digest of an eval's
    checkpoint. *)

Class WorkerHost (W Pl X D : Type) := {
  worker_api :: MgmtApi W;
  worker_host :: Host W;
  random_u64 : W -> Z * W;
  (** The UTC time as RFC 3339, if it formats. *)
  utc_now : W -> Z * W;
  utc_text : W -> option str * W;
  (** The signing identity, the server's address and the device labels. *)
  read_registration : W -> result unit anyhow_error * W;
  installed_runtime_capabilities : W -> result (list str) anyhow_error * W;
  refresh_profile_at_startup :
    list str -> W -> result (option Profile) anyhow_error * W;
  reap_orphans : W -> W;
  execute_job : ClaimedJob -> W -> result (Pl * X * option D) anyhow_error * W;
  (** The number of times the heartbeat's wait ran out while the job executed. *)
  heartbeat_ticks : ClaimedJob -> W -> nat * W;
  with_device_time : Z -> Pl -> Pl;
  device_time_of : Pl -> option Z;
  payload_to_value : Pl -> result Value anyhow_error;
  marker_read : W -> result (option InFlight.InFlight) str * W;
  marker_remove : W -> result unit str * W;
  in_flight_start : InFlight.InFlight -> W -> result unit str * W;
  in_flight_drop : W -> W;
  store_completed_result : str -> Pl -> X -> W -> W;
  finalize_eval_checkpoint : option D -> W -> W;
}.

(** ** Small decisions *)

Definition is_cancelled_cause (c : cause) : bool :=
  match c with ReadinessCause Cancelled => true | _ => false end.

Definition was_cancelled (err : anyhow_error) : bool := existsb is_cancelled_cause (chain err).

Definition is_held_touch (c : cause) : bool :=
  match c with ReadinessCause (HeldTouch _ _) => true | _ => false end.

Definition stopped_by_held_touch (err : anyhow_error) : bool :=
  existsb is_held_touch (chain err).

Definition PERFORM_WORK : str := lit "perform_work".

Definition missing_worker_permission (permissions : option (list str)) : option str :=
  match permissions with
  | None => None
  | Some held => if existsb (fun p => str_eqb p PERFORM_WORK) held then None else Some PERFORM_WORK
  end.

Definition reboot_failure_reason (old_boot_id new_boot_id : str) (boot_reason : option str) : str :=
  let reason :=
    lit "device rebooted during this job (old boot ID: " ++ old_boot_id ++
    lit "; new boot ID: " ++ new_boot_id ++ lit ")" in
  match boot_reason with
  | Some r => reason ++ lit "; sys.boot.reason: " ++ r
  | None => reason
  end.

Section Worker.
Context {W Pl X D : Type} `{WH : WorkerHost W Pl X D}.
Context (CLIENT_VERSION : str).

(** The fuel of [sleep_cancellably] covers its waits. *)
Definition sleep_interruptible (total : Z) (w : W) : control_flow unit unit * W :=
  default (Continue tt, w) (sleep_cancellably total w).

(** ** Claiming *)

Definition CLAIM_BACKOFF_FIRST : Z := from_secs 1.
Definition CLAIM_BACKOFF_CAP : Z := from_secs 60.

(** It retries a server that is down for as long as it takes. The outer [None] is a claim
    that is still going after [fuel] attempts. *)
Fixpoint claim_with_retry_loop (fuel : nat) (sleep : Z -> W -> control_flow unit unit * W)
    (attempt : Z) (w : W) : option (option ClaimPoll) * W :=
  match fuel with
  | O => (None, w)
  | S fuel =>
      let attempt := attempt + 1 in
      let '(poll, w) := poll_claim w in
      match poll with
      | ClaimTransient _ =>
          match sleep (exponential_backoff attempt CLAIM_BACKOFF_FIRST CLAIM_BACKOFF_CAP) w with
          | (Break _, w) => (Some None, w)
          | (Continue _, w) => claim_with_retry_loop fuel sleep attempt w
          end
      | Job _ | Idle | ClaimRefused _ | ClaimFatal _ => (Some (Some poll), w)
      end
  end.

Definition claim_with_retry (fuel : nat) (sleep : Z -> W -> control_flow unit unit * W) (w : W)
    : option (option ClaimPoll) * W :=
  claim_with_retry_loop fuel sleep 0 w.

(** ** The heartbeat thread *)

Definition RETRY_FIRST : Z := from_secs 2.

(** [lease_lost] as the thread leaves it. [waiting] is what a [recv_timeout] that runs out
    does to the world; after [ticks] of them the channel is disconnected. *)
Fixpoint heartbeat_thread (waiting : Z -> W -> W) (id : str) (every : Z) (ticks : nat)
    (wait failures : Z) (w : W) : bool * W :=
  match ticks with
  | O => (false, w)
  | S ticks =>
      let w := waiting wait w in
      let '(k, w) := keepalive_lease id w in
      match k with
      | KeepOk => heartbeat_thread waiting id every ticks every 0 w
      | Abort => (true, w)
      | KeepRetry =>
          let failures := sat_add u32_max failures 1 in
          let '(wait, w) :=
            jittered random_u64 (exponential_backoff failures RETRY_FIRST (every / 4)) w in
          heartbeat_thread waiting id every ticks wait failures w
      end
  end.

Definition spawn_heartbeat (waiting : Z -> W -> W) (id : str) (every : Z) (ticks : nat) (w : W)
    : bool * W :=
  heartbeat_thread waiting id every ticks every 0 w.

(** ** Reporting *)

Definition post_completion (id : str) (payload : Body)
    (sleep : Z -> W -> control_flow unit unit * W) (w : W) : result bool anyhow_error * W :=
  let '(d, w) := submit_plan_result_with_backoff id payload sleep w in
  (match d with
   | Accepted _ => Ok true
   | Dropped => Ok true
   | RetryTransient => Ok false
   | Fatal e => Err (error_of (SubmitRefusedCause e) (lit "submit refused"))
   end, w).

Definition submit_failure (sleep : Z -> W -> control_flow unit unit * W) (job : ClaimedJob)
    (reason : str) (retriable : bool) (device_time_ms : option Z) (w : W)
    : result bool anyhow_error * W :=
  post_completion (job_id job)
    (FailureBody (failure_from_claim CLIENT_VERSION job reason retriable device_time_ms)) sleep w.

(** The server's answer as the reason quotes it. *)
Context (display_mgmt : MgmtError -> str).

Definition delivered_or_not {A} (r : result A anyhow_error) : result unit anyhow_error :=
  match r with Ok _ => Ok tt | Err e => Err e end.

Definition report_refused_submission (sleep : Z -> W -> control_flow unit unit * W)
    (job : ClaimedJob) (refused : MgmtError) (device_time_ms : option Z) (w : W)
    : result unit anyhow_error * W :=
  let '(text, w) := utc_text w in
  let reason := format_failure_reason text
    (lit "this run's result could not be submitted: " ++ display_mgmt refused) in
  let '(r, w) := submit_failure sleep job reason true device_time_ms w in
  (delivered_or_not r, w).

Definition submit_success (sleep : Z -> W -> control_flow unit unit * W) (job : ClaimedJob)
    (payload : Pl) (extras : X) (eval_checkpoint : option D) (w : W)
    : result unit anyhow_error * W :=
  match payload_to_value payload with
  | Err e => (Err e, w)
  | Ok body =>
      match attach_claim_to_success_payload body job with
      | Err e => (Err e, w)
      | Ok body =>
          match post_completion (job_id job) (SuccessBody body) sleep w with
          | (Ok true, w) =>
              let w := store_completed_result (job_id job) payload extras w in
              (Ok tt, finalize_eval_checkpoint eval_checkpoint w)
          | (Ok false, w) => (Ok tt, w)
          | (Err e, w) =>
              match as_submit_refused e with
              | Some refused =>
                  report_refused_submission sleep job refused (device_time_of payload) w
              | None => (Err e, w)
              end
          end
      end
  end.

Definition submit_finished_run (sleep : Z -> W -> control_flow unit unit * W)
    (job : ClaimedJob) (run_result : result (Pl * X * option D) anyhow_error) (elapsed : Z)
    (lease_lost : bool) (w : W) : result unit anyhow_error * W :=
  let report (w : W) : result unit anyhow_error * W :=
    if lease_lost then (Ok tt, w)
    else
      match run_result with
      | Ok (payload, extras, eval_checkpoint) =>
          submit_success sleep job (with_device_time (device_time_ms elapsed) payload) extras
            eval_checkpoint w
      | Err err =>
          let '(stop, w) := is_cancelled w in
          if stop && was_cancelled err then (Ok tt, w)
          else
            let retriable := classify_run_error err in
            let '(text, w) := utc_text w in
            let reason := format_failure_reason text (display_chain err) in
            let '(r, w) :=
              submit_failure sleep job reason retriable (Some (device_time_ms elapsed)) w in
            (delivered_or_not r, w)
      end in
  match run_result with
  | Err err => if stopped_by_held_touch err then (Err err, w) else report w
  | Ok _ => report w
  end.

(** ** One job *)

Definition run_claimed_job (sleep : Z -> W -> control_flow unit unit * W)
    (waiting : Z -> W -> W) (job : ClaimedJob) (claimed_at : Z) (heartbeat_secs : option Z)
    (in_flight : bool) (w : W) : result unit anyhow_error * W :=
  let hb_every := resolve_heartbeat_interval (time_window job) heartbeat_secs in
  let '(ticks, w) := heartbeat_ticks job w in
  let '(lease_lost, w) := spawn_heartbeat waiting (job_id job) hb_every ticks w in
  let '(run_result, w) := execute_job job w in
  let '(t, w) := now w in
  let w := if in_flight then in_flight_drop w else w in
  submit_finished_run sleep job run_result (sat_sub t claimed_at) lease_lost w.

Context (datetime_max : Z) (boot : InFlight.Boot) (boot_reason : option str).

(** The body of the loop's [ClaimPoll::Job] arm, up to its outcome. *)
Definition handle_claim (sleep : Z -> W -> control_flow unit unit * W) (waiting : Z -> W -> W)
    (heartbeat_secs : option Z) (job : ClaimedJob) (w : W) : result unit anyhow_error * W :=
  let '(claimed_at, w) := now w in
  let '(read, w) := marker_read w in
  let previous := default None (result_ok read) in
  match InFlight.decide_claim datetime_max previous (job_id job) boot with
  | InFlight.Rebooted old new =>
      let '(text, w) := utc_text w in
      let reason := format_failure_reason text (reboot_failure_reason old new boot_reason) in
      let '(t, w) := now w in
      let '(r, w) := submit_failure sleep job reason false
        (Some (device_time_ms (sat_sub t claimed_at))) w in
      match r with
      | Ok true => let '(_, w) := marker_remove w in (Ok tt, w)
      | Ok false => (Ok tt, w)
      | Err e => (Err e, w)
      end
  | InFlight.Run | InFlight.StaleJob _ | InFlight.SameBoot | InFlight.EarlierBoot =>
      let '(utc, w) := utc_now w in
      let '(text, w) := utc_text w in
      let marker := InFlight.InFlight_new (job_id job) (InFlight.id boot) utc text in
      let '(started, w) := in_flight_start marker w in
      run_claimed_job sleep waiting job claimed_at heartbeat_secs
        (match started with Ok _ => true | Err _ => false end) w
  end.

(** ** The claim loop *)

Context (refused_text : MgmtError -> str).

Definition mgmt_error (e : MgmtError) : anyhow_error := error_of OtherCause (refused_text e).

(** The sum of the idle wait and its jitter can overflow [Duration], which panics. *)
Definition overflow_panic : anyhow_error :=
  error_of OtherCause (lit "overflow when adding durations").

(** A worker runs until it is stopped: [None] is one that is still running when its [fuel]
    rounds are over, with the state they left. *)
Fixpoint claim_loop (fuel : nat) (args : WorkerArgs)
    (sleep : Z -> W -> control_flow unit unit * W) (waiting : Z -> W -> W)
    (completed idle_rounds : Z) (w : W) : option (result unit anyhow_error) * W :=
  match fuel with
  | O => (None, w)
  | S fuel =>
      let '(stop, w) := is_cancelled w in
      if stop then (Some (Ok tt), w)
      else
        match claim_with_retry (S fuel) sleep w with
        | (None, w) => (None, w)
        | (Some None, w) => (Some (Ok tt), w)
        | (Some (Some poll), w) =>
            match poll with
            | Job job =>
                let '(outcome, w) := handle_claim sleep waiting (heartbeat_secs args) job w in
                match outcome with
                | Ok _ =>
                    let completed := completed + 1 in
                    if (0 <? max_jobs args) && (max_jobs args <=? completed) then (Some (Ok tt), w)
                    else claim_loop fuel args sleep waiting completed 0 w
                | Err e =>
                    if bool_decide (is_Some (as_submit_refused e)) then (Some (Err e), w)
                    else if stopped_by_held_touch e then (Some (Err e), w)
                    else claim_loop fuel args sleep waiting completed 0 w
                end
            | Idle =>
                match idle_wait_with_jitter random_u64 (from_secs (idle_secs args))
                        (from_secs (idle_jitter_secs args)) w with
                | (None, w) => (Some (Err overflow_panic), w)
                | (Some wait, w) =>
                    match sleep wait w with
                    | (Break _, w) => (Some (Ok tt), w)
                    | (Continue _, w) =>
                        claim_loop fuel args sleep waiting completed (idle_rounds + 1) w
                    end
                end
            | ClaimRefused e => (Some (Err (mgmt_error e)), w)
            | ClaimTransient e => (Some (Err (mgmt_error e)), w)
            | ClaimFatal e => (Some (Err (mgmt_error e)), w)
            end
        end
  end.

(** The startup gate: [Ok true] goes on to the loop, [Ok false] is a stop request during the
    refresh. *)
Definition startup_gate (args : WorkerArgs) (w : W) : result bool anyhow_error * W :=
  if skip_profile_refresh args then (Ok true, w)
  else
    match installed_runtime_capabilities w with
    | (Err e, w) => (Err e, w)
    | (Ok caps, w) =>
        match refresh_profile_at_startup caps w with
        | (Err e, w) => (Err e, w)
        | (Ok None, w) => (Ok false, w)
        | (Ok (Some profile), w) =>
            match status profile with
            | Approved =>
                match missing_worker_permission (permissions profile) with
                | Some _ =>
                    (Err (error_of OtherCause (lit "client is approved but lacks a permission")), w)
                | None => (Ok true, w)
                end
            | _ => (Err (error_of OtherCause (lit "client not approved")), w)
            end
        end
    end.

(** [run_until_stopped_on_boot]. *)
Definition run_until_stopped (fuel : nat) (args : WorkerArgs)
    (sleep : Z -> W -> control_flow unit unit * W) (waiting : Z -> W -> W) (w : W)
    : option (result unit anyhow_error) * W :=
  match read_registration w with
  | (Err e, w) => (Some (Err e), w)
  | (Ok _, w) =>
      match startup_gate args w with
      | (Err e, w) => (Some (Err e), w)
      | (Ok false, w) => (Some (Ok tt), w)
      | (Ok true, w) => claim_loop fuel args sleep waiting 0 0 (reap_orphans w)
      end
  end.

(** [WorkerArgs::execute]: every wait reads the stop flag, and the heartbeat's wait is the
    host's. *)
Definition execute (fuel : nat) (args : WorkerArgs) (w : W)
    : option (result unit anyhow_error) * W :=
  run_until_stopped fuel args sleep_interruptible sleep_for w.
End Worker.

(** ** Traces *)

Section TracedHost.
Context {W Pl X D : Type} `{WH : WorkerHost W Pl X D}.

(** Run an operation of the host under the trace. *)
Definition lift {A} (f : W -> A * W) (w : W * list event) : A * (W * list event) :=
  let '(a, w') := f w.1 in (a, (w', w.2)).

#[export] Instance traced_host : Host (W * list event) := {
  now := lift now;
  is_cancelled := lift is_cancelled;
  sleep_for := fun d w => (sleep_for d w.1, w.2 ++ [ESleep d false]);
}.

#[export] Instance traced_worker : WorkerHost (W * list event) Pl X D := {
  random_u64 := lift random_u64;
  utc_now := lift utc_now;
  utc_text := lift utc_text;
  read_registration := lift read_registration;
  installed_runtime_capabilities := lift installed_runtime_capabilities;
  refresh_profile_at_startup := fun caps => lift (refresh_profile_at_startup caps);
  reap_orphans := fun w => (reap_orphans w.1, w.2);
  execute_job := fun job w =>
    let '(r, w') := execute_job job w.1 in (r, (w', w.2 ++ [ERan (job_id job)]));
  heartbeat_ticks := fun job => lift (heartbeat_ticks job);
  with_device_time := with_device_time;
  device_time_of := device_time_of;
  payload_to_value := payload_to_value;
  marker_read := lift marker_read;
  marker_remove := fun w =>
    let '(r, w') := marker_remove w.1 in (r, (w', w.2 ++ [EMarkerRemoved]));
  in_flight_start := fun m => lift (in_flight_start m);
  in_flight_drop := fun w => (in_flight_drop w.1, w.2);
  store_completed_result := fun id p x w =>
    (store_completed_result id p x w.1, w.2 ++ [EStored id]);
  finalize_eval_checkpoint := fun d w => (finalize_eval_checkpoint d w.1, w.2);
}.
End TracedHost.

(** ** Whose turn it is

    The worker as an automaton over its own calls: it has no job, it works on one, or it
    has given up. A report, a heartbeat, a reclaim, a run or a stored result is legal only
    for the job in hand; after a refused failure report nothing is. *)

Inductive scope := Free | On (id : str) | Dead.

Definition body_job (b : Body) : option str :=
  match b with
  | SuccessBody v => get (lit "job_id") v ≫= as_str
  | FailureBody f => Some (fs_job_id f)
  end.

(** The server refused the body for good. *)
Definition refused_for_good (r : result str MgmtError) : bool :=
  match r with
  | Err e => negb (is_transient e) && negb (has_status e 409) && negb (has_status e 404)
  | Ok _ => false
  end.

Definition on_job (s : scope) (id : str) : option scope :=
  match s with
  | On id' => if str_eqb id id' then Some s else None
  | Free | Dead => None
  end.

Definition scope_step (s : scope) (e : event) : option scope :=
  match e with
  | EClaim r =>
      match s with
      | Dead => None
      | Free | On _ => Some (match r with Ok (Some job) => On (job_id job) | _ => Free end)
      end
  | EHeartbeat id _ | EReclaim id _ | ERan id | EStored id => on_job s id
  | ESubmit b r =>
      match body_job b with
      | None => None
      | Some id =>
          match on_job s id with
          | None => None
          | Some s =>
              Some (match b with
                    | FailureBody _ => if refused_for_good r then Dead else s
                    | SuccessBody _ => s
                    end)
          end
      end
  | ESleep _ _ => match s with Dead => None | _ => Some s end
  | EMarkerRemoved => match s with On _ => Some s | _ => None end
  end.

Fixpoint scope_run (s : scope) (tr : list event) : option scope :=
  match tr with
  | [] => Some s
  | e :: tr => match scope_step s e with
               | Some s => scope_run s tr
               | None => None
               end
  end.

Lemma scope_run_app s a b : scope_run s (a ++ b) = scope_run s a ≫= fun s' => scope_run s' b.
Proof.
  revert s; induction a as [|e a IH]; intros s; [done|]. cbn.
  destruct (scope_step s e); [apply IH|done].
Qed.

Lemma on_job_eq id : on_job (On id) id = Some (On id).
Proof. cbn. by rewrite (proj2 (str_eqb_eq id id) eq_refl). Qed.

(** Each attempt of a submission stays on its job, unless a failure body is refused. *)
Lemma submit_try_scope id b tr d :
  body_job b = Some id -> submit_try id b tr d ->
  scope_run (On id) tr =
    Some (match b, d with FailureBody _, Fatal _ => Dead | _, _ => On id end).
Proof.
  intros Hb Ht. pose proof (on_job_eq id) as Ho.
  destruct Ht as [a|e H|e H|e H1 H2 H3|e r H Hr|e re H Hr]; cbn [scope_run scope_step];
    rewrite Hb, Ho; cbn [refused_for_good].
  - by destruct b.
  - rewrite (proj2 (has_status_spec _ _) H), andb_false_r. by destruct b.
  - rewrite H. by destruct b.
  - rewrite H1, (proj2 (has_status_false _ _) H2), (proj2 (has_status_false _ _) H3). by destruct b.
  - rewrite (proj2 (has_status_spec _ _) H), !andb_false_r. destruct b; by rewrite Ho.
  - rewrite (proj2 (has_status_spec _ _) H), !andb_false_r. destruct b; by rewrite Ho.
Qed.

Lemma submit_run_scope id b n tr d :
  body_job b = Some id -> submit_run id b n tr d ->
  scope_run (On id) tr =
    Some (match b, d with FailureBody _, Fatal _ => Dead | _, _ => On id end).
Proof.
  intros Hb Hr. induction Hr as [n tr d Ht Hd|n tr Ht|tr Ht|n tr tr' d Hlt Ht Hr IH].
  - by apply submit_try_scope.
  - apply submit_try_scope in Ht; [|done]. rewrite scope_run_app, Ht. by destruct b.
  - apply submit_try_scope in Ht; [|done]. rewrite scope_run_app, Ht. by destruct b.
  - apply submit_try_scope in Ht; [|done]. rewrite scope_run_app, Ht.
    destruct b; cbn; by rewrite IH.
Qed.

(** ** What a heartbeat does *)

(** The thread's life from a wait of [wait]: it stops at the first lost lease, beats again
    after [every], and tries a failed beat again within a quarter of it. *)
Inductive hb_run (id : str) (every : Z) : Z -> list event -> bool -> Prop :=
| hb_end wait : hb_run id every wait [] false
| hb_ok wait tr tr' lost :
    keep_try id tr KeepOk -> hb_run id every every tr' lost ->
    hb_run id every wait (ESleep wait false :: tr ++ tr') lost
| hb_abort wait tr :
    keep_try id tr Abort -> hb_run id every wait (ESleep wait false :: tr) true
| hb_retry wait wait' tr tr' lost :
    keep_try id tr KeepRetry -> 0 <= wait' <= every / 4 -> hb_run id every wait' tr' lost ->
    hb_run id every wait (ESleep wait false :: tr ++ tr') lost.

(** ** What a claim does *)

Definition poll_of (r : result (option ClaimedJob) MgmtError) : ClaimPoll :=
  match r with
  | Ok (Some job) => Job job
  | Ok None => Idle
  | Err e =>
      if has_status e 403 then ClaimRefused e
      else if is_transient e then ClaimTransient e
      else ClaimFatal e
  end.

Definition is_claim_transient (p : ClaimPoll) : bool :=
  match p with ClaimTransient _ => true | _ => false end.

Definition claim_wait (n : Z) : Z := exponential_backoff n CLAIM_BACKOFF_FIRST CLAIM_BACKOFF_CAP.

(** A claim from attempt [n]: transient answers with the schedule's wait after each, then
    the answer that is none, a wait that was cut short, or the claim is still going. *)
Inductive claim_run : Z -> list event -> option (option ClaimPoll) -> Prop :=
| claim_pending n : claim_run n [] None
| claim_answered n r :
    is_claim_transient (poll_of r) = false -> claim_run n [EClaim r] (Some (Some (poll_of r)))
| claim_stopped n r :
    is_claim_transient (poll_of r) = true ->
    claim_run n [EClaim r; ESleep (claim_wait n) true] (Some None)
| claim_again n r tr p :
    is_claim_transient (poll_of r) = true -> claim_run (n + 1) tr p ->
    claim_run n (EClaim r :: ESleep (claim_wait n) false :: tr) p.

Definition is_claim (e : event) : bool :=
  match e with EClaim _ => true | _ => false end.

(** ** What a report does *)

Section ReportSpec.
Context (id : str).

(** The answer of a posted body. *)
Definition posted (d : SubmitDisposition) : result bool anyhow_error :=
  match d with
  | Accepted _ | Dropped => Ok true
  | RetryTransient => Ok false
  | Fatal e => Err (error_of (SubmitRefusedCause e) (lit "submit refused"))
  end.

(** A failure report: one body, and the disposition it ended with. *)
Definition failure_run (f : FailureSubmission) (tr : list event)
    (r : result unit anyhow_error) : Prop :=
  fs_job_id f = id /\ exists d, submit_run id (FailureBody f) 1 tr d /\
  r = delivered_or_not (posted d).

(** A success report. A refused one is followed by a retriable failure; the result is kept
    locally only when the server has it. *)
Inductive success_run (v : Value) : list event -> result unit anyhow_error -> Prop :=
| success_delivered tr d :
    submit_run id (SuccessBody v) 1 tr d -> (d = Dropped \/ exists a, d = Accepted a) ->
    success_run v (tr ++ [EStored id]) (Ok tt)
| success_undelivered tr :
    submit_run id (SuccessBody v) 1 tr RetryTransient -> success_run v tr (Ok tt)
| success_refused tr e f tr' r :
    submit_run id (SuccessBody v) 1 tr (Fatal e) -> fs_retriable f = true ->
    failure_run f tr' r -> success_run v (tr ++ tr') r.
End ReportSpec.

Section Traces.
Context {W Pl X D : Type} `{WH : WorkerHost W Pl X D}.
Context (CLIENT_VERSION : str) (display_mgmt : MgmtError -> str).
Context (sleep : Z -> W -> control_flow unit unit * W).

Lemma post_completion_traced id b (w : W) tr0 :
  exists d w' tr,
    post_completion id b (traced_sleep sleep) (w, tr0) = (posted d, (w', tr0 ++ tr)) /\
    submit_run id b 1 tr d.
Proof.
  destruct (submit_traced id b sleep w tr0) as (d & w' & tr & Hr & Hrun).
  exists d, w', tr. split; [|done]. unfold post_completion.
  cbn [worker_api traced_worker]. rewrite Hr. by destruct d.
Qed.

Lemma submit_failure_traced job reason retriable dt (w : W) tr0 :
  exists r w' tr,
    submit_failure CLIENT_VERSION (traced_sleep sleep) job reason retriable dt (w, tr0) =
      (r, (w', tr0 ++ tr)) /\
    failure_run (job_id job) (failure_from_claim CLIENT_VERSION job reason retriable dt) tr
      (delivered_or_not r) /\
    (exists d, r = posted d /\ submit_run (job_id job)
       (FailureBody (failure_from_claim CLIENT_VERSION job reason retriable dt)) 1 tr d).
Proof.
  unfold submit_failure.
  destruct (post_completion_traced (job_id job) (FailureBody
    (failure_from_claim CLIENT_VERSION job reason retriable dt)) w tr0)
    as (d & w' & tr & -> & Hrun).
  exists (posted d), w', tr. split; [done|]. split; [split; [done|]|]; eauto.
Qed.

Lemma submit_success_traced job payload extras ck (w : W) tr0 :
  exists r w' tr,
    submit_success CLIENT_VERSION display_mgmt (traced_sleep sleep) job payload extras ck (w, tr0)
      = (r, (w', tr0 ++ tr)) /\
    ((tr = [] /\ exists e, r = Err e) \/
     exists v, body_job (SuccessBody v) = Some (job_id job) /\ success_run (job_id job) v tr r).
Proof.
  unfold submit_success. cbn [payload_to_value traced_worker].
  assert (forall e, exists r w' tr, (@Err unit anyhow_error e, (w, tr0)) = (r, (w', tr0 ++ tr)) /\
    ((tr = [] /\ exists e, r = Err e) \/ exists v, body_job (SuccessBody v) = Some (job_id job) /\
       success_run (job_id job) v tr r)) as Herr.
  { intros e. exists (Err e), w, []. rewrite app_nil_r. split; [done|]. left. eauto. }
  destruct (payload_to_value payload) as [body|e]; [|apply Herr].
  destruct (attach_claim_to_success_payload body job) as [v|e] eqn:Ea; [|apply Herr].
  assert (body_job (SuccessBody v) = Some (job_id job)) as Hv.
  { destruct body; simplify_eq/=. by rewrite assoc_insert_eq. }
  destruct (post_completion_traced (job_id job) (SuccessBody v) w tr0) as (d & w1 & tr & -> & Hrun).
  destruct d as [a| | |e]; cbn [posted].
  - eexists _, _, _. split; [cbn; by rewrite <- app_assoc|]. right. exists v.
    split; [done|]. eapply success_delivered; eauto.
  - eexists _, _, _. split; [cbn; by rewrite <- app_assoc|]. right. exists v.
    split; [done|]. eapply success_delivered; eauto.
  - eexists _, _, _. split; [done|]. right. exists v. split; [done|]. by apply success_undelivered.
  - cbn [as_submit_refused error_of root fst]. unfold report_refused_submission.
    cbn [utc_text traced_worker]. unfold lift. cbn [fst snd].
    destruct (utc_text w1) as [text w2].
    destruct (submit_failure_traced job (format_failure_reason text
      (lit "this run's result could not be submitted: " ++ display_mgmt e)) true
      (device_time_of payload) w2 (tr0 ++ tr)) as (r & w3 & tr' & Hf & Hfr & _).
    cbn [device_time_of traced_worker]. rewrite Hf.
    eexists _, _, _. split; [by rewrite <- app_assoc|]. right. exists v. split; [done|].
    eapply success_refused; [exact Hrun| |exact Hfr]. done.
Qed.

(** The report of a finished run, by what came of it. *)
Definition report_spec (job : ClaimedJob) (rr : result (Pl * X * option D) anyhow_error)
    (lost stopped : bool) (tr : list event) (r : result unit anyhow_error) : Prop :=
  match rr with
  | Err err =>
      if stopped_by_held_touch err then tr = [] /\ r = Err err
      else if lost || (stopped && was_cancelled err) then tr = [] /\ r = Ok tt
      else exists f, fs_retriable f = classify_run_error err /\ failure_run (job_id job) f tr r
  | Ok _ =>
      if lost then tr = [] /\ r = Ok tt
      else (tr = [] /\ exists e, r = Err e) \/
           exists v, body_job (SuccessBody v) = Some (job_id job) /\ success_run (job_id job) v tr r
  end.

Lemma submit_finished_run_traced job rr elapsed lost (w : W) tr0 :
  exists r w' tr,
    submit_finished_run CLIENT_VERSION display_mgmt (traced_sleep sleep) job rr elapsed lost (w, tr0)
      = (r, (w', tr0 ++ tr)) /\
    report_spec job rr lost (is_cancelled w).1 tr r.
Proof.
  assert (forall r : result unit anyhow_error, forall w' : W,
    (r, (w', tr0)) = (r, (w', tr0 ++ []))) as Hnil by (intros; by rewrite app_nil_r).
  unfold submit_finished_run, report_spec. destruct rr as [[[p x] ck]|err].
  - destruct lost.
    + eexists _, _, []. split; [apply Hnil|done].
    + cbn [with_device_time traced_worker]. apply submit_success_traced.
  - destruct (stopped_by_held_touch err).
    { eexists _, _, []. split; [apply Hnil|done]. }
    destruct lost; cbn [orb].
    { eexists _, _, []. split; [apply Hnil|done]. }
    cbn [is_cancelled worker_host traced_worker traced_host]. unfold lift at 1. cbn [fst snd].
    destruct (is_cancelled w) as [st w1] eqn:Ec. cbn [fst].
    destruct (st && was_cancelled err).
    { eexists _, _, []. split; [apply Hnil|done]. }
    cbn [utc_text traced_worker]. unfold lift. cbn [fst snd].
    destruct (utc_text w1) as [text w2].
    destruct (submit_failure_traced job (format_failure_reason text (display_chain err))
      (classify_run_error err) (Some (device_time_ms elapsed)) w2 tr0)
      as (r & w3 & tr & Hf & Hfr & _).
    rewrite Hf. eexists _, _, _. split; [done|]. eexists. split; [|exact Hfr]. done.
Qed.

Lemma failure_run_scope id f tr r :
  failure_run id f tr r ->
  exists s, scope_run (On id) tr = Some s /\
    (s = On id \/ s = Dead /\ exists e, r = Err e /\ is_Some (as_submit_refused e)).
Proof.
  intros (Hid & d & Hrun & ->). eexists. split.
  - apply (submit_run_scope id (FailureBody f) 1); [cbn; by rewrite Hid|exact Hrun].
  - destruct d; [by left..|]. right. split; [done|]. eexists. split; [done|]. cbn. eauto.
Qed.

Lemma success_run_scope id v tr r :
  body_job (SuccessBody v) = Some id -> success_run id v tr r ->
  exists s, scope_run (On id) tr = Some s /\
    (s = On id \/ s = Dead /\ exists e, r = Err e /\ is_Some (as_submit_refused e)).
Proof.
  intros Hv Hs. destruct Hs as [tr d Hrun Hd|tr Hrun|tr e f tr' r Hrun Hf Hfr];
    apply submit_run_scope in Hrun; try done; cbn in Hrun.
  - exists (On id). rewrite scope_run_app, Hrun. cbn. rewrite (proj2 (str_eqb_eq id id) eq_refl).
    auto.
  - eauto.
  - destruct (failure_run_scope _ _ _ _ Hfr) as (s & Hs & Hd). exists s.
    rewrite scope_run_app, Hrun. auto.
Qed.

Lemma report_scope job rr lost st tr r :
  report_spec job rr lost st tr r ->
  exists s, scope_run (On (job_id job)) tr = Some s /\
    (s = On (job_id job) \/ s = Dead /\ exists e, r = Err e /\ is_Some (as_submit_refused e)).
Proof.
  unfold report_spec. destruct rr as [p|err].
  - destruct lost; [intros [-> ->]; cbn; eauto|].
    intros [[-> _]|(v & Hv & Hs)]; [cbn; eauto|]. by eapply success_run_scope.
  - destruct (stopped_by_held_touch err); [intros [-> ->]; cbn; eauto|].
    destruct (lost || _); [intros [-> ->]; cbn; eauto|].
    intros (f & _ & Hf). by eapply failure_run_scope.
Qed.

(** ** The heartbeat *)

Definition hb_waiting (d : Z) (w : W * list event) : W * list event :=
  (sleep_for d w.1, w.2 ++ [ESleep d false]).

Lemma heartbeat_thread_traced id every ticks wait failures (w : W) tr0 :
  in_range duration_max every ->
  exists lost w' tr,
    heartbeat_thread hb_waiting id every ticks wait failures (w, tr0) = (lost, (w', tr0 ++ tr)) /\
    hb_run id every wait tr lost.
Proof.
  intros He. revert wait failures w tr0.
  induction ticks as [|ticks IH]; intros wait failures w tr0; cbn [heartbeat_thread].
  { exists false, w, []. rewrite app_nil_r. split; [done|constructor]. }
  unfold hb_waiting at 1. cbn [fst snd].
  destruct (keepalive_traced id (sleep_for wait w) (tr0 ++ [ESleep wait false]))
    as (k & w1 & tr1 & Hk & Ht).
  cbn [worker_api traced_worker]. rewrite Hk. rewrite <- app_assoc in *. destruct k.
  - destruct (IH every 0 w1 (tr0 ++ [ESleep wait false] ++ tr1)) as (lost & w' & tr & Hr & Hrun).
    rewrite Hr. eexists _, _, _. split; [by rewrite <- !app_assoc|]. cbn [app]. by apply hb_ok.
  - eexists _, _, _. split; [done|]. cbn [app]. by apply hb_abort.
  - cbn [random_u64 traced_worker]. unfold jittered, lift. cbn [fst snd].
    destruct (random_u64 w1) as [roll w2]. cbn [fst snd].
    set (b := exponential_backoff _ _ _).
    assert (0 <= b <= every / 4) as Hb.
    { apply exponential_backoff_range; [vm_compute; congruence|]. apply Z.div_pos; solve_bounds. }
    pose proof (full_jitter_range b roll) as Hj.
    assert (every / 4 <= every) by (apply Z.div_le_upper_bound; solve_bounds).
    destruct (IH (full_jitter b roll) (sat_add u32_max failures 1) w2
      (tr0 ++ [ESleep wait false] ++ tr1)) as (lost & w' & tr & Hr & Hrun).
    rewrite Hr. eexists _, _, _. split; [by rewrite <- !app_assoc|].
    cbn [app]. eapply hb_retry; [done| |done]. unfold in_range in *. lia.
Qed.

Lemma hb_run_scope id every wait tr lost :
  hb_run id every wait tr lost -> scope_run (On id) tr = Some (On id).
Proof.
  assert (forall tr k, keep_try id tr k -> scope_run (On id) tr = Some (On id)) as Hk.
  { intros t k Ht. pose proof (on_job_eq id) as Ho.
    destruct Ht; cbn [scope_run scope_step]; rewrite ?Ho; cbn [scope_run scope_step];
      by rewrite ?Ho. }
  induction 1 as [|wait tr tr' lost Ht _ IH|wait tr Ht|wait wait' tr tr' lost Ht _ _ IH];
    cbn; rewrite ?scope_run_app, ?(Hk _ _ Ht); done.
Qed.

(** ** Claims and jobs *)

Lemma poll_claim_traced (w : W) tr0 :
  exists r w', poll_claim (w, tr0) = (poll_of r, (w', tr0 ++ [EClaim r])).
Proof. unfold poll_claim. cbn. destruct (api_claim w) as [r w']. cbn. eauto. Qed.

Lemma claim_loop_traced fuel n (w : W) tr0 :
  exists p w' tr,
    claim_with_retry_loop fuel (traced_sleep sleep) n (w, tr0) = (p, (w', tr0 ++ tr)) /\
    claim_run (n + 1) tr p /\ (p = None -> length (List.filter is_claim tr) = fuel).
Proof.
  revert n w tr0; induction fuel as [|fuel IH]; intros n w tr0.
  { exists None, w, []. rewrite app_nil_r. repeat split; constructor. }
  cbn [claim_with_retry_loop worker_api traced_worker].
  destruct (poll_claim_traced w tr0) as (r & w1 & ->).
  destruct (is_claim_transient (poll_of r)) eqn:E.
  - destruct (poll_of r) eqn:Ep; try done. unfold traced_sleep at 1. cbn [fst snd].
    destruct (sleep _ w1) as [[[]|[]] w2]; cbn [is_break].
    + eexists _, _, _. rewrite <- app_assoc. split; [done|]. split; [|done].
      apply claim_stopped. by rewrite Ep.
    + destruct (IH (n + 1) w2 ((tr0 ++ [EClaim r]) ++
        [ESleep (exponential_backoff (n + 1) CLAIM_BACKOFF_FIRST CLAIM_BACKOFF_CAP) false]))
        as (p & w' & tr & -> & Hrun & Hn).
      eexists _, _, _. rewrite <- !app_assoc. split; [done|].
      split; [apply claim_again; [by rewrite Ep|exact Hrun]|].
      intros Hp. cbn. by rewrite (Hn Hp).
  - exists (Some (Some (poll_of r))), w1, [EClaim r].
    split; [by destruct (poll_of r)|]. split; [by apply claim_answered|done].
Qed.

Definition scope_of (p : option (option ClaimPoll)) : scope :=
  match p with Some (Some (Job job)) => On (job_id job) | _ => Free end.

Lemma poll_of_scope r :
  match r with Ok (Some job) => On (job_id job) | _ => Free end = scope_of (Some (Some (poll_of r))).
Proof. destruct r as [[]|e]; cbn; [done..|]. by repeat case_match. Qed.

Lemma claim_run_scope s n tr p :
  s <> Dead -> claim_run n tr p ->
  exists s', scope_run s tr = Some s' /\ (is_Some p -> s' = scope_of p).
Proof.
  intros Hs Hr. revert s Hs.
  induction Hr as [n|n r Hr|n r Hr|n r tr p Hr _ IH]; intros s Hs.
  { exists s. split; [done|]. by intros [? ?]. }
  all: cbn [scope_run scope_step]; (destruct s; [..|done]); rewrite poll_of_scope; cbn [scope_run];
    try (eexists; split; [done|done]).
  all: destruct (poll_of r); try done; cbn; try (eexists; split; [done|done]); by apply IH.
Qed.

Section Jobs.
Context (datetime_max : Z) (boot : InFlight.Boot) (boot_reason : option str).

(** A job's calls are the job's own, and the worker is left ready for the next one unless
    its failure report was refused. *)
Definition job_scope (id : str) (tr : list event) (r : result unit anyhow_error) : Prop :=
  exists s, scope_run (On id) tr = Some s /\
    (s = On id \/ s = Dead /\ exists e, r = Err e /\ is_Some (as_submit_refused e)).

Lemma run_claimed_job_traced job claimed_at hb in_flight (w : W) tr0 :
  (forall secs, hb = Some secs -> in_range u64_max secs) ->
  exists r w' tr,
    run_claimed_job CLIENT_VERSION display_mgmt (traced_sleep sleep) hb_waiting job claimed_at hb
      in_flight (w, tr0) = (r, (w', tr0 ++ tr)) /\ job_scope (job_id job) tr r.
Proof.
  intros Hhb. unfold run_claimed_job.
  cbn [heartbeat_ticks execute_job now worker_host traced_worker traced_host in_flight_drop].
  unfold lift. cbn [fst snd].
  destruct (heartbeat_ticks job w) as [ticks w1].
  destruct (heartbeat_thread_traced (job_id job) (resolve_heartbeat_interval (time_window job) hb)
    ticks (resolve_heartbeat_interval (time_window job) hb) 0 w1 tr0)
    as (lost & w2 & tr1 & Hr1 & Hrun1).
  { by apply resolve_heartbeat_interval_range. }
  unfold spawn_heartbeat. rewrite Hr1. cbn [fst snd].
  destruct (execute_job job w2) as [rr w3]. cbn [fst snd].
  destruct (now w3) as [t w4]. cbn [fst snd].
  replace (if in_flight then (in_flight_drop w4, (tr0 ++ tr1) ++ [ERan (job_id job)])
           else (w4, (tr0 ++ tr1) ++ [ERan (job_id job)]))
    with (if in_flight then in_flight_drop w4 else w4, (tr0 ++ tr1) ++ [ERan (job_id job)])
    by (by destruct in_flight).
  destruct (submit_finished_run_traced job rr (sat_sub t claimed_at) lost
    (if in_flight then in_flight_drop w4 else w4) ((tr0 ++ tr1) ++ [ERan (job_id job)]))
    as (r & w6 & tr2 & Hr2 & Hspec).
  rewrite Hr2. eexists _, _, _. split; [by rewrite <- !app_assoc|].
  apply report_scope in Hspec as (s & Hs & Hd). exists s. split; [|done].
  rewrite !scope_run_app, (hb_run_scope _ _ _ _ _ Hrun1). cbn [mbind option_bind].
  change ([ERan (job_id job)] ++ tr2) with (ERan (job_id job) :: tr2).
  cbn [scope_run scope_step]. by rewrite on_job_eq.
Qed.

Lemma handle_claim_traced job hb (w : W) tr0 :
  (forall secs, hb = Some secs -> in_range u64_max secs) ->
  exists r w' tr,
    handle_claim CLIENT_VERSION display_mgmt datetime_max boot boot_reason (traced_sleep sleep)
      hb_waiting hb job (w, tr0) = (r, (w', tr0 ++ tr)) /\ job_scope (job_id job) tr r.
Proof.
  intros Hhb. unfold handle_claim.
  cbn [now worker_host traced_worker traced_host marker_read utc_text utc_now marker_remove
       in_flight_start]. unfold lift. cbn [fst snd].
  destruct (now w) as [t0 w1]. cbn [fst snd]. destruct (marker_read w1) as [rd w2].
  destruct (InFlight.decide_claim _ _ _ _) as [|old| | |old new]; cbn [fst snd].
  5: {
    destruct (utc_text w2) as [text w3]. cbn [fst snd]. destruct (now w3) as [t1 w4].
    destruct (submit_failure_traced job (format_failure_reason text
      (reboot_failure_reason old new boot_reason)) false
      (Some (device_time_ms (sat_sub t1 t0))) w4 tr0) as (r & w5 & tr & -> & Hf & d & -> & Hd).
    apply failure_run_scope in Hf as (s & Hs & Hc).
    destruct d as [a| | |e]; cbn [posted]; unfold job_scope.
    4: { eexists _, _, _. split; [done|]. eauto. }
    3: { eexists _, _, _. split; [done|]. exists s. split; [done|]. cbn in Hc. naive_solver. }
    all: cbn [fst snd]; destruct (marker_remove w5) as [? w6];
      eexists _, _, _; (split; [by rewrite <- app_assoc|]); exists (On (job_id job));
      cbn in Hc; rewrite scope_run_app, Hs; (split; [|by left]);
      destruct Hc as [->|(_ & e & He & _)]; done. }
  all: destruct (utc_now w2) as [utc w3]; cbn [fst snd]; destruct (utc_text w3) as [text w4];
    cbn [fst snd]; destruct (in_flight_start _ w4) as [st w5];
    by apply run_claimed_job_traced.
Qed.

Context (refused_text : MgmtError -> str).

Definition traced_claim_loop (fuel : nat) (args : WorkerArgs) (completed idle : Z) :=
  claim_loop CLIENT_VERSION display_mgmt datetime_max boot boot_reason refused_text fuel args
    (traced_sleep sleep) hb_waiting completed idle.

(** An answer of the loop whose trace after [tr0] keeps to its jobs from [s] on, and has at
    least [n] events when the loop is still going. *)
Definition loop_ok (s : scope) (tr0 : list event) (n : nat)
    (x : option (result unit anyhow_error) * (W * list event)) : Prop :=
  exists o w' tr, x = (o, (w', tr0 ++ tr)) /\ is_Some (scope_run s tr) /\
    (o = None -> (n <= length tr)%nat).

Lemma loop_ok_done s tr0 n r (w : W) tr :
  is_Some (scope_run s tr) -> loop_ok s tr0 n (Some r, (w, tr0 ++ tr)).
Proof. intros Hs. by exists (Some r), w, tr. Qed.

Lemma loop_ok_prepend s s' tr0 tr n m x :
  scope_run s tr = Some s' -> (m <= length tr + n)%nat -> loop_ok s' (tr0 ++ tr) n x ->
  loop_ok s tr0 m x.
Proof.
  intros Hs Hm (o & w & tr' & -> & Hs' & Hn). exists o, w, (tr ++ tr').
  rewrite <- app_assoc, scope_run_app, Hs, length_app. repeat split; [done|].
  intros Ho. specialize (Hn Ho). lia.
Qed.

Lemma claim_run_emits n tr p : claim_run n tr p -> is_Some p -> (1 <= length tr)%nat.
Proof. intros [] [? ?]; cbn; try done; lia. Qed.

Lemma startup_gate_traced args (w : W) tr :
  exists g w', startup_gate args (w, tr) = (g, (w', tr)).
Proof.
  unfold startup_gate. cbn [installed_runtime_capabilities refresh_profile_at_startup traced_worker].
  unfold lift. cbn [fst snd]. destruct (skip_profile_refresh args); [by eauto|].
  destruct (installed_runtime_capabilities w) as [[caps|e] w1]; [|by eauto].
  cbn [fst snd]. destruct (refresh_profile_at_startup caps w1) as [[[p|]|e] w2]; [|by eauto..].
  destruct (status p); [by eauto| |by eauto]. destruct (missing_worker_permission _); eauto.
Qed.

Lemma idle_wait_traced base jitter (w : W) tr :
  exists o w', idle_wait_with_jitter random_u64 base jitter (w, tr) = (o, (w', tr)).
Proof.
  unfold idle_wait_with_jitter, jittered. cbn. unfold lift. cbn.
  destruct (random_u64 w) as [roll w']. eauto.
Qed.

Lemma claim_loop_scope fuel args completed idle s (w : W) tr0 :
  (forall secs, heartbeat_secs args = Some secs -> in_range u64_max secs) -> s <> Dead ->
  loop_ok s tr0 fuel (traced_claim_loop fuel args completed idle (w, tr0)).
Proof.
  intros Hhb. revert completed idle s w tr0.
  induction fuel as [|fuel IH]; intros completed idle s w tr0 Hs.
  { exists None, w, []. rewrite app_nil_r. repeat split; [by eexists|]. cbn. lia. }
  unfold traced_claim_loop. cbn [claim_loop].
  cbn [is_cancelled worker_host traced_worker traced_host]. unfold lift at 1.
  cbn [fst snd]. destruct (is_cancelled w) as [[] w1].
  { rewrite <- (app_nil_r tr0) at 2. apply loop_ok_done. by eexists. }
  unfold claim_with_retry.
  destruct (claim_loop_traced (S fuel) 0 w1 tr0) as (p & w2 & tr1 & -> & Hrun & Hn).
  pose proof (claim_run_emits _ _ _ Hrun) as Hlen.
  destruct (claim_run_scope s _ _ _ Hs Hrun) as (s1 & Hs1 & Hp).
  destruct p as [p|].
  2: { exists None, w2, tr1. repeat split; [by rewrite Hs1|]. intros _.
       rewrite <- (Hn eq_refl). apply List.filter_length_le. }
  rewrite (Hp (ltac:(by eexists))) in Hs1. specialize (Hlen (ltac:(by eexists))).
  destruct p as [poll|]; [|by apply loop_ok_done; rewrite Hs1].
  eapply (loop_ok_prepend _ _ _ _ fuel); [exact Hs1|lia|].
  destruct poll as [job| |e|e|e]; cbn [scope_of] in *.
  3-5: by rewrite <- (app_nil_r (tr0 ++ tr1)) at 2; apply loop_ok_done.
  - destruct (handle_claim_traced job (heartbeat_secs args) w2 (tr0 ++ tr1) Hhb)
      as (out & w3 & tr2 & -> & s2 & Hs2 & Hcase).
    assert (forall c, s2 = On (job_id job) -> loop_ok (On (job_id job)) (tr0 ++ tr1) fuel
      (traced_claim_loop fuel args c 0 (w3, (tr0 ++ tr1) ++ tr2))) as Hnext.
    { intros c ->. eapply (loop_ok_prepend _ _ _ _ fuel); [exact Hs2|lia|]. by apply IH. }
    destruct out as [[]|e].
    + destruct Hcase as [->|(_ & e & ? & _)]; [|done].
      case_match; [by apply loop_ok_done; rewrite Hs2|by apply Hnext].
    + destruct (bool_decide (is_Some (as_submit_refused e))) eqn:Er;
        [by apply loop_ok_done; rewrite Hs2|]. apply bool_decide_eq_false in Er.
      destruct Hcase as [->|(_ & e' & He' & ?)]; [|by simplify_eq].
      case_match; [by apply loop_ok_done; rewrite Hs2|by apply Hnext].
  - destruct (idle_wait_traced (from_secs (idle_secs args)) (from_secs (idle_jitter_secs args))
      w2 (tr0 ++ tr1)) as (o & w3 & ->).
    destruct o as [wait|].
    2: { rewrite <- (app_nil_r (tr0 ++ tr1)) at 2. by apply loop_ok_done. }
    unfold traced_sleep at 1. cbn [fst snd].
    destruct (sleep wait w3) as [[[]|[]] w4]; cbn [is_break].
    + by apply loop_ok_done.
    + eapply (loop_ok_prepend _ Free _ [ESleep wait false] fuel); [done|cbn; lia|]. by apply IH.
Qed.
End Jobs.
End Traces.

(** ** A concrete worker

    The world counts the calls to the server. The claim meets a [503] and then a job; the
    first two heartbeats fail and the third is renewed by a reclaim; the job's result is
    refused and the failure that reports it is accepted. *)

Definition demo_job : ClaimedJob :=
  {| job_id := lit "j1"; benchmark_id := lit "b"; time_window := lit "PT10M";
     client_versions := None; spec := Null |}.

Definition demo_status (code : Z) : MgmtError := HttpStatus (lit "POST") (lit "u") code [].

#[export] Instance demo_api : MgmtApi nat := {
  api_claim := fun n =>
    (match n with 0%nat => Err (demo_status 503) | 1%nat => Ok (Some demo_job) | _ => Ok None end, S n);
  api_heartbeat := fun _ n =>
    (match n with 4%nat => Err (demo_status 404) | _ => Err (demo_status 500) end, S n);
  api_reclaim := fun _ n => (Ok tt, S n);
  api_submit_result := fun b n =>
    (match b with SuccessBody _ => Err (demo_status 413) | FailureBody f => Ok (fs_job_id f) end, S n);
}.

#[export] Instance demo_clock : Host nat := {
  now := fun n => (from_secs (Z.of_nat n), n);
  is_cancelled := fun n => (Nat.leb 9 n, n);
  sleep_for := fun _ n => n;
}.

Definition demo_marker : InFlight.InFlight :=
  {| InFlight.job_id := lit "j1"; InFlight.boot_id := Some (lit "boot-1");
     InFlight.started_at := lit "t"; InFlight.alive_at := Some (from_secs 100) |}.

#[export] Instance demo_host : WorkerHost nat unit unit unit := {
  random_u64 := fun n => (12345, n);
  utc_now := fun n => (from_secs 500, n);
  utc_text := fun n => (Some (lit "now"), n);
  read_registration := fun n => (Ok tt, n);
  installed_runtime_capabilities := fun n => (Ok [lit "llamacpp"], n);
  reap_orphans := fun n => n;
  refresh_profile_at_startup := fun _ n =>
    (Ok (Some {| status := Approved; permissions := Some [PERFORM_WORK] |}), n);
  execute_job := fun _ n => (Ok (tt, tt, None), n);
  heartbeat_ticks := fun _ n => (3%nat, n);
  with_device_time := fun _ p => p;
  device_time_of := fun _ => Some 1;
  payload_to_value := fun _ => Ok (Object []);
  marker_read := fun n => (Ok (Some demo_marker), n);
  marker_remove := fun n => (Ok tt, n);
  in_flight_start := fun _ n => (Ok tt, n);
  in_flight_drop := fun n => n;
  store_completed_result := fun _ _ _ n => n;
  finalize_eval_checkpoint := fun _ n => n;
}.

Definition demo_sleep (_ : Z) (n : nat) : control_flow unit unit * nat := (Continue tt, n).

Definition demo_args : WorkerArgs :=
  {| idle_secs := 300; idle_jitter_secs := 60; heartbeat_secs := None; max_jobs := 0;
     skip_profile_refresh := false |}.

Definition demo_boot : InFlight.Boot :=
  {| InFlight.id := Some (lit "boot-1"); InFlight.boot_started_at := Some 0 |}.

Definition demo_boot_2 : InFlight.Boot :=
  {| InFlight.id := Some (lit "boot-2"); InFlight.boot_started_at := Some (from_secs 120) |}.

(** ** Theorems *)

(** Claiming. Every transient answer is followed by the schedule's wait - a second,
    doubling to a minute - and another poll, for as long as it takes; the first answer that
    is not transient is returned at once, and a wait that is cut short ends the claim with
    nothing. A claim still going after [fuel] attempts polled that often, each time to a
    transient answer. *)
Theorem claim_with_retry_correct {W Pl X D} `{WorkerHost W Pl X D}
    (sleep : Z -> W -> control_flow unit unit * W) (fuel : nat) (w : W) :
  exists p w' tr,
    claim_with_retry fuel (traced_sleep sleep) (w, []) = (p, (w', tr)) /\
    claim_run 1 tr p /\ (p = None -> length (List.filter is_claim tr) = fuel).
Proof. apply (claim_loop_traced sleep fuel 0 w []). Qed.

(** The heartbeat thread is a run of [hb_run]: its first beat comes one interval after
    the claim, each renewed beat is followed by another interval, a failed one is tried
    again within a quarter of it, and [lease_lost] is set exactly when the server gave the
    lease to another or refused the reclaim, after which the thread sends nothing. *)
Theorem heartbeat_thread_correct {W Pl X D} `{WorkerHost W Pl X D} (id : str) (every : Z)
    (ticks : nat) (w : W) :
  in_range duration_max every ->
  exists lost w' tr,
    spawn_heartbeat hb_waiting id every ticks (w, []) = (lost, (w', tr)) /\
    hb_run id every every tr lost.
Proof. intros He. by apply (heartbeat_thread_traced id every ticks every 0 w []). Qed.

Lemma heartbeat_thread_correct_witness :
  exists tr, spawn_heartbeat hb_waiting (lit "j1") (from_secs 300) 3 (2%nat, []) =
    (false, (6%nat, tr)) /\ length (sleeps_of tr) = 3%nat /\
  hb_run (lit "j1") (from_secs 300) (from_secs 300) tr false.
Proof.
  destruct (heartbeat_thread_correct (lit "j1") (from_secs 300) 3 2%nat)
    as (lost & w' & tr & Hr & Hrun); [split; vm_compute; congruence|].
  exists tr. vm_compute in Hr. injection Hr as <- <- <-.
  split; [vm_compute; reflexivity|]. split; [reflexivity|]. exact Hrun.
Defined.

(** What a finished run reports. A run a held touch stopped, one whose lease was lost
    and one the operator cancelled report nothing. A failure is posted once with its
    classification. A result is posted for its own job, kept locally only when the server
    has it, and when the server refuses it the job goes back as a retriable failure. *)
Theorem submit_finished_run_reports {W Pl X D} `{WorkerHost W Pl X D} (CLIENT_VERSION : str)
    (display_mgmt : MgmtError -> str) (sleep : Z -> W -> control_flow unit unit * W)
    (job : ClaimedJob) (run_result : result (Pl * X * option D) anyhow_error) (elapsed : Z)
    (lease_lost : bool) (w : W) :
  exists r w' tr,
    submit_finished_run CLIENT_VERSION display_mgmt (traced_sleep sleep) job run_result elapsed
      lease_lost (w, []) = (r, (w', tr)) /\
    report_spec job run_result lease_lost (is_cancelled w).1 tr r.
Proof. apply (submit_finished_run_traced CLIENT_VERSION display_mgmt sleep job run_result
  elapsed lease_lost w []). Qed.

(** C1: the whole worker, over every server and host, and for as many rounds as it is
    followed. In the order it happens, each heartbeat, reclaim, run, report and stored
    result is for the job claimed last; and once the report of a failure was refused
    nothing follows, so the job is not claimed again. A worker that is still running after
    [fuel] rounds has done something in each. *)
Theorem worker_trace_scoped {W Pl X D} `{WorkerHost W Pl X D} (CLIENT_VERSION : str)
    (display_mgmt refused_text : MgmtError -> str) (datetime_max : Z) (boot : InFlight.Boot)
    (boot_reason : option str) (sleep : Z -> W -> control_flow unit unit * W) (fuel : nat)
    (args : WorkerArgs) (w : W) :
  (forall secs, heartbeat_secs args = Some secs -> in_range u64_max secs) ->
  exists o w' tr,
    run_until_stopped CLIENT_VERSION display_mgmt datetime_max boot boot_reason refused_text
      fuel args (traced_sleep sleep) hb_waiting (w, []) = (o, (w', tr)) /\
    is_Some (scope_run Free tr) /\ (o = None -> (fuel <= length tr)%nat).
Proof.
  intros Hhb. unfold run_until_stopped. cbn [read_registration reap_orphans traced_worker].
  pose proof (fun w0 => claim_loop_scope CLIENT_VERSION display_mgmt sleep datetime_max boot
    boot_reason refused_text fuel args 0 0 Free w0 [] Hhb ltac:(done)) as Hloop.
  unfold lift at 1. cbn [fst snd].
  destruct (read_registration w) as [[[]|e] w1]; [|by eapply (loop_ok_done Free [])].
  destruct (startup_gate_traced args w1 []) as (g & w2 & ->).
  destruct g as [[]|e]; [apply Hloop|by eapply (loop_ok_done Free [])..].
Qed.

Definition demo_run (boot : InFlight.Boot)
    : option (result unit anyhow_error) * (nat * list event) :=
  run_until_stopped [] (fun _ => []) (from_secs 100000) boot None (fun _ => []) 40 demo_args
    (traced_sleep demo_sleep) hb_waiting (0%nat, []).

Lemma worker_trace_scoped_witness :
  exists n tr, demo_run demo_boot = (Some (Ok tt), (n, tr)) /\
  existsb (fun e => match e with ERan _ => true | _ => false end) tr = true /\
  length (submits_of tr) = 2%nat /\ is_Some (scope_run Free tr).
Proof.
  destruct (worker_trace_scoped [] (fun _ => []) (fun _ => []) (from_secs 100000) demo_boot None
      demo_sleep 40 demo_args 0%nat) as (o & n & tr & E & Hs & _); [done|].
  exists n, tr. vm_compute in E. injection E as <- <- <-.
  split; [reflexivity|]. split; [reflexivity|]. split; [reflexivity|exact Hs].
Defined.

(** A claim whose marker shows the job was cut off by a reboot is not run again. It is
    reported once, as a failure no retry may follow, and the marker is dropped exactly when
    the server has the report; otherwise it stays for the next claim to report. *)
Theorem rebooted_claim_is_not_run {W Pl X D} `{WorkerHost W Pl X D} (CLIENT_VERSION : str)
    (display_mgmt : MgmtError -> str) (datetime_max : Z) (boot : InFlight.Boot)
    (boot_reason : option str) (sleep : Z -> W -> control_flow unit unit * W)
    (hb : option Z) (job : ClaimedJob) (w : W) (old new : str) :
  InFlight.decide_claim datetime_max
    (default None (result_ok (marker_read (now w).2).1)) (job_id job) boot
    = InFlight.Rebooted old new ->
  exists r w' f tr d,
    handle_claim CLIENT_VERSION display_mgmt datetime_max boot boot_reason (traced_sleep sleep)
      hb_waiting hb job (w, []) =
      (r, (w', tr ++ (match d with Accepted _ | Dropped => [EMarkerRemoved] | _ => [] end))) /\
    fs_job_id f = job_id job /\ fs_retriable f = false /\
    submit_run (job_id job) (FailureBody f) 1 tr d.
Proof.
  intros Hd. unfold handle_claim.
  cbn [now worker_host traced_worker traced_host marker_read utc_text marker_remove].
  unfold lift. cbn [fst snd].
  destruct (now w) as [t0 w1]. cbn [fst snd] in *. destruct (marker_read w1) as [rd w2].
  cbn [fst snd] in *. rewrite Hd. destruct (utc_text w2) as [text w3]. cbn [fst snd].
  destruct (now w3) as [t1 w4].
  destruct (submit_failure_traced CLIENT_VERSION sleep job (format_failure_reason text
    (reboot_failure_reason old new boot_reason)) false
    (Some (device_time_ms (sat_sub t1 t0))) w4 []) as (r & w5 & tr & -> & _ & d & -> & Hrun).
  cbn [app].
  exists (delivered_or_not (posted d)), (match d with Accepted _ | Dropped => (marker_remove w5).2 | _ => w5 end).
  eexists _, tr, d. split; [|split; [|split; [|exact Hrun]]]; try done.
  destruct d; cbn [posted delivered_or_not fst snd]; rewrite ?app_nil_r; try done;
    by destruct (marker_remove w5).
Qed.

Lemma rebooted_claim_is_not_run_witness :
  exists r w' f tr d,
    handle_claim [] (fun _ => []) (from_secs 100000) demo_boot_2 None (traced_sleep demo_sleep)
      hb_waiting None demo_job (2%nat, []) =
      (r, (w', tr ++ (match d with Accepted _ | Dropped => [EMarkerRemoved] | _ => [] end))) /\
    fs_job_id f = job_id demo_job /\ fs_retriable f = false /\
    submit_run (job_id demo_job) (FailureBody f) 1 tr d.
Proof.
  apply (rebooted_claim_is_not_run [] (fun _ => []) (from_secs 100000) demo_boot_2 None
    demo_sleep None demo_job 2%nat (lit "boot-1") (lit "boot-2")).
  vm_compute. reflexivity.
Defined.
