(* ===== verification/Benchmarks.v ===== *)
(** * The benchmark cache ([crates/pipette-cli/src/benchmarks/store.rs])

    A remote definition is cached in two files: the body the server sent, and the ETag it
    sent with it behind the body's SHA-256. [get_remote] and [put_remote] are modelled as
    the system calls they make, on files that other processes may be writing at the same
    time; [ensure_claim_benchmark_cached] of [commands/worker.rs] revalidates the cache
    against the server before a claimed job runs.

    JSON, the digest and the plan types' conversion are parameters. *)

From Stdlib Require Import ZArith Lia String.
From stdpp Require Import prelude list.
From S2P Require Import Prelude Str Wait Errors.

Local Open Scope Z_scope.

(** ** Two files of a directory

    A path names an inode; a writer keeps the inode it opened, also when the path is
    unlinked or another writer truncates it. *)

Inductive file := BodyFile | EtagFile.

#[export] Instance file_eq_dec : EqDecision file.
Proof. solve_decision. Defined.

Record Fs := { inodes : list (list Z); at_path : file -> option nat }.

Definition set_path (p : file -> option nat) (f : file) (i : option nat) : file -> option nat :=
  fun g => if decide (g = f) then i else p g.

Definition contents (fs : Fs) (f : file) : option (list Z) :=
  i ← at_path fs f; inodes fs !! i.

Definition unlink (f : file) (fs : Fs) : Fs :=
  {| inodes := inodes fs; at_path := set_path (at_path fs) f None |}.

(** [open] with [O_CREAT | O_TRUNC]. *)
Definition create (f : file) (fs : Fs) : nat * Fs :=
  match at_path fs f with
  | Some i => (i, {| inodes := <[i := []]> (inodes fs); at_path := at_path fs |})
  | None =>
      (length (inodes fs),
       {| inodes := inodes fs ++ [[]];
          at_path := set_path (at_path fs) f (Some (length (inodes fs))) |})
  end.

(** Bytes written at an offset: a gap reads as zeros, what lies past them stays. *)
Definition overwrite (off : nat) (bytes c : list Z) : list Z :=
  take off (c ++ replicate (off - length c) 0) ++ bytes ++ drop (off + length bytes) c.

Definition write_at (i off : nat) (bytes : list Z) (fs : Fs) : Fs :=
  {| inodes := alter (overwrite off bytes) i (inodes fs); at_path := at_path fs |}.

(** ** The store *)

(** [EntityTag::try_new] takes what a header value can carry. *)
Definition is_valid_header_value (value : str) : bool :=
  forallb (fun c => (c =? 9) || ((0x20 <=? c) && (c <=? 0x7e))) value.

Inductive ConditionalResponse (T : Type) :=
| Modified (value : T) (etag : option str)
| NotModified (etag : option str).

Arguments Modified {T} _ _.
Arguments NotModified {T} _.

(** Which of a call's system calls fail. A body's write can stop anywhere; an ETag's record
    is smaller than a page and is written by one call. *)
Record PutFaults := {
  remove_fails : bool;
  create_fails : bool;
  body_stops_at : option nat;
  etag_create_fails : bool;
  etag_write_fails : bool;
}.

(** *** Entity tags

    As RFC 9110 writes them: quoted, perhaps weak, and without a quote inside. *)

Definition quoted (t : str) : Prop :=
  exists weak opaque, (weak = [] \/ weak = lit "W/") /\ 34 ∉ opaque /\
    t = weak ++ 34 :: opaque ++ [34].

Lemma quoted_count t :
  quoted t -> length (List.filter (Z.eqb 34) t) = 2%nat /\ last t = Some 34.
Proof.
  intros (weak & opaque & Hw & Hno & ->). split.
  - assert (forall l : list Z, 34 ∉ l -> List.filter (Z.eqb 34) l = []) as Hnil.
    { induction l as [|c l IH]; [done|]. intros Hl. cbn [List.filter].
      destruct (Z.eqb_spec 34 c); [subst c; set_solver|]. apply IH. set_solver. }
    rewrite List.filter_app. cbn. rewrite List.filter_app, (Hnil opaque) by done.
    by destruct Hw as [->| ->].
  - by rewrite app_comm_cons, app_assoc, last_snoc.
Qed.

Lemma quoted_prefix e tail : quoted e -> quoted (e ++ tail) -> tail = [].
Proof.
  intros [He _]%quoted_count [Ht Hl]%quoted_count. rewrite List.filter_app, length_app, He in Ht.
  destruct tail as [|c tail _] using rev_ind; [done|].
  rewrite app_assoc, last_snoc in Hl. injection Hl as ->.
  rewrite List.filter_app, length_app in Ht. cbn in Ht. lia.
Qed.

Lemma header_valid t : is_valid_header_value t = true -> valid_str t.
Proof.
  unfold is_valid_header_value, valid_str. rewrite forallb_forall, Forall_forall.
  intros H c Hc%list_elem_of_In%H. unfold valid_char.
  apply orb_true_iff in Hc. destruct Hc; bool_to_prop; apply orb_true_iff; left; lia.
Qed.

Section Store.
Context {Remote Def : Type}.
Context (to_string_pretty : Remote -> result str str) (parse_def : str -> result Def str).
Context (convert : Remote -> result Def str) (text_sha256 : str -> str).

(** The record of an ETag: the digest of the body, then the tag. *)
Definition etag_record (body etag : str) : str := text_sha256 body ++ 10 :: etag.

(** [put_remote] once its body is serialized. *)
Definition put_body (body : str) (etag : option str) (f : PutFaults) (fs : Fs)
    : result unit str * Fs :=
  if remove_fails f then (Err (lit "failed to remove"), fs)
  else
    let fs := unlink EtagFile fs in
    if create_fails f then (Err (lit "failed to write"), fs)
    else
      let '(i, fs) := create BodyFile fs in
      match body_stops_at f with
      | Some n => (Err (lit "failed to write"), write_at i 0 (take n (as_bytes body)) fs)
      | None =>
          let fs := write_at i 0 (as_bytes body) fs in
          match etag with
          | None => (Ok tt, fs)
          | Some etag =>
              if etag_create_fails f then (Err (lit "failed to write"), fs)
              else
                let '(j, fs) := create EtagFile fs in
                if etag_write_fails f then (Err (lit "failed to write"), fs)
                else (Ok tt, write_at j 0 (as_bytes (etag_record body etag)) fs)
          end
      end.

Definition put_remote (sent : Remote) (etag : option str) (f : PutFaults) (fs : Fs)
    : result unit str * Fs :=
  match to_string_pretty sent with
  | Err e => (Err e, fs)
  | Ok body => put_body body etag f fs
  end.

(** The ETag a reader of [body] honors. *)
Definition recorded_etag (body : str) (fs : Fs) (read_fails : bool) : option str :=
  if read_fails then None
  else
    bytes ← contents fs EtagFile;
    recorded ← from_utf8 bytes;
    '(digest, etag) ← split_once 10 recorded;
    if str_eqb digest (text_sha256 body) then
      if is_valid_header_value etag then Some etag else None
    else None.

(** The body is read in [fs], the ETag later, in [fs']. *)
Definition get_remote (fs fs' : Fs) (body_fails etag_fails : bool)
    : result (option (Def * option str)) str :=
  match contents fs BodyFile with
  | None => Ok None
  | Some bytes =>
      match (if body_fails then None else from_utf8 bytes) with
      | None => Err (lit "failed to read")
      | Some body =>
          match parse_def body with
          | Err e => Err e
          | Ok def => Ok (Some (def, recorded_etag body fs' etag_fails))
          end
      end
  end.

(** ** Revalidation before a job *)

(** [BenchmarkId::try_new]. *)
Context (valid_id : str -> bool).

Definition cached_of (read : result (option (Def * option str)) str)
    : option Def * option str :=
  match read with
  | Ok (Some (def, etag)) => (Some def, etag)
  | Ok None | Err _ => (None, None)
  end.

(** [read] is what [get_remote] answered; [fetch] is the server's answer to a conditional
    [GET]; the cache is written, if at all, in the [fs] that call finds. *)
Definition ensure_claim_benchmark_cached (benchmark_id : str)
    (read : result (option (Def * option str)) str)
    (fetch : option str -> result (ConditionalResponse Remote) MgmtError)
    (f : PutFaults) (fs : Fs) : result Def str * Fs :=
  if negb (valid_id benchmark_id) then (Err (lit "invalid benchmark id"), fs)
  else
    let '(cached, if_none_match) := cached_of read in
    match fetch if_none_match, cached with
    | Ok (Modified value etag), _ =>
        match convert value with
        | Err e => (Err e, fs)
        | Ok def => (Ok def, (put_remote value etag f fs).2)
        end
    | Ok (NotModified _), Some cached => (Ok cached, fs)
    | Ok (NotModified _), None => (Err (lit "304 without a cached definition"), fs)
    | Err e, Some cached =>
        if bool_decide (http_status e = Some 404) then (Err (lit "GET"), fs) else (Ok cached, fs)
    | Err _, None => (Err (lit "GET"), fs)
    end.

(** ** Writers at once

    Any number of processes run [put_remote] for one benchmark - a pull and a claim, say -
    while others prune it. Each may stop at any call, failed or killed. *)

Record put := { put_text : str; put_etag : option str }.

Inductive phase :=
| PRemove
| PCreate
| PBody (i off : nat)
| PCreateEtag
| PEtag (i : nat)
| PEnded.

Inductive put_step (p : put) : phase -> Fs -> phase -> Fs -> Prop :=
| p_remove fs : put_step p PRemove fs PCreate (unlink EtagFile fs)
| p_create fs i fs' : create BodyFile fs = (i, fs') -> put_step p PCreate fs (PBody i 0) fs'
| p_write i off n fs :
    (off + n <= length (as_bytes (put_text p)))%nat ->
    put_step p (PBody i off) fs (PBody i (off + n))
      (write_at i off (take n (drop off (as_bytes (put_text p)))) fs)
| p_written i fs :
    put_step p (PBody i (length (as_bytes (put_text p)))) fs
      (match put_etag p with Some _ => PCreateEtag | None => PEnded end) fs
| p_create_etag fs j fs' : create EtagFile fs = (j, fs') -> put_step p PCreateEtag fs (PEtag j) fs'
| p_record j e fs :
    put_etag p = Some e ->
    put_step p (PEtag j) fs PEnded (write_at j 0 (as_bytes (etag_record (put_text p) e)) fs)
| p_stops ph fs : put_step p ph fs PEnded fs.

Record Cache := { cache_fs : Fs; cache_puts : list (put * phase) }.

Inductive cache_init : Cache -> Prop :=
| cache_empty :
    cache_init {| cache_fs := {| inodes := []; at_path := fun _ => None |}; cache_puts := [] |}.

Inductive cache_step (sent : put -> Prop) : Cache -> Cache -> Prop :=
| c_start s p :
    sent p ->
    cache_step sent s {| cache_fs := cache_fs s; cache_puts := cache_puts s ++ [(p, PRemove)] |}
| c_put s k p ph ph' fs' :
    cache_puts s !! k = Some (p, ph) -> put_step p ph (cache_fs s) ph' fs' ->
    cache_step sent s {| cache_fs := fs'; cache_puts := <[k := (p, ph')]> (cache_puts s) |}
| c_pruned s f :
    cache_step sent s {| cache_fs := unlink f (cache_fs s); cache_puts := cache_puts s |}.

(** ** The invariant

    Each inode serves one of the two files for good ([kinds]); one that serves the ETag is
    empty or starts with a whole record of some put. *)

Definition record_like (ps : list put) (c : list Z) : Prop :=
  c = [] \/ exists p e tail, p ∈ ps /\ put_etag p = Some e /\
    c = as_bytes (etag_record (put_text p) e) ++ tail.

Definition fs_ok (kinds : list file) (ps : list put) (fs : Fs) : Prop :=
  length kinds = length (inodes fs) /\
  (forall f i, at_path fs f = Some i -> kinds !! i = Some f) /\
  (forall i c, kinds !! i = Some EtagFile -> inodes fs !! i = Some c -> record_like ps c).

Definition phase_ok (kinds : list file) (ph : phase) : Prop :=
  match ph with
  | PBody i _ => kinds !! i = Some BodyFile
  | PEtag i => kinds !! i = Some EtagFile
  | _ => True
  end.

Definition cache_ok (s : Cache) : Prop :=
  exists kinds, fs_ok kinds (cache_puts s).*1 (cache_fs s) /\
    Forall (phase_ok kinds) (cache_puts s).*2.

Lemma record_like_mono ps ps' c : ps ⊆ ps' -> record_like ps c -> record_like ps' c.
Proof. intros Hs [->|(p & e & tl & Hp & ?)]; [by left|right]. exists p, e, tl. auto. Qed.

Lemma fs_ok_mono kinds ps ps' fs : ps ⊆ ps' -> fs_ok kinds ps fs -> fs_ok kinds ps' fs.
Proof.
  intros Hs (Hl & Hp & Hr). repeat split; [done|done|].
  intros i c Hk Hc. eapply record_like_mono; eauto.
Qed.

Lemma phase_ok_prefix kinds kinds' ph :
  kinds `prefix_of` kinds' -> phase_ok kinds ph -> phase_ok kinds' ph.
Proof. intros Hp. destruct ph; cbn; try done; intros; by eapply prefix_lookup_Some. Qed.

Lemma unlink_ok kinds ps f fs : fs_ok kinds ps fs -> fs_ok kinds ps (unlink f fs).
Proof.
  intros (Hl & Hp & Hr). repeat split; [done| |done].
  intros g i. cbn. unfold set_path. case_decide; [done|apply Hp].
Qed.

Lemma create_ok kinds ps f fs i fs' :
  fs_ok kinds ps fs -> create f fs = (i, fs') ->
  exists kinds', kinds `prefix_of` kinds' /\ fs_ok kinds' ps fs' /\ kinds' !! i = Some f.
Proof.
  intros (Hl & Hp & Hr). unfold create. destruct (at_path fs f) as [j|] eqn:E; intros [= <- <-].
  - exists kinds. split; [done|]. split; [|by apply Hp].
    repeat split; cbn; [by rewrite length_insert|done|].
    intros k c Hk Hc. destruct (decide (j = k)) as [->|Hn].
    + apply list_lookup_insert_Some in Hc as [(_ & <- & _)|[? _]]; [by left|done].
    + rewrite list_lookup_insert_ne in Hc by done. eauto.
  - exists (kinds ++ [f]). split; [by apply prefix_app_r|].
    assert ((kinds ++ [f]) !! length (inodes fs) = Some f) as Hnew
      by (rewrite <- Hl; by apply list_lookup_middle).
    split; [|done]. repeat split; cbn; [rewrite !length_app; cbn; lia| |].
    + intros g k. unfold set_path. case_decide as Hg; [intros [= <-]; by subst g|].
      intros Hk. eapply prefix_lookup_Some; [by apply Hp|by apply prefix_app_r].
    + intros k c Hk Hc. apply lookup_app_Some in Hc as [Hc|[? Hc]].
      * apply lookup_lt_Some in Hc as Hlt. rewrite lookup_app_l in Hk by lia. eauto.
      * apply list_lookup_singleton_Some in Hc as [_ <-]. by left.
Qed.

Lemma write_body_ok kinds ps i off bytes fs :
  fs_ok kinds ps fs -> kinds !! i = Some BodyFile -> fs_ok kinds ps (write_at i off bytes fs).
Proof.
  intros (Hl & Hp & Hr) Hi. repeat split; cbn; [by rewrite length_alter|done|].
  intros k c Hk Hc. destruct (decide (i = k)) as [->|Hn]; [congruence|].
  rewrite list_lookup_alter_ne in Hc by done. eauto.
Qed.

Lemma write_record_ok kinds ps j p e fs :
  fs_ok kinds ps fs -> p ∈ ps -> put_etag p = Some e ->
  fs_ok kinds ps (write_at j 0 (as_bytes (etag_record (put_text p) e)) fs).
Proof.
  intros (Hl & Hp & Hr) Hin He. repeat split; cbn; [by rewrite length_alter|done|].
  intros k c Hk Hc. destruct (decide (j = k)) as [->|Hn].
  - rewrite list_lookup_alter, decide_True in Hc by done. apply fmap_Some in Hc as (c' & _ & ->).
    right. unfold overwrite. cbn. eauto 6.
  - rewrite list_lookup_alter_ne in Hc by done. eauto.
Qed.

Lemma put_step_ok kinds ps p ph fs ph' fs' :
  fs_ok kinds ps fs -> phase_ok kinds ph -> p ∈ ps -> put_step p ph fs ph' fs' ->
  exists kinds', kinds `prefix_of` kinds' /\ fs_ok kinds' ps fs' /\ phase_ok kinds' ph'.
Proof.
  intros Hok Hph Hin Hs.
  destruct Hs as [fs|fs i fs' Hc|i off n fs _|i fs|fs j fs' Hc|j e fs He|ph fs].
  - exists kinds. split_and!; [done|by apply unlink_ok|done].
  - by eapply create_ok.
  - exists kinds. split_and!; [done|by apply write_body_ok|done].
  - exists kinds. split_and!; [done..|]. by destruct (put_etag p).
  - by eapply create_ok.
  - exists kinds. split_and!; [done|by apply write_record_ok|done].
  - by exists kinds.
Qed.

Lemma cache_puts_sent sent s :
  reachable cache_init (cache_step sent) s -> forall p, p ∈ (cache_puts s).*1 -> sent p.
Proof.
  revert s. apply (reachable_invariant _ _ (fun s => forall p, p ∈ (cache_puts s).*1 -> sent p)).
  { intros _ [] p. cbn. set_solver. }
  intros s0 s1 IH Hst. destruct Hst as [s p Hp|s k p ph ph' fs' Hk Hst|s f]; cbn in *; [|..|done].
  - intros q. rewrite fmap_app. cbn. set_solver.
  - rewrite list_fmap_insert. cbn. rewrite list_insert_id; [done|].
    by rewrite list_lookup_fmap, Hk.
Qed.

Lemma cache_reachable_ok sent s : reachable cache_init (cache_step sent) s -> cache_ok s.
Proof.
  revert s. apply reachable_invariant.
  { intros _ []. exists []. split; [|constructor]. repeat split; done. }
  intros s0 s1 (kinds & Hf & Hph) Hst. destruct Hst as [s p _|s k p ph ph' fs' Hk Hst|s f]; cbn in *.
  - exists kinds. cbn. rewrite !fmap_app. split; [eapply fs_ok_mono; [|done]; set_solver|].
    apply Forall_app. split; [done|]. by repeat constructor.
  - pose proof (list_lookup_fmap snd (cache_puts s) k) as H2. rewrite Hk in H2.
    pose proof (list_lookup_fmap fst (cache_puts s) k) as H1. rewrite Hk in H1.
    destruct (put_step_ok kinds (cache_puts s).*1 p ph (cache_fs s) ph' fs') as (kinds' & Hp & Hf' & Hph');
      [done|by eapply Forall_lookup_1|by eapply list_elem_of_lookup_2|done|].
    exists kinds'. cbn. rewrite !list_fmap_insert. cbn. rewrite list_insert_id by done.
    split; [done|]. apply Forall_insert; [|done].
    eapply Forall_impl; [exact Hph|]. intros. by eapply phase_ok_prefix.
  - exists kinds. split; [by apply unlink_ok|done].
Qed.

(** ** What is relied on

    [tag] is the ETag the server gives a benchmark: a quoted entity tag that hashes the
    whole body. The digest is a line of text without collisions, and a serialized
    benchmark parses to what it converts to. *)

Class CatalogLaws (tag : Remote -> str) : Prop := {
  sha_line : forall b, 10 ∉ text_sha256 b;
  sha_text : forall r b, to_string_pretty r = Ok b -> valid_str (text_sha256 b);
  sha_inj : forall b b', text_sha256 b = text_sha256 b' -> b = b';
  tag_header : forall r, is_valid_header_value (tag r) = true;
  tag_quoted : forall r, quoted (tag r);
  tag_inj : forall r r', tag r = tag r' -> r = r';
  pretty_roundtrip : forall r b d,
    to_string_pretty r = Ok b -> convert r = Ok d -> parse_def b = Ok d;
}.

(** A put of something the server sent, now or before. *)
Definition sent_by (tag : Remote -> str) (p : put) : Prop :=
  exists r d, to_string_pretty r = Ok (put_text p) /\ convert r = Ok d /\
    (put_etag p = None \/ put_etag p = Some (tag r)).

(** A server that holds [current]: it answers [304] only to its ETag. *)
Definition answers (tag : Remote -> str) (current : Remote)
    (fetch : option str -> result (ConditionalResponse Remote) MgmtError) : Prop :=
  forall if_none_match, match fetch if_none_match with
    | Ok (Modified value etag) =>
        value = current /\ (etag = None \/ etag = Some (tag current))
    | Ok (NotModified _) => if_none_match = Some (tag current)
    | Err _ => True
    end.

Section Catalog.
Context (tag : Remote -> str) `{CL : CatalogLaws tag}.

Lemma recorded_etag_sent s body fails t :
  reachable cache_init (cache_step (sent_by tag)) s ->
  recorded_etag body (cache_fs s) fails = Some t ->
  exists r tail, to_string_pretty r = Ok body /\ t = tag r ++ tail /\
    exists d, convert r = Ok d.
Proof.
  intros Hreach. pose proof (cache_puts_sent _ _ Hreach) as Hsent.
  apply cache_reachable_ok in Hreach as (kinds & (_ & Hpath & Hrec) & _).
  unfold recorded_etag. destruct fails; [done|]. intros H.
  apply bind_Some in H as (bytes & Hb & H). apply bind_Some in H as (recorded & Hu & H).
  apply bind_Some in H as ([digest etag] & Hsplit & H).
  unfold contents in Hb. apply bind_Some in Hb as (i & Hi & Hb).
  apply (Hrec i) in Hb; [|by apply Hpath].
  destruct Hb as [->|(p & e & tail & Hp & He & ->)]; [by injection Hu as <-|].
  apply Hsent in Hp as (r & d & Hpr & Hd & [?|Ht]); [congruence|].
  assert (e = tag r) as -> by congruence.
  apply from_utf8_prefix in Hu as [tail' ->].
  2: { apply Forall_app. split; [by eapply sha_text|]. constructor; [done|].
       apply header_valid, tag_header. }
  unfold etag_record in Hsplit. rewrite <- app_assoc in Hsplit. cbn [app] in Hsplit.
  assert (split_once 10 (text_sha256 (put_text p) ++ 10 :: tag r ++ tail') =
    Some (text_sha256 (put_text p), tag r ++ tail')) as Hs
    by (apply split_once_spec; split; [done|apply sha_line]).
  rewrite Hs in Hsplit. injection Hsplit as <- <-.
  repeat case_match; simplify_eq. apply str_eqb_eq, sha_inj in H0 as <-. eauto 6.
Qed.

(** What a reader finds is what the server sent, whatever is written meanwhile. *)
Lemma get_remote_sent s fs body_fails etag_fails def t :
  reachable cache_init (cache_step (sent_by tag)) s ->
  get_remote fs (cache_fs s) body_fails etag_fails = Ok (Some (def, Some t)) ->
  exists r body tail, contents fs BodyFile ≫= from_utf8 = Some body /\
    to_string_pretty r = Ok body /\ convert r = Ok def /\ t = tag r ++ tail.
Proof.
  intros Hreach. unfold get_remote. destruct (contents fs BodyFile) as [bytes|]; [|done].
  destruct body_fails; [done|]. destruct (from_utf8 bytes) as [body|] eqn:Eu; [|done].
  destruct (parse_def body) as [d|e] eqn:Ep; [|done]. intros [= <- Ht].
  apply recorded_etag_sent in Ht as (r & tail & Hr & -> & d' & Hd); [|done].
  exists r, body, tail. split_and!; [done..| |done].
  pose proof (pretty_roundtrip _ _ _ Hr Hd). congruence.
Qed.

Lemma last_put_step s l p ph fs ph' fs' :
  reachable cache_init (cache_step s) {| cache_fs := fs; cache_puts := l ++ [(p, ph)] |} ->
  put_step p ph fs ph' fs' ->
  reachable cache_init (cache_step s) {| cache_fs := fs'; cache_puts := l ++ [(p, ph')] |}.
Proof.
  intros Hr Hs. eapply reach_step; [exact Hr|].
  pose proof (c_put s {| cache_fs := fs; cache_puts := l ++ [(p, ph)] |} (length l) p ph ph' fs')
    as Hc. cbn in Hc. rewrite insert_app_r_alt, Nat.sub_diag in Hc by lia. cbn in Hc.
  apply Hc; [by apply list_lookup_middle|done].
Qed.

(** A put by itself is one of the runs of its system calls. *)
Lemma put_body_reachable sent s p f :
  reachable cache_init (cache_step sent) s -> sent p ->
  exists s', reachable cache_init (cache_step sent) s' /\
    cache_fs s' = (put_body (put_text p) (put_etag p) f (cache_fs s)).2.
Proof.
  intros Hr Hp. pose proof (reach_step _ _ _ _ Hr (c_start sent s p Hp)) as H0. cbn in H0.
  set (l := cache_puts s) in *. unfold put_body.
  destruct (remove_fails f); [by eexists; split; [exact H0|]|].
  pose proof (last_put_step _ _ _ _ _ _ _ H0 (p_remove p _)) as H1.
  destruct (create_fails f); [by eexists; split; [exact H1|]|].
  destruct (create BodyFile _) as [i fs1] eqn:E1.
  pose proof (last_put_step _ _ _ _ _ _ _ H1 (p_create p _ _ _ E1)) as H2.
  assert (forall n, (n <= length (as_bytes (put_text p)))%nat ->
    reachable cache_init (cache_step sent)
      {| cache_fs := write_at i 0 (take n (as_bytes (put_text p))) fs1;
         cache_puts := l ++ [(p, PBody i n)] |}) as H3.
  { intros n Hn. exact (last_put_step _ _ _ _ _ _ _ H2 (p_write p i 0 n fs1 Hn)). }
  destruct (body_stops_at f) as [n|].
  { eexists. split; [apply (H3 (n `min` length (as_bytes (put_text p)))%nat); lia|].
    cbn [cache_fs snd]. f_equal. by rewrite <- take_take, (take_ge (as_bytes (put_text p))). }
  specialize (H3 _ (le_n _)). rewrite take_ge in H3 by lia.
  pose proof (last_put_step _ _ _ _ _ _ _ H3 (p_written p i _)) as H4.
  destruct (put_etag p) as [e|] eqn:Ee; [|by eexists; split; [exact H4|]].
  destruct (etag_create_fails f); [by eexists; split; [exact H4|]|].
  destruct (create EtagFile _) as [j fs2] eqn:E2.
  pose proof (last_put_step _ _ _ _ _ _ _ H4 (p_create_etag p _ _ _ E2)) as H5.
  destruct (etag_write_fails f); [by eexists; split; [exact H5|]|].
  pose proof (last_put_step _ _ _ _ _ _ _ H5 (p_record p j e fs2 Ee)) as H6.
  by eexists; split; [exact H6|].
Qed.
End Catalog.
End Store.

(** ** Theorems *)

(** C27: the two files of a cached benchmark may come from different writes - writers run
    at once, any of them may stop at any call, others prune - but an ETag is honored only
    for the body it was recorded with: when [get_remote] answers one, the body it read is
    byte for byte one the server sent, the definition is that one's, and the ETag is its
    tag, or no entity tag at all (a record over the rest of a longer one). So a [304] never
    stands for bytes that are not on disk. *)
Theorem cached_etag_is_for_its_body {Remote Def : Type}
    (to_string_pretty : Remote -> result str str) (parse_def : str -> result Def str)
    (convert : Remote -> result Def str) (text_sha256 : str -> str) (tag : Remote -> str)
    `{!CatalogLaws to_string_pretty parse_def convert text_sha256 tag}
    (s : Cache) (fs : Fs) (body_fails etag_fails : bool) (def : Def) (t : str) :
  reachable cache_init (cache_step text_sha256 (sent_by to_string_pretty convert tag)) s ->
  get_remote parse_def text_sha256 fs (cache_fs s) body_fails etag_fails =
    Ok (Some (def, Some t)) ->
  exists r body, contents fs BodyFile ≫= from_utf8 = Some body /\
    to_string_pretty r = Ok body /\ convert r = Ok def /\
    tag r `prefix_of` t /\ (quoted t -> t = tag r).
Proof.
  intros Hr Hg. eapply get_remote_sent in Hg as (r & body & tail & Hb & Hp & Hc & ->);
    [|done|exact Hr].
  exists r, body. split_and!; [done..|by exists tail|].
  intros Hq. rewrite (quoted_prefix (tag r) tail); [by rewrite app_nil_r|by eapply tag_quoted|done].
Qed.

(** The definition a claimed job runs. Whatever the cache went through, if the server
    answers, the job runs the server's current definition, cached or not, or fails when
    that one does not convert; during an outage it runs the cached one, and a [404] fails
    the claim. The cache it leaves is again one of those. *)
Theorem claimed_benchmark_is_current {Remote Def : Type}
    (to_string_pretty : Remote -> result str str) (parse_def : str -> result Def str)
    (convert : Remote -> result Def str) (text_sha256 : str -> str) (tag : Remote -> str)
    `{!CatalogLaws to_string_pretty parse_def convert text_sha256 tag}
    (valid_id : str -> bool) (id : str) (current : Remote)
    (fetch : option str -> result (ConditionalResponse Remote) MgmtError)
    (s s' : Cache) (fs : Fs) (body_fails etag_fails : bool) (f : PutFaults) :
  let runs := reachable cache_init
    (cache_step text_sha256 (sent_by to_string_pretty convert tag)) in
  let read := get_remote parse_def text_sha256 fs (cache_fs s) body_fails etag_fails in
  let out := ensure_claim_benchmark_cached to_string_pretty convert text_sha256 valid_id id
    read fetch f (cache_fs s') in
  runs s -> runs s' -> answers tag current fetch -> valid_id id = true ->
  result_ok out.1 =
    match fetch (cached_of read).2 with
    | Ok _ => result_ok (convert current)
    | Err e => if bool_decide (http_status e = Some 404) then None else (cached_of read).1
    end /\
  exists s'', runs s'' /\ cache_fs s'' = out.2.
Proof.
  intros runs read out Hs Hs' Ha Hid. subst out. unfold ensure_claim_benchmark_cached.
  rewrite Hid. cbn [negb]. destruct (cached_of read) as [cached inm] eqn:Ec. cbn [fst snd].
  specialize (Ha inm). destruct (fetch inm) as [[value etag|etag]|e].
  - destruct Ha as [-> Ht]. destruct (convert current) as [d|e] eqn:Ed; [|by eauto].
    cbn [fst snd result_ok]. split; [done|]. unfold put_remote.
    destruct (to_string_pretty current) as [body|e] eqn:Ep; [|by eauto].
    apply (put_body_reachable text_sha256 _ s' {| put_text := body; put_etag := etag |} f Hs').
    by exists current, d.
  - subst inm. unfold cached_of in Ec. destruct read as [[[d t]|]|e] eqn:Er; simplify_eq.
    cbn [fst snd result_ok]. split; [|by eauto].
    eapply get_remote_sent in Er as (r & body & tail & _ & _ & Hc & Ht); [|done|exact Hs].
    assert (tail = []) as ->.
    { apply (quoted_prefix (tag r)); [by eapply tag_quoted|rewrite <- Ht; by eapply tag_quoted]. }
    rewrite app_nil_r in Ht. eapply tag_inj in Ht as ->; [|done]. by rewrite Hc.
  - destruct cached as [c|]; [|cbn; split; [by case_match|by eauto]].
    case_bool_decide; cbn; eauto.
Qed.

(** ** A concrete catalog

    Two benchmarks; the cache holds the first, put whole, and then the server changes it. *)

Definition demo_pretty (r : bool) : result str str := Ok (if r then lit "a" else lit "b").

Definition demo_parse (s : str) : result bool str := Ok (bool_decide (s = lit "a")).

Definition demo_sha (s : str) : str := map (fun c => if c <=? 10 then c - 1 else c) s.

Definition demo_tag (r : bool) : str := 34 :: (if r then lit "v1" else lit "v2") ++ [34].

#[export] Instance demo_catalog : CatalogLaws demo_pretty demo_parse Ok demo_sha demo_tag.
Proof.
  split.
  - intros b H. apply list_elem_of_fmap in H as (c & H & _). case_match; bool_to_prop; lia.
  - intros [] b [= <-]; apply Forall_forall; intros c Hc;
      rewrite list_elem_of_In in Hc; cbn in Hc; destruct Hc as [<-|[]]; reflexivity.
  - intros b. induction b as [|c b IH]; intros [|c' b'] H; [done|discriminate..|].
    injection H as Hc Hb. f_equal; [|by apply IH]. repeat case_match; bool_to_prop; lia.
  - by intros [].
  - intros r. exists [], (if r then lit "v1" else lit "v2"). split_and!; [by left| |done].
    destruct r; rewrite list_elem_of_In; vm_compute; intuition discriminate.
  - by intros [] [].
  - intros [] b d [= <-] [= <-]; reflexivity.
Qed.

Definition demo_faults : PutFaults :=
  {| remove_fails := false; create_fails := false; body_stops_at := None;
     etag_create_fails := false; etag_write_fails := false |}.

Definition demo_put : put := {| put_text := lit "a"; put_etag := Some (demo_tag true) |}.

Definition demo_runs : Cache -> Prop :=
  reachable cache_init (cache_step demo_sha (sent_by demo_pretty Ok demo_tag)).

Lemma demo_cached :
  exists s, demo_runs s /\ forall fs, contents fs BodyFile = Some (lit "a") ->
    get_remote demo_parse demo_sha fs (cache_fs s) false false =
      Ok (Some (true, Some (demo_tag true))).
Proof.
  destruct (put_body_reachable demo_sha (sent_by demo_pretty Ok demo_tag) _ demo_put demo_faults
    (reach_init _ _ _ cache_empty)) as (s & Hs & Hfs); [by exists true, true; eauto|].
  exists s. split; [exact Hs|]. intros fs Hb. unfold get_remote. rewrite Hb, Hfs. reflexivity.
Qed.

Definition demo_body : Fs := {| inodes := [lit "a"]; at_path := fun _ => Some 0%nat |}.

Lemma cached_etag_is_for_its_body_witness :
  exists r body, contents demo_body BodyFile ≫= from_utf8 = Some body /\
    demo_pretty r = Ok body /\ Ok (E := str) r = Ok true /\
    demo_tag r `prefix_of` demo_tag true /\ (quoted (demo_tag true) -> demo_tag true = demo_tag r).
Proof.
  destruct demo_cached as (s & Hs & Hg).
  eapply (cached_etag_is_for_its_body demo_pretty demo_parse Ok demo_sha demo_tag s demo_body
    false false true (demo_tag true)); [exact Hs|]. apply Hg. reflexivity.
Defined.

(** A server that answers as [answers] says: here it holds the second benchmark. *)
Definition demo_fetch (if_none_match : option str)
    : result (ConditionalResponse bool) MgmtError :=
  if bool_decide (if_none_match = Some (demo_tag false)) then Ok (NotModified None)
  else Ok (Modified false (Some (demo_tag false))).

Lemma claimed_benchmark_is_current_witness :
  exists s, demo_runs s /\
    result_ok (ensure_claim_benchmark_cached demo_pretty Ok demo_sha (fun _ => true) (lit "x")
      (get_remote demo_parse demo_sha demo_body (cache_fs s) false false) demo_fetch demo_faults
      (cache_fs s)).1 = Some false.
Proof.
  destruct demo_cached as (s & Hs & Hg). exists s. split; [exact Hs|].
  destruct (claimed_benchmark_is_current demo_pretty demo_parse Ok demo_sha demo_tag
    (fun _ => true) (lit "x") false demo_fetch s s demo_body false false demo_faults)
    as [H _]; [exact Hs|exact Hs| |reflexivity|].
  - intros inm. unfold demo_fetch. destruct (bool_decide_reflect (inm = Some (demo_tag false)));
      [done|]. split; [reflexivity|by right].
  - rewrite H, (Hg demo_body eq_refl). reflexivity.
Defined.
