(* ===== verification/Resume.v ===== *)
(** * Resumable downloads ([crates/pipette-artifacts/src/resume.rs])

    One attempt of a download: it continues the file a broken attempt left, when the answer
    to its range proves to be the same object, and starts from zero otherwise. With it the
    headers it reads ([crates/pipette-http/src/range.rs]), the writer that hashes what it
    forwards ([digest.rs]), the copy loop ([progress.rs]) and the two callers that check
    what came of it: the public files of [model/fetch.rs] and the vault's ([vault.rs]).

    The server and the disk are the class [Source], free to answer anything. Progress
    reports are not modelled. *)

From Stdlib Require Import ZArith Lia String.
From stdpp Require Import prelude list.
From S2P Require Import Prelude Str.
From S2P Require Benchmarks.

Local Open Scope Z_scope.

(** ** Headers *)

Record ContentRange := { first : Z; last : Z; range_total : option Z }.

(** [ContentRange::from_headers], of the header's value. *)
Definition content_range_of (header : option str) : option ContentRange :=
  value ← header;
  rest ← strip_prefix (lit "bytes ") value;
  '(range, total) ← split_once 47 rest;
  '(a, b) ← split_once 45 range;
  first ← parse_uint u64_max (trim a);
  last ← parse_uint u64_max (trim b);
  if first <=? last
  then Some {| first := first; last := last; range_total := parse_uint u64_max (trim total) |}
  else None.

(** [strong_etag]: the [ETag], unless it is weak. *)
Definition strong_etag_of (header : option str) : option str :=
  value ← header;
  if starts_with (trim value) (lit "W/") then None else Some (trim value).

(** ** A response body *)

Inductive read_answer :=
| Chunk (bytes : list Z)
| Interrupted
| ReadFailed (source : str).

(** What successive reads answer; after them, and at an empty chunk, the body is over. *)
Record Body := {
  status : Z;
  etag_header : option str;
  content_range_header : option str;
  content_length : option Z;
  reads : list read_answer;
}.

Definition strong_etag (b : Body) : option str := strong_etag_of (etag_header b).
Definition content_range (b : Body) : option ContentRange :=
  content_range_of (content_range_header b).

(** ** A download in progress *)

(** The bytes that reached the disk, those that were hashed, and their count. *)
Record HashingWriter := { inner : list Z; hashed : list Z; written : Z }.

Definition new_writer : HashingWriter := {| inner := []; hashed := []; written := 0 |}.

Record Expect := { etag : option str; total : option Z }.

#[export] Instance expect_eq_dec : EqDecision Expect.
Proof. solve_decision. Defined.

Record Partial := { writer : HashingWriter; expected : Expect; resumed_at : option Z }.

Record ResumePoint := { offset : Z; point_etag : str; point_total : option Z }.

Definition resume_point (p : Partial) : option ResumePoint :=
  let offset := written (writer p) in
  if offset =? 0 then None
  else
    t ← etag (expected p);
    Some {| offset := offset; point_etag := t; point_total := total (expected p) |}.

(** [Partial::resume]: the size, if unknown, is that of the [206]. *)
Definition resume (p : Partial) (offset : Z) (b : Body) : Partial :=
  {| writer := writer p;
     expected :=
       {| etag := etag (expected p);
          total := option_or (total (expected p)) (content_range b ≫= range_total) |};
     resumed_at := option_or (resumed_at p) (Some offset) |}.

Definition continued_by (point : ResumePoint) (b : Body) : bool :=
  (status b =? 206) &&
  bool_decide (strong_etag b = Some (point_etag point)) &&
  match content_range b with
  | None => false
  | Some range =>
      (first range =? offset point) &&
      (bool_decide (point_total point = None) ||
       bool_decide (range_total range = point_total point))
  end.

(** ** The source *)

Class Source (W E : Type) := {
  get : option ResumePoint -> W -> result Body E * W;
  range_refused : E -> bool;
  io_error : str -> E;
  (** The destination's directory and the destination, empty. *)
  create_dest : W -> result unit str * W;
  (** [File::write]: how many of the bytes were taken. *)
  disk_write : list Z -> W -> result nat str * W;
  disk_flush : W -> result unit str * W;
}.

Section Resume.
Context {W E : Type} `{S : Source W E}.
(** What a later range must match to continue a file that a body starts. *)
Context (expect : Body -> Expect).

(** [HashingWriter::write]. *)
Definition write (buf : list Z) (h : HashingWriter) (w : W)
    : result nat str * HashingWriter * W :=
  match disk_write buf w with
  | (Err e, w) => (Err e, h, w)
  | (Ok n, w) =>
      if (n <=? length buf)%nat then
        (Ok n, {| inner := inner h ++ take n buf; hashed := hashed h ++ take n buf;
                  written := sat_add u64_max (written h) (Z.of_nat n) |}, w)
      else
        (Err (lit "inner writer reported more bytes than it was given"),
         {| inner := inner h ++ buf; hashed := hashed h; written := written h |}, w)
  end.

(** [Write::write_all]. Each call takes a byte or more, so the buffer's length bounds them;
    a call that was interrupted is repeated, which is not shown. *)
Fixpoint write_all (fuel : nat) (buf : list Z) (h : HashingWriter) (w : W)
    : result unit str * HashingWriter * W :=
  match buf, fuel with
  | [], _ => (Ok tt, h, w)
  | _, O => (Err (lit "failed to write whole buffer"), h, w)
  | _, Datatypes.S fuel =>
      match write buf h w with
      | (Err e, h, w) => (Err e, h, w)
      | (Ok O, h, w) => (Err (lit "failed to write whole buffer"), h, w)
      | (Ok n, h, w) => write_all fuel (drop n buf) h w
      end
  end.

(** [copy_reporting]. *)
Fixpoint copy_reporting (answers : list read_answer) (h : HashingWriter) (w : W)
    : result unit str * HashingWriter * W :=
  match answers with
  | [] => (Ok tt, h, w)
  | Chunk [] :: _ => (Ok tt, h, w)
  | Chunk chunk :: answers =>
      match write_all (length chunk) chunk h w with
      | (Ok _, h, w) => copy_reporting answers h w
      | (Err e, h, w) => (Err e, h, w)
      end
  | Interrupted :: answers => copy_reporting answers h w
  | ReadFailed e :: _ => (Err e, h, w)
  end.

(** [open]: the body of an attempt, and the file it continues, if it does. The second
    component is what is left in [partial]. *)
Definition open (partial : option Partial) (w : W)
    : result (Body * option Partial) E * option Partial * W :=
  match partial ≫= resume_point with
  | None =>
      match get None w with
      | (Ok b, w) => (Ok (b, None), None, w)
      | (Err e, w) => (Err e, None, w)
      end
  | Some point =>
      let restart (whole_file : option Body) (w : W) :=
        match whole_file with
        | Some b => (Ok (b, None), None, w)
        | None =>
            match get None w with
            | (Ok b, w) => (Ok (b, None), None, w)
            | (Err e, w) => (Err e, None, w)
            end
        end in
      match get (Some point) w with
      | (Ok b, w) =>
          if continued_by point b
          then (Ok (b, (fun file => resume file (offset point) b) <$> partial), None, w)
          else if status b =? 200 then restart (Some b) w
          else restart None w
      | (Err e, w) => if range_refused e then restart None w else (Err e, partial, w)
      end
  end.

(** One round of [attempt]'s loop, after [open]. [Ok None] asks for the bytes that follow. *)
Definition stream (b : Body) (continued : option Partial) (w : W)
    : result (option Partial) E * option Partial * W :=
  let piece_end := last <$> (_ ← continued; content_range b) in
  let '(file, w) :=
    match continued with
    | Some file => (Ok file, w)
    | None =>
        match create_dest w with
        | (Err e, w) => (Err (io_error e), w)
        | (Ok _, w) =>
            (Ok {| writer := new_writer; expected := expect b; resumed_at := None |}, w)
        end
    end in
  match file with
  | Err e => (Err e, None, w)
  | Ok file =>
      let '(copied, h, w) := copy_reporting (reads b) (writer file) w in
      let '(copied, w) :=
        match copied with
        | Ok _ => disk_flush w
        | Err e => (Err e, w)
        end in
      let file := {| writer := h; expected := expected file; resumed_at := resumed_at file |} in
      match copied with
      | Err e => (Err (io_error e), Some file, w)
      | Ok _ =>
          let stopped_short :=
            match piece_end with
            | Some last => written h =? sat_add u64_max last 1
            | None => false
            end &&
            match total (expected file) with
            | Some total => written h <? total
            | None => false
            end in
          if stopped_short then (Ok None, Some file, w) else (Ok (Some file), None, w)
      end
  end.

Fixpoint attempt (fuel : nat) (partial : option Partial) (w : W)
    : option (result Partial E * option Partial * W) :=
  match fuel with
  | O => None
  | Datatypes.S fuel =>
      match open partial w with
      | (Err e, partial, w) => Some (Err e, partial, w)
      | (Ok (b, continued), _, w) =>
          match stream b continued w with
          | (Err e, partial, w) => Some (Err e, partial, w)
          | (Ok (Some file), partial, w) => Some (Ok file, partial, w)
          | (Ok None, partial, w) => attempt fuel partial w
          end
      end
  end.

(** ** The callers *)

(** The digest in hex. *)
Context (sha256_hex : list Z -> str).

Definition hex_digest (h : HashingWriter) : str := sha256_hex (hashed h).

Inductive FetchError :=
| SourceError (e : E)
| ResumedLengthMismatch (resumed_at expected actual : Z)
| ResumedSha256Mismatch (resumed_at : Z) (expected actual : str)
| Sha256Mismatch (expected actual : str).

(** What [fetch_public_file] checks of a finished file; the answer is the file's bytes. *)
Definition check_public (sha256 : option str) (file : Partial) : result (list Z) FetchError :=
  let digest_check :=
    let actual := hex_digest (writer file) in
    match sha256 with
    | Some pinned =>
        if str_eqb actual pinned then Ok (inner (writer file))
        else Err (match resumed_at file with
                  | Some at_byte => ResumedSha256Mismatch at_byte pinned actual
                  | None => Sha256Mismatch pinned actual
                  end)
    | None => Ok (inner (writer file))
    end in
  match resumed_at file, total (expected file) with
  | Some at_byte, Some size =>
      if negb (written (writer file) =? size)
      then Err (ResumedLengthMismatch at_byte size (written (writer file)))
      else digest_check
  | _, _ => digest_check
  end.

Definition fetch_public_file (fuel : nat) (sha256 : option str) (partial : option Partial) (w : W)
    : option (result (list Z) FetchError * option Partial * W) :=
  '(r, partial, w) ← attempt fuel partial w;
  Some (match r with Ok file => check_public sha256 file | Err e => Err (SourceError e) end,
        partial, w).
End Resume.

(** [PublicFile::expect]: the response's strong [ETag] and its length. *)
Definition public_expect (b : Body) : Expect :=
  {| etag := t ← strong_etag b; if Benchmarks.is_valid_header_value t then Some t else None;
     total := content_length b |}.

(** ** The vault *)

Record VaultResource := { sha256 : str; bytes : Z }.

(** The pin as a strong [ETag], and the size of the record. *)
Definition expect_of (r : VaultResource) : Expect :=
  {| etag := let t := 34 :: sha256 r ++ [34] in
       if Benchmarks.is_valid_header_value t then Some t else None;
     total := Some (bytes r) |}.

Inductive VaultError (E : Type) :=
| VaultSource (e : E)
| ResumedDrift (resumed_at : Z) (expected actual : str)
| Drift (expected actual : str).

Arguments VaultSource {E} _.
Arguments ResumedDrift {E} _ _ _.
Arguments Drift {E} _ _.

Section Vault.
Context {W E : Type} `{S : Source W E} (sha256_hex : list Z -> str).

Definition fetch_content (fuel : nat) (record : VaultResource) (partial : option Partial) (w : W)
    : option (result (list Z) (VaultError E) * option Partial * W) :=
  let partial :=
    file ← partial; if bool_decide (expected file = expect_of record) then Some file else None in
  '(r, partial, w) ← attempt (fun _ => expect_of record) fuel partial w;
  Some (match r with
    | Err e => (Err (VaultSource e), partial, w)
    | Ok file =>
        if written (writer file) <? bytes record
        then (Err (VaultSource (io_error (lit "received too few bytes"))), Some file, w)
        else
          let actual := hex_digest sha256_hex (writer file) in
          if str_eqb actual (sha256 record) then (Ok (inner (writer file)), partial, w)
          else (Err (match resumed_at file with
                     | Some at_byte => ResumedDrift at_byte (sha256 record) actual
                     | None => Drift (sha256 record) actual
                     end), partial, w)
    end).
End Vault.

(** ** What a body delivers *)

Fixpoint delivered (answers : list read_answer) : list Z :=
  match answers with
  | [] | Chunk [] :: _ | ReadFailed _ :: _ => []
  | Chunk c :: answers => c ++ delivered answers
  | Interrupted :: answers => delivered answers
  end.

(** It ended, rather than broke. *)
Fixpoint complete (answers : list read_answer) : bool :=
  match answers with
  | [] | Chunk [] :: _ => true
  | ReadFailed _ :: _ => false
  | Chunk _ :: answers | Interrupted :: answers => complete answers
  end.

Notation len l := (Z.of_nat (length l)).

(** The digest is of the bytes on disk. *)
Definition writer_ok (h : HashingWriter) : Prop :=
  hashed h = inner h /\ written h = Z.min u64_max (len (inner h)).

Lemma new_writer_ok : writer_ok new_writer.
Proof. by split. Qed.

(** [File::write] takes no more than it is given. *)
Class DiskLaws (W E : Type) `{Source W E} : Prop := {
  disk_write_le : forall buf w n w', disk_write buf w = (Ok n, w') -> (n <= length buf)%nat;
}.

Section Writer.
Context {W E : Type} `{S : Source W E} `{DL : !DiskLaws W E}.

Lemma write_spec buf h (w : W) r h' w' :
  writer_ok h -> write buf h w = (r, h', w') ->
  writer_ok h' /\ exists n, (n <= length buf)%nat /\ inner h' = inner h ++ take n buf /\
    match r with Ok m => m = n | Err _ => n = 0%nat end.
Proof.
  intros [Hh Hw]. unfold write. destruct (disk_write buf w) as [[n|e] w1] eqn:Ed; intros H.
  - apply disk_write_le in Ed as Hn. destruct (Nat.leb_spec n (length buf)); [|lia].
    simplify_eq. split; [|by exists n].
    split; cbn; [by rewrite Hh|]. rewrite Hw, length_app, length_take.
    unfold sat_add, u64_max. lia.
  - simplify_eq. split; [done|]. exists 0%nat. cbn. rewrite app_nil_r. split; [lia|done].
Qed.

Lemma write_all_spec fuel buf h (w : W) r h' w' :
  writer_ok h -> (length buf <= fuel)%nat -> write_all fuel buf h w = (r, h', w') ->
  writer_ok h' /\ exists d, inner h' = inner h ++ d /\ d `prefix_of` buf /\
    (r = Ok tt -> d = buf).
Proof.
  revert buf h w. induction fuel as [|fuel IH]; intros buf h w Hh Hf H.
  { destruct buf; [|cbn in Hf; lia]. cbn in H. simplify_eq. split; [done|]. exists [].
    split_and!; [by rewrite app_nil_r|done..]. }
  destruct buf as [|c buf].
  { cbn in H. simplify_eq. split; [done|]. exists [].
    split_and!; [by rewrite app_nil_r|done..]. }
  cbn [write_all] in H. destruct (write (c :: buf) h w) as [[r1 h1] w1] eqn:Ew.
  destruct (write_spec _ _ _ _ _ _ Hh Ew) as (Hh1 & n & Hn & Hi & Hr).
  assert (take n (c :: buf) `prefix_of` c :: buf) as Htake
    by (exists (drop n (c :: buf)); by rewrite take_drop).
  destruct r1 as [[|m]|e]; subst.
  - simplify_eq. split; [done|]. exists []. split_and!; [exact Hi|apply prefix_nil|done].
  - apply IH in H as (Hh' & d & Hd & [k Hk] & Hok); [|done|rewrite length_drop; cbn in *; lia].
    split; [done|]. exists (take (Datatypes.S m) (c :: buf) ++ d). rewrite Hd, Hi, app_assoc.
    split; [done|]. split.
    + exists k. rewrite <- app_assoc, <- Hk. by rewrite take_drop.
    + intros Hr. rewrite (Hok Hr). by rewrite take_drop.
  - simplify_eq. split; [done|]. exists []. split_and!; [exact Hi|apply prefix_nil|done].
Qed.

Lemma copy_spec answers h (w : W) r h' w' :
  writer_ok h -> copy_reporting answers h w = (r, h', w') ->
  writer_ok h' /\ exists d, inner h' = inner h ++ d /\ d `prefix_of` delivered answers /\
    (r = Ok tt -> complete answers = true /\ d = delivered answers).
Proof.
  revert h w. induction answers as [|[[|c chunk]| |e] answers IH]; intros h w Hh H;
    cbn [copy_reporting delivered complete] in *.
  1,2,5: simplify_eq; split; [done|]; exists [];
    split_and!; [by rewrite app_nil_r|apply prefix_nil|done].
  - destruct (write_all _ _ h w) as [[r1 h1] w1] eqn:Ew.
    destruct (write_all_spec _ _ _ _ _ _ _ Hh (le_n _) Ew) as (Hh1 & d & Hd & Hp & Hok).
    destruct r1 as [[]|e].
    + rewrite (Hok eq_refl) in Hd. apply IH in H as (Hh' & d' & Hd' & Hp' & Hok'); [|done].
      split; [done|]. exists ((c :: chunk) ++ d'). rewrite Hd', Hd, app_assoc.
      split; [done|]. split; [by apply prefix_app|]. intros Hr.
      destruct (Hok' Hr) as [? ->]. done.
    + simplify_eq. split; [done|]. exists d. split; [done|]. split; [|done].
      etrans; [exact Hp|]. by apply prefix_app_r.
  - by eapply IH.
Qed.
End Writer.

(** ** An honest server

    [names t o]: the strong [ETag] [t] is that of the object [o]. A strong [ETag] promises
    the same bytes. The objects may change between two requests, and any body may break. *)

Definition describes (names : str -> list Z -> Prop) (b : Body) (o : list Z) : Prop :=
  len o <= u64_max /\ delivered (reads b) `prefix_of` o /\
  (complete (reads b) = true -> delivered (reads b) = o) /\
  (forall t, strong_etag b = Some t -> names t o) /\
  (forall n, content_length b = Some n -> n = len o).

(** The bytes of a range. *)
Definition piece (r : ContentRange) (o : list Z) : list Z :=
  take (Z.to_nat (last r + 1 - first r)) (drop (Z.to_nat (first r)) o).

Definition describes_range (names : str -> list Z -> Prop) (b : Body) (t : str)
    (r : ContentRange) (o : list Z) : Prop :=
  names t o /\ len o <= u64_max /\ last r < len o /\
  (forall n, range_total r = Some n -> n = len o) /\
  delivered (reads b) `prefix_of` piece r o /\
  (complete (reads b) = true -> delivered (reads b) = piece r o).

Class HonestServer (W E : Type) `{Source W E} (names : str -> list Z -> Prop) : Prop := {
  names_one : forall t o o', names t o -> names t o' -> o = o';
  get_whole : forall w b w', get None w = (Ok b, w') -> status b = 200;
  body_200 : forall p w b w', get p w = (Ok b, w') -> status b = 200 -> exists o, describes names b o;
  body_206 : forall p w b w' t r, get p w = (Ok b, w') -> status b = 206 ->
    strong_etag b = Some t -> content_range b = Some r -> exists o, describes_range names b t r o;
}.

(** A file in progress: the start of one object, whose tag and size it knows if any. *)
Definition part_of (names : str -> list Z -> Prop) (p : Partial) (o : list Z) : Prop :=
  writer_ok (writer p) /\ inner (writer p) `prefix_of` o /\ len o <= u64_max /\
  (forall t, etag (expected p) = Some t -> names t o) /\
  (forall n, total (expected p) = Some n -> n = len o).

Definition valid (names : str -> list Z -> Prop) (p : option Partial) : Prop :=
  forall file, p = Some file -> exists o, part_of names file o.

(** A finished file: it is the whole object, if it came in one piece or its size is known. *)
Definition finished (names : str -> list Z -> Prop) (file : Partial) : Prop :=
  exists o, part_of names file o /\
    (resumed_at file = None \/ is_Some (total (expected file)) -> inner (writer file) = o).

Section Round.
Context {W E : Type} `{S : Source W E} `{DL : !DiskLaws W E}.
Context (names : str -> list Z -> Prop) `{HS : !HonestServer W E names}.
Context (expect : Body -> Expect).
Context (expect_ok : forall b o, describes names b o ->
  (forall t, etag (expect b) = Some t -> names t o) /\
  (forall n, total (expect b) = Some n -> n = len o)).

Lemma part_written p o : part_of names p o -> written (writer p) = len (inner (writer p)).
Proof. intros ([_ ->] & [k ->] & Hle & _). rewrite length_app in Hle. lia. Qed.

Lemma content_range_ordered b r : content_range b = Some r -> first r <= last r.
Proof.
  unfold content_range, content_range_of. intros H.
  apply bind_Some in H as (v & _ & H). apply bind_Some in H as (rest & _ & H).
  apply bind_Some in H as ([range tot] & _ & H). apply bind_Some in H as ([x y] & _ & H).
  apply bind_Some in H as (f & _ & H). apply bind_Some in H as (l & _ & H).
  destruct (Z.leb_spec f l); by simplify_eq.
Qed.

(** The range after the bytes at hand continues the object they start. *)
Lemma piece_continues o d r :
  d `prefix_of` o -> first r = len d -> first r <= last r -> last r < len o ->
  d ++ piece r o `prefix_of` o /\ len (d ++ piece r o) = last r + 1.
Proof.
  intros [k ->] Hf Hle Hlt. unfold piece. rewrite Hf, Nat2Z.id, drop_app_length.
  rewrite length_app in Hlt. split.
  - apply prefix_app. exists (drop (Z.to_nat (last r + 1 - len d)) k). by rewrite take_drop.
  - rewrite length_app, length_take. lia.
Qed.

(** What one round does with a valid [partial]. *)
Inductive round_ok (p : option Partial)
    : result (option Partial) E * option Partial * W -> Prop :=
| round_failed e p' w : valid names p' -> round_ok p (Err e, p', w)
| round_done file w : finished names file -> round_ok p (Ok (Some file), None, w)
| round_more file n w :
    valid names (Some file) -> total (expected file) = Some n -> written (writer file) < n ->
    (forall q m, p = Some q -> total (expected q) = Some m ->
       m = n /\ written (writer q) < written (writer file)) ->
    round_ok p (Ok None, Some file, w).

Lemma stream_whole p b o (w : W) : describes names b o -> round_ok p (stream expect b None w).
Proof.
  intros Hb. unfold stream. cbn [fmap option_fmap option_map mbind option_bind].
  destruct (create_dest w) as [[[]|e] w1]; [|by apply round_failed].
  cbn [reads writer]. destruct (copy_reporting (reads b) new_writer w1) as [[r h] w2] eqn:Ec.
  destruct (copy_spec _ _ _ _ _ _ new_writer_ok Ec) as (Hh & d & Hd & Hp & Hok).
  cbn [new_writer inner app] in Hd. destruct (expect_ok b o Hb) as [Het Hto].
  destruct Hb as (Hle & Hpre & Hall & _).
  set (file := {| writer := h; expected := expect b; resumed_at := None |}).
  assert (part_of names file o) as Hpart.
  { split_and!; [done| |done..]. cbn. rewrite Hd. by etrans. }
  assert (valid names (Some file)) as Hv by (intros ? [= <-]; eauto).
  destruct r as [[]|e]; [|by apply round_failed].
  destruct (disk_flush w2) as [[[]|e] w3]; [|by apply round_failed].
  apply round_done. exists o. split; [done|]. intros _. cbn. rewrite Hd.
  destruct (Hok eq_refl) as [Hc ->]. by apply Hall.
Qed.

Lemma stream_rest p q b o t r (w : W) :
  p = Some q -> part_of names q o -> etag (expected q) = Some t -> content_range b = Some r ->
  first r = written (writer q) -> describes_range names b t r o ->
  round_ok p (stream expect b (Some (resume q (written (writer q)) b)) w).
Proof.
  intros -> Hq Ht Hr Hf (_ & _ & Hlast & Htot & Hdel & Hall).
  pose proof (part_written _ _ Hq) as Hw. destruct Hq as (Hh & Hpre & Hle & Het & Hto).
  pose proof (content_range_ordered _ _ Hr) as Hord.
  destruct (piece_continues o (inner (writer q)) r) as [Hcont Hlen]; [done|congruence|done|done|].
  unfold stream. cbn [fmap option_fmap option_map mbind option_bind]. rewrite Hr.
  cbn [option_map resume writer expected].
  destruct (copy_reporting (reads b) (writer q) w) as [[cr h] w2] eqn:Ec.
  destruct (copy_spec _ _ _ _ _ _ Hh Ec) as (Hh2 & d & Hd & Hp & Hok). rewrite Hr.
  cbn [fmap option_fmap option_map mbind option_bind resumed_at total].
  set (tot := option_or (total (expected q)) (range_total r)).
  set (file := {| writer := h; expected := {| etag := etag (expected q); total := tot |};
    resumed_at := option_or (resumed_at q) (Some (written (writer q))) |}).
  assert (forall n, tot = Some n -> n = len o) as Htot'.
  { unfold tot, option_or. destruct (total (expected q)); eauto. }
  assert (part_of names file o) as Hpart.
  { split_and!; [done| |done..]. cbn. rewrite Hd.
    etrans; [apply prefix_app; etrans; [exact Hp|exact Hdel]|exact Hcont]. }
  assert (valid names (Some file)) as Hv by (intros ? [= <-]; eauto).
  pose proof (part_written _ _ Hpart) as Hwf. cbn [file writer] in Hwf.
  destruct cr as [[]|e]; [|by apply round_failed].
  destruct (disk_flush w2) as [[[]|e] w3]; [|by apply round_failed].
  destruct (Hok eq_refl) as [Hc ->]. rewrite (Hall Hc) in Hd. rewrite Hd, Hlen in Hwf.
  destruct (_ && _) eqn:Es.
  - apply andb_true_iff in Es as [_ Es]. destruct tot as [n|] eqn:En; [|done]. bool_to_prop.
    apply (round_more _ file n); [done..|].
    intros q' m [= <-] Hm. cbn. unfold tot, option_or in En. rewrite Hm in En. simplify_eq.
    split; [done|]. lia.
  - apply round_done. exists o. split; [done|]. intros [Hn|[n Hn]].
    { cbn in Hn. by destruct (resumed_at q). }
    cbn in Hn. cbn [file writer]. rewrite Hn, (Htot' _ Hn), Hwf in Es.
    rewrite Hd. destruct Hcont as [[|c k] Hk]; [by rewrite app_nil_r in Hk|].
    apply (f_equal length) in Hk. rewrite length_app in Hk. cbn [length] in Hk.
    assert (last r + 1 < len o) as Hlt by lia.
    apply Z.ltb_lt in Hlt. rewrite Hlt, andb_true_r in Es.
    bool_to_prop. unfold sat_add in Es. lia.
Qed.

Lemma open_round p (w : W) :
  valid names p ->
  match open p w with
  | (Err _, p', _) => valid names p'
  | (Ok (b, continued), _, w') => round_ok p (stream expect b continued w')
  end.
Proof.
  intros Hv. unfold open.
  assert (forall w0, match (match get None w0 with
      | (Ok b, w1) => (Ok (b, None), None, w1)
      | (Err e, w1) => (Err e, None, w1)
      end : result (Body * option Partial) E * option Partial * W) with
    | (Err _, p', _) => valid names p'
    | (Ok (b, continued), _, w') => round_ok p (stream expect b continued w')
    end) as Hwhole.
  { intros w0. destruct (get None w0) as [[b|e] w1] eqn:Eg; [|done].
    destruct (body_200 _ _ _ _ Eg (get_whole _ _ _ Eg)) as [o Ho]. by eapply stream_whole. }
  destruct (p ≫= resume_point) as [point|] eqn:Ep; [|apply Hwhole].
  apply bind_Some in Ep as (q & -> & Hpoint).
  unfold resume_point in Hpoint. destruct (_ =? 0); [done|].
  apply bind_Some in Hpoint as (t & Ht & [= <-]). cbn [offset].
  destruct (get (Some _) w) as [[b|e] w1] eqn:Eg; [|by destruct (range_refused e); [apply Hwhole|]].
  destruct (continued_by _ b) eqn:Ec.
  - unfold continued_by in Ec. cbn [point_etag point_total offset] in Ec. bool_to_prop.
    destruct (content_range b) as [r|] eqn:Er; [|done]. bool_to_prop.
    destruct (body_206 _ _ _ _ t r Eg) as [o Ho]; [done..|].
    destruct (Hv q eq_refl) as [o' Hq].
    assert (o = o') as <-.
    { destruct Ho as [Ho _], Hq as (_ & _ & _ & Het & _). eapply names_one; [exact Ho|by apply Het]. }
    by eapply stream_rest.
  - destruct (Z.eqb_spec (status b) 200) as [Es|]; [|apply Hwhole].
    destruct (body_200 _ _ _ _ Eg Es) as [o Ho]. by eapply stream_whole.
Qed.

Definition outcome_ok (r : result Partial E) (p : option Partial) : Prop :=
  valid names p /\ forall file, r = Ok file -> finished names file /\ p = None.

(** A round ends the attempt, or leaves a file whose size is known and not reached. *)
Lemma attempt_round p (w : W) :
  valid names p ->
  (exists r p' w', outcome_ok r p' /\ forall fuel,
     attempt expect (Datatypes.S fuel) p w = Some (r, p', w')) \/
  (exists file n w', valid names (Some file) /\ total (expected file) = Some n /\
     written (writer file) < n /\
     (forall q m, p = Some q -> total (expected q) = Some m ->
        m = n /\ written (writer q) < written (writer file)) /\
     forall fuel, attempt expect (Datatypes.S fuel) p w = attempt expect fuel (Some file) w').
Proof.
  intros Hv. pose proof (open_round p w Hv) as Ho. cbn [attempt].
  destruct (open p w) as [[[[b c]|e] p1] w1].
  2: { left. exists (Err e), p1, w1. split; [by split|done]. }
  inversion Ho as [e p' w' Hp Heq|file w' Hf Heq|file n w' Hf Hn Hlt Hq Heq].
  - left. exists (Err e), p', w'. split; [by split|done].
  - left. exists (Ok file), None, w'. split; [split; [done|by intros ? [= <-]]|done].
  - right. exists file, n, w'. split_and!; done.
Qed.

Lemma attempt_known k q n (w : W) :
  valid names (Some q) -> total (expected q) = Some n ->
  (Z.to_nat (n - written (writer q)) <= k)%nat ->
  exists fuel r p' w', attempt expect fuel (Some q) w = Some (r, p', w') /\ outcome_ok r p'.
Proof.
  revert q w. induction k as [|k IH]; intros q w Hv Hn Hk;
    destruct (attempt_round (Some q) w Hv) as
      [(r & p' & w' & Hok & Hat)|(file & m & w' & Hf & Hm & Hlt & Hq & Hat)].
  1,3: exists 1%nat, r, p', w'; by split; [apply Hat|].
  all: destruct (Hq q n eq_refl Hn) as [-> Hmore].
  { lia. }
  destruct (IH file w') as (fuel & r & p2 & w2 & Ha & Hok); [done..|lia|].
  exists (Datatypes.S fuel), r, p2, w2. by rewrite Hat.
Qed.

Lemma attempt_correct p (w : W) :
  valid names p ->
  exists fuel r p' w', attempt expect fuel p w = Some (r, p', w') /\ outcome_ok r p'.
Proof.
  intros Hv. destruct (attempt_round p w Hv) as
    [(r & p' & w' & Hok & Hat)|(file & n & w' & Hf & Hn & _ & _ & Hat)].
  - exists 1%nat, r, p', w'. by split; [apply Hat|].
  - destruct (attempt_known _ file n w' Hf Hn (le_n _)) as (fuel & r & p2 & w2 & Ha & Hok).
    exists (Datatypes.S fuel), r, p2, w2. by rewrite Hat.
Qed.
End Round.

(** ** Any server

    With a size that is known from the start an attempt ends whatever the server answers:
    each round that asks for more has more bytes on disk. *)

Section AnyServer.
Context {W E : Type} `{S : Source W E} `{DL : !DiskLaws W E}.
Context (expect : Body -> Expect) (n : Z).
Context (expect_total : forall b, total (expect b) = Some n) (n_u64 : n <= u64_max).

Definition sized (p : option Partial) : Prop :=
  forall file, p = Some file -> writer_ok (writer file) /\ total (expected file) = Some n.

Inductive sized_round (p : option Partial)
    : result (option Partial) E * option Partial * W -> Prop :=
| sized_failed e p' w : sized p' -> sized_round p (Err e, p', w)
| sized_done file w : sized (Some file) -> sized_round p (Ok (Some file), None, w)
| sized_more file q w :
    sized (Some file) -> p = Some q -> written (writer q) < written (writer file) ->
    written (writer file) < n -> sized_round p (Ok None, Some file, w).

Lemma stream_new_sized p b (w : W) : sized_round p (stream expect b None w).
Proof.
  unfold stream. cbn [fmap option_fmap option_map mbind option_bind].
  destruct (create_dest w) as [[[]|e] w1]; [|by apply sized_failed].
  cbn [reads writer]. destruct (copy_reporting (reads b) new_writer w1) as [[r h] w2] eqn:Ec.
  destruct (copy_spec _ _ _ _ _ _ new_writer_ok Ec) as (Hh & _).
  assert (sized (Some {| writer := h; expected := expect b; resumed_at := None |})) as Hs
    by (intros ? [= <-]; split; [done|apply expect_total]).
  destruct r as [[]|e]; [|by apply sized_failed].
  destruct (disk_flush w2) as [[[]|e] w3]; [by apply sized_done|by apply sized_failed].
Qed.

Lemma stream_more_sized p q b r (w : W) :
  p = Some q -> sized p -> content_range b = Some r -> first r = written (writer q) ->
  sized_round p (stream expect b (Some (resume q (written (writer q)) b)) w).
Proof.
  intros -> Hq Hr Hf. destruct (Hq q eq_refl) as [Hh Ht].
  pose proof (content_range_ordered _ _ Hr) as Hord.
  unfold stream. cbn [fmap option_fmap option_map mbind option_bind]. rewrite Hr.
  cbn [option_map resume writer expected]. rewrite Ht. cbn [option_or].
  destruct (copy_reporting (reads b) (writer q) w) as [[cr h] w2] eqn:Ec.
  destruct (copy_spec _ _ _ _ _ _ Hh Ec) as (Hh2 & _).
  cbn [fmap option_fmap option_map mbind option_bind resumed_at total].
  set (file := {| writer := h; expected := _; resumed_at := _ |}).
  assert (sized (Some file)) as Hs by (intros ? [= <-]; by split).
  destruct cr as [[]|e]; [|by apply sized_failed].
  destruct (disk_flush w2) as [[[]|e] w3]; [|by apply sized_failed].
  destruct (_ && _) eqn:Es; [|by apply sized_done].
  bool_to_prop. apply (sized_more _ file q); cbn; [done|done| |done].
  unfold sat_add in *. lia.
Qed.

Lemma open_sized p (w : W) :
  sized p ->
  match open p w with
  | (Err _, p', _) => sized p'
  | (Ok (b, continued), _, w') => sized_round p (stream expect b continued w')
  end.
Proof.
  intros Hv. unfold open.
  destruct (p ≫= resume_point) as [point|] eqn:Ep.
  2: { destruct (get None w) as [[b|e] w1]; [apply stream_new_sized|done]. }
  apply bind_Some in Ep as (q & -> & Hpoint).
  unfold resume_point in Hpoint. destruct (_ =? 0); [done|].
  apply bind_Some in Hpoint as (t & Ht & [= <-]). cbn [offset].
  destruct (get (Some _) w) as [[b|e] w1].
  - destruct (continued_by _ b) eqn:Ec.
    + unfold continued_by in Ec. cbn [point_etag point_total offset] in Ec. bool_to_prop.
      destruct (content_range b) as [r|] eqn:Er; [|done]. bool_to_prop.
      by eapply stream_more_sized.
    + destruct (status b =? 200); [apply stream_new_sized|].
      destruct (get None w1) as [[b'|e] w2]; [apply stream_new_sized|done].
  - destruct (range_refused e); [|done].
    destruct (get None w1) as [[b'|e'] w2]; [apply stream_new_sized|done].
Qed.

Lemma attempt_sized k p (w : W) :
  sized p -> (forall q, p = Some q -> (Z.to_nat (n - written (writer q)) <= k)%nat) ->
  exists r p' w', attempt expect (Datatypes.S k) p w = Some (r, p', w') /\ sized p' /\
    forall file, r = Ok file -> writer_ok (writer file) /\ p' = None.
Proof.
  revert p w. induction k as [|k IH]; intros p w Hv Hk; pose proof (open_sized p w Hv) as Ho;
    cbn [attempt]; (destruct (open p w) as [[[[b c]|e] p1] w1];
      [|by exists (Err e), p1, w1]);
    inversion Ho as [e p' w' Hp Heq|file w' Hf Heq|file q w' Hf -> Hm Hlt Heq].
  1,4: by exists (Err e), p', w'.
  1,3: exists (Ok file), None, w'; split_and!; [done|done|]; intros ? [= <-]; split; [by apply Hf|done].
  - specialize (Hk q eq_refl). lia.
  - apply IH; [done|]. intros ? [= <-]. specialize (Hk q eq_refl). lia.
Qed.
End AnyServer.

(** ** Theorems *)

Lemma public_expect_ok names b o :
  describes names b o ->
  (forall t, etag (public_expect b) = Some t -> names t o) /\
  (forall n, total (public_expect b) = Some n -> n = len o).
Proof.
  intros (_ & _ & _ & Ht & Hn). split; [|done]. intros t H. cbn in H.
  apply bind_Some in H as (t' & Hs & H). case_match; simplify_eq. by apply Ht.
Qed.

Lemma check_public_ok {E} sha256_hex pin file content :
  @check_public E sha256_hex pin file = Ok content ->
  content = inner (writer file) /\ forall p, pin = Some p -> hex_digest sha256_hex (writer file) = p.
Proof.
  unfold check_public. intros H.
  repeat case_match; simplify_eq; (split; [done|]); intros ? [= <-]; by apply str_eqb_eq.
Qed.

(** C29: a public download never joins two objects. Against a server whose strong [ETag]s
    promise the same bytes, and whatever breaks on the way - bodies, requests, writes - an
    attempt ends; what it leaves to continue is again the start of one object; and when it
    succeeds the file is the start of one object, the whole of it if it came in one piece
    or its size was ever known, and it has the pinned digest, if there is one. *)
Theorem public_download_is_one_object {W E : Type} `{S : Source W E} `{!DiskLaws W E}
    (names : str -> list Z -> Prop) `{!HonestServer W E names} (sha256_hex : list Z -> str)
    (pin : option str) (partial : option Partial) (w : W) :
  valid names partial ->
  exists fuel r partial' w',
    fetch_public_file public_expect sha256_hex fuel pin partial w = Some (r, partial', w') /\
    valid names partial' /\
    forall content, r = Ok content ->
      (exists file o, part_of names file o /\ inner (writer file) = content /\
         (resumed_at file = None \/ is_Some (total (expected file)) -> content = o)) /\
      (forall p, pin = Some p -> sha256_hex content = p).
Proof.
  intros Hv. destruct (attempt_correct names public_expect (public_expect_ok names) partial w Hv)
    as (fuel & r & p' & w' & Ha & Hp & Hok).
  exists fuel. unfold fetch_public_file. rewrite Ha. cbn [mbind option_bind].
  eexists _, p', w'. split; [done|]. split; [done|]. intros content H.
  destruct r as [file|e]; [|done]. apply check_public_ok in H as [-> Hpin].
  destruct (Hok file eq_refl) as [(o & Hpart & Hwhole) _]. split; [by exists file, o|].
  intros p Hs. rewrite <- (Hpin p Hs). unfold hex_digest.
  by destruct Hpart as ([-> _] & _).
Qed.

(** A vault download, against any server at all. An attempt ends within one round per
    byte of the record and one more; when it succeeds the file has the record's digest and
    at least its size; and a file that fails its pin is not left to be continued. *)
Theorem vault_download_is_the_pin {W E : Type} `{S : Source W E} `{!DiskLaws W E}
    (sha256_hex : list Z -> str) (record : VaultResource) (partial : option Partial) (w : W) :
  in_range u64_max (bytes record) ->
  (forall file, partial = Some file -> writer_ok (writer file)) ->
  exists r partial' w',
    fetch_content sha256_hex (Datatypes.S (Z.to_nat (bytes record))) record partial w =
      Some (r, partial', w') /\
    (forall file, partial' = Some file -> writer_ok (writer file)) /\
    match r with
    | Ok content =>
        sha256_hex content = sha256 record /\ bytes record <= len content /\ partial' = None
    | Err (VaultSource _) => True
    | Err (ResumedDrift _ _ _) | Err (Drift _ _) => partial' = None
    end.
Proof.
  intros [H0 Hn] Hp. unfold fetch_content.
  set (p := (partial ≫= _) : option Partial).
  assert (sized (bytes record) p) as Hs.
  { intros file Hf. apply bind_Some in Hf as (f & -> & Hf). case_bool_decide as He; simplify_eq.
    split; [by apply Hp|]. by rewrite He. }
  destruct (attempt_sized (fun _ => expect_of record) (bytes record) (fun _ => eq_refl) Hn
    (Z.to_nat (bytes record)) p w Hs) as (r & p' & w' & -> & Hs' & Hok).
  { intros q Hq. destruct (Hs q Hq) as [[_ Hw] _]. unfold u64_max in *. lia. }
  cbn [mbind option_bind].
  assert (forall file, p' = Some file -> writer_ok (writer file)) as Hw' by (intros; by apply Hs').
  destruct r as [file|e]; [|by eexists _, p', w'].
  destruct (Hok file eq_refl) as [Hw ->]. case_match eqn:El; bool_to_prop.
  { eexists _, _, w'. split; [done|]. split; [by intros ? [= <-]|done]. }
  destruct Hw as [Hh Hc]. unfold hex_digest. rewrite Hh.
  destruct (str_eqb _ _) eqn:Ed; eexists _, None, w'; (split; [done|]); (split; [done|]).
  - apply str_eqb_eq in Ed. split_and!; [done|lia|done].
  - by destruct (resumed_at file).
Qed.

(** ** A concrete download

    Six bytes. The first body breaks after two; each range is answered with two more, so
    the second attempt asks twice. *)

Definition demo_object : list Z := [1; 2; 3; 4; 5; 6].

Definition demo_etag : str := [34; 118; 49; 34].

Definition demo_names (t : str) (o : list Z) : Prop := t = demo_etag /\ o = demo_object.

Definition demo_whole (reads : list read_answer) : Body :=
  {| status := 200; etag_header := Some demo_etag; content_range_header := None;
     content_length := Some 6; reads := reads |}.

Definition demo_range (range : str) (chunk : list Z) : Body :=
  {| status := 206; etag_header := Some demo_etag; content_range_header := Some range;
     content_length := None; reads := [Interrupted; Chunk chunk] |}.

Definition demo_answer (p : option ResumePoint) : Body :=
  match p with
  | None => demo_whole [Chunk [1; 2]; ReadFailed (lit "reset")]
  | Some point =>
      if offset point =? 2 then demo_range (lit "bytes 2-3/6") [3; 4]
      else if offset point =? 4 then demo_range (lit "bytes 4-5/6") [5; 6]
      else demo_whole [Chunk demo_object]
  end.

#[export] Instance demo_source : Source nat str := {
  get := fun p n => (Ok (demo_answer p), S n);
  range_refused := fun _ => false;
  io_error := fun e => e;
  create_dest := fun n => (Ok tt, n);
  disk_write := fun buf n => (Ok (length buf), n);
  disk_flush := fun n => (Ok tt, n);
}.

#[export] Instance demo_disk : DiskLaws nat str.
Proof. split. intros buf w n w' [= <- <-]. done. Qed.

Lemma demo_answer_cases p :
  (exists reads, demo_answer p = demo_whole reads /\ delivered reads `prefix_of` demo_object /\
     (complete reads = true -> delivered reads = demo_object)) \/
  (p <> None /\ demo_answer p = demo_range (lit "bytes 2-3/6") [3; 4]) \/
  (p <> None /\ demo_answer p = demo_range (lit "bytes 4-5/6") [5; 6]).
Proof.
  destruct p as [point|]; cbn.
  - destruct (offset point =? 2); [by right; left|]. destruct (offset point =? 4); [by right; right|].
    left. by eexists.
  - left. eexists. split; [done|]. split; [by exists [3; 4; 5; 6]|done].
Qed.

#[export] Instance demo_server : HonestServer nat str demo_names.
Proof.
  split.
  - by intros t o o' [_ ->] [_ ->].
  - by intros w b w' [= <- _].
  - intros p w b w' [= <- _] Hs. exists demo_object.
    destruct (demo_answer_cases p) as [(reads & -> & Hp & Hc)|[[_ Hb]|[_ Hb]]];
      [|by rewrite Hb in Hs..].
    split_and!; [by vm_compute|done|done|by intros t [= <-]|by intros n [= <-]].
  - intros p w b w' t r [= <- _] Hs Ht Hr. exists demo_object.
    destruct (demo_answer_cases p) as [(reads & Hb & _)|[[_ Hb]|[_ Hb]]];
      rewrite Hb in *; [done|..]; vm_compute in Ht, Hr; injection Ht as <-; injection Hr as <-;
      (split_and!; [done|by vm_compute|by vm_compute|by intros n [= <-]|by exists []|done]).
Qed.

Definition demo_partial : Partial :=
  {| writer := {| inner := [1; 2]; hashed := [1; 2]; written := 2 |};
     expected := {| etag := Some demo_etag; total := Some 6 |}; resumed_at := None |}.

Lemma public_download_is_one_object_witness :
  fetch_public_file public_expect id 1 None None 0%nat =
    Some (Err (SourceError (lit "reset")), Some demo_partial, 1%nat) /\
  fetch_public_file public_expect id 2 None (Some demo_partial) 1%nat =
    Some (Ok demo_object, None, 3%nat) /\
  exists fuel r partial' w',
    fetch_public_file public_expect id fuel None (Some demo_partial) 1%nat =
      Some (r, partial', w') /\ valid demo_names partial'.
Proof.
  split; [vm_compute; reflexivity|]. split; [vm_compute; reflexivity|].
  destruct (public_download_is_one_object demo_names id None (Some demo_partial) 1%nat)
    as (fuel & r & p & w & H & Hv & _).
  - intros file [= <-]. exists demo_object.
    split_and!; [by split|by exists [3; 4; 5; 6]|by vm_compute|by intros t [= <-]|by intros n [= <-]].
  - exists fuel, r, p, w. split; [exact H|exact Hv].
Defined.

Definition demo_record : VaultResource := {| sha256 := demo_object; bytes := 6 |}.

Lemma vault_download_is_the_pin_witness :
  exists r partial' w',
    fetch_content id (S (Z.to_nat (bytes demo_record))) demo_record None 0%nat =
      Some (r, partial', w') /\
    (forall file, partial' = Some file -> writer_ok (writer file)) /\
    match r with
    | Ok content => content = demo_object /\ bytes demo_record <= len content /\ partial' = None
    | Err (VaultSource _) => True
    | Err (ResumedDrift _ _ _) | Err (Drift _ _) => partial' = None
    end.
Proof.
  apply (vault_download_is_the_pin id demo_record None 0%nat);
    [split; vm_compute; congruence|intros file H; discriminate].
Defined.
