(* ===== verification/EvalStore.v ===== *)
(** * The checkpoint of an evaluation ([crates/pipette-ops/src/eval_completions.rs])

    An evaluation keeps a file with a line per answered sample, so that a run that is
    killed goes on where it stopped. The file is modelled in bytes: a kill or a failed
    write can leave any prefix of what was being written. [load_existing], [open_in],
    [append], [record_unfit], [finalize], [write_checkpoint] and [rotate_stale] are the
    source's, with every failing system call on its own branch; [check_complete] decides
    whether the rows of a session make a result.

    JSON and a hash map's iteration order are parameters ([EvalSerde]), with the laws a
    compact serializer and a permutation keep ([EvalSerdeLaws]). The counters of attempts are unbounded: a file with
    2^32 failed rows of one sample is not considered. *)

From Stdlib Require Import ZArith Lia String.
From stdpp Require Import countable prelude list gmap.
From S2P Require Import Prelude Str Json.

Local Open Scope Z_scope.

(** ** Rows, headers and sessions *)

Inductive StopReason := Eos | Truncated | DoomLoop | Unknown | Failure.

#[export] Instance StopReason_eq_dec : EqDecision StopReason.
Proof. solve_decision. Defined.

Record BenchmarkEvalCompletion := {
  id : str;
  completion : str;
  failed : bool;
  failed_reason : option str;
  stop_reason : StopReason;
  stop_detail : option str;
  completion_tokens : option Z;
}.

Abbreviation Row := BenchmarkEvalCompletion.

#[export] Instance Row_eq_dec : EqDecision Row.
Proof. solve_decision. Defined.

Record EvalCompletionMeta := { benchmark_id : str; meta_runtime : str; meta_model : str }.

Record Header := {
  digest : str;
  meta : EvalCompletionMeta;
  http_timeout_seconds : option Z;
}.

(** A session. Its open file is the one at [path]. *)
Record EvalCompletionSession := {
  path : str;
  completions : list Row;
  done_ids : gset str;
  failed_count : nat;
  failed_attempts : gmap str nat;
  unfit : gset str;
}.

Definition MAX_SAMPLE_ATTEMPTS : nat := 3.
Definition PRE_GATE_CHAT_DETAIL : str := lit "stream ended without finish_reason".

Definition sanitize_pre_gate_success (c : Row) : Row :=
  if negb (failed c) && bool_decide (stop_detail c = Some PRE_GATE_CHAT_DETAIL) then
    {| id := id c; completion := completion c; failed := true;
       failed_reason :=
         Some (lit "recovered on load: pre-fix checkpoint recorded this as a success with no terminal stop event ("
               ++ default (lit "no detail") (stop_detail c) ++ lit ")");
       stop_reason := stop_reason c; stop_detail := stop_detail c;
       completion_tokens := completion_tokens c |}
  else c.

(** ** Reading a session *)

Definition contains (sample_id : str) (s : EvalCompletionSession) : bool :=
  bool_decide (sample_id ∈ done_ids s).

Definition spent (sample_id : str) (attempts : gmap str nat) : nat :=
  default 0%nat (attempts !! sample_id).

Definition should_reattempt (sample_id : str) (max_attempts : nat) (s : EvalCompletionSession)
    : bool :=
  existsb (fun c => str_eqb (id c) sample_id && failed c) (completions s)
  && (spent sample_id (failed_attempts s) <? max_attempts)%nat.

Definition unfit_ids (s : EvalCompletionSession) : list str :=
  map id (List.filter (fun c => failed c && bool_decide (id c ∈ unfit s)) (completions s)).

Definition failure_split (max_attempts : nat) (s : EvalCompletionSession)
    : list str * list str :=
  let failures :=
    List.filter (fun c => failed c && negb (bool_decide (id c ∈ unfit s))) (completions s) in
  let retriable c := (spent (id c) (failed_attempts s) <? max_attempts)%nat in
  (map id (List.filter retriable failures),
   map id (List.filter (fun c => negb (retriable c)) failures)).

Definition failed_ids (s : EvalCompletionSession) : list str :=
  map id (List.filter failed (completions s)).

(** ** Changing a session *)

Definition position (sample_id : str) (l : list Row) : option nat :=
  fst <$> list_find (fun c => id c = sample_id) l.

(** What [append] and [record_unfit] do first: the row an id had goes, and its failure is
    no longer counted. *)
Definition take_out (sample_id : str) (l : list Row) (count : nat) : list Row * nat :=
  match position sample_id l with
  | None => (l, count)
  | Some i =>
      (delete i l,
       if match l !! i with Some old => failed old | None => false end
       then (count - 1)%nat else count)
  end.

(** [append] once the line is in the file. *)
Definition appended (c : Row) (s : EvalCompletionSession) : EvalCompletionSession :=
  let '(rest, count) := take_out (id c) (completions s) (failed_count s) in
  {| path := path s;
     completions := rest ++ [c];
     done_ids := {[id c]} ∪ done_ids s;
     failed_count := if failed c then S count else count;
     failed_attempts :=
       if failed c then <[id c := S (spent (id c) (failed_attempts s))]> (failed_attempts s)
       else failed_attempts s;
     unfit := unfit s |}.

Definition record_unfit (c : Row) (s : EvalCompletionSession) : EvalCompletionSession :=
  let '(rest, count) := take_out (id c) (completions s) (failed_count s) in
  {| path := path s;
     completions := rest ++ [c];
     done_ids := {[id c]} ∪ done_ids s;
     failed_count := if failed c then S count else count;
     failed_attempts := failed_attempts s;
     unfit := {[id c]} ∪ unfit s |}.

(** ** The directory

    File names of the store's root, with their bytes. *)

Abbreviation Dir := (gmap str (list Z)).

(** Which system calls of an operation fail, and where a write stops. What a call that
    stopped leaves behind is also what a kill at that point leaves. *)
Record Faults := {
  mkdir_fails : bool;
  read_fails : bool;
  set_len_fails : bool;
  rotate_fails : bool;
  tmp_stops_at : option nat;
  rename_fails : bool;
  open_fails : bool;
  remove_fails : bool;
}.

Definition no_faults : Faults :=
  {| mkdir_fails := false; read_fails := false; set_len_fails := false;
     rotate_fails := false; tmp_stops_at := None; rename_fails := false;
     open_fails := false; remove_fails := false |}.

Fixpoint rposition (b : Z) (l : list Z) : option nat :=
  match l with
  | [] => None
  | x :: l' =>
      match rposition b l' with
      | Some i => Some (S i)
      | None => if x =? b then Some 0%nat else None
      end
  end.

(** [Path::with_extension] of a file name: what follows the last dot is replaced, unless
    that dot starts the name. *)
Definition with_extension (ext name : str) : str :=
  let stem :=
    match rposition 46 name with
    | Some (S i) => take (S i) name
    | _ => name
    end in
  stem ++ 46 :: ext.

Definition digest_prefix (digest : str) : str := take 16 digest.
Definition session_path (digest : str) : str := digest_prefix digest ++ lit ".jsonl".

Definition rotate_stale (path : str) (now : Z) (f : Faults) (d : Dir) : Dir :=
  match d !! path with
  | Some body =>
      if rotate_fails f then d
      else <[with_extension (lit "jsonl.stale-" ++ show_uint now) path := body]> (delete path d)
  | None => d
  end.

(** Everything up to the last newline. *)
Definition complete_len (body : list Z) : nat :=
  match rposition 10 body with
  | Some at_ => S at_
  | None => 0%nat
  end.

(** [BufRead::lines] of bytes: [None] is a line that is not UTF-8. *)
Definition byte_lines (body : list Z) : list (option str) := map from_utf8 (lines body).

(** [serde_json::to_string] and [from_str] of a row and of a header, and the order in which
    [HashMap::into_values] answers. *)
Class EvalSerde := {
  row_to_string : Row -> result str str;
  row_from_str : str -> result Row str;
  header_to_string : Header -> result str str;
  header_from_str : str -> result Header str;
  into_values : gmap str Row -> list Row;
}.

Section Store.
Context `{EvalSerde}.

Fixpoint rows_body (rows : list Row) : result str str :=
  match rows with
  | [] => Ok []
  | r :: rows =>
      match row_to_string r with
      | Err e => Err e
      | Ok line =>
          match rows_body rows with
          | Err e => Err e
          | Ok rest => Ok (line ++ 10 :: rest)
          end
      end
  end.

Definition checkpoint_body (header : Header) (rows : list Row) : result str str :=
  match header_to_string header with
  | Err e => Err e
  | Ok line =>
      match rows_body rows with
      | Err e => Err e
      | Ok rest => Ok (line ++ 10 :: rest)
      end
  end.

Definition write_checkpoint (path : str) (header : Header) (rows : list Row) (f : Faults)
    (d : Dir) : result unit str * Dir :=
  match checkpoint_body header rows with
  | Err e => (Err e, d)
  | Ok body =>
      let tmp := with_extension (lit "jsonl.tmp") path in
      match tmp_stops_at f with
      | Some n => (Err (lit "failed to write"), <[tmp := take n (as_bytes body)]> d)
      | None =>
          let d := <[tmp := as_bytes body]> d in
          if rename_fails f then (Err (lit "failed to replace"), d)
          else (Ok tt, <[path := as_bytes body]> (delete tmp d))
      end
  end.

(** One row of the file into the rows by id and the attempts by id. *)
Definition load_row (c : Row) (acc : gmap str Row * gmap str nat)
    : gmap str Row * gmap str nat :=
  let c := sanitize_pre_gate_success c in
  (<[id c := c]> acc.1,
   if failed c then <[id c := S (spent (id c) acc.2)]> acc.2 else acc.2).

Fixpoint load_lines (ls : list (option str)) (acc : gmap str Row * gmap str nat)
    : result (gmap str Row * gmap str nat) str :=
  match ls with
  | [] => Ok acc
  | None :: _ => Err (lit "failed to read line")
  | Some line :: ls =>
      match trim line with
      | [] => load_lines ls acc
      | _ =>
          match row_from_str line with
          | Ok c => load_lines ls (load_row c acc)
          | Err _ => load_lines ls acc
          end
      end
  end.

Definition Loaded : Type := Header * list Row * gmap str nat.

Definition load_existing (path expected : str) (now : Z) (f : Faults) (d : Dir)
    : result (option Loaded) str * Dir :=
  match d !! path with
  | None => (Err (lit "failed to read"), d)
  | Some body =>
      if read_fails f then (Err (lit "failed to read"), d)
      else
        let complete := complete_len body in
        let torn := (complete <? length body)%nat in
        let body := take complete body in
        if torn && set_len_fails f then (Err (lit "failed to cut the torn tail"), d)
        else
          let d := if torn then <[path := body]> d else d in
          match byte_lines body with
          | [] => (Err (lit "empty completion file"), d)
          | None :: _ => (Err (lit "failed to read header"), d)
          | Some header_line :: ls =>
              match header_from_str header_line with
              | Err _ => (Err (lit "failed to parse completion header"), d)
              | Ok header =>
                  if negb (str_eqb (digest header) expected)
                  then (Ok None, rotate_stale path now f d)
                  else
                    match load_lines ls (∅, ∅) with
                    | Err e => (Err e, d)
                    | Ok (by_id, attempts) => (Ok (Some (header, into_values by_id, attempts)), d)
                    end
              end
          end
  end.

Definition new_session (path : str) (rows : list Row) (attempts : gmap str nat)
    : EvalCompletionSession :=
  {| path := path; completions := rows; done_ids := list_to_set (map id rows);
     failed_count := length (List.filter failed rows);
     failed_attempts := attempts; unfit := ∅ |}.

(** [EvalCompletionSession::open_in]. *)
Definition open_in (header : Header) (now : Z) (f : Faults) (d : Dir)
    : result EvalCompletionSession str * Dir :=
  if mkdir_fails f then (Err (lit "failed to create eval completions dir"), d)
  else
    let path := session_path (digest header) in
    let '(loaded, d) :=
      match d !! path with
      | None => (None, d)
      | Some _ =>
          match load_existing path (digest header) now f d with
          | (Ok loaded, d) => (loaded, d)
          | (Err _, d) => (None, rotate_stale path now f d)
          end
      end in
    let '(rows, d) :=
      match loaded with
      | Some (found, completions, attempts) =>
          if decide (http_timeout_seconds found = http_timeout_seconds header)
          then (Ok (completions, attempts), d)
          else
            let completed := List.filter (fun c => negb (failed c)) completions in
            match write_checkpoint path header completed f d with
            | (Ok _, d) => (Ok (completed, ∅), d)
            | (Err e, d) => (Err e, d)
            end
      | None =>
          match write_checkpoint path header [] f d with
          | (Ok _, d) => (Ok ([], ∅), d)
          | (Err e, d) => (Err e, d)
          end
      end in
    match rows with
    | Err e => (Err e, d)
    | Ok (completions, attempts) =>
        if open_fails f then (Err (lit "failed to open for append"), d)
        else (Ok (new_session path completions attempts), d)
    end.

(** [EvalCompletionSession::append]; [stops_at] is where its write fails. *)
Definition append (c : Row) (stops_at : option nat) (s : EvalCompletionSession) (d : Dir)
    : result unit str * EvalCompletionSession * Dir :=
  match row_to_string c with
  | Err e => (Err e, s, d)
  | Ok line =>
      let bytes := as_bytes (line ++ [10]) in
      let old := default [] (d !! path s) in
      match stops_at with
      | Some n =>
          (Err (lit "failed to write eval completion line"), s,
           <[path s := old ++ take n bytes]> d)
      | None => (Ok tt, appended c s, <[path s := old ++ bytes]> d)
      end
  end.

Definition finalize (digest : str) (now : Z) (f : Faults) (d : Dir) : result unit str * Dir :=
  let path := session_path digest in
  match d !! path with
  | None => (Ok tt, d)
  | Some _ =>
      match load_existing path digest now f d with
      | (Err e, d) => (Err e, d)
      | (Ok None, d) => (Ok tt, d)
      | (Ok (Some (header, completions, attempts)), d) =>
          let failures :=
            List.filter failed completions ≫= fun c =>
              replicate (Nat.max 1 (default 1%nat (attempts !! id c))) c in
          match failures with
          | _ :: _ => write_checkpoint path header failures f d
          | [] => if remove_fails f then (Err (lit "failed to remove"), d)
                  else (Ok tt, delete path d)
          end
      end
  end.

End Store.

(** [EvalCompletionsStore::clear]; [left] is what a removal that fails leaves. A directory
    that is gone is an empty one. *)
Definition clear (left : option (gset str)) (d : Dir) : result unit str * Dir :=
  match left with
  | Some names => (Err (lit "io error"), filter (fun e => e.1 ∈ names) d)
  | None => (Ok tt, ∅)
  end.

(** ** Whether the rows make a result *)

Inductive Waiver := Honored | Refused.

#[export] Instance Waiver_eq_dec : EqDecision Waiver.
Proof. solve_decision. Defined.

(** [std::env::var] of the waiver names an affirmative value. *)
Definition affirmative (v : option str) : bool :=
  match v with
  | None => false
  | Some v =>
      let v := to_ascii_lowercase (trim v) in
      str_eqb v (lit "1") || str_eqb v (lit "true") || str_eqb v (lit "yes")
  end.

(** The two refusals, with the numbers and ids their messages carry. *)
Inductive Incomplete :=
| WrongCount (submitted served : nat)
| FailedRows (failed total : nat) (retriable exhausted unfit : list str).

Definition check_complete (env : option str) (s : EvalCompletionSession) (served_samples : nat)
    (waiver : Waiver) : result unit Incomplete :=
  let submitted := length (completions s) in
  if negb (submitted =? served_samples)%nat then Err (WrongCount submitted served_samples)
  else if (failed_count s =? 0)%nat then Ok tt
  else
    let '(retriable, exhausted) := failure_split MAX_SAMPLE_ATTEMPTS s in
    if bool_decide (waiver = Honored) && affirmative env then Ok tt
    else Err (FailedRows (failed_count s) submitted retriable exhausted (unfit_ids s)).

Definition ensure_complete (env : option str) (s : EvalCompletionSession) (served : nat) :=
  check_complete env s served Honored.

Definition ensure_every_answer (env : option str) (s : EvalCompletionSession) (served : nat) :=
  check_complete env s served Refused.

(** ** Names and bytes *)

Lemma rposition_app b l l' :
  rposition b (l ++ l') =
  match rposition b l' with Some i => Some (length l + i)%nat | None => rposition b l end.
Proof.
  induction l as [|x l IH]; simpl; [by destruct (rposition b l')|].
  rewrite IH. by destruct (rposition b l').
Qed.

Lemma rposition_none b l : b ∉ l -> rposition b l = None.
Proof.
  induction l as [|x l IH]; simpl; [done|]. intros [Hx Hl]%not_elem_of_cons.
  rewrite IH by done. by destruct (Z.eqb_spec x b); [subst|].
Qed.

(** No name beside a session's file is the session's own. *)
Lemma with_extension_ne ext d : ext <> lit "jsonl" -> with_extension ext (session_path d) <> session_path d.
Proof.
  intros Hne. unfold with_extension, session_path.
  replace (rposition 46 (digest_prefix d ++ lit ".jsonl")) with (Some (length (digest_prefix d)))
    by (rewrite rposition_app; change (rposition 46 (lit ".jsonl")) with (Some 0%nat); f_equal; lia).
  destruct (digest_prefix d) as [|x p] eqn:E.
  - intros H%(f_equal length). rewrite length_app in H. cbn in H. lia.
  - cbn [length]. rewrite take_app_length' by done.
    change (lit ".jsonl") with (46 :: lit "jsonl"). intros H%app_inv_head. by injection H.
Qed.

Lemma complete_len_app body torn :
  10 ∉ torn -> complete_len (as_bytes (body ++ [10]) ++ torn) = length (as_bytes (body ++ [10])).
Proof.
  intros Ht. unfold complete_len. rewrite rposition_app, (rposition_none _ torn) by done.
  rewrite as_bytes_app, rposition_app, length_app. cbn. lia.
Qed.

(** ** What the file says

    The rows by id and the attempts by id of a list of lines. *)
Definition replay (h : list Row) : gmap str Row * gmap str nat :=
  foldl (fun acc c => load_row c acc) (∅, ∅) h.

Lemma replay_snoc h c : replay (h ++ [c]) = load_row c (replay h).
Proof. unfold replay. by rewrite foldl_app. Qed.

Lemma sanitize_id c : id (sanitize_pre_gate_success c) = id c.
Proof. unfold sanitize_pre_gate_success. by case_match. Qed.

Lemma sanitize_idemp c :
  sanitize_pre_gate_success (sanitize_pre_gate_success c) = sanitize_pre_gate_success c.
Proof.
  unfold sanitize_pre_gate_success at 2 3.
  destruct (negb (failed c) && _) eqn:E; unfold sanitize_pre_gate_success.
  - done.
  - by rewrite E.
Qed.

(** Every row is held under its id, sanitized; a failed one has spent an attempt. *)
Record replay_ok (m : gmap str Row * gmap str nat) : Prop := {
  replay_key : forall i c, m.1 !! i = Some c -> id c = i /\ sanitize_pre_gate_success c = c;
  replay_spent : forall i c, m.1 !! i = Some c -> failed c = true ->
    (1 <= spent i m.2)%nat;
}.

Lemma spent_insert i j n a : spent i (<[j := n]> a) = if decide (i = j) then n else spent i a.
Proof.
  unfold spent. destruct (decide (i = j)) as [->|].
  - by rewrite lookup_insert_eq.
  - by rewrite lookup_insert_ne.
Qed.

Lemma load_row_ok c m : replay_ok m -> replay_ok (load_row c m).
Proof.
  intros [Hk Hs]. unfold load_row. pose proof (sanitize_idemp c) as Hid.
  set (c' := sanitize_pre_gate_success c) in *. split; cbn [fst snd]; intros i r.
  - destruct (decide (i = id c')) as [->|Hne].
    + rewrite lookup_insert_eq. by intros [= <-].
    + rewrite lookup_insert_ne by done. apply Hk.
  - destruct (decide (i = id c')) as [->|Hne].
    + rewrite lookup_insert_eq. intros [= <-] ->. rewrite spent_insert, decide_True by done. lia.
    + rewrite lookup_insert_ne by done. intros Hr Hf. destruct (failed c'); [|eauto].
      rewrite spent_insert, decide_False by done. eauto.
Qed.

Lemma replay_is_ok h : replay_ok (replay h).
Proof.
  induction h as [|c h IH] using rev_ind; [by split; intros i c; cbn; rewrite lookup_empty|].
  rewrite replay_snoc. by apply load_row_ok.
Qed.

(** ** Well-formed sessions *)

Record session_wf (s : EvalCompletionSession) : Prop := {
  wf_nodup : NoDup (map id (completions s));
  wf_done : done_ids s = list_to_set (map id (completions s));
  wf_count : failed_count s = length (List.filter failed (completions s));
  wf_spent : forall c, c ∈ completions s -> failed c = true -> id c ∉ unfit s ->
    (1 <= spent (id c) (failed_attempts s))%nat;
  wf_unfit : unfit s ⊆ done_ids s;
}.

Definition without (i : str) (l : list Row) : list Row :=
  List.filter (fun c => negb (str_eqb (id c) i)) l.

Lemma elem_of_without i l c : c ∈ without i l <-> c ∈ l /\ id c <> i.
Proof.
  unfold without. rewrite !list_elem_of_In, filter_In, negb_true_iff. unfold str_eqb.
  by rewrite bool_decide_eq_false.
Qed.

Lemma without_absent i l : i ∉ map id l -> without i l = l.
Proof.
  induction l as [|c l IH]; [done|]. intros [Hc Hl]%not_elem_of_cons. cbn.
  rewrite str_eqb_ne by done. cbn. f_equal. by apply IH.
Qed.

Lemma without_nodup i l : NoDup (map id l) -> NoDup (map id (without i l)).
Proof.
  intros Hn. induction l as [|c l IH]; [done|]. cbn [map without List.filter] in Hn |- *.
  apply NoDup_cons in Hn as [Hc Hn].
  destruct (negb (str_eqb (id c) i)); [|by apply IH]. cbn [map]. apply NoDup_cons; split; [|by apply IH].
  intros (c' & E & Hc')%list_elem_of_fmap. rewrite E in Hc. apply elem_of_without in Hc' as [Hc' _].
  apply Hc, list_elem_of_fmap. by exists c'.
Qed.

(** Taking the row of an id out leaves the others, and their count. *)
Lemma take_out_spec i l :
  NoDup (map id l) ->
  take_out i l (length (List.filter failed l)) =
    (without i l, length (List.filter failed (without i l))).
Proof.
  induction l as [|c l IH]; [done|]. intros [Hc Hn]%NoDup_cons. specialize (IH Hn).
  unfold take_out, position in *. cbn [list_find without List.filter].
  destruct (decide (id c = i)) as [<-|Hne].
  - rewrite str_eqb_refl. cbn. fold (without (id c) l).
    rewrite without_absent by done. destruct (failed c); cbn; [|done]. by rewrite Nat.sub_0_r.
  - rewrite str_eqb_ne by done. cbn [negb]. fold (without i l).
    destruct (list_find _ l) as [[k old]|] eqn:E;
      cbn [fmap option_fmap option_map prod_map fst] in IH |- *.
    + apply list_find_Some in E as (Hk & _).
      change (delete (S k) (c :: l)) with (c :: delete k l).
      change ((c :: l) !! S k) with (l !! k). rewrite Hk in IH |- *.
      assert (failed old = true -> (1 <= length (List.filter failed l))%nat) as Hpos.
      { intros Hf. assert (old ∈ List.filter failed l) as Hin.
        { apply list_elem_of_In, filter_In. split; [|done].
          by apply list_elem_of_In, list_elem_of_lookup_2 with k. }
        destruct (List.filter failed l); [set_solver|cbn; lia]. }
      injection IH as -> IH. cbn [List.filter].
      destruct (failed c), (failed old); cbn [length]; rewrite <- IH; f_equal;
        try specialize (Hpos eq_refl); lia.
    + injection IH as IH _. by rewrite <- IH.
Qed.

Lemma filter_snoc_count c l :
  length (List.filter failed (l ++ [c])) =
  if failed c then S (length (List.filter failed l)) else length (List.filter failed l).
Proof. rewrite List.filter_app, length_app. cbn. destruct (failed c); cbn; lia. Qed.

Lemma map_id_without i l :
  list_to_set (map id (without i l)) =@{gset str} list_to_set (map id l) ∖ {[i]}.
Proof.
  apply set_eq. intros j. rewrite elem_of_difference, !elem_of_list_to_set, elem_of_singleton.
  rewrite !list_elem_of_fmap. setoid_rewrite elem_of_without. naive_solver.
Qed.

(** [appended] and [record_unfit] put a row in place of the one its id had. *)
Lemma replaced_wf c s attempts unfit' :
  session_wf s ->
  (forall r, r ∈ completions s -> failed r = true -> id r ∉ unfit' -> id r <> id c ->
     (1 <= spent (id r) attempts)%nat) ->
  (failed c = true -> id c ∉ unfit' -> (1 <= spent (id c) attempts)%nat) ->
  unfit' ⊆ {[id c]} ∪ done_ids s ->
  session_wf
    {| path := path s; completions := without (id c) (completions s) ++ [c];
       done_ids := {[id c]} ∪ done_ids s;
       failed_count :=
         if failed c then S (length (List.filter failed (without (id c) (completions s))))
         else length (List.filter failed (without (id c) (completions s)));
       failed_attempts := attempts; unfit := unfit' |}.
Proof.
  intros [Hn Hd Hc _ _] Hold Hnew Hu. split; cbn.
  - rewrite map_app. apply NoDup_app. split_and!; [by apply without_nodup| |apply NoDup_singleton].
    intros i (r & -> & Hr)%list_elem_of_fmap [=]%list_elem_of_singleton.
    by apply elem_of_without in Hr as [_ ?].
  - rewrite map_app, list_to_set_app_L, map_id_without, <- Hd. cbn.
    apply set_eq. intros i. destruct (decide (i = id c)); set_solver.
  - by rewrite filter_snoc_count.
  - intros r [Hr| ->%list_elem_of_singleton]%elem_of_app Hf Hi; [|by apply Hnew].
    apply elem_of_without in Hr as [Hr Hne]. by apply Hold.
  - done.
Qed.

Lemma appended_wf c s : session_wf s -> session_wf (appended c s).
Proof.
  intros Hs. unfold appended. rewrite (wf_count s Hs), take_out_spec by apply Hs.
  apply replaced_wf; [done|..].
  - intros r Hr Hf Hi Hne. pose proof (wf_spent s Hs r Hr Hf Hi).
    destruct (failed c); [|done]. by rewrite spent_insert, decide_False.
  - intros -> _. rewrite spent_insert, decide_True by done. lia.
  - pose proof (wf_unfit s Hs). set_solver.
Qed.

Lemma record_unfit_wf c s : session_wf s -> session_wf (record_unfit c s).
Proof.
  intros Hs. unfold record_unfit. rewrite (wf_count s Hs), take_out_spec by apply Hs.
  apply replaced_wf; [done|..].
  - intros r Hr Hf Hi Hne. apply (wf_spent s Hs r Hr Hf). set_solver.
  - set_solver.
  - pose proof (wf_unfit s Hs). set_solver.
Qed.

(** ** Sessions and histories *)

Definition row_of (i : str) (l : list Row) : option Row :=
  List.find (fun c => str_eqb (id c) i) l.

Lemma row_of_Some i l c : row_of i l = Some c -> c ∈ l /\ id c = i.
Proof.
  intros [Hin Hid]%find_some. split; [by apply list_elem_of_In|]. by apply str_eqb_eq.
Qed.

Lemma row_of_unique i l c : NoDup (map id l) -> c ∈ l -> id c = i -> row_of i l = Some c.
Proof.
  intros Hn Hc <-. induction l as [|r l IH]; [set_solver|]. cbn [row_of List.find].
  cbn [map] in Hn. apply NoDup_cons in Hn as [Hr Hn].
  apply elem_of_cons in Hc as [->|Hc]; [by rewrite str_eqb_refl|].
  rewrite str_eqb_ne; [by apply IH|]. intros E. apply Hr. rewrite E. apply list_elem_of_fmap.
  by exists c.
Qed.

Lemma row_of_snoc i c l :
  row_of i (without (id c) l ++ [c]) = if decide (i = id c) then Some c else row_of i l.
Proof.
  induction l as [|r l IH].
  - cbn. destruct (decide (i = id c)) as [->|]; [by rewrite str_eqb_refl|].
    by rewrite str_eqb_ne.
  - cbn [without List.filter]. destruct (decide (id r = id c)) as [E|Hne].
    + rewrite E, str_eqb_refl. cbn [negb]. fold (without (id c) l). rewrite IH.
      destruct (decide (i = id c)); [done|]. cbn [row_of List.find].
      by rewrite str_eqb_ne by congruence.
    + rewrite str_eqb_ne by done. cbn [negb app row_of List.find].
      destruct (decide (id r = i)) as [<-|Hi].
      * by rewrite str_eqb_refl, decide_False.
      * rewrite str_eqb_ne by done. apply IH.
Qed.

Lemma row_of_new i c l :
  id c ∉ map id l -> row_of i (l ++ [c]) = if decide (i = id c) then Some c else row_of i l.
Proof. intros Hc. by rewrite <- row_of_snoc, without_absent. Qed.

(** A session stands for a history: what it holds of an id is the last row of that id,
    unless the id did not fit this run, and it has spent the attempts the history shows. *)
Record represents (h : list Row) (s : EvalCompletionSession) : Prop := {
  rep_rows : forall i, i ∉ unfit s -> row_of i (completions s) = (replay h).1 !! i;
  rep_attempts : failed_attempts s = (replay h).2;
}.

Lemma represents_appended h c s :
  session_wf s -> sanitize_pre_gate_success c = c ->
  represents h s -> represents (h ++ [c]) (appended c s).
Proof.
  intros Hs Hc [Hr Ha]. unfold appended. rewrite (wf_count s Hs), take_out_spec by apply Hs.
  split; cbn [completions unfit failed_attempts]; rewrite replay_snoc; unfold load_row;
    rewrite Hc; cbn [fst snd].
  - intros i Hi. rewrite row_of_snoc. destruct (decide (i = id c)) as [->|].
    + by rewrite lookup_insert_eq.
    + rewrite lookup_insert_ne by done. auto.
  - by rewrite Ha.
Qed.

Lemma represents_unfit h c s :
  session_wf s -> represents h s -> represents h (record_unfit c s).
Proof.
  intros Hs [Hr Ha]. unfold record_unfit. rewrite (wf_count s Hs), take_out_spec by apply Hs.
  split; cbn [completions unfit failed_attempts]; [|done].
  intros i Hi. rewrite row_of_snoc. rewrite decide_False by set_solver.
  apply Hr. set_solver.
Qed.

(** ** The file *)

Class EvalSerdeLaws `{EvalSerde} := {
  row_renders r : exists s, row_to_string r = Ok s /\ json_line s /\ row_from_str s = Ok r;
  header_renders h :
    exists s, header_to_string h = Ok s /\ json_line s /\ header_from_str s = Ok h;
  into_values_perm m : into_values m ≡ₚ map snd (map_to_list m);
}.

Section Files.
Context `{EvalSerdeLaws}.

(** The file of a header and rows, perhaps with the start of a line after it. *)
Definition file_of (header : Header) (h : list Row) (torn : list Z) (bytes : list Z) : Prop :=
  exists body, checkpoint_body header h = Ok body /\ bytes = as_bytes body ++ torn /\ 10 ∉ torn.

Lemma rows_body_ok h : exists body, rows_body h = Ok body.
Proof.
  induction h as [|r h [body IH]]; cbn; [by eexists|].
  destruct (row_renders r) as (s & -> & _). rewrite IH. by eexists.
Qed.

Lemma rows_body_lines h body :
  rows_body h = Ok body ->
  byte_lines (as_bytes body) = (fun r => result_ok (row_to_string r)) <$> h /\
  forall acc, load_lines (byte_lines (as_bytes body)) acc = Ok (foldl (fun a c => load_row c a) acc h).
Proof.
  revert body; induction h as [|r h IH]; intros body; cbn [rows_body]; [by intros [= <-]|].
  destruct (row_renders r) as (s & Hs & Hl & Hp). rewrite Hs.
  destruct (rows_body h) as [rest|] eqn:E; [|done]. intros [= <-].
  destruct (IH rest eq_refl) as [IH1 IH2]. rewrite as_bytes_app.
  change (as_bytes (10 :: rest)) with (10 :: as_bytes rest). unfold byte_lines in *.
  rewrite lines_json_line by done. cbn [map fmap list_fmap].
  rewrite from_utf8_as_bytes by apply Hl. split; [by rewrite IH1, Hs|]. intros acc.
  cbn [load_lines]. pose proof (json_line_trim s Hl). destruct (trim s); [done|].
  by rewrite Hp, IH2.
Qed.

Lemma rows_body_app h c body s :
  rows_body h = Ok body -> row_to_string c = Ok s ->
  rows_body (h ++ [c]) = Ok (body ++ s ++ [10]).
Proof.
  revert body; induction h as [|r h IH]; intros body Hb Hs; cbn [rows_body app] in *.
  - simplify_eq. by rewrite Hs.
  - destruct (row_to_string r) as [line|]; [|done].
    destruct (rows_body h) as [rest|]; [|done]. simplify_eq.
    rewrite (IH rest) by done. by rewrite <- app_assoc.
Qed.

Lemma rows_body_end h body : rows_body h = Ok body -> body = [] \/ exists b, body = b ++ [10].
Proof.
  revert body; induction h as [|r h IH]; intros body; cbn [rows_body]; [naive_solver|].
  destruct (row_to_string r) as [line|]; [|done].
  destruct (rows_body h) as [rest|]; [|done]. intros [= <-]. right.
  destruct (IH rest eq_refl) as [->|[b ->]]; [by exists line|].
  exists (line ++ 10 :: b). by rewrite <- app_assoc.
Qed.

Lemma checkpoint_body_inv header h body :
  checkpoint_body header h = Ok body ->
  exists line rest, header_to_string header = Ok line /\ rows_body h = Ok rest /\
  body = line ++ 10 :: rest.
Proof.
  unfold checkpoint_body. destruct (header_to_string header); [|done].
  destruct (rows_body h); [|done]. intros [= <-]. eauto.
Qed.

Lemma checkpoint_body_ok header h : exists body, checkpoint_body header h = Ok body.
Proof.
  unfold checkpoint_body. destruct (header_renders header) as (s & -> & _).
  destruct (rows_body_ok h) as [b ->]. by eexists.
Qed.

Lemma checkpoint_body_end header h body :
  checkpoint_body header h = Ok body -> exists b, body = b ++ [10].
Proof.
  intros (line & rest & _ & Hr & ->)%checkpoint_body_inv.
  destruct (rows_body_end h rest Hr) as [->|[b ->]]; [by exists line|].
  exists (line ++ 10 :: b). by rewrite <- app_assoc.
Qed.

Lemma file_append header h c bytes s :
  file_of header h [] bytes -> row_to_string c = Ok s ->
  file_of header (h ++ [c]) [] (bytes ++ as_bytes (s ++ [10])).
Proof.
  intros (body & Hb & -> & _) Hs. exists (body ++ s ++ [10]). split_and!; [| |set_solver].
  - apply checkpoint_body_inv in Hb as (line & rest & Hl & Hr & ->). unfold checkpoint_body.
    rewrite Hl, (rows_body_app h c rest s) by done. by rewrite <- app_assoc.
  - by rewrite !app_nil_r, <- as_bytes_app.
Qed.

(** A write that stops, or a kill, leaves the history or the history and the whole row. *)
Lemma file_append_stopped header h c bytes s n :
  file_of header h [] bytes -> row_to_string c = Ok s ->
  let line := as_bytes (s ++ [10]) in
  if (n <? length line)%nat
  then file_of header h (take n line) (bytes ++ take n line)
  else file_of header (h ++ [c]) [] (bytes ++ take n line).
Proof.
  intros Hf Hs line. unfold line.
  destruct (Nat.ltb_spec n (length (as_bytes (s ++ [10])))) as [Hn|Hn].
  - destruct Hf as (body & Hb & -> & _). exists body. rewrite app_nil_r. split_and!; [done..|].
    destruct (row_renders c) as (s' & Hs' & Hl & _). assert (s' = s) as -> by congruence.
    rewrite as_bytes_app, length_app in *. cbn in Hn. rewrite take_app_le by lia.
    pose proof (json_line_newline_free s Hl) as Hnl. unfold newline_free in Hnl.
    rewrite Forall_forall in Hnl. intros Hin. apply (Hnl 10); [|done].
    apply elem_of_take in Hin as (i & Hi & _). by apply list_elem_of_lookup_2 in Hi.
  - rewrite take_ge by done. by apply file_append.
Qed.

(** Loading the file of a history replays the history, and cuts what was torn. *)
Lemma load_existing_file path header h torn bytes now f d :
  d !! path = Some bytes -> file_of header h torn bytes ->
  read_fails f = false -> set_len_fails f = false ->
  exists d' whole,
    load_existing path (digest header) now f d =
      (Ok (Some (header, into_values (replay h).1, (replay h).2)), d') /\
    d' !! path = Some whole /\ file_of header h [] whole.
Proof.
  intros Hd (body & Hb & -> & Ht) Hr Hs. unfold load_existing. rewrite Hd, Hr.
  destruct (checkpoint_body_end _ _ _ Hb) as [b Eb]. rewrite Eb, complete_len_app by done.
  rewrite take_app_length, Hs, andb_false_r, <- Eb.
  destruct (checkpoint_body_inv _ _ _ Hb) as (line & rest & Hl & Hrest & ->).
  destruct (header_renders header) as (line' & Hl' & Hj & Hp). assert (line' = line) as -> by congruence.
  rewrite as_bytes_app. change (as_bytes (10 :: rest)) with (10 :: as_bytes rest).
  unfold byte_lines at 1. rewrite lines_json_line by done. cbn [map].
  fold (byte_lines (as_bytes rest)). rewrite from_utf8_as_bytes by apply Hj.
  rewrite Hp, str_eqb_refl. cbn [negb].
  rewrite (proj2 (rows_body_lines h rest Hrest)). fold (replay h).
  destruct (replay h) as [by_id attempts]. eexists _, (as_bytes (line ++ 10 :: rest)).
  split_and!; [done| |exists (line ++ 10 :: rest); by rewrite app_nil_r; set_solver].
  destruct (_ <? _)%nat eqn:E.
  - by rewrite lookup_insert_eq, as_bytes_app.
  - apply Nat.ltb_ge in E. rewrite (length_app _ torn) in E.
    destruct torn; [by rewrite Hd, app_nil_r|]. cbn [length] in E. lia.
Qed.

(** [into_values] of rows by id answers every row once. *)
Lemma into_values_elem m c :
  (forall i r, m !! i = Some r -> id r = i) -> c ∈ into_values m <-> m !! id c = Some c.
Proof.
  intros Hk. rewrite (into_values_perm m), list_elem_of_fmap. split.
  - intros ([i r] & -> & Hr%elem_of_map_to_list). cbn. by rewrite (Hk i r Hr).
  - intros Hc. exists (id c, c). split; [done|]. by apply elem_of_map_to_list.
Qed.

Lemma into_values_nodup m :
  (forall i r, m !! i = Some r -> id r = i) -> NoDup (map id (into_values m)).
Proof.
  intros Hk. rewrite (into_values_perm m), map_map.
  rewrite (map_ext_in _ fst); [apply NoDup_fst_map_to_list|].
  intros [i r] Hr%list_elem_of_In%elem_of_map_to_list. by apply Hk.
Qed.

Lemma into_values_row m i :
  (forall i r, m !! i = Some r -> id r = i) -> row_of i (into_values m) = m !! i.
Proof.
  intros Hk. destruct (m !! i) as [c|] eqn:E.
  - apply row_of_unique; [by apply into_values_nodup| |by apply Hk].
    apply into_values_elem; [done|]. by rewrite (Hk i c E).
  - destruct (row_of i (into_values m)) as [c|] eqn:Ec; [|done].
    apply row_of_Some in Ec as [Hc <-]. apply into_values_elem in Hc; [congruence|done].
Qed.

Lemma new_session_wf p rows attempts :
  NoDup (map id rows) ->
  (forall c, c ∈ rows -> failed c = true -> (1 <= spent (id c) attempts)%nat) ->
  session_wf (new_session p rows attempts).
Proof. intros Hn Ha. split; cbn; [done..| |set_solver]. intros c Hc Hf _. by apply Ha. Qed.

(** The session of a history. *)
Lemma new_session_history p h :
  let s := new_session p (into_values (replay h).1) (replay h).2 in
  session_wf s /\ represents h s.
Proof.
  destruct (replay_is_ok h) as [Hk Hs].
  assert (forall i r, (replay h).1 !! i = Some r -> id r = i) as Hk' by (intros ? ? ?%Hk; naive_solver).
  split; [apply new_session_wf|split; cbn [completions new_session failed_attempts]].
  - by apply into_values_nodup.
  - intros c Hc Hf. apply into_values_elem in Hc; [|done]. by eapply Hs.
  - intros i _. by apply into_values_row.
  - done.
Qed.

(** Rows with ids of their own, none of them failed, are their own history. *)
Lemma replay_completed l :
  NoDup (map id l) ->
  (forall c, c ∈ l -> sanitize_pre_gate_success c = c /\ failed c = false) ->
  (forall i, (replay l).1 !! i = row_of i l) /\ (replay l).2 = ∅.
Proof.
  induction l as [|c l IH] using rev_ind; intros Hn Hl; [done|].
  rewrite map_app in Hn. apply NoDup_app in Hn as (Hn & Hc & _).
  assert (id c ∉ map id l) as Hnew by (intros Hin; by apply (Hc _ Hin); left).
  destruct IH as [IH1 IH2]; [done|intros; apply Hl; set_solver|].
  destruct (Hl c ltac:(set_solver)) as [Hs Hf]. rewrite replay_snoc. unfold load_row.
  rewrite Hs, Hf. cbn [fst snd]. split; [|done]. intros i.
  rewrite row_of_new by done.
  destruct (decide (i = id c)) as [->|]; [by rewrite lookup_insert_eq|].
  by rewrite lookup_insert_ne.
Qed.

Definition completed_rows (h : list Row) : list Row :=
  List.filter (fun c => negb (failed c)) (into_values (replay h).1).

Lemma elem_of_completed_rows h c :
  c ∈ completed_rows h <-> (replay h).1 !! id c = Some c /\ failed c = false.
Proof.
  unfold completed_rows. rewrite list_elem_of_In, filter_In, negb_true_iff, <- list_elem_of_In.
  rewrite into_values_elem; [done|]. intros i r Hr. by destruct (replay_key _ (replay_is_ok h) i r Hr).
Qed.

Lemma nodup_filter (P : Row -> bool) l : NoDup (map id l) -> NoDup (map id (List.filter P l)).
Proof.
  induction l as [|c l IH]; [done|]. cbn [map List.filter]. intros [Hc Hn]%NoDup_cons.
  destruct (P c); [|by apply IH]. cbn [map]. apply NoDup_cons. split; [|by apply IH].
  intros (r & E & Hr)%list_elem_of_fmap. apply Hc. rewrite E. apply list_elem_of_fmap.
  exists r. split; [done|]. rewrite list_elem_of_In, filter_In in Hr.
  apply list_elem_of_In, Hr.
Qed.

Lemma new_session_completed p h :
  let s := new_session p (completed_rows h) ∅ in
  session_wf s /\ represents (completed_rows h) s.
Proof.
  destruct (replay_is_ok h) as [Hk _].
  assert (NoDup (map id (completed_rows h))) as Hn.
  { apply nodup_filter, into_values_nodup. intros ? ? ?%Hk. naive_solver. }
  destruct (replay_completed (completed_rows h)) as [H1 H2]; [done| |].
  { intros c [Hc Hf]%elem_of_completed_rows. apply Hk in Hc. naive_solver. }
  split; [apply new_session_wf; [done|]|split; cbn [completions new_session failed_attempts]].
  - intros c [_ Hf]%elem_of_completed_rows. congruence.
  - auto.
  - done.
Qed.

(** ** Opening, appending and finalizing a file of a history *)

Definition replaces (f : Faults) : bool :=
  match tmp_stops_at f with None => negb (rename_fails f) | Some _ => false end.

Lemma write_checkpoint_spec dg header rows f d :
  exists r d', write_checkpoint (session_path dg) header rows f d = (r, d') /\
  if replaces f
  then r = Ok tt /\ exists bytes, d' !! session_path dg = Some bytes /\ file_of header rows [] bytes
  else (exists e, r = Err e) /\ d' !! session_path dg = d !! session_path dg.
Proof.
  unfold write_checkpoint, replaces. destruct (checkpoint_body_ok header rows) as [body Hb].
  rewrite Hb. pose proof (with_extension_ne (lit "jsonl.tmp") dg ltac:(done)) as Hne.
  destruct (tmp_stops_at f) as [n|]; [|destruct (rename_fails f)]; cbn [negb];
    eexists _, _; (split; [done|]).
  - split; [by eexists|]. by rewrite lookup_insert_ne.
  - split; [by eexists|]. by rewrite lookup_insert_ne.
  - split; [done|]. eexists. rewrite lookup_insert_eq. split; [done|].
    exists body. rewrite app_nil_r. split_and!; [done..|set_solver].
Qed.

(** *** The abstract checkpoint

    What each operation means for the history: the header and the rows of the file, if
    there is one. *)

Definition History : Type := option (Header * list Row).

Definition spec_open (header : Header) (f : Faults) (hist : History) : History :=
  if mkdir_fails f then hist
  else match hist with
       | None => if replaces f then Some (header, []) else None
       | Some (found, h) =>
           if decide (http_timeout_seconds found = http_timeout_seconds header) then hist
           else if replaces f then Some (header, completed_rows h) else hist
       end.

(** A row that was written whole is part of the history, also when the call failed. *)
Definition covers (c : Row) (stops_at : option nat) : bool :=
  match stops_at, row_to_string c with
  | None, _ => true
  | Some n, Ok s => (length (as_bytes (s ++ [10%Z])) <=? n)%nat
  | Some _, Err _ => false
  end.

Definition spec_append (c : Row) (stops_at : option nat) (hist : History) : History :=
  match hist with
  | Some (header, h) => Some (header, if covers c stops_at then h ++ [c] else h)
  | None => None
  end.

(** Each failed row, once per attempt it has spent. *)
Definition failed_rows (h : list Row) : list Row :=
  List.filter failed (into_values (replay h).1) ≫= fun c =>
    replicate (Nat.max 1 (default 1%nat ((replay h).2 !! id c))) c.

Definition spec_finalize (f : Faults) (hist : History) : History :=
  match hist with
  | None => None
  | Some (header, h) =>
      match failed_rows h with
      | [] => if remove_fails f then hist else None
      | rows => if replaces f then Some (header, rows) else hist
      end
  end.

(** The file at the path of a digest is the file of a history. *)
Definition at_rest (dg : str) (d : Dir) (torn : list Z) (hist : History) : Prop :=
  match hist with
  | None => d !! session_path dg = None /\ torn = []
  | Some (header, h) =>
      digest header = dg /\
      exists bytes, d !! session_path dg = Some bytes /\ file_of header h torn bytes
  end.

Definition session_of (dg : str) (hist : History) (s : EvalCompletionSession) : Prop :=
  path s = session_path dg /\ session_wf s /\
  match hist with Some (_, h) => represents h s | None => False end.

Lemma at_rest_file dg header h bytes d :
  digest header = dg -> d !! session_path dg = Some bytes -> file_of header h [] bytes ->
  at_rest dg d [] (Some (header, h)).
Proof. intros Hd Hb Hf. split; [done|]. by exists bytes. Qed.

Lemma at_rest_ext dg d d' torn hist :
  d' !! session_path dg = d !! session_path dg -> at_rest dg d torn hist -> at_rest dg d' torn hist.
Proof. unfold at_rest. by intros ->. Qed.

(** Loading answers the replay of the history and leaves its whole lines. *)
Lemma load_at_rest dg header h torn now f d :
  at_rest dg d torn (Some (header, h)) -> read_fails f = false -> set_len_fails f = false ->
  exists d', load_existing (session_path dg) dg now f d =
    (Ok (Some (header, into_values (replay h).1, (replay h).2)), d') /\
  at_rest dg d' [] (Some (header, h)).
Proof.
  intros [Hdg (bytes & Hb & Hf)] Hr Hs.
  destruct (load_existing_file _ _ _ _ _ now f d Hb Hf Hr Hs) as (d' & whole & Hl & Hd & Hw).
  rewrite Hdg in Hl. exists d'. split; [done|]. by eapply at_rest_file.
Qed.

Lemma open_spec dg header now f d torn hist :
  at_rest dg d torn hist -> digest header = dg ->
  read_fails f = false -> set_len_fails f = false ->
  exists r d' torn', open_in header now f d = (r, d') /\
  at_rest dg d' torn' (spec_open header f hist) /\
  match r with
  | Ok s => torn' = [] /\ unfit s = ∅ /\ session_of dg (spec_open header f hist) s
  | Err _ => mkdir_fails f = true \/ open_fails f = true \/ replaces f = false
  end.
Proof.
  intros Hrest Hdg Hr Hs. unfold open_in, spec_open. rewrite Hdg.
  destruct (mkdir_fails f) eqn:Em; [eexists _, _, torn; by eauto|].
  destruct hist as [[found h]|].
  - destruct (load_at_rest _ _ _ _ now f d Hrest Hr Hs) as (d1 & Hl & H1).
    pose proof Hrest as [_ (bytes & Hb & _)]. rewrite Hb, Hl.
    destruct (decide _) as [Et|Et].
    + destruct (open_fails f) eqn:Eo; eexists _, d1, []; (split; [done|]); [by eauto|].
      split_and!; [exact H1|done..|]. split_and!; [done|apply new_session_history..].
    + destruct (write_checkpoint_spec dg header (completed_rows h) f d1) as (r & d2 & Hw & Hc).
      fold (completed_rows h). rewrite Hw. destruct (replaces f) eqn:Ef.
      * destruct Hc as [-> (bytes' & Hb' & Hf')].
        destruct (open_fails f) eqn:Eo; eexists _, d2, []; (split; [done|]);
          (split; [by eapply at_rest_file|]); [auto|].
        split_and!; [done..|]. split_and!; [done|apply new_session_completed..].
      * destruct Hc as [[e ->] Hd2]. eexists _, d2, []. split; [done|].
        split; [|auto]. eapply at_rest_ext; [exact Hd2|exact H1].
  - destruct Hrest as [Hn ->]. rewrite Hn.
    destruct (write_checkpoint_spec dg header [] f d) as (r & d2 & Hw & Hc). rewrite Hw.
    destruct (replaces f) eqn:Ef.
    + destruct Hc as [-> (bytes' & Hb' & Hf')].
      destruct (open_fails f) eqn:Eo; eexists _, d2, []; (split; [done|]);
        (split; [by eapply at_rest_file|]); [auto|].
      split_and!; [done..|]. split_and!; [done| |].
      * apply new_session_wf; [by constructor|set_solver].
      * by split.
    + destruct Hc as [[e ->] Hd2]. eexists _, d2, []. split; [done|].
      split; [|auto]. cbn. by rewrite Hd2.
Qed.

Lemma append_spec dg c stops_at s d hist :
  at_rest dg d [] hist -> session_of dg hist s -> sanitize_pre_gate_success c = c ->
  exists r s' d' torn', append c stops_at s d = (r, s', d') /\
  at_rest dg d' torn' (spec_append c stops_at hist) /\
  match r with
  | Ok _ => torn' = [] /\ session_of dg (spec_append c stops_at hist) s'
  | Err _ => True
  end.
Proof.
  intros Hrest (Hp & Hwf & Hrep) Hc. destruct hist as [[header h]|]; [|done].
  destruct Hrest as [Hdg (bytes & Hb & Hf)]. unfold append, spec_append, covers.
  destruct (row_renders c) as (line & Hl & _). rewrite Hl, Hp, Hb. cbn [default].
  destruct stops_at as [n|].
  - pose proof (file_append_stopped _ _ c _ line n Hf Hl) as Hstop. cbn zeta in Hstop.
    eexists _, _, _. rewrite Nat.leb_antisym. destruct (_ <? _)%nat; cbn [negb] in *.
    + exists (take n (as_bytes (line ++ [10]))). split; [done|]. split; [|done]. split; [done|].
      eexists. rewrite lookup_insert_eq. split; [done|]. exact Hstop.
    + exists []. split; [done|]. split; [|done]. eapply at_rest_file; [done|apply lookup_insert_eq|].
      exact Hstop.
  - eexists _, _, _, []. split; [done|]. split_and!.
    + eapply at_rest_file; [done|apply lookup_insert_eq|]. by apply file_append.
    + done.
    + split_and!; [|by apply appended_wf|by apply represents_appended].
      unfold appended. by destruct (take_out _ _ _).
Qed.

Lemma finalize_spec dg now f d torn hist :
  at_rest dg d torn hist -> read_fails f = false -> set_len_fails f = false ->
  exists r d' torn', finalize dg now f d = (r, d') /\
  at_rest dg d' torn' (spec_finalize f hist) /\
  (replaces f = true -> remove_fails f = false -> r = Ok tt).
Proof.
  intros Hrest Hr Hs. unfold finalize, spec_finalize. destruct hist as [[header h]|].
  - destruct (load_at_rest _ _ _ _ now f d Hrest Hr Hs) as (d1 & Hl & H1).
    pose proof Hrest as [Hdg (bytes & Hb & _)]. rewrite Hb, Hl. fold (failed_rows h).
    destruct (failed_rows h) as [|c rows] eqn:E.
    + destruct (remove_fails f) eqn:Er; eexists _, _, []; (split; [done|]).
      * by split.
      * split; [|done]. cbn. by rewrite lookup_delete_eq.
    + destruct (write_checkpoint_spec dg header (c :: rows) f d1) as (r & d2 & Hw & Hc).
      exists r, d2, []. split; [done|]. destruct (replaces f) eqn:Ef.
      * destruct Hc as [-> (b2 & Hb2 & Hf2)]. split; [|done]. by eapply at_rest_file.
      * destruct Hc as [_ Hd2]. split; [|done]. eapply at_rest_ext; [exact Hd2|exact H1].
  - destruct Hrest as [Hn ->]. rewrite Hn. by exists (Ok tt), d, [].
Qed.

(** *** The life of a checkpoint

    A session opens, appends, holds unfit rows and ends; the client finalizes between
    sessions. A failed or killed append ends its session. Reading and cutting the file
    succeed: a file that cannot be read is set aside as stale. *)

Record State := { dir : Dir; live : option EvalCompletionSession; hist : History }.

Definition initial (dg : str) (st : State) : Prop :=
  dir st !! session_path dg = None /\ live st = None /\ hist st = None.

Inductive step (dg : str) : State -> State -> Prop :=
| step_open st header now f r d' :
    live st = None -> digest header = dg ->
    read_fails f = false -> set_len_fails f = false ->
    open_in header now f (dir st) = (r, d') ->
    step dg st {| dir := d'; live := result_ok r; hist := spec_open header f (hist st) |}
| step_append st s c stops_at r s' d' :
    live st = Some s -> sanitize_pre_gate_success c = c ->
    append c stops_at s (dir st) = (r, s', d') ->
    step dg st {| dir := d'; live := (fun _ => s') <$> result_ok r;
                  hist := spec_append c stops_at (hist st) |}
| step_unfit st s c :
    live st = Some s ->
    step dg st {| dir := dir st; live := Some (record_unfit c s); hist := hist st |}
| step_end st : step dg st {| dir := dir st; live := None; hist := hist st |}
| step_finalize st now f r d' :
    live st = None -> read_fails f = false -> set_len_fails f = false ->
    finalize dg now f (dir st) = (r, d') ->
    step dg st {| dir := d'; live := None; hist := spec_finalize f (hist st) |}.

Definition inv (dg : str) (st : State) : Prop :=
  exists torn, at_rest dg (dir st) torn (hist st) /\
  forall s, live st = Some s -> torn = [] /\ session_of dg (hist st) s.

Lemma session_of_unfit dg hist c s : session_of dg hist s -> session_of dg hist (record_unfit c s).
Proof.
  intros (Hp & Hwf & Hr). destruct hist as [[header h]|]; [|done].
  split_and!; [|by apply record_unfit_wf|by apply represents_unfit].
  unfold record_unfit. by destruct (take_out _ _ _).
Qed.

Lemma step_inv dg st st' : inv dg st -> step dg st st' -> inv dg st'.
Proof.
  intros (torn & Hrest & Hlive) Hstep.
  destruct Hstep as [st header now f r d' Hl Hdg Hr Hs Hop|st s c stops_at r s' d' Hl Hc Hop
    |st s c Hl|st|st now f r d' Hl Hr Hs Hop].
  - destruct (open_spec dg header now f (dir st) torn (hist st)) as (r0 & d0 & torn' & E & Ha & Hok);
      [done..|].
    rewrite E in Hop. simplify_eq. exists torn'. split; [done|]. cbn. destruct r; [|done]. naive_solver.
  - destruct (Hlive s Hl) as [-> Hs].
    destruct (append_spec dg c stops_at s (dir st) (hist st)) as (r0 & s0 & d0 & torn' & E & Ha & Hok);
      [done..|].
    rewrite E in Hop. simplify_eq. exists torn'. split; [done|]. cbn. destruct r; [|done]. naive_solver.
  - destruct (Hlive s Hl) as [-> Hs]. exists []. split; [done|]. cbn.
    intros s' [= <-]. split; [done|]. by apply session_of_unfit.
  - exists torn. by split.
  - destruct (finalize_spec dg now f (dir st) torn (hist st)) as (r0 & d0 & torn' & E & Ha & _);
      [done..|].
    rewrite E in Hop. simplify_eq. by exists torn'.
Qed.

Lemma store_reachable_inv dg st : reachable (initial dg) (step dg) st -> inv dg st.
Proof.
  apply reachable_invariant; [|apply step_inv].
  intros s0 (Hd & Hl & Hh). exists []. unfold at_rest. by rewrite Hh, Hl.
Qed.


(** C30: A session is well formed at every moment: no sample has two rows, the done ids are
    the rows' ids, the failure count is the number of failed rows - so no subtraction of
    the progress lines underflows - and every failed row that is not unfit has spent an
    attempt. *)
Theorem live_session_well_formed dg st s :
  reachable (initial dg) (step dg) st -> live st = Some s -> session_wf s.
Proof. intros (torn & _ & Hlive)%store_reachable_inv Hs. by destruct (Hlive s Hs) as [_ (_ & ? & _)]. Qed.

(** *** What finalizing keeps *)

Lemma load_replicate n c acc :
  sanitize_pre_gate_success c = c -> failed c = true ->
  foldl (fun a r => load_row r a) acc (replicate (S n) c) =
  (<[id c := c]> acc.1, <[id c := (S n + spent (id c) acc.2)%nat]> acc.2).
Proof.
  intros Hs Hf. revert acc. induction n as [|n IH]; intros acc.
  - cbn. unfold load_row. by rewrite Hs, Hf.
  - change (replicate (S (S n)) c) with (c :: replicate (S n) c). cbn [foldl]. rewrite IH.
    unfold load_row. rewrite Hs, Hf. cbn [fst snd]. rewrite !insert_insert_eq.
    rewrite spent_insert, decide_True by done. do 2 f_equal. lia.
Qed.

Lemma replay_failures (k : Row -> nat) l :
  NoDup (map id l) -> (forall c, (1 <= k c)%nat) ->
  (forall c, c ∈ l -> sanitize_pre_gate_success c = c /\ failed c = true) ->
  forall i, (replay (l ≫= fun c => replicate (k c) c)).1 !! i = row_of i l /\
            (replay (l ≫= fun c => replicate (k c) c)).2 !! i = k <$> row_of i l.
Proof.
  intros Hn Hk. induction l as [|c l IH] using rev_ind; intros Hl i; [done|].
  rewrite map_app in Hn. apply NoDup_app in Hn as (Hn & Hc & _).
  assert (id c ∉ map id l) as Hnew by (intros Hin; by apply (Hc _ Hin); left).
  specialize (IH Hn ltac:(intros; apply Hl; set_solver)).
  destruct (Hl c ltac:(set_solver)) as [Hs Hf].
  rewrite bind_app. cbn [mbind list_bind]. rewrite app_nil_r. unfold replay in *.
  rewrite foldl_app. destruct (k c) as [|n] eqn:E; [specialize (Hk c); lia|].
  rewrite load_replicate by done.
  rewrite row_of_new by done. cbn [fst snd].
  destruct (decide (i = id c)) as [->|].
  - rewrite !lookup_insert_eq. split; [done|]. cbn. unfold spent.
    rewrite (proj2 (IH (id c))). destruct (row_of (id c) l) as [r|] eqn:Er; cbn; [|f_equal; lia].
    apply row_of_Some in Er as [Hr Eid]. exfalso. apply Hnew. rewrite <- Eid.
    apply list_elem_of_fmap. by exists r.
  - by rewrite !lookup_insert_ne.
Qed.

(** The failed row an id is left with. *)
Definition kept_failure (hist : History) (i : str) : option Row :=
  '(_, h) ← hist; c ← (replay h).1 !! i; if failed c then Some c else None.

Lemma failed_rows_replay h i :
  (replay (failed_rows h)).1 !! i = (c ← (replay h).1 !! i; if failed c then Some c else None) /\
  (replay (failed_rows h)).2 !! i =
    (c ← (replay h).1 !! i; if failed c then Some (spent i (replay h).2) else None).
Proof.
  destruct (replay_is_ok h) as [Hk Hs]. unfold failed_rows.
  set (rows := into_values (replay h).1).
  assert (forall i r, (replay h).1 !! i = Some r -> id r = i) as Hk' by (intros ? ? ?%Hk; naive_solver).
  assert (NoDup (map id (List.filter failed rows))) as Hn by by apply nodup_filter, into_values_nodup.
  assert (forall c, c ∈ List.filter failed rows <-> (replay h).1 !! id c = Some c /\ failed c = true)
    as Hrows.
  { intros c. rewrite list_elem_of_In, filter_In, <- list_elem_of_In. unfold rows.
    by rewrite into_values_elem. }
  assert (row_of i (List.filter failed rows) =
    (c ← (replay h).1 !! i; if failed c then Some c else None)) as Hrow.
  { destruct (row_of i _) as [c|] eqn:E.
    - apply row_of_Some in E as [[Hc Hf]%Hrows <-]. rewrite Hc. cbn. by rewrite Hf.
    - destruct ((replay h).1 !! i) as [c|] eqn:Ec; cbn; [|done]. destruct (failed c) eqn:Ef; [|done].
      rewrite (row_of_unique i _ c) in E; [done|done| |by apply Hk']. apply Hrows.
      by rewrite (Hk' i c Ec). }
  edestruct (replay_failures (fun c => Nat.max 1 (default 1%nat ((replay h).2 !! id c)))
    (List.filter failed rows)) as [H1 H2]; [done|intros; lia| |].
  { intros c [Hc Hf]%Hrows. split; [by eapply Hk|done]. }
  rewrite H1, H2, Hrow. split; [done|]. destruct ((replay h).1 !! i) as [c|] eqn:Ec; cbn; [|done].
  destruct (failed c) eqn:Ef; [|done]. cbn. rewrite (Hk' i c Ec).
  specialize (Hs i c Ec Ef). unfold spent in *. by destruct ((replay h).2 !! i) as [[|n]|]; cbn in *; try lia.
Qed.

(** Finalizing a checkpoint keeps exactly its failures, with the attempts they have
    spent: whatever the file went through, [finalize] succeeds, and a later run under the
    same timeout opens a session that holds the failed rows and no other, each with as many
    attempts as before - so a broken sample is not retried for ever. *)
Theorem finalize_keeps_failures dg st header now :
  reachable (initial dg) (step dg) st -> digest header = dg ->
  (forall found h, hist st = Some (found, h) ->
     http_timeout_seconds found = http_timeout_seconds header) ->
  exists d' s d'', finalize dg now no_faults (dir st) = (Ok tt, d') /\
    open_in header now no_faults d' = (Ok s, d'') /\
    forall i, row_of i (completions s) = kept_failure (hist st) i /\
      spent i (failed_attempts s) =
        match kept_failure (hist st) i, hist st with
        | Some _, Some (_, h) => spent i (replay h).2
        | _, _ => 0%nat
        end.
Proof.
  intros (torn & Hrest & _)%store_reachable_inv Hdg Ht.
  destruct (finalize_spec dg now no_faults (dir st) torn (hist st)) as (r & d' & torn' & E & Ha & Hr);
    [done..|].
  rewrite Hr in E by done. exists d'.
  destruct (open_spec dg header now no_faults d' torn' _ Ha Hdg) as (r' & d'' & torn'' & E' & _ & Hok);
    [done..|].
  destruct r' as [s|]; [|destruct Hok as [|[|]]; done]. exists s, d''. split_and!; [done..|].
  intros i. destruct Hok as (_ & Hu & _ & _ & Hrep). unfold kept_failure.
  destruct (hist st) as [[found h]|] eqn:Eh; cbn in Hrep |- *.
  - destruct (failed_rows_replay h i) as [H1 H2].
    assert (represents (failed_rows h) s) as [Hrows Hatt].
    { destruct (failed_rows h) as [|c l]; cbn in Hrep; [done|].
      by rewrite decide_True in Hrep by eauto. }
    rewrite Hrows by set_solver. unfold spent at 1. rewrite Hatt, H1, H2.
    destruct ((replay h).1 !! i) as [c|]; cbn; [|done]. by destruct (failed c).
  - destruct Hrep as [Hrows Hatt]. rewrite Hrows, Hatt by set_solver. done.
Qed.
End Files.

(** ** Completeness *)

Lemma filter_split_perm {A} (P Q : A -> bool) l :
  (forall x, x ∈ l -> Q x = negb (P x)) -> List.filter P l ++ List.filter Q l ≡ₚ l.
Proof.
  induction l as [|x l IH]; [done|]. intros H. cbn [List.filter].
  rewrite (H x) by set_solver. specialize (IH ltac:(intros; apply H; set_solver)).
  destruct (P x); cbn [negb app]; [by rewrite IH|]. by rewrite <- Permutation_middle, IH.
Qed.

Lemma failures_perm n s :
  (failure_split n s).1 ++ (failure_split n s).2 ++ unfit_ids s ≡ₚ failed_ids s.
Proof.
  unfold failure_split, unfit_ids, failed_ids. cbn [fst snd]. rewrite app_assoc, <- !map_app.
  apply Permutation_map. rewrite filter_split_perm by done.
  rewrite <- (filter_split_perm (fun c => negb (bool_decide (id c ∈ unfit s)))
    (fun c => bool_decide (id c ∈ unfit s)) (List.filter failed (completions s)))
    by (intros; by rewrite negb_involutive).
  enough (forall P, List.filter (fun c => failed c && P c) (completions s) =
    List.filter P (List.filter failed (completions s))) as Hf by by rewrite !Hf.
  intros P. induction (completions s) as [|c l IH]; [done|]. cbn [List.filter].
  destruct (failed c); cbn [List.filter andb]; [|done]. by rewrite IH.
Qed.

Lemma no_failures s :
  session_wf s -> failed_count s = 0%nat <-> forall c, c ∈ completions s -> failed c = false.
Proof.
  intros Hs. rewrite (wf_count s Hs). split.
  - intros Hl c Hc. destruct (failed c) eqn:E; [|done].
    apply nil_length_inv in Hl. assert (c ∈ List.filter failed (completions s)) as Hin.
    { apply list_elem_of_In, filter_In. by rewrite <- list_elem_of_In. }
    rewrite Hl in Hin. set_solver.
  - intros H. destruct (List.filter failed (completions s)) as [|c l] eqn:E; [done|].
    assert (In c (List.filter failed (completions s))) as [Hc Hf]%filter_In by (rewrite E; by left).
    apply list_elem_of_In in Hc. rewrite H in Hf; done.
Qed.

Lemma check_complete_Ok env s served waiver :
  session_wf s ->
  check_complete env s served waiver = Ok tt <->
    length (completions s) = served /\
    ((forall c, c ∈ completions s -> failed c = false) \/
     waiver = Honored /\ affirmative env = true).
Proof.
  intros Hs. pose proof (no_failures s Hs) as Hnone. unfold check_complete.
  destruct (Nat.eqb_spec (length (completions s)) served) as [El|El]; cbn [negb]; [|naive_solver].
  destruct (Nat.eqb_spec (failed_count s) 0) as [E0|E0]; [naive_solver|].
  destruct (failure_split MAX_SAMPLE_ATTEMPTS s) as [retriable exhausted].
  destruct (bool_decide _ && affirmative env) eqn:Ew; bool_to_prop; [naive_solver|].
  split; [done|]. intros [_ [H|[-> H]]]; [naive_solver|].
  by rewrite bool_decide_true, H in Ew.
Qed.

(** A cell is published exactly when every served sample has a row and none failed, or
    the operator waived the failures of a cell that may be waived. A refusal for failures
    sorts every failed sample into exactly one of the lists it shows: those a rerun retries
    (fewer than three attempts spent), those out of attempts, and those that did not fit. *)
Theorem check_complete_correct env s served waiver :
  session_wf s ->
  (check_complete env s served waiver = Ok tt <->
     length (completions s) = served /\
     ((forall c, c ∈ completions s -> failed c = false) \/
      waiver = Honored /\ affirmative env = true)) /\
  (forall n total retriable exhausted held,
     check_complete env s served waiver = Err (FailedRows n total retriable exhausted held) ->
     n = length (failed_ids s) /\ total = served /\
     retriable ++ exhausted ++ held ≡ₚ failed_ids s /\
     forall i, (i ∈ retriable -> (spent i (failed_attempts s) < 3)%nat) /\
               (i ∈ exhausted -> (3 <= spent i (failed_attempts s))%nat) /\
               (i ∈ held -> i ∈ unfit s)).
Proof.
  intros Hs. split; [by apply check_complete_Ok|]. unfold check_complete.
  destruct (Nat.eqb_spec (length (completions s)) served) as [El|El]; cbn [negb]; [|done].
  destruct (failed_count s =? 0)%nat; [done|].
  destruct (failure_split MAX_SAMPLE_ATTEMPTS s) as [retriable exhausted] eqn:Ef.
  destruct (bool_decide _ && affirmative env); [done|].
  intros n total r e u [= <- <- <- <- <-]. unfold failed_ids. rewrite length_map.
  split_and!; [apply Hs|done|..].
  - pose proof (failures_perm MAX_SAMPLE_ATTEMPTS s) as Hp. by rewrite Ef in Hp.
  - unfold failure_split, MAX_SAMPLE_ATTEMPTS in Ef. simplify_eq. intros i. unfold unfit_ids.
    split_and!; intros (c & -> & Hc)%list_elem_of_fmap;
      apply list_elem_of_In, filter_In in Hc as [_ Hc]; bool_to_prop; [| |done].
    + by apply Nat.ltb_lt.
    + by apply Nat.ltb_ge.
Qed.

(** ** A concrete serializer *)

#[export] Instance StopReason_countable : Countable StopReason.
Proof.
  apply (inj_countable' (fun r => match r with Eos => 0%nat | Truncated => 1%nat
    | DoomLoop => 2%nat | Unknown => 3%nat | Failure => 4%nat end)
    (fun n => match n with 0%nat => Eos | 1%nat => Truncated | 2%nat => DoomLoop
    | 3%nat => Unknown | _ => Failure end)).
  by intros [].
Defined.

#[export] Instance Row_countable : Countable Row.
Proof.
  apply (inj_countable' (fun r => (id r, completion r, failed r, failed_reason r, stop_reason r,
      stop_detail r, completion_tokens r))
    (fun '(i, c, f, fr, sr, sd, ct) => Build_BenchmarkEvalCompletion i c f fr sr sd ct)).
  by intros [].
Defined.

#[export] Instance Header_eq_dec : EqDecision Header.
Proof.
  assert (EqDecision EvalCompletionMeta) by solve_decision. solve_decision.
Defined.

#[export] Instance Header_countable : Countable Header.
Proof.
  apply (inj_countable' (fun h => (digest h, benchmark_id (meta h), meta_runtime (meta h),
      meta_model (meta h), http_timeout_seconds h))
    (fun '(d, b, r, m, t) =>
      Build_Header d (Build_EvalCompletionMeta b r m) t)).
  by intros [? [] ?].
Defined.

#[export] Instance countable_serde : EvalSerde := {
  row_to_string r := Ok (countable_to_string r);
  row_from_str := countable_from_str;
  header_to_string h := Ok (countable_to_string h);
  header_from_str := countable_from_str;
  into_values m := map snd (map_to_list m);
}.

#[export] Instance countable_serde_laws : EvalSerdeLaws.
Proof.
  split.
  - intros r. exists (countable_to_string r).
    split_and!; [done|apply countable_json_line|apply countable_roundtrip].
  - intros h. exists (countable_to_string h).
    split_and!; [done|apply countable_json_line|apply countable_roundtrip].
  - done.
Qed.

Definition header_ex : Header :=
  {| digest := lit "0123456789abcdef00";
     meta := {| benchmark_id := lit "b"; meta_runtime := lit "r"; meta_model := lit "m" |};
     http_timeout_seconds := Some 60 |}.

Definition row_ex (i : str) (f : bool) : Row :=
  {| id := i; completion := []; failed := f; failed_reason := None; stop_reason := Eos;
     stop_detail := None; completion_tokens := None |}.

(** A run that records a failure and an answer, and is then killed inside a third append. *)
Lemma killed_run :
  exists st, reachable (initial (digest header_ex)) (step (digest header_ex)) st /\
  live st = None /\
  hist st = Some (header_ex, [row_ex (lit "a") true; row_ex (lit "b") false]).
Proof.
  set (dg := digest header_ex).
  assert (at_rest dg ∅ [] None) as H0 by done.
  destruct (open_spec dg header_ex 0 no_faults ∅ [] None H0) as (r & d1 & t1 & E1 & A1 & K1);
    [done..|].
  destruct r as [s1|]; [|destruct K1 as [|[|]]; done]. destruct K1 as (-> & _ & K1).
  destruct (append_spec dg (row_ex (lit "a") true) None s1 d1 _ A1 K1) as
    (r & s2 & d2 & t2 & E2 & A2 & K2); [done|].
  assert (r = Ok tt) as -> by (unfold append in E2; cbn in E2; congruence).
  destruct K2 as [-> K2].
  destruct (append_spec dg (row_ex (lit "b") false) None s2 d2 _ A2 K2) as
    (r & s3 & d3 & t3 & E3 & A3 & K3); [done|].
  assert (r = Ok tt) as -> by (unfold append in E3; cbn in E3; congruence).
  destruct K3 as [-> K3].
  destruct (append_spec dg (row_ex (lit "c") false) (Some 2%nat) s3 d3 _ A3 K3) as
    (r & s4 & d4 & t4 & E4 & A4 & _); [done|].
  eexists. split; [|split].
  - eapply reach_step; [eapply reach_step; [eapply reach_step; [eapply reach_step|]|]|].
    + apply (reach_init _ _ {| dir := ∅; live := None; hist := None |}). done.
    + eapply (step_open dg _ header_ex 0 no_faults); done.
    + eapply step_append; [done| |exact E2]; done.
    + eapply step_append; [done| |exact E3]; done.
    + eapply step_append; [done| |exact E4]; done.
  - cbn. assert (result_ok r = None) as ->; [|done].
    unfold append in E4. cbn in E4. by simplify_eq.
  - done.
Qed.


Lemma live_session_well_formed_witness :
  exists st s, live st = Some s /\ session_wf s.
Proof.
  set (dg := digest header_ex).
  assert (at_rest dg ∅ [] None) as H0 by done.
  destruct (open_spec dg header_ex 0 no_faults ∅ [] None H0) as (r & d1 & t1 & E1 & A1 & K1);
    [done..|].
  destruct r as [s1|]; [|exfalso; destruct K1 as [|[|]]; done].
  exists {| dir := d1; live := Some s1; hist := spec_open header_ex no_faults None |}, s1.
  split; [done|]. apply (live_session_well_formed dg
    {| dir := d1; live := Some s1; hist := spec_open header_ex no_faults None |}); [|done].
  eapply reach_step; [apply (reach_init _ _ {| dir := ∅; live := None; hist := None |}); done|].
  by apply (step_open dg {| dir := ∅; live := None; hist := None |} header_ex 0 no_faults (Ok s1) d1).
Defined.

Lemma finalize_keeps_failures_witness :
  exists st d' s d'', finalize (digest header_ex) 0 no_faults (dir st) = (Ok tt, d') /\
    open_in header_ex 0 no_faults d' = (Ok s, d'') /\
    row_of (lit "a") (completions s) = Some (row_ex (lit "a") true) /\
    row_of (lit "b") (completions s) = None /\ spent (lit "a") (failed_attempts s) = 1%nat.
Proof.
  destruct killed_run as (st & Hr & _ & Hh). exists st.
  destruct (finalize_keeps_failures (digest header_ex) st header_ex 0 Hr eq_refl) as
    (d' & s & d'' & Hf & Ho & Hi).
  { rewrite Hh. intros found h [= <- <-]. done. }
  exists d', s, d''. split_and!; [done..| | |].
  - rewrite (proj1 (Hi _)), Hh. vm_compute. done.
  - rewrite (proj1 (Hi _)), Hh. vm_compute. done.
  - rewrite (proj2 (Hi _)), Hh. vm_compute. done.
Defined.

Lemma check_complete_correct_witness :
  session_wf (appended (row_ex (lit "a") true) (new_session [] [] ∅)) /\
  (check_complete None (appended (row_ex (lit "a") true) (new_session [] [] ∅)) 1 Honored = Ok tt <->
     length (completions (appended (row_ex (lit "a") true) (new_session [] [] ∅))) = 1%nat /\
     ((forall c, c ∈ completions (appended (row_ex (lit "a") true) (new_session [] [] ∅)) ->
         failed c = false) \/ Honored = Honored /\ affirmative None = true)).
Proof.
  assert (session_wf (appended (row_ex (lit "a") true) (new_session [] [] ∅))) as Hwf.
  { apply appended_wf, new_session_wf; [constructor|]. intros c Hc. by apply elem_of_nil in Hc. }
  split; [exact Hwf|]. apply (check_complete_correct None _ 1 Honored Hwf).
Defined.
