(* ===== verification/Identity.v ===== *)
(** * What a checkpoint is keyed by

    The canonical JSON and the digest of a run ([crates/pipette-ops/src/eval_completions.rs],
    [write_canonical] to [run_request_digest]), and the labels left out of an identity
    ([crates/pipette-ops/src/custom_label.rs]). Two requests share a checkpoint when their
    digests agree, so the theorems say exactly when that is.

    The text of a string and of a number, SHA-256 and the plan types' serialization are
    parameters. *)

From Stdlib Require Import ZArith Lia String.
From stdpp Require Import countable prelude list sorting.
From S2P Require Import Prelude Str Json.

Local Open Scope Z_scope.

(** ** Canonical JSON *)

(** [serde_json::to_string] of a string, and [Display] of a number. *)
Class JsonText := {
  string_json : str -> str;
  number_json : number -> str;
}.

Definition key_leb {A} (a b : str * A) : bool := str_leb a.1 b.1.

Section Canonical.
Context `{JsonText}.

(** One [key:value] of an object. *)
Definition member_text (part : str * str) : str := string_json part.1 ++ 58 :: part.2.

(** [write_canonical]: the text it pushes. An object's members are pushed in the order of
    their keys. *)
Fixpoint write_canonical (value : Value) : str :=
  match value with
  | Null => lit "null"
  | Bool b => if b then lit "true" else lit "false"
  | Number n => number_json n
  | String s => string_json s
  | Array arr => 91 :: join [44] (map write_canonical arr) ++ [93]
  | Object fields =>
      123 :: join [44] (map member_text
        (sort_stable key_leb (map (fun kv => (kv.1, write_canonical kv.2)) fields))) ++ [125]
  end.

Definition canonical_json (value : Value) : str := write_canonical value.
End Canonical.

(** ** Labels *)

Definition CUSTOM_LABEL : str := lit "custom_label".

Definition is_vault_source (fields : list (str * Value)) : bool :=
  existsb (fun key =>
    match assoc key fields with
    | Some (String tag) => starts_with tag (lit "vault_")
    | _ => false
    end) [lit "source"; lit "type"].

(** [drop_custom_labels]: a label is dropped from its object, and then the values of the
    fields that are left are gone through. *)
Fixpoint drop_custom_labels (value : Value) : Value :=
  match value with
  | Object fields =>
      let vault := is_vault_source fields in
      Object ((fix go (fs : list (str * Value)) : list (str * Value) :=
        match fs with
        | [] => []
        | (k, v) :: fs =>
            if vault && str_eqb k CUSTOM_LABEL then go fs
            else (k, drop_custom_labels v) :: go fs
        end) fields)
  | Array items => Array (map drop_custom_labels items)
  | _ => value
  end.

(** ** Induction on values *)

Section ValueInd.
Context (P : Value -> Prop).
Context (HNull : P Null) (HBool : forall b, P (Bool b)) (HNumber : forall n, P (Number n))
  (HString : forall s, P (String s))
  (HArray : forall items, Forall P items -> P (Array items))
  (HObject : forall fields, Forall (fun kv => P kv.2) fields -> P (Object fields)).

Fixpoint Value_ind' (v : Value) : P v :=
  match v with
  | Null => HNull
  | Bool b => HBool b
  | Number n => HNumber n
  | String s => HString s
  | Array items =>
      HArray items ((fix go (l : list Value) : Forall P l :=
        match l with
        | [] => Forall_nil_2 _
        | x :: l => Forall_cons_2 _ _ _ (Value_ind' x) (go l)
        end) items)
  | Object fields =>
      HObject fields ((fix go (l : list (str * Value)) : Forall (fun kv => P kv.2) l :=
        match l with
        | [] => Forall_nil_2 _
        | kv :: l => Forall_cons_2 _ _ _ (Value_ind' kv.2) (go l)
        end) fields)
  end.
End ValueInd.

(** ** Values up to the order of keys *)

Inductive same_json : Value -> Value -> Prop :=
| same_null : same_json Null Null
| same_bool b : same_json (Bool b) (Bool b)
| same_number n : same_json (Number n) (Number n)
| same_string s : same_json (String s) (String s)
| same_array xs ys : Forall2 same_json xs ys -> same_json (Array xs) (Array ys)
| same_object fs gs gs' :
    gs ≡ₚ gs' -> Forall2 (fun a b => a.1 = b.1 /\ same_json a.2 b.2) fs gs' ->
    same_json (Object fs) (Object gs).

(** A [serde_json::Map] holds a key once. *)
Inductive wf_json : Value -> Prop :=
| wf_null : wf_json Null
| wf_bool b : wf_json (Bool b)
| wf_number n : wf_json (Number n)
| wf_string s : wf_json (String s)
| wf_array xs : Forall wf_json xs -> wf_json (Array xs)
| wf_object fs : NoDup (map fst fs) -> Forall (fun kv => wf_json kv.2) fs -> wf_json (Object fs).

(** ** Sorting by key *)

Lemma member_leb_total {A} (a b : str * A) : key_leb a b = true \/ key_leb b a = true.
Proof. apply str_leb_total. Qed.

Lemma member_leb_trans {A} (a b c : str * A) :
  key_leb a b = true -> key_leb b c = true -> key_leb a c = true.
Proof. apply str_leb_trans. Qed.

Lemma insert_stable_map {A B} (la : A -> A -> bool) (lb : B -> B -> bool) (f : A -> B) x l :
  (forall x y, lb (f x) (f y) = la x y) ->
  insert_stable lb (f x) (map f l) = map f (insert_stable la x l).
Proof.
  intros Hf. induction l as [|y l IH]; [done|]. cbn. rewrite Hf.
  destruct (la x y); [done|]. cbn. by rewrite IH.
Qed.

Lemma sort_stable_map {A B} (la : A -> A -> bool) (lb : B -> B -> bool) (f : A -> B) l :
  (forall x y, lb (f x) (f y) = la x y) -> sort_stable lb (map f l) = map f (sort_stable la l).
Proof.
  intros Hf. induction l as [|x l IH]; [done|]. cbn. by rewrite IH, (insert_stable_map la).
Qed.

Lemma nodup_keys_inj {A} (l : list (str * A)) a b :
  NoDup (map fst l) -> a ∈ l -> b ∈ l -> a.1 = b.1 -> a = b.
Proof.
  induction l as [|x l IH]; [set_solver|]. cbn [map]. intros [Hx Hn]%NoDup_cons Ha Hb E.
  assert (forall c, c ∈ l -> c.1 <> x.1) as Hne.
  { intros c Hc Ec. apply Hx. rewrite <- Ec. apply list_elem_of_fmap. by exists c. }
  apply elem_of_cons in Ha as [->|Ha], Hb as [->|Hb]; [done| | |by apply IH].
  - by destruct (Hne b Hb).
  - by destruct (Hne a Ha).
Qed.

(** Objects with the same members sort alike. *)
Lemma sort_keys_perm {A} (l l' : list (str * A)) :
  NoDup (map fst l) -> l ≡ₚ l' -> sort_stable key_leb l = sort_stable key_leb l'.
Proof.
  intros Hn Hp. apply (StronglySorted_unique_strong (le_of key_leb)).
  - intros a b Ha Hb Hab Hba. rewrite elem_of_sort_stable in Ha. rewrite elem_of_sort_stable, <- Hp in Hb.
    apply (nodup_keys_inj l); [done..|]. by apply str_leb_antisym.
  - apply sort_stable_sorted; [apply member_leb_total|apply member_leb_trans].
  - apply sort_stable_sorted; [apply member_leb_total|apply member_leb_trans].
  - by rewrite !sort_stable_perm.
Qed.

(** ** Texts that end where they end *)

Definition number_char (c : Z) : bool :=
  is_digit c || (c =? 43) || (c =? 45) || (c =? 46) || (c =? 69) || (c =? 101).

(** A JSON string is delimited by its quotes, and a number is made of its characters. *)
Class JsonTextLaws `{JsonText} := {
  string_json_quote s : exists t, string_json s = 34 :: t;
  string_json_delim a b x y : string_json a ++ x = string_json b ++ y -> a = b /\ x = y;
  number_json_cons n : exists c t, number_json n = c :: t;
  number_json_chars n : Forall (fun c => number_char c = true) (number_json n);
  number_json_inj a b : number_json a = number_json b -> a = b;
}.

(** What can follow a value inside an array or an object, or at the end. *)
Definition closing (c : Z) : Prop := c = 44 \/ c = 93 \/ c = 125.
Definition ends (x : str) : Prop := forall c t, x = c :: t -> closing c.

Lemma ends_nil : ends [].
Proof. by intros c t. Qed.

Lemma ends_cons c x : closing c -> ends (c :: x).
Proof. by intros Hc c' t [= <- <-]. Qed.

#[local] Hint Resolve ends_nil ends_cons : core.

(** Two runs of one kind of character, each followed by another kind, agree. *)
Lemma span_inj (P : Z -> bool) a b x y :
  Forall (fun c => P c = true) a -> Forall (fun c => P c = true) b ->
  (forall c t, x = c :: t -> P c = false) -> (forall c t, y = c :: t -> P c = false) ->
  a ++ x = b ++ y -> a = b /\ x = y.
Proof.
  intros Ha Hb Hx Hy. revert b Hb. induction Ha as [|c a Hc Ha IH]; intros b Hb E.
  - destruct Hb as [|d b Hd Hb]; [done|]. cbn in E. apply Hx in E. congruence.
  - destruct Hb as [|d b Hd Hb]; cbn in E.
    + symmetry in E. apply Hy in E. congruence.
    + injection E as -> E. destruct (IH b Hb E) as [-> ->]. done.
Qed.

Lemma join_cons sep x l : join sep (x :: l) = x ++ match l with [] => [] | _ => sep ++ join sep l end.
Proof. destruct l; cbn; [by rewrite app_nil_r|done]. Qed.

(** A list of delimited texts, separated by commas and closed, is read back. *)
Lemma join_inj {A} (text : A -> str) (R : A -> A -> Prop) (close : Z) l l' x y :
  close = 93 \/ close = 125 ->
  (forall a, exists c t, text a = c :: t /\ ~ closing c) ->
  Forall (fun a => forall b x y, b ∈ l' -> ends x -> ends y ->
    text a ++ x = text b ++ y -> R a b /\ x = y) l ->
  join [44] (map text l) ++ close :: x = join [44] (map text l') ++ close :: y ->
  Forall2 R l l' /\ x = y.
Proof.
  intros Hclose Hhead Hl. assert (closing close) as Hcl by (unfold closing; lia).
  assert (forall (l : list A) z, ends (match map text l with [] => [] | _ => [44] ++ join [44] (map text l) end
    ++ close :: z)) as Hends by (intros [|? ?] z; cbn; apply ends_cons; unfold closing; lia).
  revert l' Hl. induction l as [|a l IH]; intros [|b l'] Hl; cbn [map].
  - cbn. by intros [= ->].
  - rewrite join_cons. destruct (Hhead b) as (c & t & -> & Hc). cbn. intros [= <- _]. done.
  - rewrite join_cons. destruct (Hhead a) as (c & t & -> & Hc). cbn. intros [= -> _]. done.
  - rewrite !join_cons, <- !app_assoc. intros E.
    apply Forall_cons in Hl as [Ha Hl]. destruct (Ha b _ _ ltac:(left) (Hends _ _) (Hends _ _) E) as [HR E'].
    assert (Forall2 R l l' /\ x = y) as [H2 Hxy].
    { apply IH; [eapply Forall_impl; [exact Hl|]; intros; naive_solver set_solver|].
      destruct l, l'; cbn [map app] in E' |- *; try by injection E' as E'; rewrite ?E'.
      - injection E' as -> _. lia.
      - injection E' as <- _. lia. }
    split; [by constructor|done].
Qed.

Section CanonicalText.
Context `{JsonTextLaws}.

(** How the text of a value starts. *)
Definition starts (v : Value) (c : Z) : Prop :=
  match v with
  | Null => c = 110
  | Bool true => c = 116
  | Bool false => c = 102
  | Number _ => number_char c = true
  | String _ => c = 34
  | Array _ => c = 91
  | Object _ => c = 123
  end.

Lemma write_starts v : exists c t, write_canonical v = c :: t /\ starts v c.
Proof.
  destruct v as [|[]|n|s| |]; cbn; try (by eexists _, _).
  - destruct (number_json_cons n) as (c & t & E). pose proof (number_json_chars n) as Hc.
    rewrite E in Hc |- *. apply Forall_cons in Hc as [Hc _]. eauto.
  - destruct (string_json_quote s) as [t ->]. eauto.
Qed.

Lemma number_char_not_closing c : number_char c = true -> ~ closing c.
Proof.
  intros Hc [->|[->| ->]]; done.
Qed.

Lemma write_not_closing v : exists c t, write_canonical v = c :: t /\ ~ closing c.
Proof.
  destruct (write_starts v) as (c & t & E & Hs). exists c, t. split; [done|].
  destruct v as [|[]|n|s| |]; cbn in Hs; subst; try (by intros [|[|]]).
  by apply number_char_not_closing.
Qed.

(** The members of an object in the order they are written. *)
Definition sorted_fields (fields : list (str * Value)) : list (str * Value) :=
  sort_stable key_leb fields.

Definition field_text (kv : str * Value) : str := member_text (kv.1, write_canonical kv.2).

Lemma write_object fields :
  write_canonical (Object fields) =
  123 :: join [44] (map field_text (sorted_fields fields)) ++ [125].
Proof.
  cbn [write_canonical]. rewrite (sort_stable_map key_leb) by done. by rewrite map_map.
Qed.

(** Values that start alike are of one kind. *)
Lemma starts_inj v w c :
  starts v c -> starts w c ->
  match v, w with
  | Null, Null | Number _, Number _ | String _, String _ | Array _, Array _
  | Object _, Object _ => True
  | Bool a, Bool b => a = b
  | _, _ => False
  end.
Proof. intros Hv Hw. destruct v as [|[]| | | |], w as [|[]| | | |]; cbn in *; by subst. Qed.

(** The text of a value says where it ends, and which value it is up to key order. *)
Lemma write_inj v : forall w x y,
  ends x -> ends y -> write_canonical v ++ x = write_canonical w ++ y -> same_json v w /\ x = y.
Proof.
  assert (forall x, ends x -> forall c t, x = c :: t -> number_char c = false) as Hnum.
  { intros x Hx c t E. destruct (number_char c) eqn:Ec; [|done].
    by destruct (number_char_not_closing c Ec (Hx c t E)). }
  induction v as [| | | |items IH|fields IH] using Value_ind'; intros w x y Hx Hy E;
    destruct (write_starts w) as (cw & tw & Ew & Hw);
    match type of E with write_canonical ?v ++ _ = _ =>
      destruct (write_starts v) as (cv & tv & Ev & Hv) end;
    assert (cv = cw) as -> by (rewrite Ev, Ew in E; by injection E);
    pose proof (starts_inj _ _ _ Hv Hw) as Hk; destruct w as [|b'|n'|s'|items'|fields'];
    try done; clear Ev Ew Hv Hw.
  - apply app_inv_head in E as ->. by split; constructor.
  - subst b'. apply app_inv_head in E as ->. by split; constructor.
  - apply (span_inj number_char) in E as [->%number_json_inj ->]; eauto using number_json_chars.
    by split; constructor.
  - apply string_json_delim in E as [-> ->]. by split; constructor.
  - cbn in E. injection E as E. rewrite <- !app_assoc in E. cbn in E.
    apply (join_inj write_canonical same_json) in E as [HR ->]; [by split; constructor|by left| |].
    + apply write_not_closing.
    + eapply Forall_impl; [exact IH|]. cbn. eauto.
  - rewrite !write_object in E. injection E as E. rewrite <- !app_assoc in E. cbn in E.
    apply (join_inj field_text (fun a b => a.1 = b.1 /\ same_json a.2 b.2)) in E as [HR ->];
      [|by right|..].
    + split; [|done].
      assert (sorted_fields fields ≡ₚ fields) as Hp by apply sort_stable_perm.
      assert (exists gs, fields' ≡ₚ gs /\
        Forall2 (fun a b => a.1 = b.1 /\ same_json a.2 b.2) fields gs) as (gs & Hg & H2).
      { edestruct Permutation_Forall2 as (gs & Hgs & H2); [exact Hp|exact HR|].
        exists gs. split; [|done]. rewrite <- Hgs. symmetry. apply sort_stable_perm. }
      by apply same_object with gs.
    + intros [k v]. destruct (string_json_quote k) as [t Ht].
      exists 34, (t ++ 58 :: write_canonical v). unfold field_text, member_text. cbn.
      rewrite Ht. split; [done|]. by intros [|[|]].
    + rewrite Forall_forall in IH |- *.
      intros [k v] Hin%elem_of_sort_stable [k' v'] x' y' _ Hx' Hy'. pose proof (IH _ Hin) as Hv. unfold field_text, member_text. cbn in *.
      rewrite <- !app_assoc. intros [-> E']%string_json_delim. cbn in E'. injection E' as E'.
      destruct (Hv v' x' y' Hx' Hy' E') as [? ->]. done.
Qed.

(** Values that differ in the order of keys have one text. *)
Lemma write_same v : forall w, wf_json v -> same_json v w -> write_canonical v = write_canonical w.
Proof.
  induction v as [| | | |items IH|fields IH] using Value_ind'; intros w Hwf Hs;
    inversion Hs as [| | | |? ? H2|? ? gs' Hp H2]; subst; try done.
  - cbn. do 3 f_equal. inversion Hwf as [| | | |? Hwfs|]; subst. clear Hs Hwf.
    induction H2 as [|a b l l' Hab H2 IH2]; [done|].
    apply Forall_cons in IH as [Ha IH], Hwfs as [Hwa Hwfs]. cbn.
    by rewrite (Ha b Hwa Hab), IH2.
  - cbn [write_canonical]. do 4 f_equal. inversion Hwf as [| | | | |? Hn Hwfs]; subst.
    rewrite (sort_keys_perm _ (map (fun kv => (kv.1, write_canonical kv.2)) gs)); [done| |].
    + by rewrite map_map.
    + rewrite Hp. clear Hs Hwf Hp Hn.
      enough (map (fun kv => (kv.1, write_canonical kv.2)) fields =
        map (fun kv => (kv.1, write_canonical kv.2)) gs') as -> by done.
      induction H2 as [|a b l l' [Hk Hab] H2 IH2]; [done|].
      apply Forall_cons in IH as [Ha IH], Hwfs as [Hwa Hwfs]. cbn.
      by rewrite Hk, (Ha b.2 Hwa Hab), IH2.
Qed.

(** C31: The canonical text is a normal form: two JSON values have one canonical text exactly
    when they are the same value up to the order of their objects' keys. *)
Theorem canonical_json_correct v w :
  wf_json v -> canonical_json v = canonical_json w <-> same_json v w.
Proof.
  intros Hv. split; [|by apply write_same]. unfold canonical_json. intros E.
  apply (write_inj v w [] []); [done..|]. by rewrite !app_nil_r.
Qed.
End CanonicalText.

(** ** Labels, up to which an identity is taken *)

Definition kept_fields (fields : list (str * Value)) : list (str * Value) :=
  if is_vault_source fields
  then List.filter (fun kv => negb (str_eqb kv.1 CUSTOM_LABEL)) fields else fields.

Lemma drop_object fields :
  drop_custom_labels (Object fields) =
  Object (map (fun kv => (kv.1, drop_custom_labels kv.2)) (kept_fields fields)).
Proof.
  cbn [drop_custom_labels]. f_equal. unfold kept_fields.
  generalize (is_vault_source fields) as vault. intros vault.
  induction fields as [|[k v] fields IH]; [by destruct vault|].
  destruct vault; cbn [andb List.filter fst] in *; [|cbn [map fst snd]; by f_equal].
  destruct (str_eqb k CUSTOM_LABEL); cbn [negb map fst snd]; [exact IH|by f_equal].
Qed.

(** Equal but for the labels of vault sources. *)
Inductive same_but_labels : Value -> Value -> Prop :=
| sbl_leaf v : match v with Array _ | Object _ => False | _ => True end -> same_but_labels v v
| sbl_array xs ys : Forall2 same_but_labels xs ys -> same_but_labels (Array xs) (Array ys)
| sbl_object fs gs :
    Forall2 (fun a b => a.1 = b.1 /\ same_but_labels a.2 b.2) (kept_fields fs) (kept_fields gs) ->
    same_but_labels (Object fs) (Object gs).

(** No vault source has a label. *)
Inductive unlabelled_json : Value -> Prop :=
| ul_leaf v : match v with Array _ | Object _ => False | _ => True end -> unlabelled_json v
| ul_array xs : Forall unlabelled_json xs -> unlabelled_json (Array xs)
| ul_object fs :
    (is_vault_source fs = true -> CUSTOM_LABEL ∉ map fst fs) ->
    Forall (fun kv => unlabelled_json kv.2) fs -> unlabelled_json (Object fs).

Lemma assoc_map {A B} (f : A -> B) k l :
  assoc k (map (fun kv => (kv.1, f kv.2)) l) = f <$> assoc k l.
Proof.
  induction l as [|[k' v] l IH]; [done|]. cbn [map assoc fst snd].
  destruct (str_eqb k k'); [done|exact IH].
Qed.

Lemma assoc_kept k fields : k <> CUSTOM_LABEL -> assoc k (kept_fields fields) = assoc k fields.
Proof.
  intros Hk. unfold kept_fields. destruct (is_vault_source fields); [|done].
  induction fields as [|[k' v] l IH]; [done|]. cbn [List.filter fst assoc].
  destruct (str_eqb k' CUSTOM_LABEL) eqn:E; cbn [negb assoc].
  - apply str_eqb_eq in E as ->. by rewrite str_eqb_ne.
  - by rewrite IH.
Qed.

Lemma vault_drop fields :
  is_vault_source (map (fun kv => (kv.1, drop_custom_labels kv.2)) (kept_fields fields)) =
  is_vault_source fields.
Proof.
  unfold is_vault_source at 1 2. cbn [existsb]. rewrite !assoc_map, !assoc_kept by done.
  by destruct (assoc (lit "source") fields) as [[]|], (assoc (lit "type") fields) as [[]|].
Qed.

Lemma elem_of_kept kv fields : kv ∈ kept_fields fields -> kv ∈ fields.
Proof.
  unfold kept_fields. destruct (is_vault_source fields); [|done].
  rewrite !list_elem_of_In, filter_In. naive_solver.
Qed.

Lemma drop_unlabelled v : unlabelled_json (drop_custom_labels v).
Proof.
  induction v as [| | | |items IH|fields IH] using Value_ind'; try by constructor.
  - cbn. by apply ul_array, Forall_map.
  - rewrite drop_object. apply ul_object.
    + rewrite vault_drop, map_map. unfold kept_fields. intros ->.
      intros (kv & E & Hkv)%list_elem_of_fmap.
      apply list_elem_of_In, filter_In in Hkv as [_ Hkv]. cbn in E.
      by rewrite <- E, str_eqb_refl in Hkv.
    + apply Forall_map. rewrite Forall_forall in IH |- *. intros kv Hkv%elem_of_kept. by apply IH.
Qed.

Lemma drop_inj v : forall w, drop_custom_labels v = drop_custom_labels w <-> same_but_labels v w.
Proof.
  induction v as [| | | |items IH|fields IH] using Value_ind'; intros w.
  1-4: split; [|by inversion 1]; destruct w as [| | | | |fs]; rewrite ?drop_object; try done;
    intros E; simplify_eq/=; by apply sbl_leaf.
  - split.
    + destruct w as [| | | |items'|fs]; rewrite ?drop_object; try done. intros [= E]. apply sbl_array.
      revert items' E; induction IH as [|v l Hv IH IH']; intros [|w items']; try done; cbn.
      intros [= E1 E2]. constructor; [by apply Hv|by apply IH'].
    + inversion 1 as [|? ys H2|]; subst; [done|]. cbn. f_equal. clear H.
      induction H2 as [|a b l l' Hab H2 IH2]; [done|]. apply Forall_cons in IH as [Ha IH]. cbn.
      by rewrite (proj2 (Ha b) Hab), IH2.
  - assert (Forall (fun kv => forall w, drop_custom_labels kv.2 = drop_custom_labels w <->
      same_but_labels kv.2 w) (kept_fields fields)) as IHk.
    { rewrite Forall_forall in IH |- *. intros kv Hkv%elem_of_kept. by apply IH. }
    clear IH. split.
    + destruct w as [| | | | |gs]; try done. rewrite !drop_object. intros [= E]. apply sbl_object.
      revert E. generalize (kept_fields gs) as l'. induction IHk as [|a l Ha IHk IH'];
        intros [|b l']; try done; cbn. intros [= E1 E2 E3].
      constructor; [split; [done|by apply Ha]|by apply IH'].
    + inversion 1 as [|?|? gs H2]; subst; [done|]. rewrite !drop_object. f_equal. clear H.
      induction H2 as [|a b l l' [Hk Hab] H2 IH2]; [done|].
      apply Forall_cons in IHk as [Ha IHk]. cbn.
      by rewrite Hk, (proj2 (Ha b.2) Hab), IH2.
Qed.

(** An identity is taken over a descriptor without the labels of its vault sources: none
    is left, at any depth, and two descriptors give one identity exactly when they differ in
    such labels only. *)
Theorem drop_custom_labels_correct v w :
  unlabelled_json (drop_custom_labels v) /\
  (drop_custom_labels v = drop_custom_labels w <-> same_but_labels v w).
Proof. split; [apply drop_unlabelled|apply drop_inj]. Qed.

Lemma drop_wf v : wf_json v -> wf_json (drop_custom_labels v).
Proof.
  induction v as [| | | |items IH|fields IH] using Value_ind'; intros Hwf; try done.
  - inversion Hwf as [| | | |? Hw|]; subst. cbn. constructor. apply Forall_map.
    rewrite Forall_forall in *. auto.
  - inversion Hwf as [| | | | |? Hn Hw]; subst. rewrite drop_object. constructor.
    + rewrite map_map. unfold kept_fields. destruct (is_vault_source fields); [|done].
      clear IH Hw Hwf. induction fields as [|kv l IH]; [done|]. cbn [map List.filter] in *.
      apply NoDup_cons in Hn as [Hkv Hn]. destruct (negb _); [|by apply IH]. cbn [map].
      apply NoDup_cons. split; [|by apply IH]. intros (kv' & E & Hkv')%list_elem_of_fmap.
      cbn [fst] in E. apply Hkv. rewrite E. apply list_elem_of_fmap. exists kv'. split; [done|].
      apply list_elem_of_In, filter_In in Hkv'. apply list_elem_of_In, Hkv'.
    + apply Forall_map. rewrite Forall_forall in *. intros kv Hkv%elem_of_kept. cbn. auto.
Qed.

(** ** Requests

    Of the plan types, what the identity reads: the fields it clears or keeps by name, and
    the rest of a value as its JSON. *)

Inductive RuntimeKind :=
| DockerVllm | UvVllm | DockerSglang | UvSglang | LlamacppCliStockTools | LlamacppApkPipette
| LlamacppIosPipette | MlxMacosPipette | MlxIosPipette | OnnxGenaiIosPipette | UvOpenvino
| UvOnnxGenai | Ovms | TrtEdgellm | AppleFoundation | AppleCoreAiMacosPipette.

Record Runtime := { kind : RuntimeKind; runtime_json : Value }.

Definition completion_format (runtime : Runtime) : option str :=
  match kind runtime with
  | DockerVllm | UvVllm => Some (lit "reasoning_then_answer")
  | DockerSglang | UvSglang | LlamacppCliStockTools | LlamacppApkPipette | LlamacppIosPipette
  | MlxMacosPipette | MlxIosPipette | OnnxGenaiIosPipette | UvOpenvino | UvOnnxGenai | Ovms
  | TrtEdgellm | AppleFoundation | AppleCoreAiMacosPipette => None
  end.

Record RuntimeFlagRef (Env Rest : Type) := {
  parallel : option Value;
  ctx_size : option Value;
  max_model_len : option Value;
  prefix_caching : option Value;
  envs : list Env;
  other_flags : Rest;
}.

Arguments parallel {Env Rest} _.
Arguments ctx_size {Env Rest} _.
Arguments max_model_len {Env Rest} _.
Arguments prefix_caching {Env Rest} _.
Arguments envs {Env Rest} _.
Arguments other_flags {Env Rest} _.

Record BenchmarkFlagRef := {
  runtime_type : option Value;
  model_type : option Value;
  benchmark_type : option Value;
  http_timeout_seconds : option Z;
  bench_timeout_seconds : option Z;
  doomloop_obsolete : option Value;
  readiness : option Value;
}.

(** The pin of a corpus: its digest names every sample. *)
Record CorpusPin := { corpus_digest : str; pin_url : option str; pin_bytes : option Z }.

Record VlmEvalBenchmark := {
  vlm_dataset : option CorpusPin;
  vlm_recipe : option Value;
  vlm_samples : option (list Value);
  vlm_rest : Value;
}.

Record AsrEvalBenchmark := {
  asr_dataset : option CorpusPin;
  asr_recipe : option Value;
  asr_rest : Value;
}.

Inductive BenchmarkDefinition :=
| VlmEval (b : VlmEvalBenchmark)
| AsrEval (b : AsrEvalBenchmark)
| OtherBenchmark (json : Value).

Record DeclaredBound (A B : Type) := { declared : A; bound : B }.

Arguments declared {A B} _.
Arguments bound {A B} _.

Record RunRequest (RuntimeFlags BenchmarkFlags Model Bound : Type) := {
  runtime : DeclaredBound Runtime Bound;
  model : DeclaredBound Model Bound;
  runtime_flags : option RuntimeFlags;
  model_flags : option Value;
  benchmark_flags : option BenchmarkFlags;
  benchmark : BenchmarkDefinition;
}.

Arguments runtime {RuntimeFlags BenchmarkFlags Model Bound} _.
Arguments model {RuntimeFlags BenchmarkFlags Model Bound} _.
Arguments runtime_flags {RuntimeFlags BenchmarkFlags Model Bound} _.
Arguments model_flags {RuntimeFlags BenchmarkFlags Model Bound} _.
Arguments benchmark_flags {RuntimeFlags BenchmarkFlags Model Bound} _.
Arguments benchmark {RuntimeFlags BenchmarkFlags Model Bound} _.

Definition ASR_EVAL_RECIPE_VERSION : Z := 3.

(** The plan-types crate: conversions and serialization. *)
Class PlanTypes := {
  Env : Type;
  Rest : Type;
  RuntimeFlags : Type;
  BenchmarkFlags : Type;
  Model : Type;
  Bound : Type;
  flag_ref : RuntimeFlags -> RuntimeFlagRef Env Rest;
  flags_try_from : RuntimeFlagRef Env Rest -> result RuntimeFlags str;
  flag_ref_json : RuntimeFlagRef Env Rest -> Value;
  for_record : Env -> Env;
  benchmark_flag_ref : BenchmarkFlags -> BenchmarkFlagRef;
  benchmark_flag_json : BenchmarkFlagRef -> Value;
  model_json : Model -> Value;
  without_auth_token : Model -> Model;
  definition_json : BenchmarkDefinition -> Value;
  resolved_runtime_flags :
    RunRequest RuntimeFlags BenchmarkFlags Model Bound -> result RuntimeFlags str;
  request_json : RunRequest RuntimeFlags BenchmarkFlags Model Bound -> Value;
  (** [SamplesDigest] of a definition's samples, in hex. *)
  samples_sha256 : list Value -> result str str;
  sha256 : list Z -> list Z;
}.

Section Requests.
Context `{JsonText, PlanTypes}.

Abbreviation Request := (RunRequest RuntimeFlags BenchmarkFlags Model Bound).

Definition hex_digit (n : Z) : Z := if n <? 10 then 48 + n else 87 + n.

(** [{b:02x}] of each byte. *)
Definition hex (bytes : list Z) : str :=
  bytes ≫= fun b => [hex_digit (b / 16); hex_digit (b mod 16)].

Definition digest_value (value : Value) : str := hex (sha256 (as_bytes (canonical_json value))).

Definition unlabelled (json : Value) : Value := drop_custom_labels json.

Definition resume_relevant_flags (flags : option RuntimeFlags)
    : option (RuntimeFlagRef Env Rest) :=
  (fun flags =>
     let r := flag_ref flags in
     {| parallel := None; ctx_size := None; max_model_len := max_model_len r;
        prefix_caching := prefix_caching r; envs := envs r; other_flags := other_flags r |})
  <$> flags.

Definition without_throughput_knobs (flags : RuntimeFlags) : result RuntimeFlags str :=
  let r := flag_ref flags in
  flags_try_from
    {| parallel := None; ctx_size := None; max_model_len := None; prefix_caching := None;
       envs := envs r; other_flags := other_flags r |}.

Definition resume_relevant_benchmark_flags (flags : option BenchmarkFlags)
    : option BenchmarkFlagRef :=
  flags ← flags;
  let r := benchmark_flag_ref flags in
  let r :=
    {| runtime_type := runtime_type r; model_type := model_type r;
       benchmark_type := benchmark_type r; http_timeout_seconds := None;
       bench_timeout_seconds := None; doomloop_obsolete := doomloop_obsolete r;
       readiness := readiness r |} in
  match readiness r with
  | Some _ => Some r
  | None => None
  end.

(** [Serialize] of an option, and of [ResumeIdentity]. *)
Definition option_json {A} (json : A -> Value) (o : option A) : Value :=
  match o with
  | Some a => json a
  | None => Null
  end.

Definition ResumeIdentity_json (runtime model : Value)
    (runtime_flags : option (RuntimeFlagRef Env Rest)) (model_flags : option Value)
    (benchmark_flags : option BenchmarkFlagRef) (benchmark : BenchmarkDefinition)
    (completion_format : option str) (client_recipe : option Z) : Value :=
  Object ([(lit "runtime", runtime); (lit "model", model);
           (lit "runtime_flags", option_json flag_ref_json runtime_flags);
           (lit "model_flags", option_json (fun v => v) model_flags);
           (lit "benchmark_flags", option_json benchmark_flag_json benchmark_flags);
           (lit "benchmark", definition_json benchmark)]
          ++ match completion_format with
             | Some f => [(lit "completion_format", String f)]
             | None => []
             end
          ++ match client_recipe with
             | Some n => [(lit "client_recipe", Number (PosInt n))]
             | None => []
             end).

(** [value.get_mut(benchmark)] as an object, with a field inserted. *)
Definition insert_in_benchmark (k : str) (x : Value) (value : Value) : Value :=
  match value with
  | Object fields =>
      match assoc (lit "benchmark") fields with
      | Some (Object b) =>
          Object (assoc_insert (lit "benchmark") (Object (assoc_insert k x b)) fields)
      | _ => value
      end
  | _ => value
  end.

Definition text_identity (req : Request) : Value :=
  ResumeIdentity_json (unlabelled (runtime_json (declared (runtime req))))
    (unlabelled (model_json (declared (model req))))
    (resume_relevant_flags (runtime_flags req)) (model_flags req)
    (resume_relevant_benchmark_flags (benchmark_flags req)) (benchmark req)
    (completion_format (declared (runtime req))) None.

Definition asr_eval_identity (req : Request) (asr : AsrEvalBenchmark) : result Value str :=
  match resolved_runtime_flags req with
  | Err e => Err e
  | Ok resolved =>
      let r := flag_ref resolved in
      let flags :=
        {| parallel := None; ctx_size := None; max_model_len := None; prefix_caching := None;
           envs := map for_record (envs r); other_flags := other_flags r |} in
      let value :=
        ResumeIdentity_json (unlabelled (runtime_json (declared (runtime req))))
          (unlabelled (model_json (without_auth_token (declared (model req)))))
          (Some flags) (model_flags req)
          (resume_relevant_benchmark_flags (benchmark_flags req))
          (AsrEval {| asr_dataset := None; asr_recipe := None; asr_rest := asr_rest asr |})
          (completion_format (declared (runtime req))) (Some ASR_EVAL_RECIPE_VERSION) in
      Ok match asr_dataset asr with
         | Some dataset =>
             insert_in_benchmark (lit "corpus_digest") (String (corpus_digest dataset)) value
         | None => value
         end
  end.

Definition vlm_eval_digest_view (req : Request) (vlm : VlmEvalBenchmark) : result Value str :=
  match resolved_runtime_flags req with
  | Err e => Err e
  | Ok resolved =>
      match without_throughput_knobs resolved with
      | Err e => Err e
      | Ok flags =>
          let stripped :=
            {| runtime := runtime req;
               model := {| declared := without_auth_token (declared (model req));
                           bound := bound (model req) |};
               runtime_flags := Some flags; model_flags := model_flags req;
               benchmark_flags := benchmark_flags req;
               benchmark :=
                 VlmEval {| vlm_dataset := None; vlm_recipe := None; vlm_samples := None;
                            vlm_rest := vlm_rest vlm |} |} in
          let view := request_json stripped in
          match view with
          | Object fields =>
              match assoc (lit "benchmark") fields with
              | Some (Object _) =>
                  match vlm_dataset vlm with
                  | Some dataset =>
                      Ok (insert_in_benchmark (lit "corpus_digest")
                            (String (corpus_digest dataset)) view)
                  | None =>
                      match samples_sha256 (default [] (vlm_samples vlm)) with
                      | Err e => Err e
                      | Ok hex => Ok (insert_in_benchmark (lit "samples_sha256") (String hex) view)
                      end
                  end
              | _ => Ok view
              end
          | _ => Ok view
          end
      end
  end.

Definition run_request_identity (req : Request) : result Value str :=
  match benchmark req with
  | VlmEval vlm => vlm_eval_digest_view req vlm
  | AsrEval asr => asr_eval_identity req asr
  | OtherBenchmark _ => Ok (text_identity req)
  end.

Definition run_request_digest (req : Request) : result str str :=
  match run_request_identity req with
  | Ok value => Ok (digest_value value)
  | Err e => Err e
  end.

(** *** Runs that may share a checkpoint *)

(** Flags that differ in the throughput knobs of a text evaluation. *)
Definition retuned_flags (a b : RuntimeFlagRef Env Rest) : Prop :=
  exists p c, b = {| parallel := p; ctx_size := c; max_model_len := max_model_len a;
                     prefix_caching := prefix_caching a; envs := envs a;
                     other_flags := other_flags a |}.

(** Flags that differ in every knob of an audio evaluation and in unrecorded values of the
    environment. *)
Definition retuned_asr_flags (a b : RuntimeFlagRef Env Rest) : Prop :=
  exists p c l x e, map for_record e = map for_record (envs a) /\
  b = {| parallel := p; ctx_size := c; max_model_len := l; prefix_caching := x; envs := e;
         other_flags := other_flags a |}.

(** Flags that differ in timeouts, or that hold nothing but timeouts. *)
Definition retimed (a b : option BenchmarkFlags) : Prop :=
  match a, b with
  | None, None => True
  | Some a, None | None, Some a => readiness (benchmark_flag_ref a) = None
  | Some a, Some b =>
      exists h t, let r := benchmark_flag_ref a in
      benchmark_flag_ref b =
        {| runtime_type := runtime_type r; model_type := model_type r;
           benchmark_type := benchmark_type r; http_timeout_seconds := h;
           bench_timeout_seconds := t; doomloop_obsolete := doomloop_obsolete r;
           readiness := readiness r |}
  end.

Definition option_rel {A} (R : A -> A -> Prop) (a b : option A) : Prop :=
  match a, b with
  | Some a, Some b => R a b
  | None, None => True
  | _, _ => False
  end.

Lemma retimed_flags a b :
  retimed a b -> resume_relevant_benchmark_flags a = resume_relevant_benchmark_flags b.
Proof.
  unfold retimed, resume_relevant_benchmark_flags. destruct a as [a|], b as [b|]; cbn; try done.
  - by intros (h & t & ->).
  - by intros ->.
  - by intros ->.
Qed.

Lemma retuned_text_flags a b :
  option_rel (fun a b => retuned_flags (flag_ref a) (flag_ref b)) a b ->
  resume_relevant_flags a = resume_relevant_flags b.
Proof.
  unfold option_rel, resume_relevant_flags. destruct a as [a|], b as [b|]; cbn; try done.
  by intros (p & c & ->).
Qed.

(** The two requests run one cell: the same runtime and model but for labels, the same model
    flags, timeouts aside the same benchmark flags; host paths may differ. *)
Definition same_cell (r1 r2 : Request) : Prop :=
  kind (declared (runtime r1)) = kind (declared (runtime r2)) /\
  same_but_labels (runtime_json (declared (runtime r1))) (runtime_json (declared (runtime r2))) /\
  model_flags r1 = model_flags r2 /\ retimed (benchmark_flags r1) (benchmark_flags r2).

(** A retuned run resumes. Changing what decides only how fast an evaluation goes, or how
    long it waits - a text evaluation's [parallel] and [ctx_size], an audio evaluation's four
    knobs, its unrecorded environment, its corpus's address and its model's token, the
    timeouts of both, labels and host paths - leaves the digest as it is. *)
Theorem retuned_run_resumes r1 r2 :
  same_cell r1 r2 ->
  match benchmark r1, benchmark r2 with
  | OtherBenchmark j1, OtherBenchmark j2 =>
      j1 = j2 /\
      same_but_labels (model_json (declared (model r1))) (model_json (declared (model r2))) /\
      option_rel (fun a b => retuned_flags (flag_ref a) (flag_ref b))
        (runtime_flags r1) (runtime_flags r2)
  | AsrEval a1, AsrEval a2 =>
      asr_rest a1 = asr_rest a2 /\
      corpus_digest <$> asr_dataset a1 = corpus_digest <$> asr_dataset a2 /\
      same_but_labels (model_json (without_auth_token (declared (model r1))))
        (model_json (without_auth_token (declared (model r2)))) /\
      exists f1 f2, resolved_runtime_flags r1 = Ok f1 /\ resolved_runtime_flags r2 = Ok f2 /\
        retuned_asr_flags (flag_ref f1) (flag_ref f2)
  | _, _ => False
  end ->
  run_request_digest r1 = run_request_digest r2.
Proof.
  intros (Hk & Hr & Hm & Ht%retimed_flags) Hb. unfold run_request_digest, run_request_identity.
  assert (completion_format (declared (runtime r1)) = completion_format (declared (runtime r2))) as Hf
    by (unfold completion_format; by rewrite Hk).
  apply drop_inj in Hr.
  destruct (benchmark r1) as [|a1|j1] eqn:E1, (benchmark r2) as [|a2|j2] eqn:E2; try done.
  - destruct Hb as (Ha & Hd & Hmod%drop_inj & f1 & f2 & H1 & H2 & (p & c & l & x & e & He & Hfl)).
    unfold asr_eval_identity, unlabelled. rewrite H1, H2, Hfl, Hr, Hmod, Hm, Ht, Hf, Ha.
    cbn [envs other_flags]. rewrite He.
    destruct (asr_dataset a1), (asr_dataset a2); cbn in Hd; try done. by injection Hd as ->.
  - destruct Hb as (<- & Hmod%drop_inj & Hfl%retuned_text_flags).
    unfold text_identity, unlabelled. by rewrite Hr, Hmod, Hm, Ht, Hf, Hfl, E1, E2.
Qed.
End Requests.

(** ** The digest tells identities apart *)

Lemma hex_digit_inj a b : 0 <= a < 16 -> 0 <= b < 16 -> hex_digit a = hex_digit b -> a = b.
Proof. unfold hex_digit. intros. repeat case_match; bool_to_prop; lia. Qed.

Lemma hex_inj a b :
  Forall (fun x => 0 <= x < 256) a -> Forall (fun x => 0 <= x < 256) b -> hex a = hex b -> a = b.
Proof.
  intros Ha. revert b. induction Ha as [|x a Hx Ha IH]; intros b Hb E; destruct Hb as [|y b Hy Hb];
    cbn in E; try done. injection E as E1 E2 E3.
  apply hex_digit_inj in E1; [|split; [apply Z.div_pos|apply Z.div_lt_upper_bound]; lia..].
  apply hex_digit_inj in E2; [|apply Z.mod_pos_bound; lia..].
  rewrite (Z.div_mod x 16), (Z.div_mod y 16), E1, E2 by lia. f_equal. by apply IH.
Qed.

Lemma keys_perm_eq {A} (l l' : list (str * A)) :
  NoDup (map fst l) -> l ≡ₚ l' -> map fst l = map fst l' -> l = l'.
Proof.
  intros Hn Hp Hk. apply list_eq. intros i.
  assert ((map fst l) !! i = (map fst l') !! i) as Hi by by rewrite Hk.
  rewrite !list_lookup_fmap in Hi.
  destruct (l !! i) as [a|] eqn:Ea, (l' !! i) as [b|] eqn:Eb; try done.
  f_equal. apply (nodup_keys_inj l); [done|by eapply list_elem_of_lookup_2| |by injection Hi].
  rewrite Hp. by eapply list_elem_of_lookup_2.
Qed.

(** Objects written with the same keys in the same order. *)
Lemma same_object_fields fs gs :
  NoDup (map fst gs) -> map fst fs = map fst gs ->
  same_json (Object fs) (Object gs) <->
  Forall2 (fun a b => a.1 = b.1 /\ same_json a.2 b.2) fs gs.
Proof.
  intros Hn Hk. split; [|by apply same_object].
  inversion 1 as [| | | | |? ? gs' Hp H2]; subst.
  enough (gs = gs') as -> by done. apply keys_perm_eq; [done..|]. rewrite <- Hk.
  clear Hp Hk Hn H. by induction H2 as [|a b l l' [E _] _ IH]; cbn; [|rewrite E, IH].
Qed.

Lemma same_object_length fs gs : same_json (Object fs) (Object gs) -> length fs = length gs.
Proof. inversion 1 as [| | | | |? ? gs' Hp H2]; subst. rewrite Hp. by apply Forall2_length in H2. Qed.

(** SHA-256 answers bytes, and takes the two texts apart if they differ. *)
Definition no_collision `{JsonText, PlanTypes} (v w : Value) : Prop :=
  (forall x, Forall (fun b => 0 <= b < 256) (sha256 x)) /\
  (sha256 (as_bytes (canonical_json v)) = sha256 (as_bytes (canonical_json w)) ->
   canonical_json v = canonical_json w).

Section Identifies.
Context `{JsonTextLaws, PlanTypes}.

Lemma digest_value_inj v w :
  wf_json v -> no_collision v w -> digest_value v = digest_value w <-> same_json v w.
Proof.
  intros Hv [Hb Hc]. split.
  - intros E%hex_inj; [|apply Hb..]. apply (write_inj v w [] []); [apply ends_nil..|].
    rewrite !app_nil_r. by apply Hc.
  - intros Hs%write_same; [|done]. unfold digest_value, canonical_json. by rewrite Hs.
Qed.

(** A request whose parts serialize to JSON maps. *)
Definition wf_request (r : RunRequest RuntimeFlags BenchmarkFlags Model Bound) : Prop :=
  wf_json (runtime_json (declared (runtime r))) /\ wf_json (model_json (declared (model r))) /\
  wf_json (option_json flag_ref_json (resume_relevant_flags (runtime_flags r))) /\
  wf_json (option_json (fun v => v) (model_flags r)) /\
  wf_json (option_json benchmark_flag_json
             (resume_relevant_benchmark_flags (benchmark_flags r))) /\
  wf_json (definition_json (benchmark r)).

Lemma text_identity_wf r : wf_request r -> wf_json (text_identity r).
Proof.
  intros (W1 & W2 & W3 & W4 & W5 & W6). unfold text_identity, ResumeIdentity_json.
  apply wf_object.
  - destruct (completion_format _); vm_compute; repeat constructor; set_solver.
  - assert (forall v, wf_json v -> wf_json (unlabelled v)) by (intros; by apply drop_wf).
    destruct (completion_format _); repeat (apply Forall_cons; split);
      cbn [snd]; auto using wf_string.
Qed.

(** The digest of a text evaluation identifies the cell. Two requests share a checkpoint
    exactly when the parts that decide their answers agree up to key order: the unlabelled
    runtime and model, the flags without the throughput knobs and timeouts, the definition,
    and the format of the rows. *)
Theorem text_digest_correct r1 r2 j1 j2 :
  benchmark r1 = OtherBenchmark j1 -> benchmark r2 = OtherBenchmark j2 ->
  wf_request r1 -> wf_request r2 -> no_collision (text_identity r1) (text_identity r2) ->
  run_request_digest r1 = run_request_digest r2 <->
  (same_json (unlabelled (runtime_json (declared (runtime r1))))
     (unlabelled (runtime_json (declared (runtime r2)))) /\
   same_json (unlabelled (model_json (declared (model r1))))
     (unlabelled (model_json (declared (model r2)))) /\
   same_json (option_json flag_ref_json (resume_relevant_flags (runtime_flags r1)))
     (option_json flag_ref_json (resume_relevant_flags (runtime_flags r2))) /\
   same_json (option_json (fun v => v) (model_flags r1))
     (option_json (fun v => v) (model_flags r2)) /\
   same_json
     (option_json benchmark_flag_json (resume_relevant_benchmark_flags (benchmark_flags r1)))
     (option_json benchmark_flag_json (resume_relevant_benchmark_flags (benchmark_flags r2))) /\
   same_json (definition_json (benchmark r1)) (definition_json (benchmark r2)) /\
   completion_format (declared (runtime r1)) = completion_format (declared (runtime r2))).
Proof.
  intros E1 E2 W1%text_identity_wf W2%text_identity_wf Hc.
  unfold run_request_digest, run_request_identity. rewrite E1, E2.
  transitivity (same_json (text_identity r1) (text_identity r2)).
  { rewrite <- digest_value_inj by done. split; [by intros [= E]|by intros ->]. }
  inversion W2 as [| | | | |? Hn _ Eg]. clear Eg. unfold text_identity, ResumeIdentity_json in *.
  destruct (completion_format (declared (runtime r1))) as [c1|] eqn:F1,
    (completion_format (declared (runtime r2))) as [c2|] eqn:F2; cbn [app] in *.
  - rewrite same_object_fields by done. rewrite !Forall2_cons, E1, E2. cbn. split.
    + intros (? & ? & ? & ? & ? & ? & [_ Hs] & _). inversion Hs. subst. naive_solver.
    + intros (? & ? & ? & ? & ? & ? & [= ->]). split_and!; try done. constructor.
  - split; [|naive_solver]. by intros ?%same_object_length.
  - split; [|naive_solver]. by intros ?%same_object_length.
  - rewrite same_object_fields by done. rewrite !Forall2_cons, E1, E2. cbn. naive_solver constructor.
Qed.
End Identifies.

(** ** Concrete instances *)

#[export] Instance number_eq_dec : EqDecision number.
Proof. solve_decision. Defined.

#[export] Instance number_countable : Countable number.
Proof.
  apply (inj_countable' (fun n => match n with
    | PosInt z => inl (inl z) | NegInt z => inl (inr z) | Float s => inr s end)
    (fun x => match x with
    | inl (inl z) => PosInt z | inl (inr z) => NegInt z | inr s => Float s end)).
  by intros [].
Defined.

#[export] Instance countable_text : JsonText := {
  string_json s := 34 :: bits (encode s) ++ [34];
  number_json n := 49 :: bits (encode n);
}.

Lemma bits_inj p q : bits p = bits q -> p = q.
Proof. intros E. by rewrite <- (unbits_bits p), E, unbits_bits. Qed.

#[export] Instance countable_text_laws : JsonTextLaws.
Proof.
  split.
  - intros s. by eexists.
  - intros a b x y E. cbn in E. injection E as E. rewrite <- !app_assoc in E.
    apply (span_inj is_digit) in E as [E1 E2].
    + apply bits_inj, (inj encode) in E1 as ->. by injection E2 as ->.
    + eapply Forall_impl; [apply bits_chars|]. by intros c [->| ->].
    + eapply Forall_impl; [apply bits_chars|]. by intros c [->| ->].
    + by intros c t [= <- <-].
    + by intros c t [= <- <-].
  - intros n. by eexists _, _.
  - intros n. apply Forall_cons. split; [done|].
    eapply Forall_impl; [apply bits_chars|]. by intros c [->| ->].
  - intros a b [= E]. by apply bits_inj, (inj encode) in E.
Qed.

Definition demo_json (swap : bool) : Value :=
  let a := (lit "a", Array [Number (PosInt 1); Null]) in
  let b := (lit "b", Bool true) in
  Object (if swap then [b; a] else [a; b]).

Lemma canonical_json_correct_witness :
  wf_json (demo_json false) /\
  (canonical_json (demo_json false) = canonical_json (demo_json true) <->
   same_json (demo_json false) (demo_json true)) /\
  canonical_json (demo_json false) = canonical_json (demo_json true).
Proof.
  assert (wf_json (demo_json false)) as Hwf.
  { apply wf_object; [vm_compute; repeat constructor; set_solver|].
    repeat first [apply Forall_nil_2|apply Forall_cons_2|apply wf_array|constructor]. }
  split; [exact Hwf|]. split; [|vm_compute; reflexivity].
  apply (canonical_json_correct (demo_json false) (demo_json true) Hwf).
Defined.

Definition opt_value (o : option Value) : Value :=
  match o with
  | Some v => v
  | None => Null
  end.

#[export] Instance demo_plan_types : PlanTypes := {
  Env := unit;
  Rest := unit;
  RuntimeFlags := RuntimeFlagRef unit unit;
  BenchmarkFlags := BenchmarkFlagRef;
  Model := Value;
  Bound := unit;
  flag_ref r := r;
  flags_try_from r := Ok r;
  flag_ref_json r :=
    Array [opt_value (parallel r); opt_value (ctx_size r); opt_value (max_model_len r);
           opt_value (prefix_caching r)];
  for_record e := e;
  benchmark_flag_ref r := r;
  benchmark_flag_json r := opt_value (readiness r);
  model_json m := m;
  without_auth_token m := m;
  definition_json b :=
    match b with
    | VlmEval v => vlm_rest v
    | AsrEval a => asr_rest a
    | OtherBenchmark j => j
    end;
  resolved_runtime_flags r :=
    match runtime_flags r with Some f => Ok f | None => Err [] end;
  request_json r := Null;
  samples_sha256 l := Ok [];
  sha256 x := map (fun b => b mod 256) x;
}.

Definition vault_model (label : option str) : Value :=
  Object ((lit "source", String (lit "vault_url"))
    :: match label with Some l => [(CUSTOM_LABEL, String l)] | None => [] end).

Definition demo_request (slots : Z) (timeout : option Z) (label : option str)
    : RunRequest (@RuntimeFlags demo_plan_types) (@BenchmarkFlags demo_plan_types)
        (@Model demo_plan_types) (@Bound demo_plan_types) :=
  {| runtime := {| declared := {| kind := UvVllm; runtime_json := Null |}; bound := tt |};
     model := {| declared := vault_model label; bound := tt |};
     runtime_flags := Some
       {| parallel := Some (Number (PosInt slots)); ctx_size := None; max_model_len := None;
          prefix_caching := None; envs := []; other_flags := tt |};
     model_flags := None;
     benchmark_flags := Some
       {| runtime_type := None; model_type := None; benchmark_type := None;
          http_timeout_seconds := timeout; bench_timeout_seconds := None;
          doomloop_obsolete := None; readiness := None |};
     benchmark := OtherBenchmark (Bool true) |}.

Lemma retuned_run_resumes_witness :
  run_request_digest (demo_request 4 None None) =
  run_request_digest (demo_request 8 (Some 60) (Some (lit "mine"))).
Proof.
  apply (retuned_run_resumes (demo_request 4 None None)
    (demo_request 8 (Some 60) (Some (lit "mine")))).
  - split_and!; [reflexivity|by apply sbl_leaf|reflexivity|].
    exists (Some 60), None. reflexivity.
  - split_and!; [reflexivity| |exists (Some (Number (PosInt 8))), None; reflexivity].
    apply sbl_object. vm_compute. repeat constructor.
Defined.

Lemma text_digest_correct_witness :
  run_request_digest (demo_request 4 None None) =
  run_request_digest (demo_request 8 None (Some (lit "mine"))).
Proof.
  assert (forall slots label, wf_request (demo_request slots None label)) as Hwf.
  { intros slots label. unfold wf_request. cbn. split_and!; try by repeat constructor.
    destruct label; apply wf_object; try by repeat constructor.
    all: vm_compute; repeat constructor; set_solver. }
  apply (text_digest_correct (demo_request 4 None None) (demo_request 8 None (Some (lit "mine")))
    (Bool true) (Bool true) eq_refl eq_refl (Hwf _ _) (Hwf _ _)).
  - split; [|vm_compute; reflexivity]. intros x. apply Forall_map, Forall_true.
    intros b. apply Z.mod_pos_bound. lia.
  - split_and!; try (by constructor); vm_compute; repeat constructor.
    apply same_object with [(lit "source", String (lit "vault_url"))]; [reflexivity|].
    vm_compute. repeat constructor.
Defined.
