(* ===== verification/EvalRun.v ===== *)
(** * Running an evaluation ([crates/pipette-ops/src/measurement/eval.rs])

    Every sample of a dataset is generated once and its row recorded in the checkpoint of
    [EvalStore] as it lands. An engine's attempt is a program that calls [record] back, any
    number of times with any arguments, and may look at what each call answered ([Prog]);
    which programs an engine may show is a parameter. [send] runs one attempt, [batches] and
    [pool] run a cell's; the pool's worker threads are a step relation over the shared
    claims, the list of lost samples and the checkpoint, and a step is one lock held or one
    call of [record]. [run_cell], [eval], [eval_complete] and [eval_complete_chunked] put them
    together. Progress lines are left out. *)

From Stdlib Require Import ZArith Lia String.
From stdpp Require Import prelude list gmap sorting.
From S2P Require Import Prelude Str Json EvalStore.

Local Open Scope Z_scope.

(** ** Data *)

Inductive ContentPart :=
| TextPart (text : str)
| ImageUrl (url : str)
| InputAudio (data : str).

Inductive MessageContent :=
| ContentText (text : str)
| ContentParts (parts : list ContentPart).

Record ChatMessage := { role : str; content : MessageContent }.

(** The plan types' row. *)
Record EvalSample := {
  row_id : str;
  row_messages : list ChatMessage;
  row_chat_template_kwargs : option Value;
}.

Inductive EvalRows :=
| RawRows (rows : list Value)
| ChatRows (rows : list EvalSample).

Inductive EvalMessages :=
| RawMessages (messages : Value)
| ChatMessages (messages : list ChatMessage).

Record EvalMeasurementSample := {
  sid : str;
  messages : EvalMessages;
  chat_template_kwargs : option Value;
  sample_position : str;
}.

Abbreviation Sample := EvalMeasurementSample.

Inductive EvalMeasurementReading :=
| Completed (completion : str) (stop_reason : StopReason) (stop_detail : option str)
    (completion_tokens : option Z)
| Failed (reason : str)
| Lost (reason : str)
| Unfit (reason : str).

Inductive EvalMeasurementInFlight :=
| Batch (size : positive)
| Parallel (workers : positive).

Inductive EvalMeasurementError :=
| MissingSamples
| MissingId (number : nat)
| MissingMessages (id : str)
| TypedMessages
| OutOfRange (at_ count : nat)
| RecordedTwice (id : str)
| Unrecorded (id : str).

(** What ends a cell. *)
Inductive EvalError :=
| Measurement (e : EvalMeasurementError)
| CheckpointError (e : str)
| AttemptFailed (label : str) (e : str)
| Panicked
| NotComplete (e : Incomplete)
| ChunkError (e : str)
| EmptyChunk (offset : nat)
| PastDeclared (offset end_ : nat)
| StrayRow (position : nat) (id : str).

(** ** Messages *)

Definition raw (m : EvalMessages) : result Value EvalMeasurementError :=
  match m with
  | RawMessages v => Ok v
  | ChatMessages _ => Err TypedMessages
  end.

Fixpoint last_text_part (parts : list ContentPart) : option str :=
  match parts with
  | [] => None
  | p :: rest =>
      match last_text_part rest with
      | Some t => Some t
      | None => match p with TextPart t => Some t | _ => None end
      end
  end.

Definition last_text (m : EvalMessages) : option str :=
  match m with
  | RawMessages (Array items) => v ← last items; c ← Json.get (lit "content") v; as_str c
  | RawMessages _ => None
  | ChatMessages ms =>
      m ← last ms;
      match content m with
      | ContentText t => Some t
      | ContentParts parts => last_text_part parts
      end
  end.

(** ** Datasets *)

Definition position_text (number total : nat) (id : str) : str :=
  lit "eval sample " ++ show_uint (Z.of_nat number) ++ lit "/" ++ show_uint (Z.of_nat total)
  ++ lit ": id=" ++ id.

Definition chat_sample (offset total index : nat) (row : EvalSample) : Sample :=
  {| sid := row_id row; messages := ChatMessages (row_messages row);
     chat_template_kwargs := row_chat_template_kwargs row;
     sample_position := position_text (offset + index + 1) total (row_id row) |}.

Definition chat_samples (rows : list EvalSample) (offset total : nat) : list Sample :=
  imap (chat_sample offset total) rows.

Fixpoint raw_samples (rows : list Value) (index total : nat)
    : result (list Sample) EvalMeasurementError :=
  match rows with
  | [] => Ok []
  | row :: rows =>
      let number := S index in
      match Json.get (lit "id") row ≫= as_str with
      | None => Err (MissingId number)
      | Some id =>
          match Json.get (lit "messages") row with
          | None => Err (MissingMessages id)
          | Some messages =>
              match raw_samples rows number total with
              | Err e => Err e
              | Ok rest =>
                  Ok ({| sid := id; messages := RawMessages messages;
                         chat_template_kwargs := None;
                         sample_position := position_text number total id |} :: rest)
              end
          end
      end
  end.

Definition dataset (samples : option EvalRows) : result (list Sample) EvalMeasurementError :=
  match samples with
  | None => Err MissingSamples
  | Some (RawRows rows) => raw_samples rows 0 (length rows)
  | Some (ChatRows rows) => Ok (chat_samples rows 0 (length rows))
  end.

(** The samples to send: each id once, in order, that is not settled. *)
Fixpoint pending_from (settled : str -> bool) (samples : list Sample) (seen : gset str)
    : list Sample :=
  match samples with
  | [] => []
  | s :: rest =>
      if negb (settled (sid s)) && negb (bool_decide (sid s ∈ seen))
      then s :: pending_from settled rest ({[sid s]} ∪ seen)
      else pending_from settled rest seen
  end.

Definition pending (samples : list Sample) (checkpoint : EvalCompletionSession)
    (retry_failed : bool) : list Sample :=
  let retry : gset str :=
    if retry_failed then list_to_set (failure_split MAX_SAMPLE_ATTEMPTS checkpoint).1 else ∅ in
  pending_from
    (fun i => EvalStore.contains i checkpoint && negb (bool_decide (i ∈ retry))) samples ∅.

Definition label (group : list Sample) : str :=
  match group with
  | [only] => sample_position only
  | first :: _ =>
      lit "batch of " ++ show_uint (Z.of_nat (length group)) ++ lit " from "
      ++ sample_position first
  | [] => []
  end.

Definition failed_row (id : str) (reason : str) : Row :=
  {| EvalStore.id := id; completion := []; failed := true; failed_reason := Some reason;
     stop_reason := Failure; stop_detail := Some reason; completion_tokens := None |}.

(** ** One attempt *)

(** An attempt: it returns, or records a reading for a position of its group and goes on
    with what the call answered. *)
Inductive Prog :=
| Return (r : result unit str)
| Record_ (at_ : nat) (reading : EvalMeasurementReading) (k : result unit EvalError -> Prog).

(** What the attempts of a cell share: the checkpoint, the store's directory, the attempts
    that were started, each with whether it ran alone, and the rows recorded so far. The
    last two are for the theorems. *)
Record Shared := {
  checkpoint : EvalCompletionSession;
  files : Dir;
  sends : list (list Sample * bool);
  rows : list Row;
}.

(** What one attempt keeps: which samples were recorded, and which are lost. *)
Record SendState := { recorded : list bool; lost : list Sample }.

Definition new_send (group : list Sample) : SendState :=
  {| recorded := replicate (length group) false; lost := [] |}.

Section Run.
Context `{EvalSerde}.

Definition write_row (row : Row) (stops_at : option nat) (sh : Shared)
    : result unit EvalError * Shared :=
  match append row stops_at (checkpoint sh) (files sh) with
  | (Ok _, s, d) =>
      (Ok tt, {| checkpoint := s; files := d; sends := sends sh; rows := rows sh ++ [row] |})
  | (Err e, s, d) =>
      (Err (CheckpointError e), {| checkpoint := s; files := d; sends := sends sh; rows := rows sh |})
  end.

Definition hold_unfit (row : Row) (sh : Shared) : Shared :=
  {| checkpoint := record_unfit row (checkpoint sh); files := files sh; sends := sends sh;
     rows := rows sh ++ [row] |}.

(** The closure [record] of [send]. *)
Definition record (group : list Sample) (alone : bool) (at_ : nat)
    (reading : EvalMeasurementReading) (stops_at : option nat) (ss : SendState) (sh : Shared)
    : result unit EvalError * SendState * Shared :=
  match group !! at_ with
  | None => (Err (Measurement (OutOfRange at_ (length group))), ss, sh)
  | Some sample =>
      if match recorded ss !! at_ with Some b => b | None => false end
      then (Err (Measurement (RecordedTwice (sid sample))), ss, sh)
      else
        let ss := {| recorded := <[at_ := true]> (recorded ss); lost := lost ss |} in
        let write row :=
          let '(r, sh) := write_row row stops_at sh in (r, ss, sh) in
        match reading with
        | Lost reason =>
            if alone then write (failed_row (sid sample) reason)
            else (Ok tt, {| recorded := recorded ss; lost := lost ss ++ [sample] |}, sh)
        | Completed completion stop_reason stop_detail completion_tokens =>
            write {| EvalStore.id := sid sample; completion := completion; failed := false;
                     failed_reason := None; stop_reason := stop_reason;
                     stop_detail := stop_detail; completion_tokens := completion_tokens |}
        | Failed reason => write (failed_row (sid sample) reason)
        | Unfit reason => (Ok tt, ss, hold_unfit (failed_row (sid sample) reason) sh)
        end
  end.

(** What [send] makes of an attempt that returned. *)
Fixpoint first_unrecorded (group : list Sample) (flags : list bool) : option Sample :=
  match group, flags with
  | s :: group, b :: flags => if (b : bool) then first_unrecorded group flags else Some s
  | _, _ => None
  end.

Definition finish (group : list Sample) (r : result unit str) (ss : SendState)
    : result (list Sample) EvalError :=
  match r with
  | Err e => Err (AttemptFailed (label group) e)
  | Ok _ =>
      match first_unrecorded group (recorded ss) with
      | Some sample => Err (Measurement (Unrecorded (sid sample)))
      | None => Ok (lost ss)
      end
  end.

Definition log_send (group : list Sample) (alone : bool) (sh : Shared) : Shared :=
  {| checkpoint := checkpoint sh; files := files sh; sends := sends sh ++ [(group, alone)];
     rows := rows sh |}.

(** The attempts an engine may show for a group. *)
Context (engine : list Sample -> Prog -> Prop).

Inductive run_prog (group : list Sample) (alone : bool)
    : Prog -> SendState -> Shared -> result unit str -> SendState -> Shared -> Prop :=
| run_return r ss sh : run_prog group alone (Return r) ss sh r ss sh
| run_record at_ reading k stops_at ss sh r ss1 sh1 r' ss2 sh2 :
    record group alone at_ reading stops_at ss sh = (r, ss1, sh1) ->
    run_prog group alone (k r) ss1 sh1 r' ss2 sh2 ->
    run_prog group alone (Record_ at_ reading k) ss sh r' ss2 sh2.

Inductive send (group : list Sample) (alone : bool) (sh : Shared)
    : result (list Sample) EvalError -> Shared -> Prop :=
| send_run p r ss sh' :
    engine group p ->
    run_prog group alone p (new_send group) (log_send group alone sh) r ss sh' ->
    send group alone sh (finish group r ss) sh'.

(** [settle]: each sample again, alone, until one fails the cell. *)
Inductive settle : list Sample -> Shared -> result unit EvalError -> Shared -> Prop :=
| settle_nil sh : settle [] sh (Ok tt) sh
| settle_ok s rest sh l sh1 r sh2 :
    send [s] true sh (Ok l) sh1 -> settle rest sh1 r sh2 -> settle (s :: rest) sh r sh2
| settle_err s rest sh e sh1 :
    send [s] true sh (Err e) sh1 -> settle (s :: rest) sh (Err e) sh1.

Inductive batch_groups : list (list Sample) -> Shared -> result unit EvalError -> Shared -> Prop :=
| batch_nil sh : batch_groups [] sh (Ok tt) sh
| batch_next g rest sh l sh1 sh2 r sh3 :
    send g (length g =? 1)%nat sh (Ok l) sh1 -> settle l sh1 (Ok tt) sh2 ->
    batch_groups rest sh2 r sh3 -> batch_groups (g :: rest) sh r sh3
| batch_send_err g rest sh e sh1 :
    send g (length g =? 1)%nat sh (Err e) sh1 -> batch_groups (g :: rest) sh (Err e) sh1
| batch_settle_err g rest sh l sh1 e sh2 :
    send g (length g =? 1)%nat sh (Ok l) sh1 -> settle l sh1 (Err e) sh2 ->
    batch_groups (g :: rest) sh (Err e) sh2.

Definition batches (pending : list Sample) (size : positive) :=
  batch_groups (chunks (length pending) (Pos.to_nat size) pending).

(** ** The pool

    Where a worker thread of a round is: about to claim, inside an attempt, holding what an
    attempt lost before and after it stops the claiming, holding an error before it stops
    the claiming, or over. *)

Inductive WorkerState :=
| WClaim
| WSend (s : Sample) (p : Prog) (ss : SendState)
| WDropped (l : list Sample)
| WLose (l : list Sample)
| WFailed (e : EvalError)
| WDone (r : result unit EvalError).

Record Round := {
  workers : list WorkerState;
  claimed : nat;
  stopped : bool;
  round_lost : list Sample;
  shared : Shared;
}.

Definition set_worker (w : nat) (st : WorkerState) (r : Round) : Round :=
  {| workers := <[w := st]> (workers r); claimed := claimed r; stopped := stopped r;
     round_lost := round_lost r; shared := shared r |}.

Definition set_shared (sh : Shared) (r : Round) : Round :=
  {| workers := workers r; claimed := claimed r; stopped := stopped r;
     round_lost := round_lost r; shared := sh |}.

Definition stop_claims (r : Round) : Round :=
  {| workers := workers r; claimed := claimed r; stopped := true;
     round_lost := round_lost r; shared := shared r |}.

Inductive round_step (rest : list Sample) (alone : bool) : Round -> Round -> Prop :=
| round_claim r w s p :
    workers r !! w = Some WClaim -> rest !! claimed r = Some s -> stopped r = false ->
    engine [s] p ->
    round_step rest alone r
      (set_worker w (WSend s p (new_send [s]))
        {| workers := workers r; claimed := S (claimed r); stopped := stopped r;
           round_lost := round_lost r; shared := log_send [s] alone (shared r) |})
| round_no_claim r w :
    workers r !! w = Some WClaim -> rest !! claimed r = None \/ stopped r = true ->
    round_step rest alone r (set_worker w (WDone (Ok tt)) r)
| round_record r w s at_ reading k ss stops_at a ss' sh' :
    workers r !! w = Some (WSend s (Record_ at_ reading k) ss) ->
    record [s] alone at_ reading stops_at ss (shared r) = (a, ss', sh') ->
    round_step rest alone r (set_worker w (WSend s (k a) ss') (set_shared sh' r))
| round_return r w s a ss :
    workers r !! w = Some (WSend s (Return a) ss) ->
    round_step rest alone r
      (set_worker w
         match finish [s] a ss with
         | Err e => WFailed e
         | Ok [] => WClaim
         | Ok l => WDropped l
         end r)
| round_stop_lost r w l :
    workers r !! w = Some (WDropped l) ->
    round_step rest alone r (set_worker w (WLose l) (stop_claims r))
| round_lose r w l :
    workers r !! w = Some (WLose l) ->
    round_step rest alone r
      (set_worker w WClaim
        {| workers := workers r; claimed := claimed r; stopped := stopped r;
           round_lost := round_lost r ++ l; shared := shared r |})
| round_stop_failed r w e :
    workers r !! w = Some (WFailed e) ->
    round_step rest alone r (set_worker w (WDone (Err e)) (stop_claims r))
| round_panic r w s p ss :
    workers r !! w = Some (WSend s p ss) ->
    round_step rest alone r (set_worker w (WDone (Err Panicked)) r).

Definition new_round (count : nat) (sh : Shared) (r : Round) : Prop :=
  r = {| workers := replicate count WClaim; claimed := 0; stopped := false; round_lost := [];
         shared := sh |}.

(** The threads were joined: the first error in their order, if any. *)
Fixpoint joined (ws : list WorkerState) : option (result unit EvalError) :=
  match ws with
  | [] => Some (Ok tt)
  | WDone r :: ws =>
      match joined ws, r with
      | None, _ => None
      | Some _, Err e => Some (Err e)
      | Some r', Ok _ => Some r'
      end
  | _ :: _ => None
  end.

Definition worker_count (count : positive) (rest : list Sample) : nat :=
  Nat.min (Pos.to_nat count) (length rest).

(** One round: the workers run until all are over. *)
Definition round_ends (count : positive) (rest : list Sample) (sh : Shared)
    (answer : result unit EvalError) (fin : Round) : Prop :=
  let n := worker_count count rest in
  reachable (new_round n sh) (round_step rest (n =? 1)%nat) fin /\
  joined (workers fin) = Some answer.

Inductive pool (count : positive)
    : list Sample -> Shared -> result unit EvalError -> Shared -> Prop :=
| pool_done sh : pool count [] sh (Ok tt) sh
| pool_round_err rest sh e fin :
    rest <> [] -> round_ends count rest sh (Err e) fin ->
    pool count rest sh (Err e) (shared fin)
| pool_settle_err rest sh fin e sh1 :
    rest <> [] -> round_ends count rest sh (Ok tt) fin ->
    settle (round_lost fin) (shared fin) (Err e) sh1 ->
    pool count rest sh (Err e) sh1
| pool_next rest sh fin sh1 r sh2 :
    rest <> [] -> round_ends count rest sh (Ok tt) fin ->
    settle (round_lost fin) (shared fin) (Ok tt) sh1 ->
    pool count (drop (claimed fin) rest) sh1 r sh2 ->
    pool count rest sh r sh2.

(** ** Cells *)

Definition run_samples (in_flight : EvalMeasurementInFlight) (pending : list Sample) :=
  match in_flight with
  | Batch size => batches pending size
  | Parallel workers => pool workers pending
  end.

Definition distinct_ids (samples : list Sample) : nat :=
  size (list_to_set (map sid samples) : gset str).

(** [run_cell]; on success, the number of distinct ids. *)
Inductive run_cell (samples : option EvalRows) (in_flight : EvalMeasurementInFlight)
    (retry_failed : bool) (sh : Shared) : result nat EvalError -> Shared -> Prop :=
| cell_bad_dataset e :
    dataset samples = Err e -> run_cell samples in_flight retry_failed sh (Err (Measurement e)) sh
| cell_run ss r sh' :
    dataset samples = Ok ss ->
    run_samples in_flight (pending ss (checkpoint sh) retry_failed) sh r sh' ->
    run_cell samples in_flight retry_failed sh
      match r with Ok _ => Ok (distinct_ids ss) | Err e => Err e end sh'.

Inductive eval (samples : option EvalRows) (in_flight : EvalMeasurementInFlight) (sh : Shared)
    : result (list Row) EvalError -> Shared -> Prop :=
| eval_ok total sh' :
    run_cell samples in_flight false sh (Ok total) sh' ->
    eval samples in_flight sh (Ok (completions (checkpoint sh'))) sh'
| eval_err e sh' :
    run_cell samples in_flight false sh (Err e) sh' -> eval samples in_flight sh (Err e) sh'.

Inductive eval_complete (env : option str) (samples : option EvalRows)
    (in_flight : EvalMeasurementInFlight) (sh : Shared)
    : result (list Row) EvalError -> Shared -> Prop :=
| complete_run total sh' :
    run_cell samples in_flight true sh (Ok total) sh' ->
    eval_complete env samples in_flight sh
      match ensure_complete env (checkpoint sh') total with
      | Ok _ => Ok (completions (checkpoint sh'))
      | Err e => Err (NotComplete e)
      end sh'
| complete_err e sh' :
    run_cell samples in_flight true sh (Err e) sh' ->
    eval_complete env samples in_flight sh (Err e) sh'.

(** *** A dataset read in chunks *)

Definition chunked_pending (s : EvalCompletionSession) (declared : nat) (id_at : nat -> str)
    : list (nat * str) :=
  let retriable : gset str := list_to_set (failure_split MAX_SAMPLE_ATTEMPTS s).1 in
  List.filter
    (fun pi => negb (EvalStore.contains pi.2 s) || bool_decide (pi.2 ∈ retriable))
    (map (fun position => (position, id_at position)) (seq 0 declared)).

(** The first row whose id is not its position's. *)
Fixpoint first_stray (id_at : nat -> str) (position : nat) (rows : list EvalSample)
    : option (nat * EvalSample) :=
  match rows with
  | [] => None
  | row :: rows =>
      if negb (str_eqb (row_id row) (id_at position)) then Some (position, row)
      else first_stray id_at (S position) rows
  end.

(** [slice::partition_point] of [position < end]. *)
Fixpoint partition_point (end_ : nat) (todo : list (nat * str)) : nat :=
  match todo with
  | (position, _) :: todo => if (position <? end_)%nat then S (partition_point end_ todo) else 0%nat
  | [] => 0%nat
  end.

Section Chunked.
Context (declared : nat) (id_at : nat -> str) (in_flight : EvalMeasurementInFlight).
(** What reading the rows from an offset may answer. *)
Context (chunk : nat -> result (list EvalSample) str -> Prop).
Context (todo : list (nat * str)).

Definition chunk_pending (rows : list EvalSample) (offset : nat) : list Sample :=
  let todo_ids : gset str := list_to_set (map snd todo) in
  List.filter (fun s => bool_decide (sid s ∈ todo_ids)) (chat_samples rows offset declared).

(** The loop, from a cursor into [todo]; the offsets it read come out. *)
Inductive chunk_loop : nat -> Shared -> result unit EvalError -> list nat -> Shared -> Prop :=
| loop_end cursor sh : todo !! cursor = None -> chunk_loop cursor sh (Ok tt) [] sh
| loop_chunk_err cursor sh offset i e :
    todo !! cursor = Some (offset, i) -> chunk offset (Err e) ->
    chunk_loop cursor sh (Err (ChunkError e)) [offset] sh
| loop_empty cursor sh offset i :
    todo !! cursor = Some (offset, i) -> chunk offset (Ok []) ->
    chunk_loop cursor sh (Err (EmptyChunk offset)) [offset] sh
| loop_past cursor sh offset i rows :
    todo !! cursor = Some (offset, i) -> chunk offset (Ok rows) -> rows <> [] ->
    (declared < offset + length rows)%nat ->
    chunk_loop cursor sh (Err (PastDeclared offset (offset + length rows))) [offset] sh
| loop_stray cursor sh offset i rows position row :
    todo !! cursor = Some (offset, i) -> chunk offset (Ok rows) -> rows <> [] ->
    (offset + length rows <= declared)%nat ->
    first_stray id_at offset rows = Some (position, row) ->
    chunk_loop cursor sh (Err (StrayRow position (row_id row))) [offset] sh
| loop_run_err cursor sh offset i rows e sh' :
    todo !! cursor = Some (offset, i) -> chunk offset (Ok rows) -> rows <> [] ->
    (offset + length rows <= declared)%nat -> first_stray id_at offset rows = None ->
    chunk_pending rows offset <> [] ->
    run_samples in_flight (chunk_pending rows offset) sh (Err e) sh' ->
    chunk_loop cursor sh (Err e) [offset] sh'
| loop_next cursor sh offset i rows sh1 r offsets sh2 :
    todo !! cursor = Some (offset, i) -> chunk offset (Ok rows) -> rows <> [] ->
    (offset + length rows <= declared)%nat -> first_stray id_at offset rows = None ->
    (chunk_pending rows offset = [] /\ sh1 = sh \/
     chunk_pending rows offset <> [] /\
     run_samples in_flight (chunk_pending rows offset) sh (Ok tt) sh1) ->
    chunk_loop (partition_point (offset + length rows) todo) sh1 r offsets sh2 ->
    chunk_loop cursor sh r (offset :: offsets) sh2.
End Chunked.

Inductive eval_complete_chunked (env : option str) (declared : nat) (id_at : nat -> str)
    (chunk : nat -> result (list EvalSample) str -> Prop) (in_flight : EvalMeasurementInFlight)
    (sh : Shared) : result (list Row) EvalError -> list nat -> Shared -> Prop :=
| chunked_run offsets sh' :
    chunk_loop declared id_at in_flight chunk
      (chunked_pending (checkpoint sh) declared id_at) 0 sh (Ok tt) offsets sh' ->
    eval_complete_chunked env declared id_at chunk in_flight sh
      match ensure_every_answer env (checkpoint sh') declared with
      | Ok _ => Ok (completions (checkpoint sh'))
      | Err e => Err (NotComplete e)
      end offsets sh'
| chunked_err e offsets sh' :
    chunk_loop declared id_at in_flight chunk
      (chunked_pending (checkpoint sh) declared id_at) 0 sh (Err e) offsets sh' ->
    eval_complete_chunked env declared id_at chunk in_flight sh (Err e) offsets sh'.
End Run.

(** ** The heartbeat of a cell *)

(** [beat_until_stopped], over what [stop] reads at each round and the clock after each
    sleep, in nanoseconds since the start: the elapsed times it beats with. *)
Fixpoint beat_until_stopped (interval : Z) (ticks : list (bool * Z)) (last_ : Z) : list Z :=
  match ticks with
  | [] => []
  | (true, _) :: _ => []
  | (false, now) :: ticks =>
      if now - last_ <? interval then beat_until_stopped interval ticks last_
      else now :: beat_until_stopped interval ticks now
  end.

Definition HEARTBEAT_INTERVAL : Z := from_secs 30.
Definition HEARTBEAT_POLL : Z := from_millis 200.

(** ** One attempt, accounted for

    An attempt that answers a failed [record] by returning an error, as its contract asks. *)

Inductive honest : Prog -> Prop :=
| honest_return r : honest (Return r)
| honest_record at_ reading k :
    honest (k (Ok tt)) -> (forall e, exists e', k (Err e) = Return (Err e')) ->
    honest (Record_ at_ reading k).

Fixpoint unflagged (group : list Sample) (flags : list bool) : list str :=
  match group, flags with
  | s :: group, b :: flags => if (b : bool) then unflagged group flags
                              else sid s :: unflagged group flags
  | _, _ => []
  end.

Lemma unflagged_new group : unflagged group (replicate (length group) false) = map sid group.
Proof. induction group as [|s group IH]; cbn; [done|]. by rewrite IH. Qed.

Lemma unflagged_set group flags at_ s :
  group !! at_ = Some s -> flags !! at_ = Some false ->
  unflagged group flags ≡ₚ sid s :: unflagged group (<[at_ := true]> flags).
Proof.
  revert flags at_. induction group as [|x group IH]; intros [|b flags] [|at_]; try done; cbn.
  - by intros [= ->] [= ->].
  - intros Hs Hf. specialize (IH flags at_ Hs Hf). destruct b; [done|].
    rewrite IH. apply Permutation_swap.
Qed.

Lemma unflagged_none group flags :
  length flags = length group -> first_unrecorded group flags = None -> unflagged group flags = [].
Proof.
  revert flags. induction group as [|x group IH]; intros [|[] flags]; try done; cbn; auto.
Qed.

(** The state of an attempt in which every call succeeded so far: each sample of the group
    has a row, is lost, or was not recorded yet. *)
Record send_ok (group : list Sample) (ss : SendState) (mine : list Row) : Prop := {
  ok_length : length (recorded ss) = length group;
  ok_lost : forall s, s ∈ lost ss -> s ∈ group;
  ok_account : map sid group ≡ₚ map id mine ++ map sid (lost ss) ++ unflagged group (recorded ss);
}.

Lemma new_send_ok group : send_ok group (new_send group) [].
Proof.
  split; cbn; [by rewrite length_replicate|set_solver|]. by rewrite unflagged_new.
Qed.

(** The effect of recording a row on the checkpoint. *)
Inductive records : EvalCompletionSession -> list Row -> EvalCompletionSession -> Prop :=
| records_nil s : records s [] s
| records_append s r rs s' : records (appended r s) rs s' -> records s (r :: rs) s'
| records_unfit s r rs s' : records (record_unfit r s) rs s' -> records s (r :: rs) s'.

Lemma records_app s a s1 b s2 : records s a s1 -> records s1 b s2 -> records s (a ++ b) s2.
Proof. induction 1; intros; cbn; [done|by constructor; auto|by apply records_unfit; auto]. Qed.

Lemma records_wf s rs s' : records s rs s' -> session_wf s -> session_wf s'.
Proof. induction 1; auto using appended_wf, record_unfit_wf. Qed.

Lemma records_done s rs s' :
  records s rs s' -> done_ids s' = list_to_set (map id rs) ∪ done_ids s.
Proof.
  induction 1 as [|s r rs s' _ IH|s r rs s' _ IH]; cbn; [set_solver|..]; rewrite IH.
  - unfold appended. destruct (take_out _ _ _). cbn. set_solver.
  - unfold record_unfit. destruct (take_out _ _ _). cbn. set_solver.
Qed.

(** Two states of a cell, and the rows recorded between them. *)
Definition extends (sh sh' : Shared) (new : list Row) : Prop :=
  rows sh' = rows sh ++ new /\ records (checkpoint sh) new (checkpoint sh').

Lemma extends_refl sh : extends sh sh [].
Proof. split; [by rewrite app_nil_r|constructor]. Qed.

Lemma extends_trans sh sh1 sh2 a b : extends sh sh1 a -> extends sh1 sh2 b -> extends sh sh2 (a ++ b).
Proof.
  intros [E1 R1] [E2 R2]. split; [by rewrite E2, E1, app_assoc|by eapply records_app].
Qed.

Lemma extends_log sh sh' g a new : extends (log_send g a sh) sh' new -> extends sh sh' new.
Proof. done. Qed.

Section Attempts.
Context `{EvalSerde}.

Lemma write_row_spec row stops_at sh r sh' :
  write_row row stops_at sh = (r, sh') ->
  sends sh' = sends sh /\
  match r with Ok _ => extends sh sh' [row] | Err _ => extends sh sh' [] end.
Proof.
  unfold write_row, append, extends. intros E.
  destruct (row_to_string row); [destruct stops_at|]; simplify_eq/=;
    (split; [done|]); rewrite ?app_nil_r; (split; [done|]); repeat constructor.
Qed.

Lemma record_spec group alone at_ reading stops_at ss sh r ss' sh' mine :
  send_ok group ss mine -> record group alone at_ reading stops_at ss sh = (r, ss', sh') ->
  sends sh' = sends sh /\ (alone = true -> lost ss' = lost ss) /\
  match r with
  | Ok _ => exists new, extends sh sh' new /\ send_ok group ss' (mine ++ new)
  | Err _ => extends sh sh' [] /\ lost ss' = lost ss
  end.
Proof.
  intros [Hl Hin Ha]. unfold record. destruct (group !! at_) as [s|] eqn:Es;
    [|intros; simplify_eq; auto using extends_refl].
  destruct (recorded ss !! at_) as [[]|] eqn:Ef; [intros; simplify_eq; auto using extends_refl| |].
  2: { apply lookup_ge_None in Ef. apply lookup_lt_Some in Es. lia. }
  assert (forall row ss1 sh1 r1, id row = sid s ->
    (let '(r, sh) := write_row row stops_at sh in
     (r, {| recorded := <[at_ := true]> (recorded ss); lost := lost ss |}, sh)) = (r1, ss1, sh1) ->
    sends sh1 = sends sh /\ (alone = true -> lost ss1 = lost ss) /\
    match r1 with
    | Ok _ => exists new, extends sh sh1 new /\ send_ok group ss1 (mine ++ new)
    | Err _ => extends sh sh1 [] /\ lost ss1 = lost ss
    end) as Hwrite.
  { intros row ss1 sh1 r1 Hid E. destruct (write_row row stops_at sh) as [r2 sh2] eqn:Ew.
    simplify_eq. apply write_row_spec in Ew as [Hs He]. split; [done|]. split; [done|].
    destruct r1; [|done]. exists [row]. split; [done|]. split; cbn.
    - by rewrite length_insert.
    - done.
    - rewrite Ha, (unflagged_set group (recorded ss) at_ s) by done.
      rewrite map_app. cbn. rewrite Hid. rewrite <- app_assoc. cbn. apply Permutation_app_head.
      by rewrite <- Permutation_middle. }
  destruct reading as [c sr sd ct|reason|reason|reason]; cbv zeta.
  - by apply Hwrite.
  - by apply Hwrite.
  - destruct alone; [by apply Hwrite|]. intros; simplify_eq. split_and!; [done..|].
    exists []. split; [apply extends_refl|]. split; cbn.
    + by rewrite length_insert.
    + intros x [Hx| ->%list_elem_of_singleton]%elem_of_app; [by apply Hin|].
      by eapply list_elem_of_lookup_2.
    + rewrite Ha, (unflagged_set group (recorded ss) at_ s) by done.
      rewrite !map_app. cbn. rewrite app_nil_r, <- app_assoc. done.
  - intros; simplify_eq. split_and!; [done..|]. exists [failed_row (sid s) reason]. split.
    + split; [done|]. apply records_unfit, records_nil.
    + split; cbn; [by rewrite length_insert|done|].
      rewrite Ha, (unflagged_set group (recorded ss) at_ s) by done.
      rewrite map_app. cbn. rewrite <- app_assoc. cbn. apply Permutation_app_head.
      by rewrite <- Permutation_middle.
Qed.

(** A whole attempt: what it recorded, and what is left of its group. *)
Lemma run_prog_spec group alone p ss sh r ss' sh' mine :
  run_prog group alone p ss sh r ss' sh' -> honest p -> send_ok group ss mine ->
  exists new, extends sh sh' new /\ sends sh' = sends sh /\
    (alone = true -> lost ss' = lost ss) /\
    (exists held, map sid group ≡ₚ map id (mine ++ new) ++ held) /\
    ((exists e, r = Err e) \/ send_ok group ss' (mine ++ new)).
Proof.
  intros Hrun. revert mine. induction Hrun as [r ss sh|at_ reading k stops_at ss sh r ss1 sh1 r' ss2 sh2 Hrec Hrun IH];
    intros mine Hp Hok.
  - exists []. rewrite app_nil_r. split_and!; [apply extends_refl|done..| |by right].
    eexists. apply Hok.
  - inversion Hp as [|? ? ? Hk He]; subst.
    destruct (record_spec _ _ _ _ _ _ _ _ _ _ _ Hok Hrec) as (Hs & Hlost & Hr).
    destruct r as [[]|e].
    + destruct Hr as (new & Hext & Hok1).
      destruct (IH _ Hk Hok1) as (new' & Hext' & Hs' & Hlost' & Hheld & Hend).
      exists (new ++ new'). rewrite app_assoc. split_and!; [by eapply extends_trans|congruence| |done..].
      intros Ha. by rewrite Hlost', Hlost.
    + destruct Hr as [Hext Hl]. destruct (He e) as [e' Ek]. rewrite Ek in Hrun. inversion Hrun; subst.
      exists []. rewrite app_nil_r. split_and!; [done|done|done| |by left; eexists].
      eexists. apply Hok.
Qed.

Context (engine : list Sample -> Prog -> Prop).
Context (engine_honest : forall g p, engine g p -> honest p).

Lemma send_spec group alone sh r sh' :
  send engine group alone sh r sh' ->
  exists new, extends sh sh' new /\ sends sh' = sends sh ++ [(group, alone)] /\
  match r with
  | Ok l => map sid group ≡ₚ map id new ++ map sid l /\ (forall s, s ∈ l -> s ∈ group) /\
            (alone = true -> l = [])
  | Err _ => exists held, map sid group ≡ₚ map id new ++ held
  end.
Proof.
  intros [p a ss sh1 Hp Hrun].
  destruct (run_prog_spec _ _ _ _ _ _ _ _ [] Hrun (engine_honest _ _ Hp) (new_send_ok group))
    as (new & Hext & Hs & Hlost & Hheld & Hend).
  exists new. split; [done|]. split; [done|]. unfold finish.
  destruct a as [[]|e]; [|done]. destruct Hend as [[e ?]|[Hl Hin Ha]]; [done|].
  destruct (first_unrecorded group (recorded ss)) as [s|] eqn:Ef; [done|].
  rewrite (unflagged_none _ _ Hl Ef), app_nil_r in Ha. split_and!; [done..|].
  intros E. by rewrite Hlost.
Qed.

Lemma send_alone_ok s sh l sh' :
  send engine [s] true sh (Ok l) sh' ->
  exists r, id r = sid s /\ extends sh sh' [r] /\ sends sh' = sends sh ++ [([s], true)].
Proof.
  intros (new & Hext & Hs & Ha & _ & Hl)%send_spec. rewrite Hl in Ha by done.
  cbn in Ha. rewrite app_nil_r in Ha. apply Permutation_singleton_l in Ha.
  destruct new as [|r [|]]; try done. injection Ha as E. by exists r.
Qed.

Lemma settle_spec l sh r sh' :
  settle engine l sh r sh' ->
  exists new again, extends sh sh' new /\
    sends sh' = sends sh ++ map (fun s => ([s], true)) again /\
    (exists more, l = again ++ more) /\ map id new ⊆+ map sid l /\
    (r = Ok tt -> map id new = map sid l).
Proof.
  induction 1 as [sh|s rest sh l sh1 r sh2 Hsend _ IH|s rest sh e sh1 Hsend].
  - exists [], []. split_and!; [apply extends_refl|by rewrite app_nil_r|by exists []|done|done].
  - apply send_alone_ok in Hsend as (row & Hid & Hext & Hs).
    destruct IH as (new & again & Hext' & Hs' & [more ->] & Hsub & Hok).
    exists (row :: new), (s :: again). split_and!.
    + apply (extends_trans _ _ _ [row] new Hext Hext').
    + rewrite Hs', Hs. by rewrite <- app_assoc.
    + by exists more.
    + cbn. rewrite Hid. by apply submseteq_skip.
    + intros Er. cbn. by rewrite Hid, Hok.
  - apply send_spec in Hsend as (new & Hext & Hs & held & Ha).
    exists new, [s]. split_and!; [done|done|by exists rest| |done].
    change (map sid (s :: rest)) with (map sid [s] ++ map sid rest). rewrite Ha.
    by do 2 apply submseteq_inserts_r.
Qed.

(** *** What a run of samples comes to

    The rows it records, the attempts it makes: each sample in one first attempt, and those
    lost beside others again, alone. *)
Definition run_spec (pending : list Sample) (sh : Shared) (r : result unit EvalError)
    (sh' : Shared) : Prop :=
  exists new firsts again, extends sh sh' new /\
    sends sh' ≡ₚ sends sh ++ firsts ++ map (fun s => ([s], true)) again /\
    concat (map fst firsts) ⊆+ pending /\
    map sid again ⊆+ map sid (concat (map fst firsts)) /\
    map id new ⊆+ map sid pending /\
    (r = Ok tt -> concat (map fst firsts) ≡ₚ pending /\ map id new ≡ₚ map sid pending).

Lemma run_spec_nil sh : run_spec [] sh (Ok tt) sh.
Proof.
  exists [], [], []. split_and!; [apply extends_refl|by rewrite app_nil_r|done..].
Qed.

(** A part of the samples, then the others. *)
Lemma run_spec_app a b sh sh1 r sh2 :
  run_spec a sh (Ok tt) sh1 -> run_spec b sh1 r sh2 -> run_spec (a ++ b) sh r sh2.
Proof.
  intros (n1 & f1 & g1 & E1 & S1 & C1 & A1 & M1 & K1) (n2 & f2 & g2 & E2 & S2 & C2 & A2 & M2 & K2).
  exists (n1 ++ n2), (f1 ++ f2), (g1 ++ g2).
  rewrite !map_app, concat_app, map_app. split_and!.
  - by eapply extends_trans.
  - rewrite S2, S1. rewrite <- !app_assoc. do 2 apply Permutation_app_head.
    rewrite !app_assoc. apply Permutation_app_tail. apply Permutation_app_comm.
  - by apply submseteq_app.
  - by apply submseteq_app.
  - by apply submseteq_app.
  - intros ->. destruct (K1 eq_refl) as [-> ->], (K2 eq_refl) as [-> ->]. done.
Qed.

(** A part of the samples that ended the run. *)
Lemma run_spec_err a b sh e sh1 : run_spec a sh (Err e) sh1 -> run_spec (a ++ b) sh (Err e) sh1.
Proof.
  intros (n1 & f1 & g1 & E1 & S1 & C1 & A1 & M1 & _). exists n1, f1, g1.
  rewrite map_app. split_and!; [done|done| |done| |done]; by apply submseteq_inserts_r.
Qed.

(** *** Batches *)

(** An attempt and the samples it lost. *)
Lemma first_and_again (g : list Sample) alone l sh sh1 r sh2 :
  send engine g alone sh (Ok l) sh1 -> settle engine l sh1 r sh2 -> run_spec g sh r sh2.
Proof.
  intros (n1 & E1 & S1 & A1 & _)%send_spec (n2 & again & E2 & S2 & [more ->] & M2 & K2)%settle_spec.
  exists (n1 ++ n2), [(g, alone)], again. cbn [map fst concat]. rewrite app_nil_r. split_and!.
  - by eapply extends_trans.
  - by rewrite S2, S1, <- app_assoc.
  - done.
  - rewrite A1, map_app. apply submseteq_inserts_l. by apply submseteq_inserts_r.
  - rewrite map_app, A1. by apply submseteq_skips_l.
  - intros ->. split; [done|]. by rewrite map_app, A1, K2.
Qed.

Lemma first_failed g alone sh e sh1 :
  send engine g alone sh (Err e) sh1 -> run_spec g sh (Err e) sh1.
Proof.
  intros (n1 & E1 & S1 & held & A1)%send_spec. exists n1, [(g, alone)], [].
  cbn [map fst concat]. rewrite !app_nil_r. split_and!; [done|by rewrite S1|done| | |done].
  - apply submseteq_nil_l.
  - rewrite A1. by apply submseteq_inserts_r.
Qed.

Lemma batch_groups_spec gs sh r sh' :
  batch_groups engine gs sh r sh' -> run_spec (concat gs) sh r sh'.
Proof.
  induction 1 as [sh|g rest sh l sh1 sh2 r sh3 H1 H2 _ IH|g rest sh e sh1 H1|g rest sh l sh1 e sh2 H1 H2];
    cbn [concat].
  - apply run_spec_nil.
  - eapply run_spec_app; [|exact IH]. by eapply first_and_again.
  - apply run_spec_err. by eapply first_failed.
  - apply run_spec_err. by eapply first_and_again.
Qed.

(** *** Rounds of the pool

    What a worker holds: ids that were claimed and have no row yet. *)
Definition worker_ok (rest : list Sample) (alone : bool) (w : WorkerState) (held : list str) : Prop :=
  match w with
  | WClaim | WDone (Ok _) => held = []
  | WSend s p ss =>
      s ∈ rest /\ honest p /\ (alone = true -> lost ss = []) /\
      ((exists e, p = Return (Err e)) \/
       exists mine, send_ok [s] ss mine /\ held = map sid (lost ss) ++ unflagged [s] (recorded ss))
  | WDropped l | WLose l =>
      held = map sid l /\ (forall s, s ∈ l -> s ∈ rest) /\ (alone = true -> l = [])
  | WFailed _ | WDone (Err _) => True
  end.

Definition round_inv (rest : list Sample) (alone : bool) (sh0 : Shared) (r : Round) : Prop :=
  exists new held,
    Forall2 (worker_ok rest alone) (workers r) held /\
    extends sh0 (shared r) new /\
    sends (shared r) = sends sh0 ++ map (fun s => ([s], alone)) (take (claimed r) rest) /\
    (claimed r <= length rest)%nat /\
    (forall s, s ∈ round_lost r -> s ∈ rest) /\
    map sid (take (claimed r) rest) ≡ₚ map id new ++ map sid (round_lost r) ++ concat held /\
    (claimed r = 0%nat -> stopped r = false /\ Forall (eq WClaim) (workers r)).

Lemma concat_insert (held : list (list str)) w h h' :
  held !! w = Some h -> exists others,
  concat held ≡ₚ h ++ others /\ concat (<[w := h']> held) ≡ₚ h' ++ others.
Proof.
  revert w. induction held as [|x held IH]; intros [|w] Hw; try done; cbn in *.
  - simplify_eq. by exists (concat held).
  - destruct (IH w Hw) as (others & E1 & E2). exists (x ++ others). rewrite E1, E2.
    rewrite !app_assoc. split; apply Permutation_app_tail, Permutation_app_comm.
Qed.

(** Moving ids between rows, lost samples and one worker keeps the account. *)
Lemma account (held : list (list str)) w h h' (A X Y X' Y' extra : list str) :
  held !! w = Some h -> A ≡ₚ X ++ Y ++ concat held ->
  (X ++ Y ++ h) ++ extra ≡ₚ X' ++ Y' ++ h' ->
  A ++ extra ≡ₚ X' ++ Y' ++ concat (<[w := h']> held).
Proof.
  intros Hw HA HE. destruct (concat_insert held w h h' Hw) as (others & E1 & E2).
  rewrite HA, E1, E2.
  transitivity ((X ++ Y ++ h) ++ extra ++ others).
  - rewrite <- !app_assoc. do 3 apply Permutation_app_head. apply Permutation_app_comm.
  - rewrite app_assoc, HE. by rewrite <- !app_assoc.
Qed.

Lemma round_inv_worker rest alone sh0 r w old st h' new' lost' sh' stop' :
  round_inv rest alone sh0 r -> workers r !! w = Some old -> old <> WClaim ->
  (forall new h, extends sh0 (shared r) new -> worker_ok rest alone old h ->
     extends sh0 sh' (new ++ new') /\ worker_ok rest alone st (h' h) /\
     map id new ++ map sid (round_lost r) ++ h ≡ₚ
       map id (new ++ new') ++ map sid (round_lost r ++ lost') ++ h' h) ->
  sends sh' = sends (shared r) -> (forall s, s ∈ lost' -> s ∈ rest) ->
  round_inv rest alone sh0
    {| workers := <[w := st]> (workers r); claimed := claimed r; stopped := stop';
       round_lost := round_lost r ++ lost'; shared := sh' |}.
Proof.
  intros (new & held & HF & HE & HS & HC & HL & HA & H0) Hw Hne Hstep Hsends Hlost'.
  destruct (Forall2_lookup_l _ _ _ _ _ HF Hw) as (h & Hh & Hok).
  destruct (Hstep new h HE Hok) as (HE' & Hok' & HA').
  exists (new ++ new'), (<[w := h' h]> held). cbn. split_and!; [|done|congruence|done|..].
  - by apply Forall2_insert.
  - intros s [?|?]%elem_of_app; auto.
  - rewrite <- (app_nil_r (map sid (take _ _))). eapply account; [done..|]. by rewrite app_nil_r.
  - intros E0. destruct (H0 E0) as [_ Hall]. rewrite Forall_forall in Hall.
    destruct Hne. symmetry. apply Hall. by eapply list_elem_of_lookup_2.
Qed.

Lemma take_S_sid (rest : list Sample) n s :
  rest !! n = Some s -> take (S n) rest = take n rest ++ [s].
Proof. apply take_S_r. Qed.

Lemma round_claim_inv rest alone sh0 r w s p :
  round_inv rest alone sh0 r -> workers r !! w = Some WClaim -> rest !! claimed r = Some s ->
  engine [s] p ->
  round_inv rest alone sh0
    (set_worker w (WSend s p (new_send [s]))
      {| workers := workers r; claimed := S (claimed r); stopped := stopped r;
         round_lost := round_lost r; shared := log_send [s] alone (shared r) |}).
Proof.
  intros (new & held & HF & HE & HS & HC & HL & HA & H0) Hw Hs Hp.
  destruct (Forall2_lookup_l _ _ _ _ _ HF Hw) as (h & Hh & Hok). cbn in Hok. subst h.
  exists new, (<[w := [sid s]]> held). cbn. rewrite (take_S_sid _ _ _ Hs). split_and!; try done.
  - apply Forall2_insert; [done|]. cbn. split_and!; [by eapply list_elem_of_lookup_2|by eauto|done|].
    right. exists []. split; [apply new_send_ok|done].
  - by rewrite HS, map_app, <- app_assoc.
  - by apply lookup_lt_Some in Hs.
  - rewrite map_app. eapply account; [done..|]. cbn. by rewrite <- !app_assoc.
Qed.

Lemma round_no_claim_inv rest alone sh0 r w :
  rest <> [] -> round_inv rest alone sh0 r -> workers r !! w = Some WClaim ->
  rest !! claimed r = None \/ stopped r = true ->
  round_inv rest alone sh0 (set_worker w (WDone (Ok tt)) r).
Proof.
  intros Hrest (new & held & HF & HE & HS & HC & HL & HA & H0) Hw Hno.
  destruct (Forall2_lookup_l _ _ _ _ _ HF Hw) as (h & Hh & Hok). cbn in Hok. subst h.
  exists new, (<[w := []]> held). cbn. split_and!; [by apply Forall2_insert|done..| |].
  - rewrite <- (app_nil_r (map sid (take _ _))). eapply account; [done..|]. by rewrite app_nil_r.
  - intros E0. destruct (H0 E0) as [Hst _]. destruct Hno as [Hn|Hn]; [|congruence].
    rewrite E0 in Hn. by destruct rest.
Qed.

Lemma round_record_inv rest alone sh0 r w s at_ reading k ss stops_at a ss' sh' :
  round_inv rest alone sh0 r -> workers r !! w = Some (WSend s (Record_ at_ reading k) ss) ->
  record [s] alone at_ reading stops_at ss (shared r) = (a, ss', sh') ->
  round_inv rest alone sh0 (set_worker w (WSend s (k a) ss') (set_shared sh' r)).
Proof.
  intros Hinv Hw Hrec. pose proof Hinv as (new & held & HF & HE & _).
  destruct (Forall2_lookup_l _ _ _ _ _ HF Hw) as (h & Hh & Hok). cbn in Hok.
  destruct Hok as (Hin & Hp & Halone & [[e ?]|(mine & Hsend & Eh)]); [done|].
  inversion Hp as [|? ? ? Hk He]; subst.
  destruct (record_spec _ _ _ _ _ _ _ _ _ _ _ Hsend Hrec) as (Hs & Hlost & Ha).
  unfold set_worker, set_shared. cbn. rewrite <- (app_nil_r (round_lost r)).
  destruct a as [[]|e].
  - destruct Ha as (new' & HE' & Hsend').
    eapply (round_inv_worker _ _ _ _ _ _ _
      (fun _ => map sid (lost ss') ++ unflagged [s] (recorded ss')) new' []); [done|done|done| |done|set_solver].
    intros new0 h0 HE0 (_ & _ & _ & [[e ?]|(mine0 & Hsend0 & ->)]); [done|].
    split_and!; [by eapply extends_trans| |].
    + cbn. split_and!; [done|done| |].
      * intros E. by rewrite Hlost, Halone.
      * right. by exists (mine ++ new').
    + pose proof (ok_account _ _ _ Hsend) as A1. pose proof (ok_account _ _ _ Hsend') as A2.
      rewrite A1, map_app, <- app_assoc in A2. apply Permutation_app_inv_l in A2.
      rewrite app_nil_r, map_app, <- !app_assoc, A2. apply Permutation_app_head.
      rewrite !app_assoc. do 2 apply Permutation_app_tail. apply Permutation_app_comm.
  - destruct Ha as [HE' El]. destruct (He e) as [e' Ek]. rewrite Ek.
    eapply (round_inv_worker _ _ _ _ _ _ _ (fun h => h) [] []); [done|done|done| |done|set_solver].
    intros new0 h0 HE0 _. split_and!.
    + by eapply extends_trans.
    + cbn. split_and!; [done|constructor| |by left; eexists]. intros E. by rewrite El, Halone.
    + by rewrite !app_nil_r.
Qed.

(** A step that changes one worker and nothing else of the account. *)
Lemma round_move_inv rest alone sh0 r w old st (h' : list str -> list str) stop' :
  round_inv rest alone sh0 r -> workers r !! w = Some old -> old <> WClaim ->
  (forall h, worker_ok rest alone old h -> worker_ok rest alone st (h' h) /\ h' h = h) ->
  round_inv rest alone sh0
    {| workers := <[w := st]> (workers r); claimed := claimed r; stopped := stop';
       round_lost := round_lost r; shared := shared r |}.
Proof.
  intros Hinv Hw Hne Hst. rewrite <- (app_nil_r (round_lost r)).
  eapply (round_inv_worker _ _ _ _ _ _ _ h' [] []); [done|done|done| |done|set_solver].
  intros new h HE Hok. destruct (Hst h Hok) as [Hk E]. rewrite E in Hk |- *.
  by rewrite !app_nil_r.
Qed.

Lemma round_return_inv rest alone sh0 r w s a ss :
  round_inv rest alone sh0 r -> workers r !! w = Some (WSend s (Return a) ss) ->
  round_inv rest alone sh0
    (set_worker w
       match finish [s] a ss with
       | Err e => WFailed e
       | Ok [] => WClaim
       | Ok l => WDropped l
       end r).
Proof.
  intros Hinv Hw. apply (round_move_inv _ _ _ _ _ _ _ (fun h => h)) with (1 := Hinv) (2 := Hw); [done|].
  intros h (Hin & _ & Halone & Hok). split; [|done]. unfold finish.
  destruct a as [[]|e]; [|done]. destruct Hok as [[e ?]|(mine & [Hl Hlost _] & ->)]; [done|].
  destruct (first_unrecorded [s] (recorded ss)) eqn:Ef; [done|].
  rewrite (unflagged_none _ _ Hl Ef), app_nil_r.
  destruct (lost ss) as [|x l] eqn:El; [done|]. cbn. split_and!; [done| |done].
  intros y Hy. specialize (Hlost y Hy). apply list_elem_of_singleton in Hlost as ->. done.
Qed.

Lemma round_step_inv rest alone sh0 r r' :
  rest <> [] -> round_inv rest alone sh0 r -> round_step engine rest alone r r' ->
  round_inv rest alone sh0 r'.
Proof.
  intros Hrest Hinv Hstep. destruct Hstep as [r w s p Hw Hs _ Hp|r w Hw Hno|
    r w s at_ reading k ss stops_at a ss' sh' Hw Hrec|r w s a ss Hw|r w l Hw|r w l Hw|r w e Hw|
    r w s p ss Hw].
  - by apply round_claim_inv.
  - by apply round_no_claim_inv.
  - by eapply round_record_inv.
  - by apply round_return_inv.
  - by eapply (round_move_inv _ _ _ _ _ _ _ (fun h => h)) with (1 := Hinv) (2 := Hw).
  - eapply (round_inv_worker _ _ _ _ _ _ _ (fun _ => []) [] l) with (1 := Hinv) (2 := Hw); [done| |done|].
    + intros new h HE (-> & _). rewrite !app_nil_r, map_app. done.
    + destruct Hinv as (new & held & HF & _).
      by destruct (Forall2_lookup_l _ _ _ _ _ HF Hw) as (h & _ & _ & Hl & _).
  - by eapply (round_move_inv _ _ _ _ _ _ _ (fun h => h)) with (1 := Hinv) (2 := Hw).
  - by eapply (round_move_inv _ _ _ _ _ _ _ (fun h => h)) with (1 := Hinv) (2 := Hw).
Qed.

Lemma new_round_inv rest alone count sh r :
  new_round count sh r -> round_inv rest alone sh r.
Proof.
  intros ->. exists [], (replicate count []). cbn. rewrite take_0. split_and!; try done.
  - apply Forall2_replicate. done.
  - apply extends_refl.
  - by rewrite app_nil_r.
  - lia.
  - set_solver.
  - by induction count.
  - intros _. split; [done|]. by apply Forall_replicate.
Qed.

Lemma joined_ok ws held rest alone :
  joined ws = Some (Ok tt) -> Forall2 (worker_ok rest alone) ws held -> concat held = [].
Proof.
  intros Hj HF. induction HF as [|w h ws held Hw HF IH]; [done|].
  cbn in Hj. destruct w as [| | | | |[[]|e]]; try done; destruct (joined ws) as [r|]; try done.
  cbn in Hw. subst h. cbn. apply IH. by destruct r as [[]|].
Qed.

Lemma joined_not_claim ws r w : joined ws = Some r -> ws !! w <> Some WClaim.
Proof.
  revert r w. induction ws as [|x ws IH]; intros r [|w] Hj; try done; cbn in *.
  - by destruct x.
  - destruct x; try done. destruct (joined ws) as [r'|] eqn:E; [|done]. by apply (IH r').
Qed.

(** A round that ended: what was claimed was recorded or is lost, and something was claimed. *)
Lemma round_end_spec count rest sh r fin :
  rest <> [] -> round_ends engine count rest sh r fin ->
  (1 <= claimed fin <= length rest)%nat /\
  exists new alone, extends sh (shared fin) new /\
    sends (shared fin) = sends sh ++ map (fun s => ([s], alone)) (take (claimed fin) rest) /\
    (exists held, map sid (take (claimed fin) rest) ≡ₚ map id new ++ map sid (round_lost fin) ++ held) /\
    (r = Ok tt -> map sid (take (claimed fin) rest) ≡ₚ map id new ++ map sid (round_lost fin)).
Proof.
  intros Hrest [Hreach Hj].
  set (alone := (worker_count count rest =? 1)%nat) in Hreach.
  assert (round_inv rest alone sh fin) as (new & held & HF & HE & HS & HC & HL & HA & H0).
  { revert Hreach. apply reachable_invariant; [intros ?; apply new_round_inv|].
    intros ? ? Hi Hst. by eapply round_step_inv. }
  assert (length (workers fin) = worker_count count rest) as Hlen.
  { revert Hreach. apply (reachable_invariant _ _ (fun r => length (workers r) = worker_count count rest)).
    - intros ? ->. cbn. by rewrite length_replicate.
    - intros ? ? E Hst. destruct Hst; cbn; by rewrite length_insert. }
  split.
  - split; [|done]. destruct (claimed fin) eqn:E0; [|lia]. exfalso.
    destruct (H0 eq_refl) as [_ Hall]. destruct (workers fin) as [|x ws] eqn:Ew.
    + unfold worker_count in Hlen. destruct rest; [done|]. cbn in Hlen.
      destruct (Pos.to_nat count) eqn:Ep; [lia|done].
    + apply Forall_cons in Hall as [<- _]. by apply (joined_not_claim _ _ 0%nat Hj).
  - exists new, alone. split_and!; [done|done|by eexists|]. intros ->.
    by rewrite (joined_ok _ _ _ _ Hj HF), app_nil_r in HA.
Qed.

(** A round, and its lost samples again. *)
Lemma round_settled count rest sh r0 fin r sh1 :
  rest <> [] -> round_ends engine count rest sh r0 fin ->
  (match r0 with
   | Ok _ => settle engine (round_lost fin) (shared fin) r sh1
   | Err e => r = Err e /\ sh1 = shared fin
   end) ->
  run_spec (take (claimed fin) rest) sh r sh1.
Proof.
  intros Hrest (_ & n1 & alone & E1 & S1 & [held A1] & K1)%round_end_spec Hs; [|done].
  assert (forall l : list Sample, concat (map fst (map (fun s => ([s], alone)) l)) = l) as Hc
    by (induction l as [|x l IH]; cbn; by rewrite ?IH).
  destruct r0 as [[]|e].
  - apply settle_spec in Hs as (n2 & again & E2 & S2 & [more El] & M2 & K2). specialize (K1 eq_refl).
    exists (n1 ++ n2), (map (fun s => ([s], alone)) (take (claimed fin) rest)), again.
    rewrite Hc. split_and!.
    + by eapply extends_trans.
    + by rewrite S2, S1, <- app_assoc.
    + done.
    + rewrite K1, El, map_app. apply submseteq_inserts_l. by apply submseteq_inserts_r.
    + rewrite map_app, K1. by apply submseteq_skips_l.
    + intros ->. split; [done|]. by rewrite map_app, K1, K2.
  - destruct Hs as [-> ->].
    exists n1, (map (fun s => ([s], alone)) (take (claimed fin) rest)), []. rewrite Hc.
    split_and!; [done|by rewrite S1, app_nil_r|done|apply submseteq_nil_l| |done].
    rewrite A1. by apply submseteq_inserts_r.
Qed.

Lemma pool_spec count rest sh r sh' : pool engine count rest sh r sh' -> run_spec rest sh r sh'.
Proof.
  induction 1 as [sh|rest sh e fin Hrest Hr|rest sh fin e sh1 Hrest Hr Hs|
    rest sh fin sh1 r sh2 Hrest Hr Hs _ IH]; [apply run_spec_nil|..];
    rewrite <- (take_drop (claimed fin) rest).
  - apply run_spec_err. by eapply round_settled.
  - apply run_spec_err. by eapply round_settled.
  - eapply run_spec_app; [|exact IH]. by eapply round_settled.
Qed.

Lemma run_samples_spec in_flight pending sh r sh' :
  run_samples engine in_flight pending sh r sh' -> run_spec pending sh r sh'.
Proof.
  destruct in_flight as [size|count]; cbn; [|apply pool_spec].
  intros Hb%batch_groups_spec. rewrite chunks_concat in Hb by lia. done.
Qed.

(** C3: Every pending sample is recorded exactly once. However a cell's attempts interleave
    and whatever its engine records, a run never gives a sample two rows; if it succeeds,
    every sample has one. Each sample is in one first attempt, and only one lost beside
    others is sent a second time, in an attempt that carries it alone. *)
Theorem samples_recorded_exactly_once in_flight pending sh r sh' :
  NoDup (map sid pending) -> run_samples engine in_flight pending sh r sh' ->
  exists new firsts again,
    rows sh' = rows sh ++ new /\ NoDup (map id new) /\
    (forall row, row ∈ new -> id row ∈ map sid pending) /\
    sends sh' ≡ₚ sends sh ++ firsts ++ map (fun s => ([s], true)) again /\
    NoDup (map sid (concat (map fst firsts))) /\
    NoDup (map sid again) /\ (forall s, s ∈ again -> sid s ∈ map sid (concat (map fst firsts))) /\
    (r = Ok tt -> map id new ≡ₚ map sid pending /\ concat (map fst firsts) ≡ₚ pending).
Proof.
  intros Hn (new & firsts & again & [E _] & Hs & Hf & Ha & Hr & Hok)%run_samples_spec.
  assert (forall l k : list str, l ⊆+ k -> NoDup k -> NoDup l /\ forall x, x ∈ l -> x ∈ k) as Hsub.
  { intros l k Hl Hk. apply submseteq_Permutation in Hl as [k' Hp]. rewrite Hp in Hk.
    split; [by apply NoDup_app in Hk as [? _]|]. intros x Hx. rewrite Hp. set_solver. }
  assert (map sid (concat (map fst firsts)) ⊆+ map sid pending) as Hf' by by apply fmap_submseteq.
  destruct (Hsub _ _ Hf' Hn) as [Nf _]. destruct (Hsub _ _ Ha Nf) as [Na Hin].
  destruct (Hsub _ _ Hr Hn) as [Nr Hinr].
  exists new, firsts, again. split_and!; try done.
  - intros row Hrow. apply Hinr, list_elem_of_fmap. by exists row.
  - intros s Hs'. apply Hin, list_elem_of_fmap. by exists s.
  - intros Er. by destruct (Hok Er).
Qed.

(** *** Termination *)

Fixpoint prog_size (p : Prog) : nat :=
  match p with
  | Return _ => 0
  | Record_ _ _ k => S (prog_size (k (Ok tt)))
  end.

Definition weight (w : WorkerState) : nat :=
  match w with
  | WClaim => 1
  | WSend _ p _ => 5 + prog_size p
  | WDropped _ => 3
  | WLose _ => 2
  | WFailed _ => 1
  | WDone _ => 0
  end.

Lemma weight_insert ws w old st :
  ws !! w = Some old -> (weight st < weight old)%nat ->
  (sum_list_with weight (<[w := st]> ws) < sum_list_with weight ws)%nat.
Proof.
  revert w. induction ws as [|x ws IH]; intros [|w] Hw Hlt; try done.
  - cbn in *. simplify_eq. lia.
  - change (<[S w := st]> (x :: ws)) with (x :: <[w := st]> ws). cbn [sum_list_with].
    specialize (IH w Hw Hlt). lia.
Qed.

(** A step claims one more sample, or brings a worker nearer to its end. *)
Lemma round_step_decreases rest alone sh0 r r' :
  round_inv rest alone sh0 r -> round_step engine rest alone r r' ->
  (length rest - claimed r' < length rest - claimed r)%nat \/
  (claimed r' = claimed r /\
   (sum_list_with weight (workers r') < sum_list_with weight (workers r))%nat).
Proof.
  intros (new & held & HF & _) Hstep. destruct Hstep as [r w s p Hw Hs _ Hp|r w Hw Hno|
    r w s at_ reading k ss stops_at a ss' sh' Hw Hrec|r w s a ss Hw|r w l Hw|r w l Hw|r w e Hw|
    r w s p ss Hw]; cbn [claimed workers set_worker set_shared stop_claims];
    [left; apply lookup_lt_Some in Hs; lia|right; (split; [done|]); (eapply weight_insert; [exact Hw|])..];
    cbn [weight prog_size]; try lia.
  - destruct (Forall2_lookup_l _ _ _ _ _ HF Hw) as (h & _ & _ & Hp & _).
    inversion Hp as [|? ? ? Hk He]; subst. destruct a as [[]|e]; [lia|].
    destruct (He e) as [e' ->]. cbn. lia.
  - repeat case_match; cbn; lia.
Qed.

Lemma round_acc rest alone sh0 r :
  rest <> [] -> round_inv rest alone sh0 r ->
  Acc (fun r2 r1 => round_step engine rest alone r1 r2) r.
Proof.
  intros Hrest. remember (length rest - claimed r)%nat as n eqn:En. revert r En.
  induction n as [n IHn] using lt_wf_ind. intros r.
  remember (sum_list_with weight (workers r)) as m eqn:Em. revert r Em.
  induction m as [m IHm] using lt_wf_ind. intros r Em En Hinv. constructor. intros r' Hstep.
  pose proof (round_step_inv _ _ _ _ _ Hrest Hinv Hstep) as Hinv'.
  destruct (round_step_decreases _ _ _ _ _ Hinv Hstep) as [Hlt|[Ec Hlt]].
  - eapply IHn; [|done|done]. lia.
  - eapply IHm; [|done| |done]; [lia|]. by rewrite Ec.
Qed.

Context (engine_total : forall g, exists p, engine g p).

Lemma round_progress rest alone r :
  joined (workers r) = None -> exists r', round_step engine rest alone r r'.
Proof.
  intros Hj. assert (exists w st, workers r !! w = Some st /\ forall a, st <> WDone a) as (w & st & Hw & Hst).
  { revert Hj. induction (workers r) as [|x ws IH]; [done|]. cbn. intros Hj.
    destruct x as [| | | | |a].
    1-5: by eexists 0%nat, _.
    destruct (joined ws) as [b|]; [by destruct a|].
    destruct (IH eq_refl) as (w & st & Hw & Hst). by exists (S w), st. }
  destruct st as [|s p ss|l|l|e|a]; [| | | | |by destruct (Hst a)].
  - destruct (rest !! claimed r) as [s|] eqn:Es; [|eexists; apply round_no_claim; eauto].
    destruct (stopped r) eqn:Est; [eexists; apply round_no_claim; eauto|].
    destruct (engine_total [s]) as [p Hp]. eexists. by eapply round_claim.
  - destruct p as [a|at_ reading k]; [eexists; by eapply round_return|].
    destruct (record [s] alone at_ reading None ss (shared r)) as [[a ss'] sh'] eqn:E.
    eexists. by eapply round_record.
  - eexists. by eapply round_stop_lost.
  - eexists. by eapply round_lose.
  - eexists. by eapply round_stop_failed.
Qed.

Lemma round_finishes rest alone sh0 r :
  rest <> [] -> round_inv rest alone sh0 r -> reachable (eq r) (round_step engine rest alone) r ->
  exists fin a, reachable (eq r) (round_step engine rest alone) fin /\ joined (workers fin) = Some a.
Proof.
  intros Hrest Hinv. generalize (eq_refl r) as E0. generalize r at 1 3 5 as r0. intros r0 E0 Hreach.
  clear E0. pose proof (round_acc _ _ _ _ Hrest Hinv) as Hacc. revert Hinv Hreach.
  induction Hacc as [r _ IH]. intros Hinv Hreach.
  destruct (joined (workers r)) as [a|] eqn:Ej; [by exists r, a|].
  destruct (round_progress rest alone r Ej) as [r' Hstep].
  apply (IH r'); [done|by eapply round_step_inv|by eapply reach_step].
Qed.

Lemma round_total count rest sh :
  rest <> [] -> exists a fin, round_ends engine count rest sh a fin.
Proof.
  intros Hrest. set (n := worker_count count rest). set (alone := (n =? 1)%nat).
  set (r0 := {| workers := replicate n WClaim; claimed := 0; stopped := false; round_lost := [];
                shared := sh |}).
  destruct (round_finishes rest alone sh r0 Hrest) as (fin & a & Hreach & Hj).
  - by apply (new_round_inv _ _ n).
  - by apply reach_init.
  - exists a, fin. split; [|done]. clear Hj.
    induction Hreach as [r E|r r' _ IH Hstep]; [by apply reach_init|by eapply reach_step].
Qed.

Lemma run_prog_total group alone p ss sh :
  exists r ss' sh', run_prog group alone p ss sh r ss' sh'.
Proof.
  revert ss sh. induction p as [a|at_ reading k IH]; intros ss sh; [eexists _, _, _; constructor|].
  destruct (record group alone at_ reading None ss sh) as [[a ss1] sh1] eqn:E.
  destruct (IH a ss1 sh1) as (r & ss2 & sh2 & Hrun). eexists _, _, _. by econstructor.
Qed.

Lemma send_total group alone sh : exists r sh', send engine group alone sh r sh'.
Proof.
  destruct (engine_total group) as [p Hp].
  destruct (run_prog_total group alone p (new_send group) (log_send group alone sh))
    as (r & ss & sh' & Hrun).
  eexists _, _. by econstructor.
Qed.

Lemma settle_total l sh : exists r sh', settle engine l sh r sh'.
Proof.
  revert sh. induction l as [|s l IH]; intros sh; [eexists _, _; constructor|].
  destruct (send_total [s] true sh) as ([l'|e] & sh1 & Hs).
  - destruct (IH sh1) as (r & sh2 & Hr). eexists _, _. by eapply settle_ok.
  - eexists _, _. by eapply settle_err.
Qed.

Lemma pool_total count rest sh : exists r sh', pool engine count rest sh r sh'.
Proof.
  remember (length rest) as n eqn:En. revert rest En sh.
  induction n as [n IH] using lt_wf_ind. intros rest En sh.
  destruct (decide (rest = [])) as [->|Hrest]; [eexists _, _; constructor|].
  destruct (round_total count rest sh Hrest) as ([[]|e] & fin & Hr);
    [|eexists _, _; by eapply pool_round_err].
  destruct (settle_total (round_lost fin) (shared fin)) as ([[]|e] & sh1 & Hs);
    [|eexists _, _; by eapply pool_settle_err].
  destruct (round_end_spec _ _ _ _ _ Hrest Hr) as [Hc _].
  destruct (IH (length (drop (claimed fin) rest)) ltac:(rewrite length_drop; lia) _ eq_refl sh1)
    as (r & sh2 & Hp).
  eexists _, _. by eapply pool_next.
Qed.

Lemma batch_groups_total gs sh : exists r sh', batch_groups engine gs sh r sh'.
Proof.
  revert sh. induction gs as [|g gs IH]; intros sh; [eexists _, _; constructor|].
  destruct (send_total g (length g =? 1)%nat sh) as ([l|e] & sh1 & Hs);
    [|eexists _, _; by eapply batch_send_err].
  destruct (settle_total l sh1) as ([[]|e] & sh2 & Hr); [|eexists _, _; by eapply batch_settle_err].
  destruct (IH sh2) as (r & sh3 & Hg). eexists _, _. by eapply batch_next.
Qed.

(** A run of samples ends. No schedule of a round's workers goes on for ever, and none is
    stuck before every worker is over - no claim, loss or error leaves a thread waiting -
    each round claims a sample at least, and so the run returns. *)
Theorem run_samples_ends count rest sh :
  rest <> [] ->
  let alone := (worker_count count rest =? 1)%nat in
  (forall r, reachable (new_round (worker_count count rest) sh) (round_step engine rest alone) r ->
     Acc (fun r2 r1 => round_step engine rest alone r1 r2) r /\
     (joined (workers r) = None -> exists r', round_step engine rest alone r r')) /\
  (forall a fin, round_ends engine count rest sh a fin -> (1 <= claimed fin)%nat) /\
  (forall in_flight, exists a sh', run_samples engine in_flight rest sh a sh').
Proof.
  intros Hrest alone. split_and!.
  - intros r Hreach. split; [|apply round_progress].
    apply (round_acc _ _ sh); [done|]. revert Hreach.
    apply reachable_invariant; [intros ?; apply new_round_inv|].
    intros ? ? Hi Hst. by eapply round_step_inv.
  - intros a fin Hr. by destruct (round_end_spec _ _ _ _ _ Hrest Hr) as [[? _] _].
  - intros [size|workers]; [apply batch_groups_total|apply pool_total].
Qed.
End Attempts.

(** ** Cells *)

Lemma pending_from_spec settled samples seen :
  NoDup (map sid (pending_from settled samples seen)) /\
  (forall i, i ∈ map sid (pending_from settled samples seen) <->
     i ∈ map sid samples /\ settled i = false /\ i ∉ seen) /\
  (forall s, s ∈ pending_from settled samples seen -> s ∈ samples).
Proof.
  revert seen. induction samples as [|s samples IH]; intros seen; cbn [pending_from map].
  { split_and!; [constructor|set_solver|set_solver]. }
  destruct (negb (settled (sid s)) && negb (bool_decide (sid s ∈ seen))) eqn:E.
  - apply andb_true_iff in E as [E1%negb_true_iff E2]. bool_to_prop.
    destruct (IH ({[sid s]} ∪ seen)) as (Hn & Hi & Hs). cbn [map]. split_and!.
    + apply NoDup_cons. split; [|done]. rewrite Hi. set_solver.
    + intros i. rewrite !elem_of_cons, Hi. split; [|destruct (decide (i = sid s)); set_solver].
      intros [->|?]; set_solver.
    + intros x [->|Hx]%elem_of_cons; set_solver.
  - destruct (IH seen) as (Hn & Hi & Hs). split_and!; [done| |set_solver].
    intros i. rewrite Hi, elem_of_cons. split; [set_solver|]. intros ([->|?] & Hst & Hns); [|set_solver].
    rewrite Hst in E. cbn in E. by rewrite bool_decide_false in E.
Qed.

Lemma pending_spec samples s retry_failed :
  NoDup (map sid (pending samples s retry_failed)) /\
  forall i, i ∈ map sid (pending samples s retry_failed) <->
    i ∈ map sid samples /\
    (i ∉ done_ids s \/ retry_failed = true /\ i ∈ (failure_split MAX_SAMPLE_ATTEMPTS s).1).
Proof.
  unfold pending. edestruct pending_from_spec as (Hn & Hi & _). split; [exact Hn|].
  intros i. rewrite Hi. unfold EvalStore.contains.
  destruct retry_failed; rewrite andb_false_iff, negb_false_iff, bool_decide_eq_false,
    bool_decide_eq_true; set_solver.
Qed.

Lemma records_row s rs s' i :
  records s rs s' -> session_wf s -> i ∉ map id rs ->
  row_of i (completions s') = row_of i (completions s).
Proof.
  induction 1 as [|s r rs s' _ IH|s r rs s' _ IH]; cbn [map]; intros Hs Hi; [done|..];
    apply not_elem_of_cons in Hi as [Hr Hi]; rewrite IH by auto using appended_wf, record_unfit_wf.
  - unfold appended. rewrite (wf_count s Hs), take_out_spec by apply Hs. cbn [completions].
    by rewrite row_of_snoc, decide_False.
  - unfold record_unfit. rewrite (wf_count s Hs), take_out_spec by apply Hs. cbn [completions].
    by rewrite row_of_snoc, decide_False.
Qed.

Lemma done_rows s i : session_wf s -> i ∈ done_ids s <-> i ∈ map id (completions s).
Proof. intros Hs. by rewrite (wf_done s Hs), elem_of_list_to_set. Qed.

(** A set of ids within a list as long as the set is all of the list. *)
Lemma full_cover (ids : gset str) (l : list str) :
  NoDup l -> (forall i, i ∈ ids -> i ∈ l) -> length l = size ids -> forall i, i ∈ l -> i ∈ ids.
Proof.
  intros Hn Hsub Hlen i Hi.
  assert (ids ⊆ (list_to_set l : gset str)) as Hs by set_solver.
  assert (size (list_to_set l : gset str) = size ids) as Hsz by by rewrite size_list_to_set.
  assert (ids ≡ (list_to_set l : gset str)) as ->; [|by apply elem_of_list_to_set].
  apply set_subseteq_size_equiv; [done|lia].
Qed.

Section Cells.
Context `{EvalSerde} (engine : list Sample -> Prog -> Prop).
Context (engine_honest : forall g p, engine g p -> honest p).

Lemma run_cell_spec samples in_flight retry_failed sh total sh' :
  session_wf (checkpoint sh) ->
  run_cell engine samples in_flight retry_failed sh (Ok total) sh' ->
  exists ss new, dataset samples = Ok ss /\ total = distinct_ids ss /\
    session_wf (checkpoint sh') /\ records (checkpoint sh) new (checkpoint sh') /\
    map id new ≡ₚ map sid (pending ss (checkpoint sh) retry_failed) /\
    done_ids (checkpoint sh') = done_ids (checkpoint sh) ∪ list_to_set (map sid ss).
Proof.
  intros Hwf Hrun. inversion Hrun as [|ss r sh1 Hd Hs Er]; subst. destruct r as [[]|e]; [|done].
  apply run_samples_spec in Hs as (new & firsts & again & [_ Hrec] & _ & _ & _ & _ & Hok);
    [|exact engine_honest].
  destruct (Hok eq_refl) as [_ Hnew]. exists ss, new.
  split_and!; [done|by simplify_eq|by eapply records_wf|done|done|].
  rewrite (records_done _ _ _ Hrec). apply set_eq. intros i.
  rewrite !elem_of_union, !elem_of_list_to_set, Hnew.
  rewrite (proj2 (pending_spec ss (checkpoint sh) retry_failed) i).
  destruct (decide (i ∈ done_ids (checkpoint sh))); naive_solver.
Qed.

(** A resumed evaluation keeps what it had. When [eval] succeeds, every sample of the
    dataset has exactly one row in the result, new rows are only those of samples the
    checkpoint did not carry, and the rows it carried are as they were. *)
Theorem eval_resumes samples in_flight sh out sh' :
  session_wf (checkpoint sh) -> eval engine samples in_flight sh (Ok out) sh' ->
  exists ss, dataset samples = Ok ss /\ NoDup (map id out) /\
    (forall i, i ∈ map sid ss -> i ∈ map id out) /\
    (forall i, i ∈ map id out -> i ∈ map sid ss \/ i ∈ done_ids (checkpoint sh)) /\
    (forall i, i ∈ done_ids (checkpoint sh) -> row_of i out = row_of i (completions (checkpoint sh))).
Proof.
  intros Hwf He. inversion He as [total sh1 Hrun E|]; subst.
  apply run_cell_spec in Hrun as (ss & new & Hd & _ & Hwf' & Hrec & Hnew & Hdone); [|done].
  exists ss. split_and!; [done|apply Hwf'|..].
  - intros i Hi. apply done_rows; [done|]. rewrite Hdone. set_solver.
  - intros i Hi%done_rows; [|done]. rewrite Hdone in Hi. set_solver.
  - intros i Hi. eapply records_row; [done|done|]. rewrite Hnew.
    rewrite (proj2 (pending_spec ss (checkpoint sh) false) i). naive_solver.
Qed.

(** A published cell answers every sample. When [eval_complete] succeeds, the result has
    exactly one row for each distinct id of the dataset and no other, and none of them
    failed unless the operator's waiver is set. *)
Theorem eval_complete_answers_all env samples in_flight sh out sh' :
  session_wf (checkpoint sh) -> eval_complete engine env samples in_flight sh (Ok out) sh' ->
  exists ss, dataset samples = Ok ss /\ NoDup (map id out) /\
    (forall i, i ∈ map id out <-> i ∈ map sid ss) /\
    (affirmative env = true \/ forall c, c ∈ out -> failed c = false).
Proof.
  intros Hwf He. inversion He as [total sh1 Hrun E|]; subst.
  apply run_cell_spec in Hrun as (ss & new & Hd & -> & Hwf' & _ & _ & Hdone); [|done].
  destruct (ensure_complete env (checkpoint sh') (distinct_ids ss)) as [[]|e] eqn:Ec; [|done].
  simplify_eq. unfold ensure_complete in Ec. apply check_complete_Ok in Ec as [Hlen Hok]; [|done].
  exists ss. split_and!; [done|apply Hwf'| |naive_solver].
  assert (forall i, i ∈ map sid ss -> i ∈ map id (completions (checkpoint sh'))) as Hsub.
  { intros i Hi. apply done_rows; [done|]. rewrite Hdone. set_solver. }
  intros i. split; [|apply Hsub]. intros Hi.
  apply (full_cover (list_to_set (map sid ss)) (map id (completions (checkpoint sh')))) in Hi.
  - by apply elem_of_list_to_set in Hi.
  - apply Hwf'.
  - intros j Hj%elem_of_list_to_set. by apply Hsub.
  - by rewrite length_map.
Qed.

(** *** Chunks *)

(** The positions left to read, ascending, each with its id; the others are settled. *)
Lemma chunked_pending_spec s declared id_at :
  StronglySorted lt (map fst (chunked_pending s declared id_at)) /\
  (forall p i, (p, i) ∈ chunked_pending s declared id_at -> i = id_at p /\ (p < declared)%nat) /\
  (forall p, (p < declared)%nat -> (p, id_at p) ∈ chunked_pending s declared id_at \/
     id_at p ∈ done_ids s).
Proof.
  unfold chunked_pending. set (P := fun pi : nat * str => _). split_and!.
  - generalize 0%nat as from. induction declared as [|n IH]; intros from; [constructor|].
    cbn [seq map List.filter]. destruct (P (from, id_at from)); [|apply IH].
    cbn [map fst]. constructor; [apply IH|]. apply Forall_forall.
    intros x (pi & -> & Hpi)%list_elem_of_fmap.
    apply list_elem_of_In, filter_In in Hpi as [Hpi _]. apply in_map_iff in Hpi as (y & <- & Hy).
    apply in_seq in Hy. cbn. lia.
  - intros p i Hpi. apply list_elem_of_In, filter_In in Hpi as [Hpi _].
    apply in_map_iff in Hpi as (y & [= <- <-] & Hy). apply in_seq in Hy. split; [done|lia].
  - intros p Hp. destruct (P (p, id_at p)) eqn:E.
    + left. apply list_elem_of_In, filter_In. split; [|done]. apply in_map_iff. exists p.
      split; [done|]. apply in_seq. lia.
    + right. unfold P, EvalStore.contains in E. cbn in E. bool_to_prop. done.
Qed.

Lemma partition_point_spec end_ (todo : list (nat * str)) :
  StronglySorted lt (map fst todo) ->
  forall k p i, todo !! k = Some (p, i) -> (k < partition_point end_ todo)%nat <-> (p < end_)%nat.
Proof.
  induction todo as [|[q j] todo IH]; intros Hs k p i Hk; [done|]. cbn in Hs.
  apply StronglySorted_inv in Hs as [Hs Hq]. cbn [partition_point].
  destruct (Nat.ltb_spec q end_) as [Hlt|Hge].
  - destruct k as [|k]; cbn in Hk; [simplify_eq; lia|]. rewrite <- (IH Hs k p i Hk). lia.
  - split; [lia|]. intros Hp. destruct k as [|k]; cbn in Hk; [simplify_eq; lia|].
    rewrite Forall_forall in Hq. specialize (Hq p). assert (q < p)%nat; [|lia].
    apply Hq, list_elem_of_fmap. exists (p, i). split; [done|]. by eapply list_elem_of_lookup_2.
Qed.

Lemma sorted_lookup (l : list nat) i j x y :
  StronglySorted lt l -> (i < j)%nat -> l !! i = Some x -> l !! j = Some y -> (x < y)%nat.
Proof.
  intros Hs. revert i j. induction Hs as [|z l Hs IH Hz]; intros i [|j] Hij Hi Hj; [done|done|lia|].
  destruct i as [|i]; cbn in *; [|by apply (IH i j); [lia|..]].
  simplify_eq. rewrite Forall_forall in Hz. apply Hz. by eapply list_elem_of_lookup_2.
Qed.

Lemma first_stray_none id_at offset rows k row :
  first_stray id_at offset rows = None -> rows !! k = Some row -> row_id row = id_at (offset + k)%nat.
Proof.
  revert offset k. induction rows as [|x rows IH]; intros offset [|k] Hf Hk; try done; cbn in *;
    destruct (str_eqb (row_id x) (id_at offset)) eqn:E; try done; apply str_eqb_eq in E.
  - simplify_eq. by rewrite Nat.add_0_r.
  - rewrite (IH (S offset) k Hf Hk). f_equal. lia.
Qed.

Context (declared : nat) (id_at : nat -> str) (in_flight : EvalMeasurementInFlight).
Context (chunk : nat -> result (list EvalSample) str -> Prop) (todo : list (nat * str)).
Context (todo_sorted : StronglySorted lt (map fst todo)).
Context (todo_ids : forall p i, (p, i) ∈ todo -> i = id_at p /\ (p < declared)%nat).

(** A chunk's rows are those of its positions, so each position to read is sent. *)
Lemma chunk_pending_has rows offset k p i :
  todo !! k = Some (p, i) -> (offset <= p < offset + length rows)%nat ->
  first_stray id_at offset rows = None ->
  i ∈ map sid (chunk_pending declared todo rows offset).
Proof.
  intros Hk Hp Hf. destruct (todo_ids p i ltac:(by eapply list_elem_of_lookup_2)) as [-> _].
  destruct (lookup_lt_is_Some_2 rows (p - offset)%nat ltac:(lia)) as [row Hrow].
  pose proof (first_stray_none _ _ _ _ _ Hf Hrow) as Hid.
  replace (offset + (p - offset))%nat with p in Hid by lia.
  apply list_elem_of_fmap. exists (chat_sample offset declared (p - offset) row). cbn.
  split; [done|]. apply list_elem_of_In, filter_In. split.
  - apply list_elem_of_In, elem_of_lookup_imap. eauto.
  - cbn. apply bool_decide_eq_true, elem_of_list_to_set, list_elem_of_fmap. rewrite Hid.
    exists (p, id_at p). split; [done|]. by eapply list_elem_of_lookup_2.
Qed.

(** From a cursor on, the loop reads ascending positions of [todo], and if it ends well,
    each id of [todo] from there on has a row. *)
Lemma chunk_loop_spec cursor sh r offsets sh' :
  chunk_loop engine declared id_at in_flight chunk todo cursor sh r offsets sh' ->
  session_wf (checkpoint sh) ->
  session_wf (checkpoint sh') /\ done_ids (checkpoint sh) ⊆ done_ids (checkpoint sh') /\
  StronglySorted lt offsets /\
  (forall o, o ∈ offsets -> exists k, (cursor <= k)%nat /\ fst <$> todo !! k = Some o) /\
  (length offsets <= length todo - cursor)%nat /\
  (r = Ok tt -> forall k p i, (cursor <= k)%nat -> todo !! k = Some (p, i) ->
     i ∈ done_ids (checkpoint sh')).
Proof.
  assert (forall c0 offset (i : str), todo !! c0 = Some (offset, i) ->
    StronglySorted lt [offset] /\
    (forall o, o ∈ [offset] -> exists k, (c0 <= k)%nat /\ fst <$> todo !! k = Some o) /\
    (length [offset] <= length todo - c0)%nat) as Hone.
  { intros c0 offset i Hc. split_and!.
    - repeat constructor.
    - intros o ->%list_elem_of_singleton. exists c0. rewrite Hc. cbn. by split.
    - apply lookup_lt_Some in Hc. cbn. lia. }
  induction 1 as [cursor sh Hc|cursor sh offset i e Hc|cursor sh offset i Hc|cursor sh offset i rows Hc|
    cursor sh offset i rows position row Hc|cursor sh offset i rows e sh' Hc _ _ _ _ _ Hrun|
    cursor sh offset i rows sh1 r offsets sh2 Hc Hchunk Hne Hend Hstray Hrun _ IH]; intros Hwf;
    try (destruct (Hone _ _ _ Hc) as (? & ? & ?); split_and!; done).
  - split_and!; [done|done|constructor|set_solver|cbn; lia|].
    intros _ k p j Hk Hj. apply lookup_ge_None in Hc. apply lookup_lt_Some in Hj. lia.
  - destruct (Hone _ _ _ Hc) as (? & ? & ?).
    apply run_samples_spec in Hrun as (new & firsts & again & [_ Hrec] & _); [|exact engine_honest].
    split_and!; try done; [by eapply records_wf|]. rewrite (records_done _ _ _ Hrec). set_solver.
  - set (end_ := (offset + length rows)%nat) in *.
    assert (session_wf (checkpoint sh1) /\ done_ids (checkpoint sh) ⊆ done_ids (checkpoint sh1) /\
      forall j, j ∈ map sid (chunk_pending declared todo rows offset) -> j ∈ done_ids (checkpoint sh1))
      as (Hwf1 & Hmono & Hdone).
    { destruct Hrun as [[-> ->]|[_ Hrun]]; [set_solver|].
      apply run_samples_spec in Hrun as (new & firsts & again & [_ Hrec] & _ & _ & _ & _ & Hok);
        [|exact engine_honest].
      rewrite (records_done _ _ _ Hrec). split_and!; [by eapply records_wf|set_solver|].
      intros j Hj. destruct (Hok eq_refl) as [_ Hnew]. apply elem_of_union_l, elem_of_list_to_set.
      by rewrite Hnew. }
    destruct (IH Hwf1) as (Hwf2 & Hmono2 & Hsort & Hoff & Hlen & Hok).
    assert (0 < length rows)%nat by (destruct rows; [done|cbn; lia]).
    assert (cursor < partition_point end_ todo)%nat as Hadv.
    { apply (partition_point_spec end_ todo todo_sorted cursor offset i Hc). unfold end_. lia. }
    split_and!; [done|set_solver|..].
    + constructor; [done|]. apply Forall_forall. intros o Ho.
      destruct (Hoff o Ho) as (k & Hk & Ek).
      destruct (todo !! k) as [[p j]|] eqn:Ep; cbn in Ek; [|done]. injection Ek as <-.
      pose proof (partition_point_spec end_ todo todo_sorted k p j Ep). unfold end_ in *. lia.
    + intros o [->|Ho]%elem_of_cons.
      * exists cursor. rewrite Hc. cbn. by split.
      * destruct (Hoff o Ho) as (k & Hk & Ek). exists k. split; [lia|done].
    + cbn. apply lookup_lt_Some in Hc. lia.
    + intros Er k p j Hk Hj. destruct (decide (partition_point end_ todo <= k)%nat) as [Hle|Hgt].
      * by apply (Hok Er k p).
      * apply Hmono2, Hdone. eapply chunk_pending_has; [exact Hj| |done].
        pose proof (partition_point_spec end_ todo todo_sorted k p j Hj) as Hpp.
        split; [|unfold end_ in *; lia].
        destruct (decide (k = cursor)) as [->|Hkc]; [simplify_eq; done|].
        assert (map fst todo !! cursor = Some offset) as M1 by (by rewrite list_lookup_fmap, Hc).
        assert (map fst todo !! k = Some p) as M2 by (by rewrite list_lookup_fmap, Hj).
        assert (offset < p)%nat; [|lia].
        by apply (sorted_lookup (map fst todo) cursor k); [|lia|..].
Qed.
End Cells.

Section ChunkedCells.
Context `{EvalSerde} (engine : list Sample -> Prog -> Prop).
Context (engine_honest : forall g p, engine g p -> honest p).

(** C25: A chunked evaluation reads what is left, once, and answers every row. Whatever its
    chunks hold and its engine does, the offsets it reads from ascend, start at positions
    that were not settled when the checkpoint was opened, and are no more than those. When it
    succeeds, the result has a row for every declared position, as many as declared, and none
    failed, whatever the waiver says; with an id per position it has no other. *)
Theorem chunked_eval_answers_all env declared id_at chunk in_flight sh r offsets sh' :
  session_wf (checkpoint sh) ->
  eval_complete_chunked engine env declared id_at chunk in_flight sh r offsets sh' ->
  StronglySorted lt offsets /\
  (forall o, o ∈ offsets -> (o, id_at o) ∈ chunked_pending (checkpoint sh) declared id_at) /\
  (length offsets <= length (chunked_pending (checkpoint sh) declared id_at))%nat /\
  forall out, r = Ok out ->
    NoDup (map id out) /\ length out = declared /\
    (forall p, (p < declared)%nat -> id_at p ∈ map id out) /\
    (forall c, c ∈ out -> failed c = false) /\
    ((forall p q, (p < declared)%nat -> (q < declared)%nat -> id_at p = id_at q -> p = q) ->
     forall i, i ∈ map id out -> exists p, (p < declared)%nat /\ i = id_at p).
Proof.
  intros Hwf He. destruct (chunked_pending_spec (checkpoint sh) declared id_at) as (Hsort & Hids & Hall).
  set (todo := chunked_pending (checkpoint sh) declared id_at) in *.
  assert (exists a, chunk_loop engine declared id_at in_flight chunk todo 0 sh a offsets sh' /\
    (forall out, r = Ok out -> a = Ok tt /\ ensure_every_answer env (checkpoint sh') declared = Ok tt /\
       out = completions (checkpoint sh'))) as (a & Hloop & Hr).
  { destruct He as [offsets sh1 Hl|e offsets sh1 Hl]; eexists; (split; [exact Hl|]); [|done].
    intros out Eo. destruct (ensure_every_answer _ _ _) as [[]|]; by simplify_eq. }
  destruct (chunk_loop_spec engine engine_honest _ _ _ _ _ Hsort Hids _ _ _ _ _ Hloop Hwf)
    as (Hwf' & Hmono & Hso & Hoff & Hlen & Hok).
  split_and!; [done| |lia|].
  - intros o Ho. destruct (Hoff o Ho) as (k & _ & Ek).
    destruct (todo !! k) as [[p i]|] eqn:Ep; [|done]. cbn in Ek. injection Ek as <-.
    apply list_elem_of_lookup_2 in Ep. by destruct (Hids _ _ Ep) as [-> _].
  - intros out Eo. destruct (Hr out Eo) as (-> & Hcheck & ->).
    apply check_complete_Ok in Hcheck as [Hcount Hfailed]; [|done].
    assert (forall p, (p < declared)%nat -> id_at p ∈ map id (completions (checkpoint sh'))) as Hrows.
    { intros p Hp. apply done_rows; [done|]. destruct (Hall p Hp) as [Hin|Hin]; [|set_solver].
      apply list_elem_of_lookup in Hin as [k Hk]. by apply (Hok eq_refl k p (id_at p) ltac:(lia)). }
    split_and!; [apply Hwf'|done|done|naive_solver|].
    intros Hinj i Hi.
    apply (full_cover (list_to_set (map id_at (seq 0 declared))) (map id (completions (checkpoint sh')))) in Hi.
    + apply elem_of_list_to_set, list_elem_of_fmap in Hi as (p & -> & Hp%elem_of_seq). exists p. split; [lia|done].
    + apply Hwf'.
    + intros j (p & -> & Hp%elem_of_seq)%elem_of_list_to_set%list_elem_of_fmap. apply Hrows. lia.
    + rewrite length_map, size_list_to_set, length_map, length_seq; [done|].
      apply NoDup_fmap_2_strong; [|apply NoDup_seq].
      intros p q Hp%elem_of_seq Hq%elem_of_seq E. apply Hinj; [lia|lia|done].
Qed.
End ChunkedCells.

(** ** The heartbeat *)

(** Beats are an interval apart or more, and it beats for every poll that finds an interval
    gone; it ends at the first poll that reads the stop. *)
Lemma beats_apart interval ticks last_ :
  forall b rest, beat_until_stopped interval ticks last_ = b :: rest -> last_ + interval <= b.
Proof.
  revert last_. induction ticks as [|[[] now] ticks IH]; intros last_ b rest; cbn; try done.
  destruct (Z.ltb_spec (now - last_) interval); [apply IH|]. intros [= <- <-]. lia.
Qed.

(** ** A concrete engine *)

(** Records each sample of its group as completed, in order. *)
Fixpoint answer_all (from count : nat) : Prog :=
  match count with
  | O => Return (Ok tt)
  | S count =>
      Record_ from (Completed (lit "yes") Eos None (Some 1))
        (fun r => match r with Ok _ => answer_all (S from) count | Err _ => Return (Err []) end)
  end.

(** Loses its sample. *)
Definition lose_one : Prog :=
  Record_ 0 (Lost (lit "server gone"))
    (fun r => match r with Ok _ => Return (Ok tt) | Err _ => Return (Err []) end).

(** An engine that answers its group, or loses a lone sample. *)
Definition demo_engine (g : list Sample) (p : Prog) : Prop :=
  p = answer_all 0 (length g) \/ length g = 1%nat /\ p = lose_one.

Lemma answer_all_honest from count : honest (answer_all from count).
Proof.
  revert from. induction count as [|count IH]; intros from; cbn; constructor; [apply IH|].
  intros e. by eexists.
Qed.

Lemma demo_engine_honest g p : demo_engine g p -> honest p.
Proof.
  intros [->|[_ ->]]; [apply answer_all_honest|]. constructor; [constructor|]. intros e. by eexists.
Qed.

Lemma demo_engine_total g : exists p, demo_engine g p.
Proof. eexists. by left. Qed.

Definition demo_row (i : str) : Value :=
  Object [(lit "id", String i); (lit "messages", Array [])].

Definition demo_rows : option EvalRows := Some (RawRows [demo_row (lit "a"); demo_row (lit "b")]).

Definition demo_shared : Shared :=
  {| checkpoint := new_session (lit "p") [] ∅; files := ∅; sends := []; rows := [] |}.

Lemma demo_wf : session_wf (checkpoint demo_shared).
Proof. apply new_session_wf; [constructor|]. intros c Hc. by apply elem_of_nil in Hc. Qed.

Definition demo_samples : list Sample :=
  match dataset demo_rows with Ok l => l | Err _ => [] end.

Lemma send_intro `{EvalSerde} engine g alone sh p r ss sh' a :
  engine g p -> run_prog g alone p (new_send g) (log_send g alone sh) r ss sh' ->
  finish g r ss = a -> send engine g alone sh a sh'.
Proof. intros Hp Hrun <-. by eapply send_run. Qed.

(** The state after both samples were answered. *)
Definition demo_answer (i : str) : Row :=
  {| id := i; completion := lit "yes"; failed := false; failed_reason := None;
     stop_reason := Eos; stop_detail := None; completion_tokens := Some 1 |}.

Definition demo_after (i : str) (sh : Shared) : Shared :=
  (write_row (demo_answer i) None sh).2.

Definition demo_end : Shared :=
  demo_after (lit "b") (demo_after (lit "a") (log_send demo_samples false demo_shared)).

(** The whole dataset in one attempt. *)
Lemma demo_batch : run_samples demo_engine (Batch 2) demo_samples demo_shared (Ok tt) demo_end.
Proof.
  change (batch_groups demo_engine [demo_samples] demo_shared (Ok tt) demo_end).
  eapply batch_next; [|apply settle_nil|apply batch_nil].
  eapply (send_intro _ _ _ _ (answer_all 0 2)); [by left|..];
    [eapply (run_record _ _ _ _ _ None); [reflexivity|];
     eapply (run_record _ _ _ _ _ None); [reflexivity|]; apply run_return|reflexivity].
Qed.

Lemma samples_recorded_exactly_once_witness :
  exists new, rows demo_end = rows demo_shared ++ new /\ NoDup (map id new) /\
    map id new ≡ₚ map sid demo_samples.
Proof.
  destruct (samples_recorded_exactly_once demo_engine demo_engine_honest (Batch 2) demo_samples
    demo_shared (Ok tt) demo_end) as (new & firsts & again & E & Hn & _ & _ & _ & _ & _ & Hok).
  - vm_compute. repeat constructor; set_solver.
  - exact demo_batch.
  - exists new. split; [exact E|]. split; [exact Hn|]. apply (Hok eq_refl).
Defined.

Lemma run_samples_ends_witness :
  demo_samples <> [] /\
  exists a sh', run_samples demo_engine (Parallel 2) demo_samples demo_shared a sh'.
Proof.
  assert (demo_samples <> []) as Hne by (vm_compute; done). split; [exact Hne|].
  apply (run_samples_ends demo_engine demo_engine_honest demo_engine_total 2 demo_samples
    demo_shared Hne).
Defined.

Lemma demo_cell retry :
  run_cell demo_engine demo_rows (Batch 2) retry demo_shared (Ok 2%nat) demo_end.
Proof.
  apply (cell_run demo_engine demo_rows (Batch 2) retry demo_shared demo_samples (Ok tt) demo_end);
    [reflexivity|].
  replace (pending demo_samples (checkpoint demo_shared) retry) with demo_samples
    by (destruct retry; vm_compute; reflexivity).
  exact demo_batch.
Qed.

Lemma eval_resumes_witness :
  NoDup (map id (completions (checkpoint demo_end))) /\
  forall i, i ∈ map sid demo_samples -> i ∈ map id (completions (checkpoint demo_end)).
Proof.
  destruct (eval_resumes demo_engine demo_engine_honest demo_rows (Batch 2) demo_shared
    (completions (checkpoint demo_end)) demo_end demo_wf) as (ss & Hd & Hn & Hi & _).
  - eapply eval_ok. apply demo_cell.
  - split; [exact Hn|]. injection Hd as <-. exact Hi.
Defined.

Lemma eval_complete_answers_all_witness :
  NoDup (map id (completions (checkpoint demo_end))) /\
  forall i, i ∈ map id (completions (checkpoint demo_end)) <-> i ∈ map sid demo_samples.
Proof.
  destruct (eval_complete_answers_all demo_engine demo_engine_honest None demo_rows (Batch 2)
    demo_shared (completions (checkpoint demo_end)) demo_end demo_wf) as (ss & Hd & Hn & Hi & _).
  - assert (ensure_complete None (checkpoint demo_end) 2 = Ok tt) as E by (vm_compute; reflexivity).
    pose proof (complete_run demo_engine None demo_rows (Batch 2) demo_shared 2 demo_end
      (demo_cell true)) as Hc.
    rewrite E in Hc. exact Hc.
  - injection Hd as <-. exact (conj Hn Hi).
Defined.

(** Two positions in one chunk. *)
Definition demo_chat : list EvalSample :=
  [{| row_id := lit "a"; row_messages := []; row_chat_template_kwargs := None |};
   {| row_id := lit "b"; row_messages := []; row_chat_template_kwargs := None |}].

Definition demo_id (p : nat) : str := if (p =? 0)%nat then lit "a" else lit "b".

Definition demo_chunk (o : nat) (r : result (list EvalSample) str) : Prop :=
  o = 0%nat /\ r = Ok demo_chat.

Definition demo_chat_end : Shared :=
  demo_after (lit "b") (demo_after (lit "a") (log_send (chat_samples demo_chat 0 2) false demo_shared)).

Lemma chunked_eval_answers_all_witness :
  length (completions (checkpoint demo_chat_end)) = 2%nat /\
  forall p, (p < 2)%nat -> demo_id p ∈ map id (completions (checkpoint demo_chat_end)).
Proof.
  destruct (chunked_eval_answers_all demo_engine demo_engine_honest None 2 demo_id demo_chunk
    (Batch 2) demo_shared (Ok (completions (checkpoint demo_chat_end))) [0%nat] demo_chat_end demo_wf)
    as (_ & _ & _ & Hout).
  - assert (ensure_every_answer None (checkpoint demo_chat_end) 2 = Ok tt) as E
      by (vm_compute; reflexivity).
    pose proof (chunked_run demo_engine None 2 demo_id demo_chunk (Batch 2) demo_shared [0%nat]
      demo_chat_end) as Hc.
    rewrite E in Hc. apply Hc.
    eapply loop_next with (i := lit "a") (rows := demo_chat) (sh1 := demo_chat_end);
      [vm_compute; reflexivity|done|done|cbn; lia|vm_compute; reflexivity| |].
    + right. split; [vm_compute; done|].
      replace (chunk_pending _ _ _ _) with (chat_samples demo_chat 0 2) by (vm_compute; reflexivity).
      change (batch_groups demo_engine [chat_samples demo_chat 0 2] demo_shared (Ok tt) demo_chat_end).
      eapply batch_next; [|apply settle_nil|apply batch_nil].
      eapply (send_intro _ _ _ _ (answer_all 0 2)); [by left|..];
        [eapply (run_record _ _ _ _ _ None); [reflexivity|];
         eapply (run_record _ _ _ _ _ None); [reflexivity|]; apply run_return|reflexivity].
    + apply loop_end. vm_compute. reflexivity.
  - destruct (Hout _ eq_refl) as (_ & Hl & Hp & _). exact (conj Hl Hp).
Defined.
