(* ===== verification/EvalPool.v ===== *)
(** * The server an evaluation shares ([crates/pipette-llamacpp/src/eval_pool.rs])

    Every sample in flight talks to one [llama-server], behind a lock. A failed request asks
    what became of the server: it is sent again after a dropped connection, [Lost] when the
    server died under it, [Failed] when the server outlives a window of three seconds.
    [slot_server] starts a replacement after a crash.

    [arbitrate] and [slot_server] are what one holder of the lock does; they take what the
    process and the clock answer. [read_sample] and [failure_reading] call them over a world
    in which other threads change the slot at will ([PoolHost]). Last, the threads of a cell
    with their slot and servers are a step relation. *)

From Stdlib Require Import ZArith Lia String.
From stdpp Require Import prelude list gmap.
From S2P Require Import Prelude Str EvalStore EvalRun.

Local Open Scope Z_scope.

(** ** The slot *)

Inductive Server (P : Type) :=
| Up (process : P) (url : str)
| Down (process : P)
| RestartFailed.

Arguments Up {P} _ _.
Arguments Down {P} _.
Arguments RestartFailed {P}.

Record ServerSlot (P : Type) := { server : Server P; generation : Z }.

Arguments server {P} _.
Arguments generation {P} _.

(** A cause of an error's chain: a failed request of [pipette_http], or another. *)
Inductive Cause :=
| RequestCause (is_request is_connect is_timeout : bool) (text : str)
| OtherCause (text : str).

Definition cause_text (c : Cause) : str :=
  match c with
  | RequestCause _ _ _ t | OtherCause t => t
  end.

(** An [anyhow::Error]: its own text and its chain, outermost first. *)
Record SendError := { error_text : str; chain : list Cause }.

Definition is_dropped_connection (err : SendError) : bool :=
  existsb (fun c =>
    match c with
    | RequestCause request connect timeout _ => request && negb connect && negb timeout
    | OtherCause _ => false
    end) (chain err).

Definition root_cause (err : SendError) : str :=
  match last (chain err) with
  | Some c => cause_text c
  | None => error_text err
  end.

Definition build_crash_reason (observed_at status : str) (err : SendError) : str :=
  lit "[" ++ observed_at ++ lit "] llama-server crashed mid-completion: exit " ++ status
  ++ lit "; client saw: " ++ root_cause err.

Definition build_transport_failure_reason (observed_at endpoint : str) (err : SendError) : str :=
  lit "[" ++ observed_at ++ lit "] llama-server " ++ endpoint
  ++ lit " failed (server still alive): " ++ root_cause err.

Definition ALLOCATION_ASSERT : str := lit "tensor not allocated".

Definition is_allocation_failure (stderr : str) : bool := Str.contains stderr ALLOCATION_ASSERT.

Definition DROPPED_CONNECTION_RESENDS : nat := 2.
Definition CRASH_OBSERVATION_WINDOW : Z := from_secs 3.
Definition CRASH_POLL_INTERVAL : Z := from_millis 50.

Inductive Verdict :=
| RecordReading (reading : EvalMeasurementReading)
| Resend.

Inductive PoolError :=
| StartFailed (e : str)
| WaitFailed (e : str)
| AllocationFailure (stderr : str).

(** [slot_server] under the lock; [start] is called only for a server that is down. *)
Definition slot_server {P} (start : result (P * str) str) (slot : ServerSlot P)
    : result (option (str * Z)) PoolError * ServerSlot P :=
  match server slot with
  | Up _ url => (Ok (Some (url, generation slot)), slot)
  | RestartFailed => (Ok None, slot)
  | Down _ =>
      match start with
      | Err e =>
          (Err (StartFailed e), {| server := RestartFailed; generation := generation slot |})
      | Ok (p, url) =>
          let g := sat_add u64_max (generation slot) 1 in
          (Ok (Some (url, g)), {| server := Up p url; generation := g |})
      end
  end.

(** Which process a slot would wait for: the one the request went to, if it is still here. *)
Definition watched {P} (slot : ServerSlot P) (generation_ : Z) : option P :=
  match server slot with
  | Up p _ => if generation slot =? generation_ then Some p else None
  | _ => None
  end.

(** One pass of [arbitrate]: [waited] is what [wait] answers of the watched process, and
    [before] whether the deadline lies ahead. *)
Definition arbitrate {P} (slot : ServerSlot P) (generation_ : Z) (err : SendError)
    (resend : bool) (endpoint observed_at : str) (waited : P -> result (option str) str)
    (stderr_of : P -> str) (before : bool)
    : result (option Verdict) PoolError * ServerSlot P :=
  match watched slot generation_ with
  | None =>
      (Ok (Some (RecordReading (Lost
         (lit "llama-server went away mid-completion; client saw: " ++ root_cause err)))), slot)
  | Some p =>
      match waited p with
      | Err e => (Err (WaitFailed e), slot)
      | Ok None =>
          if before then (Ok None, slot)
          else if resend then (Ok (Some Resend), slot)
          else
            (Ok (Some (RecordReading
               (Failed (build_transport_failure_reason observed_at endpoint err)))), slot)
      | Ok (Some status) =>
          let slot := {| server := Down p; generation := generation slot |} in
          if is_allocation_failure (stderr_of p)
          then (Err (AllocationFailure (stderr_of p)), slot)
          else (Ok (Some (RecordReading (Lost (build_crash_reason observed_at status err)))), slot)
      end
  end.

(** ** A sample's thread *)

(** What a thread asks of the world. The slot may change between two calls. *)
Class PoolHost (W P : Type) := {
  now : W -> Z;
  utc_text : W -> str;
  sleep : Z -> W -> W;
  slot_of : W -> ServerSlot P;
  put_slot : ServerSlot P -> W -> W;
  wait_zero : P -> W -> result (option str) str;
  stderr_text : P -> W -> str;
  send_request : W -> result EvalMeasurementReading SendError * W;
}.

Section Thread.
Context {W P : Type} `{H : PoolHost W P}.

Definition arbitrate_pass (generation_ : Z) (err : SendError) (resend : bool) (endpoint : str)
    (deadline : Z) (w : W) : result (option Verdict) PoolError * W :=
  let '(r, slot) :=
    arbitrate (slot_of w) generation_ err resend endpoint (utc_text w)
      (fun p => wait_zero p w) (fun p => stderr_text p w) (now w <? deadline) in
  (r, put_slot slot w).

(** The loop of [poll_until_arbitrated]. *)
Fixpoint poll_loop (fuel : nat) (interval : Z)
    (pass : W -> result (option Verdict) PoolError * W) (w : W)
    : option (result Verdict PoolError * W) :=
  match fuel with
  | O => None
  | Datatypes.S fuel =>
      match pass w with
      | (Err e, w) => Some (Err e, w)
      | (Ok (Some v), w) => Some (Ok v, w)
      | (Ok None, w) => poll_loop fuel interval pass (sleep interval w)
      end
  end.

Definition failure_reading (fuel : nat) (generation_ : Z) (err : SendError) (resend : bool)
    (endpoint : str) (w : W) : option (result Verdict PoolError * W) :=
  let deadline := now w + CRASH_OBSERVATION_WINDOW in
  poll_loop fuel CRASH_POLL_INTERVAL (arbitrate_pass generation_ err resend endpoint deadline) w.

(** [read_sample], with the number of requests it sent. *)
Fixpoint read_sample (rounds fuel : nat) (generation_ : Z) (endpoint : str) (resends : nat)
    (w : W) : option (result EvalMeasurementReading PoolError * nat * W) :=
  match rounds with
  | O => None
  | Datatypes.S rounds =>
      match send_request w with
      | (Ok reading, w) => Some (Ok reading, 1%nat, w)
      | (Err err, w) =>
          let resend :=
            (resends <? DROPPED_CONNECTION_RESENDS)%nat && is_dropped_connection err in
          match failure_reading fuel generation_ err resend endpoint w with
          | None => None
          | Some (Err e, w) => Some (Err e, 1%nat, w)
          | Some (Ok (RecordReading reading), w) => Some (Ok reading, 1%nat, w)
          | Some (Ok Resend, w) =>
              match read_sample rounds fuel generation_ endpoint (Datatypes.S resends) w with
              | None => None
              | Some (r, n, w) => Some (r, Datatypes.S n, w)
              end
          end
      end
  end.
End Thread.

(** ** Contexts *)

Inductive SlotNeed :=
| Generation (max_tokens : Z)
| SampleCtx (ctx : Z).

Definition need_tokens (n : SlotNeed) : Z :=
  match n with
  | Generation max_tokens => max_tokens
  | SampleCtx ctx => ctx
  end.

(** The refusal: the context, its slots, what each gets, and the total to raise it to. *)
Record SlotRefusal := {
  total : Z; slots : Z; per_slot : Z; operator_set : bool; at_least : Z;
}.

Definition check_slot_context (parallel : Z) (raw_slots operator_ctx : option Z)
    (per_cell_ctx : Z) (need : SlotNeed) : result unit SlotRefusal :=
  let slots := Z.max parallel (default 1 raw_slots) in
  if slots <=? 1 then Ok tt
  else
    let total :=
      match operator_ctx with
      | Some t => t
      | None => sat_mul u32_max per_cell_ctx parallel
      end in
    let per_slot := total / slots in
    let needed := need_tokens need in
    if needed <=? per_slot then Ok tt
    else
      Err {| total := total; slots := slots; per_slot := per_slot;
             operator_set := match operator_ctx with Some _ => true | None => false end;
             at_least := sat_mul u32_max needed slots |}.

(** ** The attempt of the text evaluation ([execute/eval.rs], [run])

    For each sample of its group in order, what reading it came to, or the error that ends
    the attempt; a failed [record] ends it too. *)
Fixpoint llama_attempt (at_ : nat) (readings : list (result EvalMeasurementReading str)) : Prog :=
  match readings with
  | [] => Return (Ok tt)
  | Err e :: _ => Return (Err e)
  | Ok reading :: rest =>
      Record_ at_ reading
        (fun r => match r with
                  | Ok _ => llama_attempt (Datatypes.S at_) rest
                  | Err _ => Return (Err (lit "record"))
                  end)
  end.

Definition llama_engine (g : list Sample) (p : Prog) : Prop :=
  exists readings, length readings = length g /\ p = llama_attempt 0 readings.

(** The attempt keeps the contract the evaluation relies on. *)
Lemma llama_engine_honest g p : llama_engine g p -> honest p.
Proof.
  intros (readings & _ & ->). generalize 0%nat as at_.
  induction readings as [|[reading|e] readings IH]; intros at_; cbn; constructor; [apply IH|].
  intros e. by eexists.
Qed.

Lemma llama_engine_total g : exists p, llama_engine g p.
Proof.
  exists (llama_attempt 0 (replicate (length g) (Err []))), (replicate (length g) (Err [])).
  by rewrite length_replicate.
Qed.

(** ** Contexts *)

(** A slot budget is refused exactly when a slot's share of the context is too small, and
    the total a refusal asks for is enough: with it set, the check passes. *)
Theorem check_slot_context_correct parallel raw_slots operator_ctx per_cell_ctx need :
  let slots_ := Z.max parallel (default 1 raw_slots) in
  let total_ := default (sat_mul u32_max per_cell_ctx parallel) operator_ctx in
  0 <= need_tokens need ->
  (check_slot_context parallel raw_slots operator_ctx per_cell_ctx need = Ok tt <->
     slots_ <= 1 \/ need_tokens need * slots_ <= total_) /\
  (forall r, check_slot_context parallel raw_slots operator_ctx per_cell_ctx need = Err r ->
     need_tokens need * slots_ <= u32_max ->
     check_slot_context parallel raw_slots (Some (at_least r)) per_cell_ctx need = Ok tt).
Proof.
  intros slots_ total_ Hneed. unfold check_slot_context. fold slots_.
  destruct (Z.leb_spec slots_ 1) as [Hs|Hs]; [split; [naive_solver|done]|].
  assert (forall t, need_tokens need <= t / slots_ <-> need_tokens need * slots_ <= t) as Hdiv.
  { intros t. rewrite Z.mul_comm. split; intros Ht.
    - pose proof (Z.mul_div_le t slots_ ltac:(lia)). nia.
    - apply Z.div_le_lower_bound; lia. }
  replace (match operator_ctx with Some t => t | None => sat_mul u32_max per_cell_ctx parallel end)
    with total_ by (by destruct operator_ctx).
  destruct (Z.leb_spec (need_tokens need) (total_ / slots_)) as [Hn|Hn].
  - split; [|done]. rewrite <- Hdiv. naive_solver.
  - split.
    + split; [done|]. rewrite <- Hdiv. lia.
    + intros r [= <-] Hfit. cbn [at_least]. unfold sat_mul. rewrite Z.min_r by done.
      rewrite Z.div_mul by lia. by rewrite Z.leb_refl.
Qed.

Lemma check_slot_context_correct_witness :
  check_slot_context 64 None (Some 65536) 8192 (Generation 8192) <> Ok tt /\
  check_slot_context 64 None (Some 524288) 8192 (Generation 8192) = Ok tt.
Proof.
  split; [vm_compute; done|].
  apply (check_slot_context_correct 64 None (Some 524288) 8192 (Generation 8192)); [done|].
  right. done.
Defined.

(** ** One thread *)

(** Time passes while the world acts. *)
Class PoolClock (W P : Type) `{PoolHost W P} := {
  sleep_passes d w : now w + d <= now (sleep d w);
  put_passes s w : now w <= now (put_slot s w);
}.

Section ThreadProofs.
Context {W P : Type} `{PoolClock W P}.

(** Past the deadline a pass always answers. *)
Lemma pass_after_deadline g err resend endpoint deadline w :
  deadline <= now w -> exists r w',
  arbitrate_pass g err resend endpoint deadline w = (r, w') /\ r <> Ok None.
Proof.
  intros Hd. unfold arbitrate_pass, arbitrate.
  rewrite (proj2 (Z.ltb_ge (now w) deadline) Hd).
  destruct (watched _ _) as [p|]; [destruct (wait_zero p w) as [[st|]|]|];
    repeat case_match; simplify_eq; by eexists _, _.
Qed.

Lemma pass_resend g err endpoint deadline w v w' :
  arbitrate_pass g err false endpoint deadline w = (Ok (Some v), w') -> v <> Resend.
Proof.
  unfold arbitrate_pass, arbitrate. intros E. repeat case_match; by simplify_eq.
Qed.

Lemma pass_clock g err resend endpoint deadline w r w' :
  arbitrate_pass g err resend endpoint deadline w = (r, w') -> now w <= now w'.
Proof.
  unfold arbitrate_pass. destruct (arbitrate _ _ _ _ _ _ _ _ _) as [a s]. intros [= <- <-].
  apply put_passes.
Qed.

(** The wait is over within one pass per interval of what is left of the window. *)
Lemma poll_loop_answers g err resend endpoint deadline n w :
  deadline <= now w + Z.of_nat n * CRASH_POLL_INTERVAL ->
  exists r w', poll_loop (Datatypes.S n) CRASH_POLL_INTERVAL
    (arbitrate_pass g err resend endpoint deadline) w = Some (r, w').
Proof.
  revert w. induction n as [|n IH]; intros w Hn; cbn [poll_loop].
  - destruct (pass_after_deadline g err resend endpoint deadline w ltac:(lia)) as (r & w' & -> & Hr).
    destruct r as [[v|]|e]; [by eexists _, _|done|by eexists _, _].
  - destruct (arbitrate_pass g err resend endpoint deadline w) as [[[v|]|e] w'] eqn:E;
      [by eexists _, _| |by eexists _, _].
    apply pass_clock in E. apply IH. pose proof (sleep_passes CRASH_POLL_INTERVAL w'). lia.
Qed.

Lemma poll_loop_no_resend fuel g err endpoint deadline w r w' :
  poll_loop fuel CRASH_POLL_INTERVAL (arbitrate_pass g err false endpoint deadline) w = Some (r, w') ->
  r <> Ok Resend.
Proof.
  revert w. induction fuel as [|fuel IH]; intros w; [done|]. cbn [poll_loop].
  destruct (arbitrate_pass g err false endpoint deadline w) as [[[v|]|e] w1] eqn:E.
  - intros [= <- <-] [= ->]. by apply pass_resend in E.
  - apply IH.
  - by intros [= <- <-].
Qed.

Lemma failure_reading_answers g err resend endpoint w :
  exists r w', failure_reading 61 g err resend endpoint w = Some (r, w').
Proof. apply poll_loop_answers. unfold CRASH_OBSERVATION_WINDOW, CRASH_POLL_INTERVAL. solve_bounds. Qed.

Lemma read_sample_rounds rounds g endpoint resends w :
  (DROPPED_CONNECTION_RESENDS < rounds + resends)%nat -> (1 <= rounds)%nat ->
  exists r n w', read_sample rounds 61 g endpoint resends w = Some (r, n, w') /\
    (1 <= n <= rounds)%nat.
Proof.
  revert resends w. induction rounds as [|rounds IH]; intros resends w Hr Hpos; [lia|].
  cbn [read_sample]. destruct (send_request w) as [[reading|err] w1]; [eexists _, _, _; split; [done|lia]|].
  set (resend := (resends <? DROPPED_CONNECTION_RESENDS)%nat && is_dropped_connection err).
  destruct (failure_reading_answers g err resend endpoint w1) as (a & w2 & E). rewrite E.
  destruct a as [[reading|]|e]; [eexists _, _, _; split; [done|lia]| |eexists _, _, _; split; [done|lia]].
  assert (resend = true) as Et.
  { destruct resend eqn:Er; [done|]. by apply poll_loop_no_resend in E. }
  unfold resend in Et. apply andb_true_iff in Et as [Et%Nat.ltb_lt _].
  destruct (IH (Datatypes.S resends) w2) as (r & n & w3 & -> & Hn); [lia..|].
  eexists _, _, _. split; [done|lia].
Qed.

(** A sample's thread always comes back. Whatever the server, the network and the other
    threads do, each failed request is decided within 61 looks at the server, 50 ms apart,
    and a sample is sent three times at most. *)
Theorem read_sample_bounded g endpoint w :
  exists r n w', read_sample 3 61 g endpoint 0 w = Some (r, n, w') /\ (1 <= n <= 3)%nat.
Proof. apply read_sample_rounds; unfold DROPPED_CONNECTION_RESENDS; lia. Qed.
End ThreadProofs.

(** A clock and an empty slot; every request is dropped. *)
Definition demo_drop : SendError :=
  {| error_text := lit "send"; chain := [RequestCause true false false (lit "reset")] |}.

#[export] Instance demo_pool : PoolHost (Z * ServerSlot unit) unit := {
  now w := w.1;
  utc_text _ := lit "now";
  sleep d w := (w.1 + d, w.2);
  slot_of w := w.2;
  put_slot s w := (w.1, s);
  wait_zero _ _ := Ok None;
  stderr_text _ _ := [];
  send_request w := (Err demo_drop, w);
}.

#[export] Instance demo_pool_clock : PoolClock (Z * ServerSlot unit) unit.
Proof. split; cbn; intros; lia. Qed.

Lemma read_sample_bounded_witness :
  exists r n w', read_sample 3 61 0 (lit "/completion") 0
    (0, {| server := Up tt (lit "url"); generation := 0 |}) = Some (r, n, w') /\ (1 <= n <= 3)%nat.
Proof.
  apply (read_sample_bounded 0 (lit "/completion")
    (0, {| server := Up tt (lit "url"); generation := 0 |})).
Defined.

(** ** The threads of a cell *)

(** Where a sample's thread is; an ended one keeps the generation its request went to. *)
Inductive Thread :=
| TNeed
| TSending (g : Z) (resends : nat)
| TFailing (g : Z) (resends : nat) (err : SendError)
| TEnded (g : option Z) (r : result EvalMeasurementReading PoolError).

(** The processes ever started, with the generation each was started for and whether it
    runs; a process is its number. *)
Record Pool := {
  slot : ServerSlot nat;
  processes : gmap nat (Z * bool);
  threads : list Thread;
  failed_starts : nat;
}.

Definition wants_resend (resends : nat) (err : SendError) : bool :=
  (resends <? DROPPED_CONNECTION_RESENDS)%nat && is_dropped_connection err.

(** What a process can answer when asked: an exit is reported of one that exited. *)
Definition wait_honest (ps : gmap nat (Z * bool)) (waited : nat -> result (option str) str) : Prop :=
  forall p status, waited p = Ok (Some status) -> exists g, ps !! p = Some (g, false).

Inductive pool_step : Pool -> Pool -> Prop :=
| step_need s t start r slot' :
    threads s !! t = Some TNeed ->
    (forall p url, start = Ok (p, url) -> processes s !! p = None) ->
    slot_server start (slot s) = (r, slot') ->
    pool_step s
      {| slot := slot';
         processes :=
           match server (slot s), start with
           | Down _, Ok (p, _) => <[p := (generation slot', true)]> (processes s)
           | _, _ => processes s
           end;
         threads :=
           <[t := match r with
                  | Ok (Some (_, g)) => TSending g 0
                  | Ok None => TEnded None (Ok (Lost
                      (lit "llama-server did not come back after a crash")))
                  | Err e => TEnded None (Err e)
                  end]> (threads s);
         failed_starts :=
           match r with Err _ => Datatypes.S (failed_starts s) | Ok _ => failed_starts s end |}
| step_answer s t g resends reading :
    threads s !! t = Some (TSending g resends) ->
    (forall reason, reading <> Lost reason) ->
    pool_step s
      {| slot := slot s; processes := processes s;
         threads := <[t := TEnded (Some g) (Ok reading)]> (threads s);
         failed_starts := failed_starts s |}
| step_fail s t g resends err :
    threads s !! t = Some (TSending g resends) ->
    pool_step s
      {| slot := slot s; processes := processes s;
         threads := <[t := TFailing g resends err]> (threads s);
         failed_starts := failed_starts s |}
| step_arbitrate s t g resends err endpoint observed_at waited stderr_of before r slot' :
    threads s !! t = Some (TFailing g resends err) ->
    wait_honest (processes s) waited ->
    arbitrate (slot s) g err (wants_resend resends err) endpoint observed_at waited stderr_of
      before = (r, slot') ->
    pool_step s
      {| slot := slot'; processes := processes s;
         threads :=
           <[t := match r with
                  | Ok None => TFailing g resends err
                  | Ok (Some Resend) => TSending g (Datatypes.S resends)
                  | Ok (Some (RecordReading reading)) => TEnded (Some g) (Ok reading)
                  | Err e => TEnded (Some g) (Err e)
                  end]> (threads s);
         failed_starts := failed_starts s |}
| step_crash s p g :
    processes s !! p = Some (g, true) ->
    pool_step s
      {| slot := slot s; processes := <[p := (g, false)]> (processes s); threads := threads s;
         failed_starts := failed_starts s |}.

Definition pool_start (s : Pool) : Prop :=
  slot s = {| server := Up 0%nat (lit "url"); generation := 0 |} /\
  processes s = {[0%nat := (0, true)]} /\ Forall (eq TNeed) (threads s) /\ failed_starts s = 0%nat.

(** The server of a generation has exited. *)
Definition gone (ps : gmap nat (Z * bool)) (g : Z) : Prop :=
  forall p a, ps !! p = Some (g, a) -> a = false.

Record pool_inv (s : Pool) : Prop := {
  inv_old : forall p g a, processes s !! p = Some (g, a) ->
    g <= generation (slot s) /\ (g < generation (slot s) -> a = false);
  inv_slot : match server (slot s) with
    | Up p _ =>
        (exists a, processes s !! p = Some (generation (slot s), a)) /\
        forall q a, processes s !! q = Some (generation (slot s), a) -> q = p
    | Down _ | RestartFailed => gone (processes s) (generation (slot s))
    end;
  inv_threads : forall t g, (exists n, threads s !! t = Some (TSending g n)) \/
    (exists n err, threads s !! t = Some (TFailing g n err)) -> g <= generation (slot s);
  inv_ended : forall t g reason,
    threads s !! t = Some (TEnded (Some g) (Ok (Lost reason))) ->
    g <= generation (slot s) /\ gone (processes s) g;
  inv_failed : failed_starts s =
    match server (slot s) with RestartFailed => 1%nat | _ => 0%nat end;
}.

Lemma gone_insert ps p g g' :
  gone ps g -> gone (<[p := (g', false)]> ps) g.
Proof.
  intros Hg q a. destruct (decide (q = p)) as [->|Hne].
  - rewrite lookup_insert_eq. by intros [= _ <-].
  - rewrite lookup_insert_ne by done. apply Hg.
Qed.

Lemma gone_new ps p g g' a : g < g' -> gone ps g -> gone (<[p := (g', a)]> ps) g.
Proof.
  intros Hlt Hg q b. destruct (decide (q = p)) as [->|Hne].
  - rewrite lookup_insert_eq. intros [= E _]. lia.
  - rewrite lookup_insert_ne by done. apply Hg.
Qed.

(** What the arbiter of a failed request finds. *)
Lemma arbitrate_spec s g err resend endpoint observed_at waited stderr_of before r slot' :
  pool_inv s -> g <= generation (slot s) -> wait_honest (processes s) waited ->
  arbitrate (slot s) g err resend endpoint observed_at waited stderr_of before = (r, slot') ->
  generation slot' = generation (slot s) /\
  (slot' = slot s \/ (exists p url, server (slot s) = Up p url) /\ (exists p, server slot' = Down p) /\
     gone (processes s) (generation (slot s))) /\
  (forall reason, r = Ok (Some (RecordReading (Lost reason))) -> gone (processes s) g).
Proof.
  intros Hinv Hg Hw. unfold arbitrate, watched. pose proof (inv_slot s Hinv) as Hslot.
  assert (generation (slot s) <> g -> gone (processes s) g) as Hother.
  { intros Hne p a Hp. apply (inv_old s Hinv p g a Hp). lia. }
  destruct (server (slot s)) as [p url|p|] eqn:Es.
  - destruct (Z.eqb_spec (generation (slot s)) g) as [Eg|Eg].
    + destruct (waited p) as [[status|]|e] eqn:Ew.
      * destruct (Hw p status Ew) as [g' Hp]. destruct Hslot as [[a Ha] Huniq].
        assert (gone (processes s) (generation (slot s))) as Hgone.
        { intros q b Hq. rewrite (Huniq q b Hq) in Hq. congruence. }
        destruct (is_allocation_failure _); intros [= <- <-]; cbn;
          (split; [done|]); (split; [right; split_and!; by eauto|]).
        { by intros. }
        intros _ _. by rewrite <- Eg.
      * destruct before; [|destruct resend]; intros [= <- <-]; split_and!; auto; by intros.
      * intros [= <- <-]. split_and!; by auto.
    + intros [= <- <-]. split_and!; auto.
  - intros [= <- <-]. split_and!; auto. intros _ _.
    destruct (decide (generation (slot s) = g)) as [<-|]; [done|auto].
  - intros [= <- <-]. split_and!; auto. intros _ _.
    destruct (decide (generation (slot s) = g)) as [<-|]; [done|auto].
Qed.

Lemma insert_thread (ts : list Thread) t x i y :
  <[t := x]> ts !! i = Some y -> y = x \/ ts !! i = Some y.
Proof. intros [(_ & -> & _)|(_ & E)]%list_lookup_insert_Some; auto. Qed.

Lemma arbitrate_step_inv s t g resends err r slot' :
  pool_inv s -> threads s !! t = Some (TFailing g resends err) ->
  generation slot' = generation (slot s) ->
  (slot' = slot s \/ (exists p url, server (slot s) = Up p url) /\ (exists p, server slot' = Down p) /\
     gone (processes s) (generation (slot s))) ->
  (forall reason, r = Ok (Some (RecordReading (Lost reason))) -> gone (processes s) g) ->
  pool_inv
    {| slot := slot'; processes := processes s;
       threads :=
         <[t := match r with
                | Ok None => TFailing g resends err
                | Ok (Some Resend) => TSending g (Datatypes.S resends)
                | Ok (Some (RecordReading reading)) => TEnded (Some g) (Ok reading)
                | Err e => TEnded (Some g) (Err e)
                end]> (threads s);
       failed_starts := failed_starts s |}.
Proof.
  intros Hinv Ht Hgen Hslot Hlost.
  assert (g <= generation (slot s)) as Hg by (eapply (inv_threads s Hinv t); eauto).
  split; cbn; rewrite ?Hgen.
  - apply (inv_old s Hinv).
  - destruct Hslot as [->|(_ & [p Hp] & Hgone)]; [apply (inv_slot s Hinv)|].
    by rewrite Hp.
  - intros i g' [[n Hi]|(n & e & Hi)]; apply insert_thread in Hi as [Hi|Hi].
    + by destruct r as [[[|]|]|]; simplify_eq.
    + eapply (inv_threads s Hinv i); eauto.
    + by destruct r as [[[|]|]|]; simplify_eq.
    + eapply (inv_threads s Hinv i); eauto.
  - intros i g' reason Hi. apply insert_thread in Hi as [Hi|Hi]; [|by eapply (inv_ended s Hinv)].
    destruct r as [[[|]|]|]; simplify_eq. eauto.
  - rewrite (inv_failed s Hinv). destruct Hslot as [->|((p & url & ->) & [q ->] & _)]; done.
Qed.

Lemma need_step_inv s t start r slot' :
  pool_inv s -> generation slot' < u64_max ->
  threads s !! t = Some TNeed -> (forall p url, start = Ok (p, url) -> processes s !! p = None) ->
  slot_server start (slot s) = (r, slot') ->
  pool_inv
    {| slot := slot';
       processes :=
         match server (slot s), start with
         | Down _, Ok (p, _) => <[p := (generation slot', true)]> (processes s)
         | _, _ => processes s
         end;
       threads :=
         <[t := match r with
                | Ok (Some (_, g)) => TSending g 0
                | Ok None => TEnded None (Ok (Lost
                    (lit "llama-server did not come back after a crash")))
                | Err e => TEnded None (Err e)
                end]> (threads s);
       failed_starts :=
         match r with Err _ => Datatypes.S (failed_starts s) | Ok _ => failed_starts s end |}.
Proof.
  intros Hinv Hmax Ht Hfresh. unfold slot_server. pose proof (inv_slot s Hinv) as Hslot.
  pose proof (inv_failed s Hinv) as Hfail.
  (* a slot that does not change *)
  assert (forall th, (forall g n, th = TSending g n -> g <= generation (slot s)) ->
    (forall g n e, th <> TFailing g n e) -> (forall g reason, th <> TEnded (Some g) (Ok (Lost reason))) ->
    pool_inv {| slot := slot s; processes := processes s; threads := <[t := th]> (threads s);
                failed_starts := failed_starts s |}) as Hsame.
  { intros th H1 H2 H3. split; cbn; [apply Hinv|done| | |done].
    - intros i g [[n Hi]|(n & e & Hi)]; apply insert_thread in Hi as [Hi|Hi];
        try (eapply (inv_threads s Hinv i); eauto; done); [by eapply H1|by destruct (H2 g n e)].
    - intros i g reason Hi. apply insert_thread in Hi as [Hi|Hi]; [by destruct (H3 g reason)|].
      by eapply (inv_ended s Hinv). }
  destruct (server (slot s)) as [p url|p|] eqn:Es.
  - intros [= <- <-]. apply Hsame; [|done|done]. intros g n [= <- _]. done.
  - destruct start as [[q url]|e].
    + intros [= <- <-]. cbn in Hmax |- *. unfold sat_add in *.
      assert (Z.min u64_max (generation (slot s) + 1) = generation (slot s) + 1) as E by lia.
      rewrite E in *. specialize (Hfresh q url eq_refl).
      assert (forall p g a, <[q := (generation (slot s) + 1, true)]> (processes s) !! p = Some (g, a) ->
        p = q /\ g = generation (slot s) + 1 /\ a = true \/
        p <> q /\ g <= generation (slot s) /\ a = false) as Hps.
      { intros p' g a. destruct (decide (p' = q)) as [->|Hne].
        - rewrite lookup_insert_eq. intros [= <- <-]. by left.
        - rewrite lookup_insert_ne by done. intros Hp. right. split; [done|].
          destruct (inv_old s Hinv p' g a Hp) as [Hle Hlt]. split; [done|].
          destruct (decide (g = generation (slot s))) as [->|]; [by eapply Hslot|apply Hlt; lia]. }
      split; cbn.
      * intros p' g a [(-> & -> & ->)|(_ & ? & ->)]%Hps; lia || (split; [lia|done]).
      * split; [exists true; by rewrite lookup_insert_eq|].
        intros p' a [(-> & _)|(_ & ? & _)]%Hps; [done|lia].
      * intros i g [[n Hi]|(n & e & Hi)]; apply insert_thread in Hi as [Hi|Hi]; simplify_eq; try lia;
          (assert (g <= generation (slot s)); [eapply (inv_threads s Hinv i); eauto|lia]).
      * intros i g reason Hi. apply insert_thread in Hi as [Hi|Hi]; [done|].
        destruct (inv_ended s Hinv i g reason Hi) as [Hle Hgone]. split; [lia|].
        apply gone_new; [lia|done].
      * by rewrite Hfail.
    + intros [= <- <-]. split; cbn; [apply Hinv|done| | |by rewrite Hfail].
      * intros i g [[n Hi]|(n & e' & Hi)]; apply insert_thread in Hi as [Hi|Hi]; try done;
          eapply (inv_threads s Hinv i); eauto.
      * intros i g reason Hi. apply insert_thread in Hi as [Hi|Hi]; [done|].
        by eapply (inv_ended s Hinv).
  - intros [= <- <-]. by apply Hsame.
Qed.

Lemma pool_generation_mono s s' :
  pool_step s s' -> 0 <= generation (slot s) <= u64_max ->
  generation (slot s) <= generation (slot s') <= u64_max.
Proof.
  intros Hstep Hg. destruct Hstep as [s t start r slot' Ht _ E| | |s t g resends err endpoint
    observed_at waited stderr_of before r slot' Ht _ E|]; cbn; try lia.
  - unfold slot_server in E. repeat case_match; simplify_eq; cbn; unfold sat_add; lia.
  - unfold arbitrate in E. repeat case_match; simplify_eq; cbn; lia.
Qed.

Lemma pool_step_inv s s' :
  pool_inv s -> generation (slot s') < u64_max -> pool_step s s' -> pool_inv s'.
Proof.
  intros Hinv Hmax Hstep. destruct Hstep as [s t start r slot' Ht Hf E|s t g resends reading Ht Hr|
    s t g resends err Ht|s t g resends err endpoint observed_at waited stderr_of before r slot' Ht Hw E|
    s p g Hp].
  - by apply need_step_inv.
  - assert (g <= generation (slot s)) as Hg by (eapply (inv_threads s Hinv t); eauto).
    split; cbn; try apply Hinv.
    + intros i g' [[n Hi]|(n & e & Hi)]; apply insert_thread in Hi as [Hi|Hi]; try done;
        eapply (inv_threads s Hinv i); eauto.
    + intros i g' reason Hi. apply insert_thread in Hi as [Hi|Hi]; [|by eapply (inv_ended s Hinv)].
      simplify_eq. by destruct (Hr reason).
  - assert (g <= generation (slot s)) as Hg by (eapply (inv_threads s Hinv t); eauto).
    split; cbn; try apply Hinv.
    + intros i g' [[n Hi]|(n & e & Hi)]; apply insert_thread in Hi as [Hi|Hi]; simplify_eq; try done;
        eapply (inv_threads s Hinv i); eauto.
    + intros i g' reason Hi. apply insert_thread in Hi as [Hi|Hi]; [done|by eapply (inv_ended s Hinv)].
  - destruct (arbitrate_spec _ _ _ _ _ _ _ _ _ _ _ Hinv
      ltac:(eapply (inv_threads s Hinv t); eauto) Hw E) as (Hgen & Hslot & Hlost).
    by apply arbitrate_step_inv.
  - assert (forall q g' a, <[p := (g, false)]> (processes s) !! q = Some (g', a) ->
      exists b, processes s !! q = Some (g', b) /\ (b = false -> a = false)) as Hps.
    { intros q g' a. destruct (decide (q = p)) as [->|Hne].
      - rewrite lookup_insert_eq. intros [= <- <-]. by exists true.
      - rewrite lookup_insert_ne by done. intros Hq. by exists a. }
    split; cbn; try apply Hinv.
    + intros q g' a (b & Hq & Hb)%Hps. destruct (inv_old s Hinv q g' b Hq). split; [done|]. auto.
    + pose proof (inv_slot s Hinv) as Hslot. destruct (server (slot s)) as [q url| |].
      * destruct Hslot as [[a Ha] Huniq]. split.
        -- destruct (decide (q = p)) as [->|]; [|exists a; by rewrite lookup_insert_ne].
           rewrite Hp in Ha. simplify_eq. exists false. by rewrite lookup_insert_eq.
        -- intros q' a' (b & Hq' & _)%Hps. by eapply Huniq.
      * by apply gone_insert.
      * by apply gone_insert.
    + intros i g' reason Hi. destruct (inv_ended s Hinv i g' reason Hi). split; [done|].
      by apply gone_insert.
Qed.

Lemma pool_start_inv s : pool_start s -> pool_inv s.
Proof.
  intros (Hs & Hp & Ht & Hf). rewrite Forall_forall in Ht.
  assert (forall i th, threads s !! i = Some th -> th = TNeed) as Hneed.
  { intros i th Hi. symmetry. apply Ht. by eapply list_elem_of_lookup_2. }
  split; rewrite ?Hs, ?Hp, ?Hf; cbn.
  - intros p g a [<- [= <- <-]]%lookup_singleton_Some. lia.
  - split; [exists true; apply lookup_singleton_eq|]. by intros q a [<- _]%lookup_singleton_Some.
  - intros i g [[n Hi]|(n & e & Hi)]; by apply Hneed in Hi.
  - intros i g reason Hi. by apply Hneed in Hi.
  - done.
Qed.

(** C26: One server at a time. Whatever crashes, and however the samples' threads interleave,
    at most one [llama-server] runs: a replacement is started only when every server before
    it has exited. A sample is recorded as lost only when the server its request went to has
    exited - a live server's samples are never given up - and a replacement that did not
    start is tried once, not once per sample. *)
Theorem one_server_at_a_time s :
  reachable pool_start pool_step s -> generation (slot s) < u64_max ->
  (forall p q g g', processes s !! p = Some (g, true) -> processes s !! q = Some (g', true) -> p = q) /\
  (forall t g reason p a, threads s !! t = Some (TEnded (Some g) (Ok (Lost reason))) ->
     processes s !! p = Some (g, a) -> a = false) /\
  (failed_starts s <= 1)%nat.
Proof.
  intros Hreach Hmax.
  assert (0 <= generation (slot s) <= u64_max /\ (generation (slot s) < u64_max -> pool_inv s))
    as [_ Hinv].
  { revert Hreach. apply (reachable_invariant _ _ (fun s => 0 <= generation (slot s) <= u64_max /\
      (generation (slot s) < u64_max -> pool_inv s))).
    - intros s0 Hs. split; [|intros _; by apply pool_start_inv].
      destruct Hs as [-> _]. cbn. unfold u64_max. lia.
    - intros s1 s2 [Hb Hi] Hstep. pose proof (pool_generation_mono _ _ Hstep Hb).
      split; [lia|]. intros Hlt. eapply pool_step_inv; [apply Hi; lia|done..]. }
  specialize (Hinv Hmax). split_and!.
  - intros p q g g' Hp Hq. pose proof (inv_slot s Hinv) as Hslot.
    assert (forall p g, processes s !! p = Some (g, true) -> g = generation (slot s)) as Hcur.
    { intros p' g0 Hp'. destruct (inv_old s Hinv _ _ _ Hp') as [Hle Hlt].
      destruct (decide (g0 = generation (slot s))); [done|]. by specialize (Hlt ltac:(lia)). }
    rewrite (Hcur _ _ Hp) in Hp. rewrite (Hcur _ _ Hq) in Hq.
    destruct (server (slot s)); [|by apply Hslot in Hp..].
    destruct Hslot as [_ Hu]. by rewrite (Hu _ _ Hp), (Hu _ _ Hq).
  - intros t g reason p a Ht Hp. by destruct (inv_ended s Hinv t g reason Ht) as [_ Hgone]; eapply Hgone.
  - rewrite (inv_failed s Hinv). destruct (server (slot s)); lia.
Qed.

(** A server that crashed under its one request. *)
Definition demo_start : Pool :=
  {| slot := {| server := Up 0%nat (lit "url"); generation := 0 |};
     processes := {[0%nat := (0, true)]}; threads := [TNeed]; failed_starts := 0 |}.

Definition demo_crashed : Pool :=
  {| slot := {| server := Down 0%nat; generation := 0 |};
     processes := <[0%nat := (0, false)]> {[0%nat := (0, true)]};
     threads :=
       [TEnded (Some 0) (Ok (Lost (build_crash_reason (lit "now") (lit "9") demo_drop)))];
     failed_starts := 0 |}.

Lemma pool_step_eq s s1 s2 : pool_step s s1 -> s1 = s2 -> pool_step s s2.
Proof. by intros ? <-. Qed.

Lemma demo_crashed_reachable : reachable pool_start pool_step demo_crashed.
Proof.
  eapply reach_step; [eapply reach_step; [eapply reach_step; [eapply reach_step; [apply (reach_init _ _ demo_start)|]|]|]|].
  - split_and!; try done. by repeat constructor.
  - eapply (step_need _ 0 (Err [])); [done|done|reflexivity].
  - apply (step_crash _ 0 0). done.
  - apply (step_fail _ 0 0 0 demo_drop). done.
  - eapply pool_step_eq; [eapply (step_arbitrate _ 0 0 0 demo_drop (lit "/completion") (lit "now")
      (fun p => Ok (if (p =? 0)%nat then Some (lit "9") else None)) (fun _ => []) false);
      [done| |reflexivity]|reflexivity].
    intros [|p] status Hst; [|done]. by exists 0.
Qed.

Lemma one_server_at_a_time_witness :
  generation (slot demo_crashed) < u64_max /\
  forall p a, processes demo_crashed !! p = Some (0, a) -> a = false.
Proof.
  split; [done|]. intros p a Hp.
  destruct (one_server_at_a_time demo_crashed demo_crashed_reachable) as (_ & Hlost & _); [done|].
  apply (Hlost 0%nat 0 (build_crash_reason (lit "now") (lit "9") demo_drop) p a); [reflexivity|].
  exact Hp.
Defined.
