(* ===== verification/EntryLocks.v ===== *)
(** * One store entry, shared by processes
      ([crates/pipette-artifacts/src/entry.rs], [model/store.rs], [runtime/store.rs],
      [ensure.rs], [quota.rs])

    Several processes share a store. One may be fetching an entry while others look for it,
    run from it, touch its manifest or sweep the store, and any of them may die at any
    moment. Three locks keep them apart: the fetch lock ([lock_entry]), the in-use lock
    ([hold_entry], [take_in_use_lock]) and the lock beside each staged directory
    ([StagedDir], [take_staging_lock]). The model is one entry key of a store on a file
    system with locks, a step per system call that another process can see.

    A staged directory's name ends in random digits; here it is its drawer with a serial
    number, so that two drawn names never agree. A directory keeps its identity when it is
    renamed: a removal that has opened one goes on in it, as [remove_dir_all] does. *)

From Stdlib Require Import ZArith Lia.
From stdpp Require Import prelude list gmap.
From S2P Require Import Prelude.

(** ** Data *)

(** What reading an entry's manifest finds: a record of this entry, bytes that do not parse,
    or a record that is refused (its version, its type). *)
Inductive Manifest := Intact | Unparsed | Refused.

#[export] Instance Manifest_eq_dec : EqDecision Manifest.
Proof. solve_decision. Defined.

(** An entry's directory: its manifest, the temporary manifests of the processes touching
    it, and the files of its payload. *)
Record EntryDir := {
  manifest : option Manifest;
  temps : gset nat;
  blobs : gset nat;
}.

Definition new_dir : EntryDir := {| manifest := None; temps := ∅; blobs := ∅ |}.

Definition is_empty (c : EntryDir) : Prop :=
  manifest c = None /\ temps c = ∅ /\ blobs c = ∅.

Abbreviation Name := (nat * nat)%type.

(** Whose open handle holds the lock beside a staged directory. *)
Inductive Role := Fetch | Sweep.

#[export] Instance Role_eq_dec : EqDecision Role.
Proof. solve_decision. Defined.

(** The store: every directory by its identity, the entry's path and the names under
    [.staging], the lock files beside them, and who holds which lock. The last two fields
    count the publishes and the intact entries swept, for the theorems. *)
Record Store := {
  dirs : gmap nat EntryDir;
  target : option nat;
  staged : gmap Name nat;
  names : gset Name;
  lock_files : gset Name;
  staging_locks : gmap Name (nat * Role);
  fetch_lock : option nat;
  in_use_sweep : option nat;
  in_use : gset nat;
  publishes : nat;
  swept : nat;
}.

Definition content (d : Store) (h : nat) : EntryDir := default new_dir (dirs d !! h).

(** [find]: what the entry's manifest reads as. *)
Definition found (d : Store) : option Manifest :=
  h ← target d; manifest (content d h).

(** *** What a removal of a directory goes on with *)

Inductive Kont :=
| KRefetch                      (* [ensure] removed an entry that does not parse *)
| KPublish (n : Name)           (* [replace_staged_path] cleared the way *)
| KCleanTarget (n : Name)       (* [replace_dir_from_staged] after a failed publish *)
| KCleanStaged (n : Name)       (* ... and of what was staged *)
| KDoomed (n : Name)            (* [move_out_and_remove] *)
| KSwept (n : Name) (locked : bool)  (* [remove_entry] of a staging child *)
| KRemoved.                     (* the operator's [remove] *)

(** [None] is the entry's path. *)
Definition place (k : Kont) : option Name :=
  match k with
  | KRefetch | KPublish _ | KCleanTarget _ | KRemoved => None
  | KCleanStaged n | KDoomed n | KSwept n _ => Some n
  end.

Definition named (d : Store) (k : Kont) : option nat :=
  match place k with
  | None => target d
  | Some n => staged d !! n
  end.

(** Where a process is. A flag [locked] of a touch is whether it happens under the fetch
    lock; [held] whether the in-use lock was taken. *)
Inductive Phase :=
| Idle
| Dead
| Find1
| TouchCreate (locked : bool)
| TouchRename (locked : bool)
| LockWait
| Find2
| Remove (k : Kont)
| Removing (h : nat) (k : Kont)
| SNew (attempt : nat)
| SLock (attempt : nat) (n : Name)
| SCheck (attempt : nat) (n : Name)
| SMkdir (n : Name)
| SWrite (n : Name) (todo : gset nat)
| SManifest (n : Name)
| SPublish (n : Name)
| SRename (n : Name)
| SDrop (n : Name) (ok : bool)
| SUnlock (n : Name) (ok : bool)
| Unfetch (ok : bool)
| HoldWait
| Find3 (held : bool)
| Using (held : bool)
| WMove
| WUnlock (n : option Name)
| VOpen (n : Name)
| VTry (n : Name)
| VRmLock (n : Name) (locked : bool)
| VUnlock (n : Name).

Definition after (k : Kont) (ok : bool) : Phase :=
  match k with
  | KRefetch => if ok then SNew 0 else Unfetch false
  | KPublish n => if ok then SRename n else Remove (KCleanTarget n)
  | KCleanTarget n => Remove (KCleanStaged n)
  | KCleanStaged n => SDrop n false
  | KDoomed _ => Idle
  | KSwept n locked => if ok then VRmLock n locked else if locked then VUnlock n else Idle
  | KRemoved => Idle
  end.

Definition touched (locked : bool) : Phase := if locked then Unfetch true else HoldWait.

Definition STAGING_LOCK_ATTEMPTS : nat := 3.

(** *** Updates of the store *)

Definition set_dir (h : nat) (c : EntryDir) (d : Store) : Store :=
  {| dirs := <[h := c]> (dirs d); target := target d; staged := staged d; names := names d;
     lock_files := lock_files d; staging_locks := staging_locks d; fetch_lock := fetch_lock d;
     in_use_sweep := in_use_sweep d; in_use := in_use d; publishes := publishes d;
     swept := swept d |}.

Definition set_target (t : option nat) (d : Store) : Store :=
  {| dirs := dirs d; target := t; staged := staged d; names := names d;
     lock_files := lock_files d; staging_locks := staging_locks d; fetch_lock := fetch_lock d;
     in_use_sweep := in_use_sweep d; in_use := in_use d; publishes := publishes d;
     swept := swept d |}.

(** The names under [.staging], after drawing [used]. *)
Definition set_staging (used : gset Name) (s : gmap Name nat) (files : gset Name) (d : Store)
    : Store :=
  {| dirs := dirs d; target := target d; staged := s; names := names d ∪ used;
     lock_files := files; staging_locks := staging_locks d; fetch_lock := fetch_lock d;
     in_use_sweep := in_use_sweep d; in_use := in_use d; publishes := publishes d;
     swept := swept d |}.

Definition set_staging_locks (l : gmap Name (nat * Role)) (d : Store) : Store :=
  {| dirs := dirs d; target := target d; staged := staged d; names := names d;
     lock_files := lock_files d; staging_locks := l; fetch_lock := fetch_lock d;
     in_use_sweep := in_use_sweep d; in_use := in_use d; publishes := publishes d;
     swept := swept d |}.

Definition set_fetch_lock (l : option nat) (d : Store) : Store :=
  {| dirs := dirs d; target := target d; staged := staged d; names := names d;
     lock_files := lock_files d; staging_locks := staging_locks d; fetch_lock := l;
     in_use_sweep := in_use_sweep d; in_use := in_use d; publishes := publishes d;
     swept := swept d |}.

Definition set_in_use (sweep : option nat) (runs : gset nat) (d : Store) : Store :=
  {| dirs := dirs d; target := target d; staged := staged d; names := names d;
     lock_files := lock_files d; staging_locks := staging_locks d; fetch_lock := fetch_lock d;
     in_use_sweep := sweep; in_use := runs; publishes := publishes d; swept := swept d |}.

Definition count (p s : nat) (d : Store) : Store :=
  {| dirs := dirs d; target := target d; staged := staged d; names := names d;
     lock_files := lock_files d; staging_locks := staging_locks d; fetch_lock := fetch_lock d;
     in_use_sweep := in_use_sweep d; in_use := in_use d; publishes := publishes d + p;
     swept := swept d + s |}.

(** The rename of a publish, and of a sweep that moves the entry out. *)
Definition publish (n : Name) (h : nat) (d : Store) : Store :=
  count 1 0 (set_target (Some h) (set_staging ∅ (delete n (staged d)) (lock_files d) d)).

Definition intact (d : Store) : bool := bool_decide (found d = Some Intact).

Definition move_out (n : Name) (h : nat) (d : Store) : Store :=
  count 0 (if intact d then 1 else 0)
    (set_target None (set_staging {[n]} (<[n := h]> (staged d)) (lock_files d) d)).

(** Unlinking the path [remove_dir_all] was given, once its directory is empty. *)
Definition unlink (k : Kont) (d : Store) : Store :=
  match place k with
  | None => set_target None d
  | Some n => set_staging ∅ (delete n (staged d)) (lock_files d) d
  end.

(** One entry of a directory less. *)
Inductive smaller : EntryDir -> EntryDir -> Prop :=
| less_manifest c : smaller c {| manifest := None; temps := temps c; blobs := blobs c |}
| less_temp c p : smaller c {| manifest := manifest c; temps := temps c ∖ {[p]}; blobs := blobs c |}
| less_blob c b : smaller c {| manifest := manifest c; temps := temps c; blobs := blobs c ∖ {[b]} |}.

(** What a dying process lets go of. *)
Definition let_go (p : nat) (d : Store) : Store :=
  set_staging_locks (filter (fun kv => kv.2.1 <> p) (staging_locks d))
    (set_fetch_lock (if bool_decide (fetch_lock d = Some p) then None else fetch_lock d)
      (set_in_use (if bool_decide (in_use_sweep d = Some p) then None else in_use_sweep d)
        (in_use d ∖ {[p]}) d)).

(** ** What a process does

    [need] is the payload a fetch puts in place before it reports success. Every call may
    fail; a failure that no code looks at is a step that changes nothing. *)

Section Steps.
Context (need : gset nat).

(** *** [ensure]: look, and fetch a miss under the lock of [lock_entry] *)
Inductive ensure_act (p : nat) (d : Store) : Phase -> Phase -> Store -> Prop :=
| find1_intact : found d = Some Intact -> ensure_act p d Find1 (TouchCreate false) d
| find1_miss : found d = None \/ found d = Some Unparsed -> ensure_act p d Find1 LockWait d
| find1_fails : ensure_act p d Find1 Idle d
| lock_takes :
    fetch_lock d = None -> ensure_act p d LockWait Find2 (set_fetch_lock (Some p) d)
| lock_fails : ensure_act p d LockWait Idle d
| find2_intact : found d = Some Intact -> ensure_act p d Find2 (TouchCreate true) d
| find2_unparsed : found d = Some Unparsed -> ensure_act p d Find2 (Remove KRefetch) d
| find2_miss : found d = None -> ensure_act p d Find2 (SNew 0) d
| find2_fails : ensure_act p d Find2 (Unfetch false) d
| unfetch ok :
    ensure_act p d (Unfetch ok) (if ok then HoldWait else Idle) (set_fetch_lock None d).

(** *** [touch]: [rewrite_manifest] writes beside the manifest and renames over it *)
Inductive touch_act (p : nat) (d : Store) : Phase -> Phase -> Store -> Prop :=
| touch_creates h c locked :
    target d = Some h -> c = content d h ->
    touch_act p d (TouchCreate locked) (TouchRename locked)
      (set_dir h {| manifest := manifest c; temps := {[p]} ∪ temps c; blobs := blobs c |} d)
| touch_create_fails locked : touch_act p d (TouchCreate locked) (touched locked) d
| touch_renames h c locked :
    target d = Some h -> c = content d h -> p ∈ temps c ->
    touch_act p d (TouchRename locked) (touched locked)
      (set_dir h {| manifest := Some Intact; temps := temps c ∖ {[p]}; blobs := blobs c |} d)
| touch_rename_fails locked : touch_act p d (TouchRename locked) (touched locked) d.

(** *** [hold]: [hold_entry], then another look; the run, and the loop of [ensure_model] *)
Inductive hold_act (p : nat) (d : Store) : Phase -> Phase -> Store -> Prop :=
| hold_takes :
    in_use_sweep d = None ->
    hold_act p d HoldWait (Find3 true) (set_in_use None ({[p]} ∪ in_use d) d)
| hold_fails : hold_act p d HoldWait (Find3 false) d
| find3_intact held : found d = Some Intact -> hold_act p d (Find3 held) (Using held) d
| find3_miss held :
    found d = None \/ found d = Some Unparsed ->
    hold_act p d (Find3 held) Find1 (set_in_use (in_use_sweep d) (in_use d ∖ {[p]}) d)
| find3_fails held :
    hold_act p d (Find3 held) Idle (set_in_use (in_use_sweep d) (in_use d ∖ {[p]}) d)
| run_ends held :
    hold_act p d (Using held) Idle (set_in_use (in_use_sweep d) (in_use d ∖ {[p]}) d).

(** *** [create_staged_dir]: [StagedDir::create], [StagedDir::lock] and its [Drop] *)
Inductive stage_act (p : nat) (d : Store) : Phase -> Phase -> Store -> Prop :=
| new_creates a n :
    (a < STAGING_LOCK_ATTEMPTS)%nat -> n ∉ names d -> n.1 = p ->
    stage_act p d (SNew a) (SLock a n) (set_staging {[n]} (staged d) ({[n]} ∪ lock_files d) d)
| new_fails a : stage_act p d (SNew a) (Unfetch false) d
| stage_locks a n :
    staging_locks d !! n = None ->
    stage_act p d (SLock a n) (SCheck a n)
      (set_staging_locks (<[n := (p, Fetch)]> (staging_locks d)) d)
| stage_lock_fails a n : stage_act p d (SLock a n) (Unfetch false) d
| check_exists a n : n ∈ lock_files d -> stage_act p d (SCheck a n) (SMkdir n) d
(* [Path::exists] answers [false] for any error, and the next name is tried *)
| check_gone a n :
    stage_act p d (SCheck a n) (SNew (S a)) (set_staging_locks (delete n (staging_locks d)) d)
| mkdir_new n h :
    dirs d !! h = None -> staged d !! n = None ->
    stage_act p d (SMkdir n) (SWrite n need)
      (set_dir h new_dir (set_staging ∅ (<[n := h]> (staged d)) (lock_files d) d))
| mkdir_exists n h : staged d !! n = Some h -> stage_act p d (SMkdir n) (SWrite n need) d
| mkdir_fails n : stage_act p d (SMkdir n) (SDrop n false) d
| drop_unlinks n ok :
    stage_act p d (SDrop n ok) (SUnlock n ok)
      (set_staging ∅ (staged d) (lock_files d ∖ {[n]}) d)
| drop_fails n ok : stage_act p d (SDrop n ok) (SUnlock n ok) d
| stage_unlocks n ok :
    stage_act p d (SUnlock n ok) (Unfetch ok)
      (set_staging_locks (delete n (staging_locks d)) d).

(** *** [replace_dir_from_staged] and [install_dir_computing_manifest] *)
Inductive install_act (p : nat) (d : Store) : Phase -> Phase -> Store -> Prop :=
(* the closure: each file creates the directories above it *)
| write_file n h c b todo :
    staged d !! n = Some h -> c = content d h ->
    install_act p d (SWrite n todo) (SWrite n (todo ∖ {[b]}))
      (set_dir h {| manifest := manifest c; temps := temps c; blobs := {[b]} ∪ blobs c |} d)
| write_again n h b todo :
    staged d !! n = None -> dirs d !! h = None ->
    install_act p d (SWrite n todo) (SWrite n (todo ∖ {[b]}))
      (set_dir h {| manifest := None; temps := ∅; blobs := {[b]} |}
        (set_staging ∅ (<[n := h]> (staged d)) (lock_files d) d))
| write_done n : install_act p d (SWrite n ∅) (SManifest n) d
| write_fails n todo : install_act p d (SWrite n todo) (Remove (KCleanStaged n)) d
| manifest_written n h c :
    staged d !! n = Some h -> c = content d h -> manifest c = None ->
    install_act p d (SManifest n) (SPublish n)
      (set_dir h {| manifest := Some Intact; temps := temps c; blobs := blobs c |} d)
| manifest_fails n : install_act p d (SManifest n) (Remove (KCleanStaged n)) d
| publish_clears n : install_act p d (SPublish n) (Remove (KPublish n)) d
| publish_fails n : install_act p d (SPublish n) (Remove (KCleanTarget n)) d
| publish_renames n h :
    staged d !! n = Some h ->
    (forall h', target d = Some h' -> is_empty (content d h')) ->
    install_act p d (SRename n) (SDrop n true) (publish n h d)
| rename_fails n : install_act p d (SRename n) (Remove (KCleanTarget n)) d.

(** *** [remove_dir_all], and what removes nothing because nothing is there *)
Inductive remove_act (d : Store) : Phase -> Phase -> Store -> Prop :=
| remove_absent k : named d k = None -> remove_act d (Remove k) (after k true) d
| remove_opens k h : named d k = Some h -> remove_act d (Remove k) (Removing h k) d
| remove_open_fails k : remove_act d (Remove k) (after k false) d
| remove_child k h c :
    smaller (content d h) c -> remove_act d (Removing h k) (Removing h k) (set_dir h c d)
| remove_ends k h h' :
    named d k = Some h' -> is_empty (content d h') ->
    remove_act d (Removing h k) (after k true) (unlink k d)
| remove_gone k h : named d k = None -> remove_act d (Removing h k) (after k true) d
| remove_fails k h : remove_act d (Removing h k) (after k false) d.

(** *** A sweep of the entry: [move_out_and_remove] under [take_in_use_lock] *)
Inductive move_out_act (p : nat) (d : Store) : Phase -> Phase -> Store -> Prop :=
| sweep_takes :
    in_use_sweep d = None -> in_use d = ∅ ->
    move_out_act p d Idle WMove (set_in_use (Some p) ∅ d)
| sweep_moves h n :
    target d = Some h -> n ∉ names d -> n.1 = p ->
    move_out_act p d WMove (WUnlock (Some n)) (move_out n h d)
| sweep_move_fails : move_out_act p d WMove (WUnlock None) d
| sweep_unlocks n :
    move_out_act p d (WUnlock n) (match n with Some n => Remove (KDoomed n) | None => Idle end)
      (set_in_use None (in_use d) d).

(** *** A sweep of a staging child: [remove_entry] under [take_staging_lock] *)
Inductive child_act (p : nat) (d : Store) : Phase -> Phase -> Store -> Prop :=
| sweep_lists n :
    n ∈ lock_files d \/ is_Some (staged d !! n) -> child_act p d Idle (VOpen n) d
| lock_file_opens n : n ∈ lock_files d -> child_act p d (VOpen n) (VTry n) d
| lock_file_missing n : n ∉ lock_files d -> child_act p d (VOpen n) (Remove (KSwept n false)) d
| lock_file_fails n : child_act p d (VOpen n) Idle d
| try_takes n ph :
    staging_locks d !! n = None ->
    (* a staged dir, its lock file alone, or the survey, which only looks *)
    ph = Remove (KSwept n true) \/ ph = VRmLock n true \/ ph = VUnlock n ->
    child_act p d (VTry n) ph (set_staging_locks (<[n := (p, Sweep)]> (staging_locks d)) d)
| try_fails n : child_act p d (VTry n) Idle d
| lock_file_removed n locked :
    child_act p d (VRmLock n locked) (if locked then VUnlock n else Idle)
      (set_staging ∅ (staged d) (lock_files d ∖ {[n]}) d)
| lock_file_stays n locked :
    child_act p d (VRmLock n locked) (if locked then VUnlock n else Idle) d
| child_unlocks n :
    child_act p d (VUnlock n) Idle (set_staging_locks (delete n (staging_locks d)) d).

(** ** The processes together *)

Record World := { store : Store; procs : gmap nat Phase }.

(** [removes]: whether an operator's [remove] of the entry is among the processes. *)
Inductive act (removes : bool) (p : nat) (d : Store) : Phase -> Phase -> Store -> Prop :=
| act_starts : act removes p d Idle Find1 d
| act_removes : removes = true -> act removes p d Idle (Remove KRemoved) d
| act_ensure ph ph' d' : ensure_act p d ph ph' d' -> act removes p d ph ph' d'
| act_touch ph ph' d' : touch_act p d ph ph' d' -> act removes p d ph ph' d'
| act_hold ph ph' d' : hold_act p d ph ph' d' -> act removes p d ph ph' d'
| act_stage ph ph' d' : stage_act p d ph ph' d' -> act removes p d ph ph' d'
| act_install ph ph' d' : install_act p d ph ph' d' -> act removes p d ph ph' d'
| act_remove ph ph' d' : remove_act d ph ph' d' -> act removes p d ph ph' d'
| act_move_out ph ph' d' : move_out_act p d ph ph' d' -> act removes p d ph ph' d'
| act_child ph ph' d' : child_act p d ph ph' d' -> act removes p d ph ph' d'.

Inductive entry_step (removes : bool) : World -> World -> Prop :=
| process_acts w p ph ph' d' :
    procs w !! p = Some ph -> act removes p (store w) ph ph' d' ->
    entry_step removes w {| store := d'; procs := <[p := ph']> (procs w) |}
| process_dies w p ph :
    procs w !! p = Some ph ->
    entry_step removes w {| store := let_go p (store w); procs := <[p := Dead]> (procs w) |}.

(** A store as an earlier day left it: whole if intact, orphans under [.staging], no lock. *)
Record at_rest (d : Store) : Prop := {
  rest_target : forall h, target d = Some h -> is_Some (dirs d !! h);
  rest_staged : forall n h, staged d !! n = Some h -> is_Some (dirs d !! h) /\ n ∈ names d;
  rest_once : forall n n' h, staged d !! n = Some h -> staged d !! n' = Some h -> n = n';
  rest_apart : forall n h, target d = Some h -> staged d !! n <> Some h;
  rest_files : lock_files d ⊆ names d;
  rest_whole : forall h, target d = Some h -> found d = Some Intact -> need ⊆ blobs (content d h);
}.

Definition entry_init (w : World) : Prop :=
  at_rest (store w) /\ staging_locks (store w) = ∅ /\ fetch_lock (store w) = None /\
  in_use_sweep (store w) = None /\ in_use (store w) = ∅ /\ publishes (store w) = 0%nat /\
  swept (store w) = 0%nat /\ forall p ph, procs w !! p = Some ph -> ph = Idle.
End Steps.

(** ** What every process can rely on *)

Definition good (d : Store) : Prop := found d = Some Intact.
Definition settled (d : Store) : Prop := target d = None \/ good d.

(** Process [q] is filling the directory [h]: it holds the lock beside it. *)
Definition filling (d : Store) (q h : nat) : Prop :=
  exists n, n.1 = q /\ staged d !! n = Some h /\ n ∈ lock_files d /\
    staging_locks d !! n = Some (q, Fetch).

(** A directory process [p] may take apart: nobody else fills it and it is no intact entry. *)
Definition removable (p : nat) (d : Store) (h : nat) : Prop :=
  is_Some (dirs d !! h) /\ (forall q, q <> p -> ~ filling d q h) /\
  (target d = Some h -> ~ good d).

(** A staging child process [p] may take apart. *)
Definition guarded (p : nat) (d : Store) (n : Name) : Prop :=
  n.1 = p \/ staging_locks d !! n = Some (p, Sweep) \/ (n ∈ names d /\ n ∉ lock_files d).

Section Invariant.
Context (need : gset nat).

Record store_ok (d : Store) : Prop := {
  ok_rest : at_rest need d;
  ok_sweep : forall p, in_use_sweep d = Some p -> in_use d = ∅;
  ok_count : (publishes d <= swept d + if intact d then 1 else 0)%nat;
}.

(** The fetch of [p] under the fetch lock, before and after its staged directory is made. *)
Definition fetching (p : nat) (d : Store) : Prop := fetch_lock d = Some p /\ ~ good d.

Definition filled (p : nat) (d : Store) (n : Name) (m : option Manifest) (have : gset nat) : Prop :=
  fetching p d /\ n.1 = p /\ staging_locks d !! n = Some (p, Fetch) /\ n ∈ lock_files d /\
  exists h, staged d !! n = Some h /\ manifest (content d h) = m /\ have ⊆ blobs (content d h).

Definition kont_ok (removes : bool) (p : nat) (d : Store) (k : Kont) : Prop :=
  match k with
  | KRefetch => fetching p d
  | KPublish n => filled p d n (Some Intact) need
  | KCleanTarget n => fetching p d /\ n.1 = p /\ staging_locks d !! n = Some (p, Fetch)
  | KCleanStaged n => fetch_lock d = Some p /\ n.1 = p /\ staging_locks d !! n = Some (p, Fetch)
  | KDoomed n => n.1 = p
  | KSwept n locked =>
      if locked then staging_locks d !! n = Some (p, Sweep) else n ∈ names d /\ n ∉ lock_files d
  | KRemoved => removes = true
  end.

Definition phase_ok (p : nat) (d : Store) (ph : Phase) : Prop :=
  match ph with
  | Idle | Dead | Find1 | LockWait | HoldWait | VTry _ => True
  | TouchCreate locked | TouchRename locked =>
      settled d /\ (locked = true -> fetch_lock d = Some p)
  | Find2 | Unfetch _ => fetch_lock d = Some p
  | Remove k => kont_ok false p d k
  | Removing h k =>
      kont_ok false p d k /\ removable p d h /\
      match k with KPublish n => staged d !! n <> Some h | _ => True end
  | SNew _ => fetching p d
  | SLock _ n => fetching p d /\ n.1 = p /\ n ∈ names d /\ staged d !! n = None
  | SCheck _ n =>
      fetching p d /\ n.1 = p /\ staging_locks d !! n = Some (p, Fetch) /\ staged d !! n = None
  | SMkdir n =>
      fetching p d /\ n.1 = p /\ staging_locks d !! n = Some (p, Fetch) /\ staged d !! n = None /\
      n ∈ lock_files d
  | SWrite n todo => filled p d n None (need ∖ todo)
  | SManifest n => filled p d n None need
  | SPublish n | SRename n => filled p d n (Some Intact) need
  | SDrop n _ | SUnlock n _ =>
      fetch_lock d = Some p /\ n.1 = p /\ staging_locks d !! n = Some (p, Fetch)
  | Find3 held => held = true -> p ∈ in_use d
  | Using held => held = true -> p ∈ in_use d /\ good d
  | WMove => in_use_sweep d = Some p
  | WUnlock on => in_use_sweep d = Some p /\ forall n, on = Some n -> n.1 = p
  | VOpen n => n ∈ names d
  | VRmLock n locked => kont_ok false p d (KSwept n locked)
  | VUnlock n => staging_locks d !! n = Some (p, Sweep)
  end.

(** What a step of process [p] leaves of the others. *)
Record leaves (p : nat) (d d' : Store) : Prop := {
  leaves_fetch q : q <> p -> fetch_lock d = Some q -> fetch_lock d' = Some q;
  leaves_lock q r n : q <> p -> staging_locks d !! n = Some (q, r) ->
    staging_locks d' !! n = Some (q, r);
  leaves_use q : q <> p -> q ∈ in_use d -> q ∈ in_use d';
  leaves_sweep q : q <> p -> in_use_sweep d = Some q -> in_use_sweep d' = Some q;
  leaves_names : names d ⊆ names d';
  leaves_gone n : n ∈ names d -> n ∉ lock_files d -> n ∉ lock_files d';
  leaves_file q r n : q <> p -> staging_locks d !! n = Some (q, r) -> n ∈ lock_files d ->
    n ∈ lock_files d';
  leaves_free n : n.1 <> p -> staged d !! n = None -> staged d' !! n = None;
  leaves_staged q n h : q <> p -> n.1 = q -> staged d !! n = Some h -> n ∈ lock_files d ->
    staging_locks d !! n = Some (q, Fetch) ->
    staged d' !! n = Some h /\ content d' h = content d h;
  leaves_bad q : q <> p -> fetch_lock d = Some q -> good d' -> good d;
  leaves_good q : q <> p -> q ∈ in_use d -> good d -> good d';
  leaves_settled : settled d -> settled d';
  leaves_removable q h : q <> p -> removable q d h -> removable q d' h;
}.

Lemma fetching_stable p q d d' :
  q <> p -> leaves p d d' -> fetching q d -> fetching q d'.
Proof.
  intros Hq L [Hl Hg]. split; [by eapply leaves_fetch|]. intros Hg'. apply Hg.
  by eapply (leaves_bad _ _ _ L q).
Qed.

Lemma filled_stable p q d d' n m have :
  q <> p -> leaves p d d' -> filled q d n m have -> filled q d' n m have.
Proof.
  intros Hq L (F & Hn & Hl & Hm & h & Hs & Hc).
  destruct (leaves_staged _ _ _ L q n h) as [? Hc']; try done.
  split_and!; eauto using leaves_lock, leaves_file, fetching_stable. exists h. by rewrite Hc'.
Qed.

Lemma kont_stable p q d d' k :
  q <> p -> leaves p d d' -> kont_ok false q d k -> kont_ok false q d' k.
Proof.
  intros Hq L. destruct k as [|n|n|n|n|n [|]|]; cbn; try done;
    try solve [eauto using leaves_lock, leaves_fetch, fetching_stable, filled_stable].
  - intros (F & Hn & Hl). split_and!; eauto using leaves_lock, fetching_stable.
  - intros (F & Hn & Hl). split_and!; eauto using leaves_lock, leaves_fetch.
  - intros [? ?]. split; [|by eapply leaves_gone]. by eapply leaves_names.
Qed.

Lemma phase_stable p q d d' ph :
  q <> p -> leaves p d d' -> phase_ok q d ph -> phase_ok q d' ph.
Proof.
  intros Hq L. pose proof (fetching_stable p q d d' Hq L) as Hf.
  pose proof (filled_stable p q d d') as Hfill.
  pose proof (kont_stable p q d d') as Hk.
  destruct ph as [| | | | | | |k|h k|a|a n|a n|n|n todo|n|n|n|n ok|n ok|ok| |held|held| |on|n|n|n l|n];
    cbn; try done; try solve [eauto using leaves_fetch, leaves_lock].
  - intros [? ?]. split; eauto using leaves_settled, leaves_fetch.
  - intros [? ?]. split; eauto using leaves_settled, leaves_fetch.
  - intros (Hko & ? & Hne). split_and!; eauto using leaves_removable.
    destruct k as [|n| | | | |]; try done. destruct Hko as (_ & Hn & Hl & Hm & h' & Hs & _).
    destruct (leaves_staged _ _ _ L q n h') as [-> _]; try done. congruence.
  - intros (? & Hn & ? & ?). split_and!; auto; [by eapply leaves_names|].
    eapply leaves_free; [done|congruence|done].
  - intros (? & Hn & ? & ?). split_and!; eauto using leaves_lock.
    eapply leaves_free; [done|congruence|done].
  - intros (? & Hn & ? & ? & ?). split_and!; eauto using leaves_lock, leaves_file.
    eapply leaves_free; [done|congruence|done].
  - intros (? & ? & ?). split_and!; eauto using leaves_fetch, leaves_lock.
  - intros (? & ? & ?). split_and!; eauto using leaves_fetch, leaves_lock.
  - intros Hin Hh. eauto using leaves_use.
  - intros Hin Hh. destruct (Hin Hh). eauto using leaves_use, leaves_good.
  - eauto using leaves_sweep.
  - intros [? ?]. eauto using leaves_sweep.
  - intros Hn. by eapply leaves_names.
  - intros. by apply (Hk (KSwept n l)).
Qed.

(** *** Steps that move locks and names *)

Lemma found_same d d' : dirs d' = dirs d -> target d' = target d -> found d' = found d.
Proof. unfold found, content. by intros -> ->. Qed.

Lemma leaves_renaming p d d' :
  dirs d' = dirs d -> target d' = target d ->
  (forall q, q <> p -> fetch_lock d = Some q -> fetch_lock d' = Some q) ->
  (forall q r n, q <> p -> staging_locks d !! n = Some (q, r) -> staging_locks d' !! n = Some (q, r)) ->
  (forall q, q <> p -> q ∈ in_use d -> q ∈ in_use d') ->
  (forall q, q <> p -> in_use_sweep d = Some q -> in_use_sweep d' = Some q) ->
  names d ⊆ names d' ->
  (forall n, n ∈ names d -> n ∉ lock_files d -> n ∉ lock_files d') ->
  (forall q r n, q <> p -> staging_locks d !! n = Some (q, r) -> n ∈ lock_files d -> n ∈ lock_files d') ->
  (forall n, n.1 <> p -> staged d !! n = None -> staged d' !! n = None) ->
  (forall n h, n.1 <> p -> staged d !! n = Some h -> n ∈ lock_files d ->
     staging_locks d !! n = Some (n.1, Fetch) -> staged d' !! n = Some h) ->
  (forall q h, filling d' q h -> filling d q h) ->
  leaves p d d'.
Proof.
  intros Ed Et Hf Hl Hu Hs Hn Hg Hfi Hfr Hst Hfill.
  assert (good d' <-> good d) as Eg by (unfold good; by rewrite (found_same d d')).
  split; try done; try solve [intros; by apply Eg].
  - intros q n h Hq <- Hh Hin Hlk. split; [by apply Hst|]. unfold content. by rewrite Ed.
  - unfold settled. rewrite Et. intros [|]; [by left|right; by apply Eg].
  - intros q h Hq (Hd & Hfl & Ht). split_and!; [by rewrite Ed| |by rewrite Et, Eg].
    intros q' Hq' Hx. apply (Hfl q' Hq'). by apply Hfill.
Qed.

Lemma leaves_refl p d : leaves p d d.
Proof. by apply leaves_renaming. Qed.

Lemma leaves_fetch_lock p d l :
  (forall q, q <> p -> fetch_lock d = Some q -> l = Some q) -> leaves p d (set_fetch_lock l d).
Proof. intros Hl. by apply leaves_renaming. Qed.

Lemma leaves_in_use p d s runs :
  (forall q, q <> p -> in_use_sweep d = Some q -> s = Some q) ->
  (forall q, q <> p -> q ∈ in_use d -> q ∈ runs) -> leaves p d (set_in_use s runs d).
Proof. intros. by apply leaves_renaming. Qed.

Lemma leaves_staging_lock p d n r :
  staging_locks d !! n = None -> (r = Fetch -> staged d !! n = None) ->
  leaves p d (set_staging_locks (<[n := (p, r)]> (staging_locks d)) d).
Proof.
  intros Hn Hr. apply leaves_renaming; try done; cbn.
  - intros q r' n' Hq Hl. rewrite lookup_insert_ne; [done|congruence].
  - intros q h (m & Hm & Hs & Hin & Hl). cbn in *. exists m. split_and!; try done.
    destruct (decide (n = m)) as [->|]; [|by rewrite lookup_insert_ne in Hl].
    rewrite lookup_insert_eq in Hl. injection Hl as _ ->. by rewrite Hr in Hs.
Qed.

Lemma leaves_staging_unlock p d n r :
  staging_locks d !! n = Some (p, r) ->
  leaves p d (set_staging_locks (delete n (staging_locks d)) d).
Proof.
  intros Hn. apply leaves_renaming; try done; cbn.
  - intros q r' n' Hq Hl. rewrite lookup_delete_ne; [done|congruence].
  - intros q h (m & Hm & Hs & Hin & Hl). cbn in *. exists m. split_and!; try done.
    by apply lookup_delete_Some in Hl as [_ ?].
Qed.

(** Unlinking the lock file of a name: by who holds its lock, or when it is gone already. *)
Lemma leaves_unlink_lock p d n :
  (exists r, staging_locks d !! n = Some (p, r)) \/ n ∉ lock_files d ->
  leaves p d (set_staging ∅ (staged d) (lock_files d ∖ {[n]}) d).
Proof.
  intros Hn. apply leaves_renaming; try done; cbn.
  - set_solver.
  - set_solver.
  - intros q r m Hq Hl Hin. apply elem_of_difference. split; [done|].
    intros ->%elem_of_singleton. destruct Hn as [[r' Hr]|]; [congruence|done].
  - intros q h (m & Hm & Hs & Hin & Hl). cbn in *. exists m. split_and!; try done. set_solver.
Qed.

Lemma guarded_filling p d n h q :
  store_ok d -> guarded p d n -> staged d !! n = Some h -> filling d q h -> q = p.
Proof.
  intros Hok Hg Hs (m & Hm & Hs' & Hin & Hl).
  assert (m = n) as -> by by eapply (rest_once _ _ (ok_rest d Hok)).
  destruct Hg as [Hn|[Hn|[_ Hn]]]; [congruence|congruence|done].
Qed.

(** Unlinking a staged directory that is empty. *)
Lemma leaves_unlink_staged p d n :
  guarded p d n -> leaves p d (set_staging ∅ (delete n (staged d)) (lock_files d) d).
Proof.
  intros Hg. apply leaves_renaming; try done; cbn.
  - set_solver.
  - intros m Hm Hs. rewrite lookup_delete_None. by right.
  - intros m h Hm Hs Hin Hl. rewrite lookup_delete_ne; [done|]. intros ->.
    destruct Hg as [Hn|[Hn|[_ Hn]]]; [congruence|congruence|done].
  - intros q h (m & Hm & Hs & Hin & Hl). cbn in *. exists m. split_and!; try done.
    by apply lookup_delete_Some in Hs as [_ ?].
Qed.

(** Drawing a name. *)
Lemma leaves_create_new p d n :
  n ∉ names d -> n.1 = p -> at_rest need d ->
  leaves p d (set_staging {[n]} (staged d) ({[n]} ∪ lock_files d) d).
Proof.
  intros Hn Hp Hr. apply leaves_renaming; try done; cbn; try set_solver.
  intros q h (m & Hm & Hs & Hin & Hl). cbn in *. exists m. split_and!; try done.
  apply elem_of_union in Hin as [->%elem_of_singleton|]; [|done].
  by apply (rest_staged _ _ Hr) in Hs as [_ ?].
Qed.

(** *** Steps that change directories *)

Lemma content_set_dir h c h' d : content (set_dir h c d) h' = if decide (h' = h) then c else content d h'.
Proof.
  unfold content. cbn. case_decide as E; [by rewrite E, lookup_insert_eq|].
  by rewrite lookup_insert_ne.
Qed.

Lemma good_target d h : target d = Some h -> good d <-> manifest (content d h) = Some Intact.
Proof. unfold good, found. by intros ->. Qed.

Lemma good_spec d : good d <-> exists h, target d = Some h /\ manifest (content d h) = Some Intact.
Proof.
  unfold good, found. destruct (target d) as [h|]; cbn; [|naive_solver].
  split; [by exists h|]. by intros (? & [= ->] & ?).
Qed.

Lemma good_set_dir h c d :
  (target d = Some h -> good d <-> manifest c = Some Intact) -> good (set_dir h c d) <-> good d.
Proof.
  intros Hc. rewrite !good_spec. setoid_rewrite content_set_dir. cbn. split.
  - intros (h' & Ht & Hm). case_decide as E; [|by exists h']. subst h'.
    apply good_spec. by apply Hc.
  - intros (h' & Ht & Hm). exists h'. split; [done|]. case_decide as E; [|done]. subst h'.
    apply Hc; [done|]. apply good_spec. by exists h.
Qed.

Lemma dirs_set_dir h c h' d : is_Some (dirs d !! h') -> is_Some (dirs (set_dir h c d) !! h').
Proof.
  intros Hd. cbn. destruct (decide (h = h')) as [->|]; [rewrite lookup_insert_eq; by eexists|].
  by rewrite lookup_insert_ne.
Qed.

Lemma leaves_set_dir p d h c :
  (forall q, q <> p -> ~ filling d q h) ->
  (target d = Some h -> good d <-> manifest c = Some Intact) ->
  leaves p d (set_dir h c d).
Proof.
  intros Hfill Hc. pose proof (good_set_dir h c d Hc) as Hg.
  split; try done; try solve [intros; by apply Hg].
  - intros q n h' Hq <- Hs Hin Hl. split; [done|]. rewrite content_set_dir.
    case_decide as E; [|done]. subst h'. destruct (Hfill _ Hq). by exists n.
  - intros [|]; [by left|right; by apply Hg].
  - intros q h' Hq (Hd & Hf & Ht). split_and!; [by apply dirs_set_dir|done|].
    intros Ht'. rewrite Hg. by apply Ht.
Qed.

Lemma leaves_mkdir p d n h c :
  at_rest need d -> dirs d !! h = None -> staged d !! n = None -> n.1 = p ->
  leaves p d (set_dir h c (set_staging ∅ (<[n := h]> (staged d)) (lock_files d) d)).
Proof.
  intros Hr Hh Hs Hp.
  assert (target d <> Some h) as Ht by (intros Ht%(rest_target _ _ Hr); by rewrite Hh in Ht; destruct Ht).
  set (d1 := set_staging ∅ (<[n := h]> (staged d)) (lock_files d) d).
  assert (good (set_dir h c d1) <-> good d) as Hg.
  { rewrite good_set_dir; [|done]. unfold good. by rewrite (found_same d d1). }
  split; try done; try solve [intros; by apply Hg]; try (cbn; set_solver).
  - intros m Hm Hms. cbn. rewrite lookup_insert_ne; [done|congruence].
  - intros q m h' Hq Hm Hms Hin Hl. split.
    + cbn. rewrite lookup_insert_ne; [done|]. intros ->. by rewrite Hs in Hms.
    + rewrite content_set_dir. case_decide as E; [|done]. subst h'.
      apply (rest_staged _ _ Hr) in Hms as [[? Hd] _]. by rewrite Hh in Hd.
  - intros [|]; [by left|right; by apply Hg].
  - intros q h' Hq (Hd & Hf & Htg). split_and!; [by apply dirs_set_dir| |].
    + intros q' Hq' (m & Hm & Hms & Hin & Hl). cbn in *.
      destruct (decide (n = m)) as [->|].
      * rewrite lookup_insert_eq in Hms. simplify_eq. by rewrite Hh in Hd; destruct Hd.
      * rewrite lookup_insert_ne in Hms by done. apply (Hf q' Hq'). by exists m.
    + rewrite Hg. done.
Qed.

Lemma found_publish n h d : found (publish n h d) = manifest (content d h).
Proof. done. Qed.

Lemma leaves_publish p d n h :
  fetching p d -> staged d !! n = Some h -> n.1 = p -> n ∈ lock_files d ->
  staging_locks d !! n = Some (p, Fetch) -> manifest (content d h) = Some Intact ->
  leaves p d (publish n h d).
Proof.
  intros [Hf Hng] Hs Hp Hin Hl Hm.
  assert (good (publish n h d)) as Hg by (unfold good; by rewrite found_publish).
  split; try done; try (cbn; set_solver).
  - intros m Hmp Hms. cbn. apply lookup_delete_None. by right.
  - intros q m h' Hq Hm' Hms _ _. split; [|done]. cbn. rewrite lookup_delete_ne; [done|congruence].
  - intros _. by right.
  - intros q h' Hq (Hd & Hfl & Ht). split_and!; [done| |].
    + intros q' Hq' (m & Hm' & Hms & Hin' & Hl'). cbn in *. apply lookup_delete_Some in Hms as [_ Hms].
      apply (Hfl q' Hq'). by exists m.
    + cbn. intros [= ->] _. apply (Hfl p); [done|]. by exists n.
Qed.

Lemma leaves_move_out p d n h :
  store_ok d -> in_use_sweep d = Some p -> n ∉ names d -> n.1 = p -> leaves p d (move_out n h d).
Proof.
  intros Hok Hs Hn Hp. pose proof (ok_sweep d Hok p Hs) as Hu. pose proof (ok_rest d Hok) as Hr.
  split; try done; try (cbn; set_solver).
  - intros m Hm Hms. cbn. rewrite lookup_insert_ne; [done|congruence].
  - intros q m h' Hq Hm Hms _ _. split; [|done]. cbn. rewrite lookup_insert_ne; [done|congruence].
  - intros _. by left.
  - intros q h' Hq (Hd & Hfl & Ht). split_and!; [done| |done].
    intros q' Hq' (m & Hm & Hms & Hin & Hl). cbn in *.
    destruct (decide (n = m)) as [->|]; [by apply (rest_files _ _ Hr) in Hin|].
    rewrite lookup_insert_ne in Hms by done. apply (Hfl q' Hq'). by exists m.
Qed.

Lemma leaves_unlink_target p d :
  ~ good d -> leaves p d (set_target None d).
Proof.
  intros Hg. split; try done.
  - intros _. by left.
  - intros q h Hq (Hd & Hfl & Ht). by split_and!.
Qed.

Lemma leaves_release p d : leaves p d (let_go p d).
Proof.
  apply leaves_renaming; try done; cbn.
  - intros q Hq Hf. rewrite bool_decide_eq_false_2; [done|congruence].
  - intros q r n Hq Hl. by apply map_lookup_filter_Some.
  - set_solver.
  - intros q Hq Hf. rewrite bool_decide_eq_false_2; [done|congruence].
  - intros q h (m & Hm & Hs & Hin & Hl). cbn in *. exists m. split_and!; try done.
    by apply map_lookup_filter_Some in Hl as [? _].
Qed.

(** *** The store stays well formed *)

Lemma ok_locks d d' :
  dirs d' = dirs d -> target d' = target d -> staged d' = staged d -> names d' = names d ->
  lock_files d' = lock_files d -> publishes d' = publishes d -> swept d' = swept d ->
  (forall p, in_use_sweep d' = Some p -> in_use d' = ∅) -> store_ok d -> store_ok d'.
Proof.
  intros Ed Et Es En El Ep Ew Hu [[Ht Hs Ho Ha Hf Hw] _ Hc].
  pose proof (found_same d d' Ed Et) as Ef.
  assert (content d' = content d) as Ec by (unfold content; by rewrite Ed).
  split; [split|done|]; rewrite ?Ed, ?Et, ?Es, ?En, ?El, ?Ef, ?Ec; try done.
  unfold intact in *. by rewrite Ep, Ew, Ef.
Qed.

Lemma ok_staging d used s f :
  f ⊆ names d ∪ used ->
  (forall n h, s !! n = Some h -> staged d !! n = Some h) ->
  store_ok d -> store_ok (set_staging used s f d).
Proof.
  intros Hf Hs [[Ht Hst Ho Ha Hfi Hw] Hu Hc]. split; [split|done|done]; cbn; try done.
  - intros n h Hn%Hs. destruct (Hst _ _ Hn). set_solver.
  - intros n n' h Hn%Hs Hn'%Hs. by eapply Ho.
  - intros n h Hth Hn%Hs. by eapply Ha.
Qed.

Lemma ok_set_dir h c d :
  (target d = Some h -> good d <-> manifest c = Some Intact) ->
  (target d = Some h -> good d -> need ⊆ blobs c) ->
  store_ok d -> store_ok (set_dir h c d).
Proof.
  intros Hg Hb [[Ht Hst Ho Ha Hfi Hw] Hu Hc]. pose proof (good_set_dir h c d Hg) as Hg'.
  split; [split|done|]; try done.
  - intros h' Hh'. by apply dirs_set_dir, Ht.
  - intros n h' Hn. destruct (Hst _ _ Hn). split; [by apply dirs_set_dir|done].
  - intros h' Hh' Hgood%Hg'. rewrite content_set_dir. case_decide as E; [subst; by apply Hb|by apply Hw].
  - cbn. unfold intact in *. by rewrite (bool_decide_ext _ _ Hg').
Qed.

Lemma ok_mkdir h c n d :
  dirs d !! h = None -> staged d !! n = None -> n ∈ names d ->
  store_ok d -> store_ok (set_dir h c (set_staging ∅ (<[n := h]> (staged d)) (lock_files d) d)).
Proof.
  intros Hh Hn Hin [[Ht Hst Ho Ha Hfi Hw] Hu Hc].
  assert (target d <> Some h) as Hne by (intros [? Hx]%Ht; by rewrite Hh in Hx).
  assert (forall m, staged d !! m <> Some h) as Hno by (intros m [[? Hx] _]%Hst; by rewrite Hh in Hx).
  set (d1 := set_staging ∅ (<[n := h]> (staged d)) (lock_files d) d).
  pose proof (good_set_dir h c d1) as Hg. 
  assert (good d1 <-> good d) as Hg1 by (unfold good; by rewrite (found_same d d1)).
  split; [split|done|]; try done.
  - intros h' Hh'. by apply dirs_set_dir, Ht.
  - intros m h'. cbn. intros [[<- <-]|[Hm Hs]]%lookup_insert_Some.
    + rewrite lookup_insert_eq. set_solver.
    + destruct (Hst _ _ Hs). split; [by apply (dirs_set_dir h c h' d)|set_solver].
  - intros m m' h'. cbn.
    intros [[<- <-]|[Hm Hs]]%lookup_insert_Some [[<- ?]|[Hm' Hs']]%lookup_insert_Some; try done.
    + by destruct (Hno m').
    + subst. by destruct (Hno m).
    + by eapply Ho.
  - intros m h' Hh'. cbn. intros [[<- <-]|[Hm Hs]]%lookup_insert_Some; [done|by eapply Ha].
  - cbn. set_solver.
  - intros h' Hh' Hgood. rewrite content_set_dir. case_decide as E; [subst; done|].
    apply (Hw h' Hh'), Hg1, Hg; [by cbn|done].
  - cbn. unfold intact in *. rewrite (bool_decide_ext _ (found d = Some Intact)); [done|].
    unfold good in *. rewrite Hg by (by cbn). done.
Qed.

Lemma intact_true d : good d -> intact d = true.
Proof. intros. by apply bool_decide_eq_true. Qed.

Lemma intact_false d : ~ good d -> intact d = false.
Proof. intros. by apply bool_decide_eq_false. Qed.

Lemma ok_publish n h d :
  staged d !! n = Some h -> ~ good d -> manifest (content d h) = Some Intact ->
  need ⊆ blobs (content d h) -> store_ok d -> store_ok (publish n h d).
Proof.
  intros Hs Hng Hm Hb [[Ht Hst Ho Ha Hfi Hw] Hu Hc]. split; [split|done|]; cbn.
  - intros h' [= <-]. by apply (Hst n).
  - intros m h' [_ Hms]%lookup_delete_Some. destruct (Hst _ _ Hms). set_solver.
  - intros m m' h' [_ Hms]%lookup_delete_Some [_ Hms']%lookup_delete_Some. by eapply Ho.
  - intros m h' [= <-] [Hmn Hms]%lookup_delete_Some. destruct Hmn. by eapply Ho.
  - set_solver.
  - intros h' [= <-] _. done.
  - rewrite (intact_false d Hng) in Hc.
    rewrite (intact_true (publish n h d)) by (unfold good; by rewrite found_publish). lia.
Qed.

Lemma ok_move_out n h d :
  target d = Some h -> n ∉ names d -> store_ok d -> store_ok (move_out n h d).
Proof.
  intros Hth Hn [[Ht Hst Ho Ha Hfi Hw] Hu Hc].
  assert (staged d !! n = None) as Hsn.
  { destruct (staged d !! n) as [h'|] eqn:E; [|done]. by apply Hst in E as [_ ?]. }
  split; [split|done|]; cbn.
  - done.
  - intros m h' [[<- <-]|[Hm Hs]]%lookup_insert_Some; [split; [by apply Ht|set_solver]|].
    destruct (Hst _ _ Hs). set_solver.
  - intros m m' h' [[<- <-]|[Hm Hs]]%lookup_insert_Some [[<- ?]|[Hm' Hs']]%lookup_insert_Some; try done.
    + by destruct (Ha m' h Hth).
    + subst. by destruct (Ha m h' Hth).
    + by eapply Ho.
  - done.
  - set_solver.
  - done.
  - replace (intact (move_out n h d)) with false by done. lia.
Qed.

Lemma ok_unlink_target d : ~ good d -> store_ok d -> store_ok (set_target None d).
Proof.
  intros Hg [[Ht Hst Ho Ha Hfi Hw] Hu Hc]. split; [split|done|]; try done.
  cbn. rewrite (intact_false d Hg) in Hc. lia.
Qed.

(** ** Every step is sound *)

Definition sound (p : nat) (d : Store) (ph' : Phase) (d' : Store) : Prop :=
  store_ok d' /\ phase_ok p d' ph' /\ leaves p d d'.

Lemma sound_stay p d ph' : store_ok d -> phase_ok p d ph' -> sound p d ph' d.
Proof. intros. split_and!; [done..|apply leaves_refl]. Qed.

Lemma kont_after p d k ok : kont_ok false p d k -> phase_ok p d (after k ok).
Proof.
  destruct k as [|n|n|n|n|n [|]|], ok; cbn; try done; try (by intros [? ?]);
    try (intros ((? & ?) & ?); naive_solver).
  by intros (? & ? & ? & _).
Qed.

Lemma kont_guarded p d k n : kont_ok false p d k -> place k = Some n -> guarded p d n.
Proof. destruct k as [| | |m|m|m [|]|]; cbn; intros Hk [= <-]; unfold guarded; naive_solver. Qed.

Lemma named_removable p d k h :
  store_ok d -> kont_ok false p d k -> named d k = Some h ->
  removable p d h /\ match k with KPublish n => staged d !! n <> Some h | _ => True end.
Proof.
  intros Hok Hk Hn. pose proof (ok_rest d Hok) as Hr. unfold named in Hn.
  destruct (place k) as [n|] eqn:Ep.
  - split; [|by destruct k]. split_and!.
    + by apply (rest_staged _ _ Hr) in Hn as [? _].
    + intros q Hq Hf. destruct Hq. eapply guarded_filling; [done| |done..]. by eapply kont_guarded.
    + intros Ht. by destruct (rest_apart _ _ Hr n h Ht).
  - assert (forall n, staged d !! n <> Some h) as Hs by (intros n; by apply (rest_apart _ _ Hr)).
    split; [|destruct k; done]. split_and!.
    + by apply (rest_target _ _ Hr).
    + intros q _ (n & _ & Hns & _). by destruct (Hs n).
    + intros _. destruct k as [|n|n| | | |]; cbn in Hk; try done; [apply Hk|apply Hk..].
Qed.

Lemma remove_sound p d ph ph' d' :
  store_ok d -> phase_ok p d ph -> remove_act d ph ph' d' -> sound p d ph' d'.
Proof.
  intros Hok Hph Ha. destruct Ha as [k Hn|k h Hn|k|k h c Hc|k h h' Hn He|k h Hn|k h]; cbn in Hph.
  - apply sound_stay; [done|]. by apply kont_after.
  - apply sound_stay; [done|]. cbn. destruct (named_removable p d k h); auto.
  - apply sound_stay; [done|]. by apply kont_after.
  - destruct Hph as (Hk & Hrm & Hne). pose proof Hrm as (Hd & Hf & Hng).
    assert (target d = Some h -> good d <-> manifest c = Some Intact) as Hgc.
    { intros Ht. pose proof (good_target d h Ht) as Hg. specialize (Hng Ht).
      split; [done|]. intros Hm. destruct Hng. apply Hg. by destruct Hc. }
    pose proof (good_set_dir h c d Hgc) as Hg. split_and!.
    + apply ok_set_dir; [done| |done]. intros Ht. by specialize (Hng Ht).
    + cbn. split_and!; [|split_and!; [by apply dirs_set_dir|done|by rewrite Hg]|done].
      destruct k as [|n|n|n|n|n l|]; cbn in *; try done.
      * split; [apply Hk|]. rewrite Hg. apply Hk.
      * destruct Hk as ((? & ?) & Hn & Hl & Hm & h' & Hs & Hc'). split_and!; try done.
        { split; [done|]. by rewrite Hg. }
        exists h'. rewrite content_set_dir. case_decide; [by subst|done].
      * destruct Hk as ((? & ?) & Hn & Hl). split_and!; try done. split; [done|]. by rewrite Hg.
    + by apply leaves_set_dir.
  - destruct Hph as (Hk & _ & _). unfold named, unlink in *. destruct (place k) as [n|] eqn:Ep.
    + split_and!.
      * apply ok_staging; [|by intros ?? [_ ?]%lookup_delete_Some|done].
        pose proof (rest_files _ _ (ok_rest d Hok)). set_solver.
      * apply kont_after. destruct k; try done. destruct locked; set_solver.
      * apply leaves_unlink_staged. by eapply kont_guarded.
    + assert (~ good d) as Hng by (rewrite (good_target d h' Hn); by destruct He as [-> _]).
      split_and!; [by apply ok_unlink_target| |by apply leaves_unlink_target].
      apply kont_after. destruct k as [|n|n| | | |]; try done.
      * by destruct Hk.
      * destruct Hk as ((? & ?) & ?). done.
      * destruct Hk as ((? & ?) & ?). done.
  - apply sound_stay; [done|]. apply kont_after, Hph.
  - apply sound_stay; [done|]. apply kont_after, Hph.
Qed.

Lemma sound_fetch_lock p d l ph' :
  store_ok d -> (forall q, q <> p -> fetch_lock d = Some q -> l = Some q) ->
  phase_ok p (set_fetch_lock l d) ph' -> sound p d ph' (set_fetch_lock l d).
Proof.
  intros Hok Hl Hph. split_and!; [|done|by apply leaves_fetch_lock].
  apply (ok_locks d); try done. apply Hok.
Qed.

Lemma sound_in_use p d s runs ph' :
  store_ok d -> (forall q, q <> p -> in_use_sweep d = Some q -> s = Some q) ->
  (forall q, q <> p -> q ∈ in_use d -> q ∈ runs) -> (forall q, s = Some q -> runs = ∅) ->
  phase_ok p (set_in_use s runs d) ph' -> sound p d ph' (set_in_use s runs d).
Proof.
  intros Hok Hs Hr He Hph. split_and!; [|done|by apply leaves_in_use]. by apply (ok_locks d).
Qed.

(** Letting go of the in-use lock. *)
Lemma sound_release p d ph' :
  store_ok d -> (forall d', phase_ok p d' ph') ->
  sound p d ph' (set_in_use (in_use_sweep d) (in_use d ∖ {[p]}) d).
Proof.
  intros Hok Hph. apply sound_in_use; try done; [set_solver|].
  intros q Hq. pose proof (ok_sweep d Hok q Hq). set_solver.
Qed.

Lemma ok_staging_locks d l : store_ok d -> store_ok (set_staging_locks l d).
Proof. intros Hok. apply (ok_locks d); try done. apply Hok. Qed.

Lemma ensure_sound p d ph ph' d' :
  store_ok d -> phase_ok p d ph -> ensure_act p d ph ph' d' -> sound p d ph' d'.
Proof.
  intros Hok Hph Ha. destruct Ha as [Hf| | |Hl| |Hf|Hf|Hf| |ok]; cbn in Hph;
    try (apply sound_stay; [done|cbn; try tauto]).
  - split; [by right|done].
  - apply sound_fetch_lock; [done|congruence|done].
  - split; [by right|done].
  - split; [done|]. unfold good. congruence.
  - split; [done|]. unfold good. congruence.
  - apply sound_fetch_lock; [done|congruence|by destruct ok].
Qed.

Lemma touched_ok p d locked : (locked = true -> fetch_lock d = Some p) -> phase_ok p d (touched locked).
Proof. destruct locked; [|done]. intros Hl. by apply Hl. Qed.

(** A touch rewrites the manifest of an intact entry. *)
Lemma sound_touch p d h c locked ph' :
  store_ok d -> phase_ok p d (TouchCreate locked) -> target d = Some h ->
  (good d -> manifest c = Some Intact) -> blobs c = blobs (content d h) ->
  ((locked = true -> fetch_lock d = Some p) -> settled (set_dir h c d) ->
     phase_ok p (set_dir h c d) ph') ->
  sound p d ph' (set_dir h c d).
Proof.
  intros Hok [[|Hg] Hl] Ht Hm Hb Hph'; [congruence|].
  assert (target d = Some h -> good d <-> manifest c = Some Intact) as Hgc by naive_solver.
  pose proof (good_set_dir h c d Hgc) as Hg'. split_and!.
  - apply ok_set_dir; [done| |done]. intros _ _. rewrite Hb.
    by apply (rest_whole _ _ (ok_rest d Hok)).
  - apply Hph'; [done|]. right. by apply Hg'.
  - apply leaves_set_dir; [|done]. intros q _ (n & _ & Hs & _).
    by apply (rest_apart _ _ (ok_rest d Hok) n h).
Qed.

Lemma touch_sound p d ph ph' d' :
  store_ok d -> phase_ok p d ph -> touch_act p d ph ph' d' -> sound p d ph' d'.
Proof.
  intros Hok Hph Ha. destruct Ha as [h c locked Ht ->|locked|h c locked Ht -> Hin|locked]; cbn in Hph.
  - eapply sound_touch; [done|exact Hph|done| |done|done]. cbn. by rewrite (good_target d h).
  - apply sound_stay; [done|]. by apply touched_ok, Hph.
  - eapply sound_touch; [done|exact Hph|done..|]. intros Hl _. by apply touched_ok.
  - apply sound_stay; [done|]. by apply touched_ok, Hph.
Qed.

Lemma hold_sound p d ph ph' d' :
  store_ok d -> phase_ok p d ph -> hold_act p d ph ph' d' -> sound p d ph' d'.
Proof.
  intros Hok Hph Ha. destruct Ha as [Hs| |held Hf|held Hf|held|held]; cbn in Hph.
  - apply sound_in_use; [done|congruence|set_solver|done|]. cbn. set_solver.
  - by apply sound_stay.
  - apply sound_stay; [done|]. intros Hh. split; [by apply Hph|done].
  - by apply sound_release.
  - by apply sound_release.
  - by apply sound_release.
Qed.

Lemma move_out_sound p d ph ph' d' :
  store_ok d -> phase_ok p d ph -> move_out_act p d ph ph' d' -> sound p d ph' d'.
Proof.
  intros Hok Hph Ha. destruct Ha as [Hs Hu|h n Ht Hn Hp| |n]; cbn in Hph.
  - apply sound_in_use; [done|congruence|set_solver|done|done].
  - split_and!; [by apply ok_move_out| |by apply leaves_move_out]. split; [done|congruence].
  - apply sound_stay; [done|]. done.
  - destruct Hph. apply sound_in_use; [done|congruence|done|done|]. destruct n; [cbn; by auto|done].
Qed.

Lemma child_sound p d ph ph' d' :
  store_ok d -> phase_ok p d ph -> child_act p d ph ph' d' -> sound p d ph' d'.
Proof.
  intros Hok Hph Ha. pose proof (ok_rest d Hok) as Hr.
  destruct Ha as [n Hn|n Hn|n Hn|n|n ph Hn Hph'|n|n locked|n locked|n];
    cbn in Hph; try (apply sound_stay; [done|]; try done; try (destruct locked; done)).
  - cbn. destruct Hn as [|[h Hn]]; [by apply (rest_files _ _ Hr)|].
    by apply (rest_staged _ _ Hr) in Hn as [_ ?].
  - split_and!; [by apply ok_staging_locks| |by apply leaves_staging_lock].
    destruct Hph' as [->|[->| ->]]; cbn; by rewrite lookup_insert_eq.
  - split_and!.
    + apply ok_staging; [|done..]. pose proof (rest_files _ _ Hr). set_solver.
    + destruct locked; done.
    + apply leaves_unlink_lock. destruct locked; [left; by eexists|right; apply Hph].
  - split_and!; [by apply ok_staging_locks|done|]. by eapply leaves_staging_unlock.
Qed.

(** The fetch changes a directory it fills. *)
Lemma filled_set_dir p d n m have c :
  store_ok d -> filled p d n m have ->
  forall h, staged d !! n = Some h -> blobs (content d h) ⊆ blobs c ->
  store_ok (set_dir h c d) /\ leaves p d (set_dir h c d) /\
  filled p (set_dir h c d) n (manifest c) (blobs c).
Proof.
  intros Hok (Hf & Hn & Hl & Hin & _) h Hs Hb.
  assert (target d = Some h -> good d <-> manifest c = Some Intact) as Hgc.
  { intros Ht. by destruct (rest_apart _ _ (ok_rest d Hok) n h Ht). }
  split_and!.
  - apply ok_set_dir; [done| |done]. intros Ht. by destruct (rest_apart _ _ (ok_rest d Hok) n h Ht).
  - apply leaves_set_dir; [|done]. intros q Hq Hfl. destruct Hq.
    by eapply (guarded_filling p d n h); [|left|..].
  - destruct Hf as [? Hg]. split; [|split_and!; try done].
    + split; [done|]. by rewrite good_set_dir.
    + exists h. rewrite content_set_dir. by rewrite decide_True.
Qed.

Lemma filled_weaken p d n m have have' :
  filled p d n m have -> have' ⊆ have -> filled p d n m have'.
Proof. intros (? & ? & ? & ? & h & ? & ? & ?) ?. split_and!; try done. exists h. split_and!; set_solver. Qed.

Lemma stage_sound p d ph ph' d' :
  store_ok d -> phase_ok p d ph -> stage_act need p d ph ph' d' -> sound p d ph' d'.
Proof.
  intros Hok Hph Ha. pose proof (ok_rest d Hok) as Hr. pose proof (rest_files _ _ Hr) as Hfi.
  destruct Ha as [a n Hlt Hn Hp|a|a n Hl|a n|a n Hin|a n|n h Hh Hs|n h Hs|n|n ok|n ok|n ok];
    cbn in Hph; try (apply sound_stay; [done|cbn; unfold fetching in *; tauto]).
  - split_and!; [apply ok_staging; [set_solver|done..]| |by apply leaves_create_new].
    cbn. split_and!; [done..|set_solver|].
    destruct (staged d !! n) eqn:E; [|done]. by apply (rest_staged _ _ Hr) in E as [_ ?].
  - destruct Hph as (? & ? & ? & ?).
    split_and!; [by apply ok_staging_locks| |by apply leaves_staging_lock].
    cbn. split_and!; try done. by rewrite lookup_insert_eq.
  - destruct Hph as (? & ? & ? & ?).
    split_and!; [by apply ok_staging_locks|done|by eapply leaves_staging_unlock].
  - destruct Hph as ([Hf Hg] & Hn & Hl & _ & Hin).
    split_and!; [apply ok_mkdir; try done; set_solver| |by apply leaves_mkdir].
    cbn. split; [|split_and!; try done].
    + split; [done|]. rewrite good_set_dir; [done|]. cbn. intros [? Ht]%(rest_target _ _ Hr).
      by rewrite Hh in Ht.
    + exists h. rewrite content_set_dir, decide_True by done. cbn. rewrite lookup_insert_eq.
      split_and!; [done..|]. set_solver.
  - destruct Hph as (_ & _ & _ & Hs' & _). congruence.
  - destruct Hph as (? & ? & ?). split_and!; [apply ok_staging; [set_solver|done..]|done|].
    apply leaves_unlink_lock. left. by eexists.
  - destruct Hph as (? & ? & ?).
    split_and!; [by apply ok_staging_locks|done|by eapply leaves_staging_unlock].
Qed.

Lemma install_sound p d ph ph' d' :
  store_ok d -> phase_ok p d ph -> install_act p d ph ph' d' -> sound p d ph' d'.
Proof.
  intros Hok Hph Ha.
  destruct Ha as [n h c b todo Hs ->|n h b todo Hs Hh|n|n todo|n h c Hs -> Hm|n|n|n|n h Hs He|n];
    cbn in Hph; try (apply sound_stay; [done|cbn; unfold filled, fetching in *; tauto]).
  - pose proof Hph as (_ & _ & _ & _ & h' & Hs' & Hm & Hb). simplify_eq.
    edestruct (filled_set_dir p d n) as (Hok' & Hl & Hfd); [done|exact Hph|done| |].
    2: { split_and!; [exact Hok'| |exact Hl]. cbn in *. rewrite Hm in *.
         eapply filled_weaken; [exact Hfd|]. cbn. intros x. destruct (decide (x = b)); set_solver. }
    cbn. set_solver.
  - destruct Hph as (_ & _ & _ & _ & h' & Hs' & _). congruence.
  - apply sound_stay; [done|]. cbn. eapply filled_weaken; [done|]. set_solver.
  - pose proof Hph as (_ & _ & _ & _ & h' & Hs' & Hm' & Hb). simplify_eq.
    edestruct (filled_set_dir p d n) as (Hok' & Hl & Hfd); [done|exact Hph|done| |].
    2: { split_and!; [exact Hok'| |exact Hl]. cbn in *. by eapply filled_weaken. }
    done.
  - destruct Hph as (Hf & Hn & Hl & Hin & h' & Hs' & Hm & Hb). simplify_eq. split_and!.
    + apply ok_publish; try done. apply Hf.
    + cbn. split; [apply Hf|done].
    + by apply leaves_publish.
Qed.

Lemma act_sound p d ph ph' d' :
  store_ok d -> phase_ok p d ph -> act need false p d ph ph' d' -> sound p d ph' d'.
Proof.
  intros Hok Hph H. destruct H; [by apply sound_stay|done|..];
    eauto using ensure_sound, touch_sound, hold_sound, stage_sound, install_sound, remove_sound,
      move_out_sound, child_sound.
Qed.

Definition world_ok (w : World) : Prop :=
  store_ok (store w) /\ forall p ph, procs w !! p = Some ph -> phase_ok p (store w) ph.

Lemma entry_step_ok w w' : world_ok w -> entry_step need false w w' -> world_ok w'.
Proof.
  intros [Hok Hps] Hst.
  assert (forall p ph' d', phase_ok p d' ph' -> leaves p (store w) d' -> forall q ph,
    <[p := ph']> (procs w) !! q = Some ph -> phase_ok q d' ph) as Hothers.
  { intros p ph' d' Hph' Hl q ph [[<- <-]|[Hne Hq]]%lookup_insert_Some; [done|].
    eapply phase_stable; [|done|by apply Hps]. done. }
  destruct Hst as [w p ph ph' d' Hp Ha|w p ph Hp].
  - destruct (act_sound p (store w) ph ph' d') as (Hok' & Hph' & Hl); [done|by apply Hps|done|].
    split; [done|]. by eapply Hothers.
  - split; [|apply (Hothers p); [done|apply leaves_release]].
    apply (ok_locks (store w)); try done. cbn. intros q. case_bool_decide; [done|].
    intros Hq. pose proof (ok_sweep _ Hok q Hq). set_solver.
Qed.

Lemma entry_init_ok w : entry_init need w -> world_ok w.
Proof.
  intros (Hr & Hl & Hf & Hs & Hu & Hp & Hw & Hps). split; [split|].
  - done.
  - intros p. by rewrite Hs.
  - lia.
  - intros p ph ->%Hps. done.
Qed.

Lemma reachable_world_ok w : reachable (entry_init need) (entry_step need false) w -> world_ok w.
Proof. apply reachable_invariant; [apply entry_init_ok|apply entry_step_ok]. Qed.

(** The phases of [ensure] between taking the fetch lock and letting it go. *)
Definition kont_fetches (k : Kont) : bool :=
  match k with
  | KRefetch | KPublish _ | KCleanTarget _ | KCleanStaged _ => true
  | KDoomed _ | KSwept _ _ | KRemoved => false
  end.

Definition fetches (ph : Phase) : bool :=
  match ph with
  | TouchCreate locked | TouchRename locked => locked
  | Find2 | SNew _ | SLock _ _ | SCheck _ _ | SMkdir _ | SWrite _ _ | SManifest _ | SPublish _
  | SRename _ | SDrop _ _ | SUnlock _ _ | Unfetch _ => true
  | Remove k | Removing _ k => kont_fetches k
  | _ => false
  end.

Lemma fetches_locked p d ph : phase_ok p d ph -> fetches ph = true -> fetch_lock d = Some p.
Proof.
  destruct ph as [| | |l|l| | |k|h k|a|a n|a n|n|n todo|n|n|n|n ok|n ok|ok| |held|held| |on|n|n|n l|n];
    cbn; try done; unfold filled, fetching; try tauto.
  - destruct k; cbn; try done; unfold filled, fetching; tauto.
  - destruct k; cbn; try done; unfold filled, fetching; tauto.
Qed.
End Invariant.

(** ** What sharing a store guarantees *)

(** C8: An entry in use stays. Whatever the other processes do - fetch, touch, sweep, die at
    any moment, except for an operator's [remove] - an entry with an intact manifest has
    its whole payload, and a run that holds the in-use lock and found the entry has it, with
    its payload, until it ends. *)
Theorem entry_in_use_stays need w :
  reachable (entry_init need) (entry_step need false) w ->
  (forall h, target (store w) = Some h -> found (store w) = Some Intact ->
     need ⊆ blobs (content (store w) h)) /\
  (forall p, procs w !! p = Some (Using true) ->
     exists h, target (store w) = Some h /\ manifest (content (store w) h) = Some Intact /\
       need ⊆ blobs (content (store w) h)).
Proof.
  intros [Hok Hps]%reachable_world_ok. pose proof (rest_whole _ _ (ok_rest _ _ Hok)) as Hw.
  split; [done|]. intros p Hp. destruct (Hps p _ Hp eq_refl) as [_ Hg].
  destruct (proj1 (good_spec _) Hg) as (h & Ht & Hm). exists h. split_and!; try done. by apply Hw.
Qed.

(** C9: A missing entry is fetched once. At most one process is between taking the fetch lock
    and letting it go, what it has put in its staged directory is still there - no sweep
    takes the directory of a live fetch - and the entry is published once, and once more for
    each time a sweep moved it out. *)
Theorem missing_entry_fetched_once need w :
  reachable (entry_init need) (entry_step need false) w ->
  (forall p q ph ph', procs w !! p = Some ph -> procs w !! q = Some ph' ->
     fetches ph = true -> fetches ph' = true -> p = q) /\
  (forall p n todo, procs w !! p = Some (SWrite n todo) ->
     exists h, staged (store w) !! n = Some h /\ need ∖ todo ⊆ blobs (content (store w) h)) /\
  (publishes (store w) <= S (swept (store w)))%nat.
Proof.
  intros [Hok Hps]%reachable_world_ok. split_and!.
  - intros p q ph ph' Hp Hq Hf Hf'. pose proof (fetches_locked need p _ _ (Hps _ _ Hp) Hf).
    pose proof (fetches_locked need q _ _ (Hps _ _ Hq) Hf'). congruence.
  - intros p n todo Hp. destruct (Hps _ _ Hp) as (_ & _ & _ & _ & h & Hs & _ & Hb). by exists h.
  - pose proof (ok_count _ _ Hok). destruct (intact (store w)); lia.
Qed.

(** ** Runs *)

Lemma run_act need removes w p ph ph' d' :
  reachable (entry_init need) (entry_step need removes) w ->
  procs w !! p = Some ph -> act need removes p (store w) ph ph' d' ->
  reachable (entry_init need) (entry_step need removes)
    {| store := d'; procs := <[p := ph']> (procs w) |}.
Proof. intros Hr Hp Ha. eapply reach_step; [exact Hr|]. by eapply process_acts. Qed.

(** Process [p] makes the step that [tac] proves. *)
Ltac run_step R p tac :=
  eapply (run_act _ _ _ p) in R; [|reflexivity|tac]; cbn [store procs after] in R.

Definition demo_dir (c : EntryDir) (t : option nat) : Store :=
  {| dirs := {[0%nat := c]}; target := t; staged := ∅; names := ∅; lock_files := ∅;
     staging_locks := ∅; fetch_lock := None; in_use_sweep := None; in_use := ∅;
     publishes := 0; swept := 0 |}.

Definition demo_world (c : EntryDir) (t : option nat) : World :=
  {| store := demo_dir c t; procs := {[0%nat := Idle; 1%nat := Idle]} |}.

Lemma demo_init c t :
  (t = Some 0%nat -> manifest c = Some Intact -> {[0%nat]} ⊆ blobs c) -> (t = None \/ t = Some 0%nat) ->
  entry_init {[0%nat]} (demo_world c t).
Proof.
  intros Hb Ht. split_and!; try done.
  - split; try done; cbn.
    + intros h ->. destruct Ht as [|[= ->]]; [done|]. by eexists.
    + intros h -> Hf. destruct Ht as [|[= ->]]; [done|]. by apply Hb.
  - intros p ph. cbn. intros [[_ <-]|[_ [_ <-]%lookup_singleton_Some]]%lookup_insert_Some; done.
Qed.

(** A miss: process 0 fetches the entry of one file, and runs from it. *)
Lemma demo_fetched : exists w,
  reachable (entry_init {[0%nat]}) (entry_step {[0%nat]} false) w /\
  procs w !! 0%nat = Some (Using true) /\ publishes (store w) = 1%nat.
Proof.
  assert (reachable (entry_init {[0%nat]}) (entry_step {[0%nat]} false)
    (demo_world new_dir None)) as R by (apply reach_init, demo_init; [done|by left]).
  set (n := (0%nat, 0%nat)).
  run_step R 0%nat ltac:(apply act_starts).
  run_step R 0%nat ltac:(apply act_ensure, find1_miss; by left).
  run_step R 0%nat ltac:(by apply act_ensure, lock_takes).
  run_step R 0%nat ltac:(by apply act_ensure, find2_miss).
  run_step R 0%nat ltac:(apply act_stage, (new_creates _ _ _ _ n); [apply Nat.lt_0_succ|set_solver|done]).
  run_step R 0%nat ltac:(by apply act_stage, stage_locks).
  run_step R 0%nat ltac:(apply act_stage, check_exists; set_solver).
  run_step R 0%nat ltac:(by apply act_stage, (mkdir_new _ _ _ n 1)).
  run_step R 0%nat ltac:(apply act_install; by eapply (write_file _ _ n 1 _ 0)).
  replace ({[0%nat]} ∖ {[0%nat]}) with (∅ : gset nat) in R by set_solver.
  run_step R 0%nat ltac:(by apply act_install, write_done).
  run_step R 0%nat ltac:(apply act_install; by eapply (manifest_written _ _ n 1)).
  run_step R 0%nat ltac:(by apply act_install, publish_clears).
  run_step R 0%nat ltac:(by apply act_remove, remove_absent).
  run_step R 0%nat ltac:(apply act_install; by eapply (publish_renames _ _ n 1)).
  run_step R 0%nat ltac:(apply act_stage, drop_unlinks).
  run_step R 0%nat ltac:(apply act_stage, stage_unlocks).
  run_step R 0%nat ltac:(apply act_ensure, unfetch).
  run_step R 0%nat ltac:(by apply act_hold, hold_takes).
  run_step R 0%nat ltac:(by apply act_hold, find3_intact).
  eexists. split; [exact R|]. done.
Qed.

Lemma entry_in_use_stays_witness : exists w,
  procs w !! 0%nat = Some (Using true) /\
  exists h, target (store w) = Some h /\ {[0%nat]} ⊆ blobs (content (store w) h).
Proof.
  destruct demo_fetched as (w & R & Hp & _). exists w. split; [done|].
  destruct (entry_in_use_stays _ w R) as [_ Hu].
  destruct (Hu _ Hp) as (h & Ht & _ & Hb). by exists h.
Defined.

Lemma missing_entry_fetched_once_witness : exists w,
  publishes (store w) = 1%nat /\ (publishes (store w) <= S (swept (store w)))%nat.
Proof.
  destruct demo_fetched as (w & R & _ & Hp). exists w. split; [done|].
  by destruct (missing_entry_fetched_once _ w R) as (_ & _ & ?).
Defined.

