(* ===== verification/Models.v ===== *)
(** * Stored models ([crates/pipette-artifacts/src/model/])

    What a declared model is stored under ([key.rs]), where its files lie in the entry
    ([stored.rs]), and how a manifest binds them to this host ([manifest.rs], [store.rs]).

    Models are data of the plan-types crate: the types here have the constructors and fields
    the sources match on. Its validated strings are strings, its checks, its texts and
    SHA-256 are parameters ([PlanTypes]). Paths are unix paths. *)

From Stdlib Require Import ZArith Lia String.
From stdpp Require Import prelude list gmap.
From S2P Require Import Prelude Str.

Local Open Scope Z_scope.
Local Open Scope rust_scope.

(** ** Models *)

Record HfRepo := { org : str; repo_name : str; revision : option str; auth_token : option str }.

Inductive GgufTextSource :=
| TextHuggingFace (repo : HfRepo) (path : str) (sha256 : option str)
| TextUrl (url : str) (sha256 : option str)
| TextVaultUrl (url : str) (sha256 : option str) (principal_id : str) (custom_label : option str)
| TextRelativeFile (path : str)
| TextAbsoluteFile (path : str).

Record GgufVisionHfFiles := {
  hf_repo : HfRepo; hf_model : str; hf_model_sha256 : option str;
  hf_mmproj : str; hf_mmproj_sha256 : option str;
}.

Record GgufVisionUrlFiles := {
  url_model : str; url_model_sha256 : option str;
  url_mmproj : str; url_mmproj_sha256 : option str;
}.

(** The owner and the label of a vault source are not read here. *)
Record GgufVisionVaultUrlFiles := {
  vault_model : str; vault_model_sha256 : option str;
  vault_mmproj : str; vault_mmproj_sha256 : option str;
  vault_owner : str; vault_label : option str;
}.

Record PathPair := { pair_model : str; pair_mmproj : str }.

Inductive GgufVisionSource :=
| VisionHuggingFace (files : GgufVisionHfFiles)
| VisionUrl (files : GgufVisionUrlFiles)
| VisionVaultUrl (files : GgufVisionVaultUrlFiles)
| VisionRelativeFiles (files : PathPair)
| VisionAbsoluteFiles (files : PathPair).

Inductive GgufVisionSpeculativeSource :=
| SpecHuggingFace (files : GgufVisionHfFiles) (draft draft_sha256 : option str)
| SpecUrl (files : GgufVisionUrlFiles) (draft draft_sha256 : option str)
| SpecVaultUrl (files : GgufVisionVaultUrlFiles) (draft draft_sha256 : option str)
| SpecRelativeFiles (files : PathPair) (draft : option str)
| SpecAbsoluteFiles (files : PathPair) (draft : option str).

Inductive ModelSource :=
| HuggingFace (repo : HfRepo) (prefix : option str)
| VaultArchive (url : str) (sha256 : option str) (principal_id : str) (custom_label : option str)
| RelativeDir (dir : str)
| AbsoluteDir (dir : str).

(** A [DirKind] is one of the model types whose payload is one directory, a [PairKind] one
    with a target and a drafter. *)
Inductive DirKind := Mlx | AppleCoreAi | Torch | Openvino | OnnxGenai.
Inductive PairKind := MlxSpeculative | TorchSpeculative.

Inductive Model :=
| GgufText (source : GgufTextSource)
| GgufVision (source : GgufVisionSource)
| GgufVisionSpeculative (source : GgufVisionSpeculativeSource)
| DirModel (kind : DirKind) (source : ModelSource)
| PairModel (kind : PairKind) (target draft : ModelSource)
| AppleFoundationText.

#[export] Instance HfRepo_eq_dec : EqDecision HfRepo.
Proof. solve_decision. Defined.
#[export] Instance GgufTextSource_eq_dec : EqDecision GgufTextSource.
Proof. solve_decision. Defined.
#[export] Instance GgufVisionHfFiles_eq_dec : EqDecision GgufVisionHfFiles.
Proof. solve_decision. Defined.
#[export] Instance GgufVisionUrlFiles_eq_dec : EqDecision GgufVisionUrlFiles.
Proof. solve_decision. Defined.
#[export] Instance GgufVisionVaultUrlFiles_eq_dec : EqDecision GgufVisionVaultUrlFiles.
Proof. solve_decision. Defined.
#[export] Instance PathPair_eq_dec : EqDecision PathPair.
Proof. solve_decision. Defined.
#[export] Instance GgufVisionSource_eq_dec : EqDecision GgufVisionSource.
Proof. solve_decision. Defined.
#[export] Instance GgufVisionSpeculativeSource_eq_dec : EqDecision GgufVisionSpeculativeSource.
Proof. solve_decision. Defined.
#[export] Instance ModelSource_eq_dec : EqDecision ModelSource.
Proof. solve_decision. Defined.
#[export] Instance DirKind_eq_dec : EqDecision DirKind.
Proof. solve_decision. Defined.
#[export] Instance PairKind_eq_dec : EqDecision PairKind.
Proof. solve_decision. Defined.
#[export] Instance Model_eq_dec : EqDecision Model.
Proof. solve_decision. Defined.

(** The plan-types crate and the digest. [vision] is the pair of a speculative source. *)
Class PlanTypes := {
  absolute_ok : str -> bool;
  relative_ok : str -> bool;
  repo_subpath_ok : str -> bool;
  resource_id : str -> str;
  vision : GgufVisionSpeculativeSource -> GgufVisionSource;
  model_type : Model -> nat;
  without_auth_token : Model -> Model;
  model_text : Model -> str;
  sha256_hex : str -> str;
}.

(** ** Paths *)

Definition slash : Z := 47.
Definition backslash : Z := 92.

Definition is_absolute (path : str) : bool :=
  match path with c :: _ => c =? slash | [] => false end.

(** [Path::join]. *)
Definition path_join (base name : str) : str :=
  if is_absolute name then name
  else match base with
       | [] => name
       | _ => if bool_decide (last base = Some slash) then base ++ name
              else base ++ slash :: name
       end.

(** [str::replace] of backslashes by slashes. *)
Definition forward (path : str) : str := map (fun c => if c =? backslash then slash else c) path.

Fixpoint until (stop : Z -> bool) (s : str) : str :=
  match s with
  | [] => []
  | c :: s => if stop c then [] else c :: until stop s
  end.

(** [rsplit(..).next()]: what follows the last separator. *)
Definition rsplit_first (stop : Z -> bool) (s : str) : str := rev (until stop (rev s)).

(** ** [stored.rs] *)

Inductive ModelStoredError :=
| InvalidUrlPath (url : str)
| InvalidUrlFilename (name : str)
| InvalidPath (path : str)
| CollidingPaths (path : str)
| NotRelative (model : str).

Inductive JoinedPath :=
| Rel (path : str)
| Abs (path : str).

Definition joined_text (j : JoinedPath) : str := match j with Rel p | Abs p => p end.

Definition MLX_TARGET_DIR : str := lit "target".
Definition MLX_DRAFT_DIR : str := lit "draft".

Section Stored.
Context `{PlanTypes}.

Definition relative_path (path : str) : result str ModelStoredError :=
  let path := forward path in
  if relative_ok path then Ok path else Err (InvalidPath path).

Definition absolute_path (path : str) : result str ModelStoredError :=
  let path := forward path in
  if absolute_ok path then Ok path else Err (InvalidPath path).

Definition path_from_joined (path : str) (abs : bool) : result JoinedPath ModelStoredError :=
  let s := forward path in
  if abs then let? p := absolute_path s in Ok (Abs p)
  else let? p := relative_path s in Ok (Rel p).

Definition path_from_base (base : str) (abs : bool) := path_from_joined base abs.

Definition under_joined (base name : str) (abs : bool) : result JoinedPath ModelStoredError :=
  path_from_joined (path_join base name) abs.

Definition path_leaf (path : str) : result str ModelStoredError :=
  match rsplit_first (fun c => (c =? slash) || (c =? backslash)) path with
  | [] => Err (InvalidPath path)
  | leaf => Ok leaf
  end.

Definition url_filename (url : str) : result str ModelStoredError :=
  match until (fun c => (c =? 63) || (c =? 35)) (rsplit_first (fun c => c =? slash) url) with
  | [] => Err (InvalidUrlPath url)
  | leaf => if repo_subpath_ok leaf then Ok leaf else Err (InvalidUrlFilename leaf)
  end.

Definition vault_filename (url : str) : str := resource_id url ++ lit ".gguf".

Definition dir_source (joined : JoinedPath) : ModelSource :=
  match joined with Rel dir => RelativeDir dir | Abs dir => AbsoluteDir dir end.

Definition gguf_text_under (base name : str) (abs : bool)
    : result GgufTextSource ModelStoredError :=
  let? j := under_joined base name abs in
  Ok match j with Rel path => TextRelativeFile path | Abs path => TextAbsoluteFile path end.

Definition gguf_vision_under (base model mmproj : str) (abs : bool)
    : result GgufVisionSource ModelStoredError :=
  let? m := under_joined base model abs in
  let? p := under_joined base mmproj abs in
  match m, p with
  | Rel model, Rel mmproj =>
      if str_eqb model mmproj then Err (CollidingPaths model)
      else Ok (VisionRelativeFiles {| pair_model := model; pair_mmproj := mmproj |})
  | Abs model, Abs mmproj =>
      if str_eqb model mmproj then Err (CollidingPaths model)
      else Ok (VisionAbsoluteFiles {| pair_model := model; pair_mmproj := mmproj |})
  | _, _ => Err (InvalidPath (lit "mixed relative/absolute vision paths"))
  end.

Definition gguf_text_to_stored (source : GgufTextSource) (base : str) (abs : bool)
    : result GgufTextSource ModelStoredError :=
  match source with
  | TextHuggingFace _ path _ => gguf_text_under base path abs
  | TextUrl url _ => let? name := url_filename url in gguf_text_under base name abs
  | TextVaultUrl url _ _ _ => gguf_text_under base (vault_filename url) abs
  | TextRelativeFile path | TextAbsoluteFile path =>
      let? leaf := path_leaf path in gguf_text_under base leaf abs
  end.

Definition gguf_vision_to_stored (source : GgufVisionSource) (base : str) (abs : bool)
    : result GgufVisionSource ModelStoredError :=
  match source with
  | VisionHuggingFace f => gguf_vision_under base (hf_model f) (hf_mmproj f) abs
  | VisionUrl f =>
      let? model := url_filename (url_model f) in
      let? mmproj := url_filename (url_mmproj f) in
      gguf_vision_under base model mmproj abs
  | VisionVaultUrl f =>
      gguf_vision_under base (vault_filename (vault_model f)) (vault_filename (vault_mmproj f)) abs
  | VisionRelativeFiles f | VisionAbsoluteFiles f =>
      let? model := path_leaf (pair_model f) in
      let? mmproj := path_leaf (pair_mmproj f) in
      gguf_vision_under base model mmproj abs
  end.

Definition dir_to_stored (source : ModelSource) (base : str) (abs : bool)
    : result ModelSource ModelStoredError :=
  let? joined :=
    match source with
    | HuggingFace _ (Some prefix) => under_joined base prefix abs
    | HuggingFace _ None | VaultArchive _ _ _ _ | RelativeDir _ | AbsoluteDir _ =>
        path_from_base base abs
    end in
  Ok (dir_source joined).

Definition relative_draft (joined : option JoinedPath) : result (option str) ModelStoredError :=
  match joined with
  | None => Ok None
  | Some (Rel path) => Ok (Some path)
  | Some (Abs path) => Err (InvalidPath path)
  end.

Definition absolute_draft (joined : option JoinedPath) : result (option str) ModelStoredError :=
  match joined with
  | None => Ok None
  | Some (Abs path) => Ok (Some path)
  | Some (Rel path) => Err (InvalidPath path)
  end.

(** [Option::transpose] after a map that may fail. *)
Definition try_map {A B E} (f : A -> result B E) (o : option A) : result (option B) E :=
  match o with
  | None => Ok None
  | Some a => let? b := f a in Ok (Some b)
  end.

Definition draft_hits (draft : option str) (files : PathPair) : option str :=
  match draft with
  | Some d => if str_eqb d (pair_model files) || str_eqb d (pair_mmproj files) then Some d else None
  | None => None
  end.

Definition draft_leaf (declared : GgufVisionSpeculativeSource)
    : result (option str) ModelStoredError :=
  match declared with
  | SpecHuggingFace _ draft _ => Ok draft
  | SpecUrl _ draft _ => try_map url_filename draft
  | SpecVaultUrl _ draft _ => Ok (vault_filename <$> draft)
  | SpecRelativeFiles _ draft | SpecAbsoluteFiles _ draft => try_map path_leaf draft
  end.

Definition speculative_under (declared : GgufVisionSpeculativeSource) (both : GgufVisionSource)
    (base : str) (abs : bool) : result GgufVisionSpeculativeSource ModelStoredError :=
  let? leaf := draft_leaf declared in
  let? draft := try_map (fun leaf => under_joined base leaf abs) leaf in
  match both with
  | VisionRelativeFiles files =>
      let? draft := relative_draft draft in
      match draft_hits draft files with
      | Some hit => Err (CollidingPaths hit)
      | None => Ok (SpecRelativeFiles files draft)
      end
  | VisionAbsoluteFiles files =>
      let? draft := absolute_draft draft in
      match draft_hits draft files with
      | Some hit => Err (CollidingPaths hit)
      | None => Ok (SpecAbsoluteFiles files draft)
      end
  | _ => Err (InvalidPath (lit "a stored gguf-vision source must be a path pair"))
  end.

Definition to_stored (model : Model) (base : str) : result Model ModelStoredError :=
  let abs := is_absolute base in
  match model with
  | GgufText source => let? s := gguf_text_to_stored source base abs in Ok (GgufText s)
  | GgufVision source => let? s := gguf_vision_to_stored source base abs in Ok (GgufVision s)
  | GgufVisionSpeculative source =>
      let? both := gguf_vision_to_stored (vision source) base abs in
      let? s := speculative_under source both base abs in
      Ok (GgufVisionSpeculative s)
  | DirModel kind source => let? s := dir_to_stored source base abs in Ok (DirModel kind s)
  | PairModel kind _ _ =>
      let? target := under_joined base MLX_TARGET_DIR abs in
      let? draft := under_joined base MLX_DRAFT_DIR abs in
      Ok (PairModel kind (dir_source target) (dir_source draft))
  | AppleFoundationText => Ok AppleFoundationText
  end.

(** [under_root]: the closure [join], and each kind of stored model. *)
Definition root_join (root rel : str) : result JoinedPath ModelStoredError :=
  if is_absolute rel then Err (InvalidPath rel)
  else path_from_joined (path_join root rel) (is_absolute root).

Definition under_root (stored : Model) (root : str) : result Model ModelStoredError :=
  match stored with
  | GgufText (TextRelativeFile path) =>
      let? j := root_join root path in
      Ok (GgufText match j with Rel path => TextRelativeFile path | Abs path => TextAbsoluteFile path end)
  | GgufVision (VisionRelativeFiles f) =>
      let? model := root_join root (pair_model f) in
      let? mmproj := root_join root (pair_mmproj f) in
      match model, mmproj with
      | Rel model, Rel mmproj =>
          Ok (GgufVision (VisionRelativeFiles {| pair_model := model; pair_mmproj := mmproj |}))
      | Abs model, Abs mmproj =>
          Ok (GgufVision (VisionAbsoluteFiles {| pair_model := model; pair_mmproj := mmproj |}))
      | _, _ => Err (InvalidPath (lit "mixed relative/absolute vision paths"))
      end
  | GgufVisionSpeculative (SpecRelativeFiles f draft) =>
      let? model := root_join root (pair_model f) in
      let? mmproj := root_join root (pair_mmproj f) in
      let? draft := try_map (root_join root) draft in
      match model, mmproj with
      | Rel model, Rel mmproj =>
          let? draft := relative_draft draft in
          Ok (GgufVisionSpeculative
            (SpecRelativeFiles {| pair_model := model; pair_mmproj := mmproj |} draft))
      | Abs model, Abs mmproj =>
          let? draft := absolute_draft draft in
          Ok (GgufVisionSpeculative
            (SpecAbsoluteFiles {| pair_model := model; pair_mmproj := mmproj |} draft))
      | _, _ => Err (InvalidPath (lit "mixed relative/absolute vision paths"))
      end
  | DirModel kind (RelativeDir dir) =>
      let? j := root_join root dir in Ok (DirModel kind (dir_source j))
  | PairModel kind (RelativeDir target) (RelativeDir draft) =>
      let? target := root_join root target in
      let? draft := root_join root draft in
      Ok (PairModel kind (dir_source target) (dir_source draft))
  | AppleFoundationText => Ok AppleFoundationText
  | other => Err (NotRelative (model_text other))
  end.

(** ** [key.rs] *)

Definition MAX_LEN : Z := 32.
Definition HASH_LEN : Z := 8.

Definition key_char (c : Z) : bool :=
  is_digit c || ((65 <=? c) && (c <=? 90)) || ((97 <=? c) && (c <=? 122))
  || (c =? 46) || (c =? 45) || (c =? 95).

(** [str::split] by a predicate. *)
Fixpoint split_by (sep : Z -> bool) (s : str) : list str :=
  match s with
  | [] => [[]]
  | c :: s =>
      if sep c then [] :: split_by sep s
      else match split_by sep s with
           | piece :: rest => (c :: piece) :: rest
           | [] => [[c]]
           end
  end.

Definition not_empty (s : str) : bool := negb (bool_decide (s = [])).

Definition sanitize (segment : str) : str :=
  join (lit "_") (List.filter not_empty (split_by (fun c => negb (key_char c)) segment)).

Definition slug_from (segments : list str) : str :=
  join (lit "__") (List.filter not_empty (map sanitize segments)).

Definition trim_end_underscores (s : str) : str :=
  rev ((fix drop_ s := match s with 95 :: s' => drop_ s' | _ => s end) (rev s)).

Definition bound_to (slug : str) (max_len : Z) : str :=
  if str_len slug <=? max_len then slug
  else
    let hash := take (Z.to_nat HASH_LEN) (sha256_hex slug) in
    let head :=
      match split_at_checked (floor_char_boundary (max_len - HASH_LEN - 1) slug) slug with
      | Some (head, _) => head
      | None => slug
      end in
    trim_end_underscores head ++ lit "_" ++ hash.

Definition bound (slug : str) : str := bound_to slug MAX_LEN.

Inductive ModelStorageKeyError := NotStorable (model : str).

Definition repo_segments (repo : HfRepo) : list str :=
  [org repo; repo_name repo] ++ option_list (revision repo).

Definition vault_segments (url : str) : list str := [lit "vault"; resource_id url].

Definition dir_segments (source : ModelSource) : option (list str) :=
  match source with
  | HuggingFace repo prefix => Some (repo_segments repo ++ option_list prefix)
  | VaultArchive url _ _ _ => Some (vault_segments url)
  | AbsoluteDir dir => Some [dir]
  | RelativeDir _ => None
  end.

Definition gguf_text_segments (source : GgufTextSource) : option (list str) :=
  match source with
  | TextHuggingFace repo path _ => Some (repo_segments repo ++ [path])
  | TextUrl url _ => Some [url]
  | TextVaultUrl url _ _ _ => Some (vault_segments url)
  | TextAbsoluteFile path => Some [path]
  | TextRelativeFile _ => None
  end.

Definition gguf_vision_segments (source : GgufVisionSource) : option (list str) :=
  match source with
  | VisionHuggingFace f => Some (repo_segments (hf_repo f) ++ [hf_model f; hf_mmproj f])
  | VisionUrl f => Some [url_model f; url_mmproj f]
  | VisionVaultUrl f =>
      Some (vault_segments (vault_model f) ++ drop 1 (vault_segments (vault_mmproj f)))
  | VisionAbsoluteFiles f => Some [pair_model f; pair_mmproj f]
  | VisionRelativeFiles _ => None
  end.

Definition draft_segment (source : GgufVisionSpeculativeSource) : option (option str) :=
  match source with
  | SpecHuggingFace _ draft _ | SpecUrl _ draft _ | SpecAbsoluteFiles _ draft => Some draft
  | SpecVaultUrl _ draft _ => Some ((fun url => join (lit "_") (vault_segments url)) <$> draft)
  | SpecRelativeFiles _ _ => None
  end.

(** The segments of a key; a speculative model's hold the key of its vision pair. *)
Definition key_segments (model : Model) : option (list str) :=
  match model with
  | GgufText source => gguf_text_segments source
  | GgufVision source => gguf_vision_segments source
  | GgufVisionSpeculative source =>
      files ← gguf_vision_segments (vision source);
      draft ← draft_segment source;
      Some ([lit "spec"; bound (slug_from files)] ++ option_list draft)
  | DirModel _ source => dir_segments source
  | PairModel _ target draft =>
      target ← dir_segments target;
      draft ← dir_segments draft;
      Some (lit "spec" :: target ++ draft)
  | AppleFoundationText => None
  end.

(** [ModelStorageKey::of]. *)
Definition storage_key (model : Model) : result str ModelStorageKeyError :=
  match key_segments model with
  | Some segments => Ok (bound (slug_from segments))
  | None => Err (NotStorable (model_text model))
  end.

Definition BLOBS_DIR_NAME : str := lit "blobs".

(** [relative_dir] is the key itself. *)
Definition blobs_dir (key : str) : str := path_join key BLOBS_DIR_NAME.

(** ** [manifest.rs] and [store.rs] *)

Record ModelManifest := {
  manifest_version : Z;
  fetched_at : Z;
  last_used_at : Z;
  declared : Model;
  stored : Model;
  blobs_bytes : option Z;
}.

Definition MANIFEST_VERSION : Z := 2.

Definition bind_under (m : ModelManifest) (models_dir : str) : result Model ModelStoredError :=
  under_root (stored m) models_dir.

Definition payload_paths (m : ModelManifest) (models_dir : str) : list str :=
  match bind_under m models_dir with
  | Ok (GgufText (TextAbsoluteFile path)) => [path]
  | Ok (GgufVision (VisionAbsoluteFiles f)) => [pair_model f; pair_mmproj f]
  | Ok (DirModel Mlx (AbsoluteDir dir)) => [dir]
  | _ => []
  end.

(** Payloads that no branch reads are strings. *)
Inductive ModelStoreError :=
| StoreNotStorable (e : ModelStorageKeyError)
| UnresolvedPath (e : ModelStoredError)
| Corrupt (why : str)
| StoreQuota (why : str)
| FetchFailed (model source : str)
| StoreIo (doing : str)
| Parse (path : str)
| TypeCollision (key : str) (stored requested : nat).

(** What a manifest that exists reads as. *)
Inductive OnDisk :=
| Unreadable (source : str)
| Unparseable
| Parsed (m : ModelManifest).

Definition with_declared (d : Model) (m : ModelManifest) : ModelManifest :=
  {| manifest_version := manifest_version m; fetched_at := fetched_at m;
     last_used_at := last_used_at m; declared := d; stored := stored m;
     blobs_bytes := blobs_bytes m |}.

(** [read_manifest]: the policy on what parsed. *)
Definition read_manifest (path : str) (raw : OnDisk) : result ModelManifest ModelStoreError :=
  match raw with
  | Unreadable _ => Err (StoreIo (lit "reading " ++ path))
  | Unparseable => Err (Parse path)
  | Parsed m =>
      let m := with_declared (without_auth_token (declared m)) m in
      if negb (manifest_version m =? MANIFEST_VERSION) then Err (Corrupt (lit "unsupported manifest_version"))
      else match storage_key (declared m) with
      | Err e => Err (StoreNotStorable e)
      | Ok key =>
          match to_stored (declared m) (blobs_dir key) with
          | Err e => Err (UnresolvedPath e)
          | Ok expected =>
              if bool_decide (stored m = expected) then Ok m
              else Err (Corrupt (lit "stored form is not the declared model's local form"))
          end
      end
  end.

(** The manifests of a store, by entry directory. *)
Definition find (models : gmap str OnDisk) (wanted : Model)
    : result (option ModelManifest) ModelStoreError :=
  match storage_key wanted with
  | Err e => Err (StoreNotStorable e)
  | Ok key =>
      match models !! key with
      | None => Ok None
      | Some raw =>
          match read_manifest key raw with
          | Err e => Err e
          | Ok manifest =>
              let stored := model_type (declared manifest) in
              let requested := model_type wanted in
              if negb (stored =? requested)%nat then Err (TypeCollision key stored requested)
              else Ok (Some manifest)
          end
      end
  end.

Definition find_intact (models : gmap str OnDisk) (wanted : Model)
    : result (option ModelManifest) ModelStoreError :=
  match find models wanted with
  | Err (Parse _) => Ok None
  | found => found
  end.

(** The manifest [fetch_and_publish] writes for [wanted]. *)
Definition published (wanted : Model) (now size : Z) : result (str * ModelManifest) ModelStoreError :=
  let storable := without_auth_token wanted in
  match storage_key storable with
  | Err e => Err (StoreNotStorable e)
  | Ok key =>
      match to_stored storable (blobs_dir key) with
      | Err e => Err (UnresolvedPath e)
      | Ok stored =>
          Ok (key, {| manifest_version := MANIFEST_VERSION; fetched_at := now;
                      last_used_at := now; declared := storable; stored := stored;
                      blobs_bytes := Some size |})
      end
  end.
End Stored.

(** ** Keys are plain directory names *)

(** Digests are lower-case hexadecimal; a subpath of a repository and a vault resource's id
    are relative; a speculative source has the vision pair of its fields; a model without its
    tokens is the same model otherwise, and no token is part of a key. *)
Class PlanLaws `{PlanTypes} := {
  sha256_chars s : Forall (fun c => key_char c = true) (sha256_hex s);
  subpath_relative s : repo_subpath_ok s = true -> is_absolute s = false;
  resource_id_relative s : is_absolute (resource_id s) = false;
  vision_files source : vision source =
    match source with
    | SpecHuggingFace f _ _ => VisionHuggingFace f
    | SpecUrl f _ _ => VisionUrl f
    | SpecVaultUrl f _ _ => VisionVaultUrl f
    | SpecRelativeFiles f _ => VisionRelativeFiles f
    | SpecAbsoluteFiles f _ => VisionAbsoluteFiles f
    end;
  without_token_again m : without_auth_token (without_auth_token m) = without_auth_token m;
  without_token_segments m : key_segments (without_auth_token m) = key_segments m;
  without_token_type m : model_type (without_auth_token m) = model_type m;
}.

Definition key_str (s : str) : Prop := Forall (fun c => key_char c = true) s.

Lemma key_char_ascii c : key_char c = true -> 0 <= c < 128 /\ c <> slash /\ c <> backslash.
Proof.
  unfold key_char, is_digit, slash, backslash. rewrite !orb_true_iff, !andb_true_iff. lia.
Qed.

Lemma key_str_len s : key_str s -> str_len s = Z.of_nat (length s).
Proof.
  induction 1 as [|c s Hc _ IH]; [done|]. cbn [str_len length]. rewrite IH.
  apply key_char_ascii in Hc. unfold len_utf8. destruct (Z.ltb_spec c 128); lia.
Qed.

Lemma key_str_join sep l : key_str sep -> Forall key_str l -> key_str (join sep l).
Proof.
  intros Hs Hl. induction Hl as [|s l Hx Hl IH]; [constructor|]. cbn.
  destruct l; [done|]. apply Forall_app. split; [done|]. by apply Forall_app.
Qed.

Lemma split_by_pieces sep s : Forall (Forall (fun c => sep c = false)) (split_by sep s).
Proof.
  induction s as [|c s IH]; cbn; [by repeat constructor|]. destruct (sep c) eqn:Ec.
  - by constructor.
  - destruct (split_by sep s) as [|p ps]; inversion IH; subst; by repeat constructor.
Qed.

Lemma Forall_filter {A} (P : A -> Prop) f l : Forall P l -> Forall P (List.filter f l).
Proof.
  intros Hl. induction Hl as [|x l Hx Hl IH]; cbn; [constructor|]. destruct (f x); [by constructor|done].
Qed.

Lemma key_str_sanitize s : key_str (sanitize s).
Proof.
  apply key_str_join; [by repeat constructor|]. apply Forall_filter.
  eapply Forall_impl; [apply split_by_pieces|]. intros p Hp.
  eapply Forall_impl; [exact Hp|]. cbn. intros c. by destruct (key_char c).
Qed.

Lemma key_str_slug l : key_str (slug_from l).
Proof.
  apply key_str_join; [by repeat constructor|]. apply Forall_filter.
  apply Forall_forall. intros s (x & -> & _)%list_elem_of_fmap. apply key_str_sanitize.
Qed.

Lemma trim_end_spec s : exists tl, s = trim_end_underscores s ++ tl.
Proof.
  unfold trim_end_underscores.
  assert (forall r, exists l, r = l ++ (fix drop_ s := match s with 95 :: s' => drop_ s' | _ => s end) r)
    as Hd.
  { induction r as [|c r [l IH]]; [by exists []|]. destruct (decide (c = 95)) as [->|Hc].
    - exists (95 :: l). cbn. by rewrite <- IH.
    - exists []. cbn. by repeat case_match. }
  destruct (Hd (rev s)) as [l Hl]. exists (rev l).
  rewrite <- rev_app_distr, <- Hl. by rewrite rev_involutive.
Qed.

Section Keys.
Context `{PlanLaws}.

Lemma bound_shape slug : key_str slug -> key_str (bound slug) /\ str_len (bound slug) <= MAX_LEN.
Proof.
  intros Hs. unfold bound, bound_to. destruct (Z.leb_spec (str_len slug) MAX_LEN) as [Hl|Hl]; [done|].
  set (n := floor_char_boundary (MAX_LEN - HASH_LEN - 1) slug).
  assert (exists head, match split_at_checked n slug with Some (head, _) => head | None => slug end = head
    /\ key_str head /\ str_len head <= MAX_LEN - HASH_LEN - 1) as (head & -> & Hk & Hn).
  { destruct (floor_char_boundary_spec (MAX_LEN - HASH_LEN - 1) slug) as (a & b & Hab & Hla & Hle & _);
      [unfold MAX_LEN, HASH_LEN; lia|]. fold n in Hla.
    clearbody n. subst slug n. rewrite split_at_checked_app. exists a. split_and!; [done| |done].
    by apply Forall_app in Hs as [? _]. }
  destruct (trim_end_spec head) as [tl Htl].
  assert (key_str (trim_end_underscores head) /\ str_len (trim_end_underscores head) <= 23) as [Hk' Hn'].
  { rewrite Htl in Hk. apply Forall_app in Hk as [Hk _]. split; [done|].
    rewrite Htl, str_len_app in Hn. pose proof (str_len_nonneg tl).
    unfold MAX_LEN, HASH_LEN in Hn. lia. }
  assert (key_str (take (Z.to_nat HASH_LEN) (sha256_hex slug))) as Hh by apply Forall_take, sha256_chars.
  assert (key_str (trim_end_underscores head ++ lit "_" ++ take (Z.to_nat HASH_LEN) (sha256_hex slug))).
  { apply Forall_app. split; [done|]. apply Forall_app. split; [by repeat constructor|done]. }
  split; [done|]. rewrite !str_len_app, (key_str_len (take _ _)) by done.
  rewrite length_take. change (str_len (lit "_")) with 1. unfold MAX_LEN, HASH_LEN. lia.
Qed.

(** A storage key is the name of one directory: at most 32 bytes of letters, digits, [.],
    [-] and [_], so no separator takes an entry out of the store's root. *)
Theorem storage_key_shape m key :
  storage_key m = Ok key -> key_str key /\ str_len key <= MAX_LEN /\ slash ∉ key /\ backslash ∉ key.
Proof.
  unfold storage_key. destruct (key_segments m) as [l|]; intros [= <-].
  destruct (bound_shape (slug_from l) (key_str_slug l)) as [Hk Hl]. split_and!; try done;
    intros Hin; pose proof (proj1 (Forall_forall _ _) Hk _ Hin) as Hc; apply key_char_ascii in Hc; tauto.
Qed.

(** *** Which models share a key *)

Definition plain (s : str) : Prop :=
  s <> [] /\ key_str s /\ (forall a b, s <> a ++ [95; 95] ++ b) /\
  (forall b, s <> 95 :: b) /\ (forall a, s <> a ++ [95]).

Lemma split_by_none sep s : Forall (fun c => sep c = false) s -> split_by sep s = [s].
Proof. induction 1 as [|c s Hc _ IH]; cbn; [done|]. by rewrite Hc, IH. Qed.

Lemma sanitize_plain s : plain s -> sanitize s = s.
Proof.
  intros (Hne & Hk & _). unfold sanitize. rewrite split_by_none.
  - cbn. unfold not_empty. by rewrite bool_decide_eq_false_2.
  - eapply Forall_impl; [exact Hk|]. cbn. by intros c ->.
Qed.

Lemma slug_from_plain l : Forall plain l -> slug_from l = join (lit "__") l.
Proof.
  intros Hl. unfold slug_from. f_equal.
  induction Hl as [|s l Hs _ IH]; [done|]. cbn. rewrite (sanitize_plain s Hs), IH.
  unfold not_empty. rewrite bool_decide_eq_false_2; [done|apply Hs].
Qed.

(** What follows a segment is nothing or a boundary. *)
Definition boundary (r : str) : Prop := r = [] \/ exists t, r = 95 :: 95 :: t.

Lemma plain_app_inj a b ra rb :
  plain a -> plain b -> boundary ra -> boundary rb -> a ++ ra = b ++ rb ->
  (length a <= length b)%nat -> a = b.
Proof.
  intros (_ & _ & _ & _ & _) (_ & _ & Hin & _ & Hlast) Ha Hb E Hle.
  assert (exists c, b = a ++ c) as [c Hc].
  { exists (drop (length a) b). rewrite <- (take_drop (length a) b) at 1. f_equal.
    apply (f_equal (take (length a))) in E. rewrite take_app_length, take_app_le in E by lia. done. }
  destruct c as [|c0 c]; [by rewrite app_nil_r in Hc|]. subst b.
  rewrite <- app_assoc in E. apply app_inv_head in E. cbn in E.
  destruct Ha as [->|[t ->]]; [done|]. injection E as <- E.
  destruct c as [|c1 c]; [by destruct (Hlast a)|]. injection E as <- E.
  by destruct (Hin a c).
Qed.

Lemma plain_app_eq a b ra rb :
  plain a -> plain b -> boundary ra -> boundary rb -> a ++ ra = b ++ rb -> a = b /\ ra = rb.
Proof.
  intros Ha Hb Hra Hrb E.
  assert (a = b) as ->.
  { destruct (decide (length a <= length b)%nat); [by apply (plain_app_inj a b ra rb)|].
    symmetry. eapply (plain_app_inj b a rb ra); try done. lia. }
  split; [done|]. by apply app_inv_head in E.
Qed.

Lemma join_segments l l' :
  Forall plain l -> Forall plain l' -> join (lit "__") l = join (lit "__") l' -> l = l'.
Proof.
  intros Hl. revert l'. induction Hl as [|a l Ha Hl IH]; intros l' Hl' E.
  - destruct l' as [|b l']; [done|]. inversion Hl' as [|? ? Hb]; subst. destruct Hb as [Hne _].
    cbn in E. destruct l'; [by destruct Hne|]. by destruct b.
  - destruct Hl' as [|b l' Hb Hl'].
    { destruct Ha as [Hne _]. cbn in E. destruct l; [done|]. by destruct a. }
    assert (forall s k, exists r, join (lit "__") (s :: k) = s ++ r /\ boundary r /\
      (k = [] /\ r = [] \/ r = lit "__" ++ join (lit "__") k /\ k <> [])) as Hj.
    { intros s [|x k]; cbn; [exists []; rewrite app_nil_r; unfold boundary; auto|].
      eexists. split_and!; [done| |by right]. right. by eexists. }
    destruct (Hj a l) as (ra & Ea & Hba & Hra), (Hj b l') as (rb & Eb & Hbb & Hrb).
    rewrite Ea, Eb in E. apply plain_app_eq in E as [-> ->]; [|done..]. f_equal.
    destruct Hra as [[-> ->]|[-> Hn]], Hrb as [[-> E2]|[E2 Hn']]; try done.
    apply IH; [done|]. by apply app_inv_head in E2.
Qed.

(** Models spelled plainly keep their own entries: when every segment of two models is made
    of key characters only, with no underscore at an end and no two in a row, and the keys
    are short enough to be kept whole, one key means one identity. *)
Theorem plain_models_keep_their_entries m m' l l' key :
  key_segments m = Some l -> key_segments m' = Some l' -> Forall plain l -> Forall plain l' ->
  str_len (slug_from l) <= MAX_LEN -> str_len (slug_from l') <= MAX_LEN ->
  storage_key m = Ok key -> storage_key m' = Ok key -> l = l'.
Proof.
  unfold storage_key. intros -> -> Hl Hl' Hs Hs' [= <-] [= E].
  unfold bound, bound_to in E. rewrite !(proj2 (Z.leb_le _ _)) in E by done.
  rewrite !slug_from_plain in E by done. symmetry in E. by apply join_segments in E.
Qed.

Lemma sanitize_unspellable s : Forall (fun c => key_char c = false) s -> sanitize s = [].
Proof.
  intros Hs. unfold sanitize.
  assert (List.filter not_empty (split_by (fun c => negb (key_char c)) s) = []) as ->; [|done].
  induction Hs as [|c s Hc _ IH]; [done|]. cbn. by rewrite Hc.
Qed.

(** A path that key characters cannot spell has no key of its own. The key of a directory
    at such a path is empty, so its entry is the store's root, which a publish removes before
    its rename; every weights file at such a path has the key [.gguf], a hidden name. *)
Theorem unspellable_paths_share_keys kind path :
  Forall (fun c => key_char c = false) path ->
  storage_key (DirModel kind (AbsoluteDir path)) = Ok [] /\
  storage_key (GgufText (TextAbsoluteFile (path ++ lit ".gguf"))) = Ok (lit ".gguf").
Proof.
  intros Hp. unfold storage_key. cbn [key_segments dir_segments gguf_text_segments].
  unfold slug_from. cbn [map]. rewrite sanitize_unspellable by done. split; [done|].
  assert (sanitize (path ++ lit ".gguf") = lit ".gguf") as ->; [|done].
  induction Hp as [|c p Hc _ IH]; [done|]. unfold sanitize in *. cbn [split_by app]. by rewrite Hc.
Qed.
End Keys.

(** ** A manifest binds to where the entry lies *)

Section Binding.
Context `{PlanLaws}.

(** The paths of a stored model, in the order they are fetched. *)
Definition stored_paths (m : Model) : list str :=
  match m with
  | GgufText (TextRelativeFile path | TextAbsoluteFile path) => [path]
  | GgufVision (VisionRelativeFiles f | VisionAbsoluteFiles f) => [pair_model f; pair_mmproj f]
  | GgufVisionSpeculative (SpecRelativeFiles f draft | SpecAbsoluteFiles f draft) =>
      [pair_model f; pair_mmproj f] ++ option_list draft
  | DirModel _ (RelativeDir dir | AbsoluteDir dir) => [dir]
  | PairModel _ (RelativeDir target) (RelativeDir draft)
  | PairModel _ (AbsoluteDir target) (AbsoluteDir draft) => [target; draft]
  | _ => []
  end.

(** The subpaths of a declared model that the plan types have checked. *)
Definition subpaths_ok (m : Model) : Prop :=
  let ok s := repo_subpath_ok s = true in
  match m with
  | GgufText (TextHuggingFace _ path _) => ok path
  | GgufVision (VisionHuggingFace f) => ok (hf_model f) /\ ok (hf_mmproj f)
  | GgufVisionSpeculative (SpecHuggingFace f draft _) =>
      ok (hf_model f) /\ ok (hf_mmproj f) /\ from_option ok True draft
  | DirModel _ (HuggingFace _ prefix) => from_option ok True prefix
  | _ => True
  end.

Lemma forward_app a b : forward (a ++ b) = forward a ++ forward b.
Proof. apply map_app. Qed.

Lemma forward_idem a : forward (forward a) = forward a.
Proof.
  unfold forward. rewrite map_map. apply map_ext. intros c.
  destruct (c =? backslash) eqn:E; [done|]. by rewrite E.
Qed.

Lemma forward_no_backslash a : backslash ∉ a -> forward a = a.
Proof.
  induction a as [|c a IH]; [done|]. intros [Hc Ha]%not_elem_of_cons. cbn.
  rewrite (proj2 (Z.eqb_neq _ _)) by done. f_equal. by apply IH.
Qed.

Lemma until_stop stop s : Forall (fun c => stop c = false) (until stop s).
Proof. induction s as [|c s IH]; cbn; [constructor|]. destruct (stop c) eqn:E; by constructor. Qed.

Lemma rsplit_first_stop stop s c : c ∈ rsplit_first stop s -> stop c = false.
Proof.
  unfold rsplit_first. intros Hc. pose proof (until_stop stop (rev s)) as Hu. rewrite Forall_forall in Hu. apply Hu.
  apply list_elem_of_In in Hc. apply list_elem_of_In. by apply in_rev in Hc.
Qed.

Lemma leaf_relative stop s : stop slash = true -> is_absolute (rsplit_first stop s) = false.
Proof.
  intros Hs. destruct (rsplit_first stop s) as [|c r] eqn:E; [done|]. cbn.
  apply Z.eqb_neq. intros ->. pose proof (rsplit_first_stop stop s slash) as Hc.
  rewrite E in Hc. rewrite Hc in Hs by (left; done). done.
Qed.

(** A directory name an entry lies under: relative, with no separator at an end. *)
Record base_ok (base : str) : Prop := {
  base_nonempty : base <> [];
  base_relative : is_absolute base = false;
  base_end : last base <> Some slash;
  base_forward : backslash ∉ base;
}.

Lemma path_join_base base name :
  base <> [] -> last base <> Some slash -> is_absolute name = false ->
  path_join base name = base ++ slash :: name.
Proof.
  intros Hne Hl Hn. unfold path_join. rewrite Hn. destruct base as [|c b]; [done|].
  by rewrite bool_decide_eq_false_2.
Qed.

Lemma path_join_absolute root name :
  is_absolute root = true -> is_absolute (path_join root name) = true.
Proof.
  intros Hr. unfold path_join. destruct (is_absolute name) eqn:E; [done|].
  destruct root as [|c r]; [done|]. by case_bool_decide.
Qed.

Lemma last_join root base : base <> [] -> is_absolute base = false -> last (path_join root base) = last base.
Proof.
  intros Hne Hb. unfold path_join. rewrite Hb. destruct root as [|c r]; [done|].
  case_bool_decide.
  - destruct (decide (base = [])); [done|]. destruct (exists_last Hne) as (l & x & ->).
    rewrite app_assoc, !last_snoc. done.
  - destruct (exists_last Hne) as (l & x & ->).
    replace ((c :: r) ++ slash :: l ++ [x]) with (((c :: r) ++ slash :: l) ++ [x])
      by by rewrite <- app_assoc. by rewrite !last_snoc.
Qed.

Lemma forward_relative base rest :
  base_ok base -> is_absolute (forward (base ++ rest)) = false.
Proof.
  intros [Hne Hr _ Hf]. destruct base as [|c b]; [done|]. cbn in *. apply not_elem_of_cons in Hf as [Hc _].
  by rewrite (proj2 (Z.eqb_neq c backslash)).
Qed.

(** Joining a root to what lies under [base] is what lies under the joined base. *)
Lemma join_forward root base rest :
  base_ok base -> forward (path_join root (forward (base ++ rest))) = forward (path_join root base ++ rest).
Proof.
  intros Hb. pose proof (forward_relative base rest Hb) as Hr. pose proof Hb as [Hne Hbr _ Hf].
  unfold path_join. rewrite Hr, Hbr. destruct root as [|c r]; [apply forward_idem|].
  assert (forward (forward (base ++ rest)) = forward (base ++ rest)) as Hi by apply forward_idem.
  case_bool_decide; rewrite <- ?app_assoc, !(forward_app (c :: r)); f_equal; [exact Hi|].
  change (slash :: base ++ rest) with ([slash] ++ base ++ rest).
  change (slash :: forward (base ++ rest)) with ([slash] ++ forward (base ++ rest)).
  rewrite !(forward_app [slash]). by rewrite Hi.
Qed.
(** The names of a model's files under its base directory. *)
Definition text_name (source : GgufTextSource) : result str ModelStoredError :=
  match source with
  | TextHuggingFace _ path _ => Ok path
  | TextUrl url _ => url_filename url
  | TextVaultUrl url _ _ _ => Ok (vault_filename url)
  | TextRelativeFile path | TextAbsoluteFile path => path_leaf path
  end.

Definition vision_names (source : GgufVisionSource) : result PathPair ModelStoredError :=
  match source with
  | VisionHuggingFace f => Ok {| pair_model := hf_model f; pair_mmproj := hf_mmproj f |}
  | VisionUrl f =>
      let? model := url_filename (url_model f) in
      let? mmproj := url_filename (url_mmproj f) in
      Ok {| pair_model := model; pair_mmproj := mmproj |}
  | VisionVaultUrl f =>
      Ok {| pair_model := vault_filename (vault_model f); pair_mmproj := vault_filename (vault_mmproj f) |}
  | VisionRelativeFiles f | VisionAbsoluteFiles f =>
      let? model := path_leaf (pair_model f) in
      let? mmproj := path_leaf (pair_mmproj f) in
      Ok {| pair_model := model; pair_mmproj := mmproj |}
  end.

Lemma text_to_stored_name source base abs :
  gguf_text_to_stored source base abs =
  let? name := text_name source in gguf_text_under base name abs.
Proof. by destruct source. Qed.

Lemma vision_to_stored_names source base abs :
  gguf_vision_to_stored source base abs =
  let? names := vision_names source in
  gguf_vision_under base (pair_model names) (pair_mmproj names) abs.
Proof.
  destruct source; cbn; try done.
  - by destruct (url_filename (url_model _)), (url_filename (url_mmproj _)).
  - by destruct (path_leaf (pair_model _)), (path_leaf (pair_mmproj _)).
  - by destruct (path_leaf (pair_model _)), (path_leaf (pair_mmproj _)).
Qed.

Lemma url_filename_relative url name : url_filename url = Ok name -> is_absolute name = false.
Proof.
  unfold url_filename. destruct (until _ _) as [|c r]; [done|].
  destruct (repo_subpath_ok (c :: r)) eqn:E; intros [= <-]. by apply subpath_relative.
Qed.

Lemma vault_filename_relative url : is_absolute (vault_filename url) = false.
Proof. unfold vault_filename. pose proof (resource_id_relative url) as Hr. by destruct (resource_id url). Qed.

Lemma path_leaf_relative path name : path_leaf path = Ok name -> is_absolute name = false.
Proof.
  unfold path_leaf.
  pose proof (leaf_relative (fun c => (c =? slash) || (c =? backslash)) path eq_refl) as Hr.
  destruct (rsplit_first _ path); [done|]. by intros [= <-].
Qed.

Lemma text_name_relative source name :
  subpaths_ok (GgufText source) -> text_name source = Ok name -> is_absolute name = false.
Proof.
  destruct source; cbn; intros Hs E; simplify_eq;
    eauto using subpath_relative, url_filename_relative, vault_filename_relative, path_leaf_relative.
Qed.

Lemma vision_names_relative source names :
  subpaths_ok (GgufVision source) -> vision_names source = Ok names ->
  is_absolute (pair_model names) = false /\ is_absolute (pair_mmproj names) = false.
Proof.
  destruct source; cbn; intros Hs E.
  - destruct Hs. simplify_eq. cbn. split; by apply subpath_relative.
  - destruct (url_filename (url_model _)) eqn:E1, (url_filename (url_mmproj _)) eqn:E2; simplify_eq/=.
    eauto using url_filename_relative.
  - simplify_eq. cbn. split; apply vault_filename_relative.
  - destruct (path_leaf (pair_model _)) eqn:E1, (path_leaf (pair_mmproj _)) eqn:E2; simplify_eq/=.
    eauto using path_leaf_relative.
  - destruct (path_leaf (pair_model _)) eqn:E1, (path_leaf (pair_mmproj _)) eqn:E2; simplify_eq/=.
    eauto using path_leaf_relative.
Qed.

Lemma draft_leaf_relative source leaf :
  subpaths_ok (GgufVisionSpeculative source) -> draft_leaf source = Ok leaf ->
  from_option (fun leaf => is_absolute leaf = false) True leaf.
Proof.
  intros Hs E. destruct source as [? draft|? draft|? draft|? draft|? draft]; cbn in Hs, E.
  - destruct Hs as (_ & _ & Hs). simplify_eq. destruct leaf; cbn in *; [by apply subpath_relative|done].
  - destruct draft as [d|]; cbn in E; [|by simplify_eq].
    destruct (url_filename d) eqn:E'; simplify_eq/=. eauto using url_filename_relative.
  - simplify_eq. destruct draft; cbn; auto using vault_filename_relative.
  - destruct draft as [d|]; cbn in E; [|by simplify_eq].
    destruct (path_leaf d) eqn:E'; simplify_eq/=. eauto using path_leaf_relative.
  - destruct draft as [d|]; cbn in E; [|by simplify_eq].
    destruct (path_leaf d) eqn:E'; simplify_eq/=. eauto using path_leaf_relative.
Qed.
Section Relocation.
Variables (root base : str).
Hypothesis Hroot : is_absolute root = true.
Hypothesis Hbase : base_ok base.

Lemma base_join name :
  is_absolute name = false -> path_join base name = base ++ slash :: name.
Proof. destruct Hbase. by apply path_join_base. Qed.

Lemma joined_base_join name :
  is_absolute name = false -> path_join (path_join root base) name = path_join root base ++ slash :: name.
Proof.
  intros Hn. pose proof (path_join_absolute root base Hroot) as Ha. apply path_join_base; [|..|done].
  - by destruct (path_join root base).
  - destruct Hbase. by rewrite last_join.
Qed.

(** What a relative path under [base] binds to is the same name under the joined base. *)
Lemma root_join_under name path :
  is_absolute name = false -> under_joined base name false = Ok path ->
  root_join root (joined_text path) = under_joined (path_join root base) name true.
Proof.
  intros Hn. unfold under_joined, path_from_joined at 1, relative_path.
  rewrite base_join, joined_base_join, forward_idem by done.
  destruct (relative_ok _); cbn; intros [= <-]. cbn [joined_text].
  unfold root_join. rewrite forward_relative by done. unfold path_from_joined.
  by rewrite Hroot, join_forward.
Qed.

Lemma root_join_base path :
  path_from_base base false = Ok path ->
  root_join root (joined_text path) = path_from_base (path_join root base) true.
Proof.
  unfold path_from_base, path_from_joined at 1, relative_path. rewrite forward_idem.
  pose proof (forward_relative base [] Hbase) as Hr. pose proof (join_forward root base [] Hbase) as Hj.
  rewrite !app_nil_r in *. destruct (relative_ok _); cbn; intros [= <-]. cbn [joined_text].
  unfold root_join. rewrite Hr. unfold path_from_joined. by rewrite Hroot, Hj.
Qed.

Lemma under_joined_forward b name abs path :
  under_joined b name abs = Ok path ->
  path = (if abs then Abs else Rel) (forward (path_join b name)).
Proof.
  unfold under_joined, path_from_joined, absolute_path, relative_path. rewrite forward_idem.
  destruct abs; [destruct (absolute_ok _)|destruct (relative_ok _)]; cbn; by intros [= <-].
Qed.

Lemma path_from_base_forward b abs path :
  path_from_base b abs = Ok path -> path = (if abs then Abs else Rel) (forward b).
Proof.
  unfold path_from_base, path_from_joined, absolute_path, relative_path. rewrite forward_idem.
  destruct abs; [destruct (absolute_ok _)|destruct (relative_ok _)]; cbn; by intros [= <-].
Qed.

(** Two names land on one path exactly when they do under any other base. *)
Lemma join_names_eq b a c :
  is_absolute a = false -> is_absolute c = false ->
  forward (path_join b a) = forward (path_join b c) <-> forward a = forward c.
Proof.
  intros Ha Hc. unfold path_join. rewrite Ha, Hc. destruct b as [|x b]; [done|].
  case_bool_decide; rewrite !(forward_app (x :: b));
    [|change (slash :: a) with ([slash] ++ a); change (slash :: c) with ([slash] ++ c);
      rewrite !(forward_app [slash])];
    split; intros E; rewrite ?E; try done; do 2? apply app_inv_head in E; done.
Qed.

Lemma text_binds name source :
  is_absolute name = false -> gguf_text_under base name false = Ok source ->
  under_root (GgufText source) root =
  let? s := gguf_text_under (path_join root base) name true in Ok (GgufText s).
Proof.
  intros Hn. unfold gguf_text_under. destruct (under_joined base name false) as [path|] eqn:E; [|done].
  pose proof (root_join_under name path Hn E) as Hj. apply under_joined_forward in E as ->.
  cbn [result_bind]. intros [= <-]. cbn [under_root joined_text] in *. rewrite Hj.
  destruct (under_joined _ _ _) as [q|] eqn:E'; [|done]. by apply under_joined_forward in E' as ->.
Qed.

Lemma vision_under_paths b model mmproj abs source :
  gguf_vision_under b model mmproj abs = Ok source ->
  let files := {| pair_model := forward (path_join b model); pair_mmproj := forward (path_join b mmproj) |} in
  source = (if abs then VisionAbsoluteFiles else VisionRelativeFiles) files /\
  pair_model files <> pair_mmproj files /\
  under_joined b model abs = Ok ((if abs then Abs else Rel) (pair_model files)) /\
  under_joined b mmproj abs = Ok ((if abs then Abs else Rel) (pair_mmproj files)).
Proof.
  unfold gguf_vision_under.
  destruct (under_joined b model abs) as [m|] eqn:Em; [|done]. cbn [result_bind].
  destruct (under_joined b mmproj abs) as [q|] eqn:Ep; [|done]. cbn [result_bind].
  apply under_joined_forward in Em as ->. apply under_joined_forward in Ep as ->.
  destruct abs; unfold str_eqb; case_bool_decide; intros [= <-]; done.
Qed.
Lemma root_join_abs path j : root_join root path = Ok j -> exists p, j = Abs p.
Proof.
  unfold root_join. destruct (is_absolute path); [done|]. unfold path_from_joined. rewrite Hroot.
  destruct (absolute_path _); cbn; intros [= <-]. by eexists.
Qed.

Lemma vision_under_root model mmproj source :
  is_absolute model = false -> is_absolute mmproj = false ->
  gguf_vision_under base model mmproj false = Ok source ->
  exists f, source = VisionRelativeFiles f /\
    gguf_vision_under (path_join root base) model mmproj true =
    let? m := root_join root (pair_model f) in
    let? p := root_join root (pair_mmproj f) in
    Ok (VisionAbsoluteFiles {| pair_model := joined_text m; pair_mmproj := joined_text p |}).
Proof.
  intros Hm Hp (-> & Hne & Em & Ep)%vision_under_paths. eexists. split; [done|].
  apply (root_join_under _ _ Hm) in Em. apply (root_join_under _ _ Hp) in Ep.
  cbn [joined_text pair_model pair_mmproj] in *. rewrite Em, Ep. unfold gguf_vision_under.
  destruct (under_joined _ model true) as [m|] eqn:Em'; [|done]. cbn [result_bind].
  destruct (under_joined _ mmproj true) as [q|] eqn:Ep'; [|done]. cbn [result_bind].
  apply under_joined_forward in Em' as ->. apply under_joined_forward in Ep' as ->.
  unfold str_eqb. rewrite bool_decide_eq_false_2; [done|].
  rewrite join_names_eq by done. by rewrite <- (join_names_eq base model mmproj).
Qed.

Lemma vision_binds model mmproj source :
  is_absolute model = false -> is_absolute mmproj = false ->
  gguf_vision_under base model mmproj false = Ok source ->
  under_root (GgufVision source) root =
  let? s := gguf_vision_under (path_join root base) model mmproj true in Ok (GgufVision s).
Proof.
  intros Hm Hp (f & -> & ->)%vision_under_root; [|done..]. cbn [under_root].
  destruct (root_join root (pair_model f)) as [m|] eqn:Em; [|done]. cbn [result_bind].
  destruct (root_join root (pair_mmproj f)) as [q|] eqn:Ep; [|done]. cbn [result_bind].
  apply root_join_abs in Em as [? ->]. by apply root_join_abs in Ep as [? ->].
Qed.

Lemma draft_hits_joined model mmproj leaf :
  is_absolute model = false -> is_absolute mmproj = false -> is_absolute leaf = false ->
  forall b,
  draft_hits (Some (forward (path_join b leaf)))
    {| pair_model := forward (path_join b model); pair_mmproj := forward (path_join b mmproj) |} = None <->
  forward leaf <> forward model /\ forward leaf <> forward mmproj.
Proof.
  intros Hm Hp Hl b. unfold draft_hits, str_eqb. cbn [pair_model pair_mmproj].
  rewrite <- (join_names_eq b leaf model), <- (join_names_eq b leaf mmproj) by done.
  repeat case_bool_decide; cbn; split; naive_solver.
Qed.

(** The stored form of a speculative model, from the paths of its pair and of its draft. *)
Lemma speculative_under_spec declared leaf f (b : str) (abs : bool) :
  draft_leaf declared = Ok leaf ->
  speculative_under declared ((if abs then VisionAbsoluteFiles else VisionRelativeFiles) f) b abs =
  let? draft := try_map (fun leaf => under_joined b leaf abs) leaf in
  match draft_hits (joined_text <$> draft) f with
  | Some hit => Err (CollidingPaths hit)
  | None => Ok ((if abs then SpecAbsoluteFiles else SpecRelativeFiles) f (joined_text <$> draft))
  end.
Proof.
  unfold speculative_under. intros ->. cbn [result_bind].
  destruct leaf as [leaf|]; cbn [try_map]; [|by destruct abs].
  destruct (under_joined b leaf abs) as [j|] eqn:E; cbn [result_bind].
  - apply under_joined_forward in E as ->. by destruct abs.
  - by destruct abs.
Qed.

Lemma speculative_under_root f draft :
  under_root (GgufVisionSpeculative (SpecRelativeFiles f draft)) root =
  let? model := root_join root (pair_model f) in
  let? mmproj := root_join root (pair_mmproj f) in
  let? draft := try_map (root_join root) draft in
  Ok (GgufVisionSpeculative (SpecAbsoluteFiles
    {| pair_model := joined_text model; pair_mmproj := joined_text mmproj |} (joined_text <$> draft))).
Proof.
  cbn [under_root].
  destruct (root_join root (pair_model f)) as [m|] eqn:Em; [|done]. cbn [result_bind].
  destruct (root_join root (pair_mmproj f)) as [q|] eqn:Ep; [|done]. cbn [result_bind].
  apply root_join_abs in Em as [? ->]. apply root_join_abs in Ep as [? ->].
  destruct draft as [d|]; [|done]. cbn [try_map].
  destruct (root_join root d) as [j|] eqn:Ed; [|done]. by apply root_join_abs in Ed as [? ->].
Qed.

Lemma speculative_binds declared names leaf rel stored_source :
  is_absolute (pair_model names) = false -> is_absolute (pair_mmproj names) = false ->
  draft_leaf declared = Ok leaf -> from_option (fun leaf => is_absolute leaf = false) True leaf ->
  gguf_vision_under base (pair_model names) (pair_mmproj names) false = Ok rel ->
  speculative_under declared rel base false = Ok stored_source ->
  under_root (GgufVisionSpeculative stored_source) root =
  let? abs := gguf_vision_under (path_join root base) (pair_model names) (pair_mmproj names) true in
  let? s := speculative_under declared abs (path_join root base) true in
  Ok (GgufVisionSpeculative s).
Proof.
  intros Hm Hp Hleaf Hl Hrel Hspec.
  pose proof (vision_under_paths _ _ _ _ _ Hrel) as (Hf & _).
  destruct (vision_under_root _ _ _ Hm Hp Hrel) as (f & -> & Habs). injection Hf as ->.
  rewrite (speculative_under_spec _ leaf _ _ false) in Hspec by done.
  destruct (try_map (fun leaf => under_joined base leaf false) leaf) as [draft|] eqn:Et; [|done].
  cbn [result_bind] in Hspec. destruct (draft_hits _ _) eqn:Eh; [done|]. injection Hspec as <-.
  rewrite speculative_under_root, Habs. cbn [pair_model pair_mmproj] in *.
  destruct (root_join root (forward (path_join base (pair_model names)))) as [m|]; [|done].
  cbn [result_bind] in *.
  destruct (root_join root (forward (path_join base (pair_mmproj names)))) as [q|]; [|done].
  cbn [result_bind] in *. apply vision_under_paths in Habs as (Ef & _). injection Ef as Em Eq.
  rewrite (speculative_under_spec _ leaf _ _ true) by done. rewrite Em, Eq.
  destruct leaf as [leaf|]; cbn [try_map from_option] in *; [|by simplify_eq].
  destruct (under_joined base leaf false) as [dp|] eqn:Ed; [|done]. injection Et as <-.
  cbn [fmap option_fmap option_map try_map] in *. rewrite (root_join_under _ _ Hl Ed).
  apply under_joined_forward in Ed as ->. cbn [joined_text] in Eh.
  apply draft_hits_joined in Eh as Hh; [|done..].
  destruct (under_joined (path_join root base) leaf true) as [j|] eqn:Ej; [|done].
  apply under_joined_forward in Ej as ->. cbn [result_bind joined_text fmap option_fmap option_map].
  by rewrite (proj2 (draft_hits_joined _ _ _ Hm Hp Hl _) Hh).
Qed.
End Relocation.

Lemma blobs_dir_ok key : key_str key -> base_ok (blobs_dir key).
Proof.
  intros Hk. unfold blobs_dir, path_join. change (is_absolute BLOBS_DIR_NAME) with false. cbv iota.
  destruct key as [|c k]; [by split; vm_compute; set_solver|].
  assert (forall x, x ∈ c :: k -> x <> slash /\ x <> backslash) as Hx.
  { intros x Hin. eapply Forall_forall in Hin; [|exact Hk]. by apply key_char_ascii in Hin as (_ & ? & ?). }
  rewrite bool_decide_eq_false_2.
  2:{ intros Hl. apply last_Some_elem_of in Hl. by apply Hx in Hl as [? _]. }
  split; [done| |..].
  - cbn. apply Z.eqb_neq, Hx. by left.
  - change (slash :: BLOBS_DIR_NAME) with ((slash :: lit "blob") ++ [115]). rewrite app_assoc, last_snoc. done.
  - intros [Hin|Hin]%elem_of_app; [by apply Hx in Hin as [_ ?]|].
    vm_compute in Hin. set_solver.
Qed.

Lemma dir_binds kind source base root s :
  subpaths_ok (DirModel kind source) -> base_ok base -> is_absolute root = true ->
  dir_to_stored source base false = Ok s ->
  under_root (DirModel kind s) root =
  let? s := dir_to_stored source (path_join root base) true in Ok (DirModel kind s).
Proof.
  intros Hs Hb Hr.
  assert (forall (rel abs : result JoinedPath ModelStoredError),
    (forall j, rel = Ok j -> exists p, j = Rel p /\ root_join root p = abs) ->
    (let? j := rel in Ok (dir_source j)) = Ok s ->
    under_root (DirModel kind s) root =
    let? s := (let? j := abs in Ok (dir_source j)) in Ok (DirModel kind s)) as Hd.
  { intros [j|] abs Hj; [|done]. destruct (Hj j eq_refl) as (p & -> & Hp). intros [= <-].
    cbn [dir_source under_root]. rewrite Hp. by destruct abs. }
  unfold dir_to_stored.
  destruct source as [repo [prefix|]|url sha id label|dir|dir]; apply Hd; intros j E;
    [pose proof (root_join_under root base Hr Hb prefix j (subpath_relative _ Hs) E) as Hj;
     apply under_joined_forward in E as ->; by eexists
    |pose proof (root_join_base root base Hr Hb j E) as Hj;
     apply path_from_base_forward in E as ->; by eexists..].
Qed.

(** Binding a stored form to an absolute root is storing the declared model under that root. *)
Lemma to_stored_binds d base root s :
  subpaths_ok d -> base_ok base -> is_absolute root = true -> to_stored d base = Ok s ->
  under_root s root = to_stored d (path_join root base).
Proof.
  intros Hs Hb Hr. pose proof (base_relative _ Hb) as Hrel.
  pose proof (path_join_absolute root base Hr) as Habs.
  unfold to_stored. rewrite Hrel, Habs.
  destruct d as [source|source|source|kind source|kind target draft|].
  - rewrite !text_to_stored_name. destruct (text_name source) as [name|] eqn:En; [|done]. cbn [result_bind].
    destruct (gguf_text_under base name false) as [t|] eqn:Et; [|done]. intros [= <-].
    apply text_binds; [done..| |done]. by eapply text_name_relative.
  - rewrite !vision_to_stored_names. destruct (vision_names source) as [names|] eqn:En; [|done].
    cbn [result_bind]. eapply vision_names_relative in En as [Hm Hp]; [|done].
    destruct (gguf_vision_under base _ _ false) as [t|] eqn:Et; [|done]. intros [= <-].
    by apply vision_binds.
  - rewrite !vision_to_stored_names. destruct (vision_names (vision source)) as [names|] eqn:En; [|done].
    cbn [result_bind]. eapply vision_names_relative in En as [Hm Hp].
    2:{ rewrite vision_files. destruct source; cbn in Hs |- *; naive_solver. }
    destruct (gguf_vision_under base _ _ false) as [t|] eqn:Et; [|done]. cbn [result_bind].
    destruct (speculative_under source t base false) as [t'|] eqn:Et'; [|done]. intros [= <-].
    destruct (draft_leaf source) as [leaf|] eqn:El; [|unfold speculative_under in Et'; by rewrite El in Et'].
    eapply speculative_binds; try done. by apply draft_leaf_relative with source.
  - destruct (dir_to_stored source base false) as [t|] eqn:Et; [|done]. intros [= <-].
    by apply dir_binds.
  - destruct (under_joined base MLX_TARGET_DIR false) as [t|] eqn:Et; [|done]. cbn [result_bind].
    destruct (under_joined base MLX_DRAFT_DIR false) as [q|] eqn:Eq; [|done]. intros [= <-].
    pose proof (root_join_under root base Hr Hb MLX_TARGET_DIR t eq_refl Et) as Ht.
    pose proof (root_join_under root base Hr Hb MLX_DRAFT_DIR q eq_refl Eq) as Hq.
    apply under_joined_forward in Et as ->. apply under_joined_forward in Eq as ->.
    cbn [dir_source under_root joined_text] in *. by rewrite Ht, Hq.
  - by intros [= <-].
Qed.

Lemma published_spec wanted now size key m :
  published wanted now size = Ok (key, m) ->
  storage_key wanted = Ok key /\ declared m = without_auth_token wanted /\
  to_stored (without_auth_token wanted) (blobs_dir key) = Ok (stored m) /\
  read_manifest key (Parsed m) = Ok m.
Proof.
  unfold published, storage_key at 1. rewrite without_token_segments.
  destruct (key_segments wanted) as [l|] eqn:El; [|done].
  destruct (to_stored _ _) as [st|] eqn:Est; [|done]. intros [= <- <-].
  unfold storage_key at 1. rewrite El. split_and!; [done..|].
  cbn [read_manifest declared with_declared manifest_version stored].
  rewrite without_token_again, Z.eqb_refl. cbn [negb]. unfold storage_key.
  rewrite without_token_segments, El, Est. by rewrite bool_decide_eq_true_2.
Qed.

(** What a fetch publishes is found again, and binds to where its files were written: the
    manifest, which names its files relative to the store, bound to an absolute store root,
    is the model's local form under the entry's directory in that root. A root that was moved
    changes nothing but its own path. *)
Theorem manifest_binds_where_published wanted now size key m models :
  published wanted now size = Ok (key, m) ->
  find (<[key := Parsed m]> models) wanted = Ok (Some m) /\
  (subpaths_ok (without_auth_token wanted) -> forall root, is_absolute root = true ->
   bind_under m root = to_stored (without_auth_token wanted) (path_join root (blobs_dir key))).
Proof.
  intros (Hk & Hd & Hst & Hread)%published_spec. split.
  - unfold find. by rewrite Hk, lookup_insert_eq, Hread, Hd, without_token_type, Nat.eqb_refl.
  - intros Hs root Hr. unfold bind_under. apply to_stored_binds; [done| |done..].
    apply blobs_dir_ok. by apply storage_key_shape in Hk as [? _].
Qed.

(** A key names a model only up to the characters it can spell and without its digest, and a
    find compares no more than the model's type: once [q4/w.gguf] of a repository is stored,
    a find of [q4_w.gguf] of it answers the first file, whatever digest either is pinned to. *)
Theorem find_answers_another_model repo pin pin' now size key m models :
  let file path pin := GgufText (TextHuggingFace repo path pin) in
  published (file (lit "q4/w.gguf") pin) now size = Ok (key, m) ->
  model_type (file (lit "q4_w.gguf") pin') = model_type (file (lit "q4/w.gguf") pin) ->
  find (<[key := Parsed m]> models) (file (lit "q4_w.gguf") pin') = Ok (Some m) /\
  declared m = without_auth_token (file (lit "q4/w.gguf") pin).
Proof.
  intros file (Hk & Hd & _ & Hread)%published_spec Ht. split; [|done]. unfold find.
  replace (storage_key (file (lit "q4_w.gguf") pin')) with (Ok (E := ModelStorageKeyError) key).
  { by rewrite lookup_insert_eq, Hread, Hd, without_token_type, Ht, Nat.eqb_refl. }
  rewrite <- Hk. unfold storage_key, slug_from. cbn [key_segments file gguf_text_segments].
  rewrite !map_app. by change (map sanitize [lit "q4/w.gguf"]) with (map sanitize [lit "q4_w.gguf"]).
Qed.

Lemma NoDup_pair (a b : str) : a <> b -> NoDup [a; b].
Proof. intros Hne. apply NoDup_cons. split; [by intros ?%list_elem_of_singleton|apply NoDup_singleton]. Qed.

(** The files of a stored model are distinct: no file of it overwrites another. *)
Lemma stored_paths_distinct d base s : to_stored d base = Ok s -> NoDup (stored_paths s).
Proof.
  unfold to_stored. set (abs := is_absolute base). clearbody abs.
  destruct d as [source|source|source|kind source|kind target draft|].
  - rewrite text_to_stored_name. destruct (text_name source) as [name|]; [|done]. cbn [result_bind].
    unfold gguf_text_under. destruct (under_joined base name abs) as [[]|]; cbn; intros [= <-];
      apply NoDup_singleton.
  - rewrite vision_to_stored_names. destruct (vision_names source) as [names|]; [|done]. cbn [result_bind].
    destruct (gguf_vision_under base _ _ abs) as [t|] eqn:Et; [|done]. intros [= <-].
    apply vision_under_paths in Et as (-> & Hne & _). destruct abs; by apply NoDup_pair.
  - destruct (gguf_vision_to_stored (vision source) base abs) as [t|] eqn:Et; [|done]. cbn [result_bind].
    destruct (speculative_under source t base abs) as [t'|] eqn:Et'; [|done]. intros [= <-].
    rewrite vision_to_stored_names in Et. destruct (vision_names _) as [names|]; [|done]. cbn [result_bind] in Et.
    apply vision_under_paths in Et as (-> & Hne & _).
    destruct (draft_leaf source) as [leaf|] eqn:El; [|unfold speculative_under in Et'; by rewrite El in Et'].
    rewrite (speculative_under_spec _ leaf) in Et' by done.
    destruct (try_map _ leaf) as [draft|]; [|done]. cbn [result_bind] in Et'.
    destruct (draft_hits _ _) eqn:Eh; [done|]. injection Et' as <-.
    assert (stored_paths (GgufVisionSpeculative ((if abs then SpecAbsoluteFiles else SpecRelativeFiles)
      {| pair_model := forward (path_join base (pair_model names));
         pair_mmproj := forward (path_join base (pair_mmproj names)) |} (joined_text <$> draft))) =
      [forward (path_join base (pair_model names)); forward (path_join base (pair_mmproj names))]
      ++ option_list (joined_text <$> draft)) as -> by by destruct abs.
    apply NoDup_app. split_and!; [by apply NoDup_pair| |by destruct draft; [apply NoDup_singleton|constructor]].
    destruct draft as [d|]; [|set_solver]. cbn in Eh |- *. unfold str_eqb in Eh.
    do 2 case_bool_decide; cbn in Eh; set_solver.
  - unfold dir_to_stored. destruct source as [repo [prefix|]|url sha id label|dir|dir]; cbn [result_bind];
      (destruct (under_joined base prefix abs) as [[]|] || destruct (path_from_base base abs) as [[]|]);
      cbn; intros [= <-]; apply NoDup_singleton.
  - destruct (under_joined base MLX_TARGET_DIR abs) as [t|] eqn:Et; [|done]. cbn [result_bind].
    destruct (under_joined base MLX_DRAFT_DIR abs) as [q|] eqn:Eq; [|done]. intros [= <-].
    apply under_joined_forward in Et as ->. apply under_joined_forward in Eq as ->.
    destruct abs; apply NoDup_pair; rewrite join_names_eq; done.
  - intros [= <-]. constructor.
Qed.
End Binding.

(** ** Witnesses *)

(** A concrete plan-types crate: vault resources have one id, every path is accepted. *)
Module Demo.
Definition repo_bare (r : HfRepo) : HfRepo :=
  {| org := org r; repo_name := repo_name r; revision := revision r; auth_token := None |}.

Definition files_bare (f : GgufVisionHfFiles) : GgufVisionHfFiles :=
  {| hf_repo := repo_bare (hf_repo f); hf_model := hf_model f; hf_model_sha256 := hf_model_sha256 f;
     hf_mmproj := hf_mmproj f; hf_mmproj_sha256 := hf_mmproj_sha256 f |}.

Definition source_bare (s : ModelSource) : ModelSource :=
  match s with HuggingFace r prefix => HuggingFace (repo_bare r) prefix | s => s end.

Definition model_bare (m : Model) : Model :=
  match m with
  | GgufText (TextHuggingFace r path pin) => GgufText (TextHuggingFace (repo_bare r) path pin)
  | GgufVision (VisionHuggingFace f) => GgufVision (VisionHuggingFace (files_bare f))
  | GgufVisionSpeculative (SpecHuggingFace f draft pin) =>
      GgufVisionSpeculative (SpecHuggingFace (files_bare f) draft pin)
  | DirModel kind s => DirModel kind (source_bare s)
  | PairModel kind target draft => PairModel kind (source_bare target) (source_bare draft)
  | m => m
  end.

Definition kind_number (m : Model) : nat :=
  match m with
  | GgufText _ => 0
  | GgufVision _ => 1
  | GgufVisionSpeculative _ => 2
  | DirModel Mlx _ => 3
  | DirModel AppleCoreAi _ => 4
  | DirModel Torch _ => 5
  | DirModel Openvino _ => 6
  | DirModel OnnxGenai _ => 7
  | PairModel MlxSpeculative _ _ => 8
  | PairModel TorchSpeculative _ _ => 9
  | AppleFoundationText => 10
  end.

#[export] Instance plan_types : PlanTypes := {|
  absolute_ok := is_absolute;
  relative_ok s := negb (is_absolute s);
  repo_subpath_ok s := negb (is_absolute s);
  resource_id _ := lit "7f3a";
  vision source :=
    match source with
    | SpecHuggingFace f _ _ => VisionHuggingFace f
    | SpecUrl f _ _ => VisionUrl f
    | SpecVaultUrl f _ _ => VisionVaultUrl f
    | SpecRelativeFiles f _ => VisionRelativeFiles f
    | SpecAbsoluteFiles f _ => VisionAbsoluteFiles f
    end;
  model_type := kind_number;
  without_auth_token := model_bare;
  model_text _ := lit "a model";
  sha256_hex _ := lit "0123456789abcdef";
|}.

#[export] Instance plan_laws : PlanLaws.
Proof.
  split; cbn; try done.
  - intros s. repeat constructor.
  - intros s. by destruct (is_absolute s).
  - intros [[]|[]|[]|? []|? [] []|]; try done.
  - by intros [[]|[]|[]|? []|? [] []|].
  - by intros [[]|[]|[]|[] []|[] [] []|].
Qed.

Definition repo : HfRepo :=
  {| org := lit "org"; repo_name := lit "repo"; revision := None; auth_token := Some (lit "secret") |}.

Definition weights (path : str) (pin : option str) : Model := GgufText (TextHuggingFace repo path pin).

Definition entry : str * ModelManifest :=
  match published (weights (lit "q4/w.gguf") None) 5 9 with
  | Ok e => e
  | Err _ => ([], {| manifest_version := 0; Models.fetched_at := 0; Models.last_used_at := 0;
                     declared := AppleFoundationText; stored := AppleFoundationText; blobs_bytes := None |})
  end.
End Demo.
Import Demo.

Lemma storage_key_shape_witness :
  storage_key (Demo.weights (lit "q4/w.gguf") None) = Ok (lit "org__repo__q4_w.gguf") /\
  str_len (lit "org__repo__q4_w.gguf") <= MAX_LEN.
Proof.
  assert (storage_key (Demo.weights (lit "q4/w.gguf") None) = Ok (lit "org__repo__q4_w.gguf")) as E
    by (vm_compute; reflexivity).
  split; [exact E|]. exact (proj1 (proj2 (storage_key_shape _ _ E))).
Defined.

Lemma manifest_binds_where_published_witness :
  published (Demo.weights (lit "q4/w.gguf") None) 5 9 = Ok Demo.entry /\
  bind_under (snd Demo.entry) (lit "/home/models") =
    Ok (GgufText (TextAbsoluteFile (lit "/home/models/org__repo__q4_w.gguf/blobs/q4/w.gguf"))).
Proof.
  assert (published (Demo.weights (lit "q4/w.gguf") None) 5 9 = Ok (fst Demo.entry, snd Demo.entry)) as Hp
    by (vm_compute; reflexivity).
  assert (subpaths_ok (without_auth_token (Demo.weights (lit "q4/w.gguf") None))) as Hs
    by (vm_compute; reflexivity).
  assert (is_absolute (lit "/home/models") = true) as Hr by reflexivity.
  split; [vm_compute; reflexivity|].
  rewrite (proj2 (manifest_binds_where_published _ _ _ _ _ ∅ Hp) Hs _ Hr).
  vm_compute. reflexivity.
Defined.

Lemma find_answers_another_model_witness :
  find {[fst Demo.entry := Parsed (snd Demo.entry)]}
    (Demo.weights (lit "q4_w.gguf") (Some (lit "abcd"))) = Ok (Some (snd Demo.entry)).
Proof.
  assert (published (Demo.weights (lit "q4/w.gguf") None) 5 9 = Ok (fst Demo.entry, snd Demo.entry)) as Hp
    by (vm_compute; reflexivity).
  exact (proj1 (find_answers_another_model Demo.repo None (Some (lit "abcd")) 5 9 _ _ ∅ Hp eq_refl)).
Defined.
