(* ===== verification/Fetch.v ===== *)
(** * Fetching a model ([crates/pipette-artifacts/src/model/fetch.rs], [vault.rs])

    What a declared model consists of, where each part lands, and how the parts are listed,
    sized and fetched. The public files' and the vault objects' single attempts are the
    resumable downloads' ([Resume.v]); here they are operations of the host, with the
    requests, the file copies and the unpacking. The host may answer anything. *)

From Stdlib Require Import ZArith Lia String.
From stdpp Require Import prelude list.
From S2P Require Import Prelude Str Retry Errors Models.
From S2P Require Http Resume Protocol.

Local Open Scope Z_scope.
Local Open Scope rust_scope.

(** ** Errors *)

Inductive ModelFetchError :=
| NotFetchable (why : str)
| InvalidUrl (url : str)
| InvalidDestination (path : str)
| UnresolvedDestination (e : ModelStoredError)
| NothingToFetch (why : str)
| Sha256Mismatch (dest expected actual : str)
| ResumedSha256Mismatch (dest : str) (resumed_at : Z) (expected actual : str)
| ResumedLengthMismatch (dest : str) (resumed_at expected actual : Z)
| FetchHttp (url : str) (source : Http.HttpError)
| Listing (url : str) (malformed : bool)
| FetchIo (message : str) (src : option str) (dest : str) (kind : ErrorKind)
| FetchVault (e : VaultFetchError).

Definition disposition (e : ModelFetchError) : Disposition :=
  match e with
  | FetchHttp _ source => Http.disposition source
  | ResumedSha256Mismatch _ _ _ _ | ResumedLengthMismatch _ _ _ _ => TRANSIENT
  | Listing _ malformed => if malformed then Permanent else TRANSIENT
  | FetchIo _ None _ kind => if names_the_host kind then Permanent else TRANSIENT
  | NotFetchable _ | InvalidUrl _ | InvalidDestination _ | UnresolvedDestination _
  | NothingToFetch _ | Sha256Mismatch _ _ _ | FetchIo _ (Some _) _ _ | FetchVault _ => Permanent
  end.

(** [VaultFetchError::disposition]. *)
Definition vault_disposition (e : VaultFetchError) : Disposition :=
  match e with
  | VaultMgmt source =>
      if is_transient source || bool_decide (http_status source = Some 429) then TRANSIENT
      else Permanent
  | VaultIo _ kind => if names_the_host kind then Permanent else TRANSIENT
  | ResumedDrift _ _ _ _ => TRANSIENT
  | Unregistered _ | Refused _ _ _ | PinDisagrees _ _ _ | Drift _ _ _ | Archive _ _ => Permanent
  end.

(** [refusal]. *)
Definition refusal (resource_id : str) (error : MgmtError) : VaultFetchError :=
  match error with
  | HttpStatus method url status body =>
      if (status =? 403) || (status =? 404)
      then Refused resource_id status
        (lit "request returned " ++ show_uint status ++ lit " for " ++ method ++ lit " " ++ url ++ body)
      else VaultMgmt error
  | _ => VaultMgmt error
  end.

(** ** Parts *)

Inductive Origin :=
| Public (url : str) (auth : option str)
| Vault (path : str)
| Local (path : str).

Record Download := { origin : Origin; pin : option str; dest : str }.

Inductive Part :=
| File (d : Download)
| HfSnapshot (repo : HfRepo) (prefix : option str) (dest : str)
| VaultArchivePart (path : str) (pin : option str) (dest : str)
| LocalDir (src dest : str).

Record HfSibling := { rfilename : str; size : option Z; lfs : option str }.

Record HfModelInfo := { sha : str; siblings : list HfSibling }.

Definition HF_ENDPOINT : str := lit "https://huggingface.co".
Definition QUOTA_PROBE_BASE : str := lit "/quota-probe".

(** The plan types' URL check and the text of a repository. *)
Class UrlTypes := {
  url_ok : str -> bool;
  repo_text : HfRepo -> str;
}.

(** The loop of [collect] over results. *)
Fixpoint collect {A E} (l : list (result A E)) : result (list A) E :=
  match l with
  | [] => Ok []
  | r :: l => let? a := r in let? rest := collect l in Ok (a :: rest)
  end.

Section Parts.
Context `{PT : PlanTypes} `{UT : UrlTypes}.

Definition hf_resolve_url (repo : HfRepo) (revision path : str) : result str ModelFetchError :=
  let url := lit "https://huggingface.co/" ++ repo_text repo ++ lit "/resolve/" ++ revision
             ++ lit "/" ++ path in
  if url_ok url then Ok url else Err (InvalidUrl url).

Definition hf_file_url (repo : HfRepo) (path : str) : result str ModelFetchError :=
  hf_resolve_url repo (default (lit "main") (revision repo)) path.

Definition hf_download (repo : HfRepo) (path : str) (pin : option str) (dest : str)
    : result Download ModelFetchError :=
  let? url := hf_file_url repo path in
  Ok {| origin := Public url (auth_token repo); pin := pin; dest := dest |}.

Definition dir_part (declared into : ModelSource) : result Part ModelFetchError :=
  match into with
  | AbsoluteDir dest =>
      match declared with
      | HuggingFace repo prefix => Ok (HfSnapshot repo prefix dest)
      | VaultArchive url sha256 _ _ => Ok (VaultArchivePart url sha256 dest)
      | AbsoluteDir dir => Ok (LocalDir dir dest)
      | RelativeDir _ =>
          Err (NotFetchable (lit "a store-relative directory model has no source to fetch"))
      end
  | _ => Err (NotFetchable (lit "bound directory model is not an Absolute source"))
  end.

Definition gguf_text_downloads (declared into : GgufTextSource)
    : result (list Download) ModelFetchError :=
  let? dest :=
    match into with
    | TextAbsoluteFile path => Ok path
    | TextRelativeFile _ =>
        Err (NotFetchable (lit "gguf-text fetch dest must be abs Local, got Relative"))
    | _ => Err (NotFetchable (lit "bound gguf-text is not an Absolute source"))
    end in
  let? download :=
    match declared with
    | TextHuggingFace repo path sha256 => hf_download repo path sha256 dest
    | TextUrl url sha256 => Ok {| origin := Public url None; pin := sha256; dest := dest |}
    | TextVaultUrl url sha256 _ _ => Ok {| origin := Vault url; pin := sha256; dest := dest |}
    | TextAbsoluteFile path => Ok {| origin := Local path; pin := None; dest := dest |}
    | TextRelativeFile _ =>
        Err (NotFetchable (lit "store-relative gguf-text has no source to fetch"))
    end in
  Ok [download].

Definition gguf_vision_downloads (declared into : GgufVisionSource)
    : result (list Download) ModelFetchError :=
  match into with
  | VisionAbsoluteFiles into =>
      let (model_dest, mmproj_dest) := into in
      match declared with
      | VisionHuggingFace f =>
          let? model := hf_download (hf_repo f) (hf_model f) (hf_model_sha256 f) model_dest in
          let? mmproj := hf_download (hf_repo f) (hf_mmproj f) (hf_mmproj_sha256 f) mmproj_dest in
          Ok [model; mmproj]
      | VisionUrl f =>
          Ok [{| origin := Public (url_model f) None; pin := url_model_sha256 f; dest := model_dest |};
              {| origin := Public (url_mmproj f) None; pin := url_mmproj_sha256 f; dest := mmproj_dest |}]
      | VisionVaultUrl f =>
          Ok [{| origin := Vault (vault_model f); pin := vault_model_sha256 f; dest := model_dest |};
              {| origin := Vault (vault_mmproj f); pin := vault_mmproj_sha256 f; dest := mmproj_dest |}]
      | VisionAbsoluteFiles f =>
          Ok [{| origin := Local (pair_model f); pin := None; dest := model_dest |};
              {| origin := Local (pair_mmproj f); pin := None; dest := mmproj_dest |}]
      | VisionRelativeFiles _ =>
          Err (NotFetchable (lit "store-relative gguf-vision has no source to fetch"))
      end
  | _ => Err (NotFetchable (lit "gguf-vision fetch dest must be abs Local"))
  end.

(** The drafter's file, when it has one of its own. *)
Definition draft_download (source : GgufVisionSpeculativeSource) (dest : option str)
    : result (option Download) ModelFetchError :=
  match source, dest with
  | _, None => Ok None
  | SpecHuggingFace files draft draft_sha256, Some dest =>
      try_map (fun path => hf_download (hf_repo files) path draft_sha256 dest) draft
  | SpecUrl _ draft draft_sha256, Some dest =>
      Ok ((fun url => {| origin := Public url None; pin := draft_sha256; dest := dest |}) <$> draft)
  | SpecVaultUrl _ draft draft_sha256, Some dest =>
      Ok ((fun url => {| origin := Vault url; pin := draft_sha256; dest := dest |}) <$> draft)
  | SpecAbsoluteFiles _ draft, Some dest =>
      Ok ((fun path => {| origin := Local path; pin := None; dest := dest |}) <$> draft)
  | SpecRelativeFiles _ _, Some _ =>
      Err (NotFetchable (lit "store-relative gguf-vision-speculative has no source to fetch"))
  end.

Definition gguf_vision_speculative_downloads (declared into : GgufVisionSpeculativeSource)
    : result (list Download) ModelFetchError :=
  let? downloads := gguf_vision_downloads (vision declared) (vision into) in
  match into with
  | SpecAbsoluteFiles _ draft_dest =>
      let? draft := draft_download declared draft_dest in
      Ok (downloads ++ option_list draft)
  | _ => Err (NotFetchable (lit "gguf-vision-speculative fetch dest must be abs Local"))
  end.

Definition kinds_disagree : ModelFetchError :=
  NotFetchable (lit "declared and localized model kinds disagree").

Definition parts (declared into : Model) : result (list Part) ModelFetchError :=
  match declared, into with
  | GgufText d, GgufText i => let? l := gguf_text_downloads d i in Ok (map File l)
  | GgufVision d, GgufVision i => let? l := gguf_vision_downloads d i in Ok (map File l)
  | GgufVisionSpeculative d, GgufVisionSpeculative i =>
      let? l := gguf_vision_speculative_downloads d i in Ok (map File l)
  | DirModel kd d, DirModel ki i =>
      if bool_decide (kd = ki) then let? p := dir_part d i in Ok [p] else Err kinds_disagree
  | PairModel kd dt dd, PairModel ki it id =>
      if bool_decide (kd = ki) then
        let? target := dir_part dt it in
        let? draft := dir_part dd id in
        Ok [target; draft]
      else Err kinds_disagree
  | AppleFoundationText, AppleFoundationText => Ok []
  | _, _ => Err kinds_disagree
  end.

(** ** A directory of a repository *)

Definition local_join (dir relative : str) : result str ModelFetchError :=
  let joined := dir ++ lit "/" ++ relative in
  if absolute_ok joined then Ok joined else Err (InvalidDestination joined).

(** What of a sibling's name lies under the prefix. *)
Definition under_prefix (prefix : option str) (name : str) : option str :=
  match prefix with
  | Some prefix => strip_prefix (prefix ++ lit "/") name
  | None => Some name
  end.

Definition plan_dir_downloads (repo : HfRepo) (prefix : option str) (dest_dir : str)
    (info : HfModelInfo) : result (list Download) ModelFetchError :=
  let kept := omap (fun s => relative ← under_prefix prefix (rfilename s); Some (s, relative))
                (siblings info) in
  let? downloads := collect (map (fun '(s, relative) =>
    let? url := hf_resolve_url repo (sha info) (rfilename s) in
    let? dest := local_join dest_dir relative in
    Ok {| origin := Public url (auth_token repo); pin := lfs s; dest := dest |}) kept) in
  match downloads with
  | [] => Err (NothingToFetch
      match prefix with
      | Some prefix => lit "repo `" ++ repo_text repo ++ lit "` has no files under prefix `" ++ prefix ++ lit "`"
      | None => lit "repo `" ++ repo_text repo ++ lit "` has no files to fetch"
      end)
  | _ => Ok downloads
  end.
End Parts.

(** ** The host *)

Inductive Method := GET | HEAD.

Class FetchHost (W : Type) := {
  (** reqwest's answer, and how long the request ran. *)
  request : Method -> str -> option str -> W -> result Http.Response Http.ReqwestError * Z * W;
  (** [response.json()]: the record, or whether it was the JSON that failed. *)
  read_json : Http.Response -> W -> result HfModelInfo bool * W;
  (** One [fetch_public_file] of a download, with what earlier attempts of it left. *)
  fetch_public_file : str -> option str -> Download -> W -> result unit ModelFetchError * W;
  (** [client_api::get_vault_resource], by resource id. *)
  get_vault_resource : str -> W -> result Resume.VaultResource MgmtError * W;
  (** One [fetch_content] of a record into a file. *)
  fetch_content : str -> Resume.VaultResource -> str -> W -> result unit VaultFetchError * W;
  (** Opening, sniffing, extracting and removing an archive: the kinds in a failure's chain. *)
  unpack : str -> str -> W -> result unit (list ErrorKind) * W;
  copy_file : str -> str -> W -> result unit ModelFetchError * W;
  copy_tree : str -> str -> W -> result unit ModelFetchError * W;
  entry_size_bytes : str -> W -> Z * W;
  random_u64 : W -> Z * W;
  thread_sleep : Z -> W -> W;
}.

(** A call that may retry: [None] would be a retry out of fuel ([fetch_trace] shows there is
    none). *)
Definition call (W T E : Type) := W -> option (result T E * W).

Definition done_with {W T E} (r : result T E) : call W T E := fun w => Some (r, w).

Definition then_ {W T U E} (m : call W T E) (k : T -> call W U E) : call W U E :=
  fun w => '(r, w) ← m w; match r with Ok t => k t w | Err e => Some (Err e, w) end.

Definition once {W T E} (m : W -> result T E * W) : call W T E := fun w => Some (m w).

Definition map_err {W T E F} (f : E -> F) (m : call W T E) : call W T F :=
  fun w => '(r, w) ← m w; Some (match r with Ok t => Ok t | Err e => Err (f e) end, w).

Notation "'call?' x ':=' m 'in' k" := (then_ m (fun x => k))
  (at level 10, x pattern, m at level 100, k at level 200) : rust_scope.

(** [try_for_each]. *)
Fixpoint each {W A E} (f : A -> call W unit E) (l : list A) : call W unit E :=
  match l with
  | [] => done_with (Ok tt)
  | a :: l => call? _ := f a in each f l
  end.

Section Fetching.
Context `{PT : PlanTypes} `{UT : UrlTypes} {W : Type} `{FH : FetchHost W}.
(** Whether the workspace has a registered identity. *)
Context (retry : RetryPolicy) (access : bool).

Definition retried {T E} (attempt : W -> result T E * W) (classify : E -> Disposition) : call W T E :=
  retrying retry (fun _ => attempt) classify random_u64 thread_sleep.

(** ** The vault *)

Definition require (path : str) : result unit VaultFetchError :=
  if access then Ok tt else Err (Unregistered path).

(** What a record's answer is worth against the plan's pin. *)
Definition check_record (path : str) (pinned : option str)
    (answer : result Resume.VaultResource MgmtError) : result Resume.VaultResource VaultFetchError :=
  match answer with
  | Err error => Err (refusal (resource_id path) error)
  | Ok record =>
      match pinned with
      | Some plan =>
          if str_eqb plan (Resume.sha256 record) then Ok record
          else Err (PinDisagrees (resource_id path) plan (Resume.sha256 record))
      | None => Ok record
      end
  end.

Definition read_record (path : str) (pinned : option str) (w : W)
    : result Resume.VaultResource VaultFetchError * W :=
  match require path with
  | Err e => (Err e, w)
  | Ok _ =>
      let '(answer, w) := get_vault_resource (resource_id path) w in
      (check_record path pinned answer, w)
  end.

Definition resource (path : str) (pinned : option str) : call W Resume.VaultResource VaultFetchError :=
  retried (read_record path pinned) vault_disposition.

(** One attempt of [fetch_to_file]. *)
Definition fetch_once (path : str) (pinned : option str) (dest : str) (w : W)
    : result Resume.VaultResource VaultFetchError * W :=
  match require path with
  | Err e => (Err e, w)
  | Ok _ =>
      match read_record path pinned w with
      | (Err e, w) => (Err e, w)
      | (Ok record, w) =>
          match fetch_content (resource_id path) record dest w with
          | (Err e, w) => (Err e, w)
          | (Ok _, w) => (Ok record, w)
          end
      end
  end.

Definition fetch_to_file (path : str) (pinned : option str) (dest : str)
    : call W Resume.VaultResource VaultFetchError :=
  retried (fetch_once path pinned dest) vault_disposition.

Definition ARCHIVE_NAME : str := lit ".vault-archive".

Definition fetch_and_unpack (path : str) (pinned : option str) (dest_dir : str)
    : call W Resume.VaultResource VaultFetchError :=
  let archive_path := path_join dest_dir ARCHIVE_NAME in
  call? record := fetch_to_file path pinned archive_path in
  call? _ := map_err (Archive (resource_id path)) (once (unpack archive_path dest_dir)) in
  done_with (Ok record).

(** ** A model *)

(** One request of the listing. *)
Definition list_once (url : str) (auth : option str) (w : W) : result HfModelInfo ModelFetchError * W :=
  let '(answer, elapsed, w) := request GET url auth w in
  match Http.send answer elapsed with
  | Err source => (Err (FetchHttp url source), w)
  | Ok response =>
      let '(info, w) := read_json response w in
      (match info with Ok info => Ok info | Err malformed => Err (Listing url malformed) end, w)
  end.

Definition repo_info (endpoint : str) (repo : HfRepo) : call W HfModelInfo ModelFetchError :=
  let url := endpoint ++ lit "/api/models/" ++ repo_text repo ++ lit "/revision/"
             ++ default (lit "main") (revision repo) ++ lit "?blobs=true" in
  retried (list_once url (auth_token repo)) disposition.

Definition snapshot_downloads (endpoint : str) (repo : HfRepo) (prefix : option str) (dest : str)
    : call W (list Download) ModelFetchError :=
  call? info := repo_info endpoint repo in
  done_with (plan_dir_downloads repo prefix dest info).

Definition fetch_file (d : Download) : call W unit ModelFetchError :=
  match origin d with
  | Public url auth => retried (fetch_public_file url auth d) disposition
  | Vault path =>
      call? _ := map_err FetchVault (fetch_to_file path (pin d) (dest d)) in done_with (Ok tt)
  | Local path => once (copy_file path (dest d))
  end.

(** The listings of the parts, in order. *)
Fixpoint listings (endpoint : str) (l : list Part) : call W (list (list Download)) ModelFetchError :=
  match l with
  | [] => done_with (Ok [])
  | part :: l =>
      call? listing :=
        match part with
        | HfSnapshot repo prefix dest => snapshot_downloads endpoint repo prefix dest
        | File _ | VaultArchivePart _ _ _ | LocalDir _ _ => done_with (Ok [])
        end in
      call? rest := listings endpoint l in
      done_with (Ok (listing :: rest))
  end.

Definition fetch_part (p : Part * list Download) : call W unit ModelFetchError :=
  let (part, listing) := p in
  match part with
  | File download => fetch_file download
  | HfSnapshot _ _ _ => each fetch_file listing
  | VaultArchivePart path sha256 dest =>
      call? _ := map_err FetchVault (fetch_and_unpack path sha256 dest) in done_with (Ok tt)
  | LocalDir src dest => once (copy_tree src dest)
  end.

Definition fetch_model_with_hf_endpoint (endpoint : str) (declared into : Model)
    : call W unit ModelFetchError :=
  call? parts := done_with (parts declared into) in
  call? lists := listings endpoint parts in
  each fetch_part (zip parts lists).

Definition fetch_model (declared into : Model) : call W unit ModelFetchError :=
  fetch_model_with_hf_endpoint HF_ENDPOINT declared into.

(** ** Sizes *)

Definition content_length (url : str) (auth : option str) (w : W) : option Z * W :=
  let '(answer, elapsed, w) := request HEAD url auth w in
  (response ← result_ok (Http.send answer elapsed);
   header ← Http.length_header response;
   parse_uint u64_max header, w).

(** The saturating sum of the sizes, unless one is missing. *)
Fixpoint sum_sizes (total : Z) (l : list (option Z)) : option Z :=
  match l with
  | [] => Some total
  | size :: l => n ← size; sum_sizes (sat_add u64_max total n) l
  end.

Definition hf_dir_size_bytes (endpoint : str) (repo : HfRepo) (prefix : option str)
    : call W (option Z) ModelFetchError :=
  fun w =>
    '(info, w) ← repo_info endpoint repo w;
    Some (Ok
      (info ← result_ok info;
       let kept :=
         List.filter (fun s => match prefix with
                               | Some prefix => starts_with (rfilename s) (prefix ++ lit "/")
                               | None => true
                               end) (siblings info) in
       match kept with [] => None | _ => sum_sizes 0 (map size kept) end), w).

Definition part_size_bytes (part : Part) : call W (option Z) ModelFetchError :=
  match part with
  | File {| origin := Public url auth |} => fun w => let '(n, w) := content_length url auth w in Some (Ok n, w)
  | File {| origin := Vault path; pin := sha256 |} =>
      call? record := map_err FetchVault (resource path sha256) in
      done_with (Ok (Some (Resume.bytes record)))
  | File {| origin := Local src |} | LocalDir src _ =>
      fun w => let '(n, w) := entry_size_bytes src w in Some (Ok (Some n), w)
  | HfSnapshot repo prefix _ => hf_dir_size_bytes HF_ENDPOINT repo prefix
  | VaultArchivePart path sha256 _ =>
      call? _ := map_err FetchVault (resource path sha256) in done_with (Ok None)
  end.

(** The fold of [declared_size_bytes]: every part is sized, also after one is unknown. *)
Fixpoint sizes_from (total : option Z) (l : list Part) : call W (option Z) ModelFetchError :=
  match l with
  | [] => done_with (Ok total)
  | part :: l =>
      call? size := part_size_bytes part in
      sizes_from ('(total, size) ← option_zip total size; Some (sat_add u64_max total size)) l
  end.

Definition declared_size_bytes (declared : Model) : call W (option Z) ModelFetchError :=
  match to_stored declared QUOTA_PROBE_BASE with
  | Err e => done_with (Err (UnresolvedDestination e))
  | Ok into => call? parts := done_with (parts declared into) in sizes_from (Some 0) parts
  end.
End Fetching.

(** ** The plan of a fetch *)

Definition part_dest (p : Part) : str :=
  match p with
  | File d => dest d
  | HfSnapshot _ _ dest | VaultArchivePart _ _ dest | LocalDir _ dest => dest
  end.

Section Plan.
Context `{PT : PlanTypes} `{PL : !PlanLaws} `{UT : UrlTypes}.

Definition hf_url (repo : HfRepo) (revision path : str) : str :=
  lit "https://huggingface.co/" ++ repo_text repo ++ lit "/resolve/" ++ revision ++ lit "/" ++ path.

Definition file_of (origin : Origin) (pin : option str) (dest : str) : Part :=
  File {| origin := origin; pin := pin; dest := dest |}.

Definition hf_file (repo : HfRepo) (path : str) (pin : option str) : str -> Part :=
  file_of (Public (hf_url repo (default (lit "main") (revision repo)) path) (auth_token repo)) pin.

(** The reference: what a declared model consists of, each part awaiting its destination. *)
Definition declared_dir (source : ModelSource) : list (str -> Part) :=
  match source with
  | HuggingFace repo prefix => [HfSnapshot repo prefix]
  | VaultArchive url pin _ _ => [VaultArchivePart url pin]
  | AbsoluteDir dir => [LocalDir dir]
  | RelativeDir _ => []
  end.

Definition declared_vision (source : GgufVisionSource) : list (str -> Part) :=
  match source with
  | VisionHuggingFace f =>
      [hf_file (hf_repo f) (hf_model f) (hf_model_sha256 f);
       hf_file (hf_repo f) (hf_mmproj f) (hf_mmproj_sha256 f)]
  | VisionUrl f =>
      [file_of (Public (url_model f) None) (url_model_sha256 f);
       file_of (Public (url_mmproj f) None) (url_mmproj_sha256 f)]
  | VisionVaultUrl f =>
      [file_of (Vault (vault_model f)) (vault_model_sha256 f);
       file_of (Vault (vault_mmproj f)) (vault_mmproj_sha256 f)]
  | VisionAbsoluteFiles f =>
      [file_of (Local (pair_model f)) None; file_of (Local (pair_mmproj f)) None]
  | VisionRelativeFiles _ => []
  end.

Definition declared_draft (source : GgufVisionSpeculativeSource) : option (str -> Part) :=
  match source with
  | SpecHuggingFace f draft pin => (fun path => hf_file (hf_repo f) path pin) <$> draft
  | SpecUrl _ draft pin => (fun url => file_of (Public url None) pin) <$> draft
  | SpecVaultUrl _ draft pin => (fun url => file_of (Vault url) pin) <$> draft
  | SpecAbsoluteFiles _ draft => (fun path => file_of (Local path) None) <$> draft
  | SpecRelativeFiles _ _ => None
  end.

Definition declared_parts (d : Model) : list (str -> Part) :=
  match d with
  | GgufText (TextHuggingFace repo path pin) => [hf_file repo path pin]
  | GgufText (TextUrl url pin) => [file_of (Public url None) pin]
  | GgufText (TextVaultUrl url pin _ _) => [file_of (Vault url) pin]
  | GgufText (TextAbsoluteFile path) => [file_of (Local path) None]
  | GgufText (TextRelativeFile _) => []
  | GgufVision source => declared_vision source
  | GgufVisionSpeculative source =>
      declared_vision (vision source) ++ option_list (declared_draft source)
  | DirModel _ source => declared_dir source
  | PairModel _ target draft => declared_dir target ++ declared_dir draft
  | AppleFoundationText => []
  end.

Definition landed_at (l : list (str -> Part)) (paths : list str) : list Part :=
  zip_with (fun part path => part path) l paths.

(** What [parts] may answer for a model whose local form is [into]. *)
Definition plan_ok (d : Model) (paths : list str) (r : result (list Part) ModelFetchError) : Prop :=
  match r with
  | Ok ps => ps = landed_at (declared_parts d) paths /\ map part_dest ps = paths
  | Err (InvalidUrl url) => url_ok url = false
  | Err (NotFetchable _) => key_segments d = None
  | Err _ => False
  end.

Lemma hf_download_spec repo path pin dest :
  match hf_download repo path pin dest with
  | Ok d => File d = hf_file repo path pin dest
  | Err e => exists url, e = InvalidUrl url /\ url_ok url = false
  end.
Proof.
  unfold hf_download, hf_file_url, hf_resolve_url.
  destruct (url_ok _) eqn:E; cbn [result_bind]; [done|by eexists].
Qed.

Lemma text_parts source base into :
  to_stored (GgufText source) base = Ok into -> is_absolute base = true ->
  plan_ok (GgufText source) (stored_paths into) (parts (GgufText source) into).
Proof.
  unfold to_stored. intros H Hb. rewrite Hb, text_to_stored_name in H.
  destruct (text_name source) as [name|]; [|done]. cbn [result_bind] in H. unfold gguf_text_under in H.
  destruct (under_joined base name true) as [j|] eqn:Ej; [|done]. apply under_joined_forward in Ej as ->.
  injection H as <-. cbn [parts gguf_text_downloads result_bind stored_paths].
  destruct source as [repo path pin| | | |]; try done.
  pose proof (hf_download_spec repo path pin (forward (path_join base name))) as Hd.
  destruct (hf_download _ _ _ _) as [d|e]; cbn [result_bind].
  - cbn [plan_ok map]. rewrite Hd. injection Hd as ->. done.
  - by destruct Hd as (url & -> & Hu).
Qed.

Lemma vision_parts source f :
  match gguf_vision_downloads source (VisionAbsoluteFiles f) with
  | Ok l => map File l = landed_at (declared_vision source) [pair_model f; pair_mmproj f] /\
      map dest l = [pair_model f; pair_mmproj f]
  | Err (InvalidUrl url) => url_ok url = false
  | Err (NotFetchable _) => gguf_vision_segments source = None
  | Err _ => False
  end.
Proof.
  destruct f as [md pd]. destruct source as [f| | | |]; try done. cbn [gguf_vision_downloads].
  pose proof (hf_download_spec (hf_repo f) (hf_model f) (hf_model_sha256 f) md) as Hm.
  pose proof (hf_download_spec (hf_repo f) (hf_mmproj f) (hf_mmproj_sha256 f) pd) as Hp.
  destruct (hf_download _ (hf_model f) _ _) as [m|e]; cbn [result_bind].
  2:{ by destruct Hm as (url & -> & Hu). }
  destruct (hf_download _ (hf_mmproj f) _ _) as [q|e]; cbn [result_bind].
  2:{ by destruct Hp as (url & -> & Hu). }
  cbn [map]. rewrite Hm, Hp. injection Hm as ->. injection Hp as ->. done.
Qed.
Lemma draft_parts source leaf (dest_of : str -> str) :
  gguf_vision_segments (vision source) <> None -> draft_leaf source = Ok leaf ->
  match draft_download source (dest_of <$> leaf) with
  | Ok d => map File (option_list d) =
        landed_at (option_list (declared_draft source)) (option_list (dest_of <$> leaf)) /\
      map dest (option_list d) = option_list (dest_of <$> leaf)
  | Err (InvalidUrl url) => url_ok url = false
  | Err _ => False
  end.
Proof.
  rewrite vision_files. intros Hseg Hleaf.
  destruct source as [f draft pin|f draft pin|f draft pin|f draft|f draft]; cbn in Hleaf.
  - injection Hleaf as <-. destruct draft as [path|]; [|done]. cbn [fmap option_fmap option_map draft_download try_map].
    pose proof (hf_download_spec (hf_repo f) path pin (dest_of path)) as Hd.
    destruct (hf_download _ _ _ _) as [d|e]; cbn [result_bind].
    + by injection Hd as ->.
    + by destruct Hd as (url & -> & Hu).
  - destruct draft as [url|]; cbn in Hleaf; [|by injection Hleaf as <-].
    destruct (url_filename url); [|done]. by injection Hleaf as <-.
  - injection Hleaf as <-. by destruct draft.
  - done.
  - destruct draft as [path|]; cbn in Hleaf; [|by injection Hleaf as <-].
    destruct (path_leaf path); [|done]. by injection Hleaf as <-.
Qed.

Lemma landed_at_app l1 l2 p1 p2 :
  length l1 = length p1 -> landed_at (l1 ++ l2) (p1 ++ p2) = landed_at l1 p1 ++ landed_at l2 p2.
Proof. intros Hl. unfold landed_at. by rewrite zip_with_app. Qed.

Lemma speculative_parts source base into :
  to_stored (GgufVisionSpeculative source) base = Ok into -> is_absolute base = true ->
  plan_ok (GgufVisionSpeculative source) (stored_paths into) (parts (GgufVisionSpeculative source) into).
Proof.
  unfold to_stored. intros H Hb. rewrite Hb, vision_to_stored_names in H.
  destruct (vision_names (vision source)) as [names|]; [|done]. cbn [result_bind] in H.
  destruct (gguf_vision_under base _ _ true) as [both|] eqn:Eb; [|done]. cbn [result_bind] in H.
  apply vision_under_paths in Eb as (-> & _). set (f := {| pair_model := _ |}) in *.
  destruct (draft_leaf source) as [leaf|] eqn:El; [|by unfold speculative_under in H; rewrite El in H].
  rewrite (speculative_under_spec _ leaf _ _ true) in H by done.
  destruct (try_map _ leaf) as [draft|] eqn:Ed; [|done]. cbn [result_bind] in H.
  destruct (draft_hits _ _); [done|]. injection H as <-.
  assert (joined_text <$> draft = (fun leaf => forward (path_join base leaf)) <$> leaf) as ->.
  { destruct leaf as [leaf|]; cbn [try_map] in Ed; [|by injection Ed as <-].
    destruct (under_joined base leaf true) as [j|] eqn:Ej; [|done]. injection Ed as <-.
    by apply under_joined_forward in Ej as ->. }
  cbn [parts stored_paths]. unfold gguf_vision_speculative_downloads.
  rewrite (vision_files (SpecAbsoluteFiles f _)).
  pose proof (vision_parts (vision source) f) as Hv.
  destruct (gguf_vision_downloads (vision source) _) as [l|e]; cbn [result_bind].
  2:{ destruct e; try done. cbn [plan_ok key_segments]. by rewrite Hv. }
  pose proof (draft_parts source leaf (fun leaf => forward (path_join base leaf))) as Hd.
  destruct Hv as [Hl Hdest].
  assert (length (declared_vision (vision source)) = 2%nat /\ gguf_vision_segments (vision source) <> None)
    as [Hlen Hseg].
  { assert (length (map File l) = 2%nat) as Hl2 by (by rewrite length_map, <- (length_map dest), Hdest).
    rewrite Hl in Hl2. unfold landed_at in Hl2. rewrite length_zip_with in Hl2.
    by destruct (vision source). }
  specialize (Hd Hseg El). destruct (draft_download source _) as [d|e]; cbn [result_bind].
  - destruct Hd as [Hd Hd']. cbn [plan_ok declared_parts]. rewrite landed_at_app, map_app, Hl, Hd by done.
    split; [done|]. rewrite <- Hl, <- Hd, <- map_app, map_map.
    transitivity (map dest (l ++ option_list d)); [done|]. by rewrite map_app, Hdest, Hd'.
  - by destruct e.
Qed.

Lemma dir_parts source base abs s :
  abs = true -> dir_to_stored source base abs = Ok s ->
  exists p, s = AbsoluteDir p /\
  match dir_part source s with
  | Ok part => [part] = landed_at (declared_dir source) [p] /\ part_dest part = p
  | Err e => (exists why, e = NotFetchable why) /\ dir_segments source = None
  end.
Proof.
  intros -> H. unfold dir_to_stored in H.
  assert (exists p, s = AbsoluteDir p) as [p ->].
  { destruct source as [repo [prefix|]|url sha id label|dir|dir]; cbn [result_bind] in H;
      (destruct (under_joined base prefix true) as [j|] eqn:E || destruct (path_from_base base true) as [j|] eqn:E);
      try done; (apply under_joined_forward in E as -> || apply path_from_base_forward in E as ->);
      injection H as <-; by eexists. }
  exists p. split; [done|]. destruct source; try done. split; [by eexists|done].
Qed.

(** The same with the parts of a pair, whose destinations are under one base. *)
Lemma dir_part_at source p :
  match dir_part source (AbsoluteDir p) with
  | Ok part => [part] = landed_at (declared_dir source) [p] /\ part_dest part = p
  | Err e => (exists why, e = NotFetchable why) /\ dir_segments source = None
  end.
Proof. destruct source; try done. split; [by eexists|done]. Qed.

(** A model's parts are the ones it declares, each from its own source under its own pin and
    landing at the path the stored form gives it, and no two at one path. A plan fails only
    on a URL the plan types refuse or for a model that has no storage key. *)
Theorem parts_land_where_stored d base into :
  is_absolute base = true -> to_stored d base = Ok into ->
  plan_ok d (stored_paths into) (parts d into) /\ NoDup (stored_paths into).
Proof.
  intros Hb H. split; [|by eapply stored_paths_distinct].
  destruct d as [source|source|source|kind source|kind target draft|].
  - by eapply text_parts.
  - unfold to_stored in H. rewrite Hb, vision_to_stored_names in H.
    destruct (vision_names source) as [names|]; [|done]. cbn [result_bind] in H.
    destruct (gguf_vision_under base _ _ true) as [s|] eqn:Es; [|done]. injection H as <-.
    apply vision_under_paths in Es as (-> & _). cbn [parts stored_paths].
    match goal with |- context [VisionAbsoluteFiles ?f] => pose proof (vision_parts source f) as Hv end.
    destruct (gguf_vision_downloads _ _) as [l|e]; cbn [result_bind plan_ok]; [|by destruct e].
    destruct Hv as [Hl Hd]. rewrite Hl. split; [done|]. rewrite <- Hl, map_map. exact Hd.
  - by eapply speculative_parts.
  - cbn [to_stored] in H. rewrite Hb in H. destruct (dir_to_stored source base true) as [s|] eqn:Es; [|done].
    injection H as <-. destruct (dir_parts source base true s eq_refl Es) as (p & -> & Hp).
    cbn [parts]. rewrite bool_decide_eq_true_2 by done. cbn [stored_paths].
    destruct (dir_part source _) as [part|e]; cbn [result_bind plan_ok].
    + destruct Hp as [Hp Hd]. split; [exact Hp|]. cbn. by rewrite Hd.
    + by destruct Hp as [[why ->] Hs].
  - cbn [to_stored] in H. rewrite Hb in H.
    destruct (under_joined base MLX_TARGET_DIR true) as [t|] eqn:Et; [|done]. cbn [result_bind] in H.
    destruct (under_joined base MLX_DRAFT_DIR true) as [q|] eqn:Eq; [|done]. injection H as <-.
    apply under_joined_forward in Et as ->. apply under_joined_forward in Eq as ->.
    cbn [parts dir_source]. rewrite bool_decide_eq_true_2 by done. cbn [stored_paths].
    set (tp := forward (path_join base MLX_TARGET_DIR)). set (dp := forward (path_join base MLX_DRAFT_DIR)).
    pose proof (dir_part_at target tp) as Ht. pose proof (dir_part_at draft dp) as Hd.
    destruct (dir_part target _) as [pt|e]; cbn [result_bind plan_ok].
    2:{ destruct Ht as [[why ->] Hs]. cbn [key_segments]. by rewrite Hs. }
    destruct (dir_part draft _) as [pd|e]; cbn [result_bind plan_ok].
    2:{ destruct Hd as [[why ->] Hs]. cbn [key_segments]. rewrite Hs. by destruct (dir_segments target). }
    destruct Ht as [Ht Htd], Hd as [Hd Hdd]. cbn [map]. rewrite Htd, Hdd. split; [|done].
    cbn [declared_parts]. change [tp; dp] with ([tp] ++ [dp]). rewrite landed_at_app, <- Ht, <- Hd; [done|].
    by destruct target.
  - by injection H as <-.
Qed.
End Plan.

(** ** A repository's directory *)

Section Snapshot.
Context `{PT : PlanTypes} `{UT : UrlTypes}.

Definition prefix_text (prefix : option str) : str :=
  match prefix with Some prefix => prefix ++ lit "/" | None => [] end.

Lemma under_prefix_spec prefix name relative :
  under_prefix prefix name = Some relative <-> name = prefix_text prefix ++ relative.
Proof.
  unfold under_prefix, prefix_text. destruct prefix as [prefix|]; cbn; [|naive_solver].
  apply strip_prefix_spec.
Qed.

Lemma collect_ok {A E} (l : list (result A E)) r : collect l = Ok r -> l = map Ok r.
Proof.
  revert r. induction l as [|[a|e] l IH]; intros r; cbn; [by intros [= <-]| |done].
  destruct (collect l) as [rest|]; [|done]. intros [= <-]. cbn. by rewrite (IH rest).
Qed.

Lemma collect_err {A E} (l : list (result A E)) e : collect l = Err e -> Err e ∈ l.
Proof.
  induction l as [|[a|e'] l IH]; cbn; [done| |intros [= ->]; by left].
  destruct (collect l); [done|]. intros [= ->]. right. by apply IH.
Qed.

(** The siblings a prefix keeps, with what of their names follows it. *)
Definition kept (prefix : option str) (l : list HfSibling) : list (HfSibling * str) :=
  omap (fun s => relative ← under_prefix prefix (rfilename s); Some (s, relative)) l.

Definition snapshot_file (repo : HfRepo) (commit dest_dir : str) (p : HfSibling * str) : Download :=
  {| origin := Public (hf_url repo commit (rfilename p.1)) (auth_token repo);
     pin := lfs p.1; dest := dest_dir ++ lit "/" ++ p.2 |}.

Lemma kept_names prefix l : map rfilename (map fst (kept prefix l)) =
  map (fun p => prefix_text prefix ++ p.2) (kept prefix l).
Proof.
  rewrite map_map. induction l as [|s l IH]; [done|]. cbn.
  destruct (under_prefix prefix (rfilename s)) as [rel|] eqn:E; cbn; [|done].
  f_equal; [|done]. by apply under_prefix_spec in E.
Qed.

Lemma kept_sublist prefix l : map fst (kept prefix l) `sublist_of` l.
Proof.
  induction l as [|s l IH]; [done|]. cbn. destruct (under_prefix prefix (rfilename s)); cbn.
  - by apply sublist_skip.
  - by apply sublist_cons.
Qed.

Lemma hf_url_inj repo commit name name' :
  hf_url repo commit name = hf_url repo commit name' -> name = name'.
Proof. unfold hf_url. intros E. do 5 apply app_inv_head in E. done. Qed.

Lemma Public_url url url' auth auth' : Public url auth = Public url' auth' -> url = url'.
Proof. by intros [= ->]. Qed.

Lemma kept_spec prefix l s rel :
  (s, rel) ∈ kept prefix l <-> s ∈ l /\ rfilename s = prefix_text prefix ++ rel.
Proof.
  unfold kept. rewrite list_elem_of_omap. setoid_rewrite bind_Some. split.
  - intros (s' & Hs & rel' & Hr & [= -> ->]). by apply under_prefix_spec in Hr.
  - intros [Hs Hr]. exists s. split; [done|]. exists rel. split; [by apply under_prefix_spec|done].
Qed.

Lemma plan_entries repo commit dest_dir l r :
  collect (map (fun '(s, relative) =>
    let? url := hf_resolve_url repo commit (rfilename s) in
    let? dest := local_join dest_dir relative in
    Ok {| origin := Public url (auth_token repo); pin := lfs s; dest := dest |}) l) = r ->
  match r with
  | Ok ds => ds = map (snapshot_file repo commit dest_dir) l
  | Err (InvalidUrl url) => url_ok url = false
  | Err (InvalidDestination path) => absolute_ok path = false
  | Err _ => False
  end.
Proof.
  revert r. induction l as [|[s rel] l IH]; intros r; cbn [map collect]; [by intros <-|].
  unfold hf_resolve_url at 1, local_join at 1.
  destruct (url_ok _) eqn:Eu; cbn [result_bind]; [|by intros <-].
  destruct (absolute_ok _) eqn:Ea; cbn [result_bind]; [|by intros <-].
  specialize (IH _ eq_refl). destruct (collect _) as [ds|e]; cbn [result_bind]; intros <-; [|done].
  rewrite IH. done.
Qed.

Lemma kept_apart repo commit dest_dir prefix l :
  NoDup (map rfilename l) -> NoDup (map dest (map (snapshot_file repo commit dest_dir) (kept prefix l))).
Proof.
  intros Hl. rewrite map_map. cbn [snapshot_file dest].
  assert (NoDup (map rfilename (map fst (kept prefix l)))) as Hn.
  { eapply sublist_NoDup; [exact Hl|]. apply fmap_sublist, kept_sublist. }
  rewrite kept_names in Hn. revert Hn. generalize (kept prefix l).
  intros k. induction k as [|p k IH]; [constructor|]. cbn. rewrite !NoDup_cons. intros [Hp Hk].
  split; [|by apply IH]. contradict Hp. apply list_elem_of_fmap in Hp as (q & Hq & Hin).
  apply list_elem_of_fmap. exists q. split; [|done]. apply app_inv_head in Hq.
  injection Hq as Hq. by rewrite Hq.
Qed.

(** A snapshot is one commit: every file under the prefix and no other, each from the commit
    the listing resolved, checked against the listing's digest, at its name under the
    prefix; files of distinct names land apart. It is refused when no file is under the
    prefix, and otherwise only for a URL or a path the plan types refuse. *)
Theorem snapshot_is_one_commit repo prefix dest_dir info :
  match plan_dir_downloads repo prefix dest_dir info with
  | Ok l =>
      l = map (snapshot_file repo (sha info) dest_dir) (kept prefix (siblings info)) /\ l <> [] /\
      (forall s, s ∈ siblings info ->
         (exists rel, rfilename s = prefix_text prefix ++ rel) <->
         exists d, d ∈ l /\ origin d = Public (hf_url repo (sha info) (rfilename s)) (auth_token repo)
                   /\ pin d = lfs s) /\
      (NoDup (map rfilename (siblings info)) -> NoDup (map dest l))
  | Err (NothingToFetch _) =>
      forall s rel, s ∈ siblings info -> rfilename s <> prefix_text prefix ++ rel
  | Err (InvalidUrl url) => url_ok url = false
  | Err (InvalidDestination path) => absolute_ok path = false
  | Err _ => False
  end.
Proof.
  unfold plan_dir_downloads. fold (kept prefix (siblings info)).
  pose proof (plan_entries repo (sha info) dest_dir (kept prefix (siblings info)) _ eq_refl) as Hr.
  destruct (collect _) as [l|e]; cbn [result_bind]; [|by destruct e].
  destruct (decide (kept prefix (siblings info) = [])) as [Hk|Hk].
  { rewrite Hk in Hr. subst l. cbn. intros s rel Hs Hn.
    assert ((s, rel) ∈ kept prefix (siblings info)) as Hin by by apply kept_spec.
    rewrite Hk in Hin. by apply elem_of_nil in Hin. }
  assert (l <> []) as Hne by (rewrite Hr; by destruct (kept prefix (siblings info))).
  destruct l as [|d l]; [done|]. split_and!; [exact Hr|done| |rewrite Hr; apply kept_apart].
  rewrite Hr. intros s Hs. split.
  - intros [rel Hn]. exists (snapshot_file repo (sha info) dest_dir (s, rel)). split_and!; [|done..].
    apply list_elem_of_fmap. exists (s, rel). split; [done|]. by apply kept_spec.
  - intros (d' & Hd & Ho & _). apply list_elem_of_fmap in Hd as ([s' rel] & -> & Hin).
    apply Public_url, hf_url_inj in Ho. apply kept_spec in Hin as [_ Hn].
    exists rel. by rewrite <- Ho.
Qed.
End Snapshot.

(** ** What a fetch does, in order *)

Inductive FetchEvent :=
| ERequest (m : Method) (url : str)
| EJson (r : result HfModelInfo bool)
| EPublic (d : Download) (r : result unit ModelFetchError)
| ERecord (id : str) (r : result Resume.VaultResource MgmtError)
| EContent (id : str) (record : Resume.VaultResource) (dest : str) (r : result unit VaultFetchError)
| EUnpack (archive dir : str) (r : result unit (list ErrorKind))
| ECopyFile (src dest : str) (r : result unit ModelFetchError)
| ECopyTree (src dest : str) (r : result unit ModelFetchError)
| ESized (path : str).

Definition logged {W T} (event : T -> list FetchEvent) (op : W -> T * W) (w : W * list FetchEvent)
    : T * (W * list FetchEvent) :=
  let '(r, w') := op w.1 in (r, (w', w.2 ++ event r)).

(** The host that records what is asked of it. *)
#[export] Instance traced_fetch {W} `{FH : FetchHost W} : FetchHost (W * list FetchEvent) := {|
  request m url auth := logged (fun _ => [ERequest m url]) (request m url auth);
  read_json response := logged (fun r => [EJson r]) (read_json response);
  fetch_public_file url auth d := logged (fun r => [EPublic d r]) (fetch_public_file url auth d);
  get_vault_resource id := logged (fun r => [ERecord id r]) (get_vault_resource id);
  fetch_content id record dest := logged (fun r => [EContent id record dest r]) (fetch_content id record dest);
  unpack archive dir := logged (fun r => [EUnpack archive dir r]) (unpack archive dir);
  copy_file src dest := logged (fun r => [ECopyFile src dest r]) (copy_file src dest);
  copy_tree src dest := logged (fun r => [ECopyTree src dest r]) (copy_tree src dest);
  entry_size_bytes path := logged (fun _ => [ESized path]) (entry_size_bytes path);
  random_u64 := logged (fun _ => []) random_u64;
  thread_sleep d w := (thread_sleep d w.1, w.2);
|}.

Section Emits.
Context {W : Type} `{FH : FetchHost W}.
Notation TW := (W * list FetchEvent)%type.

(** A call answers, and [Q] holds of its answer and of what it asked of the host. *)
Definition emits {T E} (m : call TW T E) (Q : result T E -> list FetchEvent -> Prop) : Prop :=
  forall w l, exists r w' tr, m (w, l) = Some (r, (w', l ++ tr)) /\ Q r tr.

(** The same of one operation. *)
Definition emits_once {T} (m : TW -> T * TW) (Q : T -> list FetchEvent -> Prop) : Prop :=
  forall w l, exists r w' tr, m (w, l) = (r, (w', l ++ tr)) /\ Q r tr.

Lemma fetch_weaken {T E} (m : call TW T E) (Q Q' : result T E -> list FetchEvent -> Prop) :
  emits m Q -> (forall r tr, Q r tr -> Q' r tr) -> emits m Q'.
Proof. intros Hm HQ w l. destruct (Hm w l) as (r & w' & tr & E1 & Hr). exists r, w', tr. auto. Qed.

Lemma emits_done {T E} (r : result T E) (Q : result T E -> list FetchEvent -> Prop) :
  Q r [] -> emits (done_with r) Q.
Proof. intros HQ w l. exists r, w, []. by rewrite app_nil_r. Qed.

Lemma emits_then {T U E} (m : call TW T E) (k : T -> call TW U E) P (Q : result U E -> list FetchEvent -> Prop) :
  emits m P -> (forall e tr, P (Err e) tr -> Q (Err e) tr) ->
  (forall t tr, P (Ok t) tr -> emits (k t) (fun r tr' => Q r (tr ++ tr'))) ->
  emits (call? x := m in k x) Q.
Proof.
  intros Hm He Hk w l. destruct (Hm w l) as ([t|e] & w' & tr & E1 & HP); unfold then_; rewrite E1; cbn.
  - destruct (Hk t tr HP w' (l ++ tr)) as (r & w'' & tr' & E2 & HQ). rewrite E2.
    exists r, w'', (tr ++ tr'). by rewrite app_assoc.
  - exists (Err e), w', tr. auto.
Qed.

Lemma emits_map_err {T E F} (f : E -> F) (m : call TW T E) P (Q : result T F -> list FetchEvent -> Prop) :
  emits m P -> (forall t tr, P (Ok t) tr -> Q (Ok t) tr) ->
  (forall e tr, P (Err e) tr -> Q (Err (f e)) tr) -> emits (map_err f m) Q.
Proof.
  intros Hm Ht He w l. destruct (Hm w l) as (r & w' & tr & E1 & HP). unfold map_err. rewrite E1. cbn.
  destruct r as [t|e]; [exists (Ok t)|exists (Err (f e))]; exists w', tr; auto.
Qed.

Lemma logged_emits {T} (event : T -> list FetchEvent) (op : W -> T * W) :
  emits_once (logged event op) (fun r tr => tr = event r).
Proof. intros w l. unfold logged. cbn. destruct (op w) as [r w']. by eexists r, w', _. Qed.

Lemma emits_of_once {T E} (m : TW -> result T E * TW) Q : emits_once m Q -> emits (once m) Q.
Proof.
  intros Hm w l. destruct (Hm w l) as (r & w' & tr & E1 & HQ). exists r, w', tr.
  unfold once. by rewrite E1.
Qed.

(** A retried call is a run of attempts: each but the last failed and was worth another, and
    there are no more than the policy allows. *)
Definition run_of {T E} (retry : RetryPolicy) (classify : E -> Disposition)
    (A : result T E -> list FetchEvent -> Prop) (r : result T E) (tr : list FetchEvent) : Prop :=
  exists earlier last_tr,
    tr = concat (map snd earlier) ++ last_tr /\
    Forall (fun p => A (Err p.1) p.2 /\ classify p.1 <> Permanent) earlier /\
    A r last_tr /\ Z.of_nat (length earlier) < Z.max 1 (attempts retry).

Lemma loop_emits {T E} retry (attempt : TW -> result T E * TW) classify A fuel n :
  emits_once attempt A -> attempts retry - n < Z.of_nat fuel -> (0 < fuel)%nat ->
  forall w l, exists r w' tr earlier last_tr,
    with_retries_loop retry (fun _ => attempt) classify (jittered random_u64) thread_sleep fuel n (w, l) =
      Some (r, (w', l ++ tr)) /\
    tr = concat (map snd earlier) ++ last_tr /\
    Forall (fun p => A (Err p.1) p.2 /\ classify p.1 <> Permanent) earlier /\
    A r last_tr /\ (earlier = [] \/ Z.of_nat (length earlier) <= attempts retry - n).
Proof.
  intros HA. revert n. induction fuel as [|fuel IH]; intros n Hn Hf w l; [lia|]. cbn [with_retries_loop].
  destruct (HA w l) as (r & w1 & tr1 & E1 & HQ). rewrite E1.
  assert (exists r0 w' tr earlier last_tr, Some (r, (w1, l ++ tr1)) = Some (r0, (w', l ++ tr)) /\
    tr = concat (map snd earlier) ++ last_tr /\
    Forall (fun p => A (Err p.1) p.2 /\ classify p.1 <> Permanent) earlier /\
    A r0 last_tr /\ (earlier = [] \/ Z.of_nat (length earlier) <= attempts retry - n)) as Hstop.
  { exists r, w1, tr1, [], tr1. split_and!; [done..|by constructor|done|by left]. }
  destruct r as [t|e]; [exact Hstop|]. destruct (classify e) as [|ra] eqn:Ec; [exact Hstop|].
  destruct (Z.leb_spec (attempts retry) n); [exact Hstop|].
  assert (forall d w2, exists r w' tr earlier last_tr,
    with_retries_loop retry (fun _ => attempt) classify (jittered random_u64) thread_sleep fuel (n + 1)
      (thread_sleep d (w2, l ++ tr1)) = Some (r, (w', l ++ tr)) /\
    tr = concat (map snd earlier) ++ last_tr /\
    Forall (fun p => A (Err p.1) p.2 /\ classify p.1 <> Permanent) earlier /\
    A r last_tr /\ (earlier = [] \/ Z.of_nat (length earlier) <= attempts retry - n)) as Hagain.
  { intros d w2. change (thread_sleep d (w2, l ++ tr1)) with (thread_sleep d w2, l ++ tr1).
    destruct (IH (n + 1) ltac:(lia) ltac:(lia) (thread_sleep d w2) (l ++ tr1))
      as (r & w' & tr & earlier & last_tr & E2 & Htr & Hall & Hlast & Hlen).
    exists r, w', (tr1 ++ tr), ((e, tr1) :: earlier), last_tr. rewrite E2.
    split_and!; [by rewrite app_assoc|rewrite Htr; cbn; by rewrite app_assoc| |done|].
    - constructor; [|done]. cbn. by rewrite Ec.
    - right. destruct Hlen as [->|Hlen]; cbn; lia. }
  destruct ra as [asked|].
  - destruct (Z.ltb_spec (retry_after_limit retry) asked); [exact Hstop|apply Hagain].
  - set (wait := exponential_backoff n (first retry) (cap retry)).
    assert (exists d w2, jittered random_u64 wait (w1, l ++ tr1) = (d, (w2, l ++ tr1))) as (d & w2 & ->).
    { unfold jittered. cbn. unfold logged. cbn. destruct (random_u64 w1) as [roll w2].
      rewrite app_nil_r. by eexists _, _. }
    apply Hagain.
Qed.

Lemma retried_emits {T E} retry (attempt : TW -> result T E * TW) classify A :
  emits_once attempt A -> emits (retried retry attempt classify) (run_of retry classify A).
Proof.
  intros HA w l. unfold retried, retrying, with_retries.
  destruct (loop_emits retry attempt classify A (S (Z.to_nat (attempts retry))) 1 HA ltac:(lia) ltac:(lia) w l)
    as (r & w' & tr & earlier & last_tr & E1 & Htr & Hall & Hlast & Hlen).
  exists r, w', tr. split; [done|]. exists earlier, last_tr. split_and!; try done.
  destruct Hlen as [->|Hlen]; cbn; lia.
Qed.
End Emits.

Section Trace.
Context `{PT : PlanTypes} `{UT : UrlTypes} {W : Type} `{FH : FetchHost W}.
Context (retry : RetryPolicy) (access : bool).
Notation TW := (W * list FetchEvent)%type.

(** ** The vault reads a record before it pulls a byte *)

Inductive vault_attempt (path : str) (pinned : option str) (dest : str)
    : result Resume.VaultResource VaultFetchError -> list FetchEvent -> Prop :=
| VaUnregistered : access = false -> vault_attempt path pinned dest (Err (Unregistered path)) []
| VaRefused answer e :
    access = true -> check_record path pinned answer = Err e ->
    vault_attempt path pinned dest (Err e) [ERecord (resource_id path) answer]
| VaContent record c :
    access = true -> check_record path pinned (Ok record) = Ok record ->
    vault_attempt path pinned dest (match c with Ok _ => Ok record | Err e => Err e end)
      [ERecord (resource_id path) (Ok record); EContent (resource_id path) record dest c].

Lemma check_record_ok path pinned answer record :
  check_record path pinned answer = Ok record ->
  answer = Ok record /\ (pinned = None \/ pinned = Some (Resume.sha256 record)).
Proof.
  unfold check_record, str_eqb. destruct answer as [rec|e]; [|done].
  destruct pinned as [plan|]; [|intros [= ->]; auto].
  case_bool_decide; [|done]. intros [= ->]. subst. auto.
Qed.

Lemma fetch_once_emits path pinned dest :
  emits_once (W := W) (fetch_once access path pinned dest) (vault_attempt path pinned dest).
Proof.
  intros w l. unfold fetch_once, read_record, require.
  destruct access eqn:Ea.
  2:{ exists (Err (Unregistered path)), w, []. rewrite app_nil_r. split; [done|]. by constructor. }
  cbn. unfold logged. cbn. destruct (get_vault_resource (resource_id path) w) as [answer w1].
  destruct (check_record path pinned answer) as [record|e] eqn:Ec.
  - apply check_record_ok in Ec as Hans. destruct Hans as [-> _].
    cbn. destruct (fetch_content (resource_id path) record dest w1) as [c w2].
    exists (match c with Ok _ => Ok record | Err e => Err e end), w2,
      [ERecord (resource_id path) (Ok record); EContent (resource_id path) record dest c].
    rewrite <- app_assoc. split; [by destruct c|]. by constructor.
  - exists (Err e), w1, [ERecord (resource_id path) answer]. split; [done|]. by constructor.
Qed.

Lemma vault_attempt_content path pinned dest r tr id record dst c :
  vault_attempt path pinned dest r tr -> EContent id record dst c ∈ tr ->
  id = resource_id path /\ dst = dest /\ ERecord id (Ok record) ∈ tr /\
  (pinned = None \/ pinned = Some (Resume.sha256 record)).
Proof.
  intros [Ha|answer e Ha Hc|rec c' Ha Hc] Hin.
  - by apply elem_of_nil in Hin.
  - by apply list_elem_of_singleton in Hin.
  - apply elem_of_cons in Hin as [?|Hin]; [done|]. apply list_elem_of_singleton in Hin as [= -> -> -> ->].
    split_and!; [done|done|by left|]. by apply check_record_ok in Hc as [_ ?].
Qed.

Lemma run_elem {T E} classify (A : result T E -> list FetchEvent -> Prop) r tr e :
  run_of retry classify A r tr -> e ∈ tr -> exists r' tr', A r' tr' /\ e ∈ tr' /\ tr' ⊆ tr.
Proof.
  intros (earlier & lt & -> & Hall & Hlast & _) [Hin|Hin]%elem_of_app.
  - apply list_elem_of_In, in_concat in Hin as (t & Ht & Hin).
    apply in_map_iff in Ht as ([e' t'] & <- & Ht). rewrite Forall_forall in Hall.
    apply list_elem_of_In in Ht as Ht'. destruct (Hall _ Ht') as [HA _]. exists (Err e'), t'.
    split_and!; [done|by apply list_elem_of_In|]. intros x Hx. apply elem_of_app. left.
    apply list_elem_of_In, in_concat. exists t'. split; [|by apply list_elem_of_In].
    apply in_map_iff. by exists (e', t').
  - exists r, lt. split_and!; [done..|]. intros x Hx. apply elem_of_app. by right.
Qed.

(** A vault download pulls bytes only for a record it has read and whose pin the plan's
    agrees with, into the file it was asked for; it answers the record its last content
    verified; without a registered identity it asks the server nothing; and it gives up
    after the policy's attempts. *)
Theorem vault_reads_the_record_first path pinned dest w :
  exists r w' tr,
    fetch_to_file retry access path pinned dest (w, []) = Some (r, (w', tr)) /\
    (forall id record dst c, EContent id record dst c ∈ tr ->
       id = resource_id path /\ dst = dest /\ ERecord id (Ok record) ∈ tr /\
       (pinned = None \/ pinned = Some (Resume.sha256 record))) /\
    (forall record, r = Ok record -> exists before,
       tr = before ++ [ERecord (resource_id path) (Ok record);
                       EContent (resource_id path) record dest (Ok tt)]) /\
    (access = false -> r = Err (Unregistered path) /\ tr = []) /\
    Z.of_nat (length tr) <= 2 * Z.max 1 (attempts retry).
Proof.
  destruct (retried_emits retry _ vault_disposition _ (fetch_once_emits path pinned dest) w [])
    as (r & w' & tr & E1 & Hrun).
  exists r, w', tr. split; [exact E1|]. split_and!.
  - intros id record dst c Hin. destruct (run_elem _ _ _ _ _ Hrun Hin) as (r' & tr' & HA & Hin' & Hsub).
    destruct (vault_attempt_content _ _ _ _ _ _ _ _ _ HA Hin') as (? & ? & Hrec & ?).
    split_and!; auto.
  - intros record ->. destruct Hrun as (earlier & lt & -> & _ & Hlast & _).
    exists (concat (map snd earlier)). inversion Hlast as [| |rec c Ha Hc Hr]; subst.
    destruct c as [[]|]; [|done]. by injection Hr as ->.
  - intros Ha. destruct Hrun as (earlier & lt & -> & Hall & Hlast & _).
    assert (forall r t, vault_attempt path pinned dest r t -> r = Err (Unregistered path) /\ t = []) as Hno.
    { intros r' t H. inversion H; subst; [done|congruence..]. }
    apply Hno in Hlast as [-> ->]. split; [done|].
    destruct earlier as [|[e t] earlier]; [done|].
    apply Forall_cons in Hall as [[HA Hd] _]. apply Hno in HA as [[= ->] _]. by destruct Hd.
  - destruct Hrun as (earlier & lt & -> & Hall & Hlast & Hlen).
    assert (forall r t, vault_attempt path pinned dest r t -> (length t <= 2)%nat) as H2
      by (intros r' t H; destruct H; cbn; lia).
    assert (length (concat (map snd earlier)) <= 2 * length earlier)%nat as Hc.
    { clear Hlen E1. induction Hall as [|[e t] earlier [HA _] _ IH]; cbn; [lia|].
      rewrite length_app. apply H2 in HA. cbn in HA. lia. }
    rewrite length_app. apply H2 in Hlast. lia.
Qed.
(** ** A model's listings come before its downloads *)

Definition lists (e : FetchEvent) : bool :=
  match e with ERequest GET _ | EJson _ => true | _ => false end.

(** The path that is complete after an event. *)
Definition landed (e : FetchEvent) : option str :=
  match e with
  | EPublic d (Ok _) => Some (Fetch.dest d)
  | EContent _ _ dest (Ok _) => Some dest
  | EUnpack _ dir (Ok _) => Some dir
  | ECopyFile _ dest (Ok _) | ECopyTree _ dest (Ok _) => Some dest
  | _ => None
  end.

Definition is_ok {T E} (r : result T E) : bool := match r with Ok _ => true | Err _ => false end.

(** Nothing was listed, and the paths of [goal] were completed in order: all of them after a
    success. *)
Definition fetches (goal : list str) (ok : bool) (tr : list FetchEvent) : Prop :=
  Forall (fun e => lists e = false) tr /\
  omap landed tr `prefix_of` goal /\ (ok = true -> omap landed tr = goal).

(** The two together of a call. *)
Definition call_fetches {T E} (goal : list str) (r : result T E) (tr : list FetchEvent) : Prop :=
  fetches goal (is_ok r) tr.

Lemma fetches_app g1 g2 ok tr1 tr2 :
  fetches g1 true tr1 -> fetches g2 ok tr2 -> fetches (g1 ++ g2) ok (tr1 ++ tr2).
Proof.
  intros (Hl1 & _ & Hg1) (Hl2 & Hp & Hg2). split_and!; [by apply Forall_app| |].
  - rewrite omap_app, Hg1 by done. by apply prefix_app.
  - intros ->. by rewrite omap_app, Hg1, Hg2.
Qed.

Lemma fetches_err g1 g2 tr : fetches g1 false tr -> fetches (g1 ++ g2) false tr.
Proof. intros (Hl & Hp & _). split_and!; [done|by apply prefix_app_r|done]. Qed.

Lemma fetches_exactly goal ok tr :
  Forall (fun e => lists e = false) tr -> omap landed tr = (if ok : bool then goal else []) ->
  fetches goal ok tr.
Proof. intros Hl Ho. split_and!; [done|rewrite Ho; destruct ok; [done|apply prefix_nil]|by intros ->]. Qed.

Lemma each_fetches {A E} (f : A -> call TW unit E) (goal : A -> list str) l :
  (forall a, a ∈ l -> emits (f a) (call_fetches (goal a))) ->
  emits (each f l) (call_fetches (concat (map goal l))).
Proof.
  induction l as [|a l IH]; intros Hf; cbn [each map concat].
  { apply emits_done. by repeat constructor. }
  eapply emits_then; [apply Hf; by left|intros e tr; apply fetches_err|].
  intros [] tr Htr. eapply fetch_weaken; [apply IH; intros; apply Hf; by right|].
  intros r tr'. by apply fetches_app.
Qed.

Lemma once_fetches {E} (m : TW -> result unit E * TW) event path :
  emits_once m (fun r tr => tr = [event r]) ->
  (forall r, lists (event r) = false) ->
  (forall r, landed (event r) = match r with Ok _ => Some path | Err _ => None end) ->
  emits (once m) (call_fetches [path]).
Proof.
  intros Hm Hl Hp. eapply fetch_weaken; [by apply emits_of_once|]. intros r tr ->.
  apply fetches_exactly; [by repeat constructor|]. cbn. rewrite Hp. by destruct r.
Qed.

(** A retried fetch of one path. *)
Lemma run_fetches {T E} classify (A : result T E -> list FetchEvent -> Prop) path r tr :
  (forall r tr, A r tr -> Forall (fun e => lists e = false) tr /\
     omap landed tr = if is_ok r then [path] else []) ->
  run_of retry classify A r tr -> call_fetches [path] r tr.
Proof.
  intros HA (earlier & lt & -> & Hall & Hlast & _). apply HA in Hlast as [Hl Ho].
  assert (Forall (fun e => lists e = false) (concat (map snd earlier)) /\
    omap landed (concat (map snd earlier)) = []) as [Hle Hoe].
  { induction Hall as [|[e t] earlier [He _] _ [IHl IHo]]; [done|]. cbn.
    apply HA in He as [Hlt Hot]. cbn in Hlt, Hot. split; [by apply Forall_app|].
    by rewrite omap_app, Hot. }
  apply fetches_exactly; [by apply Forall_app|]. by rewrite omap_app, Hoe.
Qed.

Lemma fetch_to_file_lands path pinned dest :
  emits (W := W) (fetch_to_file retry access path pinned dest) (call_fetches [dest]).
Proof.
  eapply fetch_weaken; [apply retried_emits, fetch_once_emits|]. intros r tr.
  apply run_fetches. intros r' tr' [Ha|answer e Ha Hc|rec c Ha Hc]; cbn;
    (split; [by repeat constructor|]); try done. by destruct c.
Qed.

Lemma emits_map_fetches {T E F} (f : E -> F) (m : call TW T E) goal :
  emits m (call_fetches goal) -> emits (map_err f m) (call_fetches goal).
Proof. intros Hm. by eapply emits_map_err; [exact Hm|..]. Qed.

(** A call whose value is dropped. *)
Lemma emits_dropped {T E} (m : call TW T E) goal :
  emits m (call_fetches goal) -> emits (call? _ := m in done_with (Ok tt)) (call_fetches goal).
Proof.
  intros Hm. eapply emits_then; [exact Hm|done|]. intros t tr Htr. apply emits_done.
  by rewrite app_nil_r.
Qed.

Lemma fetch_file_fetches d : emits (W := W) (fetch_file retry access d) (call_fetches [Fetch.dest d]).
Proof.
  unfold fetch_file. destruct d as [[url auth|path|path] pinned dst]; cbn [origin pin Fetch.dest].
  - eapply fetch_weaken; [apply retried_emits, logged_emits|]. intros r tr.
    apply run_fetches. intros r' tr' ->. split; [by repeat constructor|]. by destruct r'.
  - apply emits_dropped, emits_map_fetches, fetch_to_file_lands.
  - apply once_fetches with (event := ECopyFile path dst); [apply logged_emits|done|done].
Qed.

(** What a part completes, given its listing. *)
Definition part_goal (p : Part * list Download) : list str :=
  match p.1 with
  | File d => [Fetch.dest d]
  | HfSnapshot _ _ _ => map Fetch.dest p.2
  | VaultArchivePart _ _ dest => [path_join dest ARCHIVE_NAME; dest]
  | LocalDir _ dest => [dest]
  end.

Lemma unpack_fetches path pinned dest :
  emits (W := W) (fetch_and_unpack retry access path pinned dest)
    (call_fetches [path_join dest ARCHIVE_NAME; dest]).
Proof.
  unfold fetch_and_unpack. change [path_join dest ARCHIVE_NAME; dest]
    with ([path_join dest ARCHIVE_NAME] ++ [dest]).
  eapply emits_then; [apply fetch_to_file_lands|intros e tr; apply fetches_err|].
  intros rec tr Htr.
  eapply emits_then; [apply emits_map_fetches, (once_fetches _ (EUnpack (path_join dest ARCHIVE_NAME) dest));
    [apply logged_emits|done..]| |].
  - intros e tr'. by apply fetches_app.
  - intros [] tr' Htr'. apply emits_done. rewrite app_nil_r. by apply (fetches_app _ _ true).
Qed.

Lemma fetch_part_fetches p : emits (W := W) (fetch_part retry access p) (call_fetches (part_goal p)).
Proof.
  destruct p as [[d|repo prefix dest|path pinned dest|src dest] listing]; unfold part_goal; cbn [fetch_part fst snd].
  - apply fetch_file_fetches.
  - assert (map Fetch.dest listing = concat (map (fun d => [Fetch.dest d]) listing)) as ->.
    { induction listing as [|d l IH]; [done|]. cbn. by rewrite IH. }
    apply each_fetches. intros d _. apply fetch_file_fetches.
  - apply emits_dropped, emits_map_fetches, unpack_fetches.
  - apply once_fetches with (event := ECopyTree src dest); [apply logged_emits|done|done].
Qed.
(** What the listings of a fetch may be, of what was asked for them. *)
Definition listed (tr : list FetchEvent) (part : Part) (listing : list Download) : Prop :=
  match part with
  | HfSnapshot repo prefix dest =>
      exists info, EJson (Ok info) ∈ tr /\ plan_dir_downloads repo prefix dest info = Ok listing
  | File _ | VaultArchivePart _ _ _ | LocalDir _ _ => listing = []
  end.

Lemma listed_mono tr tr' part listing : tr ⊆ tr' -> listed tr part listing -> listed tr' part listing.
Proof. intros Hsub. destruct part; cbn; try done. intros (info & Hin & Hp). exists info. auto. Qed.

Lemma list_once_emits url auth :
  emits_once (W := W) (list_once url auth) (fun r tr =>
    Forall (fun e => lists e = true) tr /\ forall info, r = Ok info -> EJson (Ok info) ∈ tr).
Proof.
  intros w l. unfold list_once. cbn. unfold logged. cbn.
  destruct (request GET url auth w) as [[answer elapsed] w1]. cbn.
  destruct (Http.send answer elapsed) as [response|e].
  - destruct (read_json response w1) as [info w2].
    eexists _, w2, [ERequest GET url; EJson info]. rewrite <- app_assoc. split; [done|].
    split; [by repeat constructor|]. destruct info as [info|]; [|done]. intros ? [= <-]. right. by left.
  - eexists _, w1, [ERequest GET url]. split; [done|]. split; [by repeat constructor|done].
Qed.

Lemma repo_info_emits endpoint repo :
  emits (W := W) (repo_info retry endpoint repo) (fun r tr =>
    Forall (fun e => lists e = true) tr /\ forall info, r = Ok info -> EJson (Ok info) ∈ tr).
Proof.
  unfold repo_info. eapply fetch_weaken; [apply retried_emits, list_once_emits|].
  intros r tr (earlier & lt & -> & Hall & [Hl Hi] & _). split.
  - apply Forall_app. split; [|done]. induction Hall as [|[e t] earlier [[Ht _] _] _ IH]; [done|].
    cbn. by apply Forall_app.
  - intros info ->. apply elem_of_app. right. by apply Hi.
Qed.

Lemma listings_emits endpoint l :
  emits (W := W) (listings retry endpoint l) (fun r tr =>
    Forall (fun e => lists e = true) tr /\ forall ls, r = Ok ls -> Forall2 (listed tr) l ls).
Proof.
  induction l as [|part l IH]; cbn [listings].
  { apply emits_done. split; [done|]. intros ls [= <-]. constructor. }
  eapply emits_then with (P := fun r tr =>
    Forall (fun e => lists e = true) tr /\ forall listing, r = Ok listing -> listed tr part listing).
  - destruct part as [d|repo prefix dest|path pinned dest|src dest];
      try (apply emits_done; split; [done|by intros ? [= <-]]).
    unfold snapshot_downloads. eapply emits_then; [apply repo_info_emits| |].
    + intros e tr [Hl _]. by split.
    + intros info tr [Hl Hi]. apply emits_done. rewrite app_nil_r. split; [done|].
      intros listing Hp. exists info. auto.
  - intros e tr [Hl _]. by split.
  - intros listing tr [Hl Hp]. eapply emits_then; [exact IH| |].
    + intros e tr' [Hl' _]. split; [by apply Forall_app|done].
    + intros rest tr' [Hl' Hr]. apply emits_done. rewrite app_nil_r. split; [by apply Forall_app|].
      intros ls [= <-]. constructor.
      * eapply listed_mono; [|by apply Hp]. intros x Hx. apply elem_of_app. by left.
      * eapply Forall2_impl; [by apply Hr|]. intros p q. apply listed_mono.
        intros x Hx. apply elem_of_app. by right.
Qed.

(** Every listing of a model is read before its first byte is fetched: a fetch is a phase
    that only lists, each listing with the policy's retries, and then one that only fetches,
    which is entered with every snapshot listed. The fetches complete the model's files in
    the planned order; a success completed them all, and a failure the first of them. *)
Theorem listings_precede_downloads declared into ps (w : W) :
  parts declared into = Ok ps ->
  exists r w' tl td,
    fetch_model retry access declared into (w, []) = Some (r, (w', tl ++ td)) /\
    Forall (fun e => lists e = true) tl /\ Forall (fun e => lists e = false) td /\
    (td <> [] \/ r = Ok tt -> exists ls, Forall2 (listed tl) ps ls /\
       let goal := concat (map part_goal (zip ps ls)) in
       omap landed td `prefix_of` goal /\ (r = Ok tt -> omap landed td = goal)).
Proof.
  intros Hp. unfold fetch_model, fetch_model_with_hf_endpoint. rewrite Hp.
  unfold then_ at 1, done_with at 1. cbn [mbind option_bind].
  destruct (listings_emits HF_ENDPOINT ps w []) as ([ls|e] & w1 & tl & E1 & Hl & Hls).
  2:{ exists (Err e), w1, tl, []. unfold then_. rewrite E1. cbn. rewrite app_nil_r.
    split_and!; [done..|]. by intros [?|?]. }
  destruct (each_fetches (fetch_part retry access) part_goal (zip ps ls)
    (fun p _ => fetch_part_fetches p) w1 tl) as (r & w2 & td & E2 & Hd & Hpre & Hall).
  exists r, w2, tl, td. unfold then_. rewrite E1. cbn [mbind option_bind app]. rewrite E2.
  split_and!; [done..|]. intros _. exists ls. split; [by apply Hls|].
  split; [exact Hpre|]. intros ->. by apply Hall.
Qed.
End Trace.

(** ** Sizes *)

Section Sizes.
Context `{PT : PlanTypes} `{UT : UrlTypes} {W : Type} `{FH : FetchHost W}.
Context (retry : RetryPolicy) (access : bool).

(** The parts sized one after the other. *)
Inductive sized : list Part -> list (option Z) -> W -> W -> Prop :=
| sized_nil w : sized [] [] w w
| sized_cons part l size sizes w w1 w2 :
    part_size_bytes retry access part w = Some (Ok size, w1) -> sized l sizes w1 w2 ->
    sized (part :: l) (size :: sizes) w w2.

(** The sum of known sizes. *)
Definition total_of (sizes : list (option Z)) : Z := foldr (fun s n => default 0 s + n) 0 sizes.

Lemma sizes_from_spec total l (w w' : W) size :
  sizes_from retry access total l w = Some (Ok size, w') ->
  exists sizes, sized l sizes w w' /\
    ((exists n, size = Some n) <-> (exists n, total = Some n) /\ None ∉ sizes) /\
    (Forall (from_option (fun n => 0 <= n) True) sizes -> forall t n,
       total = Some t -> size = Some n -> 0 <= t <= u64_max -> n = Z.min u64_max (t + total_of sizes)).
Proof.
  revert total w. induction l as [|part l IH]; intros total w; cbn [sizes_from].
  { intros [= <- <-]. exists []. split; [constructor|]. split.
    - split; [intros Hn; split; [done|by apply not_elem_of_nil]|by intros [? _]].
    - intros _ t n -> [= <-] Ht. cbn. lia. }
  unfold then_. destruct (part_size_bytes retry access part w) as [[[s|e] w1]|] eqn:Es; try done.
  cbn [mbind option_bind]. intros H. apply IH in H as (sizes & Hs & Hiff & Hsum).
  exists (s :: sizes). split; [by econstructor|]. split.
  - rewrite Hiff, not_elem_of_cons. destruct total as [t|], s as [n|]; cbn; naive_solver.
  - intros [Hn Hrest]%Forall_cons t n -> Hsize Ht. destruct s as [k|].
    2:{ assert (exists n, size = Some n) as Hex by by exists n. apply Hiff in Hex as [[? [=]] _]. }
    cbn [from_option] in Hn. assert (0 <= sat_add u64_max t k <= u64_max) as Hrange by (unfold sat_add; lia).
    rewrite (Hsum Hrest (sat_add u64_max t k) n eq_refl Hsize Hrange).
    assert (0 <= total_of sizes) as Hpos.
    { clear -Hrest. unfold total_of. induction Hrest as [|[m|] sizes Hm _ IH]; cbn in *; lia. }
    unfold sat_add. cbn. fold (total_of sizes). lia.
Qed.

(** The size of a model is known exactly when the size of every part is, and is then their
    saturating sum: a part that cannot be sized leaves no undercount for the quota. *)
Theorem declared_size_is_whole declared (w w' : W) size :
  declared_size_bytes retry access declared w = Some (Ok size, w') ->
  exists into ps sizes, to_stored declared QUOTA_PROBE_BASE = Ok into /\ parts declared into = Ok ps /\
    sized ps sizes w w' /\ ((exists n, size = Some n) <-> None ∉ sizes) /\
    (Forall (from_option (fun n => 0 <= n) True) sizes -> forall n, size = Some n ->
       n = Z.min u64_max (total_of sizes)).
Proof.
  unfold declared_size_bytes. destruct (to_stored declared QUOTA_PROBE_BASE) as [into|e] eqn:Ei; [|done].
  unfold then_, done_with. cbn [mbind option_bind]. destruct (parts declared into) as [ps|e] eqn:Ep; [|done].
  intros H. apply sizes_from_spec in H as (sizes & Hs & Hiff & Hsum). exists into, ps, sizes.
  split_and!; [done..| |].
  - rewrite Hiff. split; [by intros [_ ?]|]. intros Hn. split; [by eexists|done].
  - intros Hpos n Hn. rewrite (Hsum Hpos 0 n); [done..|unfold u64_max; lia].
Qed.
End Sizes.

(** ** What a failed fetch tells the worker *)

(** The display of a refusal. *)
Definition refused_text (resource_id : str) (status : Z) (detail : str) : str :=
  lit "the management server refused vault resource " ++ resource_id ++ lit " with "
  ++ show_uint status ++ lit ": " ++ detail.

(** [ModelStoreError::Fetch] around the error of [fetch_model] that a refusal becomes. Its
    [Vault] variant is transparent: it shows the text of the vault's error and has the
    vault's error's sources, so that error itself is no link of the chain. *)
Definition model_refused (model resource_id : str) (status : Z) (detail : str) : anyhow_error :=
  {| contexts := []; root := (OtherCause, lit "fetching model `" ++ model ++ lit "` failed");
     sources := [(OtherCause, refused_text resource_id status detail)] |}.

(** [RuntimeStoreError::Fetch] around the same refusal of a wheelhouse, which is the error
    itself. *)
Definition runtime_refused (runtime resource_id : str) (status : Z) (detail : str) : anyhow_error :=
  {| contexts := []; root := (OtherCause, lit "installing runtime `" ++ runtime ++ lit "` failed");
     sources := [(VaultCause (Refused resource_id status detail), refused_text resource_id status detail)] |}.

(** A refusal that no device of the owner could get past ends a job whose runtime met it, and
    not one whose model did: the worker looks for the vault's error in the chain, where the
    model's fetch error hides it, and reports the job as worth another claim. *)
Theorem refused_models_are_claimed_again name resource_id status detail :
  is_permanent (Refused resource_id status detail) = true /\
  Protocol.classify_run_error (runtime_refused name resource_id status detail) = false /\
  Protocol.classify_run_error (model_refused name resource_id status detail) =
    negb (Protocol.contains_any
      (to_ascii_lowercase (display_chain (model_refused name resource_id status detail)))
      Protocol.non_retriable_markers) /\
  Protocol.classify_run_error
    (model_refused (lit "llama") (lit "vault_1") 403 (lit "request returned 403 for GET u")) = true.
Proof. split_and!; [done..|vm_compute; reflexivity]. Qed.

(** A server that asks a device to slow down is worth another attempt in this process and,
    by the other classification, no other claim; nothing else is both. *)
Lemma throttled_is_both e :
  (vault_disposition e <> Permanent /\ is_permanent e = true) <->
  exists method url body, e = VaultMgmt (HttpStatus method url 429 body).
Proof.
  split.
  - destruct e as [| | | | |[]|? kind|]; cbn; intros [Hd Hp]; try done.
    + revert Hd Hp. destruct (Z.leb_spec 500 status); cbn; [done|].
      intros Hd _. unfold http_status in Hd. repeat case_bool_decide; simplify_eq. by eexists _, _, _.
  - intros (method & url & body & ->). by vm_compute.
Qed.

(** ** Witnesses *)

Import Models.Demo.

(** A host whose listing has two files and whose every call succeeds. *)
Module DemoHost.
#[export] Instance urls : UrlTypes := {|
  url_ok _ := true;
  repo_text r := org r ++ lit "/" ++ repo_name r;
|}.

Definition info : HfModelInfo :=
  {| sha := lit "0123abcd";
     siblings := [{| rfilename := lit "8bit/w.safetensors"; size := Some 7; lfs := Some (lit "ba78") |};
                  {| rfilename := lit "README.md"; size := Some 2; lfs := None |}] |}.

Definition response : Http.Response :=
  {| Http.response_status := 200; Http.retry_after_header := None;
     Http.length_header := Some (lit "9"); Http.body := [] |}.

Definition record : Resume.VaultResource := {| Resume.sha256 := lit "ba78"; Resume.bytes := 3 |}.

#[export] Instance host : FetchHost unit := {|
  request _ _ _ w := (Ok response, 1, w);
  read_json _ w := (Ok info, w);
  fetch_public_file _ _ _ w := (Ok tt, w);
  get_vault_resource _ w := (Ok record, w);
  fetch_content _ _ _ w := (Ok tt, w);
  unpack _ _ w := (Ok tt, w);
  copy_file _ _ w := (Ok tt, w);
  copy_tree _ _ w := (Ok tt, w);
  entry_size_bytes _ w := (5, w);
  random_u64 w := (0, w);
  thread_sleep _ w := w;
|}.

(** A pair of an 8-bit target and a vault archive for a drafter. *)
Definition pair_declared : Model :=
  PairModel MlxSpeculative (HuggingFace repo (Some (lit "8bit")))
    (VaultArchive (lit "/vault/resources/7f3a/content") None (lit "p") None).

Definition entry_base : str := lit "/s/e/blobs".

Definition pair_into : Model :=
  match to_stored pair_declared entry_base with Ok m => m | Err _ => AppleFoundationText end.

Definition pair_parts : list Part :=
  match parts pair_declared pair_into with Ok ps => ps | Err _ => [] end.
End DemoHost.
Import DemoHost.

Lemma parts_land_where_stored_witness :
  parts pair_declared pair_into =
    Ok [HfSnapshot repo (Some (lit "8bit")) (lit "/s/e/blobs/target");
        VaultArchivePart (lit "/vault/resources/7f3a/content") None (lit "/s/e/blobs/draft")] /\
  NoDup (stored_paths pair_into).
Proof.
  assert (is_absolute entry_base = true) as Hb by (vm_compute; reflexivity).
  assert (to_stored pair_declared entry_base = Ok pair_into) as Hs by (vm_compute; reflexivity).
  split; [vm_compute; reflexivity|]. exact (proj2 (parts_land_where_stored _ _ _ Hb Hs)).
Defined.

Lemma listings_precede_downloads_witness :
  length pair_parts = 2%nat /\
  exists r w' tl td,
    fetch_model DOWNLOAD true pair_declared pair_into (tt, []) = Some (r, (w', tl ++ td)) /\
    Forall (fun e => lists e = true) tl /\ Forall (fun e => lists e = false) td.
Proof.
  assert (parts pair_declared pair_into = Ok pair_parts) as Hp by (vm_compute; reflexivity).
  split; [vm_compute; reflexivity|].
  destruct (listings_precede_downloads DOWNLOAD true _ _ _ tt Hp) as (r & w' & tl & td & H1 & H2 & H3 & _).
  exists r, w', tl, td. repeat split; assumption.
Defined.

Lemma declared_size_is_whole_witness :
  declared_size_bytes DOWNLOAD true (weights (lit "q4/w.gguf") None) tt = Some (Ok (Some 9), tt) /\
  exists into ps (sizes : list (option Z)), to_stored (weights (lit "q4/w.gguf") None) QUOTA_PROBE_BASE = Ok into /\
    parts (weights (lit "q4/w.gguf") None) into = Ok ps /\ None ∉ sizes.
Proof.
  assert (declared_size_bytes DOWNLOAD true (weights (lit "q4/w.gguf") None) tt = Some (Ok (Some 9), tt)) as H
    by (vm_compute; reflexivity).
  split; [exact H|].
  destruct (declared_size_is_whole DOWNLOAD true _ tt tt _ H) as (into & ps & sizes & H1 & H2 & _ & H3 & _).
  exists into, ps, sizes. repeat split; [exact H1|exact H2|]. apply H3. by exists 9.
Defined.
