(* ===== verification/CtlState.v ===== *)
(** * The plan runner's state file ([crates/pipette-ctl/src/state.rs])

    One JSON event per line, appended as cells are run; [StateIndex] folds the events of a
    plan into what each cell's next step depends on. With it: the state file's I/O
    ([runner/state_io.rs]), the sections of a listing ([runner/cells.rs]), the header of a
    status ([runner/status.rs]) and the shard of a run ([runner/shard.rs]).

    [RunnableCell] comes from the plan-types crate; the record holds what this code reads
    of it. The JSON reader and writer are parameters. *)

From Stdlib Require Import ZArith Lia String.
From stdpp Require Import prelude list gmap.
From S2P Require Import Prelude Str.

Local Open Scope Z_scope.
Local Open Scope rust_scope.

(** ** Data *)

Inductive CellState := Done | Failed | Missing.

#[export] Instance CellState_eq_dec : EqDecision CellState.
Proof. solve_decision. Defined.

Inductive AttemptStatus := AStarted | ASuccess | AFailed.

#[export] Instance AttemptStatus_eq_dec : EqDecision AttemptStatus.
Proof. solve_decision. Defined.

(** The canonical strings of a cell, as its [Display] and flag methods give them. *)
Record RunnableCell := {
  benchmark : str;
  model : str;
  runtime : str;
  runtime_flags_canonical : option str;
  model_flags_canonical : option str;
  cell_allowed_clients : list str;
}.

Record StateEvent := {
  ev_plan_id : str;
  ev_cell_key : str;
  benchmark_ref : str;
  model_ref : str;
  runtime_ref : str;
  runtime_flags : list str;
  model_flags : str;
  allowed_clients : list str;
  ev_status : AttemptStatus;
  attempt : Z;
  at_time : str;
  exit_code : option Z;
  transport_label : str;
}.

Record StateSummary := { total : nat; done : nat; failed : nat; missing : nat }.

Record CellEntry := {
  has_success : bool;
  has_failed : bool;
  attempts : nat;
  latest_status : option AttemptStatus;
  pinned_transport : option str;
}.

Definition empty_entry : CellEntry :=
  {| has_success := false; has_failed := false; attempts := 0; latest_status := None;
     pinned_transport := None |}.

Notation StateIndex := (gmap str CellEntry).

(** ** The cell key *)

(** The bytes [build_cell_key] hashes. *)
Definition cell_key_preimage (c : RunnableCell) : list Z :=
  as_bytes (benchmark c) ++ [9] ++ as_bytes (model c) ++ [9] ++ as_bytes (runtime c) ++
  match runtime_flags_canonical c with Some f => [31] ++ as_bytes f | None => [] end ++
  match model_flags_canonical c with Some f => [9] ++ as_bytes f | None => [] end.

Section Ctl.
(** SHA-256 as lower-case hex. *)
Context (sha256_hex : list Z -> str).

Definition build_cell_key (c : RunnableCell) : str := sha256_hex (cell_key_preimage c).

(** [StateEvent::new], over the text of the clock; [None] fails to format. *)
Definition StateEvent_new (now_text : option str) (plan_id : str) (cell : RunnableCell)
    (status : AttemptStatus) (n : Z) (label : str) : result StateEvent str :=
  match now_text with
  | None => Err (lit "formatting timestamp")
  | Some at_ =>
      Ok {| ev_plan_id := plan_id; ev_cell_key := build_cell_key cell;
            benchmark_ref := benchmark cell; model_ref := model cell;
            runtime_ref := runtime cell;
            runtime_flags := option_list (runtime_flags_canonical cell);
            model_flags := default [] (model_flags_canonical cell);
            allowed_clients := cell_allowed_clients cell; ev_status := status; attempt := n;
            at_time := at_; exit_code := None; transport_label := label |}
  end.

(** ** The index *)

Definition apply_event (entry : CellEntry) (e : StateEvent) : CellEntry :=
  let pinned := match transport_label e with
                | [] => pinned_transport entry
                | l => Some l
                end in
  match ev_status e with
  | ASuccess =>
      {| has_success := true; has_failed := has_failed entry; attempts := S (attempts entry);
         latest_status := Some ASuccess; pinned_transport := pinned |}
  | AFailed =>
      {| has_success := has_success entry; has_failed := true; attempts := S (attempts entry);
         latest_status := Some AFailed; pinned_transport := pinned |}
  | AStarted =>
      {| has_success := has_success entry; has_failed := has_failed entry;
         attempts := attempts entry; latest_status := Some AStarted;
         pinned_transport := pinned |}
  end.

Definition index_event (plan_id : str) (cells : StateIndex) (e : StateEvent) : StateIndex :=
  if negb (str_eqb (ev_plan_id e) plan_id) then cells
  else <[ev_cell_key e := apply_event (default empty_entry (cells !! ev_cell_key e)) e]> cells.

Section Load.
(** [serde_json::from_str] and [to_string] of an event. *)
Context (from_str : str -> result StateEvent str) (to_string : StateEvent -> result str str).

Fixpoint load_lines (plan_id : str) (i : Z) (ls : list str) (cells : StateIndex)
    : result StateIndex str :=
  match ls with
  | [] => Ok cells
  | line :: rest =>
      match trim line with
      | [] => load_lines plan_id (i + 1) rest cells
      | line =>
          match from_str line with
          | Err _ => Err (lit "parsing state line " ++ show_uint (i + 1))
          | Ok event => load_lines plan_id (i + 1) rest (index_event plan_id cells event)
          end
      end
  end.

Definition load (raw : option str) (plan_id : str) : result StateIndex str :=
  match raw with
  | None => Ok ∅
  | Some content => load_lines plan_id 0 (lines content) ∅
  end.

Definition entry_for (s : StateIndex) (cell : RunnableCell) : option CellEntry :=
  s !! build_cell_key cell.

Definition state_for (s : StateIndex) (cell : RunnableCell) : CellState :=
  match entry_for s cell with
  | Some entry =>
      if has_success entry then Done
      else if bool_decide (latest_status entry = Some AStarted) then Missing
      else if has_failed entry then Failed
      else Missing
  | None => Missing
  end.

Definition attempts_for (s : StateIndex) (cell : RunnableCell) : nat :=
  match entry_for s cell with Some e => attempts e | None => 0%nat end.

Definition pinned_transport_for (s : StateIndex) (cell : RunnableCell) : option str :=
  entry_for s cell ≫= pinned_transport.

Definition count_state (acc : nat * nat * nat) (st : CellState) : nat * nat * nat :=
  let '(d, f, m) := acc in
  match st with
  | Done => (S d, f, m)
  | Failed => (d, S f, m)
  | Missing => (d, f, S m)
  end.

Definition summary_for (s : StateIndex) (cells : list RunnableCell) : StateSummary :=
  let '(d, f, m) := fold_left count_state (map (state_for s) cells) (0%nat, 0%nat, 0%nat) in
  {| total := length cells; done := d; failed := f; missing := m |}.

(** ** Writing *)

Definition to_json_line (e : StateEvent) : result str str :=
  let? json := to_string e in Ok (json ++ [10]).

(** [append_local_state], when the file can be opened and written. *)
Definition append_local_state (raw : option str) (line : str) : str := default [] raw ++ line.

(** ** Dropping a client's events *)

Record FilterOutcome := {
  kept : str;
  dropped_events : nat;
  matched_clients : list str;
}.

Definition matches_client (patterns : list str) (e : StateEvent) : bool :=
  negb (bool_decide (transport_label e = [])) && existsb (contains (transport_label e)) patterns.

Fixpoint filter_lines (patterns : list str) (i : Z) (ls : list str) (acc : FilterOutcome)
    : result FilterOutcome str :=
  match ls with
  | [] => Ok acc
  | line :: rest =>
      if bool_decide (trim line = []) then filter_lines patterns (i + 1) rest acc
      else
        match from_str line with
        | Err _ => Err (lit "parsing state line " ++ show_uint (i + 1))
        | Ok event =>
            filter_lines patterns (i + 1) rest
              (if matches_client patterns event then
                 {| kept := kept acc; dropped_events := S (dropped_events acc);
                    matched_clients :=
                      if bool_decide (transport_label event ∈ matched_clients acc)
                      then matched_clients acc
                      else matched_clients acc ++ [transport_label event] |}
               else
                 {| kept := kept acc ++ line ++ [10]; dropped_events := dropped_events acc;
                    matched_clients := matched_clients acc |})
        end
  end.

Definition filter_out_clients (raw : str) (patterns : list str) : result FilterOutcome str :=
  filter_lines patterns 0 (lines raw) {| kept := []; dropped_events := 0; matched_clients := [] |}.
End Load.
End Ctl.

(** ** Listings ([runner/cells.rs]) *)

Inductive CellFilter := FOutstanding | FMissing | FFailed | FDone | FAll.

Definition filter_matches (f : CellFilter) (st : CellState) : bool :=
  match f with
  | FAll => true
  | FOutstanding => match st with Failed | Missing => true | Done => false end
  | FMissing => bool_decide (st = Missing)
  | FFailed => bool_decide (st = Failed)
  | FDone => bool_decide (st = Done)
  end.

Definition display_cell_state (st : CellState) : str :=
  match st with
  | Failed => lit "failed"
  | Missing => lit "missing"
  | Done => lit "done"
  end.

Definition STATE_ORDER : list CellState := [Failed; Missing; Done].

Fixpoint position (st : CellState) (l : list CellState) : option nat :=
  match l with
  | [] => None
  | x :: l => if bool_decide (x = st) then Some 0%nat else S <$> position st l
  end.

Definition state_rank (st : CellState) : nat := default (length STATE_ORDER) (position st STATE_ORDER).

(** Add a cell to its section of a list kept in rank order (a [BTreeMap] by rank). *)
Fixpoint add_to_section {A} (st : CellState) (cell : A) (groups : list (CellState * list A))
    : list (CellState * list A) :=
  match groups with
  | [] => [(st, [cell])]
  | (st', cs) :: rest =>
      match Nat.compare (state_rank st) (state_rank st') with
      | Eq => (st', cs ++ [cell]) :: rest
      | Lt => (st, [cell]) :: groups
      | Gt => (st', cs) :: add_to_section st cell rest
      end
  end.

Definition split_by_state {A} (cells : list (A * CellState)) : list (CellState * list A) :=
  fold_left (fun groups '(cell, st) => add_to_section st cell groups) cells [].

(** ** The status header ([runner/status.rs]) *)

Definition KEY_WIDTH : nat := 8.

Definition pad_right (n : nat) (s : str) : str := s ++ replicate (n - length s) 32.

Definition field (key value : str) : str := pad_right KEY_WIDTH key ++ lit "  " ++ value.

Definition render (plan_id state_path : str) (s : StateSummary) : str :=
  let show (n : nat) := show_uint (Z.of_nat n) in
  join [10]
    [field (lit "plan_id") plan_id; field (lit "state") state_path;
     field (lit "cells")
       (show (total s) ++ lit " total: " ++ show (done s) ++ lit " done, " ++
        show (failed s) ++ lit " failed, " ++ show (missing s) ++ lit " missing")].

(** ** Shards ([runner/shard.rs]) *)

Record Shard := { index : Z; count : Z }.

Definition shard_contains (s : Shard) (idx : Z) : bool := idx mod count s =? index s.

Definition shard_from_str (s : str) : result Shard str :=
  match split_once 47 s with
  | None => Err (lit "expected INDEX/COUNT, got '" ++ s ++ lit "'")
  | Some (i, n) =>
      match parse_uint u64_max (trim i) with
      | None => Err (lit "invalid shard index '" ++ i ++ lit "'")
      | Some index =>
          match parse_uint u64_max (trim n) with
          | None => Err (lit "invalid shard count '" ++ n ++ lit "'")
          | Some count =>
              if count =? 0 then Err (lit "shard count must be >= 1")
              else if count <=? index then
                Err (lit "shard index " ++ show_uint index ++ lit " must be < count "
                       ++ show_uint count)
              else Ok {| index := index; count := count |}
          end
      end
  end.

(** ** The history of a cell

    What the index stands for: the events of the plan that name the cell, oldest first. *)

Definition history (plan_id key : str) (es : list StateEvent) : list StateEvent :=
  List.filter (fun e => str_eqb (ev_plan_id e) plan_id && str_eqb (ev_cell_key e) key) es.

Definition is_success (e : StateEvent) : bool := bool_decide (ev_status e = ASuccess).
Definition is_failed (e : StateEvent) : bool := bool_decide (ev_status e = AFailed).
Definition is_terminal (e : StateEvent) : bool := is_success e || is_failed e.

(** Done once anything succeeded; failed when the last thing that happened is a failure;
    to be run otherwise, an attempt still open included. *)
Definition history_state (h : list StateEvent) : CellState :=
  if existsb is_success h then Done
  else match last h with
       | Some e => if is_failed e then Failed else Missing
       | None => Missing
       end.

Definition history_attempts (h : list StateEvent) : nat := length (List.filter is_terminal h).

Definition history_pin (h : list StateEvent) : option str :=
  last (List.filter (fun l => negb (bool_decide (l = []))) (map transport_label h)).

Lemma history_app plan key a b : history plan key (a ++ b) = history plan key a ++ history plan key b.
Proof. apply List.filter_app. Qed.

Lemma index_lookup plan key es cells :
  fold_left (index_event plan) es cells !! key =
  match history plan key es with
  | [] => cells !! key
  | h => Some (fold_left apply_event h (default empty_entry (cells !! key)))
  end.
Proof.
  revert cells; induction es as [|e es IH]; intros cells; [done|]. cbn [fold_left].
  rewrite IH. unfold history. cbn [List.filter]. unfold index_event at 1 2.
  destruct (str_eqb (ev_plan_id e) plan) eqn:Ep; cbn [negb andb]; [|done].
  destruct (str_eqb (ev_cell_key e) key) eqn:Ek.
  - apply str_eqb_eq in Ek. subst key. rewrite lookup_insert_eq. cbn [fold_left].
    by destruct (List.filter _ es).
  - rewrite lookup_insert_ne; [done|]. intros H. subst.
    by rewrite (proj2 (str_eqb_eq _ _) eq_refl) in Ek.
Qed.

Lemma apply_event_pin en e :
  pinned_transport (apply_event en e) =
  match transport_label e with [] => pinned_transport en | l => Some l end.
Proof. unfold apply_event. by destruct (ev_status e). Qed.

Lemma fold_entry h :
  let e := fold_left apply_event h empty_entry in
  has_success e = existsb is_success h /\ has_failed e = existsb is_failed h /\
  attempts e = history_attempts h /\ latest_status e = ev_status <$> last h /\
  pinned_transport e = history_pin h.
Proof.
  induction h as [|x h IH] using rev_ind; [done|]. cbv zeta in *.
  destruct IH as (H1 & H2 & H3 & H4 & H5).
  rewrite fold_left_app. cbn [fold_left]. rewrite !existsb_app, last_snoc.
  unfold history_attempts, history_pin in *. rewrite map_app, !List.filter_app. cbn [map List.filter existsb].
  rewrite !length_app.
  assert (pinned_transport (apply_event (fold_left apply_event h empty_entry) x) =
    last (List.filter (fun l => negb (bool_decide (l = []))) (map transport_label h) ++
      (if negb (bool_decide (transport_label x = [])) then [transport_label x] else []))) as Hp.
  { rewrite apply_event_pin, H5. destruct (transport_label x); cbn; by rewrite ?app_nil_r, ?last_snoc. }
  rewrite Hp. set (en := fold_left apply_event h empty_entry) in *. clearbody en.
  unfold apply_event, is_terminal, is_success, is_failed in *.
  destruct (ev_status x) eqn:Est; cbn; rewrite ?H1, ?H2, ?H3, ?orb_true_r, ?orb_false_r;
    split_and!; try done; cbn; rewrite ?Est; cbn; try done;
    repeat (case_bool_decide; try congruence); cbn; lia.
Qed.

Lemma existsb_last_failed h e :
  existsb is_success h = false -> last h = Some e -> ev_status e <> AStarted ->
  is_failed e = true.
Proof.
  intros Hs Hl Hst. apply last_Some in Hl as (l & ->). rewrite existsb_app in Hs. cbn in Hs.
  apply orb_false_iff in Hs as [_ Hs]. unfold is_success, is_failed in *.
  by destruct (ev_status e).
Qed.

Section IndexSpec.
Context (sha256_hex : list Z -> str) (plan : str).

Definition index_of (es : list StateEvent) : StateIndex := fold_left (index_event plan) es ∅.

Lemma index_of_spec es cell :
  let h := history plan (build_cell_key sha256_hex cell) es in
  state_for sha256_hex (index_of es) cell = history_state h /\
  attempts_for sha256_hex (index_of es) cell = history_attempts h /\
  pinned_transport_for sha256_hex (index_of es) cell = history_pin h.
Proof.
  cbv zeta. unfold state_for, attempts_for, pinned_transport_for, entry_for, index_of.
  rewrite index_lookup, lookup_empty.
  destruct (history plan (build_cell_key sha256_hex cell) es) as [|x h'] eqn:E; [done|].
  rewrite <- E. set (h := history _ _ _) in *. assert (h <> []) as Hne by (by rewrite E). clearbody h.
  change (default empty_entry None) with empty_entry.
  destruct (fold_entry h) as (H1 & H2 & H3 & H4 & H5). cbn [mbind option_bind].
  rewrite H1, H2, H3, H4, H5. split; [|done]. unfold history_state.
  destruct (existsb is_success h) eqn:Es; [done|].
  destruct (last h) as [e|] eqn:El; [|by apply last_None in El]. cbn.
  case_bool_decide as Hst.
  - simplify_eq. unfold is_failed. by rewrite Hst.
  - rewrite (existsb_last_failed h e) by (done || congruence).
    assert (existsb is_failed h = true) as ->; [|done].
    apply last_Some in El as (l & ->). rewrite existsb_app. cbn.
    rewrite (existsb_last_failed (l ++ [e]) e); [by rewrite orb_true_r|done|by rewrite last_snoc|congruence].
Qed.
End IndexSpec.

(** ** The events of a file *)

Section Events.
Context (from_str : str -> result StateEvent str).

Fixpoint events_of_lines (i : Z) (ls : list str) : result (list StateEvent) str :=
  match ls with
  | [] => Ok []
  | line :: rest =>
      match trim line with
      | [] => events_of_lines (i + 1) rest
      | line =>
          match from_str line with
          | Err _ => Err (lit "parsing state line " ++ show_uint (i + 1))
          | Ok e => let? es := events_of_lines (i + 1) rest in Ok (e :: es)
          end
      end
  end.

Definition events_of (raw : str) : result (list StateEvent) str := events_of_lines 0 (lines raw).

Lemma load_lines_events plan i ls cells :
  load_lines from_str plan i ls cells =
  let? es := events_of_lines i ls in Ok (fold_left (index_event plan) es cells).
Proof.
  revert i cells; induction ls as [|l ls IH]; intros i cells; [done|]. cbn [load_lines events_of_lines].
  destruct (trim l) as [|c t]; [apply IH|]. destruct (from_str (c :: t)) as [e|]; [|done].
  rewrite IH. by destruct (events_of_lines (i + 1) ls).
Qed.

Lemma load_events plan raw :
  load from_str (Some raw) plan = let? es := events_of raw in Ok (index_of plan es).
Proof. apply load_lines_events. Qed.

Lemma events_of_lines_app i a b :
  events_of_lines i (a ++ b) =
  let? es := events_of_lines i a in
  let? es' := events_of_lines (i + Z.of_nat (length a)) b in Ok (es ++ es').
Proof.
  revert i; induction a as [|l a IH]; intros i; cbn [app events_of_lines length].
  - rewrite Z.add_0_r. cbn [result_bind]. by destruct (events_of_lines i b).
  - rewrite Nat2Z.inj_succ. replace (i + Z.succ (Z.of_nat (length a)))
      with (i + 1 + Z.of_nat (length a)) by lia.
    destruct (trim l); [apply IH|]. destruct (from_str _); [|done].
    rewrite IH. destruct (events_of_lines (i + 1) a); [|done]. cbn [result_bind].
    by destruct (events_of_lines _ b).
Qed.
End Events.

(** ** Lines *)

Lemma trim_end_cr l : trim_end (l ++ [13]) = trim_end l.
Proof. unfold trim_end. by rewrite rev_app_distr. Qed.

Lemma trim_start_app_ws l : trim (l ++ [13]) = trim l.
Proof.
  unfold trim. induction l as [|c l IH]; [done|]. cbn [app trim_start].
  destruct (is_whitespace c); [exact IH|]. change (c :: l ++ [13]) with ((c :: l) ++ [13]).
  apply trim_end_cr.
Qed.

Lemma trim_strip_cr l : trim (strip_cr l) = trim l.
Proof.
  unfold strip_cr. destruct (strip_suffix [13] l) as [l'|] eqn:E; [|done].
  apply strip_suffix_spec in E as ->. by rewrite trim_start_app_ws.
Qed.

(** ** Filtering *)

Section FilterLemmas.
Context (from_str : str -> result StateEvent str) (patterns : list str).
Context (ignores_whitespace : forall l e, from_str l = Ok e -> from_str (trim l) = Ok e).

Lemma events_of_lines_index i j ls es :
  events_of_lines from_str i ls = Ok es -> events_of_lines from_str j ls = Ok es.
Proof.
  revert i j es; induction ls as [|l ls IH]; intros i j es H; [done|]. cbn [events_of_lines] in *.
  destruct (trim l); [by eapply IH|]. destruct (from_str _); [|done].
  destruct (events_of_lines from_str (i + 1) ls) as [es'|] eqn:E; [|done].
  by rewrite (IH _ (j + 1) _ E).
Qed.

Lemma events_of_snoc raw l e es :
  whole_lines raw -> newline_free l -> trim l <> [] -> from_str (trim l) = Ok e ->
  events_of from_str raw = Ok es -> events_of from_str (raw ++ l ++ [10]) = Ok (es ++ [e]).
Proof.
  intros Hw Hn Ht Hf He. unfold events_of in *.
  rewrite lines_app, (lines_line l []), events_of_lines_app, He by done. cbn [result_bind].
  cbn [events_of_lines lines lines_from]. rewrite trim_strip_cr.
  destruct (trim l); [done|]. by rewrite Hf.
Qed.

Lemma whole_lines_snoc raw l : whole_lines (raw ++ l ++ [10]).
Proof. right. exists (raw ++ l). by rewrite app_assoc. Qed.

(** The labels that matched so far, each once. *)
Definition labels_ok (es : list StateEvent) (ls : list str) : Prop :=
  NoDup ls /\ forall l, l ∈ ls <-> exists e, e ∈ es /\ matches_client patterns e = true /\ transport_label e = l.

Definition filter_ok (es : list StateEvent) (out : FilterOutcome) : Prop :=
  whole_lines (kept out) /\
  events_of from_str (kept out) =
    Ok (List.filter (fun e => negb (matches_client patterns e)) es) /\
  dropped_events out = length (List.filter (matches_client patterns) es) /\
  labels_ok es (matched_clients out).

Lemma filter_ok_step es acc l e :
  newline_free l -> trim l <> [] -> from_str l = Ok e -> filter_ok es acc ->
  filter_ok (es ++ [e])
    (if matches_client patterns e then
       {| kept := kept acc; dropped_events := S (dropped_events acc);
          matched_clients :=
            if bool_decide (transport_label e ∈ matched_clients acc)
            then matched_clients acc
            else matched_clients acc ++ [transport_label e] |}
     else
       {| kept := kept acc ++ l ++ [10]; dropped_events := dropped_events acc;
          matched_clients := matched_clients acc |}).
Proof.
  intros Hn Ht Hf (Hw & Hk & Hd & Hnd & Hl). unfold filter_ok, labels_ok.
  rewrite !List.filter_app, length_app. cbn [List.filter].
  destruct (matches_client patterns e) eqn:Em; cbn [negb kept dropped_events matched_clients length].
  - rewrite app_nil_r. split_and!; [done|done|lia|..].
    + case_bool_decide; [done|]. apply NoDup_app. split_and!; [done| |apply NoDup_singleton].
      set_solver.
    + intros k. setoid_rewrite elem_of_app. setoid_rewrite list_elem_of_singleton.
      case_bool_decide as Hin; [|rewrite elem_of_app, list_elem_of_singleton]; rewrite Hl in *;
        naive_solver.
  - split_and!; [apply whole_lines_snoc| |lia|done|].
    + apply events_of_snoc; auto.
    + intros k. rewrite Hl. setoid_rewrite elem_of_app. setoid_rewrite list_elem_of_singleton.
      naive_solver congruence.
Qed.

Lemma filter_lines_ok i ls acc out es0 :
  Forall newline_free ls -> filter_lines from_str patterns i ls acc = Ok out ->
  filter_ok es0 acc ->
  exists es, events_of_lines from_str i ls = Ok es /\ filter_ok (es0 ++ es) out.
Proof.
  intros Hn. revert i acc es0; induction Hn as [|l ls Hl Hn IH]; intros i acc es0 H Hok.
  { cbn in H. simplify_eq. exists []. by rewrite app_nil_r. }
  cbn [filter_lines events_of_lines] in *. case_bool_decide as Ht.
  { rewrite Ht. by eapply IH. }
  destruct (from_str l) as [e|] eqn:Ef; [|done].
  eapply IH in H as (es & He & Hf); [|by eapply (filter_ok_step es0 acc l e)].
  exists (e :: es). apply ignores_whitespace in Ef.
  destruct (trim l) as [|c t]; [done|]. rewrite Ef, He. cbn [result_bind].
  split; [done|]. by rewrite <- app_assoc in Hf.
Qed.
End FilterLemmas.

(** ** Keys *)

Lemma split_at_sep {A} (sep : A) (a b a' b' : list A) :
  sep ∉ a -> sep ∉ a' -> a ++ sep :: b = a' ++ sep :: b' -> a = a' /\ b = b'.
Proof.
  revert a'; induction a as [|x a IH]; intros [|x' a'] H1 H2 H; simplify_eq/=; [done|set_solver..|].
  destruct (IH a') as [-> ->]; set_solver.
Qed.

(** Text without the tab and the unit separator the key is built with. *)
Definition clean (s : str) : Prop := valid_str s /\ Forall (fun c => c <> 9 /\ c <> 31) s.

Definition clean_cell (c : RunnableCell) : Prop :=
  clean (benchmark c) /\ clean (model c) /\ clean (runtime c) /\
  (forall f, runtime_flags_canonical c = Some f -> clean f) /\
  (forall f, model_flags_canonical c = Some f -> clean f).

Lemma clean_bytes s b : clean s -> b = 9 \/ b = 31 -> b ∉ as_bytes s.
Proof.
  intros [Hv Hc] Hb Hin. unfold as_bytes in Hin. apply list_elem_of_bind in Hin as (c & Hin & Hcs).
  unfold valid_str in Hv. rewrite Forall_forall in Hv, Hc.
  specialize (Hv c Hcs). specialize (Hc c Hcs).
  apply encode_char_bytes in Hin; [lia|]. unfold valid_char in Hv.
  apply orb_true_iff in Hv as [Hv|Hv]; bool_to_prop; lia.
Qed.

Lemma as_bytes_inj a b : clean a -> clean b -> as_bytes a = as_bytes b -> a = b.
Proof.
  intros [Ha _] [Hb _] H. apply from_utf8_as_bytes in Ha, Hb. congruence.
Qed.

(** The end of the key: the runtime and the two optional flags. *)
Lemma key_tail_inj (r r' : list Z) (f f' g g' : option (list Z)) :
  (forall b, b = 9 \/ b = 31 -> b ∉ r /\ b ∉ r') ->
  (forall x b, f = Some x \/ f' = Some x -> b = 9 \/ b = 31 -> b ∉ x) ->
  r ++ (match f with Some x => [31] ++ x | None => [] end) ++
    (match g with Some x => [9] ++ x | None => [] end) =
  r' ++ (match f' with Some x => [31] ++ x | None => [] end) ++
    (match g' with Some x => [9] ++ x | None => [] end) ->
  r = r' /\ f = f' /\ g = g'.
Proof.
  intros Hr Hf H.
  assert (forall a a' : list Z, 9 ∉ a -> 9 ∉ a' ->
    a ++ (match g with Some x => [9] ++ x | None => [] end) =
    a' ++ (match g' with Some x => [9] ++ x | None => [] end) -> a = a' /\ g = g') as Hg.
  { intros a a' H1 H2 He. destruct g as [x|], g' as [x'|]; cbn in He; rewrite ?app_nil_r in He.
    - apply split_at_sep in He as [-> ->]; done.
    - subst. set_solver.
    - subst. set_solver.
    - done. }
  destruct (Hr 9 ltac:(auto)), (Hr 31 ltac:(auto)).
  destruct f as [x|], f' as [x'|]; cbn in H; rewrite ?app_nil_l in H.
  - pose proof (Hf x 9 ltac:(auto) ltac:(auto)). pose proof (Hf x' 9 ltac:(auto) ltac:(auto)).
    apply split_at_sep in H as [-> H]; [|done..]. apply Hg in H as [-> ->]; done.
  - exfalso. rewrite app_comm_cons, app_assoc in H.
    pose proof (Hf x 9 ltac:(auto) ltac:(auto)).
    apply Hg in H as [H _]; [set_solver|set_solver|done].
  - exfalso. rewrite app_comm_cons, (app_assoc r') in H.
    pose proof (Hf x' 9 ltac:(auto) ltac:(auto)).
    apply Hg in H as [H _]; [set_solver|done|set_solver].
  - apply Hg in H as [-> ->]; done.
Qed.

(** ** Theorems *)


(** An event that was written is read back. Appended to any file of whole lines that
    loads, it adds itself to the history and changes nothing else: a success settles its
    cell for good, a failure fails it unless it had succeeded, a start leaves it to be run. *)
Theorem recorded_event_is_loaded (sha256_hex : list Z -> str)
    (from_str : str -> result StateEvent str) (to_string : StateEvent -> result str str)
    (json_roundtrip : forall e, exists json, to_string e = Ok json /\ newline_free json /\
       trim json <> [] /\ from_str (trim json) = Ok e)
    (raw : str) (es : list StateEvent) (e : StateEvent) :
  whole_lines raw -> events_of from_str raw = Ok es ->
  exists line idx,
    to_json_line to_string e = Ok line /\
    load from_str (Some (append_local_state (Some raw) line)) (ev_plan_id e) = Ok idx /\
    idx = index_of (ev_plan_id e) (es ++ [e]) /\
    forall cell, build_cell_key sha256_hex cell = ev_cell_key e ->
      state_for sha256_hex idx cell =
        (if existsb is_success (history (ev_plan_id e) (ev_cell_key e) es) then Done
         else match ev_status e with
              | ASuccess => Done
              | AFailed => Failed
              | AStarted => Missing
              end).
Proof.
  intros Hw He. destruct (json_roundtrip e) as (json & Hj & Hn & Ht & Hf).
  exists (json ++ [10]), (index_of (ev_plan_id e) (es ++ [e])).
  unfold to_json_line. rewrite Hj. split; [done|]. rewrite load_events.
  unfold append_local_state. change (default [] (Some raw)) with raw.
  rewrite (events_of_snoc from_str raw json e es) by done.
  split; [done|]. split; [done|]. intros cell Hk.
  destruct (index_of_spec sha256_hex (ev_plan_id e) (es ++ [e]) cell) as (-> & _ & _).
  rewrite Hk, history_app. set (h := history _ _ es).
  assert (history (ev_plan_id e) (ev_cell_key e) [e] = [e]) as ->.
  { unfold history. cbn. by rewrite !(proj2 (str_eqb_eq _ _) eq_refl). }
  unfold history_state. rewrite existsb_app, last_snoc. destruct (existsb is_success h); [done|].
  cbn. unfold is_success, is_failed. by destruct (ev_status e).
Qed.

(** Dropping a client's events from a file leaves exactly the others: the kept text
    loads to the events that no pattern matched, in order, the count is of the rest, and
    the report names each client that matched, once. *)
Theorem filter_out_clients_correct (from_str : str -> result StateEvent str)
    (ignores_whitespace : forall l e, from_str l = Ok e -> from_str (trim l) = Ok e)
    (raw : str) (patterns : list str) (out : FilterOutcome) :
  filter_out_clients from_str raw patterns = Ok out ->
  exists es,
    events_of from_str raw = Ok es /\
    events_of from_str (kept out) =
      Ok (List.filter (fun e => negb (matches_client patterns e)) es) /\
    dropped_events out = length (List.filter (matches_client patterns) es) /\
    NoDup (matched_clients out) /\
    forall l, l ∈ matched_clients out <->
      exists e, e ∈ es /\ matches_client patterns e = true /\ transport_label e = l.
Proof.
  intros H.
  destruct (filter_lines_ok from_str patterns ignores_whitespace 0 (lines raw) _ out []
    (lines_newline_free raw) H) as (es & He & _ & Hk & Hd & Hn & Hl).
  - split; [by left|]. split; [done|]. split; [done|]. split; [constructor|]. set_solver.
  - exists es. rewrite app_nil_l in *. done.
Qed.

(** Two cells hash the same bytes only if they are the same work: same benchmark, model,
    runtime and flags. The clients a cell may run on are not part of it. *)
Theorem cell_key_identity (c c' : RunnableCell) :
  clean_cell c -> clean_cell c' -> cell_key_preimage c = cell_key_preimage c' ->
  benchmark c = benchmark c' /\ model c = model c' /\ runtime c = runtime c' /\
  runtime_flags_canonical c = runtime_flags_canonical c' /\
  model_flags_canonical c = model_flags_canonical c'.
Proof.
  intros (Hb & Hm & Hr & Hf & Hg) (Hb' & Hm' & Hr' & Hf' & Hg') H. unfold cell_key_preimage in H.
  apply split_at_sep in H as [H1 H]; [|by apply clean_bytes; auto..].
  apply split_at_sep in H as [H2 H]; [|by apply clean_bytes; auto..].
  apply as_bytes_inj in H1, H2; [|done..].
  assert (forall o : option str, match o with Some f => [31] ++ as_bytes f | None => [] end =
    match as_bytes <$> o with Some x => [31] ++ x | None => [] end) as E1 by (by intros []).
  assert (forall o : option str, match o with Some f => [9] ++ as_bytes f | None => [] end =
    match as_bytes <$> o with Some x => [9] ++ x | None => [] end) as E2 by (by intros []).
  rewrite !E1, !E2 in H. apply key_tail_inj in H as (H3 & H4 & H5).
  - apply as_bytes_inj in H3; [|done..]. split_and!; try done.
    + destruct (runtime_flags_canonical c), (runtime_flags_canonical c'); simplify_eq/=; try done.
      f_equal. apply as_bytes_inj; auto.
    + destruct (model_flags_canonical c), (model_flags_canonical c'); simplify_eq/=; try done.
      f_equal. apply as_bytes_inj; auto.
  - intros b Hbs. split; by apply clean_bytes.
  - intros x b [Hx|Hx] Hbs; apply fmap_Some in Hx as (f & Hx & ->); apply clean_bytes; auto.
Qed.

(** A concrete text for an event: one character past every space. *)
#[export] Instance AttemptStatus_countable : Countable AttemptStatus.
Proof.
  refine (inj_countable' (fun s => match s with AStarted => 0%nat | ASuccess => 1%nat | AFailed => 2%nat end)
    (fun n => match n with 0%nat => AStarted | 1%nat => ASuccess | _ => AFailed end) _).
  by intros [].
Defined.

Definition event_fields (e : StateEvent) :=
  (ev_plan_id e, ev_cell_key e, benchmark_ref e, model_ref e, runtime_ref e, runtime_flags e,
   model_flags e, allowed_clients e, ev_status e, attempt e, at_time e, exit_code e,
   transport_label e).

#[export] Instance StateEvent_eq_dec : EqDecision StateEvent.
Proof. solve_decision. Defined.

#[export] Instance StateEvent_countable : Countable StateEvent.
Proof.
  refine (inj_countable' event_fields
    (fun '(a, b, c, d, e, f, g, h, i, j, k, l, m) =>
      {| ev_plan_id := a; ev_cell_key := b; benchmark_ref := c; model_ref := d;
         runtime_ref := e; runtime_flags := f; model_flags := g; allowed_clients := h;
         ev_status := i; attempt := j; at_time := k; exit_code := l; transport_label := m |}) _).
  by intros [].
Defined.

Definition one_char (e : StateEvent) : result str str := Ok [Z.pos (encode e) + 200000].
Definition one_char_back (s : str) : result StateEvent str :=
  match s with
  | [n] => match n - 200000 with
           | Z.pos p => match decode p with Some e => Ok e | None => Err [] end
           | _ => Err []
           end
  | _ => Err []
  end.

Lemma not_space n : 200000 < n -> is_whitespace n = false.
Proof.
  intros. unfold is_whitespace.
  repeat (apply orb_false_iff; split); try apply andb_false_iff; lia.
Qed.

Lemma one_char_trim n : 200000 < n -> trim [n] = [n].
Proof.
  intros H. unfold trim, trim_end. cbn [trim_start]. rewrite not_space by done. cbn [rev app trim_start].
  by rewrite not_space.
Qed.

Lemma one_char_roundtrip e :
  exists json, one_char e = Ok json /\ newline_free json /\ trim json <> [] /\
    one_char_back (trim json) = Ok e.
Proof.
  eexists. split; [reflexivity|]. rewrite one_char_trim by apply Z.lt_add_pos_l, Pos2Z.is_pos. split_and!; [|done|].
  - repeat constructor. pose proof (Pos2Z.is_pos (encode e)). lia.
  - unfold one_char_back. replace (Z.pos (encode e) + 200000 - 200000) with (Z.pos (encode e)) by lia.
    by rewrite decode_encode.
Qed.

Definition demo_cell : RunnableCell :=
  {| benchmark := lit "b"; model := lit "m"; runtime := lit "r";
     runtime_flags_canonical := Some (lit "{}"); model_flags_canonical := None;
     cell_allowed_clients := [] |}.

Definition demo_event (st : AttemptStatus) : StateEvent :=
  {| ev_plan_id := lit "p"; ev_cell_key := cell_key_preimage demo_cell; benchmark_ref := lit "b";
     model_ref := lit "m"; runtime_ref := lit "r"; runtime_flags := []; model_flags := [];
     allowed_clients := []; ev_status := st; attempt := 1; at_time := []; exit_code := None;
     transport_label := lit "ev1_a" |}.

Lemma recorded_event_is_loaded_witness :
  exists line idx, to_json_line one_char (demo_event AFailed) = Ok line /\
    load one_char_back (Some (append_local_state (Some []) line)) (lit "p") = Ok idx /\
    state_for (fun bs => bs) idx demo_cell = Failed.
Proof.
  destruct (recorded_event_is_loaded (fun bs => bs) one_char_back one_char one_char_roundtrip
    [] [] (demo_event AFailed)) as (line & idx & Hl & Hi & _ & Hs); [by left|reflexivity|].
  exists line, idx. split; [exact Hl|]. split; [exact Hi|]. exact (Hs demo_cell eq_refl).
Defined.

(** One line per event, with one of two clients. *)
Definition two_lines : str := lit "a" ++ [10] ++ lit "b" ++ [10].

Definition letter_event (l : str) : StateEvent :=
  {| ev_plan_id := lit "p"; ev_cell_key := lit "k"; benchmark_ref := []; model_ref := [];
     runtime_ref := []; runtime_flags := []; model_flags := []; allowed_clients := [];
     ev_status := ASuccess; attempt := 1; at_time := []; exit_code := None; transport_label := l |}.

Definition letters (s : str) : result StateEvent str := Ok (letter_event (trim s)).

Lemma trim_idem s : trim (trim s) = trim s.
Proof.
  assert (forall t, trim_start (trim_start t) = trim_start t) as Hss.
  { induction t as [|c t IH]; [done|]. cbn. destruct (is_whitespace c) eqn:E; [done|]. cbn. by rewrite E. }
  assert (forall t, trim_start t = t -> trim_start (trim_end t) = trim_end t) as Hse.
  { intros t Ht. unfold trim_end. destruct (trim_start (rev t)) as [|c u] eqn:E; [done|].
    destruct t as [|x t]; [done|]. cbn in Ht. destruct (is_whitespace x) eqn:Ex.
    - exfalso. apply (f_equal length) in Ht. cbn in Ht.
      assert (length (trim_start t) <= length t)%nat; [|lia].
      clear. induction t as [|y t IH]; [done|]. cbn. destruct (is_whitespace y); cbn; lia.
    - assert (exists v, rev (c :: u) = x :: v) as (v & ->); [|cbn; by rewrite Ex].
      destruct (trim_start_spec (rev (x :: t))) as (ws & Hws & Hf & _).
      rewrite E in Hws. apply (f_equal (@rev Z)) in Hws. rewrite rev_involutive, rev_app_distr in Hws.
      destruct (rev (c :: u)) as [|y v] eqn:Ev; [|cbn in Hws; simplify_eq; eauto].
      apply (f_equal (@length Z)) in Ev. rewrite length_rev in Ev. done. }
  unfold trim. rewrite (Hse _ (Hss s)). unfold trim_end.
  rewrite rev_involutive, Hss. done.
Qed.

Lemma letters_ws l e : letters l = Ok e -> letters (trim l) = Ok e.
Proof. unfold letters. intros [= <-]. by rewrite trim_idem. Qed.

Lemma filter_out_clients_correct_witness :
  exists out es, filter_out_clients letters two_lines [lit "a"] = Ok out /\
    events_of letters two_lines = Ok es /\ kept out = lit "b" ++ [10] /\
    matched_clients out = [lit "a"] /\
    events_of letters (kept out) =
      Ok (List.filter (fun e => negb (matches_client [lit "a"] e)) es).
Proof.
  eexists. destruct (filter_out_clients_correct letters letters_ws two_lines [lit "a"] _ eq_refl)
    as (es & He & Hk & _).
  exists es. split; [reflexivity|]. split; [exact He|]. split; [reflexivity|].
  split; [reflexivity|exact Hk].
Defined.

Lemma cell_key_identity_witness :
  cell_key_preimage demo_cell = cell_key_preimage demo_cell /\ runtime demo_cell = runtime demo_cell.
Proof.
  assert (clean_cell demo_cell) as Hc.
  { assert (forall s, s = lit "b" \/ s = lit "m" \/ s = lit "r" \/ s = lit "{}" -> clean s) as H.
    { intros s Hs. destruct_or!; subst; split; repeat constructor; vm_compute; congruence. }
    split_and!; [apply H; auto..| |]; cbn; intros f Hf; simplify_eq; apply H; auto. }
  split; [reflexivity|].
  exact (proj1 (proj2 (proj2 (cell_key_identity demo_cell demo_cell Hc Hc eq_refl)))).
Defined.
