(* ===== verification/CtlRun.v ===== *)
(** * Routing and running a plan's cells ([crates/pipette-ctl/src/runner/run.rs])

    Which cells a run takes ([select_runnable]), which transports each may go to
    ([route_cell]), the queues they wait in ([route_all]) and the workers that drain them,
    a thread per transport slot, as a step relation over the shared queues. The wait on a
    device that stopped answering is [crates/pipette-ctl/src/runner/probe.rs].

    A cell is its position in the ordered matrix with its attempt number. *)

From Stdlib Require Import ZArith Lia String.
From stdpp Require Import prelude list gmap sorting.
From S2P Require Import Prelude Str CtlState.

Local Open Scope Z_scope.
Local Open Scope rust_scope.

(** ** Order of lists of strings *)

Fixpoint strs_leb (a b : list str) : bool :=
  match a, b with
  | [], _ => true
  | _ :: _, [] => false
  | x :: a, y :: b => if str_eqb x y then strs_leb a b else str_leb x y
  end.

(** ** Data *)

Definition RunnableItem : Type := nat * nat.

Inductive StrandedReason :=
| PinnedAbsent (label : str)
| PinnedExcluded (label : str) (allowed : list str)
| NoOverlap (allowed : list str).

Inductive RouteOutcome :=
| Pinned (label : str)
| Restricted (labels : list str)
| Unassigned
| Stranded (reason : StrandedReason).

Definition bucket (r : StrandedReason) : str :=
  match r with
  | PinnedAbsent label => lit "absent:" ++ label
  | PinnedExcluded label _ => lit "excluded-from-allowed:" ++ label
  | NoOverlap _ => lit "no-overlap"
  end.

Record RunOptions := {
  limit : option nat;
  include_failed : bool;
  include_done : bool;
  reassign_stranded : bool;
  ignore_pins : bool;
  shard : option Shard;
}.

(** ** Selection *)

Definition selected (sha256_hex : list Z -> str) (state : StateIndex) (opts : RunOptions)
    (idx : nat) (cell : RunnableCell) : option RunnableItem :=
  let attempts := attempts_for sha256_hex state cell in
  match state_for sha256_hex state cell with
  | Done => if include_done opts then Some (idx, S attempts) else None
  | Failed => if include_failed opts then Some (idx, 1%nat) else None
  | Missing => Some (idx, S attempts)
  end.

Definition in_shard (s : option Shard) (idx : nat) : bool :=
  match s with
  | Some sh => shard_contains sh (Z.of_nat idx)
  | None => true
  end.

Fixpoint select_from (sha256_hex : list Z -> str) (state : StateIndex) (opts : RunOptions)
    (idx : nat) (cells : list RunnableCell) : list RunnableItem :=
  match cells with
  | [] => []
  | cell :: rest =>
      (if in_shard (shard opts) idx then option_list (selected sha256_hex state opts idx cell)
       else []) ++ select_from sha256_hex state opts (S idx) rest
  end.

Definition select_runnable (sha256_hex : list Z -> str) (cells : list RunnableCell)
    (state : StateIndex) (opts : RunOptions) : list RunnableItem :=
  select_from sha256_hex state opts 0 cells.

(** ** Routing *)

Definition route_unpinned (allowed_labels : list str) : RouteOutcome :=
  match allowed_labels with
  | [] => Unassigned
  | [l] => Pinned l
  | _ => Restricted allowed_labels
  end.

Definition route_cell (allowed_clients : list str) (state_pinned_label : option str)
    (name_to_label : gmap str str) (present_labels : gset str) (reassign_stranded : bool)
    : RouteOutcome :=
  let allowed_labels :=
    sort_stable str_leb (omap (fun name => name_to_label !! name) allowed_clients) in
  let allowed_was_nonempty := negb (bool_decide (allowed_clients = [])) in
  let allowed_has_overlap := negb (bool_decide (allowed_labels = [])) in
  if allowed_was_nonempty && negb allowed_has_overlap then Stranded (NoOverlap allowed_clients)
  else
    match state_pinned_label with
    | Some pinned =>
        if negb (bool_decide (pinned ∈ present_labels)) then
          if reassign_stranded then route_unpinned allowed_labels
          else Stranded (PinnedAbsent pinned)
        else if allowed_has_overlap && negb (bool_decide (pinned ∈ allowed_labels)) then
          if reassign_stranded then route_unpinned allowed_labels
          else Stranded (PinnedExcluded pinned allowed_labels)
        else Pinned pinned
    | None => route_unpinned allowed_labels
    end.

(** ** The queues

    One per transport, one per set of transports, and the shared pool. *)

Inductive queue_id :=
| QPinned (key : str)
| QRestricted (keys : list str)
| QUnassigned.

#[export] Instance queue_id_eq_dec : EqDecision queue_id.
Proof. solve_decision. Defined.

#[export] Instance queue_id_countable : Countable queue_id.
Proof.
  refine (inj_countable'
    (fun q => match q with QPinned k => inl k | QRestricted ks => inr (Some ks) | QUnassigned => inr None end)
    (fun s => match s with inl k => QPinned k | inr (Some ks) => QRestricted ks | inr None => QUnassigned end) _).
  by intros [].
Defined.

Notation Queues := (gmap queue_id (list RunnableItem)).

Definition queue (m : Queues) (q : queue_id) : list RunnableItem := default [] (m !! q).

Definition push_back (m : Queues) (q : queue_id) (item : RunnableItem) : Queues :=
  <[q := queue m q ++ [item]]> m.

Record Routed := {
  queues : Queues;
  stranded : gmap str (StrandedReason * nat);
}.

(** The plan's transports, by client id. *)
Section Plan.
Context (transports : list str).

Definition name_to_label : gmap str str := list_to_map (map (fun t => (t, t)) transports).
Definition present_labels : gset str := list_to_set transports.

Definition seeded : Queues := list_to_map (map (fun t => (QPinned t, [])) transports).

Definition route_item (r : Routed) (item : RunnableItem) (route : RouteOutcome)
    : result Routed str :=
  match route with
  | Pinned label =>
      match queues r !! QPinned label with
      | None => Err (lit "pre-seeded queue missing for present label")
      | Some _ => Ok {| queues := push_back (queues r) (QPinned label) item;
                        stranded := stranded r |}
      end
  | Restricted labels =>
      Ok {| queues := push_back (queues r) (QRestricted labels) item; stranded := stranded r |}
  | Unassigned =>
      Ok {| queues := push_back (queues r) QUnassigned item; stranded := stranded r |}
  | Stranded reason =>
      let '(first, n) := default (reason, 0%nat) (stranded r !! bucket reason) in
      Ok {| queues := queues r; stranded := <[bucket reason := (first, S n)]> (stranded r) |}
  end.

Context (sha256_hex : list Z -> str) (cells : list RunnableCell) (state : StateIndex)
  (opts : RunOptions).

Definition route_of (cell : RunnableCell) : RouteOutcome :=
  let pinned := if ignore_pins opts then None else pinned_transport_for sha256_hex state cell in
  route_cell (cell_allowed_clients cell) pinned name_to_label present_labels
    (reassign_stranded opts).

Fixpoint route_all (items : list RunnableItem) (r : Routed) : result Routed str :=
  match items with
  | [] => Ok r
  | item :: rest =>
      match cells !! item.1 with
      | None => Err (lit "select_runnable indexes into the same cells")
      | Some cell => let? r' := route_item r item (route_of cell) in route_all rest r'
      end
  end.

(** The part of [run_matrix] before the workers start. *)
Definition distribute : result Routed str :=
  let runnable := select_runnable sha256_hex cells state opts in
  let total := match limit opts with
               | Some l => Nat.min l (length runnable)
               | None => length runnable
               end in
  route_all (take total runnable) {| queues := seeded; stranded := ∅ |}.
End Plan.

(** ** The workers *)

(** Narrowest first, then in order of the keys. *)
Definition by_size_leb (a b : list str) : bool :=
  if (length a <? length b)%nat then true
  else if (length b <? length a)%nat then false
  else strs_leb a b.

Definition restricted_keys (m : Queues) : list (list str) :=
  omap (fun '(q, _) => match q with QRestricted ks => Some ks | _ => None end) (map_to_list m).

Definition eligible_restricted (m : Queues) (route_key : str) : list (list str) :=
  sort_stable by_size_leb
    (List.filter (fun ks => bool_decide (route_key ∈ ks)) (restricted_keys m)).

(** The queues a worker takes from, in the order it tries them. *)
Definition worker_queues (m : Queues) (route_key : str) : list queue_id :=
  QPinned route_key :: map QRestricted (eligible_restricted m route_key) ++ [QUnassigned].

Fixpoint pop_next (m : Queues) (qs : list queue_id) : option (RunnableItem * queue_id * Queues) :=
  match qs with
  | [] => None
  | q :: qs =>
      match queue m q with
      | item :: rest => Some (item, q, <[q := rest]> m)
      | [] => pop_next m qs
      end
  end.

(** What a worker is doing: between cells, holding one it has popped, running it, waiting
    for its device, or over. A worker that stops while it holds a cell leaves it. *)
Inductive worker_state :=
| WIdle
| WHolding (item : RunnableItem) (origin : queue_id)
| WRunning (item : RunnableItem)
| WWaiting
| WStopped.

Record RunState := {
  run_queues : Queues;
  workers : list worker_state;
  started : list (nat * RunnableItem);
  finished : list (nat * RunnableItem * bool);
  abandoned : list RunnableItem;
}.

Definition at_worker (s : RunState) (i : nat) (w : worker_state) : RunState :=
  {| run_queues := run_queues s; workers := <[i := w]> (workers s); started := started s;
     finished := finished s; abandoned := abandoned s |}.

Definition with_queues (s : RunState) (m : Queues) : RunState :=
  {| run_queues := m; workers := workers s; started := started s; finished := finished s;
     abandoned := abandoned s |}.

Section Workers.
(** Each worker's transport, and the queues as they were when the workers were built. *)
Context (keys : list str) (m0 : Queues).

Inductive run_step : RunState -> RunState -> Prop :=
| rs_pop s i k item q m :
    workers s !! i = Some WIdle -> keys !! i = Some k ->
    pop_next (run_queues s) (worker_queues m0 k) = Some (item, q, m) ->
    run_step s (at_worker (with_queues s m) i (WHolding item q))
| rs_drained s i k :
    workers s !! i = Some WIdle -> keys !! i = Some k ->
    pop_next (run_queues s) (worker_queues m0 k) = None ->
    run_step s (at_worker s i WStopped)
(** The probe failed: the cell goes back where it came from. *)
| rs_probe_failed s i item q :
    workers s !! i = Some (WHolding item q) ->
    run_step s (at_worker (with_queues s (push_back (run_queues s) q item)) i WWaiting)
(** The [Started] event was written, or could not be. *)
| rs_started s i item q :
    workers s !! i = Some (WHolding item q) ->
    run_step s (at_worker {| run_queues := run_queues s; workers := workers s;
      started := (i, item) :: started s; finished := finished s; abandoned := abandoned s |}
      i (WRunning item))
| rs_not_started s i item q :
    workers s !! i = Some (WHolding item q) ->
    run_step s (at_worker {| run_queues := run_queues s; workers := workers s;
      started := started s; finished := finished s; abandoned := item :: abandoned s |}
      i WStopped)
(** The transport failed: the cell is this transport's from now on. *)
| rs_transport_error s i k item :
    workers s !! i = Some (WRunning item) -> keys !! i = Some k ->
    run_step s (at_worker (with_queues s (push_back (run_queues s) (QPinned k) item)) i WWaiting)
(** The command exited and its event was written; [go_on] is the consecutive-failure test. *)
| rs_exited s i item ok go_on :
    workers s !! i = Some (WRunning item) ->
    run_step s (at_worker {| run_queues := run_queues s; workers := workers s;
      started := started s; finished := (i, item, ok) :: finished s; abandoned := abandoned s |}
      i (if (ok || go_on : bool) then WIdle else WStopped))
| rs_not_recorded s i item :
    workers s !! i = Some (WRunning item) ->
    run_step s (at_worker {| run_queues := run_queues s; workers := workers s;
      started := started s; finished := finished s; abandoned := item :: abandoned s |}
      i WStopped)
| rs_rejoined s i : workers s !! i = Some WWaiting -> run_step s (at_worker s i WIdle)
| rs_gave_up s i : workers s !! i = Some WWaiting -> run_step s (at_worker s i WStopped).

Inductive run_init : RunState -> Prop :=
| RunInit : run_init
    {| run_queues := m0; workers := replicate (length keys) WIdle; started := [];
       finished := []; abandoned := [] |}.
End Workers.

(** ** Waiting for a device ([runner/probe.rs]) *)

Record RejoinPolicy := { retry_delay : Z; max_retries : nat }.

Definition DEFAULT_RETRY_DELAY : Z := from_secs 30.
Definition DEFAULT_MAX_RETRIES : nat := 10.

Definition from_overrides (retry_delay_secs : option Z) (max_retries : option nat) : RejoinPolicy :=
  {| retry_delay := match retry_delay_secs with Some s => from_secs s | None => DEFAULT_RETRY_DELAY end;
     max_retries := default DEFAULT_MAX_RETRIES max_retries |}.

Inductive ProbeAnswer := Online | ProbeRefused (exit_code : Z) | Unreachable (error : str).

Inductive RejoinPhase :=
| PWaiting (retry_in : Z)
| PRefused (exit_code : Z)
| PUnreachable (error : str)
| POnline
| PGaveUp.

Section Rejoin.
Context {W : Type} (policy : RejoinPolicy).
Context (report : RejoinPhase -> nat -> W -> W) (sleep : Z -> W -> control_flow unit unit * W)
  (probe : W -> ProbeAnswer * W).

(** [fuel] retries are left; [retry] is the number of the next one. *)
Fixpoint rejoin_loop (fuel retry : nat) (w : W) : bool * W :=
  match fuel with
  | O => (false, report PGaveUp (max_retries policy) w)
  | S fuel =>
      let w := report (PWaiting (retry_delay policy)) retry w in
      match sleep (retry_delay policy) w with
      | (Break _, w) => (false, w)
      | (Continue _, w) =>
          let '(a, w) := probe w in
          match a with
          | Online => (true, report POnline retry w)
          | ProbeRefused code => rejoin_loop fuel (S retry) (report (PRefused code) retry w)
          | Unreachable e => rejoin_loop fuel (S retry) (report (PUnreachable e) retry w)
          end
      end
  end.

Definition wait_for_device (w : W) : bool * W := rejoin_loop (max_retries policy) 1 w.
End Rejoin.

(** ** Host capacities *)

(** [physical_id_capacities], over each transport's machine and parallelism. *)
Definition add_capacity (caps : gmap str nat) (t : str * nat) : gmap str nat :=
  <[t.1 := match caps !! t.1 with Some c => Nat.max c t.2 | None => t.2 end]> caps.

Definition physical_id_capacities (ts : list (str * nat)) : gmap str nat :=
  fold_left add_capacity ts ∅.

(** ** Lemmas on the order *)

Lemma sort_labels_perm l l' : l ≡ₚ l' -> sort_stable str_leb l = sort_stable str_leb l'.
Proof.
  intros Hp. apply (StronglySorted_unique_strong (le_of str_leb)).
  - intros a b _ _. apply str_leb_antisym.
  - apply sort_stable_sorted; [apply str_leb_total|apply str_leb_trans].
  - apply sort_stable_sorted; [apply str_leb_total|apply str_leb_trans].
  - by rewrite !sort_stable_perm.
Qed.

(** ** Lemmas on routing *)

(** A cell with no list of clients runs anywhere. *)
Definition permitted (allowed : list str) (k : str) : Prop := allowed = [] \/ k ∈ allowed.

Section PlanLemmas.
Context (transports : list str).

Lemma name_to_label_lookup n :
  name_to_label transports !! n = if bool_decide (n ∈ transports) then Some n else None.
Proof.
  unfold name_to_label. induction transports as [|t ts IH]; cbn.
  - rewrite lookup_empty. by rewrite bool_decide_false by set_solver.
  - destruct (decide (n = t)) as [->|Hne].
    + rewrite lookup_insert_eq, bool_decide_true by set_solver. done.
    + rewrite lookup_insert_ne by done. rewrite IH.
      repeat case_bool_decide; set_solver.
Qed.

Definition labels_of (allowed : list str) : list str :=
  sort_stable str_leb (omap (fun name => name_to_label transports !! name) allowed).

Lemma elem_of_labels allowed l :
  l ∈ labels_of allowed <-> l ∈ allowed /\ l ∈ transports.
Proof.
  unfold labels_of. rewrite elem_of_sort_stable, list_elem_of_omap.
  setoid_rewrite name_to_label_lookup. split.
  - intros (n & Hn & H). case_bool_decide; simplify_eq. done.
  - intros [H1 H2]. exists l. by rewrite bool_decide_true.
Qed.

Lemma route_unpinned_sound allowed :
  (allowed <> [] -> labels_of allowed <> []) ->
  match route_unpinned (labels_of allowed) with
  | Pinned l => l ∈ transports /\ permitted allowed l
  | Restricted ls => ls = labels_of allowed /\ (2 <= length ls)%nat
  | Unassigned => allowed = []
  | Stranded _ => False
  end.
Proof.
  intros Hne. pose proof (elem_of_labels allowed) as Hl.
  destruct (labels_of allowed) as [|l [|l' ls]] eqn:E; cbn.
  - destruct allowed; [done|]. by destruct Hne.
  - destruct (Hl l) as [H _]. destruct H; [set_solver|]. split; [done|]. by right.
  - split; [done|lia].
Qed.

Lemma route_cell_sound allowed pin reassign :
  match route_cell allowed pin (name_to_label transports) (present_labels transports) reassign with
  | Pinned l =>
      l ∈ transports /\ permitted allowed l /\ (reassign = false -> forall p, pin = Some p -> l = p)
  | Restricted ls =>
      ls = labels_of allowed /\ (2 <= length ls)%nat /\ (reassign = false -> pin = None)
  | Unassigned => allowed = [] /\ (reassign = false -> pin = None)
  | Stranded _ =>
      (allowed <> [] /\ Forall (fun n => n ∉ transports) allowed) \/
      (reassign = false /\ exists p, pin = Some p /\ ~ (p ∈ transports /\ permitted allowed p))
  end.
Proof.
  pose proof (elem_of_labels allowed) as Hl. unfold route_cell. fold (labels_of allowed).
  assert (forall p, p ∈ present_labels transports <-> p ∈ transports) as Hp
    by (intros p; apply elem_of_list_to_set).
  destruct (decide (allowed = [])) as [Ha|Ha].
  - rewrite (bool_decide_true (allowed = [])) by done. cbn [negb andb].
    assert (labels_of allowed = []) as El by (by subst).
    rewrite El, (bool_decide_true ([] = [])) by done. cbn [negb andb route_unpinned].
    destruct pin as [p|]; [|by split]. case_bool_decide as Hin; cbn [negb].
    + split_and!; [by apply Hp|by left|]. by intros _ ? [= ->].
    + destruct reassign; [by split|]. right. split; [done|]. exists p. rewrite <- Hp. naive_solver.
  - rewrite (bool_decide_false (allowed = [])) by done. cbn [negb andb].
    destruct (decide (labels_of allowed = [])) as [El|El].
    { rewrite bool_decide_true by done. cbn [negb]. left. split; [done|].
      apply Forall_forall. intros n Hn Ht. assert (n ∈ labels_of allowed) by (by apply Hl).
      rewrite El in *. set_solver. }
    rewrite bool_decide_false by done. cbn [negb].
    pose proof (route_unpinned_sound allowed ltac:(auto)) as Hu.
    assert (forall b, (b = true -> reassign = true) -> pin = None \/ b = true ->
      match route_unpinned (labels_of allowed) with
      | Pinned l => l ∈ transports /\ permitted allowed l /\
          (reassign = false -> forall p, pin = Some p -> l = p)
      | Restricted ls => ls = labels_of allowed /\ (2 <= length ls)%nat /\
          (reassign = false -> pin = None)
      | Unassigned => allowed = [] /\ (reassign = false -> pin = None)
      | Stranded _ => (allowed <> [] /\ Forall (fun n => n ∉ transports) allowed) \/
          (reassign = false /\ exists p, pin = Some p /\ ~ (p ∈ transports /\ permitted allowed p))
      end) as Hfin.
    { intros b Hb Hpb. destruct (route_unpinned (labels_of allowed)); naive_solver. }
    destruct pin as [p|]; [|apply (Hfin false); auto; done].
    case_bool_decide as Hin; cbn [negb].
    + case_bool_decide as Hpl; cbn [negb].
      * apply Hl in Hpl as [H1 H2]. split_and!; [done|by right|]. by intros _ ? [= ->].
      * destruct reassign; [apply (Hfin true); auto|]. right. split; [done|]. exists p.
        split; [done|]. intros [H1 [H2|H2]]; [done|]. by apply Hpl, Hl.
    + destruct reassign; [apply (Hfin true); auto|]. right. split; [done|]. exists p.
      rewrite <- Hp. naive_solver.
Qed.
End PlanLemmas.

(** ** Lemmas on the queues *)

(** Every item that waits, queue by queue. *)
Definition all_items (m : Queues) : list RunnableItem := concat (map_to_list m).*2.

Lemma all_items_insert q l m : all_items (<[q := l]> m) ≡ₚ l ++ all_items (delete q m).
Proof.
  unfold all_items. rewrite <- insert_delete_eq.
  rewrite map_to_list_insert by apply lookup_delete_eq. done.
Qed.

Lemma all_items_queue q m : all_items m ≡ₚ queue m q ++ all_items (delete q m).
Proof.
  unfold queue. destruct (m !! q) as [l|] eqn:E; cbn.
  - rewrite <- all_items_insert, insert_id by done. done.
  - by rewrite delete_id.
Qed.

Lemma all_items_push q item m : all_items (push_back m q item) ≡ₚ item :: all_items m.
Proof.
  unfold push_back. rewrite all_items_insert, (all_items_queue q m).
  rewrite <- app_assoc, Permutation_middle. done.
Qed.

Lemma pop_next_spec m qs item q m' :
  pop_next m qs = Some (item, q, m') ->
  q ∈ qs /\ all_items m ≡ₚ item :: all_items m' /\ item ∈ queue m q /\
  forall q' x, x ∈ queue m' q' -> x ∈ queue m q'.
Proof.
  induction qs as [|q0 qs IH]; intros H; [done|]. cbn in H.
  destruct (queue m q0) as [|x rest] eqn:E; [apply IH in H; set_solver|]. simplify_eq.
  split_and!; [set_solver| |rewrite E; set_solver|].
  - rewrite all_items_insert, (all_items_queue q m), E. done.
  - intros q' x. unfold queue. destruct (decide (q' = q)) as [->|].
    + rewrite lookup_insert_eq. cbn. unfold queue in E. rewrite E. set_solver.
    + by rewrite lookup_insert_ne.
Qed.

Lemma queue_push m q item q' x :
  x ∈ queue (push_back m q item) q' -> x ∈ queue m q' \/ (q' = q /\ x = item).
Proof.
  unfold push_back, queue at 1. destruct (decide (q' = q)) as [->|].
  - rewrite lookup_insert_eq. cbn. set_solver.
  - rewrite lookup_insert_ne by done. auto.
Qed.

(** ** The distribution *)

Section Distribution.
Context (transports : list str) (sha256_hex : list Z -> str) (cells : list RunnableCell)
  (state : StateIndex) (opts : RunOptions).

(** Whether a worker of client [k] may take from a queue. *)
Definition serves (q : queue_id) (k : str) : Prop :=
  match q with
  | QPinned k' => k = k'
  | QRestricted ks => k ∈ ks
  | QUnassigned => True
  end.

Definition item_permitted (item : RunnableItem) (k : str) : Prop :=
  exists cell, cells !! item.1 = Some cell /\ permitted (cell_allowed_clients cell) k.

(** Each queue only holds cells that every client it serves may run. *)
Definition queues_ok (m : Queues) : Prop :=
  forall q item k, item ∈ queue m q -> serves q k -> item_permitted item k.

Definition stranded_total (s : gmap str (StrandedReason * nat)) : nat :=
  map_fold (fun _ '(_, n) acc => (n + acc)%nat) 0%nat s.

Lemma stranded_total_insert b f n s :
  stranded_total (<[b := (f, n)]> s) = (n + stranded_total (delete b s))%nat.
Proof.
  unfold stranded_total. rewrite <- insert_delete_eq.
  rewrite map_fold_insert_L; [done| |by apply lookup_delete_eq].
  intros j1 j2 [? z1] [? z2] y _ _ _. lia.
Qed.

Lemma stranded_total_bump b f s :
  stranded_total (<[b := (f, S (default (f, 0%nat) (s !! b)).2)]> s) = S (stranded_total s).
Proof.
  rewrite stranded_total_insert. destruct (s !! b) as [[f' n]|] eqn:E; cbn.
  - rewrite <- (insert_id s b (f', n)) at 2 by done. rewrite stranded_total_insert. lia.
  - rewrite delete_id by done. done.
Qed.

(** Where the items taken so far went. *)
Definition routed_ok (items : list RunnableItem) (r : Routed) : Prop :=
  (exists lost, all_items (queues r) ++ lost ≡ₚ items /\
     stranded_total (stranded r) = length lost) /\
  queues_ok (queues r) /\ forall t, t ∈ transports -> is_Some (queues r !! QPinned t).

Lemma push_is_some (m : Queues) q item q' :
  is_Some (m !! q') -> is_Some (push_back m q item !! q').
Proof.
  intros H. unfold push_back. destruct (decide (q' = q)) as [->|];
    [rewrite lookup_insert_eq; eauto|by rewrite lookup_insert_ne].
Qed.

Lemma push_ok items r q item cell :
  cells !! item.1 = Some cell -> (forall k, serves q k -> permitted (cell_allowed_clients cell) k) ->
  routed_ok items r ->
  routed_ok (items ++ [item]) {| queues := push_back (queues r) q item; stranded := stranded r |}.
Proof.
  intros Hc Hq ((lost & Hp & Hs) & Ho & Ht). split_and!; cbn.
  - exists lost. split; [|done]. rewrite all_items_push. cbn. rewrite Hp.
    by rewrite Permutation_app_comm.
  - intros q' x k Hx Hk. apply queue_push in Hx as [Hx|[-> ->]]; [by eapply Ho|].
    exists cell. auto.
  - intros t Hin. by apply push_is_some, Ht.
Qed.

Lemma route_item_ok items r item cell :
  cells !! item.1 = Some cell -> routed_ok items r ->
  exists r', route_item r item (route_of transports sha256_hex state opts cell) = Ok r' /\
    routed_ok (items ++ [item]) r'.
Proof.
  intros Hc Hr. unfold route_of. set (pin := if ignore_pins opts then None else _).
  pose proof (route_cell_sound transports (cell_allowed_clients cell) pin (reassign_stranded opts)) as Hs.
  destruct (route_cell _ _ _ _ _) as [l|ls| |reason]; cbn [route_item].
  - destruct Hs as (Hl & Hp & _). destruct (proj2 (proj2 Hr) l Hl) as (q & ->).
    eexists. split; [done|]. eapply push_ok; [done| |done]. by intros k ->.
  - destruct Hs as (-> & _ & _). eexists. split; [done|]. eapply push_ok; [done| |done].
    intros k Hk. cbn in Hk. apply elem_of_labels in Hk as [Hk _]. by right.
  - destruct Hs as (Ha & _). eexists. split; [done|]. eapply push_ok; [done| |done].
    intros k _. by left.
  - destruct Hr as ((lost & Hp & Hst) & Ho & Ht).
    destruct (default (reason, 0%nat) (stranded r !! bucket reason)) as [f n] eqn:E.
    eexists. split; [done|]. split_and!; cbn; [|done|done].
    exists (lost ++ [item]). rewrite app_assoc, Hp, length_app. split; [done|]. cbn.
    rewrite <- Hst. replace (stranded_total (<[bucket reason := (f, S n)]> (stranded r)))
      with (S (stranded_total (stranded r))); [lia|].
    rewrite <- (stranded_total_bump (bucket reason) reason), !stranded_total_insert, E. done.
Qed.

Lemma route_all_ok items done r :
  Forall (fun item => is_Some (cells !! item.1)) items -> routed_ok done r ->
  exists r', route_all transports sha256_hex cells state opts items r = Ok r' /\
    routed_ok (done ++ items) r'.
Proof.
  intros Hf. revert done r; induction Hf as [|item items [cell Hc] _ IH]; intros done r Hr; cbn.
  - rewrite app_nil_r. eauto.
  - rewrite Hc. destruct (route_item_ok done r item cell Hc Hr) as (r1 & -> & Hr1). cbn.
    destruct (IH _ _ Hr1) as (r2 & H2 & Hr2). exists r2. split; [done|].
    by rewrite <- app_assoc in Hr2.
Qed.

Lemma select_from_bound idx cs :
  Forall (fun item => (idx <= item.1 < idx + length cs)%nat)
    (select_from sha256_hex state opts idx cs).
Proof.
  revert idx; induction cs as [|c cs IH]; intros idx; cbn [select_from]; [constructor|].
  apply Forall_app. split.
  - destruct (in_shard _ _); [|constructor]. unfold selected.
    repeat case_match; cbn; repeat constructor; cbn; lia.
  - eapply Forall_impl; [apply IH|]. cbn. intros item ?. lia.
Qed.

Lemma select_from_nodup idx cs : NoDup (map fst (select_from sha256_hex state opts idx cs)).
Proof.
  revert idx; induction cs as [|c cs IH]; intros idx; cbn [select_from]; [constructor|].
  rewrite map_app. pose proof (select_from_bound (S idx) cs) as Hb. rewrite Forall_forall in Hb.
  destruct (in_shard _ _); [|apply IH]. unfold selected.
  repeat case_match; cbn; try apply IH; apply NoDup_cons; (split; [|apply IH]);
    intros ([i n] & Hi & Hin)%list_elem_of_fmap; cbn in Hi; subst;
    apply Hb in Hin; cbn in Hin; lia.
Qed.

Lemma seeded_ok : routed_ok [] {| queues := seeded transports; stranded := ∅ |}.
Proof.
  assert (forall q, queue (seeded transports) q = []) as Hq.
  { intros q. unfold queue, seeded. destruct (list_to_map _ !! q) as [l|] eqn:E; [|done].
    apply elem_of_list_to_map_2 in E. apply list_elem_of_fmap in E as (t & ? & _). by simplify_eq. }
  assert (all_items (seeded transports) = []) as Hall.
  { unfold all_items. assert (Forall (fun l : list RunnableItem => l = []) (map_to_list (seeded transports)).*2) as Hf.
    { apply Forall_forall. intros l ([q l'] & -> & Hin)%list_elem_of_fmap.
      apply elem_of_map_to_list in Hin. specialize (Hq q). unfold queue in Hq. by rewrite Hin in Hq. }
    induction Hf as [|l ls -> _ IH]; [done|exact IH]. }
  split_and!; cbn.
  - exists []. by rewrite Hall.
  - intros q item k Hin. rewrite Hq in Hin. set_solver.
  - intros t Ht. unfold seeded. clear -Ht. induction transports as [|t' ts IH]; [set_solver|].
    cbn. destruct (decide (t = t')) as [->|]; [rewrite lookup_insert_eq; eauto|].
    rewrite lookup_insert_ne by congruence. apply IH. set_solver.
Qed.
End Distribution.

Lemma distribute_ok (transports : list str) (sha256_hex : list Z -> str)
    (cells : list RunnableCell) (state : StateIndex) (opts : RunOptions) :
  exists r taken lost,
    distribute transports sha256_hex cells state opts = Ok r /\
    taken `prefix_of` select_runnable sha256_hex cells state opts /\
    (forall l, limit opts = Some l -> (length taken <= l)%nat) /\
    all_items (queues r) ++ lost ≡ₚ taken /\ stranded_total (stranded r) = length lost /\
    NoDup (map fst taken) /\ queues_ok cells (queues r).
Proof.
  unfold distribute. set (run := select_runnable sha256_hex cells state opts).
  set (n := match limit opts with Some l => Nat.min l (length run) | None => length run end).
  assert (take n run `prefix_of` run) as Hpre by apply prefix_take.
  destruct (route_all_ok transports sha256_hex cells state opts (take n run) []
    {| queues := seeded transports; stranded := ∅ |}) as (r & Hr & (lost & Hp & Hs) & Hq & _).
  - apply Forall_take, Forall_forall. intros item Hin.
    pose proof (select_from_bound sha256_hex state opts 0 cells) as Hb. rewrite Forall_forall in Hb.
    apply lookup_lt_is_Some. apply Hb in Hin. lia.
  - apply seeded_ok.
  - exists r, (take n run), lost. split_and!; try done.
    + intros l Hl. rewrite length_take. subst n. rewrite Hl. lia.
    + pose proof (select_from_nodup sha256_hex state opts 0 cells) as Hnd.
      fold (select_runnable sha256_hex cells state opts) in Hnd. fold run in Hnd.
      rewrite <- (take_drop n run), map_app in Hnd. by apply NoDup_app in Hnd as (? & _).
Qed.

(** ** The run *)

Definition held_item (w : worker_state) : option RunnableItem :=
  match w with
  | WHolding item _ | WRunning item => Some item
  | WIdle | WWaiting | WStopped => None
  end.

Definition held (s : RunState) : list RunnableItem := omap held_item (workers s).

Definition finished_items (s : RunState) : list RunnableItem := map (fun x => x.1.2) (finished s).

(** Everything the run was given, wherever it is now. *)
Definition accounted (s : RunState) : list RunnableItem :=
  all_items (run_queues s) ++ held s ++ finished_items s ++ abandoned s.

Lemma omap_insert_split {A B} (f : A -> option B) (l : list A) i x y :
  l !! i = Some x ->
  exists a b, omap f l = a ++ option_list (f x) ++ b /\
    omap f (<[i := y]> l) = a ++ option_list (f y) ++ b.
Proof.
  intros H. exists (omap f (take i l)), (omap f (drop (S i) l)).
  assert (forall z, omap f (z :: drop (S i) l) = option_list (f z) ++ omap f (drop (S i) l)) as Hc.
  { intros z. cbn. by destruct (f z). }
  split.
  - rewrite <- (take_drop_middle l i x H) at 1. rewrite omap_app. f_equal. apply Hc.
  - rewrite insert_take_drop by (by eapply lookup_lt_Some). rewrite omap_app. f_equal. apply Hc.
Qed.

Lemma worker_queues_serve m k q : q ∈ worker_queues m k -> serves q k.
Proof.
  unfold worker_queues. rewrite elem_of_cons, elem_of_app, list_elem_of_singleton.
  intros [->|[H| ->]]; [done| |done].
  apply list_elem_of_fmap in H as (ks & -> & H). unfold eligible_restricted in H.
  apply elem_of_sort_stable in H. apply list_elem_of_In, filter_In in H as [_ H].
  cbn. by apply bool_decide_eq_true in H.
Qed.

Section RunLemmas.
Context (cells : list RunnableCell) (keys : list str) (m0 : Queues).

(** A worker only has a cell its client may run. *)
Definition worker_ok (i : nat) (w : worker_state) : Prop :=
  match w with
  | WHolding item q =>
      (exists k, keys !! i = Some k /\ item_permitted cells item k) /\
      forall k, serves q k -> item_permitted cells item k
  | WRunning item => exists k, keys !! i = Some k /\ item_permitted cells item k
  | WIdle | WWaiting | WStopped => True
  end.

Record RunInv (s : RunState) : Prop := {
  ri_accounted : accounted s ≡ₚ all_items m0;
  ri_queues : queues_ok cells (run_queues s);
  ri_workers : forall i w, workers s !! i = Some w -> worker_ok i w;
  ri_started : forall i item, (i, item) ∈ started s ->
    exists k, keys !! i = Some k /\ item_permitted cells item k;
}.

Lemma workers_insert (ws : list worker_state) i w w' :
  ws !! i = Some w -> worker_ok i w' ->
  (forall j x, ws !! j = Some x -> worker_ok j x) ->
  forall j x, <[i := w']> ws !! j = Some x -> worker_ok j x.
Proof.
  intros Hi Hw H j x Hj. destruct (decide (i = j)) as [<-|].
  - rewrite list_lookup_insert_eq in Hj by (by eapply lookup_lt_Some). by simplify_eq.
  - rewrite list_lookup_insert_ne in Hj by done. eauto.
Qed.

Lemma push_queues_ok m q item :
  queues_ok cells m -> (forall k, serves q k -> item_permitted cells item k) ->
  queues_ok cells (push_back m q item).
Proof.
  intros Ho Hq q' x k Hx Hk. apply queue_push in Hx as [Hx|[-> ->]]; eauto.
Qed.

(** The accounting of a step that changed worker [i] and the piles around it. *)
Lemma account_step s i w w' m fin ab :
  workers s !! i = Some w ->
  all_items m ++ option_list (held_item w') ++ fin ++ ab ≡ₚ
  all_items (run_queues s) ++ option_list (held_item w) ++ finished_items s ++ abandoned s ->
  all_items m ++ omap held_item (<[i := w']> (workers s)) ++ fin ++ ab ≡ₚ accounted s.
Proof.
  intros Hi H. destruct (omap_insert_split held_item (workers s) i w w' Hi) as (a & b & Ha & Hb).
  unfold accounted, held. rewrite Ha, Hb.
  transitivity (a ++ b ++ all_items m ++ option_list (held_item w') ++ fin ++ ab);
    [solve_Permutation|]. rewrite H. solve_Permutation.
Qed.

Ltac account_open Hacc Hi :=
  rewrite <- Hacc; unfold accounted at 1; unfold held at 1, finished_items at 1;
  cbn [at_worker with_queues run_queues workers finished abandoned map fst snd];
  eapply account_step; [exact Hi|]; unfold finished_items; cbn.

Ltac account Hacc Hi :=
  account_open Hacc Hi; rewrite ?all_items_push; solve_Permutation.

Lemma run_step_inv s s' : RunInv s -> run_step keys m0 s s' -> RunInv s'.
Proof.
  intros [Hacc Hq Hw Hst] Hstep. destruct Hstep as
    [s i k item q m Hi Hk Hpop|s i k Hi Hk Hpop|s i item q Hi|s i item q Hi|s i item q Hi
    |s i k item Hi Hk|s i item ok go_on Hi|s i item Hi|s i Hi|s i Hi];
    pose proof (Hw _ _ Hi) as Hwi; cbn in Hwi.
  - apply pop_next_spec in Hpop as (Hserve & Hperm & Hin & Hsub).
    apply worker_queues_serve in Hserve. constructor; cbn.
    + account_open Hacc Hi. rewrite Hperm. solve_Permutation.
    + intros q' x k' Hx. apply Hq. by apply Hsub.
    + eapply workers_insert; [done| |done]. cbn. split; [exists k; split; [done|]|]; eauto.
    + done.
  - constructor; cbn; [account Hacc Hi|done| |done]. by eapply workers_insert.
  - destruct Hwi as [_ Hwi]. constructor; cbn; [account Hacc Hi|by apply push_queues_ok| |done].
    by eapply workers_insert.
  - destruct Hwi as [Hwi _]. constructor; cbn; [account Hacc Hi|done| |].
    + by eapply workers_insert.
    + intros j x. rewrite elem_of_cons. intros [Hj|Hj]; [|by apply Hst]. by simplify_eq.
  - constructor; cbn; [account Hacc Hi|done| |done]. by eapply workers_insert.
  - constructor; cbn; [account Hacc Hi| | |done].
    + apply push_queues_ok; [done|]. intros k' Hs. cbn in Hs. subst. naive_solver.
    + by eapply workers_insert.
  - constructor; cbn; [|done| |done].
    + destruct (ok || go_on); account Hacc Hi.
    + eapply workers_insert; [done| |done]. by destruct (ok || go_on).
  - constructor; cbn; [account Hacc Hi|done| |done]. by eapply workers_insert.
  - constructor; cbn; [account Hacc Hi|done| |done]. by eapply workers_insert.
  - constructor; cbn; [account Hacc Hi|done| |done]. by eapply workers_insert.
Qed.
End RunLemmas.

(** ** Shards *)

Definition with_shard (opts : RunOptions) (s : option Shard) : RunOptions :=
  {| limit := limit opts; include_failed := include_failed opts; include_done := include_done opts;
     reassign_stranded := reassign_stranded opts; ignore_pins := ignore_pins opts; shard := s |}.

Lemma concat_map_app {A B} (f g : A -> list B) l :
  concat (map (fun x => f x ++ g x) l) ≡ₚ concat (map f l) ++ concat (map g l).
Proof. induction l as [|x l IH]; cbn; [done|]. rewrite IH. solve_Permutation. Qed.

(** Among the shards of a count, one owns a position. *)
Lemma one_owner {B} (n idx : nat) (X : list B) lo len :
  (lo <= idx mod n < lo + len)%nat \/ len = 0%nat ->
  concat (map (fun i => if shard_contains {| index := Z.of_nat i; count := Z.of_nat n |} (Z.of_nat idx)
                        then X else []) (seq lo len)) =
  if (len =? 0)%nat then [] else X.
Proof.
  assert (forall lo len, ~ (lo <= idx mod n < lo + len)%nat ->
    concat (map (fun i => if shard_contains {| index := Z.of_nat i; count := Z.of_nat n |}
      (Z.of_nat idx) then X else []) (seq lo len)) = []) as Hnone.
  { intros l0 le. revert l0; induction le as [|le IH]; intros l0 Hn; cbn; [done|].
    unfold shard_contains at 1. cbn. rewrite <- Nat2Z.inj_mod.
    destruct (Z.eqb_spec (Z.of_nat (idx mod n)) (Z.of_nat l0)); [lia|]. apply IH. lia. }
  revert lo; induction len as [|len IH]; intros lo H; cbn; [done|].
  unfold shard_contains at 1. cbn. rewrite <- Nat2Z.inj_mod.
  destruct (Z.eqb_spec (Z.of_nat (idx mod n)) (Z.of_nat lo)).
  - rewrite Hnone by lia. apply app_nil_r.
  - rewrite IH by lia. destruct len; [cbn; lia|done].
Qed.

Lemma select_from_shards sha state opts n idx cs :
  (0 < n)%nat ->
  concat (map (fun i => select_from sha state
      (with_shard opts (Some {| index := Z.of_nat i; count := Z.of_nat n |})) idx cs) (seq 0 n)) ≡ₚ
  select_from sha state (with_shard opts None) idx cs.
Proof.
  intros Hn. revert idx; induction cs as [|c cs IH]; intros idx; cbn [select_from].
  - induction (seq 0 n); [done|]. done.
  - rewrite concat_map_app, IH. apply Permutation_app_tail.
    transitivity (concat (map (fun i => if shard_contains {| index := Z.of_nat i; count := Z.of_nat n |}
      (Z.of_nat idx) then option_list (selected sha state opts idx c) else []) (seq 0 n)));
      [reflexivity|].
    rewrite (one_owner n idx (option_list (selected sha state opts idx c)) 0 n).
    + destruct n; [lia|]. done.
    + left. pose proof (Nat.mod_upper_bound idx n). lia.
Qed.

(** ** Theorems *)

(** Where a cell is sent. A pinned or shared queue only serves clients that are in the
    run and that the cell allows; a recorded pin is followed unless the operator asked to
    reassign; a cell is stranded only when none of its clients is in the run, or its pin is
    to a client that is absent or excluded and reassigning was not asked for. Cells that
    allow the same clients, in any order, share one queue. *)
Theorem route_cell_correct (transports allowed : list str) (pin : option str) (reassign : bool) :
  match route_cell allowed pin (name_to_label transports) (present_labels transports) reassign with
  | Pinned l =>
      l ∈ transports /\ permitted allowed l /\
      (reassign = false -> forall p, pin = Some p -> l = p)
  | Restricted ls =>
      (forall l, l ∈ ls <-> l ∈ allowed /\ l ∈ transports) /\ (2 <= length ls)%nat /\
      (reassign = false -> pin = None) /\
      forall allowed', allowed ≡ₚ allowed' ->
        route_cell allowed' pin (name_to_label transports) (present_labels transports) reassign
          = Restricted ls
  | Unassigned => allowed = [] /\ (reassign = false -> pin = None)
  | Stranded _ =>
      (allowed <> [] /\ Forall (fun n => n ∉ transports) allowed) \/
      (reassign = false /\ exists p, pin = Some p /\ ~ (p ∈ transports /\ permitted allowed p))
  end.
Proof.
  pose proof (route_cell_sound transports allowed pin reassign) as H.
  destruct (route_cell allowed pin _ _ reassign) as [l|ls| |r] eqn:E; try exact H.
  destruct H as (-> & Hlen & Hpin). split_and!; [apply elem_of_labels|done|done|].
  intros allowed' Hp. rewrite <- E. unfold route_cell.
  assert (sort_stable str_leb (omap (fun name => name_to_label transports !! name) allowed') =
    sort_stable str_leb (omap (fun name => name_to_label transports !! name) allowed)) as ->.
  { apply sort_labels_perm. by rewrite Hp. }
  assert (bool_decide (allowed' = []) = bool_decide (allowed = [])) as ->.
  { apply bool_decide_ext. split; intros ->; [by apply Permutation_nil_r in Hp|by apply Permutation_nil_l in Hp]. }
  unfold route_cell in E. destruct (_ && _) eqn:Eb; [done|]. by repeat case_match.
Qed.

(** The distribution of a run's cells never fails, and loses and repeats none: each cell
    it takes waits in one queue, or is counted as stranded. Every queue holds only cells
    that the clients it serves may run. *)
Theorem distribute_correct (transports : list str) (sha256_hex : list Z -> str)
    (cells : list RunnableCell) (state : StateIndex) (opts : RunOptions) :
  exists r taken lost,
    distribute transports sha256_hex cells state opts = Ok r /\
    taken `prefix_of` select_runnable sha256_hex cells state opts /\
    (forall l, limit opts = Some l -> (length taken <= l)%nat) /\
    all_items (queues r) ++ lost ≡ₚ taken /\ stranded_total (stranded r) = length lost /\
    NoDup (map fst taken) /\ queues_ok cells (queues r).
Proof.
  apply distribute_ok.
Qed.

(** C2: the run itself, however its workers interleave and whatever fails. A cell is started
    only by a client it allows; and every cell is at all times in exactly one place: a
    queue, a worker's hands, the finished, or the few a worker could not record. So none is
    lost and none runs to its end twice. *)
Theorem run_cells_safe (transports : list str) (sha256_hex : list Z -> str)
    (cells : list RunnableCell) (state : StateIndex) (opts : RunOptions) (r : Routed)
    (keys : list str) (s : RunState) :
  distribute transports sha256_hex cells state opts = Ok r ->
  reachable (run_init keys (queues r)) (run_step keys (queues r)) s ->
  (forall i item, (i, item) ∈ started s ->
     exists k cell, keys !! i = Some k /\ cells !! item.1 = Some cell /\
       permitted (cell_allowed_clients cell) k) /\
  accounted s ≡ₚ all_items (queues r) /\ NoDup (map fst (accounted s)).
Proof.
  intros Hd Hr.
  assert (queues_ok cells (queues r) /\ NoDup (map fst (all_items (queues r)))) as [Hq Hnd].
  { destruct (distribute_ok transports sha256_hex cells state opts)
      as (r' & taken & lost & Hr' & _ & _ & Hp & _ & Hnd & Hq).
    rewrite Hd in Hr'. simplify_eq. split; [done|].
    rewrite <- Hp, map_app in Hnd. by apply NoDup_app in Hnd as (? & _). }
  assert (RunInv cells keys (queues r) s) as [Hacc _ _ Hst].
  { revert s Hr. apply reachable_invariant.
    - intros s []. constructor; cbn; [|done| |set_solver].
      + unfold accounted, held, finished_items. cbn.
        assert (omap held_item (replicate (length keys) WIdle) = []) as ->
          by (by induction keys). by rewrite !app_nil_r.
      + intros i w Hi. apply lookup_replicate in Hi as [-> _]. done.
    - intros s s' HI Hs. by eapply run_step_inv. }
  split_and!; [|done|by rewrite Hacc].
  intros i item Hin. apply Hst in Hin as (k & Hk & cell & Hc & Hp). eauto.
Qed.

(** [--shard] splits a run. The runs of all shards of a count together take exactly the
    cells, with the attempts, that one run without shards takes; no cell is taken twice. *)
Theorem shards_partition (sha256_hex : list Z -> str) (cells : list RunnableCell)
    (state : StateIndex) (opts : RunOptions) (n : nat) :
  (0 < n)%nat ->
  let whole := select_runnable sha256_hex cells state (with_shard opts None) in
  concat (map (fun i => select_runnable sha256_hex cells state
      (with_shard opts (Some {| index := Z.of_nat i; count := Z.of_nat n |}))) (seq 0 n)) ≡ₚ whole /\
  NoDup (map fst whole).
Proof. intros Hn. split; [by apply select_from_shards|apply select_from_nodup]. Qed.

(** A plan of two clients and two cells, the second for one client only. *)
Definition demo_cells : list RunnableCell :=
  [{| benchmark := lit "b"; model := lit "m"; runtime := lit "r"; runtime_flags_canonical := None;
      model_flags_canonical := None; cell_allowed_clients := [] |};
   {| benchmark := lit "c"; model := lit "m"; runtime := lit "r"; runtime_flags_canonical := None;
      model_flags_canonical := None; cell_allowed_clients := [lit "x"] |}].

Definition demo_opts : RunOptions :=
  {| limit := None; include_failed := false; include_done := false; reassign_stranded := false;
     ignore_pins := false; shard := None |}.

Definition demo_routed : Routed :=
  match distribute [lit "x"; lit "y"] (fun bs => bs) demo_cells ∅ demo_opts with
  | Ok r => r
  | Err _ => {| queues := ∅; stranded := ∅ |}
  end.

Definition demo_keys : list str := [lit "x"; lit "y"].

Definition demo_queues : Queues := Eval vm_compute in queues demo_routed.

Lemma demo_distribute :
  distribute demo_keys (fun bs => bs) demo_cells ∅ demo_opts = Ok demo_routed.
Proof. vm_compute. reflexivity. Qed.

Lemma demo_queues_eq : queues demo_routed = demo_queues.
Proof. vm_compute. reflexivity. Qed.

(** The second client takes the shared cell and starts it. *)
Definition demo_holding : RunState :=
  Eval vm_compute in
  match pop_next demo_queues (worker_queues demo_queues (lit "y")) with
  | Some (item, q, m) =>
      {| run_queues := m; workers := [WIdle; WHolding item q]; started := []; finished := [];
         abandoned := [] |}
  | None => {| run_queues := ∅; workers := []; started := []; finished := []; abandoned := [] |}
  end.

Lemma demo_pop :
  pop_next demo_queues (worker_queues demo_queues (lit "y")) =
  Some ((0%nat, 1%nat), QUnassigned, run_queues demo_holding).
Proof. vm_compute. reflexivity. Qed.

Lemma demo_run : exists s,
  reachable (run_init demo_keys demo_queues) (run_step demo_keys demo_queues) s /\
  started s = [(1%nat, (0%nat, 1%nat))].
Proof.
  eexists. split.
  - eapply reach_step; [eapply reach_step; [apply reach_init; constructor|]|].
    + eapply (rs_pop _ _ _ 1%nat (lit "y")); [reflexivity|reflexivity|exact demo_pop].
    + eapply (rs_started _ _ _ 1%nat (0%nat, 1%nat) QUnassigned). reflexivity.
  - reflexivity.
Qed.

Lemma run_cells_safe_witness :
  exists s, reachable (run_init demo_keys (queues demo_routed))
      (run_step demo_keys (queues demo_routed)) s /\
    started s = [(1%nat, (0%nat, 1%nat))] /\
    accounted s ≡ₚ all_items (queues demo_routed) /\ NoDup (map fst (accounted s)).
Proof.
  destruct demo_run as (s & Hr & Hs). rewrite <- demo_queues_eq in Hr.
  exists s. split; [exact Hr|]. split; [exact Hs|].
  exact (proj2 (run_cells_safe demo_keys (fun bs => bs) demo_cells ∅ demo_opts demo_routed
    demo_keys s demo_distribute Hr)).
Defined.

Lemma shards_partition_witness :
  select_runnable (fun bs => bs) demo_cells ∅
    (with_shard demo_opts (Some {| index := 1; count := 2 |})) = [(1%nat, 1%nat)] /\
  NoDup (map fst (select_runnable (fun bs => bs) demo_cells ∅ (with_shard demo_opts None))).
Proof.
  split; [reflexivity|].
  apply (proj2 (shards_partition (fun bs => bs) demo_cells ∅ demo_opts 2 ltac:(lia))).
Defined.
