(* ===== verification/Semaphore.v ===== *)
(** * The per-machine throttle ([crates/pipette-ctl/src/runner/host_semaphore.rs])

    [HostSemaphore] over the mutex and the condition variable it is built from. A thread
    outside asks for the lock; inside [acquire] it takes a slot or sleeps on the condition
    variable, which gives the lock up; a guard's drop frees its slot and wakes one sleeper.
    A sleeper may also wake for no reason. *)

From Stdlib Require Import ZArith Lia.
From stdpp Require Import prelude list.
From S2P Require Import Prelude.

(** Where a thread is. [Asking] has called [acquire] and waits for the lock, [Woken] was
    notified (or woke) and waits for it again, [Releasing] drops its guard. *)
Inductive sem_thread :=
| Outside
| Asking
| Asleep
| Woken
| Holding
| Releasing.

#[export] Instance sem_thread_eq_dec : EqDecision sem_thread.
Proof. solve_decision. Defined.

Record HostSemaphore := { free : nat; threads : list sem_thread }.

(** [HostSemaphore::new], with [n] threads that may use it. *)
Definition sem_new (capacity n : nat) : HostSemaphore :=
  {| free := capacity; threads := replicate n Outside |}.

Definition at_thread (s : HostSemaphore) (i : nat) (t : sem_thread) : HostSemaphore :=
  {| free := free s; threads := <[i := t]> (threads s) |}.

(** The body of [acquire] under the lock: sleep while there is no slot, else take one. *)
Definition acquire (s : HostSemaphore) (i : nat) : HostSemaphore :=
  match free s with
  | O => at_thread s i Asleep
  | S f => {| free := f; threads := <[i := Holding]> (threads s) |}
  end.

(** [notify_one]: some sleeper, if there is one. *)
Definition notify (ts : list sem_thread) (j : option nat) : option (list sem_thread) :=
  match j with
  | Some j => if decide (ts !! j = Some Asleep) then Some (<[j := Woken]> ts) else None
  | None => if decide (Asleep ∈ ts) then None else Some ts
  end.

(** The body of the guard's [drop] under the lock. *)
Definition release (s : HostSemaphore) (i : nat) (ts : list sem_thread) : HostSemaphore :=
  {| free := S (free s); threads := ts |}.

Inductive sem_step : HostSemaphore -> HostSemaphore -> Prop :=
| sem_ask s i : threads s !! i = Some Outside -> sem_step s (at_thread s i Asking)
| sem_enter s i : threads s !! i = Some Asking -> sem_step s (acquire s i)
| sem_reenter s i : threads s !! i = Some Woken -> sem_step s (acquire s i)
| sem_spurious s i : threads s !! i = Some Asleep -> sem_step s (at_thread s i Woken)
| sem_drop s i : threads s !! i = Some Holding -> sem_step s (at_thread s i Releasing)
| sem_released s i j ts : threads s !! i = Some Releasing ->
    notify (<[i := Outside]> (threads s)) j = Some ts -> sem_step s (release s i ts).

(** ** The invariant *)

Definition count (t : sem_thread) (l : list sem_thread) : nat :=
  length (List.filter (fun x => bool_decide (x = t)) l).

(** A slot is taken from its acquisition until the drop has run. *)
Definition taken (l : list sem_thread) : nat := count Holding l + count Releasing l.

Lemma count_insert t l i x y :
  l !! i = Some x ->
  count t (<[i := y]> l) + (if bool_decide (x = t) then 1 else 0) =
  count t l + (if bool_decide (y = t) then 1 else 0).
Proof.
  unfold count. revert i; induction l as [|z l IH]; intros [|i] H; simplify_eq/=.
  - repeat case_bool_decide; cbn; lia.
  - specialize (IH i H). repeat case_bool_decide; cbn in *; lia.
Qed.

Lemma count_pos t l : t ∈ l <-> 0 < count t l.
Proof.
  unfold count. induction l as [|z l IH]; cbn; [set_solver by lia|].
  rewrite elem_of_cons, IH. case_bool_decide; cbn; naive_solver lia.
Qed.

(** Slots are neither made nor lost, and no free slot is left to sleepers alone: while any
    thread sleeps, each free slot has a woken thread on its way to it. *)
Definition sem_inv (capacity : nat) (s : HostSemaphore) : Prop :=
  free s + taken (threads s) = capacity /\
  (0 < count Asleep (threads s) -> free s <= count Woken (threads s)).

Ltac counts l i y H :=
  pose proof (count_insert Holding l i _ y H); pose proof (count_insert Releasing l i _ y H);
  pose proof (count_insert Asleep l i _ y H); pose proof (count_insert Woken l i _ y H).

Ltac decide_threads :=
  repeat match goal with
  | H : context [bool_decide (?a = ?b)] |- _ =>
      let e := eval vm_compute in (bool_decide (a = b)) in
      change (bool_decide (a = b)) with e in H
  end; cbn iota in *.

Lemma acquire_inv capacity s i t :
  threads s !! i = Some t -> t = Asking \/ t = Woken -> sem_inv capacity s ->
  sem_inv capacity (acquire s i).
Proof.
  intros Hi Ht [Hc Hw]. unfold acquire, sem_inv, taken in *.
  destruct (free s) as [|f] eqn:Ef; cbn [at_thread free threads]; [rewrite ?Ef|].
  - destruct Ht; subst t; counts (threads s) i Asleep Hi; decide_threads; lia.
  - destruct Ht; subst t; counts (threads s) i Holding Hi; decide_threads; lia.
Qed.

Lemma notify_counts ts j ts' :
  notify ts j = Some ts' ->
  taken ts' = taken ts /\
  (count Asleep ts = 0 /\ count Asleep ts' = 0 \/
   count Asleep ts' + 1 = count Asleep ts /\ count Woken ts' = count Woken ts + 1).
Proof.
  unfold notify, taken. destruct j as [j|]; case_decide as Hj; intros; simplify_eq.
  - counts ts j Woken Hj; decide_threads; lia.
  - rewrite count_pos in Hj. split; [done|]. left. lia.
Qed.

Lemma sem_step_inv capacity s s' : sem_inv capacity s -> sem_step s s' -> sem_inv capacity s'.
Proof.
  intros HI Hs. destruct Hs as [s i Hi|s i Hi|s i Hi|s i Hi|s i Hi|s i j ts Hi Hn].
  2,3: by eapply acquire_inv; eauto.
  all: destruct HI as [Hc Hw]; unfold sem_inv, taken in *; cbn [at_thread release free threads].
  - counts (threads s) i Asking Hi; decide_threads; lia.
  - counts (threads s) i Woken Hi; decide_threads; lia.
  - counts (threads s) i Releasing Hi; decide_threads; lia.
  - apply notify_counts in Hn. unfold taken in Hn.
    counts (threads s) i Outside Hi; decide_threads; lia.
Qed.

Lemma sem_init_inv capacity n : sem_inv capacity (sem_new capacity n).
Proof.
  unfold sem_inv, taken, sem_new. cbn [free threads].
  assert (forall t, t <> Outside -> count t (replicate n Outside) = 0) as H.
  { intros t Ht. unfold count. induction n; cbn; [done|]. by rewrite bool_decide_false by congruence. }
  rewrite !H by done. lia.
Qed.

(** ** Theorems *)

(** C33: at most [capacity] guards are alive at once, however threads come and go, and no
    wakeup is lost: while a thread sleeps and a slot is free, a woken thread is about to
    look, and it will find the slot unless another took it. *)
Theorem host_semaphore_safe (capacity n : nat) (s : HostSemaphore) :
  reachable (fun s => s = sem_new capacity n) sem_step s ->
  taken (threads s) <= capacity /\
  (Asleep ∈ threads s -> 0 < free s ->
   exists i, threads s !! i = Some Woken /\ sem_step s (acquire s i) /\
     threads (acquire s i) !! i = Some Holding).
Proof.
  intros Hr. assert (sem_inv capacity s) as [Hc Hw].
  { revert s Hr. apply reachable_invariant; [intros s ->; apply sem_init_inv|].
    intros s s' HI Hs. by eapply sem_step_inv. }
  split; [lia|]. intros Ha Hf. apply count_pos in Ha. specialize (Hw Ha).
  assert (Woken ∈ threads s) as (i & Hi)%list_elem_of_lookup by (apply count_pos; lia).
  exists i. split; [done|]. split; [by apply sem_reenter|].
  unfold acquire. destruct (free s); [lia|]. cbn.
  apply list_lookup_insert_eq. by eapply lookup_lt_Some.
Qed.

(** One slot, two threads: the second sleeps until the first's drop wakes it. *)
Lemma host_semaphore_safe_witness :
  exists s, reachable (fun s => s = sem_new 1 2) sem_step s /\
    threads s = [Outside; Woken] /\ free s = 1 /\ taken (threads s) <= 1.
Proof.
  assert (reachable (fun s => s = sem_new 1 2) sem_step
    {| free := 1; threads := [Outside; Woken] |}) as R.
  { eapply (reach_step _ _ {| free := 0; threads := [Releasing; Asleep] |}).
    2: apply (sem_released {| free := 0; threads := [Releasing; Asleep] |} 0 (Some 1) [Outside; Woken]);
       reflexivity.
    eapply (reach_step _ _ {| free := 0; threads := [Holding; Asleep] |}).
    2: apply (sem_drop {| free := 0; threads := [Holding; Asleep] |} 0); reflexivity.
    eapply (reach_step _ _ {| free := 0; threads := [Holding; Asking] |}).
    2: apply (sem_enter {| free := 0; threads := [Holding; Asking] |} 1); reflexivity.
    eapply (reach_step _ _ {| free := 0; threads := [Holding; Outside] |}).
    2: apply (sem_ask {| free := 0; threads := [Holding; Outside] |} 1); reflexivity.
    eapply (reach_step _ _ {| free := 1; threads := [Asking; Outside] |}).
    2: apply (sem_enter {| free := 1; threads := [Asking; Outside] |} 0); reflexivity.
    eapply (reach_step _ _ {| free := 1; threads := [Outside; Outside] |}).
    2: apply (sem_ask {| free := 1; threads := [Outside; Outside] |} 0); reflexivity.
    by apply reach_init. }
  eexists. split; [exact R|]. split; [reflexivity|]. split; [reflexivity|].
  exact (proj1 (host_semaphore_safe 1 2 _ R)).
Defined.
