(* ===== verification/Script.v ===== *)
(** * Processes that share a state, and what each may rely on

    Code that several processes run at once is a [script]: the atomic operations it asks of
    the shared state, and what it does with each answer. A system interleaves the scripts
    of its processes one operation at a time; a process may start at any time and die
    between any two of its operations.

    Each process is proved on its own: [wp] requires every operation of a script to keep the
    invariant and to change the state no more than the process is allowed ([guar]), whatever
    the others did in between within what the process relies on ([rely]). [system_sound]
    puts the proofs together: what [wp] says of each process holds in every reachable state
    of the system. *)

From stdpp Require Import prelude fin_maps nmap gmap.
From S2P Require Import Prelude.

(** ** Scripts *)

Section Scripts.
Context {E : Type -> Type}.

Inductive script (T : Type) : Type :=
| Done (t : T)
| Ask (A : Type) (e : E A) (k : A -> script T).

Arguments Done {T} _.
Arguments Ask {T A} _ _.

Definition ask {A} (e : E A) : script A := Ask e Done.

Fixpoint then_ {T U} (m : script T) (k : T -> script U) : script U :=
  match m with
  | Done t => k t
  | Ask e f => Ask e (fun a => then_ (f a) k)
  end.

(** The [?] operator. *)
Definition then_try {T U F} (m : script (result T F)) (k : T -> script (result U F)) : script (result U F) :=
  then_ m (fun r => match r with Ok t => k t | Err e => Done (Err e) end).

(** One script for each element, in order, up to the first error. *)
Fixpoint try_all {A F} (f : A -> script (result unit F)) (l : list A) : script (result unit F) :=
  match l with
  | [] => Done (Ok tt)
  | a :: l => then_try (f a) (fun _ => try_all f l)
  end.
End Scripts.

Arguments script : clear implicits.
Arguments Done {E T} _.
Arguments Ask {E T A} _ _.

Declare Scope script_scope.
Delimit Scope script_scope with script.

Notation "'do' x <- m ; k" := (then_ m (fun x => k))
  (at level 20, x pattern, m at level 100, k at level 200) : script_scope.
Notation "'do?' x <- m ; k" := (then_try m (fun x => k))
  (at level 20, x pattern, m at level 100, k at level 200) : script_scope.

Section RelyGuarantee.
Context {E : Type -> Type} {Choice W : Type}.

(** What an operation of a process answers and makes of the state, for each choice the
    outside world has in it. *)
Context (act : forall A, nat -> E A -> Choice -> W -> A * W).
Arguments act {A} _ _ _ _.

(** ** One process alone *)

(** The choices in order; [calm] when none is left. *)
Context (calm : Choice).

Fixpoint run {T} (p : nat) (m : script E T) (cs : list Choice) (w : W) : T * W * list Choice :=
  match m with
  | Done t => (t, w, cs)
  | Ask e k =>
      let '(a, w') := act p e (List.hd calm cs) w in
      run p (k a) (List.tl cs) w'
  end.

Lemma run_bind {T U} p (m : script E T) (k : T -> script E U) cs w :
  run p (then_ m k) cs w = let '(t, w', cs') := run p m cs w in run p (k t) cs' w'.
Proof.
  revert cs w. induction m as [t|A e f IH]; intros cs w; [done|]. cbn [run then_].
  destruct (act p e (List.hd calm cs) w). apply IH.
Qed.

(** ** What a process may rely on *)

Context (inv : W -> Prop) (rely guar : nat -> W -> W -> Prop).
Context `{Hrely : !forall p, PreOrder (rely p)}.

Fixpoint wp {T} (p : nat) (m : script E T) (Q : T -> W -> Prop) (w : W) : Prop :=
  match m with
  | Done t => forall w', rely p w w' -> inv w' -> Q t w'
  | Ask e k => forall w' c, rely p w w' -> inv w' ->
      let '(a, w'') := act p e c w' in
      inv w'' /\ guar p w' w'' /\ wp p (k a) Q w''
  end.

Lemma wp_rely {T} p (m : script E T) Q w w' : rely p w w' -> wp p m Q w -> wp p m Q w'.
Proof.
  intros Hr. destruct m as [t|A e k]; cbn [wp]; intros H w2; [|intros c]; intros Hr2; apply H; by etrans.
Qed.

Lemma wp_done {T} p (t : T) (Q : T -> W -> Prop) w :
  (forall w', rely p w w' -> inv w' -> Q t w') -> wp p (Done t) Q w.
Proof. done. Qed.

Lemma wp_mono {T} p (m : script E T) (P Q : T -> W -> Prop) w :
  (forall t w', P t w' -> Q t w') -> wp p m P w -> wp p m Q w.
Proof.
  intros HQ. revert w. induction m as [t|A e k IH]; cbn [wp]; intros w H w'; [by eauto|].
  intros c Hr Hi. specialize (H w' c Hr Hi). destruct (act p e c w') as [a w''].
  destruct H as (? & ? & ?). eauto.
Qed.

Lemma wp_bind {T U} p (m : script E T) (k : T -> script E U) (P : T -> W -> Prop) Q w :
  wp p m P w -> (forall t w', inv w' -> P t w' -> wp p (k t) Q w') -> wp p (then_ m k) Q w.
Proof.
  revert w. induction m as [t|A e f IH]; cbn [wp then_]; intros w Hm Hk.
  - destruct (k t) as [u|A e f] eqn:Ek; cbn [wp].
    + intros w' Hr Hi. specialize (Hk t w' Hi (Hm w' Hr Hi)). rewrite Ek in Hk. by apply Hk.
    + intros w' c Hr Hi. specialize (Hk t w' Hi (Hm w' Hr Hi)). rewrite Ek in Hk. by apply Hk.
  - intros w' c Hr Hi. specialize (Hm w' c Hr Hi). destruct (act p e c w') as [a w''].
    destruct Hm as (? & ? & ?). eauto.
Qed.

Lemma wp_try {T U F} p (m : script E (result T F)) (k : T -> script E (result U F)) P Q w :
  wp p m P w ->
  (forall e w', inv w' -> P (Err e) w' -> wp p (Done (Err e)) Q w') ->
  (forall t w', inv w' -> P (Ok t) w' -> wp p (k t) Q w') ->
  wp p (then_try m k) Q w.
Proof. intros Hm He Hk. eapply wp_bind; [exact Hm|]. intros [t|e] w' Hi HP; auto. Qed.

(** One operation. *)
Lemma wp_ask {A T} p (e : E A) (k : A -> script E T) Q w :
  (forall w' c, rely p w w' -> inv w' ->
    inv (act p e c w').2 /\ guar p w' (act p e c w').2 /\
    wp p (k (act p e c w').1) Q (act p e c w').2) ->
  wp p (Ask e k) Q w.
Proof. intros H w' c Hr Hi. specialize (H w' c Hr Hi). by destruct (act p e c w'). Qed.

(** *** A process alone meets its specification *)
Lemma wp_run {T} p (m : script E T) Q cs w :
  inv w -> wp p m Q w -> let '(t, w', _) := run p m cs w in Q t w' /\ inv w'.
Proof.
  revert cs w. induction m as [t|A e k IH]; cbn [wp run]; intros cs w Hi H.
  - split; [|done]. by apply H.
  - specialize (H w (List.hd calm cs) ltac:(done) Hi). destruct (act p e (List.hd calm cs) w) as [a w'].
    destruct H as (? & ? & ?). by apply IH.
Qed.

(** ** Systems *)

Context {Job T : Type} (code : Job -> script E T) (post : nat -> Job -> T -> W -> Prop).

(** The processes, each with the job it was started for and what is left of its script. *)
Record system := { world : W; running : gmap nat (Job * script E T) }.

(** Who may start as which process, and what the state is after a process died. *)
Context (may_start : nat -> Job -> W -> bool) (dies : nat -> W -> W).

Inductive sys_step : system -> system -> Prop :=
| sys_turn s p j A (e : E A) k c :
    running s !! p = Some (j, Ask e k) ->
    sys_step s {| world := (act p e c (world s)).2;
                  running := <[p := (j, k (act p e c (world s)).1)]> (running s) |}
| sys_start s p j :
    running s !! p = None -> may_start p j (world s) = true ->
    sys_step s {| world := world s; running := <[p := (j, code j)]> (running s) |}
| sys_die s p t :
    running s !! p = Some t ->
    sys_step s {| world := dies p (world s); running := delete p (running s) |}.

(** One step, executed. *)
Inductive move := Turn (p : nat) (c : Choice) | Start (p : nat) (j : Job) | Die (p : nat).

Definition sys_move (m : move) (s : system) : option system :=
  match m with
  | Turn p c =>
      match running s !! p with
      | Some (j, Ask e k) =>
          let '(a, w') := act p e c (world s) in
          Some {| world := w'; running := <[p := (j, k a)]> (running s) |}
      | _ => None
      end
  | Start p j =>
      match running s !! p with
      | None => if may_start p j (world s) then Some {| world := world s; running := <[p := (j, code j)]> (running s) |} else None
      | Some _ => None
      end
  | Die p =>
      match running s !! p with
      | Some _ => Some {| world := dies p (world s); running := delete p (running s) |}
      | None => None
      end
  end.

Fixpoint sys_moves (l : list move) (s : system) : option system :=
  match l with
  | [] => Some s
  | m :: l => match sys_move m s with Some s' => sys_moves l s' | None => None end
  end.

Lemma sys_move_step m s s' : sys_move m s = Some s' -> sys_step s s'.
Proof.
  destruct m as [p c|p j|p]; cbn [sys_move]; destruct (running s !! p) as [[j' m']|] eqn:Ep; try done.
  - destruct m' as [t|A e k]; [done|]. pose proof (sys_turn s p j' A e k c Ep) as Hs.
    destruct (act p e c (world s)). by intros [= <-].
  - destruct (may_start p j (world s)) eqn:Em; [|done]. intros [= <-]. by constructor.
  - intros [= <-]. by econstructor.
Qed.

Definition sys_init (w : W) (s : system) : Prop := world s = w /\ running s = ∅.

Lemma sys_moves_rtc l s s' : sys_moves l s = Some s' -> rtc sys_step s s'.
Proof.
  revert s. induction l as [|m l IH]; cbn [sys_moves]; intros s; [by intros [= <-]|].
  destruct (sys_move m s) as [s1|] eqn:Em; [|done]. intros Hl. econstructor; [by eapply sys_move_step|by apply IH].
Qed.

Lemma sys_moves_reachable w l s s' :
  reachable (sys_init w) sys_step s -> sys_moves l s = Some s' -> reachable (sys_init w) sys_step s'.
Proof.
  revert s. induction l as [|m l IH]; cbn [sys_moves]; intros s Hr; [by intros [= <-]|].
  destruct (sys_move m s) as [s1|] eqn:Em; [|done]. apply IH. econstructor; [exact Hr|by eapply sys_move_step].
Qed.

Definition sys_ok (s : system) : Prop :=
  inv (world s) /\
  forall p j m, running s !! p = Some (j, m) -> wp p m (post p j) (world s).

Context (guar_rely : forall p q w w', p <> q -> inv w -> guar p w w' -> rely q w w').
Context (dies_ok : forall p w, inv w -> inv (dies p w) /\ guar p w (dies p w)).
Context (code_ok : forall p j w, inv w -> may_start p j w = true -> wp p (code j) (post p j) w).

Lemma others_ok s p w' :
  sys_ok s -> guar p (world s) w' ->
  forall q j m, q <> p -> running s !! q = Some (j, m) -> wp q m (post q j) w'.
Proof.
  intros [Hi Hp] Hg q j m Hne Hq. eapply wp_rely; [|by apply Hp]. by apply (guar_rely p).
Qed.

Lemma sys_step_ok s s' : sys_ok s -> sys_step s s' -> sys_ok s'.
Proof.
  intros Hok Hs. pose proof Hok as [Hi Hp]. destruct Hs as [s p j A e k c Ht|s p j Hn Hf|s p t Ht].
  - specialize (Hp p j _ Ht (world s) c ltac:(done) Hi).
    destruct (act p e c (world s)) as [a w'] eqn:Ea. cbn [fst snd] in *. destruct Hp as (Hi' & Hg & Hk).
    split; [done|]. cbn [world running]. intros q j' m [[<- [= <- <-]]|[Hne Hq]]%lookup_insert_Some; [done|].
    by eapply others_ok.
  - split; [done|]. cbn [world running]. intros q j' m [[<- [= <- <-]]|[Hne Hq]]%lookup_insert_Some; [|by apply Hp].
    by apply code_ok.
  - destruct (dies_ok p (world s) Hi) as [Hi' Hg]. split; [done|]. cbn [world running].
    intros q j m [Hne Hq]%lookup_delete_Some. by eapply others_ok.
Qed.

Lemma system_sound w s : inv w -> reachable (sys_init w) sys_step s -> sys_ok s.
Proof.
  intros Hi. apply reachable_invariant.
  - intros s0 [<- Hr]. split; [done|]. intros p j m. by rewrite Hr, lookup_empty.
  - apply sys_step_ok.
Qed.

(** What one step may do to the state. *)
Lemma sys_step_guar s s' :
  sys_ok s -> sys_step s s' -> world s' = world s \/ exists p, guar p (world s) (world s').
Proof.
  intros [Hi Hp] Hs. destruct Hs as [s p j A e k c Ht|s p j Hn Hf|s p t Ht]; [right; exists p|by left|right; exists p].
  - specialize (Hp p j _ Ht (world s) c ltac:(done) Hi). cbn [world].
    destruct (act p e c (world s)) as [a w']. apply Hp.
  - by apply dies_ok.
Qed.

(** A process that came to its end. *)
Lemma system_post w s p j t :
  inv w -> reachable (sys_init w) sys_step s -> running s !! p = Some (j, Done t) -> post p j t (world s).
Proof. intros Hi Hr Hp. destruct (system_sound w s Hi Hr) as [Hi' H]. by apply (H p j _ Hp). Qed.
End RelyGuarantee.
