(* ===== verification/Session.v ===== *)
(** * The processes a child starts, and how they are killed ([pipette-subprocess], [session.rs])

    A started child leads a session of its own. A kill lists the machine's processes, stops
    and then kills those of the session and what is below them, each checked by its start
    time. The kernel is a table of processes that others change between any two of its
    operations: they fork, exit, are reaped and their pids are handed out again. A listing is
    of one instant, and may miss any process; a signal finds its process through a pidfd, as
    on Linux. *)

From Stdlib Require Import ZArith Lia String.
From stdpp Require Import prelude list fin_maps gmap sorting.
From S2P Require Import Prelude Str Script.

Local Open Scope Z_scope.
Local Open Scope script_scope.

(** ** What a listing says *)

Record Stat := { parent : Z; session : Z; start : Z }.

(** The fields of [/proc/<pid>/stat] after the command's name, which can hold a bracket. *)
Definition fields (stat : str) : option (list str) :=
  '(_, rest) ← rsplit_once 41 stat; Some (split_whitespace rest).

Definition u32_of (text : str) : option Z := parse_uint (2 ^ 32 - 1) text.
Definition u64_of (text : str) : option Z := parse_uint (2 ^ 64 - 1) text.

(** A zombie, already dead, gives none. *)
Definition parse_stat (stat : str) : option Stat :=
  fs ← fields stat;
  state ← fs !! 0%nat;
  if str_eqb state (lit "Z") then None
  else
    parent ← fs !! 1%nat ≫= u32_of;
    session ← fs !! 3%nat ≫= u32_of;
    start ← fs !! 19%nat ≫= u64_of;
    Some {| parent := parent; session := session; start := start |}.

(** A stat line, with a command that has brackets and spaces in its name. *)
Definition stat_line (state : str) : str :=
  lit "4242 (python (vllm) x) " ++ state ++ lit " 41 4240 4239 0 -1 4194560 100 0 0 0 5 1 0 0 20 0 3 0 987654 1000 200 18446744073709551615".

Example a_stat_line_is_read :
  (parse_stat (stat_line (lit "S")), parse_stat (stat_line (lit "Z")), parse_stat (lit "4242 (sh) S 41")) =
  (Some {| parent := 41; session := 4239; start := 987654 |}, None, None).
Proof. vm_compute. reflexivity. Qed.

Definition children_of (processes : gmap Z Stat) (parents : gset Z) : gset Z :=
  dom (filter (fun p => parent p.2 ∈ parents /\ p.1 ∉ parents) processes).

(** Every round finds a process more, so there are at most as many as processes. *)
Fixpoint with_descendants (fuel : nat) (processes : gmap Z Stat) (found : gset Z) : gset Z :=
  match fuel with
  | O => found
  | S fuel =>
      let more := children_of processes found ∖ found in
      if bool_decide (more = ∅) then found else with_descendants fuel processes (found ∪ more)
  end.

Definition session_pids (sid : Z) (processes : gmap Z Stat) : gset Z := dom (filter (fun p => session p.2 = sid) processes).

(** The session's processes and those below them, with their starts. *)
Definition members (sid : Z) (processes : gmap Z Stat) : gmap Z Z :=
  let found := with_descendants (size processes) processes (session_pids sid processes) in
  start <$> filter (fun p => p.1 ∈ found) processes.

(** What [members] means: of the session, or below one that is. *)
Inductive below (sid : Z) (processes : gmap Z Stat) : Z -> Prop :=
| of_session pid p : processes !! pid = Some p -> session p = sid -> below sid processes pid
| of_parent pid p : processes !! pid = Some p -> below sid processes (parent p) -> below sid processes pid.

Lemma elem_children (processes : gmap Z Stat) (parents : gset Z) pid :
  pid ∈ children_of processes parents <-> exists p, processes !! pid = Some p /\ parent p ∈ parents /\ pid ∉ parents.
Proof.
  unfold children_of. rewrite elem_of_dom. split.
  - intros [p [Hp [H1 H2]]%map_lookup_filter_Some]. by exists p.
  - intros (p & Hp & H1 & H2). exists p. by apply map_lookup_filter_Some.
Qed.

Lemma elem_session sid processes pid :
  pid ∈ session_pids sid processes <-> exists p, processes !! pid = Some p /\ session p = sid.
Proof.
  unfold session_pids. rewrite elem_of_dom. split.
  - intros [p [Hp H]%map_lookup_filter_Some]. by exists p.
  - intros (p & Hp & H). exists p. by apply map_lookup_filter_Some.
Qed.

(** A set that reaches down as far as it goes. *)
Definition closed (processes : gmap Z Stat) (found : gset Z) : Prop :=
  forall pid p, processes !! pid = Some p -> parent p ∈ found -> pid ∈ found.

(** The processes not yet found. *)
Definition rest (processes : gmap Z Stat) (found : gset Z) : gset Z := dom processes ∖ found.

Lemma with_descendants_closed fuel processes found :
  found ⊆ dom processes -> (size (rest processes found) <= fuel)%nat ->
  closed processes (with_descendants fuel processes found).
Proof.
  revert found. induction fuel as [|fuel IH]; intros found Hf Hn; cbn [with_descendants].
  - intros pid p Hp _. assert (E : rest processes found ≡ ∅) by (apply size_empty_inv; lia).
    destruct (decide (pid ∈ found)); [done|]. exfalso. apply (not_elem_of_empty (C := gset Z) pid). rewrite <- E.
    unfold rest. apply elem_of_difference. split; [by apply elem_of_dom_2 in Hp|done].
  - case_bool_decide as E.
    + intros pid p Hp Hpar. destruct (decide (pid ∈ found)); [done|]. exfalso. apply (not_elem_of_empty (C := gset Z) pid).
      rewrite <- E. apply elem_of_difference. split; [|done]. apply elem_children. by exists p.
    + assert (Hmore : children_of processes found ⊆ dom processes).
      { intros pid (p & Hp & _)%elem_children. by apply elem_of_dom_2 in Hp. }
      apply IH; [set_solver|]. set (more := _ ∖ found) in *.
      assert (Hlt : (size (rest processes (found ∪ more)) < size (rest processes found))%nat); [|lia].
      apply subset_size. destruct (set_choose_L more E) as [x Hx]. unfold more, rest in *. set_solver.
Qed.

Lemma with_descendants_grows fuel processes found : found ⊆ with_descendants fuel processes found.
Proof.
  revert found. induction fuel as [|fuel IH]; intros found; cbn [with_descendants]; [done|].
  case_bool_decide; [done|]. etrans; [|apply IH]. set_solver.
Qed.

Lemma with_descendants_below fuel sid processes found :
  (forall pid, pid ∈ found -> below sid processes pid) ->
  forall pid, pid ∈ with_descendants fuel processes found -> below sid processes pid.
Proof.
  revert found. induction fuel as [|fuel IH]; intros found Hf; cbn [with_descendants]; [done|].
  case_bool_decide; [done|]. apply IH. intros pid [Hp|[(p & Hp & Hpar & _)%elem_children _]%elem_of_difference]%elem_of_union; [by apply Hf|].
  eapply of_parent; [exact Hp|by apply Hf].
Qed.

(** The processes a kill names are exactly those of the session and whatever is below one
    of them, each with the start it was listed with, however deep the listing goes. *)
Theorem members_are_the_tree sid processes pid st :
  members sid processes !! pid = Some st <->
  below sid processes pid /\ exists p, processes !! pid = Some p /\ start p = st.
Proof.
  unfold members. rewrite lookup_fmap_Some. setoid_rewrite map_lookup_filter_Some. cbn [fst].
  set (found := with_descendants _ _ _).
  assert (Hin : forall q, q ∈ found <-> below sid processes q).
  { intros q. split.
    - apply with_descendants_below. intros r (p & Hp & Hs)%elem_session. by eapply of_session.
    - assert (Hc : closed processes found).
      { apply with_descendants_closed; [intros r (p & Hp & _)%elem_session; by apply elem_of_dom_2 in Hp|].
        rewrite <- (size_dom (D := gset Z) processes). apply subseteq_size. unfold rest. set_solver. }
      intros Hb. induction Hb as [q p Hp Hs|q p Hp _ IH]; [|by apply (Hc q p)].
      apply with_descendants_grows, elem_session. by exists p. }
  split.
  - intros (p & <- & Hp & Hf). split; [by apply Hin|by exists p].
  - intros [Hb (p & Hp & <-)]. exists p. split; [done|]. split; [done|by apply Hin].
Qed.

(** ** The kernel's table *)

Record Proc := { stat : Stat; zombie : bool; frozen : bool; environ : str }.

Inductive Signal := SIGSTOP | SIGKILL.

(** The table, a clock, and for the proofs: every process there ever was, those that descend
    from the leader, whether the leader is a child not yet reaped, and what was signalled. *)
Record Machine := {
  procs : gmap Z Proc;
  ever : gset (Z * Z);
  kin : gset (Z * Z);
  held : bool;
  clock : Z;
  sent : list (Z * Z * Signal);
}.

Definition with_procs (ps : gmap Z Proc) (m : Machine) : Machine :=
  {| procs := ps; ever := ever m; kin := kin m; held := held m; clock := clock m; sent := sent m |}.

Definition with_stat (s : Stat) (p : Proc) : Proc := {| stat := s; zombie := zombie p; frozen := frozen p; environ := environ p |}.
Definition freeze_as (b : bool) (p : Proc) : Proc := {| stat := stat p; zombie := zombie p; frozen := b; environ := environ p |}.

(** [r] is above [pid]. *)
Fixpoint above (fuel : nat) (ps : gmap Z Proc) (r pid : Z) : bool :=
  match fuel, ps !! pid with
  | S fuel, Some p => (parent (stat p) =? r) || above fuel ps r (parent (stat p))
  | _, _ => false
  end.

(** An exit: a zombie for its parent to reap, its children below [r]. *)
Definition exited (pid r : Z) (p : Proc) (ps : gmap Z Proc) : gmap Z Proc :=
  (fun q => if parent (stat q) =? pid then with_stat {| parent := r; session := session (stat q); start := start (stat q) |} q else q)
    <$> <[pid := {| stat := stat p; zombie := true; frozen := false; environ := environ p |}]> ps.

(** What others do: a process forks, leads a new session, exits, is reaped, stopped, goes
    on or runs another program. A pid is handed out again once no process and no session
    has it; no process is ever the same pid with the same start. *)
Inductive KAction :=
| Fork (pid child start : Z)
| Setsid (pid : Z)
| Exit (pid r : Z)
| Reap (pid : Z)
| Pause (pid : Z) (stopped : bool)
| Exec (pid : Z) (env : str).

Section Kernel.
(** The leader, by pid. *)
Context (sid : Z).

Definition alive (m : Machine) (pid : Z) : option Proc :=
  match procs m !! pid with Some p => if zombie p || frozen p then None else Some p | None => None end.

Definition kernel (a : KAction) (m : Machine) : Machine :=
  match a with
  | Fork pid child st =>
      match alive m pid with
      | Some p =>
          if (1 <? child) && bool_decide (procs m !! child = None) && bool_decide ((child, st) ∉ ever m) &&
             bool_decide (map_Forall (fun _ q => session (stat q) <> child) (procs m)) then
            {| procs := <[child := {| stat := {| parent := pid; session := session (stat p); start := st |};
                                      zombie := false; frozen := false; environ := environ p |}]> (procs m);
               ever := {[(child, st)]} ∪ ever m;
               kin := if bool_decide ((pid, start (stat p)) ∈ kin m) then {[(child, st)]} ∪ kin m else kin m;
               held := held m; clock := clock m; sent := sent m |}
          else m
      | None => m
      end
  | Setsid pid =>
      match alive m pid with
      | Some p => with_procs (<[pid := with_stat {| parent := parent (stat p); session := pid; start := start (stat p) |} p]> (procs m)) m
      | None => m
      end
  | Exit pid r =>
      match alive m pid with
      | Some p => if (r =? 1) || negb (r =? pid) && above (size (procs m)) (procs m) r pid then with_procs (exited pid r p (procs m)) m else m
      | None => m
      end
  | Reap pid =>
      match procs m !! pid with
      | Some p => if zombie p && negb (held m && (pid =? sid)) then with_procs (delete pid (procs m)) m else m
      | None => m
      end
  | Pause pid stopped =>
      match procs m !! pid with
      | Some p => if zombie p then m else with_procs (<[pid := freeze_as stopped p]> (procs m)) m
      | None => m
      end
  | Exec pid env =>
      match alive m pid with
      | Some p => with_procs (<[pid := {| stat := stat p; zombie := false; frozen := false; environ := env |}]> (procs m)) m
      | None => m
      end
  end.

Definition kernels (l : list KAction) (m : Machine) : Machine := fold_left (fun m a => kernel a m) l m.

(** ** What a kill asks *)

Inductive SessionE : Type -> Type :=
| Started (pid : Z) : SessionE (option Z)
| Processes : SessionE (gmap Z Stat)
| SignalIfSame (pid start : Z) (s : Signal) : SessionE bool
| Running (pid start : Z) : SessionE bool
| Environment (pid : Z) : SessionE (option str)
| Now : SessionE Z
| Sleep (d : Z) : SessionE unit
| ExitedUnreaped (pid : Z) : SessionE (result bool str)
| TryWait (pid : Z) : SessionE (result (option Z) str).

(** What comes before an operation, which processes a listing misses, whether it is refused,
    how late it is. *)
Record Choice := { before : list KAction; missed : list Z; refused : bool; late : Z }.

Definition Calmly : Choice := {| before := []; missed := []; refused := false; late := 0 |}.

Definition listing (missed : list Z) (m : Machine) : gmap Z Stat :=
  stat <$> filter (fun p => zombie p.2 = false /\ p.1 ∉ missed) (procs m).

Definition same (m : Machine) (pid st : Z) : option Proc :=
  match procs m !! pid with Some p => if start (stat p) =? st then Some p else None | None => None end.

Definition note_sent (x : Z * Z * Signal) (m : Machine) : Machine :=
  {| procs := procs m; ever := ever m; kin := kin m; held := held m; clock := clock m; sent := x :: sent m |}.

(** A signal to a process known to be the same. *)
Definition delivered (pid : Z) (p : Proc) (s : Signal) (m : Machine) : Machine :=
  if zombie p then m
  else match s with
       | SIGSTOP => with_procs (<[pid := freeze_as true p]> (procs m)) m
       | SIGKILL => with_procs (exited pid 1 p (procs m)) m
       end.

Definition released (pid : Z) (m : Machine) : Machine :=
  {| procs := delete pid (procs m); ever := ever m; kin := kin m; held := if pid =? sid then false else held m;
     clock := clock m; sent := sent m |}.

Definition act (A : Type) (_ : nat) (e : SessionE A) (c : Choice) (m : Machine) : A * Machine :=
  let m := kernels (before c) m in
  match e in SessionE A return A * Machine with
  | Started pid => (if refused c then None else start ∘ stat <$> procs m !! pid, m)
  | Processes => (listing (missed c) m, m)
  | SignalIfSame pid st s =>
      match same m pid st with
      | Some p => if refused c then (false, m) else (true, note_sent (pid, st, s) (delivered pid p s m))
      | None => (false, m)
      end
  | Running pid st => (match same m pid st with Some p => negb (zombie p) | None => false end, m)
  | Environment pid => (if refused c then None else environ <$> procs m !! pid, m)
  | Now => (clock m, m)
  | Sleep d =>
      (tt, {| procs := procs m; ever := ever m; kin := kin m; held := held m;
              clock := clock m + Z.max 0 d + Z.max 0 (late c); sent := sent m |})
  | ExitedUnreaped pid =>
      (if refused c then Err [] else match procs m !! pid with Some p => Ok (zombie p) | None => Err [] end, m)
  | TryWait pid =>
      if refused c then (Err [], m)
      else match procs m !! pid with
           | Some p => if zombie p then (Ok (Some 0), released pid m) else (Ok None, m)
           | None => (Err [], m)
           end
  end.
End Kernel.

(** ** Killing a session ([scan]) *)

Definition FREEZE_ROUNDS : nat := 8.
Definition KILL_ROUNDS : nat := 4.
Definition EXIT_LIMIT : Z := 10 * 1000000000.
Definition EXIT_POLL : Z := 20 * 1000000.

Definition key_le (a b : Z * Z) : Prop := a.1 <= b.1.

#[export] Instance key_le_dec : RelDecision key_le.
Proof. intros a b. unfold key_le. apply _. Defined.

(** A [BTreeMap]'s entries, in the order of its keys. *)
Definition entries (m : gmap Z Z) : list (Z * Z) := merge_sort key_le (map_to_list m).

Fixpoint each {A} (f : A -> script SessionE unit) (l : list A) : script SessionE unit :=
  match l with
  | [] => Done tt
  | x :: l => do _ <- f x; each f l
  end.

(** Stops what it finds until it finds no more; whether it got there. *)
Fixpoint freeze_rounds (n : nat) (sid : Z) (keep : Z -> bool) (frozen : gmap Z Z) : script SessionE (gmap Z Z * bool) :=
  match n with
  | O => Done (frozen, false)
  | S n =>
      do found <- ask Processes;
      let more := filter (fun p => frozen !! p.1 = None /\ keep p.1 = true) (members sid found) in
      do _ <- each (fun p => do _ <- ask (SignalIfSame p.1 p.2 SIGSTOP); Done tt) (entries more);
      if bool_decide (more = ∅) then Done (frozen, true) else freeze_rounds n sid keep (more ∪ frozen)
  end.

Definition freeze (sid : Z) (keep : Z -> bool) : script SessionE (gmap Z Z) :=
  do r <- freeze_rounds FREEZE_ROUNDS sid keep ∅; Done r.1.

(** Those the signal reached. *)
Fixpoint kill_each (l : list (Z * Z)) : script SessionE (gmap Z Z) :=
  match l with
  | [] => Done ∅
  | p :: l =>
      do hit <- ask (SignalIfSame p.1 p.2 SIGKILL);
      do others <- kill_each l;
      Done (if hit : bool then <[p.1 := p.2]> others else others)
  end.

Fixpoint kill_rounds (n : nat) (sid : Z) (keep : Z -> bool) (killed : gmap Z Z) : script SessionE (gmap Z Z) :=
  match n with
  | O => Done killed
  | S n =>
      do frozen <- freeze sid keep;
      if bool_decide (frozen = ∅) then Done killed
      else do hit <- kill_each (entries frozen); kill_rounds n sid keep (hit ∪ killed)
  end.

Fixpoint any_running (l : list (Z * Z)) : script SessionE bool :=
  match l with
  | [] => Done false
  | p :: l => do running <- ask (Running p.1 p.2); if running : bool then Done true else any_running l
  end.

(** The looks at whether they have exited; [None] when they are spent. *)
Fixpoint exit_looks (fuel : nat) (killed : list (Z * Z)) (deadline : Z) : script SessionE (option bool) :=
  match fuel with
  | O => Done None
  | S fuel =>
      do running <- any_running killed;
      if negb running then Done (Some true)
      else
        do now <- ask Now;
        if deadline <=? now then Done (Some false)
        else do _ <- ask (Sleep EXIT_POLL); exit_looks fuel killed deadline
  end.

Definition EXIT_LOOKS : nat := Z.to_nat (EXIT_LIMIT / EXIT_POLL + 2).

Definition exited_within (killed : list (Z * Z)) (limit : Z) : script SessionE (option bool) :=
  do now <- ask Now; exit_looks EXIT_LOOKS killed (now + limit).

Definition scan_kill (sid : Z) (keep : Z -> bool) : script SessionE bool :=
  do killed <- kill_rounds KILL_ROUNDS sid keep ∅;
  do _ <- exited_within (entries killed) EXIT_LIMIT;
  Done (bool_decide (killed <> ∅)).

(** [carried]: whether a process of the session has [token] in its environment. *)
Fixpoint any_carries (entry : str) (l : list Z) : script SessionE bool :=
  match l with
  | [] => Done false
  | pid :: l =>
      do env <- ask (Environment pid);
      if match env with Some env => bool_decide (entry ∈ split_at 0 [] env) | None => false end then Done true
      else any_carries entry l
  end.

Definition in_session (sid : Z) (processes : gmap Z Stat) : gmap Z Z := start <$> filter (fun p => session p.2 = sid) processes.

Definition TOKEN_VAR : str := lit "PIPETTE_SESSION_TOKEN".

Definition carried (sid : Z) (token : str) : script SessionE bool :=
  do found <- ask Processes;
  any_carries (TOKEN_VAR ++ [61] ++ token) (map fst (entries (in_session sid found))).

(** ** A session *)

Record Session := { leader : Z; recorded : option Z }.

Definition led_by (pid : Z) : script SessionE Session :=
  do st <- ask (Started pid); Done {| leader := pid; recorded := st |}.

Definition noted (leader st : Z) : Session := {| leader := leader; recorded := Some st |}.

Definition is_ours (s : Session) : script SessionE bool :=
  do now <- ask (Started (leader s));
  Done (match recorded s, now with
        | Some recorded, Some now => recorded =? now
        | Some _, None => true
        | None, _ => false
        end).

Definition kill (s : Session) : script SessionE bool :=
  do ours <- is_ours s;
  if ours : bool then scan_kill (leader s) (fun _ => true) else Done false.

Definition kill_noted (s : Session) (token : option str) : script SessionE bool :=
  do now <- ask (Started (leader s));
  if bool_decide (is_Some (recorded s) /\ recorded s = now) then kill s
  else
    match token with
    | None => Done false
    | Some token =>
        do ours <- is_ours s;
        if negb ours then Done false
        else
          do carries <- carried (leader s) token;
          if carries : bool then scan_kill (leader s) (fun _ => true) else Done false
    end.

(** The session is killed while the unreaped leader still holds its pid. *)
Definition reap (s : Session) : script SessionE (result (option Z) str) :=
  do? gone <- ask (ExitedUnreaped (leader s));
  if negb gone then Done (Ok None)
  else do _ <- kill s; ask (TryWait (leader s)).

(** ** Whom a kill reaches *)

Section Reach.
Context (sid : Z).

Definition is_kin (m : Machine) (pid : Z) (p : Proc) : Prop := (pid, start (stat p)) ∈ kin m.

(** Whatever the kernel does, kinship goes down from a parent to its children, and while the
    leader is not reaped its session is kin. *)
Record Inv (m : Machine) : Prop := {
  inv_init : forall pid st, (pid, st) ∈ kin m -> 1 < pid;
  inv_parent : forall pid p, procs m !! pid = Some p ->
    parent (stat p) <= 1 \/ exists q, procs m !! parent (stat p) = Some q /\ zombie q = false;
  inv_down : forall pid p q, procs m !! pid = Some p -> procs m !! parent (stat p) = Some q ->
    is_kin m (parent (stat p)) q -> is_kin m pid p;
  inv_held : held m = true -> exists p, procs m !! sid = Some p /\ is_kin m sid p;
  inv_session : held m = true -> forall pid p, procs m !! pid = Some p -> session (stat p) = sid -> is_kin m pid p;
  inv_sent : Forall (fun x => x.1 ∈ kin m) (sent m);
}.

Definition later (m m' : Machine) : Prop := kin m ⊆ kin m' /\ held m' = held m.

#[export] Instance later_preorder : PreOrder later.
Proof. split; [by intros m|]. intros m1 m2 m3 [H1 H2] [H3 H4]. split; [by etrans|congruence]. Qed.

(** What the table says of a process, to others. *)
Definition seen (ps : gmap Z Proc) (pid : Z) : option (Stat * bool) := (fun p => (stat p, zombie p)) <$> ps !! pid.

Lemma seen_some ps pid s z : seen ps pid = Some (s, z) <-> exists p, ps !! pid = Some p /\ stat p = s /\ zombie p = z.
Proof.
  unfold seen. rewrite fmap_Some. split.
  - intros (p & Hp & [= -> ->]). by exists p.
  - intros (p & Hp & <- & <-). by exists p.
Qed.

Lemma seen_lookup ps ps' pid p : (forall x, seen ps' x = seen ps x) -> ps' !! pid = Some p ->
  exists q, ps !! pid = Some q /\ stat q = stat p /\ zombie q = zombie p.
Proof. intros H Hp. apply seen_some. rewrite <- H. apply seen_some. by exists p. Qed.

(** Changes nobody sees. *)
Lemma unseen m ps : (forall pid, seen ps pid = seen (procs m) pid) -> Inv m -> Inv (with_procs ps m).
Proof.
  intros H Hi. assert (H' : forall x, seen (procs m) x = seen ps x) by (intros x; by rewrite H).
  constructor; cbn [procs with_procs held kin sent].
  - apply (inv_init _ Hi).
  - intros pid p Hp. destruct (seen_lookup _ _ _ _ H Hp) as (q & Hq & <- & _).
    destruct (inv_parent _ Hi pid q Hq) as [|(r & Hr & Hz)]; [by left|right].
    destruct (seen_lookup _ _ _ _ H' Hr) as (r' & Hr' & _ & Ez). exists r'. by rewrite Ez.
  - intros pid p q Hp Hq. destruct (seen_lookup _ _ _ _ H Hp) as (p' & Hp' & Es & _).
    destruct (seen_lookup _ _ _ _ H Hq) as (q' & Hq' & Es' & _). unfold is_kin. rewrite <- Es, <- Es'. rewrite <- Es in Hq'.
    by apply (inv_down _ Hi pid p' q').
  - intros Hh. destruct (inv_held _ Hi Hh) as (p & Hp & Hk). destruct (seen_lookup _ _ _ _ H' Hp) as (p' & Hp' & Es & _).
    exists p'. split; [done|]. unfold is_kin. by rewrite Es.
  - intros Hh pid p Hp. destruct (seen_lookup _ _ _ _ H Hp) as (p' & Hp' & Es & _). unfold is_kin. rewrite <- Es.
    by apply (inv_session _ Hi Hh).
  - apply (inv_sent _ Hi).
Qed.

Lemma seen_insert ps pid p p' :
  ps !! pid = Some p -> stat p' = stat p -> zombie p' = zombie p -> forall x, seen (<[pid := p']> ps) x = seen ps x.
Proof.
  intros Hp Es Ez x. unfold seen. destruct (decide (x = pid)) as [->|]; [|by rewrite lookup_insert_ne].
  rewrite lookup_insert_eq, Hp. cbn. by rewrite Es, Ez.
Qed.

Lemma alive_some m pid p : alive m pid = Some p -> procs m !! pid = Some p /\ zombie p = false.
Proof.
  unfold alive. destruct (procs m !! pid) as [q|]; [|done]. destruct (zombie q) eqn:E; [done|]. destruct (frozen q); [done|]. by intros [= <-].
Qed.

Lemma above_kin m fuel r pid p q :
  Inv m -> above fuel (procs m) r pid = true -> procs m !! pid = Some p -> procs m !! r = Some q -> is_kin m r q -> is_kin m pid p.
Proof.
  intros Hi. revert pid p. induction fuel as [|fuel IH]; intros pid p; cbn [above]; [done|]. intros H Hp Hq Hk. rewrite Hp in H.
  apply orb_true_iff in H as [E%Z.eqb_eq|H]; [rewrite <- E in *; by apply (inv_down _ Hi pid p q)|].
  destruct fuel as [|fuel]; [done|]. destruct (procs m !! parent (stat p)) as [t|] eqn:Et; [|cbn in H; by rewrite Et in H].
  apply (inv_down _ Hi pid p t Hp Et). by apply IH.
Qed.

Lemma above_alive m fuel r pid :
  Inv m -> above fuel (procs m) r pid = true -> r <= 1 \/ exists q, procs m !! r = Some q /\ zombie q = false.
Proof.
  intros Hi. revert pid. induction fuel as [|fuel IH]; intros pid; cbn [above]; [done|].
  destruct (procs m !! pid) as [p|] eqn:Hp; [|done]. intros [<-%Z.eqb_eq|H]%orb_true_iff; [by apply (inv_parent _ Hi pid p)|by eapply IH].
Qed.

(** An exit hands the children to init, or to someone above. *)
Lemma exit_ok m pid p r :
  Inv m -> procs m !! pid = Some p -> r = 1 \/ (r <> pid /\ above (size (procs m)) (procs m) r pid = true) ->
  Inv (with_procs (exited pid r p (procs m)) m).
Proof.
  intros Hi Hp Hr.
  assert (Hl : forall x s, exited pid r p (procs m) !! x = Some s -> exists t, procs m !! x = Some t /\
    start (stat s) = start (stat t) /\ session (stat s) = session (stat t) /\
    (x <> pid -> zombie s = zombie t) /\ parent (stat s) = (if parent (stat t) =? pid then r else parent (stat t))).
  { intros x s. unfold exited. rewrite lookup_fmap_Some. intros (t & <- & [[<- <-]|[Hne Ht]]%lookup_insert_Some).
    - exists p. split; [done|]. cbn. by destruct (_ =? _).
    - exists t. split; [done|]. by destruct (_ =? _). }
  assert (Hl' : forall x t, procs m !! x = Some t -> exists s, exited pid r p (procs m) !! x = Some s /\
    start (stat s) = start (stat t) /\ (x <> pid -> zombie s = zombie t)).
  { intros x t Ht. unfold exited. rewrite lookup_fmap. destruct (decide (x = pid)) as [->|].
    - rewrite lookup_insert_eq. cbn. rewrite Hp in Ht. injection Ht as <-. eexists. split; [done|]. cbn. by destruct (_ =? _).
    - rewrite lookup_insert_ne, Ht by done. cbn. eexists. split; [done|]. by destruct (_ =? _). }
  constructor; cbn [procs with_procs held kin sent].
  - apply (inv_init _ Hi).
  - intros x s Hs. destruct (Hl x s Hs) as (t & Ht & _ & _ & _ & ->).
    assert (Hy : forall y, y <> pid -> (y <= 1 \/ exists q, procs m !! y = Some q /\ zombie q = false) ->
      y <= 1 \/ exists q, exited pid r p (procs m) !! y = Some q /\ zombie q = false).
    { intros y Hne [|(q & Hq & Hz)]; [by left|right]. destruct (Hl' y q Hq) as (q' & Hq' & _ & Ez). exists q'. by rewrite Ez. }
    destruct (Z.eqb_spec (parent (stat t)) pid).
    + destruct Hr as [->|[Hne Hr]]; [by left|]. apply Hy; [done|]. by eapply above_alive.
    + apply Hy; [done|]. by apply (inv_parent _ Hi x t).
  - intros x s q Hs Hq. destruct (Hl x s Hs) as (t & Ht & Est & _ & _ & Epar). rewrite Epar in Hq |- *.
    destruct (Hl _ q Hq) as (u & Hu & Esu & _). unfold is_kin in *. cbn [kin with_procs]. rewrite Est, Esu. intros Hk.
    destruct (Z.eqb_spec (parent (stat t)) pid) as [<-|Hne].
    + apply (inv_down _ Hi x t p Ht Hp). destruct Hr as [->|[_ Hr]].
      * apply (inv_init _ Hi) in Hk. lia.
      * by apply (above_kin m (size (procs m)) r (parent (stat t)) p u).
    + by apply (inv_down _ Hi x t u).
  - intros Hh. destruct (inv_held _ Hi Hh) as (t & Ht & Hk). destruct (Hl' sid t Ht) as (s & Hs & Est & _).
    exists s. split; [done|]. unfold is_kin. cbn [kin with_procs]. by rewrite Est.
  - intros Hh x s Hs Hsid. destruct (Hl x s Hs) as (t & Ht & Est & Ess & _). unfold is_kin. cbn [kin with_procs]. rewrite Est.
    apply (inv_session _ Hi Hh x t Ht). congruence.
  - apply (inv_sent _ Hi).
Qed.

Definition forked (pid child st : Z) (p : Proc) (m : Machine) : Machine :=
  {| procs := <[child := {| stat := {| parent := pid; session := session (stat p); start := st |};
                            zombie := false; frozen := false; environ := environ p |}]> (procs m);
     ever := {[(child, st)]} ∪ ever m;
     kin := if bool_decide ((pid, start (stat p)) ∈ kin m) then {[(child, st)]} ∪ kin m else kin m;
     held := held m; clock := clock m; sent := sent m |}.

Lemma forked_kin pid child st p m : kin m ⊆ kin (forked pid child st p m).
Proof. unfold forked. cbn. case_bool_decide; set_solver. Qed.

Lemma fork_ok m pid child st p :
  Inv m -> procs m !! pid = Some p -> zombie p = false -> procs m !! child = None -> 1 < child -> Inv (forked pid child st p m).
Proof.
  intros Hi Hp Hz Hn Hc. pose proof (forked_kin pid child st p m) as Hk.
  assert (Hne : forall x q, procs m !! x = Some q -> x <> child) by congruence.
  assert (Hold : forall x q, procs m !! x = Some q -> is_kin (forked pid child st p m) x q -> is_kin m x q).
  { intros x q Hx. unfold is_kin, forked. cbn [kin]. case_bool_decide; [|done].
    intros [Heq%elem_of_singleton|]%elem_of_union; [|done]. injection Heq as -> _. by destruct (Hne _ _ Hx). }
  assert (Hpar : forall x q, procs m !! x = Some q -> parent (stat q) <> child).
  { intros x q Hx E. destruct (inv_parent _ Hi x q Hx) as [|(t & Ht & _)]; [lia|]. by apply (Hne _ _ Ht). }
  assert (Hchild : is_kin m pid p -> (child, st) ∈ kin (forked pid child st p m)).
  { intros H. unfold forked. cbn [kin]. rewrite bool_decide_true by done. set_solver. }
  set (born := {| stat := {| parent := pid; session := session (stat p); start := st |}; zombie := false; frozen := false; environ := environ p |}).
  assert (Hl : forall x q, procs (forked pid child st p m) !! x = Some q -> (x = child /\ q = born) \/ procs m !! x = Some q).
  { intros x q. unfold forked. cbn [procs]. intros [[<- <-]|[_ Hq]]%lookup_insert_Some; [by left|by right]. }
  assert (Hl' : forall x q, procs m !! x = Some q -> procs (forked pid child st p m) !! x = Some q).
  { intros x q Hx. unfold forked. cbn [procs]. by rewrite lookup_insert_ne by (by apply not_eq_sym, (Hne x q)). }
  constructor.
  - intros x s. unfold forked. cbn [kin]. case_bool_decide; [|apply (inv_init _ Hi)].
    intros [Heq%elem_of_singleton|]%elem_of_union; [by injection Heq as -> _|by eapply inv_init].
  - intros x q [[-> ->]|Hq]%Hl; [right; exists p; split; [by apply Hl'|done]|].
    destruct (inv_parent _ Hi x q Hq) as [|(t & Ht & Hzt)]; [by left|right]. exists t. by split; [apply Hl'|].
  - intros x q t [[-> ->]|Hq]%Hl [[Ex ->]|Ht]%Hl.
    + cbn in Ex. subst pid. by destruct (Hne _ _ Hp).
    + cbn [born stat parent] in Ht |- *. rewrite Hp in Ht. injection Ht as <-. intros H. by apply Hchild, (Hold pid p).
    + by destruct (Hpar x q Hq).
    + intros H. apply Hk. apply (inv_down _ Hi x q t Hq Ht). by apply Hold.
  - intros Hh. destruct (inv_held _ Hi Hh) as (q & Hq & Hkq). exists q. split; [by apply Hl'|by apply Hk].
  - intros Hh x q [[-> ->]|Hq]%Hl Hs; [|apply Hk; by apply (inv_session _ Hi Hh x q)].
    apply Hchild. by apply (inv_session _ Hi Hh pid p).
  - eapply Forall_impl; [apply (inv_sent _ Hi)|]. intros x Hx. by apply Hk.
Qed.

Lemma setsid_ok m pid p :
  Inv m -> procs m !! pid = Some p ->
  Inv (with_procs (<[pid := with_stat {| parent := parent (stat p); session := pid; start := start (stat p) |} p]> (procs m)) m).
Proof.
  intros Hi Hp. set (p' := with_stat _ p).
  assert (Hl : forall x q, <[pid := p']> (procs m) !! x = Some q -> exists t, procs m !! x = Some t /\
    start (stat q) = start (stat t) /\ parent (stat q) = parent (stat t) /\ zombie q = zombie t /\ (x <> pid -> session (stat q) = session (stat t))).
  { intros x q [[<- <-]|[Hne Hq]]%lookup_insert_Some; [by exists p|by exists q]. }
  assert (Hl' : forall x t, procs m !! x = Some t -> exists q, <[pid := p']> (procs m) !! x = Some q /\
    start (stat q) = start (stat t) /\ zombie q = zombie t).
  { intros x t Ht. destruct (decide (x = pid)) as [->|Hne]; [|exists t; by rewrite lookup_insert_ne].
    exists p'. rewrite lookup_insert_eq. rewrite Hp in Ht. by injection Ht as <-. }
  constructor; cbn [procs with_procs held kin sent].
  - apply (inv_init _ Hi).
  - intros x q Hq. destruct (Hl x q Hq) as (t & Ht & _ & -> & _).
    destruct (inv_parent _ Hi x t Ht) as [|(u & Hu & Hz)]; [by left|right]. destruct (Hl' _ u Hu) as (v & Hv & _ & Ez). exists v. by rewrite Ez.
  - intros x q u Hq Hu. destruct (Hl x q Hq) as (t & Ht & Est & Epar & _). destruct (Hl _ u Hu) as (v & Hv & Esu & _).
    rewrite Epar in *. unfold is_kin. cbn [kin with_procs]. rewrite Est, Esu. by apply (inv_down _ Hi x t v).
  - intros Hh. destruct (inv_held _ Hi Hh) as (t & Ht & Hk). destruct (Hl' sid t Ht) as (q & Hq & Es & _). exists q.
    split; [done|]. unfold is_kin. cbn [kin with_procs]. by rewrite Es.
  - intros Hh x q Hq Hs. destruct (Hl x q Hq) as (t & Ht & Est & _ & _ & Ess). unfold is_kin. cbn [kin with_procs]. rewrite Est.
    destruct (decide (x = pid)) as [->|Hne]; [|apply (inv_session _ Hi Hh x t Ht); by rewrite <- Ess].
    rewrite lookup_insert_eq in Hq. injection Hq as <-. cbn in Hs. subst pid.
    destruct (inv_held _ Hi Hh) as (u & Hu & Hk). rewrite Ht in Hu. by injection Hu as <-.
  - apply (inv_sent _ Hi).
Qed.

Lemma gone_ok m pid p b :
  Inv m -> procs m !! pid = Some p -> zombie p = true -> (b = true -> held m = true /\ pid <> sid) ->
  Inv {| procs := delete pid (procs m); ever := ever m; kin := kin m; held := b; clock := clock m; sent := sent m |}.
Proof.
  intros Hi Hp Hz Hb. constructor; cbn [procs held kin sent].
  - apply (inv_init _ Hi).
  - intros x q [Hne Hq]%lookup_delete_Some. destruct (inv_parent _ Hi x q Hq) as [|(t & Ht & Hzt)]; [by left|right].
    exists t. split; [|done]. apply lookup_delete_Some. split; [congruence|done].
  - intros x q t [_ Hq]%lookup_delete_Some [_ Ht]%lookup_delete_Some. by apply (inv_down _ Hi x q t).
  - intros Hh. destruct (Hb Hh) as [Hh' Hne]. destruct (inv_held _ Hi Hh') as (t & Ht & Hk). exists t.
    split; [|done]. apply lookup_delete_Some. split; [congruence|done].
  - intros Hh x q [_ Hq]%lookup_delete_Some. destruct (Hb Hh) as [Hh' _]. by apply (inv_session _ Hi Hh').
  - apply (inv_sent _ Hi).
Qed.

Lemma kernel_ok a m : Inv m -> Inv (kernel sid a m) /\ later m (kernel sid a m).
Proof.
  intros Hi. assert (Hsame : Inv m /\ later m m) by done.
  assert (Hstay : forall ps, Inv (with_procs ps m) -> Inv (with_procs ps m) /\ later m (with_procs ps m)) by done.
  destruct a as [pid child st|pid|pid r|pid|pid stopped|pid env]; cbn [kernel].
  - destruct (alive m pid) as [p|] eqn:Ha; [|done]. apply alive_some in Ha as [Hp Hz].
    destruct (_ && _) eqn:E; [|done]. rewrite !andb_true_iff, Z.ltb_lt, !bool_decide_eq_true in E. destruct E as [[[Hc Hn] _] _].
    split; [by apply fork_ok|]. split; [apply (forked_kin pid child st p m)|done].
  - destruct (alive m pid) as [p|] eqn:Ha; [|done]. apply alive_some in Ha as [Hp Hz]. by apply Hstay, setsid_ok.
  - destruct (alive m pid) as [p|] eqn:Ha; [|done]. apply alive_some in Ha as [Hp Hz].
    destruct (_ || _) eqn:E; [|done]. apply Hstay, exit_ok; [done..|].
    apply orb_true_iff in E as [->%Z.eqb_eq|[Hne%negb_true_iff Hr]%andb_true_iff]; [by left|right]. by apply Z.eqb_neq in Hne.
  - destruct (procs m !! pid) as [p|] eqn:Hp; [|done]. destruct (_ && _) eqn:E; [|done].
    apply andb_true_iff in E as [Hz Hh%negb_true_iff]. split; [|done]. apply (gone_ok m pid p); [done..|].
    intros Hb. split; [done|]. intros ->. by rewrite Hb, Z.eqb_refl in Hh.
  - destruct (procs m !! pid) as [p|] eqn:Hp; [|done]. destruct (zombie p); [done|]. apply Hstay, unseen; [|done].
    by apply (seen_insert _ pid p).
  - destruct (alive m pid) as [p|] eqn:Ha; [|done]. apply alive_some in Ha as [Hp Hz]. apply Hstay, unseen; [|done].
    by apply (seen_insert _ pid p).
Qed.

Lemma kernels_ok l m : Inv m -> Inv (kernels sid l m) /\ later m (kernels sid l m).
Proof.
  revert m. induction l as [|a l IH]; intros m Hi; [done|]. cbn. destruct (kernel_ok a m Hi) as [Hi' Hl].
  destruct (IH _ Hi') as [Hi2 Hl2]. split; [done|by etrans].
Qed.

(** ** Scripts that reach only kin *)

Definition onlykin {T} (m : script SessionE T) (Q : T -> Machine -> Prop) (w : Machine) : Prop :=
  wp (act sid) Inv (fun _ => eq) (fun _ => later) 0 m Q w.

Definition allowed {A} (e : SessionE A) (w : Machine) : Prop :=
  match e with SignalIfSame pid st _ => (pid, st) ∈ kin w | TryWait _ => False | _ => True end.

Lemma same_some m pid st p : same m pid st = Some p -> procs m !! pid = Some p /\ start (stat p) = st.
Proof. unfold same. destruct (procs m !! pid) as [q|]; [|done]. destruct (Z.eqb_spec (start (stat q)) st); [|done]. by intros [= <-]. Qed.

Lemma delivered_ok m pid p s : Inv m -> procs m !! pid = Some p -> Inv (delivered pid p s m) /\ later m (delivered pid p s m).
Proof.
  intros Hi Hp. unfold delivered. destruct (zombie p); [done|]. destruct s; (split; [|done]).
  - apply unseen; [|done]. by apply (seen_insert _ pid p).
  - apply exit_ok; [done..|by left].
Qed.

Lemma act_ok {A} (e : SessionE A) c w :
  Inv w -> allowed e w -> Inv (act sid A 0 e c w).2 /\ later w (act sid A 0 e c w).2.
Proof.
  intros Hi Ha. destruct (kernels_ok (before c) w Hi) as [Hk Hl]. destruct e as [| |pid st s| | | | | |]; cbn [act snd allowed] in *; try done.
  - destruct (same _ pid st) as [p|] eqn:Es; [|done]. destruct (refused c); [done|]. apply same_some in Es as [Hp _].
    destruct (delivered_ok _ pid p s Hk Hp) as [Hd Hl2]. cbn [snd]. split.
    + constructor; try apply Hd. cbn. constructor; [|apply (inv_sent _ Hd)]. apply Hl2, Hl, Ha.
    + etrans; [exact Hl|exact Hl2].
  - split; [|done]. constructor; apply Hk.
Qed.

Lemma onlykin_op {A} (e : SessionE A) (Q : A -> Machine -> Prop) w :
  allowed e w -> (forall c, Inv w -> later w (act sid A 0 e c w).2 -> Inv (act sid A 0 e c w).2 -> Q (act sid A 0 e c w).1 (act sid A 0 e c w).2) ->
  onlykin (ask e) Q w.
Proof.
  intros Ha HQ. apply wp_ask. intros w' c <- Hi. destruct (act_ok e c w Hi Ha) as [Hi' Hl]. split_and!; [done..|].
  apply wp_done. intros w'' <- _. by apply HQ.
Qed.

Lemma onlykin_done {T} (t : T) (Q : T -> Machine -> Prop) w : Q t w -> onlykin (Done t) Q w.
Proof. intros H. apply wp_done. by intros w' <- _. Qed.

(** What went before is still so. *)
Lemma onlykin_frame {T} (m : script SessionE T) Q w : onlykin m Q w -> onlykin m (fun t w' => Q t w' /\ later w w') w.
Proof.
  assert (H : forall w0, later w0 w -> onlykin m Q w -> onlykin m (fun t w' => Q t w' /\ later w0 w') w); [|by apply H].
  revert w. induction m as [t|A e k IH]; intros w w0 Hl Hm; unfold onlykin in *; cbn [wp] in *.
  - intros w' <- Hi. split; [by apply Hm|done].
  - intros w' c <- Hi. specialize (Hm w c eq_refl Hi). destruct (act sid A 0 e c w) as [a w''].
    destruct Hm as (Hi' & Hg & Hk). split_and!; [done..|]. apply IH; [by etrans|done].
Qed.

Lemma onlykin_bind {T U} (m : script SessionE T) (k : T -> script SessionE U) P Q w :
  onlykin m P w -> (forall t w', later w w' -> P t w' -> onlykin (k t) Q w') -> onlykin (then_ m k) Q w.
Proof. intros Hm Hk. eapply wp_bind; [apply _|by apply onlykin_frame|]. intros t w' _ [HP Hl]. by apply Hk. Qed.

Lemma onlykin_mono {T} (m : script SessionE T) (P Q : T -> Machine -> Prop) w :
  (forall t w', P t w' -> Q t w') -> onlykin m P w -> onlykin m Q w.
Proof. apply wp_mono. Qed.

Definition anyhow {T} : T -> Machine -> Prop := fun _ _ => True.

Definition harmless {T} (m : script SessionE T) : Prop := forall w, onlykin m anyhow w.

Lemma harmless_op {A} (e : SessionE A) : (forall w, allowed e w) -> harmless (ask e).
Proof. intros He w. by apply onlykin_op. Qed.

Lemma harmless_bind {T U} (m : script SessionE T) (k : T -> script SessionE U) : harmless m -> (forall t, harmless (k t)) -> harmless (then_ m k).
Proof. intros Hm Hk w. eapply onlykin_bind; [apply Hm|]. intros t w' _ _. apply Hk. Qed.

(** Processes known to be kin. *)
Definition kin_list (l : list (Z * Z)) (w : Machine) : Prop := Forall (fun p => p ∈ kin w) l.
Definition kin_map (f : gmap Z Z) (w : Machine) : Prop := forall pid st, f !! pid = Some st -> (pid, st) ∈ kin w.

Lemma kin_list_later l w w' : later w w' -> kin_list l w -> kin_list l w'.
Proof. intros [Hl _] H. eapply Forall_impl; [exact H|]. intros p. apply Hl. Qed.

Lemma kin_map_later f w w' : later w w' -> kin_map f w -> kin_map f w'.
Proof. intros [Hl _] H pid st Hp. by apply Hl, H. Qed.

Lemma kin_entries f w : kin_map f w -> kin_list (entries f) w.
Proof.
  intros H. unfold kin_list, entries. rewrite merge_sort_Permutation. apply Forall_forall. intros [pid st] Hp.
  by apply H, elem_of_map_to_list.
Qed.

(** A listing names only kin as the session's tree, while the leader is not reaped. *)
Lemma listed_kin missed w : Inv w -> held w = true -> kin_map (members sid (listing missed w)) w.
Proof.
  intros Hi Hh pid st [Hb (s & Hs & <-)]%members_are_the_tree.
  assert (Hl : forall x t, listing missed w !! x = Some t -> exists p, procs w !! x = Some p /\ stat p = t).
  { intros x t (p & <- & [Hp _]%map_lookup_filter_Some)%lookup_fmap_Some. by exists p. }
  assert (H : forall p, procs w !! pid = Some p -> is_kin w pid p).
  { clear s Hs. induction Hb as [q t Ht Hsid|q t Ht Hb IH]; intros p Hp; destruct (Hl _ _ Ht) as (p' & Hp' & <-); rewrite Hp in Hp'; injection Hp' as <-.
    - by apply (inv_session _ Hi Hh q p).
    - assert (Hu : exists u, listing missed w !! parent (stat p) = Some u) by (destruct Hb as [? u ? _|? u ? _]; by exists u).
      destruct Hu as [u Hu]. destruct (Hl _ _ Hu) as (r & Hr & _). apply (inv_down _ Hi q p r Hp Hr). by apply IH. }
  destruct (Hl _ _ Hs) as (p & Hp & <-). by apply H.
Qed.

Lemma onlykin_processes w : held w = true -> onlykin (ask Processes) (fun found w' => kin_map (members sid found) w') w.
Proof. intros Hh. apply onlykin_op; [done|]. intros c Hi [_ Hh'] Hi'. apply listed_kin; [done|]. by rewrite Hh'. Qed.

Lemma onlykin_stop_each l w : kin_list l w -> onlykin (each (fun p => do _ <- ask (SignalIfSame p.1 p.2 SIGSTOP); Done tt) l) anyhow w.
Proof.
  revert w. induction l as [|[pid st] l IH]; intros w Hl; cbn [each]; [by apply onlykin_done|]. apply Forall_cons in Hl as [Hp Hl].
  eapply onlykin_bind; [|intros _ w' Hw _; by apply IH, (kin_list_later l w)].
  eapply onlykin_bind; [by apply (onlykin_op _ anyhow)|]. intros t w' _ _. by apply (onlykin_done _ anyhow).
Qed.

Lemma onlykin_freeze_rounds n keep f w :
  held w = true -> kin_map f w -> onlykin (freeze_rounds n sid keep f) (fun r w' => kin_map r.1 w') w.
Proof.
  revert f w. induction n as [|n IH]; intros f w Hh Hf; cbn [freeze_rounds]; [by apply onlykin_done|].
  eapply onlykin_bind; [by apply onlykin_processes|]. intros found w1 H1 Hm. set (more := filter _ _).
  assert (Hmore : kin_map more w1) by (intros pid st [Hp _]%map_lookup_filter_Some; by apply Hm).
  eapply onlykin_bind; [by apply onlykin_stop_each, kin_entries|]. intros _ w2 H2 _.
  case_bool_decide; [apply onlykin_done; eapply kin_map_later, Hf; by etrans|].
  apply IH; [destruct H1, H2; congruence|]. intros pid st [Hp|[_ Hp]]%lookup_union_Some_raw.
  - by apply H2, Hmore.
  - by apply H2, H1, Hf.
Qed.

Lemma onlykin_kill_each l w : kin_list l w -> onlykin (kill_each l) anyhow w.
Proof.
  revert w. induction l as [|[pid st] l IH]; intros w Hl; cbn [kill_each]; [by apply onlykin_done|]. apply Forall_cons in Hl as [Hp Hl].
  eapply onlykin_bind; [by apply (onlykin_op _ anyhow)|]. intros hit w1 H1 _.
  eapply onlykin_bind; [by apply IH, (kin_list_later l w)|]. intros others w2 _ _. by apply onlykin_done.
Qed.

Lemma onlykin_kill_rounds n keep killed w : held w = true -> onlykin (kill_rounds n sid keep killed) anyhow w.
Proof.
  revert killed w. induction n as [|n IH]; intros killed w Hh; cbn [kill_rounds]; [by apply onlykin_done|].
  eapply onlykin_bind with (P := fun f w' => kin_map f w').
  - eapply onlykin_bind; [by apply (onlykin_freeze_rounds FREEZE_ROUNDS keep ∅)|]. intros r w1 _ Hr. by apply onlykin_done.
  - intros f w1 H1 Hf. case_bool_decide; [by apply onlykin_done|].
    eapply onlykin_bind; [by apply onlykin_kill_each, kin_entries|]. intros hit w2 H2 _. apply IH. destruct H1, H2. congruence.
Qed.

Lemma harmless_any_running l : harmless (any_running l).
Proof.
  induction l as [|[pid st] l IHl]; cbn [any_running]; [intros w; by apply onlykin_done|].
  apply harmless_bind; [by apply harmless_op|]. intros []; [intros w; by apply onlykin_done|done].
Qed.

Lemma harmless_exited killed limit : harmless (exited_within killed limit).
Proof.
  apply harmless_bind; [by apply harmless_op|]. intros now. generalize (now + limit). clear now. intros deadline.
  induction EXIT_LOOKS as [|n IH]; cbn [exit_looks]; [intros w; by apply onlykin_done|]. apply harmless_bind; [apply harmless_any_running|].
  intros []; cbn [negb]; [|intros w; by apply onlykin_done]. apply harmless_bind; [by apply harmless_op|]. intros now.
  destruct (_ <=? _); [intros w; by apply onlykin_done|]. apply harmless_bind; [by apply harmless_op|done].
Qed.

Lemma onlykin_scan_kill keep w : held w = true -> onlykin (scan_kill sid keep) anyhow w.
Proof.
  intros Hh. unfold scan_kill. eapply onlykin_bind; [apply (onlykin_kill_rounds _ keep ∅ w Hh)|]. intros killed w1 _ _.
  eapply onlykin_bind; [apply harmless_exited|]. intros t w2 _ _. apply onlykin_done. exact I.
Qed.

Lemma harmless_is_ours s : harmless (is_ours s).
Proof. apply harmless_bind; [apply harmless_op; done|]. intros now w. apply onlykin_done. exact I. Qed.

Lemma onlykin_kill st w : held w = true -> onlykin (kill {| leader := sid; recorded := st |}) anyhow w.
Proof.
  intros Hh. unfold kill. eapply onlykin_bind; [apply harmless_is_ours|]. intros [] w1 [_ H1] _; [|apply onlykin_done; exact I].
  apply onlykin_scan_kill. congruence.
Qed.

End Reach.

(** *** What the leader's death ends *)

(** A session just begun: its leader alone in it, with no child yet, and not reaped. *)
Record just_led (sid st : Z) (m : Machine) : Prop := {
  led_pid : 1 < sid;
  led_leader : exists p, procs m !! sid = Some p /\ start (stat p) = st;
  led_alone : forall pid p, procs m !! pid = Some p -> session (stat p) = sid -> pid = sid;
  led_childless : forall pid p, procs m !! pid = Some p -> parent (stat p) <> sid;
  led_parents : forall pid p, procs m !! pid = Some p ->
    parent (stat p) <= 1 \/ exists q, procs m !! parent (stat p) = Some q /\ zombie q = false;
  led_kin : kin m = {[(sid, st)]};
  led_held : held m = true;
  led_quiet : sent m = [];
}.

Lemma just_led_inv sid st m : just_led sid st m -> Inv sid m.
Proof.
  intros [Hp (q & Hq & Hst) Halone Hchild Hpar Hk Hh Hs]. unfold is_kin.
  constructor; unfold is_kin; rewrite ?Hk, ?Hs; [|exact Hpar| | | |by constructor].
  - by intros pid s [= -> _]%elem_of_singleton.
  - intros pid p r Hpid _ [= E _]%elem_of_singleton. by destruct (Hchild pid p Hpid).
  - intros _. exists q. split; [done|]. rewrite Hst. by apply elem_of_singleton.
  - intros _ pid p Hpid E. pose proof (Halone pid p Hpid E) as ->. rewrite Hq in Hpid. injection Hpid as <-. rewrite Hst. by apply elem_of_singleton.
Qed.

(** The leader's own reaping sends nothing. *)
Lemma try_wait_sends_nothing sid pid c m :
  Inv sid m -> Forall (fun x => x.1 ∈ kin (act sid _ 0 (TryWait pid) c m).2) (sent (act sid _ 0 (TryWait pid) c m).2).
Proof.
  intros Hi. destruct (kernels_ok sid (before c) m Hi) as [Hk _]. pose proof (inv_sent _ _ Hk) as H. cbn [act].
  destruct (refused c); [exact H|]. destruct (procs _ !! pid) as [p|]; [|exact H]. destruct (zombie p); exact H.
Qed.


(** ** A quiet machine *)

(** Nobody else acts, every process is listed and every signal allowed. *)
Definition quietly (sid : Z) {T} (k : script SessionE T) (m : Machine) : T * Machine := (run (act sid) Calmly 0 k [] m).1.

Lemma run_no_choices sid {T} (k : script SessionE T) m : (run (act sid) Calmly 0 k [] m).2 = [].
Proof.
  revert m. induction k as [t|A e k IH]; intros m; [done|]. cbn [run List.hd List.tl]. destruct (act sid A 0 e Calmly m). apply IH.
Qed.

Lemma quietly_bind sid {T U} (k : script SessionE T) (f : T -> script SessionE U) m :
  quietly sid (then_ k f) m = quietly sid (f (quietly sid k m).1) (quietly sid k m).2.
Proof.
  unfold quietly. rewrite run_bind. pose proof (run_no_choices sid k m) as H.
  destruct (run (act sid) Calmly 0 k [] m) as [[t m'] cs]. cbn in H. by subst cs.
Qed.

Lemma quietly_done sid {T} (t : T) m : quietly sid (Done t) m = (t, m).
Proof. done. Qed.

Lemma quietly_ask sid {A} (e : SessionE A) m : quietly sid (ask e) m = act sid A 0 e Calmly m.
Proof. unfold quietly, ask. cbn [run List.hd]. by destruct (act sid A 0 e Calmly m). Qed.

(** Nothing a listing shows changed. *)
Definition unchanged (m m' : Machine) : Prop := forall pid, seen (procs m') pid = seen (procs m) pid.

#[export] Instance unchanged_preorder : PreOrder unchanged.
Proof. split; [by intros m pid|]. intros m1 m2 m3 H1 H2 pid. by rewrite H2. Qed.

(** An entry of a full listing. *)
Lemma listed_some m pid s : listing [] m !! pid = Some s <-> seen (procs m) pid = Some (s, false).
Proof.
  unfold listing. rewrite lookup_fmap_Some, seen_some. setoid_rewrite map_lookup_filter_Some. cbn [fst snd]. split.
  - intros (p & <- & Hp & Hz & _). by exists p.
  - intros (p & Hp & <- & Hz). exists p. split_and!; [done..|by apply not_elem_of_nil].
Qed.

Lemma listing_unchanged m m' : unchanged m m' -> listing [] m' = listing [] m.
Proof. intros H. apply map_eq. intros pid. apply option_eq. intros s. by rewrite !listed_some, H. Qed.

Lemma quiet_stops sid l m :
  unchanged m (quietly sid (each (fun p => do _ <- ask (SignalIfSame p.1 p.2 SIGSTOP); Done tt) l) m).2.
Proof.
  revert m. induction l as [|[pid st] l IH]; intros m; cbn [each]; [done|]. rewrite !quietly_bind, quietly_ask.
  etrans; [|apply IH]. cbn. unfold quietly. cbn [run fst snd]. destruct (same m pid st) as [p|] eqn:Es; [|done]. apply same_some in Es as [Hp _].
  cbn. unfold delivered. destruct (zombie p) eqn:Ez; [done|]. intros x. cbn. by apply (seen_insert _ pid p).
Qed.

Definition unfrozen (sid : Z) (f : gmap Z Z) (m : Machine) : gmap Z Z :=
  filter (fun p : Z * Z => f !! p.1 = None /\ true = true) (members sid (listing [] m)).

Lemma quiet_round leader sid n f m :
  exists m1, unchanged m m1 /\
  quietly leader (freeze_rounds (S n) sid (fun _ => true) f) m =
  if bool_decide (unfrozen sid f m = ∅) then ((f, true), m1)
  else quietly leader (freeze_rounds n sid (fun _ => true) (unfrozen sid f m ∪ f)) m1.
Proof.
  eexists. split; [apply (quiet_stops leader (entries (unfrozen sid f m)))|]. cbn [freeze_rounds].
  rewrite quietly_bind, quietly_ask, quietly_bind. cbn [act fst snd kernels fold_left before missed Calmly].
  fold (unfrozen sid f m). by case_bool_decide.
Qed.

(** A round to find the tree and one to find no more. *)
Lemma quiet_freeze leader sid m :
  exists m', unchanged m m' /\ quietly leader (freeze sid (fun _ => true)) m = (members sid (listing [] m), m').
Proof.
  set (M := members sid (listing [] m)).
  assert (E0 : unfrozen sid ∅ m = M) by (apply map_filter_id; done).
  assert (E1 : forall m1, unchanged m m1 -> unfrozen sid (M ∪ ∅) m1 = ∅).
  { intros m1 H1. unfold unfrozen. rewrite (listing_unchanged m m1 H1). fold M. apply map_empty. intros pid. apply eq_None_not_Some.
    intros [st [Hp [Hn _]]%map_lookup_filter_Some]. cbn [fst] in Hn. by rewrite map_union_empty, Hp in Hn. }
  unfold freeze. rewrite quietly_bind. change FREEZE_ROUNDS with (S (S 6)).
  destruct (quiet_round leader sid (S 6) ∅ m) as (m1 & H1 & ->). rewrite E0. case_bool_decide as EM; [exists m1; by rewrite EM|].
  destruct (quiet_round leader sid 6 (M ∪ ∅) m1) as (m2 & H2 & ->). rewrite E1, bool_decide_eq_true_2 by done.
  exists m2. split; [by etrans|]. unfold quietly. cbn [run fst snd]. by rewrite map_union_empty.
Qed.

(** What a round of kills leaves: processes keep their sessions and starts, and the dead stay dead. *)
Definition killed_into (m m' : Machine) : Prop :=
  forall pid p', procs m' !! pid = Some p' -> exists p, procs m !! pid = Some p /\
    start (stat p') = start (stat p) /\ session (stat p') = session (stat p) /\ (zombie p = true -> zombie p' = true).

Definition same_pids (m m' : Machine) : Prop := forall pid, is_Some (procs m !! pid) -> is_Some (procs m' !! pid).

Definition withered (m m' : Machine) : Prop := killed_into m m' /\ same_pids m m'.

#[export] Instance withered_preorder : PreOrder withered.
Proof.
  split.
  - intros m. split; [intros pid p Hp; by exists p|by intros pid].
  - intros m1 m2 m3 [H1 S1] [H2 S2]. split; [|intros pid Hp; by apply S2, S1]. intros pid p3 H3.
    destruct (H2 _ _ H3) as (p2 & Hp2 & E1 & E2 & Hz2). destruct (H1 _ _ Hp2) as (p1 & Hp1 & E3 & E4 & Hz1).
    exists p1. split_and!; [done|congruence..|]. auto.
Qed.

Lemma unchanged_withered m m' : unchanged m m' -> withered m m'.
Proof.
  intros H. split.
  - intros pid p' Hp'. destruct (seen_lookup _ _ _ _ H Hp') as (p & Hp & Es & Ez). exists p. by rewrite Es, Ez.
  - intros pid [p Hp]. assert (H' : forall x, seen (procs m) x = seen (procs m') x) by (intros x; by rewrite H).
    destruct (seen_lookup _ _ _ _ H' Hp) as (q & Hq & _). by exists q.
Qed.

(** A process of the table that is dead. *)
Definition dead (m : Machine) (pid st : Z) : Prop := exists p, procs m !! pid = Some p /\ zombie p = true /\ start (stat p) = st.

Lemma dead_withered m m' pid st : withered m m' -> dead m pid st -> dead m' pid st.
Proof.
  intros [Hk Hs] (p & Hp & Hz & Est). destruct (Hs pid) as [p' Hp']; [by exists p|]. destruct (Hk _ _ Hp') as (q & Hq & E1 & _ & Ez).
  rewrite Hp in Hq. injection Hq as <-. exists p'. split_and!; [done|by apply Ez|congruence].
Qed.

Lemma delivered_withers pid p m : procs m !! pid = Some p -> withered m (delivered pid p SIGKILL m) /\ dead (delivered pid p SIGKILL m) pid (start (stat p)).
Proof.
  intros Hp. unfold delivered. destruct (zombie p) eqn:Ez; [split; [done|by exists p]|]. unfold exited.
  split; [split|].
  - intros x q Hq. cbn [procs with_procs] in Hq. apply lookup_fmap_Some in Hq as (t & <- & [[<- <-]|[Hne Ht]]%lookup_insert_Some).
    + exists p. split; [done|]. cbn [stat]. by destruct (_ =? _).
    + exists t. split; [done|]. by destruct (_ =? _).
  - intros x [t Ht]. cbn [procs with_procs]. rewrite lookup_fmap. apply fmap_is_Some. destruct (decide (x = pid)) as [->|Hne].
    + rewrite lookup_insert_eq. by eexists.
    + rewrite lookup_insert_ne by done. by exists t.
  - unfold dead. cbn [procs with_procs]. rewrite lookup_fmap, lookup_insert_eq. eexists. split; [done|]. cbn [stat]. by destruct (_ =? _).
Qed.

(** [l] names processes as they are. *)
Definition named (m : Machine) (l : list (Z * Z)) : Prop := Forall (fun x => exists p, procs m !! x.1 = Some p /\ start (stat p) = x.2) l.

Lemma named_withered m m' l : withered m m' -> named m l -> named m' l.
Proof.
  intros [Hk Hs] H. eapply Forall_impl; [exact H|]. intros [pid st] (p & Hp & Est). cbn [fst snd] in *.
  destruct (Hs pid) as [p' Hp']; [by exists p|]. destruct (Hk _ _ Hp') as (q & Hq & E1 & _). rewrite Hp in Hq. injection Hq as <-.
  exists p'. split; [done|congruence].
Qed.

Lemma quiet_kills sid l m :
  named m l ->
  withered m (quietly sid (kill_each l) m).2 /\ Forall (fun x => dead (quietly sid (kill_each l) m).2 x.1 x.2) l /\
  ((quietly sid (kill_each l) m).1 = ∅ <-> l = []).
Proof.
  revert m. induction l as [|[pid st] l IH]; intros m Hl; cbn [kill_each]; [done|].
  apply Forall_cons in Hl as [(p & Hp & Est) Hl]. cbn [fst snd] in *. rewrite !quietly_bind, quietly_ask. cbn [act kernels fold_left before Calmly].
  assert (Es : same m pid st = Some p) by (unfold same; by rewrite Hp, Est, Z.eqb_refl). rewrite Es. cbn [refused fst snd].
  destruct (delivered_withers pid p m Hp) as [Hw Hd]. set (m1 := note_sent _ _).
  assert (Hw1 : withered m m1) by exact Hw. destruct (IH m1 (named_withered _ _ _ Hw1 Hl)) as (Hw2 & Hds & _).
  unfold quietly at 1 3 5. cbn [run fst snd]. split_and!; [by etrans| |].
  - apply Forall_cons. split; [|exact Hds]. eapply dead_withered; [exact Hw2|]. rewrite <- Est. exact Hd.
  - split; [|done]. intros E. by destruct (insert_non_empty (quietly sid (kill_each l) m1).1 pid st).
Qed.

Lemma elem_entries f pid st : (pid, st) ∈ entries f <-> f !! pid = Some st.
Proof. unfold entries. rewrite merge_sort_Permutation. apply elem_of_map_to_list. Qed.

Lemma entries_empty f : entries f = [] <-> f = ∅.
Proof.
  split; [|by intros ->]. intros E. apply map_empty. intros pid. apply eq_None_not_Some. intros [st Hp].
  apply elem_entries in Hp. rewrite E in Hp. by apply elem_of_nil in Hp.
Qed.

(** A tree all of whose processes died is no longer listed. *)
Lemma nothing_left sid m m' :
  killed_into m m' -> (forall pid st, members sid (listing [] m) !! pid = Some st -> dead m' pid st) -> members sid (listing [] m') = ∅.
Proof.
  intros Hk Hd. apply map_empty. intros pid. apply eq_None_not_Some. intros [st [Hb _]%members_are_the_tree].
  induction Hb as [q s Hs Hsid|]; [|done]. apply listed_some, seen_some in Hs as (p' & Hp' & Es & Hz).
  destruct (Hk _ _ Hp') as (p & Hp & E1 & E2 & Hz'). assert (Hzp : zombie p = false) by (destruct (zombie p); [by rewrite Hz' in Hz|done]).
  destruct (Hd q (start (stat p))) as (r & Hr & Hzr & _); [|congruence].
  assert (Hl : listing [] m !! q = Some (stat p)) by (apply listed_some, seen_some; by exists p).
  apply members_are_the_tree. split; [|by exists (stat p)]. apply (of_session _ _ q (stat p) Hl). congruence.
Qed.

Lemma quiet_kill_rounds leader sid n m :
  let M := members sid (listing [] m) in
  exists hit m', quietly leader (kill_rounds (S (S n)) sid (fun _ => true) ∅) m = (hit, m') /\
    withered m m' /\ (forall pid st, M !! pid = Some st -> dead m' pid st) /\
    members sid (listing [] m') = ∅ /\ (hit = ∅ <-> M = ∅).
Proof.
  intros M. cbn [kill_rounds]. rewrite quietly_bind. destruct (quiet_freeze leader sid m) as (m1 & H1 & ->). cbn [fst snd].
  assert (E1 : members sid (listing [] m1) = M) by (by rewrite (listing_unchanged m m1 H1)). fold M.
  case_bool_decide as EM; [exists ∅, m1; rewrite E1, EM; split_and!; [done|by apply unchanged_withered|by intros ?? ?%lookup_empty_Some|done..]|].
  assert (Hn : named m1 (entries M)).
  { apply Forall_forall. intros [pid st] Hp%elem_entries. rewrite <- E1 in Hp. cbn [fst snd].
    apply members_are_the_tree in Hp as [_ (s & (p & Hp & <- & _)%listed_some%seen_some & <-)]. by exists p. }
  rewrite quietly_bind. destruct (quiet_kills leader (entries M) m1 Hn) as (Hw & Hd & Hhit).
  set (r := quietly leader (kill_each (entries M)) m1) in *. rewrite quietly_bind.
  assert (Hd' : forall pid st, M !! pid = Some st -> dead r.2 pid st).
  { intros pid st Hp%elem_entries. rewrite Forall_forall in Hd. by apply (Hd _ Hp). }
  assert (E2 : members sid (listing [] r.2) = ∅) by (apply (nothing_left sid m1); [apply Hw|by rewrite E1]).
  destruct (quiet_freeze leader sid r.2) as (m3 & H3 & ->). rewrite E2. cbn [fst snd]. rewrite bool_decide_eq_true_2 by done.
  exists r.1, m3. pose proof (unchanged_withered _ _ H3) as Hw3. split_and!.
  - unfold quietly. cbn [run fst]. by rewrite map_union_empty.
  - etrans; [by apply unchanged_withered|]. by etrans.
  - intros pid st Hp. eapply dead_withered; [exact Hw3|by apply Hd'].
  - by rewrite (listing_unchanged _ _ H3).
  - by rewrite Hhit, entries_empty.
Qed.

(** Waiting for the killed touches nobody. *)
Lemma quiet_any_running sid l m : (quietly sid (any_running l) m).2 = m.
Proof.
  induction l as [|p l IH]; [done|]. cbn [any_running]. rewrite quietly_bind, quietly_ask. cbn [act fst snd kernels fold_left before Calmly].
  by destruct (match same m p.1 p.2 with Some _ => _ | None => _ end).
Qed.

Lemma quiet_exit_looks sid n l deadline m : procs (quietly sid (exit_looks n l deadline) m).2 = procs m.
Proof.
  revert m. induction n as [|n IH]; intros m; [done|]. cbn [exit_looks]. rewrite quietly_bind, quiet_any_running.
  destruct (quietly sid (any_running l) m).1; [|done]. cbn [negb]. rewrite quietly_bind, quietly_ask. cbn [act fst snd kernels fold_left before Calmly].
  destruct (_ <=? _); [done|]. rewrite quietly_bind, quietly_ask, IH. done.
Qed.

Lemma quiet_exited sid l limit m : procs (quietly sid (exited_within l limit) m).2 = procs m.
Proof. unfold exited_within. by rewrite quietly_bind, quietly_ask, quiet_exit_looks. Qed.

(** What a kill makes of a quiet machine: each process of the tree is dead and the tree is
    empty, and it says whether there was any. *)
Definition tree_ended (sid : Z) (m : Machine) (hit : bool) (m' : Machine) : Prop :=
  (forall pid s, members sid (listing [] m) !! pid = Some s -> dead m' pid s) /\
  members sid (listing [] m') = ∅ /\ (hit = false <-> members sid (listing [] m) = ∅).

Lemma quiet_scan_kill leader sid m :
  let '(hit, m') := quietly leader (scan_kill sid (fun _ => true)) m in withered m m' /\ tree_ended sid m hit m'.
Proof.
  destruct (quietly leader (scan_kill _ _) m) as [hit m'] eqn:E. unfold scan_kill in E. change KILL_ROUNDS with (S (S 2)) in E.
  rewrite quietly_bind in E. destruct (quiet_kill_rounds leader sid 2 m) as (killed & m1 & E1 & Hw & Hd & Hm & Hhit).
  rewrite E1 in E. cbn [fst snd] in E. rewrite quietly_bind in E.
  pose proof (quiet_exited leader (entries killed) EXIT_LIMIT m1) as Ep. injection E as <- Em. rewrite Em in Ep.
  assert (Hu : unchanged m1 m') by (intros x; by rewrite Ep). split; [etrans; [exact Hw|by apply unchanged_withered]|]. split_and!.
  - intros pid s Hp. eapply dead_withered; [by apply unchanged_withered|by apply Hd].
  - by rewrite (listing_unchanged _ _ Hu).
  - rewrite bool_decide_eq_false, <- Hhit. split; [apply dec_stable|tauto].
Qed.

(** The leader's pid is the leader's, or nobody's. *)
Definition not_another (sid st : Z) (m : Machine) : bool :=
  match procs m !! sid with Some p => start (stat p) =? st | None => true end.

Lemma quiet_is_ours leader sid st m : quietly leader (is_ours (noted sid st)) m = (not_another sid st m, m).
Proof.
  unfold is_ours, not_another. rewrite quietly_bind, quietly_ask. cbn [act fst snd kernels fold_left before refused Calmly noted Session.leader recorded].
  destruct (procs m !! sid); [|done]. unfold quietly. cbn. by rewrite Z.eqb_sym.
Qed.

(** On a machine where nobody else acts, killing a session leaves each process of its tree
    dead and its tree empty, and says whether there was any; a session whose leader's pid is
    now another process's is left alone. *)
Theorem a_quiet_kill_ends_the_tree leader sid st m :
  let '(hit, m') := quietly leader (kill (noted sid st)) m in
  if not_another sid st m then tree_ended sid m hit m' else hit = false /\ m' = m.
Proof.
  unfold kill. rewrite quietly_bind, quiet_is_ours. cbn [fst snd noted Session.leader]. destruct (not_another sid st m); [|done].
  pose proof (quiet_scan_kill leader sid m) as H. destruct (quietly leader (scan_kill _ _) m). apply H.
Qed.

(** ** The wait for the killed *)

Lemma kernel_clock sid a m : clock (kernel sid a m) = clock m.
Proof. destruct a; cbn; repeat case_match; done. Qed.

Lemma kernels_clock sid l m : clock (kernels sid l m) = clock m.
Proof. revert m. induction l as [|a l IH]; intros m; [done|]. unfold kernels in *. cbn [fold_left]. by rewrite IH, kernel_clock. Qed.

Lemma any_running_clock sid l cs m :
  clock (run (act sid) Calmly 0 (any_running l) cs m).1.2 = clock m.
Proof.
  revert cs m. induction l as [|p l IH]; intros cs m; [done|]. cbn [any_running]. rewrite run_bind. unfold ask. cbn [run act].
  destruct (match same _ _ _ with Some _ => _ | None => _ end); cbn [run fst snd]; [by rewrite kernels_clock|by rewrite IH, kernels_clock].
Qed.

Lemma exit_looks_end sid n l deadline cs m :
  deadline <= clock m + Z.of_nat n * EXIT_POLL ->
  exists b, (run (act sid) Calmly 0 (exit_looks (S n) l deadline) cs m).1.1 = Some b.
Proof.
  revert cs m. induction n as [|n IH]; intros cs m Hd; cbn [exit_looks]; rewrite run_bind;
    pose proof (any_running_clock sid l cs m) as Hc; destruct (run _ _ _ (any_running l) cs m) as [[b m1] cs1]; cbn [fst snd] in Hc;
    (destruct b; [|by eexists]); cbn [negb]; unfold ask; cbn [run then_ act]; rewrite kernels_clock, Hc.
  - rewrite (proj2 (Z.leb_le _ _)) by lia. by eexists.
  - destruct (_ <=? _); [by eexists|]. cbn [run]. apply IH. cbn [clock]. rewrite !kernels_clock, Hc. unfold EXIT_POLL in *. lia.
Qed.

(** Waiting for the killed to exit comes to an end, however they and the clock behave. *)
Theorem waiting_on_the_killed_ends sid killed cs m :
  exists b, (run (act sid) Calmly 0 (exited_within killed EXIT_LIMIT) cs m).1.1 = Some b.
Proof.
  unfold exited_within. rewrite run_bind. unfold ask. cbn [run act]. change EXIT_LOOKS with (S (Z.to_nat (EXIT_LIMIT / EXIT_POLL + 1))).
  apply exit_looks_end. vm_compute (Z.of_nat _). rewrite kernels_clock. unfold EXIT_LIMIT, EXIT_POLL. lia.
Qed.

(** ** A server that started a worker, which started one in a session of its own *)

Module Serving.

Definition proc (parent session start : Z) : Proc :=
  {| stat := {| parent := parent; session := session; start := start |}; zombie := false; frozen := false; environ := [] |}.

Definition machine : Machine :=
  {| procs := {[1 := proc 0 1 1; 10 := proc 1 10 2; 20 := proc 10 20 3]}; ever := {[(1, 1); (10, 2); (20, 3)]};
     kin := {[(20, 3)]}; held := true; clock := 0; sent := [] |}.

(** The server dies; one beside it is pipette's other child. *)
Definition goings_on : list Choice :=
  [{| before := [Fork 20 21 4; Fork 21 22 5; Setsid 22; Fork 10 50 6; Exit 20 1]; missed := []; refused := false; late := 0 |}].

Definition after : Machine := (run (act 20) Calmly 0 (reap {| leader := 20; recorded := Some 3 |}) goings_on machine).1.2.

Lemma machine_led : just_led 20 3 machine.
Proof.
  assert (H : forall (P : Z -> Proc -> Prop), P 1 (proc 0 1 1) -> P 10 (proc 1 10 2) -> P 20 (proc 10 20 3) ->
    forall pid p, procs machine !! pid = Some p -> P pid p).
  { intros P H1 H2 H3 pid p. cbn [procs machine].
    intros [[<- <-]|[_ [[<- <-]|[_ [<- <-]%lookup_singleton_Some]]%lookup_insert_Some]]%lookup_insert_Some; done. }
  constructor; try done.
  - by exists (proc 10 20 3).
  - by apply (H (fun pid p => session (stat p) = 20 -> pid = 20)).
  - by apply (H (fun _ p => parent (stat p) <> 20)).
  - apply (H (fun _ p => parent (stat p) <= 1 \/ exists q, procs machine !! parent (stat p) = Some q /\ zombie q = false)); [left; cbn; lia|left; cbn; lia|right; by exists (proc 1 10 2)].
Qed.


End Serving.
