(* ===== verification/Orphans.v ===== *)
(** * Sessions a dead pipette process left running ([pipette-subprocess], [orphans.rs])

    Each start notes the session it made in a file whose name says who started it and which
    process leads it. Every later start sweeps the notes: those of a starter that is gone
    name sessions to kill, unless the leader's pid went to another process, or went to nobody
    and no process of the session carries the start's token. *)

From Stdlib Require Import ZArith Lia String.
From stdpp Require Import prelude list fin_maps gmap.
From S2P Require Import Prelude Str Script Session.

Local Open Scope Z_scope.
Local Open Scope script_scope.

(** ** Notes *)

Record Note := { owner : Z; owner_start : Z; pid : Z; start : Z }.

Definition DASH : Z := 45.

Definition file_name (n : Note) : str :=
  show_uint (owner n) ++ [DASH] ++ show_uint (owner_start n) ++ [DASH] ++ show_uint (pid n) ++ [DASH] ++ show_uint (start n).

(** A pid to signal: neither the killer's own group nor every process. *)
Definition signalable (pid : Z) : bool := (1 <? pid) && (pid <=? 2 ^ 31 - 1).

Definition parse (name : str) : option Note :=
  let parts := split_at DASH [] name in
  owner ← parts !! 0%nat ≫= u32_of;
  owner_start ← parts !! 1%nat ≫= u64_of;
  pid ← parts !! 2%nat ≫= u32_of;
  start ← parts !! 3%nat ≫= u64_of;
  if bool_decide (parts !! 4%nat = None) && signalable pid
  then Some {| owner := owner; owner_start := owner_start; pid := pid; start := start |} else None.

(** Numbers of their widths. *)
Definition note_fits (n : Note) : Prop :=
  0 <= owner n < 2 ^ 32 /\ 0 <= owner_start n < 2 ^ 64 /\ 1 < pid n < 2 ^ 31 /\ 0 <= start n < 2 ^ 64.

Lemma split_at_whole sep acc a : sep ∉ a -> split_at sep acc a = [rev acc ++ a].
Proof.
  revert acc. induction a as [|c a IH]; intros acc Ha; cbn [split_at]; [by rewrite app_nil_r|]. apply not_elem_of_cons in Ha as [Hc Ha].
  rewrite (proj2 (Z.eqb_neq _ _)) by done. rewrite IH by done. cbn [rev]. by rewrite <- app_assoc.
Qed.

Lemma split_at_first sep acc a r : sep ∉ a -> split_at sep acc (a ++ [sep] ++ r) = (rev acc ++ a) :: split_at sep [] r.
Proof.
  revert acc. induction a as [|c a IH]; intros acc Ha; cbn [app split_at]; [by rewrite Z.eqb_refl, app_nil_r|].
  apply not_elem_of_cons in Ha as [Hc Ha]. rewrite (proj2 (Z.eqb_neq _ _)) by done. rewrite IH by done. cbn [rev]. by rewrite <- app_assoc.
Qed.

Lemma digits_dashless n : DASH ∉ show_uint n.
Proof. intros H. pose proof (show_uint_digits n) as Hd. rewrite Forall_forall in Hd. by specialize (Hd _ H). Qed.

(** A note's name reads back as the note. *)
Theorem a_note_is_read_from_its_name n : note_fits n -> parse (file_name n) = Some n.
Proof.
  intros (Ho & Hos & Hp & Hs). unfold parse, file_name.
  rewrite !split_at_first, split_at_whole by apply digits_dashless. cbn [rev app lookup list_lookup]. unfold u32_of, u64_of. cbn [mbind option_bind].
  rewrite !parse_uint_show by lia. cbn. unfold signalable.
  rewrite (proj2 (Z.ltb_lt _ _)), (proj2 (Z.leb_le _ _)) by lia. by destruct n.
Qed.

(** Whatever a note is called, the process it names is one process. *)
Lemma a_note_names_a_process name n : parse name = Some n -> 1 < pid n < 2 ^ 31.
Proof.
  unfold parse. intros (o & _ & (os & _ & (p & _ & (s & _ & H)%bind_Some)%bind_Some)%bind_Some)%bind_Some.
  destruct (_ && _) eqn:E; [|done]. injection H as <-. cbn. apply andb_true_iff in E as [_ E]. unfold signalable in E. lia.
Qed.

(** ** Owners *)

Definition owner_of (pid : Z) : script SessionE str :=
  do now <- ask (Started pid); Done (show_uint pid ++ [DASH] ++ show_uint (default 0 now)).

Definition owner_runs (owner : str) : script SessionE bool :=
  match split_once DASH owner with
  | None => Done false
  | Some (pid, start) =>
      match u32_of pid with
      | None => Done false
      | Some pid =>
          do now <- ask (Started pid);
          Done (match now, u64_of start with Some now, Some start => now =? start | _, _ => false end)
      end
  end.

(** ** The sweep *)

(** A note's file as the directory lists it: its name, when it is UTF-8, and its contents,
    when they can be read. *)
Record Entry := { name : option str; contents : option str }.

(** Kills what one note names; [None] when its owner still runs, [Some] of whether there
    was anything to kill once it is to be removed. *)
Definition reap_note (n : Note) (contents : str) : script SessionE (option bool) :=
  do now <- ask (Started (owner n));
  if bool_decide (now = Some (owner_start n)) then Done None
  else
    let token := snd <$> split_once 10 contents in
    do hit <- kill_noted (noted (pid n) (start n)) token;
    Done (Some hit).

(** The notes removed, by name. *)
Fixpoint reap_in (entries : list Entry) : script SessionE (list str) :=
  match entries with
  | [] => Done []
  | e :: entries =>
      match name e, name e ≫= parse with
      | Some file, Some n =>
          do swept <- reap_note n (default [] (contents e));
          do others <- reap_in entries;
          Done (match swept with Some _ => file :: others | None => others end)
      | _, _ => reap_in entries
      end
  end.

(** ** What becomes of a noted session, on a quiet machine *)

(** A live process of the session carries the token. *)
Definition carries (sid : Z) (token : str) (m : Machine) : Prop :=
  exists pid p, procs m !! pid = Some p /\ zombie p = false /\ session (stat p) = sid /\
    TOKEN_VAR ++ [61] ++ token ∈ split_at 0 [] (environ p).

Lemma quiet_any_carries leader entry l m :
  exists b, quietly leader (any_carries entry l) m = (b, m) /\
  (b = true <-> exists pid p, pid ∈ l /\ procs m !! pid = Some p /\ entry ∈ split_at 0 [] (environ p)).
Proof.
  induction l as [|pid l (b & E & Hb)]; cbn [any_carries].
  - exists false. split; [done|]. split; [done|]. by intros (x & p & H%not_elem_of_nil & _).
  - rewrite quietly_bind, quietly_ask. cbn [act fst snd kernels fold_left before refused Calmly].
    destruct (procs m !! pid) as [p|] eqn:Hp; cbn [fmap option_fmap option_map].
    + case_bool_decide as Hin.
      * exists true. split; [done|]. split; [|done]. intros _. exists pid, p. split; [by left|done].
      * exists b. split; [done|]. rewrite Hb. split; intros (x & q & Hx & Hq & He); exists x, q; (split; [|done]); [by right|].
        apply elem_of_cons in Hx as [->|]; [|done]. rewrite Hp in Hq. by injection Hq as <-.
    + exists b. split; [done|]. rewrite Hb. split; intros (x & q & Hx & Hq & He); exists x, q; (split; [|done]); [by right|].
      apply elem_of_cons in Hx as [->|]; [|done]. by rewrite Hp in Hq.
Qed.

Lemma quiet_carried leader sid token m :
  exists b, quietly leader (carried sid token) m = (b, m) /\ (b = true <-> carries sid token m).
Proof.
  unfold carried. rewrite quietly_bind, quietly_ask. cbn [act fst snd kernels fold_left before missed Calmly].
  destruct (quiet_any_carries leader (TOKEN_VAR ++ [61] ++ token) (map fst (entries (in_session sid (listing [] m)))) m) as (b & -> & Hb).
  exists b. split; [done|]. rewrite Hb. unfold carries.
  assert (Hl : forall pid p, procs m !! pid = Some p ->
    pid ∈ map fst (entries (in_session sid (listing [] m))) <-> zombie p = false /\ session (stat p) = sid).
  { intros pid p Hp. rewrite list_elem_of_fmap. split.
    - intros ([x st] & -> & Hx). cbn [fst] in *. apply elem_entries in Hx. apply lookup_fmap_Some in Hx as (s & <- & [Hs Hsid]%map_lookup_filter_Some). apply listed_some, seen_some in Hs as (q & Hq & <- & Hz).
      rewrite Hp in Hq. by injection Hq as <-.
    - intros [Hz Hs]. exists (pid, Session.start (stat p)). split; [done|]. apply elem_entries, lookup_fmap_Some. exists (stat p). split; [done|].
      apply map_lookup_filter_Some. split; [|done]. apply listed_some, seen_some. by exists p. }
  split; intros (x & p & H); exists x, p; [destruct H as (Hx & Hp & He)|destruct H as (Hp & Hz & Hs & He)]; specialize (Hl x p Hp); tauto.
Qed.

(** C22: A noted session is killed, on a quiet machine, exactly when its leader is still there,
    or is gone and one of its processes carries the start's token; a session whose id may
    by now be another's is left alone. *)
Theorem a_noted_session_is_killed_only_if_it_is_the_one leader sid st token m :
  let '(hit, m') := quietly leader (kill_noted (noted sid st) token) m in
  match procs m !! sid with
  | Some p => if Session.start (stat p) =? st then tree_ended sid m hit m' else hit = false /\ m' = m
  | None =>
      (exists t, token = Some t /\ carries sid t m) /\ tree_ended sid m hit m' \/
      ~ (exists t, token = Some t /\ carries sid t m) /\ hit = false /\ m' = m
  end.
Proof.
  unfold kill_noted. rewrite quietly_bind, quietly_ask. cbn [act fst snd kernels fold_left before refused Calmly noted Session.leader recorded].
  pose proof (quiet_is_ours leader sid st m) as Ho. unfold not_another, noted in *. pose proof (quiet_scan_kill leader sid m) as Hk.
  destruct (procs m !! sid) as [p|] eqn:Hp; cbn [fmap option_fmap option_map compose].
  - destruct (Z.eqb_spec (Session.start (stat p)) st) as [<-|Hne].
    + rewrite bool_decide_eq_true_2 by (split; [by eexists|done]). unfold kill. rewrite quietly_bind, Ho. cbn [fst snd Session.leader].
      destruct (quietly leader (scan_kill _ _) m). apply Hk.
    + rewrite bool_decide_eq_false_2 by (intros [_ [= E]]; by rewrite E in Hne). destruct token as [t|]; [|done].
      rewrite quietly_bind, Ho. done.
  - rewrite bool_decide_eq_false_2 by (by intros [_ ?]). destruct token as [t|]; [|right; split_and!; [by intros (? & ? & _)|done..]].
    rewrite quietly_bind, Ho. cbn [fst snd negb]. rewrite quietly_bind. destruct (quiet_carried leader sid t m) as (b & -> & Hb). cbn [fst snd].
    destruct b.
    + destruct (quietly leader (scan_kill _ _) m). left. split; [exists t; by rewrite <- Hb|apply Hk].
    + right. split; [|done]. intros (t' & [= <-] & Hc). by rewrite <- Hb in Hc.
Qed.

(** ** What a sweep removes *)

(** A kill keeps every process in the table, with its start. *)
Lemma withered_starts m m' x : withered m m' -> Session.start ∘ stat <$> procs m' !! x = Session.start ∘ stat <$> procs m !! x.
Proof.
  intros [Hk Hs]. destruct (procs m' !! x) as [p'|] eqn:Hp'.
  - destruct (Hk _ _ Hp') as (p & -> & E & _). cbn. by rewrite E.
  - destruct (procs m !! x) as [p|] eqn:Hp; [|done]. destruct (Hs x) as [q Hq]; [by exists p|]. congruence.
Qed.

Lemma quiet_kill_noted leader sid st token m : withered m (quietly leader (kill_noted (noted sid st) token) m).2.
Proof.
  pose proof (quiet_scan_kill leader sid m) as Hk. unfold kill_noted. rewrite quietly_bind, quietly_ask.
  cbn [act fst snd kernels fold_left before refused Calmly]. assert (Ho := quiet_is_ours leader sid st m).
  case_bool_decide.
  - unfold kill. rewrite quietly_bind, Ho. cbn [fst snd]. destruct (not_another _ _ _); [|done]. cbn [noted Session.leader].
    destruct (quietly leader (scan_kill _ _) m). apply Hk.
  - destruct token as [t|]; [|done]. rewrite quietly_bind, Ho. cbn [fst snd]. destruct (not_another _ _ _); cbn [negb]; [|done].
    rewrite quietly_bind. destruct (quiet_carried leader (Session.leader (noted sid st)) t m) as (b & -> & _). cbn [fst snd noted Session.leader].
    destruct b; [|done]. destruct (quietly leader (scan_kill _ _) m). apply Hk.
Qed.

(** Who started it is gone, or its pid is another process's. *)
Definition orphaned (m : Machine) (n : Note) : bool :=
  bool_decide (Session.start ∘ stat <$> procs m !! owner n <> Some (owner_start n)).

(** The names a sweep should remove. *)
Definition orphans (m : Machine) (l : list Entry) : list str :=
  omap (fun e => file ← name e; n ← parse file; if orphaned m n then Some file else None) l.

Lemma orphans_withered m m' l : withered m m' -> orphans m' l = orphans m l.
Proof.
  intros H. assert (Ho : forall n, orphaned m' n = orphaned m n) by (intros n; unfold orphaned; by rewrite (withered_starts m m')).
  induction l as [|e l IH]; [done|]. unfold orphans in *. cbn [omap list_omap]. rewrite IH. destruct (name e) as [file|]; [|done].
  cbn [mbind option_bind]. destruct (parse file) as [n|]; [|done]. cbn [mbind option_bind]. by rewrite Ho.
Qed.

Lemma quiet_reap_note leader n c m :
  withered m (quietly leader (reap_note n c) m).2 /\
  match (quietly leader (reap_note n c) m).1 with Some _ => orphaned m n = true | None => orphaned m n = false end.
Proof.
  unfold reap_note, orphaned. rewrite quietly_bind, quietly_ask. cbn [act fst snd kernels fold_left before refused Calmly].
  case_bool_decide as E; [split; [done|]; by rewrite bool_decide_eq_false_2 by (by intros [])|].
  rewrite quietly_bind. set (r := quietly leader (kill_noted _ _) m). assert (Hw : withered m r.2) by apply quiet_kill_noted.
  unfold quietly. cbn [run fst snd]. split; [exact Hw|]. by rewrite bool_decide_eq_true_2.
Qed.

(** A sweep of a quiet machine removes exactly the notes whose starter is gone, each once
    what it names was looked for; those of a live one stay, whatever the sweep killed. *)
Theorem a_sweep_removes_what_the_dead_left leader l m :
  (quietly leader (reap_in l) m).1 = orphans m l /\ withered m (quietly leader (reap_in l) m).2.
Proof.
  revert m. induction l as [|e l IH]; intros m; [done|]. unfold orphans. cbn [reap_in omap list_omap]. fold (orphans m l).
  destruct (name e) as [file|]; cbn [mbind option_bind]; [|apply IH]. destruct (parse file) as [n|]; cbn [mbind option_bind]; [|apply IH].
  rewrite !quietly_bind. destruct (quiet_reap_note leader n (default [] (contents e)) m) as [Hw Ho].
  destruct (quietly leader (reap_note _ _) m) as [swept m1]. cbn [fst snd] in *. destruct (IH m1) as [E Hw'].
  rewrite !quietly_done. cbn [fst snd]. rewrite E, (orphans_withered m m1 l Hw). split; [|by etrans].
  by destruct swept; rewrite Ho.
Qed.
