(* ===== verification/SshAgent.v ===== *)
(** * SSH agents and the keys of a machine ([crates/pipette-ssh], [crates/pipette-ctl/src/system_keys.rs])

    The agent's protocol over one socket ([agent.rs]), the inventory of every key this
    machine offers ([inventory.rs]) and the key a command signs with ([system_keys.rs]). An
    agent may answer anything; against one that follows the protocol a signature is the
    agent's, and a refusal is explained by what it lists. *)

From Stdlib Require Import ZArith Lia String.
From stdpp Require Import prelude list.
From S2P Require Import Prelude Str Ssh.

Local Open Scope Z_scope.
Local Open Scope rust_scope.

(** ** The socket *)

(** [connect], [write_all] and [read_exact]: an I/O failure is its text. *)
Class AgentSocket (W : Type) := {
  agent_connect : W -> result unit str * W;
  agent_write : list Z -> W -> result unit str * W;
  agent_read : Z -> W -> result (list Z) str * W;
}.

Definition REQUEST_IDENTITIES : Z := 11.
Definition IDENTITIES_ANSWER : Z := 12.
Definition SIGN_REQUEST : Z := 13.
Definition SIGN_RESPONSE : Z := 14.
Definition NO_FLAGS : Z := 0.
Definition SIGNATURE_LEN : Z := 64.
Definition MAX_MESSAGE : Z := 256 * 1024.

Record Identity := { identity_key : PublicKey; identity_comment : str }.

(** An exchange with the agent that can fail. *)
Definition Exchange (W T : Type) : Type := W -> result T SshError * W.

Definition exchange_bind {W T U} (m : Exchange W T) (k : T -> Exchange W U) : Exchange W U := fun w =>
  match m w with
  | (Ok t, w) => k t w
  | (Err e, w) => (Err e, w)
  end.

Notation "'xch' x <- m ; k" := (exchange_bind m (fun x => k)) (at level 200, x pattern, m at level 100, k at level 200).

Definition pure_result {W T} (r : result T SshError) : Exchange W T := fun w => (r, w).

Definition with_io {W T} (err : str -> SshError) (m : W -> result T str * W) : Exchange W T := fun w =>
  let '(r, w) := m w in (match r with Ok t => Ok t | Err e => Err (err e) end, w).

Section Agent.
Context `{SshCodecs} {W : Type} `{AgentSocket W}.

(** [Agent::request]. *)
Definition request (body : list Z) : Exchange W (list Z) :=
  xch _ <- with_io ConnectFailed agent_connect;
  if u32_max <? len body then pure_result (Err (RequestTooLarge (len body)))
  else
    xch _ <- with_io AgentIo (agent_write (be_bytes (len body)));
    xch _ <- with_io AgentIo (agent_write body);
    xch header <- with_io AgentIo (agent_read 4);
    let n := from_be header in
    if MAX_MESSAGE <? n then pure_result (Err (MessageTooLarge n MAX_MESSAGE))
    else with_io AgentIo (agent_read n).

(** The [try_fold] of [ed25519_identities]: keys of another algorithm are skipped. *)
Fixpoint identities (count : nat) : Reader (list Identity) :=
  match count with
  | O => reads []
  | S count =>
      read blob <- read_string;
      read comment <- read_string;
      read algorithm <- (fun rest => let? (algorithm, _) := read_string blob in Ok (algorithm, rest));
      if bool_decide (algorithm = as_bytes ED25519_ALGORITHM) then
        read key <- (fun rest => let? key := from_blob blob in Ok (key, rest));
        read more <- identities count;
        reads ({| identity_key := key; identity_comment := from_utf8_lossy comment |} :: more)
      else identities count
  end.

Definition listing (reply : list Z) : result (list Identity) SshError :=
  let? (kind, fields) := read_u8 reply in
  if negb (kind =? IDENTITIES_ANSWER) then Err (UnexpectedResponse IDENTITIES_ANSWER kind)
  else
    let? (count, fields) := read_u32 fields in
    let? (found, _) := identities (Z.to_nat count) fields in
    Ok found.

Definition ed25519_identities : Exchange W (list Identity) :=
  xch reply <- request [REQUEST_IDENTITIES];
  pure_result (listing reply).

(** [explain_refusal]: a failed listing leaves the refusal itself. *)
Definition explain_refusal (key : PublicKey) (response : Z) (w : W) : SshError * W :=
  match ed25519_identities w with
  | (Ok [], w) => (AgentHoldsNothing (fingerprint key), w)
  | (Ok held, w) =>
      if negb (existsb (fun i => bool_decide (identity_key i = key)) held) then (KeyNotHeld (fingerprint key), w)
      else (SignRefused (fingerprint key) response, w)
  | (Err _, w) => (SignRefused (fingerprint key) response, w)
  end.

Definition sign_request (key : PublicKey) (data : list Z) : result (list Z) SshError :=
  let? body := push_string [SIGN_REQUEST] (blob key) in
  let? body := push_string body data in
  Ok (body ++ be_bytes NO_FLAGS).

Definition signature (fields : list Z) : result (list Z) SshError :=
  let? (framed, _) := read_string fields in
  let? (algorithm, rest) := read_string framed in
  if negb (bool_decide (algorithm = as_bytes ED25519_ALGORITHM)) then
    Err (SignatureAlgorithm (from_utf8_lossy algorithm))
  else
    let? (bytes, _) := read_string rest in
    if len bytes =? SIGNATURE_LEN then Ok bytes else Err (SignatureLength SIGNATURE_LEN (len bytes)).

(** [Agent::sign]. *)
Definition sign (key : PublicKey) (data : list Z) : Exchange W (list Z) :=
  xch body <- pure_result (sign_request key data);
  xch reply <- request body;
  xch (kind, fields) <- pure_result (read_u8 reply);
  if negb (kind =? SIGN_RESPONSE) then
    fun w => let '(e, w) := explain_refusal key kind w in (Err e, w)
  else pure_result (signature fields).
End Agent.

(** ** An agent that follows the protocol

    What an agent holds, and the answer it makes of each request: the listing, a signature
    by a key it will use, and one failure byte for everything else. *)

Definition AGENT_FAILURE : Z := 5.

Inductive AgentKey :=
| Ed25519Key (key : PublicKey) (comment : str) (signer : option (list Z -> list Z))
| OtherKey (blob : list Z) (comment : str).

Section Protocol.
Context `{SC : SshCodecs}.

Definition key_blob (k : AgentKey) : list Z :=
  match k with Ed25519Key key _ _ => blob key | OtherKey blob _ => blob end.

Definition key_comment (k : AgentKey) : str :=
  match k with Ed25519Key _ comment _ | OtherKey _ comment => comment end.

Definition key_entry (k : AgentKey) : list Z := wire (key_blob k) ++ wire (as_bytes (key_comment k)).

Definition identities_answer (held : list AgentKey) : list Z :=
  [IDENTITIES_ANSWER] ++ be_bytes (Z.of_nat (length held)) ++ concat (map key_entry held).

Definition is_held (key : PublicKey) (k : AgentKey) : bool :=
  match k with Ed25519Key key' _ _ => bool_decide (key' = key) | OtherKey _ _ => false end.

Definition sign_fields : Reader (list Z * list Z) :=
  read _ <- read_u8;
  read blob <- read_string;
  read data <- read_string;
  read _flags <- read_u32;
  reads (blob, data).

Definition sign_answer (held : list AgentKey) (blob data : list Z) : list Z :=
  match from_blob blob with
  | Ok key =>
      match List.find (is_held key) held with
      | Some (Ed25519Key _ _ (Some signer)) =>
          [SIGN_RESPONSE] ++ wire (wire (as_bytes ED25519_ALGORITHM) ++ wire (signer data))
      | _ => [AGENT_FAILURE]
      end
  | Err _ => [AGENT_FAILURE]
  end.

Definition answer (held : list AgentKey) (body : list Z) : list Z :=
  if bool_decide (body = [REQUEST_IDENTITIES]) then identities_answer held
  else
    match sign_fields body with
    | Ok (blob, data, _) => sign_answer held blob data
    | Err _ => [AGENT_FAILURE]
    end.

(** What was written to the socket, and what is left to read of the answer. *)
Record Conversation := { sent : list Z; unread : option (list Z) }.

Definition answering (reply : list Z -> list Z) : AgentSocket Conversation := {|
  agent_connect _ := (Ok tt, {| sent := []; unread := None |});
  agent_write bytes c := (Ok tt, {| sent := sent c ++ bytes; unread := unread c |});
  agent_read n c :=
    let framed := let r := reply (drop 4 (sent c)) in be_bytes (len r) ++ r in
    let stream := default framed (unread c) in
    if n <=? len stream then
      (Ok (take (Z.to_nat n) stream), {| sent := sent c; unread := Some (drop (Z.to_nat n) stream) |})
    else (Err (lit "failed to fill whole buffer"), c)
|}.

Lemma request_answered reply body c :
  len body <= u32_max -> len (reply body) <= MAX_MESSAGE ->
  exists c', @request Conversation (answering reply) body c = (Ok (reply body), c').
Proof.
  intros Hb Hr. unfold request, exchange_bind, with_io. cbn [agent_connect answering].
  rewrite (proj2 (Z.ltb_ge _ _)) by done. cbn [agent_write agent_read answering sent unread default].
  set (framed := be_bytes (len (reply _)) ++ _).
  assert (Ef : framed = be_bytes (len (reply body)) ++ reply body) by done. clearbody framed. subst framed.
  assert (Hlen : 0 <= len (reply body)) by (unfold len; lia).
  rewrite len_app. change (len (be_bytes (len (reply body)))) with 4.
  rewrite (proj2 (Z.leb_le 4 _)) by lia. change (Z.to_nat 4) with (length (be_bytes (len (reply body)))).
  rewrite take_app_length, drop_app_length, from_be_bytes by (unfold u32_max, MAX_MESSAGE in *; lia).
  rewrite (proj2 (Z.ltb_ge _ _)) by done. cbn [agent_read answering unread default].
  unfold id. rewrite Z.leb_refl. unfold len at 1. rewrite Nat2Z.id, take_ge by done. by eexists.
Qed.

(** *** What the client makes of it *)

Definition key_ok (k : AgentKey) : Prop :=
  match k with
  | Ed25519Key key comment signer =>
      is_key key /\ valid_str comment /\
      forall sg data, signer = Some sg -> len (sg data) = SIGNATURE_LEN
  | OtherKey blob _ =>
      exists algorithm rest, read_string blob = Ok (algorithm, rest) /\ algorithm <> as_bytes ED25519_ALGORITHM
  end.

Definition identity_of (k : AgentKey) : option Identity :=
  match k with
  | Ed25519Key key comment _ => Some {| identity_key := key; identity_comment := comment |}
  | OtherKey _ _ => None
  end.

Lemma len_nonneg l : 0 <= len l.
Proof. unfold len. lia. Qed.

Lemma entry_small held k :
  k ∈ held -> len (identities_answer held) <= MAX_MESSAGE ->
  len (key_blob k) <= u32_max /\ len (as_bytes (key_comment k)) <= u32_max.
Proof.
  intros Hk Hl. assert (Hc : len (key_entry k) <= len (concat (map key_entry held))).
  { clear Hl. apply list_elem_of_split in Hk as (l1 & l2 & ->). rewrite map_app, concat_app, len_app. cbn [map concat].
    rewrite len_app. pose proof (len_nonneg (concat (map key_entry l1))). pose proof (len_nonneg (concat (map key_entry l2))). lia. }
  unfold identities_answer in Hl. rewrite (len_app [IDENTITIES_ANSWER]), len_app in Hl.
  change (len [IDENTITIES_ANSWER]) with 1 in Hl. change (len (be_bytes _)) with 4 in Hl.
  unfold key_entry at 1 in Hc. rewrite len_app, !len_wire in Hc. unfold MAX_MESSAGE, u32_max in *.
  pose proof (len_nonneg (key_blob k)). pose proof (len_nonneg (as_bytes (key_comment k))). lia.
Qed.

Lemma algorithm_of_blob key : is_key key ->
  exists rest, read_string (blob key) = Ok (as_bytes ED25519_ALGORITHM, rest).
Proof. intros Hk. rewrite blob_strings by done. eexists. apply (read_as_string (as_bytes ED25519_ALGORITHM)). by vm_compute. Qed.

Lemma identities_read held :
  Forall key_ok held ->
  Forall (fun k => len (key_blob k) <= u32_max /\ len (as_bytes (key_comment k)) <= u32_max) held ->
  read_as (identities (length held)) (concat (map key_entry held)) (omap identity_of held).
Proof.
  induction 1 as [|k held Hk Hheld IH]; intros Hs; [apply read_as_reads|].
  apply Forall_cons in Hs as [[Hb Hc] Hs]. specialize (IH Hs). cbn [length identities map concat].
  unfold key_entry at 1. rewrite <- app_assoc.
  eapply read_as_bind; [by apply read_as_wire|]. eapply read_as_bind; [by apply read_as_wire|].
  destruct k as [key comment signer|other comment]; cbn [key_blob key_comment key_ok] in *.
  - destruct Hk as (Hk & Hv & _). destruct (algorithm_of_blob key Hk) as [rest Er].
    eapply (read_as_check _ _ _ (as_bytes ED25519_ALGORITHM)); [intros r; by rewrite Er|]. rewrite bool_decide_true by done.
    eapply (read_as_check _ _ _ key); [intros r; by rewrite from_blob_blob|].
    rewrite <- (app_nil_r (concat _)). eapply read_as_bind; [exact IH|].
    rewrite from_utf8_lossy_as_bytes by done. apply read_as_reads.
  - destruct Hk as (algorithm & rest & Er & Hne).
    eapply (read_as_check _ _ _ algorithm); [intros r; by rewrite Er|]. by rewrite bool_decide_false.
Qed.

Lemma read_as_u8 b : read_as read_u8 [b] b.
Proof.
  unfold read_u8. rewrite <- (app_nil_r [b]). eapply read_as_bind; [apply (read_as_take [b])|].
  replace (from_be [b]) with b by (cbn; lia). apply read_as_reads.
Qed.

Lemma listing_of_answer held :
  Forall key_ok held -> len (identities_answer held) <= MAX_MESSAGE ->
  listing (identities_answer held) = Ok (omap identity_of held).
Proof.
  intros Hok Hl. unfold listing, identities_answer.
  rewrite (read_as_u8 IDENTITIES_ANSWER (be_bytes _ ++ _)). cbn [result_bind]. rewrite Z.eqb_refl. cbn [negb].
  assert (Hn : 0 <= Z.of_nat (length held) <= u32_max).
  { unfold identities_answer in Hl. rewrite (len_app [IDENTITIES_ANSWER]), len_app in Hl.
    assert (Hc : forall l, Z.of_nat (length l) <= len (concat (map key_entry l))).
    { clear. induction l as [|k l IH]; [done|]. cbn [map concat length]. rewrite len_app. unfold key_entry at 1.
      rewrite len_app, !len_wire. pose proof (len_nonneg (key_blob k)). pose proof (len_nonneg (as_bytes (key_comment k))). lia. }
    specialize (Hc held). change (len [IDENTITIES_ANSWER]) with 1 in Hl. change (len (be_bytes _)) with 4 in Hl.
    unfold MAX_MESSAGE, u32_max in *. lia. }
  rewrite (read_as_u32 _ Hn). cbn [result_bind]. rewrite Nat2Z.id, <- (app_nil_r (concat _)).
  rewrite (identities_read held Hok); [done|]. apply Forall_forall. intros k Hk. by eapply entry_small.
Qed.

Lemma sign_request_fields key data :
  is_key key -> len data <= u32_max ->
  exists body, sign_request key data = Ok body /\ sign_fields body = Ok (blob key, data, []) /\
    body <> [REQUEST_IDENTITIES] /\ len body = 64 + len data.
Proof.
  intros Hk Hd. destruct (blob_bytes key Hk) as [_ Hb].
  unfold sign_request. rewrite push_wire by (rewrite Hb; by vm_compute). cbn [result_bind].
  rewrite push_wire by done. cbn [result_bind]. eexists. split; [done|]. split.
  - rewrite <- (app_nil_r (_ ++ be_bytes _)), <- !app_assoc. unfold sign_fields.
    change (SIGN_REQUEST :: ?x) with ([SIGN_REQUEST] ++ x).
    assert (Hr : read_as sign_fields ([SIGN_REQUEST] ++ wire (blob key) ++ wire data ++ be_bytes NO_FLAGS ++ []) (blob key, data)).
    { eapply read_as_bind; [apply read_as_u8|]. eapply read_as_bind; [apply read_as_wire; rewrite Hb; by vm_compute|].
      eapply read_as_bind; [by apply read_as_wire|]. eapply read_as_bind; [by apply read_as_u32|]. apply read_as_reads. }
    specialize (Hr []). rewrite <- !app_assoc in Hr. exact Hr.
  - split; [done|]. rewrite !len_app, !len_wire, Hb. change (len [SIGN_REQUEST]) with 1.
    change (len (be_bytes NO_FLAGS)) with 4. lia.
Qed.

Lemma signature_of_answer sg :
  len sg = SIGNATURE_LEN -> signature (wire (wire (as_bytes ED25519_ALGORITHM) ++ wire sg)) = Ok sg.
Proof.
  intros Hs. assert (Hsl : len sg <= u32_max) by (rewrite Hs; by vm_compute). unfold signature.
  rewrite <- (app_nil_r (wire (_ ++ wire sg))), read_as_wire.
  2: { rewrite len_app, !len_wire, Hs. by vm_compute. }
  cbn [result_bind]. rewrite (read_as_wire (as_bytes ED25519_ALGORITHM)) by (by vm_compute). cbn [result_bind].
  rewrite bool_decide_true by done. cbn [negb].
  rewrite <- (app_nil_r (wire sg)), read_as_wire by done. cbn [result_bind]. by rewrite Hs, Z.eqb_refl.
Qed.

Lemma answer_to_sign held key data body :
  is_key key -> sign_fields body = Ok (blob key, data, []) -> body <> [REQUEST_IDENTITIES] ->
  answer held body = sign_answer held (blob key) data.
Proof. intros Hk Hf Hb. unfold answer. by rewrite bool_decide_false, Hf. Qed.

Lemma sign_answered held key data c :
  Forall key_ok held -> is_key key -> len data <= u32_max - 64 ->
  exists c' body, sign_request key data = Ok body /\
    @request Conversation (answering (answer held)) body c = (Ok (sign_answer held (blob key) data), c').
Proof.
  intros Hok Hk Hd. pose proof (len_nonneg data). unfold u32_max in Hd.
  destruct (sign_request_fields key data) as (body & Eb & Ef & Hne & Hl); [done|unfold u32_max; lia|].
  pose proof (answer_to_sign held key data body Hk Ef Hne) as Ea.
  destruct (request_answered (answer held) body c) as [c' Er].
  - unfold u32_max. lia.
  - rewrite Ea. unfold sign_answer. rewrite from_blob_blob by done.
    destruct (List.find (is_held key) held) as [[key' comment [signer|]|]|] eqn:E; try (by vm_compute).
    apply List.find_some in E as [Hin _]. apply list_elem_of_In in Hin.
    rewrite Forall_forall in Hok. destruct (Hok _ Hin) as (_ & _ & Hs).
    rewrite (len_app [SIGN_RESPONSE]), len_wire, len_app, !len_wire, (Hs signer data eq_refl). by vm_compute.
  - exists c', body. by rewrite <- Ea.
Qed.

Lemma listed_answered held c :
  Forall key_ok held -> len (identities_answer held) <= MAX_MESSAGE ->
  exists c', @ed25519_identities Conversation (answering (answer held)) c = (Ok (omap identity_of held), c').
Proof.
  intros Hok Hl. destruct (request_answered (answer held) [REQUEST_IDENTITIES] c) as [c' Er]; [by vm_compute|done|].
  exists c'. unfold ed25519_identities, exchange_bind, pure_result. rewrite Er.
  change (answer held [REQUEST_IDENTITIES]) with (identities_answer held). by rewrite listing_of_answer.
Qed.

Lemma held_iff_listed key held :
  existsb (fun i => bool_decide (identity_key i = key)) (omap identity_of held) =
  match List.find (is_held key) held with Some _ => true | None => false end.
Proof.
  induction held as [|[key' comment signer|other comment] held IH]; [done| |exact IH].
  cbn [omap list_omap identity_of existsb List.find is_held identity_key].
  destruct (bool_decide (key' = key)); [done|exact IH].
Qed.

(** C40: Against an agent that follows the protocol, a signature is the agent's own over
    exactly the data, by the first entry that holds the key; and a refusal, which the agent
    spells with one byte whatever its reason, is told apart: an agent that lists no Ed25519
    key, one that lists others, and one that holds the key and will not use it. *)
Theorem refusals_are_explained held key data c :
  Forall key_ok held -> len (identities_answer held) <= MAX_MESSAGE -> is_key key -> len data <= u32_max - 64 ->
  (@sign _ Conversation (answering (answer held)) key data c).1 =
    match List.find (is_held key) held with
    | Some (Ed25519Key _ _ (Some signer)) => Ok (signer data)
    | Some _ => Err (SignRefused (fingerprint key) AGENT_FAILURE)
    | None =>
        match omap identity_of held with
        | [] => Err (AgentHoldsNothing (fingerprint key))
        | _ :: _ => Err (KeyNotHeld (fingerprint key))
        end
    end.
Proof.
  intros Hok Hl Hk Hd. destruct (sign_answered held key data c Hok Hk Hd) as (c' & body & Eb & Er).
  unfold sign, exchange_bind, pure_result. rewrite Eb, Er. unfold sign_answer. rewrite from_blob_blob by done.
  assert (Hrefused : forall r, List.find (is_held key) held = r ->
    (@explain_refusal SC Conversation (answering (answer held)) key AGENT_FAILURE c').1 =
    match r with
    | Some _ => SignRefused (fingerprint key) AGENT_FAILURE
    | None => match omap identity_of held with [] => AgentHoldsNothing (fingerprint key) | _ :: _ => KeyNotHeld (fingerprint key) end
    end).
  { intros r Hf. destruct (listed_answered held c' Hok Hl) as [c2 El]. unfold explain_refusal. rewrite El.
    pose proof (held_iff_listed key held) as Hh. rewrite Hf in Hh.
    destruct (omap identity_of held) as [|i more]; [by destruct r|]. rewrite Hh. by destruct r. }
  assert (Hbyte : read_u8 [AGENT_FAILURE] = Ok (AGENT_FAILURE, [])) by done.
  destruct (List.find (is_held key) held) as [[key' comment [signer|]|]|] eqn:E.
  1: { apply List.find_some in E as [Hin _]. apply list_elem_of_In in Hin. rewrite Forall_forall in Hok.
    destruct (Hok _ Hin) as (_ & _ & Hs). rewrite (read_as_u8 SIGN_RESPONSE (wire _)), Z.eqb_refl. cbn [negb].
    rewrite signature_of_answer by (by apply Hs). done. }
  all: rewrite Hbyte; cbn [negb Z.eqb]; specialize (Hrefused _ eq_refl).
  all: change (AGENT_FAILURE =? SIGN_RESPONSE) with false; cbn [negb]; destruct (explain_refusal _ _ _) as [e c3]; cbn in *.
  all: rewrite Hrefused; by repeat case_match.
Qed.
End Protocol.

(** ** Any agent *)

Section Metered.
Context `{SC : SshCodecs} {W : Type} (agent : AgentSocket W).

(** The same socket, with how much each read was told to take. *)
Definition metered : AgentSocket (W * list Z) := {|
  agent_connect w := let '(r, w1) := @agent_connect W agent w.1 in (r, (w1, w.2));
  agent_write bytes w := let '(r, w1) := @agent_write W agent bytes w.1 in (r, (w1, w.2));
  agent_read n w := let '(r, w1) := @agent_read W agent n w.1 in (r, (w1, n :: w.2));
|}.

Definition within_bounds (w : W * list Z) : Prop := Forall (fun n => n <= MAX_MESSAGE) w.2.

Lemma request_bounded body w : within_bounds w -> within_bounds (@request _ metered body w).2.
Proof.
  intros Hw. unfold request, exchange_bind, with_io, pure_result. destruct w as [w ns]. unfold within_bounds in *.
  cbn [agent_connect metered fst snd]. destruct (agent_connect w) as [[[]|e] w1]; [|done]. cbn [snd].
  destruct (u32_max <? len body); [done|]. cbn [agent_write metered fst snd].
  destruct (agent_write _ w1) as [[[]|e] w2]; [|done]. cbn [agent_write metered fst snd].
  destruct (agent_write _ w2) as [[[]|e] w3]; [|done]. cbn [agent_read metered fst snd].
  assert (H4 : Forall (fun n => n <= MAX_MESSAGE) (4 :: ns)) by (constructor; [by vm_compute|done]).
  destruct (agent_read 4 w3) as [[header|e] w4]; [|done]. cbn [snd].
  destruct (Z.ltb_spec MAX_MESSAGE (from_be header)); [done|]. cbn [agent_read metered fst snd].
  destruct (agent_read _ w4) as [[payload|e] w5]; by constructor.
Qed.

Lemma identities_bounded w : within_bounds w -> within_bounds (@ed25519_identities _ metered w).2.
Proof.
  intros Hw. unfold ed25519_identities, exchange_bind, pure_result.
  pose proof (request_bounded [REQUEST_IDENTITIES] w Hw) as Hr. by destruct (@request _ metered _ w) as [[reply|e] w1].
Qed.

Lemma signature_is_64 fields sg : signature fields = Ok sg -> len sg = SIGNATURE_LEN.
Proof.
  unfold signature. destruct (read_string fields) as [[framed ?]|]; [cbn|done].
  destruct (read_string framed) as [[algorithm rest]|]; [cbn|done]. destruct (negb _); [done|].
  destruct (read_string rest) as [[bytes ?]|]; [cbn|done]. destruct (Z.eqb_spec (len bytes) SIGNATURE_LEN); [by intros [= <-]|done].
Qed.

(** An agent that lies is believed in nothing that costs memory. Whatever the agent
    answers to a signing request, and to the listing that follows a refusal, no read asks for
    more than the ceiling on a message, and what is taken for a signature has its 64 bytes. *)
Theorem hostile_agents_are_bounded key data w :
  within_bounds w ->
  let '(r, w') := @sign _ _ metered key data w in
  within_bounds w' /\ forall sg, r = Ok sg -> len sg = SIGNATURE_LEN.
Proof.
  intros Hw. unfold sign, exchange_bind, pure_result. destruct (sign_request key data) as [body|e]; [|done].
  pose proof (request_bounded body w Hw) as Hr. destruct (@request _ metered body w) as [[reply|e] w1]; [|done].
  cbn [snd] in Hr. destruct (read_u8 reply) as [[kind fields]|e]; [|done].
  destruct (negb (kind =? SIGN_RESPONSE)).
  - unfold explain_refusal. pose proof (identities_bounded w1 Hr) as Hi.
    destruct (@ed25519_identities _ metered w1) as [[[|i more]|e] w2]; cbn [snd] in Hi; try done. by destruct (negb _).
  - split; [done|]. apply signature_is_64.
Qed.
End Metered.

(** ** Every key this machine offers ([inventory.rs]) *)

Inductive KeySource :=
| FromAgent (label socket : str)
| FromFile (path : str) (encrypted : bool).

#[export] Instance KeySource_eq_dec : EqDecision KeySource.
Proof. solve_decision. Defined.

Record SystemKey := { system_key : PublicKey; key_name : str; sources : list KeySource }.

Record Skipped := { skipped_source : str; reason : SshError }.

Record Inventory := { keys : list SystemKey; skipped : list Skipped }.

Definition can_sign (s : KeySource) : bool :=
  match s with FromAgent _ _ => true | FromFile _ encrypted => negb encrypted end.

Definition is_usable (k : SystemKey) : bool := existsb can_sign (sources k).

(** [KeySource::describe]. *)
Definition describe_source (s : KeySource) : str :=
  match s with
  | FromAgent label _ => lit "agent (" ++ label ++ lit ")"
  | FromFile path false => path
  | FromFile path true => path ++ lit " (encrypted)"
  end.

Definition found_at (k : SystemKey) : str := join (lit ", ") (map describe_source (sources k)).

(** [held.sources.push] unless it is there, and a comment only where there was none. *)
Definition merged (comment : str) (source : KeySource) (k : SystemKey) : SystemKey :=
  {| system_key := system_key k;
     key_name := match key_name k with [] => comment | name => name end;
     sources := if bool_decide (source ∈ sources k) then sources k else sources k ++ [source] |}.

(** [iter_mut().find(..)]: the first key that matches is changed. *)
Fixpoint update_first {A} (test : A -> bool) (change : A -> A) (l : list A) : option (list A) :=
  match l with
  | [] => None
  | x :: l => if test x then Some (change x :: l) else (x ::.) <$> update_first test change l
  end.

(** [Inventory::add]. *)
Definition add (key : PublicKey) (comment : str) (source : KeySource) (i : Inventory) : Inventory :=
  {| keys :=
       match update_first (fun k => bool_decide (system_key k = key)) (merged comment source) (keys i) with
       | Some keys => keys
       | None => keys i ++ [{| system_key := key; key_name := comment; sources := [source] |}]
       end;
     skipped := skipped i |}.

Definition skip_source (source : str) (e : SshError) (i : Inventory) : Inventory :=
  {| keys := keys i; skipped := skipped i ++ [{| skipped_source := source; reason := e |}] |}.

(** One agent, and what it answered. *)
Record KnownAgent := { agent_label : str; agent_socket : str; answered : result (list Identity) SshError }.

Definition add_agent (i : Inventory) (a : KnownAgent) : Inventory :=
  match answered a with
  | Ok ids =>
      fold_left (fun i id => add (identity_key id) (identity_comment id) (FromAgent (agent_label a) (agent_socket a)) i) ids i
  | Err e => skip_source (agent_socket a) e i
  end.

(** [fs::read_to_string] of a file of [~/.ssh]. *)
Inductive FileText := Text (text : str) | NotUtf8 | NoText (why : str).

(** A file of the directory; [fs::metadata] may fail. *)
Record KeyFile := { file_path : str; file_name : str; file_size : option Z; file_text : FileText }.

Definition MAX_KEY_FILE : Z := 64 * 1024.

Definition fits_key (f : KeyFile) : bool := match file_size f with Some n => n <=? MAX_KEY_FILE | None => false end.

Definition is_public (f : KeyFile) : bool := bool_decide (extension (file_name f) = Some (lit "pub")).

Section Files.
Context `{SC : SshCodecs}.

Definition read_private_key (i : Inventory) (f : KeyFile) : Inventory :=
  match file_text f with
  | NotUtf8 => i
  | NoText why => skip_source (file_path f) (Unreadable why) i
  | Text text =>
      if negb (contains text (lit "PRIVATE KEY")) then i
      else
        match parse_private text with
        | Ok file => add (public file) (comment file) (FromFile (file_path f) (is_encrypted file)) i
        | Err e => skip_source (file_path f) e i
        end
  end.

Definition name_key (comment : str) (k : SystemKey) : SystemKey :=
  match key_name k with
  | [] => {| system_key := system_key k; key_name := comment; sources := sources k |}
  | _ => k
  end.

(** A [.pub] file only ever contributes a comment. *)
Definition read_comment (i : Inventory) (f : KeyFile) : Inventory :=
  match file_text f with
  | Text text =>
      match from_openssh (trim text) with
      | Ok (key, comment) =>
          {| keys := default (keys i) (update_first (fun k => bool_decide (system_key k = key)) (name_key comment) (keys i));
             skipped := skipped i |}
      | Err _ => i
      end
  | NotUtf8 | NoText _ => i
  end.

Definition read_ssh_dir (files : list KeyFile) (i : Inventory) : Inventory :=
  let files := List.filter fits_key files in
  let i := fold_left read_private_key (List.filter (fun f => negb (is_public f)) files) i in
  fold_left read_comment (List.filter is_public files) i.

(** [collect]: the agents in the order they were discovered, then [~/.ssh] if there is one. *)
Definition collect (agents : list KnownAgent) (ssh_dir : option (list KeyFile)) : Inventory :=
  let i := fold_left add_agent agents {| keys := []; skipped := [] |} in
  match ssh_dir with Some files => read_ssh_dir files i | None => i end.

(** [Path]'s equality: repeated and trailing separators do not count, nor does a [.] that
    is not the first component. *)
Definition path_parts (path : str) : bool * list str :=
  let parts := split_at 47 [] path in
  let kept := List.filter (fun p => negb (str_eqb p []) && negb (str_eqb p (lit "."))) parts in
  (starts_with path [47], match parts with p :: _ => if str_eqb p (lit ".") then p :: kept else kept | [] => kept end).

Definition same_path (a b : str) : bool := bool_decide (path_parts a = path_parts b).

(** No letter outside ASCII has a hexadecimal digit for its lower case. *)
Definition matches (selector : str) (k : SystemKey) : bool :=
  str_eqb (to_hex (system_key k)) (to_ascii_lowercase selector) ||
  str_eqb (fingerprint (system_key k)) selector ||
  (negb (str_eqb (key_name k) []) && str_eqb (to_ascii_lowercase (key_name k)) (to_ascii_lowercase selector)) ||
  existsb (fun s => match s with FromFile path _ => same_path path selector | FromAgent _ _ => false end) (sources k).

Definition matching (selector : str) (i : Inventory) : list SystemKey := List.filter (matches selector) (keys i).
End Files.

(** ** The key a command signs with ([system_keys.rs]) *)

Inductive NoKey :=
| NothingUsable (found : list SystemKey)
| SeveralUsable (several : list SystemKey)
| Unusable (only : SystemKey)
| NoMatch
| SeveralMatch (several : list SystemKey).

Section Choice.
Context `{SC : SshCodecs}.

Definition choose_from (found : Inventory) (selector : option str) : result SystemKey NoKey :=
  match selector with
  | None =>
      match List.filter is_usable (keys found) with
      | [only] => Ok only
      | [] => Err (NothingUsable (keys found))
      | several => Err (SeveralUsable several)
      end
  | Some selector =>
      match matching selector found with
      | [only] => if is_usable only then Ok only else Err (Unusable only)
      | [] => Err NoMatch
      | several => Err (SeveralMatch several)
      end
  end.

(** [UserSigner]: a seed read from a file, or an agent that is asked. *)
Inductive UserSigner := SignsWithSeed (seed_hex : str) | SignsThrough (socket : str) (key : PublicKey).

Inductive NoSigner :=
| NotAKey (e : SshError)
| Missing (wanted : PublicKey) (skipped : list Skipped)
| CannotRead (path why : str)
| CannotParse (path : str) (e : SshError)
| IsEncrypted (path : str)
| NoAgentHolds (key : PublicKey).

Definition readable_file (s : KeySource) : option str :=
  match s with FromFile path false => Some path | FromFile _ true | FromAgent _ _ => None end.

Definition agent_of (s : KeySource) : option str :=
  match s with FromAgent _ socket => Some socket | FromFile _ _ => None end.

(** [contents]: a file as it is when the signer is resolved. *)
Context (contents : str -> FileText).

Definition signer_from_sources (k : SystemKey) : result UserSigner NoSigner :=
  match head (omap readable_file (sources k)) with
  | Some path =>
      match contents path with
      | NotUtf8 => Err (CannotRead path (lit "stream did not contain valid UTF-8"))
      | NoText why => Err (CannotRead path why)
      | Text text =>
          match parse_private text with
          | Err e => Err (CannotParse path e)
          | Ok file => match seed_hex file with Some hex => Ok (SignsWithSeed hex) | None => Err (IsEncrypted path) end
          end
      end
  | None =>
      match head (omap agent_of (sources k)) with
      | Some socket => Ok (SignsThrough socket (system_key k))
      | None => Err (NoAgentHolds (system_key k))
      end
  end.

Definition signer_from (found : Inventory) (public_key_hex : str) : result UserSigner NoSigner :=
  match from_hex public_key_hex with
  | Err e => Err (NotAKey e)
  | Ok wanted =>
      match List.find (fun k => bool_decide (system_key k = wanted)) (keys found) with
      | None => Err (Missing wanted (skipped found))
      | Some k => signer_from_sources k
      end
  end.
End Choice.

(** ** What an inventory holds *)

Definition listed (i : Inventory) (key : PublicKey) (s : KeySource) : Prop :=
  exists k, k ∈ keys i /\ system_key k = key /\ s ∈ sources k.

(** Every key once, under every place it was found. *)
Record lists (found : list (PublicKey * KeySource)) (i : Inventory) : Prop := {
  lists_once : NoDup (map system_key (keys i));
  lists_sources : Forall (fun k => NoDup (sources k)) (keys i);
  lists_found : forall key s, listed i key s <-> (key, s) ∈ found;
}.

Lemma update_first_some {A} (test : A -> bool) change l l' :
  update_first test change l = Some l' ->
  exists l1 x l2, l = l1 ++ x :: l2 /\ test x = true /\ l' = l1 ++ change x :: l2.
Proof.
  revert l'. induction l as [|x l IH]; intros l'; cbn [update_first]; [done|].
  destruct (test x) eqn:E; [intros [= <-]; by exists [], x, l|].
  destruct (update_first test change l) as [l2|]; cbn; [|done]. intros [= <-].
  destruct (IH l2 eq_refl) as (a & y & b & -> & Hy & ->). by exists (x :: a), y, b.
Qed.

Lemma update_first_none {A} (test : A -> bool) change l :
  update_first test change l = None -> forall x, x ∈ l -> test x = false.
Proof.
  induction l as [|x l IH]; cbn [update_first]; [intros _ y Hy; by apply elem_of_nil in Hy|].
  destruct (test x) eqn:E; [done|]. destruct (update_first test change l); cbn; [done|]. intros _ y [->|Hy]%elem_of_cons; auto.
Qed.

(** Replacing one key by another with the same public half. *)
Lemma lists_replaced found found' l1 x y l2 skips :
  system_key y = system_key x -> NoDup (sources y) ->
  (forall key s, (key, s) ∈ found' <-> (key, s) ∈ found \/ (key = system_key x /\ s ∈ sources y)) ->
  (forall s, s ∈ sources x -> s ∈ sources y) ->
  lists found {| keys := l1 ++ x :: l2; skipped := skips |} -> lists found' {| keys := l1 ++ y :: l2; skipped := skips |}.
Proof.
  intros Hk Hn Hf Hsub [H1 H2 H3]. cbn [keys] in *. constructor; cbn [keys].
  - rewrite map_app in *. cbn [map] in *. by rewrite Hk.
  - apply Forall_app in H2 as [? [? ?]%Forall_cons]. apply Forall_app. split; [done|]. by constructor.
  - intros key s. rewrite Hf, <- H3. unfold listed. cbn [keys]. split.
    + intros (k & Hin & <- & Hs). apply elem_of_app in Hin as [Hin|[->|Hin]%elem_of_cons].
      * left. exists k. rewrite elem_of_app. auto.
      * right. by rewrite Hk.
      * left. exists k. rewrite elem_of_app, elem_of_cons. auto.
    + intros [(k & Hin & <- & Hs)|[-> Hs]].
      * apply elem_of_app in Hin as [Hin|[->|Hin]%elem_of_cons].
        -- exists k. rewrite elem_of_app. auto.
        -- exists y. rewrite elem_of_app, elem_of_cons. auto.
        -- exists k. rewrite elem_of_app, elem_of_cons. auto.
      * exists y. rewrite elem_of_app, elem_of_cons. auto.
Qed.

Lemma merged_sources comment source k s : s ∈ sources (merged comment source k) <-> s ∈ sources k \/ s = source.
Proof.
  unfold merged. cbn [sources]. case_bool_decide as E; [set_solver|]. rewrite elem_of_app, list_elem_of_singleton. done.
Qed.

Lemma add_lists found key comment source i : lists found i -> lists (found ++ [(key, source)]) (add key comment source i).
Proof.
  intros Hi. unfold add. destruct (update_first _ _ (keys i)) as [l|] eqn:E.
  - apply update_first_some in E as (l1 & x & l2 & El & Hx & ->). apply bool_decide_eq_true in Hx. subst key.
    destruct i as [ks sk]. cbn in El. subst ks. cbn [skipped].
    assert (Hnd : NoDup (sources x)).
    { destruct Hi as [_ Hs _]. cbn in Hs. by apply Forall_app in Hs as [_ [? _]%Forall_cons]. }
    assert (Hlx : forall s, s ∈ sources x -> (system_key x, s) ∈ found).
    { intros s Hs. apply (lists_found _ _ Hi). exists x. cbn. rewrite elem_of_app, elem_of_cons. auto. }
    apply (lists_replaced found _ l1 x); [done| | | |exact Hi].
    + unfold merged. cbn [sources]. case_bool_decide as Es; [done|]. apply NoDup_app.
      split_and!; [done|intros s Hs ->%list_elem_of_singleton; done|apply NoDup_singleton].
    + intros key s. rewrite elem_of_app, list_elem_of_singleton, merged_sources. naive_solver.
    + intros s Hs. apply merged_sources. by left.
  - pose proof (update_first_none _ _ _ E) as Hno. destruct Hi as [H1 H2 H3]. constructor; cbn [keys].
    + rewrite map_app. apply NoDup_app. split_and!; [done| |apply NoDup_singleton].
      intros k' Hin Heq%list_elem_of_singleton. cbn in Heq. subst k'. apply list_elem_of_fmap in Hin as (k & Ek & Hk).
      specialize (Hno k Hk). cbn in Hno. by rewrite bool_decide_true in Hno.
    + apply Forall_app. split; [done|]. constructor; [apply NoDup_singleton|constructor].
    + intros key' s. rewrite elem_of_app, list_elem_of_singleton, <- H3. unfold listed. cbn [keys]. split.
      * intros (k & [Hin| ->%list_elem_of_singleton]%elem_of_app & <- & Hs); [left; eauto|].
        right. cbn in *. by apply list_elem_of_singleton in Hs as ->.
      * intros [(k & Hin & <- & Hs)|[= -> ->]]; [exists k; rewrite elem_of_app; auto|].
        eexists. rewrite elem_of_app, list_elem_of_singleton. split; [by right|]. cbn. split; [done|by left].
Qed.

Lemma skip_lists found source e i : lists found i -> lists found (skip_source source e i).
Proof. intros [? ? ?]. by constructor. Qed.

Section Collected.
Context `{SC : SshCodecs}.

(** What the agents list and the private key files hold. *)
Definition agent_finds (a : KnownAgent) : list (PublicKey * KeySource) :=
  match answered a with
  | Ok ids => map (fun id => (identity_key id, FromAgent (agent_label a) (agent_socket a))) ids
  | Err _ => []
  end.

Definition parsed_file (f : KeyFile) : option PrivateKeyFile :=
  match file_text f with
  | Text text => if contains text (lit "PRIVATE KEY") then result_ok (parse_private text) else None
  | NotUtf8 | NoText _ => None
  end.

Definition file_finds (f : KeyFile) : list (PublicKey * KeySource) :=
  match parsed_file f with
  | Some file => [(public file, FromFile (file_path f) (is_encrypted file))]
  | None => []
  end.

Definition private_files (files : list KeyFile) : list KeyFile :=
  List.filter (fun f => negb (is_public f)) (List.filter fits_key files).

Definition finds (agents : list KnownAgent) (ssh_dir : option (list KeyFile)) : list (PublicKey * KeySource) :=
  (agents ≫= agent_finds) ++ (private_files (default [] ssh_dir) ≫= file_finds).

Lemma fold_lists {A} (step : Inventory -> A -> Inventory) (give : A -> list (PublicKey * KeySource)) l found i :
  (forall found i a, lists found i -> lists (found ++ give a) (step i a)) ->
  lists found i -> lists (found ++ (l ≫= give)) (fold_left step l i).
Proof.
  intros Hstep. revert found i. induction l as [|a l IH]; intros found i Hi; cbn [fold_left mbind list_bind].
  - by rewrite app_nil_r.
  - rewrite app_assoc. by apply IH, Hstep.
Qed.

Lemma agent_lists found i a : lists found i -> lists (found ++ agent_finds a) (add_agent i a).
Proof.
  intros Hi. unfold add_agent, agent_finds. destruct (answered a) as [ids|e].
  - revert found i Hi. induction ids as [|id ids IH]; intros found i Hi; cbn [fold_left map]; [by rewrite app_nil_r|].
    rewrite cons_middle, app_assoc. by apply IH, add_lists.
  - rewrite app_nil_r. by apply skip_lists.
Qed.

Lemma private_lists found i f : lists found i -> lists (found ++ file_finds f) (read_private_key i f).
Proof.
  intros Hi. unfold read_private_key, file_finds, parsed_file. destruct (file_text f) as [text| |why].
  - destruct (contains text _); cbn [negb]; [|by rewrite app_nil_r].
    destruct (parse_private text) as [file|e]; cbn [result_ok]; [by apply add_lists|]. rewrite app_nil_r. by apply skip_lists.
  - by rewrite app_nil_r.
  - rewrite app_nil_r. by apply skip_lists.
Qed.

Lemma comment_lists found i f : lists found i -> lists (found ++ []) (read_comment i f).
Proof.
  rewrite app_nil_r. intros Hi. unfold read_comment. destruct (file_text f); [|done..].
  destruct (from_openssh _) as [[key comment]|e]; [|done].
  destruct (update_first _ _ (keys i)) as [l|] eqn:E; cbn [default]; [|by destruct i].
  apply update_first_some in E as (l1 & x & l2 & El & Hx & ->). destruct i as [ks sk]. cbn in El. subst ks. cbn [skipped].
  assert (Hsame : sources (name_key comment x) = sources x /\ system_key (name_key comment x) = system_key x).
  { unfold name_key. by destruct (key_name x). }
  destruct Hsame as [Es Ek]. apply (lists_replaced found _ l1 x); [done| | | |exact Hi]; rewrite ?Es.
  - destruct Hi as [_ Hs _]. cbn in Hs. by apply Forall_app in Hs as [_ [? _]%Forall_cons].
  - intros k s. split; [auto|]. intros [?|[-> Hs]]; [done|]. apply (lists_found _ _ Hi). exists x. cbn.
    rewrite elem_of_app, elem_of_cons. auto.
  - done.
Qed.

Lemma collect_lists agents ssh_dir : lists (finds agents ssh_dir) (collect agents ssh_dir).
Proof.
  assert (Hnone : lists [] {| keys := []; skipped := [] |}).
  { constructor; cbn; [constructor|constructor|]. intros key s. split; [|by intros ?%elem_of_nil].
    intros (k & Hk & _). by apply elem_of_nil in Hk. }
  pose proof (fold_lists _ _ agents [] _ agent_lists Hnone) as Ha. unfold collect, finds. cbn [app] in Ha.
  destruct ssh_dir as [files|]; cbn [default]; [|by rewrite app_nil_r].
  unfold read_ssh_dir. pose proof (fold_lists _ _ (private_files files) _ _ private_lists Ha) as Hp.
  pose proof (fold_lists _ (fun _ => []) (List.filter is_public (List.filter fits_key files)) _ _ comment_lists Hp) as Hc.
  replace (_ ≫= fun _ : KeyFile => []) with (@nil (PublicKey * KeySource)) in Hc; [by rewrite app_nil_r in Hc|].
  clear. induction (List.filter is_public _) as [|f l IH]; [done|exact IH].
Qed.

Lemma chosen_usable i selector k : choose_from i selector = Ok k -> k ∈ keys i /\ is_usable k = true.
Proof.
  assert (Hf : forall test k', List.filter test (keys i) = [k'] -> k' ∈ keys i /\ test k' = true).
  { intros test k' E. assert (Hin : k' ∈ List.filter test (keys i)) by (rewrite E; by left).
    by rewrite list_elem_of_In, filter_In, <- list_elem_of_In in Hin. }
  unfold choose_from. destruct selector as [selector|].
  - unfold matching. destruct (List.filter (matches selector) (keys i)) as [|k' [|? ?]] eqn:E; [done| |done].
    destruct (is_usable k') eqn:Hu; [|done]. intros [= <-]. split; [|done]. by apply (Hf _ _ E).
  - destruct (List.filter is_usable (keys i)) as [|k' [|? ?]] eqn:E; [done| |done]. intros [= <-]. by apply Hf.
Qed.

Lemma find_by_key i k found : lists found i -> k ∈ keys i ->
  List.find (fun k' => bool_decide (system_key k' = system_key k)) (keys i) = Some k.
Proof.
  intros [Hnd _ _]. generalize dependent (keys i). intros l Hnd Hk. induction l as [|k' l IH]; [by apply elem_of_nil in Hk|].
  cbn [map] in Hnd. apply NoDup_cons in Hnd as [Hno Hnd]. cbn [List.find].
  apply elem_of_cons in Hk as [->|Hk]; [by rewrite bool_decide_true|]. rewrite bool_decide_false; [by apply IH|].
  intros E. apply Hno. rewrite E. apply list_elem_of_fmap. by exists k.
Qed.

(** What a signer stands on: the seed of an unencrypted key file, or an agent that listed
    the key. *)
Definition backed (agents : list KnownAgent) (files : list KeyFile) (key : PublicKey) (s : UserSigner) : Prop :=
  match s with
  | SignsWithSeed hex => exists f file seed,
      f ∈ files /\ parsed_file f = Some file /\ public file = key /\ Ssh.seed file = Some seed /\ hex = hex_encode seed
  | SignsThrough socket key' => key' = key /\ exists a ids id,
      a ∈ agents /\ agent_socket a = socket /\ answered a = Ok ids /\ id ∈ ids /\ identity_key id = key
  end.

Lemma private_files_in files f : f ∈ private_files files -> f ∈ files.
Proof. unfold private_files. rewrite !list_elem_of_In, !filter_In. tauto. Qed.

Lemma found_source agents files key s :
  (key, s) ∈ finds agents (Some files) ->
  match s with
  | FromFile path encrypted => exists f file, f ∈ files /\ file_path f = path /\ parsed_file f = Some file /\
      public file = key /\ is_encrypted file = encrypted
  | FromAgent _ socket => exists a ids id, a ∈ agents /\ agent_socket a = socket /\ answered a = Ok ids /\
      id ∈ ids /\ identity_key id = key
  end.
Proof.
  unfold finds. cbn [default]. rewrite elem_of_app, !list_elem_of_bind. intros [(a & Hs & Ha)|(f & Hs & Hf)].
  - unfold agent_finds in Hs. destruct (answered a) as [ids|] eqn:E; [|by apply elem_of_nil in Hs].
    apply list_elem_of_fmap in Hs as (id & [= -> ->] & Hid). by exists a, ids, id.
  - unfold file_finds in Hs. destruct (parsed_file f) as [file|] eqn:E; [|by apply elem_of_nil in Hs].
    apply list_elem_of_singleton in Hs as [= -> ->]. exists f, file. split; [by apply private_files_in|done].
Qed.

Lemma head_omap {A B} (f : A -> option B) l : 
  match head (omap f l) with
  | Some y => exists x, x ∈ l /\ f x = Some y
  | None => forall x, x ∈ l -> f x = None
  end.
Proof.
  induction l as [|x l IH]; cbn; [by intros x ?%elem_of_nil|]. destruct (f x) as [y|] eqn:E; cbn.
  - exists x. split; [by left|done].
  - destruct (head (omap f l)) as [y|]; [destruct IH as (x' & ? & ?); exists x'; split; [by right|done]|].
    intros x' [->|Hx]%elem_of_cons; auto.
Qed.
End Collected.

Section Signer.
Context `{SC : SshCodecs} `{SL : !SshCodecLaws}.

End Signer.

(** A machine with one agent, whose one key is the one chosen. *)
Module Machine.
Definition key : PublicKey := replicate 32 7.

Definition held : list AgentKey :=
  [OtherKey (wire (as_bytes (lit "ssh-rsa"))) (lit "work"); Ed25519Key key (lit "fleet key") (Some (fun _ => replicate 64 1))].

Definition agent : KnownAgent :=
  {| agent_label := lit "SSH_AUTH_SOCK"; agent_socket := lit "/run/agent";
     answered := Ok [{| identity_key := key; identity_comment := lit "fleet key" |}] |}.

Lemma key_is_key : is_key key.
Proof. split; [done|]. cbn. repeat (constructor; [unfold is_byte; lia|]). constructor. Qed.

Lemma held_ok : Forall key_ok held.
Proof.
  repeat apply Forall_cons_2; [| |constructor].
  - exists (as_bytes (lit "ssh-rsa")), []. by vm_compute.
  - split; [exact key_is_key|]. split; [by repeat constructor|]. by intros sg data [= <-].
Qed.

Definition chosen : SystemKey :=
  {| system_key := key; key_name := lit "fleet key"; sources := [FromAgent (lit "SSH_AUTH_SOCK") (lit "/run/agent")] |}.
End Machine.

Lemma refusals_are_explained_witness :
  (@sign Letters.codecs Conversation (answering (answer Machine.held)) Machine.key [1; 2] {| sent := []; unread := None |}).1 =
  Ok (replicate 64 1).
Proof.
  apply (@refusals_are_explained Letters.codecs Machine.held Machine.key [1; 2] {| sent := []; unread := None |}).
  - exact Machine.held_ok.
  - by vm_compute.
  - exact Machine.key_is_key.
  - by vm_compute.
Defined.

Lemma hostile_agents_are_bounded_witness :
  within_bounds (@sign Letters.codecs (Conversation * list Z) (metered (answering (answer [])))
    Machine.key [1] ({| sent := []; unread := None |}, [])).2.
Proof.
  assert (H0 : @within_bounds Conversation ({| sent := []; unread := None |}, [])) by constructor.
  pose proof (@hostile_agents_are_bounded Letters.codecs Conversation (answering (answer [])) Machine.key [1] _ H0) as H.
  destruct (@sign _ _ _ _ _ _) as [r w']. apply H.
Defined.

