(* ===== verification/MgmtSig.v ===== *)
(** * What a request to the management server is signed over

    A user signs RFC 9421 message signatures over the method, authority, path, query and body
    digest ([pipette-mgmt-client], [httpsig.rs]); a device signs the [v1] payload
    ([auth.rs]). [rebuilt_base] and [verify_request] are the check of the module's test
    support, which rebuilds the base from what a request carries as the server does. The URL
    parser, the curve and base64 are interfaces. *)

From Stdlib Require Import ZArith Lia String.
From stdpp Require Import prelude list.
From S2P Require Import Prelude Str Ssh.

Local Open Scope Z_scope.
Local Open Scope rust_scope.

(** The [url] crate, as far as the signature reads a URL. *)
Class UrlCrate := {
  Url : Type;
  parse_url : str -> result Url str;
  host_str : Url -> option str;
  url_port : Url -> option Z;
  url_path : Url -> str;
  url_query : Url -> option str;
  url_scheme : Url -> str;
  url_fragment : Url -> option str;
  (** [Url::to_string]. *)
  url_text : Url -> str;
}.

(** A serialized URL has no newline. *)
Class UrlLaws `{UrlCrate} := {
  host_one_line u host : host_str u = Some host -> newline_free host;
  path_one_line u : newline_free (url_path u);
  query_one_line u query : url_query u = Some query -> newline_free query;
}.

(** Ed25519: [SigningKey::sign] and [VerifyingKey::verify_strict]. *)
Class Curve `{SshCodecs} := {
  sign_with : list Z -> list Z -> list Z;
  verify_strict : PublicKey -> list Z -> list Z -> bool;
}.

Class CurveLaws `{Curve} := {
  signature_len seed msg : len (sign_with seed msg) = 64;
  signature_bytes seed msg : Forall is_byte (sign_with seed msg);
  signature_verifies seed msg : verify_strict (verifying_key seed) msg (sign_with seed msg) = true;
}.

(** ** The signer ([httpsig.rs]) *)

Definition METHOD : str := lit "@method".
Definition AUTHORITY : str := lit "@authority".
Definition PATH : str := lit "@path".
Definition QUERY : str := lit "@query".
Definition CONTENT_DIGEST : str := lit "content-digest".
Definition LABEL : str := lit "sig".

Definition quote : Z := 34.
Definition backslash : Z := 92.

(** [str::replace] of a character. *)
Definition replace_char (c : Z) (by_ : str) (s : str) : str := s ≫= fun x => if x =? c then by_ else [x].

(** An RFC 9651 string. *)
Definition quoted (value : str) : str :=
  [quote] ++ replace_char quote [backslash; quote] (replace_char backslash [backslash; backslash] value) ++ [quote].

Definition show_i64 (n : Z) : str := if n <? 0 then 45 :: show_uint (- n) else show_uint n.

Definition signature_line (line : str * str) : str := [quote] ++ line.1 ++ [quote] ++ lit ": " ++ line.2 ++ [10].

Definition signature_base (lines : list (str * str)) (params : str) : str :=
  concat (map signature_line lines) ++ [quote] ++ lit "@signature-params" ++ [quote] ++ lit ": " ++ params.

Section HttpSig.
Context `{UC : UrlCrate} `{SC : SshCodecs}.

Record Outgoing := { method : str; url : Url; body_sha256 : option (list Z) }.

Record Signed := { signature_input : str; signature_field : str; digest_field : option str }.

Definition authority (u : Url) : str :=
  let host := default [] (host_str u) in
  to_ascii_lowercase (match url_port u with Some port => host ++ [58] ++ show_uint port | None => host end).

Definition path (u : Url) : str := match url_path u with [] => [47] | p => p end.

Definition query (u : Url) : str := [63] ++ default [] (url_query u).

Definition content_digest (digest : list Z) : str := lit "sha-256=:" ++ b64_encode digest ++ [58].

Definition lines_of (request : Outgoing) (digest : option str) : list (str * str) :=
  [(METHOD, method request); (AUTHORITY, authority (url request)); (PATH, path (url request));
   (QUERY, query (url request))] ++
  match digest with Some field => [(CONTENT_DIGEST, field)] | None => [] end.

Definition params_of (names : list str) (created : Z) (nonce key_id : str) : str :=
  [40] ++ join [32] (map quoted names) ++ [41] ++ lit ";created=" ++ show_i64 created ++ lit ";nonce=" ++
  quoted nonce ++ lit ";keyid=" ++ quoted key_id ++
  lit ";alg=" ++ [quote] ++ lit "ed25519" ++ [quote] ++ lit ";tag=" ++ [quote] ++ lit "pipette" ++ [quote].

Definition sign {E} (key_id nonce : str) (created : Z) (request : Outgoing)
    (signer : list Z -> result (list Z) E) : result Signed E :=
  let digest := content_digest <$> body_sha256 request in
  let lines := lines_of request digest in
  let params := params_of (map fst lines) created nonce key_id in
  let? signature := signer (as_bytes (signature_base lines params)) in
  Ok {| signature_input := LABEL ++ [61] ++ params;
        signature_field := LABEL ++ lit "=:" ++ b64_encode signature ++ [58];
        digest_field := digest |}.

(** ** The check ([test_support]) *)

(** [str::trim_start_matches] and [str::trim_matches] of a character. *)
Fixpoint trim_start_matches (c : Z) (s : str) : str :=
  match s with
  | x :: s' => if x =? c then trim_start_matches c s' else s
  | [] => []
  end.

Definition trim_matches (c : Z) (s : str) : str := rev (trim_start_matches c (rev (trim_start_matches c s))).

Fixpoint traverse {A B E} (f : A -> result B E) (l : list A) : result (list B) E :=
  match l with
  | [] => Ok []
  | x :: l => let? y := f x in let? ys := traverse f l in Ok (y :: ys)
  end.

Definition component (u : Url) (method : str) (digest : option str) (name : str) : result (str * str) str :=
  let name := trim_matches quote name in
  let? value :=
    if bool_decide (name = METHOD) then Ok method
    else if bool_decide (name = AUTHORITY) then Ok (authority u)
    else if bool_decide (name = PATH) then Ok (path u)
    else if bool_decide (name = QUERY) then Ok (query u)
    else if bool_decide (name = CONTENT_DIGEST) then
      match digest with Some field => Ok field | None => Err (lit "no Content-Digest") end
    else Err (lit "unexpected component " ++ name) in
  Ok (name, value).

(** The base a verifier rebuilds from the parameters and the rest of what a request carries. *)
Definition rebuilt_base (params : str) (method : str) (u : Url) (digest : option str) : result str str :=
  match split_once 41 params with
  | None => Err (lit "no component list")
  | Some (covered, _) =>
      let? lines := traverse (component u method digest) (split_at 32 [] (trim_start_matches 40 covered)) in
      Ok (signature_base lines params)
  end.

Context `{CU : !Curve}.

Definition verify_request (key : PublicKey) (method : str) (text : str) (header : str -> option str) : result unit str :=
  match header (lit "Signature-Input"), header (lit "Signature") with
  | None, _ => Err (lit "no Signature-Input")
  | _, None => Err (lit "no Signature")
  | Some input, Some field =>
      match strip_prefix (LABEL ++ [61]) input, strip_prefix (LABEL ++ lit "=:") field ≫= strip_suffix [58] with
      | None, _ => Err (lit "not labeled sig")
      | _, None => Err (lit "not a sig byte sequence")
      | Some params, Some signature =>
          let? u := parse_url text in
          let? base := rebuilt_base params method u (header (lit "Content-Digest")) in
          match b64_decode signature with
          | None => Err (lit "not base64")
          | Some signature =>
              if negb (len signature =? 64) then Err (lit "signature must be 64 bytes")
              else if verify_strict key (as_bytes base) signature then Ok tt
              else Err (lit "signature error")
          end
      end
  end.
End HttpSig.

(** ** The device's payload ([auth.rs]) *)

Definition path_and_query `{UrlCrate} (u : Url) : str :=
  match url_query u with Some query => url_path u ++ [63] ++ query | None => url_path u end.

Definition client_payload (method path_and_query timestamp client_id nonce : str) : str :=
  join [10] [lit "v1"; method; path_and_query; timestamp; client_id; nonce].

Definition KEY_ID_PREFIX : str := lit "userkey_".

(** [key_id_for], of a key whose bytes are already checked. *)
Definition key_id_for `{SshCodecs} (key : PublicKey) : str := KEY_ID_PREFIX ++ hex_encode (sha256_digest key).

(** ** What a base says *)

Lemma ok_inj {T E} (a b : T) : @Ok T E a = Ok b -> a = b.
Proof. by intros [= ->]. Qed.

Lemma newline_free_app a b : newline_free a -> newline_free b -> newline_free (a ++ b).
Proof. intros ??. by apply Forall_app. Qed.

Lemma newline_free_elem s : newline_free s -> 10 ∉ s.
Proof. unfold newline_free. rewrite Forall_forall. intros Hs Hin. by apply (Hs 10 Hin). Qed.

Lemma first_line a b r s :
  newline_free a -> newline_free b -> a ++ [10] ++ r = b ++ [10] ++ s -> a = b /\ r = s.
Proof.
  intros Ha%newline_free_elem Hb%newline_free_elem E. cbn [app] in E.
  assert (Some (a, r) = Some (b, s)) as [= -> ->]; [|done].
  by rewrite <- (proj2 (split_once_spec 10 _ a r) (conj eq_refl Ha)), <- (proj2 (split_once_spec 10 _ b s) (conj eq_refl Hb)), <- E.
Qed.

Lemma signature_line_inj name value value' r s :
  newline_free value -> newline_free value' ->
  signature_line (name, value) ++ r = signature_line (name, value') ++ s -> value = value' /\ r = s.
Proof.
  intros Hv Hv' E. unfold signature_line in E. cbn [fst snd] in E. rewrite <- !app_assoc in E.
  do 4 apply app_inv_head in E. by apply first_line.
Qed.

Lemma lower_newline_free s : newline_free s -> newline_free (to_ascii_lowercase s).
Proof.
  unfold newline_free, to_ascii_lowercase. intros Hs. apply Forall_map. eapply Forall_impl; [exact Hs|]. intros c Hc. cbn in *.
  destruct ((65 <=? c) && (c <=? 90)) eqn:E; lia.
Qed.

Lemma digits_newline_free s : Forall (fun c => is_digit c = true) s -> newline_free s.
Proof. intros Hs. eapply Forall_impl; [exact Hs|]. by intros c Hc ->. Qed.

Section Bound.
Context `{UL : UrlLaws} `{SL : SshCodecLaws}.

Lemma authority_one_line u : newline_free (authority u).
Proof.
  apply lower_newline_free.
  assert (Hh : newline_free (default [] (host_str u))).
  { destruct (host_str u) as [host|] eqn:E; [by apply host_one_line in E|constructor]. }
  destruct (url_port u); [|done]. apply newline_free_app; [done|]. constructor; [done|]. apply digits_newline_free, show_uint_digits.
Qed.

Lemma path_is_one_line u : newline_free (path u).
Proof. unfold path. pose proof (path_one_line u). destruct (url_path u); [|done]. by constructor. Qed.

Lemma query_is_one_line u : newline_free (query u).
Proof.
  constructor; [done|]. destruct (url_query u) as [q|] eqn:E; [by apply query_one_line in E|constructor].
Qed.

Lemma content_digest_one_line digest : newline_free (content_digest digest).
Proof.
  apply newline_free_app; [repeat constructor; done|]. apply newline_free_app; [|by repeat constructor].
  eapply Forall_impl; [apply b64_alphabet|]. by intros c Hc ->.
Qed.

(** The parameters name the components first. *)
Definition names_of (with_digest : bool) : list str :=
  [METHOD; AUTHORITY; PATH; QUERY] ++ if with_digest then [CONTENT_DIGEST] else [].

Definition covered (with_digest : bool) : str :=
  join [32] (map quoted (names_of with_digest)).

Lemma params_covered with_digest created nonce key_id : exists tail,
  params_of (names_of with_digest) created nonce key_id =
  ([40] ++ covered with_digest) ++ 41 :: tail.
Proof. eexists. unfold params_of. fold (covered with_digest). by rewrite <- !app_assoc. Qed.

(** What a verifier rebuilds from the parameters of a signature over those components. *)
Lemma rebuilt_from_params with_digest created nonce key_id m u digest :
  let params := params_of (names_of with_digest) created nonce key_id in
  rebuilt_base params m u digest =
  match with_digest, digest return result str str with
  | true, None => Err (lit "no Content-Digest")
  | true, Some field => Ok (signature_base
      [(METHOD, m); (AUTHORITY, authority u); (PATH, path u); (QUERY, query u); (CONTENT_DIGEST, field)] params)
  | false, _ => Ok (signature_base [(METHOD, m); (AUTHORITY, authority u); (PATH, path u); (QUERY, query u)] params)
  end.
Proof.
  cbn zeta. destruct (params_covered with_digest created nonce key_id) as [tail E].
  set (params := params_of _ _ _ _) in *. unfold rebuilt_base.
  assert (split_once 41 params = Some ([40] ++ covered with_digest, tail)) as ->.
  { rewrite E. apply split_once_spec. split; [done|].
    by destruct with_digest; intros Hin%(bool_decide_pack _); vm_compute in Hin. }
  assert (split_at 32 [] (trim_start_matches 40 ([40] ++ covered with_digest)) =
    map quoted (names_of with_digest)) as ->.
  { by destruct with_digest; vm_compute. }
  assert (component u m digest (quoted METHOD) = Ok (METHOD, m)) as EM by reflexivity.
  assert (component u m digest (quoted AUTHORITY) = Ok (AUTHORITY, authority u)) as EA by reflexivity.
  assert (component u m digest (quoted PATH) = Ok (PATH, path u)) as EP by reflexivity.
  assert (component u m digest (quoted QUERY) = Ok (QUERY, query u)) as EQ by reflexivity.
  assert (component u m digest (quoted CONTENT_DIGEST) =
    match digest return result (str * str) str with Some field => Ok (CONTENT_DIGEST, field) | None => Err (lit "no Content-Digest") end) as ED
    by (by destruct digest).
  destruct with_digest; unfold names_of; cbn [map app traverse]; rewrite EM, EA, EP, EQ; cbn [result_bind]; [|done].
  rewrite ED. by destruct digest.
Qed.

Definition with_digest (digest : option str) : bool := match digest with Some _ => true | None => false end.

Lemma names_of_lines request digest : map fst (lines_of request digest) = names_of (with_digest digest).
Proof. by destruct digest. Qed.

Definition four_lines (m : str) (u : Url) : str :=
  concat (map signature_line [(METHOD, m); (AUTHORITY, authority u); (PATH, path u); (QUERY, query u)]).

Lemma four_lines_inj m u m' u' r r' :
  newline_free m -> newline_free m' -> four_lines m u ++ r = four_lines m' u' ++ r' ->
  m = m' /\ authority u = authority u' /\ path u = path u' /\ query u = query u' /\ r = r'.
Proof.
  intros Hm Hm' E. unfold four_lines in E. cbn [map concat] in E. rewrite <- !app_assoc in E. cbn [app] in E.
  apply signature_line_inj in E as [-> E]; [|done..].
  apply signature_line_inj in E as [-> E]; [|apply authority_one_line..].
  apply signature_line_inj in E as [-> E]; [|apply path_is_one_line..].
  by apply signature_line_inj in E as [-> E]; [|apply query_is_one_line..].
Qed.

(** The base: those four lines, the digest's, and the parameters. *)
Lemma base_lines m u digest params :
  signature_base ([(METHOD, m); (AUTHORITY, authority u); (PATH, path u); (QUERY, query u)] ++
    match digest with Some field => [(CONTENT_DIGEST, field)] | None => [] end) params =
  four_lines m u ++ match digest with Some field => signature_line (CONTENT_DIGEST, field) | None => [] end ++
  [quote] ++ lit "@signature-params" ++ [quote] ++ lit ": " ++ params.
Proof.
  unfold signature_base, four_lines. destruct digest as [field|]; cbn [map concat app]; rewrite <- ?app_assoc, ?app_nil_r; done.
Qed.

(** C28: A user's signature is bound to the request it was made for. Whatever request carries
    the signature's parameters, the base a verifier rebuilds for it is the one that was signed
    exactly when its method, authority, path and query are those of the signed request and,
    when that one had a body, its [Content-Digest] is that body's. *)
Theorem signatures_bind_their_requests {E} key_id nonce created request (signer : list Z -> result (list Z) E) sg :
  newline_free (method request) -> sign key_id nonce created request signer = Ok sg ->
  exists params base signature,
    signature_input sg = LABEL ++ [61] ++ params /\ signer (as_bytes base) = Ok signature /\
    signature_field sg = LABEL ++ lit "=:" ++ b64_encode signature ++ [58] /\
    digest_field sg = content_digest <$> body_sha256 request /\
    forall m u digest, newline_free m -> (forall field, digest = Some field -> newline_free field) ->
      rebuilt_base params m u digest = Ok base <->
      m = method request /\ authority u = authority (url request) /\ path u = path (url request) /\
      query u = query (url request) /\ (forall field, digest_field sg = Some field -> digest = Some field).
Proof.
  intros Hm Hs. unfold sign in Hs. set (d := content_digest <$> body_sha256 request) in *.
  rewrite names_of_lines in Hs. set (params := params_of _ _ _ _) in *.
  destruct (signer _) as [signature|e] eqn:Hsig; [|done]. cbn [result_bind] in Hs. injection Hs as <-.
  exists params, (signature_base (lines_of request d) params), signature. cbn [signature_input signature_field digest_field].
  split_and!; [done..|]. intros m u digest Hnm Hnd. unfold params. rewrite rebuilt_from_params. fold params.
  unfold lines_of. rewrite base_lines.
  assert (Hd : forall field, d = Some field -> newline_free field).
  { unfold d. intros field [b [_ ->]]%fmap_Some. apply content_digest_one_line. }
  destruct d as [field|]; cbn [with_digest].
  - destruct digest as [field'|].
    + pose proof (base_lines m u (Some field') params) as Eb. cbn [app] in Eb. rewrite Eb. split.
      * intros Hb%ok_inj. apply four_lines_inj in Hb as (-> & ? & ? & ? & Hb); [|done..].
        apply signature_line_inj in Hb as [-> _]; [|auto..]. by split_and!.
      * intros (-> & Ea & Ep & Eq & Ed). specialize (Ed _ eq_refl). injection Ed as ->.
        unfold four_lines. by rewrite Ea, Ep, Eq.
    + split; [done|]. intros (_ & _ & _ & _ & Ed). by specialize (Ed _ eq_refl).
  - pose proof (base_lines m u None params) as Eb. cbn [app] in Eb. rewrite Eb. split.
    + intros Hb%ok_inj. by apply four_lines_inj in Hb as (-> & ? & ? & ? & _); [|done..].
    + intros (-> & Ea & Ep & Eq & _). unfold four_lines. by rewrite Ea, Ep, Eq.
Qed.

(** What a user sends, the server's check accepts. A request that carries the fields of its
    signature, to a URL that parses to the one that was signed, verifies under the signer's
    public key. *)
Theorem signed_requests_verify `{CV : !Curve} `{!CurveLaws} {E} seed key_id nonce created request text header sg :
  sign key_id nonce created request (fun msg => Ok (sign_with seed msg) : result (list Z) E) = Ok sg ->
  parse_url text = Ok (url request) -> header (lit "Signature-Input") = Some (signature_input sg) ->
  header (lit "Signature") = Some (signature_field sg) -> header (lit "Content-Digest") = digest_field sg ->
  verify_request (verifying_key seed) (method request) text header = Ok tt.
Proof.
  intros Hs Hu Hi Hf Hd. unfold sign in Hs. cbn [result_bind] in Hs. apply ok_inj in Hs as <-.
  cbn [signature_input signature_field digest_field] in *. unfold verify_request. rewrite Hi, Hf, Hd, Hu.
  rewrite !app_assoc, strip_prefix_app. rewrite <- (app_assoc (LABEL ++ lit "=:")), strip_prefix_app. cbn [mbind option_bind].
  rewrite (proj2 (strip_suffix_spec [58] _ _) eq_refl). cbn [result_bind].
  rewrite names_of_lines, rebuilt_from_params. set (d := content_digest <$> body_sha256 request).
  set (params := params_of _ _ _ _).
  assert ((match with_digest d, d return result str str with
    | true, None => Err (lit "no Content-Digest")
    | true, Some field => Ok (signature_base [(METHOD, method request); (AUTHORITY, authority (url request));
        (PATH, path (url request)); (QUERY, query (url request)); (CONTENT_DIGEST, field)] params)
    | false, _ => Ok (signature_base [(METHOD, method request); (AUTHORITY, authority (url request));
        (PATH, path (url request)); (QUERY, query (url request))] params)
    end) = Ok (signature_base (lines_of request d) params)) as -> by (by destruct d).
  cbn [result_bind]. rewrite b64_round_trip by apply signature_bytes. by rewrite signature_len, signature_verifies.
Qed.
End Bound.

(** The device's payload names its fields: no two requests share one. *)
Lemma client_payload_inj m p t c n m' p' t' c' n' :
  Forall newline_free [m; p; t; c; m'; p'; t'; c'] ->
  client_payload m p t c n = client_payload m' p' t' c' n' -> (m, p, t, c, n) = (m', p', t', c', n').
Proof.
  rewrite !Forall_cons. intros (? & ? & ? & ? & ? & ? & ? & ? & _) Hp. unfold client_payload in Hp. cbn [join] in Hp.
  apply app_inv_head in Hp.
  apply (app_inv_head [10]) in Hp.
  do 4 (apply first_line in Hp as [-> Hp]; [|done..]). by subst.
Qed.

(** ** A request, signed and checked *)

Module Vector.
(** A URL that is its parts already: host, path and query. *)
#[local] Instance urls : UrlCrate := {
  Url := (str * str * option str)%type;
  parse_url text := Ok (lit "mgmt.example", lit "/api/v1/orgs", Some (lit "dry_run=true"));
  host_str u := if bool_decide (10 ∈ u.1.1) then None else Some u.1.1;
  url_port _ := None;
  url_path u := if bool_decide (10 ∈ u.1.2) then [] else u.1.2;
  url_query u := u.2 ≫= fun q => if bool_decide (10 ∈ q) then None else Some q;
  url_scheme u := lit "https";
  url_fragment u := None;
  url_text u := lit "https://" ++ u.1.1 ++ u.1.2;
}.

Lemma not_in_newline_free s : 10 ∉ s -> newline_free s.
Proof. intros Hs. apply Forall_forall. by intros c Hc ->. Qed.

#[local] Instance url_laws : UrlLaws.
Proof.
  constructor.
  - intros u host. cbn. case_bool_decide; [done|]. intros [= <-]. by apply not_in_newline_free.
  - intros u. cbn. case_bool_decide; [constructor|]. by apply not_in_newline_free.
  - intros [[h p] [q|]]; cbn; [|done]. intros query. case_bool_decide; [done|]. intros [= <-]. by apply not_in_newline_free.
Qed.

#[local] Existing Instance Letters.codecs.
#[local] Existing Instance Letters.codec_laws.

#[local] Instance curve : Curve := {
  sign_with seed msg := replicate 64 (len msg mod 256);
  verify_strict key msg signature := bool_decide (signature = replicate 64 (len msg mod 256));
}.

#[local] Instance curve_laws : CurveLaws.
Proof.
  constructor; [done| |].
  - intros seed msg. apply Forall_replicate, Z.mod_pos_bound. lia.
  - intros seed msg. by apply bool_decide_true.
Qed.

Definition request : Outgoing :=
  {| method := lit "POST"; url := (lit "mgmt.example", lit "/api/v1/orgs", Some (lit "dry_run=true"));
     body_sha256 := Some [1; 2; 3] |}.

Definition key_id : str := lit "userkey_b16c2d1bead1262639764fdb0ee4d3774599336bd493404cda4b1136c59f2062".

Definition signed : result Signed unit :=
  sign key_id (lit "4f1c0de5a9b7") 1760000000 request (fun msg => Ok (sign_with [] msg)).

(** The [Signature-Input] of the vector that the module's tests pin. *)
Example shared_vector :
  (signature_input <$> result_ok signed) = Some
    (lit "sig=(" ++ quoted METHOD ++ [32] ++ quoted AUTHORITY ++ [32] ++ quoted PATH ++ [32] ++ quoted QUERY ++ [32] ++
     quoted CONTENT_DIGEST ++ lit ");created=1760000000;nonce=" ++ quoted (lit "4f1c0de5a9b7") ++ lit ";keyid=" ++
     quoted key_id ++ lit ";alg=" ++ quoted (lit "ed25519") ++ lit ";tag=" ++ quoted (lit "pipette")).
Proof. vm_compute. reflexivity. Qed.
End Vector.

#[local] Existing Instance Vector.urls.
#[local] Existing Instance Vector.url_laws.
#[local] Existing Instance Vector.curve.
#[local] Existing Instance Vector.curve_laws.
#[local] Existing Instance Letters.codecs.
#[local] Existing Instance Letters.codec_laws.

Lemma signatures_bind_their_requests_witness : exists sg, Vector.signed = Ok sg /\
  exists params base signature, signature_input sg = LABEL ++ [61] ++ params /\
  (Ok (sign_with [] (as_bytes base)) : result (list Z) unit) = Ok signature /\
  rebuilt_base params (lit "POST") (url Vector.request) (digest_field sg) = Ok base.
Proof.
  destruct Vector.signed as [sg|] eqn:Es; [|vm_compute in Es; discriminate].
  exists sg. split; [reflexivity|].
  destruct (signatures_bind_their_requests Vector.key_id (lit "4f1c0de5a9b7") 1760000000 Vector.request _ sg
    ltac:(apply Vector.not_in_newline_free; intros Hin%(bool_decide_pack _); vm_compute in Hin; done) Es)
    as (params & base & signature & Hi & Hs & _ & Hd & H).
  exists params, base, signature. split; [exact Hi|]. split; [exact Hs|]. apply H.
  - apply Vector.not_in_newline_free. intros Hin%(bool_decide_pack _). vm_compute in Hin. done.
  - intros field Hf. rewrite Hf in Hd. symmetry in Hd. apply fmap_Some in Hd as (d & _ & ->). apply content_digest_one_line.
  - split_and!; reflexivity || auto.
Defined.
