(* ===== verification/MgmtCall.v ===== *)
(** * Calls of the management server ([pipette-mgmt-client], [call.rs])

    A request is assembled, signed and sent, and its answer read: the bodies and their
    excerpts, the conditional requests, the progress stream of an import, and the endpoints
    of a user and of a device ([user_api.rs], [client_api.rs]). The transport, the clock,
    entropy and a key's external holder are the world's answers; [serde_json]'s readers are
    arguments. *)

From Stdlib Require Import ZArith Lia String.
From stdpp Require Import prelude list.
From S2P Require Import Prelude Str Errors Json Ssh SshAgent MgmtSig.

Local Open Scope Z_scope.
Local Open Scope rust_scope.

(** ** Requests and responses ([transport.rs]) *)

Inductive HttpMethod := Get | Post | Put | Patch | Delete | Head.

Definition method_name (m : HttpMethod) : str :=
  match m with
  | Get => lit "GET" | Post => lit "POST" | Put => lit "PUT" | Patch => lit "PATCH"
  | Delete => lit "DELETE" | Head => lit "HEAD"
  end.

Record HttpRequest := {
  req_method : HttpMethod;
  req_url : str;
  req_headers : list (str * str);
  req_body : option (list Z);
}.

Record HttpResponse := { resp_status : Z; resp_headers : list (str * str); resp_body : list Z }.

Definition eq_ignore_ascii_case (a b : str) : bool := str_eqb (to_ascii_lowercase a) (to_ascii_lowercase b).

Definition find_header (headers : list (str * str)) (name : str) : option str :=
  snd <$> List.find (fun h => eq_ignore_ascii_case h.1 name) headers.

Definition resp_header (r : HttpResponse) : str -> option str := find_header (resp_headers r).

Class HttpTransport (W : Type) := {
  (** [execute]: the response read whole, or the transport's message. *)
  execute : HttpRequest -> W -> result HttpResponse str * W;
}.

(** What signing asks of its host. *)
Class SigningHost (W : Type) := {
  now_rfc3339 : W -> result str str * W;
  now_unix : W -> Z * W;
  entropy : nat -> W -> result (list Z) str * W;
  (** [SignsPayload]: the agent at a socket. *)
  sign_payload : str -> PublicKey -> list Z -> W -> result (list Z) str * W;
}.

(** A call that can fail. *)
Definition Call (W T : Type) : Type := W -> result T MgmtError * W.

Definition call_bind {W T U} (m : Call W T) (k : T -> Call W U) : Call W U := fun w =>
  match m w with
  | (Ok t, w) => k t w
  | (Err e, w) => (Err e, w)
  end.

Notation "'call' x <- m ; k" := (call_bind m (fun x => k)) (at level 200, x pattern, m at level 100, k at level 200).

Definition answer_of {W T} (r : result T MgmtError) : Call W T := fun w => (r, w).

Definition mapped {W T} (err : str -> MgmtError) (m : W -> result T str * W) : Call W T := fun w =>
  let '(r, w) := m w in (match r with Ok t => Ok t | Err e => Err (err e) end, w).

(** ** Signing ([auth.rs]) *)

Definition NONCE_LEN : nat := 16.

(** [ClientIdentity], or [UserIdentity] and [KeyOnlyIdentity], which sign alike. *)
Inductive Identity :=
| ClientIdentity (client_id private_key_hex : str)
| UserIdentity (user_key_id : str) (signer : UserSigner).

Section Sign.
Context `{UC : UrlCrate} `{SC : SshCodecs} `{CV : !Curve} {W : Type} `{SH : SigningHost W}.
(** [Timestamp::try_new], of a trimmed text. *)
Context (timestamp_ok : str -> bool).

Definition signing_key (private_key_hex : str) : result (list Z) MgmtError :=
  match hex_decode private_key_hex with
  | None => Err (InvalidPrivateKey (lit "private key is not hex"))
  | Some seed =>
      if len seed =? SEED_LEN then Ok seed
      else Err (InvalidPrivateKey (lit "private key must be 32 bytes of hex, not " ++ show_uint (len seed)))
  end.

Definition generate_nonce : Call W (list Z) := mapped OsEntropy (entropy NONCE_LEN).

Definition user_signature (signer : UserSigner) (message : list Z) : Call W (list Z) :=
  match signer with
  | SignsWithSeed hex => call seed <- answer_of (signing_key hex); answer_of (Ok (sign_with seed message))
  | SignsThrough socket key => mapped Signer (sign_payload socket key message)
  end.

(** [httpsig::sign] asks its signer once, so the answer is found first. *)
Definition sign_message (signer : UserSigner) (key_id : str) (request : Outgoing) : Call W (list (str * str)) :=
  call nonce <- generate_nonce;
  call created <- (fun w => let '(t, w) := now_unix w in (Ok t, w));
  call signed <- (fun w =>
    let base := signature_base (lines_of request (content_digest <$> body_sha256 request))
      (params_of (map fst (lines_of request (content_digest <$> body_sha256 request))) created (hex_encode nonce) key_id) in
    let '(answer, w) := user_signature signer (as_bytes base) w in
    (MgmtSig.sign key_id (hex_encode nonce) created request (fun _ => answer), w));
  answer_of (Ok ([(lit "Signature-Input", signature_input signed); (lit "Signature", signature_field signed)] ++
    match digest_field signed with Some digest => [(lit "Content-Digest", digest)] | None => [] end)).

Definition client_headers (client_id private_key_hex : str) (request : Outgoing) : Call W (list (str * str)) :=
  call derived <- mapped TimestampFormat now_rfc3339;
  call timestamp <- answer_of (if timestamp_ok (trim derived) then Ok (trim derived) else Err (UnusableTimestamp derived));
  call nonce <- generate_nonce;
  let payload := client_payload (method request) (path_and_query (url request)) timestamp client_id (hex_encode nonce) in
  call seed <- answer_of (signing_key private_key_hex);
  answer_of (Ok [(lit "X-Client-Id", client_id); (lit "X-Timestamp", timestamp); (lit "X-Nonce", hex_encode nonce);
    (lit "X-Signature", hex_encode (sign_with seed (as_bytes payload)))]).

Definition signed_headers (auth : Identity) (request : Outgoing) : Call W (list (str * str)) :=
  match auth with
  | ClientIdentity client_id key => client_headers client_id key request
  | UserIdentity key_id signer => sign_message signer key_id request
  end.

(** ** A request ([call.rs]) *)

Record Payload := { bytes : list Z; content_type : str }.

Definition json_payload (bytes : list Z) : Payload := {| bytes := bytes; content_type := lit "application/json" |}.

Definition build_signed (m : HttpMethod) (u : str) (auth : option Identity) (digest : option (list Z)) : Call W HttpRequest :=
  call signed <- match auth with
    | None => answer_of (Ok [])
    | Some auth =>
        call parsed <- answer_of (match parse_url u with Ok p => Ok p | Err e => Err (InvalidUrl u e) end);
        signed_headers auth {| method := method_name m; url := parsed; body_sha256 := digest |}
    end;
  answer_of (Ok {| req_method := m; req_url := u;
    req_headers := (lit "Accept", lit "application/json") :: signed; req_body := None |}).

Definition build_request (m : HttpMethod) (u : str) (auth : option Identity) (if_none_match : option str)
    (body : option Payload) : Call W HttpRequest :=
  let digest := match auth, body with Some _, Some b => Some (sha256_digest (bytes b)) | _, _ => None end in
  call request <- build_signed m u auth digest;
  answer_of (Ok {| req_method := m; req_url := u;
    req_headers := req_headers request ++
      match if_none_match with Some etag => [(lit "If-None-Match", etag)] | None => [] end ++
      match body with Some b => [(lit "Content-Type", content_type b)] | None => [] end;
    req_body := bytes <$> body |}).
End Sign.

(** ** Answers *)

Definition EXCERPT_MAX_CHARS : nat := 512.

(** The body for an error message, behind [separator]. *)
Definition body_excerpt (body : list Z) (separator : str) : str :=
  let text := trim (from_utf8_lossy body) in
  match text with
  | [] => []
  | _ =>
      let excerpt := take EXCERPT_MAX_CHARS text in
      separator ++ excerpt ++ (if bool_decide (length excerpt < length text)%nat then lit "..." else [])
  end.

Definition status_error (r : HttpResponse) (u m : str) : MgmtError :=
  HttpStatus m u (resp_status r) (body_excerpt (resp_body r) (lit ": ")).

Definition is_success (status : Z) : bool := (200 <=? status) && (status <? 300).

(** [from_slice]: serde's reader of the type that is asked for. *)
Definition decode_success {T} (from_slice : list Z -> result T str) (r : HttpResponse) (u m : str) : result T MgmtError :=
  if negb (is_success (resp_status r)) then Err (status_error r u m)
  else
    match from_slice (resp_body r) with
    | Ok t => Ok t
    | Err source => Err (DecodeJson m u (body_excerpt (resp_body r) (lit "; body: ")) source)
    end.

Definition is_ascii_whitespace (b : Z) : bool := (b =? 32) || (b =? 9) || (b =? 10) || (b =? 12) || (b =? 13).

(** [body.trim_ascii().is_empty()]. *)
Definition is_blank (body : list Z) : bool := forallb is_ascii_whitespace body.

(** Of a [Content-Type], its parameters removed. *)
Definition media_essence (value : str) : str :=
  trim (match split_once 59 value with Some (essence, _) => essence | None => value end).

Definition ends_with (s p : str) : bool := bool_decide (is_Some (strip_suffix p s)).

Definition decode_value (from_slice : list Z -> result Value str) (r : HttpResponse) (u m : str) : result Value MgmtError :=
  if negb (is_success (resp_status r)) then Err (status_error r u m)
  else if is_blank (resp_body r) then Ok Null
  else
    let is_json := match resp_header r (lit "content-type") with
      | None => true
      | Some value =>
          let essence := media_essence value in
          eq_ignore_ascii_case essence (lit "application/json") || ends_with (to_ascii_lowercase essence) (lit "+json")
      end in
    if negb is_json then Ok (Json.String (from_utf8_lossy (resp_body r))) else decode_success from_slice r u m.

(** ** The progress stream of an import *)

Record ImportProgress := { hf_ref : str; file : str; bytes_done : Z; bytes_total : Z }.

(** [IngestEvent] of the plan-types crate. *)
Inductive IngestEvent :=
| Progress (p : ImportProgress)
| Keepalive
| IngestResult (body : Value)
| IngestError (status : Z) (error : str).

Section Ingest.
Context (from_slice : list Z -> result Value str) (to_vec : Value -> list Z).
Context (event_of : Value -> result IngestEvent str) (m u : str).

Definition KINDS : list str := [lit "progress"; lit "keepalive"; lit "result"; lit "error"].

Definition event_kind (v : Value) : str := default [] (Json.get (lit "event") v ≫= as_str).

(** What a line is to the call: nothing to stop for, perhaps with progress to report, or
    its end. [broken] is a line without its newline. *)
Definition on_value (line : list Z) (v : Value) : control_flow (result Value MgmtError) (option ImportProgress) :=
  let kind := event_kind v in
  if negb (bool_decide (kind ∈ KINDS)) then Continue None
  else
    match event_of v with
    | Err source =>
        if bool_decide (kind = lit "progress") then Continue None
        else Break (Err (DecodeJson m u (body_excerpt line (lit "; body: ")) source))
    | Ok (Progress p) => Continue (Some p)
    | Ok Keepalive => Continue None
    | Ok (IngestResult body) => Break (Ok body)
    | Ok (IngestError status error) =>
        let body := to_vec (Object [(lit "error", Json.String error)]) in
        Break (Err (HttpStatus m u status (body_excerpt body (lit ": "))))
    end.

Definition ended (cause : str) : result Value MgmtError := Err (StreamEnded m u cause).

Definition on_line (line : list Z) : control_flow (result Value MgmtError) (option ImportProgress) :=
  if is_blank line then Continue None
  else
    match from_slice line with
    | Ok v => on_value line v
    | Err source =>
        if bool_decide (last line = Some 10) then
          Break (Err (DecodeJson m u (body_excerpt line (lit "; body: ")) source))
        else Break (ended (lit "the connection broke in the middle of a line"))
    end.

Definition report (p : option ImportProgress) : list ImportProgress := match p with Some p => [p] | None => [] end.

(** [read_ingest]: what was reported, and the answer. [broken] is the error that ends the
    bytes, [None] when the server closed the connection. *)
Fixpoint read_ingest_from (line : list Z) (bytes : list Z) (broken : option str) : list ImportProgress * result Value MgmtError :=
  match bytes with
  | [] =>
      match broken with
      | Some e => ([], ended e)
      | None =>
          match line with
          | [] => ([], ended (lit "the server closed the connection"))
          | _ =>
              match on_line line with
              | Break r => ([], r)
              | Continue p => (report p, ended (lit "the server closed the connection"))
              end
          end
      end
  | b :: bytes =>
      if b =? 10 then
        match on_line (line ++ [b]) with
        | Break r => ([], r)
        | Continue p => let '(ps, r) := read_ingest_from [] bytes broken in (report p ++ ps, r)
        end
      else read_ingest_from (line ++ [b]) bytes broken
  end.

Definition read_ingest : list Z -> option str -> list ImportProgress * result Value MgmtError := read_ingest_from [].
End Ingest.

(** ** Calls *)

Section Calls.
Context `{UC : UrlCrate} `{SC : SshCodecs} `{CV : !Curve} {W : Type} `{SH : SigningHost W} `{HT : HttpTransport W}.
Context (timestamp_ok : str -> bool) (server : str).

Definition Answered : Type := HttpResponse * str * str.

Definition dispatch (m : HttpMethod) (path : str) (auth : option Identity) (if_none_match : option str)
    (body : option Payload) : Call W Answered :=
  let u := server ++ path in
  call request <- build_request timestamp_ok m u auth if_none_match body;
  call response <- mapped (Transport (method_name m) u) (execute request);
  answer_of (Ok (response, u, method_name m)).

Definition send (m : HttpMethod) (path : str) (auth : option Identity) : Call W Answered := dispatch m path auth None None.

Definition send_json {T} (from_slice : list Z -> result T str) (m : HttpMethod) (path : str) (auth : option Identity)
    (body : list Z) : Call W T :=
  call (response, u, name) <- dispatch m path auth None (Some (json_payload body));
  answer_of (decode_success from_slice response u name).

Inductive RequestBody := JsonBody (v : Value) | TomlBody (text : str).

Definition encode (to_vec : Value -> list Z) (body : RequestBody) : Payload :=
  match body with
  | JsonBody v => json_payload (to_vec v)
  | TomlBody text => {| bytes := as_bytes text; content_type := lit "application/toml" |}
  end.

Definition send_value (from_slice : list Z -> result Value str) (to_vec : Value -> list Z) (m : HttpMethod) (path : str)
    (auth : option Identity) (body : option RequestBody) : Call W Value :=
  call (response, u, name) <- dispatch m path auth None (encode to_vec <$> body);
  answer_of (decode_value from_slice response u name).

Definition exists_ (path : str) (auth : option Identity) : Call W bool :=
  call (response, u, name) <- dispatch Head path auth None None;
  answer_of (if is_success (resp_status response) then Ok true
             else if resp_status response =? 404 then Ok false
             else Err (status_error response u name)).

Definition get_json {T} (from_slice : list Z -> result T str) (path : str) (auth : option Identity) : Call W T :=
  call (response, u, name) <- dispatch Get path auth None None;
  answer_of (decode_success from_slice response u name).

Definition send_empty (m : HttpMethod) (path : str) (auth : option Identity) : Call W unit :=
  call (response, u, name) <- send m path auth;
  answer_of (if is_success (resp_status response) then Ok tt else Err (status_error response u name)).

(** ** A user's endpoints ([user_api.rs]) *)

Inductive RefusalError := UserDisabled | TimestampExpired | OtherRefusal (reason : str).

Definition refusal_of (reason : str) : RefusalError :=
  if str_eqb reason (lit "user is disabled") then UserDisabled
  else if str_eqb reason (lit "timestamp expired") then TimestampExpired
  else OtherRefusal reason.

Inductive KeyApproval (P : Type) := Approved (profile : P) | Pending | KeyRefused (r : RefusalError).

Arguments Approved {P} _.
Arguments Pending {P}.
Arguments KeyRefused {P} _.

(** [server_reason]: serde's reader of [{"error": "..."}]. *)
Context (server_reason : list Z -> option str).

Definition me_by_key {P} (profile_of : list Z -> result P str) (auth : Identity) : Call W (KeyApproval P) :=
  call (response, u, name) <- send Get (lit "/api/v1/users/me") (Some auth);
  let status := resp_status response in
  match (if (status =? 401) || (status =? 403) then server_reason (resp_body response) else None) with
  | Some reason =>
      let pending := (status =? 401) && (str_eqb reason (lit "key not found") || str_eqb reason (lit "key expired")) in
      answer_of (Ok (if pending then Pending else KeyRefused (refusal_of reason)))
  | None =>
      answer_of (match decode_success profile_of response u name with Ok profile => Ok (Approved profile) | Err e => Err e end)
  end.

Definition register {T} (receipt_of : list Z -> result T str) (body : list Z) : Call W T :=
  send_json receipt_of Post (lit "/api/v1/users/register") None body.

Definition me {P} (profile_of : list Z -> result P str) (auth : Identity) : Call W P :=
  get_json profile_of (lit "/api/v1/users/me") (Some auth).

Definition add_key {T} (receipt_of : list Z -> result T str) (auth : Identity) (body : list Z) : Call W T :=
  send_json receipt_of Post (lit "/api/v1/users/me/keys") (Some auth) body.

Definition revoke_key (auth : Identity) (user_key_id : str) : Call W unit :=
  send_empty Delete (lit "/api/v1/users/me/keys/" ++ user_key_id) (Some auth).

(** ** A device's endpoints ([client_api.rs]) *)

(** [POST /plans/claim]: [None] on [204]. *)
Definition claim {J} (job_of : list Z -> result J str) (auth : Identity) : Call W (option J) :=
  call (response, u, name) <- send Post (lit "/plans/claim") (Some auth);
  answer_of (if resp_status response =? 204 then Ok None
             else match decode_success job_of response u name with Ok job => Ok (Some job) | Err e => Err e end).

Definition heartbeat (auth : Identity) (job : str) : Call W unit :=
  send_empty Put (lit "/plans/" ++ job ++ lit "/heartbeat") (Some auth).

Definition reclaim (auth : Identity) (job : str) : Call W unit :=
  send_empty Post (lit "/plans/" ++ job ++ lit "/reclaim") (Some auth).

Definition submit_result {T} (accepted_of : list Z -> result T str) (auth : Identity) (payload : list Z) : Call W T :=
  send_json accepted_of Post (lit "/benchmarks") (Some auth) payload.

Definition get_dataset (auth : Identity) (path : str) : Call W (list Z) :=
  call (response, u, name) <- send Get path (Some auth);
  answer_of (if is_success (resp_status response) then Ok (resp_body response) else Err (status_error response u name)).

Definition get_json_conditional {T} (from_slice : list Z -> result T str) (entity_tag : str -> option str) (path : str)
    (auth : option Identity) (if_none_match : option str) : Call W (option T * option str) :=
  call (response, u, name) <- dispatch Get path auth if_none_match None;
  let etag := resp_header response (lit "etag") ≫= entity_tag in
  answer_of (if resp_status response =? 304 then Ok (None, etag)
             else match decode_success from_slice response u name with Ok t => Ok (Some t, etag) | Err e => Err e end).
End Calls.

Arguments Approved {P} _.
Arguments Pending {P}.
Arguments KeyRefused {P} _.

(** *** Whole streams and cut ones *)

Definition Fields : Type := list (str * Value).

(** What [serde_json] promises of an object it writes: one line, read back with or without
    its newline, no proper start of which is JSON. *)
Record WireObject (from_slice : list Z -> result Value str) (to_vec : Value -> list Z) (o : Fields) : Prop := {
  object_one_line : 10 ∉ to_vec (Object o);
  object_brace : exists rest, to_vec (Object o) = 123 :: rest;
  object_line_reads : from_slice (to_vec (Object o) ++ [10]) = Ok (Object o);
  object_reads : from_slice (to_vec (Object o)) = Ok (Object o);
  object_cut k : (k < length (to_vec (Object o)))%nat -> exists e, from_slice (take k (to_vec (Object o))) = Err e;
}.

Section Streams.
Context (from_slice : list Z -> result Value str) (to_vec : Value -> list Z).
Context (event_of : Value -> result IngestEvent str) (m u : str).

Notation turn_of := (on_value to_vec event_of m u).
Notation turn_at := (on_line from_slice to_vec event_of m u).
Notation read_from := (read_ingest_from from_slice to_vec event_of m u).
Notation reads_all := (read_ingest from_slice to_vec event_of m u).
Notation wire_object := (WireObject from_slice to_vec).

Definition line_of (o : Fields) : list Z := to_vec (Object o) ++ [10].

(** What a server that writes those objects sends. *)
Definition stream (os : list Fields) : list Z := os ≫= line_of.

(** A line that reports [p] and goes on, and one that answers. *)
Definition goes_on (o : Fields) (p : option ImportProgress) : Prop := turn_of (line_of o) (Object o) = Continue p.
Definition answers (o : Fields) (line : list Z) (r : result Value MgmtError) : Prop := turn_of line (Object o) = Break r.

Lemma on_value_continues line line' v p : turn_of line v = Continue p -> turn_of line' v = Continue p.
Proof.
  unfold on_value. destruct (negb _); [done|]. destruct (event_of v) as [[]|]; [done..|].
  by destruct (bool_decide _).
Qed.

Lemma object_not_blank o k : wire_object o -> k <> 0%nat -> is_blank (take k (to_vec (Object o))) = false.
Proof. intros Ho. destruct (object_brace _ _ _ Ho) as [rest ->]. by destruct k. Qed.

Lemma object_line_not_blank o : wire_object o -> is_blank (line_of o) = false.
Proof. intros Ho. unfold line_of. by destruct (object_brace _ _ _ Ho) as [rest ->]. Qed.

Lemma read_line line l rest broken :
  10 ∉ l ->
  read_from line (l ++ 10 :: rest) broken =
  match turn_at (line ++ l ++ [10]) with
  | Break r => ([], r)
  | Continue p => let '(ps, r) := reads_all rest broken in (report p ++ ps, r)
  end.
Proof.
  revert line. induction l as [|b l IH]; intros line Hl; cbn [app read_ingest_from].
  - done.
  - apply not_elem_of_cons in Hl as [Hb Hl]. destruct (Z.eqb_spec b 10) as [->|_]; [done|].
    rewrite IH by done. by rewrite <- app_assoc.
Qed.

Lemma read_object o rest broken :
  wire_object o ->
  reads_all (line_of o ++ rest) broken =
  match turn_of (line_of o) (Object o) with
  | Break r => ([], r)
  | Continue p => let '(ps, r) := reads_all rest broken in (report p ++ ps, r)
  end.
Proof.
  intros Ho. unfold line_of at 1. rewrite <- app_assoc. cbn [app]. unfold read_ingest at 1.
  rewrite read_line by apply (object_one_line _ _ _ Ho). cbn [app]. fold (line_of o). unfold on_line.
  rewrite object_line_not_blank by done. unfold line_of at 1. by rewrite (object_line_reads _ _ _ Ho).
Qed.

Lemma read_tail line l broken :
  10 ∉ l ->
  read_from line l broken =
  match broken with
  | Some e => ([], ended m u e)
  | None => match line ++ l with
            | [] => ([], ended m u (lit "the server closed the connection"))
            | _ => match turn_at (line ++ l) with
                   | Break r => ([], r)
                   | Continue p => (report p, ended m u (lit "the server closed the connection"))
                   end
            end
  end.
Proof.
  revert line. induction l as [|b l IH]; intros line Hl; cbn [read_ingest_from].
  - rewrite app_nil_r. by destruct broken, line.
  - apply not_elem_of_cons in Hl as [Hb Hl]. destruct (Z.eqb_spec b 10) as [->|_]; [done|].
    rewrite IH by done. by rewrite <- app_assoc.
Qed.

(** The connection broke within an object or right after it, before its newline. *)
Lemma read_cut o k broken :
  wire_object o -> (k <= length (to_vec (Object o)))%nat ->
  let '(ps, r) := reads_all (take k (to_vec (Object o))) broken in
  (ps = [] /\ exists cause, r = ended m u cause) \/
  (k = length (to_vec (Object o)) /\ broken = None /\
   match turn_of (to_vec (Object o)) (Object o) with
   | Break r' => ps = [] /\ r = r'
   | Continue p => ps = report p /\ exists cause, r = ended m u cause
   end).
Proof.
  intros Ho Hk. assert (Hn : 10 ∉ take k (to_vec (Object o))).
  { intros Hin. apply (object_one_line _ _ _ Ho). apply elem_of_take in Hin as (i & Hi & _). by eapply list_elem_of_lookup_2. }
  unfold read_ingest. rewrite read_tail by done. cbn [app].
  destruct broken as [e|]; [left; eauto|].
  destruct (take k (to_vec (Object o))) as [|b t] eqn:Et; [left; eauto|]. rewrite <- Et in *.
  destruct (decide (k = length (to_vec (Object o)))) as [->|Hne].
  - rewrite firstn_all in *. unfold on_line. rewrite (object_reads _ _ _ Ho).
    assert (is_blank (to_vec (Object o)) = false) as -> by (by destruct (object_brace _ _ _ Ho) as [rest ->]).
    destruct (turn_of _ _); right; eauto 10.
  - destruct (object_cut _ _ _ Ho k ltac:(lia)) as [e He]. unfold on_line.
    rewrite object_not_blank by (done || intros ->; done). rewrite He. rewrite bool_decide_false; [left; eauto|].
    intros Hl. apply Hn. by apply last_Some_elem_of.
Qed.

Lemma take_line o more k :
  if decide (k <= length (to_vec (Object o)))%nat then take k (line_of o ++ more) = take k (to_vec (Object o))
  else take k (line_of o ++ more) = line_of o ++ take (k - length (line_of o)) more.
Proof.
  destruct (decide _) as [Hk|Hk].
  - unfold line_of. rewrite <- app_assoc. by rewrite take_app_le.
  - rewrite take_app_ge; [done|]. unfold line_of. rewrite length_app. cbn [length]. lia.
Qed.

Lemma length_line o : length (line_of o) = S (length (to_vec (Object o))).
Proof. unfold line_of. rewrite length_app. cbn [length]. lia. Qed.

End Streams.

(** ** What is sent, the server accepts *)

Section Sent.
Context `{UL : UrlLaws} `{SL : SshCodecLaws} `{CV : !Curve} `{CL : !CurveLaws} {W : Type} `{SH : SigningHost W}.

Lemma call_ok {T U} (f : Call W T) (k : T -> Call W U) w u w' :
  call_bind f k w = (Ok u, w') -> exists t w1, f w = (Ok t, w1) /\ k t w1 = (Ok u, w').
Proof. unfold call_bind. destruct (f w) as [[t|e] w1]; [eauto|done]. Qed.

Lemma answer_ok {T} (r : result T MgmtError) (w : W) t w' : answer_of r w = (Ok t, w') -> r = Ok t /\ w' = w.
Proof. by intros [= -> ->]. Qed.

Definition signed_fields (sg : Signed) : list (str * str) :=
  [(lit "Signature-Input", signature_input sg); (lit "Signature", signature_field sg)] ++
  match digest_field sg with Some digest => [(lit "Content-Digest", digest)] | None => [] end.

Lemma signed_by_seed hex seed key_id request (w : W) headers w' :
  hex_decode hex = Some seed ->
  sign_message (SignsWithSeed hex) key_id request w = (Ok headers, w') ->
  exists nonce created sg,
    MgmtSig.sign key_id nonce created request (fun msg => Ok (sign_with seed msg) : result (list Z) MgmtError) = Ok sg /\
    headers = signed_fields sg.
Proof.
  intros Hh. unfold sign_message. intros (nonce & w1 & _ & Hs)%call_ok. apply call_ok in Hs as (created & w2 & _ & Hs).
  apply call_ok in Hs as (sg & w3 & Hsg & [[= <-] ->]%answer_ok). exists (hex_encode nonce), created, sg. split; [|done].
  destruct (user_signature _ _ w2) as [answer w4] eqn:Ea. injection Hsg as Hsg _. rewrite <- Hsg.
  unfold user_signature, signing_key in Ea. rewrite Hh in Ea. unfold MgmtSig.sign in Hsg |- *.
  unfold call_bind, answer_of in Ea. destruct (len seed =? SEED_LEN); injection Ea as <- <-; [done|]. done.
Qed.

End Sent.

(** ** One import, and one signed call *)

#[local] Existing Instance Vector.urls.
#[local] Existing Instance Vector.url_laws.
#[local] Existing Instance Vector.curve.
#[local] Existing Instance Vector.curve_laws.
#[local] Existing Instance Letters.codecs.
#[local] Existing Instance Letters.codec_laws.

Module Import_.
Definition progress : Fields := [(lit "event", Json.String (lit "progress"))].
Definition result_line : Fields := [(lit "event", Json.String (lit "result"))].

Definition quoted_text (s : str) : str := [quote] ++ s ++ [quote].
Definition text (kind : str) : list Z :=
  [123] ++ quoted_text (lit "event") ++ [58] ++ quoted_text kind ++ [125].

(** A codec of those two objects. *)
Definition to_vec (v : Value) : list Z :=
  match v with
  | Object [(_, Json.String kind)] => text kind
  | _ => text []
  end.

Definition from_slice (bytes : list Z) : result Value str :=
  let line := default bytes (strip_suffix [10] bytes) in
  if str_eqb line (text (lit "progress")) then Ok (Object progress)
  else if str_eqb line (text (lit "result")) then Ok (Object result_line) else Err (lit "EOF while parsing").

Definition model : ImportProgress := {| hf_ref := lit "org/model@1"; file := lit "w.gguf"; bytes_done := 1; bytes_total := 2 |}.

Definition event_of (v : Value) : result IngestEvent str :=
  if str_eqb (event_kind v) (lit "progress") then Ok (Progress model) else Ok (IngestResult (Json.Bool true)).

Lemma cuts (l : list Z) :
  forallb (fun k => match from_slice (take k l) with Err _ => true | Ok _ => false end) (seq 0 (length l)) = true ->
  forall k, (k < length l)%nat -> exists e, from_slice (take k l) = Err e.
Proof.
  rewrite forallb_forall. intros H k Hk. specialize (H k ltac:(apply in_seq; lia)).
  destruct (from_slice (take k l)); [done|eauto].
Qed.

Lemma wire_objects : Forall (WireObject from_slice to_vec) [progress; result_line].
Proof.
  repeat constructor; try (vm_compute; reflexivity); try (by eexists; vm_compute);
    try (apply cuts; vm_compute; reflexivity); intros Hin%(bool_decide_pack _); vm_compute in Hin; done.
Qed.
End Import_.


Module Laptop.
#[local] Instance host : SigningHost unit := {
  now_rfc3339 w := (Ok (lit "2026-01-01T00:00:00Z"), w);
  now_unix w := (1760000000, w);
  entropy n w := (Ok (replicate n 7), w);
  sign_payload socket key msg w := (Err (lit "locked"), w);
}.

Definition hex : str := hex_encode (replicate 32 7).
Definition built : result HttpRequest MgmtError * unit :=
  build_request (fun _ => true) Post (lit "https://mgmt.example/api/v1/orgs?dry_run=true")
    (Some (UserIdentity Vector.key_id (SignsWithSeed hex))) None (Some (json_payload [123; 125])) tt.
End Laptop.

#[local] Existing Instance Laptop.host.

