(* ===== verification/CtlIdentity.v ===== *)
(** * The identity a working directory signs as ([pipette-ctl], [identity.rs])

    [.pipette-ctl/identity/] holds a record, [user.json], and a generated key beside it. It
    is a state [World] of inodes and names that several commands may share: each command is
    a [script] of the file operations it asks for, which may fail, write short or be the
    command's last. Names and bytes reach the disk apart: [lasting] lists what the names may
    be after a power loss, and a file that was not synced may then hold anything. *)

From Stdlib Require Import ZArith Lia String.
From stdpp Require Import prelude list fin_maps gmap.
From S2P Require Import Prelude Str Errors Script Ssh SshAgent MgmtSig MgmtCall.

Local Open Scope Z_scope.
Local Open Scope rust_scope.
Local Open Scope script_scope.

(** ** The directory *)

(** [id_ed25519], [user.json] and [user.json.tmp]. *)
Inductive Name := PRIVATE_KEY_NAME | USER_NAME | TMP_NAME.

#[export] Instance Name_eq_dec : EqDecision Name.
Proof. solve_decision. Defined.

Inductive IoError := NotFound | AlreadyExists | Unsupported | InvalidInput | InvalidData | WriteZero | OtherIo (why : str).

Record File := { data : list Z; synced : bool }.

Record Names := { key_at : option nat; user_at : option nat; tmp_at : option nat }.

Definition name_at (n : Name) (ns : Names) : option nat :=
  match n with PRIVATE_KEY_NAME => key_at ns | USER_NAME => user_at ns | TMP_NAME => tmp_at ns end.

Definition set_name (n : Name) (i : option nat) (ns : Names) : Names :=
  match n with
  | PRIVATE_KEY_NAME => {| key_at := i; user_at := user_at ns; tmp_at := tmp_at ns |}
  | USER_NAME => {| key_at := key_at ns; user_at := i; tmp_at := tmp_at ns |}
  | TMP_NAME => {| key_at := key_at ns; user_at := user_at ns; tmp_at := i |}
  end.

(** The directory, a clock, and for the proofs: which key the server accepted from which
    command, and the command that created the key file, until it ends. *)
Record World := {
  inodes : gmap nat File;
  next_inode : nat;
  names : Names;
  lasting : list Names;
  clock : Z;
  accepted : list (nat * str);
  key_owner : option nat;
}.

Definition set_file (i : nat) (f : File) (w : World) : World :=
  {| inodes := <[i := f]> (inodes w); next_inode := next_inode w; names := names w; lasting := lasting w;
     clock := clock w; accepted := accepted w; key_owner := key_owner w |}.

(** The names change together; until the directory is synced, either may last. *)
Definition set_names (ns : Names) (w : World) : World :=
  {| inodes := inodes w; next_inode := next_inode w; names := ns; lasting := ns :: lasting w;
     clock := clock w; accepted := accepted w; key_owner := key_owner w |}.

Definition settle (w : World) : World :=
  {| inodes := inodes w; next_inode := next_inode w; names := names w; lasting := [names w];
     clock := clock w; accepted := accepted w; key_owner := key_owner w |}.

Definition new_file (n : Name) (w : World) : nat * World :=
  (next_inode w,
   set_names (set_name n (Some (next_inode w)) (names w))
     {| inodes := <[next_inode w := {| data := []; synced := false |}]> (inodes w); next_inode := S (next_inode w);
        names := names w; lasting := lasting w; clock := clock w; accepted := accepted w; key_owner := key_owner w |}).

Definition tick (t : Z) (w : World) : World :=
  {| inodes := inodes w; next_inode := next_inode w; names := names w; lasting := lasting w;
     clock := clock w + Z.max 0 t; accepted := accepted w; key_owner := key_owner w |}.

Definition note_accepted (p : nat) (key_id : str) (w : World) : World :=
  {| inodes := inodes w; next_inode := next_inode w; names := names w; lasting := lasting w;
     clock := clock w; accepted := (p, key_id) :: accepted w; key_owner := key_owner w |}.

Definition set_owner (o : option nat) (w : World) : World :=
  {| inodes := inodes w; next_inode := next_inode w; names := names w; lasting := lasting w;
     clock := clock w; accepted := accepted w; key_owner := o |}.

(** A command that ends, killed or not. *)
Definition dies (p : nat) (w : World) : World := if bool_decide (key_owner w = Some p) then set_owner None w else w.

Definition contents (n : Name) (w : World) : option (list Z) :=
  i ← name_at n (names w); data <$> inodes w !! i.

(** [pwrite]: over what is there, the gap before it filled with zeros. *)
Definition write_at (off : nat) (bs old : list Z) : list Z :=
  take off (old ++ replicate (off - length old) 0) ++ bs ++ drop (off + length bs) old.

(** ** What a command asks *)

(** Of an account: what the server confirms of it. *)
Record Profile := { profile_user_id : str; contact_email : str; pending : bool }.
Record Receipt := { receipt_user_id : str; receipt_key_id : str; receipt_pending : bool }.

Inductive CtlE : Type -> Type :=
| CreateDir : CtlE (result unit IoError)
| Narrow : CtlE (result unit IoError)
| OpenNew (n : Name) : CtlE (result nat IoError)
| Create (n : Name) : CtlE (result nat IoError)
| Write (h off : nat) (bs : list Z) : CtlE (result nat IoError)
| SyncAll (h : nat) : CtlE (result unit IoError)
| Rename (from to : Name) : CtlE (result unit IoError)
| OpenDir : CtlE (result unit IoError)
| SyncDir : CtlE (result unit IoError)
| ReadFile (n : Name) : CtlE (result (list Z) IoError)
| Exists (n : Name) : CtlE bool
| Entropy : CtlE (result (list Z) str)
| Available : CtlE (Inventory * (str -> FileText))
| PostRegister (public_key key_id : str) : CtlE (result Receipt MgmtError)
| AskKey (key_id : str) (signer : UserSigner) : CtlE (result (KeyApproval Profile) MgmtError)
| Elapsed : CtlE Z
| Sleep (d : Z) : CtlE unit.

(** What the world does in one operation: what was asked, a failure, a short write, or an
    answer from outside. *)
Inductive Choice :=
| Fine
| Fails (e : IoError)
| Short (n : nat)
| Seed (bytes : list Z)
| NoEntropy (why : str)
| Has (found : Inventory) (contents : str -> FileText)
| Receives (r : result Receipt MgmtError)
| Approves (r : result (KeyApproval Profile) MgmtError)
| After (ns : Z).

Definition fails (c : Choice) : option IoError := match c with Fails e => Some e | _ => None end.

Definition passed (c : Choice) : Z := match c with After ns => ns | _ => 0 end.

(** [getrandom::fill] of a buffer. *)
Definition filled (n : nat) (bytes : list Z) : list Z := map (fun b => b mod 256) (take n (bytes ++ replicate n 0)).

(** A refused registration, or one whose answer was lost, may have taken effect at the
    server, but nothing was confirmed. *)
Definition act (A : Type) (p : nat) (e : CtlE A) (c : Choice) (w : World) : A * World :=
  match e in CtlE A return A * World with
  | CreateDir | Narrow | OpenDir => (match fails c with Some e => Err e | None => Ok tt end, w)
  | OpenNew n =>
      match fails c with
      | Some e => (Err e, w)
      | None =>
          match name_at n (names w) with
          | Some _ => (Err AlreadyExists, w)
          | None =>
              let '(i, w) := new_file n w in
              (Ok i, match n with PRIVATE_KEY_NAME => set_owner (Some p) w | _ => w end)
          end
      end
  | Create n =>
      match fails c with
      | Some e => (Err e, w)
      | None =>
          match name_at n (names w) with
          | Some i => (Ok i, set_file i {| data := []; synced := false |} w)
          | None => let '(i, w) := new_file n w in (Ok i, w)
          end
      end
  | Write h off bs =>
      match fails c with
      | Some e => (Err e, w)
      | None =>
          let n := match c with Short n => Nat.min n (length bs) | _ => length bs end in
          let old := default [] (data <$> inodes w !! h) in
          (Ok n, set_file h {| data := write_at off (take n bs) old; synced := false |} w)
      end
  | SyncAll h =>
      match fails c with
      | Some e => (Err e, w)
      | None => (Ok tt, match inodes w !! h with Some f => set_file h {| data := data f; synced := true |} w | None => w end)
      end
  | Rename from to =>
      match fails c with
      | Some e => (Err e, w)
      | None =>
          match name_at from (names w) with
          | None => (Err NotFound, w)
          | Some i => (Ok tt, set_names (set_name from None (set_name to (Some i) (names w))) w)
          end
      end
  | SyncDir => match fails c with Some e => (Err e, w) | None => (Ok tt, settle w) end
  | ReadFile n =>
      match fails c with
      | Some e => (Err e, w)
      | None => (match contents n w with Some bytes => Ok bytes | None => Err NotFound end, w)
      end
  | Exists n => (match fails c with Some _ => false | None => bool_decide (is_Some (name_at n (names w))) end, w)
  | Entropy => (match c with Seed bytes => Ok (filled 32 bytes) | NoEntropy why => Err why | _ => Err [] end, w)
  | Available => (match c with Has found contents => (found, contents) | _ => ({| keys := []; skipped := [] |}, fun _ => NotUtf8) end, w)
  | PostRegister _ key_id =>
      match c with
      | Receives (Ok r) => (Ok r, note_accepted p key_id w)
      | Receives r => (r, w)
      | _ => (Err (Transport [] [] []), w)
      end
  | AskKey key_id _ =>
      match c with
      | Approves (Ok (Approved profile)) => (Ok (Approved profile), note_accepted p key_id w)
      | Approves r => (r, w)
      | _ => (Err (Transport [] [] []), w)
      end
  | Elapsed => (clock w + Z.max 0 (passed c), tick (passed c) w)
  | Sleep d => (tt, tick (Z.max 0 d + Z.max 0 (passed c)) w)
  end.

(** ** Keys and records *)

Record SshKeyRecord := { public_key : str; record_found_at : str }.

Record UserRecord := { user_id : str; user_key_id : str; server_url : str; ssh_key : option SshKeyRecord }.

(** [serde_json], of the record. *)
Class RecordJson := {
  record_json : UserRecord -> list Z;
  record_of : list Z -> option UserRecord;
}.

(** The key a directory signs with, and the one [write] is given. *)
Inductive StoredKey := Local | System (record : SshKeyRecord).

Inductive KeyToStore := Generated (private_key_hex : str) | ToRecord (record : SshKeyRecord) | InPlace.

Inductive Failure :=
| Io (what : str) (e : IoError)
| NotARecord
| BadPrivateKey
| BadPublicKey
| AlreadyHolds (n : Name)
| NoIdentity
| UnusableId
| UnusableServer (why : str)
| CannotChoose (e : NoKey)
| CannotSign (e : NoSigner)
| NoEntropyLeft (why : str)
| Mgmt (e : MgmtError)
| ReceiptUnread (e : MgmtError)
| MayHaveRegistered (key_id : str) (e : MgmtError)
| KeyIdsDiffer (derived returned : str)
| Unsaved (e : Failure)
| KeySwapRefused
| ServerRefused (r : RefusalError)
| StatusRefused (e : MgmtError)
| WrittenMeanwhile (e : Failure)
| ChangedMeanwhile
| NotApproved (last_failure : option MgmtError)
| NotAKeyId.

Definition Fallible (T : Type) : Type := script CtlE (result T Failure).

Definition ok {T} (t : T) : Fallible T := Done (Ok t).
Definition failed {T} (e : Failure) : Fallible T := Done (Err e).

(** An I/O call, its error named by what it was for. *)
Definition io {T} (what : str) (e : CtlE (result T IoError)) : Fallible T :=
  do r <- ask e; Done (match r with Ok t => Ok t | Err e => Err (Io what e) end).

(** [with_context]. *)
Definition in_context {T} (why : Failure -> Failure) (m : Fallible T) : Fallible T :=
  do r <- m; Done (match r with Ok t => Ok t | Err e => Err (why e) end).

Definition DEFAULT_SERVER_URL : str := lit "https://collector.pipette.liquid.ai".

Section Identity.
Context `{UC : UrlCrate} `{SC : SshCodecs} `{RJ : RecordJson}.

(** [PrivateKey::try_new] and [PublicKey::try_new]: trimmed, lowercased, 32 bytes of hex. No
    character outside ASCII has a hex digit for its lowercase. *)
Definition checked_key (text : str) : option str :=
  let hex := to_ascii_lowercase (trim text) in
  bytes ← hex_decode hex; if len bytes =? 32 then Some hex else None.

Definition public_key_hex_from_private (private_key_hex : str) : result str Failure :=
  match hex_decode private_key_hex with
  | Some seed => Ok (hex_encode (verifying_key seed))
  | None => Err BadPrivateKey
  end.

(** [key_id_for], of a public key in hex. *)
Definition key_id_of (public_key_hex : str) : result str Failure :=
  match hex_decode public_key_hex with
  | Some bytes => Ok (key_id_for bytes)
  | None => Err BadPublicKey
  end.

(** [ServerUrl::try_new] ([types.rs]). *)
Fixpoint trim_end_matches (c : Z) (rev_s : str) : str :=
  match rev_s with
  | x :: s => if x =? c then trim_end_matches c s else rev rev_s
  | [] => []
  end.

Definition normalize_server_url (raw : str) : str :=
  match parse_url (trim raw) with
  | Ok parsed => trim_end_matches 47 (rev (url_text parsed))
  | Err _ => trim raw
  end.

Definition check_server_url (value : str) : result unit str :=
  match parse_url value with
  | Err source => Err (lit "invalid management server URL: " ++ source)
  | Ok parsed =>
      if negb (bool_decide (url_scheme parsed ∈ [lit "http"; lit "https"])) then
        Err (lit "management server URL must use http or https")
      else if bool_decide (is_Some (url_query parsed)) || bool_decide (is_Some (url_fragment parsed)) then
        Err (lit "management server URL must not carry a query or fragment")
      else Ok tt
  end.

Definition server_url_of (raw : str) : result str Failure :=
  match check_server_url (normalize_server_url raw) with
  | Ok _ => Ok (normalize_server_url raw)
  | Err why => Err (UnusableServer why)
  end.

(** ** Reading *)

Record RegisteredIdentity := {
  stored_user_id : option str;
  stored_key_id : option str;
  stored_server : option str;
  stored_key : option StoredKey;
}.

(** Only an absent file is no identity. *)
Definition read_user_record : Fallible (option UserRecord) :=
  do r <- ask (ReadFile USER_NAME);
  match r with
  | Err NotFound => ok None
  | Err e => failed (Io (lit "to read the stored identity") e)
  | Ok bytes =>
      match from_utf8 bytes with
      | None => failed (Io (lit "to read the stored identity") InvalidData)
      | Some _ => match record_of bytes with Some record => ok (Some record) | None => failed NotARecord end
      end
  end.

(** [RegisteredIdentity::read]: the record wins over the file. *)
Definition read_identity : Fallible RegisteredIdentity :=
  do? record <- read_user_record;
  do key <- match record ≫= ssh_key with
    | Some record => Done (Some (System record))
    | None => do is_file <- ask (Exists PRIVATE_KEY_NAME); Done (if is_file : bool then Some Local else None)
    end;
  ok {| stored_user_id := user_id <$> record; stored_key_id := user_key_id <$> record;
        stored_server := server_url <$> record; stored_key := key |}.

Definition is_empty (stored : RegisteredIdentity) : bool :=
  match stored_user_id stored, stored_key_id stored, stored_server stored with None, None, None => true | _, _, _ => false end.

Definition read_key : Fallible str :=
  do? stored <- io (lit "to read private key") (ReadFile PRIVATE_KEY_NAME);
  match from_utf8 stored with
  | None => failed (Io (lit "to read private key") InvalidData)
  | Some text => match checked_key text with Some hex => ok hex | None => failed BadPrivateKey end
  end.

Definition public_key_of (key : StoredKey) : Fallible str :=
  match key with
  | Local => do? hex <- read_key; Done (public_key_hex_from_private hex)
  | System record => match checked_key (public_key record) with Some hex => ok hex | None => failed BadPublicKey end
  end.

(** [signer]: found again at the moment it is needed. *)
Definition signer_for (public_key_hex : str) : Fallible UserSigner :=
  do found <- ask Available;
  Done (match signer_from found.2 found.1 public_key_hex with Ok s => Ok s | Err e => Err (CannotSign e) end).

Definition signer (key : StoredKey) : Fallible UserSigner :=
  match key with
  | Local => do? hex <- read_key; ok (SignsWithSeed hex)
  | System record => signer_for (public_key record)
  end.

(** [server_or_stored]: a stored server is parsed only when it is the one used. *)
Definition server_or_stored (named : option str) (stored : option str) : result str Failure :=
  match named, stored with
  | Some named, _ => Ok named
  | None, Some stored => server_url_of stored
  | None, None => server_url_of DEFAULT_SERVER_URL
  end.

Record SubmitIdentity := { submit_server : str; submit_user_id : str; submit_key_id : str; submit_key : StoredKey }.

(** [UserId::try_new] and [UserKeyId::try_new] are the plan-types crate's. *)
Context (user_id_ok key_id_ok : str -> option str).

Definition checked_id (check : str -> option str) (id : option str) : result (option str) Failure :=
  match id with
  | None => Ok None
  | Some id => match check id with Some id => Ok (Some id) | None => Err UnusableId end
  end.

Definition resolve (stored : RegisteredIdentity) (server : option str) : result SubmitIdentity Failure :=
  let? uid := checked_id user_id_ok (stored_user_id stored) in
  let? kid := checked_id key_id_ok (stored_key_id stored) in
  match uid, kid, stored_key stored with
  | Some uid, Some kid, Some key =>
      let? server := server_or_stored server (stored_server stored) in
      Ok {| submit_server := server; submit_user_id := uid; submit_key_id := kid; submit_key := key |}
  | _, _, _ => Err NoIdentity
  end.

(** ** Writing *)

Definition ensure_empty : Fallible unit :=
  do user <- ask (Exists USER_NAME);
  if user : bool then failed (AlreadyHolds USER_NAME)
  else do key <- ask (Exists PRIVATE_KEY_NAME); if key : bool then failed (AlreadyHolds PRIVATE_KEY_NAME) else ok tt.

(** [Write::write_all]; every write that is not refused takes a byte or is refused. *)
Fixpoint write_all (fuel : nat) (h off : nat) (bs : list Z) : script CtlE (result unit IoError) :=
  match bs, fuel with
  | [], _ => Done (Ok tt)
  | _, O => Done (Err WriteZero)
  | _, S fuel =>
      do? n <- ask (Write h off bs);
      match n with
      | O => Done (Err WriteZero)
      | _ => write_all fuel h (off + n) (drop n bs)
      end
  end.

Definition write_bytes (h : nat) (bs : list Z) : script CtlE (result unit IoError) := write_all (length bs) h 0 bs.

(** [sync]: a file system that cannot sync counts as synced. *)
Definition sync (e : CtlE (result unit IoError)) : script CtlE (result unit IoError) :=
  do r <- ask e; Done (match r with Err (Unsupported | InvalidInput) => Ok tt | r => r end).

Definition named_io {T} (what : str) (m : script CtlE (result T IoError)) : Fallible T :=
  do r <- m; Done (match r with Ok t => Ok t | Err e => Err (Io what e) end).

Definition create_identity_dir : Fallible unit :=
  do? _ <- io (lit "creating") CreateDir;
  io (lit "narrowing to 0700") Narrow.

Definition write_key_file (hex : str) : Fallible unit :=
  do? h <- io (lit "creating id_ed25519") (OpenNew PRIVATE_KEY_NAME);
  named_io (lit "writing id_ed25519") (do? _ <- write_bytes h (as_bytes hex); sync (SyncAll h)).

(** [fs::write]. *)
Definition fs_write (n : Name) (bs : list Z) : script CtlE (result unit IoError) :=
  do? h <- ask (Create n); write_bytes h bs.

(** The key first, then the record, replaced whole, then the directory. *)
Definition write (uid key_id server : str) (key : KeyToStore) : Fallible unit :=
  do? _ <- create_identity_dir;
  do? ssh <- match key with
    | Generated hex => do? _ <- write_key_file hex; ok None
    | ToRecord record => ok (Some record)
    | InPlace => ok None
    end;
  let record := {| user_id := uid; user_key_id := key_id; server_url := server; ssh_key := ssh |} in
  do? _ <- named_io (lit "writing user.json.tmp") (fs_write TMP_NAME (record_json record));
  do? _ <- io (lit "replacing user.json") (Rename TMP_NAME USER_NAME);
  named_io (lit "syncing the directory") (do? _ <- ask OpenDir; sync SyncDir).
End Identity.
