(* ===== verification/CtlAuth.v ===== *)
(** * Registering and signing in ([pipette-ctl], [auth.rs])

    [auth register], [auth login] and [auth adopt] choose a key, ask the server, and write
    the identity. Each is a script over the directory of [CtlIdentity]; the arguments that
    a person can get wrong, and what the command shows, are functions. The label a key is filed
    under, which only the server reads, is left out of the requests. *)

From Stdlib Require Import ZArith Lia String.
From stdpp Require Import prelude list fin_maps gmap.
From S2P Require Import Prelude Str Errors Script Ssh SshAgent MgmtSig MgmtCall CtlIdentity.

Local Open Scope Z_scope.
Local Open Scope rust_scope.
Local Open Scope script_scope.

(** ** Arguments *)

(** [LoginTimeout], in seconds, and its [FromStr]: the first unit that ends the text. *)
Definition UNITS : list (Z * Z) := [(115, 1); (109, 60); (104, 3600)].

Fixpoint find_map {A B} (f : A -> option B) (l : list A) : option B :=
  match l with
  | [] => None
  | x :: l => match f x with Some y => Some y | None => find_map f l end
  end.

Definition parse_timeout (raw : str) : option Z :=
  '(count, seconds) ← find_map (fun u => (fun count => (count, u.2)) <$> strip_suffix [u.1] raw) UNITS;
  if negb (forallb is_digit count) then None
  else
    count ← parse_uint u32_max count;
    if 1 <=? count then Some (count * seconds) else None.

(** In the largest unit that divides it. *)
Definition show_timeout (seconds : Z) : str :=
  if seconds mod 3600 =? 0 then show_uint (seconds / 3600) ++ [104]
  else if seconds mod 60 =? 0 then show_uint (seconds / 60) ++ [109]
  else show_uint seconds ++ [115].

Definition u16_max : Z := 2 ^ 16 - 1.

(** [KeyLifetime], in days. *)
Definition parse_lifetime (raw : str) : option Z :=
  count ← strip_suffix [100] raw;
  if negb (forallb is_digit count) then None
  else
    days ← parse_uint u16_max count;
    if 1 <=? days then Some days else None.

Definition key_details_label (user hostname : option str) : str :=
  match user, hostname with
  | Some user, Some hostname => user ++ [64] ++ hostname
  | Some user, None => user
  | None, Some hostname => hostname
  | None, None => lit "unknown machine"
  end.

Definition to_ascii_uppercase (s : str) : str := map (fun c => if (97 <=? c) && (c <=? 122) then c - 32 else c) s.

(** The code the page asks for. *)
Definition approval_code (key_id : str) : result str Failure :=
  match strip_prefix KEY_ID_PREFIX key_id with
  | Some digest =>
      match split_at_checked 4 digest with
      | Some (first, rest) =>
          match split_at_checked 4 rest with
          | Some (second, _) => Ok (to_ascii_uppercase first ++ [45] ++ to_ascii_uppercase second)
          | None => Err NotAKeyId
          end
      | None => Err NotAKeyId
      end
  | None => Err NotAKeyId
  end.

(** [byte_serialize] is the url crate's. *)
Definition approval_url (byte_serialize : list Z -> str) (server public_key_hex key_details : str) : str :=
  server ++ lit "/app/login/cli?key=" ++ public_key_hex ++ lit "&details=" ++ byte_serialize (as_bytes key_details).

Definition browser_is_likely (var : str -> option str) (needs_display : bool) : bool :=
  let set name := match var name with Some (_ :: _) => true | _ => false end in
  if set (lit "SSH_CONNECTION") || set (lit "SSH_TTY") then false
  else negb needs_display || set (lit "DISPLAY") || set (lit "WAYLAND_DISPLAY").

(** ** The key *)

Record KeyArgs := { arg_ssh_key : option str; arg_generate : bool }.

Inductive ChosenKey :=
| ChosenGenerated (private_key_hex public_key_hex : str)
| ChosenSystem (public_key_hex fingerprint found_at : str).

Definition chosen_public (key : ChosenKey) : str :=
  match key with ChosenGenerated _ public_key_hex | ChosenSystem public_key_hex _ _ => public_key_hex end.

Definition chosen_to_store (key : ChosenKey) : KeyToStore :=
  match key with
  | ChosenGenerated private_key_hex _ => Generated private_key_hex
  | ChosenSystem public_key_hex _ found_at => ToRecord {| public_key := public_key_hex; record_found_at := found_at |}
  end.

Inductive LoginKey := Chosen (key : ChosenKey) | Kept (key : StoredKey) (public_key_hex : str).

Definition login_public (key : LoginKey) : str :=
  match key with Chosen key => chosen_public key | Kept _ public_key_hex => public_key_hex end.

Definition login_to_store (key : LoginKey) : KeyToStore :=
  match key with
  | Chosen key => chosen_to_store key
  | Kept Local _ => InPlace
  | Kept (System record) _ => ToRecord record
  end.

Definition POLL_INTERVAL : Z := 3 * 1000000000.

Inductive Answer := IsApproved (profile : Profile) | Waiting (failure : option MgmtError) | IsRefused (e : Failure).

Definition classify (answer : result (KeyApproval Profile) MgmtError) : Answer :=
  match answer with
  | Ok (Approved profile) => IsApproved profile
  | Ok Pending => Waiting None
  | Ok (KeyRefused refusal) => IsRefused (ServerRefused refusal)
  | Err error =>
      if is_transient error || bool_decide (http_status error = Some 429) then Waiting (Some error)
      else if bool_decide (http_status error = Some 401) || bool_decide (http_status error = Some 403) then
        IsRefused (StatusRefused error)
      else IsRefused (Mgmt error)
  end.

Section Auth.
Context `{UC : UrlCrate} `{SC : SshCodecs} `{RJ : RecordJson}.
Context (user_id_ok key_id_ok : str -> option str).

(** [generate_keypair]. *)
Definition generate_keypair : Fallible ChosenKey :=
  do r <- ask Entropy;
  match r with
  | Err why => failed (NoEntropyLeft why)
  | Ok seed => ok (ChosenGenerated (hex_encode seed) (hex_encode (verifying_key seed)))
  end.

Definition resolve_chosen (args : KeyArgs) : Fallible ChosenKey :=
  if arg_generate args then generate_keypair
  else
    do found <- ask Available;
    match choose_from found.1 (arg_ssh_key args) with
    | Err e => failed (CannotChoose e)
    | Ok key => ok (ChosenSystem (to_hex (system_key key)) (fingerprint (system_key key)) (found_at key))
    end.

Definition resolve_login (stored : RegisteredIdentity) (args : KeyArgs) : Fallible LoginKey :=
  match stored_key stored with
  | None => do? _ <- ensure_empty; do? key <- resolve_chosen args; ok (Chosen key)
  | Some key =>
      if arg_generate args || bool_decide (is_Some (arg_ssh_key args)) then failed KeySwapRefused
      else do? public_key_hex <- public_key_of key; ok (Kept key public_key_hex)
  end.

Definition login_signer (key : LoginKey) : Fallible UserSigner :=
  match key with
  | Chosen (ChosenGenerated private_key_hex _) => ok (SignsWithSeed private_key_hex)
  | Chosen (ChosenSystem public_key_hex _ _) => signer_for public_key_hex
  | Kept key _ => signer key
  end.

(** ** [auth register] *)

Definition reconcile_key_id (derived returned : str) : result unit Failure :=
  if bool_decide (returned = derived) then Ok tt else Err (KeyIdsDiffer derived returned).

Definition register_error (key_id : str) (e : MgmtError) : Failure :=
  match e with
  | DecodeJson _ _ _ _ => ReceiptUnread e
  | Transport _ _ _ => MayHaveRegistered key_id e
  | _ => Mgmt e
  end.

Definition register_with_key (server : str) (key : ChosenKey) : Fallible Receipt :=
  do? key_id <- Done (key_id_of (chosen_public key));
  do answer <- ask (PostRegister (chosen_public key) key_id);
  match answer with
  | Err e => failed (register_error key_id e)
  | Ok response =>
      do? _ <- Done (reconcile_key_id key_id (receipt_key_id response));
      do? _ <- in_context Unsaved (write (receipt_user_id response) key_id server (chosen_to_store key));
      ok response
  end.

Definition register (server : str) (args : KeyArgs) : Fallible Receipt :=
  do? _ <- ensure_empty;
  do? key <- resolve_chosen args;
  register_with_key server key.

(** ** [auth login] *)

(** One look at the server; [start] is when the page was shown. *)
Fixpoint wait_for_approval (fuel : nat) (timeout start : Z) (key_id : str) (by_ : UserSigner)
    (last_failure : option MgmtError) : Fallible (option Profile) :=
  match fuel with
  | O => ok None
  | S fuel =>
      do now <- ask Elapsed;
      let remaining := Z.max 0 (timeout - Z.max 0 (now - start)) in
      if remaining =? 0 then failed (NotApproved last_failure)
      else
        do _ <- ask (Sleep (Z.min POLL_INTERVAL remaining));
        do answer <- ask (AskKey key_id by_);
        match classify answer with
        | IsApproved profile => ok (Some profile)
        | Waiting failure => wait_for_approval fuel timeout start key_id by_ failure
        | IsRefused e => failed e
        end
  end.

Definition same_identity (previous : SubmitIdentity) (profile : Profile) (key_id server : str) : bool :=
  bool_decide (submit_user_id previous = profile_user_id profile) && bool_decide (submit_key_id previous = key_id) &&
  bool_decide (submit_server previous = server).

(** What the wait found still holds: nothing here, or the same key. *)
Definition check_unchanged (key : LoginKey) : Fallible unit :=
  match key with
  | Chosen _ => in_context WrittenMeanwhile ensure_empty
  | Kept _ public_key_hex =>
      do? current <- read_identity;
      do same <- match stored_key current with
        | None => Done false
        | Some current =>
            do found <- public_key_of current;
            Done (match found with Ok found => bool_decide (found = public_key_hex) | Err _ => false end)
        end;
      if same : bool then ok tt else failed ChangedMeanwhile
  end.

(** Whether it wrote. *)
Definition save_login (previous : option SubmitIdentity) (server : str) (key : LoginKey) (key_id : str)
    (profile : Profile) : Fallible bool :=
  if match previous with Some previous => same_identity previous profile key_id server | None => false end then ok false
  else
    do? _ <- check_unchanged key;
    do? _ <- in_context Unsaved (write (profile_user_id profile) key_id server (login_to_store key));
    ok true.

(** [polls]: how many looks the wait is followed for. *)
Definition login_with (polls : nat) (previous : option SubmitIdentity) (server : str) (timeout : Z) (key : LoginKey) : Fallible (option bool) :=
  do? key_id <- Done (key_id_of (login_public key));
  do? by_ <- login_signer key;
  do answer <- ask (AskKey key_id by_);
  match classify answer with
  | IsApproved profile => do? wrote <- save_login previous server key key_id profile; ok (Some wrote)
  | IsRefused e => failed e
  | Waiting _ =>
      do? _ <- Done (approval_code key_id);
      do start <- ask Elapsed;
      do? found <- wait_for_approval polls timeout start key_id by_ None;
      match found with
      | None => ok None
      | Some profile => do? wrote <- save_login previous server key key_id profile; ok (Some wrote)
      end
  end.

(** The identity on disk, if it resolves. *)
Definition previous_identity (stored : RegisteredIdentity) : option SubmitIdentity :=
  result_ok (resolve user_id_ok key_id_ok stored None).

Definition login (polls : nat) (server : option str) (timeout : Z) (args : KeyArgs) : Fallible (option bool) :=
  do? stored <- read_identity;
  do? key <- resolve_login stored args;
  do? server <- Done (server_or_stored server (stored_server stored));
  login_with polls (previous_identity stored) server timeout key.

(** ** [auth adopt] *)

Definition adopt (uid server : str) (args : KeyArgs) : Fallible str :=
  do? _ <- ensure_empty;
  do? key <- resolve_chosen args;
  do? key_id <- Done (key_id_of (chosen_public key));
  do? _ <- write uid key_id server (chosen_to_store key);
  ok key_id.
End Auth.
