(* ===== verification/CtlShared.v ===== *)
(** * Commands that share a working directory

    Registrations, sign-ins and adoptions, any number of them at once, interleaved operation
    by operation and free to be killed at any of them. What holds whatever they do: the key
    file is one command's, and stays; nothing is written that the server did not accept. *)

From Stdlib Require Import ZArith Lia String.
From stdpp Require Import prelude list fin_maps gmap.
From S2P Require Import Prelude Str Errors Script Ssh SshAgent MgmtSig MgmtCall CtlIdentity CtlAuth.

Local Open Scope Z_scope.
Local Open Scope script_scope.

(** ** Commands *)

Inductive Command :=
| Register (server : str) (args : KeyArgs)
| Login (polls : nat) (server : option str) (timeout : Z) (args : KeyArgs)
| Adopt (uid server : str) (args : KeyArgs).

Definition done {T} (m : Fallible T) : Fallible unit := do? _ <- m; ok tt.

Section Commands.
Context `{UC : UrlCrate} `{SC : SshCodecs} `{SL : !SshCodecLaws} `{RJ : RecordJson}.
Context (user_id_ok key_id_ok : str -> option str).

Definition code (c : Command) : Fallible unit :=
  match c with
  | Register server args => done (register server args)
  | Login polls server timeout args => done (login user_id_ok key_id_ok polls server timeout args)
  | Adopt uid server args => done (adopt uid server args)
  end.

(** [adopting]: whether an adoption may run, which asks no server. *)
Context (adopting : bool).

Definition may_start (p : nat) (c : Command) (w : World) : bool :=
  bool_decide (key_owner w <> Some p) && match c with Adopt _ _ _ => adopting | _ => true end.

(** ** What holds of the directory *)

Definition bytes_at (i : nat) (w : World) : option (list Z) := data <$> inodes w !! i.

(** The server accepted a command's key, or a person adopted one. *)
Definition let_in (w : World) : Prop := adopting = true \/ accepted w <> [].

Definition key_of (hex : str) : Prop := exists seed, hex = hex_encode seed /\ length seed = 32%nat /\ Forall is_byte seed.

Definition vouched (hex : str) (w : World) : Prop :=
  key_of hex /\
  (adopting = true \/ exists p public kid,
    public_key_hex_from_private hex = Ok public /\ key_id_of public = Ok kid /\ (p, kid) ∈ accepted w).

Record Inv (w : World) : Prop := {
  inv_bound : forall n i, name_at n (names w) = Some i -> (i < next_inode w)%nat;
  inv_apart : forall i, key_at (names w) = Some i -> user_at (names w) <> Some i /\ tmp_at (names w) <> Some i;
  inv_key : forall i, key_at (names w) = Some i ->
    exists bytes hex, bytes_at i w = Some bytes /\ vouched hex w /\ bytes `prefix_of` as_bytes hex;
  inv_owner : forall p, key_owner w = Some p -> is_Some (key_at (names w));
  inv_any : (exists n, is_Some (name_at n (names w))) -> let_in w;
}.

(** What time and commands do to a directory. *)
Record grows (w w' : World) : Prop := {
  grows_next : (next_inode w <= next_inode w')%nat;
  grows_accepted : forall x, x ∈ accepted w -> x ∈ accepted w';
  grows_clock : clock w <= clock w';
  grows_key : forall i, key_at (names w) = Some i -> key_at (names w') = Some i /\
    forall bytes, bytes_at i w = Some bytes -> exists bytes', bytes_at i w' = Some bytes' /\ bytes `prefix_of` bytes';
  grows_fresh : forall i, key_at (names w) = None -> key_at (names w') = Some i -> (next_inode w <= i)%nat;
}.

Record rely (p : nat) (w w' : World) : Prop := {
  rely_grows : grows w w';
  rely_mine : key_owner w = Some p -> key_owner w' = Some p;
  rely_not_mine : key_owner w <> Some p -> key_owner w' <> Some p;
  rely_bytes : forall i, key_at (names w) = Some i -> key_owner w = Some p -> bytes_at i w' = bytes_at i w;
}.

Record guar (p : nat) (w w' : World) : Prop := {
  guar_grows : grows w w';
  guar_owner : key_owner w' = key_owner w \/ (key_owner w = Some p /\ key_owner w' = None) \/
    (key_at (names w) = None /\ key_owner w' = Some p);
  guar_bytes : forall i, key_at (names w) = Some i -> key_owner w <> Some p -> bytes_at i w' = bytes_at i w;
}.

#[export] Instance grows_preorder : PreOrder grows.
Proof.
  split.
  - intros w. constructor; try done; [|congruence]. intros i Hi. split; [done|]. intros bytes Hb. by exists bytes.
  - intros w1 w2 w3 H1 H2. constructor.
    + pose proof (grows_next _ _ H1). pose proof (grows_next _ _ H2). lia.
    + intros x Hx. by apply (grows_accepted _ _ H2), (grows_accepted _ _ H1).
    + pose proof (grows_clock _ _ H1). pose proof (grows_clock _ _ H2). lia.
    + intros i Hi. destruct (grows_key _ _ H1 i Hi) as [Hi2 Hb2]. destruct (grows_key _ _ H2 i Hi2) as [Hi3 Hb3].
      split; [done|]. intros bytes Hb. destruct (Hb2 _ Hb) as (b2 & E2 & P2). destruct (Hb3 _ E2) as (b3 & E3 & P3).
      exists b3. split; [done|by etrans].
    + intros i Hn Hi. pose proof (grows_next _ _ H1). destruct (key_at (names w2)) as [j|] eqn:E.
      * destruct (grows_key _ _ H2 j E) as [E3 _]. rewrite Hi in E3. injection E3 as ->. by apply (grows_fresh _ _ H1).
      * pose proof (grows_fresh _ _ H2 i E Hi). lia.
Qed.

#[export] Instance rely_preorder p : PreOrder (rely p).
Proof.
  split.
  - intros w. by constructor.
  - intros w1 w2 w3 H1 H2. constructor.
    + etrans; [exact (rely_grows _ _ _ H1)|exact (rely_grows _ _ _ H2)].
    + intros Ho. by apply (rely_mine _ _ _ H2), (rely_mine _ _ _ H1).
    + intros Ho. by apply (rely_not_mine _ _ _ H2), (rely_not_mine _ _ _ H1).
    + intros i Hi Ho. destruct (grows_key _ _ (rely_grows _ _ _ H1) i Hi) as [Hi2 _].
      rewrite (rely_bytes _ _ _ H2 i Hi2); [by apply (rely_bytes _ _ _ H1)|]. by apply (rely_mine _ _ _ H1).
Qed.

Lemma guar_rely p q w w' : p <> q -> Inv w -> guar p w w' -> rely q w w'.
Proof.
  intros Hpq Hi [Hg Ho Hb]. constructor; [done|..].
  - intros Hq. destruct Ho as [->|[[Hp _]|[Hn _]]]; [done|congruence|].
    destruct (inv_owner _ Hi q Hq) as [i Hk]. congruence.
  - intros Hq. destruct Ho as [->|[[_ ->]|[_ ->]]]; [done|done|congruence].
  - intros i Hk Hq. apply Hb; [done|congruence].
Qed.

Lemma let_in_grows w w' : grows w w' -> let_in w -> let_in w'.
Proof.
  intros Hg [Ha|Ha]; [by left|right]. destruct (accepted w) as [|x l] eqn:E; [done|].
  assert (Hx : x ∈ accepted w') by (apply (grows_accepted _ _ Hg); rewrite E; by left).
  intros En. rewrite En in Hx. by apply elem_of_nil in Hx.
Qed.

Lemma vouched_grows hex w w' : grows w w' -> vouched hex w -> vouched hex w'.
Proof.
  intros Hg [Hk [Ha|(p & public & kid & H1 & H2 & H3)]]; (split; [done|]); [by left|right].
  exists p, public, kid. split_and!; [done..|by apply (grows_accepted _ _ Hg)].
Qed.

Lemma vouched_let_in hex w : vouched hex w -> let_in w.
Proof.
  intros [_ [Ha|(p & public & kid & _ & _ & H)]]; [by left|right]. intros E. rewrite E in H. by apply elem_of_nil in H.
Qed.

(** A directory whose names stay keeps what holds of it when no key's bytes change. *)
Lemma inv_bytes w w' :
  names w' = names w -> key_owner w' = key_owner w -> (next_inode w <= next_inode w')%nat ->
  (forall x, x ∈ accepted w -> x ∈ accepted w') ->
  (forall i, key_at (names w) = Some i -> exists bytes hex, bytes_at i w' = Some bytes /\ vouched hex w' /\ bytes `prefix_of` as_bytes hex) ->
  Inv w -> Inv w'.
Proof.
  intros En Eo Hnext Hacc Hkey Hi. constructor; rewrite ?En, ?Eo.
  - intros n i Hn. pose proof (inv_bound _ Hi n i Hn). lia.
  - apply (inv_apart _ Hi).
  - apply Hkey.
  - apply (inv_owner _ Hi).
  - intros Hn. destruct (inv_any _ Hi Hn) as [Ha|Ha]; [by left|right]. destruct (accepted w) as [|x l]; [done|].
    intros E. rewrite E in Hacc. specialize (Hacc x ltac:(by left)). by apply elem_of_nil in Hacc.
Qed.

(** ** Operations *)

Definition WP {T} (p : nat) (m : script CtlE T) (Q : T -> World -> Prop) (w : World) : Prop :=
  wp act Inv rely guar p m Q w.

(** What a state lets be kept while others move. *)
Definition stable (p : nat) (P : World -> Prop) : Prop := forall w w', rely p w w' -> P w -> P w'.

Lemma stable_and p P Q : stable p P -> stable p Q -> stable p (fun w => P w /\ Q w).
Proof. intros HP HQ w w' Hr [H1 H2]. split; [by eapply HP|by eapply HQ]. Qed.

Lemma stable_implies p (A : Prop) P : stable p P -> stable p (fun w => A -> P w).
Proof. intros HP w w' Hr H HA. eapply HP; eauto. Qed.

Lemma stable_pure p (A : Prop) : stable p (fun _ => A).
Proof. by intros w w' _. Qed.

Lemma stable_let_in p : stable p let_in.
Proof. intros w w' Hr. apply let_in_grows, Hr. Qed.

Lemma stable_vouched p hex : stable p (vouched hex).
Proof. intros w w' Hr. apply vouched_grows, Hr. Qed.

(** An inode that is not the key's, and never will be. *)
Definition foreign (h : nat) (w : World) : Prop := (h < next_inode w)%nat /\ key_at (names w) <> Some h.

Lemma stable_foreign p h : stable p (foreign h).
Proof.
  intros w w' Hr [Hh Hk]. pose proof (grows_next _ _ (rely_grows _ _ _ Hr)). split; [lia|].
  intros Hk'. destruct (key_at (names w)) as [i|] eqn:E.
  - destruct (grows_key _ _ (rely_grows _ _ _ Hr) i E) as [E' _]. congruence.
  - pose proof (grows_fresh _ _ (rely_grows _ _ _ Hr) h E Hk'). lia.
Qed.

(** The key file of [p], written so far. *)
Definition mine (p h : nat) (bytes : list Z) (w : World) : Prop :=
  key_at (names w) = Some h /\ key_owner w = Some p /\ bytes_at h w = Some bytes.

Lemma stable_mine p h bytes : stable p (mine p h bytes).
Proof.
  intros w w' Hr (Hk & Ho & Hb). split_and!.
  - by apply (grows_key _ _ (rely_grows _ _ _ Hr)).
  - by apply (rely_mine _ _ _ Hr).
  - by rewrite (rely_bytes _ _ _ Hr h Hk Ho).
Qed.

(** An operation, with what is kept before it. *)
Lemma WP_operation {A} p (e : CtlE A) (P : World -> Prop) (Q : A -> World -> Prop) w :
  stable p P -> (forall a, stable p (Q a)) ->
  (forall w' c, Inv w' -> P w' -> let '(a, w'') := act A p e c w' in Inv w'' /\ guar p w' w'' /\ Q a w'') ->
  P w -> WP p (ask e) Q w.
Proof.
  intros HP HQ H Hw. apply wp_ask. intros w' c Hr Hi. specialize (H w' c Hi (HP _ _ Hr Hw)).
  destruct (act A p e c w') as [a w'']. destruct H as (Hi' & Hg & HQa). split_and!; [done..|].
  intros w3 Hr3 _. by eapply HQ.
Qed.

Lemma WP_answer {T} p (t : T) (Q : T -> World -> Prop) w : (forall a, stable p (Q a)) -> Q t w -> WP p (Done t) Q w.
Proof. intros HQ Hw w' Hr _. by eapply HQ. Qed.

#[export] Instance guar_refl p : Reflexive (guar p).
Proof. intros w. constructor; [done|by left|done]. Qed.

(** *** Operations that leave the key alone *)

(** What holds whatever others do, and whatever the command itself does elsewhere. *)
Record same_key (w w' : World) : Prop := {
  same_grows : grows w w';
  same_at : key_at (names w') = key_at (names w);
  same_owner : key_owner w' = key_owner w;
  same_bytes : forall i, key_at (names w) = Some i -> bytes_at i w' = bytes_at i w;
}.

Class Lasting (p : nat) (P : World -> Prop) : Prop := {
  lasts_others : stable p P;
  lasts_own : forall w w', same_key w w' -> P w -> P w';
}.

#[export] Instance lasting_pure p (A : Prop) : Lasting p (fun _ => A).
Proof. split; [apply stable_pure|by intros w w' _]. Qed.

#[export] Instance lasting_and p P Q : Lasting p P -> Lasting p Q -> Lasting p (fun w => P w /\ Q w).
Proof. intros [H1 H2] [H3 H4]. split; [by apply stable_and|]. intros w w' Hs [HP HQ]. split; eauto. Qed.

#[export] Instance lasting_implies p (A : Prop) P : Lasting p P -> Lasting p (fun w => A -> P w).
Proof. intros [H1 H2]. split; [by apply stable_implies|]. eauto. Qed.

#[export] Instance lasting_all p {A} (P : A -> World -> Prop) : (forall a, Lasting p (P a)) -> Lasting p (fun w => forall a, P a w).
Proof. intros HP. split; [intros w w' Hr H a; by eapply (lasts_others (Lasting := HP a))|intros w w' Hs H a; by eapply (lasts_own (Lasting := HP a))]. Qed.

#[export] Instance lasting_let_in p : Lasting p let_in.
Proof. split; [apply stable_let_in|]. intros w w' Hs. apply let_in_grows, Hs. Qed.

#[export] Instance lasting_vouched p hex : Lasting p (vouched hex).
Proof. split; [apply stable_vouched|]. intros w w' Hs. apply vouched_grows, Hs. Qed.

Definition accepted_of (p : nat) (kid : str) (w : World) : Prop := (p, kid) ∈ accepted w.

#[export] Instance lasting_accepted p q kid : Lasting p (accepted_of q kid).
Proof.
  split; [intros w w' Hr; apply (grows_accepted _ _ (rely_grows _ _ _ Hr))|intros w w' Hs; apply (grows_accepted _ _ (same_grows _ _ Hs))].
Qed.

#[export] Instance lasting_foreign p h : Lasting p (foreign h).
Proof.
  split; [apply stable_foreign|]. intros w w' Hs [Hh Hk]. pose proof (grows_next _ _ (same_grows _ _ Hs)).
  split; [lia|by rewrite (same_at _ _ Hs)].
Qed.

(** The key file a command has created and what it has written of it, or none. *)
Definition own (p : nat) (o : option (nat * list Z)) (w : World) : Prop :=
  match o with Some (h, bytes) => mine p h bytes w | None => key_owner w <> Some p end.

#[export] Instance lasting_own p o : Lasting p (own p o).
Proof.
  destruct o as [[h bytes]|]; (split; [intros w w' Hr|intros w w' Hs]); cbn.
  - by apply stable_mine.
  - intros (Hk & Ho & Hb). rewrite <- (same_bytes _ _ Hs h Hk) in Hb. split_and!; [by rewrite (same_at _ _ Hs)|by rewrite (same_owner _ _ Hs)|done].
  - apply (rely_not_mine _ _ _ Hr).
  - by rewrite (same_owner _ _ Hs).
Qed.

#[export] Instance same_key_refl : Reflexive same_key.
Proof. by intros w. Qed.

(** An operation that leaves the key alone, under what it needs, with what it answers. *)
Definition quiet (p : nat) {A} (e : CtlE A) (Pre : World -> Prop) (R : A -> World -> Prop) : Prop :=
  forall w c, Inv w -> Pre w -> let '(a, w') := act A p e c w in Inv w' /\ guar p w w' /\ same_key w w' /\ R a w'.

Lemma WP_quiet {A} p (e : CtlE A) Pre (R : A -> World -> Prop) P w :
  quiet p e Pre R -> Lasting p Pre -> (forall a, Lasting p (R a)) -> Lasting p P -> Pre w -> P w ->
  WP p (ask e) (fun a w => R a w /\ P w) w.
Proof.
  intros Hq HPre HR HP Hpre Hw. apply WP_operation with (P := fun w => Pre w /\ P w); [apply lasts_others| |..|done].
  - intros a. apply lasts_others.
  - intros w' c Hi [Hpre' HP']. specialize (Hq w' c Hi Hpre'). destruct (act A p e c w') as [a w''].
    destruct Hq as (? & ? & Hs & ?). split_and!; [done..|]. by eapply lasts_own.
Qed.

Lemma quiet_reads {A} p (e : CtlE A) (R : A -> Prop) :
  (forall c w, act A p e c w = ((act A p e c w).1, w) /\ R (act A p e c w).1) -> quiet p e (fun _ => True) (fun a _ => R a).
Proof. intros He w c Hi _. destruct (He c w) as [-> HR]. by split_and!. Qed.

Lemma same_directory p w w' :
  inodes w' = inodes w -> names w' = names w -> key_owner w' = key_owner w -> next_inode w' = next_inode w ->
  (forall x, x ∈ accepted w -> x ∈ accepted w') -> clock w <= clock w' -> Inv w -> Inv w' /\ guar p w w' /\ same_key w w'.
Proof.
  intros Ei En Eo Ex Ha Hc Hi.
  assert (Hb : forall i, bytes_at i w' = bytes_at i w) by (intros i; unfold bytes_at; by rewrite Ei).
  assert (Hg : grows w w').
  { constructor; [lia|done|done| |congruence]. intros i Hk. rewrite En. split; [done|].
    intros bytes Hbi. exists bytes. by rewrite Hb. }
  split_and!.
  - eapply (inv_bytes w); [done|done|lia|done| |done]. intros i Hk. destruct (inv_key _ Hi i Hk) as (bytes & hex & H1 & H2 & H3).
    exists bytes, hex. rewrite Hb. split_and!; [done|by eapply vouched_grows|done].
  - constructor; [done|by left|]. intros i _ _. apply Hb.
  - constructor; [done|by rewrite En|done|]. intros i _. apply Hb.
Qed.

Lemma quiet_elapsed p : quiet p Elapsed (fun _ => True) (fun _ _ => True).
Proof. intros w c Hi _. cbn [act]. destruct (same_directory p w (tick (passed c) w)) as (? & ? & ?); try done. cbn. lia. Qed.

Lemma quiet_sleep p d : quiet p (Sleep d) (fun _ => True) (fun _ _ => True).
Proof.
  intros w c Hi _. cbn [act]. destruct (same_directory p w (tick (Z.max 0 d + Z.max 0 (passed c)) w)) as (? & ? & ?); try done. cbn. lia.
Qed.

(** *** The server *)

Lemma accepts p kid w : Inv w ->
  let w' := note_accepted p kid w in Inv w' /\ guar p w w' /\ same_key w w' /\ accepted_of p kid w'.
Proof.
  intros Hi w'. destruct (same_directory p w w') as (? & ? & ?); try done.
  - intros x Hx. by right.
  - split_and!; [done..|]. by left.
Qed.

Lemma quiet_register p public kid :
  quiet p (PostRegister public kid) (fun _ => True) (fun r w => is_Some (result_ok r) -> accepted_of p kid w).
Proof.
  intros w c Hi _. cbn [act]. destruct c; try (split_and!; [done..|by intros [? ?]]).
  destruct r as [r|e]; [|split_and!; [done..|by intros [? ?]]].
  destruct (accepts p kid w Hi) as (? & ? & ? & ?). by split_and!.
Qed.

Lemma quiet_ask_key p kid by_ :
  quiet p (AskKey kid by_) (fun _ => True) (fun r w => (exists profile, r = Ok (Approved profile)) -> accepted_of p kid w).
Proof.
  intros w c Hi _. cbn [act]. destruct c; try (split_and!; [done..|by intros [? ?]]).
  destruct r as [[profile| |r]|e]; try (split_and!; [done..|by intros [? ?]]).
  destruct (accepts p kid w Hi) as (? & ? & ? & ?). by split_and!.
Qed.

(** *** Files *)

Lemma bytes_at_set_file i f j w : bytes_at j (set_file i f w) = if decide (j = i) then Some (data f) else bytes_at j w.
Proof.
  unfold bytes_at. cbn [inodes set_file]. destruct (decide (j = i)) as [->|Hne]; [by rewrite lookup_insert_eq|by rewrite lookup_insert_ne].
Qed.

(** A write that is the command's own to make: the key's bytes only grow, within a vouched
    key, and only by the command that created it. *)
Lemma file_written p i f w :
  Inv w ->
  (key_at (names w) = Some i -> key_owner w = Some p /\ exists old hex,
    bytes_at i w = Some old /\ old `prefix_of` data f /\ vouched hex w /\ data f `prefix_of` as_bytes hex) ->
  Inv (set_file i f w) /\ guar p w (set_file i f w) /\ (key_at (names w) <> Some i -> same_key w (set_file i f w)).
Proof.
  intros Hi Hkey.
  assert (Hg : grows w (set_file i f w)).
  { constructor; try done; [|cbn; congruence]. intros k Hk. split; [done|]. intros bytes Hb. rewrite bytes_at_set_file.
    destruct (decide (k = i)) as [->|]; [|by exists bytes]. destruct (Hkey Hk) as (_ & old & hex & Ho & Hp & _).
    exists (data f). split; [done|]. congruence. }
  split_and!.
  - apply (inv_bytes w); [done|done|cbn; lia|done| |done]. intros k Hk. rewrite bytes_at_set_file.
    destruct (decide (k = i)) as [->|].
    + destruct (Hkey Hk) as (_ & old & hex & _ & _ & Hv & Hp). by exists (data f), hex.
    + apply (inv_key _ Hi k Hk).
  - constructor; [done|by left|]. intros k Hk Ho. rewrite bytes_at_set_file. destruct (decide (k = i)) as [->|]; [|done].
    by destruct (Hkey Hk) as [Ho' _].
  - intros Hne. constructor; [done..|]. intros k Hk. rewrite bytes_at_set_file. destruct (decide (k = i)) as [->|]; done.
Qed.

Lemma key_not_fresh w k : Inv w -> key_at (names w) = Some k -> k <> next_inode w.
Proof. intros Hi Hk ->. pose proof (inv_bound _ Hi PRIVATE_KEY_NAME _ Hk). lia. Qed.

Lemma key_created p hex w :
  Inv w -> key_at (names w) = None -> vouched hex w ->
  let w' := set_owner (Some p) (new_file PRIVATE_KEY_NAME w).2 in Inv w' /\ guar p w w' /\ mine p (next_inode w) [] w'.
Proof.
  intros Hi Hk Hv w'.
  assert (Hb : bytes_at (next_inode w) w' = Some []) by (unfold bytes_at; cbn; by rewrite lookup_insert_eq).
  assert (Hg : grows w w').
  { constructor; try done; [cbn; lia|congruence|]. by intros i _ [= <-]. }
  split_and!.
  - constructor.
    + intros [] i Hn; cbn in *; [injection Hn as <-; lia|..]; [pose proof (inv_bound _ Hi USER_NAME i Hn)|pose proof (inv_bound _ Hi TMP_NAME i Hn)]; lia.
    + intros i [= <-]. cbn. split; intros Hn; [pose proof (inv_bound _ Hi USER_NAME _ Hn)|pose proof (inv_bound _ Hi TMP_NAME _ Hn)]; lia.
    + intros i [= <-]. exists [], hex. split_and!; [done|by eapply vouched_grows|apply prefix_nil].
    + intros q _. by exists (next_inode w).
    + intros _. eapply let_in_grows; [exact Hg|by eapply vouched_let_in].
  - constructor; [done| |congruence]. right; right. done.
  - done.
Qed.

Lemma tmp_created p w :
  Inv w -> tmp_at (names w) = None -> let_in w ->
  let w' := (new_file TMP_NAME w).2 in Inv w' /\ guar p w w' /\ same_key w w' /\ foreign (next_inode w) w'.
Proof.
  intros Hi Ht Hl w'.
  assert (Hb : forall k, key_at (names w) = Some k -> bytes_at k w' = bytes_at k w).
  { intros k Hk. unfold bytes_at. cbn. by rewrite lookup_insert_ne by (by apply not_eq_sym, key_not_fresh). }
  assert (Hg : grows w w').
  { constructor; try done; [cbn; lia| |cbn; congruence]. intros i Hk. split; [done|]. intros bytes Hbi. exists bytes. by rewrite Hb. }
  split_and!.
  - constructor.
    + intros [] i Hn; cbn in *; [pose proof (inv_bound _ Hi PRIVATE_KEY_NAME i Hn)|pose proof (inv_bound _ Hi USER_NAME i Hn)|injection Hn as <-]; lia.
    + intros i Hk. cbn in Hk |- *. split; [by apply (inv_apart _ Hi)|]. intros [= Ek]. by apply (key_not_fresh _ _ Hi Hk).
    + intros i Hk. cbn in Hk. destruct (inv_key _ Hi i Hk) as (bytes & hex & H1 & H2 & H3). exists bytes, hex.
      rewrite Hb by done. split_and!; [done|by eapply vouched_grows|done].
    + apply (inv_owner _ Hi).
    + intros _. by eapply let_in_grows.
  - constructor; [done|by left|]. intros i Hk _. by apply Hb.
  - by constructor.
  - split; [cbn; lia|]. intros Hk. cbn in Hk. by eapply key_not_fresh.
Qed.

(** The record's file takes the record's name. *)
Lemma tmp_renamed p i w :
  Inv w -> tmp_at (names w) = Some i ->
  let w' := set_names (set_name TMP_NAME None (set_name USER_NAME (Some i) (names w))) w in Inv w' /\ guar p w w' /\ same_key w w'.
Proof.
  intros Hi Ht w'.
  assert (Hg : grows w w').
  { constructor; try done; [|cbn; congruence]. intros k Hk. split; [done|]. intros bytes Hb. by exists bytes. }
  split_and!.
  - constructor.
    + intros [] k Hn; cbn in *; [by apply (inv_bound _ Hi PRIVATE_KEY_NAME)| |done]. injection Hn as <-. by apply (inv_bound _ Hi TMP_NAME).
    + intros k Hk. cbn in Hk |- *. split; [|done]. intros [= ->]. by apply (inv_apart _ Hi) in Hk as [_ ?].
    + intros k Hk. destruct (inv_key _ Hi k Hk) as (bytes & hex & ?). by exists bytes, hex.
    + apply (inv_owner _ Hi).
    + intros _. apply (inv_any _ Hi). exists TMP_NAME. by exists i.
  - constructor; [done|by left|done].
  - by constructor.
Qed.

Lemma quiet_create_tmp p : quiet p (Create TMP_NAME) let_in (fun r w => forall h, r = Ok h -> foreign h w).
Proof.
  intros w c Hi Hl. cbn [act]. destruct (fails c); [by split_and!|]. destruct (name_at TMP_NAME (names w)) as [i|] eqn:Et.
  - assert (Hne : key_at (names w) <> Some i) by (intros Hk; by apply (inv_apart _ Hi) in Hk as [_ ?]).
    destruct (file_written p i {| data := []; synced := false |} w Hi) as (? & ? & Hs); [done|].
    split_and!; [done..|by apply Hs|]. intros h [= <-]. split; [by apply (inv_bound _ Hi TMP_NAME)|done].
  - destruct (tmp_created p w Hi Et Hl) as (? & ? & ? & ?). split_and!; [done..|]. by intros h [= <-].
Qed.

Lemma quiet_write p h off bs : quiet p (Write h off bs) (foreign h) (fun _ _ => True).
Proof.
  intros w c Hi [_ Hne]. cbn [act]. destruct (fails c); [by split_and!|].
  edestruct (file_written p h) as (? & ? & Hs); [exact Hi| |by split_and!; [..|apply Hs|]]. done.
Qed.

Lemma quiet_sync p h : quiet p (SyncAll h) (fun _ => True) (fun _ _ => True).
Proof.
  intros w c Hi _. cbn [act]. destruct (fails c); [by split_and!|]. destruct (inodes w !! h) as [f|] eqn:Ef; [|by split_and!].
  set (w' := set_file h _ w).
  assert (Hb : forall k, bytes_at k w' = bytes_at k w).
  { intros k. unfold w'. rewrite bytes_at_set_file. destruct (decide (k = h)) as [->|]; [|done]. unfold bytes_at. by rewrite Ef. }
  assert (Hg : grows w w').
  { constructor; try done; [|cbn; congruence]. intros k Hk. split; [done|]. intros bytes Hbk. exists bytes. by rewrite Hb. }
  split_and!; [|by constructor; [..|left|intros; apply Hb]|by constructor|done].
  apply (inv_bytes w); [done|done|cbn; lia|done| |done]. intros k Hk.
  destruct (inv_key _ Hi k Hk) as (bytes & hex & ?). exists bytes, hex. by rewrite Hb.
Qed.

Lemma quiet_rename p : quiet p (Rename TMP_NAME USER_NAME) (fun _ => True) (fun _ _ => True).
Proof.
  intros w c Hi _. cbn [act]. destruct (fails c); [by split_and!|].
  destruct (name_at TMP_NAME (names w)) as [i|] eqn:Et; [|by split_and!].
  by destruct (tmp_renamed p i w Hi Et) as (? & ? & ?).
Qed.

Lemma quiet_sync_dir p : quiet p SyncDir (fun _ => True) (fun _ _ => True).
Proof.
  intros w c Hi _. cbn [act]. destruct (fails c); [by split_and!|].
  destruct (same_directory p w (settle w)) as (? & ? & ?); by try done.
Qed.

(** *** The key file *)

Lemma WP_open_key p hex w :
  vouched hex w -> key_owner w <> Some p ->
  WP p (ask (OpenNew PRIVATE_KEY_NAME))
    (fun r w => vouched hex w /\ match r with Ok h => own p (Some (h, [])) w | Err _ => own p None w end) w.
Proof.
  intros Hv Ho. apply WP_operation with (P := fun w => vouched hex w /\ own p None w); [apply lasts_others| | |done].
  - intros [h|e]; apply lasts_others.
  - intros w' c Hi [Hv' Ho']. cbn [act]. destruct (fails c); [by split_and!|]. cbn [name_at].
    destruct (key_at (names w')) as [i|] eqn:Ek; [by split_and!|]. by destruct (key_created p hex w' Hi Ek Hv') as (? & ? & ?); split_and!.
Qed.

Lemma write_at_end off n all :
  (off <= length all)%nat -> write_at off (take n (drop off all)) (take off all) = take (off + n) all.
Proof.
  intros Ho. unfold write_at. rewrite length_take_le, Nat.sub_diag by done. cbn [replicate]. rewrite app_nil_r.
  rewrite (take_ge (take off all)) by (rewrite length_take; lia).
  rewrite (drop_ge (take off all)) by (rewrite length_take; lia). rewrite app_nil_r.
  rewrite <- take_take_drop. done.
Qed.

Lemma WP_write_key_once p h hex off w :
  let all := as_bytes hex in
  vouched hex w -> (off <= length all)%nat -> own p (Some (h, take off all)) w ->
  WP p (ask (Write h off (drop off all)))
    (fun r w => vouched hex w /\
      forall n, r = Ok n -> (off + n <= length all)%nat /\ own p (Some (h, take (off + n) all)) w) w.
Proof.
  intros all Hv Hoff Ho. apply WP_operation with (P := fun w => vouched hex w /\ own p (Some (h, take off all)) w); [apply lasts_others| | |done].
  - intros r. apply lasts_others.
  - intros w' c Hi [Hv' Hm]. cbn [act]. destruct (fails c) as [e|]; [by split_and!|].
    set (n := match c with Short _ => _ | _ => _ end).
    assert (Hn : (off + n <= length all)%nat).
    { assert (n <= length (drop off all))%nat by (unfold n; destruct c; lia). rewrite length_drop in *. lia. }
    destruct Hm as (Hk & Hown & Hb). unfold bytes_at in Hb. rewrite Hb. cbn [default].
    rewrite write_at_end by done.
    edestruct (file_written p h {| data := take (off + n) all; synced := false |} w' Hi) as (Hi' & Hg & _).
    + intros _. split; [done|]. exists (take off all), hex. split_and!; [done| |done|apply prefix_take]. cbn [data].
      replace (take off all) with (take off (take (off + n) all)) by (rewrite take_take; f_equal; lia). apply prefix_take.
    + split_and!; [done..|]. intros n' [= <-]. split; [done|]. repeat split; [done..|]. rewrite bytes_at_set_file. by rewrite decide_True.
Qed.

(** ** Scripts that leave the key alone *)

(** From [Pre], [m] ends with [R] and keeps all that lasts. *)
Definition calm (p : nat) {T} (m : script CtlE T) (Pre : World -> Prop) (R : T -> World -> Prop) : Prop :=
  forall P w, Lasting p P -> Pre w -> P w -> WP p m (fun t w => R t w /\ P w) w.

Lemma calm_op p {A} (e : CtlE A) Pre (R : A -> World -> Prop) :
  quiet p e Pre R -> Lasting p Pre -> (forall a, Lasting p (R a)) -> calm p (ask e) Pre (fun a w => R a w /\ Pre w).
Proof.
  intros Hq HPre HR P w HP Hpre Hw. eapply wp_mono; [|apply (WP_quiet p e Pre R (fun w => Pre w /\ P w)); try done; apply _].
  intros a w' (? & ? & ?). by split_and!.
Qed.

Lemma calm_done p {T} (t : T) (R : T -> World -> Prop) : (forall t, Lasting p (R t)) -> calm p (Done t) (R t) R.
Proof.
  intros HR P w HP Hpre Hw. apply WP_answer; [|done]. intros a. apply (lasts_others (P := fun w => R a w /\ P w)).
Qed.

Lemma calm_bind p {T U} (m : script CtlE T) (k : T -> script CtlE U) Pre R S :
  calm p m Pre R -> (forall t, calm p (k t) (R t) S) -> calm p (then_ m k) Pre S.
Proof.
  intros Hm Hk P w HP Hpre Hw. eapply wp_bind; [apply _|by apply Hm|]. intros t w' _ [HR HPw]. by apply Hk.
Qed.

Lemma calm_mono p {T} (m : script CtlE T) (Pre Pre' : World -> Prop) (R R' : T -> World -> Prop) :
  calm p m Pre R -> (forall w, Pre' w -> Pre w) -> (forall t w, R t w -> R' t w) -> calm p m Pre' R'.
Proof. intros Hm Hpre HR P w HP Hw HPw. eapply wp_mono; [|apply Hm; eauto]. intros t w' [? ?]. auto. Qed.

(** [Err]s need nothing kept. *)
Lemma calm_try p {T U F} (m : script CtlE (result T F)) (k : T -> script CtlE (result U F)) Pre R S :
  calm p m Pre R -> (forall r, Lasting p (S r)) -> (forall t, calm p (k t) (R (Ok t)) S) ->
  (forall e w, R (Err e) w -> S (Err e) w) -> calm p (then_try m k) Pre S.
Proof.
  intros Hm HS Hk He. eapply calm_bind; [exact Hm|]. intros [t|e]; [apply Hk|].
  eapply calm_mono; [by apply calm_done|by apply He|done].
Qed.

Definition anything {T} : T -> World -> Prop := fun _ _ => True.

#[export] Instance lasting_anything p {T} (t : T) : Lasting p (anything t).
Proof. apply (lasting_pure p True). Qed.

Lemma calm_answer p {T} (t : T) Pre : calm p (Done t) Pre anything.
Proof. eapply calm_mono; [apply calm_done; apply _|done|done]. Qed.

(** When an answer is all that matters. *)
Lemma calm_then p {T U F} (m : script CtlE (result T F)) (k : T -> script CtlE (result U F)) Pre :
  Lasting p Pre -> calm p m Pre anything -> (forall t, calm p (k t) Pre anything) -> calm p (then_try m k) Pre anything.
Proof.
  intros HPre Hm Hk. eapply (calm_try p m k Pre (fun _ => Pre)); [|apply _| |done].
  - intros P w HP Hpre Hw. eapply wp_mono; [|apply (Hm (fun w => Pre w /\ P w)); [apply _|done|done]]. by intros t w' [_ ?].
  - intros t. apply Hk.
Qed.

Lemma calm_named p {T} what (m : script CtlE (result T IoError)) Pre : calm p m Pre anything -> calm p (named_io what m) Pre anything.
Proof. intros Hm. eapply calm_bind; [exact Hm|]. intros [t|e]; apply calm_answer. Qed.

Lemma calm_ask p {A} (e : CtlE A) Pre (R : A -> World -> Prop) :
  quiet p e Pre R -> Lasting p Pre -> (forall a, Lasting p (R a)) -> calm p (ask e) Pre anything.
Proof. intros Hq HPre HR. eapply calm_mono; [by eapply calm_op|done|done]. Qed.

Lemma calm_weaken p {T} (m : script CtlE T) (Pre Pre' : World -> Prop) :
  calm p m Pre anything -> (forall w, Pre' w -> Pre w) -> calm p m Pre' anything.
Proof. intros Hm H. by eapply calm_mono. Qed.

(** *** The record *)

Lemma calm_write_all p fuel h off bs : calm p (write_all fuel h off bs) (foreign h) anything.
Proof.
  revert off bs. induction fuel as [|fuel IH]; intros off bs; cbn [write_all].
  - destruct bs; apply calm_answer.
  - destruct bs as [|b bs]; [apply calm_answer|].
    apply calm_then; [apply _|eapply calm_ask; [apply quiet_write|apply _..]|].
    intros [|n]; [apply calm_answer|apply IH].
Qed.

Lemma calm_fs_write p bs : calm p (fs_write TMP_NAME bs) let_in anything.
Proof.
  eapply (calm_try p _ _ let_in (fun r w => (forall h, r = Ok h -> foreign h w) /\ let_in w)).
  - apply calm_op; [apply quiet_create_tmp|apply _|apply _].
  - apply _.
  - intros h. eapply calm_weaken; [apply calm_write_all|]. intros w [H _]. by apply H.
  - done.
Qed.

Lemma calm_sync p (e : CtlE (result unit IoError)) Pre : calm p (ask e) Pre anything -> calm p (sync e) Pre anything.
Proof. intros He. eapply calm_bind; [exact He|]. intros [[]|[]]; apply calm_answer. Qed.

Lemma calm_still p {A} (e : CtlE A) :
  (forall c w, act A p e c w = ((act A p e c w).1, w)) -> calm p (ask e) (fun _ => True) anything.
Proof. intros He. eapply calm_ask; [by apply (quiet_reads p e (fun _ => True))|apply _..]. Qed.

Lemma calm_io p {T} what (e : CtlE (result T IoError)) Pre : calm p (ask e) Pre anything -> calm p (io what e) Pre anything.
Proof. intros He. eapply calm_bind; [exact He|]. intros [t|err]; apply calm_answer. Qed.

Lemma calm_quiet p {A} (e : CtlE A) : quiet p e (fun _ => True) (fun _ _ => True) -> calm p (ask e) let_in anything.
Proof. intros He. eapply calm_weaken; [eapply calm_ask; [exact He|apply _..]|done]. Qed.

Lemma calm_create_dir p : calm p create_identity_dir let_in anything.
Proof.
  apply calm_then; [apply _| |intros _]; apply calm_io; (eapply calm_weaken; [apply calm_still|done]); intros c w; by cbn.
Qed.

(** What follows the key. *)
Lemma calm_record p record :
  calm p (do? _ <- named_io (lit "writing user.json.tmp") (fs_write TMP_NAME (record_json record));
          do? _ <- io (lit "replacing user.json") (Rename TMP_NAME USER_NAME);
          named_io (lit "syncing the directory") (do? _ <- ask OpenDir; sync SyncDir)) let_in anything.
Proof.
  apply calm_then; [apply _|apply calm_named, calm_fs_write|]. intros _.
  apply calm_then; [apply _|apply calm_io, calm_quiet, quiet_rename|]. intros _.
  apply calm_named, calm_then; [apply _| |intros _; apply calm_sync, calm_quiet, quiet_sync_dir].
  eapply calm_weaken; [apply calm_still|done]. intros c w. by cbn.
Qed.

(** ** The key file, written *)

Lemma WP_lasts {T} p (m : script CtlE T) Pre P w : calm p m Pre anything -> Lasting p P -> Pre w -> P w -> WP p m (fun _ => P) w.
Proof. intros Hm HP Hpre Hw. eapply wp_mono; [|by apply Hm]. by intros t w' [_ ?]. Qed.

(** Once a command has answered, the key it created is whole. *)
Definition whole (p : nat) (w : World) : Prop :=
  key_owner w = Some p -> exists hex, contents PRIVATE_KEY_NAME w = Some (as_bytes hex) /\ vouched hex w.

Definition written (p : nat) (hex : str) (w : World) : Prop := exists h, own p (Some (h, as_bytes hex)) w.

#[export] Instance lasting_ex p {A} (P : A -> World -> Prop) : (forall a, Lasting p (P a)) -> Lasting p (fun w => exists a, P a w).
Proof.
  intros HP. split; [intros w w' Hr [a H]; exists a; by eapply (lasts_others (Lasting := HP a))|].
  intros w w' Hs [a H]; exists a; by eapply (lasts_own (Lasting := HP a)).
Qed.

#[export] Instance lasting_written p hex : Lasting p (written p hex).
Proof. apply (lasting_ex p (fun h => own p (Some (h, as_bytes hex)))). apply _. Qed.

Lemma written_whole p hex w : written p hex w -> vouched hex w -> whole p w.
Proof.
  intros (h & Hk & Ho & Hb) Hv _. exists hex. split; [|done]. unfold contents. cbn [name_at]. rewrite Hk. exact Hb.
Qed.

Lemma own_none_whole p w : own p None w -> whole p w.
Proof. intros Ho H. by destruct (Ho H). Qed.

Lemma stable_whole p : stable p (whole p).
Proof.
  intros w w' Hr Hw Ho. assert (Ho0 : key_owner w = Some p).
  { destruct (decide (key_owner w = Some p)); [done|]. by destruct (rely_not_mine _ _ _ Hr ltac:(done)). }
  destruct (Hw Ho0) as (hex & Hc & Hv). exists hex. split; [|by eapply stable_vouched].
  unfold contents in *. cbn [name_at] in *. destruct (key_at (names w)) as [i|] eqn:Ek; [|done].
  destruct (grows_key _ _ (rely_grows _ _ _ Hr) i Ek) as [-> _]. cbn in *. rewrite <- Hc. by apply (rely_bytes _ _ _ Hr).
Qed.

Lemma WP_write_key p h hex fuel off w :
  let all := as_bytes hex in
  vouched hex w -> (off <= length all)%nat -> own p (Some (h, take off all)) w ->
  WP p (write_all fuel h off (drop off all)) (fun r w => r = Ok tt -> own p (Some (h, all)) w /\ vouched hex w) w.
Proof.
  intros all. revert off w. induction fuel as [|fuel IH]; intros off w Hv Hoff Ho; cbn [write_all];
    destruct (drop off all) as [|b bs] eqn:Ed.
  1,3: apply WP_answer; [intros r; apply lasts_others|]; intros _; rewrite take_ge in Ho; [by split|];
    apply (f_equal length) in Ed; rewrite length_drop in Ed; cbn in Ed; lia.
  - by apply WP_answer; [intros r; apply lasts_others|].
  - rewrite <- Ed. eapply wp_try; [apply _|by apply (WP_write_key_once p h hex off)| |].
    + intros e w' _ _. by apply WP_answer; [intros r; apply lasts_others|].
    + intros [|n] w' _ [Hv' Hn]; [by apply WP_answer; [intros r; apply lasts_others|]|].
      destruct (Hn _ eq_refl) as [Hle Ho']. rewrite drop_drop. by apply IH.
Qed.

(** Errors named by what they were for. *)
Definition named {T} (what : str) (r : result T IoError) : result T Failure :=
  match r with Ok t => Ok t | Err e => Err (Io what e) end.

Lemma WP_named {T} p what (m : script CtlE (result T IoError)) (Q : result T Failure -> World -> Prop) w :
  (forall r, stable p (Q r)) -> WP p m (fun r w => Q (named what r) w) w -> WP p (named_io what m) Q w.
Proof. intros HQ Hm. eapply wp_bind; [apply _|exact Hm|]. intros r w' _ H. by apply WP_answer. Qed.

(** What a command has made of the key file when it answers: nothing, or a whole key. *)
Definition settled (p : nat) (w : World) : Prop := own p None w \/ exists hex, written p hex w /\ vouched hex w.

#[export] Instance lasting_or p P Q : Lasting p P -> Lasting p Q -> Lasting p (fun w => P w \/ Q w).
Proof. intros [H1 H2] [H3 H4]. split; [intros w w' Hr [H|H]|intros w w' Hs [H|H]]; eauto. Qed.

#[export] Instance lasting_settled p : Lasting p (settled p).
Proof.
  apply (lasting_or p (own p None)); [apply _|].
  apply (lasting_ex p (fun hex w => written p hex w /\ vouched hex w)). intros hex. apply (lasting_and p (written p hex)); apply _.
Qed.

Lemma settled_whole p w : settled p w -> whole p w.
Proof. intros [H|(hex & H1 & H2)]; [by apply own_none_whole|by apply (written_whole p hex)]. Qed.

(** What an [Ok] tells. *)
Definition tells {T F} (R : T -> World -> Prop) (r : result T F) (w : World) : Prop := forall t, r = Ok t -> R t w.

#[export] Instance lasting_tells p {T F} (R : T -> World -> Prop) (r : result T F) : (forall t, Lasting p (R t)) -> Lasting p (tells R r).
Proof.
  intros HR. apply (lasting_all p (fun t w => r = Ok t -> R t w)). intros t. apply (lasting_implies p _ (R t)). apply _.
Qed.

Lemma WP_fails p {T F} (R : T -> World -> Prop) (e : F) w : WP p (Done (Err e)) (tells R) w.
Proof. by intros w' _ _ t [=]. Qed.

Lemma WP_ends p {T F} (R : T -> World -> Prop) (t : T) w : Lasting p (R t) -> R t w -> WP p (Done (Ok t)) (tells (F := F) R) w.
Proof. intros HR Hw w' Hr _ t' [= <-]. by apply (lasts_others _ _ Hr). Qed.

Lemma WP_then p {T U F} (m : script CtlE (result T F)) (k : T -> script CtlE (result U F)) R S w :
  WP p m (tells R) w -> (forall t w', R t w' -> WP p (k t) (tells S) w') -> WP p (then_try m k) (tells S) w.
Proof. intros Hm Hk. eapply wp_try; [apply _|exact Hm|intros; apply WP_fails|]. intros t w' _ H. apply Hk. by apply H. Qed.

Lemma WP_calm_then p {T U F} (m : script CtlE (result T F)) (k : T -> script CtlE (result U F)) Pre R S P w :
  calm p m Pre (tells R) -> Lasting p P -> Pre w -> P w ->
  (forall t w', R t w' -> P w' -> WP p (k t) (tells S) w') ->
  WP p (then_try m k) (tells S) w.
Proof.
  intros Hm HP Hpre Hw Hk. apply (WP_then p m k (fun t w => R t w /\ P w)).
  - eapply wp_mono; [|by apply (Hm P)]. intros r w' [HR HPw] t ->. split; [by apply HR|done].
  - intros t w' [HR HPw]. by apply Hk.
Qed.

Lemma calm_tells p {T F} (m : script CtlE (result T F)) Pre : calm p m Pre anything -> calm p m Pre (tells (fun _ _ => True)).
Proof. intros Hm. by eapply calm_mono. Qed.

Lemma WP_calm_last p {T F} (m : script CtlE (result T F)) Pre P w :
  calm p m Pre anything -> Lasting p P -> Pre w -> P w -> WP p m (tells (fun _ => P)) w.
Proof. intros Hm HP Hpre Hw. eapply wp_mono; [|by apply (WP_lasts p m Pre P)]. by intros r w' H t _. Qed.

(** The key file of [p], written whole. *)
Definition key_written (p : nat) (hex : str) (w : World) : Prop := written p hex w /\ vouched hex w.

#[export] Instance lasting_key_written p hex : Lasting p (key_written p hex).
Proof. apply (lasting_and p (written p hex)); apply _. Qed.

Lemma WP_write_key_file p hex w :
  vouched hex w -> own p None w -> WP p (write_key_file hex) (tells (fun _ => key_written p hex)) w.
Proof.
  intros Hv Ho. unfold write_key_file.
  apply (WP_then p _ _ (fun h w => vouched hex w /\ own p (Some (h, [])) w)).
  - apply (WP_named p _ (ask (OpenNew PRIVATE_KEY_NAME))).
    + intros r. apply (lasts_others (P := tells (fun h w => vouched hex w /\ own p (Some (h, [])) w) r)).
    + eapply wp_mono; [|apply (WP_open_key p hex w Hv Ho)]. intros [h|e] w' [? ?]; [by intros h' [= <-]|done].
  - intros h w' [Hv' Ho']. apply WP_named; [intros r; apply (lasts_others (P := tells (fun _ => key_written p hex) r))|].
    eapply wp_mono; [|apply (WP_then p _ _ (fun _ => key_written p hex) (fun _ => key_written p hex))].
    + intros [t|e] w2 H; [intros t' _; by apply (H t)|by intros t' [=]].
    + eapply wp_mono; [|apply (WP_write_key p h hex _ 0); [done|lia|by rewrite take_0]].
      intros r w2 H [] E. destruct (H E). split; [by exists h|done].
    + intros [] w2 H. apply (WP_calm_last p _ (fun _ => True)); [|apply _|done..].
      eapply calm_sync, calm_ask; [apply quiet_sync|apply _..].
Qed.

(** ** The identity, written *)

Lemma WP_store_key p key w :
  own p None w -> let_in w -> (forall hex, key = Generated hex -> vouched hex w) ->
  WP p (match key with
        | Generated hex => do? _ <- write_key_file hex; ok None
        | ToRecord record => ok (Some record)
        | InPlace => ok None
        end) (tells (fun _ w => settled p w /\ let_in w)) w.
Proof.
  intros Ho Hl Hv.
  assert (Hend : forall (ssh : option SshKeyRecord) w, settled p w -> let_in w -> WP p (ok ssh) (tells (fun _ w => settled p w /\ let_in w)) w).
  { intros ssh w' Hs Hl'. apply WP_ends; [apply (lasting_and p (settled p)); apply _|done]. }
  destruct key as [hex|record|]; [|apply Hend; [by left|done]..].
  eapply WP_then; [by apply WP_write_key_file; [apply Hv|]|]. intros t w' Hw.
  apply Hend; [right; by exists hex|]. by eapply vouched_let_in, Hw.
Qed.

Lemma WP_write p uid kid server key w :
  own p None w -> let_in w -> (forall hex, key = Generated hex -> vouched hex w) ->
  WP p (write uid kid server key) (tells (fun _ => settled p)) w.
Proof.
  intros Ho Hl Hv. unfold write.
  apply (WP_calm_then p _ _ let_in (fun _ _ => True) _ (fun w => (own p None w /\ let_in w) /\ forall hex, key = Generated hex -> vouched hex w)).
  - apply calm_tells, calm_create_dir.
  - apply lasting_and; [apply (lasting_and p (own p None)); apply _|].
    apply lasting_all. intros hex. apply (lasting_implies p _ (vouched hex)). apply _.
  - done.
  - by split_and!.
  - intros [] w1 _ [[Ho1 Hl1] Hv1]. eapply WP_then; [by apply WP_store_key|].
    intros ssh w2 [Hs Hl2]. by apply (WP_calm_last p _ let_in); [apply calm_record|apply _| |].
Qed.

(** ** The commands *)

(** Scripts that leave the key alone whatever holds. *)
Definition reader (p : nat) {T} (m : script CtlE T) : Prop := calm p m (fun _ => True) anything.

Lemma reader_done p {T} (t : T) : reader p (Done t).
Proof. apply calm_answer. Qed.

Lemma reader_bind p {T U} (m : script CtlE T) (k : T -> script CtlE U) : reader p m -> (forall t, reader p (k t)) -> reader p (then_ m k).
Proof. intros Hm Hk. eapply calm_bind; [exact Hm|]. intros t. eapply calm_weaken; [apply Hk|done]. Qed.

Lemma reader_try p {T U F} (m : script CtlE (result T F)) (k : T -> script CtlE (result U F)) :
  reader p m -> (forall t, reader p (k t)) -> reader p (then_try m k).
Proof. intros Hm Hk. apply reader_bind; [done|]. intros [t|e]; [apply Hk|apply reader_done]. Qed.

Lemma reader_ask p {A} (e : CtlE A) : (forall c w, act A p e c w = ((act A p e c w).1, w)) -> reader p (ask e).
Proof. apply calm_still. Qed.

Lemma reader_ensure_empty p : reader p ensure_empty.
Proof.
  apply reader_bind; [by apply reader_ask|]. intros []; [apply reader_done|].
  apply reader_bind; [by apply reader_ask|]. intros []; apply reader_done.
Qed.

Lemma reader_io p {T} what (e : CtlE (result T IoError)) : (forall c w, act _ p e c w = ((act _ p e c w).1, w)) -> reader p (io what e).
Proof. intros He. apply reader_bind; [by apply reader_ask|]. intros t. apply reader_done. Qed.

Lemma still_file p n c w : act _ p (ReadFile n) c w = ((act _ p (ReadFile n) c w).1, w).
Proof. cbn. by destruct (fails c). Qed.

Lemma reader_public_key p key : reader p (public_key_of key).
Proof.
  destruct key as [|record]; cbn [public_key_of]; [|destruct (checked_key _); apply reader_done].
  apply reader_try; [|intros hex; apply reader_done]. apply reader_try; [apply reader_io, still_file|].
  intros bytes. destruct (from_utf8 bytes) as [text|]; [destruct (checked_key text)|]; apply reader_done.
Qed.

Lemma reader_read_identity p : reader p read_identity.
Proof.
  apply reader_try.
  - apply reader_bind; [apply reader_ask, still_file|]. intros [bytes|[]]; try apply reader_done.
    destruct (from_utf8 bytes); [destruct (record_of bytes)|]; apply reader_done.
  - intros record. apply reader_bind; [|intros t; apply reader_done].
    destruct (record ≫= ssh_key); [apply reader_done|]. apply reader_bind; [by apply reader_ask|]. intros []; apply reader_done.
Qed.

Lemma reader_signer p key : reader p (login_signer key).
Proof.
  assert (Hf : forall hex, reader p (signer_for hex)).
  { intros hex. apply reader_bind; [by apply reader_ask|]. intros t. apply reader_done. }
  destruct key as [[]|[] ?]; cbn [login_signer signer]; [apply reader_done|apply Hf| |apply Hf].
  apply reader_try; [|intros t; apply reader_done]. apply reader_try; [apply reader_io, still_file|].
  intros bytes. destruct (from_utf8 bytes) as [text|]; [destruct (checked_key text)|]; apply reader_done.
Qed.

Lemma reader_check_unchanged p key : reader p (check_unchanged key).
Proof.
  destruct key as [key|key public]; cbn [check_unchanged].
  - apply reader_bind; [apply reader_ensure_empty|]. intros t. apply reader_done.
  - apply reader_try; [apply reader_read_identity|]. intros current. apply reader_bind; [|intros []; apply reader_done].
    destruct (stored_key current); [|apply reader_done]. apply reader_bind; [apply reader_public_key|]. intros t. apply reader_done.
Qed.

(** A generated key is what its public half was derived from. *)
Definition good_key (key : ChosenKey) : Prop :=
  match key with
  | ChosenGenerated hex public => key_of hex /\ public_key_hex_from_private hex = Ok public
  | ChosenSystem _ _ _ => True
  end.

Lemma lasting_good p (r : result ChosenKey Failure) : Lasting p (tells (fun key _ => good_key key) r).
Proof. apply lasting_tells. intros key. apply (lasting_pure p (good_key key)). Qed.

Lemma filled_bytes n bytes : length (filled n bytes) = n /\ Forall is_byte (filled n bytes).
Proof.
  unfold filled. rewrite length_map, length_take, length_app, length_replicate. split; [lia|].
  apply Forall_map, Forall_true. intros b. unfold is_byte. apply Z.mod_pos_bound. lia.
Qed.

Lemma calm_generate p : calm p generate_keypair (fun _ => True) (tells (fun key _ => good_key key)).
Proof.
  eapply calm_bind with (R := fun r _ => forall seed, r = Ok seed -> length seed = 32%nat /\ Forall is_byte seed).
  - eapply calm_mono; [apply calm_op; [apply (quiet_reads p Entropy (fun r => forall seed, r = Ok seed -> length seed = 32%nat /\ Forall is_byte seed))|apply _..]|done|by intros t w [? ?]].
    intros c w. split; [done|]. cbn. destruct c; try done. intros seed [= <-]. apply filled_bytes.
  - intros [seed|why]; (eapply calm_mono; [apply calm_done; apply lasting_good| |done]).
    + intros w H k [= <-]. destruct (H seed eq_refl) as [Hl Hb]. split; [by exists seed|].
      unfold public_key_hex_from_private. by rewrite hex_round_trip.
    + by intros w _ k [=].
Qed.

Lemma calm_resolve_chosen p args : calm p (resolve_chosen args) (fun _ => True) (tells (fun key _ => good_key key)).
Proof.
  unfold resolve_chosen. destruct (arg_generate args); [apply calm_generate|].
  eapply calm_bind; [by apply reader_ask|]. intros found.
  destruct (choose_from _ _); (eapply calm_mono; [apply calm_done; apply lasting_good| |done]).
  - by intros w _ k [= <-].
  - by intros w _ k [=].
Qed.

(** Where a command may write: the server took the key's id, or a person did. *)
Definition granted (p : nat) (kid : str) (w : World) : Prop := adopting = true \/ accepted_of p kid w.

#[export] Instance lasting_granted p q kid : Lasting p (granted q kid).
Proof. apply (lasting_or p (fun _ => adopting = true)); apply _. Qed.

Lemma granted_let_in p kid w : granted p kid w -> let_in w.
Proof. intros [H|H]; [by left|right]. intros E. unfold accepted_of in H. rewrite E in H. by apply elem_of_nil in H. Qed.

Lemma good_vouched p key kid w :
  good_key key -> key_id_of (chosen_public key) = Ok kid -> granted p kid w ->
  forall hex, chosen_to_store key = Generated hex -> vouched hex w.
Proof.
  destruct key as [hex public|]; [|done]. cbn. intros [Hk Hp] Hkid Hg hex' [= <-]. split; [done|].
  destruct Hg as [Ha|Ha]; [by left|right]. by exists p, public, kid.
Qed.

Lemma WP_in_context p {T} why (m : Fallible T) R w : WP p m (tells R) w -> (forall t, Lasting p (R t)) -> WP p (in_context why m) (tells R) w.
Proof.
  intros Hm HR. eapply wp_bind; [apply _|exact Hm|]. intros [t|e] w' _ H; [|apply WP_fails].
  apply WP_ends; [apply _|by apply H].
Qed.

Lemma WP_register_with_key p server key w :
  good_key key -> own p None w -> WP p (register_with_key server key) (tells (fun _ => settled p)) w.
Proof.
  intros Hk Ho. unfold register_with_key.
  destruct (key_id_of (chosen_public key)) as [kid|e] eqn:Ekid; cbn [then_try then_]; [|apply WP_fails].
  eapply wp_bind; [apply _|eapply (WP_quiet p _ _ _ (own p None)); [apply quiet_register|apply _..|done|done]|].
  intros [response|e] w' _ [Ha Ho']; [|apply WP_fails]. specialize (Ha ltac:(done)).
  destruct (reconcile_key_id _ _); cbn [then_try then_]; [|apply WP_fails].
  apply (WP_then p _ _ (fun _ => settled p)).
  - apply WP_in_context; [|apply _]. apply WP_write; [done|by apply (granted_let_in p kid); right|].
    apply (good_vouched p key kid); [done..|by right].
  - intros _ w2 Hs. by apply WP_ends; [apply _|].
Qed.

Lemma WP_register p server args w : own p None w -> WP p (register server args) (tells (fun _ => settled p)) w.
Proof.
  intros Ho. eapply WP_calm_then; [apply calm_tells, reader_ensure_empty|apply (lasting_own p None)|done|done|].
  intros _ w1 _ Ho1. eapply WP_calm_then; [apply calm_resolve_chosen|apply (lasting_own p None)|done|done|].
  intros key w2 Hk Ho2. by apply WP_register_with_key.
Qed.

Lemma WP_adopt p uid server args w : adopting = true -> own p None w -> WP p (adopt uid server args) (tells (fun _ => settled p)) w.
Proof.
  intros Had Ho. eapply WP_calm_then; [apply calm_tells, reader_ensure_empty|apply (lasting_own p None)|done|done|].
  intros _ w1 _ Ho1. eapply WP_calm_then; [apply calm_resolve_chosen|apply (lasting_own p None)|done|done|].
  intros key w2 Hk Ho2. destruct (key_id_of (chosen_public key)) as [kid|e] eqn:Ekid; cbn [then_try then_]; [|apply WP_fails].
  eapply WP_then; [apply WP_write; [done|by left|apply (good_vouched p key kid); [done..|by left]]|].
  intros [] w3 Hs. by apply WP_ends; [apply _|].
Qed.

(** What a sign-in holds before it writes. *)
Definition good_login (key : LoginKey) : Prop := match key with Chosen key => good_key key | Kept _ _ => True end.

Lemma WP_save_login p previous server key kid profile w :
  good_login key -> key_id_of (login_public key) = Ok kid -> granted p kid w -> own p None w ->
  WP p (save_login previous server key kid profile) (tells (fun _ => settled p)) w.
Proof.
  intros Hk Hkid Hg Ho. unfold save_login. destruct (match previous with Some _ => _ | None => _ end).
  - apply WP_ends; [apply _|by left].
  - eapply (WP_calm_then p _ _ _ _ _ (fun w => own p None w /\ granted p kid w)); [apply calm_tells, reader_check_unchanged| |done|done|].
    + apply (lasting_and p (own p None)); apply _.
    + intros _ w1 _ [Ho1 Hg1]. apply (WP_then p _ _ (fun _ => settled p)).
      * apply WP_in_context; [|apply _]. apply WP_write; [done|by eapply granted_let_in|].
        destruct key as [key|[] public]; [by apply (good_vouched p key kid)|done..].
      * intros _ w2 Hs. by apply WP_ends; [apply _|].
Qed.

Lemma classify_approved r profile : classify r = IsApproved profile -> r = Ok (Approved profile).
Proof.
  destruct r as [[profile'| |refusal]|e]; cbn; [by intros [= ->]|done..|].
  destruct (_ || _); [done|]. by destruct (_ || _).
Qed.

(** What a look at the server tells, and what the wait does. *)
Definition approves (p : nat) (kid : str) (r : result (KeyApproval Profile) MgmtError) (w : World) : Prop :=
  (exists profile, r = Ok (Approved profile)) -> accepted_of p kid w.

#[export] Instance lasting_approves p q kid r : Lasting p (approves q kid r).
Proof. apply (lasting_implies p (exists profile, r = Ok (Approved profile)) (accepted_of q kid)). apply _. Qed.

Lemma calm_look p kid by_ : calm p (ask (AskKey kid by_)) (fun _ => True) (approves p kid).
Proof. eapply calm_mono; [apply calm_op; [apply quiet_ask_key|apply _..]|done|by intros r w [? _]]. Qed.

Definition found_is_granted (p : nat) (kid : str) (found : option Profile) (w : World) : Prop := is_Some found -> accepted_of p kid w.

#[export] Instance lasting_found p q kid found : Lasting p (found_is_granted q kid found).
Proof. apply (lasting_implies p (is_Some found) (accepted_of q kid)). apply _. Qed.

Lemma reader_elapsed p : reader p (ask Elapsed).
Proof. eapply calm_ask; [apply quiet_elapsed|apply _..]. Qed.

Lemma calm_wait p fuel timeout start kid by_ last :
  calm p (wait_for_approval fuel timeout start kid by_ last) (fun _ => True) (tells (found_is_granted p kid)).
Proof.
  revert last. induction fuel as [|fuel IH]; intros last; cbn [wait_for_approval].
  { eapply calm_mono; [apply (calm_done p _ (tells (found_is_granted p kid))); apply _| |done]. by intros w _ found [= <-] [? ?]. }
  assert (He : forall (e : Failure) Pre, calm p (Done (Err e)) Pre (tells (found_is_granted p kid))).
  { intros e Pre. eapply calm_mono; [apply (calm_done p _ (tells (found_is_granted p kid))); apply _| |done]. by intros w _ found [=]. }
  eapply calm_bind; [apply reader_elapsed|]. intros now. match goal with |- context [if ?b then _ else _] => destruct b end; [apply He|].
  eapply calm_bind; [eapply calm_weaken; [eapply calm_ask; [apply quiet_sleep|apply _..]|done]|]. intros [].
  eapply calm_bind; [eapply calm_mono; [apply (calm_look p kid by_)|done|done]|]. intros answer.
  destruct (classify answer) as [profile|failure|e] eqn:Ec; [| |apply He].
  - apply classify_approved in Ec as ->. eapply calm_mono; [apply (calm_done p _ (tells (found_is_granted p kid))); apply _| |done].
    intros w H found [= <-] _. by apply H; exists profile.
  - by eapply calm_mono.
Qed.

Lemma WP_login_with p polls previous server timeout key w :
  good_login key -> own p None w -> WP p (login_with polls previous server timeout key) (tells (fun _ => settled p)) w.
Proof.
  intros Hk Ho. unfold login_with.
  destruct (key_id_of (login_public key)) as [kid|e] eqn:Ekid; cbn [then_try then_]; [|apply WP_fails].
  eapply WP_calm_then; [apply calm_tells, reader_signer|apply (lasting_own p None)|done|done|]. intros by_ w1 _ Ho1.
  eapply wp_bind; [apply _|by apply (calm_look p kid by_ (own p None)); [apply _| |]|]. intros answer w2 _ [Ha Ho2].
  assert (Hsave : forall profile w, granted p kid w -> own p None w ->
    WP p (do? wrote <- save_login previous server key kid profile; ok (Some wrote)) (tells (fun _ => settled p)) w).
  { intros profile w' Hg Ho'. eapply WP_then; [by apply WP_save_login|]. intros wrote w3 Hs. by apply WP_ends; [apply _|]. }
  destruct (classify answer) as [profile|failure|e] eqn:Ec; [| |apply WP_fails].
  - apply classify_approved in Ec as ->. apply Hsave; [right; by apply Ha; exists profile|done].
  - destruct (approval_code kid); cbn [then_try then_]; [|apply WP_fails].
    eapply wp_bind; [apply _|apply (reader_elapsed p (own p None)); [apply _|done|exact Ho2]|]. intros start w3 _ [_ Ho3].
    eapply WP_calm_then; [apply calm_wait|apply (lasting_own p None)|done|done|]. intros [profile|] w4 Hf Ho4.
    + apply Hsave; [right; by apply Hf|done].
    + apply WP_ends; [apply _|by left].
Qed.

Lemma calm_resolve_login p stored args : calm p (resolve_login stored args) (fun _ => True) (tells (fun key _ => good_login key)).
Proof.
  assert (Hl : forall r : result LoginKey Failure, Lasting p (tells (fun key _ => good_login key) r)).
  { intros r. apply lasting_tells. intros key. apply (lasting_pure p (good_login key)). }
  assert (He : forall (e : Failure) Pre, calm p (Done (Err e)) Pre (tells (fun key _ => good_login key))).
  { intros e Pre. eapply calm_mono; [apply calm_done, Hl| |done]. by intros w _ key [=]. }
  unfold resolve_login. destruct (stored_key stored) as [key|].
  - destruct (_ || _); [apply He|]. eapply calm_bind; [apply reader_public_key|]. intros [public|e]; [|apply He].
    eapply calm_mono; [apply calm_done, Hl| |done]. by intros w _ key' [= <-].
  - eapply calm_bind; [apply reader_ensure_empty|]. intros [[]|e]; [|apply He].
    eapply calm_bind; [eapply calm_mono; [apply calm_resolve_chosen|done|done]|]. intros [key|e]; [|apply He].
    eapply calm_mono; [apply calm_done, Hl| |done]. intros w H key' [= <-]. by apply (H key).
Qed.

Lemma WP_login p polls server timeout args w :
  own p None w -> WP p (login user_id_ok key_id_ok polls server timeout args) (tells (fun _ => settled p)) w.
Proof.
  intros Ho. eapply WP_calm_then; [apply calm_tells, reader_read_identity|apply (lasting_own p None)|done|done|].
  intros stored w1 _ Ho1. eapply WP_calm_then; [apply calm_resolve_login|apply (lasting_own p None)|done|done|].
  intros key w2 Hk Ho2. destruct (server_or_stored _ _); cbn [then_try then_]; [|apply WP_fails]. by apply WP_login_with.
Qed.

(** What a command's answer means. *)
Definition post (p : nat) (c : Command) (r : result unit Failure) (w : World) : Prop := r = Ok tt -> whole p w.

Lemma code_sound p c w : Inv w -> may_start p c w = true -> WP p (code c) (post p c) w.
Proof.
  intros _ [Ho%bool_decide_eq_true Ha]%andb_true_iff.
  assert (Hd : forall {T} (m : Fallible T), WP p m (tells (fun _ => settled p)) w -> WP p (done m) (post p c) w).
  { intros T m Hm. eapply wp_mono; [|apply (WP_then p m _ (fun _ => settled p) (fun _ => settled p)); [exact Hm|]].
    - intros r w' H ->. apply settled_whole, (H tt). done.
    - intros t w' Hs. by apply WP_ends; [apply _|]. }
  destruct c as [server args|polls server timeout args|uid server args]; apply Hd.
  - by apply WP_register.
  - by apply WP_login.
  - by apply WP_adopt.
Qed.

Lemma dies_sound p w : Inv w -> Inv (dies p w) /\ guar p w (dies p w).
Proof.
  intros Hi. unfold dies. destruct (bool_decide_reflect (key_owner w = Some p)) as [Ho|]; [|done].
  assert (Hg : grows w (set_owner None w)).
  { constructor; try done; [|cbn; congruence]. intros i Hk. split; [done|]. intros bytes Hb. by exists bytes. }
  split.
  - constructor; [apply (inv_bound _ Hi)|apply (inv_apart _ Hi)| |done|apply (inv_any _ Hi)]. intros i Hk.
    destruct (inv_key _ Hi i Hk) as (bytes & hex & H1 & H2 & H3). exists bytes, hex. split_and!; [done|by eapply vouched_grows|done].
  - constructor; [done| |done]. right; left. done.
Qed.

End Commands.
