(* ===== verification/CtlSignIn.v ===== *)
(** * What signing in promises

    The theorems of [CtlAuth] and [CtlShared]: whose key a working directory comes to hold
    and that it stays, that the wait for an approval ends in time, what a duration shown
    reads back as, and how a record can still be torn. *)

From Stdlib Require Import ZArith Lia String.
From stdpp Require Import prelude list fin_maps gmap.
From S2P Require Import Prelude Str Errors Script Ssh SshAgent MgmtSig MgmtCall CtlIdentity CtlAuth CtlShared.

Local Open Scope Z_scope.
Local Open Scope script_scope.

(** ** A key file, read back *)

Definition hex_digit (c : Z) : bool := is_digit c || ((97 <=? c) && (c <=? 102)).

(** Hex, as the [hex] crate writes it. *)
Class HexText `{SshCodecs} := {
  hex_digits bytes : Forall is_byte bytes -> Forall (fun c => hex_digit c = true) (hex_encode bytes);
  hex_decode_length text bytes : hex_decode text = Some bytes -> length text = (2 * length bytes)%nat;
}.

Lemma hex_digit_range c : hex_digit c = true -> 48 <= c <= 102.
Proof. unfold hex_digit, is_digit. intros [H|H]%orb_true_iff; apply andb_true_iff in H as [?%Z.leb_le ?%Z.leb_le]; lia. Qed.

Lemma ascii_bytes s : Forall (fun c => c < 128) s -> as_bytes s = s.
Proof.
  intros Hs. induction Hs as [|c s Hc _ IH]; [done|]. change (as_bytes (c :: s)) with (encode_char c ++ as_bytes s).
  rewrite IH. unfold encode_char. by rewrite (proj2 (Z.ltb_lt c 128)).
Qed.

Lemma hex_is_its_bytes s : Forall (fun c => hex_digit c = true) s -> as_bytes s = s /\ from_utf8 s = Some s.
Proof.
  intros Hs. assert (Hb : as_bytes s = s).
  { apply ascii_bytes. eapply Forall_impl; [exact Hs|]. intros c Hc%hex_digit_range. lia. }
  split; [done|]. rewrite <- Hb at 1. apply from_utf8_as_bytes. eapply Forall_impl; [exact Hs|].
  intros c Hc%hex_digit_range. unfold valid_char. apply orb_true_iff. left. apply andb_true_iff.
  split; [apply Z.leb_le|apply Z.ltb_lt]; lia.
Qed.

Lemma trim_start_none s : Forall (fun c => is_whitespace c = false) s -> trim_start s = s.
Proof. intros [|c s' Hc _]; [done|]. cbn. by rewrite Hc. Qed.

Lemma hex_is_trimmed s : Forall (fun c => hex_digit c = true) s -> to_ascii_lowercase (trim s) = s.
Proof.
  intros Hs. assert (Hw : Forall (fun c => is_whitespace c = false) s).
  { eapply Forall_impl; [exact Hs|]. intros c Hc%hex_digit_range. unfold is_whitespace. lia. }
  unfold trim, trim_end. rewrite (trim_start_none s) by done. rewrite (trim_start_none (rev s)), rev_involutive.
  - clear Hw. induction Hs as [|c s Hc _ IH]; [done|]. cbn. change (map _ s) with (to_ascii_lowercase s). rewrite IH.
    destruct ((65 <=? c) && (c <=? 90)) eqn:E; [|done]. unfold hex_digit, is_digit in Hc. lia.
  - by apply Forall_rev.
Qed.

Section SignIn.
Context `{UC : UrlCrate} `{SC : SshCodecs} `{SL : !SshCodecLaws} `{HT : !HexText} `{RJ : RecordJson}.
Context (user_id_ok key_id_ok : str -> option str).

Lemma key_text hex : key_of hex -> as_bytes hex = hex /\ from_utf8 hex = Some hex /\ checked_key hex = Some hex /\ length hex = 64%nat.
Proof.
  intros (seed & -> & Hl & Hb). pose proof (hex_digits seed Hb) as Hd. destruct (hex_is_its_bytes _ Hd) as [H1 H2].
  pose proof (hex_round_trip seed Hb) as Hr. split_and!; [done|done| |by rewrite (hex_decode_length _ _ Hr), Hl].
  unfold checked_key. rewrite hex_is_trimmed by done. cbn. rewrite Hr. cbn. unfold len. by rewrite Hl.
Qed.

(** Of a key's text, only the whole of it is a key. *)
Lemma part_of_a_key hex bytes text got :
  key_of hex -> bytes `prefix_of` as_bytes hex -> from_utf8 bytes = Some text -> checked_key text = Some got -> got = hex.
Proof.
  intros Hk [rest E] Ht Hc. destruct (key_text hex Hk) as (Eb & _ & _ & Hl). destruct Hk as (seed & -> & _ & Hb).
  rewrite Eb in E. pose proof (hex_digits seed Hb) as Hd. rewrite E in Hd. apply Forall_app in Hd as [Hd _].
  destruct (hex_is_its_bytes bytes Hd) as [_ Ht']. rewrite Ht in Ht'. injection Ht' as ->.
  unfold checked_key in Hc. rewrite hex_is_trimmed in Hc by done. destruct (hex_decode bytes) as [raw|] eqn:Er; [|done].
  cbn in Hc. destruct (Z.eqb_spec (len raw) 32) as [E32|]; [|done]. injection Hc as <-.
  pose proof (hex_decode_length _ _ Er). unfold len in E32. apply (f_equal length) in E as El. rewrite Hl, length_app in El.
  destruct rest; [by rewrite E, app_nil_r|cbn in El; lia].
Qed.

(** [read_key], by a command that is not interrupted; [c] is what the file system does. *)
Definition key_read (c : Choice) (w : World) : result str Failure := (run act Fine 0 read_key [c] w).1.1.

Lemma key_read_spec c w :
  key_read c w = match (act _ 0 (ReadFile PRIVATE_KEY_NAME) c w).1 with
    | Err e => Err (Io (lit "to read private key") e)
    | Ok bytes =>
        match from_utf8 bytes with
        | None => Err (Io (lit "to read private key") InvalidData)
        | Some text => match checked_key text with Some hex => Ok hex | None => Err BadPrivateKey end
        end
    end.
Proof.
  unfold key_read, read_key, io. cbn [run then_try then_ ask List.hd List.tl act]. destruct (fails c) as [e|]; [done|].
  destruct (contents PRIVATE_KEY_NAME w) as [bytes|]; [|done]. cbn [run then_ fst].
  destruct (from_utf8 bytes) as [text|]; [|done]. by destruct (checked_key text).
Qed.

Lemma read_file n c w bytes : (act _ 0 (ReadFile n) c w).1 = Ok bytes -> contents n w = Some bytes.
Proof. cbn. destruct (fails c); [done|]. by destruct (contents n w); [intros [= ->]|]. Qed.

(** ** Any number of commands *)

Definition no_names : Names := {| key_at := None; user_at := None; tmp_at := None |}.

(** A working directory nobody has signed in from. *)
Definition fresh (now : Z) : World :=
  {| inodes := ∅; next_inode := 0; names := no_names; lasting := [no_names]; clock := now; accepted := []; key_owner := None |}.

Context (adopting : bool).

Definition step : system (E := CtlE) -> system -> Prop :=
  sys_step act (code user_id_ok key_id_ok) (may_start adopting) dies.

Definition reached (now : Z) (s : system (E := CtlE) (W := World) (Job := Command) (T := result unit Failure)) : Prop :=
  reachable (sys_init (fresh now)) step s.

Lemma fresh_ok now : Inv adopting (fresh now).
Proof. constructor; try done; [by intros []|]. by intros ([] & [? [=]]). Qed.

Notation sound := (sys_ok act (Inv adopting) rely guar (post adopting)).

Lemma reached_ok now s : reached now s -> sound s.
Proof.
  apply system_sound; [apply _|apply guar_rely|apply dies_sound|apply code_sound|apply fresh_ok].
Qed.

Lemma step_grows s s' : sound s -> step s s' -> grows (world s) (world s').
Proof.
  intros Hok Hs. destruct (sys_step_guar act (Inv adopting) rely guar (code user_id_ok key_id_ok) (post adopting)
    (may_start adopting) dies (dies_sound adopting) s s' Hok Hs) as [->|[p Hg]]; [done|apply Hg].
Qed.

Lemma steps_grow now s s' : reached now s -> rtc step s s' -> grows (world s) (world s').
Proof.
  intros Hr Hs. revert Hr. induction Hs as [s|s s1 s2 Hs _ IH]; intros Hr; [done|].
  etrans; [apply step_grows; [by eapply reached_ok|done]|]. apply IH. by econstructor.
Qed.


(** ** The wait for an approval *)

(** How often the server is asked at most. *)
Definition looks (timeout : Z) : nat := Z.to_nat (timeout / POLL_INTERVAL + 1).

Definition wait_outcome (p : nat) (timeout start : Z) (kid : str) (r : result (option Profile) Failure) (w : World) : Prop :=
  match r with
  | Ok None => False
  | Ok (Some _) => (p, kid) ∈ accepted w
  | Err (NotApproved _) => timeout <= clock w - start
  | Err e => exists answer, classify answer = IsRefused e
  end.

Lemma refusals_are_not_timeouts r e last : classify r = IsRefused e -> e <> NotApproved last.
Proof. destruct r as [[]|e']; cbn; [done|done|by intros [= <-]|]. destruct (_ || _); [done|]. by destruct (_ || _); intros [= <-]. Qed.

Lemma looked p kid by_ c w r w' :
  act _ p (AskKey kid by_) c w = (r, w') ->
  clock w' = clock w /\ ((exists profile, r = Ok (Approved profile)) -> (p, kid) ∈ accepted w').
Proof.
  cbn [act]. destruct c; try (intros [= <- <-]; by split; [|intros [? [=]]]).
  destruct r0 as [[profile| |]|]; intros [= <- <-]; (split; [done|]); try by intros [? [=]]. by left.
Qed.

Lemma wait_ends p fuel timeout start kid by_ last cs w :
  (0 < fuel)%nat -> start <= clock w -> timeout - (clock w - start) <= (Z.of_nat fuel - 1) * POLL_INTERVAL ->
  let '(r, w', _) := run act Fine p (wait_for_approval fuel timeout start kid by_ last) cs w in
  wait_outcome p timeout start kid r w'.
Proof.
  revert last cs w. induction fuel as [|fuel IH]; intros last cs w Hn Hs Hf; [lia|]. cbn [wait_for_approval then_ ask run].
  destruct (act _ p Elapsed _ w) as [now w1] eqn:E1. cbn [act] in E1.
  set (delay := Z.max 0 (passed _)) in E1. injection E1 as <- <-.
  destruct (Z.eqb_spec (Z.max 0 (timeout - Z.max 0 (clock w + delay - start))) 0) as [E|E].
  { unfold failed. cbn [run wait_outcome clock tick]. lia. }
  cbn [then_ ask run]. set (pause := Z.min _ _). destruct (act _ p (Sleep pause) _ _) as [[] w2] eqn:E2.
  cbn [act] in E2. set (late := Z.max 0 (passed _)) in E2. injection E2 as <-. cbn [then_ ask run].
  destruct (act _ p (AskKey kid by_) _ _) as [answer w3] eqn:E3. apply looked in E3 as [Ec Ha]. cbn [clock tick] in Ec.
  destruct (classify answer) as [profile|failure|e] eqn:Eans.
  - cbn. apply classify_approved in Eans as ->. apply Ha. by exists profile.
  - apply IH; unfold POLL_INTERVAL in *; lia.
  - pose proof (refusals_are_not_timeouts answer e) as Hne. rewrite Eans in Hne. cbn. destruct e; try (by exists answer).
    by destruct (Hne last_failure eq_refl eq_refl).
Qed.

(** Whatever is answered, the run does not give up for want of polls. *)
Definition never_out {T} (m : Fallible (option T)) : Prop := forall p cs w, (run act Fine p m cs w).1.1 <> Ok None.

Lemma never_try {T U} (m : Fallible T) (k : T -> Fallible (option U)) : (forall t, never_out (k t)) -> never_out (then_try m k).
Proof. intros Hk p cs w. unfold then_try. rewrite run_bind. destruct (run act Fine p m cs w) as [[[t|e] w'] cs']; [apply Hk|done]. Qed.

Lemma never_bind {T U} (m : script CtlE T) (k : T -> Fallible (option U)) : (forall t, never_out (k t)) -> never_out (then_ m k).
Proof. intros Hk p cs w. rewrite run_bind. destruct (run act Fine p m cs w) as [[t w'] cs']. apply Hk. Qed.

Lemma login_ends polls server timeout args :
  (looks timeout < polls)%nat -> never_out (login user_id_ok key_id_ok polls server timeout args).
Proof.
  intros Hl. apply never_try. intros stored. apply never_try. intros key. apply never_try. intros server'.
  apply never_try. intros kid. apply never_try. intros by_. apply never_bind. intros answer.
  assert (Hs : forall key profile, never_out (do? wrote <- save_login (previous_identity user_id_ok key_id_ok stored) server' key kid profile; ok (Some wrote))).
  { intros key' profile. apply never_try. by intros wrote p cs w. }
  destruct (classify answer); [apply Hs| |done]. apply never_try. intros code p cs w.
  rewrite run_bind. cbn [run ask]. destruct (act _ p Elapsed _ w) as [start w1] eqn:E1. cbn [act] in E1.
  set (delay := Z.max 0 (passed _)) in E1. injection E1 as <- <-. unfold then_try. rewrite run_bind.
  pose proof (wait_ends p polls timeout (clock w + delay) kid by_ None (tl cs) (tick (passed (hd Fine cs)) w)) as Hw.
  destruct (run act Fine p (wait_for_approval _ _ _ _ _ _) _ _) as [[r w'] cs'].
  assert (Ho : wait_outcome p timeout (clock w + delay) kid r w').
  { apply Hw; [lia|cbn; lia|]. cbn [clock tick]. unfold looks, POLL_INTERVAL in *. pose proof (Z.mul_succ_div_gt timeout (3 * 1000000000)). lia. }
  destruct r as [[profile|]|e]; [apply Hs|done|done].
Qed.

(** C19: The wait for an approval ends: with a grant the server gave to this command's key, with
    its refusal, or, once the time given is over and not before, with [NotApproved]; the
    server is asked no more than [looks timeout] times, however long each answer takes. *)
Theorem waiting_for_an_approval_ends polls timeout :
  (looks timeout < polls)%nat ->
  (forall p start kid by_ cs w, start = clock w ->
    let '(r, w', _) := run act Fine p (wait_for_approval polls timeout start kid by_ None) cs w in
    wait_outcome p timeout start kid r w') /\
  (forall server args p cs w, (run act Fine p (login user_id_ok key_id_ok polls server timeout args) cs w).1.1 <> Ok None).
Proof.
  intros Hl. split.
  - intros p start kid by_ cs w ->. apply wait_ends; [lia..|]. unfold looks, POLL_INTERVAL in *.
    pose proof (Z.mul_succ_div_gt timeout (3 * 1000000000)). lia.
  - intros server args. by apply login_ends.
Qed.
End SignIn.

(** ** Durations *)

Lemma strip_last a x u : strip_suffix [a] (x ++ [u]) = if u =? a then Some x else None.
Proof.
  unfold strip_suffix. rewrite rev_app_distr. cbn. rewrite Z.eqb_sym. destruct (u =? a); [|done]. cbn. by rewrite rev_involutive.
Qed.

Lemma parse_shown n u k : (u, k) ∈ UNITS -> 1 <= n <= u32_max -> parse_timeout (show_uint n ++ [u]) = Some (n * k).
Proof.
  intros Hu Hn. assert (Hd : forallb is_digit (show_uint n) = true).
  { apply forallb_forall. intros c Hc. by apply (proj1 (List.Forall_forall _ _) (show_uint_digits n)). }
  assert (Hp : parse_uint u32_max (show_uint n) = Some n) by (apply parse_uint_show; lia).
  unfold parse_timeout, UNITS. cbn [find_map fst]. rewrite !strip_last.
  unfold UNITS in Hu. rewrite !elem_of_cons in Hu.
  destruct Hu as [[= -> ->]|[[= -> ->]|[[= -> ->]|Hu%elem_of_nil]]]; cbn -[show_uint parse_uint]; [..|done];
    rewrite Hd, Hp; cbn; by rewrite (proj2 (Z.leb_le 1 n)) by lia.
Qed.

Lemma parse_digits_max max acc s n : acc <= max -> parse_digits max acc s = Some n -> n <= max.
Proof.
  revert acc. induction s as [|c s IH]; intros acc Ha; cbn [parse_digits]; [by intros [= <-]|].
  destruct (is_digit c); [|done]. destruct (Z.leb_spec (acc * 10 + (c - 48)) max); [|done]. by apply IH.
Qed.

Lemma parse_uint_max max s n : 0 <= max -> parse_uint max s = Some n -> n <= max.
Proof.
  intros Hm. unfold parse_uint. intros H. repeat case_match; try done; by eapply parse_digits_max.
Qed.

Lemma parsed_timeout raw s :
  parse_timeout raw = Some s -> exists n k, s = n * k /\ 1 <= n <= u32_max /\ (k = 1 \/ k = 60 \/ k = 3600).
Proof.
  unfold parse_timeout. intros H. apply bind_Some in H as ([count k] & Hu & H).
  destruct (negb (forallb is_digit count)); [done|]. apply bind_Some in H as (n & Hn & H).
  destruct (Z.leb_spec 1 n); [|done]. injection H as <-. exists n, k. split; [done|]. apply parse_uint_max in Hn; [|done].
  split; [done|]. unfold UNITS in Hu. cbn [find_map fst snd] in Hu.
  destruct (strip_suffix [115] raw); [injection Hu as _ <-; lia|].
  destruct (strip_suffix [109] raw); [injection Hu as _ <-; lia|].
  destruct (strip_suffix [104] raw); [injection Hu as _ <-; lia|done].
Qed.

(** A duration that was given reads back from how it is shown, in whichever unit that is,
    and is at least a second; it never overflows the 32 bits of its count. *)
Theorem shown_timeouts_read_back raw s :
  parse_timeout raw = Some s -> parse_timeout (show_timeout s) = Some s /\ 1 <= s <= u32_max * 3600.
Proof.
  intros H. apply parsed_timeout in H as (n & k & -> & Hn & Hk). split; [|destruct Hk as [->|[->| ->]]; lia].
  unfold show_timeout.
  pose proof (Z.div_mod (n * k) 3600 ltac:(lia)). pose proof (Z.div_mod (n * k) 60 ltac:(lia)).
  pose proof (Z.mod_pos_bound (n * k) 3600 ltac:(lia)). pose proof (Z.mod_pos_bound (n * k) 60 ltac:(lia)).
  destruct (Z.eqb_spec (n * k mod 3600) 0) as [E|E]; [|destruct (Z.eqb_spec (n * k mod 60) 0) as [E'|E']].
  - rewrite (parse_shown _ 104 3600); [f_equal; lia|unfold UNITS; rewrite !elem_of_cons; auto|]. destruct Hk as [->|[->| ->]]; lia.
  - rewrite (parse_shown _ 109 60); [f_equal; lia|unfold UNITS; rewrite !elem_of_cons; auto|]. destruct Hk as [->|[->| ->]]; lia.
  - rewrite (parse_shown _ 115 1); [f_equal; lia|unfold UNITS; rewrite !elem_of_cons; auto|]. destruct Hk as [->|[->| ->]]; lia.
Qed.

Lemma shown_timeouts_read_back_witness :
  parse_timeout (lit "90m") = Some 5400 /\ parse_timeout (show_timeout 5400) = Some 5400.
Proof. split; [reflexivity|]. apply (shown_timeouts_read_back (lit "90m")). reflexivity. Defined.

(** ** A machine with one key in its agent *)

Module Notebook.
Definition hex_char (n : Z) : Z := if n <? 10 then 48 + n else 87 + n.

Definition encode_hex (bytes : list Z) : str := bytes ≫= fun b => [hex_char (b / 16); hex_char (b mod 16)].

Definition hex_value (c : Z) : option Z :=
  if is_digit c then Some (c - 48)
  else if (97 <=? c) && (c <=? 102) then Some (c - 87)
  else if (65 <=? c) && (c <=? 70) then Some (c - 55) else None.

Fixpoint decode_hex (text : str) : option (list Z) :=
  match text with
  | [] => Some []
  | a :: b :: text => a ← hex_value a; b ← hex_value b; rest ← decode_hex text; Some (a * 16 + b :: rest)
  | _ => None
  end.

#[local] Instance notebook_codecs : SshCodecs := {
  b64_encode := Letters.encode; b64_encode_no_pad := Letters.encode; b64_decode := Letters.decode;
  hex_encode := encode_hex; hex_decode := decode_hex;
  sha256_digest bytes := bytes;
  verifying_key seed := replicate 32 7;
}.

Lemma hex_value_char n : 0 <= n < 16 -> hex_value (hex_char n) = Some n /\ hex_digit (hex_char n) = true.
Proof.
  intros Hn. unfold hex_value, hex_char, hex_digit, is_digit. destruct (Z.ltb_spec n 10).
  - replace ((48 <=? 48 + n) && (48 + n <=? 57)) with true by lia. split; [f_equal; lia|done].
  - replace ((48 <=? 87 + n) && (87 + n <=? 57)) with false by lia.
    replace ((97 <=? 87 + n) && (87 + n <=? 102)) with true by lia. split; [f_equal; lia|done].
Qed.

Lemma byte_digits b : is_byte b -> 0 <= b / 16 < 16 /\ 0 <= b mod 16 < 16 /\ b / 16 * 16 + b mod 16 = b.
Proof. unfold is_byte. intros Hb. pose proof (Z.div_mod b 16 ltac:(lia)). pose proof (Z.mod_pos_bound b 16 ltac:(lia)). lia. Qed.

#[local] Instance notebook_codec_laws : SshCodecLaws.
Proof.
  destruct Letters.codec_laws as [H1 H2 H3 _ H5]. constructor; [exact H1|exact H2|exact H3| |exact H5].
  intros bytes Hb. induction Hb as [|b bytes Hb _ IH]; [done|]. apply byte_digits in Hb as (Hh & Hl & Eb).
  change (hex_encode (b :: bytes)) with (hex_char (b / 16) :: hex_char (b mod 16) :: hex_encode bytes).
  cbn [hex_decode notebook_codecs decode_hex] in *.
  rewrite (proj1 (hex_value_char _ Hh)), (proj1 (hex_value_char _ Hl)). cbn [mbind option_bind]. rewrite IH. cbn. by rewrite Eb.
Qed.

Lemma decode_hex_length n text bytes : (length text <= n)%nat -> decode_hex text = Some bytes -> length text = (2 * length bytes)%nat.
Proof.
  revert text bytes. induction n as [|n IH]; intros [|a [|b text]] bytes Hn; cbn in *; try done; try lia; try (by intros [= <-]).
  intros H. apply bind_Some in H as (x & _ & H). apply bind_Some in H as (y & _ & H). apply bind_Some in H as (rest & Hr & [= <-]).
  apply IH in Hr; [cbn; lia|lia].
Qed.

#[local] Instance notebook_hex : HexText.
Proof.
  constructor.
  - intros bytes Hb. induction Hb as [|b bytes Hb _ IH]; [constructor|]. apply byte_digits in Hb as (Hh & Hl & _).
    change (hex_encode (b :: bytes)) with (hex_char (b / 16) :: hex_char (b mod 16) :: hex_encode bytes).
    constructor; [apply hex_value_char, Hh|]. constructor; [apply hex_value_char, Hl|exact IH].
  - intros text bytes. by apply (decode_hex_length (length text)).
Qed.

(** A record's text, which an empty file is not. *)
#[local] Instance notebook_records : RecordJson := {
  record_json r := 123 :: as_bytes (user_id r) ++ [125];
  record_of bytes :=
    match bytes with
    | 123 :: _ :: _ => Some {| user_id := lit "ada"; user_key_id := []; server_url := []; ssh_key := None |}
    | _ => None
    end;
}.
#[local] Existing Instance Vector.urls.

Definition start : system (E := CtlE) (Job := Command) (T := result unit Failure) := {| world := fresh 0; running := ∅ |}.

Definition moves (l : list (move (Choice := Choice) (Job := Command))) : option (system (E := CtlE) (Job := Command) (T := result unit Failure)) :=
  sys_moves act (code Some Some) (may_start false) dies l start.

Lemma reached_by l s : moves l = Some s -> reached Some Some false 0 s.
Proof. intros Hm. eapply sys_moves_reachable; [|exact Hm]. by constructor. Qed.

Definition turns (p : nat) (cs : list Choice) : list (move (Choice := Choice) (Job := Command)) := map (Turn p) cs.

Definition key_id : str := KEY_ID_PREFIX ++ encode_hex (replicate 32 7).

Definition receipt : Choice :=
  Receives (Ok {| receipt_user_id := lit "ada"; receipt_key_id := key_id; receipt_pending := true |}).

(** A registration with a key of its own, to its end. *)
Definition registered : list (move (Choice := Choice) (Job := Command)) :=
  Start 0 (Register (lit "https://mgmt.example") {| arg_ssh_key := None; arg_generate := true |}) ::
  turns 0 [Fine; Fine; Seed (replicate 32 9); receipt] ++ turns 0 (replicate 10 Fine).

(** Two registrations with the agent's key. Both find the directory empty and are accepted;
    the second empties the file the first has written, which the first then renames. *)
Definition agent_key : Inventory :=
  {| keys := [{| system_key := replicate 32 7; key_name := lit "laptop"; sources := [FromAgent (lit "ssh-agent") (lit "/agent")] |}]; skipped := [] |}.

Definition with_agent : Command := Register (lit "https://mgmt.example") {| arg_ssh_key := None; arg_generate := false |}.

Definition asked : list Choice := [Fine; Fine; Has agent_key (fun _ => NotUtf8); receipt; Fine; Fine].

Definition torn : list (move (Choice := Choice) (Job := Command)) :=
  Start 1 with_agent :: Start 2 with_agent :: turns 1 asked ++ turns 2 asked ++
  turns 1 [Fine; Fine] ++ turns 2 [Fine] ++ turns 1 [Fine; Fine; Fine] ++ [Die 2].
End Notebook.

#[local] Existing Instance Notebook.notebook_codecs.
#[local] Existing Instance Notebook.notebook_codec_laws.
#[local] Existing Instance Notebook.notebook_hex.
#[local] Existing Instance Notebook.notebook_records.
#[local] Existing Instance Vector.urls.

(** The record of the identity can be torn: [user.json.tmp] is one name for every command,
    so a registration can rename a file another has just emptied. It succeeds, and what is
    left reads as no record and keeps the next registration out. *)
Theorem a_record_can_be_torn :
  exists s, reached Some Some false 0 s /\
    (exists cmd, running s !! 1%nat = Some (cmd, Done (Ok tt))) /\
    (run act Fine 3 read_user_record [] (world s)).1.1 = Err NotARecord /\
    (run act Fine 3 ensure_empty [] (world s)).1.1 = Err (AlreadyHolds USER_NAME).
Proof.
  destruct (Notebook.moves Notebook.torn) as [s|] eqn:Em; [|by vm_compute in Em].
  pose proof (Notebook.reached_by _ s Em) as Hr. exists s. split; [exact Hr|]. clear Hr. vm_compute in Em. injection Em as <-.
  split; [by eexists; vm_compute|]. split; by vm_compute.
Qed.


Lemma waiting_for_an_approval_ends_witness :
  (looks 10000000000 < 5)%nat /\
  (run act Fine 0 (wait_for_approval 5 10000000000 0 (lit "userkey_1") (SignsWithSeed []) None) [] (fresh 0)).1.1 <> Ok None.
Proof.
  assert (Hl : (looks 10000000000 < 5)%nat) by (apply Nat.ltb_lt; vm_compute; reflexivity). split; [exact Hl|].
  pose proof (proj1 (waiting_for_an_approval_ends Some Some 5 10000000000 Hl) 0%nat 0 (lit "userkey_1") (SignsWithSeed []) [] (fresh 0) eq_refl) as Hw.
  destruct (run _ _ _ _ _ _) as [[r w'] cs]. intros E. cbn in E. rewrite E in Hw. exact Hw.
Defined.
