(* ===== verification/ProxyBase.v ===== *)
(** * The iOS proxy: what it is built on ([src/tools/pipette-ios-proxy/src/])

    The proxy drives the phones attached to one Mac and claims jobs for them. This file has
    what its parts share: the errors it tells apart, the phone's and the server's data, and
    the operations it asks of the management server, of the phone and of its own state, each
    free to answer anything. A program is a function of the phone it drives and of the world;
    a traced world records what the program asked, and [emits] is how a program's trace is
    reasoned about. *)

From Stdlib Require Import ZArith Lia String.
From stdpp Require Import prelude list.
From S2P Require Import Prelude Str Wait Json Errors Protocol.

Local Open Scope Z_scope.

(** ** Errors

    An [anyhow::Error] as the proxy uses one: the text [{error:#}] prints, and the errors of
    its chain that code looks for by type. *)

Inductive Cause :=
| MgmtFailed (e : MgmtError)
| DevicectlFault (domain : str) (code : Z) (description : str)
| IdentityReplaced (checked device expected found : str)
| ClientNotApproved (client_id : str)
| SignatureRefused (client_id : str)
| OperatorNeeded
| RuntimesListFailed (outcome : str)
| NoBuildFor
| OtherFailure.

Record Error := { shown : str; causes : list Cause }.

Definition error_at (c : Cause) (text : str) : Error := {| shown := text; causes := [c] |}.

Definition bail (text : str) : Error := error_at OtherFailure text.

(** [.context(what)]: one more text in front, and no cause that is looked for. *)
Definition with_context (what : str) (e : Error) : Error :=
  {| shown := what ++ lit ": " ++ shown e; causes := causes e |}.

Definition in_context {T} (what : str) (r : result T Error) : result T Error :=
  match r with
  | Ok t => Ok t
  | Err e => Err (with_context what e)
  end.

(** ** The server's data *)

Inductive ClientStatus := Pending | Approved | OtherStatus (name : str).

Definition is_approved (s : ClientStatus) : bool :=
  match s with Approved => true | Pending | OtherStatus _ => false end.

Record ClientProfile := {
  cp_client_id : str;
  cp_status : ClientStatus;
  reindex_pending : bool;
  cp_capabilities : list str;
}.

(** What the runtime printed, from [pipette-plan-types]. *)
Record RuntimeOutput := { runtime_stdout : option str; runtime_stderr : option str }.

Definition no_output : RuntimeOutput := {| runtime_stdout := None; runtime_stderr := None |}.

(** What [POST /benchmarks] carries: a payload, or a failure with the runtime's output. *)
Inductive Submission :=
| ResultBody (payload : Value)
| JobFailed (failure : FailureSubmission) (output : RuntimeOutput).

(** What [PATCH /clients/me] carries. The fields iOS never fills ([device_gpu_*],
    [device_npu_*]) are left out. *)
Record DeviceProfileFields := {
  dp_device_name : option str;
  device_form_factor : option str;
  device_os_name : option str;
  device_os_version : option str;
  device_cpu_arch : option str;
  device_os_family : option str;
  device_chip_model : option str;
  device_ram_bytes : option Z;
  dp_capabilities : option (list str);
}.

Definition Report : Type := str * DeviceProfileFields.

(** ** The phone's data *)

Inductive Reachability :=
| Reachable (os_version : option str)
| Unreachable (reason : str).

Record InstalledApp := { app_bundle_id : str; app_version_of : option str }.

Inductive SentinelStream := OnStdout | OnStderr.

Record ConsoleRun := {
  stdout : str;
  stderr : str;
  sentinel : option Z;
  exit_code : option Z;
  timed_out : bool;
  engine_time : option Z;
  aborted : bool;
  stopped : bool;
  silent : bool;
}.

(** One launch of the app: its arguments, its two deadlines, where its sentinel is, and
    whether the claim's lease and the stop signal end it (a run) or nothing does (a verb). *)
Record Launch := {
  launch_bundle : str;
  launch_args : list str;
  launch_deadline : Z;
  launch_first_line : Z;
  launch_sentinel : SentinelStream;
  launch_watched : bool;
}.

Record ResultRef := { ref_job_id : str; ref_cell_id : str }.

#[export] Instance ResultRef_eq_dec : EqDecision ResultRef.
Proof. solve_decision. Defined.

(** ** The proxy's own records ([state.rs]) *)

Record InstalledBuild := { build_path : option str; build_version : option str }.

Definition unknown_build : InstalledBuild := {| build_path := None; build_version := None |}.

Record DeviceFacts := {
  fact_name : option str;
  fact_chip_model : option str;
  fact_ram_bytes : option Z;
}.

#[export] Instance DeviceFacts_eq_dec : EqDecision DeviceFacts.
Proof. solve_decision. Defined.

Definition no_facts : DeviceFacts :=
  {| fact_name := None; fact_chip_model := None; fact_ram_bytes := None |}.

Definition non_empty (s : str) : option str :=
  match s with [] => None | _ => Some s end.

(** [DeviceFacts::from_payload]. *)
Definition fact_text (payload : Value) (key : str) : option str :=
  v ← get key payload; s ← as_str v; non_empty (trim s).

Definition from_payload (payload : Value) : option DeviceFacts :=
  let facts :=
    {| fact_name := fact_text payload (lit "device_name");
       fact_chip_model := fact_text payload (lit "device_chip_model");
       fact_ram_bytes :=
         (v ← get (lit "device_ram_bytes") payload; bytes ← as_u64 v;
          if 0 <? bytes then Some bytes else None) |} in
  if decide (facts = no_facts) then None else Some facts.

(** ** What the proxy asks of the world *)

(** [client_api], signed as the phone's client. *)
Class MgmtClient (W : Type) := {
  px_claim : W -> result (option ClaimedJob) MgmtError * W;
  px_heartbeat : str -> W -> result unit MgmtError * W;
  px_reclaim : str -> W -> result unit MgmtError * W;
  px_submit_result : Submission -> W -> result str MgmtError * W;
  px_get_benchmark : str -> W -> result unit MgmtError * W;
  px_me : W -> result ClientProfile MgmtError * W;
  px_update_me : Report -> W -> result ClientProfile MgmtError * W;
}.

(** [DeviceControl]. A launch answers the stdout lines it forwarded as they came, and the
    run. *)
Class DeviceControl (W : Type) := {
  reachability : str -> W -> Reachability * W;
  info_apps : str -> W -> result (list InstalledApp) Error * W;
  verify_installable : str -> W -> result unit Error * W;
  install_app : str -> W -> result unit Error * W;
  launch_console : Launch -> W -> (list str * result ConsoleRun Error) * W;
}.

(** [random_upto n] is [fastrand::u64(0..=n)]. The clock, the flags, the lease's heartbeat thread and the files of one phone. *)
Class ProxyHost (W : Type) := {
  instant : W -> Z * W;
  now_text : W -> str * W;
  random_upto : Z -> W -> Z * W;
  stop_raised : W -> bool * W;
  thread_sleep : Z -> W -> W;
  lease_start : str -> Z -> W -> W;
  heartbeat_stop : W -> W;
  lease_drop : W -> W;
  lost_raised : W -> bool * W;
  pin_hold : str -> str -> Z -> W -> result unit Error * W;
  pin_release : W -> result unit Error * W;
  store_installed : InstalledBuild -> W -> result unit Error * W;
  load_installed : W -> result InstalledBuild Error * W;
  store_facts : DeviceFacts -> W -> result unit Error * W;
}.

(** ** Programs *)

(** A program over a state of its own and the world. *)
Definition prog (S W T : Type) : Type := S * W -> T * (S * W).

Section Programs.
Context {S W : Type}.

Definition ret {T} (t : T) : prog S W T := fun s => (t, s).

Definition bind {T U} (m : prog S W T) (k : T -> prog S W U) : prog S W U :=
  fun s => let '(t, s) := m s in k t s.

(** An operation of the world. *)
Definition io {T} (op : W -> T * W) : prog S W T :=
  fun s => let '(t, w) := op s.2 in (t, (s.1, w)).

Definition io_ (op : W -> W) : prog S W unit := fun s => (tt, (s.1, op s.2)).

Definition get_state : prog S W S := fun s => (s.1, s).
Definition set_state (x : S) : prog S W unit := fun s => (tt, (x, s.2)).

(** The [?] operator. *)
Definition try_bind {T U E} (m : prog S W (result T E)) (k : T -> prog S W (result U E))
    : prog S W (result U E) :=
  bind m (fun r => match r with Ok t => k t | Err e => ret (Err e) end).

Fixpoint each {A T} (f : A -> prog S W T) (l : list A) : prog S W (list T) :=
  match l with
  | [] => ret []
  | a :: l => bind (f a) (fun t => bind (each f l) (fun ts => ret (t :: ts)))
  end.

(** [iter.map(f).collect::<Result<_, _>>()]: stops at the first error. *)
Fixpoint try_each {A T E} (f : A -> prog S W (result T E)) (l : list A)
    : prog S W (result (list T) E) :=
  match l with
  | [] => ret (Ok [])
  | a :: l => try_bind (f a) (fun t => try_bind (try_each f l) (fun ts => ret (Ok (t :: ts))))
  end.
End Programs.

Declare Scope proxy_scope.
Delimit Scope proxy_scope with proxy.

Notation "'do' x <- m ; k" := (bind m (fun x => k))
  (at level 20, x pattern, m at level 100, k at level 200) : proxy_scope.
Notation "'do?' x <- m ; k" := (try_bind m (fun x => k))
  (at level 20, x pattern, m at level 100, k at level 200) : proxy_scope.

(** ** Traces *)

Inductive Event :=
| EClaim (r : result (option ClaimedJob) MgmtError)
| EHeartbeat (id : str) (r : result unit MgmtError)
| EReclaim (id : str) (r : result unit MgmtError)
| ESubmit (body : Submission) (r : result str MgmtError)
| EBenchmark (id : str) (r : result unit MgmtError)
| EMe (r : result ClientProfile MgmtError)
| EUpdateMe (report : Report) (r : result ClientProfile MgmtError)
| EReach (r : Reachability)
| EApps (r : result (list InstalledApp) Error)
| EVerify (build : str) (r : result unit Error)
| EInstall (build : str) (r : result unit Error)
| ELaunch (l : Launch) (r : list str * result ConsoleRun Error)
| EStop (raised : bool)
| ELost (raised : bool)
| ESleep (d : Z)
| ELeaseStart (id : str)
| EHeartbeatStop
| ELeaseDrop
| EPinHold (r : result unit Error)
| EPinRelease (r : result unit Error)
| EStoreInstalled (record : InstalledBuild) (r : result unit Error)
| EStoreFacts (facts : DeviceFacts).

Section Traced.
Context {W : Type}.

Definition logged {T} (event : T -> list Event) (op : W -> T * W) (w : W * list Event)
    : T * (W * list Event) :=
  let '(r, w') := op w.1 in (r, (w', w.2 ++ event r)).

Definition logged_ (event : list Event) (op : W -> W) (w : W * list Event) : W * list Event :=
  (op w.1, w.2 ++ event).

#[export] Instance traced_mgmt `{MgmtClient W} : MgmtClient (W * list Event) := {
  px_claim := logged (fun r => [EClaim r]) px_claim;
  px_heartbeat id := logged (fun r => [EHeartbeat id r]) (px_heartbeat id);
  px_reclaim id := logged (fun r => [EReclaim id r]) (px_reclaim id);
  px_submit_result b := logged (fun r => [ESubmit b r]) (px_submit_result b);
  px_get_benchmark id := logged (fun r => [EBenchmark id r]) (px_get_benchmark id);
  px_me := logged (fun r => [EMe r]) px_me;
  px_update_me report := logged (fun r => [EUpdateMe report r]) (px_update_me report);
}.

#[export] Instance traced_device `{DeviceControl W} : DeviceControl (W * list Event) := {
  reachability b := logged (fun r => [EReach r]) (reachability b);
  info_apps b := logged (fun r => [EApps r]) (info_apps b);
  verify_installable b := logged (fun r => [EVerify b r]) (verify_installable b);
  install_app b := logged (fun r => [EInstall b r]) (install_app b);
  launch_console l := logged (fun r => [ELaunch l r]) (launch_console l);
}.

#[export] Instance traced_host `{ProxyHost W} : ProxyHost (W * list Event) := {
  instant := logged (fun _ => []) instant;
  now_text := logged (fun _ => []) now_text;
  random_upto n := logged (fun _ => []) (random_upto n);
  stop_raised := logged (fun r => [EStop r]) stop_raised;
  thread_sleep d := logged_ [ESleep d] (thread_sleep d);
  lease_start id every := logged_ [ELeaseStart id] (lease_start id every);
  heartbeat_stop := logged_ [EHeartbeatStop] heartbeat_stop;
  lease_drop := logged_ [ELeaseDrop] lease_drop;
  lost_raised := logged (fun r => [ELost r]) lost_raised;
  pin_hold p u t := logged (fun r => [EPinHold r]) (pin_hold p u t);
  pin_release := logged (fun r => [EPinRelease r]) pin_release;
  store_installed record := logged (fun r => [EStoreInstalled record r]) (store_installed record);
  load_installed := logged (fun _ => []) load_installed;
  store_facts facts := logged (fun _ => [EStoreFacts facts]) (store_facts facts);
}.
End Traced.

(** *** What a program does

    [emits s m Q]: from state [s] the program answers, and [Q] holds of its answer, of the
    state it leaves and of what it asked of the world. *)
Section Emits.
Context {S W : Type}.
Notation TW := (W * list Event)%type.

Definition emits {T} (s : S) (m : prog S TW T) (Q : T -> S -> list Event -> Prop) : Prop :=
  forall w tr0, exists t s' w' tr, m (s, (w, tr0)) = (t, (s', (w', tr0 ++ tr))) /\ Q t s' tr.

Lemma emits_weaken {T} s (m : prog S TW T) (P Q : T -> S -> list Event -> Prop) :
  emits s m P -> (forall t s' tr, P t s' tr -> Q t s' tr) -> emits s m Q.
Proof.
  intros Hm HQ w tr0. destruct (Hm w tr0) as (t & s' & w' & tr & E & HP).
  exists t, s', w', tr. auto.
Qed.

Lemma emits_and {T} s (m : prog S TW T) (P Q : T -> S -> list Event -> Prop) :
  emits s m P -> emits s m Q -> emits s m (fun t s' tr => P t s' tr /\ Q t s' tr).
Proof.
  intros HP HQ w tr0. destruct (HP w tr0) as (t & s' & w' & tr & E & Ht).
  destruct (HQ w tr0) as (t2 & s2 & w2 & tr2 & E2 & Ht2). rewrite E in E2.
  injection E2 as <- <- <- <-%app_inv_head. by exists t, s', w', tr.
Qed.

Lemma emits_ret {T} s (t : T) (Q : T -> S -> list Event -> Prop) : Q t s [] -> emits s (ret t) Q.
Proof. intros HQ w tr0. exists t, s, w, []. by rewrite app_nil_r. Qed.

Lemma emits_bind {T U} s (m : prog S TW T) (k : T -> prog S TW U) P Q :
  emits s m P ->
  (forall t s' tr, P t s' tr -> emits s' (k t) (fun u s'' tr' => Q u s'' (tr ++ tr'))) ->
  emits s (bind m k) Q.
Proof.
  intros Hm Hk w tr0. destruct (Hm w tr0) as (t & s' & w' & tr & E & HP). unfold bind. rewrite E.
  destruct (Hk t s' tr HP w' (tr0 ++ tr)) as (u & s'' & w'' & tr' & E' & HQ).
  exists u, s'', w'', (tr ++ tr'). rewrite E'. by rewrite <- app_assoc.
Qed.

Lemma emits_try {T U E} s (m : prog S TW (result T E)) (k : T -> prog S TW (result U E)) P Q :
  emits s m P ->
  (forall e s' tr, P (Err e) s' tr -> Q (Err e) s' tr) ->
  (forall t s' tr, P (Ok t) s' tr -> emits s' (k t) (fun u s'' tr' => Q u s'' (tr ++ tr'))) ->
  emits s (try_bind m k) Q.
Proof.
  intros Hm He Hk. eapply emits_bind; [exact Hm|]. intros [t|e] s' tr HP; [by apply Hk|].
  apply emits_ret. rewrite app_nil_r. by apply He.
Qed.

Lemma emits_io {T} s (event : T -> list Event) (op : W -> T * W) (Q : T -> S -> list Event -> Prop) :
  (forall t, Q t s (event t)) -> emits s (io (logged event op)) Q.
Proof.
  intros HQ w tr0. unfold io, logged. cbn. destruct (op w) as [t w'].
  by exists t, s, w', (event t).
Qed.

Lemma emits_io_ s (event : list Event) (op : W -> W) (Q : unit -> S -> list Event -> Prop) :
  Q tt s event -> emits s (io_ (logged_ event op)) Q.
Proof. intros HQ w tr0. by exists tt, s, (op w), event. Qed.

Lemma emits_get s (Q : S -> S -> list Event -> Prop) : Q s s [] -> emits s get_state Q.
Proof. intros HQ w tr0. exists s, s, w, []. by rewrite app_nil_r. Qed.

Lemma emits_set s x (Q : unit -> S -> list Event -> Prop) : Q tt x [] -> emits s (set_state x) Q.
Proof. intros HQ w tr0. exists tt, x, w, []. by rewrite app_nil_r. Qed.

(** The first call of a program. *)
Lemma emits_io_bind {T U} s (event : T -> list Event) (op : W -> T * W) (k : T -> prog S TW U) Q :
  (forall t, emits s (k t) (fun u s' tr => Q u s' (event t ++ tr))) ->
  emits s (bind (io (logged event op)) k) Q.
Proof.
  intros Hk. eapply emits_bind with (P := fun t s' tr => s' = s /\ tr = event t).
  - by apply emits_io.
  - intros t s' tr [-> ->]. apply Hk.
Qed.

Lemma emits_io__bind {U} s (event : list Event) (op : W -> W) (k : unit -> prog S TW U) Q :
  emits s (k tt) (fun u s' tr => Q u s' (event ++ tr)) ->
  emits s (bind (io_ (logged_ event op)) k) Q.
Proof.
  intros Hk. eapply emits_bind with (P := fun _ s' tr => s' = s /\ tr = event).
  - by apply emits_io_.
  - intros [] s' tr [-> ->]. apply Hk.
Qed.

Lemma emits_get_bind {U} s (k : S -> prog S TW U) Q : emits s (k s) Q -> emits s (bind get_state k) Q.
Proof. intros Hk w tr0. apply Hk. Qed.

Lemma emits_set_bind {U} s x (k : unit -> prog S TW U) Q :
  emits x (k tt) Q -> emits s (bind (set_state x) k) Q.
Proof. intros Hk w tr0. apply Hk. Qed.

Lemma emits_ret_bind {T U} s (t : T) (k : T -> prog S TW U) Q : emits s (k t) Q -> emits s (bind (ret t) k) Q.
Proof. intros Hk w tr0. apply Hk. Qed.

(** A list of programs, each of which keeps [I] and emits only what [P] allows. *)
Lemma emits_each {A T} (f : A -> prog S TW T) (I : S -> Prop) (P : A -> T -> list Event -> Prop) l s :
  (forall a s, I s -> emits s (f a) (fun t s' tr => I s' /\ P a t tr)) -> I s ->
  emits s (each f l) (fun ts s' tr => I s' /\ exists trs, tr = concat trs /\
    Forall2 (fun p tr => P p.1 p.2 tr) (zip l ts) trs /\ length ts = length l).
Proof.
  intros Hf. revert s; induction l as [|a l IH]; intros s Hs; cbn [each].
  { apply emits_ret. split; [done|]. exists []. repeat split; constructor. }
  eapply emits_bind; [by apply Hf|]. cbn. intros t s' tr [Hs' HP].
  eapply emits_bind; [by apply IH|]. cbn. intros ts s'' tr' (Hs'' & trs & -> & Hall & Hlen).
  apply emits_ret. split; [done|]. exists (tr :: trs). cbn. rewrite app_nil_r.
  repeat split; [by constructor|by rewrite Hlen].
Qed.

Lemma emits_run {T} s (m : prog S TW T) Q w tr0 t s' w' tr :
  emits s m Q -> m (s, (w, tr0)) = (t, (s', (w', tr))) -> exists tr', tr = tr0 ++ tr' /\ Q t s' tr'.
Proof.
  intros Hm E. destruct (Hm w tr0) as (t1 & s1 & w1 & tr1 & E1 & HQ). rewrite E1 in E. simplify_eq.
  by exists tr1.
Qed.
End Emits.

(** *** Programs that do only some things *)
Section Does.
Context {S W : Type}.
Notation TW := (W * list Event)%type.

Definition does {T} (P : Event -> Prop) (m : prog S TW T) : Prop :=
  forall s, emits s m (fun _ _ tr => Forall P tr).

Lemma does_ret {T} P (t : T) : does P (ret t).
Proof. intros s. by apply emits_ret. Qed.

Lemma does_bind {T U} P (m : prog S TW T) (k : T -> prog S TW U) :
  does P m -> (forall t, does P (k t)) -> does P (bind m k).
Proof.
  intros Hm Hk s. eapply emits_bind; [apply Hm|]. intros t s' tr Htr.
  eapply emits_weaken; [apply Hk|]. intros u s'' tr' Htr'. by apply Forall_app.
Qed.

Lemma does_try {T U E} P (m : prog S TW (result T E)) (k : T -> prog S TW (result U E)) :
  does P m -> (forall t, does P (k t)) -> does P (try_bind m k).
Proof. intros Hm Hk. apply does_bind; [done|]. intros [t|e]; [apply Hk|apply does_ret]. Qed.

Lemma does_io {T} P (event : T -> list Event) (op : W -> T * W) :
  (forall t, Forall P (event t)) -> does P (io (S := S) (logged event op)).
Proof. intros HP s. by apply emits_io. Qed.

Lemma does_io_ P (event : list Event) (op : W -> W) :
  Forall P event -> does P (io_ (S := S) (logged_ event op)).
Proof. intros HP s. by apply emits_io_. Qed.

Lemma does_get P : does P get_state.
Proof. intros s. by apply emits_get. Qed.

Lemma does_set P x : does P (set_state x).
Proof. intros s. by apply emits_set. Qed.

Lemma does_each {A T} P (f : A -> prog S TW T) l : (forall a, does P (f a)) -> does P (each f l).
Proof.
  intros Hf. induction l as [|a l IH]; cbn [each]; [apply does_ret|].
  apply does_bind; [done|]. intros t. apply does_bind; [done|]. intros ts. apply does_ret.
Qed.

Lemma does_try_each {A T E} P (f : A -> prog S TW (result T E)) l :
  (forall a, does P (f a)) -> does P (try_each f l).
Proof.
  intros Hf. induction l as [|a l IH]; cbn [try_each]; [apply does_ret|].
  apply does_try; [done|]. intros t. apply does_try; [done|]. intros ts. apply does_ret.
Qed.

Lemma does_weaken {T} (P Q : Event -> Prop) (m : prog S TW T) :
  does P m -> (forall e, P e -> Q e) -> does Q m.
Proof.
  intros Hm HPQ s. eapply emits_weaken; [apply Hm|]. intros t s' tr Htr.
  cbv beta in *. eapply Forall_impl; [exact Htr|exact HPQ].
Qed.

Lemma does_emits {T} (P : Event -> Prop) (m : prog S TW T) s : does P m -> emits s m (fun _ _ tr => Forall P tr).
Proof. intros Hm. apply Hm. Qed.
End Does.

(** *** Programs that also keep something of their state *)
Section Tame.
Context {S W : Type} (I : S -> S -> Prop) `{!PreOrder I} (P : Event -> Prop).
Notation TW := (W * list Event)%type.

Definition tame {T} (m : prog S TW T) : Prop :=
  forall s, emits s m (fun _ s' tr => I s s' /\ Forall P tr).

Lemma tame_ret {T} (t : T) : tame (ret t).
Proof. intros s. by apply emits_ret. Qed.

Lemma tame_bind {T U} (m : prog S TW T) (k : T -> prog S TW U) :
  tame m -> (forall t, tame (k t)) -> tame (bind m k).
Proof.
  intros Hm Hk s. eapply emits_bind; [apply Hm|]. cbv beta. intros t s' tr [Hs Htr].
  eapply emits_weaken; [apply Hk|]. cbv beta. intros u s'' tr' [Hs' Htr'].
  split; [by etrans|by apply Forall_app].
Qed.

Lemma tame_try {T U E} (m : prog S TW (result T E)) (k : T -> prog S TW (result U E)) :
  tame m -> (forall t, tame (k t)) -> tame (try_bind m k).
Proof. intros Hm Hk. apply tame_bind; [done|]. intros [t|e]; [apply Hk|apply tame_ret]. Qed.

Lemma tame_io {T} (event : T -> list Event) (op : W -> T * W) :
  (forall t, Forall P (event t)) -> tame (io (logged event op)).
Proof. intros HP s. by apply emits_io. Qed.

Lemma tame_io_ (event : list Event) (op : W -> W) : Forall P event -> tame (io_ (logged_ event op)).
Proof. intros HP s. by apply emits_io_. Qed.

Lemma tame_get : tame get_state.
Proof. intros s. by apply emits_get. Qed.

(** A change of the state it was given. *)
Lemma tame_change {T} (k : S -> prog S TW T) : (forall s, emits s (k s) (fun _ s' tr => I s s' /\ Forall P tr)) ->
  tame (bind get_state k).
Proof. intros Hk s. apply emits_get_bind, Hk. Qed.

Lemma tame_each {A T} (f : A -> prog S TW T) l : (forall a, tame (f a)) -> tame (each f l).
Proof.
  intros Hf. induction l as [|a l IH]; cbn [each]; [apply tame_ret|].
  apply tame_bind; [done|]. intros t. apply tame_bind; [done|]. intros ts. apply tame_ret.
Qed.

Lemma tame_try_each {A T E} (f : A -> prog S TW (result T E)) l :
  (forall a, tame (f a)) -> tame (try_each f l).
Proof.
  intros Hf. induction l as [|a l IH]; cbn [try_each]; [apply tame_ret|].
  apply tame_try; [done|]. intros t. apply tame_try; [done|]. intros ts. apply tame_ret.
Qed.
End Tame.

Create HintDb tame.
#[export] Hint Extern 0 (PreOrder _) => exact _ : tame.

Ltac tame_step :=
  cbv zeta;
  lazymatch goal with
  | |- tame _ _ (ret _) => apply tame_ret; exact _
  | |- tame _ _ (try_bind _ _) => apply tame_try; [exact _| |intros ?]
  | |- tame _ _ (bind _ _) => apply tame_bind; [exact _| |intros ?]
  | |- tame _ _ (each _ _) => apply tame_each; [exact _|intros ?]
  | |- tame _ _ (try_each _ _) => apply tame_try_each; [exact _|intros ?]
  | |- tame _ _ (io _) => apply tame_io; [exact _|intros ?; solve [repeat constructor]]
  | |- tame _ _ (io_ _) => apply tame_io_; [exact _|solve [repeat constructor]]
  | |- tame _ _ (match _ with _ => _ end) => case_match
  | |- tame _ _ _ => solve [eauto with tame]
  end.

Ltac tame := repeat tame_step.

Create HintDb does.

(** Walk a program: its operations do what [P] allows, as do the programs it calls. *)
Ltac does_step :=
  cbv zeta;
  lazymatch goal with
  | |- does _ (ret _) => apply does_ret
  | |- does _ (try_bind _ _) => apply does_try; [|intros ?]
  | |- does _ (bind _ _) => apply does_bind; [|intros ?]
  | |- does _ get_state => apply does_get
  | |- does _ (set_state _) => apply does_set
  | |- does _ (each _ _) => apply does_each; intros ?
  | |- does _ (try_each _ _) => apply does_try_each; intros ?
  | |- does _ (io _) => apply does_io; intros ?; solve [repeat constructor]
  | |- does _ (io_ _) => apply does_io_; solve [repeat constructor]
  | |- does _ (match _ with _ => _ end) => case_match
  | |- does _ _ => solve [eauto with does]
  end.

Ltac does := repeat does_step.

(** Take the next call of a program: an operation of the world, or of the state. *)
Ltac emits_step :=
  first [ apply emits_ret
        | apply emits_io_bind; intros ?
        | apply emits_io__bind
        | apply emits_get_bind
        | apply emits_set_bind
        | apply emits_ret_bind ]; cbn beta.
