(* ===== verification/ProxyServer.v ===== *)
(** * The proxy and the management server ([server/mod.rs], [server/submit.rs], [timing.rs])

    The calls of the proxy to the server and what each answer means, the causes a job can
    fail with, and the bodies it submits. [resolve_heartbeat_interval] and the parsing of a
    time window are the source's own copies of [Timing]'s, letter for letter, and are used
    from there. *)

From Stdlib Require Import ZArith Lia String.
From stdpp Require Import prelude list.
From S2P Require Import Prelude Str Retry Timing Wait Json Errors Protocol ProxyBase.

Local Open Scope Z_scope.
Local Open Scope proxy_scope.

(** ** Timing *)

Definition SLEEP_SLICE : Z := from_secs 1.
Definition CLAIM_BACKOFF_CAP : Z := from_secs 60.
Definition PREPARE_BACKOFF_CAP : Z := from_secs (15 * 60).
Definition SUBMIT_BACKOFF_BASE : Z := from_secs 1.
Definition SUBMIT_BACKOFF_CAP : Z := from_secs 30.
Definition SUBMIT_MAX_ATTEMPTS : Z := 32.
Definition REINDEX_POLL_INTERVAL : Z := from_secs 5.
Definition APPROVAL_WAIT_BUDGET : Z := from_secs 300.

Definition as_secs (d : Z) : Z := d / ns_per_sec.

Definition next_backoff (current cap : Z) : Z :=
  let doubled := sat_mul duration_max current 2 in
  if cap <? doubled then cap else doubled.

Section Sleeping.
Context {St W : Type} `{ProxyHost W}.

Definition idle_wait_with_jitter (base jitter : Z) : prog St W Z :=
  let jitter_secs := as_secs jitter in
  if jitter_secs =? 0 then ret base
  else
    do offset <- io (random_upto (sat_mul u64_max jitter_secs 2));
    ret (sat_sub (sat_add duration_max base (from_secs offset)) (from_secs jitter_secs)).

Fixpoint sleep_slices (fuel : nat) (left : Z) : prog St W (option bool) :=
  match fuel with
  | O => ret None
  | S fuel =>
      if left =? 0 then
        do stop <- io stop_raised;
        ret (Some (negb stop))
      else
        do stop <- io stop_raised;
        if stop then ret (Some false)
        else
          let slice := if SLEEP_SLICE <? left then SLEEP_SLICE else left in
          do _ <- io_ (thread_sleep slice);
          sleep_slices fuel (left - slice)
  end.

(** One slice per started second, and one round to read the flag at the end. *)
Definition sleep_interruptible (total : Z) : prog St W bool :=
  do slept <- sleep_slices (Z.to_nat (total / SLEEP_SLICE) + 2) total;
  ret (default false slept).
End Sleeping.

(** ** Failures *)

Inductive FailureCause :=
| DeviceUnreachable
| DevicectlFailure
| RunFailed
| RunTimedOut
| EngineTimedOut
| KilledByIos
| LaunchSilent
| EngineFailed
| MalformedInvocation
| InstallFailed
| UninterpretableSpec
| UnknownBenchmark
| NoAdmittedVersion
| RuntimeNotInBuild
| NoBuildCarriesRuntime
| RefusedByBuild
| BuildNotReady
| BuildUnusable
| IdentityReplacedCause.

#[export] Instance FailureCause_eq_dec : EqDecision FailureCause.
Proof. solve_decision. Defined.

Definition retriable (c : FailureCause) : bool :=
  match c with
  | DeviceUnreachable | DevicectlFailure | RunFailed | RunTimedOut | LaunchSilent
  | NoAdmittedVersion | RuntimeNotInBuild | RefusedByBuild | BuildNotReady | BuildUnusable
  | IdentityReplacedCause => true
  | KilledByIos | EngineFailed | EngineTimedOut | MalformedInvocation | InstallFailed
  | UninterpretableSpec | UnknownBenchmark | NoBuildCarriesRuntime => false
  end.

Record JobFailure := {
  jf_cause : FailureCause;
  jf_detail : str;
  jf_output : RuntimeOutput;
  jf_client_version : option str;
}.

Definition job_failure (cause : FailureCause) (detail : str) : JobFailure :=
  {| jf_cause := cause; jf_detail := detail; jf_output := no_output; jf_client_version := None |}.

Definition with_output (f : JobFailure) (output : RuntimeOutput) : JobFailure :=
  {| jf_cause := jf_cause f; jf_detail := jf_detail f; jf_output := output;
     jf_client_version := jf_client_version f |}.

Definition on_build (f : JobFailure) (version : str) (reported : bool) : JobFailure :=
  {| jf_cause := jf_cause f; jf_detail := lit "build " ++ version ++ lit ": " ++ jf_detail f;
     jf_output := jf_output f; jf_client_version := if reported then Some version else None |}.

(** ** Calls and what they mean *)

Inductive ClaimPoll :=
| PolledJob (job : ClaimedJob)
| PolledIdle
| PolledNotApproved
| PolledSignatureRejected
| PolledTransient (e : MgmtError)
| PolledFatal (e : MgmtError).

Inductive ReclaimOutcome :=
| Renewed
| Unrecoverable
| ReclaimTransient (e : MgmtError).

Inductive ClaimableWait :=
| Claimable (profile : ClientProfile)
| WaitStopped.

(** What the texts and the crates the proxy is built with give. *)
Class ProxyTexts := {
  mgmt_text : MgmtError -> str;
  status_text : ClientStatus -> str;
  PROXY_VERSION : str;
  (** [serde_json::to_value] of a [RuntimeOutput]. *)
  output_to_value : RuntimeOutput -> result Value str;
}.

Definition SIGNATURE_HINT : str :=
  lit "the server rejected this client's signature; check the host clock (the timestamp must be within 5 minutes of the server's) and that this device's `private_key` in the config is the one its `client_id` was registered with".

Definition APPROVAL_HINT : str :=
  lit "this client is not approved; have an operator approve the phone's client row (`pipette-mgmt clients approve <client_id>`)".

Section Server.
Context `{ProxyTexts} {St W : Type} `{MgmtClient W} `{ProxyHost W}.

Definition client_version : str := lit "pipette-ios-proxy/" ++ PROXY_VERSION.

Definition describe (e : MgmtError) (what : str) : Error :=
  let hint :=
    match http_status e with
    | Some 401 => Some SIGNATURE_HINT
    | Some 403 => Some APPROVAL_HINT
    | _ => None
    end in
  let error := error_at (MgmtFailed e) (mgmt_text e) in
  match hint with
  | Some hint => with_context (what ++ lit ": " ++ hint) error
  | None => with_context what error
  end.

Definition poll_claim : prog St W ClaimPoll :=
  do r <- io px_claim;
  ret (match r with
       | Ok (Some job) => PolledJob job
       | Ok None => PolledIdle
       | Err e =>
           if has_status e 403 then PolledNotApproved
           else if has_status e 401 then PolledSignatureRejected
           else if is_transient e then PolledTransient e
           else PolledFatal e
       end).

Definition benchmark_is_unknown (benchmark_id : str) : prog St W bool :=
  do r <- io (px_get_benchmark benchmark_id);
  ret (match r with
       | Ok _ => false
       | Err e => has_status e 404
       end).

Definition reclaim_once (job_id : str) : prog St W ReclaimOutcome :=
  do r <- io (px_reclaim job_id);
  ret (match r with
       | Ok _ => Renewed
       | Err e =>
           if has_status e 404 || has_status e 409 then Unrecoverable
           else if is_transient e then ReclaimTransient e
           else Unrecoverable
       end).

Definition keepalive_lease (job_id : str) : prog St W LeaseKeepalive :=
  do r <- io (px_heartbeat job_id);
  match r with
  | Ok _ => ret KeepOk
  | Err e =>
      if has_status e 409 then ret Abort
      else if has_status e 404 then
        do outcome <- reclaim_once job_id;
        ret (match outcome with
             | Renewed => KeepOk
             | Unrecoverable => Abort
             | ReclaimTransient _ => KeepRetry
             end)
      else if is_transient e then ret KeepRetry
      else ret KeepRetry
  end.

Definition try_submit (job_id : str) (payload : Submission) : prog St W SubmitDisposition :=
  do r <- io (px_submit_result payload);
  match r with
  | Ok accepted => ret (Accepted accepted)
  | Err e =>
      if has_status e 409 then ret Dropped
      else if has_status e 404 then
        do outcome <- reclaim_once job_id;
        ret (match outcome with
             | Renewed | ReclaimTransient _ => RetryTransient
             | Unrecoverable => Dropped
             end)
      else if is_transient e then ret RetryTransient
      else ret (Fatal e)
  end.

Definition gave_up (job_id : str) : Error :=
  bail (lit "gave up submitting the result for job " ++ job_id ++ lit " after " ++
        show_uint SUBMIT_MAX_ATTEMPTS ++ lit " attempts").

(** The loop over the attempts that are left. [Ok None] is a result the server refused. *)
Fixpoint submit_attempts (job_id : str) (payload : Submission) (attempts : list Z) (backoff : Z)
    : prog St W (result (option str) Error) :=
  match attempts with
  | [] => ret (Err (gave_up job_id))
  | attempt :: rest =>
      do d <- try_submit job_id payload;
      match d with
      | Accepted accepted => ret (Ok (Some accepted))
      | Dropped => ret (Ok None)
      | Fatal e => ret (Err (describe e (lit "submitting the result for job " ++ job_id)))
      | RetryTransient =>
          if attempt =? SUBMIT_MAX_ATTEMPTS then ret (Err (gave_up job_id))
          else
            do _ <- io_ (thread_sleep backoff);
            submit_attempts job_id payload rest (next_backoff backoff SUBMIT_BACKOFF_CAP)
      end
  end.

Definition submit_with_backoff (job_id : str) (payload : Submission)
    : prog St W (result (option str) Error) :=
  submit_attempts job_id payload (seqZ 1 SUBMIT_MAX_ATTEMPTS) SUBMIT_BACKOFF_BASE.

(** *** The profile *)

Definition refresh_profile (report : Report) : prog St W (result ClientProfile Error) :=
  do r <- io (px_update_me report);
  ret (match r with
       | Ok p => Ok p
       | Err e => Err (describe e (lit "updating this client's server-side profile"))
       end).

Definition fetch_profile : prog St W (result ClientProfile Error) :=
  do r <- io px_me;
  ret (match r with
       | Ok p => Ok p
       | Err e => Err (describe e (lit "reading this client's server-side profile"))
       end).

Definition claimable (p : ClientProfile) : bool :=
  is_approved (cp_status p) && negb (reindex_pending p).

Definition out_of_budget (p : ClientProfile) : Error :=
  let secs := show_uint (as_secs APPROVAL_WAIT_BUDGET) in
  let id := cp_client_id p in
  bail (if is_approved (cp_status p) then
          lit "client " ++ id ++ lit " is approved but its profile reindex is still pending after " ++
          secs ++ lit "s; the server would answer every claim with 204"
        else
          lit "client " ++ id ++ lit " is still `" ++ status_text (cp_status p) ++ lit "` after " ++
          secs ++ lit "s; approve it with `pipette-mgmt clients approve " ++ id ++
          lit "`. This worker acts as the phone's own registered client, so the approval is that client's").

Fixpoint claimable_loop (fuel : nat) (started waited : Z)
    : prog St W (option (result ClaimableWait Error)) :=
  match fuel with
  | O => ret None
  | S fuel =>
      do profile <- fetch_profile;
      match profile with
      | Err e => ret (Some (Err e))
      | Ok profile =>
          if claimable profile then ret (Some (Ok (Claimable profile)))
          else
            do now <- io instant;
            if (APPROVAL_WAIT_BUDGET <=? waited)
               || (APPROVAL_WAIT_BUDGET <=? sat_sub now started)
            then ret (Some (Err (out_of_budget profile)))
            else
              do slept <- sleep_interruptible REINDEX_POLL_INTERVAL;
              if slept then claimable_loop fuel started (waited + REINDEX_POLL_INTERVAL)
              else ret (Some (Ok WaitStopped))
      end
  end.

(** 61 looks five seconds apart use the budget up ([claimable_wait_ends]). *)
Definition wait_until_claimable : prog St W (result ClaimableWait Error) :=
  do started <- io instant;
  do r <- claimable_loop 61 started 0;
  ret (default (Ok WaitStopped) r).

(** ** Submissions *)

Definition format_failure_reason (now detail : str) : str := lit "[" ++ now ++ lit "] " ++ detail.

Definition failure_submission (now : str) (job : ClaimedJob) (failure : JobFailure) : Submission :=
  JobFailed
    (from_claim job (format_failure_reason now (jf_detail failure)) (retriable (jf_cause failure))
       (default client_version (jf_client_version failure)))
    (jf_output failure).

Definition attach_job_id (payload : Value) (job_id : str) : result Value Error :=
  match payload with
  | Object fields => Ok (Object (assoc_insert (lit "job_id") (String job_id) fields))
  | _ => Err (bail (lit "the payload the phone printed is not a JSON object, so `job_id` cannot be attached"))
  end.

(** [entry(key).or_insert(value)]. *)
Definition or_insert {A} (fields : list (str * A)) (entry : str * A) : list (str * A) :=
  match assoc entry.1 fields with
  | Some _ => fields
  | None => fields ++ [entry]
  end.

Definition attach_runtime_output (payload : Value) (output : RuntimeOutput) : result Value Error :=
  match output_to_value output with
  | Err e => Err (bail e)
  | Ok (Object streams) =>
      match payload with
      | Object fields => Ok (Object (foldl or_insert fields streams))
      | _ => Err (bail (lit "the payload the phone printed is not a JSON object, so the run's output cannot be attached"))
      end
  | Ok _ => Err (bail (lit "runtime output does not serialize to an object"))
  end.

Definition bound_payload (job : ClaimedJob) (payload : Value) (output : RuntimeOutput)
    : result Value Error :=
  match attach_job_id payload (job_id job) with
  | Ok payload => attach_runtime_output payload output
  | Err e => Err e
  end.

Definition submit_success (job : ClaimedJob) (payload : Value) (output : RuntimeOutput)
    : prog St W (result (option str) Error) :=
  match bound_payload job payload output with
  | Err e => ret (Err e)
  | Ok payload => submit_with_backoff (job_id job) (ResultBody payload)
  end.

Definition submit_failure (job : ClaimedJob) (failure : JobFailure) : prog St W (result unit Error) :=
  do now <- io now_text;
  do? _ <- submit_with_backoff (job_id job) (failure_submission now job failure);
  ret (Ok tt).
End Server.

(** ** Lemmas *)

Section Spec.
Context `{ProxyTexts} {St W : Type} `{MgmtClient W} `{ProxyHost W}.
Notation TW := (W * list Event)%type.

(** What a sleep asks of the world. *)
Fixpoint naps (tr : list Event) : Z :=
  match tr with
  | [] => 0
  | ESleep d :: tr => d + naps tr
  | _ :: tr => naps tr
  end.

Definition quiet (e : Event) : Prop :=
  match e with ESleep _ | EStop _ => True | _ => False end.

Lemma naps_app a b : naps (a ++ b) = naps a + naps b.
Proof. induction a as [|[] a IH]; cbn; lia. Qed.

(** How a sleep of [total] ends: it was whole and no flag read was raised, or the last flag
    read was and the rest was not slept. *)
Definition slept (total : Z) (whole : bool) (tr : list Event) : Prop :=
  Forall quiet tr /\ naps tr <= total /\
  (whole = true -> naps tr = total /\ EStop true ∉ tr) /\
  (whole = false -> last tr = Some (EStop true)).

Lemma sleep_slices_emits fuel left (s : St) :
  0 <= left <= SLEEP_SLICE * (Z.of_nat fuel - 1) ->
  emits s (sleep_slices (W := TW) fuel left) (fun r s' tr => s' = s /\
    exists whole, r = Some whole /\ slept left whole tr).
Proof.
  change SLEEP_SLICE with 1000000000. revert left.
  induction fuel as [|fuel IH]; intros left Hl; [lia|].
  cbn [sleep_slices]. change SLEEP_SLICE with 1000000000. destruct (Z.eqb_spec left 0) as [->|Hne].
  { do 2 emits_step. split; [done|]. exists (negb t). split; [done|].
    split_and!; [by repeat constructor|cbn; lia| |by destruct t].
    intros Ht. split; [done|]. destruct t; [done|]. set_solver. }
  emits_step. destruct t.
  { emits_step. split; [done|]. exists false. split; [done|].
    split_and!; [by repeat constructor|cbn; lia|done|done]. }
  emits_step. set (slice := if 1000000000 <? left then 1000000000 else left).
  assert (0 < slice <= left /\ left - slice <= 1000000000 * (Z.of_nat fuel - 1)) as [Hp Hs]
    by (subst slice; destruct (Z.ltb_spec 1000000000 left); lia).
  eapply emits_weaken; [apply IH; lia|]. cbn. intros r s' tr (-> & whole & -> & Hq & Hn & Ht & Hf).
  split; [done|]. exists whole. split; [done|]. split_and!.
  - by repeat constructor.
  - cbn. lia.
  - intros Hw. destruct (Ht Hw) as [Hsum Hno]. cbn. split; [lia|]. set_solver.
  - intros Hw. specialize (Hf Hw). by destruct tr.
Qed.

Lemma sleep_interruptible_emits total (s : St) :
  0 <= total -> emits s (sleep_interruptible (W := TW) total) (fun whole s' tr =>
    s' = s /\ slept total whole tr).
Proof.
  intros Ht. unfold sleep_interruptible. eapply emits_bind.
  { apply sleep_slices_emits. change SLEEP_SLICE with 1000000000.
    pose proof (Z.div_mod total 1000000000 ltac:(done)).
    pose proof (Z.mod_pos_bound total 1000000000 ltac:(done)).
    pose proof (Z.div_pos total 1000000000 Ht ltac:(done)). lia. }
  cbn. intros r s' tr (-> & whole & -> & Hs). emits_step. by rewrite app_nil_r.
Qed.

(** One attempt: the body once, and a reclaim after a [404] only. *)
Inductive submit_try (id : str) (body : Submission) : list Event -> SubmitDisposition -> Prop :=
| try_accepted a : submit_try id body [ESubmit body (Ok a)] (Accepted a)
| try_superseded e : http_status e = Some 409 -> submit_try id body [ESubmit body (Err e)] Dropped
| try_transient e :
    is_transient e = true -> submit_try id body [ESubmit body (Err e)] RetryTransient
| try_refused e :
    is_transient e = false -> http_status e <> Some 409 -> http_status e <> Some 404 ->
    submit_try id body [ESubmit body (Err e)] (Fatal e)
| try_reclaimed e r :
    http_status e = Some 404 -> (r = Ok tt \/ exists re, r = Err re /\ is_transient re = true) ->
    submit_try id body [ESubmit body (Err e); EReclaim id r] RetryTransient
| try_lost e re :
    http_status e = Some 404 -> is_transient re = false ->
    submit_try id body [ESubmit body (Err e); EReclaim id (Err re)] Dropped.

(** The attempts of a submission, with the waits between them. *)
Inductive submit_run (id : str) (body : Submission) : Z -> Z -> list Event -> result (option str) Error -> Prop :=
| run_accepted n backoff tr a :
    submit_try id body tr (Accepted a) -> submit_run id body n backoff tr (Ok (Some a))
| run_dropped n backoff tr :
    submit_try id body tr Dropped -> submit_run id body n backoff tr (Ok None)
| run_refused n backoff tr e :
    submit_try id body tr (Fatal e) ->
    submit_run id body n backoff tr
      (Err (describe e (lit "submitting the result for job " ++ id)))
| run_exhausted backoff tr :
    submit_try id body tr RetryTransient ->
    submit_run id body SUBMIT_MAX_ATTEMPTS backoff tr (Err (gave_up id))
| run_again n backoff tr tr' r :
    n < SUBMIT_MAX_ATTEMPTS -> submit_try id body tr RetryTransient ->
    submit_run id body (n + 1) (next_backoff backoff SUBMIT_BACKOFF_CAP) tr' r ->
    submit_run id body n backoff (tr ++ ESleep backoff :: tr') r.

Lemma status_reclaim (e : MgmtError) (b : bool) :
  has_status e 404 || has_status e 409 = b -> is_transient e = true -> b = false.
Proof.
  intros <- Ht. apply orb_false_iff; split; apply has_status_false; intros Hs;
    by rewrite (status_not_transient _ _ Hs) in Ht.
Qed.

Lemma try_submit_emits id body (s : St) :
  emits s (try_submit (W := TW) id body) (fun d s' tr => s' = s /\ submit_try id body tr d).
Proof.
  unfold try_submit. emits_step. destruct t as [a|e].
  { emits_step. split; [done|constructor]. }
  destruct (has_status e 409) eqn:E1; [apply has_status_spec in E1|apply has_status_false in E1].
  { emits_step. split; [done|by constructor]. }
  destruct (has_status e 404) eqn:E2; [apply has_status_spec in E2|apply has_status_false in E2].
  - unfold reclaim_once. eapply emits_bind with (P := fun o s' tr => s' = s /\
      exists r, tr = [EReclaim id r] /\
      match o with
      | Renewed => r = Ok tt
      | Unrecoverable => exists re, r = Err re /\ is_transient re = false
      | ReclaimTransient re => r = Err re /\ is_transient re = true
      end).
    + do 2 emits_step. split; [done|]. exists t. split; [done|]. destruct t as [[]|re]; [done|].
      destruct (_ || _) eqn:E3; [|destruct (is_transient re) eqn:Et; eauto].
      exists re. split; [done|]. destruct (is_transient re) eqn:Et; [|done].
      by apply status_reclaim in E3.
    + cbn. intros o s' tr (-> & r & -> & Ho). emits_step. split; [done|].
      destruct o as [| |re]; [subst r; apply try_reclaimed; auto|
        destruct Ho as (re & -> & ?); by apply try_lost|
        destruct Ho as [-> ?]; apply try_reclaimed; eauto].
  - destruct (is_transient e) eqn:Et; emits_step; (split; [done|by constructor]).
Qed.

Lemma submit_attempts_emits id body m n backoff (s : St) :
  n + Z.of_nat m = SUBMIT_MAX_ATTEMPTS + 1 -> (0 < m)%nat ->
  emits s (submit_attempts (W := TW) id body (seqZ n (Z.of_nat m)) backoff)
    (fun r s' tr => s' = s /\ submit_run id body n backoff tr r).
Proof.
  revert n backoff. induction m as [|m IH]; intros n backoff Hn Hm; [lia|].
  rewrite seqZ_cons by lia. replace (Z.pred (Z.of_nat (S m))) with (Z.of_nat m) by lia.
  cbn [submit_attempts]. eapply emits_bind; [apply try_submit_emits|].
  cbn. intros d s' tr [-> Ht].
  destruct d; try (emits_step; rewrite app_nil_r; split; [done|by constructor]).
  destruct (Z.eqb_spec n SUBMIT_MAX_ATTEMPTS) as [->|Hne].
  { emits_step. rewrite app_nil_r. split; [done|by constructor]. }
  emits_step. eapply emits_weaken; [apply (IH (Z.succ n)); lia|].
  cbn. intros r s' tr' [-> Hr]. split; [done|].
  apply run_again; [lia|done|by replace (n + 1) with (Z.succ n) by lia].
Qed.

Lemma submit_emits id body (s : St) :
  emits s (submit_with_backoff (W := TW) id body) (fun r s' tr =>
    s' = s /\ submit_run id body 1 SUBMIT_BACKOFF_BASE tr r).
Proof. apply (submit_attempts_emits id body 32); [done|lia]. Qed.

(** What a submission sends, and how it can end. *)
Definition sent (e : Event) : option (Submission * result str MgmtError) :=
  match e with ESubmit body r => Some (body, r) | _ => None end.

Lemma submit_try_sent id body tr d :
  submit_try id body tr d ->
  naps tr = 0 /\ exists r, omap sent tr = [(body, r)] /\ (forall a, d = Accepted a <-> r = Ok a).
Proof.
  intros []; (split; [done|]); eexists; (split; [reflexivity|]); intros; split; intros; by simplify_eq.
Qed.

(** The wait after attempt [n]. *)
Definition submit_wait (n : Z) : Z :=
  exponential_backoff n SUBMIT_BACKOFF_BASE SUBMIT_BACKOFF_CAP.

Lemma next_submit_wait n :
  1 <= n < SUBMIT_MAX_ATTEMPTS -> next_backoff (submit_wait n) SUBMIT_BACKOFF_CAP = submit_wait (n + 1).
Proof.
  intros Hn. apply Z.eqb_eq.
  assert (forallb (fun n => next_backoff (submit_wait n) SUBMIT_BACKOFF_CAP =? submit_wait (n + 1))
    (seqZ 1 31) = true) as Hall by (vm_compute; reflexivity).
  rewrite forallb_forall in Hall. apply Hall.
  apply list_elem_of_In, elem_of_seqZ. unfold SUBMIT_MAX_ATTEMPTS in *. lia.
Qed.

Definition sent_and_answered (body : Submission) (r : result (option str) Error)
    (l : list (Submission * result str MgmtError)) : Prop :=
  Forall (fun p => p.1 = body) l /\
  match r with
  | Ok (Some a) => last l = Some (body, Ok a)
  | Ok None | Err _ => Forall (fun p => is_Some (match p.2 with Ok _ => None | Err e => Some e end)) l
  end.

Lemma proxy_submit_bounds id body n tr r :
  1 <= n <= SUBMIT_MAX_ATTEMPTS -> submit_run id body n (submit_wait n) tr r ->
  sent_and_answered body r (omap sent tr) /\
  1 <= Z.of_nat (length (omap sent tr)) <= SUBMIT_MAX_ATTEMPTS - n + 1 /\
  0 <= naps tr <= total (map submit_wait (seqZ n (SUBMIT_MAX_ATTEMPTS - n))).
Proof.
  assert (forall k, 0 <= submit_wait k) as Hw.
  { intros k. apply exponential_backoff_range; vm_compute; congruence. }
  assert (forall l, 0 <= total (map submit_wait l)) as Hl.
  { induction l as [|k l IHl]; simpl; [lia|]. pose proof (Hw k). unfold total in *. lia. }
  intros Hn Hr. remember (submit_wait n) as backoff eqn:Eb. revert Hn Eb.
  induction Hr as [n b tr a Ht|n b tr Ht|n b tr e Ht|b tr Ht|n b tr tr' r Hlt Ht Hr IH]; intros Hn ->;
    apply submit_try_sent in Ht as (Hz & ans & Hs & Ha).
  1-4: rewrite ?Hs, ?Hz; cbn [length]; split_and!; try apply Hl; try lia; unfold sent_and_answered;
    (split; [by repeat constructor|]).
  - cbn. by rewrite (proj1 (Ha a)).
  - constructor; [|done]. destruct ans as [a|]; [|by eexists]. by specialize (proj2 (Ha a) eq_refl).
  - constructor; [|done]. destruct ans as [a|]; [|by eexists]. by specialize (proj2 (Ha a) eq_refl).
  - constructor; [|done]. destruct ans as [a|]; [|by eexists]. by specialize (proj2 (Ha a) eq_refl).
  - destruct IH as ([Hb Hans] & Hlen & Hnaps); [lia|apply next_submit_wait; lia|].
    rewrite naps_app, omap_app, Hs. cbn [naps omap list_omap sent app length].
    rewrite seqZ_cons by lia. replace (Z.succ n) with (n + 1) by lia.
    replace (Z.pred (SUBMIT_MAX_ATTEMPTS - n)) with (SUBMIT_MAX_ATTEMPTS - (n + 1)) by lia.
    pose proof (Hw n). cbn [map total foldr]. fold (total (map submit_wait (seqZ (n + 1) (SUBMIT_MAX_ATTEMPTS - (n + 1))))).
    split_and!; try lia. split; [by constructor|].
    assert (is_Some (match ans with Ok _ => None | Err e => Some e end)) as Herr.
    { destruct ans as [a|]; [|by eexists]. by specialize (proj2 (Ha a) eq_refl). }
    destruct r as [[a|]|]; [|by constructor..].
    rewrite last_cons. fold (omap (M := list) sent tr'). by rewrite Hans.
Qed.
End Spec.

(** *** The claimable gate *)
Section Gate.
Context `{ProxyTexts} {St W : Type} `{MgmtClient W} `{ProxyHost W}.
Notation TW := (W * list Event)%type.

Definition look (e : Event) : option (result ClientProfile MgmtError) :=
  match e with EMe r => Some r | _ => None end.

(** How the gate can end, with what it asked: only looks at the profile and sleeps, and no
    profile but the last let it through. *)
Definition gate_ended (r : result ClaimableWait Error) (tr : list Event) : Prop :=
  Forall (fun e => quiet e \/ is_Some (look e)) tr /\
  match r with
  | Ok (Claimable p) => claimable p = true /\ last tr = Some (EMe (Ok p))
  | Ok WaitStopped => last tr = Some (EStop true)
  | Err e =>
      (exists m, last tr = Some (EMe (Err m)) /\
         e = describe m (lit "reading this client's server-side profile")) \/
      (exists p, last tr = Some (EMe (Ok p)) /\ claimable p = false /\ e = out_of_budget p)
  end.

Lemma last_app_some {A} (a b : list A) x : last b = Some x -> last (a ++ b) = Some x.
Proof. intros Hb. by rewrite last_app, Hb. Qed.

Lemma gate_after r tr1 tr2 :
  Forall (fun e => quiet e \/ is_Some (look e)) tr1 -> gate_ended r tr2 -> gate_ended r (tr1 ++ tr2).
Proof.
  intros H1' [Hall Hr]. split; [by apply Forall_app|].
  destruct r as [[p|]|e].
  - destruct Hr. split; [done|]. by apply last_app_some.
  - by apply last_app_some.
  - destruct Hr as [(m & Hl & ->)|(p & Hl & Hc & ->)]; [left; exists m|right; exists p];
      split_and?; auto; by apply last_app_some.
Qed.

Lemma quiet_looks tr : Forall quiet tr -> omap look tr = [].
Proof. induction 1 as [|e tr He Htr IH]; [done|]. by destruct e. Qed.

Lemma claimable_loop_emits fuel started waited (s : St) :
  (0 < fuel)%nat ->
  APPROVAL_WAIT_BUDGET <= waited + REINDEX_POLL_INTERVAL * (Z.of_nat fuel - 1) ->
  emits s (claimable_loop (W := TW) fuel started waited) (fun r s' tr => s' = s /\
    exists e, r = Some e /\ gate_ended e tr /\
      (length (omap look tr) <= fuel)%nat /\
      naps tr <= REINDEX_POLL_INTERVAL * (Z.of_nat fuel - 1)).
Proof.
  change REINDEX_POLL_INTERVAL with 5000000000. revert waited.
  induction fuel as [|fuel IH]; intros waited Hf Hw; [lia|].
  cbn [claimable_loop]. change REINDEX_POLL_INTERVAL with 5000000000.
  assert (forall e, gate_ended e [] -> True) as _ by done.
  unfold fetch_profile. eapply emits_bind with (P := fun r s' tr => s' = s /\
    exists a, tr = [EMe a] /\ match a with
      | Ok p => r = Ok p
      | Err m => r = Err (describe m (lit "reading this client's server-side profile"))
      end).
  { do 2 emits_step. split; [done|]. exists t. by destruct t. }
  cbv beta. intros r s' tr (-> & a & -> & Ha).
  assert (forall e, match e with
    | Ok (Claimable p) => claimable p = true /\ EMe a = EMe (Ok p)
    | Ok WaitStopped => False
    | Err e => (exists m, EMe a = EMe (Err m) /\
         e = describe m (lit "reading this client's server-side profile")) \/
      (exists p, EMe a = EMe (Ok p) /\ claimable p = false /\ e = out_of_budget p)
    end -> s = s /\ exists e', Some e = Some e' /\ gate_ended e' [EMe a] /\
      (length (omap look [EMe a]) <= S fuel)%nat /\ naps [EMe a] <= 5000000000 * (Z.of_nat (S fuel) - 1))
    as Hone.
  { intros e He. split; [done|]. exists e. cbn. split_and!; [done| |lia|lia].
    split; [apply Forall_singleton; right; by eexists|].
    destruct e as [[p|]|e]; [|done|]; cbn.
    - by destruct He as [? [= ->]].
    - destruct He as [(m & [= ->] & ->)|(p & [= ->] & ? & ->)]; eauto. }
  destruct a as [p|m]; subst r.
  2:{ emits_step. rewrite app_nil_r. apply Hone. eauto. }
  destruct (claimable p) eqn:Ec.
  { emits_step. rewrite app_nil_r. by apply Hone. }
  emits_step. destruct (_ || _) eqn:Eb.
  { emits_step. rewrite app_nil_r. apply Hone. eauto. }
  apply orb_false_iff in Eb as [Eb _]. apply Z.leb_gt in Eb. unfold APPROVAL_WAIT_BUDGET in *.
  change (from_secs 300) with 300000000000 in *.
  eapply emits_bind; [apply sleep_interruptible_emits; done|].
  cbn. intros whole s' tr [-> (Hq & Hn & Ht & Hfalse)].
  assert (Forall (fun e => quiet e \/ is_Some (look e)) (EMe (Ok p) :: tr)) as Hall.
  { constructor; [right; by eexists|]. eapply Forall_impl; [exact Hq|]. auto. }
  destruct whole.
  - eapply emits_weaken; [apply IH; lia|]. cbn.
    intros r s' tr' (-> & e & -> & He & Hlen & Hnaps). split; [done|]. exists e.
    rewrite naps_app, omap_app, quiet_looks by done. split_and!; [done| |cbn; lia|].
    + by apply (gate_after _ (EMe (Ok p) :: tr)).
    + destruct (Ht eq_refl) as [-> _]. change REINDEX_POLL_INTERVAL with 5000000000. lia.
  - emits_step. rewrite app_nil_r. split; [done|]. eexists. split; [done|].
    rewrite quiet_looks by done. split_and!; [|cbn; lia|change REINDEX_POLL_INTERVAL with 5000000000 in *; lia].
    split; [done|]. specialize (Hfalse eq_refl). by apply (last_app_some [_]).
Qed.
End Gate.

(** *** What is added to a payload *)

Lemma assoc_snoc {A} k (l : list (str * A)) e :
  assoc k (l ++ [e]) = option_or (assoc k l) (if str_eqb k e.1 then Some e.2 else None).
Proof. destruct e as [k' v]. induction l as [|[k2 x] l IH]; cbn; [done|]. by destruct (str_eqb k k2). Qed.

Lemma assoc_or_insert {A} k (l : list (str * A)) e :
  assoc k (or_insert l e) = option_or (assoc k l) (assoc k [e]).
Proof.
  destruct e as [k' v]. unfold or_insert. cbn [fst]. destruct (assoc k' l) eqn:E.
  - destruct (assoc k l) eqn:E2; [done|]. cbn. destruct (str_eqb k k') eqn:Ek; [|done].
    apply str_eqb_eq in Ek as ->. congruence.
  - by rewrite assoc_snoc.
Qed.

Lemma option_or_assoc {A} (a b c : option A) : option_or (option_or a b) c = option_or a (option_or b c).
Proof. by destruct a. Qed.

Lemma assoc_or_inserts {A} k (l streams : list (str * A)) :
  assoc k (foldl or_insert l streams) = option_or (assoc k l) (assoc k streams).
Proof.
  revert l. induction streams as [|[k' v] streams IH]; intros l; cbn [foldl].
  { by destruct (assoc k l). }
  rewrite IH, assoc_or_insert, option_or_assoc. f_equal. cbn. by destruct (str_eqb k k').
Qed.

Lemma or_inserts_keys {A} (l streams : list (str * A)) :
  map fst l `prefix_of` map fst (foldl or_insert l streams).
Proof.
  revert l. induction streams as [|e streams IH]; intros l; cbn [foldl]; [done|].
  etrans; [|apply IH]. unfold or_insert. destruct (assoc e.1 l); [done|].
  rewrite map_app. by eexists.
Qed.

Lemma assoc_insert_keys {A} k (x : A) l :
  map fst l `prefix_of` map fst (assoc_insert k x l).
Proof.
  induction l as [|[k' v] l IH]; cbn; [by eexists|].
  destruct (str_eqb k k') eqn:E; cbn.
  - apply str_eqb_eq in E as ->. done.
  - by apply prefix_cons.
Qed.

(** *** The same as the command-line worker's

    Its protocol, asked of the same server with the one body. *)
Section AsCli.
Context `{ProxyTexts} {St W : Type} `{MgmtClient W} `{ProxyHost W}.

Definition as_cli (body : Submission) : MgmtApi W := {|
  api_claim := px_claim;
  api_heartbeat := px_heartbeat;
  api_reclaim := px_reclaim;
  api_submit_result := fun _ => px_submit_result body;
|}.

Definition cli_sleep (d : Z) (w : W) : control_flow unit unit * W := (Continue tt, thread_sleep d w).

Definition of_poll (p : Protocol.ClaimPoll) : ClaimPoll :=
  match p with
  | Job job => PolledJob job
  | Idle => PolledIdle
  | ClaimRefused _ => PolledNotApproved
  | ClaimTransient e => PolledTransient e
  | ClaimFatal e => if has_status e 401 then PolledSignatureRejected else PolledFatal e
  end.

Definition of_disposition (id : str) (d : SubmitDisposition) : result (option str) Error :=
  match d with
  | Accepted a => Ok (Some a)
  | Dropped => Ok None
  | RetryTransient => Err (gave_up id)
  | Fatal e => Err (describe e (lit "submitting the result for job " ++ id))
  end.

Lemma try_submit_cli id body b (s : St) (w : W) :
  try_submit id body (s, w) =
    let '(d, w') := try_submit_plan_result (H := as_cli body) id b w in (d, (s, w')).
Proof.
  unfold try_submit, try_submit_plan_result, bind, io, ret. cbn.
  destruct (px_submit_result body w) as [[a|e] w1]; cbn; [done|].
  destruct (has_status e 409); [done|]. destruct (has_status e 404); [|by destruct (is_transient e)].
  unfold reclaim_once, bind, io, ret. cbn. destruct (px_reclaim id w1) as [[[]|re] w2]; cbn; [done|].
  destruct (_ || _); [done|]. by destruct (is_transient re).
Qed.

Lemma submit_attempts_cli id body b m n (s : St) (w : W) :
  1 <= n -> n + Z.of_nat m = SUBMIT_MAX_ATTEMPTS + 1 -> (0 < m)%nat ->
  exists d w', submit_attempts id body (seqZ n (Z.of_nat m)) (submit_wait n) (s, w) =
    (of_disposition id d, (s, w')) /\
    (let '(settled, w2) :=
       retry_with_backoff Protocol.SUBMIT_BACKOFF_FIRST Protocol.SUBMIT_BACKOFF_CAP
         (submit_attempt (H := as_cli body) id b) cli_sleep (seqZ n (Z.of_nat m)) w in
     (default RetryTransient settled, w2)) =
    (d, match d with RetryTransient => thread_sleep (submit_wait SUBMIT_MAX_ATTEMPTS) w' | _ => w' end).
Proof.
  revert n w. induction m as [|m IH]; intros n w Hn1 Hn Hm; [lia|].
  rewrite seqZ_cons by lia. replace (Z.pred (Z.of_nat (S m))) with (Z.of_nat m) by lia.
  cbn [submit_attempts retry_with_backoff]. unfold bind at 1. rewrite (try_submit_cli id body b).
  unfold submit_attempt at 1.
  destruct (try_submit_plan_result (H := as_cli body) id b w) as [d w1].
  destruct d as [a| | |e];
    [by eexists (Accepted a), w1|by eexists Dropped, w1| |by eexists (Fatal e), w1].
  cbn [cli_sleep]. destruct (Z.eqb_spec n SUBMIT_MAX_ATTEMPTS) as [->|Hne].
  - assert (m = 0%nat) as -> by lia. by exists RetryTransient, w1.
  - destruct (IH (Z.succ n) (thread_sleep (submit_wait n) w1)) as (d & w' & E1 & E2); [lia..|].
    exists d, w'. split; [|exact E2]. rewrite <- E1. unfold bind, io_. cbn [fst snd].
    rewrite next_submit_wait by lia. by replace (n + 1) with (Z.succ n) by lia.
Qed.
End AsCli.

Lemma wait_until_claimable_emits `{ProxyTexts} {St W : Type} `{MgmtClient W} `{ProxyHost W} (s : St) :
  emits (W := W) s wait_until_claimable (fun r s' tr => s' = s /\
    gate_ended r tr /\ (length (omap look tr) <= 61)%nat /\ naps tr <= from_secs 300).
Proof.
  unfold wait_until_claimable. emits_step.
  eapply emits_bind; [apply claimable_loop_emits; [lia|done]|].
  cbn. intros r s' tr (-> & e & -> & He & Hl & Hn). emits_step. rewrite app_nil_r. by split_and!.
Qed.

(** ** Theorems *)

(** The proxy talks to the server as the command-line worker does. Given the same
    answers, a claim means the same except that a [401] is told apart; a heartbeat, with its
    one reclaim, means the same; and a submission makes the same calls in the same order and
    ends the same way, except that it does not wait after the last attempt. *)
Theorem proxy_speaks_as_the_cli `{ProxyTexts} {St W : Type} `{MgmtClient W} `{ProxyHost W}
    (id : str) (body : Submission) (b : Protocol.Body) (s : St) (w : W) :
  poll_claim (s, w) =
    (let '(p, w') := Protocol.poll_claim (H := as_cli body) w in (of_poll p, (s, w'))) /\
  keepalive_lease id (s, w) =
    (let '(k, w') := Protocol.keepalive_lease (H := as_cli body) id w in (k, (s, w'))) /\
  (let '(d, w_cli) := submit_plan_result_with_backoff (H := as_cli body) id b cli_sleep w in
   exists w', submit_with_backoff id body (s, w) = (of_disposition id d, (s, w')) /\
     w_cli = match d with RetryTransient => thread_sleep (from_secs 30) w' | _ => w' end).
Proof.
  split_and!.
  - unfold poll_claim, Protocol.poll_claim, bind, io, ret. cbn.
    destruct (px_claim w) as [[[job|]|e] w1]; cbn; try done.
    destruct (has_status e 403) eqn:E1; [done|]. destruct (has_status e 401) eqn:E2; cbn.
    + apply has_status_spec in E2 as E3. rewrite (status_not_transient _ _ E3) by done.
      cbn. by rewrite E2.
    + destruct (is_transient e); cbn; [done|]. by rewrite E2.
  - unfold keepalive_lease, Protocol.keepalive_lease, bind, io, ret. cbn.
    destruct (px_heartbeat id w) as [[[]|e] w1]; cbn; [done|].
    destruct (has_status e 409); [done|]. destruct (has_status e 404); [|by destruct (is_transient e)].
    unfold reclaim_once, bind, io, ret. cbn. destruct (px_reclaim id w1) as [[[]|re] w2]; cbn; [done|].
    destruct (_ || _); [done|]. by destruct (is_transient re).
  - destruct (submit_attempts_cli id body b 32 1 s w) as (d & w' & E1 & E2); [done..|lia|].
    unfold submit_plan_result_with_backoff. change SUBMIT_ATTEMPTS with (Z.of_nat 32).
    rewrite E2. exists w'. split; [exact E1|].
    assert (submit_wait SUBMIT_MAX_ATTEMPTS = from_secs 30) as -> by (vm_compute; reflexivity).
    done.
Qed.

(** A submission, whatever the server answers, sends the one body it was given, at most
    32 times, waits at most 811 seconds in all, and is accepted exactly when its last send
    was. *)
Theorem proxy_submission_bounded `{ProxyTexts} {St W : Type} `{MgmtClient W} `{ProxyHost W}
    (id : str) (body : Submission) (s : St) (w : W) :
  exists r w' tr, submit_with_backoff id body (s, (w, [])) = (r, (s, (w', tr))) /\
    sent_and_answered body r (omap sent tr) /\
    1 <= Z.of_nat (length (omap sent tr)) <= 32 /\ naps tr <= from_secs 811.
Proof.
  destruct (submit_emits id body s w []) as (r & s' & w' & tr & E & -> & Hr).
  change SUBMIT_BACKOFF_BASE with (submit_wait 1) in Hr.
  destruct (proxy_submit_bounds id body 1 tr r) as (Hs & Hl & Hn); [done|exact Hr|].
  change (SUBMIT_MAX_ATTEMPTS - 1 + 1) with 32 in Hl.
  exists r, w', tr. split; [exact E|]. split_and!; [done|lia..|].
  assert (total (map submit_wait (seqZ 1 (SUBMIT_MAX_ATTEMPTS - 1))) = from_secs 811) as <-
    by (vm_compute; reflexivity). lia.
Qed.

(** The wait for the server to let the client claim ends after at most 61 looks at the
    profile and five minutes of sleep. It passes exactly on a profile that is approved with
    no reindex pending, the last one it saw; it stops only on the signal; and it fails on the
    server's error, or on a profile that still may not claim, and says which. *)
Theorem claimable_wait_ends `{ProxyTexts} {St W : Type} `{MgmtClient W} `{ProxyHost W}
    (s : St) (w : W) :
  exists r w' tr, wait_until_claimable (s, (w, [])) = (r, (s, (w', tr))) /\
    gate_ended r tr /\ (length (omap look tr) <= 61)%nat /\ naps tr <= from_secs 300.
Proof.
  destruct (wait_until_claimable_emits s w []) as (r & s' & w' & tr & E & -> & Hr).
  by exists r, w', tr.
Qed.

(** What the proxy submits for the phone is the phone's payload: an object, every field
    it had in the place it had it, with the claim's [job_id] and, only where the phone put
    none of its own, the run's streams. Anything else is not submitted. *)
Theorem submitted_payload_is_the_phones `{ProxyTexts} (job : ClaimedJob) (payload : Value)
    (output : RuntimeOutput) :
  match bound_payload job payload output with
  | Ok v =>
      exists fields streams fields', payload = Object fields /\ v = Object fields' /\
        output_to_value output = Ok (Object streams) /\
        map fst fields `prefix_of` map fst fields' /\
        assoc (lit "job_id") fields' = Some (String (job_id job)) /\
        forall k, k <> lit "job_id" ->
          assoc k fields' = option_or (assoc k fields) (assoc k streams)
  | Err _ =>
      (forall fields, payload <> Object fields) \/
      (forall streams, output_to_value output <> Ok (Object streams))
  end.
Proof.
  unfold bound_payload, attach_job_id. destruct payload; try (left; congruence).
  unfold attach_runtime_output. destruct (output_to_value output) as [[]|] eqn:E; try (right; congruence).
  eexists _, _, _. split_and!; [done..| | |].
  - etrans; [apply assoc_insert_keys|apply or_inserts_keys].
  - rewrite assoc_or_inserts, assoc_insert_eq. done.
  - intros k Hk. rewrite assoc_or_inserts, assoc_insert_ne by done. done.
Qed.
