(* ===== verification/ProxyHeartbeat.v ===== *)
(** * The lease's heartbeat thread ([tools/pipette-ios-proxy/src/worker/heartbeat.rs])

    A job's lease is kept by a thread of its own: it sleeps in [recv_timeout], beats when
    that times out, and ends on a message, on the channel's disconnect, or when the lease is
    lost. [HeartbeatGuard::stop] sends the message; dropping the guard drops the sender and
    joins the thread, after which the job reads [lost]. Both threads, the channel, the flag
    and the clock are one step relation, a beat being as many steps as it makes calls. *)

From Stdlib Require Import ZArith Lia String.
From stdpp Require Import prelude list.
From S2P Require Import Prelude Str Timing Errors Protocol ProxyBase ProxyServer.

Local Open Scope Z_scope.

(** [timing.rs]. *)
Definition HEARTBEAT_RETRY_WAIT : Z := from_secs 2.

(** ** A beat, call by call *)

(** What [keepalive_lease] makes of the answer to its heartbeat: the end of the beat, or
    a reclaim to make. *)
Inductive AfterBeat := Settled (k : LeaseKeepalive) | ToReclaim.

Definition after_heartbeat (r : result unit MgmtError) : AfterBeat :=
  match r with
  | Ok _ => Settled KeepOk
  | Err e =>
      if has_status e 409 then Settled Abort
      else if has_status e 404 then ToReclaim
      else Settled KeepRetry
  end.

Definition after_reclaim (r : result unit MgmtError) : LeaseKeepalive :=
  match r with
  | Ok _ => KeepOk
  | Err e =>
      if has_status e 404 || has_status e 409 then Abort
      else if is_transient e then KeepRetry
      else Abort
  end.

(** [keepalive_lease] is those calls. *)
Lemma keepalive_by_calls {St W} `{MgmtClient W} id (s : St) (w : W) :
  keepalive_lease id (s, w) =
  (let '(r, w1) := px_heartbeat id w in
   match after_heartbeat r with
   | Settled k => (k, (s, w1))
   | ToReclaim => let '(r2, w2) := px_reclaim id w1 in (after_reclaim r2, (s, w2))
   end).
Proof.
  unfold keepalive_lease, reclaim_once, bind, io, ret, after_heartbeat, after_reclaim. cbn [fst snd].
  destruct (px_heartbeat id w) as [[[]|e] w1]; cbn; [done|].
  destruct (has_status e 409); [done|]. destruct (has_status e 404).
  - cbn. destruct (px_reclaim id w1) as [[[]|e2] w2]; [done|].
    destruct (has_status e2 404 || has_status e2 409); [done|]. by destruct (is_transient e2).
  - by destruct (is_transient e).
Qed.

(** ** The threads *)

(** [recv_timeout(wait)] since some instant, a call in flight, or the end. *)
Inductive BeatThread := Parked (since wait : Z) | Asking | Reclaiming | Ended.

(** The job's thread: at work with the guard, in the guard's [drop], past it. *)
Inductive JobThread := Working | Joining | Joined.

Inductive BeatEvent :=
| BeatAt (t : Z)
| KeptAt (t : Z) (k : LeaseKeepalive)
| StopSent
| SenderDropped
| ThreadJoined.

(** [events] has the latest first. *)
Record Lease := {
  beat_thread : BeatThread;
  job_thread : JobThread;
  messages : nat;
  lost : bool;
  time : Z;
  events : list BeatEvent;
}.

Section Heartbeat.
Context (every : Z).

(** [spawn_heartbeat]. *)
Definition spawn_heartbeat (now : Z) : Lease :=
  {| beat_thread := Parked now every; job_thread := Working; messages := 0; lost := false; time := now; events := [] |}.

Definition at_beat (s : Lease) (b : BeatThread) (e : list BeatEvent) : Lease :=
  {| beat_thread := b; job_thread := job_thread s; messages := messages s; lost := lost s; time := time s;
     events := e ++ events s |}.

(** The arms of the loop's [match]. *)
Definition kept (s : Lease) (k : LeaseKeepalive) : Lease :=
  match k with
  | KeepOk => at_beat s (Parked (time s) every) [KeptAt (time s) k]
  | KeepRetry => at_beat s (Parked (time s) HEARTBEAT_RETRY_WAIT) [KeptAt (time s) k]
  | Abort =>
      {| beat_thread := Ended; job_thread := job_thread s; messages := messages s; lost := true; time := time s;
         events := KeptAt (time s) k :: events s |}
  end.

(** [recv_timeout] answers a message before anything else, then the disconnect, and times
    out only when neither is there. *)
Inductive beat_step : Lease -> Lease -> Prop :=
| beat_message s since wait n : beat_thread s = Parked since wait -> messages s = S n ->
    beat_step s {| beat_thread := Ended; job_thread := job_thread s; messages := n; lost := lost s; time := time s;
                   events := events s |}
| beat_disconnected s since wait : beat_thread s = Parked since wait -> messages s = 0%nat -> job_thread s <> Working ->
    beat_step s (at_beat s Ended [])
| beat_timeout s since wait : beat_thread s = Parked since wait -> messages s = 0%nat -> job_thread s = Working ->
    since + wait <= time s -> beat_step s (at_beat s Asking [BeatAt (time s)])
| beat_answered s r k : beat_thread s = Asking -> after_heartbeat r = Settled k -> beat_step s (kept s k)
| beat_gone s r : beat_thread s = Asking -> after_heartbeat r = ToReclaim -> beat_step s (at_beat s Reclaiming [])
| beat_reclaimed s r : beat_thread s = Reclaiming -> beat_step s (kept s (after_reclaim r)).

(** [HeartbeatGuard::stop] - a message to a thread that has ended goes nowhere - and [drop]. *)
Inductive job_step : Lease -> Lease -> Prop :=
| job_stop s : job_thread s = Working ->
    job_step s {| beat_thread := beat_thread s; job_thread := Working;
                  messages := match beat_thread s with Ended => messages s | _ => S (messages s) end;
                  lost := lost s; time := time s; events := StopSent :: events s |}
| job_drop s : job_thread s = Working ->
    job_step s {| beat_thread := beat_thread s; job_thread := Joining; messages := messages s; lost := lost s;
                  time := time s; events := SenderDropped :: events s |}
| job_join s : job_thread s = Joining -> beat_thread s = Ended ->
    job_step s {| beat_thread := Ended; job_thread := Joined; messages := messages s; lost := lost s;
                  time := time s; events := ThreadJoined :: events s |}.

Inductive lease_step : Lease -> Lease -> Prop :=
| lease_beat s s' : beat_step s s' -> lease_step s s'
| lease_job s s' : job_step s s' -> lease_step s s'
| lease_clock s t : time s <= t ->
    lease_step s {| beat_thread := beat_thread s; job_thread := job_thread s; messages := messages s; lost := lost s;
                    time := t; events := events s |}.

Definition spawned (s : Lease) : Prop := exists now, s = spawn_heartbeat now.
End Heartbeat.

(** ** What every moment of a lease satisfies *)

Section Held.
Context (every start : Z).

Notation step := (lease_step every).
Notation held s := (reachable (fun x => x = spawn_heartbeat every start) step s).

(** When the next beat is due, by what the last one was told. *)
Fixpoint due (es : list BeatEvent) : Z :=
  match es with
  | [] => start + every
  | KeptAt t KeepOk :: _ => t + every
  | KeptAt t KeepRetry :: _ => t + HEARTBEAT_RETRY_WAIT
  | _ :: es => due es
  end.

Definition closes (e : BeatEvent) : Prop := e = StopSent \/ e = SenderDropped.

Definition beats_end (es : list BeatEvent) : Prop :=
  forall post e pre t, es = post ++ e :: pre -> closes e -> BeatAt t ∉ post.

Definition beats_are_due (es : list BeatEvent) : Prop :=
  forall post t pre, es = post ++ BeatAt t :: pre -> due pre <= t.

Record Inv (s : Lease) : Prop := {
  inv_joined : job_thread s = Joined -> beat_thread s = Ended;
  inv_dropped : SenderDropped ∈ events s -> job_thread s <> Working;
  inv_stopped : StopSent ∈ events s -> messages s <> 0%nat \/ job_thread s <> Working \/ beat_thread s = Ended;
  inv_lost : lost s = true <-> exists t, KeptAt t Abort ∈ events s;
  inv_due : forall since wait, beat_thread s = Parked since wait -> due (events s) = since + wait;
  inv_end : beats_end (events s);
  inv_rhythm : beats_are_due (events s);
}.

Lemma beats_end_cons e es :
  beats_end es -> (forall t e', e = BeatAt t -> closes e' -> e' ∉ es) -> beats_end (e :: es).
Proof.
  intros Hes He [|e0 post] e' pre t E Hc; [by intros ?%not_elem_of_nil|]. injection E as <- E.
  intros [Et|Ht]%elem_of_cons; [|by eapply Hes in Ht]. apply (He t e' (eq_sym Et) Hc).
  rewrite E. apply elem_of_app. right. by left.
Qed.

Lemma beats_due_cons e es :
  beats_are_due es -> (forall t, e = BeatAt t -> due es <= t) -> beats_are_due (e :: es).
Proof.
  intros Hes He [|e0 post] t pre E; [by injection E as -> <-; apply He|]. injection E as <- E. by eapply Hes.
Qed.

(** A step that adds an event which is no beat. *)
Lemma inv_event s b j n l t e :
  Inv s -> (forall u, e <> BeatAt u) -> (j = Joined -> b = Ended) ->
  (SenderDropped ∈ e :: events s -> j <> Working) ->
  (StopSent ∈ e :: events s -> n <> 0%nat \/ j <> Working \/ b = Ended) ->
  (l = true <-> exists t, KeptAt t Abort ∈ e :: events s) ->
  (forall since wait, b = Parked since wait -> due (e :: events s) = since + wait) ->
  Inv {| beat_thread := b; job_thread := j; messages := n; lost := l; time := t; events := e :: events s |}.
Proof.
  intros HI He ? ? ? ? ?. constructor; cbn [beat_thread job_thread messages lost events]; try done.
  - apply beats_end_cons; [apply (inv_end _ HI)|]. intros u e' E. by apply He in E.
  - apply beats_due_cons; [apply (inv_rhythm _ HI)|]. intros u E. by apply He in E.
Qed.

Lemma lost_by s e : Inv s -> (forall u, e <> KeptAt u Abort) ->
  lost s = true <-> exists t, KeptAt t Abort ∈ e :: events s.
Proof.
  intros HI He. rewrite (inv_lost _ HI). split; intros [t Ht]; exists t; [by right|].
  apply elem_of_cons in Ht as [E|]; [|done]. by apply eq_sym, He in E.
Qed.

Lemma kept_inv s k : Inv s -> beat_thread s <> Ended -> Inv (kept every s k).
Proof.
  intros HI Hb. assert (Hj : job_thread s <> Joined) by (intros Ej; by apply Hb, (inv_joined _ HI)).
  assert (Hs : StopSent ∈ KeptAt (time s) k :: events s -> messages s <> 0%nat \/ job_thread s <> Working).
  { intros [|[?|[?|?]]%(inv_stopped _ HI)]%elem_of_cons; [done|auto..|done]. }
  assert (Hd : SenderDropped ∈ KeptAt (time s) k :: events s -> job_thread s <> Working).
  { by intros [|?%(inv_dropped _ HI)]%elem_of_cons. }
  destruct k; apply inv_event; try done; try (by intros Hst; destruct (Hs Hst); auto); try (by apply lost_by).
  - by intros since wait [= <- <-].
  - split; [|done]. intros _. exists (time s). by left.
  - by intros since wait [= <- <-].
Qed.

Lemma beat_step_inv s s' : Inv s -> beat_step every s s' -> Inv s'.
Proof.
  intros HI Hs. destruct Hs as [s since wait n Hb Hn|s since wait Hb Hn Hj|s since wait Hb Hn Hj Ht|s r k Hb Hr|s r Hb Hr|s r Hb].
  - constructor; cbn [beat_thread job_thread messages lost events]; try apply HI; try done. by auto.
  - constructor; cbn; try apply HI; try done. by auto.
  - assert (Hst : StopSent ∉ events s).
    { intros [?|[?|?]]%(inv_stopped _ HI); congruence. }
    constructor; cbn [beat_thread job_thread messages lost events at_beat app].
    + by rewrite Hj.
    + intros [|?%(inv_dropped _ HI)]%elem_of_cons; done.
    + intros [|?]%elem_of_cons; done.
    + by apply lost_by.
    + done.
    + apply beats_end_cons; [apply (inv_end _ HI)|]. intros t e' _ [-> | ->]; [done|]. by intros ?%(inv_dropped _ HI).
    + apply beats_due_cons; [apply (inv_rhythm _ HI)|]. intros t [= <-]. by rewrite (inv_due _ HI _ _ Hb).
  - apply kept_inv; [done|]. by rewrite Hb.
  - constructor; cbn; try apply HI; try done.
    + intros Ej. apply (inv_joined _ HI) in Ej. congruence.
    + intros [?|[?|?]]%(inv_stopped _ HI); auto. congruence.
  - apply kept_inv; [done|]. by rewrite Hb.
Qed.

Lemma job_step_inv s s' : Inv s -> job_step s s' -> Inv s'.
Proof.
  intros HI Hs. destruct Hs as [s Hj|s Hj|s Hj Hb]; apply inv_event; try done; try (by apply lost_by); cbn [due].
  - intros [|?%(inv_dropped _ HI)]%elem_of_cons; done.
  - intros _. destruct (beat_thread s); auto.
  - by apply (inv_due _ HI).
  - auto.
  - by apply (inv_due _ HI).
  - auto.
Qed.

Lemma lease_inv s : held s -> Inv s.
Proof.
  apply reachable_invariant.
  - intros s0 ->. constructor; cbn; try done; try set_solver.
    + intros [|? ?] ? ? ? [=].
    + intros [|? ?] ? ? [=].
  - intros s1 s2 HI Hs. destruct Hs as [s1 s2 H|s1 s2 H|s1 t Ht]; [by eapply beat_step_inv|by eapply job_step_inv|].
    constructor; cbn; apply HI.
Qed.

(** Once joined nothing happens any more but time. *)
Lemma joined_stays s s' :
  Inv s -> job_thread s = Joined -> rtc step s s' -> events s' = events s /\ lost s' = lost s.
Proof.
  intros HI Hj Hs. assert (Hb : beat_thread s = Ended) by by apply (inv_joined _ HI).
  enough (events s' = events s /\ lost s' = lost s /\ job_thread s' = Joined /\ beat_thread s' = Ended) by naive_solver.
  clear HI. revert Hj Hb. induction Hs as [s|s s1 s' H _ IH]; intros Hj Hb; [done|].
  assert (events s1 = events s /\ lost s1 = lost s /\ job_thread s1 = Joined /\ beat_thread s1 = Ended) as (<- & <- & ? & ?);
    [|by apply IH].
  destruct H as [? ? H|? ? H|]; [destruct H; congruence|destruct H; congruence|done].
Qed.
(** ** The end of a lease *)

Definition acts (s s' : Lease) : Prop := beat_step every s s' \/ job_step s s'.

Definition to_end (b : BeatThread) : nat :=
  match b with Ended => 0 | Parked _ _ => 1 | Reclaiming => 2 | Asking => 3 end.

Definition left_to_do (s : Lease) : nat :=
  match job_thread s with Joined => 0 | _ => S (to_end (beat_thread s)) end.

Lemma joining_progress s :
  Inv s -> job_thread s = Joining ->
  (exists s', acts s s') /\
  forall s', acts s s' -> (left_to_do s' < left_to_do s)%nat /\ job_thread s' <> Working.
Proof.
  intros HI Hj. split.
  - destruct (beat_thread s) as [since wait| | |] eqn:Hb.
    + destruct (messages s) as [|n] eqn:Hn; eexists; left; [by eapply beat_disconnected; [..|rewrite Hj]|by eapply beat_message].
    + eexists. left. by apply (beat_answered every s (Ok tt) KeepOk).
    + eexists. left. by apply (beat_reclaimed every s (Ok tt)).
    + eexists. right. by apply job_join.
  - assert (Hk : forall k, beat_thread s = Asking \/ beat_thread s = Reclaiming ->
      (left_to_do (kept every s k) < left_to_do s)%nat /\ job_thread (kept every s k) <> Working).
    { intros k Hb. unfold left_to_do. destruct k, Hb as [Hb|Hb]; cbn; rewrite Hj, Hb; cbn; (split; [lia|done]). }
    intros s' [H|H].
    + destruct H as [s ? ? ? Hb|s ? ? Hb|s|s|s ? Hb|s]; try congruence; try (by apply Hk; auto);
        unfold left_to_do; cbn; rewrite Hj, Hb; cbn; (split; [lia|done]).
    + destruct H as [s|s|s ? Hb]; try congruence. unfold left_to_do. cbn. rewrite Hj. split; [lia|done].
Qed.

Lemma joined_rests s s' : Inv s -> job_thread s = Joined -> ~ acts s s'.
Proof.
  intros HI Hj. assert (Hb : beat_thread s = Ended) by by apply (inv_joined _ HI).
  intros [H|H]; destruct H; congruence.
Qed.

Lemma acts_inv s s' : Inv s -> acts s s' -> Inv s'.
Proof. intros HI [H|H]; [by eapply beat_step_inv|by eapply job_step_inv]. Qed.


(** C36: Dropping the guard always returns. From any moment of the drop, as long as the calls
    in flight are answered, the threads take at most four more steps, whichever they take,
    and can only come to rest with the thread joined. *)
Theorem dropping_the_guard_returns s n s' :
  held s -> job_thread s = Joining -> nsteps acts n s s' ->
  (n <= 4)%nat /\ (job_thread s' = Joined \/ exists s'', acts s' s'').
Proof.
  intros Hs%lease_inv Hj Hn.
  assert (Hgo : forall n s, Inv s -> job_thread s <> Working -> nsteps acts n s s' ->
    (n <= left_to_do s)%nat /\ (job_thread s' = Joined \/ exists s'', acts s' s'')).
  { clear. induction n as [|n IH]; intros s HI Hw H; inversion H as [|? ? s1 ? H1 H2]; subst.
    - split; [lia|]. destruct (job_thread s') eqn:Hj; [done|right|by left]. by apply joining_progress.
    - destruct (job_thread s) eqn:Hj; [done| |by eapply joined_rests in H1].
      destruct (joining_progress s HI Hj) as [_ Hp]. destruct (Hp s1 H1) as [Hl Hw1].
      destruct (IH s1) as [Hle He]; [by eapply acts_inv|done|done|]. split; [lia|done]. }
  destruct (Hgo n s Hs) as [Hle He]; [by rewrite Hj|done|]. split; [|done].
  etrans; [exact Hle|]. unfold left_to_do. rewrite Hj. destruct (beat_thread s); cbn; lia.
Qed.
End Held.

(** A lease of 20 s beats: one beat, which loses it, and the drop. *)
Module Run.
Definition every : Z := from_secs 20.

Definition after (t : Z) (b : BeatThread) (j : JobThread) (l : bool) (es : list BeatEvent) : Lease :=
  {| beat_thread := b; job_thread := j; messages := 0; lost := l; time := t; events := es |}.

Definition gone : MgmtError := HttpStatus (lit "PUT") (lit "heartbeat") 409 (lit "taken").

Notation held s := (reachable (fun x => x = spawn_heartbeat every 0) (lease_step every) s).

Lemma beating : held (after every Asking Working false [BeatAt every]).
Proof.
  eapply reach_step; [eapply reach_step; [by apply reach_init|by apply (lease_clock _ _ every)]|].
  apply lease_beat. by apply (beat_timeout every (after every (Parked 0 every) Working false []) 0 every).
Qed.

Lemma lost_then_dropped :
  held (after every Ended Joining true [SenderDropped; KeptAt every Abort; BeatAt every]).
Proof.
  eapply reach_step; [eapply reach_step; [exact beating|]|].
  - apply lease_beat. by apply (beat_answered every _ (Err gone) Abort).
  - apply lease_job. by apply (job_drop (after every Ended Working true [KeptAt every Abort; BeatAt every])).
Qed.

Lemma joined :
  held (after every Ended Joined true [ThreadJoined; SenderDropped; KeptAt every Abort; BeatAt every]).
Proof. eapply reach_step; [exact lost_then_dropped|]. apply lease_job. by apply (job_join (after every Ended Joining true _)). Qed.
End Run.


Lemma dropping_the_guard_returns_witness :
  exists s', reachable (fun s => s = spawn_heartbeat Run.every 0) (lease_step Run.every) s' /\
    job_thread s' = Joining /\ (job_thread s' = Joined \/ exists s'', acts Run.every s' s'').
Proof.
  eexists. split; [exact Run.lost_then_dropped|]. split; [done|].
  by apply (dropping_the_guard_returns Run.every 0 _ 0 _ Run.lost_then_dropped); [|constructor].
Defined.
