(* ===== verification/ProxyApp.v ===== *)
(** * The proxy and the app ([app/mod.rs], [app/console.rs], [app/verbs.rs])

    What the app's console says and how a launch is ended: the sentinel, the engine's time,
    the engine's failure, the watchdog, the one relaunch of a silent launch, and the short
    verbs whose output the proxy reads. *)

From Stdlib Require Import ZArith Lia String.
From stdpp Require Import prelude list.
From S2P Require Import Prelude Str Json ProxyBase.

Local Open Scope Z_scope.
Local Open Scope proxy_scope.

(** ** Strings *)

Definition i32_max : Z := 2 ^ 31 - 1.

(** [str::parse::<i32>]. *)
Definition parse_i32 (s : str) : option Z :=
  match s with
  | c :: s' =>
      if c =? 45 then
        match s' with
        | [] => None
        | _ => Z.opp <$> parse_digits (i32_max + 1) 0 s'
        end
      else parse_uint i32_max s
  | [] => None
  end.

Definition show_int (n : Z) : str := if n <? 0 then 45 :: show_uint (- n) else show_uint n.

(** [rposition]: around the last element a test selects. *)
Fixpoint split_last {A} (p : A -> bool) (l : list A) : option (list A * A * list A) :=
  match l with
  | [] => None
  | x :: l =>
      match split_last p l with
      | Some (before, y, after) => Some (x :: before, y, after)
      | None => if p x then Some ([], x, l) else None
      end
  end.

Fixpoint take_while {A} (p : A -> bool) (l : list A) : list A :=
  match l with
  | [] => []
  | x :: l => if p x then x :: take_while p l else []
  end.

Definition find_map {A B} (f : A -> option B) (l : list A) : option B := head (omap f l).

(** ** The console's contract *)

Definition HEADLESS_TOKEN : str := lit "headlessrun".
Definition SENTINEL : str := lit "BENCH_DONE".
Definition APP_LINE : str := lit "[HEADLESS] ".
Definition EXIT_MALFORMED : Z := 2.
Definition KILLED_BY_IOS : str := lit "App terminated due to signal 9.".
Definition CELL_FAILED : str := lit "[HEADLESS] error jobRun ".

Definition ENGINE_FAILED : list str :=
  [lit " failed: Engine error: "; lit " failed: Engine backend failed: ";
   lit "exceeded available device memory"].

Definition NOT_THE_CELLS : list str :=
  [lit "failed to open"; lit "failed to read magic"; lit "corrupted or incomplete";
   lit "Apple foundation model unavailable"].

Definition ENGINE_STARTED : str := lit "[HEADLESS] info jobRun dispatch: ".
Definition CORPUS_FETCH : str := lit "[HEADLESS] info corpus fetching a corpus: ".
Definition CORPUS_READY : str := lit "[HEADLESS] info corpus corpus for ".
Definition READINESS : str := lit "[HEADLESS] info jobRun readiness: ".

Definition ARROW : str := [32; 0x2192; 32].

Definition engine_failure (stderr : str) : option str :=
  match split_last (fun l => starts_with l CELL_FAILED) (map trim (lines stderr)) with
  | None => None
  | Some (before, line, after) =>
      let entry := filter (fun t => t <> [])
        (line :: take_while (fun next => negb (starts_with next APP_LINE)) after) in
      let the_cells :=
        existsb (fun l => starts_with l ENGINE_STARTED) before
        && existsb (contains line) ENGINE_FAILED
        && negb (existsb (fun text => existsb (contains text) NOT_THE_CELLS) entry) in
      if the_cells then Some (join (lit " | ") entry) else None
  end.

(** *** The engine's clock *)

Record EngineClock := { since : option Z; held_from : option Z; held : Z }.

Definition new_clock : EngineClock := {| since := None; held_from := None; held := 0 |}.

(** What a stderr line says of the engine. *)
Inductive Tick := Dispatched | HoldBegins | HoldEnds | NoTick.

Definition tick_of (line : str) : Tick :=
  let line := trim line in
  let readiness := starts_with line READINESS in
  if starts_with line ENGINE_STARTED then Dispatched
  else if starts_with line CORPUS_FETCH || (readiness && contains line (ARROW ++ lit "waiting "))
  then HoldBegins
  else if starts_with line CORPUS_READY
          || (readiness && (contains line (ARROW ++ lit "proceeding")
                            || contains line (ARROW ++ lit "timed out")))
  then HoldEnds
  else NoTick.

Definition held_since (c : EngineClock) (at_ : Z) : Z :=
  match held_from c with
  | Some from => sat_sub at_ from
  | None => 0
  end.

Definition clock_line (c : EngineClock) (line : str) (at_ : Z) : EngineClock :=
  match tick_of line with
  | Dispatched => {| since := Some at_; held_from := None; held := 0 |}
  | HoldBegins =>
      {| since := since c; held_from := Some (default at_ (held_from c)); held := held c |}
  | HoldEnds => {| since := since c; held_from := None; held := held c + held_since c at_ |}
  | NoTick => c
  end.

Definition clock_time (c : EngineClock) (at_ : Z) : option Z :=
  match since c with
  | Some from => Some (sat_sub (sat_sub at_ from) (held c + held_since c at_))
  | None => None
  end.

(** [drain_stderr]: the clock over the lines as they came, read when the stream closes. *)
Definition drained_clock (l : list (str * Z)) (closed : Z) : option Z :=
  clock_time (foldl (fun c p => clock_line c p.1 p.2) new_clock l) closed.

(** *** The sentinel *)

Definition sentinel_in_line (line : str) : option Z :=
  match split_once_at SENTINEL line with
  | None => None
  | Some (_, after) =>
      match split_whitespace after with
      | [] => Some 0
      | token :: _ => parse_i32 token
      end
  end.

Definition scan_sentinel (stream : str) : option Z := last (omap sentinel_in_line (lines stream)).

Definition succeeded (run : ConsoleRun) : bool :=
  match sentinel run with
  | Some status => status =? 0
  | None =>
      bool_decide (exit_code run = Some 0) && negb (timed_out run) && negb (aborted run)
      && negb (stopped run) && negb (silent run)
  end.

Definition killed_by_ios (run : ConsoleRun) : bool :=
  match sentinel run with
  | Some _ => false
  | None =>
      bool_decide (last (filter (fun l => l <> []) (map trim (lines (stdout run)))) = Some KILLED_BY_IOS)
  end.

(** ** The watchdog *)

Definition TERMINATE_GRACE : Z := from_secs 10.

(** One poll of the watchdog thread: the flags it reads, the time since the launch, and the
    time it has when it has signalled. *)
Record Poll := {
  poll_finished : bool;
  poll_abort : bool;
  poll_stop : bool;
  poll_spoke : bool;
  poll_at : Z;
  poll_after : Z;
}.

Inductive Reason := LeaseLost | StopAsked | SilentLaunch | DeadlineElapsed.

Definition ending (p : Poll) (deadline first_line : Z) : option Reason :=
  if poll_abort p then Some LeaseLost
  else if poll_stop p then Some StopAsked
  else if (first_line <=? poll_at p) && negb (poll_spoke p) then Some SilentLaunch
  else if deadline <=? poll_at p then Some DeadlineElapsed
  else None.

(** The thread's variables, with the reason whose flag [ending] raised. *)
Record Watch := { signalled : option Z; backstopped : bool; verdict : option Reason }.

Definition watching : Watch := {| signalled := None; backstopped := false; verdict := None |}.

Inductive WatchAct := SendSigterm | TerminateOnDevice.

Definition watch_poll (deadline first_line : Z) (s : Watch) (p : Poll) : list WatchAct * Watch :=
  match signalled s with
  | None =>
      match ending p deadline first_line with
      | Some reason =>
          ([SendSigterm],
           {| signalled := Some (poll_after p); backstopped := backstopped s; verdict := Some reason |})
      | None => ([], s)
      end
  | Some at_ =>
      if negb (backstopped s) && (TERMINATE_GRACE <=? sat_sub (poll_at p) at_) then
        ([TerminateOnDevice],
         {| signalled := signalled s; backstopped := true; verdict := verdict s |})
      else ([], s)
  end.

(** Over the polls it makes, until the launch has finished. *)
Fixpoint watchdog (deadline first_line : Z) (s : Watch) (polls : list Poll) : list WatchAct * Watch :=
  match polls with
  | [] => ([], s)
  | p :: polls =>
      if poll_finished p then ([], s)
      else
        let '(acts, s) := watch_poll deadline first_line s p in
        let '(more, s) := watchdog deadline first_line s polls in
        (acts ++ more, s)
  end.

(** ** Launches *)

Definition reports_a_submission (line : str) : bool :=
  match split_once_at (lit "[HEADLESS] result cell=") line with
  | Some (_, fields) =>
      existsb (fun field => starts_with field (lit "submitted_as_job=")) (split_whitespace fields)
  | None => false
  end.

Record ListedResult := { listed_ref : ResultRef; listed_submitted : bool }.

Definition SUBMITTED_STATES : list str := [lit "submitted"; lit "scored"].

Definition wire (r : ResultRef) : str := ref_job_id r ++ lit "/" ++ ref_cell_id r.

Definition parse_result_value (raw : str) : option ResultRef :=
  match split_at 47 [] raw with
  | [job_id; cell_id] =>
      match job_id, cell_id with
      | [], _ | _, [] => None
      | _, _ => Some {| ref_job_id := job_id; ref_cell_id := cell_id |}
      end
  | _ => None
  end.

Definition line_field (line key : str) : option str :=
  find_map (strip_prefix key) (split_whitespace line).

Definition parse_result_line (line : str) : option ListedResult :=
  match line_field line (lit "result=") ≫= parse_result_value with
  | None => None
  | Some result =>
      Some {| listed_ref := result;
              listed_submitted :=
                match line_field line (lit "state=") with
                | Some state => existsb (str_eqb state) SUBMITTED_STATES
                | None => false
                end |}
  end.

Definition parse_listed_results (stdout : str) : list ListedResult :=
  omap parse_result_line (lines stdout).

Definition VERSION_FIELD : str := lit "client_version=".
Definition THERMAL_FIELD : str := lit " private_thermal=".

Definition version_in_line (line : str) : option str :=
  match split_once_at VERSION_FIELD line with
  | None => None
  | Some (_, rest) =>
      non_empty (trim (match split_once_at THERMAL_FIELD rest with
                       | Some (value, _) => value
                       | None => rest
                       end))
  end.

Definition parse_app_version (stdout : str) : option str := find_map version_in_line (lines stdout).

Definition client_in_line (line : str) : option str :=
  match split_once_at (lit "auth me client_id=") line with
  | None => None
  | Some (_, rest) => head (split_whitespace rest) ≫= non_empty
  end.

Definition parse_local_client_id (stdout : str) : option str := find_map client_in_line (lines stdout).

Definition outcome (run : ConsoleRun) : str :=
  (match sentinel run, exit_code run with
   | Some status, _ => SENTINEL ++ lit " " ++ show_int status
   | None, Some code => lit "no " ++ SENTINEL ++ lit " and devicectl exited " ++ show_int code
   | None, None => lit "no " ++ SENTINEL ++ lit " and devicectl was killed by a signal"
   end)
  ++ (if timed_out run then lit ", after our own deadline elapsed" else [])
  ++ (if aborted run then lit ", after the lease was lost" else [])
  ++ (if stopped run then lit ", after the process was asked to stop" else [])
  ++ (if silent run
      then lit ", after the app printed nothing by the first-line deadline, twice" else []).

Definition verb_failed (verb : str) (run : ConsoleRun) : Error :=
  bail (lit "`" ++ HEADLESS_TOKEN ++ lit " " ++ verb ++ lit "` failed: " ++ outcome run).

(** What the JSON and plan-types crates give: the first document a text begins with, and
    where it ends; and a runtime's descriptor, read and compared. *)
Class RuntimeTypes := {
  Runtime : Type;
  Runtime_eq_dec :: EqDecision Runtime;
  runtime_from_str : str -> result Runtime str;
  headless_token : Runtime -> str;
  first_document : str -> option (result Value str);
  document_end : str -> option Z;
}.

Section Console.
Context {St W : Type} `{DeviceControl W} `{ProxyHost W}.

(** [signals.raised()], of a run's signals or of a verb's, which nothing raises. *)
Definition raised (watched : bool) : prog St W bool :=
  if watched then
    do lost <- io lost_raised;
    if lost then ret true else io stop_raised
  else ret false.

Definition set_stopped (run : ConsoleRun) : ConsoleRun :=
  {| stdout := stdout run; stderr := stderr run; sentinel := sentinel run;
     exit_code := exit_code run; timed_out := timed_out run; engine_time := engine_time run;
     aborted := aborted run; stopped := true; silent := silent run |}.

Definition relaunch_if_silent (watched : bool) (launch : prog St W (result ConsoleRun Error))
    : prog St W (result ConsoleRun Error) :=
  do? run <- launch;
  if negb (silent run) then ret (Ok run)
  else
    do up <- raised watched;
    if up then ret (Ok (set_stopped run)) else launch.

(** A submission the app reports stops the heartbeat. *)
Fixpoint forward (l : list str) : prog St W unit :=
  match l with
  | [] => ret tt
  | line :: l =>
      do _ <- (if reports_a_submission line then io_ heartbeat_stop else ret tt);
      forward l
  end.

Definition run_benchmark (bundle : str) (app_args : list str) (run_timeout first_line : Z)
    : prog St W (result ConsoleRun Error) :=
  relaunch_if_silent true
    (do answer <- io (launch_console
       {| launch_bundle := bundle; launch_args := app_args; launch_deadline := run_timeout;
          launch_first_line := first_line; launch_sentinel := OnStdout; launch_watched := true |});
     do _ <- forward answer.1;
     ret answer.2).

Definition run_verb (bundle : str) (verb : list str) (timeout first_line : Z) (on : SentinelStream)
    : prog St W (result ConsoleRun Error) :=
  relaunch_if_silent false
    (do answer <- io (launch_console
       {| launch_bundle := bundle; launch_args := HEADLESS_TOKEN :: verb; launch_deadline := timeout;
          launch_first_line := first_line; launch_sentinel := on; launch_watched := false |});
     ret answer.2).

Definition list_results (bundle : str) (timeout first_line : Z)
    : prog St W (result (list ListedResult) Error) :=
  do? run <- run_verb bundle [lit "results"; lit "list"] timeout first_line OnStdout;
  ret (if succeeded run then Ok (parse_listed_results (stdout run))
       else Err (verb_failed (lit "results list") run)).

Definition delete_result (bundle : str) (r : ResultRef) (timeout first_line : Z)
    : prog St W (result unit Error) :=
  let argument := lit "result=" ++ wire r in
  do? run <- run_verb bundle [lit "results"; lit "delete"; argument] timeout first_line OnStdout;
  ret (if succeeded run then Ok tt
       else Err (verb_failed (lit "results delete " ++ argument) run)).

Definition app_version (bundle : str) (timeout first_line : Z) : prog St W (result (option str) Error) :=
  do? run <- run_verb bundle [lit "version"] timeout first_line OnStdout;
  ret (if succeeded run then Ok (parse_app_version (stdout run))
       else Err (verb_failed (lit "version") run)).

Definition local_client_id (bundle : str) (timeout first_line : Z) : prog St W (result str Error) :=
  do? run <- run_verb bundle [lit "auth"; lit "me"; lit "local=1"] timeout first_line OnStdout;
  ret (if succeeded run then
         match parse_local_client_id (stdout run) with
         | Some id => Ok id
         | None => Err (bail (lit "`" ++ HEADLESS_TOKEN ++
             lit " auth me local=1` failed: the app printed no client_id"))
         end
       else Err (verb_failed (lit "auth me local=1") run)).

Context `{RuntimeTypes}.

(** The text from the start of each line on. *)
Fixpoint from_each_line (at_start : bool) (s : str) : list str :=
  match s with
  | [] => if at_start then [[]] else []
  | c :: s' => (if at_start then [s] else []) ++ from_each_line (c =? 10) s'
  end.

Fixpoint trim_blanks (s : str) : str :=
  match s with
  | c :: s' => if (c =? 32) || (c =? 9) then trim_blanks s' else s
  | [] => []
  end.

Definition first_json_document (stdout : str) : result Value Error :=
  match trim stdout with
  | [] => Err (bail (lit "the phone printed nothing on stdout"))
  | _ =>
      let no_document := bail (lit "the phone's stdout held no line opening a JSON document") in
      match head (filter (fun rest => starts_with (trim_blanks rest) (lit "{") = true)
                    (from_each_line true stdout)) with
      | None => Err no_document
      | Some document =>
          match first_document document with
          | Some (Ok v) => Ok v
          | Some (Err e) =>
              Err (with_context (lit "the phone's stdout did not hold a whole JSON document") (bail e))
          | None => Err no_document
          end
      end
  end.

Definition show_result (bundle : str) (r : ResultRef) (timeout first_line : Z)
    : prog St W (result Value Error) :=
  let argument := lit "result=" ++ wire r in
  do? run <- run_verb bundle [lit "results"; lit "show"; argument] timeout first_line OnStderr;
  ret (if succeeded run then
         in_context (lit "reading the payload the phone printed for " ++ argument)
           (first_json_document (stdout run))
       else Err (verb_failed (lit "results show " ++ argument) run)).

Record RuntimeListing := { runtimes : list Runtime; unreadable : list str }.

Definition RUNTIME_ROW : str := lit "[HEADLESS] runtime ".
Definition DESCRIPTOR_FIELD : str := lit "descriptor=".

Definition leading_json (text : str) : str :=
  let end_ := default (str_len text) (document_end text) in
  trim (match split_at_checked end_ text with
        | Some (a, _) => a
        | None => text
        end).

Definition runtime_row (line : str) : str :=
  match split_once_at DESCRIPTOR_FIELD line with
  | Some (_, rest) => leading_json rest
  | None => trim line
  end.

Definition list_row (l : RuntimeListing) (raw : str) : RuntimeListing :=
  match runtime_from_str raw with
  | Ok r => {| runtimes := runtimes l ++ [r]; unreadable := unreadable l |}
  | Err _ => {| runtimes := runtimes l; unreadable := unreadable l ++ [raw] |}
  end.

Definition parse_runtime_listing (stdout : str) : RuntimeListing :=
  foldl list_row {| runtimes := []; unreadable := [] |}
    (map runtime_row (filter (fun line => contains line RUNTIME_ROW = true) (lines stdout))).

Definition list_runtimes (bundle : str) (timeout first_line : Z)
    : prog St W (result RuntimeListing Error) :=
  do? run <- run_verb bundle [lit "runtimes"; lit "list"] timeout first_line OnStdout;
  ret (if succeeded run then Ok (parse_runtime_listing (stdout run))
       else
         match sentinel run with
         | Some _ =>
             Err (error_at (RuntimesListFailed (outcome run))
               (lit "`" ++ HEADLESS_TOKEN ++ lit " runtimes list` failed on the phone: " ++ outcome run))
         | None => Err (verb_failed (lit "runtimes list") run)
         end).
End Console.

(** ** The engine's time

    The time the engine had, told directly: from the last dispatch on, every stretch between
    two lines that was not inside a corpus fetch or a readiness wait. *)

Fixpoint engine_ran (holding : bool) (from : Z) (l : list (Tick * Z)) (closed : Z) : Z :=
  match l with
  | [] => if holding then 0 else closed - from
  | (k, t) :: l =>
      (if holding then 0 else t - from) +
      engine_ran (match k with HoldBegins => true | HoldEnds => false | Dispatched | NoTick => holding end)
        t l closed
  end.

Fixpoint engine_had (l : list (Tick * Z)) (closed : Z) : option Z :=
  match l with
  | [] => None
  | (k, t) :: l =>
      match engine_had l closed, k with
      | Some time, _ => Some time
      | None, Dispatched => Some (engine_ran false t l closed)
      | None, (HoldBegins | HoldEnds | NoTick) => None
      end
  end.

(** Lines arrive in the order of their times, and the stream closes after them. *)
Fixpoint in_order (from : Z) (l : list (Tick * Z)) (closed : Z) : Prop :=
  match l with
  | [] => from <= closed
  | (_, t) :: l => from <= t /\ in_order t l closed
  end.

Lemma in_order_le from l closed : in_order from l closed -> from <= closed.
Proof. revert from. induction l as [|[k t] l IH]; cbn; [done|]. intros from [? ?%IH]. lia. Qed.

(** What the clock holds at an instant, and that it is a time. *)
Definition clock_value (c : EngineClock) (from at_ : Z) : Z :=
  at_ - from - (held c + held_since c at_).

Definition clock_ok (c : EngineClock) (now : Z) : Prop :=
  match since c with
  | None => True
  | Some from =>
      from <= now /\ 0 <= held c /\
      match held_from c with
      | Some f => from + held c <= f <= now
      | None => from + held c <= now
      end
  end.

Definition holding (c : EngineClock) : bool :=
  match held_from c with Some _ => true | None => false end.

Definition ticks (l : list (str * Z)) : list (Tick * Z) := map (fun p => (tick_of p.1, p.2)) l.

Lemma clock_fold l c now closed :
  clock_ok c now -> in_order now (ticks l) closed ->
  clock_time (foldl (fun c p => clock_line c p.1 p.2) c l) closed =
    match engine_had (ticks l) closed with
    | Some time => Some time
    | None =>
        match since c with
        | Some from => Some (clock_value c from now + engine_ran (holding c) now (ticks l) closed)
        | None => None
        end
    end.
Proof.
  revert c now. induction l as [|[line t] l IH]; intros c now Hok Hord; cbn [ticks map foldl fst snd] in *.
  - cbn [engine_had engine_ran]. unfold clock_time, clock_ok, clock_value, holding, held_since in *. cbn in Hord.
    destruct (since c) as [from|]; [|done]. f_equal. unfold sat_sub.
    destruct (held_from c); lia.
  - destruct Hord as [Hle Hord]. pose proof (in_order_le _ _ _ Hord) as Hcl.
    fold (ticks l) in *. cbn [engine_had engine_ran].
    assert (clock_ok (clock_line c line t) t) as Hok'.
    { unfold clock_ok, clock_line, held_since in *. destruct (tick_of line); cbn.
      - lia.
      - destruct (since c); [|done]. destruct (held_from c); cbn; lia.
      - destruct (since c); [|done]. destruct (held_from c); unfold sat_sub; lia.
      - destruct (since c); [|done]. destruct (held_from c); lia. }
    rewrite (IH _ t Hok' Hord). destruct (engine_had (ticks l) closed) as [time|]; [done|].
    unfold clock_line, clock_value, holding, held_since, clock_ok in *.
    destruct (tick_of line); cbn [since held held_from].
    + f_equal. lia.
    + destruct (since c) as [from|]; [|done]. destruct (held_from c); cbn; f_equal; unfold sat_sub; lia.
    + destruct (since c) as [from|]; [|done]. destruct (held_from c); f_equal; unfold sat_sub; lia.
    + destruct (since c) as [from|]; [|done]. destruct (held_from c); f_equal; unfold sat_sub; lia.
Qed.

(** ** The watchdog's run *)

(** The first poll at which there was a reason to end the launch, with the polls after it. *)
Fixpoint first_ending (deadline first_line : Z) (polls : list Poll) : option (Poll * Reason * list Poll) :=
  match polls with
  | [] => None
  | p :: polls =>
      if poll_finished p then None
      else match ending p deadline first_line with
           | Some reason => Some (p, reason, polls)
           | None => first_ending deadline first_line polls
           end
  end.

(** Whether a poll came ten seconds after the signal, with the launch still running. *)
Fixpoint outlasts (at_ : Z) (polls : list Poll) : bool :=
  match polls with
  | [] => false
  | p :: polls =>
      if poll_finished p then false
      else if TERMINATE_GRACE <=? sat_sub (poll_at p) at_ then true else outlasts at_ polls
  end.

Lemma watchdog_quiet deadline first_line at_ v polls :
  watchdog deadline first_line {| signalled := Some at_; backstopped := true; verdict := v |} polls =
    ([], {| signalled := Some at_; backstopped := true; verdict := v |}).
Proof. induction polls as [|p polls IH]; cbn; [done|]. destruct (poll_finished p); [done|]. by rewrite IH. Qed.

Lemma watchdog_signalled deadline first_line at_ v polls :
  watchdog deadline first_line {| signalled := Some at_; backstopped := false; verdict := v |} polls =
    (if outlasts at_ polls then [TerminateOnDevice] else [],
     {| signalled := Some at_; backstopped := outlasts at_ polls; verdict := v |}).
Proof.
  induction polls as [|p polls IH]; cbn; [done|]. destruct (poll_finished p); [done|].
  unfold watch_poll. cbn. destruct (TERMINATE_GRACE <=? _).
  - by rewrite watchdog_quiet.
  - by rewrite IH.
Qed.

(** ** Theorems *)

(** The time the proxy takes off the app's stderr is the time the engine had the cell:
    from the last dispatch to the end of the stream, less the corpus fetches and readiness
    waits in between, and none before a dispatch. *)
Theorem engine_clock_measures (l : list (str * Z)) (closed : Z) :
  match l with [] => True | p :: _ => in_order p.2 (ticks l) closed end ->
  drained_clock l closed = engine_had (ticks l) closed.
Proof.
  intros Hord. unfold drained_clock. destruct l as [|p l]; [done|].
  rewrite (clock_fold (p :: l) new_clock p.2 closed) by done. by destruct (engine_had _ _).
Qed.

Lemma engine_clock_measures_witness :
  let l := [(lit "[HEADLESS] info jobRun dispatch: go", from_secs 5);
            (lit "[HEADLESS] info jobRun readiness: 41C" ++ ARROW ++ lit "waiting 1.8s", from_secs 7);
            (lit "[HEADLESS] info jobRun readiness: 38C" ++ ARROW ++ lit "proceeding", from_secs 17)] in
  in_order (from_secs 5) (ticks l) (from_secs 20) /\
  drained_clock l (from_secs 20) = engine_had (ticks l) (from_secs 20) /\
  engine_had (ticks l) (from_secs 20) = Some (from_secs 5).
Proof.
  cbv zeta.
  match goal with |- ?P /\ _ => assert P as Ho by (vm_compute; repeat split; congruence) end.
  split_and!; [exact Ho| |vm_compute; reflexivity].
  apply engine_clock_measures. exact Ho.
Defined.

(** The watchdog ends a launch at the first poll with a reason to, and for that reason
    alone: a lost lease before a stop, a stop before silence, silence before the deadline,
    and silence only when the app had printed nothing by then. It sends one SIGTERM, then at
    most one terminate on the device, no sooner than ten seconds later and only if the launch
    is still running; a launch that finishes first is left alone. *)
Theorem watchdog_ends_launches (deadline first_line : Z) (polls : list Poll) :
  match first_ending deadline first_line polls with
  | None => watchdog deadline first_line watching polls = ([], watching)
  | Some (p, reason, rest) =>
      watchdog deadline first_line watching polls =
        (SendSigterm :: (if outlasts (poll_after p) rest then [TerminateOnDevice] else []),
         {| signalled := Some (poll_after p); backstopped := outlasts (poll_after p) rest;
            verdict := Some reason |}) /\
      poll_finished p = false /\
      match reason with
      | LeaseLost => poll_abort p = true
      | StopAsked => poll_abort p = false /\ poll_stop p = true
      | SilentLaunch =>
          poll_abort p = false /\ poll_stop p = false /\ poll_spoke p = false /\ first_line <= poll_at p
      | DeadlineElapsed =>
          poll_abort p = false /\ poll_stop p = false /\ deadline <= poll_at p /\
          (poll_spoke p = true \/ poll_at p < first_line)
      end
  end.
Proof.
  induction polls as [|p polls IH]; cbn; [done|].
  destruct (poll_finished p) eqn:Ef; [done|]. unfold watch_poll. cbn.
  destruct (ending p deadline first_line) as [reason|] eqn:Ee.
  - rewrite watchdog_signalled. split_and!; [done|done|]. unfold ending in Ee.
    destruct (poll_abort p) eqn:Ea; [by simplify_eq|]. destruct (poll_stop p) eqn:Es; [by simplify_eq|].
    destruct ((first_line <=? poll_at p) && negb (poll_spoke p)) eqn:E1; [simplify_eq; by bool_to_prop|].
    destruct (deadline <=? poll_at p) eqn:E2; [|done]. simplify_eq. bool_to_prop. split_and!; [done..|].
    destruct (poll_spoke p); [by left|]. right. rewrite andb_true_r in E1. by bool_to_prop.
  - destruct (first_ending deadline first_line polls) as [[[q reason] rest]|].
    + destruct IH as (-> & ? & ?). by split_and!.
    + by rewrite IH.
Qed.
