(* ===== verification/ProxyLaunch.v ===== *)
(** * A claim as the app's arguments ([app/launch.rs])

    The proxy turns a claim into the arguments of one launch, or refuses it for good. What
    the JSON and plan-types crates give is the class [LaunchTexts]. *)

From Stdlib Require Import ZArith Lia String.
From stdpp Require Import prelude list.
From S2P Require Import Prelude Str Json Protocol ProxyBase ProxyApp.

Local Open Scope Z_scope.
Local Open Scope rust_scope.

Definition SPEC_BENCHMARK : str := lit "benchmark".
Definition SPEC_MODEL : str := lit "model".
Definition SPEC_RUNTIME : str := lit "runtime".
Definition SPEC_RUNTIME_FLAGS : str := lit "runtime_flags".
Definition SPEC_BENCHMARK_FLAGS : str := lit "benchmark_flags".
Definition RUNTIME_TYPE_APPLE_FOUNDATION : str := lit "apple_foundation".
Definition SUBMIT_ON : str := lit "submit=1".
Definition CLAIM_KEY : str := lit "claim".

Definition FLAGS_AXIS_KEYS : list str :=
  [lit "runtime_type"; lit "model_type"; lit "benchmark_type"].

Inductive UnrunnableClaimError :=
| MissingSpec
| SpecNotAnObject
| MissingRuntime
| UnreadableRuntime (error : str)
| MissingBenchmark
| BenchmarkMismatch (spec envelope : str)
| UnsupportedKey (key : str)
| FlagsNotAnObject (group : str)
| FlagsForAnotherCell (group axis named runs : str).

(** [serde_json::to_string] of a value, and the type a benchmark id's prefix names. *)
Class LaunchTexts := {
  compact_json : Value -> option str;
  benchmark_type_from_id : str -> option str;
}.

Definition is_object (v : Value) : bool := match v with Object _ => true | _ => false end.

Definition as_object (v : Value) : option (list (str * Value)) :=
  match v with Object fields => Some fields | _ => None end.

(** [Option::ok_or]. *)
Definition ok_or {T E} (o : option T) (e : E) : result T E :=
  match o with Some t => Ok t | None => Err e end.

(** A field that is there and not [null]. *)
Definition present (key : str) (fields : list (str * Value)) : option Value :=
  v ← assoc key fields; if is_null v then None else Some v.

Definition type_tag (v : Value) : option str := t ← get (lit "type") v; as_str t.

Definition is_axis (key : str) : bool := existsb (str_eqb key) FLAGS_AXIS_KEYS.

Definition interpretable (key : str) (value : Value) : bool :=
  existsb (str_eqb key)
    [SPEC_BENCHMARK; SPEC_MODEL; SPEC_RUNTIME; SPEC_RUNTIME_FLAGS; SPEC_BENCHMARK_FLAGS]
  || is_null value.

Section Launch.
Context `{LT : LaunchTexts} `{RT : RuntimeTypes}.

Record LaunchPlan := { app_args : list str; runtime_json : str; plan_runtime : Runtime }.

(** The first axis that names another cell than the claim's. *)
Definition axis_mismatch (entry : list (str * Value)) (axis : str) (runs : option str)
    : option (str * Value * str) :=
  named ← assoc axis entry; runs ← runs;
  if bool_decide (as_str named = Some runs) then None else Some (axis, named, runs).

Definition group_knobs (spec : list (str * Value)) (group : str) (cell : list (option str))
    : result (option (list (str * Value))) UnrunnableClaimError :=
  match present group spec with
  | None => Ok None
  | Some flags =>
      let? entry := ok_or (as_object flags) (FlagsNotAnObject group) in
      match find_map (fun p => axis_mismatch entry p.1 p.2) (zip FLAGS_AXIS_KEYS cell) with
      | Some (axis, named, runs) =>
          Err (FlagsForAnotherCell group axis (default [] (compact_json named)) runs)
      | None => Ok (Some (filter (fun p => is_axis p.1 = false) entry))
      end
  end.

Definition flag_arg (name : str) (knobs : option (list (str * Value))) : list str :=
  match k ← knobs; compact_json (Object k) with
  | Some text => [name ++ lit "=" ++ text]
  | None => []
  end.

Definition launch_plan_from_claim (job : ClaimedJob) : result LaunchPlan UnrunnableClaimError :=
  if is_null (spec job) then Err MissingSpec
  else
    let? fields := ok_or (as_object (spec job)) SpecNotAnObject in
    match find (fun p => negb (interpretable p.1 p.2)) fields with
    | Some (key, _) => Err (UnsupportedKey key)
    | None =>
        let? runtime := ok_or (v ← assoc SPEC_RUNTIME fields; if is_object v then Some v else None)
          MissingRuntime in
        let? runtime_json := ok_or (compact_json runtime) MissingRuntime in
        let? benchmark := ok_or (v ← assoc SPEC_BENCHMARK fields; b ← as_str v; non_empty b)
          MissingBenchmark in
        if negb (str_eqb benchmark (benchmark_id job)) then
          Err (BenchmarkMismatch benchmark (benchmark_id job))
        else
          let apple_foundation :=
            bool_decide (type_tag runtime = Some RUNTIME_TYPE_APPLE_FOUNDATION) in
          let model := present SPEC_MODEL fields in
          let? model_json :=
            match model with
            | Some model =>
                if apple_foundation then Ok None
                else let? text := ok_or (compact_json model) MissingRuntime in Ok (Some text)
            | None => if apple_foundation then Ok None else Err MissingRuntime
            end in
          let cell := [type_tag runtime; model ≫= type_tag; benchmark_type_from_id benchmark] in
          let? runtime_knobs := group_knobs fields SPEC_RUNTIME_FLAGS cell in
          let? benchmark_knobs := group_knobs fields SPEC_BENCHMARK_FLAGS cell in
          let args :=
            [HEADLESS_TOKEN; lit "runtime=" ++ runtime_json]
            ++ (match model_json with Some text => [lit "model=" ++ text] | None => [] end)
            ++ [lit "benchmarks=" ++ benchmark]
            ++ flag_arg (lit "runtime-flags") runtime_knobs
            ++ flag_arg (lit "benchmark-flags")
                 (k ← benchmark_knobs; match k with [] => None | _ => Some k end)
            ++ [SUBMIT_ON; CLAIM_KEY ++ lit "=" ++ job_id job] in
          match runtime_from_str runtime_json with
          | Ok typed => Ok {| app_args := args; runtime_json := runtime_json; plan_runtime := typed |}
          | Err e => Err (UnreadableRuntime e)
          end
    end.

(** ** What a launch asks of the app *)

(** The knobs of a flag group are its fields without the axes, and no axis it names is
    another cell's. *)
Definition knobs_of (fields : list (str * Value)) (group : str) (cell : list (option str))
    (knobs : option (list (str * Value))) : Prop :=
  match present group fields with
  | None => knobs = None
  | Some flags => exists entry, flags = Object entry /\
      knobs = Some (filter (fun p => is_axis p.1 = false) entry) /\
      forall axis runs named, (axis, Some runs) ∈ zip FLAGS_AXIS_KEYS cell ->
        assoc axis entry = Some named -> named = String runs
  end.

Lemma find_map_none {A B} (f : A -> option B) l x : find_map f l = None -> x ∈ l -> f x = None.
Proof.
  unfold find_map. induction l as [|y l IH]; intros Hn Hx; [by apply not_elem_of_nil in Hx|].
  cbn in Hn. destruct (f y) eqn:E; [done|]. apply elem_of_cons in Hx as [->|Hx]; auto.
Qed.

Lemma group_knobs_ok fields group cell knobs :
  group_knobs fields group cell = Ok knobs -> knobs_of fields group cell knobs.
Proof.
  unfold group_knobs, knobs_of. destruct (present group fields) as [flags|]; [|by intros [= <-]].
  destruct flags as [| | | | |entry]; try discriminate. cbn [as_object ok_or result_bind].
  destruct (find_map _ _) as [[[axis named] runs]|] eqn:E; [discriminate|].
  intros [= <-]. exists entry. split_and!; [done..|].
  intros axis runs named Hin Ha. apply (find_map_none _ _ _ E) in Hin. cbn in Hin.
  unfold axis_mismatch in Hin. rewrite Ha in Hin. cbn in Hin.
  destruct (bool_decide _) eqn:Eb; [|done]. apply bool_decide_eq_true in Eb.
  destruct named; try discriminate. cbn in Eb. by simplify_eq.
Qed.

Definition model_arg (apple_foundation : bool) (model : option Value) (l : list str) : Prop :=
  if apple_foundation then l = []
  else exists m text, model = Some m /\ compact_json m = Some text /\ l = [lit "model=" ++ text].

(** A claim the proxy launches is launched as it is written: its runtime's and model's
    JSON as the claim has them, its benchmark the one the envelope names, each flag group
    without its axes, which name this cell, then [submit=1] and the claim; and every other
    field of the spec asked for nothing. The typed runtime that picks the build is the one
    whose JSON is sent. *)
Theorem launch_runs_the_claim (job : ClaimedJob) (plan : LaunchPlan) :
  launch_plan_from_claim job = Ok plan ->
  exists fields runtime model_args runtime_knobs benchmark_knobs,
    spec job = Object fields /\
    assoc SPEC_RUNTIME fields = Some runtime /\ is_object runtime = true /\
    compact_json runtime = Some (runtime_json plan) /\
    runtime_from_str (runtime_json plan) = Ok (plan_runtime plan) /\
    assoc SPEC_BENCHMARK fields = Some (String (benchmark_id job)) /\ benchmark_id job <> [] /\
    (forall key v, (key, v) ∈ fields -> interpretable key v = true) /\
    let cell := [type_tag runtime; present SPEC_MODEL fields ≫= type_tag;
                 benchmark_type_from_id (benchmark_id job)] in
    model_arg (bool_decide (type_tag runtime = Some RUNTIME_TYPE_APPLE_FOUNDATION))
      (present SPEC_MODEL fields) model_args /\
    knobs_of fields SPEC_RUNTIME_FLAGS cell runtime_knobs /\
    knobs_of fields SPEC_BENCHMARK_FLAGS cell benchmark_knobs /\
    app_args plan =
      [HEADLESS_TOKEN; lit "runtime=" ++ runtime_json plan] ++ model_args ++
      [lit "benchmarks=" ++ benchmark_id job] ++
      flag_arg (lit "runtime-flags") runtime_knobs ++
      flag_arg (lit "benchmark-flags")
        (k ← benchmark_knobs; match k with [] => None | _ => Some k end) ++
      [SUBMIT_ON; lit "claim=" ++ job_id job].
Proof.
  unfold launch_plan_from_claim. destruct (is_null (spec job)); [discriminate|].
  destruct (spec job) as [| | | | |fields]; try discriminate. cbn [as_object ok_or result_bind].
  destruct (find _ fields) as [[key v]|] eqn:Ef; [discriminate|].
  destruct (assoc SPEC_RUNTIME fields) as [runtime|] eqn:Er; [|discriminate]. cbn [mbind option_bind].
  destruct (is_object runtime) eqn:Eo; [|discriminate]. cbn [ok_or result_bind].
  destruct (compact_json runtime) as [rj|] eqn:Ej; [|discriminate]. cbn [ok_or result_bind].
  destruct (assoc SPEC_BENCHMARK fields) as [b|] eqn:Eb; [|discriminate]. cbn [mbind option_bind].
  destruct b as [| | |b| |]; try discriminate. cbn [as_str mbind option_bind].
  destruct b as [|c b]; [discriminate|]. cbn [non_empty ok_or result_bind].
  destruct (str_eqb (c :: b) (benchmark_id job)) eqn:Ee; [|discriminate].
  apply str_eqb_eq in Ee. rewrite Ee. cbn [negb].
  set (model := present SPEC_MODEL fields). set (apple := bool_decide _).
  destruct (match model with Some m => if apple then Ok None else _ | None => _ end)
    as [model_json|] eqn:Em; [|discriminate]. cbn [result_bind].
  set (cell := [type_tag runtime; _; _]).
  destruct (group_knobs fields SPEC_RUNTIME_FLAGS cell) as [rk|] eqn:Ek; [|discriminate].
  cbn [result_bind].
  destruct (group_knobs fields SPEC_BENCHMARK_FLAGS cell) as [bk|] eqn:Ek2; [|discriminate].
  cbn [result_bind]. destruct (runtime_from_str rj) as [typed|] eqn:Et; [|discriminate].
  intros [= <-]. exists fields, runtime,
    (match model_json with Some text => [lit "model=" ++ text] | None => [] end), rk, bk.
  cbv zeta. cbn [runtime_json plan_runtime app_args].
  split_and!; try done.
  - by rewrite <- Ee.
  - by rewrite <- Ee.
  - intros key v Hin. apply list_elem_of_In in Hin.
    pose proof (find_none _ _ Ef _ Hin) as Hn. cbn in Hn. by apply negb_false_iff in Hn.
  - fold apple. unfold model_arg. subst model.
    destruct (present SPEC_MODEL fields) as [m|] eqn:Ep; destruct apple; simplify_eq; try done.
    destruct (compact_json m) as [text|] eqn:Ec; [|discriminate]. cbn in Em. simplify_eq. eauto.
  - by apply group_knobs_ok.
  - by apply group_knobs_ok.
Qed.
End Launch.

(** ** A concrete claim *)

Module Demo.

(** A serializer that writes an object's [type] alone. *)
#[export] Instance texts : LaunchTexts := {
  compact_json v := Some (default (lit "{}") (type_tag v));
  benchmark_type_from_id id := if starts_with id (lit "decode_") then Some (lit "decode") else None;
}.

#[export] Instance runtime_types : RuntimeTypes := {
  Runtime := str;
  runtime_from_str s := Ok s;
  headless_token r := r;
  first_document _ := None;
  document_end _ := None;
}.

Definition runtime : Value := Object [(lit "type", String (lit "mlx"))].
Definition model : Value := Object [(lit "type", String (lit "gguf_text"))].

Definition fields : list (str * Value) :=
  [(SPEC_BENCHMARK, String (lit "decode_256")); (SPEC_MODEL, model); (SPEC_RUNTIME, runtime);
   (SPEC_RUNTIME_FLAGS, Object [(lit "runtime_type", String (lit "mlx")); (lit "batch", Null)]);
   (SPEC_BENCHMARK_FLAGS, Object [(lit "benchmark_type", String (lit "decode"))]);
   (lit "model_flags", Null)].

Definition job : ClaimedJob :=
  {| job_id := lit "j1"; benchmark_id := lit "decode_256"; time_window := lit "PT10M";
     client_versions := None; spec := Object fields |}.

Definition plan : LaunchPlan :=
  {| app_args := [lit "headlessrun"; lit "runtime=mlx"; lit "model=gguf_text";
                  lit "benchmarks=decode_256"; lit "runtime-flags={}"; lit "submit=1"; lit "claim=j1"];
     runtime_json := lit "mlx"; plan_runtime := lit "mlx" |}.

End Demo.

Import Demo.

Lemma launch_runs_the_claim_witness :
  launch_plan_from_claim Demo.job = Ok Demo.plan /\
  assoc SPEC_RUNTIME Demo.fields = Some Demo.runtime.
Proof.
  assert (launch_plan_from_claim Demo.job = Ok Demo.plan) as Hp by (vm_compute; reflexivity).
  split; [exact Hp|].
  destruct (launch_runs_the_claim Demo.job Demo.plan Hp) as (f & r & ma & rk & bk & Hf & Hr & _).
  injection Hf as <-. rewrite Hr. revert Hr. vm_compute. intros [= <-]. reflexivity.
Defined.
