(* ===== verification/ProxyJob.v ===== *)
(** * One claimed job ([worker/job.rs], [worker/install.rs], [server/submit.rs])

    Install the build the job needs, run it under a lease, classify what happened, and
    submit what the run left on the phone. This is the proxy's pool mode, and what version
    mode ([ProxyVersion]) shares with it. *)

From Stdlib Require Import ZArith Lia String.
From stdpp Require Import prelude list.
From S2P Require Import Prelude Str Timing Json Errors Protocol ProxyBase ProxyServer ProxyApp ProxyLaunch.

Local Open Scope Z_scope.
Local Open Scope proxy_scope.

(** ** Data *)

(** The entry and the settings of one phone. *)
Record PhoneConfig := {
  bundle_id : str;
  client_id : str;
  udid : str;
  hardware_udid : option str;
  run_timeout : Z;
  call_timeout : Z;
  first_line_timeout : Z;
  heartbeat_secs : Z;
  pymobiledevice3 : option str;
}.

(** What a phone's process remembers of it. *)
Record Phone := {
  installed : option str;
  facts : option DeviceFacts;
  os_version : option str;
}.

Inductive Unreported := UnreportedLeaseLost | UnreportedStopped.

Inductive Outcome :=
| OutAccepted
| OutNotAccepted
| OutFailed (cause : FailureCause)
| OutLeaseLost
| OutStopped.

Definition outcome_of (u : Unreported) : Outcome :=
  match u with
  | UnreportedLeaseLost => OutLeaseLost
  | UnreportedStopped => OutStopped
  end.

Record JobEnd := { report : result JobFailure Unreported; halt : option Error }.

(** [JobEnd::from]. *)
Definition ends (f : JobFailure) : JobEnd := {| report := Ok f; halt := None |}.

Record Collected := { collected_ref : ResultRef; collected_submitted : bool; collected_payload : Value }.

Definition FAILURE_DETAIL_LINES : nat := 3.
Definition FAILURE_DETAIL_CHARS : nat := 400.
Definition DEVICE_NOT_FOUND_CODE : Z := 1011.

(** [plan-types]'s [keep_tail] at its limit, and what [{:?}] prints of a list of strings. *)
Class JobTexts := {
  keep_tail : str -> str;
  debug_list : list str -> str;
  refusal_text : UnrunnableClaimError -> str;
}.

(** The builds a pool has read, by path, and the flags it advertises. *)
Record Pool `{RuntimeTypes} := {
  pool_dir : str;
  pool_builds : list (str * list Runtime);
  pool_capabilities : result (list str) Error;
}.

(** ** Failures *)

Definition is_device_absent (c : Cause) : bool :=
  match c with
  | DevicectlFault _ code _ => code =? DEVICE_NOT_FOUND_CODE
  | _ => false
  end.

Definition failure_cause (e : Error) (otherwise : FailureCause) : FailureCause :=
  if existsb is_device_absent (causes e) then DeviceUnreachable else otherwise.

(** [OrFail]. *)
Definition or_fail {T} (r : result T Error) (cause : FailureCause) (doing : str)
    : result T JobFailure :=
  match r with
  | Ok t => Ok t
  | Err e => Err (job_failure (failure_cause e cause) (doing ++ lit ": " ++ shown e))
  end.

Definition ends_with {T} (r : result T JobFailure) : result T JobEnd :=
  match r with
  | Ok t => Ok t
  | Err f => Err (ends f)
  end.

Definition is_replaced (c : Cause) : bool :=
  match c with IdentityReplaced _ _ _ _ => true | _ => false end.

Definition replaced_identity (e : Error) : bool := existsb is_replaced (causes e).

Section Failures.
Context `{JobTexts}.

Definition runtime_output (run : ConsoleRun) : RuntimeOutput :=
  {| runtime_stdout := Some (keep_tail (stdout run));
     runtime_stderr := Some (keep_tail (stderr run)) |}.

Definition output_tail (run : ConsoleRun) : str :=
  let source := match trim (stderr run) with [] => stdout run | _ => stderr run end in
  let kept := filter (fun l => l <> []) (map trim (lines source)) in
  let joined := join (lit " | ") (rev (take FAILURE_DETAIL_LINES (rev kept))) in
  if (length joined <=? FAILURE_DETAIL_CHARS)%nat then joined
  else lit "..." ++ drop (length joined - FAILURE_DETAIL_CHARS) joined.

Definition engine_failed (entry : str) (elapsed : Z) : JobFailure :=
  job_failure EngineFailed
    (lit "the app's engine failed on the cell after " ++ show_uint (as_secs elapsed) ++ lit "s: " ++ entry).

Definition is_malformed (run : ConsoleRun) : bool :=
  match sentinel run with
  | Some status => status =? EXIT_MALFORMED
  | None => bool_decide (exit_code run = Some EXIT_MALFORMED)
  end.

Definition run_failed (run : ConsoleRun) (elapsed : Z) (detail : str) : JobFailure :=
  job_failure RunFailed
    (lit "the run failed after " ++ show_uint (as_secs elapsed) ++ lit "s (sentinel=" ++
     match sentinel run with Some s => show_int s | None => lit "none" end ++ lit ", exit=" ++
     match exit_code run with Some c => show_int c | None => lit "signal" end ++ lit "): " ++ detail).

Definition classify_run (run : ConsoleRun) (elapsed run_timeout : Z) (version_mode : bool)
    : JobFailure :=
  let detail := output_tail run in
  if timed_out run then
    let '(cause, stage) :=
      match engine_time run with
      | Some time =>
          if run_timeout / 2 <=? time then
            (EngineTimedOut, show_uint (as_secs time) ++ lit "s of it in the app's engine")
          else
            (RunTimedOut, lit "only " ++ show_uint (as_secs time) ++
               lit "s of it in the app's engine, under half the limit")
      | None => (RunTimedOut, lit "before the app's engine had the cell")
      end in
    job_failure cause
      (lit "the run exceeded run_timeout_secs (" ++ show_uint (as_secs run_timeout) ++
       lit "s) after " ++ show_uint (as_secs elapsed) ++ lit "s, " ++ stage ++
       lit ", and was terminated: " ++ detail)
  else if killed_by_ios run then
    job_failure KilledByIos
      (lit "the app was killed (signal 9) after " ++ show_uint (as_secs elapsed) ++
       lit "s, most likely by iOS at its per-app memory limit: " ++ detail)
  else if is_malformed run then
    job_failure (if version_mode then RefusedByBuild else MalformedInvocation)
      (lit "the app refused the invocation as malformed: " ++ detail)
  else match engine_failure (stderr run) with
       | Some entry => engine_failed entry elapsed
       | None => run_failed run elapsed detail
       end.
End Failures.

(** ** The job *)

Section Job.
Context `{PT : ProxyTexts} `{JT : JobTexts} `{LT : LaunchTexts} `{RT : RuntimeTypes}.
Context {W : Type} `{MC : MgmtClient W} `{DC : DeviceControl W} `{PH : ProxyHost W}.
Context (cfg : PhoneConfig).
Notation program T := (prog Phone W T).

Definition record_installed (record : InstalledBuild) : program (result unit Error) :=
  do? _ <- io (store_installed record);
  do phone <- get_state;
  do _ <- set_state {| installed := build_path record; facts := facts phone; os_version := os_version phone |};
  ret (Ok tt).

Definition set_installed (build : option str) : program (result unit Error) :=
  record_installed {| build_path := build; build_version := None |}.

(** *** Installing ([install.rs]) *)

Definition check_before (build : str) : program (result unit Error) :=
  do r <- io (verify_installable build);
  ret (in_context (lit "refusing to install " ++ build) r).

Definition replaced_error (checked found : str) : Error :=
  error_at (IdentityReplaced checked (udid cfg) (client_id cfg) found)
    (checked ++ lit ", " ++ udid cfg ++ lit " reports client " ++ found ++ lit " where " ++
     client_id cfg ++ lit " was configured: the build replaced the phone's identity (signed by another team?). Stop driving this phone and re-register it before anything claims as " ++ found).

Definition check_after (checked : str) : program (result unit Error) :=
  do r <- local_client_id (bundle_id cfg) (call_timeout cfg) (first_line_timeout cfg);
  ret (match in_context (lit "reading the phone's client " ++ checked) r with
       | Err e => Err e
       | Ok found =>
           if negb (str_eqb found (client_id cfg)) then Err (replaced_error checked found) else Ok tt
       end).

Definition bundle_present : program (result bool Error) :=
  do r <- io (info_apps (bundle_id cfg));
  ret (match in_context (lit "listing apps on " ++ udid cfg ++ lit " to decide on an install") r with
       | Err e => Err e
       | Ok apps => Ok (existsb (fun app => str_eqb (app_bundle_id app) (bundle_id cfg)) apps)
       end).

(** [BuildIndex::build_for]: the first build, by path, with the runtime. *)
Definition build_for (pool : Pool) (runtime : Runtime) : option str :=
  fst <$> find (fun b => bool_decide (runtime ∈ b.2)) (pool_builds pool).

Definition no_build_for (pool : Pool) (runtime : Runtime) : Error :=
  match pool_capabilities pool with
  | Err e => e
  | Ok advertised =>
      error_at NoBuildFor
        (lit "no build in " ++ pool_dir pool ++ lit " provides the runtime this job names (" ++
         headless_token runtime ++ lit "); the pool advertises " ++ debug_list advertised)
  end.

Definition install_build (build : str) : program (result unit Error) :=
  do? _ <- set_installed None;
  do? _ <- check_before build;
  do r <- io (install_app build);
  do? _ <- ret (in_context (lit "installing " ++ build ++ lit " on " ++ udid cfg) r);
  do? _ <- check_after (lit "after installing " ++ build);
  set_installed (Some build).

Definition ensure_installed (pool : Pool) (runtime : Runtime) : program (result unit Error) :=
  match build_for pool runtime with
  | None => ret (Err (no_build_for pool runtime))
  | Some build =>
      do phone <- get_state;
      do? there <- (if bool_decide (installed phone = Some build) then bundle_present
                    else ret (Ok false));
      if there then ret (Ok tt) else install_build build
  end.

(** *** Before the run *)

Definition known_benchmark (job : ClaimedJob) : program (result unit JobEnd) :=
  do unknown <- benchmark_is_unknown (benchmark_id job);
  ret (if unknown then
         Err (ends (job_failure UnknownBenchmark
           (lit "GET /benchmarks/" ++ benchmark_id job ++ lit ": benchmark not found")))
       else Ok tt).

Definition launch_plan (job : ClaimedJob) : result LaunchPlan JobEnd :=
  match launch_plan_from_claim job with
  | Ok plan => Ok plan
  | Err refusal => Err (ends (job_failure UninterpretableSpec (refusal_text refusal)))
  end.

Definition heartbeat_interval (job : ClaimedJob) : Z :=
  resolve_heartbeat_interval (time_window job) (Some (heartbeat_secs cfg)).

Definition results_before : program (result (list ResultRef) JobEnd) :=
  do r <- list_results (bundle_id cfg) (call_timeout cfg) (first_line_timeout cfg);
  ret (match or_fail r DevicectlFailure (lit "listing the phone's existing results") with
       | Ok listed => Ok (map listed_ref listed)
       | Err f => Err (ends f)
       end).

Definition pin_gpu : program (result bool JobEnd) :=
  match pymobiledevice3 cfg with
  | None => ret (Ok false)
  | Some program =>
      do r <- (match hardware_udid cfg with
               | None => ret (Err (bail (lit "`device info details` named no hardware UDID")))
               | Some udid => io (pin_hold program udid (call_timeout cfg))
               end);
      ret (match r with
           | Ok _ => Ok true
           | Err e => Err (ends (job_failure DevicectlFailure
               (lit "pinning the GPU performance state: " ++ shown e)))
           end)
  end.

(** *** After the run *)

Definition harvest_device_facts (payload : Value) : program unit :=
  match from_payload payload with
  | None => ret tt
  | Some learned =>
      do phone <- get_state;
      if decide (facts phone = Some learned) then ret tt
      else
        do _ <- io (store_facts learned);
        set_state {| installed := installed phone; facts := Some learned; os_version := os_version phone |}
  end.

(** Best effort: a payload left on the phone costs disk, not correctness. *)
Definition drop_result (r : ResultRef) : program unit :=
  do _ <- delete_result (bundle_id cfg) r (call_timeout cfg) (first_line_timeout cfg);
  ret tt.

Definition collect_payloads (before : list ResultRef) : program (result (list Collected) Error) :=
  do? after <- list_results (bundle_id cfg) (call_timeout cfg) (first_line_timeout cfg);
  try_each (fun listed =>
    do? payload <- show_result (bundle_id cfg) (listed_ref listed) (call_timeout cfg) (first_line_timeout cfg);
    ret (Ok {| collected_ref := listed_ref listed; collected_submitted := listed_submitted listed;
               collected_payload := payload |}))
    (filter (fun listed => listed_ref listed ∉ before) after).

Definition settle_collected (job : ClaimedJob) (output : RuntimeOutput) (c : Collected) : program bool :=
  do _ <- harvest_device_facts (collected_payload c);
  if collected_submitted c then
    do _ <- drop_result (collected_ref c);
    ret true
  else
    do r <- submit_success job (collected_payload c) output;
    match r with
    | Ok (Some _) =>
        do _ <- drop_result (collected_ref c);
        ret true
    | Ok None => ret false
    | Err _ => ret false
    end.

Definition settle_uploaded (before : list ResultRef) : program unit :=
  do r <- collect_payloads before;
  match r with
  | Ok collected =>
      do _ <- each (fun c =>
        do _ <- harvest_device_facts (collected_payload c);
        drop_result (collected_ref c)) (filter (fun c => collected_submitted c = true) collected);
      ret tt
  | Err _ => ret tt
  end.

Definition payload_version (payload : Value) : option str :=
  v ← get (lit "client_version") payload; as_str v.

(** The version of a payload the proxy would submit, if it is not the build's. *)
Definition reports_another (version : str) (collected : list Collected) : option (option str) :=
  find (fun reported => negb (bool_decide (reported = Some version)))
    (map (fun c => payload_version (collected_payload c))
       (filter (fun c => collected_submitted c = false) collected)).

Definition submit_results (job : ClaimedJob) (before : list ResultRef) (version : option str)
    (run : ConsoleRun) (elapsed : Z) : program (result Outcome JobEnd) :=
  let output := runtime_output run in
  let failed f := ret (Err (ends (with_output f output))) in
  do r <- collect_payloads before;
  match or_fail r DevicectlFailure (lit "reading the run's result off the phone") with
  | Err f => failed f
  | Ok [] =>
      failed (match engine_failure (stderr run) with
              | Some entry => engine_failed entry elapsed
              | None =>
                  job_failure RunFailed (lit "the run reported success after " ++
                    show_uint (as_secs elapsed) ++ lit "s but left no new result payload on the phone")
              end)
  | Ok collected =>
      match version ≫= fun v => reports_another v collected with
      | Some reported =>
          failed (job_failure RunFailed (lit "the run's result reports client_version " ++
            default (lit "none") reported ++
            lit ", not the build installed for it; the proxy submitted nothing and the phone's copies are kept"))
      | None =>
          do accepted <- each (settle_collected job output) collected;
          ret (Ok (if forallb (fun b => b) accepted then OutAccepted else OutNotAccepted))
      end
  end.

(** What follows the launch: the heartbeat's thread is joined and the pin released before
    anything is decided. *)
Definition after_run (job : ClaimedJob) (before : list ResultRef) (version : option str)
    (launched : result ConsoleRun Error) (pinned : result unit Error) (elapsed : Z)
    : program (result Outcome JobEnd) :=
  do lost <- io lost_raised;
  if lost then
    do _ <- settle_uploaded before;
    ret (Ok OutLeaseLost)
  else
    do? run <- ret (ends_with (or_fail launched DevicectlFailure (lit "carrying out the launch")));
    if stopped run then ret (Ok OutStopped)
    else if silent run then
      ret (Err (ends (with_output (job_failure LaunchSilent
        (lit "the app printed nothing for " ++ show_uint (as_secs (first_line_timeout cfg)) ++
         lit "s (first_line_timeout_secs) after its launch and again after one relaunch, so it never received the cell; giving the job back"))
        (runtime_output run))))
    else if negb (succeeded run) then
      ret (Err (ends (with_output
        (classify_run run elapsed (run_timeout cfg) (bool_decide (is_Some version)))
        (runtime_output run))))
    else
      match pinned with
      | Err e =>
          ret (Err (ends (job_failure DevicectlFailure
            (lit "holding the GPU performance state: " ++ shown e))))
      | Ok _ => submit_results job before version run elapsed
      end.

(** The lease is held already. *)
Definition run_and_submit (job : ClaimedJob) (plan : LaunchPlan) (before : list ResultRef)
    (version : option str) : program (result Outcome JobEnd) :=
  do pin <- pin_gpu;
  match pin with
  | Err e =>
      do _ <- io_ lease_drop;
      ret (Err e)
  | Ok held =>
      do started <- io instant;
      do launched <- run_benchmark (bundle_id cfg) (app_args plan) (run_timeout cfg) (first_line_timeout cfg);
      do ended <- io instant;
      do _ <- io_ lease_drop;
      do pinned <- (if held then io pin_release else ret (Ok tt));
      after_run job before version launched pinned (sat_sub ended started)
  end.

(** *** The whole job *)

(** Pool mode. *)
Definition execute_job (pool : Pool) (job : ClaimedJob) : program (result Outcome JobEnd) :=
  do? plan <- ret (launch_plan job);
  do? _ <- known_benchmark job;
  do r <- ensure_installed pool (plan_runtime plan);
  match r with
  | Err e =>
      ret (Err {| report := Ok (job_failure (failure_cause e InstallFailed)
                    (lit "installing the build: " ++ shown e));
                  halt := if replaced_identity e then Some e else None |})
  | Ok _ =>
      do? before <- results_before;
      do _ <- io_ (lease_start (job_id job) (heartbeat_interval job));
      run_and_submit job plan before None
  end.

Definition report_failure {St} (job : ClaimedJob) (f : JobFailure) : prog St W (result unit Error) :=
  do r <- submit_failure job f;
  ret (in_context (lit "submitting the failure for job " ++ job_id job) r).

Definition conclude {St} (job : ClaimedJob) (end_ : JobEnd) : prog St W (result unit Error) :=
  do reported <- (match report end_ with
                  | Ok failure => report_failure job failure
                  | Err _ => ret (Ok tt)
                  end);
  ret (match halt end_ with
       | None => reported
       | Some halt => Err halt
       end).

Definition ended_as (ended : result Outcome JobEnd) : Outcome :=
  match ended with
  | Ok outcome => outcome
  | Err end_ =>
      match report end_ with
      | Ok failure => OutFailed (jf_cause failure)
      | Err unreported => outcome_of unreported
      end
  end.

(** Answers the outcome the [job finished] line names, and what the claim loop gets. *)
Definition run_claimed_job {St} (execute : prog St W (result Outcome JobEnd)) (job : ClaimedJob)
    : prog St W (Outcome * result unit Error) :=
  do ended <- execute;
  do concluded <- (match ended with
                   | Ok _ => ret (Ok tt)
                   | Err end_ => conclude job end_
                   end);
  ret (ended_as ended, concluded).
End Job.

(** ** What a job asks of the world *)

Section JobTraces.
Context `{PT : ProxyTexts} `{JT : JobTexts} `{LT : LaunchTexts} `{RT : RuntimeTypes}.
Context {W : Type} `{MC : MgmtClient W} `{DC : DeviceControl W} `{PH : ProxyHost W}.
Context (cfg : PhoneConfig).
Notation TW := (W * list Event)%type.

(** Nothing is submitted. *)
Definition unsent (e : Event) : Prop := sent e = None.

Lemma unsent_trace tr : Forall unsent tr -> omap sent tr = [].
Proof. induction 1 as [|e tr He Htr IH]; [done|]. cbn. by rewrite He. Qed.

Lemma relaunch_does {S} P watched (launch : prog S TW (result ConsoleRun Error)) :
  does P launch -> (forall b, P (ELost b)) -> (forall b, P (EStop b)) ->
  does P (relaunch_if_silent watched launch).
Proof.
  intros Hl H1 H2. unfold relaunch_if_silent, raised. does; apply does_io; intros; by repeat constructor.
Qed.

Lemma forward_does {S} P l : P EHeartbeatStop -> does P (forward (St := S) (W := TW) l).
Proof.
  intros HP. induction l as [|line l IH]; cbn [forward]; does. apply does_io_. by constructor.
Qed.

Lemma run_verb_unsent {S} bundle verb t f on :
  does unsent (run_verb (St := S) (W := TW) bundle verb t f on).
Proof. apply relaunch_does; [|done..]. does. Qed.
#[local] Hint Resolve run_verb_unsent : does.

Lemma run_benchmark_unsent {S} bundle args t f :
  does unsent (run_benchmark (St := S) (W := TW) bundle args t f).
Proof. apply relaunch_does; [|done..]. does. by apply forward_does. Qed.
#[local] Hint Resolve run_benchmark_unsent : does.

Lemma list_results_unsent {S} b t f : does unsent (list_results (St := S) (W := TW) b t f).
Proof. unfold list_results. does. Qed.

Lemma show_result_unsent {S} b r t f : does unsent (show_result (St := S) (W := TW) b r t f).
Proof. unfold show_result. does. Qed.

Lemma delete_result_unsent {S} b r t f : does unsent (delete_result (St := S) (W := TW) b r t f).
Proof. unfold delete_result. does. Qed.

Lemma local_client_id_unsent {S} b t f : does unsent (local_client_id (St := S) (W := TW) b t f).
Proof. unfold local_client_id. does. Qed.
#[local] Hint Resolve list_results_unsent show_result_unsent delete_result_unsent
  local_client_id_unsent : does.

Lemma record_installed_unsent r : does unsent (record_installed (W := TW) r).
Proof. unfold record_installed. does. Qed.

Lemma collect_payloads_unsent before : does unsent (collect_payloads (W := TW) cfg before).
Proof. unfold collect_payloads. does. Qed.

Lemma harvest_unsent v : does unsent (harvest_device_facts (W := TW) v).
Proof. unfold harvest_device_facts. does. Qed.

Lemma drop_result_unsent r : does unsent (drop_result (W := TW) cfg r).
Proof. unfold drop_result. does. Qed.
#[local] Hint Resolve record_installed_unsent collect_payloads_unsent harvest_unsent drop_result_unsent : does.

Lemma ensure_installed_unsent pool r : does unsent (ensure_installed (W := TW) cfg pool r).
Proof. unfold ensure_installed, bundle_present, install_build, set_installed, check_before, check_after. does. Qed.

Lemma settle_uploaded_unsent before : does unsent (settle_uploaded (W := TW) cfg before).
Proof. unfold settle_uploaded. does. Qed.

Lemma known_benchmark_unsent job : does unsent (known_benchmark (W := TW) job).
Proof. unfold known_benchmark, benchmark_is_unknown. does. Qed.

Lemma results_before_unsent : does unsent (results_before (W := TW) cfg).
Proof. unfold results_before. does. Qed.

Lemma pin_gpu_unsent : does unsent (pin_gpu (W := TW) cfg).
Proof. unfold pin_gpu. does. Qed.
#[local] Hint Resolve ensure_installed_unsent settle_uploaded_unsent known_benchmark_unsent
  results_before_unsent pin_gpu_unsent : does.

(** *** What a submission of a result carries *)

(** A submission, if it is one, is a result filed under the job. *)
Definition result_event (job : ClaimedJob) (e : Event) : Prop :=
  match sent e with
  | Some (body, _) => exists v, body = ResultBody v /\ get (lit "job_id") v = Some (String (job_id job))
  | None => True
  end.

Lemma unsent_result_event job e : unsent e -> result_event job e.
Proof. unfold unsent, result_event. by intros ->. Qed.

Lemma submit_with_backoff_does {S} P id body :
  (forall r, P (ESubmit body r)) -> (forall r, P (EReclaim id r)) -> (forall d, P (ESleep d)) ->
  does P (submit_with_backoff (St := S) (W := TW) id body).
Proof.
  intros H1 H2 H3. unfold submit_with_backoff. generalize SUBMIT_BACKOFF_BASE.
  induction (seqZ 1 SUBMIT_MAX_ATTEMPTS) as [|n l IH]; intros backoff; cbn [submit_attempts];
    [apply does_ret|].
  apply does_bind.
  - unfold try_submit, reclaim_once. does; apply does_io; intros; by repeat constructor.
  - intros d. does_step; try apply does_ret. does_step; [apply does_ret|].
    apply does_bind; [apply does_io_; by constructor|]. intros _. apply IH.
Qed.

Lemma bound_payload_ok job payload output v :
  bound_payload job payload output = Ok v -> get (lit "job_id") v = Some (String (job_id job)).
Proof.
  unfold bound_payload, attach_job_id. destruct payload as [| | | | |fields]; try done.
  unfold attach_runtime_output. destruct (output_to_value output) as [[| | | | |streams]|]; try done.
  intros [= <-]. cbn [get]. by rewrite assoc_or_inserts, assoc_insert_eq.
Qed.

Lemma submit_success_result {S} job payload output :
  does (result_event job) (submit_success (St := S) (W := TW) job payload output).
Proof.
  unfold submit_success. destruct (bound_payload job payload output) as [v|e] eqn:E; [|apply does_ret].
  apply submit_with_backoff_does; [|done..]. intros r. unfold result_event. cbn.
  exists v. split; [done|]. by eapply bound_payload_ok.
Qed.

Lemma settle_collected_result job output c :
  does (result_event job) (settle_collected (W := TW) cfg job output c).
Proof.
  unfold settle_collected.
  assert (forall T (m : prog Phone TW T), does unsent m -> does (result_event job) m) as Hu.
  { intros T m Hm. eapply does_weaken; [exact Hm|]. apply unsent_result_event. }
  does; first [apply Hu; solve [eauto with does] | apply submit_success_result].
Qed.

(** *** How a job ends, and what it has submitted by then *)
Definition reports (job : ClaimedJob) (ended : result Outcome JobEnd) (tr : list Event) : Prop :=
  match ended with
  | Ok OutAccepted | Ok OutNotAccepted => Forall (result_event job) tr
  | Ok (OutFailed _) => False
  | Ok OutLeaseLost | Ok OutStopped | Err _ => Forall unsent tr
  end.

Definition reporting {St} (job : ClaimedJob) (m : prog St TW (result Outcome JobEnd)) : Prop :=
  forall s, emits s m (fun r _ tr => reports job r tr).

Lemma reporting_ret {St} job r : reports job r [] -> reporting (St := St) job (ret r).
Proof. intros Hr s. by apply emits_ret. Qed.

Lemma reports_after job r tr tr' : Forall unsent tr -> reports job r tr' -> reports job r (tr ++ tr').
Proof.
  intros Hu. assert (Forall (result_event job) tr).
  { eapply Forall_impl; [exact Hu|]. apply unsent_result_event. }
  unfold reports. destruct r as [[]|]; try done; intros; by apply Forall_app.
Qed.

Lemma reporting_bind {St T} job (m : prog St TW T) k :
  does unsent m -> (forall t, reporting job (k t)) -> reporting job (bind m k).
Proof.
  intros Hm Hk s. eapply emits_bind; [apply Hm|]. intros t s' tr Hu.
  eapply emits_weaken; [apply Hk|]. intros r s'' tr' Hr. by apply reports_after.
Qed.

(** An end that submitted nothing. *)
Lemma reporting_done {St} job r :
  match r with Ok (OutFailed _) => False | _ => True end -> reporting (St := St) job (ret r).
Proof. intros Hr. apply reporting_ret. unfold reports. destruct r as [[]|]; done || constructor. Qed.

Lemma reporting_try {St T} job (m : prog St TW (result T JobEnd)) k :
  does unsent m -> (forall t, reporting job (k t)) -> reporting job (try_bind m k).
Proof.
  intros Hm Hk. apply reporting_bind; [done|]. intros [t|e]; [apply Hk|]. by apply reporting_done.
Qed.

Lemma submit_results_reports job before version run elapsed :
  reporting job (submit_results (W := TW) cfg job before version run elapsed).
Proof.
  unfold submit_results. cbv zeta. apply reporting_bind; [eauto with does|]. intros r.
  destruct (or_fail r _ _) as [[|c l]|f]; try by apply reporting_done.
  destruct (version ≫= _); [by apply reporting_done|].
  intros s. eapply emits_bind.
  { apply (does_each (result_event job)). intros a. apply settle_collected_result. }
  cbn. intros accepted s' tr Htr. apply emits_ret. rewrite app_nil_r. by destruct (forallb _ _).
Qed.

Lemma after_run_reports job before version launched pinned elapsed :
  reporting job (after_run (W := TW) cfg job before version launched pinned elapsed).
Proof.
  unfold after_run. apply reporting_bind; [does|]. intros [].
  { apply reporting_bind; [eauto with does|]. intros _. by apply reporting_done. }
  apply reporting_try; [apply does_ret|]. intros run.
  repeat (case_match; [by apply reporting_done|]).
  destruct pinned; [apply submit_results_reports|by apply reporting_done].
Qed.

Lemma run_and_submit_reports job plan before version :
  reporting job (run_and_submit (W := TW) cfg job plan before version).
Proof.
  unfold run_and_submit. apply reporting_bind; [eauto with does|]. intros [held|e].
  - do 5 (apply reporting_bind; [does|intros ?]). apply after_run_reports.
  - apply reporting_bind; [does|]. intros _. by apply reporting_done.
Qed.

Lemma execute_job_reports pool job : reporting job (execute_job (W := TW) cfg pool job).
Proof.
  unfold execute_job. apply reporting_try; [apply does_ret|]. intros plan.
  apply reporting_try; [eauto with does|]. intros _.
  apply reporting_bind; [eauto with does|]. intros [[]|e]; [|by apply reporting_done].
  apply reporting_try; [eauto with does|]. intros before.
  apply reporting_bind; [does|]. intros _. apply run_and_submit_reports.
Qed.

(** One failure body, sent once or more. *)
Definition failure_told (job : ClaimedJob) (failure : JobFailure) (tr : list Event) : Prop :=
  exists now, Forall (fun p => p.1 = failure_submission now job failure) (omap sent tr) /\
    1 <= Z.of_nat (length (omap sent tr)) <= 32.

(** What the server is told of a job that ended so. *)
Definition told (job : ClaimedJob) (outcome : Outcome) (concluded : result unit Error) (tr : list Event) : Prop :=
  match outcome with
  | OutAccepted | OutNotAccepted => Forall (result_event job) tr /\ concluded = Ok tt
  | OutFailed cause =>
      exists failure, jf_cause failure = cause /\ failure_told job failure tr
  | OutLeaseLost | OutStopped => omap sent tr = []
  end.

Lemma submit_failure_emits {S} (s : S) job failure :
  emits s (submit_failure (W := TW) job failure) (fun _ s' tr => s' = s /\ exists now,
    Forall (fun p => p.1 = failure_submission now job failure) (omap sent tr) /\
    1 <= Z.of_nat (length (omap sent tr)) <= 32).
Proof.
  unfold submit_failure. emits_step. eapply emits_bind; [apply submit_emits|].
  cbv beta. intros r s' tr [-> Hr].
  assert (exists now, Forall (fun p => p.1 = failure_submission now job failure) (omap sent tr) /\
    1 <= Z.of_nat (length (omap sent tr)) <= 32).
  { change SUBMIT_BACKOFF_BASE with (submit_wait 1) in Hr.
    destruct (proxy_submit_bounds (job_id job) (failure_submission t job failure) 1 tr r) as ([Hs _] & Hl & _); [done|exact Hr|].
    change (SUBMIT_MAX_ATTEMPTS - 1 + 1) with 32 in Hl. exists t. done. }
  destruct r; emits_step; by rewrite app_nil_r.
Qed.

Lemma conclude_reported {St} job failure h (s : St) :
  emits s (conclude (W := TW) job {| report := Ok failure; halt := h |})
    (fun _ _ tr => failure_told job failure tr).
Proof.
  unfold conclude, report_failure. cbn [report halt].
  apply emits_bind with (P := fun _ _ tr => failure_told job failure tr).
  - eapply emits_bind; [apply submit_failure_emits|]. cbv beta. intros r s' tr [-> Hs].
    apply emits_ret. by rewrite app_nil_r.
  - intros r s' tr Hs. apply emits_ret. by rewrite app_nil_r.
Qed.

Lemma conclude_unreported {St} job u h (s : St) :
  emits s (conclude (W := TW) job {| report := Err u; halt := h |}) (fun _ _ tr => tr = []).
Proof. unfold conclude. cbn [report halt]. apply emits_ret_bind. by apply emits_ret. Qed.

Lemma run_claimed_job_told {St} (execute : prog St TW (result Outcome JobEnd)) job s :
  reporting job execute ->
  emits s (run_claimed_job execute job) (fun r _ tr => told job r.1 r.2 tr).
Proof.
  intros He. unfold run_claimed_job. eapply emits_bind; [apply He|].
  cbv beta iota. intros [outcome|[[failure|u] h]] s' tr Hr; cbn [ended_as report].
  - apply emits_ret_bind, emits_ret. rewrite app_nil_r. cbn. destruct outcome; try done; by apply unsent_trace.
  - eapply emits_bind; [apply conclude_reported|]. cbv beta. intros concluded s1 tr1 (now & Hall & Hlen).
    apply emits_ret. rewrite app_nil_r. cbn. exists failure. split; [done|]. exists now.
    by rewrite omap_app, unsent_trace.
  - eapply emits_bind; [apply conclude_unreported|]. cbv beta. intros concluded s1 tr1 ->.
    apply emits_ret. rewrite !app_nil_r. destruct u; by apply unsent_trace.
Qed.

End JobTraces.
