(* ===== verification/ProxyResults.v ===== *)
(** * What a job does to the phone

    Two things the proxy must not get wrong on the phone itself: a result the app keeps is
    deleted only once the server has it, and the record of the installed build names a build
    only after that build was checked, installed and asked for its identity. Both are stated
    over everything the proxy asked of the world, in the order it asked. *)

From Stdlib Require Import ZArith Lia String.
From stdpp Require Import prelude list.
From S2P Require Import Prelude Str Timing Json Errors Protocol ProxyBase ProxyServer ProxyApp ProxyLaunch ProxyJob.

Local Open Scope Z_scope.
Local Open Scope proxy_scope.

(** ** One verb *)

Definition verb_args (verb : list str) : list str := HEADLESS_TOKEN :: verb.

Definition list_args : list str := verb_args [lit "results"; lit "list"].
Definition show_args (r : ResultRef) : list str :=
  verb_args [lit "results"; lit "show"; lit "result=" ++ wire r].
Definition delete_args (r : ResultRef) : list str :=
  verb_args [lit "results"; lit "delete"; lit "result=" ++ wire r].
Definition identity_args : list str := verb_args [lit "auth"; lit "me"; lit "local=1"].

(** A launch of the app with these arguments. *)
Definition launches (args : list str) (e : Event) : Prop :=
  match e with ELaunch l _ => launch_args l = args | _ => False end.

(** What a program with the trace [tr] had from a launch with these arguments, as the last
    thing it asked. *)
Definition answered {A} (args : list str) (read : ConsoleRun -> option A) (a : A) (tr : list Event) : Prop :=
  exists pre l printed run, tr = pre ++ [ELaunch l (printed, Ok run)] /\ launch_args l = args /\
    read run = Some a.

(** A launch that said nothing is the only one made again. *)
Definition silent_launch (e : Event) : Prop :=
  match e with ELaunch _ (_, Ok run) => silent run = true | _ => False end.

Definition asked_once_heard (tr : list Event) : Prop :=
  exists pre e, tr = pre ++ [e] /\ Forall silent_launch pre.

Definition read_listing (run : ConsoleRun) : option (list ListedResult) :=
  if succeeded run then Some (parse_listed_results (stdout run)) else None.

Definition read_identity (run : ConsoleRun) : option str :=
  if succeeded run then parse_local_client_id (stdout run) else None.

Section Verbs.
Context `{RT : RuntimeTypes} {St W : Type} `{DC : DeviceControl W} `{PH : ProxyHost W}.
Notation TW := (W * list Event)%type.

Definition read_payload (run : ConsoleRun) : option Value :=
  if succeeded run then
    match first_json_document (stdout run) with Ok v => Some v | Err _ => None end
  else None.

Lemma run_verb_emits bundle verb t f on (s : St) :
  emits s (run_verb (W := TW) bundle verb t f on) (fun r s' tr => s' = s /\
    Forall (launches (verb_args verb)) tr /\
    exists pre l printed, tr = pre ++ [ELaunch l (printed, r)] /\ launch_args l = verb_args verb /\
      Forall silent_launch pre).
Proof.
  unfold run_verb, relaunch_if_silent.
  set (m := bind (io (launch_console _)) _).
  assert (emits s m (fun r s' tr => s' = s /\ exists l printed,
    tr = [ELaunch l (printed, r)] /\ launch_args l = verb_args verb)) as Hm.
  { emits_step. destruct t0 as [printed r]. apply emits_ret. rewrite app_nil_r.
    split; [done|]. by eexists _, printed. }
  assert (forall r s' tr, s' = s /\ (exists l printed,
      tr = [ELaunch l (printed, r)] /\ launch_args l = verb_args verb) ->
    s' = s /\ Forall (launches (verb_args verb)) tr /\
    exists pre l printed, tr = pre ++ [ELaunch l (printed, r)] /\ launch_args l = verb_args verb /\
      Forall silent_launch pre) as Hlast.
  { intros r s' tr (-> & l & printed & -> & Hl). split; [done|]. split; [by repeat constructor|].
    by exists [], l, printed. }
  eapply emits_try; [exact Hm|intros; by apply Hlast|]. cbv beta. intros run s' tr Ht.
  destruct (silent run) eqn:Esilent.
  - cbn [negb]. cbv [raised]. apply emits_ret_bind. destruct Ht as [-> (l0 & p0 & -> & Hl0)].
    eapply emits_weaken; [exact Hm|]. cbv beta. intros r s' tr' (-> & l & printed & -> & Hl).
    split; [done|]. split; [by repeat constructor|]. exists [ELaunch l0 (p0, Ok run)], l, printed.
    split_and!; [done|done|by repeat constructor].
  - apply emits_ret. rewrite app_nil_r. by apply Hlast.
Qed.

(** A verb whose output is read once it has succeeded. *)
Lemma verb_answers {A} (read : ConsoleRun -> option A) (k : ConsoleRun -> result A Error) bundle verb t f on (s : St) :
  (forall run a, k run = Ok a <-> read run = Some a) ->
  emits s (do? run <- run_verb (W := TW) bundle verb t f on; ret (k run)) (fun r s' tr => s' = s /\
    Forall (launches (verb_args verb)) tr /\ asked_once_heard tr /\
    match r with
    | Ok a => answered (verb_args verb) read a tr
    | Err _ => forall a, ~ answered (verb_args verb) read a tr
    end).
Proof.
  intros Hk. eapply emits_try; [apply run_verb_emits|..]; cbv beta.
  - intros e s' tr (-> & Hall & pre & l & printed & -> & _ & Hpre). split_and!; [done|done|by eexists _, _|].
    intros a (pre' & l' & printed' & run & E & _). by apply app_inj_tail in E as [_ [=]].
  - intros run s' tr (-> & Hall & pre & l & printed & -> & Hl & Hpre). apply emits_ret. rewrite app_nil_r.
    split_and!; [done|done|by eexists _, _|]. destruct (k run) as [a|e] eqn:E.
    + exists pre, l, printed, run. split_and!; [done..|]. by apply Hk.
    + intros a (pre' & l' & printed' & run' & E' & _ & Hr). apply app_inj_tail in E' as [_ [= _ _ <-]].
      apply Hk in Hr. congruence.
Qed.

Lemma list_results_emits bundle t f (s : St) :
  emits s (list_results (W := TW) bundle t f) (fun r s' tr => s' = s /\ Forall (launches list_args) tr /\ asked_once_heard tr /\
    match r with
    | Ok listed => answered list_args read_listing listed tr
    | Err _ => forall listed, ~ answered list_args read_listing listed tr
    end).
Proof.
  apply verb_answers. intros run a. unfold read_listing. destruct (succeeded run); split; congruence.
Qed.

Lemma show_result_emits bundle r t f (s : St) :
  emits s (show_result (W := TW) bundle r t f) (fun a s' tr => s' = s /\ Forall (launches (show_args r)) tr /\ asked_once_heard tr /\
    match a with
    | Ok v => answered (show_args r) read_payload v tr
    | Err _ => forall v, ~ answered (show_args r) read_payload v tr
    end).
Proof.
  apply verb_answers. intros run a. unfold read_payload. destruct (succeeded run); [|split; congruence].
  destruct (first_json_document _); cbn; split; congruence.
Qed.

Lemma local_client_id_emits bundle t f (s : St) :
  emits s (local_client_id (W := TW) bundle t f) (fun a s' tr => s' = s /\ Forall (launches identity_args) tr /\ asked_once_heard tr /\
    match a with
    | Ok id => answered identity_args read_identity id tr
    | Err _ => forall id, ~ answered identity_args read_identity id tr
    end).
Proof.
  apply verb_answers. intros run a. unfold read_identity. destruct (succeeded run); [|split; congruence].
  destruct (parse_local_client_id _); split; congruence.
Qed.

Lemma delete_result_emits bundle r t f (s : St) :
  emits s (delete_result (W := TW) bundle r t f) (fun _ s' tr => s' = s /\ Forall (launches (delete_args r)) tr).
Proof.
  eapply emits_weaken.
  - apply (verb_answers (fun run => if succeeded run then Some tt else None)).
    intros run []. destruct (succeeded run); split; congruence.
  - cbv beta. by intros a s' tr (-> & Hall & _).
Qed.
End Verbs.

(** ** Results are deleted once the server has them *)

(** A launch that deletes the result of this name. *)
Definition deletes (name : str) (e : Event) : Prop :=
  launches (verb_args [lit "results"; lit "delete"; lit "result=" ++ name]) e.

(** The phone has listed the result as one the server has. *)
Definition seen_submitted (r : ResultRef) (K : list Event) : Prop :=
  exists l printed run listed x, ELaunch l (printed, Ok run) ∈ K /\ launch_args l = list_args /\
    read_listing run = Some listed /\ x ∈ listed /\ listed_ref x = r /\ listed_submitted x = true.

Section Held.
Context `{PT : ProxyTexts} `{RT : RuntimeTypes}.

(** The phone has shown the result's payload, and the server has taken it, filed under the
    job. *)
Definition taken (job : ClaimedJob) (r : ResultRef) (K : list Event) : Prop :=
  exists l printed run payload output body answer,
    ELaunch l (printed, Ok run) ∈ K /\ launch_args l = show_args r /\ read_payload run = Some payload /\
    bound_payload job payload output = Ok body /\ ESubmit (ResultBody body) (Ok answer) ∈ K.

Definition held (job : ClaimedJob) (name : str) (K : list Event) : Prop :=
  exists r, wire r = name /\ (seen_submitted r K \/ taken job r K).

(** After [K], a program with the trace [tr] deletes only what the server holds by then. *)
Definition kept (job : ClaimedJob) (K tr : list Event) : Prop :=
  forall tr1 e tr2 name, tr = tr1 ++ e :: tr2 -> deletes name e -> held job name (K ++ tr1).

Definition deletes_none (e : Event) : Prop :=
  match e with ELaunch _ _ => forall name, ~ deletes name e | _ => True end.

Lemma deletes_none_not e name : deletes_none e -> ~ deletes name e.
Proof. destruct e; cbn; auto. Qed.

Lemma held_mono job name K K' : K ⊆ K' -> held job name K -> held job name K'.
Proof.
  intros HK (r & Hr & [Hs|Ht]); exists r; (split; [done|]); [left|right].
  - destruct Hs as (l & printed & run & listed & x & He & Hs). exists l, printed, run, listed, x.
    split; [by apply HK|done].
  - destruct Ht as (l & printed & run & v & o & b & a & He & ? & ? & ? & Hb).
    exists l, printed, run, v, o, b, a. split_and!; try done; by apply HK.
Qed.

Lemma kept_mono job K K' tr : K ⊆ K' -> kept job K tr -> kept job K' tr.
Proof.
  intros HK Hk tr1 e tr2 name E Hd. eapply held_mono; [|by eapply Hk]. set_solver.
Qed.

Lemma kept_none job K tr : Forall deletes_none tr -> kept job K tr.
Proof.
  intros Hq tr1 e tr2 name -> Hd. apply Forall_app in Hq as [_ Hq]. apply Forall_cons in Hq as [He _].
  by destruct (deletes_none_not e name).
Qed.

Lemma kept_app job K tr tr' : kept job K tr -> kept job (K ++ tr) tr' -> kept job K (tr ++ tr').
Proof.
  intros H1 H2 tr1 e tr2 name E Hd. apply app_eq_inv in E as [(k & -> & E)|(k & -> & E)].
  - destruct k as [|e' k]; cbn in E.
    + rewrite app_nil_r in H2. eapply held_mono; [|by eapply (H2 [])]. by rewrite app_nil_r.
    + injection E as -> ->. by eapply H1.
  - rewrite app_assoc. by eapply H2.
Qed.

Lemma kept_held job K tr name : Forall (deletes name) tr -> held job name K -> kept job K tr.
Proof.
  intros Hall Hh tr1 e tr2 name' -> Hd. apply Forall_app in Hall as [_ Hall].
  apply Forall_cons in Hall as [He _]. destruct e; try done. cbn in He, Hd. rewrite He in Hd.
  injection Hd as <-. eapply held_mono; [|done]. set_solver.
Qed.

Lemma answered_elem {A} args read (a : A) tr :
  answered args read a tr ->
  exists l printed run, ELaunch l (printed, Ok run) ∈ tr /\ launch_args l = args /\ read run = Some a.
Proof.
  intros (pre & l & printed & run & -> & Hl & Hr). exists l, printed, run.
  split; [set_solver|done].
Qed.
End Held.

Section Keeping.
Context `{PT : ProxyTexts} `{JT : JobTexts} `{LT : LaunchTexts} `{RT : RuntimeTypes}.
Context {W : Type} `{MC : MgmtClient W} `{DC : DeviceControl W} `{PH : ProxyHost W}.
Context (cfg : PhoneConfig).
Notation TW := (W * list Event)%type.

Definition keeps {S T} (job : ClaimedJob) (K : list Event) (m : prog S TW T) : Prop :=
  forall s, emits s m (fun _ _ tr => kept job K tr).

Lemma keeps_none {S T} job K (m : prog S TW T) : does deletes_none m -> keeps job K m.
Proof. intros Hm s. eapply emits_weaken; [apply Hm|]. intros t s' tr. apply kept_none. Qed.

Lemma keeps_bind {S T U} job K (m : prog S TW T) (k : T -> prog S TW U) :
  keeps job K m -> (forall t tr, keeps job (K ++ tr) (k t)) -> keeps job K (bind m k).
Proof.
  intros Hm Hk s. eapply emits_bind; [apply Hm|]. cbv beta. intros t s' tr Ht.
  eapply emits_weaken; [apply (Hk t tr)|]. cbv beta. intros u s'' tr' Hu. by apply kept_app.
Qed.

Lemma keeps_try {S T U E} job K (m : prog S TW (result T E)) (k : T -> prog S TW (result U E)) :
  keeps job K m -> (forall t tr, keeps job (K ++ tr) (k t)) -> keeps job K (try_bind m k).
Proof.
  intros Hm Hk. apply keeps_bind; [done|]. intros [t|e] tr; [apply Hk|]. apply keeps_none, does_ret.
Qed.

Lemma keeps_each {S A T} job K (f : A -> prog S TW T) l :
  (forall a tr, a ∈ l -> keeps job (K ++ tr) (f a)) -> keeps job K (each f l).
Proof.
  revert K. induction l as [|a l IH]; intros K Hf; cbn [each]; [apply keeps_none, does_ret|].
  apply keeps_bind; [rewrite <- (app_nil_r K); apply Hf; set_solver|]. intros t tr.
  apply keeps_bind; [|intros; apply keeps_none, does_ret]. apply IH. intros a' tr' Ha.
  rewrite <- app_assoc. apply Hf. set_solver.
Qed.

Lemma delete_result_keeps {S} job K bundle r t f :
  held job (wire r) K -> keeps job K (delete_result (St := S) (W := TW) bundle r t f).
Proof.
  intros Hh s. eapply emits_weaken; [apply delete_result_emits|]. cbv beta. intros a s' tr [_ Hall].
  by apply (kept_held _ _ _ (wire r)).
Qed.

Lemma drop_result_keeps job K r : held job (wire r) K -> keeps job K (drop_result (W := TW) cfg r).
Proof.
  intros Hh. apply keeps_bind; [by apply delete_result_keeps|]. intros. apply keeps_none, does_ret.
Qed.

(** What the proxy has seen of a result it collected. *)
Definition seen (K : list Event) (c : Collected) : Prop :=
  (collected_submitted c = true -> seen_submitted (collected_ref c) K) /\
  exists l printed run, ELaunch l (printed, Ok run) ∈ K /\ launch_args l = show_args (collected_ref c) /\
    read_payload run = Some (collected_payload c).

Lemma seen_mono K K' c : K ⊆ K' -> seen K c -> seen K' c.
Proof.
  intros HK [Hs (l & printed & run & He & Hr)]. split.
  - intros Hc. destruct (Hs Hc) as (l' & p & run' & listed & x & He' & Hx).
    exists l', p, run', listed, x. split; [by apply HK|done].
  - exists l, printed, run. split; [by apply HK|done].
Qed.

Lemma launches_none args e :
  (forall name, args <> verb_args [lit "results"; lit "delete"; lit "result=" ++ name]) ->
  launches args e -> deletes_none e.
Proof. intros Hn He. destruct e; try done. intros name Hd. apply (Hn name).
  cbn [launches] in He, Hd. by rewrite <- He. Qed.

Lemma list_args_none e : launches list_args e -> deletes_none e.
Proof. apply launches_none. intros name [=]. Qed.

Lemma show_args_none r e : launches (show_args r) e -> deletes_none e.
Proof. apply launches_none. intros name [=]. Qed.

Lemma identity_args_none e : launches identity_args e -> deletes_none e.
Proof. apply launches_none. intros name [=]. Qed.

(** The listing a collection starts from. *)
Definition listing (listed : list ListedResult) (K : list Event) : Prop :=
  exists l printed run, ELaunch l (printed, Ok run) ∈ K /\ launch_args l = list_args /\
    read_listing run = Some listed.

Lemma show_each_seen listed l K (s : Phone) :
  listing listed K -> l ⊆ listed ->
  emits s (try_each (fun x =>
      do? payload <- show_result (bundle_id cfg) (listed_ref x) (call_timeout cfg) (first_line_timeout cfg);
      ret (Ok {| collected_ref := listed_ref x; collected_submitted := listed_submitted x;
                 collected_payload := payload |})) l)
    (fun r _ tr => Forall deletes_none tr /\
      match r with Ok cs => Forall (seen (K ++ tr)) cs | Err _ => True end).
Proof.
  intros HK. revert s. induction l as [|x l IH]; intros s Hl; cbn [try_each]; [by apply emits_ret|].
  eapply emits_try with (P := fun r _ tr => Forall deletes_none tr /\
    match r with Ok c => seen (K ++ tr) c | Err _ => True end).
  - eapply emits_try; [apply show_result_emits|..]; cbv beta.
    + intros e s' tr (_ & Hall & _). split; [|done]. by eapply Forall_impl, show_args_none.
    + intros v s' tr (_ & Hall & _ & Hv). apply emits_ret. rewrite app_nil_r.
      split; [by eapply Forall_impl, show_args_none|]. split; cbn [collected_ref collected_submitted collected_payload].
      * intros Hx. destruct HK as (l0 & p & run & He & Ha & Hr).
        exists l0, p, run, listed, x. split_and!; [set_solver|done..|set_solver|done|done].
      * destruct (answered_elem _ _ _ _ Hv) as (l0 & p & run & He & Hr). exists l0, p, run.
        split; [set_solver|done].
  - cbv beta. intros e s' tr [Hall _]. done.
  - cbv beta. intros c s' tr [Hall Hc].
    eapply emits_try; [apply IH; set_solver|..]; cbv beta.
    + intros e s'' tr' [Hall' _]. split; [by apply Forall_app|done].
    + intros cs s'' tr' [Hall' Hcs]. apply emits_ret. rewrite app_nil_r. split; [by apply Forall_app|].
      constructor; [eapply seen_mono; [|exact Hc]; set_solver|].
      eapply Forall_impl; [exact Hcs|]. intros c'. apply seen_mono. set_solver.
Qed.

Lemma collect_payloads_seen before (s : Phone) :
  emits s (collect_payloads (W := TW) cfg before) (fun r _ tr => Forall deletes_none tr /\
    match r with Ok cs => Forall (seen tr) cs | Err _ => True end).
Proof.
  unfold collect_payloads. eapply emits_try; [apply list_results_emits|..]; cbv beta.
  - intros e s' tr (_ & Hall & _). split; [|done]. by eapply Forall_impl, list_args_none.
  - intros listed s' tr (_ & Hall & _ & Hl). apply answered_elem in Hl.
    eapply emits_weaken; [apply (show_each_seen listed _ tr); [done|]|].
    + intros x Hx. by apply list_elem_of_filter in Hx as [_ Hx].
    + cbv beta. intros r s'' tr' [Hall' Hr]. split; [|done]. apply Forall_app. split; [|done].
      by eapply Forall_impl, list_args_none.
Qed.

(** *** The rest deletes nothing *)

Lemma launch_plan_args job plan :
  launch_plan_from_claim job = Ok plan ->
  exists text rest, app_args plan = HEADLESS_TOKEN :: (lit "runtime=" ++ text) :: rest.
Proof.
  unfold launch_plan_from_claim, result_bind. intros E.
  repeat (case_match; try discriminate E); injection E as <-; by eexists _, _.
Qed.

Lemma plan_launches_none job plan e :
  launch_plan_from_claim job = Ok plan -> launches (app_args plan) e -> deletes_none e.
Proof.
  intros Hp. apply launch_plan_args in Hp as (text & rest & ->). apply launches_none. intros name [=].
Qed.

Lemma run_benchmark_none {S} job plan bundle t f :
  launch_plan_from_claim job = Ok plan ->
  does deletes_none (run_benchmark (St := S) (W := TW) bundle (app_args plan) t f).
Proof.
  intros Hp. apply relaunch_does; [|done..]. does; [|by apply forward_does].
  apply does_io. intros r. constructor; [|done]. by eapply plan_launches_none.
Qed.

Lemma does_all {S T} (P Q : Event -> Prop) (m : prog S TW T) R :
  (forall e, P e -> Q e) -> (forall s, emits s m (fun r s' tr => s' = s /\ Forall P tr /\ R r tr)) -> does Q m.
Proof.
  intros HPQ Hm s. eapply emits_weaken; [apply Hm|]. cbv beta. intros r s' tr (_ & Hall & _).
  by eapply Forall_impl.
Qed.

Lemma list_results_none {S} b t f : does deletes_none (list_results (St := S) (W := TW) b t f).
Proof. eapply does_all; [apply list_args_none|]. intros s. apply list_results_emits. Qed.

Lemma local_client_id_none {S} b t f : does deletes_none (local_client_id (St := S) (W := TW) b t f).
Proof. eapply does_all; [apply identity_args_none|]. intros s. apply local_client_id_emits. Qed.
#[local] Hint Resolve list_results_none local_client_id_none : does.

Lemma record_installed_none r : does deletes_none (record_installed (W := TW) r).
Proof. unfold record_installed. does. Qed.

Lemma harvest_none v : does deletes_none (harvest_device_facts (W := TW) v).
Proof. unfold harvest_device_facts. does. Qed.
#[local] Hint Resolve record_installed_none harvest_none : does.

Lemma ensure_installed_none pool r : does deletes_none (ensure_installed (W := TW) cfg pool r).
Proof. unfold ensure_installed, bundle_present, install_build, set_installed, check_before, check_after. does. Qed.

Lemma known_benchmark_none job : does deletes_none (known_benchmark (W := TW) job).
Proof. unfold known_benchmark, benchmark_is_unknown. does. Qed.

Lemma results_before_none : does deletes_none (results_before (W := TW) cfg).
Proof. unfold results_before. does. Qed.

Lemma pin_gpu_none : does deletes_none (pin_gpu (W := TW) cfg).
Proof. unfold pin_gpu. does. Qed.
#[local] Hint Resolve ensure_installed_none known_benchmark_none results_before_none pin_gpu_none : does.

Lemma submission_none {S} id body : does deletes_none (submit_with_backoff (St := S) (W := TW) id body).
Proof. apply submit_with_backoff_does; done. Qed.

(** An accepted result is the bound payload. *)
Lemma submit_success_taken {S} job payload output (s : S) :
  emits s (submit_success (W := TW) job payload output) (fun r _ tr => Forall deletes_none tr /\
    match r with
    | Ok (Some a) => exists body, bound_payload job payload output = Ok body /\
        ESubmit (ResultBody body) (Ok a) ∈ tr
    | _ => True
    end).
Proof.
  unfold submit_success. destruct (bound_payload job payload output) as [v|e] eqn:E; [|by apply emits_ret].
  eapply emits_weaken; [apply emits_and; [apply submit_emits|apply submission_none]|].
  cbv beta. intros r s' tr [[-> Hr] Hn]. split; [done|].
  destruct r as [[a|]|]; try done. exists v. split; [done|].
  destruct (proxy_submit_bounds (job_id job) (ResultBody v) 1 tr (Ok (Some a))) as ([_ Hl] & _); [done|exact Hr|].
  apply last_Some_elem_of in Hl. apply list_elem_of_omap in Hl as (e & He & Hs).
  destruct e; try done. by injection Hs as <- <-.
Qed.

(** *** After the run, and the whole job *)

Lemma settle_collected_keeps job output c K :
  seen K c -> keeps job K (settle_collected (W := TW) cfg job output c).
Proof.
  intros [Hs (l & printed & run & He & Hl & Hr)]. unfold settle_collected.
  apply keeps_bind; [apply keeps_none; eauto with does|]. intros _ tr.
  destruct (collected_submitted c) eqn:Ec.
  - apply keeps_bind; [|intros; apply keeps_none, does_ret]. apply drop_result_keeps.
    exists (collected_ref c). split; [done|]. left.
    destruct (Hs eq_refl) as (l' & p & run' & listed & x & He' & Hx).
    exists l', p, run', listed, x. split; [set_solver|done].
  - intros s. eapply emits_bind; [apply submit_success_taken|]. cbv beta. intros r s' tr' [Hn Ha].
    destruct r as [[a|]|]; try (apply emits_ret; rewrite app_nil_r; by apply kept_none).
    eapply emits_weaken.
    + apply (keeps_bind job ((K ++ tr) ++ tr')); [apply drop_result_keeps|intros; apply keeps_none, does_ret].
      exists (collected_ref c). split; [done|]. right. destruct Ha as (body & Hb & Hs').
      exists l, printed, run, (collected_payload c), output, body, a. split_and!; try done; set_solver.
    + cbv beta. intros b s'' tr'' Hk. apply kept_app; [by apply kept_none|done].
Qed.

Lemma keeps_collected {T} job K before k :
  (forall r tr, match r with Ok cs => Forall (seen (K ++ tr)) cs | Err _ => True end ->
    keeps job (K ++ tr) (k r)) ->
  keeps job K (T := T) (bind (collect_payloads (W := TW) cfg before) k).
Proof.
  intros Hk s. eapply emits_bind; [apply collect_payloads_seen|]. cbv beta. intros r s' tr [Hn Hr].
  eapply emits_weaken; [apply (Hk r tr)|].
  - destruct r as [cs|]; [|done]. eapply Forall_impl; [exact Hr|]. intros c. apply seen_mono. set_solver.
  - cbv beta. intros t s'' tr' Ht. apply kept_app; [by apply kept_none|done].
Qed.

Lemma settle_uploaded_keeps job before K : keeps job K (settle_uploaded (W := TW) cfg before).
Proof.
  unfold settle_uploaded. apply keeps_collected. intros [cs|e] tr Hcs; [|apply keeps_none, does_ret].
  apply keeps_bind; [|intros; apply keeps_none, does_ret]. apply keeps_each. intros c tr' Hc.
  apply list_elem_of_filter in Hc as [Hsub Hc].
  apply keeps_bind; [apply keeps_none; eauto with does|]. intros _ tr''. apply drop_result_keeps.
  exists (collected_ref c). split; [done|]. left. rewrite Forall_forall in Hcs.
  destruct (Hcs c Hc) as [Hs _]. destruct (Hs Hsub) as (l & p & run & listed & x & He & Hx).
  exists l, p, run, listed, x. split; [set_solver|done].
Qed.

Lemma submit_results_keeps job before version run elapsed K :
  keeps job K (submit_results (W := TW) cfg job before version run elapsed).
Proof.
  unfold submit_results. cbv zeta. apply keeps_collected. intros r tr Hr.
  destruct r as [cs|e]; cbn [or_fail]; [|apply keeps_none, does_ret].
  destruct cs as [|c cs]; [apply keeps_none, does_ret|].
  destruct (version ≫= _); [apply keeps_none, does_ret|].
  apply keeps_bind; [|intros; apply keeps_none, does_ret]. apply keeps_each. intros c' tr' Hc.
  apply settle_collected_keeps. rewrite Forall_forall in Hr. eapply seen_mono; [|by apply Hr]. set_solver.
Qed.

Lemma after_run_keeps job before version launched pinned elapsed K :
  keeps job K (after_run (W := TW) cfg job before version launched pinned elapsed).
Proof.
  unfold after_run. apply keeps_bind; [apply keeps_none; does|]. intros lost tr. destruct lost.
  { apply keeps_bind; [apply settle_uploaded_keeps|]. intros. apply keeps_none, does_ret. }
  apply keeps_try; [apply keeps_none, does_ret|]. intros run tr'.
  repeat (case_match; [apply keeps_none, does_ret|]).
  destruct pinned; [apply submit_results_keeps|apply keeps_none, does_ret].
Qed.

Lemma run_and_submit_keeps job plan before version K :
  launch_plan_from_claim job = Ok plan ->
  keeps job K (run_and_submit (W := TW) cfg job plan before version).
Proof.
  intros Hp. unfold run_and_submit. apply keeps_bind; [apply keeps_none; eauto with does|].
  intros [held_|e] tr; [|apply keeps_none; does].
  do 5 (apply keeps_bind; [apply keeps_none; first [by eapply run_benchmark_none|does]|intros ? ?]).
  apply after_run_keeps.
Qed.

Lemma keeps_ret_try {S T U E} job K (t : T) (k : T -> prog S TW (result U E)) :
  keeps job K (k t) -> keeps job K (try_bind (ret (Ok t)) k).
Proof. done. Qed.

Lemma execute_job_keeps pool job K : keeps job K (execute_job (W := TW) cfg pool job).
Proof.
  unfold execute_job, launch_plan.
  destruct (launch_plan_from_claim job) as [plan|refusal] eqn:Hp; [|by apply keeps_none, does_ret].
  apply keeps_ret_try, keeps_try; [apply keeps_none; eauto with does|]. intros _ tr1.
  apply keeps_bind; [apply keeps_none; eauto with does|]. intros [[]|e] tr2; [|apply keeps_none, does_ret].
  apply keeps_try; [apply keeps_none; eauto with does|]. intros before tr3.
  apply keeps_bind; [apply keeps_none; does|]. intros _ tr4. by apply run_and_submit_keeps.
Qed.

Lemma conclude_none {S} job end_ : does deletes_none (conclude (St := S) (W := TW) job end_).
Proof.
  unfold conclude, report_failure, submit_failure. pose proof (@submission_none S). does.
Qed.

Lemma run_claimed_job_keeps pool job K :
  keeps job K (run_claimed_job (execute_job (W := TW) cfg pool job) job).
Proof.
  unfold run_claimed_job. apply keeps_bind; [apply execute_job_keeps|]. intros r tr.
  apply keeps_none. pose proof (@conclude_none Phone). does.
Qed.

(** C15: A result leaves the phone only once the server has it. Every launch that deletes a
    result comes after the phone listed that result as submitted, or after the server
    accepted, filed under this job, the very payload the phone showed for it. *)
Theorem results_leave_once_held (pool : Pool) (job : ClaimedJob) (s : Phone) (w : W) :
  exists r s' w' tr,
    run_claimed_job (execute_job cfg pool job) job (s, (w, [])) = (r, (s', (w', tr))) /\
    forall tr1 e tr2 name, tr = tr1 ++ e :: tr2 -> deletes name e -> held job name tr1.
Proof.
  destruct (run_claimed_job_keeps pool job [] s w []) as (r & s' & w' & tr & E & Hk).
  by exists r, s', w', tr.
Qed.
End Keeping.

(** ** The record of the installed build *)

(** What a record kept on the Mac says after these stores, when it said [o] before. *)
Definition recorded (o : option str) (tr : list Event) : option str :=
  foldl (fun o e => match e with EStoreInstalled record (Ok _) => build_path record | _ => o end) o tr.

Lemma recorded_app o tr tr' : recorded o (tr ++ tr') = recorded (recorded o tr) tr'.
Proof. apply foldl_app. Qed.

Section Record.
Context `{PT : ProxyTexts} `{JT : JobTexts} `{LT : LaunchTexts} `{RT : RuntimeTypes}.
Context {W : Type} `{MC : MgmtClient W} `{DC : DeviceControl W} `{PH : ProxyHost W}.
Context (cfg : PhoneConfig).
Notation TW := (W * list Event)%type.

(** The build was checked and installed, the record said nothing meanwhile, and the phone
    then answered with the identity it was configured with. *)
Definition installed_and_checked (build : str) (tr : list Event) : Prop :=
  exists pre asks, tr = pre ++ [EStoreInstalled unknown_build (Ok tt); EVerify build (Ok tt);
      EInstall build (Ok tt)] ++ asks /\
    Forall (launches identity_args) asks /\ answered identity_args read_identity (client_id cfg) asks.

Definition vouched (tr : list Event) : Prop :=
  forall tr1 record r tr2 build, tr = tr1 ++ EStoreInstalled record r :: tr2 ->
    build_path record = Some build -> installed_and_checked build tr1.

Definition recording {T} (m : prog Phone TW T) : Prop :=
  forall s, emits s m (fun _ s' tr => installed s' = recorded (installed s) tr /\ vouched tr).

Lemma installed_and_checked_app build tr tr' :
  installed_and_checked build tr' -> installed_and_checked build (tr ++ tr').
Proof. intros (pre & asks & -> & Ha). exists (tr ++ pre), asks. by rewrite <- app_assoc. Qed.

Lemma vouched_app tr tr' : vouched tr -> vouched tr' -> vouched (tr ++ tr').
Proof.
  intros H1 H2 tr1 record r tr2 build E Hb. apply app_eq_inv in E as [(k & -> & E)|(k & -> & E)].
  - destruct k as [|e' k]; cbn in E.
    + rewrite <- (app_nil_r tr1). apply installed_and_checked_app. by eapply (H2 []).
    + injection E as <- ->. by eapply H1.
  - apply installed_and_checked_app. by eapply H2.
Qed.

Definition stores (e : Event) : bool := match e with EStoreInstalled _ _ => true | _ => false end.

Lemma vouched_none tr : forallb (fun e => negb (stores e)) tr = true -> vouched tr.
Proof.
  intros Hn tr1 record r tr2 build -> _. rewrite forallb_app in Hn. apply andb_true_iff in Hn as [_ Hn].
  done.
Qed.

Lemma recorded_none o tr : forallb (fun e => negb (stores e)) tr = true -> recorded o tr = o.
Proof.
  induction tr as [|e tr IH]; [done|]. cbn. intros [He Htr]%andb_true_iff. by destruct e; auto.
Qed.

Lemma recording_ret {T} (t : T) : recording (ret t).
Proof. intros s. apply emits_ret. split; [done|]. by apply vouched_none. Qed.

Lemma recording_bind {T U} (m : prog Phone TW T) (k : T -> prog Phone TW U) :
  recording m -> (forall t, recording (k t)) -> recording (bind m k).
Proof.
  intros Hm Hk s. eapply emits_bind; [apply Hm|]. cbv beta. intros t s' tr [Hr Hv].
  eapply emits_weaken; [apply Hk|]. cbv beta. intros u s'' tr' [Hr' Hv'].
  split; [by rewrite recorded_app, <- Hr|by apply vouched_app].
Qed.

Lemma recording_try {T U E} (m : prog Phone TW (result T E)) (k : T -> prog Phone TW (result U E)) :
  recording m -> (forall t, recording (k t)) -> recording (try_bind m k).
Proof. intros Hm Hk. apply recording_bind; [done|]. intros [t|e]; [apply Hk|apply recording_ret]. Qed.

Lemma recording_io {T} (event : T -> list Event) (op : W -> T * W) :
  (forall t, forallb (fun e => negb (stores e)) (event t) = true) -> recording (io (logged event op)).
Proof.
  intros He s. apply emits_io. intros t. split; [by rewrite recorded_none|by apply vouched_none].
Qed.

Lemma recording_io_ (event : list Event) (op : W -> W) :
  forallb (fun e => negb (stores e)) event = true -> recording (io_ (logged_ event op)).
Proof. intros He s. apply emits_io_. split; [by rewrite recorded_none|by apply vouched_none]. Qed.

Lemma recording_each {A T} (f : A -> prog Phone TW T) l : (forall a, recording (f a)) -> recording (each f l).
Proof.
  intros Hf. induction l as [|a l IH]; cbn [each]; [apply recording_ret|].
  apply recording_bind; [done|]. intros t. apply recording_bind; [done|]. intros ts. apply recording_ret.
Qed.

Lemma recording_try_each {A T E} (f : A -> prog Phone TW (result T E)) l :
  (forall a, recording (f a)) -> recording (try_each f l).
Proof.
  intros Hf. induction l as [|a l IH]; cbn [try_each]; [apply recording_ret|].
  apply recording_try; [done|]. intros t. apply recording_try; [done|]. intros ts. apply recording_ret.
Qed.
End Record.

Create HintDb recording.

Ltac recording_step :=
  cbv zeta;
  lazymatch goal with
  | |- recording _ (ret _) => apply recording_ret
  | |- recording _ (try_bind _ _) => apply recording_try; [|intros ?]
  | |- recording _ (bind _ _) => apply recording_bind; [|intros ?]
  | |- recording _ (each _ _) => apply recording_each; intros ?
  | |- recording _ (try_each _ _) => apply recording_try_each; intros ?
  | |- recording _ (io _) => apply recording_io; intros ?; reflexivity
  | |- recording _ (io_ _) => apply recording_io_; reflexivity
  | |- recording _ (match _ with _ => _ end) => case_match
  | |- recording _ _ => solve [eauto with recording]
  end.

Ltac recording := repeat recording_step.

Section Recorded.
Context `{PT : ProxyTexts} `{JT : JobTexts} `{LT : LaunchTexts} `{RT : RuntimeTypes}.
Context {W : Type} `{MC : MgmtClient W} `{DC : DeviceControl W} `{PH : ProxyHost W}.
Context (cfg : PhoneConfig).
Notation TW := (W * list Event)%type.
Notation recording := (recording cfg).

Lemma forward_recording l : recording (forward (W := TW) l).
Proof. induction l as [|line l IH]; cbn [forward]; recording. Qed.

Lemma run_verb_recording bundle verb t f on : recording (run_verb (W := TW) bundle verb t f on).
Proof. unfold run_verb, relaunch_if_silent, raised. recording. Qed.

Lemma run_benchmark_recording bundle args t f : recording (run_benchmark (W := TW) bundle args t f).
Proof. pose proof forward_recording. unfold run_benchmark, relaunch_if_silent, raised. recording. Qed.
#[local] Hint Resolve run_verb_recording run_benchmark_recording : recording.

Lemma list_results_recording b t f : recording (list_results (W := TW) b t f).
Proof. unfold list_results. recording. Qed.

Lemma show_result_recording b r t f : recording (show_result (W := TW) b r t f).
Proof. unfold show_result. recording. Qed.

Lemma delete_result_recording b r t f : recording (delete_result (W := TW) b r t f).
Proof. unfold delete_result. recording. Qed.
#[local] Hint Resolve list_results_recording show_result_recording delete_result_recording : recording.

Lemma submission_recording id body : recording (submit_with_backoff (W := TW) id body).
Proof.
  intros s. eapply emits_weaken.
  { apply emits_and; [apply submit_emits|].
    apply (submit_with_backoff_does (fun e => negb (stores e) = true)); done. }
  cbv beta. intros r s' tr [[-> _] Hn].
  assert (forallb (fun e => negb (stores e)) tr = true) as Hs.
  { rewrite Forall_forall in Hn. apply forallb_forall. intros e He. by apply Hn, list_elem_of_In. }
  split; [by rewrite recorded_none|by apply vouched_none].
Qed.
#[local] Hint Resolve submission_recording : recording.

Lemma submit_success_recording job payload output : recording (submit_success (W := TW) job payload output).
Proof. unfold submit_success. recording. Qed.

Lemma submit_failure_recording job failure : recording (submit_failure (W := TW) job failure).
Proof. unfold submit_failure. recording. Qed.
#[local] Hint Resolve submit_success_recording submit_failure_recording : recording.

Lemma harvest_recording v : recording (harvest_device_facts (W := TW) v).
Proof.
  unfold harvest_device_facts. destruct (from_payload v); [|recording]. intros s. apply emits_get_bind.
  case_match; [by apply recording_ret|].
  emits_step. apply emits_set. split; [done|]. by apply vouched_none.
Qed.
#[local] Hint Resolve harvest_recording : recording.

Lemma collect_payloads_recording before : recording (collect_payloads (W := TW) cfg before).
Proof. unfold collect_payloads. recording. Qed.
#[local] Hint Resolve collect_payloads_recording : recording.

Lemma settle_collected_recording job output c : recording (settle_collected (W := TW) cfg job output c).
Proof. unfold settle_collected, drop_result. recording. Qed.

Lemma settle_uploaded_recording before : recording (settle_uploaded (W := TW) cfg before).
Proof. unfold settle_uploaded, drop_result. recording. Qed.
#[local] Hint Resolve settle_collected_recording settle_uploaded_recording : recording.

Lemma submit_results_recording job before version run elapsed :
  recording (submit_results (W := TW) cfg job before version run elapsed).
Proof. unfold submit_results. recording. Qed.
#[local] Hint Resolve submit_results_recording : recording.

Lemma after_run_recording job before version launched pinned elapsed :
  recording (after_run (W := TW) cfg job before version launched pinned elapsed).
Proof. unfold after_run. recording. Qed.
#[local] Hint Resolve after_run_recording : recording.

Lemma run_and_submit_recording job plan before version :
  recording (run_and_submit (W := TW) cfg job plan before version).
Proof. unfold run_and_submit, pin_gpu. recording. Qed.
#[local] Hint Resolve run_and_submit_recording : recording.

(** *** An install *)

Lemma record_installed_emits record (s : Phone) :
  emits s (record_installed (W := TW) record) (fun r s' tr => exists a, tr = [EStoreInstalled record a] /\
    installed s' = recorded (installed s) tr /\ (r = Ok tt -> a = Ok tt)).
Proof.
  unfold record_installed. eapply emits_try with (P := fun r s' tr => s' = s /\ tr = [EStoreInstalled record r]).
  - by apply emits_io.
  - intros e s' tr [-> ->]. by exists (Err e).
  - intros [] s' tr [-> ->]. apply emits_get_bind, emits_set_bind, emits_ret. by exists (Ok tt).
Qed.

Lemma record_unknown_recording : recording (record_installed (W := TW) unknown_build).
Proof.
  intros s. eapply emits_weaken; [apply record_installed_emits|]. cbv beta.
  intros r s' tr (a & -> & Hi & _). split; [done|].
  intros [|e tr1] record r' tr2 build E Hb; [by injection E as <- _ _|by destruct tr1].
Qed.

(** The identity is asked last. One that is not the configured one is told apart. *)
Lemma check_after_emits checked (s : Phone) :
  emits s (check_after (W := TW) cfg checked) (fun r s' tr => s' = s /\ Forall (launches identity_args) tr /\ asked_once_heard tr /\
    match r with
    | Ok _ => answered identity_args read_identity (client_id cfg) tr
    | Err e => forall found, answered identity_args read_identity found tr -> replaced_identity e = true
    end).
Proof.
  unfold check_after. eapply emits_bind; [apply local_client_id_emits|]. cbv beta.
  intros r s' tr (-> & Hall & Hlast & Hr). apply emits_ret. rewrite app_nil_r. split_and!; [done..|].
  destruct r as [found|e]; cbn [in_context].
  - destruct (str_eqb found (client_id cfg)) eqn:E; cbn [negb].
    + by apply str_eqb_eq in E as <-.
    + done.
  - intros found Hf. by destruct (Hr found).
Qed.

Lemma check_before_emits build (s : Phone) :
  emits s (check_before (W := TW) build) (fun r s' tr => s' = s /\ exists a, tr = [EVerify build a] /\
    (r = Ok tt -> a = Ok tt)).
Proof.
  unfold check_before. emits_step. apply emits_ret. rewrite app_nil_r. split; [done|].
  eexists; split; [done|]. by destruct t as [[]|].
Qed.

Definition installing (build : str) (s : Phone) (r : result unit Error) (s' : Phone) (tr : list Event) : Prop :=
  installed s' = recorded (installed s) tr /\ vouched cfg tr /\ (r = Ok tt -> installed s' = Some build).

(** What was recorded before the last store. *)
Lemma vouched_last tr build r :
  installed_and_checked cfg build tr -> vouched cfg tr ->
  vouched cfg (tr ++ [EStoreInstalled {| build_path := Some build; build_version := None |} r]).
Proof.
  intros Hi Hv tr1 record r' tr2 b E Hb. destruct tr2 as [|e tr2 _] using rev_ind.
  - apply app_inj_tail in E as [-> [= <- _]]. cbn in Hb. by simplify_eq.
  - rewrite app_comm_cons, app_assoc in E. apply app_inj_tail in E as [-> _]. by eapply Hv.
Qed.

Lemma identity_quiet asks : Forall (launches identity_args) asks -> forallb (fun e => negb (stores e)) asks = true.
Proof.
  rewrite Forall_forall. intros Ha. apply forallb_forall. intros e He%list_elem_of_In.
  specialize (Ha e He). by destruct e.
Qed.

(** An install that failed after the record was cleared. *)
Lemma install_failed build (s s' : Phone) e rest :
  installed s' = None -> forallb (fun e => negb (stores e)) rest = true ->
  installing build s (Err e) s' (EStoreInstalled unknown_build (Ok tt) :: rest).
Proof.
  intros Hs Hq. split; [|split; [|done]].
  - cbn. by rewrite recorded_none.
  - apply (vouched_app cfg [_] rest); [|by apply vouched_none].
    intros [|e' tr1] record r' tr2 b E Hb; [by injection E as <- _ _|by destruct tr1].
Qed.

Lemma install_build_emits build (s : Phone) : emits s (install_build (W := TW) cfg build) (installing build s).
Proof.
  unfold install_build. eapply emits_try; [apply record_installed_emits|..]; cbv beta.
  { intros e s1 tr1 (a & -> & Hi & _). split; [done|]. split; [|done].
    intros [|e' tr1] record r' tr2 b E Hb; [by injection E as <- _ _|by destruct tr1]. }
  intros [] s1 tr1 (a & -> & Hi & Ha). rewrite (Ha eq_refl) in *. cbn in Hi.
  eapply emits_try; [apply check_before_emits|..]; cbv beta.
  { intros e s2 tr2 [-> (a2 & -> & _)]. by apply install_failed. }
  intros [] s2 tr2 [-> (a2 & -> & Ha2)]. rewrite (Ha2 eq_refl).
  apply emits_io_bind. intros a3. destruct a3 as [[]|e]; cbn [in_context]; [|apply emits_ret; by apply install_failed].
  apply emits_ret_bind.
  eapply emits_try; [apply check_after_emits|..]; cbv beta.
  { intros e s3 tr3 (-> & Hall & _). apply install_failed; [done|]. cbn. by apply identity_quiet. }
  intros [] s3 asks (-> & Hall & _ & Hasked). eapply emits_weaken; [apply record_installed_emits|]. cbv beta.
  intros r s4 tr4 (a4 & -> & Hi4 & Ha4). rewrite !app_assoc. split; [|split].
  - rewrite recorded_app, Hi4. f_equal. cbn. by rewrite recorded_none by (by apply identity_quiet).
  - apply vouched_last; [by exists [], asks|].
    destruct (install_failed build s s1 (bail []) ([EVerify build (Ok tt)] ++ [EInstall build (Ok tt)] ++ asks))
      as (_ & Hv & _); [done|cbn; by apply identity_quiet|exact Hv].
  - intros ->. rewrite Hi4, (Ha4 eq_refl). done.
Qed.

(** The build a job needs, on the phone or put there. *)
Lemma ensure_installed_emits pool rt (s : Phone) :
  emits s (ensure_installed (W := TW) cfg pool rt) (fun r s' tr =>
    installed s' = recorded (installed s) tr /\ vouched cfg tr /\
    (r = Ok tt -> exists build, build_for pool rt = Some build /\ installed s' = Some build)).
Proof.
  unfold ensure_installed. destruct (build_for pool rt) as [build|] eqn:Eb.
  2: { apply emits_ret. split_and!; [done|by apply vouched_none|done]. }
  apply emits_get_bind. destruct (bool_decide_reflect (installed s = Some build)) as [Hs|Hs].
  - unfold bundle_present. eapply emits_try with (P := fun r s' tr => s' = s /\
      forallb (fun e => negb (stores e)) tr = true).
    + emits_step. by apply emits_ret.
    + intros e s' tr [-> Hq]. split_and!; [by rewrite recorded_none|by apply vouched_none|done].
    + intros there s' tr [-> Hq]. destruct there.
      * apply emits_ret. rewrite app_nil_r.
        split_and!; [by rewrite recorded_none|by apply vouched_none|eauto].
      * eapply emits_weaken; [apply install_build_emits|]. cbv beta. intros r s' tr' (Hr & Hv & Hok).
        split_and!; [by rewrite recorded_app, (recorded_none _ tr)|apply vouched_app; [by apply vouched_none|done]|eauto].
  - apply emits_ret_bind. eapply emits_weaken; [apply install_build_emits|]. cbv beta.
    intros r s' tr' (Hr & Hv & Hok). split_and!; [done|done|eauto].
Qed.

Lemma ensure_installed_recording pool rt : recording (ensure_installed (W := TW) cfg pool rt).
Proof.
  intros s. eapply emits_weaken; [apply ensure_installed_emits|]. cbv beta. by intros r s' tr (Hr & Hv & _).
Qed.
#[local] Hint Resolve ensure_installed_recording : recording.

Lemma run_claimed_job_recording pool job :
  recording (run_claimed_job (execute_job (W := TW) cfg pool job) job).
Proof.
  unfold run_claimed_job, execute_job, known_benchmark, benchmark_is_unknown, results_before,
    conclude, report_failure. recording.
Qed.

(** What the proxy remembers of the phone's build is what its record on the Mac says,
    through the whole of a job; and a record names a build only after that build was checked
    and installed, with the record cleared before, and the phone then answered with the
    identity it is configured with. *)
Theorem record_names_checked_build (pool : Pool) (job : ClaimedJob) (s : Phone) (w : W) :
  exists r s' w' tr,
    run_claimed_job (execute_job cfg pool job) job (s, (w, [])) = (r, (s', (w', tr))) /\
    installed s' = recorded (installed s) tr /\
    forall tr1 record answer tr2 build, tr = tr1 ++ EStoreInstalled record answer :: tr2 ->
      build_path record = Some build -> installed_and_checked cfg build tr1.
Proof.
  destruct (run_claimed_job_recording pool job s w []) as (r & s' & w' & tr & E & Hi & Hv).
  by exists r, s', w', tr.
Qed.
End Recorded.
