(* ===== verification/ProxyLoop.v ===== *)
(** * The claim loop of one phone ([worker/mod.rs], [worker/fleet.rs], [worker/pause.rs],
    [profile.rs], [main.rs])

    One thread per phone. It puts a build source in order, reports the phone's profile, waits
    for the client to be claimable and then claims, runs and re-reports until its budget is
    spent, a stop is raised or only an operator can help; anything else restarts it under a
    backoff. Where the builds come from is an interface: [Builds] is what the loop asks of
    pool mode and of version mode, and [BuildsLaws] what it relies on.

    The loops have no bound of their own, so each takes the number of passes it may make and
    answers [None] when it has made them: what is proved holds after any number of passes. *)

From Stdlib Require Import ZArith Lia String.
From stdpp Require Import prelude list.
From S2P Require Import Prelude Str Timing Json Errors Protocol ProxyBase ProxyServer ProxyApp ProxyLaunch ProxyJob ProxyResults.

Local Open Scope Z_scope.
Local Open Scope proxy_scope.

(** ** The profile *)

Definition FORM_FACTOR : str := lit "phone".
Definition OS_NAME : str := lit "iOS".
Definition OS_FAMILY : str := OS_NAME.
Definition UNKNOWN_HOST : str := lit "unknown-host".

(** What [devicectl] said of the phone, without the iOS version, which [Phone] keeps. *)
Record DeviceDetails := {
  identifier : str;
  product_type : str;
  marketing_name : option str;
  cpu_type : option str;
  details_name : option str;
}.

(** [str::replace], with a pattern that is not empty. *)
Fixpoint replace_skipping (skip : nat) (from to s : str) : str :=
  match s with
  | [] => []
  | c :: s' =>
      match skip with
      | S skip => replace_skipping skip from to s'
      | O => if starts_with s from then to ++ replace_skipping (pred (length from)) from to s'
             else c :: replace_skipping 0 from to s'
      end
  end.

Definition replace_all (from to s : str) : str := replace_skipping 0 from to s.

Definition render_client_details (template : str) (details : DeviceDetails) (host : str) : str :=
  replace_all (lit "{host}") host
    (replace_all (lit "{product_type}") (product_type details)
       (replace_all (lit "{udid}") (identifier details) template)).

(** From the node name the system answers, when it is UTF-8. *)
Definition host_name (nodename : option str) : str :=
  default UNKNOWN_HOST (nodename ≫= non_empty).

Definition trimmed (s : option str) : option str := t ← s; non_empty (trim t).

Definition device_name (entry_name : option str) (details : DeviceDetails) (facts : option DeviceFacts)
    : option str :=
  option_or entry_name (option_or (details_name details) (option_or (facts ≫= fact_name)
    (option_or (marketing_name details) (Some (product_type details))))).

Definition device_profile (entry_name : option str) (details : DeviceDetails) (phone : Phone)
    (capabilities : list str) : DeviceProfileFields :=
  let os_version := trimmed (os_version phone) in
  {| dp_device_name := device_name entry_name details (facts phone);
     device_form_factor := Some FORM_FACTOR;
     device_os_name := (fun _ => OS_NAME) <$> os_version;
     device_os_version := os_version;
     device_cpu_arch := trimmed (cpu_type details);
     device_os_family := Some OS_FAMILY;
     device_chip_model := facts phone ≫= fact_chip_model;
     device_ram_bytes := facts phone ≫= fact_ram_bytes;
     dp_capabilities := match capabilities with [] => None | _ => Some capabilities end |}.

#[export] Instance DeviceProfileFields_eq_dec : EqDecision DeviceProfileFields.
Proof. solve_decision. Defined.

(** ** Pauses *)

Definition STILL_PAUSED_EVERY : Z := from_secs (10 * 60).

Record Pause := { since : Z; said : Z }.

(** The pause, and the minutes of the [phone still paused] line when there is one. *)
Definition remind_at (now : Z) (p : Pause) : Pause * option Z :=
  let paused := sat_sub now (since p) in
  let due := as_secs paused / as_secs STILL_PAUSED_EVERY in
  if due <=? said p then (p, None)
  else ({| since := since p; said := due |}, Some (as_secs paused / 60)).

Section Pausing.
Context {St W : Type} `{PH : ProxyHost W}.

(** [pause_claims]. *)
Definition pause_or_remind (paused : option Pause) : prog St W Pause :=
  do now <- io instant;
  ret (match paused with
       | Some pause => (remind_at now pause).1
       | None => {| since := now; said := 0 |}
       end).
End Pausing.

(** ** The phone and its settings *)

Record LoopConfig := {
  claim_backoff : Z;
  idle_wait : Z;
  idle_jitter : Z;
  max_jobs : Z;
}.

Record Claimant := {
  phone_config : PhoneConfig;
  loop_config : LoopConfig;
  entry_name : option str;
  details : DeviceDetails;
  client_details_template : str;
  nodename : option str;
}.

Definition client_details (c : Claimant) : str :=
  render_client_details (client_details_template c) (details c) (host_name (nodename c)).

(** [worker::report]. *)
Definition report_of (c : Claimant) (phone : Phone) (capabilities : list str) : Report :=
  (client_details c, device_profile (entry_name c) (details c) phone capabilities).

(** The phone, and whether the version changed. *)
Definition note_os_version (read : option str) (phone : Phone) : Phone * bool :=
  match trimmed read with
  | None => (phone, false)
  | Some read =>
      if bool_decide (trim <$> os_version phone = Some read) then (phone, false)
      else ({| installed := installed phone; facts := facts phone; os_version := Some read |}, true)
  end.

(** ** Where the builds come from *)

(** What the claim loop asks of a build source, over the source's own state, which holds the
    phone. *)
Class Builds (St W : Type) := {
  phone_of : St -> Phone;
  with_phone : Phone -> St -> St;
  capabilities : St -> result (list str) Error;
  (** Before the first server call; [false] on a stop. *)
  prepare_builds : nat -> prog St W (option (result bool Error));
  (** Whether what the phone advertises changed. *)
  refresh_builds : prog St W (result bool Error);
  execute_claim : ClaimedJob -> prog St W (result Outcome JobEnd);
  pace_claims : prog St W unit;
}.

(** ** The loop *)

Definition is_operator_needed (c : Cause) : bool :=
  match c with OperatorNeeded => true | _ => false end.

Definition needs_operator (e : Error) : bool := existsb is_operator_needed (causes e).

Definition halts_phone (e : Error) : bool := replaced_identity e || needs_operator e.

(** [OperatorActionError], or a [4xx] of the management server. *)
Definition is_refusal (c : Cause) : bool :=
  match c with
  | ClientNotApproved _ | SignatureRefused _ => true
  | MgmtFailed e =>
      match http_status e with
      | Some status => (400 <=? status) && (status <? 500)
      | None => false
      end
  | _ => false
  end.

Definition is_operator_actionable (e : Error) : bool := halts_phone e || existsb is_refusal (causes e).

(** The jobs one phone has taken, kept across its restarts. Both counters are [u32]s. *)
Record Tally := { attempted : Z; completed : Z }.

Definition no_jobs : Tally := {| attempted := 0; completed := 0 |}.

Definition count (n : Z) : Z := (n + 1) mod (u32_max + 1).

Inductive Reasserted := Unchanged | Updated | Replaced.

(** What the loop carries from one pass to the next. *)
Record Claiming := {
  loop_backoff : Z;
  paused : option Pause;
  reported : Report;
  tally : Tally;
}.

(** A pass goes round again, or the loop ends. *)
Inductive Pass :=
| Again (l : Claiming)
| Ended (r : result unit Error) (t : Tally).

Section Loop.
Context `{PT : ProxyTexts} {St W : Type} `{MC : MgmtClient W} `{DC : DeviceControl W} `{PH : ProxyHost W}
  `{B : !Builds St W}.
Context (c : Claimant).
Notation bundle := (bundle_id (phone_config c)).
Notation pacing := (loop_config c).

(** [wait_until_runnable]: [false] on a stop. *)
Fixpoint wait_until_runnable (fuel : nat) (paused : option Pause) : prog St W (option bool) :=
  match fuel with
  | O => ret None
  | S fuel =>
      do r <- io (reachability bundle);
      match r with
      | Reachable _ => ret (Some true)
      | Unreachable _ =>
          do pause <- pause_or_remind paused;
          do wait <- idle_wait_with_jitter (idle_wait pacing) (idle_jitter pacing);
          do slept <- sleep_interruptible wait;
          if slept then wait_until_runnable fuel (Some pause) else ret (Some false)
      end
  end.

Definition report_now : prog St W (result Report Error) :=
  do s <- get_state;
  ret (match capabilities s with
       | Ok capabilities => Ok (report_of c (phone_of s) capabilities)
       | Err e => Err e
       end).

(** The profile and the capabilities, sent before the first claim. *)
Definition connect : prog St W (result ClientProfile Error) :=
  do? report <- report_now;
  do r <- refresh_profile report;
  ret (in_context (lit "PATCH /clients/me as client " ++ client_id (phone_config c)) r).

Definition what_changed (reindex same : bool) : Reasserted :=
  match reindex, same with
  | false, _ => Unchanged
  | true, true => Replaced
  | true, false => Updated
  end.

(** Answers the report sent with what it found. *)
Definition reassert_profile (last : Report) : prog St W (result (Reasserted * Report) Error) :=
  do? sent <- report_now;
  do r <- refresh_profile sent;
  match in_context (lit "re-reporting the profile between jobs") r with
  | Err e => ret (Err e)
  | Ok profile =>
      match what_changed (reindex_pending profile) (bool_decide (sent = last)) with
      | Unchanged => ret (Ok (Unchanged, sent))
      | reasserted => do? _ <- wait_until_claimable; ret (Ok (reasserted, sent))
      end
  end.

(** [reassert_profile] where the loop goes on with what it reported. *)
Definition report_again (l : Claiming) (k : Claiming -> prog St W Pass) : prog St W Pass :=
  do r <- reassert_profile (reported l);
  match r with
  | Err e => ret (Ended (Err e) (tally l))
  | Ok (_, sent) =>
      k {| loop_backoff := loop_backoff l; paused := paused l; reported := sent; tally := tally l |}
  end.

Definition with_pause (p : option Pause) (l : Claiming) : Claiming :=
  {| loop_backoff := loop_backoff l; paused := p; reported := reported l; tally := tally l |}.

Definition with_backoff (b : Z) (l : Claiming) : Claiming :=
  {| loop_backoff := b; paused := paused l; reported := reported l; tally := tally l |}.

Definition with_tally (t : Tally) (l : Claiming) : Claiming :=
  {| loop_backoff := loop_backoff l; paused := paused l; reported := reported l; tally := t |}.

Definition idle (l : Claiming) : prog St W Pass :=
  do wait <- idle_wait_with_jitter (idle_wait pacing) (idle_jitter pacing);
  do _ <- sleep_interruptible wait;
  ret (Again l).

(** A job claimed, run and counted, and what follows it. *)
Definition take_job (job : ClaimedJob) (l : Claiming) : prog St W Pass :=
  let attempts := count (attempted (tally l)) in
  do ran <- run_claimed_job (execute_claim job) job;
  let t := {| attempted := attempts;
              completed := match ran.2 with Ok _ => count (completed (tally l)) | Err _ => completed (tally l) end |} in
  let l := with_tally t (with_backoff (claim_backoff pacing) l) in
  let after :=
    if (0 <? max_jobs pacing) && (max_jobs pacing <=? attempts) then ret (Ended (Ok tt) t)
    else
      do stop <- io stop_raised;
      let paced l := do _ <- pace_claims; ret (Again l) in
      if stop then paced l else report_again l paced in
  match ran.2 with
  | Err e => if halts_phone e then ret (Ended (Err e) t) else after
  | Ok _ => after
  end.

Definition claim_once (l : Claiming) : prog St W Pass :=
  do polled <- poll_claim;
  match polled with
  | PolledJob job => take_job job l
  | PolledIdle => idle l
  | PolledNotApproved =>
      let id := client_id (phone_config c) in
      ret (Ended (Err (error_at (ClientNotApproved id) (lit "claim refused with 403: client " ++ id ++
        lit " is not approved. This worker adopts the phone's own registered client rather than creating one, so approval is a property of that client: have an operator approve it, then restart"))) (tally l))
  | PolledSignatureRejected =>
      let id := client_id (phone_config c) in
      ret (Ended (Err (error_at (SignatureRefused id)
        (lit "claim refused with 401: the request signature or its timestamp was rejected for client " ++ id ++
         lit ". Check this Mac's clock is synchronised (the server accepts a few minutes of skew), and that this device's private_key is the one that client registered with"))) (tally l))
  | PolledTransient _ =>
      do _ <- sleep_interruptible (loop_backoff l);
      ret (Again (with_backoff (next_backoff (loop_backoff l) CLAIM_BACKOFF_CAP) l))
  | PolledFatal e => ret (Ended (Err (error_at (MgmtFailed e) (mgmt_text e))) (tally l))
  end.

(** The phone is asked, and claims only when it can run a job and the server knows its iOS. *)
Definition probe_and_claim (l : Claiming) : prog St W Pass :=
  do r <- io (reachability bundle);
  match r with
  | Unreachable _ =>
      do pause <- pause_or_remind (paused l);
      idle (with_pause (Some pause) l)
  | Reachable version =>
      let l := with_pause None l in
      do s <- get_state;
      let '(phone, changed) := note_os_version version (phone_of s) in
      do _ <- set_state (with_phone phone s);
      if changed then report_again l (fun l => ret (Again l)) else claim_once l
  end.

(** One pass of the [while !stop]. *)
Definition claim_pass (l : Claiming) : prog St W Pass :=
  do stop <- io stop_raised;
  if stop then ret (Ended (Ok tt) (tally l))
  else
    do changed <- refresh_builds;
    match changed with
    | Err e => ret (Ended (Err e) (tally l))
    | Ok true => report_again l probe_and_claim
    | Ok false => probe_and_claim l
    end.

Fixpoint claim_passes (fuel : nat) (l : Claiming) : prog St W (option (result unit Error * Tally)) :=
  match fuel with
  | O => ret None
  | S fuel =>
      do pass <- claim_pass l;
      match pass with
      | Again l => claim_passes fuel l
      | Ended r t => ret (Some (r, t))
      end
  end.

Definition claim_loop (fuel : nat) (t : Tally) : prog St W (option (result unit Error * Tally)) :=
  do r <- report_now;
  match r with
  | Err e => ret (Some (Err e, t))
  | Ok report =>
      claim_passes fuel {| loop_backoff := claim_backoff pacing; paused := None; reported := report; tally := t |}
  end.

Definition run_one (fuel : nat) (t : Tally) : prog St W (option (result unit Error * Tally)) :=
  let ends r := ret (Some (r, t)) in
  do prepared <- prepare_builds fuel;
  match prepared with
  | None => ret None
  | Some (Err e) => ends (Err e)
  | Some (Ok false) => ends (Ok tt)
  | Some (Ok true) =>
      do connected <- connect;
      match connected with
      | Err e => ends (Err e)
      | Ok profile =>
          do waited <- wait_until_claimable;
          match in_context (lit "waiting for client " ++ cp_client_id profile ++ lit " to become claimable") waited with
          | Err e => ends (Err e)
          | Ok WaitStopped => ends (Ok tt)
          | Ok (Claimable _) => claim_loop fuel t
          end
      end
  end.

(** The restarts of [run_device], under their backoff. *)
Fixpoint restarts (fuel passes : nat) (backoff : Z) (t : Tally) : prog St W (option (result unit Error * Tally)) :=
  match fuel with
  | O => ret None
  | S fuel =>
      do r <- run_one passes t;
      match r with
      | None => ret None
      | Some (Ok tt, t) => ret (Some (Ok tt, t))
      | Some (Err e, t) =>
          if is_operator_actionable e then ret (Some (Err e, t))
          else
            do stop <- io stop_raised;
            if stop then ret (Some (Ok tt, t))
            else
              do slept <- sleep_interruptible backoff;
              if slept then restarts fuel passes (next_backoff backoff CLAIM_BACKOFF_CAP) t
              else ret (Some (Ok tt, t))
      end
  end.

Definition run_device (fuel passes : nat) : prog St W (option (result unit Error * Tally)) :=
  restarts fuel passes (claim_backoff pacing) no_jobs.
End Loop.

(** ** The process *)

Inductive DeviceStop := StopOperator | StopOther.

#[export] Instance DeviceStop_eq_dec : EqDecision DeviceStop.
Proof. solve_decision. Defined.

(** How a phone's thread ended: it may have panicked. *)
Inductive ThreadEnd := Joined (r : result unit Error) | Panicked.

Definition device_stop (e : ThreadEnd) : option DeviceStop :=
  match e with
  | Joined (Ok _) => None
  | Joined (Err e) => Some (if halts_phone e then StopOperator else StopOther)
  | Panicked => Some StopOther
  end.

Inductive RunError := OperatorStop (stopped : nat) | DevicesStopped (stopped : nat).

Definition run_outcome (stopped : list DeviceStop) (signalled : bool) : result unit RunError :=
  match stopped with
  | [] => Ok tt
  | _ =>
      if signalled then Ok tt
      else if forallb (fun s => bool_decide (s = StopOperator)) stopped then Err (OperatorStop (length stopped))
      else Err (DevicesStopped (length stopped))
  end.

Definition FAILURE_CODE : Z := 1.
Definition OPERATOR_CODE : Z := 8.

(** [exit_status] of what [run] answers. *)
Definition exit_status (r : result unit RunError) : Z :=
  match r with
  | Ok _ => 0
  | Err (OperatorStop _) => OPERATOR_CODE
  | Err (DevicesStopped _) => FAILURE_CODE
  end.

(** [run], from its threads joined and the stop signal read after them. *)
Definition run_joined (threads : list ThreadEnd) (signalled : bool) : result unit RunError :=
  run_outcome (omap device_stop threads) signalled.

(** ** What the loop relies on of a build source *)

(** Neither a claim nor a report of the profile. *)
Definition unclaiming (e : Event) : Prop :=
  match e with EClaim _ | EUpdateMe _ _ => False | _ => True end.

(** The phone answered with an identity that is not this client's. *)
Definition names_another (client : str) (e : Event) : Prop :=
  match e with
  | ELaunch l (_, Ok run) =>
      launch_args l = identity_args /\ silent run = false /\
      exists found, read_identity run = Some found /\ found <> client
  | _ => False
  end.

Definition same_identity (client : str) (e : Event) : Prop := ~ names_another client e.

Lemma same_identity_other client e :
  match e with ELaunch _ _ => False | _ => True end -> same_identity client e.
Proof. intros He Hn. by destruct e. Qed.

(** [waived] holds of the traces the source answers nothing for: never, or only in a world
    that takes back a stop it raised. *)
Class BuildsLaws {St W : Type} (B : Builds St (W * list Event)) (client : str)
    (waived : list Event -> Prop) : Prop := {
  waived_around (tr1 tr tr2 : list Event) : waived tr -> waived (tr1 ++ tr ++ tr2);
  phone_of_with (p : Phone) (s : St) : phone_of (with_phone p s) = p;
  prepare_lawful (fuel : nat) (s : St) :
    emits s (prepare_builds fuel) (fun r s' tr =>
      os_version (phone_of s') = os_version (phone_of s) /\ Forall unclaiming tr /\
      (Forall (same_identity client) tr \/ (exists e, r = Some (Err e) /\ halts_phone e = true) \/
       r = Some (Ok false) \/ waived tr) /\
      (r = Some (Ok false) -> EStop true ∈ tr));
  refresh_lawful (s : St) :
    emits s refresh_builds (fun _ s' tr =>
      os_version (phone_of s') = os_version (phone_of s) /\
      Forall (fun e => unclaiming e /\ same_identity client e) tr);
  execute_lawful (job : ClaimedJob) (s : St) :
    emits s (execute_claim job) (fun r s' tr =>
      os_version (phone_of s') = os_version (phone_of s) /\ Forall unclaiming tr /\
      (Forall (same_identity client) tr \/
       exists end_ e, r = Err end_ /\ halt end_ = Some e /\ halts_phone e = true));
  pace_lawful (s : St) :
    emits s pace_claims (fun _ s' tr =>
      os_version (phone_of s') = os_version (phone_of s) /\
      Forall (fun e => unclaiming e /\ same_identity client e) tr);
}.

(** ** What the loop asks of the world *)

(** The iOS version of the last report the server took, after these calls. *)
Definition reported_os (k : option str) (tr : list Event) : option str :=
  foldl (fun k e => match e with EUpdateMe report (Ok _) => device_os_version report.2 | _ => k end) k tr.

(** Every claim is made at once after the phone said it can run a job, and for the iOS the
    phone then named the server has been told, when the server was last told of [k]. *)
Definition claims_reported (k : option str) (tr : list Event) : Prop :=
  forall tr1 r tr2, tr = tr1 ++ EClaim r :: tr2 ->
    exists tr0 version, tr1 = tr0 ++ [EReach (Reachable version)] /\
      (is_Some (trimmed version) -> reported_os k tr1 = trimmed version).

Lemma reported_os_app k tr tr' : reported_os k (tr ++ tr') = reported_os (reported_os k tr) tr'.
Proof. apply foldl_app. Qed.

Lemma reported_os_unclaiming k tr : Forall unclaiming tr -> reported_os k tr = k.
Proof. induction 1 as [|e tr He Htr IH]; [done|]. by destruct e. Qed.

Lemma claims_reported_app k tr tr' :
  claims_reported k tr -> claims_reported (reported_os k tr) tr' -> claims_reported k (tr ++ tr').
Proof.
  intros H1 H2 tr1 r tr2 E. apply app_eq_inv in E as [(x & -> & E)|(x & -> & E)].
  - destruct x as [|e x]; cbn in E.
    + rewrite app_nil_r in *. by destruct (H2 [] r tr2 (eq_sym E)) as ([|? ?] & v & E' & _).
    + injection E as <- ->. by eapply H1.
  - destruct (H2 _ _ _ E) as (tr0 & v & -> & Hv). exists (tr ++ tr0), v.
    split; [by rewrite app_assoc|]. intros Hs. by rewrite reported_os_app, Hv.
Qed.

Lemma claims_reported_none k tr : (forall r, EClaim r ∉ tr) -> claims_reported k tr.
Proof. intros Hn tr1 r tr2 ->. destruct (Hn r). set_solver. Qed.

Lemma unclaiming_none tr r : Forall unclaiming tr -> EClaim r ∉ tr.
Proof. intros Hu Hin. rewrite Forall_forall in Hu. by apply (Hu _ Hin). Qed.

Lemma claims_reported_unclaiming k tr : Forall unclaiming tr -> claims_reported k tr.
Proof. intros Hu. apply claims_reported_none. intros r. by apply unclaiming_none. Qed.

Definition no_claim (tr : list Event) : Prop := forall r, EClaim r ∉ tr.

Lemma no_claim_app tr tr' : no_claim tr -> no_claim tr' -> no_claim (tr ++ tr').
Proof. intros H1 H2 r [Hr|Hr]%elem_of_app; [by apply (H1 r)|by apply (H2 r)]. Qed.

Lemma no_claim_unclaiming tr : Forall unclaiming tr -> no_claim tr.
Proof. intros Hu r. by apply unclaiming_none. Qed.

(** The jobs claimed. *)
Definition jobs (tr : list Event) : Z :=
  Z.of_nat (length (omap (fun e => match e with EClaim (Ok (Some job)) => Some job | _ => None end) tr)).

Lemma jobs_app tr tr' : jobs (tr ++ tr') = jobs tr + jobs tr'.
Proof. unfold jobs. rewrite omap_app, length_app. lia. Qed.

Lemma jobs_none tr : no_claim tr -> jobs tr = 0.
Proof.
  unfold jobs. induction tr as [|e tr IH]; intros Hn; [done|].
  assert (no_claim tr) as Htr by (intros r Hr; apply (Hn r); set_solver).
  destruct e; cbn; auto. destruct (Hn r). set_solver.
Qed.

Lemma jobs_nonneg tr : 0 <= jobs tr.
Proof. unfold jobs. lia. Qed.

(** Another identity, and no claim from then on. *)
Definition halted (client : str) (tr : list Event) : Prop :=
  exists tr1 tr2, tr = tr1 ++ tr2 /\ Forall (same_identity client) tr1 /\ no_claim tr2.

Lemma halted_after client tr tr' : Forall (same_identity client) tr -> halted client tr' -> halted client (tr ++ tr').
Proof.
  intros Hs (tr1 & tr2 & -> & H1 & H2). exists (tr ++ tr1), tr2.
  rewrite <- app_assoc. split_and!; [done|by apply Forall_app|done].
Qed.

Lemma halted_then client tr tr' : halted client tr -> no_claim tr' -> halted client (tr ++ tr').
Proof.
  intros (tr1 & tr2 & -> & H1 & H2) Hn. exists tr1, (tr2 ++ tr').
  rewrite <- app_assoc. split_and!; [done|done|by apply no_claim_app].
Qed.

Lemma halted_claims client tr tr1 e tr2 :
  Forall (same_identity client) tr \/ halted client tr -> tr = tr1 ++ e :: tr2 ->
  names_another client e -> no_claim tr2.
Proof.
  intros [Hs|(a & b & -> & Ha & Hb)] E Hn.
  - rewrite E, Forall_app, Forall_cons in Hs. by destruct Hs as (_ & He & _).
  - apply app_eq_inv in E as [(x & -> & E)|(x & -> & E)].
    + destruct x as [|e' x]; cbn in E.
      * subst b. intros r Hr. apply (Hb r). set_solver.
      * injection E as <- ->. rewrite Forall_app, Forall_cons in Ha. by destruct Ha as (_ & He & _).
    + intros r Hr. apply (Hb r). rewrite E. set_solver.
Qed.

(** *** What goes on between claims *)

Section Between.
Context {St W : Type} `{PH : ProxyHost W} (c : Claimant).
Notation TW := (W * list Event)%type.
Notation same := (same_identity (client_id (phone_config c))).

(** What stays inside a pass. *)
Definition inside (e : Event) : Prop := unclaiming e /\ same e.

Lemma inside_split tr : Forall inside tr -> Forall unclaiming tr /\ Forall same tr.
Proof. apply Forall_and. Qed.

Lemma inside_no_claim tr : Forall inside tr -> no_claim tr.
Proof. intros Hin. apply inside_split in Hin as [Hu _]. by apply no_claim_unclaiming. Qed.

Lemma inside_quiet e : quiet e -> inside e.
Proof. intros He. split; [|apply same_identity_other]; by destruct e. Qed.

Lemma sleep_inside total (s : St) :
  emits s (sleep_interruptible (W := TW) total) (fun _ s' tr => s' = s /\ Forall inside tr).
Proof.
  unfold sleep_interruptible. eapply emits_bind with (P := fun _ s' tr => s' = s /\ Forall inside tr).
  - generalize (Z.to_nat (total / SLEEP_SLICE) + 2)%nat as fuel. revert total.
    intros total fuel. revert total. induction fuel as [|fuel IH]; intros left_; cbn [sleep_slices].
    { by apply emits_ret. }
    destruct (left_ =? 0).
    { emits_step. apply emits_ret. split; [done|]. constructor; [by apply inside_quiet|done]. }
    emits_step. destruct t.
    { apply emits_ret. split; [done|]. constructor; [by apply inside_quiet|done]. }
    emits_step. eapply emits_weaken; [apply IH|]. cbv beta. intros r s' tr [-> Hr]. split; [done|].
    by repeat (constructor; [by apply inside_quiet|]).
  - cbv beta. intros r s' tr [-> Hr]. apply emits_ret. by rewrite app_nil_r.
Qed.

Lemma wait_time_emits base jitter (s : St) :
  emits s (idle_wait_with_jitter (W := TW) base jitter) (fun _ s' tr => s' = s /\ tr = []).
Proof.
  unfold idle_wait_with_jitter. destruct (_ =? 0); [by apply emits_ret|]. emits_step. by apply emits_ret.
Qed.

(** A sleep cut short has read the stop raised, last. *)
Lemma sleep_stopped total (s : St) :
  emits s (sleep_interruptible (W := TW) total) (fun whole s' tr => s' = s /\ Forall inside tr /\
    (whole = false -> EStop true ∈ tr)).
Proof.
  destruct (Z.le_gt_cases 0 total) as [Hpos|Hneg].
  - eapply emits_weaken; [apply emits_and; [apply sleep_inside|by apply sleep_interruptible_emits]|].
    cbv beta. intros whole s' tr ([-> Hin] & _ & _ & _ & _ & Hf). split_and!; [done|done|].
    intros Hw. by apply last_Some_elem_of, Hf.
  - eapply emits_weaken; [apply emits_and; [apply sleep_inside|]|].
    + instantiate (1 := fun whole _ tr => whole = false -> EStop true ∈ tr). unfold sleep_interruptible.
      assert (total / SLEEP_SLICE < 0) as Hd by (apply Z.div_lt_upper_bound; [done|lia]).
      replace (Z.to_nat (total / SLEEP_SLICE)) with 0%nat by lia.
      cbn [Nat.add sleep_slices]. destruct (Z.eqb_spec total 0); [lia|].
      assert ((SLEEP_SLICE <? total) = false) as -> by (apply Z.ltb_ge; change SLEEP_SLICE with 1000000000; lia).
      rewrite Z.sub_diag. cbn [Z.eqb].
      eapply emits_bind with (P := fun r _ tr => default false r = false -> EStop true ∈ tr).
      * emits_step. destruct t; [by apply emits_ret; set_solver|]. emits_step. emits_step. apply emits_ret.
        cbn. intros Ht. destruct t; [set_solver|done].
      * cbv beta. intros r s' tr Hr. apply emits_ret. by rewrite app_nil_r.
    + cbv beta. intros whole s' tr [[-> Hin] Hw]. by split_and!.
Qed.

Lemma pause_emits p (s : St) :
  emits s (pause_or_remind (W := TW) p) (fun _ s' tr => s' = s /\ tr = []).
Proof. unfold pause_or_remind. emits_step. by apply emits_ret. Qed.

End Between.

(** *** One pass *)

Section Passes.
Context `{PT : ProxyTexts} {St W : Type} `{MC : MgmtClient W} `{DC : DeviceControl W} `{PH : ProxyHost W}.
Context `{B : !Builds St (W * list Event)} (c : Claimant)
  (waived : list Event -> Prop) {BL : BuildsLaws B (client_id (phone_config c)) waived}.
Notation TW := (W * list Event)%type.
Notation client := (client_id (phone_config c)).
Notation budget := (max_jobs (loop_config c)).
Notation same := (same_identity client).

Definition known_os (s : St) : option str := trimmed (os_version (phone_of s)).

(** How the jobs taken bear on the budget, when there is one. *)
Definition counted (t : Tally) (n : Z) (r : Pass) : Prop :=
  0 < budget <= u32_max -> 0 <= attempted t < budget ->
  match r with
  | Again l => attempted (tally l) = attempted t + n /\ attempted (tally l) < budget
  | Ended r t' => attempted t' = attempted t + n /\ attempted t' <= budget /\
      match r with Ok _ => True | Err e => attempted t' < budget \/ halts_phone e = true end
  end.

(** A loop that ended well was stopped or has spent its budget. *)
Definition ended_well (r : Pass) (tr : list Event) : Prop :=
  match r with
  | Ended (Ok _) t => EStop true ∈ tr \/ 0 < budget <= attempted t
  | _ => True
  end.

Definition halting (r : Pass) : Prop := exists e t, r = Ended (Err e) t /\ halts_phone e = true.

(** A stretch of the loop, after which the server was last told of [k]. *)
Definition stretch (k : option str) (t : Tally) (r : Pass) (s' : St) (tr : list Event) : Prop :=
  (Forall same tr \/ halting r /\ halted client tr) /\ counted t (jobs tr) r /\ ended_well r tr /\
  match r with Again _ => reported_os k tr = known_os s' | Ended _ _ => True end.

Lemma stretch_after k t r s' tr0 tr :
  Forall same tr0 -> jobs tr0 = 0 -> stretch (reported_os k tr0) t r s' tr -> stretch k t r s' (tr0 ++ tr).
Proof.
  intros Hs Hj (Hi & Hc & He & Hk). split; [|split; [|split]].
  - destruct Hi as [Hi|[Hr Hh]]; [left; by apply Forall_app|right; split; [done|by apply halted_after]].
  - by rewrite jobs_app, Hj.
  - destruct r as [|[]]; try done. destruct He as [He|He]; [left|by right]. set_solver.
  - destruct r; [|done]. by rewrite reported_os_app.
Qed.

Lemma stretch_inside k t r s' tr0 tr :
  Forall (inside c) tr0 -> stretch k t r s' tr -> stretch k t r s' (tr0 ++ tr).
Proof.
  intros [Hu Hs]%inside_split Hr. apply stretch_after; [done|by apply jobs_none, no_claim_unclaiming|].
  by rewrite reported_os_unclaiming.
Qed.

Lemma stretch_again k t l s : reported_os k [] = known_os s -> tally l = t -> stretch k t (Again l) s [].
Proof.
  intros Hk Ht. split_and!; [by left| |done|done]. intros _ Ha. rewrite Ht.
  change (jobs []) with 0. lia.
Qed.

Lemma stretch_err k t e s : stretch k t (Ended (Err e) t) s [].
Proof. split_and!; [by left| |done|done]. intros _ Ha.
  change (jobs []) with 0. lia. Qed.

(** *** Reporting again *)

Lemma wait_inside (s : St) :
  emits s (wait_until_claimable (W := TW)) (fun _ s' tr => s' = s /\ Forall (inside c) tr).
Proof.
  eapply emits_weaken; [apply wait_until_claimable_emits|]. cbv beta.
  intros r s' tr (-> & [Hall _] & _). split; [done|]. eapply Forall_impl; [exact Hall|].
  intros e [He|He]; [by apply inside_quiet|]. split; [|apply same_identity_other]; destruct e; done || by destruct He.
Qed.

Lemma report_now_emits (s : St) :
  emits s (report_now (W := TW) c) (fun r s' tr => s' = s /\ tr = [] /\
    match r with Ok report => device_os_version report.2 = known_os s | Err _ => True end).
Proof.
  unfold report_now. apply emits_get_bind, emits_ret. split_and!; [done|done|].
  by destruct (capabilities s).
Qed.

Lemma reassert_emits last_ (s : St) k :
  emits s (reassert_profile (W := TW) c last_) (fun r s' tr => s' = s /\ Forall same tr /\ no_claim tr /\
    match r with Ok _ => reported_os k tr = known_os s | Err _ => True end).
Proof.
  unfold reassert_profile. eapply emits_try; [apply report_now_emits|..]; cbv beta.
  { intros e s' tr (-> & -> & _). split_and!; [done|done|by intros r ?%elem_of_nil|done]. }
  intros report s' tr (-> & -> & Hos).
  unfold refresh_profile. eapply emits_bind with (P := fun r s' tr => s' = s /\ exists a,
    tr = [EUpdateMe report a] /\ (forall p, r = Ok p -> is_Some (match a with Ok p => Some p | Err _ => None end))).
  { emits_step. apply emits_ret. split; [done|]. eexists; split; [done|]. destruct t; [by eexists|done]. }
  cbv beta. intros r s1 tr1 (-> & a & -> & Ha).
  assert (Forall same [EUpdateMe report a]) as Hs.
  { constructor; [by apply same_identity_other|done]. }
  assert (no_claim [EUpdateMe report a]) as Hn by (intros r' Hr; set_solver).
  destruct r as [p|e]; cbn [in_context].
  2: { apply emits_ret. by rewrite app_nil_r. }
  destruct (Ha p eq_refl) as [p' Hp]. destruct a; [|done].
  destruct (what_changed _ _); [by apply emits_ret; rewrite app_nil_r|..];
  (eapply emits_try; [apply wait_inside|..]; cbv beta;
    [intros e s2 tr2 [-> Hin]|intros w s2 tr2 [-> Hin]; apply emits_ret; rewrite ?app_nil_r];
    apply inside_split in Hin as [Hu Hs2]; rewrite ?app_nil_l; (split_and!;
      [done|by apply Forall_app|by apply no_claim_app, no_claim_unclaiming|
       rewrite ?reported_os_app, ?reported_os_unclaiming by done; done])).
Qed.

(** A property of traces that calls other than claims leave alone. *)
Definition unclaimed (X : option str -> list Event -> Prop) : Prop :=
  (forall k tr, no_claim tr -> X k tr) /\
  (forall k tr tr', no_claim tr -> X (reported_os k tr) tr' -> X k (tr ++ tr')).

Lemma no_claim_unclaimed : unclaimed (fun _ => no_claim).
Proof. split; [done|]. intros k tr tr'. apply no_claim_app. Qed.

Lemma claims_reported_unclaimed : unclaimed claims_reported.
Proof.
  split; [apply claims_reported_none|]. intros k tr tr' Hn. apply claims_reported_app.
  by apply claims_reported_none.
Qed.

Lemma report_again_emits X l f (s : St) k :
  unclaimed X ->
  (forall l s, emits s (f l) (fun r s' tr => X (known_os s) tr /\ stretch (known_os s) (tally l) r s' tr)) ->
  emits s (report_again (W := TW) c l f) (fun r s' tr => X k tr /\ stretch k (tally l) r s' tr).
Proof.
  intros [HX0 HX] Hf. unfold report_again. eapply emits_bind; [apply (reassert_emits _ s k)|]. cbv beta.
  intros r s' tr (-> & Hs & Hn & Hr). destruct r as [[ra sent]|e].
  - eapply emits_weaken; [by apply Hf|]. cbn [tally]. intros r s' tr' [Hx Hst].
    rewrite <- Hr in Hx, Hst. split; [by apply HX|].
    by apply stretch_after; [|apply jobs_none|].
  - apply emits_ret. rewrite app_nil_r. split; [by apply HX0|]. rewrite <- (app_nil_r tr).
    apply stretch_after; [done|by apply jobs_none|apply stretch_err].
Qed.

(** *** Waiting *)

Lemma idle_emits l (s : St) : emits s (idle (W := TW) c l) (stretch (known_os s) (tally l)).
Proof.
  unfold idle. eapply emits_bind; [apply wait_time_emits|]. cbv beta. intros wait s1 tr1 [-> ->].
  eapply emits_bind; [apply (sleep_inside c)|]. cbv beta. intros b s2 tr2 [-> Hin]. apply emits_ret.
  by apply (stretch_inside _ _ _ _ tr2), stretch_again.
Qed.

Lemma idle_no_claim l (s : St) : emits s (idle (W := TW) c l) (fun _ _ tr => no_claim tr).
Proof.
  unfold idle. eapply emits_bind; [apply wait_time_emits|]. cbv beta. intros wait s1 tr1 [-> ->].
  eapply emits_bind; [apply (sleep_inside c)|]. cbv beta. intros b s2 tr2 [-> Hin]. apply emits_ret.
  rewrite app_nil_r. apply no_claim_unclaiming. by apply inside_split in Hin as [Hu _].
Qed.

(** *** A claim *)

Lemma report_inside {S} job failure (s : S) :
  emits s (report_failure (W := TW) job failure) (fun _ s' tr => s' = s /\ Forall (inside c) tr).
Proof.
  unfold report_failure, submit_failure.
  eapply emits_bind with (P := fun _ s' tr => s' = s /\ Forall (inside c) tr).
  - emits_step. eapply emits_bind with (P := fun _ s' tr => s' = s /\ Forall (inside c) tr).
    + eapply emits_weaken; [apply emits_and; [apply submit_emits|]|].
      * apply (submit_with_backoff_does (inside c)); intros; (split; [done|by apply same_identity_other]).
      * cbv beta. by intros r s' tr [[-> _] Hin].
    + cbv beta. intros r s' tr [-> Hin]. destruct r; apply emits_ret; by rewrite app_nil_r.
  - cbv beta. intros r s' tr [-> Hin]. apply emits_ret. by rewrite app_nil_r.
Qed.

(** A halt is kept whatever its report meets. *)
Lemma conclude_inside {S} job end_ (s : S) :
  emits s (conclude (W := TW) job end_) (fun r s' tr => s' = s /\ Forall (inside c) tr /\
    forall e, halt end_ = Some e -> r = Err e).
Proof.
  unfold conclude. eapply emits_bind with (P := fun _ s' tr => s' = s /\ Forall (inside c) tr).
  - destruct (report end_) as [failure|u]; [apply report_inside|by apply emits_ret].
  - cbv beta. intros r s' tr [-> Hin]. apply emits_ret. rewrite app_nil_r.
    split_and!; [done|done|]. by intros e ->.
Qed.

(** A claimed job: nothing else is claimed, and an identity that is not the client's halts
    the phone. *)
Lemma run_job_emits job (s : St) :
  emits s (run_claimed_job (execute_claim job) job) (fun r s' tr => known_os s' = known_os s /\
    Forall unclaiming tr /\
    (Forall same tr \/ exists e, r.2 = Err e /\ halts_phone e = true)).
Proof.
  unfold run_claimed_job. eapply emits_bind; [apply execute_lawful|]. cbv beta.
  intros ended s1 tr1 (Hos & Hu & Hs). unfold known_os.
  destruct ended as [outcome|end_].
  - apply emits_ret_bind, emits_ret. rewrite app_nil_r, Hos. split_and!; [done|done|].
    destruct Hs as [Hs|(end_ & e & [=] & _)]. by left.
  - eapply emits_bind; [apply conclude_inside|].
    cbv beta. intros concluded s2 tr2 (-> & Hin & Hh). apply inside_split in Hin as [Hu2 Hs2].
    apply emits_ret. rewrite app_nil_r, Hos. split_and!; [done|by apply Forall_app|].
    destruct Hs as [Hs|(end' & e & [= <-] & He & Hhalt)]; [left; by apply Forall_app|].
    right. exists e. split; [by apply Hh|done].
Qed.

Lemma jobs_claim job tr : jobs (EClaim (Ok (Some job)) :: tr) = 1 + jobs tr.
Proof. unfold jobs. cbn [omap list_omap length]. lia. Qed.

Lemma count_exact n : 0 <= n < u32_max -> count n = n + 1.
Proof. intros Hn. unfold count. apply Z.mod_small. lia. Qed.

Lemma same_claim r : Forall same [EClaim r].
Proof. constructor; [by apply same_identity_other|done]. Qed.

(** What follows a job that left budget. *)
Lemma stretch_job k t t' r s' job trj tr :
  attempted t' = count (attempted t) -> ((0 <? budget) && (budget <=? attempted t')) = false ->
  Forall (inside c) trj -> stretch k t' r s' tr ->
  stretch k t r s' (EClaim (Ok (Some job)) :: trj ++ tr).
Proof.
  intros Ht Hleft Hin Hr. destruct (stretch_inside k t' r s' trj tr Hin Hr) as (Hi & Hc & He & Hk).
  split; [|split; [|split]].
  - destruct Hi as [Hi|[Hh Hi]]; [left|right; split; [done|]].
    + constructor; [by apply same_identity_other|done].
    + by apply (halted_after client [_]); [apply same_claim|].
  - intros Hb Ha. rewrite jobs_claim. rewrite count_exact in Ht by lia.
    specialize (Hc Hb). rewrite andb_false_iff, Z.ltb_ge, Z.leb_gt in Hleft.
    destruct r as [l|r t'']; specialize (Hc ltac:(lia)); lia || (destruct Hc as (? & ? & ?); split_and!; [lia..|done]).
  - destruct r as [|[]]; try done. destruct He as [He|He]; [left; set_solver|by right].
  - by destruct r.
Qed.

(** What ends with the job. *)
Lemma stretch_ended k t r t' s' job trj :
  attempted t' = count (attempted t) -> Forall unclaiming trj ->
  match r with
  | Ok _ => Forall same trj /\ 0 < budget <= attempted t'
  | Err e => halts_phone e = true
  end ->
  stretch k t (Ended r t') s' (EClaim (Ok (Some job)) :: trj).
Proof.
  intros Ht Hu Hr. split; [|split; [|split]]; [| | |done].
  - destruct r as [u|e]; [left|right].
    + constructor; [by apply same_identity_other|by destruct Hr].
    + split; [by exists e, t'|]. exists [EClaim (Ok (Some job))], trj.
      split_and!; [done|apply same_claim|by apply no_claim_unclaiming].
  - intros Hb Ha. rewrite jobs_claim, jobs_none by (by apply no_claim_unclaiming).
    rewrite count_exact in Ht by lia. split; [lia|]. split; [lia|]. destruct r; [done|by right].
  - destruct r; [right; by destruct Hr|done].
Qed.

Lemma pace_emits l (s : St) :
  emits s (do _ <- pace_claims; ret (Again l)) (fun r s' tr => no_claim tr /\
    stretch (known_os s) (tally l) r s' tr).
Proof.
  eapply emits_bind; [apply pace_lawful|]. cbv beta. intros u s' tr [Hos Hin]. apply emits_ret. split.
  - rewrite app_nil_r. apply inside_split in Hin as [Hu _]. by apply no_claim_unclaiming.
  - apply (stretch_inside _ _ _ _ tr []); [done|]. apply stretch_again; [|done]. unfold known_os. by rewrite Hos.
Qed.

(** After a job that does not halt the phone. *)
Lemma after_job_emits job l t' (s : St) trj :
  attempted t' = count (attempted (tally l)) -> Forall (inside c) trj ->
  emits s
    (if (0 <? budget) && (budget <=? attempted t') then ret (Ended (Ok tt) t')
     else
       do stop <- io (stop_raised (W := TW));
       let paced l := do _ <- pace_claims; ret (Again l) in
       if stop then paced (with_tally t' (with_backoff (claim_backoff (loop_config c)) l))
       else report_again c (with_tally t' (with_backoff (claim_backoff (loop_config c)) l)) paced)
    (fun r s' tr => no_claim (trj ++ tr) /\
      stretch (known_os s) (tally l) r s' (EClaim (Ok (Some job)) :: trj ++ tr)).
Proof.
  intros Ht Hin. pose proof (inside_no_claim c trj Hin) as Hn. destruct (inside_split c trj Hin) as [Hu Hs].
  destruct (_ && _) eqn:Eb.
  - apply emits_ret. rewrite app_nil_r. split; [done|]. apply andb_true_iff in Eb as [E1 E2].
    apply stretch_ended; [done|done|]. split; [done|]. lia.
  - apply emits_io_bind. intros stop. cbv zeta.
    assert (inside c (EStop stop)) as Hstop by (by apply inside_quiet).
    set (l' := with_tally t' _).
    assert (forall r s' tr, no_claim tr /\ stretch (known_os s) t' r s' tr ->
      no_claim (trj ++ [EStop stop] ++ tr) /\
      stretch (known_os s) (tally l) r s' (EClaim (Ok (Some job)) :: trj ++ [EStop stop] ++ tr)) as Hgo.
    { intros r s' tr [Hr Hst]. split.
      - apply no_claim_app; [done|]. apply no_claim_app; [apply (inside_no_claim c); by constructor|done].
      - apply stretch_job with t'; [done|done|by apply Forall_and|]. apply stretch_inside; [by constructor|done]. }
    destruct stop.
    + eapply emits_weaken; [apply (pace_emits l')|exact Hgo].
    + eapply emits_weaken; [apply (report_again_emits (fun _ => no_claim) l'); [apply no_claim_unclaimed|]|exact Hgo].
      intros l0 s0. apply pace_emits.
Qed.

Lemma take_job_emits job l (s : St) :
  emits s (take_job (W := TW) c job l) (fun r s' tr => no_claim tr /\
    stretch (known_os s) (tally l) r s' (EClaim (Ok (Some job)) :: tr)).
Proof.
  unfold take_job. eapply emits_bind; [apply run_job_emits|]. cbv beta zeta.
  intros [outcome ran] s1 trj (Hos & Hu & Hs). cbn [snd] in *. rewrite <- Hos.
  set (after completed := {| attempted := count (attempted (tally l)); completed := completed |}).
  destruct ran as [u|e].
  - apply (after_job_emits job l (after (count (completed (tally l))))); [done|].
    apply Forall_and. split; [done|]. by destruct Hs as [|(e & [=] & _)].
  - destruct (halts_phone e) eqn:Eh.
    + apply emits_ret. rewrite app_nil_r. split; [by apply no_claim_unclaiming|]. by apply stretch_ended.
    + apply (after_job_emits job l (after (completed (tally l)))); [done|].
      apply Forall_and. split; [done|]. destruct Hs as [|(e' & [= <-] & ?)]; [done|congruence].
Qed.

(** One call for a claim, and what it answers decides. *)
Lemma claim_once_emits l (s : St) :
  emits s (claim_once (W := TW) c l) (fun r s' tr =>
    (exists a tr', tr = EClaim a :: tr' /\ no_claim tr') /\ stretch (known_os s) (tally l) r s' tr).
Proof.
  unfold claim_once, poll_claim.
  eapply emits_bind with (P := fun p s' tr => s' = s /\ exists a, tr = [EClaim a] /\
    match p with PolledJob job => a = Ok (Some job) | _ => forall job, a <> Ok (Some job) end).
  { emits_step. apply emits_ret. split; [done|]. eexists; split; [done|].
    destruct t as [[job|]|e]; [done|done|]. by repeat case_match. }
  cbv beta. intros p s1 tr1 (-> & a & -> & Ha).
  assert (forall r s' tr, no_claim tr -> (forall job, a <> Ok (Some job)) ->
    stretch (known_os s) (tally l) r s' tr ->
    (exists a' tr', [EClaim a] ++ tr = EClaim a' :: tr' /\ no_claim tr') /\
    stretch (known_os s) (tally l) r s' ([EClaim a] ++ tr)) as Hnone.
  { intros r s' tr Hn Hj Hst. split; [by exists a, tr|]. apply stretch_after; [apply same_claim| |done].
    destruct a as [[job|]|]; [by destruct (Hj job)|done|done]. }
  assert (forall e, emits (W := W) s (ret (Ended (Err e) (tally l))) (fun r s' tr => no_claim tr /\
    stretch (known_os s) (tally l) r s' tr)) as Hend.
  { intros e. apply emits_ret. split; [by intros ? ?%elem_of_nil|apply stretch_err]. }
  destruct p as [job| | | |e|e]; try (eapply emits_weaken; [apply Hend|]; cbv beta; intros r s' tr [? ?]; by apply Hnone).
  - subst a. eapply emits_weaken; [apply take_job_emits|]. cbv beta. intros r s' tr [Hn Hst].
    split; [by eexists _, tr|done].
  - eapply emits_weaken; [apply emits_and; [apply idle_emits|apply (idle_no_claim l)]|].
    cbv beta. intros r s' tr [Hst Hn]. by apply Hnone.
  - eapply emits_bind; [apply (sleep_inside c)|]. cbv beta. intros b s2 tr2 [-> Hin]. apply emits_ret.
    rewrite app_nil_r. apply Hnone; [by apply (inside_no_claim c)|done|]. rewrite <- (app_nil_r tr2).
    apply stretch_inside; [done|by apply stretch_again].
Qed.

(** A version noted as unchanged is the one the phone is known to run. *)
Lemma note_unchanged version phone phone' :
  note_os_version version phone = (phone', false) ->
  phone' = phone /\ (is_Some (trimmed version) -> trimmed (os_version phone) = trimmed version).
Proof.
  unfold note_os_version. destruct (trimmed version) as [read|] eqn:Ev.
  - case_bool_decide as E; [|done]. intros [= <-]. split; [done|]. intros _.
    unfold trimmed in *. destruct version as [v|]; [|done]. destruct (os_version phone) as [o|]; [|done].
    cbn in E, Ev |- *. injection E as E. rewrite E. unfold non_empty in *.
    destruct (trim v); [done|]. by injection Ev as <-.
  - intros [= <-]. split; [done|]. by intros [? ?].
Qed.

Lemma probe_and_claim_emits l (s : St) :
  emits s (probe_and_claim (W := TW) c l) (fun r s' tr => claims_reported (known_os s) tr /\
    stretch (known_os s) (tally l) r s' tr).
Proof.
  unfold probe_and_claim. apply emits_io_bind. intros reach.
  assert (Forall (inside c) [EReach reach]) as Hreach.
  { constructor; [|done]. split; [done|by apply same_identity_other]. }
  destruct reach as [version|reason].
  - cbv zeta. apply emits_get_bind. destruct (note_os_version version (phone_of s)) as [phone changed] eqn:En.
    apply emits_set_bind. destruct changed.
    + eapply emits_weaken; [apply (report_again_emits claims_reported (with_pause None l) _ _ (known_os s))|].
      * apply claims_reported_unclaimed.
      * intros l0 s0. apply emits_ret. split; [by apply claims_reported_unclaiming|by apply stretch_again].
      * cbv beta. intros r s' tr [Hc Hst]. split; [|by apply stretch_inside].
        apply (claims_reported_app _ [_]); [by apply claims_reported_unclaiming; constructor|done].
    + apply note_unchanged in En as [-> Hv].
      assert (known_os (with_phone (phone_of s) s) = known_os s) as Hk by (unfold known_os; by rewrite phone_of_with).
      eapply emits_weaken; [apply claim_once_emits|]. cbv beta. rewrite Hk.
      intros r s' tr [(a & tr' & -> & Hn) Hst]. split; [|by apply (stretch_inside _ _ _ _ [_])].
      intros tr1 r' tr2 E. destruct tr1 as [|e tr1]; [done|]. injection E as <- E.
      destruct tr1 as [|e tr1].
      * exists [], version. split; [done|]. intros Hs. by rewrite <- Hv.
      * injection E as _ E. destruct (Hn r'). rewrite E. set_solver.
  - eapply emits_bind; [apply pause_emits|]. cbv beta. intros p s1 tr1 [-> ->].
    eapply emits_weaken; [apply emits_and; [apply idle_emits|apply (idle_no_claim (with_pause (Some p) l))]|].
    cbv beta. intros r s' tr [Hst Hn]. cbn [app]. split.
    + apply claims_reported_none. by apply (no_claim_app [_]); [apply (inside_no_claim c)|].
    + by apply (stretch_inside _ _ _ _ [_]).
Qed.

(** *** One pass, and any number of them *)

Lemma claim_pass_emits l (s : St) :
  emits s (claim_pass (W := TW) c l) (fun r s' tr => claims_reported (known_os s) tr /\
    stretch (known_os s) (tally l) r s' tr).
Proof.
  unfold claim_pass. apply emits_io_bind. intros stop.
  assert (Forall (inside c) [EStop stop]) as Hstop by (constructor; [by apply inside_quiet|done]).
  assert (forall k r s' tr tr0, Forall (inside c) tr0 -> claims_reported k tr /\ stretch k (tally l) r s' tr ->
    claims_reported k (tr0 ++ tr) /\ stretch k (tally l) r s' (tr0 ++ tr)) as Hafter.
  { intros k r s' tr tr0 Hin [Hc Hst]. split; [|by apply stretch_inside].
    apply claims_reported_app; [by apply claims_reported_none, (inside_no_claim c)|].
    apply inside_split in Hin as [Hu _]. by rewrite reported_os_unclaiming. }
  destruct stop.
  { apply emits_ret. split; [by apply claims_reported_unclaiming; constructor|].
    split_and!; [by left; apply inside_split in Hstop as [_ ?]| |left; set_solver|done].
    intros _ Ha. unfold jobs. cbn. lia. }
  eapply emits_bind; [apply refresh_lawful|]. cbv beta. intros changed s1 tr1 [Hos Hin].
  assert (known_os s1 = known_os s) as Hk by (unfold known_os; by rewrite Hos). rewrite <- Hk.
  destruct changed as [[]|e].
  - eapply emits_weaken; [apply (report_again_emits claims_reported l _ _ (known_os s1)); [apply claims_reported_unclaimed|]|].
    + intros l0 s0. apply probe_and_claim_emits.
    + cbv beta. intros r s' tr Hr. apply (Hafter _ _ _ _ [_]); [done|]. by apply Hafter.
  - eapply emits_weaken; [apply probe_and_claim_emits|]. cbv beta. intros r s' tr Hr.
    apply (Hafter _ _ _ _ [_]); [done|]. by apply Hafter.
  - apply emits_ret. apply (Hafter _ _ _ _ [_]); [done|]. apply Hafter; [done|].
    split; [by apply claims_reported_unclaiming|apply stretch_err].
Qed.

(** The thread ends here: well, or for an operator. *)
Definition loop_over (r : option (result unit Error * Tally)) : Prop :=
  match r with
  | Some (Ok _, _) => True
  | Some (Err e, _) => halts_phone e = true
  | None => False
  end.

(** No other identity was named, or it was waived. *)
Definition untold (tr : list Event) : Prop := Forall same tr \/ waived tr.

Lemma untold_app tr tr' : untold tr -> untold tr' -> untold (tr ++ tr').
Proof.
  intros [Hs|Hw] Hr.
  - destruct Hr as [Hs'|Hw]; [left; by apply Forall_app|right].
    apply (waived_around tr tr' []) in Hw. by rewrite app_nil_r in Hw.
  - right. by apply (waived_around [] tr tr').
Qed.

Definition loop_counted (t : Tally) (n : Z) (r : option (result unit Error * Tally)) : Prop :=
  0 < budget <= u32_max -> 0 <= attempted t < budget ->
  match r with
  | None => attempted t + n < budget
  | Some (r, t') => attempted t' = attempted t + n /\ attempted t' <= budget /\
      match r with Ok _ => True | Err e => attempted t' < budget \/ halts_phone e = true end
  end.

(** The loop so far, or to its end. *)
Definition looped (k : option str) (t : Tally) (r : option (result unit Error * Tally)) (tr : list Event) : Prop :=
  claims_reported k tr /\ (untold tr \/ loop_over r /\ halted client tr) /\ loop_counted t (jobs tr) r /\
  match r with Some (Ok _, t') => EStop true ∈ tr \/ 0 < budget <= attempted t' | _ => True end.

Lemma looped_after k t t' r tr0 tr :
  claims_reported k tr0 -> untold tr0 ->
  (0 < budget <= u32_max -> 0 <= attempted t < budget ->
   attempted t' = attempted t + jobs tr0 /\ attempted t' < budget) ->
  looped (reported_os k tr0) t' r tr -> looped k t r (tr0 ++ tr).
Proof.
  intros Hc0 Hs0 Hj (Hc & Hh & Hn & He). split; [by apply claims_reported_app|]. split; [|split].
  - destruct Hh as [Hh|[Hr Hh]]; [left; by apply untold_app|].
    destruct Hs0 as [Hs0|Hw]; [right; split; [done|by apply halted_after]|].
    left; right. by apply (waived_around [] tr0 tr).
  - intros Hb Ha. destruct (Hj Hb Ha) as [Hat Hlt]. specialize (Hn Hb).
    pose proof (jobs_nonneg tr0). rewrite jobs_app.
    destruct r as [[r t'']|]; specialize (Hn ltac:(lia)); [|lia].
    destruct Hn as (? & ? & ?). split_and!; [lia..|done].
  - destruct r as [[[] t'']|]; try done. destruct He as [He|He]; [left; set_solver|by right].
Qed.

Lemma looped_quiet k t r tr0 tr :
  no_claim tr0 -> untold tr0 -> looped (reported_os k tr0) t r tr -> looped k t r (tr0 ++ tr).
Proof.
  intros Hn Hs. apply looped_after; [by apply claims_reported_none|done|].
  intros Hb Ha. rewrite jobs_none by done. lia.
Qed.

Lemma looped_inside k t r tr0 tr : Forall (inside c) tr0 -> looped k t r tr -> looped k t r (tr0 ++ tr).
Proof.
  intros Hin Hl. destruct (inside_split c tr0 Hin) as [Hu Hs]. apply looped_quiet; [by apply (inside_no_claim c)|by left|].
  by rewrite reported_os_unclaiming.
Qed.

Lemma looped_end k t r : match r with Ok _ => False | Err _ => True end -> looped k t (Some (r, t)) [].
Proof.
  intros Hr. split; [by apply claims_reported_unclaiming|]. split; [by left; left|]. split; [|by destruct r].
  intros _ Ha. change (jobs []) with 0. destruct r; [done|]. lia.
Qed.

Lemma claim_passes_emits fuel l (s : St) :
  emits s (claim_passes (W := TW) c fuel l) (fun r _ tr => looped (known_os s) (tally l) r tr).
Proof.
  revert l s. induction fuel as [|fuel IH]; intros l s; cbn [claim_passes].
  { apply emits_ret. split_and!; [by apply claims_reported_unclaiming|by left; left| |done].
    intros _ Ha. change (jobs []) with 0. lia. }
  eapply emits_bind; [apply claim_pass_emits|]. cbv beta. intros pass s1 tr1 (Hc & Hh & Hn & He & Hk).
  destruct pass as [l'|r t'].
  - eapply emits_weaken; [apply IH|]. cbv beta. rewrite <- Hk. intros r s2 tr2.
    apply looped_after; [done| |exact Hn]. destruct Hh as [|[(e & t' & [=] & _) _]]. by left.
  - apply emits_ret. rewrite app_nil_r. split_and!; [done| |exact Hn|].
    + destruct Hh as [|[(e & t'' & [= -> ->] & Ht) Hh]]; [by left; left|by right].
    + destruct r; done.
Qed.

Lemma claim_loop_emits fuel t (s : St) :
  emits s (claim_loop (W := TW) c fuel t) (fun r _ tr => looped (known_os s) t r tr).
Proof.
  unfold claim_loop. eapply emits_bind; [apply report_now_emits|]. cbv beta.
  intros r s1 tr1 (-> & -> & _). destruct r as [report|e]; [apply claim_passes_emits|].
  apply emits_ret. by apply looped_end.
Qed.

Lemma connect_emits (s : St) k :
  emits s (connect (W := TW) c) (fun r s' tr => s' = s /\ Forall same tr /\ no_claim tr /\
    match r with Ok _ => reported_os k tr = known_os s | Err _ => True end).
Proof.
  unfold connect. eapply emits_try; [apply report_now_emits|..]; cbv beta.
  { intros e s' tr (-> & -> & _). split_and!; [done|done|by intros r ?%elem_of_nil|done]. }
  intros report s' tr (-> & -> & Hos). unfold refresh_profile.
  eapply emits_bind with (P := fun r s' tr => s' = s /\ exists a, tr = [EUpdateMe report a] /\
    match r with Ok p => a = Ok p | Err _ => True end).
  { emits_step. apply emits_ret. split; [done|]. eexists; split; [done|]. by destruct t. }
  cbv beta. intros r s1 tr1 (-> & a & -> & Ha). apply emits_ret. cbn [app]. split_and!; [done| | |].
  - constructor; [by apply same_identity_other|done].
  - intros r' Hr. set_solver.
  - destruct r as [p|]; [|done]. cbn. by rewrite Ha.
Qed.

Lemma looped_here k t r tr :
  Forall unclaiming tr -> untold tr \/ loop_over r /\ halted client tr ->
  match r with Some (Ok _, t') => EStop true ∈ tr /\ t' = t | Some (Err _, t') => t' = t | None => True end ->
  looped k t r tr.
Proof.
  intros Hu Hs Hr. pose proof (no_claim_unclaiming tr Hu) as Hn.
  split; [by apply claims_reported_unclaiming|]. split; [done|]. split.
  - intros _ Ha. rewrite jobs_none by done. destruct r as [[[] t']|]; [destruct Hr as [_ ->]|subst t'|]; lia.
  - destruct r as [[[] t']|]; try done. left. by destruct Hr.
Qed.

(** Another identity named before the server is called halts what ended there. *)
Lemma prepared_told k t r tr :
  Forall unclaiming tr -> Forall same tr \/ loop_over r \/ waived tr ->
  match r with Some (Ok _, t') => EStop true ∈ tr /\ t' = t | Some (Err _, t') => t' = t | None => True end ->
  looped k t r tr.
Proof.
  intros Hu Hs. apply looped_here; [done|]. destruct Hs as [Hs|[Hr|Hw]]; [by left; left| |by left; right].
  right. split; [done|]. exists [], tr. split_and!; [done|done|by apply no_claim_unclaiming].
Qed.

Lemma run_one_emits fuel t (s : St) k :
  emits s (run_one (W := TW) c fuel t) (fun r _ tr => looped k t r tr).
Proof.
  unfold run_one. cbv zeta. eapply emits_bind; [apply prepare_lawful|]. cbv beta.
  intros prepared s1 tr1 (Hos & Hu & Hs & Hstop). pose proof (no_claim_unclaiming tr1 Hu) as Hn.
  destruct prepared as [[[]|e]|].
  - assert (untold tr1) as Ht by (destruct Hs as [?|[(e & [=] & _)|[[=]|?]]]; [by left|by right]).
    eapply emits_bind; [apply (connect_emits s1 (reported_os k tr1))|]. cbv beta.
    intros connected s2 tr2 (-> & Hs2 & Hn2 & Hk). destruct connected as [profile|e].
    2: { apply emits_ret. apply looped_quiet; [done|done|]. rewrite app_nil_r, <- (app_nil_r tr2).
         apply looped_quiet; [done|by left|]. by apply looped_end. }
    eapply emits_bind; [apply emits_and; [apply wait_inside|apply wait_until_claimable_emits]|]. cbv beta.
    intros waited s3 tr3 ([-> Hin] & _ & Hgate & _).
    assert (forall r tr, looped (known_os s1) t r tr -> looped k t r (tr1 ++ tr2 ++ tr3 ++ tr)) as Hall.
    { intros r tr Hl. apply looped_quiet; [done|done|]. apply looped_quiet; [done|by left|].
      rewrite Hk. by apply looped_inside. }
    destruct waited as [[p|]|e]; cbn [in_context].
    + eapply emits_weaken; [apply claim_loop_emits|]. cbv beta. intros r s' tr. by apply Hall.
    + apply emits_ret. rewrite app_nil_r. destruct Hgate as [_ Hgate]. apply last_Some_elem_of in Hgate.
      apply looped_quiet; [done|done|]. apply looped_quiet; [done|by left|].
      destruct (inside_split c tr3 Hin) as [Hu3 Hs3]. apply looped_here; [done|by left; left|done].
    + apply emits_ret. apply Hall. by apply looped_end.
  - apply emits_ret. rewrite app_nil_r. apply prepared_told; [done| |by split; [apply Hstop|]].
    by right; left.
  - apply emits_ret. rewrite app_nil_r. apply prepared_told; [done| |done].
    destruct Hs as [?|[(e' & [= <-] & ?)|[[=]|?]]]; auto.
  - apply emits_ret. rewrite app_nil_r. apply prepared_told; [done| |done].
    destruct Hs as [?|[(e' & [=] & ?)|[[=]|?]]]; auto.
Qed.

(** *** Restarts *)

(** A thread that ended did so on a stop, with its budget spent, or for an operator. *)
Definition thread_ended (r : option (result unit Error * Tally)) : Prop :=
  match r with Some (Err e, _) => is_operator_actionable e = true | _ => True end.

Lemma restarts_emits fuel passes backoff t (s : St) k :
  emits s (restarts (W := TW) c fuel passes backoff t) (fun r _ tr => looped k t r tr /\ thread_ended r).
Proof.
  revert backoff t s k. induction fuel as [|fuel IH]; intros backoff t s k; cbn [restarts].
  { apply emits_ret. split; [|done]. by apply looped_here; [|left; left|]. }
  eapply emits_bind; [apply (run_one_emits _ _ _ k)|]. cbv beta. intros r s1 tr1 Hl.
  destruct r as [[[[]|e] t']|]; [by apply emits_ret; rewrite app_nil_r| |by apply emits_ret; rewrite app_nil_r].
  destruct (is_operator_actionable e) eqn:Eo; [by apply emits_ret; rewrite app_nil_r|].
  assert (halts_phone e = false) as Eh by (by apply orb_false_iff in Eo as [? _]).
  destruct Hl as (Hc & Hh & Hn & _).
  assert (untold tr1) as Hs by (destruct Hh as [|[Hh _]]; [done|cbn in Hh; congruence]).
  assert (forall r tr tr0, Forall (inside c) tr0 -> looped (reported_os k tr1) t' r tr -> looped k t r (tr1 ++ tr0 ++ tr)) as Hall.
  { intros r tr tr0 Hin Hr. apply (looped_after k t t'); [done|done| |by apply looped_inside].
    intros Hb Ha. destruct (Hn Hb Ha) as (? & ? & [?|?]); [lia|congruence]. }
  assert (forall tr, EStop true ∈ tr -> Forall (inside c) tr -> looped (reported_os k tr1) t' (Some (Ok tt, t')) tr) as Hstop.
  { intros tr He Hin. destruct (inside_split c tr Hin) as [Hu Hs'].
    by apply looped_here; [|left; left|]. }
  apply emits_io_bind. intros stop. assert (Forall (inside c) [EStop stop]) as Hq by (constructor; [by apply inside_quiet|done]).
  destruct stop.
  { apply emits_ret. split; [|done]. apply (Hall _ [EStop true] []); [done|]. apply Hstop; [set_solver|done]. }
  eapply emits_bind; [apply (sleep_stopped c)|]. cbv beta. intros slept s2 tr2 (-> & Hin & Hw).
  destruct slept.
  - eapply emits_weaken; [apply (IH _ _ _ (reported_os k tr1))|]. cbv beta. intros r s3 tr3 [Hr He].
    split; [|done]. apply (Hall _ _ [_]); [done|]. by apply looped_inside.
  - apply emits_ret. split; [|done]. apply (Hall _ _ [_]); [done|]. rewrite app_nil_r. apply Hstop; [by apply Hw|done].
Qed.

Lemma run_device_emits fuel passes (s : St) k :
  emits s (run_device (W := TW) c fuel passes) (fun r _ tr => looped k no_jobs r tr /\ thread_ended r).
Proof. apply restarts_emits. Qed.
End Passes.
