(* ===== verification/ProxyPool.v ===== *)
(** * Pool mode behind the claim loop

    The pool's builds as the claim loop's build source, and what the loop relies on of them:
    a job neither claims nor reports the profile, keeps what the phone is known to run, and
    halts the phone when the phone answers with another identity. *)

From Stdlib Require Import ZArith Lia String.
From stdpp Require Import prelude list.
From S2P Require Import Prelude Str Timing Json Errors Protocol ProxyBase ProxyServer ProxyApp ProxyLaunch ProxyJob ProxyResults ProxyLoop.

Local Open Scope Z_scope.
Local Open Scope proxy_scope.

(** ** What a job does not do *)

(** No claim, no report of the profile, no question about the identity. *)
Definition in_job (e : Event) : Prop :=
  match e with
  | EClaim _ | EUpdateMe _ _ => False
  | ELaunch l _ => launch_args l <> identity_args
  | _ => True
  end.

Definition keeps_os (s s' : Phone) : Prop := os_version s' = os_version s.

#[export] Instance keeps_os_preorder : PreOrder keeps_os.
Proof. split; [done|]. intros s1 s2 s3 H1 H2. unfold keeps_os in *. congruence. Qed.

Section Tame.
Context `{PT : ProxyTexts} `{JT : JobTexts} `{LT : LaunchTexts} `{RT : RuntimeTypes}.
Context {W : Type} `{MC : MgmtClient W} `{DC : DeviceControl W} `{PH : ProxyHost W}.
Context (cfg : PhoneConfig).
Notation TW := (W * list Event)%type.

Section AnyState.
Context {St : Type} (I : St -> St -> Prop) `{!PreOrder I}.

Lemma run_verb_tame bundle verb t f on :
  verb_args verb <> identity_args -> tame I in_job (run_verb (St := St) (W := TW) bundle verb t f on).
Proof.
  intros Hv s. eapply emits_weaken; [apply run_verb_emits|]. cbv beta. intros r s' tr (-> & Hall & _).
  split; [done|]. eapply Forall_impl; [exact Hall|]. intros e He. destruct e; try done.
  cbn in He |- *. by rewrite He.
Qed.

Lemma list_results_tame b t f : tame I in_job (list_results (St := St) (W := TW) b t f).
Proof. unfold list_results. apply tame_try; [done|by apply run_verb_tame|]. intros run. tame. Qed.

Lemma show_result_tame b r t f : tame I in_job (show_result (St := St) (W := TW) b r t f).
Proof. unfold show_result. cbv zeta. apply tame_try; [done|by apply run_verb_tame|]. intros run. tame. Qed.

Lemma delete_result_tame b r t f : tame I in_job (delete_result (St := St) (W := TW) b r t f).
Proof. unfold delete_result. cbv zeta. apply tame_try; [done|by apply run_verb_tame|]. intros run. tame. Qed.

Lemma forward_tame l : tame I in_job (forward (St := St) (W := TW) l).
Proof. induction l as [|line l IH]; cbn [forward]; tame. Qed.

Lemma run_benchmark_tame job plan bundle t f :
  launch_plan_from_claim job = Ok plan ->
  tame I in_job (run_benchmark (St := St) (W := TW) bundle (app_args plan) t f).
Proof.
  intros Hp. pose proof forward_tame.
  assert (app_args plan <> identity_args) as Hn.
  { apply launch_plan_args in Hp as (text & rest & ->). intros [=]. }
  assert (tame I in_job (do answer <- io (launch_console (W := TW)
       {| launch_bundle := bundle; launch_args := app_args plan; launch_deadline := t;
          launch_first_line := f; launch_sentinel := OnStdout; launch_watched := true |});
     do _ <- forward answer.1; ret answer.2)) as Hl.
  { apply tame_bind; [done| |intros; tame]. apply tame_io; [done|]. intros r. by constructor. }
  unfold run_benchmark, relaunch_if_silent, raised. apply tame_try; [done|exact Hl|]. intros run.
  destruct (negb (silent run)); [tame|]. apply tame_bind; [done|tame|]. intros up.
  destruct up; [tame|exact Hl].
Qed.

Lemma submission_tame id body : tame I in_job (submit_with_backoff (St := St) (W := TW) id body).
Proof.
  intros s. eapply emits_weaken.
  { apply emits_and; [apply submit_emits|]. by apply (submit_with_backoff_does in_job). }
  cbv beta. by intros r s' tr [[-> _] Hn].
Qed.
#[local] Hint Resolve submission_tame : tame.

Lemma submit_success_tame job payload output : tame I in_job (submit_success (St := St) (W := TW) job payload output).
Proof. unfold submit_success. tame. Qed.

Lemma conclude_tame job end_ : tame I in_job (conclude (St := St) (W := TW) job end_).
Proof. unfold conclude, report_failure, submit_failure. tame. Qed.
End AnyState.

Hint Resolve list_results_tame show_result_tame delete_result_tame submit_success_tame conclude_tame : tame.

Lemma harvest_tame v : tame keeps_os in_job (harvest_device_facts (W := TW) v).
Proof.
  unfold harvest_device_facts. destruct (from_payload v); [|tame]. apply tame_change. intros s.
  case_match; [by apply emits_ret|]. emits_step. apply emits_set. split; [done|by repeat constructor].
Qed.
#[local] Hint Resolve harvest_tame : tame.

Lemma record_installed_tame r : tame keeps_os in_job (record_installed (W := TW) r).
Proof.
  unfold record_installed. apply tame_try; [exact _|tame|]. intros _. apply tame_change. intros s.
  apply emits_set_bind, emits_ret. done.
Qed.

Lemma collect_payloads_tame before : tame keeps_os in_job (collect_payloads (W := TW) cfg before).
Proof. unfold collect_payloads. tame. Qed.
#[local] Hint Resolve record_installed_tame collect_payloads_tame : tame.

Lemma settle_collected_tame job output c : tame keeps_os in_job (settle_collected (W := TW) cfg job output c).
Proof. unfold settle_collected, drop_result. tame. Qed.

Lemma settle_uploaded_tame before : tame keeps_os in_job (settle_uploaded (W := TW) cfg before).
Proof. unfold settle_uploaded, drop_result. tame. Qed.
#[local] Hint Resolve settle_collected_tame settle_uploaded_tame : tame.

Lemma after_run_tame job before version launched pinned elapsed :
  tame keeps_os in_job (after_run (W := TW) cfg job before version launched pinned elapsed).
Proof. unfold after_run, submit_results. tame. Qed.
#[local] Hint Resolve after_run_tame : tame.

Lemma run_and_submit_tame job plan before version :
  launch_plan_from_claim job = Ok plan ->
  tame keeps_os in_job (run_and_submit (W := TW) cfg job plan before version).
Proof.
  intros Hp. pose proof (fun b t f => run_benchmark_tame keeps_os job plan b t f Hp).
  unfold run_and_submit, pin_gpu. tame.
Qed.

Lemma known_benchmark_tame job : tame keeps_os in_job (known_benchmark (W := TW) job).
Proof. unfold known_benchmark, benchmark_is_unknown. tame. Qed.

Lemma results_before_tame : tame keeps_os in_job (results_before (W := TW) cfg).
Proof. unfold results_before. tame. Qed.
#[local] Hint Resolve known_benchmark_tame results_before_tame : tame.
End Tame.

(** ** Programs that ask for the identity

    What a program that installs or runs a job answers, of the identity the phone named while
    it ran: nobody else's, or the answer says so. *)

Lemma in_job_lawful client e : in_job e -> unclaiming e /\ same_identity client e.
Proof.
  intros He. split; [by destruct e|]. intros Hn. destruct e; try done. cbn in He, Hn.
  destruct r as [p [run|]]; [|done]. by destruct Hn.
Qed.

#[export] Instance names_another_dec client e : Decision (names_another client e).
Proof.
  destruct e; try (right; by intros []). destruct r as [p [run|]]; [|right; by intros []]. cbn.
  destruct (decide (launch_args l = identity_args)) as [Hl|Hl]; [|right; by intros [? _]].
  destruct (silent run); [right; by intros (_ & ? & _)|].
  destruct (read_identity run) as [found|]; [|right; by intros (_ & _ & f & ? & _)].
  destruct (decide (found = client)) as [->|Hf]; [right|left; by split_and!; [..|exists found]].
  by intros (_ & _ & f & [= <-] & ?).
Defined.

Lemma silent_launch_same client e : silent_launch e -> same_identity client e.
Proof.
  intros Hs Hn. destruct e; try done. destruct r as [p [run|]]; [|done]. cbn in Hs, Hn.
  destruct Hn as (_ & ? & _). congruence.
Qed.

Section Telling.
Context {St W : Type} (I : St -> St -> Prop) `{!PreOrder I} (client : str).
Notation TW := (W * list Event)%type.

(** [tells] says which answers tell of another identity. *)
Definition telling {T} (tells : T -> Prop) (s : St) (r : T) (s' : St) (tr : list Event) : Prop :=
  I s s' /\ Forall unclaiming tr /\ (Forall (same_identity client) tr \/ tells r).

Lemma telling_ret {T} (tells : T -> Prop) r s : emits (W := W) s (ret r) (telling tells s).
Proof. apply emits_ret. split_and!; [done|done|by left]. Qed.

(** What was told is told by what follows. *)
Lemma telling_bind {T U} (told : T -> Prop) (tells : U -> Prop) (m : prog St TW T) k s :
  emits s m (telling told s) ->
  (forall t s', emits s' (k t) (telling tells s')) ->
  (forall t s', told t -> emits s' (k t) (fun r _ _ => tells r)) ->
  emits s (bind m k) (telling tells s).
Proof.
  intros Hm Hk Ht. eapply emits_bind; [exact Hm|]. intros t s1 tr1 (Hs & Hu & Hsame).
  assert (emits s1 (k t) (fun r s'' tr => telling tells s1 r s'' tr /\
    (Forall (same_identity client) tr1 \/ tells r))) as Hall.
  { destruct Hsame as [Hsame|Hsame].
    - eapply emits_weaken; [apply Hk|]. cbv beta. auto.
    - eapply emits_weaken; [apply emits_and; [apply Hk|by apply Ht]|]. cbv beta. intros ? ? ? []. auto. }
  eapply emits_weaken; [exact Hall|]. cbv beta. intros r s2 tr2 [(Hs2 & Hu2 & Hr) Hr1].
  split; [by etrans|]. split; [by apply Forall_app|].
  destruct Hr as [Hr|]; [|by right]. destruct Hr1 as [Hr1|]; [|by right]. left. by apply Forall_app.
Qed.

Lemma telling_tame {T} (tells : T -> Prop) (m : prog St TW T) s :
  tame I in_job m -> emits s m (telling tells s).
Proof.
  intros Hm. eapply emits_weaken; [apply Hm|]. cbv beta. intros r s' tr [Hs Hin].
  assert (Forall unclaiming tr /\ Forall (same_identity client) tr) as [Hu Hsame].
  { apply Forall_and. eapply Forall_impl; [exact Hin|]. apply in_job_lawful. }
  split_and!; [done|done|by left].
Qed.

Lemma telling_after {T U} (tells : U -> Prop) (m : prog St TW T) k s :
  tame I in_job m -> (forall t s', emits s' (k t) (telling tells s')) -> emits s (bind m k) (telling tells s).
Proof.
  intros Hm Hk. apply (telling_bind (fun _ => False)); [by apply telling_tame|done|]. by intros t s' [].
Qed.

Lemma telling_try {T U E} (tells : result U E -> Prop) (m : prog St TW (result T E)) k s :
  tame I in_job m -> (forall t s', emits s' (k t) (telling tells s')) -> emits s (try_bind m k) (telling tells s).
Proof. intros Hm Hk. apply telling_after; [done|]. intros [t|e] s'; [apply Hk|apply telling_ret]. Qed.
End Telling.

(** ** An install asks for the identity, and halts on another *)

(** What an install answers when the phone names another client. *)
Definition tells_replaced (r : result unit Error) : Prop := exists e, r = Err e /\ replaced_identity e = true.

Section Installs.
Context `{PT : ProxyTexts} `{JT : JobTexts} `{LT : LaunchTexts} `{RT : RuntimeTypes}.
Context {W : Type} `{MC : MgmtClient W} `{DC : DeviceControl W} `{PH : ProxyHost W}.
Context (cfg : PhoneConfig).
Notation TW := (W * list Event)%type.
Notation client := (client_id cfg).

Lemma check_after_told checked (s : Phone) :
  emits s (check_after (W := TW) cfg checked) (telling keeps_os client tells_replaced s).
Proof.
  eapply emits_weaken; [apply check_after_emits|]. cbv beta.
  intros r s' tr (-> & Hall & (pre & e & -> & Hpre) & Hr). split; [done|]. split.
  { eapply Forall_impl; [exact Hall|]. intros e' He. by destruct e'. }
  assert (Forall (same_identity client) pre) as Hs.
  { eapply Forall_impl; [exact Hpre|]. apply silent_launch_same. }
  destruct (decide (names_another client e)) as [Hn|Hn].
  2: { left. apply Forall_app. split; [done|]. by constructor. }
  destruct e; try done. destruct r0 as [p [run|]]; [|done]. cbn in Hn.
  destruct Hn as (Hl & _ & found & Hread & Hne).
  destruct r as [[]|err].
  - destruct Hr as (pre' & l' & p' & run' & E & _ & Hread'). apply app_inj_tail in E as [_ [= _ _ <-]].
    congruence.
  - right. exists err. split; [done|]. apply (Hr found). by exists pre, l, p, run.
Qed.

Lemma install_build_told build (s : Phone) :
  emits s (install_build (W := TW) cfg build) (telling keeps_os client tells_replaced s).
Proof.
  pose proof record_installed_tame. unfold install_build, set_installed, check_before.
  apply telling_try; [exact _|tame|]. intros _ s1. apply telling_try; [exact _|tame|]. intros _ s2.
  apply telling_after; [exact _|tame|]. intros r s3. apply telling_try; [exact _|tame|]. intros _ s4.
  apply (telling_bind _ _ tells_replaced); [apply check_after_told| |].
  - intros [u|e] s5; [apply telling_tame; auto|apply telling_ret; exact _].
  - intros t s5 (e & -> & He). apply emits_ret. by exists e.
Qed.

Lemma ensure_installed_told pool rt (s : Phone) :
  emits s (ensure_installed (W := TW) cfg pool rt) (telling keeps_os client tells_replaced s).
Proof.
  unfold ensure_installed, bundle_present. destruct (build_for pool rt) as [build|]; [|apply telling_ret; exact _].
  apply telling_after; [exact _|apply tame_get; exact _|]. intros phone s1.
  apply telling_try; [exact _|tame|]. intros there s2.
  destruct there; [apply telling_ret; exact _|apply install_build_told].
Qed.
End Installs.

(** ** The build source *)

(** What a job answers when it halts the phone. *)
Definition tells_halt (r : result Outcome JobEnd) : Prop :=
  exists end_ e, r = Err end_ /\ halt end_ = Some e /\ halts_phone e = true.

Lemma replaced_halts e : replaced_identity e = true -> halts_phone e = true.
Proof. unfold halts_phone. by intros ->. Qed.

Section PoolMode.
Context `{PT : ProxyTexts} `{JT : JobTexts} `{LT : LaunchTexts} `{RT : RuntimeTypes}.

(** [Pool::check_advertisable]. *)
Definition check_advertisable (pool : Pool) : result unit Error :=
  match pool_builds pool with
  | [] => Err (bail (lit "no build in " ++ pool_dir pool ++
      lit " could be read, so this client would advertise nothing and the server could never send it a job"))
  | _ => Ok tt
  end.

(** [Builds::Pool]: nothing to refresh, and no pace of its own. *)
Definition pool_mode {W : Type} `{MC : MgmtClient W} `{DC : DeviceControl W} `{PH : ProxyHost W}
    (cfg : PhoneConfig) (pool : Pool) : Builds Phone W := {|
  phone_of := fun phone => phone;
  with_phone := fun phone _ => phone;
  capabilities := fun _ => pool_capabilities pool;
  prepare_builds := fun _ =>
    ret (Some (match check_advertisable pool with Ok _ => Ok true | Err e => Err e end));
  refresh_builds := ret (Ok false);
  execute_claim := execute_job cfg pool;
  pace_claims := ret tt;
|}.

Context {W : Type} `{MC : MgmtClient W} `{DC : DeviceControl W} `{PH : ProxyHost W}.
Context (cfg : PhoneConfig) (pool : Pool).
Notation TW := (W * list Event)%type.

Lemma execute_job_lawful job (s : Phone) :
  emits s (execute_job (W := TW) cfg pool job) (telling keeps_os (client_id cfg) tells_halt s).
Proof.
  unfold execute_job, launch_plan. destruct (launch_plan_from_claim job) as [plan|refusal] eqn:Hp; [|apply telling_ret; exact _].
  unfold try_bind at 1. apply emits_ret_bind. cbv beta iota.
  apply telling_try; [exact _|apply known_benchmark_tame|]. intros _ s1.
  apply (telling_bind _ _ tells_replaced); [apply ensure_installed_told| |].
  - intros [u|e] s2; [|apply telling_ret; exact _].
    apply telling_try; [exact _|apply results_before_tame|]. intros before s3.
    apply telling_after; [exact _|tame|]. intros _ s4.
    by apply telling_tame, run_and_submit_tame.
  - intros t s2 (e & -> & He). apply emits_ret. eexists _, e. split; [done|]. cbn. rewrite He.
    split; [done|by apply replaced_halts].
Qed.

#[export] Instance pool_mode_lawful : BuildsLaws (pool_mode (W := TW) cfg pool) (client_id cfg) (fun _ => False).
Proof.
  split.
  - done.
  - done.
  - intros fuel s. apply emits_ret. split_and!; [done|done|by left|]. by destruct (check_advertisable pool).
  - intros s. by apply emits_ret.
  - intros job s. apply execute_job_lawful.
  - intros s. by apply emits_ret.
Qed.
End PoolMode.

(** ** What a phone in pool mode does, for as long as it runs *)

Section PoolLoop.
Context `{PT : ProxyTexts} `{JT : JobTexts} `{LT : LaunchTexts} `{RT : RuntimeTypes}.
Context {W : Type} `{MC : MgmtClient W} `{DC : DeviceControl W} `{PH : ProxyHost W}.
Notation TW := (W * list Event)%type.

(** One phone's thread over a traced world. *)
Definition pool_thread (c : Claimant) (pool : Pool) (fuel passes : nat) :
    prog Phone TW (option (result unit Error * Tally)) :=
  run_device (B := pool_mode (phone_config c) pool) c fuel passes.

Lemma pool_thread_emits c pool fuel passes (s : Phone) k :
  emits s (pool_thread c pool fuel passes) (fun r _ tr => looped c (fun _ => False) k no_jobs r tr /\ thread_ended r).
Proof. apply (run_device_emits (B := pool_mode (phone_config c) pool)). exact _. Qed.

(** C7: A phone's thread claims only for a phone that can run a job and that the server
    knows. Whatever the server, the phone and the clock answer, after any number of passes
    and restarts, each claim comes at once after a probe that found the phone able to run a
    job, and when that probe named an iOS version, the last report the server had taken
    named the same one; and once the phone has answered with an identity that is not the
    configured one, its thread makes no further claim, through every restart. *)
Theorem pool_mode_claims_lawfully (c : Claimant) (pool : Pool) (fuel passes : nat) (s : Phone) (w : W) :
  exists r s' w' tr,
    pool_thread c pool fuel passes (s, (w, [])) = (r, (s', (w', tr))) /\
    (forall tr1 answer tr2, tr = tr1 ++ EClaim answer :: tr2 ->
      exists tr0 version, tr1 = tr0 ++ [EReach (Reachable version)] /\
        (is_Some (trimmed version) -> reported_os None tr1 = trimmed version)) /\
    (forall tr1 e tr2, tr = tr1 ++ e :: tr2 -> names_another (client_id (phone_config c)) e ->
      forall answer, EClaim answer ∉ tr2).
Proof.
  destruct (pool_thread_emits c pool fuel passes s None w []) as (r & s' & w' & tr & E & (Hc & Hh & _) & _).
  exists r, s', w', tr. split; [done|]. split; [exact Hc|]. intros tr1 e tr2 Etr Hn.
  apply (halted_claims (client_id (phone_config c)) tr tr1 e tr2); [|done|done].
  destruct Hh as [[Hh|[]]|[_ Hh]]; auto.
Qed.

(** The budget of jobs holds across restarts, and what ends a thread is told apart. With
    [max_jobs] set, never more than [max_jobs] jobs are claimed, and a thread that has ended
    counted exactly the jobs it was given. A thread ends well only on a stop it read or with
    its budget spent, and with an error only on one that an operator must see to; anything
    else restarts it. *)
Theorem thread_keeps_its_budget (c : Claimant) (pool : Pool) (fuel passes : nat) (s : Phone) (w : W) :
  exists r s' w' tr,
    pool_thread c pool fuel passes (s, (w, [])) = (r, (s', (w', tr))) /\
    (0 < max_jobs (loop_config c) <= u32_max ->
      jobs tr <= max_jobs (loop_config c) /\
      match r with Some (_, t) => attempted t = jobs tr | None => True end) /\
    match r with
    | Some (Ok _, t) => EStop true ∈ tr \/ 0 < max_jobs (loop_config c) <= attempted t
    | Some (Err e, _) => is_operator_actionable e = true
    | None => True
    end.
Proof.
  destruct (pool_thread_emits c pool fuel passes s None w [])
    as (r & s' & w' & tr & E & (_ & _ & Hn & He) & Ht).
  exists r, s', w', tr. split; [done|]. split.
  - intros Hb. specialize (Hn Hb). cbn [attempted no_jobs] in Hn.
    destruct r as [[r t]|]; specialize (Hn ltac:(lia)); [|lia]. destruct Hn as (? & ? & _). lia.
  - by destruct r as [[[] t]|].
Qed.
End PoolLoop.
