(* ===== verification/ProxyReleases.v ===== *)
(** * The releases bucket ([releases/mod.rs], [releases/s3.rs])

    What a listing of the bucket names as builds: the pages of the listing, the archives among
    its objects, the sidecar and the manifest that make an archive a build, and how far a
    listing reads. The HTTP exchange, its signature and the XML of a page are the bucket's,
    an interface free to answer anything. *)

From Stdlib Require Import ZArith Lia String.
From stdpp Require Import prelude list.
From S2P Require Import Prelude Str Json Errors ProxyBase ProxyServer ProxyApp.

Local Open Scope Z_scope.
Local Open Scope proxy_scope.

Definition ARCHIVE_PREFIX : str := lit "pipette-ios-".
Definition ARCHIVE_SUFFIX : str := lit ".xcarchive.zip".
Definition SIDECAR_SUFFIX : str := lit ".sha256".
Definition SIDECAR_MAX_BYTES : Z := 4096.
Definition MANIFEST_SUFFIX : str := lit ".json".
Definition MANIFEST_MAX_BYTES : Z := 64 * 1024.

(** ** The bucket *)

Inductive S3Error :=
| S3Unreachable (text : str)
| S3Refused (status : Z) (reason : option str)
| S3Interrupted (text : str)
| NotAListing
| TruncatedWithoutToken
| RepeatedToken
| S3Signing (text : str).

Definition is_client_refusal (e : S3Error) : bool :=
  match e with
  | S3Refused status _ => (400 <=? status) && (status <? 500)
  | _ => false
  end.

Record Object := { object_key : str; object_bytes : Z; last_modified : Z }.

Record ListBucketResult := {
  is_truncated : bool;
  next_continuation_token : option str;
  contents : list Object;
}.

Record Manifest := { manifest_version : str; manifest_runtimes : list Value }.

(** [get_bytes] of the listing's pages, read, and of one key, cut at a limit. *)
Class Bucket (W : Type) := {
  bucket_page : option str -> W -> result ListBucketResult S3Error * W;
  bucket_get : str -> Z -> W -> result (list Z) S3Error * W;
}.

#[export] Instance traced_bucket {W : Type} `{Bucket W} : Bucket (W * list Event) := {
  bucket_page token := logged (fun _ => []) (bucket_page token);
  bucket_get key limit := logged (fun _ => []) (bucket_get key limit);
}.

(** What the plan types and serde read. *)
Class ReleaseTypes `{RuntimeTypes} := {
  runtime_of_value : Value -> option Runtime;
  runtime_to_value : Runtime -> option Value;
  (** [runtime_build_flag]: none for a runtime that is no build's. *)
  runtime_build_flag : Runtime -> result (option str) Error;
  (** [Sha256::try_new]. *)
  is_sha256 : str -> bool;
  manifest_of : list Z -> option Manifest;
  s3_text : S3Error -> str;
}.

(** ** Versions *)

Definition is_lower (c : Z) : bool := (97 <=? c) && (c <=? 122).
Definition is_upper (c : Z) : bool := (65 <=? c) && (c <=? 90).
Definition plain (c : Z) : bool := is_lower c || is_digit c.
Definition is_mark (c : Z) : bool := (c =? 46) || (c =? 95) || (c =? 45).

(** [BuildVersion::from_str]: [[a-z0-9][a-z0-9._-]*]. *)
Definition build_version (raw : str) : option str :=
  match raw with
  | c :: rest => if plain c && forallb (fun c => plain c || is_mark c) rest then Some raw else None
  | [] => None
  end.

(** ** Archives *)

Definition last_segment (s : str) : str :=
  match rsplit_once 47 s with Some (_, b) => b | None => s end.

Record Archive := { archive_object : Object; directory : option str; archive_version : str }.

Definition archive (o : Object) : option Archive :=
  let key := object_key o in
  let '(directory, file_name) :=
    match rsplit_once 47 key with
    | Some (directory, file_name) => (Some directory, file_name)
    | None => (None, key)
    end in
  rest ← strip_prefix ARCHIVE_PREFIX file_name;
  raw ← strip_suffix ARCHIVE_SUFFIX rest;
  version ← build_version raw;
  Some {| archive_object := o; directory := directory; archive_version := version |}.

Definition ends_with (s p : str) : bool := bool_decide (is_Some (strip_suffix p s)).

Definition looks_like_archive (key : str) : bool :=
  let file_name := last_segment key in
  starts_with file_name ARCHIVE_PREFIX && ends_with file_name ARCHIVE_SUFFIX.

Definition manifest_key (archive_key : str) : str :=
  default archive_key (strip_suffix ARCHIVE_SUFFIX archive_key) ++ MANIFEST_SUFFIX.

Record Candidate := {
  cand_version : str;
  cand_tag : str;
  cand_key : str;
  cand_bytes : Z;
  cand_uploaded_at : Z;
}.

Record Candidates := { found : list Candidate; skipped : Z }.

Definition is_tag_char (c : Z) : bool := is_lower c || is_upper c || is_digit c || is_mark c.

(** [bytes_by_key]: of two objects under one key the later. *)
Definition bytes_of (objects : list Object) (key : str) : option Z :=
  object_bytes <$> List.find (fun o => str_eqb (object_key o) key) (rev objects).

(** What a listed archive lacks to be a candidate. *)
Definition candidate (objects : list Object) (archives : list Archive) (a : Archive) : option Candidate :=
  let key := object_key (archive_object a) in
  if (1 <? length (List.filter (fun b => str_eqb (archive_version b) (archive_version a)) archives))%nat then None
  else if existsb (fun segment => str_eqb segment (lit ".") || str_eqb segment (lit "..")) (split_at 47 [] key) then None
  else
    match last_segment <$> directory a with
    | None => None
    | Some tag =>
        match tag with
        | [] => None
        | _ =>
            if negb (forallb is_tag_char tag) then None
            else
              match bytes_of objects (key ++ SIDECAR_SUFFIX), bytes_of objects (manifest_key key) with
              | Some sidecar, Some manifest =>
                  if (SIDECAR_MAX_BYTES <? sidecar) || (MANIFEST_MAX_BYTES <? manifest) then None
                  else Some {| cand_version := archive_version a; cand_tag := tag; cand_key := key;
                               cand_bytes := object_bytes (archive_object a);
                               cand_uploaded_at := last_modified (archive_object a) |}
              | _, _ => None
              end
        end
    end.

Definition candidates (objects : list Object) : Candidates :=
  let archives := omap archive objects in
  let found := omap (candidate objects archives) archives in
  {| found := found;
     skipped := sat_sub (Z.of_nat (length (List.filter (fun o => looks_like_archive (object_key o)) objects)))
                  (Z.of_nat (length found)) |}.

(** ** Builds *)

Record Build := {
  version : str;
  tag : str;
  key : str;
  sha256 : str;
  bytes : Z;
  uploaded_at : Z;
  build_runtimes : list Value;
}.

Inductive Reach := Newest | Whole.

#[export] Instance Reach_eq_dec : EqDecision Reach.
Proof. solve_decision. Defined.

Record Listing := { newest : list Build; older : list Build; whole : bool }.

(** [split(u8::is_ascii_whitespace)] and the first piece that is not empty. *)
Definition is_ascii_whitespace (b : Z) : bool :=
  (b =? 32) || (b =? 9) || (b =? 10) || (b =? 12) || (b =? 13).

Fixpoint first_token (acc : list Z) (bytes : list Z) : option (list Z) :=
  match bytes with
  | [] => match acc with [] => None | _ => Some (rev acc) end
  | b :: bytes =>
      if is_ascii_whitespace b then
        match acc with [] => first_token [] bytes | _ => Some (rev acc) end
      else first_token (b :: acc) bytes
  end.

Section Releases.
Context `{ReleaseTypes}.

Definition sidecar_digest (body : list Z) : option str :=
  token ← first_token [] body;
  text ← from_utf8 token;
  if is_sha256 text then Some text else None.

Definition readable_runtimes (b : Build) : list Runtime := omap runtime_of_value (build_runtimes b).

Definition carries (b : Build) (runtime : Runtime) : bool := bool_decide (runtime ∈ readable_runtimes b).

(** Newest upload first and ties by version descending. *)
Definition newer (a b : Candidate) : bool :=
  if cand_uploaded_at a =? cand_uploaded_at b then str_leb (cand_version b) (cand_version a)
  else cand_uploaded_at b <? cand_uploaded_at a.

Definition s3_error (e : S3Error) : Error := bail (s3_text e).

Section Reading.
Context {St W : Type} `{Bucket W}.

(** The pages so far, the token to ask for and every token named. *)
Fixpoint list_pages (fuel : nat) (objects : list Object) (token : option str) (named : list str)
    : prog St W (option (result (list Object) S3Error)) :=
  match fuel with
  | O => ret None
  | S fuel =>
      do r <- io (bucket_page token);
      match r with
      | Err e => ret (Some (Err e))
      | Ok page =>
          let objects := objects ++ contents page in
          match is_truncated page, next_continuation_token page ≫= non_empty with
          | false, _ => ret (Some (Ok objects))
          | true, None => ret (Some (Err TruncatedWithoutToken))
          | true, Some next =>
              if bool_decide (next ∈ named) then ret (Some (Err RepeatedToken))
              else list_pages fuel objects (Some next) (next :: named)
          end
      end
  end.

(** How many pages are followed: [bucket_listing_ends] says how many are enough. *)
Context (max_pages : nat).

Definition list_objects : prog St W (option (result (list Object) S3Error)) :=
  list_pages max_pages [] None [].

Definition verify (c : Candidate) : prog St W (result (option Build) S3Error) :=
  let key := cand_key c in
  do? body <- io (bucket_get (key ++ SIDECAR_SUFFIX) SIDECAR_MAX_BYTES);
  match sidecar_digest body with
  | None => ret (Ok None)
  | Some digest =>
      do? body <- io (bucket_get (manifest_key key) MANIFEST_MAX_BYTES);
      ret (Ok (match manifest_of body with
               | None => None
               | Some manifest =>
                   if negb (str_eqb (manifest_version manifest) (cand_version c)) then None
                   else Some {| version := cand_version c; tag := cand_tag c; key := key;
                                sha256 := digest; bytes := cand_bytes c;
                                uploaded_at := cand_uploaded_at c;
                                build_runtimes := manifest_runtimes manifest |}
               end))
  end.

(** A listing the bound cut short is the model's own failure. *)
Definition listed_candidates : prog St W (result Candidates Error) :=
  do r <- list_objects;
  ret (match default (Err (S3Interrupted [])) r with
       | Err e => Err (with_context (lit "listing the bucket") (s3_error e))
       | Ok objects =>
           let c := candidates objects in
           Ok {| found := sort_stable newer (found c); skipped := skipped c |}
       end).

Definition verify_or_skip (c : Candidate) : prog St W (option Build) :=
  do r <- verify c;
  ret (match r with Ok b => b | Err _ => None end).

(** Among the newest: a refusal skips its build, any other failed read fails the listing. *)
Definition verify_newest (c : Candidate) : prog St W (result (option Build) Error) :=
  do r <- verify c;
  ret (match r with
       | Ok b => Ok b
       | Err e =>
           if is_client_refusal e then Ok None
           else Err (with_context (lit "reading the .sha256 and .json of " ++ cand_key c) (s3_error e))
       end).

Definition built {A} (l : list (option A)) : list A := omap (fun x => x) l.

(** The newest [keep] and [also], wherever it sits, and the rest. *)
Definition is_newest (keep : nat) (also : option str) (p : nat * Candidate) : bool :=
  (p.1 <? keep)%nat || bool_decide (also = Some (cand_version p.2)).

Definition newest_of (keep : nat) (also : option str) (found : list Candidate) : list Candidate :=
  map snd (List.filter (is_newest keep also) (imap pair found)).

Definition older_of (keep : nat) (also : option str) (found : list Candidate) : list Candidate :=
  map snd (List.filter (fun p => negb (is_newest keep also p)) (imap pair found)).

Definition read_older (reach : Reach) (older : list Candidate) : prog St W (list Build) :=
  match reach with
  | Newest => ret []
  | Whole => do read <- each verify_or_skip older; ret (built read)
  end.

Definition list_newest (keep : nat) (also : option str) (reach : Reach) : prog St W (result Listing Error) :=
  do? c <- listed_candidates;
  let newest := newest_of keep also (found c) in
  let older := older_of keep also (found c) in
  do? read_newest <- try_each verify_newest newest;
  do read_older <- read_older reach older;
  let read_newest := built read_newest in
  ret (Ok {| whole := (skipped c =? 0) && bool_decide (length read_newest = length newest) &&
                      bool_decide (length read_older = length older);
             newest := read_newest;
             older := read_older |}).

Definition list_builds : prog St W (result (list Build) Error) :=
  do? c <- listed_candidates;
  do read <- each verify_or_skip (found c);
  ret (Ok (built read)).

Definition find_build (v : str) : prog St W (result (option Build) Error) :=
  do? c <- listed_candidates;
  match List.find (fun c => str_eqb (cand_version c) v) (found c) with
  | None => ret (Ok None)
  | Some candidate =>
      do r <- verify candidate;
      ret (match r with
           | Ok b => Ok b
           | Err e => Err (with_context (lit "reading the .sha256 and .json of " ++ cand_key candidate) (s3_error e))
           end)
  end.
End Reading.
End Releases.

(** ** The pages of a listing *)

Section Pages.
Context {St W : Type} `{Bucket W}.

(** A bucket whose pages name no token outside [tokens], whatever was asked before. *)
Definition names_only (tokens : list str) : Prop :=
  forall token w page w', bucket_page token w = (Ok page, w') ->
    forall next, next_continuation_token page = Some next -> next ∈ tokens.

Lemma list_pages_ends tokens fuel objects token named (s : St) w :
  names_only tokens -> NoDup named -> named ⊆ tokens ->
  (length tokens - length named < fuel)%nat ->
  is_Some (list_pages fuel objects token named (s, w)).1.
Proof.
  intros Hb. revert objects token named w. induction fuel as [|fuel IH]; intros objects token named w Hn Hs Hf; [lia|].
  cbn [list_pages]. unfold bind, io. cbn [fst snd].
  destruct (bucket_page token w) as [[page|e] w'] eqn:Ep; [|by eexists].
  destruct (is_truncated page); [|by eexists].
  destruct (next_continuation_token page) as [next|] eqn:En; [|by eexists]. cbn [mbind option_bind].
  destruct (non_empty next) as [next'|] eqn:Ene; [|by eexists].
  assert (next' = next) as -> by (destruct next; [done|by injection Ene as <-]).
  case_bool_decide as Hin; [by eexists|].
  assert (next ∈ tokens) as Ht by (by eapply Hb).
  assert (NoDup (next :: named)) as Hn' by (by constructor).
  assert (next :: named ⊆ tokens) as Hs' by set_solver.
  apply IH; [done|done|]. pose proof (submseteq_length _ _ (NoDup_submseteq _ _ Hn' Hs')) as Hl.
  cbn in Hl |- *. lia.
Qed.

Lemma list_pages_state fuel objects token named (s : St) w r s' w' :
  list_pages fuel objects token named (s, w) = (r, (s', w')) -> s' = s.
Proof.
  revert objects token named w. induction fuel as [|fuel IH]; intros objects token named w; cbn [list_pages].
  { by intros [= _ <- _]. }
  unfold bind, io. cbn [fst snd]. destruct (bucket_page token w) as [[page|e] w1]; [|by intros [= _ <- _]].
  destruct (is_truncated page); [|by intros [= _ <- _]].
  destruct (next_continuation_token page ≫= non_empty); [|by intros [= _ <- _]].
  case_bool_decide; [by intros [= _ <- _]|apply IH].
Qed.

(** Following a listing ends. A bucket that names only so many continuation tokens is
    read to an answer in at most one page more than that, whatever else it answers and
    however often it hands a token back: a token named twice is refused, not followed. *)
Theorem bucket_listing_ends (tokens : list str) (max_pages : nat) (s : St) (w : W) :
  names_only tokens -> (length tokens < max_pages)%nat ->
  exists r w', list_objects max_pages (s, w) = (Some r, (s, w')).
Proof.
  intros Hb Hm. destruct (list_pages_ends tokens max_pages [] None [] s w) as [r Hr];
    [done|constructor|set_solver|cbn; lia|].
  destruct (list_objects max_pages (s, w)) as [o [s' w']] eqn:E. unfold list_objects in E.
  rewrite E in Hr. cbn in Hr. subst o. exists r, w'. f_equal. f_equal.
  by apply list_pages_state in E.
Qed.
End Pages.

(** ** What a listing names *)

Lemma omap_length_le {A B} (f : A -> option B) l : (length (omap f l) <= length l)%nat.
Proof. induction l as [|a l IH]; [done|]. cbn. destruct (f a); cbn; lia. Qed.

Lemma omap_filter_le {A B} (f : A -> option B) (p : A -> bool) l :
  (forall a b, f a = Some b -> p a = true) -> (length (omap f l) <= length (List.filter p l))%nat.
Proof.
  intros Hf. induction l as [|a l IH]; [done|]. cbn. destruct (f a) as [b|] eqn:E.
  - rewrite (Hf a b E). cbn. lia.
  - destruct (p a); cbn; lia.
Qed.

(** Two filters of one list, the second no longer than the first. *)
Lemma omap_covers {A B} (f : A -> option B) (p : A -> bool) l :
  (forall a b, f a = Some b -> p a = true) ->
  (length (List.filter p l) <= length (omap f l))%nat ->
  forall a, a ∈ l -> p a = true -> is_Some (f a).
Proof.
  intros Hf. pose proof (fun l => omap_filter_le f p l Hf) as Hle.
  induction l as [|x l IH]; intros Hl a Ha Hp; [by apply elem_of_nil in Ha|].
  cbn in Hl. destruct (f x) as [b|] eqn:E.
  - rewrite (Hf x b E) in Hl. cbn in Hl. apply elem_of_cons in Ha as [->|Ha]; [by rewrite E; eexists|].
    apply IH; [lia|done|done].
  - destruct (p x) eqn:Ep; cbn in Hl; [specialize (Hle l); lia|].
    apply elem_of_cons in Ha as [->|Ha]; [congruence|]. by apply IH.
Qed.

Lemma named_looks name rest raw :
  strip_prefix ARCHIVE_PREFIX name = Some rest -> strip_suffix ARCHIVE_SUFFIX rest = Some raw ->
  starts_with name ARCHIVE_PREFIX && ends_with name ARCHIVE_SUFFIX = true.
Proof.
  intros Hp Hs. unfold starts_with, ends_with. rewrite Hp. cbv iota. rewrite andb_true_l. apply bool_decide_eq_true.
  apply strip_prefix_spec in Hp as ->. apply strip_suffix_spec in Hs as ->.
  exists (ARCHIVE_PREFIX ++ raw). apply strip_suffix_spec. by rewrite app_assoc.
Qed.

Lemma archive_spec o a :
  archive o = Some a -> archive_object a = o /\ looks_like_archive (object_key o) = true.
Proof.
  unfold archive, looks_like_archive, last_segment.
  destruct (rsplit_once 47 (object_key o)) as [[d name]|]; cbn [mbind option_bind].
  - destruct (strip_prefix ARCHIVE_PREFIX name) as [rest|] eqn:Ep; [|done]. cbn [mbind option_bind].
    destruct (strip_suffix ARCHIVE_SUFFIX rest) as [raw|] eqn:Es; [|done]. cbn [mbind option_bind].
    destruct (build_version raw); [|done]. cbn [mbind option_bind]. intros [= <-]. split; [done|]. by eapply named_looks.
  - destruct (strip_prefix ARCHIVE_PREFIX (object_key o)) as [rest|] eqn:Ep; [|done]. cbn [mbind option_bind].
    destruct (strip_suffix ARCHIVE_SUFFIX rest) as [raw|] eqn:Es; [|done]. cbn [mbind option_bind].
    destruct (build_version raw); [|done]. cbn [mbind option_bind]. intros [= <-]. split; [done|]. by eapply named_looks.
Qed.

Lemma candidate_spec objects archives a c :
  candidate objects archives a = Some c ->
  cand_key c = object_key (archive_object a) /\ cand_version c = archive_version a /\
  (length (List.filter (fun b => str_eqb (archive_version b) (archive_version a)) archives) <= 1)%nat.
Proof.
  unfold candidate. destruct (Nat.ltb_spec 1 (length (List.filter (fun b => str_eqb (archive_version b) (archive_version a)) archives)));
    [done|].
  repeat (case_match; try done). intros [= <-]. by split_and!.
Qed.

(** With nothing skipped, every object that looks like a build is a candidate. *)
Lemma nothing_skipped objects o :
  skipped (candidates objects) = 0 -> o ∈ objects -> looks_like_archive (object_key o) = true ->
  exists c, c ∈ found (candidates objects) /\ cand_key c = object_key o.
Proof.
  unfold candidates. cbn [found skipped]. set (archives := omap archive objects). intros Hs Ho Hl.
  pose proof (omap_length_le (candidate objects archives) archives) as H1.
  assert (length (List.filter (fun o => looks_like_archive (object_key o)) objects) <=
    length (omap (candidate objects archives) archives))%nat as H2.
  { unfold sat_sub in Hs. lia. }
  destruct (omap_covers archive (fun o => looks_like_archive (object_key o)) objects
    (fun o a E => proj2 (archive_spec o a E))) with (a := o) as [a Ha]; [fold archives; lia|done|done|].
  assert (a ∈ archives) as Hin by (apply list_elem_of_omap; eauto).
  destruct (omap_covers (candidate objects archives) (fun _ => true) archives) with (a := a) as [c Hc];
    [done| |done|done|].
  { assert (List.filter (fun _ => true) archives = archives) as -> by (clear; induction archives as [|a l IH]; cbn; congruence).
    assert (length archives <= length (List.filter (fun o => looks_like_archive (object_key o)) objects))%nat.
    { apply omap_filter_le. intros x y Hxy. by apply archive_spec in Hxy as [_ Hxy]. }
    lia. }
  exists c. split; [apply list_elem_of_omap; eauto|].
  apply candidate_spec in Hc as (-> & _). by apply archive_spec in Ha as [-> _].
Qed.

(** No two candidates share a version. *)
Lemma candidates_distinct objects : NoDup (map cand_version (found (candidates objects))).
Proof.
  unfold candidates. cbn [found]. generalize (omap archive objects) as archives. intros archives.
  assert (forall pre suf, archives = pre ++ suf ->
    NoDup (map cand_version (omap (candidate objects archives) suf))) as Hgo; [|by apply (Hgo [])].
  intros pre suf. revert pre. induction suf as [|a suf IH]; intros pre E; [constructor|].
  cbn. specialize (IH (pre ++ [a])). rewrite <- app_assoc in IH. specialize (IH E).
  destruct (candidate objects archives a) as [c|] eqn:Ec; [|done]. cbn. constructor; [|done].
  intros Hin. apply list_elem_of_fmap in Hin as (c' & Hv & Hin). apply list_elem_of_omap in Hin as (a' & Ha' & Ec').
  apply candidate_spec in Ec as (_ & Hca & Hcount), Ec' as (_ & Hca' & _).
  assert (archive_version a' = archive_version a) as Hsame by congruence.
  apply list_elem_of_split in Ha' as (l1 & l2 & ->). rewrite E in Hcount.
  rewrite List.filter_app in Hcount. cbn [List.filter] in Hcount. rewrite str_eqb_refl, List.filter_app in Hcount.
  cbn [List.filter] in Hcount. rewrite Hsame, str_eqb_refl, !length_app in Hcount. cbn [length] in Hcount.
  rewrite !length_app in Hcount. cbn [length] in Hcount. lia.
Qed.

Section Listings.
Context `{ReleaseTypes} {St W : Type} `{Bucket W}.

Lemma verify_result c (s : St) w b st :
  verify c (s, w) = (Ok (Some b), st) -> key b = cand_key c /\ version b = cand_version c.
Proof.
  unfold verify, try_bind, bind, io, ret. cbn [fst snd].
  destruct (bucket_get _ _ w) as [[body|e] w1]; [|done]. destruct (sidecar_digest body); [|done].
  cbn [fst snd]. destruct (bucket_get _ _ w1) as [[body'|e] w2]; [|done].
  destruct (manifest_of body'); [|done]. destruct (negb _); [done|]. by intros [= <- _].
Qed.

(** A sidecar names a digest or nothing. *)
Lemma sidecar_digest_valid body digest : sidecar_digest body = Some digest -> is_sha256 digest = true.
Proof.
  unfold sidecar_digest. destruct (first_token _ _) as [token|]; [|done]. cbn.
  destruct (from_utf8 token) as [text|]; [|done]. cbn. by destruct (is_sha256 text) eqn:E; [intros [= <-]|].
Qed.

Lemma verify_digest c (s : St) w b st : verify c (s, w) = (Ok (Some b), st) -> is_sha256 (sha256 b) = true.
Proof.
  unfold verify, try_bind, bind, io, ret. cbn [fst snd].
  destruct (bucket_get _ _ w) as [[body|e] w1]; [|done].
  destruct (sidecar_digest body) as [digest|] eqn:Ed; [|done].
  cbn [fst snd]. destruct (bucket_get _ _ w1) as [[body'|e] w2]; [|done].
  destruct (manifest_of body'); [|done]. destruct (negb _); [done|]. intros [= <- _]. by eapply sidecar_digest_valid.
Qed.

(** The build [find_build] answers with is of the version asked for, under a digest that
    reads as one: what [ProxyState.FindBuild] lets a bucket answer. *)
Lemma find_build_answers (max_pages : nat) v (s : St) w b st :
  find_build max_pages v (s, w) = (Ok (Some b), st) -> version b = v /\ is_sha256 (sha256 b) = true.
Proof.
  unfold find_build, try_bind, bind, ret. destruct (listed_candidates _ _) as [[c|e] [s1 w1]]; [|done].
  destruct (List.find _ _) as [candidate|] eqn:Ef; [|done].
  apply List.find_some in Ef as [_ Hv]. apply str_eqb_eq in Hv.
  destruct (verify candidate (s1, w1)) as [[ob|e] st1] eqn:Ev; [|done]. intros [= -> _].
  split; [|by eapply verify_digest]. apply verify_result in Ev as [_ ->]. done.
Qed.

Lemma each_results {A T} (f : A -> prog St W T) l st ts st' :
  each f l st = (ts, st') -> Forall2 (fun a t => exists st1 st2, f a st1 = (t, st2)) l ts.
Proof.
  revert st st' ts. induction l as [|a l IH]; intros st st' ts; cbn [each]; unfold bind, ret.
  { intros [= <- _]. constructor. }
  destruct (f a st) as [t st1] eqn:Ef. destruct (each f l st1) as [ts' st2] eqn:Ee.
  intros [= <- _]. constructor; [eauto|]. by eapply IH.
Qed.

Lemma try_each_results {A T E} (f : A -> prog St W (result T E)) l st ts st' :
  try_each f l st = (Ok ts, st') -> Forall2 (fun a t => exists st1 st2, f a st1 = (Ok t, st2)) l ts.
Proof.
  revert st st' ts. induction l as [|a l IH]; intros st st' ts; cbn [try_each]; unfold try_bind, bind, ret.
  { intros [= <- _]. constructor. }
  destruct (f a st) as [[t|e] st1] eqn:Ef; [|done].
  destruct (try_each f l st1) as [[ts'|e] st2] eqn:Ee; [|done].
  intros [= <- _]. constructor; [eauto|]. by eapply IH.
Qed.

(** A build read from its candidate. *)
Definition read_as (c : Candidate) (b : option Build) : Prop :=
  match b with Some b => key b = cand_key c /\ version b = cand_version c | None => True end.

Lemma built_versions cs bs :
  Forall2 read_as cs bs -> map version (built bs) `sublist_of` map cand_version cs.
Proof.
  induction 1 as [|c b cs bs Hr Hrs IH]; [done|]. destruct b as [b|]; cbn; [|by apply sublist_cons].
  destruct Hr as [_ ->]. by apply sublist_skip.
Qed.

Lemma built_all cs bs c :
  Forall2 read_as cs bs -> length (built bs) = length cs -> c ∈ cs ->
  exists b, b ∈ built bs /\ key b = cand_key c.
Proof.
  assert (forall cs bs, Forall2 read_as cs bs -> (length (built bs) <= length cs)%nat) as Hle.
  { intros cs' bs' Hr. rewrite (Forall2_length _ _ _ Hr). apply omap_length_le. }
  unfold built in *. induction 1 as [|c' b cs bs Hr Hrs IH]; intros Hl Hc; [by apply elem_of_nil in Hc|].
  destruct b as [b|]; cbn in Hl |- *.
  - apply elem_of_cons in Hc as [->|Hc]; [exists b; split; [set_solver|by destruct Hr]|].
    destruct IH as (b' & Hb' & Hk); [lia|done|]. exists b'. split; [set_solver|done].
  - specialize (Hle cs bs Hrs). lia.
Qed.

Lemma verify_newest_read c (st : St * W) b st' : verify_newest c st = (Ok b, st') -> read_as c b.
Proof.
  destruct st as [s w]. unfold verify_newest, bind, ret.
  destruct (verify c (s, w)) as [[ob|e] st1] eqn:E.
  - intros [= <- _]. destruct ob as [b'|]; [|done]. by eapply verify_result.
  - destruct (is_client_refusal e); [by intros [= <- _]|done].
Qed.

Lemma verify_or_skip_read c (st : St * W) b st' : verify_or_skip c st = (b, st') -> read_as c b.
Proof.
  destruct st as [s w]. unfold verify_or_skip, bind, ret.
  destruct (verify c (s, w)) as [[ob|e] st1] eqn:E; intros [= <- _]; [|done].
  destruct ob as [b'|]; [|done]. by eapply verify_result.
Qed.

Lemma newest_older keep also found : newest_of keep also found ++ older_of keep also found ≡ₚ found.
Proof.
  unfold newest_of, older_of. rewrite <- map_app.
  assert (forall (p : nat * Candidate -> bool) l, List.filter p l ++ List.filter (fun x => negb (p x)) l ≡ₚ l) as Hp.
  { intros p l. induction l as [|x l IH]; [done|]. cbn. destruct (p x); cbn; [by rewrite IH|].
    by rewrite <- Permutation_middle, IH. }
  rewrite (Permutation_map snd (Hp _ _)). apply reflexive_eq. revert found.
  assert (forall (l : list Candidate) n, map snd (imap (fun i => pair (n + i)%nat) l) = l) as Hs.
  { induction l as [|c l IH]; intros n; [done|]. cbn. f_equal. rewrite <- (IH (S n)) at 2. f_equal.
    apply imap_ext. intros i x _. cbn. f_equal. lia. }
  intros found. apply (Hs found 0%nat).
Qed.

Lemma read_older_read (reach : Reach) cs (st : St * W) bs st' :
  read_older reach cs st = (bs, st') ->
  exists obs, bs = built obs /\
    (Forall2 read_as cs obs \/ reach = Newest /\ obs = []).
Proof.
  destruct reach; cbn [read_older].
  - intros [= <- _]. exists []. split; [done|by right].
  - unfold bind, ret. destruct (each verify_or_skip cs st) as [obs st1] eqn:E. intros [= <- _].
    exists obs. split; [done|left]. eapply Forall2_impl; [by eapply each_results|].
    cbv beta. intros c ob (st2 & st3 & Ev). by eapply verify_or_skip_read.
Qed.

Lemma list_newest_covers (max_pages keep : nat) (also : option str) (reach : Reach) (s : St) (w : W) :
  match (list_newest max_pages keep also reach (s, w)).1 with
  | Err _ => True
  | Ok l =>
      NoDup (map version (newest l ++ older l)) /\
      exists objects st, list_objects max_pages (s, w) = (Some (Ok objects), st) /\
        (whole l = true -> forall o, o ∈ objects -> looks_like_archive (object_key o) = true ->
           exists b, b ∈ newest l ++ older l /\ key b = object_key o)
  end.
Proof.
  unfold list_newest, listed_candidates, try_bind. unfold bind at 1 2, ret at 1 2.
  destruct (list_objects max_pages (s, w)) as [[[objects|e]|] st] eqn:El; [|done..].
  cbv beta iota zeta. cbn [default from_option id found skipped].
  set (cands := sort_stable newer (found (candidates objects))).
  assert (cands ≡ₚ found (candidates objects)) as Hperm by apply sort_stable_perm.
  unfold bind at 1. destruct (try_each verify_newest (newest_of keep also cands) st) as [[obs|e] st1] eqn:En; [|done].
  unfold bind. destruct (read_older reach (older_of keep also cands) st1) as [bs st2] eqn:Eo.
  cbn [fst ret newest older whole].
  assert (Forall2 read_as (newest_of keep also cands) obs) as Hn.
  { eapply Forall2_impl; [by eapply try_each_results|]. cbv beta. intros c b (st3 & st4 & Ev).
    by eapply verify_newest_read. }
  apply read_older_read in Eo as (oobs & -> & Ho).
  pose proof (newest_older keep also cands) as Hno.
  split.
  - assert (map version (built obs ++ built oobs) `sublist_of`
      map cand_version (newest_of keep also cands ++ older_of keep also cands)) as Hsub.
    { rewrite !map_app. apply sublist_app; [by apply built_versions|].
      destruct Ho as [Ho|[_ ->]]; [by apply built_versions|]. apply sublist_nil_l. }
    eapply sublist_NoDup; [|exact Hsub]. rewrite Hno, Hperm. apply candidates_distinct.
  - exists objects, st. split; [done|]. intros Hw o Hin Hl.
    apply andb_true_iff in Hw as [[Hsk Hln]%andb_true_iff Hlo].
    apply bool_decide_eq_true in Hln, Hlo. apply Z.eqb_eq in Hsk.
    destruct (nothing_skipped objects o Hsk Hin Hl) as (c & Hc & <-).
    rewrite <- Hperm, <- Hno in Hc. setoid_rewrite elem_of_app.
    apply elem_of_app in Hc as [Hc|Hc].
    + destruct (built_all _ _ c Hn Hln Hc) as (b & Hb & Hk). exists b. auto.
    + destruct Ho as [Ho|[_ ->]]; [|destruct (older_of keep also cands); [by apply elem_of_nil in Hc|done]].
      destruct (built_all _ _ c Ho Hlo Hc) as (b & Hb & Hk). exists b. auto.
Qed.

(** A listing that says it is whole misses no build. When [list_newest] answers with
    [whole] set, every object of the bucket's listing whose name is a build's is the archive
    of a build it read, and in any case no two builds it names share a version. *)
Theorem whole_listing_misses_nothing (max_pages keep : nat) (also : option str) (reach : Reach) (s : St) (w : W) :
  match (list_newest max_pages keep also reach (s, w)).1 with
  | Err _ => True
  | Ok l =>
      NoDup (map version (newest l ++ older l)) /\
      exists objects st, list_objects max_pages (s, w) = (Some (Ok objects), st) /\
        (whole l = true -> forall o, o ∈ objects -> looks_like_archive (object_key o) = true ->
           exists b, b ∈ newest l ++ older l /\ key b = object_key o)
  end.
Proof. apply list_newest_covers. Qed.
End Listings.

(** A bucket of two pages. *)
Module Demo.
Definition page (token : option str) : ListBucketResult :=
  match token with
  | None => {| is_truncated := true; next_continuation_token := Some (lit "2"); contents := [] |}
  | Some _ => {| is_truncated := false; next_continuation_token := None; contents := [] |}
  end.

#[local] Instance bucket : Bucket unit := {
  bucket_page token w := (Ok (page token), w);
  bucket_get _ _ w := (Ok [], w);
}.
End Demo.

Lemma bucket_listing_ends_witness :
  @names_only unit Demo.bucket [lit "2"] /\
  exists r w', @list_objects unit unit Demo.bucket 2 (tt, tt) = (Some r, (tt, w')).
Proof.
  assert (@names_only unit Demo.bucket [lit "2"]) as Hn.
  { intros token w page w' E next Hnext. cbn in E. injection E as <- _.
    destruct token; [done|]. cbn in Hnext. injection Hnext as <-. set_solver. }
  split; [exact Hn|]. apply (@bucket_listing_ends unit unit Demo.bucket [lit "2"] 2 tt tt Hn). cbn. lia.
Defined.
