(* ===== verification/ProxyCatalog.v ===== *)
(** * The catalog of a phone in version mode ([releases/catalog.rs])

    What a phone offers of the listed builds, what it advertises of that within the size of a
    profile, the build a claim runs on, and when a runtime is shown to be in no build. *)

From Stdlib Require Import ZArith Lia String Sorted.
From stdpp Require Import prelude list.
From S2P Require Import Prelude Str Json Errors ProxyBase ProxyServer ProxyApp ProxyReleases.

Local Open Scope Z_scope.
Local Open Scope proxy_scope.

Definition ADVERTISED_BUILDS : nat := 20.
Definition FLAG_PREFIX : str := lit "client_version:".
Definition ADVERTISED_FLAGS_MAX_BYTES : Z := 48 * 1024.
Definition RUNTIME_DIGEST_HEX_BYTES : Z := 64.
Definition RUNTIME_BUILD_FLAG_PREFIX : str := lit "runtime:descriptor:".
Definition CATALOG_REFRESH : Z := from_secs (15 * 60).

Inductive CatalogError :=
| CatalogEmpty
| CatalogExhausted (withdrawn : list str)
| CatalogTooLarge.

(** The listing, minus what the phone has withdrawn. *)
Record Catalog := {
  cat_default : option str;
  cat_builds : list Build;
  cat_changed : list Build;
  cat_older : list Build;
  cat_whole : bool;
  withdrawn : list str;
  listed_at : option Z;
}.

Definition new_catalog (default : option str) : Catalog :=
  {| cat_default := default; cat_builds := []; cat_changed := []; cat_older := [];
     cat_whole := false; withdrawn := []; listed_at := None |}.

Inductive ChosenBy := ByDefault | ByNewest.

Record Choice := { choice_build : Build; choice_by : ChosenBy }.

Inductive NoChoice :=
| NoneAdmitted
| RuntimeNotCarried (admitted : list str).

(** The digests each version was first pulled with. *)
Class ReleaseStore (W : Type) := {
  load_records : W -> result (list (str * str)) Error * W;
}.

#[export] Instance traced_store {W : Type} `{ReleaseStore W} : ReleaseStore (W * list Event) := {
  load_records := logged (fun _ => []) load_records;
}.

(** [Held::Changed]. *)
Definition is_changed (records : list (str * str)) (b : Build) : bool :=
  match assoc (version b) records with
  | Some recorded => negb (str_eqb recorded (sha256 b))
  | None => false
  end.

(** [Vec::dedup]. *)
Fixpoint dedup_from (last : option str) (l : list str) : list str :=
  match l with
  | [] => []
  | x :: l => if bool_decide (last = Some x) then dedup_from last l else x :: dedup_from (Some x) l
  end.

Definition dedup (l : list str) : list str := dedup_from None l.

Section Catalogs.
Context `{ReleaseTypes}.

(** *** What is offered *)

Record Selection := { selected : list nat; seen : list Runtime; spent : Z }.

Definition no_selection : Selection := {| selected := []; seen := []; spent := 2 |}.

Definition new_runtimes (b : Build) (s : Selection) : list Runtime :=
  remove_dups (filter (fun r => r ∉ seen s) (readable_runtimes b)).

Definition flag_cost (b : Build) (runtimes : nat) : Z :=
  str_len FLAG_PREFIX + str_len (version b) + 3 +
  Z.of_nat runtimes * (str_len RUNTIME_BUILD_FLAG_PREFIX + RUNTIME_DIGEST_HEX_BYTES + 3).

Definition include (i : nat) (b : Build) (s : Selection) : Selection :=
  let new := new_runtimes b s in
  let cost := flag_cost b (length new) in
  if spent s + cost <=? ADVERTISED_FLAGS_MAX_BYTES then
    {| selected := selected s ++ [i]; seen := seen s ++ new; spent := spent s + cost |}
  else s.

Definition is_withdrawn (c : Catalog) (b : Build) : bool := bool_decide (version b ∈ withdrawn c).

Definition is_default (c : Catalog) (b : Build) : bool := bool_decide (cat_default c = Some (version b)).

Definition numbered (c : Catalog) : list (nat * Build) := imap pair (cat_builds c).

(** The default first, then the newer builds, while their flags fit. *)
Definition select (c : Catalog) : Selection :=
  let reserved :=
    match List.find (fun p => is_default c p.2 && negb (is_withdrawn c p.2)) (numbered c) with
    | Some p => include p.1 p.2 no_selection
    | None => no_selection
    end in
  foldl (fun s p => if is_withdrawn c p.2 || bool_decide (p.1 ∈ selected s) then s else include p.1 p.2 s)
    reserved (numbered c).

(** Every build this phone offers, newest upload first. *)
Definition offered (c : Catalog) : list Build :=
  map snd (List.filter (fun p => bool_decide (p.1 ∈ selected (select c))) (numbered c)).

Definition offers (c : Catalog) (v : str) : option Build :=
  List.find (fun b => str_eqb (version b) v) (offered c).

Definition version_flags (c : Catalog) : list str :=
  sort_stable str_leb (map (fun b => FLAG_PREFIX ++ version b) (offered c)).

Fixpoint build_flags (runtimes : list Runtime) : result (list str) Error :=
  match runtimes with
  | [] => Ok []
  | r :: runtimes =>
      match runtime_build_flag r with
      | Err e => Err e
      | Ok flag =>
          match build_flags runtimes with
          | Err e => Err e
          | Ok flags => Ok (match flag with Some f => f :: flags | None => flags end)
          end
      end
  end.

Definition advertised (c : Catalog) : result (list str) Error :=
  match build_flags (offered c ≫= readable_runtimes) with
  | Err e => Err e
  | Ok flags => Ok (dedup (sort_stable str_leb (version_flags c ++ flags)))
  end.

(** *** The build a claim runs on *)

Definition admits (admitted : option (list str)) (b : Build) : bool :=
  match admitted with
  | None => true
  | Some versions => existsb (str_eqb (version b)) versions
  end.

Definition carries_asked (runtime : option Runtime) (b : Build) : bool :=
  match runtime with None => true | Some r => carries b r end.

Definition choose (c : Catalog) (admitted : option (list str)) (runtime : option Runtime)
    : result Choice NoChoice :=
  let candidates := List.filter (admits admitted) (offered c) in
  match candidates with
  | [] => Err NoneAdmitted
  | _ =>
      let carrying := List.filter (carries_asked runtime) candidates in
      match List.find (is_default c) carrying with
      | Some b => Ok {| choice_build := b; choice_by := ByDefault |}
      | None =>
          match carrying with
          | b :: _ => Ok {| choice_build := b; choice_by := ByNewest |}
          | [] => Err (RuntimeNotCarried (map version candidates))
          end
      end
  end.

Definition listed (c : Catalog) : list Build := cat_builds c ++ cat_changed c ++ cat_older c.

(** Every runtime of the manifest, if the proxy can read them all. *)
Definition named_runtimes (b : Build) : option (list Runtime) := mapM runtime_of_value (build_runtimes b).

(** The runtimes in [one] not yet in [carried], in order. *)
Definition add_new (carried one : list Runtime) : list Runtime :=
  foldl (fun l r => if bool_decide (r ∈ l) then l else l ++ [r]) carried one.

Fixpoint carried_by (admitted : list str) (runtime : Runtime) (builds : list Build) (carried : list Runtime)
    : option (list Runtime) :=
  match builds with
  | [] => Some carried
  | b :: builds =>
      named ← named_runtimes b;
      if bool_decide (runtime ∈ named) then None
      else carried_by admitted runtime builds
             (if admits (Some admitted) b then add_new carried named else carried)
  end.

Definition carried_instead (c : Catalog) (admitted : list str) (runtime : Runtime) : option (list Runtime) :=
  if negb (cat_whole c) || bool_decide (admitted = []) ||
     (length (List.filter (admits (Some admitted)) (listed c)) <? length admitted)%nat
  then None
  else carried_by admitted runtime (listed c) [].

(** *** Withdrawing and listing *)

Definition check_offered (c : Catalog) : result unit CatalogError :=
  match offered c with
  | _ :: _ => Ok tt
  | [] =>
      if existsb (fun b => negb (is_withdrawn c b)) (cat_builds c) then Err CatalogTooLarge
      else Err (CatalogExhausted (withdrawn c))
  end.

(** A [BTreeSet], kept in order. *)
Definition withdraw (v : str) (c : Catalog) : Catalog :=
  {| cat_default := cat_default c; cat_builds := cat_builds c; cat_changed := cat_changed c;
     cat_older := cat_older c; cat_whole := cat_whole c;
     withdrawn := if bool_decide (v ∈ withdrawn c) then withdrawn c else sort_stable str_leb (v :: withdrawn c);
     listed_at := listed_at c |}.

Definition has_listing (c : Catalog) : bool := match cat_builds c with [] => false | _ => true end.

Definition with_listed_at (now : Z) (c : Catalog) : Catalog :=
  {| cat_default := cat_default c; cat_builds := cat_builds c; cat_changed := cat_changed c;
     cat_older := cat_older c; cat_whole := cat_whole c; withdrawn := withdrawn c; listed_at := Some now |}.

Definition catalog_error (e : CatalogError) : Error :=
  bail (match e with
        | CatalogEmpty => lit "the bucket publishes no app build this phone can install"
        | CatalogExhausted withdrawn => lit "this phone withdrew every build the bucket publishes (" ++
            join (lit ", ") withdrawn ++ lit "): each failed in a way that would repeat, so a claim could only fail its job"
        | CatalogTooLarge => lit "the bucket has no app build whose runtime flags fit the client profile"
        end).

Section Listing.
Context {St W : Type} `{Bucket W} `{ProxyHost W} `{ReleaseStore W}.
Context (max_pages : nat).

Definition due (c : Catalog) : prog St W bool :=
  match listed_at c with
  | None => ret true
  | Some at_ => do now <- io instant; ret (CATALOG_REFRESH <=? sat_sub now at_)
  end.

(** Answers the catalog as the listing leaves it, failed or not. *)
Definition list_catalog (reach : Reach) (c : Catalog) : prog St W (result unit Error * Catalog) :=
  do now <- io instant;
  let c := with_listed_at now c in
  do r <- io load_records;
  match r with
  | Err e => ret (Err e, c)
  | Ok records =>
      do r <- list_newest max_pages ADVERTISED_BUILDS (cat_default c) reach;
      match r with
      | Err e => ret (Err e, c)
      | Ok l =>
          let changed := List.filter (is_changed records) (newest l) in
          let builds := List.filter (fun b => negb (is_changed records b)) (newest l) in
          match builds with
          | [] => ret (Err (catalog_error CatalogEmpty), c)
          | _ =>
              ret (Ok tt, {| cat_default := cat_default c; cat_builds := builds; cat_changed := changed;
                             cat_older := older l; cat_whole := whole l; withdrawn := withdrawn c;
                             listed_at := Some now |})
          end
      end
  end.

Definition relist := list_catalog Newest.
Definition relist_whole := list_catalog Whole.
End Listing.
End Catalogs.

(** ** What is advertised fits a profile *)

(** The JSON text of a list of flags, none of which needs an escape. *)
Definition flags_json (flags : list str) : str :=
  lit "[" ++ join (lit ",") (map (fun f => [34] ++ f ++ [34]) flags) ++ lit "]".

(** A flag with its quotes and its comma. *)
Definition flag_room (f : str) : Z := str_len f + 3.

Fixpoint room {A} (size : A -> Z) (l : list A) : Z :=
  match l with
  | [] => 0
  | x :: l => size x + room size l
  end.

Lemma room_app {A} (size : A -> Z) a b : room size (a ++ b) = room size a + room size b.
Proof. induction a as [|x a IH]; cbn; lia. Qed.

Lemma room_perm {A} (size : A -> Z) a b : a ≡ₚ b -> room size a = room size b.
Proof. induction 1; cbn; lia. Qed.

Lemma room_nonneg {A} (size : A -> Z) l : (forall x, 0 <= size x) -> 0 <= room size l.
Proof. intros Hs. induction l as [|x l IH]; cbn; [lia|]. specialize (Hs x). lia. Qed.

Lemma room_submseteq {A} (size : A -> Z) a b : (forall x, 0 <= size x) -> a ⊆+ b -> room size a <= room size b.
Proof.
  intros Hs Hab. apply submseteq_Permutation in Hab as [k Hk]. rewrite (room_perm _ _ _ Hk), room_app.
  pose proof (room_nonneg size k Hs). lia.
Qed.

Lemma room_map {A B} (size : B -> Z) (f : A -> B) l : room size (map f l) = room (fun x => size (f x)) l.
Proof. induction l as [|x l IH]; cbn; congruence. Qed.

Lemma flag_room_nonneg f : 0 <= flag_room f.
Proof. unfold flag_room. pose proof (str_len_nonneg f). lia. Qed.

Lemma flags_json_len flags : str_len (flags_json flags) <= 2 + room flag_room flags.
Proof.
  unfold flags_json. rewrite !str_len_app. change (str_len (lit "[")) with 1. change (str_len (lit "]")) with 1.
  assert (str_len (join (lit ",") (map (fun f => [34] ++ f ++ [34]) flags)) <= room flag_room flags); [|lia].
  induction flags as [|f flags IH]; [done|]. cbn [map join room]. destruct flags as [|g flags].
  - cbn [map]. rewrite !str_len_app. change (str_len [34]) with 1. cbn [room]. unfold flag_room. lia.
  - cbn [map] in *. rewrite !str_len_app in *. change (str_len [34]) with 1 in *.
    change (str_len (lit ",")) with 1. unfold flag_room at 1. lia.
Qed.

(** *** Removing duplicates *)

Lemma dedup_from_elem last_ l x : x ∈ dedup_from last_ l -> x ∈ l.
Proof.
  revert last_. induction l as [|y l IH]; intros last_; cbn [dedup_from]; [done|].
  case_bool_decide; [intros Hx; right; by eapply IH|]. intros [->|Hx]%elem_of_cons; [left|right; by eapply IH].
Qed.

Lemma dedup_from_nodup last_ l :
  StronglySorted (le_of str_leb) l -> (forall y x, last_ = Some y -> x ∈ l -> str_leb y x = true) ->
  NoDup (dedup_from last_ l) /\ (forall y, last_ = Some y -> y ∉ dedup_from last_ l).
Proof.
  revert last_. induction l as [|x l IH]; intros last_ Hs Hlast; cbn [dedup_from].
  { split; [constructor|]. intros y _. apply not_elem_of_nil. }
  apply StronglySorted_inv in Hs as [Hs Hx]. rewrite Forall_forall in Hx.
  case_bool_decide as E.
  - apply IH; [done|]. intros y z Hy Hz. apply Hlast; [done|by right].
  - destruct (IH (Some x) Hs) as [Hn Hnx].
    { intros y z [= <-] Hz. by apply Hx. }
    split; [constructor; [by apply Hnx|done]|]. intros y -> [->|Hy]%elem_of_cons; [done|].
    apply E. f_equal. apply str_leb_antisym; [apply Hlast; [done|by left]|].
    apply Hx. by eapply dedup_from_elem.
Qed.

Lemma dedup_sorted l : NoDup (dedup (sort_stable str_leb l)) /\ dedup (sort_stable str_leb l) ⊆ l.
Proof.
  split.
  - apply dedup_from_nodup; [|done]. apply sort_stable_sorted; [apply str_leb_total|apply str_leb_trans].
  - intros x Hx. apply dedup_from_elem in Hx. by rewrite elem_of_sort_stable in Hx.
Qed.

Lemma dedup_from_keeps last_ l x : x ∈ l -> x ∈ dedup_from last_ l \/ last_ = Some x.
Proof.
  revert last_. induction l as [|y l IH]; intros last_ Hx; [by apply elem_of_nil in Hx|]. cbn [dedup_from].
  apply elem_of_cons in Hx as [->|Hx].
  - case_bool_decide; [by right|left; by left].
  - case_bool_decide as E; [by apply IH|]. left. destruct (IH (Some y) Hx) as [?|[= ->]]; [by right|by left].
Qed.

Lemma dedup_sorted_elem l x : x ∈ dedup (sort_stable str_leb l) <-> x ∈ l.
Proof.
  split; [apply dedup_sorted|]. intros Hx. rewrite <- (elem_of_sort_stable str_leb) in Hx.
  by destruct (dedup_from_keeps None _ _ Hx).
Qed.

Section Fits.
Context `{ReleaseTypes}.

Definition runtime_room : Z := str_len RUNTIME_BUILD_FLAG_PREFIX + RUNTIME_DIGEST_HEX_BYTES + 3.

Definition version_room (b : Build) : Z := str_len FLAG_PREFIX + str_len (version b) + 3.

(** What the build at a place of the listing costs besides its runtimes. *)
Definition slot_room (c : Catalog) (i : nat) : Z :=
  match cat_builds c !! i with Some b => version_room b | None => 0 end.

Record sound (c : Catalog) (s : Selection) : Prop := {
  sound_places : NoDup (selected s);
  sound_builds : forall i, i ∈ selected s -> exists b, cat_builds c !! i = Some b /\
    is_withdrawn c b = false /\ readable_runtimes b ⊆ seen s;
  sound_seen : NoDup (seen s);
  sound_spent : spent s = 2 + room (slot_room c) (selected s) + Z.of_nat (length (seen s)) * runtime_room;
  sound_fits : spent s <= ADVERTISED_FLAGS_MAX_BYTES;
}.

Lemma no_selection_sound c : sound c no_selection.
Proof.
  split; cbn; [constructor| |constructor|done|done]. intros i Hi. by apply elem_of_nil in Hi.
Qed.

Lemma new_runtimes_spec b s :
  NoDup (new_runtimes b s) /\ (forall r, r ∈ new_runtimes b s <-> r ∈ readable_runtimes b /\ r ∉ seen s).
Proof.
  unfold new_runtimes. split; [apply NoDup_remove_dups|]. intros r.
  rewrite elem_of_remove_dups, list_elem_of_filter. tauto.
Qed.

Lemma include_sound c i b s :
  i ∉ selected s -> cat_builds c !! i = Some b -> is_withdrawn c b = false -> sound c s -> sound c (include i b s).
Proof.
  intros Hi Hb Hw [Hn Hbs Hseen Hspent Hfit]. unfold include. cbv zeta.
  destruct (Z.leb_spec (spent s + flag_cost b (length (new_runtimes b s))) ADVERTISED_FLAGS_MAX_BYTES) as [Hle|]; [|done].
  destruct (new_runtimes_spec b s) as [Hnd Hnew]. split; cbn [selected seen spent].
  - apply NoDup_app. split_and!; [done| |apply NoDup_singleton]. intros j Hj ->%list_elem_of_singleton. done.
  - intros j [Hj| ->%list_elem_of_singleton]%elem_of_app.
    + destruct (Hbs j Hj) as (b' & ? & ? & Hr). exists b'. split_and!; [done|done|]. set_solver.
    + exists b. split_and!; [done|done|]. intros r Hr. apply elem_of_app.
      destruct (decide (r ∈ seen s)); [by left|right]. by apply Hnew.
  - apply NoDup_app. split_and!; [done| |done]. intros r Hr Hr'. by apply Hnew in Hr' as [_ ?].
  - rewrite room_app, length_app, Hspent. cbn [room]. unfold slot_room at 3. rewrite Hb.
    unfold flag_cost, version_room, runtime_room. lia.
  - done.
Qed.

Lemma numbered_spec c i b : (i, b) ∈ numbered c <-> cat_builds c !! i = Some b.
Proof.
  unfold numbered. split.
  - intros Hin. apply elem_of_lookup_imap_1 in Hin as (j & b' & [= -> ->] & Hb). done.
  - intros Hb. by apply (elem_of_lookup_imap_2 pair) in Hb.
Qed.

Lemma select_sound c : sound c (select c).
Proof.
  unfold select. set (step s p := if is_withdrawn c p.2 || bool_decide (p.1 ∈ selected s) then s else include p.1 p.2 s).
  assert (forall l s, l ⊆ numbered c -> sound c s -> sound c (foldl step s l)) as Hgo.
  { induction l as [|[i b] l IH]; intros s Hl Hs; [done|]. cbn [foldl]. apply IH; [set_solver|].
    unfold step. cbn [fst snd]. destruct (is_withdrawn c b) eqn:Ew; [done|]. cbn [orb].
    case_bool_decide; [done|]. apply include_sound; [done|apply numbered_spec; set_solver|done|done]. }
  apply Hgo; [done|]. destruct (List.find _ (numbered c)) as [[i b]|] eqn:Ef; [|apply no_selection_sound].
  apply find_some in Ef as [Hin Hp]. apply list_elem_of_In in Hin. cbn [fst snd] in Hp |- *.
  apply andb_true_iff in Hp as [_ Hp]. apply negb_true_iff in Hp.
  apply include_sound; [apply not_elem_of_nil|by apply numbered_spec|done|apply no_selection_sound].
Qed.

(** *** The offered builds *)

Lemma offered_numbered c :
  exists l, offered c = map snd l /\ l ⊆ numbered c /\ NoDup (map fst l) /\
    map fst l ⊆ selected (select c).
Proof.
  exists (List.filter (fun p => bool_decide (p.1 ∈ selected (select c))) (numbered c)).
  assert (forall (p : nat * Build -> bool) l, List.filter p l `sublist_of` l) as Hf.
  { intros p l. induction l as [|x l IH]; [done|]. cbn. destruct (p x); [by apply sublist_skip|by apply sublist_cons]. }
  split_and!; [done| | |].
  - intros x Hx. apply list_elem_of_In, filter_In in Hx as [Hx _]. by apply list_elem_of_In.
  - eapply sublist_NoDup; [|apply fmap_sublist, Hf]. unfold numbered.
    assert (fst <$> imap pair (cat_builds c) = seq 0 (length (cat_builds c))) as ->; [|apply NoDup_seq].
    apply list_eq. intros i. rewrite list_lookup_fmap, list_lookup_imap.
    destruct (cat_builds c !! i) as [b|] eqn:E; cbn.
    + symmetry. apply lookup_seq. split; [done|]. by eapply lookup_lt_Some.
    + symmetry. apply lookup_seq_ge. by apply lookup_ge_None.
  - intros i Hi. apply list_elem_of_fmap in Hi as ([j b] & -> & Hin).
    apply list_elem_of_In, filter_In in Hin as [_ Hin]. by apply bool_decide_eq_true in Hin.
Qed.

Lemma offered_spec c b :
  b ∈ offered c <-> exists i, i ∈ selected (select c) /\ cat_builds c !! i = Some b.
Proof.
  unfold offered. rewrite list_elem_of_fmap. split.
  - intros ([i b'] & -> & Hin). apply list_elem_of_In, filter_In in Hin as [Hin Hp].
    apply bool_decide_eq_true in Hp. exists i. split; [done|]. by apply numbered_spec, list_elem_of_In.
  - intros (i & Hi & Hb). exists (i, b). split; [done|]. apply list_elem_of_In, filter_In.
    split; [by apply list_elem_of_In, numbered_spec|]. by apply bool_decide_eq_true.
Qed.

Lemma offered_room c : room version_room (offered c) <= room (slot_room c) (selected (select c)).
Proof.
  destruct (offered_numbered c) as (l & -> & Hl & Hn & Hs).
  assert (room version_room (map snd l) = room (slot_room c) (map fst l)) as ->.
  { rewrite !room_map. assert (l ⊆ numbered c) as Hin by done.
    clear Hl Hn Hs. induction l as [|[i b] l IH]; [done|]. cbn.
    rewrite IH by set_solver. f_equal. unfold slot_room.
    assert (cat_builds c !! i = Some b) as -> by (apply numbered_spec; set_solver). done. }
  apply room_submseteq; [|by apply NoDup_submseteq].
  intros i. unfold slot_room, version_room. destruct (cat_builds c !! i) as [b|]; [|done].
  pose proof (str_len_nonneg (version b)). pose proof (str_len_nonneg FLAG_PREFIX). lia.
Qed.

(** *** The flags *)

(** A build flag is the prefix and a digest in hexadecimal. *)
Definition digest_flags : Prop := forall r f, runtime_build_flag r = Ok (Some f) ->
  str_len f = str_len RUNTIME_BUILD_FLAG_PREFIX + RUNTIME_DIGEST_HEX_BYTES.

Definition flag_of (r : Runtime) : option str :=
  match runtime_build_flag r with Ok f => f | Err _ => None end.

Lemma build_flags_spec rs flags : build_flags rs = Ok flags -> flags = omap flag_of rs.
Proof.
  revert flags. induction rs as [|r rs IH]; intros flags; cbn [build_flags omap list_omap].
  { by intros [= <-]. }
  unfold flag_of. destruct (runtime_build_flag r) as [f|e]; [|discriminate].
  destruct (build_flags rs) as [fs|e]; [|discriminate]. specialize (IH fs eq_refl).
  unfold flag_of in IH. intros [= <-]. rewrite IH. by destruct f.
Qed.

Lemma flags_room (Hd : digest_flags) rs : room flag_room (omap flag_of rs) <= Z.of_nat (length rs) * runtime_room.
Proof.
  induction rs as [|r rs IH]; cbn [omap list_omap room length]; [lia|].
  assert (0 <= runtime_room) by done. unfold flag_of at 1.
  destruct (runtime_build_flag r) as [[f|]|e] eqn:E; [|lia|lia].
  cbn [room]. unfold flag_room at 1. rewrite (Hd _ _ E). unfold runtime_room in *. lia.
Qed.

Lemma version_flags_room c : room flag_room (version_flags c) = room version_room (offered c).
Proof.
  unfold version_flags. rewrite (room_perm _ _ _ (sort_stable_perm str_leb _)), room_map.
  induction (offered c) as [|b l IH]; [done|]. cbn [room]. rewrite IH. f_equal.
  unfold flag_room, version_room. rewrite str_len_app. lia.
Qed.

Lemma offered_seen c : offered c ≫= readable_runtimes ⊆ seen (select c).
Proof.
  intros r (b & Hr & Hb)%list_elem_of_bind. apply offered_spec in Hb as (i & Hi & Hb).
  destruct (sound_builds c _ (select_sound c) i Hi) as (b' & Hb' & _ & Hs).
  rewrite Hb in Hb'. injection Hb' as <-. by apply Hs.
Qed.

(** The flags a phone advertises are unique, are the flag of every offered version and of every
    runtime an offered build carries that has a flag and nothing else, and their JSON text never
    passes the 48 KiB kept for it in the body of [PATCH /clients/me], whatever the bucket publishes
    and the operator sets as the default. *)
Theorem advertised_fits_the_profile (Hd : digest_flags) (c : Catalog) (flags : list str) :
  advertised c = Ok flags ->
  NoDup flags /\
  (forall f, f ∈ flags <->
    (exists b, b ∈ offered c /\ f = FLAG_PREFIX ++ version b) \/
    (exists b r, b ∈ offered c /\ r ∈ readable_runtimes b /\ runtime_build_flag r = Ok (Some f))) /\
  str_len (flags_json flags) <= ADVERTISED_FLAGS_MAX_BYTES.
Proof.
  unfold advertised. destruct (build_flags _) as [fs|e] eqn:Ef; [|discriminate]. intros [= <-].
  apply build_flags_spec in Ef. destruct (dedup_sorted (version_flags c ++ fs)) as [Hn Hsub].
  set (flags := dedup _) in *. split_and!; [done| |].
  - intros f. unfold flags, version_flags. rewrite dedup_sorted_elem, elem_of_app.
    rewrite elem_of_sort_stable, list_elem_of_fmap, Ef, list_elem_of_omap. apply Morphisms_Prop.or_iff_morphism.
    + split; intros (b & ? & ?); exists b; tauto.
    + split.
      * intros (r & (b & ? & ?)%list_elem_of_bind & Hf). exists b, r. unfold flag_of in Hf.
        split_and!; [done|done|]. destruct (runtime_build_flag r); congruence.
      * intros (b & r & ? & ? & Hf). exists r. split; [apply list_elem_of_bind; by exists b|].
        unfold flag_of. by rewrite Hf.
  - pose proof (flags_json_len flags). destruct (select_sound c) as [_ _ _ Hspent Hfit].
    assert (room flag_room flags <= room flag_room (version_flags c ++ omap flag_of (seen (select c)))) as Hle.
    { apply room_submseteq; [apply flag_room_nonneg|]. apply NoDup_submseteq; [done|].
      intros f Hf. apply Hsub, elem_of_app in Hf as [Hf|Hf]; apply elem_of_app; [by left|right].
      rewrite Ef in Hf. apply list_elem_of_omap in Hf as (r & Hr & Hf). apply list_elem_of_omap.
      exists r. split; [by apply offered_seen|done]. }
    rewrite room_app, version_flags_room in Hle. pose proof (offered_room c).
    pose proof (flags_room Hd (seen (select c))). lia.
Qed.

(** *** The build of a claim *)

Definition suits (admitted : option (list str)) (runtime : option Runtime) (b : Build) : Prop :=
  admits admitted b = true /\ carries_asked runtime b = true.

Lemma find_first {A} (p : A -> bool) l x :
  List.find p l = Some x -> exists l1 l2, l = l1 ++ x :: l2 /\ Forall (fun y => p y = false) l1 /\ p x = true.
Proof.
  induction l as [|y l IH]; [done|]. cbn. destruct (p y) eqn:E.
  - intros [= ->]. by exists [], l.
  - intros Hf. destruct (IH Hf) as (l1 & l2 & -> & Hall & Hp). exists (y :: l1), l2. by split_and!; [|constructor|].
Qed.

Lemma filter_head {A} (p q : A -> bool) l x rest :
  List.filter q (List.filter p l) = x :: rest ->
  exists l1 l2, l = l1 ++ x :: l2 /\ Forall (fun y => ~ (p y = true /\ q y = true)) l1 /\ p x = true /\ q x = true.
Proof.
  induction l as [|y l IH]; [done|]. cbn. destruct (p y) eqn:Ep; [cbn; destruct (q y) eqn:Eq|].
  - intros [= -> _]. by exists [], l.
  - intros Hf. destruct (IH Hf) as (l1 & l2 & -> & Hall & Hp). exists (y :: l1), l2.
    split_and!; [done|constructor; [|done]|apply Hp..]. rewrite Eq. by intros [_ [=]].
  - intros Hf. destruct (IH Hf) as (l1 & l2 & -> & Hall & Hp). exists (y :: l1), l2.
    split_and!; [done|constructor; [|done]|apply Hp..]. rewrite Ep. by intros [[=] _].
Qed.

Lemma carrying_spec ct admitted runtime b :
  b ∈ List.filter (carries_asked runtime) (List.filter (admits admitted) (offered ct)) <->
  b ∈ offered ct /\ suits admitted runtime b.
Proof. unfold suits. rewrite !list_elem_of_In, !filter_In. tauto. Qed.

Lemma offered_kept ct b : b ∈ offered ct -> b ∈ cat_builds ct /\ is_withdrawn ct b = false.
Proof.
  intros (i & Hi & Hb)%offered_spec. destruct (sound_builds ct _ (select_sound ct) i Hi) as (b' & Hb' & Hw & _).
  rewrite Hb in Hb'. injection Hb' as <-. split; [by eapply list_elem_of_lookup_2|done].
Qed.

(** Which build a claim runs on. The answer is a listed build that is not withdrawn, that
    the claim admits and whose manifest names the runtime the claim asks for; it is the
    operator's default whenever that one suits the claim, and else the first in the listing's
    order that suits. A claim is refused only when no offered build is admitted or, told apart,
    when none of the admitted ones names the runtime. *)
Theorem claim_runs_on_the_preferred_build (ct : Catalog) (admitted : option (list str)) (runtime : option Runtime) :
  match choose ct admitted runtime with
  | Ok {| choice_build := b; choice_by := by_ |} =>
      b ∈ cat_builds ct /\ is_withdrawn ct b = false /\ suits admitted runtime b /\
      match by_ with
      | ByDefault => cat_default ct = Some (version b)
      | ByNewest =>
          (forall b', b' ∈ offered ct -> suits admitted runtime b' -> cat_default ct <> Some (version b')) /\
          exists l1 l2, offered ct = l1 ++ b :: l2 /\ Forall (fun b' => ~ suits admitted runtime b') l1
      end
  | Err NoneAdmitted => forall b, b ∈ offered ct -> admits admitted b = false
  | Err (RuntimeNotCarried vs) =>
      (forall v, v ∈ vs <-> exists b, b ∈ offered ct /\ admits admitted b = true /\ version b = v) /\ vs <> [] /\
      forall b, b ∈ offered ct -> admits admitted b = true -> carries_asked runtime b = false
  end.
Proof.
  unfold choose. cbv zeta. set (cands := List.filter (admits admitted) (offered ct)).
  assert (forall b, b ∈ cands <-> b ∈ offered ct /\ admits admitted b = true) as Hc.
  { intros b. unfold cands. by rewrite !list_elem_of_In, filter_In. }
  assert (cands = [] \/ cands <> []) as [Hn|Hn] by (destruct cands; [by left|by right]).
  { rewrite Hn in *. intros b Hb. destruct (admits admitted b) eqn:E; [|done].
    assert (b ∈ []) as Hin by (by apply Hc). by apply elem_of_nil in Hin. }
  destruct cands as [|b0 cands0] eqn:Ec; [done|]. rewrite <- Ec in *. clear Ec b0 cands0.
  assert (forall b, b ∈ List.filter (carries_asked runtime) cands <-> b ∈ offered ct /\ suits admitted runtime b) as Hcar.
  { apply carrying_spec. }
  destruct (List.find _ _) as [b|] eqn:Ef.
  - apply find_some in Ef as [Hin Hd]. apply list_elem_of_In, Hcar in Hin as [[? ?]%offered_kept Hs].
    unfold is_default in Hd. by apply bool_decide_eq_true in Hd.
  - destruct (List.filter (carries_asked runtime) cands) as [|b rest] eqn:Er.
    + split_and!.
      * intros v. rewrite list_elem_of_fmap. split.
        -- intros (b & -> & [? ?]%Hc). by exists b.
        -- intros (b & ? & ? & <-). exists b. by rewrite Hc.
      * by destruct cands.
      * intros b Hb Ha. destruct (carries_asked runtime b) eqn:E; [|done].
        assert (b ∈ []) as Hin by (by apply Hcar). by apply elem_of_nil in Hin.
    + assert (b ∈ b :: rest) as Hb by left. apply Hcar in Hb as [[? ?]%offered_kept Hs].
      split_and!; [done|done|done| |].
      * intros b' Ho Hs' Hd. assert (b' ∈ b :: rest) as Hin%list_elem_of_In by (by apply Hcar).
        eapply find_none in Ef; [|exact Hin]. unfold is_default in Ef. by apply bool_decide_eq_false in Ef.
      * unfold cands in Er. apply filter_head in Er as (l1 & l2 & E & Hall & _). by exists l1, l2.
Qed.
End Fits.

Module Shop.
#[local] Instance types : RuntimeTypes := {
  Runtime := Z;
  runtime_from_str _ := Err [];
  headless_token _ := [];
  first_document _ := None;
  document_end _ := None;
}.

(** One runtime, whose digest is all zeros. *)
#[local] Instance release_types : ReleaseTypes := {
  runtime_of_value v := match v with Number n => Some 7 | _ => None end;
  runtime_to_value _ := None;
  runtime_build_flag r := Ok (Some (RUNTIME_BUILD_FLAG_PREFIX ++ repeat 48 64));
  is_sha256 _ := false;
  manifest_of _ := None;
  s3_text _ := [];
}.

Definition build (v : str) : Build :=
  {| version := v; tag := []; key := []; sha256 := []; bytes := 0; uploaded_at := 0;
     build_runtimes := [Number (PosInt 1)] |}.

Definition shelf : Catalog :=
  {| cat_default := Some (lit "1.0"); cat_builds := [build (lit "2.0"); build (lit "1.0")]; cat_changed := [];
     cat_older := []; cat_whole := true; withdrawn := [lit "2.0"]; listed_at := None |}.
End Shop.

Lemma advertised_fits_the_profile_witness :
  @digest_flags Shop.types Shop.release_types /\
  exists flags, @advertised Shop.types Shop.release_types Shop.shelf = Ok flags /\ length flags = 2%nat /\ NoDup flags.
Proof.
  assert (@digest_flags Shop.types Shop.release_types) as Hd.
  { intros r f E. cbn [runtime_build_flag Shop.release_types] in E. injection E as <-. by vm_compute. }
  split; [exact Hd|]. destruct (@advertised Shop.types Shop.release_types Shop.shelf) as [flags|] eqn:E; [|by vm_compute in E].
  exists flags. split; [done|]. split; [by vm_compute in E; injection E as <-|].
  by apply (@advertised_fits_the_profile Shop.types Shop.release_types Hd Shop.shelf flags).
Defined.
