(* ===== verification/ProxyVersion.v ===== *)
(** * Version mode ([worker/version.rs])

    Every claim runs on a build it admits: chosen from the catalog, pulled from the bucket,
    signed on this Mac and put on the phone when the phone runs another. What pulls and signs
    is an interface free to answer anything; what is proved is what the proxy does with it. *)

From Stdlib Require Import ZArith Lia String.
From stdpp Require Import prelude list.
From S2P Require Import Prelude Str Timing Json Errors Protocol ProxyBase ProxyServer ProxyApp ProxyLaunch ProxyJob ProxyResults ProxyLoop ProxyPool ProxyReleases ProxyCatalog.

Local Open Scope Z_scope.
Local Open Scope proxy_scope.

(** ** Failures *)

Inductive Fault := OperatorFault | VersionFault | TransientFault.

#[export] Instance Fault_eq_dec : EqDecision Fault.
Proof. solve_decision. Defined.

Record UnreadyError := { unready_fault : Fault; unready_error : Error }.

Record Failed := {
  failed_cause : FailureCause;
  failed_fault : Fault;
  failed_error : Error;
  failed_reported : bool;
}.

(** [OperatorNeededError]. *)
Definition operator_needed (e : Error) : Error :=
  {| shown := lit "this phone stops until an operator fixes it: " ++ shown e; causes := OperatorNeeded :: causes e |}.

(** [Failed::from]. *)
Definition failed_unready (u : UnreadyError) : Failed :=
  {| failed_cause := match unready_fault u with
                     | VersionFault => BuildUnusable
                     | OperatorFault | TransientFault => BuildNotReady
                     end;
     failed_fault := unready_fault u; failed_error := unready_error u; failed_reported := false |}.

Definition transient (e : Error) : Failed :=
  failed_unready {| unready_fault := TransientFault; unready_error := e |}.

Definition version_fault (e : Error) : Failed :=
  failed_unready {| unready_fault := VersionFault; unready_error := e |}.

Definition failed_device (e : Error) : Failed :=
  {| failed_cause := failure_cause e DevicectlFailure; failed_fault := TransientFault;
     failed_error := e; failed_reported := false |}.

Definition failed_identity (e : Error) : Failed :=
  if replaced_identity e then
    {| failed_cause := IdentityReplacedCause; failed_fault := OperatorFault;
       failed_error := e; failed_reported := false |}
  else failed_device e.

Definition after_report (f : Failed) : Failed :=
  {| failed_cause := failed_cause f; failed_fault := failed_fault f;
     failed_error := failed_error f; failed_reported := true |}.

Definition at_startup (doing : str) (f : Failed) : Error :=
  match failed_fault f with
  | OperatorFault => operator_needed (failed_error f)
  | VersionFault | TransientFault => with_context doing (failed_error f)
  end.

(** [map_err]. *)
Definition map_err {T E F} (f : E -> F) (r : result T E) : result T F :=
  match r with Ok t => Ok t | Err e => Err (f e) end.

(** ** The runtimes of a build, spelled *)

(** What [pipette-plan-types], serde and the TOML crate print. *)
Class VersionTexts `{RuntimeTypes} := {
  plan_canonical_json : Value -> str;
  value_of_text : str -> option Value;
  runtime_display : Runtime -> str;
  same_runtime_type : Runtime -> Runtime -> bool;
  number_text : number -> str;
  toml_string : str -> str;
}.

Section Spelling.
Context `{ReleaseTypes} `{!VersionTexts}.

Definition descriptor_key (raw : Value) : str :=
  match runtime_of_value raw with
  | Some runtime =>
      match runtime_to_value runtime with
      | Some value => plan_canonical_json value
      | None => plan_canonical_json raw
      end
  | None => plan_canonical_json raw
  end.

Definition runtime_keys (b : Build) : list str := sort_stable str_leb (map descriptor_key (build_runtimes b)).

Definition reported_keys (l : RuntimeListing) : list str :=
  sort_stable str_leb
    (map (fun r => match runtime_to_value r with
                   | Some value => descriptor_key value
                   | None => runtime_display r
                   end) (runtimes l) ++
     map (fun raw => match value_of_text raw with
                     | Some value => descriptor_key value
                     | None => raw
                     end) (unreadable l)).

(** [type] first and the other keys sorted. *)
Definition field_leb (a b : str * str) : bool :=
  match str_eqb a.1 (lit "type"), str_eqb b.1 (lit "type") with
  | true, false => true
  | false, true => false
  | _, _ => str_leb a.1 b.1
  end.

Fixpoint toml_value (v : Value) : option str :=
  match v with
  | Null => None
  | Bool flag => Some (if flag then lit "true" else lit "false")
  | Number n => Some (number_text n)
  | String text => Some (toml_string text)
  | Array items => Some (lit "[" ++ join (lit ", ") (omap (fun o => o) (map toml_value items)) ++ lit "]")
  | Json.Object fields =>
      let shown := omap (fun o => o) (map (fun kv => text ← toml_value kv.2; Some (kv.1, text)) fields) in
      Some (lit "{ " ++ join (lit ", ") (map (fun kv => kv.1 ++ lit " = " ++ kv.2) (sort_stable field_leb shown)) ++ lit " }")
  end.

Definition plan_toml (r : Runtime) : str := default (runtime_display r) (runtime_to_value r ≫= toml_value).

Definition alternatives (carried : list Runtime) (wanted : Runtime) : str :=
  let same_type := List.filter (fun r => same_runtime_type r wanted) carried in
  match (match same_type with [] => carried | _ => same_type end) with
  | [] => lit "none"
  | shown => join (lit " or ") (map plan_toml shown)
  end.
End Spelling.

Definition describe (versions : option (list str)) : str :=
  match versions with
  | None => lit "every version (the server predates client_versions)"
  | Some [] => lit "no version"
  | Some versions => join (lit ", ") versions
  end.

(** ** State *)

(** [Releases], what it keeps. *)
Record Releases := { catalog : Catalog; release_backoff : option Z }.

(** One phone, and its side of the bucket. *)
Record Device := { dev_phone : Phone; dev_releases : Releases }.

Definition new_releases (default : option str) : Releases :=
  {| catalog := new_catalog default; release_backoff := None |}.

Definition put_phone (p : Phone) (s : Device) : Device := {| dev_phone := p; dev_releases := dev_releases s |}.

Definition put_catalog (c : Catalog) (s : Device) : Device :=
  {| dev_phone := dev_phone s;
     dev_releases := {| catalog := c; release_backoff := release_backoff (dev_releases s) |} |}.

Definition put_backoff (b : option Z) (s : Device) : Device :=
  {| dev_phone := dev_phone s;
     dev_releases := {| catalog := catalog (dev_releases s); release_backoff := b |} |}.

(** [releases/store.rs], [pool/bundle.rs] and [releases/sign.rs]: a build's directory, the
    archive and the app in it, the check of the app, and the signed copy staged. *)
Class BuildStore (W : Type) := {
  ensure_pulled : Build -> W -> result str UnreadyError * W;
  archived : str -> W -> result (str * str) UnreadyError * W;
  check_archived : str -> str -> str -> W -> result unit UnreadyError * W;
  signed_build : Build -> str -> W -> result str UnreadyError * W;
}.

#[export] Instance traced_build_store {W : Type} `{BuildStore W} : BuildStore (W * list Event) := {
  ensure_pulled b := logged (fun _ => []) (ensure_pulled b);
  archived dir := logged (fun _ => []) (archived dir);
  check_archived app v bundle := logged (fun _ => []) (check_archived app v bundle);
  signed_build b archive := logged (fun _ => []) (signed_build b archive);
}.

Record Chosen := { chosen_build : Build; chosen_by : ChosenBy }.

(** The wait before the next claim. *)
Definition backoff_after (previous : option Z) (ended : option FailureCause) (base : Z) : option Z :=
  match ended with
  | Some BuildNotReady | Some DevicectlFailure =>
      Some (match previous with Some wait => next_backoff wait PREPARE_BACKOFF_CAP | None => base end)
  | _ => None
  end.

(** [Unreported::of]. *)
Definition unreported_of {St W : Type} `{ProxyHost W} : prog St W Unreported :=
  do lost <- io lost_raised;
  ret (if lost then UnreportedLeaseLost else UnreportedStopped).

(** A program of the phone alone. *)
Definition on_phone {W T : Type} (m : prog Phone W T) : prog Device W T :=
  fun s => let '(t, (p, w)) := m (dev_phone s.1, s.2) in (t, (put_phone p s.1, w)).

Section VersionMode.
Context `{PT : ProxyTexts} `{JT : JobTexts} `{LT : LaunchTexts} `{RT : RuntimeTypes} `{!ReleaseTypes} `{!VersionTexts}.
Context {W : Type} `{MC : MgmtClient W} `{DC : DeviceControl W} `{PH : ProxyHost W} `{BU : Bucket W}
  `{RS : ReleaseStore W} `{BS : BuildStore W}.
Context (c : Claimant) (max_pages : nat).
Notation cfg := (phone_config c).
Notation bundle := (bundle_id cfg).
Notation on_the_phone T := (prog Phone W T).
Notation program T := (prog Device W T).

(** ** The phone *)

Definition running_version : on_the_phone (result (option str) Failed) :=
  do r <- app_version bundle (call_timeout cfg) (first_line_timeout cfg);
  match r with
  | Ok v => ret (Ok v)
  | Err e =>
      do reach <- io (reachability bundle);
      ret (match reach with
           | Reachable _ => Ok None
           | Unreachable reason =>
               Err {| failed_cause := DeviceUnreachable; failed_fault := TransientFault;
                      failed_error := with_context (lit "the phone is unreachable: " ++ reason) e;
                      failed_reported := false |}
           end)
  end.

Definition is_listing_refusal (cause : Cause) : bool :=
  match cause with RuntimesListFailed _ => true | _ => false end.

(** [RuntimesDifferError] when the two listings differ. *)
Definition check_runtimes (b : Build) : on_the_phone (result unit Failed) :=
  do r <- list_runtimes bundle (call_timeout cfg) (first_line_timeout cfg);
  ret (match in_context (lit "listing the runtimes the phone runs") r with
       | Err e =>
           Err (after_report
             (if existsb is_listing_refusal (causes e) then version_fault e else failed_device e))
       | Ok listing =>
           let reported := reported_keys listing in
           let published := runtime_keys b in
           if bool_decide (reported = published) then Ok tt
           else Err (after_report (version_fault (bail (lit "build " ++ version b ++
             lit " reports the runtimes " ++ join (lit ", ") reported ++
             lit ", but its manifest names " ++ join (lit ", ") published))))
       end).

Definition trust_running (b : Build) : on_the_phone (result unit Failed) :=
  do loaded <- io load_installed;
  let recorded := match loaded with Ok installed => ProxyBase.build_version installed | Err _ => None end in
  if bool_decide (recorded = Some (version b)) then ret (Ok tt)
  else
    do r <- check_after cfg (lit "on build " ++ version b ++ lit " found running");
    do? _ <- ret (map_err failed_identity r);
    do? _ <- check_runtimes b;
    do _ <- record_installed {| build_path := None; ProxyBase.build_version := Some (version b) |};
    ret (Ok tt).

Definition check_installed (b : Build) (staged : str) : on_the_phone (result unit Failed) :=
  do r <- check_after cfg (lit "after installing " ++ staged);
  do? _ <- ret (map_err failed_identity r);
  do r <- app_version bundle (call_timeout cfg) (first_line_timeout cfg);
  do? reported <- ret (map_err failed_device
    (in_context (lit "reading the version the phone runs after the install") r));
  if negb (bool_decide (reported = Some (version b))) then
    ret (Err (version_fault (bail (lit "after installing build " ++ version b ++
      lit ", the phone reports " ++ default (lit "no version") reported))))
  else
    do? _ <- check_runtimes b;
    do r <- record_installed {| build_path := Some staged; ProxyBase.build_version := Some (version b) |};
    ret (map_err (fun e => after_report (transient e)) r).

(** ** A build onto the phone *)

Definition sign (b : Build) (dir : str) : on_the_phone (result str UnreadyError) :=
  do? found <- io (archived dir);
  do? _ <- io (check_archived found.2 (version b) bundle);
  io (signed_build b found.1).

(** The phone's record is unknown from before the install to after its checks. *)
Definition install_staged (b : Build) (staged : str) : on_the_phone (result unit Failed) :=
  do r <- set_installed None;
  do? _ <- ret (map_err transient r);
  do r <- io (install_app staged);
  do? _ <- ret (map_err failed_device (in_context (lit "installing " ++ staged ++ lit " on " ++ udid cfg) r));
  check_installed b staged.

(** [stopping] reads the signals of a claim, or of a start. *)
Definition install (stopping : on_the_phone bool) (b : Build) : on_the_phone (result unit Failed) :=
  do r <- io (ensure_pulled b);
  do? dir <- ret (map_err failed_unready r);
  do r <- sign b dir;
  do? staged <- ret (map_err failed_unready r);
  do stop <- stopping;
  if stop then
    ret (Err (transient (bail (lit "the lease was lost or a stop arrived before the install"))))
  else install_staged b staged.

(** The build found running is trusted, any other is installed. *)
Definition make_ready (stopping : on_the_phone bool) (b : Build) : on_the_phone (result unit Failed) :=
  do r <- running_version;
  match r with
  | Ok running =>
      if bool_decide (running = Some (version b)) then
        do r <- trust_running b;
        ret (map_err after_report r)
      else install stopping b
  | Err failed => ret (Err failed)
  end.

(** ** The catalog *)

Definition checked_offer (ct : Catalog) : result unit Error :=
  map_err (fun e => operator_needed (catalog_error e)) (check_offered ct).

Definition checked_flags (ct : Catalog) : result (list str) Error := map_err operator_needed (advertised ct).

Definition list_again (reach : Reach) : program (result unit Error) :=
  do s <- get_state;
  do r <- list_catalog max_pages reach (catalog (dev_releases s));
  do _ <- set_state (put_catalog r.2 s);
  ret r.1.

Definition refresh : program (result bool Error) :=
  do s <- get_state;
  let ct := catalog (dev_releases s) in
  do? _ <- ret (checked_offer ct);
  do is_due <- due ct;
  if negb is_due then ret (Ok false)
  else
    do? before <- ret (checked_flags ct);
    do r <- list_again Newest;
    match r with
    | Err _ => ret (Ok false)
    | Ok _ =>
        do s <- get_state;
        let ct := catalog (dev_releases s) in
        do? _ <- ret (checked_offer ct);
        do? flags <- ret (checked_flags ct);
        ret (Ok (negb (bool_decide (flags = before))))
    end.

Definition withdraw_version (v : str) : program Catalog :=
  do s <- get_state;
  let ct := withdraw v (catalog (dev_releases s)) in
  do _ <- set_state (put_catalog ct s);
  ret ct.

(** ** Before the phone connects *)

(** The build running is offered: it proves itself, or is withdrawn. *)
Definition start_running (b : Build) : program (result unit Error) :=
  do r <- on_phone (trust_running b);
  match r with
  | Ok _ => ret (Ok tt)
  | Err failed =>
      if decide (failed_fault failed = VersionFault) then
        do ct <- withdraw_version (version b);
        ret (checked_offer ct)
      else ret (Err (at_startup (lit "checking the client of build " ++ version b) failed))
  end.

Definition start_install : program (result unit Error) :=
  do s <- get_state;
  match choose (catalog (dev_releases s)) None None with
  | Err _ => ret (Err (catalog_error CatalogEmpty))
  | Ok choice =>
      let b := choice_build choice in
      do r <- on_phone (install (io stop_raised) b);
      match r with
      | Ok _ => ret (Ok tt)
      | Err failed =>
          do stop <- io stop_raised;
          if stop then ret (Ok tt)
          else if decide (failed_fault failed = VersionFault) then
            do ct <- withdraw_version (version b);
            ret (checked_offer ct)
          else if decide (failed_cause failed = DevicectlFailure) then ret (Ok tt)
          else ret (Err (at_startup (lit "installing build " ++ version b ++ lit " before claiming") failed))
      end
  end.

Definition start : program (result unit Error) :=
  do r <- list_again Newest;
  do s <- get_state;
  let ct := catalog (dev_releases s) in
  do? _ <- ret (match r with
                | Err e => if has_listing ct then Ok tt else Err (with_context (lit "listing the releases bucket") e)
                | Ok _ => Ok tt
                end);
  do? _ <- ret (checked_offer ct);
  do r <- on_phone running_version;
  do? running <- ret (map_err (fun f => with_context (lit "reading the version the phone runs") (failed_error f)) r);
  match running ≫= offers ct with
  | Some b => start_running b
  | None => start_install
  end.

(** [run_one] up to its first server call, in version mode. *)
Definition prepare_releases (fuel : nat) : program (option (result bool Error)) :=
  do runnable <- wait_until_runnable c fuel None;
  match runnable with
  | None => ret None
  | Some false => ret (Some (Ok false))
  | Some true =>
      do r <- start;
      match r with
      | Err e => ret (Some (Err e))
      | Ok _ =>
          do stop <- io stop_raised;
          ret (Some (Ok (negb stop)))
      end
  end.

(** ** One claim *)

Definition no_choice (ct : Catalog) (admitted : option (list str)) (plan : LaunchPlan) (fresh : bool)
    (why : NoChoice) : JobFailure :=
  match why with
  | NoneAdmitted =>
      job_failure NoAdmittedVersion (lit "the claim admits " ++ describe admitted ++
        lit ", and this phone offers " ++ describe (Some (version_flags ct)))
  | RuntimeNotCarried offered =>
      match (if fresh then admitted ≫= fun a => carried ← carried_instead ct a (plan_runtime plan); Some (a, carried)
             else None) with
      | Some (a, carried) =>
          job_failure NoBuildCarriesRuntime (lit "the job's runtime " ++ plan_toml (plan_runtime plan) ++
            lit " is in no build in the releases bucket, so no phone can run it. The builds the claim admits (" ++
            join (lit ", ") a ++ lit ") carry, in plan TOML: " ++ alternatives carried (plan_runtime plan))
      | None =>
          job_failure RuntimeNotInBuild (lit "the job's runtime " ++ runtime_json plan ++
            lit " is in the manifest of no build the claim admits here (" ++ join (lit ", ") offered ++ lit ")")
      end
  end.

Definition choose_build (admitted : option (list str)) (plan : LaunchPlan) : program (result Chosen JobFailure) :=
  let of_choice ct fresh r :=
    match r with
    | Ok choice => Ok {| chosen_build := choice_build choice; chosen_by := choice_by choice |}
    | Err why => Err (no_choice ct admitted plan fresh why)
    end in
  do s <- get_state;
  let ct := catalog (dev_releases s) in
  match choose ct admitted (Some (plan_runtime plan)) with
  | Err (RuntimeNotCarried _) =>
      do r <- list_again Whole;
      let fresh := match r with Ok _ => true | Err _ => false end in
      do s <- get_state;
      let ct := catalog (dev_releases s) in
      ret (of_choice ct fresh (choose ct admitted (Some (plan_runtime plan))))
  | r => ret (of_choice ct false r)
  end.

(** What a build that did not get onto the phone makes of the job and of the phone. *)
Definition unready (b : Build) (failed : Failed) : program JobEnd :=
  let failure :=
    on_build (job_failure (failed_cause failed) (shown (failed_error failed))) (version b) (failed_reported failed) in
  do halt <- match failed_fault failed with
             | OperatorFault => ret (Some (operator_needed (failed_error failed)))
             | VersionFault =>
                 do ct <- withdraw_version (version b);
                 ret (match checked_offer ct with Ok _ => None | Err e => Some e end)
             | TransientFault => ret None
             end;
  ret {| report := Ok failure; halt := halt |}.

Definition prepare (job : ClaimedJob) (plan : LaunchPlan) : program (result Build JobEnd) :=
  do r <- choose_build (client_versions job) plan;
  do? chosen <- ret (ProxyJob.ends_with r);
  let b := chosen_build chosen in
  do ready <- on_phone (make_ready (raised true) b);
  match ready with
  | Ok _ => ret (Ok b)
  | Err failed => do end_ <- unready b failed; ret (Err end_)
  end.

Definition ended_on_build (b : Build) (end_ : JobEnd) : JobEnd :=
  {| report := match report end_ with
               | Ok failure => Ok (on_build failure (version b) true)
               | Err u => Err u
               end;
     halt := halt end_ |}.

(** The lease ended while the build was made ready. *)
Definition given_up (prepared : result Build JobEnd) : program (result Outcome JobEnd) :=
  do u <- unreported_of;
  ret (match prepared with
       | Err {| halt := Some e |} => Err {| report := Err u; halt := Some e |}
       | _ => Ok (outcome_of u)
       end).

Definition run_job (job : ClaimedJob) : program (result Outcome JobEnd) :=
  do? plan <- ret (launch_plan job);
  do? _ <- on_phone (known_benchmark job);
  do _ <- io_ (lease_start (job_id job) (heartbeat_interval cfg job));
  do prepared <- prepare job plan;
  do up <- raised true;
  if up then
    do _ <- io_ lease_drop;
    given_up prepared
  else
    match prepared with
    | Err end_ =>
        do _ <- io_ lease_drop;
        ret (Err end_)
    | Ok b =>
        do before <- on_phone (results_before cfg);
        match before with
        | Err end_ =>
            do _ <- io_ lease_drop;
            ret (Err (ended_on_build b end_))
        | Ok before =>
            do r <- on_phone (run_and_submit cfg job plan before (Some (version b)));
            ret (map_err (ended_on_build b) r)
        end
    end.

Definition ended_cause (ended : result Outcome JobEnd) : option FailureCause :=
  match ended with
  | Ok _ => None
  | Err end_ => match report end_ with Ok failure => Some (jf_cause failure) | Err _ => None end
  end.

Definition execute_version_job (job : ClaimedJob) : program (result Outcome JobEnd) :=
  do ended <- run_job job;
  do s <- get_state;
  do _ <- set_state (put_backoff
    (backoff_after (release_backoff (dev_releases s)) (ended_cause ended) (claim_backoff (loop_config c))) s);
  ret ended.

Definition pace : program unit :=
  do s <- get_state;
  match release_backoff (dev_releases s) with
  | Some wait => do _ <- sleep_interruptible wait; ret tt
  | None => ret tt
  end.
End VersionMode.

(** [Builds::Releases]. *)
Definition version_mode `{PT : ProxyTexts} `{JT : JobTexts} `{LT : LaunchTexts} `{RT : RuntimeTypes} `{!ReleaseTypes}
    `{!VersionTexts} {W : Type} `{MC : MgmtClient W} `{DC : DeviceControl W} `{PH : ProxyHost W} `{BU : Bucket W}
    `{RS : ReleaseStore W} `{BS : BuildStore W} (c : Claimant) (max_pages : nat) : Builds Device W := {|
  phone_of := dev_phone;
  with_phone := put_phone;
  capabilities := fun s => advertised (catalog (dev_releases s));
  prepare_builds := prepare_releases c max_pages;
  refresh_builds := refresh max_pages;
  execute_claim := execute_version_job c max_pages;
  pace_claims := pace;
|}.

(** ** What version mode asks of the phone

    The laws of the claim loop: as in pool mode, a job neither claims nor reports, and an
    identity that is not the client's halts the phone. At a start that is cut short by a stop
    the thread ends on the stop instead, unless the stop is taken back. *)

(** A stop raised, and later read as not raised. *)
Definition stop_taken_back (tr : list Event) : Prop :=
  exists tr1 tr2 tr3, tr = tr1 ++ EStop true :: tr2 ++ EStop false :: tr3.

Definition keeps_device (s s' : Device) : Prop := keeps_os (dev_phone s) (dev_phone s').

#[export] Instance keeps_device_preorder : PreOrder keeps_device.
Proof. split; [done|]. intros s1 s2 s3 H1 H2. unfold keeps_device in *. by etrans. Qed.

(** What nothing was asked of. *)
Definition unasked (e : Event) : Prop := False.

Lemma tame_weaken {St W T} (I J : St -> St -> Prop) P Q (m : prog St (W * list Event) T) :
  tame I P m -> (forall s s', I s s' -> J s s') -> (forall e, P e -> Q e) -> tame J Q m.
Proof.
  intros Hm HI HP s. eapply emits_weaken; [apply Hm|]. cbv beta. intros r s' tr [Hs Htr].
  split; [by apply HI|by eapply Forall_impl].
Qed.

Section Listing.
Context `{RT : RuntimeTypes} `{!ReleaseTypes} {St W : Type} `{PH : ProxyHost W} `{BU : Bucket W} `{RS : ReleaseStore W}.
Notation TW := (W * list Event)%type.
Notation quietly m := (tame (S := St) (W := W) eq unasked m).

Lemma list_pages_quiet fuel objects token named : quietly (list_pages (W := TW) fuel objects token named).
Proof.
  revert objects token named. induction fuel as [|fuel IH]; intros objects token named; cbn [list_pages]; [tame|].
  tame.
Qed.

Lemma verify_quiet cand : quietly (verify (W := TW) cand).
Proof. unfold verify. tame. Qed.

Lemma listed_candidates_quiet max_pages : quietly (listed_candidates (W := TW) max_pages).
Proof. pose proof list_pages_quiet. unfold listed_candidates, list_objects. tame. Qed.

Lemma list_newest_quiet max_pages keep also reach : quietly (list_newest (W := TW) max_pages keep also reach).
Proof.
  pose proof verify_quiet. pose proof (listed_candidates_quiet max_pages).
  unfold list_newest, read_older, verify_newest, verify_or_skip. tame.
Qed.

Lemma list_catalog_quiet max_pages reach ct : quietly (list_catalog (W := TW) max_pages reach ct).
Proof. pose proof list_newest_quiet. unfold list_catalog. tame. Qed.

Lemma due_quiet ct : quietly (due (W := TW) ct).
Proof. unfold due. tame. Qed.
End Listing.

Section OnPhone.
Context {W : Type}.
Notation TW := (W * list Event)%type.

Lemma on_phone_emits {T} (m : prog Phone TW T) (s : Device) Q :
  emits (dev_phone s) m Q ->
  emits s (on_phone m) (fun r s' tr => dev_releases s' = dev_releases s /\ Q r (dev_phone s') tr).
Proof.
  intros Hm w tr0. destruct (Hm w tr0) as (t & p & w' & tr & E & HQ).
  exists t, (put_phone p s), w', tr. unfold on_phone. cbn [fst snd]. by rewrite E.
Qed.

Lemma on_phone_tame {T} (m : prog Phone TW T) : tame keeps_os in_job m -> tame keeps_device in_job (on_phone m).
Proof.
  intros Hm s. eapply emits_weaken; [apply on_phone_emits, Hm|]. cbv beta. by intros r s' tr (_ & ? & ?).
Qed.

Lemma on_phone_telling {T} client (tells : T -> Prop) (m : prog Phone TW T) (s : Device) :
  emits (dev_phone s) m (telling keeps_os client tells (dev_phone s)) ->
  emits s (on_phone m) (telling keeps_device client tells s).
Proof.
  intros Hm. eapply emits_weaken; [by apply on_phone_emits|]. cbv beta. intros r s' tr (_ & Hs & Hu & Hr).
  by split_and!.
Qed.
End OnPhone.

(** An answer that only an operator can clear. *)
Definition tells_operator {T} (r : result T Failed) : Prop :=
  exists f, r = Err f /\ failed_fault f = OperatorFault /\ failed_cause f <> DevicectlFailure.

Section Laws.
Context `{PT : ProxyTexts} `{JT : JobTexts} `{LT : LaunchTexts} `{RT : RuntimeTypes} `{!ReleaseTypes} `{!VersionTexts}.
Context {W : Type} `{MC : MgmtClient W} `{DC : DeviceControl W} `{PH : ProxyHost W} `{BU : Bucket W}
  `{RS : ReleaseStore W} `{BS : BuildStore W}.
Context (c : Claimant) (max_pages : nat).
Notation TW := (W * list Event)%type.
Notation cfg := (phone_config c).
Notation client := (client_id cfg).

Lemma app_version_tame b t f : tame keeps_os in_job (app_version (W := TW) b t f).
Proof. unfold app_version. apply tame_try; [exact _|by apply run_verb_tame; [exact _|]|]. intros run. tame. Qed.

Lemma list_runtimes_tame b t f : tame keeps_os in_job (list_runtimes (W := TW) b t f).
Proof. unfold list_runtimes. apply tame_try; [exact _|by apply run_verb_tame; [exact _|]|]. intros run. tame. Qed.
#[local] Hint Resolve app_version_tame list_runtimes_tame : tame.

Lemma running_version_tame : tame keeps_os in_job (running_version (W := TW) c).
Proof. unfold running_version. tame. Qed.

Lemma check_runtimes_tame b : tame keeps_os in_job (check_runtimes (W := TW) c b).
Proof. unfold check_runtimes. tame. Qed.
#[local] Hint Resolve running_version_tame check_runtimes_tame record_installed_tame : tame.

Lemma failed_identity_operator e : replaced_identity e = true ->
  failed_fault (failed_identity e) = OperatorFault /\ failed_cause (failed_identity e) <> DevicectlFailure.
Proof. unfold failed_identity. by intros ->. Qed.

(** The identity is asked for, and what follows is asked when it is the client's. *)
Lemma identity_told {T} checked (k : unit -> prog Phone TW (result T Failed)) (s : Phone) :
  (forall s', emits s' (k tt) (telling keeps_os client tells_operator s')) ->
  emits s (do r <- check_after (W := TW) cfg checked; do? u <- ret (map_err failed_identity r); k u)
    (telling keeps_os client tells_operator s).
Proof.
  intros Hk. apply (telling_bind _ _ tells_replaced); [apply check_after_told| |].
  - intros [[]|e] s'; unfold try_bind; apply emits_ret_bind; cbn [map_err]; [apply Hk|apply telling_ret; exact _].
  - intros r s' (e & -> & He). unfold try_bind. apply emits_ret_bind. cbn [map_err]. apply emits_ret. eexists. split; [done|].
    by apply failed_identity_operator.
Qed.

Lemma trust_running_told b (s : Phone) :
  emits s (trust_running (W := TW) c b) (telling keeps_os client tells_operator s).
Proof.
  unfold trust_running. apply telling_after; [exact _|tame|]. intros loaded s1. cbv zeta.
  case_bool_decide; [apply telling_ret; exact _|]. apply identity_told. intros s2.
  apply telling_try; [exact _|tame|]. intros _ s3. apply telling_tame. tame.
Qed.

Lemma check_installed_told b staged (s : Phone) :
  emits s (check_installed (W := TW) c b staged) (telling keeps_os client tells_operator s).
Proof. unfold check_installed. apply identity_told. intros s1. apply telling_tame. tame. Qed.

Lemma install_told stopping b (s : Phone) :
  tame keeps_os in_job stopping ->
  emits s (install (W := TW) c stopping b) (telling keeps_os client tells_operator s).
Proof.
  intros Hstop. unfold install, sign, install_staged, set_installed. repeat first
    [apply check_installed_told | apply telling_ret; exact _ | apply telling_try; [exact _|tame|]
    | apply telling_after; [exact _|tame|] | progress intros | case_match].
Qed.

Lemma make_ready_told stopping b (s : Phone) :
  tame keeps_os in_job stopping ->
  emits s (make_ready (W := TW) c stopping b) (telling keeps_os client tells_operator s).
Proof.
  intros Hstop. unfold make_ready. apply telling_after; [exact _|tame|]. intros r s1.
  destruct r as [running|failed]; [|apply telling_ret; exact _]. case_bool_decide; [|by apply install_told].
  apply (telling_bind _ _ tells_operator); [apply trust_running_told| |].
  - intros r s2. apply telling_ret; exact _.
  - intros r s2 (f & -> & Hf). apply emits_ret. by exists (after_report f).
Qed.

(** *** The device *)

Lemma list_again_tame reach : tame keeps_device in_job (list_again (W := TW) max_pages reach).
Proof.
  unfold list_again. apply tame_change. intros s. eapply emits_bind; [apply list_catalog_quiet|]. cbv beta.
  intros r s1 tr1 [<- Hq]. apply emits_set_bind, emits_ret. rewrite app_nil_r. split; [done|].
  eapply Forall_impl; [exact Hq|]. by intros e [].
Qed.

Lemma withdraw_version_tame v : tame keeps_device in_job (withdraw_version (W := TW) v).
Proof.
  unfold withdraw_version. apply tame_change. intros s. cbv zeta. apply emits_set_bind, emits_ret. done.
Qed.

Lemma due_tame ct : tame keeps_device in_job (due (W := TW) ct).
Proof. eapply tame_weaken; [apply due_quiet|by intros s s' ->|by intros e []]. Qed.

Lemma get_device_tame : tame (S := Device) (W := W) keeps_device in_job get_state.
Proof. apply tame_get. exact _. Qed.
#[local] Hint Resolve get_device_tame list_again_tame withdraw_version_tame due_tame on_phone_tame : tame.
#[local] Hint Resolve known_benchmark_tame results_before_tame run_and_submit_tame : tame.

Lemma refresh_tame : tame keeps_device in_job (refresh (W := TW) max_pages).
Proof. unfold refresh. tame. Qed.

Lemma choose_build_tame admitted plan :
  tame keeps_device in_job (choose_build (W := TW) max_pages admitted plan).
Proof. unfold choose_build. tame. Qed.

Lemma needs_operator_halts e : halts_phone (operator_needed e) = true.
Proof. unfold halts_phone, needs_operator, operator_needed. cbn. apply orb_true_r. Qed.

(** How a job ends that halts the phone. *)
Definition tells_end {T} (r : result T JobEnd) : Prop :=
  exists end_ e, r = Err end_ /\ halt end_ = Some e /\ halts_phone e = true.

Lemma unready_operator b f (s : Device) :
  failed_fault f = OperatorFault ->
  emits s (unready (W := TW) b f) (fun end_ _ _ => halt end_ = Some (operator_needed (failed_error f))).
Proof. intros Hf. unfold unready. cbv zeta. rewrite Hf. by apply emits_ret_bind, emits_ret. Qed.

Lemma prepare_told job plan (s : Device) :
  emits s (prepare (W := TW) c max_pages job plan) (telling keeps_device client tells_end s).
Proof.
  unfold prepare. apply telling_after; [exact _|apply choose_build_tame|]. intros r s1.
  apply telling_try; [exact _|tame|]. intros chosen s2. cbv zeta.
  apply (telling_bind _ _ tells_operator).
  - apply on_phone_telling, make_ready_told. unfold raised. tame.
  - intros [u|failed] s3; [apply telling_ret; exact _|]. unfold unready. apply telling_tame. tame.
  - intros r' s3 (f & -> & Hf & _). eapply emits_bind; [by apply unready_operator|]. cbv beta.
    intros end_ s4 tr4 He. apply emits_ret. exists end_, (operator_needed (failed_error f)).
    split_and!; [done|done|apply needs_operator_halts].
Qed.

Lemma given_up_tame prepared : tame keeps_device in_job (given_up (W := TW) prepared).
Proof. unfold given_up, unreported_of. tame. Qed.

Lemma given_up_halts prepared (s : Device) :
  tells_end prepared -> emits s (given_up (W := TW) prepared) (fun r _ _ => tells_end r).
Proof.
  intros (end_ & e & -> & He & Hh). unfold given_up, unreported_of.
  eapply emits_bind with (P := fun _ _ _ => True).
  { apply emits_io_bind. intros lost. by apply emits_ret. }
  intros u s' tr _. apply emits_ret. destruct end_ as [rp h]. cbn in He. subst h. by eexists _, e.
Qed.

Lemma run_job_told job (s : Device) :
  emits s (run_job (W := TW) c max_pages job) (telling keeps_device client tells_end s).
Proof.
  unfold run_job, launch_plan. destruct (launch_plan_from_claim job) as [plan|refusal] eqn:Hp; [|apply telling_ret; exact _].
  unfold try_bind at 1. apply emits_ret_bind. cbv beta iota.
  pose proof given_up_tame. pose proof (fun before v => run_and_submit_tame cfg job plan before v Hp).
  apply telling_try; [exact _|tame|]. intros _ s1. apply telling_after; [exact _|tame|]. intros _ s2.
  apply (telling_bind _ _ tells_end); [apply prepare_told| |].
  - intros prepared s3. apply telling_tame. unfold raised. tame.
  - intros prepared s3 Ht. eapply emits_bind with (P := fun _ _ _ => True).
    { eapply emits_weaken; [apply (tame_weaken keeps_device keeps_device in_job in_job); [unfold raised; tame|done|done]|done]. }
    cbv beta. intros up s4 tr4 _. destruct up.
    + eapply emits_bind with (P := fun _ _ _ => True); [by apply emits_io_|]. cbv beta. intros _ s5 tr5 _.
      by apply given_up_halts.
    + destruct Ht as (end_ & e & -> & He). eapply emits_bind with (P := fun _ _ _ => True); [by apply emits_io_|].
      cbv beta. intros _ s5 tr5 _. apply emits_ret. by exists end_, e.
Qed.

Lemma execute_version_told job (s : Device) :
  emits s (execute_version_job (W := TW) c max_pages job) (telling keeps_device client tells_halt s).
Proof.
  unfold execute_version_job.
  assert (forall (r : result Outcome JobEnd), tame keeps_device in_job (do s <- get_state;
    do _ <- set_state (W := TW) (put_backoff (backoff_after (release_backoff (dev_releases s)) (ended_cause r)
      (claim_backoff (loop_config c))) s); ret r)) as Hset.
  { intros r. apply tame_change. intros s'. apply emits_set_bind, emits_ret. done. }
  apply (telling_bind _ _ tells_end); [apply run_job_told| |].
  - intros r s1. by apply telling_tame.
  - intros r s1 Hr. apply emits_get_bind, emits_set_bind, emits_ret. exact Hr.
Qed.

(** *** The start *)

(** What a start answers of another identity, and that it may have met a stop instead. *)
Definition tells_start (r : result unit Error) : Prop := exists e, r = Err e /\ halts_phone e = true.

Definition starting (s : Device) (r : result unit Error) (s' : Device) (tr : list Event) : Prop :=
  keeps_device s s' /\ Forall unclaiming tr /\
  (Forall (same_identity client) tr \/ tells_start r \/ r = Ok tt /\ EStop true ∈ tr).

Lemma telling_starting r (s s' : Device) tr :
  telling keeps_device client tells_start s r s' tr -> starting s r s' tr.
Proof. intros (Hs & Hu & [?|?]); (split_and!; [done|done|]); auto. Qed.

Lemma starting_seq (s s1 : Device) r s2 tr1 tr2 :
  keeps_device s s1 -> Forall unclaiming tr1 -> Forall (same_identity client) tr1 ->
  starting s1 r s2 tr2 -> starting s r s2 (tr1 ++ tr2).
Proof.
  intros Hs Hu Hsame (Hs2 & Hu2 & Hr). split; [by etrans|]. split; [by apply Forall_app|].
  destruct Hr as [Hr|[Hr|[-> Hr]]]; [left; by apply Forall_app|auto|right; right; set_solver].
Qed.

Lemma starting_after {T} (m : prog Device TW T) k (s : Device) :
  tame keeps_device in_job m -> (forall t s', emits s' (k t) (starting s')) -> emits s (bind m k) (starting s).
Proof.
  intros Hm Hk. eapply emits_bind; [by apply (telling_tame keeps_device client (fun _ => False))|]. cbv beta.
  intros t s1 tr1 (Hs & Hu & [Hsame|[]]). eapply emits_weaken; [apply Hk|]. cbv beta.
  intros r s2 tr2. by apply starting_seq.
Qed.

Lemma starting_tame (m : prog Device TW (result unit Error)) (s : Device) :
  tame keeps_device in_job m -> emits s m (starting s).
Proof.
  intros Hm. eapply emits_weaken; [by apply (telling_tame keeps_device client (fun _ => False))|]. cbv beta.
  intros r s' tr (? & ? & [?|[]]). split_and!; auto.
Qed.

Lemma starting_ret r (s : Device) : emits (W := W) s (ret r) (starting s).
Proof. apply emits_ret. split_and!; [done|done|by left]. Qed.

Lemma starting_try {T} (m : prog Device TW (result T Error)) k (s : Device) :
  tame keeps_device in_job m -> (forall t s', emits s' (k t) (starting s')) ->
  emits s (try_bind m k) (starting s).
Proof. intros Hm Hk. apply starting_after; [done|]. intros [t|e] s'; [apply Hk|apply starting_ret]. Qed.

Lemma at_startup_halts doing f : failed_fault f = OperatorFault -> halts_phone (at_startup doing f) = true.
Proof. unfold at_startup. intros ->. apply needs_operator_halts. Qed.

Lemma start_running_told b (s : Device) :
  emits s (start_running (W := TW) c b) (telling keeps_device client tells_start s).
Proof.
  unfold start_running. apply (telling_bind _ _ tells_operator).
  - apply on_phone_telling, trust_running_told.
  - intros r s1. apply telling_tame. tame.
  - intros r s1 (f & -> & Hf & _). rewrite Hf. apply emits_ret. eexists. split; [done|].
    by apply at_startup_halts.
Qed.

Lemma start_install_starting (s : Device) : emits s (start_install (W := TW) c) (starting s).
Proof.
  unfold start_install. apply emits_get_bind. destruct (choose _ None None) as [choice|]; [|apply starting_ret].
  cbv zeta. eapply emits_bind; [apply on_phone_telling, install_told; tame|]. cbv beta.
  intros r s1 tr1 (Hs & Hu & Hr). destruct r as [u|failed].
  { apply emits_ret. rewrite app_nil_r. split_and!; [done|done|].
    destruct Hr as [Hr|(f & [=] & _)]. by left. }
  apply emits_io_bind. intros stop. destruct stop.
  { apply emits_ret. split; [done|]. split; [by apply Forall_app; split; [|repeat constructor]|].
    right; right. set_solver. }
  destruct Hr as [Hr|(f & [= <-] & Hf & Hc)].
  - eapply emits_weaken; [apply starting_tame; tame|]. cbv beta. intros r s2 tr2 Hr2.
    apply (starting_seq s s1 _ s2 tr1 ([EStop false] ++ tr2)); [done|done|done|].
    apply (starting_seq s1 s1 _ s2 [EStop false] tr2); [done|by repeat constructor| |done].
    by constructor; [apply same_identity_other|].
  - rewrite Hf, decide_False by done. rewrite decide_False by done. apply emits_ret. split; [done|].
    split; [by apply Forall_app; split; [|repeat constructor]|]. right; left.
    eexists. split; [done|]. by apply at_startup_halts.
Qed.

Lemma start_starting (s : Device) : emits s (start (W := TW) c max_pages) (starting s).
Proof.
  unfold start. apply starting_after; [tame|]. intros r s1. apply starting_after; [tame|]. intros s2 s3. cbv zeta.
  apply starting_try; [tame|]. intros _ s4. apply starting_try; [tame|]. intros _ s5.
  apply starting_after; [tame|]. intros v s6. apply starting_try; [tame|]. intros running s7.
  destruct (running ≫= _) as [b|]; [|apply start_install_starting].
  eapply emits_weaken; [apply start_running_told|]. intros r' s' tr. apply telling_starting.
Qed.

Lemma runnable_emits fuel paused (s : Device) :
  emits s (wait_until_runnable (W := TW) c fuel paused) (fun r s' tr => s' = s /\ Forall (inside c) tr /\
    (r = Some false -> EStop true ∈ tr)).
Proof.
  revert paused. induction fuel as [|fuel IH]; intros paused; cbn [wait_until_runnable]; [by apply emits_ret|].
  apply emits_io_bind. intros reach. assert (inside c (EReach reach)) as Hin by (split; [done|by apply same_identity_other]).
  destruct reach as [v|reason]; [apply emits_ret; by split_and!; [|constructor|]|].
  eapply emits_bind; [apply pause_emits|]. cbv beta. intros pause s1 tr1 [-> ->].
  eapply emits_bind; [apply wait_time_emits|]. cbv beta. intros wait s2 tr2 [-> ->].
  eapply emits_bind; [apply (sleep_stopped c)|]. cbv beta. intros slept s3 tr3 (-> & Hin3 & Hs).
  cbn [app]. destruct slept.
  - eapply emits_weaken; [apply IH|]. cbv beta. intros r s' tr (-> & Ht & Hr). split; [done|]. split.
    + constructor; [done|]. by apply Forall_app.
    + intros E. specialize (Hr E). set_solver.
  - apply emits_ret. rewrite app_nil_r. split; [done|]. split; [by constructor|]. intros _. specialize (Hs eq_refl). set_solver.
Qed.

Lemma prepare_releases_emits fuel (s : Device) :
  emits s (prepare_releases (W := TW) c max_pages fuel) (fun r s' tr => keeps_device s s' /\ Forall unclaiming tr /\
    (Forall (same_identity client) tr \/ (exists e, r = Some (Err e) /\ halts_phone e = true) \/
     r = Some (Ok false) \/ stop_taken_back tr) /\
    (r = Some (Ok false) -> EStop true ∈ tr)).
Proof.
  unfold prepare_releases. eapply emits_bind; [apply runnable_emits|]. cbv beta.
  intros runnable s1 tr1 (-> & Hin & Hstop). apply Forall_and in Hin as [Hu Hs].
  destruct runnable as [[]|]; [|apply emits_ret; rewrite app_nil_r; split_and!; auto; done..].
  eapply emits_bind; [apply start_starting|]. cbv beta. intros r s2 tr2 (Hk & Hu2 & Hr).
  destruct r as [u|e].
  - apply emits_io_bind. intros stop. apply emits_ret. rewrite app_nil_r.
    split; [done|]. split; [repeat apply Forall_app_2; [done|done|by repeat constructor]|]. split.
    + destruct Hr as [Hr|[(e & [=] & _)|[_ Hr]]].
      * left. repeat apply Forall_app_2; [done|done|]. by constructor; [apply same_identity_other|].
      * destruct stop; [by right; right; left|]. right; right; right.
        apply list_elem_of_split in Hr as (a & b & ->). exists (tr1 ++ a), b, [].
        by rewrite <- !app_assoc.
    + destruct stop; [|done]. intros _. set_solver.
  - apply emits_ret. rewrite app_nil_r. split; [done|]. split; [by apply Forall_app|]. split; [|done].
    destruct Hr as [Hr|[(e' & [= <-] & ?)|[[=] _]]]; [left; by apply Forall_app|right; left; by exists e].
Qed.
End Laws.

(** ** What a phone in version mode does, for as long as it runs *)

Section VersionLoop.
Context `{PT : ProxyTexts} `{JT : JobTexts} `{LT : LaunchTexts} `{RT : RuntimeTypes} `{!ReleaseTypes} `{!VersionTexts}.
Context {W : Type} `{MC : MgmtClient W} `{DC : DeviceControl W} `{PH : ProxyHost W} `{BU : Bucket W}
  `{RS : ReleaseStore W} `{BS : BuildStore W}.
Notation TW := (W * list Event)%type.

#[export] Instance version_mode_lawful (c : Claimant) (max_pages : nat) :
  BuildsLaws (version_mode (W := TW) c max_pages) (client_id (phone_config c)) stop_taken_back.
Proof.
  split.
  - intros tr1 tr tr2 (a & b & d & ->). exists (tr1 ++ a), b, (d ++ tr2).
    by rewrite <- !app_assoc, <- app_comm_cons, <- app_assoc, <- app_comm_cons.
  - done.
  - intros fuel s. apply prepare_releases_emits.
  - intros s. eapply emits_weaken; [apply refresh_tame|]. cbv beta. intros r s' tr [Hs Hin].
    split; [done|]. eapply Forall_impl; [exact Hin|]. apply in_job_lawful.
  - intros job s. eapply emits_weaken; [apply execute_version_told|]. cbv beta. intros r s' tr Hr. exact Hr.
  - intros s. unfold pace_claims, version_mode, pace. apply emits_get_bind.
    destruct (release_backoff _) as [wait|]; [|by apply emits_ret].
    eapply emits_bind; [apply (sleep_inside c)|]. cbv beta. intros slept s1 tr1 [-> Hin]. apply emits_ret.
    rewrite app_nil_r. split; [done|]. exact Hin.
Qed.

(** One phone's thread over a traced world. *)
Definition version_thread (c : Claimant) (max_pages fuel passes : nat) :
    prog Device TW (option (result unit Error * Tally)) :=
  run_device (B := version_mode c max_pages) c fuel passes.

(** C6: Version mode keeps the claim loop's promises. Whatever the server, the bucket, the phone
    and the clock answer, after any number of passes and restarts: a claim comes at once after a
    probe that found the phone able to run a job, and for the iOS version the server was last
    told of; no more jobs than [max_jobs] are claimed; and once the phone has named another
    client as its own nothing claims for it again, unless a stop that was raised is taken back. *)
Theorem version_mode_claims_lawfully (c : Claimant) (max_pages fuel passes : nat) (s : Device) (w : W) :
  exists r s' w' tr,
    version_thread c max_pages fuel passes (s, (w, [])) = (r, (s', (w', tr))) /\
    (forall tr1 answer tr2, tr = tr1 ++ EClaim answer :: tr2 ->
      exists tr0 version, tr1 = tr0 ++ [EReach (Reachable version)] /\
        (is_Some (trimmed version) -> reported_os None tr1 = trimmed version)) /\
    (0 < max_jobs (loop_config c) <= u32_max -> jobs tr <= max_jobs (loop_config c)) /\
    (~ stop_taken_back tr ->
      forall tr1 e tr2, tr = tr1 ++ e :: tr2 -> names_another (client_id (phone_config c)) e ->
        forall answer, EClaim answer ∉ tr2).
Proof.
  destruct (run_device_emits (B := version_mode c max_pages) c stop_taken_back fuel passes s None w [])
    as (r & s' & w' & tr & E & (Hc & Hh & Hn & _) & _).
  exists r, s', w', tr. split; [exact E|]. split; [done|]. split.
  - intros Hb. specialize (Hn Hb). cbn [attempted no_jobs] in Hn.
    destruct r as [[r t]|]; specialize (Hn ltac:(lia)); lia.
  - intros Hstop tr1 e tr2 Etr He.
    apply (halted_claims (client_id (phone_config c)) tr tr1 e tr2); [|done|done].
    destruct Hh as [[Hh|Hh]|[_ Hh]]; [by left|done|by right].
Qed.
End VersionLoop.

(** ** When a job is failed for good *)

Section NoBuild.
Context `{RT : RuntimeTypes} `{!ReleaseTypes} `{!VersionTexts} `{LT : LaunchTexts}.

Lemma carried_by_none admitted runtime builds carried l b :
  carried_by admitted runtime builds carried = Some l -> b ∈ builds ->
  exists named, named_runtimes b = Some named /\ runtime ∉ named.
Proof.
  revert carried. induction builds as [|b' builds IH]; intros carried Hl Hb; [by apply elem_of_nil in Hb|].
  cbn [carried_by] in Hl. destruct (named_runtimes b') as [named|] eqn:En; [|done]. cbn [mbind option_bind] in Hl.
  case_bool_decide; [done|]. apply elem_of_cons in Hb as [->|Hb]; [by exists named|by eapply IH].
Qed.

(** Enough builds, each of its own version, are admitted: so each admitted version is a build's. *)
Lemma admitted_listed (builds : list Build) (asked : list str) v :
  NoDup (map version builds) -> (length asked <= length (List.filter (admits (Some asked)) builds))%nat ->
  v ∈ asked -> exists b, b ∈ builds /\ version b = v.
Proof.
  intros Hn Hl Hv. set (kept := List.filter (admits (Some asked)) builds) in *.
  assert (kept ⊆ builds) as Hsub by (intros b Hb; apply list_elem_of_In, filter_In in Hb as [? _]; by apply list_elem_of_In).
  assert (map version kept ⊆ asked) as Hin.
  { intros x (b & -> & Hb)%list_elem_of_fmap. apply list_elem_of_In, filter_In in Hb as [_ Ha]. cbn in Ha.
    apply existsb_exists in Ha as (y & Hy & Ey%str_eqb_eq). rewrite Ey. by apply list_elem_of_In. }
  assert (NoDup (map version kept)) as Hnk.
  { clear -Hn. unfold kept. induction builds as [|b builds IH]; [constructor|]. cbn in *.
    apply NoDup_cons in Hn as [Hb Hn]. destruct (existsb _ _); [|by apply IH]. cbn. constructor; [|by apply IH].
    intros (b' & E & Hb')%list_elem_of_fmap. apply Hb. rewrite E. apply list_elem_of_fmap. exists b'. split; [done|].
    apply list_elem_of_In, filter_In in Hb' as [? _]. by apply list_elem_of_In. }
  pose proof (NoDup_submseteq _ _ Hnk Hin) as Hs.
  assert (map version kept ≡ₚ asked) as Hp.
  { apply submseteq_length_Permutation; [done|]. by rewrite length_map. }
  rewrite <- Hp in Hv. apply list_elem_of_fmap in Hv as (b & -> & Hb). exists b. split; [by apply Hsub|done].
Qed.

Lemma carried_instead_spec ct asked runtime l :
  carried_instead ct asked runtime = Some l ->
  cat_whole ct = true /\ asked <> [] /\
  (length asked <= length (List.filter (admits (Some asked)) (listed ct)))%nat /\
  forall b, b ∈ listed ct -> exists named, named_runtimes b = Some named /\ runtime ∉ named.
Proof.
  unfold carried_instead. destruct (negb (cat_whole ct)) eqn:Ew; [done|]. cbn [orb].
  case_bool_decide as Ea; [done|]. cbn [orb]. destruct (Nat.ltb_spec (length (List.filter (admits (Some asked)) (listed ct))) (length asked)); [done|].
  intros Hl. apply negb_false_iff in Ew. split_and!; [done|done|done|]. intros b. by eapply carried_by_none.
Qed.

Lemma no_choice_shown ct admitted plan fresh why :
  retriable (jf_cause (no_choice ct admitted plan fresh why)) = false ->
  fresh = true /\ exists asked l, admitted = Some asked /\ carried_instead ct asked (plan_runtime plan) = Some l.
Proof.
  unfold no_choice. destruct why as [|offered]; [done|]. destruct fresh; [|done].
  destruct admitted as [asked|]; [|done]. cbn [mbind option_bind].
  destruct (carried_instead ct asked (plan_runtime plan)) as [l|] eqn:E; [|done]. intros _. split; [done|]. by exists asked, l.
Qed.
Context {St W : Type} `{PH : ProxyHost W} `{BU : Bucket W} `{RS : ReleaseStore W}.

(** The world a listing of the catalog reads the bucket in. *)
Definition listing_world (w : W) : W := (load_records (instant w).2).2.

Lemma partition_perm {A} (p : A -> bool) l : List.filter (fun x => negb (p x)) l ++ List.filter p l ≡ₚ l.
Proof.
  induction l as [|x l IH]; [done|]. cbn. destruct (p x); cbn [negb].
  - by rewrite <- Permutation_middle, IH.
  - cbn. by rewrite IH.
Qed.

(** A listing that succeeded: what it lists is what the bucket's listing names. *)
Lemma list_catalog_lists max_pages reach ct ct' (s : St) w st :
  list_catalog max_pages reach ct (s, w) = ((Ok tt, ct'), st) ->
  exists l, (list_newest max_pages ADVERTISED_BUILDS (cat_default ct) reach (s, listing_world w)).1 = Ok l /\
    listed ct' ≡ₚ newest l ++ older l /\ cat_whole ct' = whole l /\ cat_default ct' = cat_default ct.
Proof.
  unfold list_catalog, listing_world, bind, io, ret. cbn [fst snd]. destruct (instant w) as [now w1]. cbn [fst snd].
  destruct (load_records w1) as [[records|e] w2]; cbn [snd]; [|done].
  change (cat_default (with_listed_at now ct)) with (cat_default ct).
  destruct (list_newest _ _ _ _ (s, w2)) as [[l|e] st1]; [|done].
  destruct (List.filter _ (newest l)) as [|b builds] eqn:Eb; [done|]. intros [= <- _]. exists l.
  split_and!; [done| |done|done]. unfold listed. cbn [cat_builds cat_changed cat_older].
  rewrite <- Eb, app_assoc. by rewrite (partition_perm (is_changed records)).
Qed.
End NoBuild.

Section Shown.
Context `{PT : ProxyTexts} `{JT : JobTexts} `{LT : LaunchTexts} `{RT : RuntimeTypes} `{!ReleaseTypes} `{!VersionTexts}.
Context {W : Type} `{PH : ProxyHost W} `{BU : Bucket W} `{RS : ReleaseStore W}.

Lemma list_again_run max_pages reach (s : Device) (w : W) r s' w' :
  list_again max_pages reach (s, w) = (r, (s', w')) ->
  exists st, list_catalog max_pages reach (catalog (dev_releases s)) (s, w) = ((r, catalog (dev_releases s')), st).
Proof.
  unfold list_again, bind, get_state, set_state, ret. cbn [fst snd].
  destruct (list_catalog _ _ _ (s, w)) as [[r1 ct1] st]. cbn [fst snd]. intros [= <- <- _]. by exists st.
Qed.

(** What a claim's [client_versions] and the bucket's listing show when no phone can run a job. *)
Definition nowhere (max_pages : nat) (admitted : option (list str)) (runtime : Runtime) (s : Device) (w : W)
    (ct : Catalog) : Prop :=
  exists asked objects st,
    admitted = Some asked /\ asked <> [] /\
    list_objects max_pages (s, listing_world w) = (Some (Ok objects), st) /\
    (forall o, o ∈ objects -> looks_like_archive (object_key o) = true ->
       exists b, b ∈ listed ct /\ key b = object_key o) /\
    (forall b, b ∈ listed ct -> exists named, named_runtimes b = Some named /\ runtime ∉ named) /\
    (forall v, v ∈ asked -> exists b, b ∈ listed ct /\ version b = v).

Lemma choose_build_shows max_pages admitted plan (s : Device) (w : W) f s' w' :
  choose_build max_pages admitted plan (s, w) = (Err f, (s', w')) -> retriable (jf_cause f) = false ->
  nowhere max_pages admitted (plan_runtime plan) s w (catalog (dev_releases s')).
Proof.
  unfold choose_build. cbv zeta. unfold bind at 1, get_state at 1.
  cbn [fst snd]. destruct (choose _ _ _) as [choice|[|offered]]; [by intros [=]|by intros [= <- _ _]|].
  unfold bind at 1. destruct (list_again max_pages Whole (s, w)) as [r [s1 w1]] eqn:El.
  unfold bind, get_state, ret. cbn [fst snd].
  destruct (choose (catalog (dev_releases s1)) admitted _) as [choice|why]; [by intros [=]|].
  intros [= <- <- _] [Hfresh (asked & l & -> & Hc)]%no_choice_shown. destruct r as [[]|e]; [|done].
  apply list_again_run in El as [st El]. apply list_catalog_lists in El as (ls & Els & Hperm & Hw & _).
  apply carried_instead_spec in Hc as (Hwhole & Hne & Hlen & Hnone).
  pose proof (list_newest_covers max_pages ADVERTISED_BUILDS (cat_default (catalog (dev_releases s))) Whole s (listing_world w)) as Hcov.
  rewrite Els in Hcov. destruct Hcov as (Hnd & objects & st' & Ho & Hall).
  exists asked, objects, st'. split_and!; [done|done|done| |done|].
  - intros o Hin Hlook. destruct (Hall ltac:(congruence) o Hin Hlook) as (b & Hb & Hk). exists b. by rewrite Hperm.
  - intros v. apply admitted_listed; [|done]. by rewrite Hperm.
Qed.

(** *** Every other failure before the run can be retried after *)

Definition yields {S T} (P : T -> Prop) (m : prog S W T) : Prop := forall st, P (m st).1.

Lemma yields_ret {S T} (P : T -> Prop) (t : T) : P t -> yields (S := S) P (ret t).
Proof. by intros HP st. Qed.

Lemma yields_bind {S T U} (P : U -> Prop) (m : prog S W T) k :
  (forall t, yields P (k t)) -> yields P (bind m k).
Proof. intros Hk st. unfold bind. destruct (m st) as [t st']. apply Hk. Qed.

Definition spared {T} (r : result T Failed) : Prop :=
  match r with Ok _ => True | Err f => retriable (failed_cause f) = true end.

Lemma yields_spared_try {S T U} (m : prog S W (result T Failed)) (k : T -> prog S W (result U Failed)) :
  yields spared m -> (forall t, yields spared (k t)) -> yields spared (try_bind m k).
Proof.
  intros Hm Hk st. unfold try_bind, bind. specialize (Hm st). destruct (m st) as [[t|e] st']; [apply Hk|exact Hm].
Qed.

Lemma spared_unready {T} (r : result T UnreadyError) : spared (map_err failed_unready r).
Proof. destruct r as [t|[[] e]]; done. Qed.

Lemma failure_cause_device e : retriable (failure_cause e DevicectlFailure) = true.
Proof. unfold failure_cause. by destruct (existsb _ _). Qed.

Lemma spared_device {T} (r : result T Error) : spared (map_err failed_device r).
Proof. destruct r as [t|e]; [done|apply failure_cause_device]. Qed.

Lemma spared_identity {T} (r : result T Error) : spared (map_err failed_identity r).
Proof.
  destruct r as [t|e]; [done|]. cbn. unfold failed_identity. destruct (replaced_identity e); [done|].
  apply failure_cause_device.
Qed.

Lemma spared_device_reported {T} e : spared (T := T) (Err (after_report (failed_device e))).
Proof. apply failure_cause_device. Qed.

Lemma spared_transient {T} (r : result T Error) : spared (map_err transient r).
Proof. by destruct r. Qed.

Lemma spared_transient_reported {T} (r : result T Error) : spared (map_err (fun e => after_report (transient e)) r).
Proof. by destruct r. Qed.

Lemma spared_reported {T} (r : result T Failed) : spared r -> spared (map_err after_report r).
Proof. by destruct r. Qed.
End Shown.

Create HintDb spared.
#[export] Hint Resolve spared_unready spared_device spared_identity spared_transient spared_device_reported
  spared_transient_reported : spared.

Ltac spared :=
  repeat first
    [ apply yields_spared_try; [|intros ?]
    | apply yields_ret; solve [auto with spared | done]
    | apply yields_bind; intros ?
    | progress cbv zeta
    | case_match ].

Section Spared.
Context `{PT : ProxyTexts} `{JT : JobTexts} `{LT : LaunchTexts} `{RT : RuntimeTypes} `{!ReleaseTypes} `{!VersionTexts}.
Context {W : Type} `{MC : MgmtClient W} `{DC : DeviceControl W} `{PH : ProxyHost W} `{BU : Bucket W}
  `{RS : ReleaseStore W} `{BS : BuildStore W}.
Context (c : Claimant) (max_pages : nat).

Lemma running_version_spared : yields spared (running_version (W := W) c).
Proof. unfold running_version. spared. Qed.

Lemma check_runtimes_spared b : yields spared (check_runtimes (W := W) c b).
Proof. unfold check_runtimes. spared. Qed.

Lemma trust_running_spared b : yields spared (trust_running (W := W) c b).
Proof. unfold trust_running. spared. Qed.

Lemma check_installed_spared b staged : yields spared (check_installed (W := W) c b staged).
Proof. unfold check_installed. spared. Qed.

Lemma install_spared stopping b : yields spared (install (W := W) c stopping b).
Proof. unfold install, install_staged. spared. Qed.

Lemma make_ready_spared stopping b : yields spared (make_ready (W := W) c stopping b).
Proof.
  unfold make_ready. intros st. pose proof (running_version_spared st) as Hr. unfold bind.
  destruct (running_version c st) as [[running|f] st1]; [|exact Hr]. case_bool_decide; [|apply install_spared].
  pose proof (trust_running_spared b st1) as Ht. destruct (trust_running c b st1) as [r st2].
  by apply spared_reported.
Qed.

Lemma unready_cause b f (s : Device) (w : W) :
  exists failure, report (unready b f (s, w)).1 = Ok failure /\ jf_cause failure = failed_cause f.
Proof.
  unfold unready. cbv zeta. set (failure := on_build _ _ _). unfold bind. destruct (failed_fault f); unfold ret; cbn;
    by exists failure.
Qed.

End Spared.
