(* ===== verification/ProxyState.v ===== *)
(** * The state directory ([src/tools/pipette-ios-proxy/src/state.rs])

    Where the proxy keeps what outlives it: one directory per phone, the pulled and the
    signed builds, and documents stamped with a schema. Several processes share it, so it is
    a state [Disk] with the operations the proxy asks of it, one atomic step each ([Script]):
    locks that the kernel drops when their holder dies, documents replaced whole, and
    directory trees whose removal takes more than one step. *)

From Stdlib Require Import ZArith Lia String.
From stdpp Require Import countable prelude list fin_maps gmap.
From S2P Require Import Prelude Str Timing Json ProxyBase ProxyReleases Script.

Local Open Scope Z_scope.
Local Open Scope script_scope.

(** ** Where things are *)

Definition STATE_DIR_NAME : str := lit "pipette-ios-proxy".

Definition is_alphanumeric (c : Z) : bool := is_lower c || is_upper c || is_digit c.

(** One path segment: [[A-Za-z0-9._-]] kept, a leading dot escaped, never empty. *)
Definition sanitize_path_segment (raw : str) : str :=
  let out := map (fun c => if is_alphanumeric c || is_mark c then c else 95) raw in
  let out := if starts_with out [46] then 95 :: out else out in
  match out with [] => [95] | _ => out end.

(** [Path::join] of one segment. *)
Definition join_path (dir name : str) : str := dir ++ [47] ++ name.

(** [$XDG_STATE_HOME], else [$HOME/.local/state]; set but empty counts as unset. *)
Definition state_home (xdg_state_home home : option str) : result str Error :=
  match xdg_state_home ≫= non_empty with
  | Some raw => Ok raw
  | None =>
      match home ≫= non_empty with
      | Some home => Ok (join_path (join_path home (lit ".local")) (lit "state"))
      | None => Err (bail (lit "neither $XDG_STATE_HOME nor $HOME is set, so there is nowhere to keep state: pass --state-dir"))
      end
  end.

Record StatePaths := { state_root : str; build_index : str }.

Definition resolve (override_dir xdg_state_home home : option str) : result StatePaths Error :=
  let at_root root := {| state_root := root; build_index := join_path root (lit "builds.json") |} in
  match override_dir with
  | Some dir => Ok (at_root dir)
  | None =>
      match state_home xdg_state_home home with
      | Ok home => Ok (at_root (join_path home STATE_DIR_NAME))
      | Err e => Err e
      end
  end.

Record DevicePaths := {
  device_dir : str;
  installed_path : str;
  device_facts_path : str;
  device_lock : str;
  staged_path : str;
}.

Definition in_dir (dir : str) : DevicePaths :=
  {| device_dir := dir;
     installed_path := join_path dir (lit "installed.json");
     device_facts_path := join_path dir (lit "device.json");
     device_lock := join_path dir (lit "lock");
     staged_path := join_path dir (lit "staged") |}.

(** [StatePaths::device]. *)
Definition device (s : StatePaths) (udid : str) : DevicePaths :=
  in_dir (join_path (state_root s) (sanitize_path_segment udid)).

(** ** Documents *)

Definition SCHEMA : Z := 1.

(** What reading a document met: no file, a failed read, a text that is no JSON, or a value. *)
Inductive DocRead := NoFile | ReadFails (why : Error) | NotJson (why : Error) | ReadValue (v : Value).

(** [Head]: a missing schema is 0. *)
Definition head_schema (v : Value) : option Z :=
  match v with
  | Json.Object fields =>
      match assoc (lit "schema") fields with
      | None => Some 0
      | Some (Number (PosInt n)) => if n <=? u32_max then Some n else None
      | Some _ => None
      end
  | _ => None
  end.

Definition schema_too_new (found : Z) : Error :=
  bail (lit "written by a newer pipette-ios-proxy (schema " ++ show_uint found ++
    lit "; this binary reads up to " ++ show_uint SCHEMA ++
    lit "). Upgrade the binary, or delete the file to have it rewritten").

Definition bad_document : Error := bail (lit "the document is not what this binary writes").

(** The schema is checked before the body. *)
Definition load_json {T} (decode : Value -> option T) (what : str) (r : DocRead) : result (option T) Error :=
  match r with
  | NoFile => Ok None
  | ReadFails e => Err (with_context (lit "reading " ++ what) e)
  | NotJson e => Err (with_context (lit "reading the schema of " ++ what) e)
  | ReadValue v =>
      match head_schema v with
      | None => Err (with_context (lit "reading the schema of " ++ what) bad_document)
      | Some found =>
          if SCHEMA <? found then Err (schema_too_new found)
          else
            match decode v with
            | Some t => Ok (Some t)
            | None => Err (with_context (lit "reading " ++ what) bad_document)
            end
      end
  end.

(** [Stamped]: what [store_json] writes. *)
Definition stamped (body : list (str * Value)) : Value :=
  Json.Object ((lit "schema", Number (PosInt SCHEMA)) :: body).

(** An optional field of a document: absent and null are [None]. *)
Definition optional {T} (read : Value -> option T) (key : str) (v : Value) : option (option T) :=
  match get key v with
  | None | Some Null => Some None
  | Some v => Some <$> read v
  end.

Definition field_of {T} (write : T -> Value) (key : str) (o : option T) : list (str * Value) :=
  match o with Some t => [(key, write t)] | None => [] end.

Definition whole_number (v : Value) : option Z :=
  n ← as_u64 v; if (0 <=? n) && (n <=? u64_max) then Some n else None.

Definition installed_of_value (v : Value) : option InstalledBuild :=
  path ← optional as_str (lit "path") v;
  version ← optional as_str (lit "version") v;
  Some {| build_path := path; ProxyBase.build_version := version |}.

Definition installed_to_value (b : InstalledBuild) : Value :=
  stamped (field_of String (lit "path") (build_path b) ++
           field_of String (lit "version") (ProxyBase.build_version b)).

Definition facts_of_value (v : Value) : option DeviceFacts :=
  name ← optional as_str (lit "name") v;
  chip ← optional as_str (lit "chip_model") v;
  ram ← optional whole_number (lit "ram_bytes") v;
  Some {| fact_name := name; fact_chip_model := chip; fact_ram_bytes := ram |}.

Definition facts_to_value (f : DeviceFacts) : Value :=
  stamped (field_of String (lit "name") (fact_name f) ++
           field_of String (lit "chip_model") (fact_chip_model f) ++
           field_of (fun n => Number (PosInt n)) (lit "ram_bytes") (fact_ram_bytes f)).

(** [InstalledBuild::load], [DeviceFacts::load]. *)
Definition load_installed_document (r : DocRead) : result InstalledBuild Error :=
  match load_json installed_of_value (lit "the installed build") r with
  | Ok b => Ok (default unknown_build b)
  | Err e => Err e
  end.

Definition load_facts_document (r : DocRead) : result (option DeviceFacts) Error :=
  load_json facts_of_value (lit "the device facts") r.

Lemma installed_comes_back b : load_installed_document (ReadValue (installed_to_value b)) = Ok b.
Proof. by destruct b as [[path|] [version|]]. Qed.

Lemma facts_come_back f :
  (forall n, fact_ram_bytes f = Some n -> in_range u64_max n) ->
  load_facts_document (ReadValue (facts_to_value f)) = Ok (Some f).
Proof.
  intros Hn. assert (Hf : facts_of_value (facts_to_value f) = Some f).
  2: { unfold load_facts_document, load_json. by rewrite Hf. }
  unfold facts_of_value.
  assert (optional as_str (lit "name") (facts_to_value f) = Some (fact_name f)) as -> by by destruct f as [[] [] []].
  assert (optional as_str (lit "chip_model") (facts_to_value f) = Some (fact_chip_model f)) as -> by by destruct f as [[] [] []].
  assert (optional whole_number (lit "ram_bytes") (facts_to_value f) =
    match fact_ram_bytes f with Some n => Some <$> whole_number (Number (PosInt n)) | None => Some None end) as ->
    by by destruct f as [[] [] []].
  cbn [mbind option_bind]. destruct f as [name chip [ram|]]; cbn [fact_name fact_chip_model fact_ram_bytes] in *; [|done].
  destruct (Hn ram eq_refl) as [Hlo Hhi]. unfold whole_number. cbn [as_u64 mbind option_bind].
  by rewrite (proj2 (Z.leb_le 0 ram) Hlo), (proj2 (Z.leb_le ram u64_max) Hhi).
Qed.

(** A newer document is refused whatever it holds. *)
Lemma newer_schema_refused {T} (decode : Value -> option T) what v found :
  head_schema v = Some found -> SCHEMA < found -> load_json decode what (ReadValue v) = Err (schema_too_new found).
Proof. intros Hh Hf. unfold load_json. rewrite Hh. by rewrite (proj2 (Z.ltb_lt _ _) Hf). Qed.

(** ** Segments *)

Definition segment_char (c : Z) : bool := is_alphanumeric c || is_mark c.

(** One directory below the root, and never a hidden one: no slash, no leading dot, not
    empty; a name that is one already stays. *)
Lemma sanitized_is_a_segment raw :
  let name := sanitize_path_segment raw in
  name <> [] /\ Forall (fun c => segment_char c = true) name /\ 47 ∉ name /\ starts_with name [46] = false /\
  sanitize_path_segment name = name.
Proof.
  set (fix_char := fun c => if is_alphanumeric c || is_mark c then c else 95).
  assert (Hshape : let name := sanitize_path_segment raw in
    name <> [] /\ Forall (fun c => segment_char c = true) name /\ starts_with name [46] = false).
  { unfold sanitize_path_segment. fold fix_char. assert (Hall : Forall (fun c => segment_char c = true) (map fix_char raw)).
    { apply Forall_forall. intros c Hc%list_elem_of_In%List.in_map_iff. destruct Hc as (x & <- & _).
      unfold fix_char, segment_char. by destruct (is_alphanumeric x || is_mark x) eqn:E. }
    destruct (starts_with (map fix_char raw) [46]) eqn:E; [split_and!; [done|by constructor|done]|].
    destruct (map fix_char raw) as [|c l]; [split_and!; [done|by repeat constructor|done]|done]. }
  cbv zeta in *. destruct Hshape as (Hne & Hall & Hdot). set (name := sanitize_path_segment raw) in *.
  split_and!; [done|done| |done|].
  - intros Hin. rewrite Forall_forall in Hall. by specialize (Hall _ Hin).
  - unfold sanitize_path_segment. fold fix_char. assert (Hid : map fix_char name = name).
    { clear -Hall. induction Hall as [|c l Hc _ IH]; [done|]. cbn [map]. rewrite IH. unfold fix_char, segment_char in *. by rewrite Hc. }
    rewrite Hid, Hdot. by destruct name.
Qed.

(** ** What the directory holds *)

Inductive LockPath := ReleasesLock | SignedLock | PhoneLock (phone : str).

Inductive DocPath := RecordsDoc | InstalledDoc (phone : str).

#[export] Instance LockPath_eq_dec : EqDecision LockPath.
Proof. solve_decision. Defined.

#[export] Instance LockPath_countable : Countable LockPath.
Proof.
  refine (inj_countable' (fun l => match l with ReleasesLock => inl false | SignedLock => inl true | PhoneLock d => inr d end)
    (fun x => match x with inl false => ReleasesLock | inl true => SignedLock | inr d => PhoneLock d end) _).
  by intros [].
Defined.

#[export] Instance DocPath_eq_dec : EqDecision DocPath.
Proof. solve_decision. Defined.

#[export] Instance DocPath_countable : Countable DocPath.
Proof.
  refine (inj_countable' (fun l => match l with RecordsDoc => None | InstalledDoc d => Some d end)
    (fun x => match x with None => RecordsDoc | Some d => InstalledDoc d end) _).
  by intros [].
Defined.

(** Who holds a lock file, and the pid last written into it. *)
Record LockFile := { lock_holder : option nat; pid_note : str }.

Inductive DocFile := OtherText | Written (v : Value).

Inductive Tree :=
| File (content : list Z)
| Dir (children : list (str * Tree)).

(** [releases/] and [signed/]; a place is an entry of one of them, or something inside. *)
Inductive Area := InReleases | InSigned.

#[export] Instance Area_eq_dec : EqDecision Area.
Proof. solve_decision. Defined.

Definition Place : Type := Area * list str.

(** [torn] is no file: the entries of [releases/] whose removal has begun and has not ended. *)
Record Disk := {
  locks : gmap LockPath LockFile;
  docs : gmap DocPath DocFile;
  releases_dir : option (gmap str Tree);
  signed_dir : option (gmap str Tree);
  clock : Z;
  torn : gset str;
}.

Definition is_dir (t : Tree) : bool := match t with Dir _ => true | File _ => false end.

Definition children (t : Tree) : list (str * Tree) := match t with Dir c => c | File _ => [] end.

Definition area (d : Disk) (a : Area) : option (gmap str Tree) :=
  match a with InReleases => releases_dir d | InSigned => signed_dir d end.

Definition entries (d : Disk) (a : Area) : gmap str Tree := default ∅ (area d a).

Definition set_area (a : Area) (m : gmap str Tree) (d : Disk) : Disk :=
  {| locks := locks d; docs := docs d;
     releases_dir := match a with InReleases => Some m | InSigned => releases_dir d end;
     signed_dir := match a with InReleases => signed_dir d | InSigned => Some m end;
     clock := clock d; torn := torn d |}.

Definition set_lock (l : LockPath) (f : LockFile) (d : Disk) : Disk :=
  {| locks := <[l := f]> (locks d); docs := docs d; releases_dir := releases_dir d;
     signed_dir := signed_dir d; clock := clock d; torn := torn d |}.

Definition set_doc (f : DocPath) (x : DocFile) (d : Disk) : Disk :=
  {| locks := locks d; docs := <[f := x]> (docs d); releases_dir := releases_dir d;
     signed_dir := signed_dir d; clock := clock d; torn := torn d |}.

Definition set_clock (t : Z) (d : Disk) : Disk :=
  {| locks := locks d; docs := docs d; releases_dir := releases_dir d;
     signed_dir := signed_dir d; clock := t; torn := torn d |}.

Definition set_torn (s : gset str) (d : Disk) : Disk :=
  {| locks := locks d; docs := docs d; releases_dir := releases_dir d;
     signed_dir := signed_dir d; clock := clock d; torn := s |}.

(** *** Trees *)

Fixpoint tree_at (sub : list str) (t : Tree) : option Tree :=
  match sub with
  | [] => Some t
  | n :: sub => assoc n (children t) ≫= tree_at sub
  end.

Fixpoint tree_put (sub : list str) (new t : Tree) : Tree :=
  match sub with
  | [] => new
  | n :: sub => Dir (assoc_insert n (tree_put sub new (default (Dir []) (assoc n (children t)))) (children t))
  end.

Fixpoint assoc_remove {A} (k : str) (l : list (str * A)) : list (str * A) :=
  match l with
  | [] => []
  | (k', v) :: l => if str_eqb k k' then assoc_remove k l else (k', v) :: assoc_remove k l
  end.

Fixpoint tree_drop (n : str) (sub : list str) (t : Tree) : Tree :=
  match sub with
  | [] => Dir (assoc_remove n (children t))
  | n' :: sub => Dir (assoc_insert n (tree_drop n' sub (default (Dir []) (assoc n (children t)))) (children t))
  end.

Definition look (d : Disk) (p : Place) : option Tree :=
  match p.2 with
  | [] => None
  | n :: sub => entries d p.1 !! n ≫= tree_at sub
  end.

Definition put (p : Place) (new : Tree) (d : Disk) : Disk :=
  match p.2 with
  | [] => d
  | n :: sub => set_area p.1 (<[n := tree_put sub new (default (Dir []) (entries d p.1 !! n))]> (entries d p.1)) d
  end.

Definition cut (p : Place) (d : Disk) : Disk :=
  match p.2 with
  | [] => d
  | [n] => set_area p.1 (delete n (entries d p.1)) d
  | n :: n' :: sub =>
      match entries d p.1 !! n with
      | Some t => set_area p.1 (<[n := tree_drop n' sub t]> (entries d p.1)) d
      | None => d
      end
  end.

(** The name a place has in [releases/], when it is an entry of it. *)
Definition top_level (p : Place) : gset str :=
  match p with (InReleases, [n]) => {[n]} | _ => ∅ end.

Definition begin_removal (p : Place) (d : Disk) : Disk := set_torn (torn d ∪ top_level p) d.
Definition end_removal (p : Place) (d : Disk) : Disk := set_torn (torn d ∖ top_level p) d.

(** ** Operations

    What a process asks of the directory, of the bucket and of the clock, one step each.
    Whatever may fail may fail at any time; what the bucket publishes may be anything. *)

(** [Holder]: the pid its lock file names. *)
Definition Holder : Type := option str.

Definition holder_text (h : Holder) : str :=
  match h with Some pid => lit "pid " ++ pid | None => lit "an unknown process" end.

Record IoError := { not_found : bool; io_text : str }.

Definition io_error (e : IoError) : Error := bail (io_text e).

Definition missing : IoError := {| not_found := true; io_text := lit "No such file or directory" |}.

(** [ditto] did not run, or ran and refused. *)
Inductive DittoError := NotRun (why : Error) | Refused (detail : str).

Inductive DiskE : Type -> Type :=
| TryLock (l : LockPath) : DiskE (result (result unit Holder) Error)
| Unlock (l : LockPath) : DiskE unit
| Raised : DiskE bool
| Now : DiskE Z
| Nap (ns : Z) : DiskE unit
| Phones : DiskE (result (list str) Error)
| LoadDoc (f : DocPath) : DiskE DocRead
| StoreDoc (f : DocPath) (v : Value) : DiskE (result unit Error)
| FindBuild (v : str) : DiskE (result (option Build) Error)
| CatalogVersions : DiskE (result (list str) Error)
| CreateDirAll (a : Area) : DiskE (result unit Error)
| IsDir (p : Place) : DiskE bool
| ReadDir (p : Place) : DiskE (result (list (str * bool)) IoError)
| MakeScratch : DiskE (result str Error)
| Rename (from to : Place) : DiskE (result unit IoError)
| CreateFile (p : Place) : DiskE (result unit Error)
| GetObject (key : str) : DiskE (list (list Z) * option Error)
| AppendFile (p : Place) (bytes : list Z) : DiskE (result unit Error)
| Ditto (zip into : Place) : DiskE (result unit DittoError)
| Shred (p : Place) : DiskE unit
| RemoveRest (p : Place) : DiskE (result unit Error)
| PrintLine (line : Place) : DiskE (result unit Error).

(** What the outside world decides of one operation. *)
Inductive Choice :=
| Fine
| Broken (why : str)
| Named (name : str)
| Later (ns : Z)
| Signalled
| Replied (r : result (option Build) Error)
| Sent (body : list (list Z)) (ended : option Error)
| Published (r : result (list str) Error)
| Left (t : Tree).

(** What a name in [releases/] begins with that no version takes. *)
Definition PARTIAL_PREFIX : str := lit ".partial-".

(** [ditto -x -k] and the hash. *)
Class Archiver := {
  unzip : list Z -> option Tree;
  sha256_of : list Z -> str;
}.

Section Operations.

(** [StateLock::try_acquire]. The pid is written at best. *)
Definition try_lock (p : nat) (l : LockPath) (c : Choice) (d : Disk) : result (result unit Holder) Error * Disk :=
  match c with
  | Broken why => (Err (bail why), d)
  | _ =>
      let file := default {| lock_holder := None; pid_note := [] |} (locks d !! l) in
      match lock_holder file with
      | Some _ => (Ok (Err (non_empty (trim (pid_note file)))), d)
      | None =>
          let note := match c with Named note => note | _ => show_uint (Z.of_nat p) ++ [10] end in
          (Ok (Ok tt), set_lock l {| lock_holder := Some p; pid_note := note |} d)
      end
  end.

(** Dropping a lock, or dying with it. *)
Definition unlocked (p : nat) (f : LockFile) : LockFile :=
  if bool_decide (lock_holder f = Some p) then {| lock_holder := None; pid_note := pid_note f |} else f.

Definition unlock (p : nat) (l : LockPath) (d : Disk) : Disk :=
  match locks d !! l with Some f => set_lock l (unlocked p f) d | None => d end.

Definition release_all (p : nat) (d : Disk) : Disk :=
  {| locks := unlocked p <$> locks d; docs := docs d; releases_dir := releases_dir d;
     signed_dir := signed_dir d; clock := clock d; torn := torn d |}.

Definition holds_none (p : nat) (d : Disk) : bool :=
  bool_decide (map_Forall (fun _ f => lock_holder f <> Some p) (locks d)).

(** [StatePaths::phones]: the directories that hold a lock file, sorted. *)
Definition phone_of (l : LockPath) : option str :=
  match l with PhoneLock phone => Some phone | ReleasesLock | SignedLock => None end.

Definition phones (d : Disk) : list str :=
  sort_stable str_leb (omap phone_of (map_to_list (locks d)).*1).

(** [fs::read_to_string] and the parse of its text. *)
Definition read_document (f : DocPath) (c : Choice) (d : Disk) : DocRead :=
  match c with
  | Broken why => ReadFails (bail why)
  | _ =>
      match docs d !! f with
      | None => NoFile
      | Some OtherText => NotJson (bail (lit "expected value"))
      | Some (Written v) => ReadValue v
      end
  end.

Definition listed (t : list (str * Tree)) : list (str * bool) := map (fun nt => (nt.1, is_dir nt.2)) t.

Definition read_dir (p : Place) (d : Disk) : result (list (str * bool)) IoError :=
  match p.2 with
  | [] => match area d p.1 with Some m => Ok (listed (map_to_list m)) | None => Err missing end
  | _ =>
      match look d p with
      | Some (Dir c) => Ok (listed c)
      | Some (File _) => Err {| not_found := false; io_text := lit "Not a directory" |}
      | None => Err missing
      end
  end.

(** [rename(2)]: a directory goes where nothing is, or over an empty directory. *)
Definition rename (from to : Place) (d : Disk) : result unit IoError * Disk :=
  match look d from with
  | None => (Err missing, d)
  | Some t =>
      match look d to with
      | None | Some (Dir []) => (Ok tt, end_removal from (end_removal to (put to t (cut from d))))
      | Some _ => (Err {| not_found := false; io_text := lit "Directory not empty" |}, d)
      end
  end.

Context `{ReleaseTypes} `{Archiver}.

Definition ditto (zip into : Place) (c : Choice) (d : Disk) : result unit DittoError * Disk :=
  match c with
  | Broken why => (Err (NotRun (bail why)), d)
  | Left t => (Err (Refused (lit "no space left")), put into t d)
  | _ =>
      match look d zip with
      | Some (File bytes) =>
          match unzip bytes with
          | Some t => (Ok tt, put into t d)
          | None => (Err (Refused (lit "not an archive")), d)
          end
      | _ => (Err (Refused (lit "no archive")), d)
      end
  end.

Definition done_or_broken (c : Choice) (d : Disk) (change : Disk -> Disk) : result unit Error * Disk :=
  match c with Broken why => (Err (bail why), d) | _ => (Ok tt, change d) end.

Definition passed (c : Choice) : Z := match c with Later ns => Z.max 0 ns | _ => 0 end.

Definition act (A : Type) (p : nat) (e : DiskE A) (c : Choice) (d : Disk) : A * Disk :=
  match e in DiskE A return A * Disk with
  | TryLock l => try_lock p l c d
  | Unlock l => (tt, unlock p l d)
  | Raised => (match c with Signalled => true | _ => false end, d)
  | Now => (clock d + passed c, set_clock (clock d + passed c) d)
  | Nap ns => (tt, set_clock (clock d + Z.max 0 ns + passed c) d)
  | Phones => match c with Broken why => (Err (bail why), d) | _ => (Ok (phones d), d) end
  | LoadDoc f => (read_document f c d, d)
  | StoreDoc f v => done_or_broken c d (set_doc f (Written v))
  | FindBuild v =>
      match c with
      | Replied (Ok (Some b)) => (Ok (if str_eqb (version b) v && is_sha256 (sha256 b) then Some b else None), d)
      | Replied r => (r, d)
      | _ => (Ok None, d)
      end
  | CatalogVersions => (match c with Published r => r | _ => Ok [] end, d)
  | CreateDirAll a => done_or_broken c d (set_area a (entries d a))
  | IsDir q => (match look d q with Some t => is_dir t | None => false end, d)
  | ReadDir q =>
      match c with
      | Broken why => (Err {| not_found := false; io_text := why |}, d)
      | _ => (read_dir q d, d)
      end
  | MakeScratch =>
      match c with
      | Named n =>
          let name := PARTIAL_PREFIX ++ n in
          match entries d InReleases !! name with
          | Some _ => (Err (bail (lit "too many temporary files exist")), d)
          | None => (Ok name, put (InReleases, [name]) (Dir []) d)
          end
      | _ => (Err (bail (lit "no scratch directory")), d)
      end
  | Rename from to =>
      match c with
      | Broken why => (Err {| not_found := false; io_text := why |}, d)
      | _ => rename from to d
      end
  | CreateFile q => done_or_broken c d (put q (File []))
  | GetObject _ => (match c with Sent body ended => (body, ended) | _ => ([], None) end, d)
  | AppendFile q bytes =>
      match c, look d q with
      | Broken why, _ => (Err (bail why), d)
      | _, Some (File old) => (Ok tt, put q (File (old ++ bytes)) d)
      | _, _ => (Err (bail (lit "no such file")), d)
      end
  | Ditto zip into => ditto zip into c d
  | Shred q =>
      match look d q, c with
      | Some (Dir _), Left t => (tt, begin_removal q (put q (Dir (children t)) d))
      | _, _ => (tt, begin_removal q d)
      end
  | RemoveRest q =>
      match c, look d q with
      | Broken why, _ => (Err (bail why), d)
      | _, None => (Err (io_error missing), end_removal q d)
      | _, Some (File _) => (Err (bail (lit "Not a directory")), end_removal q d)
      | _, Some (Dir _) => (Ok tt, end_removal q (cut q d))
      end
  | PrintLine _ => done_or_broken c d (fun d => d)
  end.
End Operations.

(** [remove_dir_all]: a process can die, and the removal can fail, with part of it done. *)
Definition remove_dir_all (p : Place) : script DiskE (result unit Error) :=
  do _ <- ask (Shred p);
  ask (RemoveRest p).

(** ** Locks *)

Definition LOCK_WAIT_BUDGET : Z := from_secs (5 * 60).
Definition LOCK_POLL : Z := from_secs 1.

Definition lock_text (l : LockPath) : str :=
  match l with
  | ReleasesLock => lit "releases.lock"
  | SignedLock => lit "signed.lock"
  | PhoneLock phone => join_path phone (lit "lock")
  end.

(** [Signals::raised]: a stop, or a claim's lost lease. *)
Definition signals_raised : script DiskE bool := ask Raised.

Definition instant_now : script DiskE Z := ask Now.

Definition try_acquire (l : LockPath) : script DiskE (result (result unit Holder) Error) := ask (TryLock l).

Definition lock_wait_interrupted (l : LockPath) : Error := bail (lit "stopped while waiting for " ++ lock_text l).

Definition lock_wait_expired (l : LockPath) (h : Holder) (budget : Z) : Error :=
  bail (lit "gave up after waiting " ++ show_uint (budget / ns_per_sec) ++ lit "s for " ++ lock_text l ++
    lit ", held by " ++ holder_text h).

(** The loop of [StateLock::wait_for], for as many naps; [None] when they do not suffice. *)
Fixpoint wait_loop (naps : nat) (l : LockPath) (budget started : Z) : script DiskE (option (result unit Error)) :=
  do r <- try_acquire l;
  match r with
  | Err e => Done (Some (Err e))
  | Ok (Ok tt) => Done (Some (Ok tt))
  | Ok (Err holder) =>
      do raised <- signals_raised;
      if raised then Done (Some (Err (lock_wait_interrupted l)))
      else
        do now <- instant_now;
        if budget <=? now - started then Done (Some (Err (lock_wait_expired l holder budget)))
        else
          match naps with
          | O => Done None
          | S naps =>
              do _ <- ask (Nap (Z.min LOCK_POLL budget));
              wait_loop naps l budget started
          end
  end.

(** Each nap uses up its share of the budget. *)
Definition naps_for (budget : Z) : nat := S (Z.to_nat (budget / Z.min LOCK_POLL budget)).

Definition wait_for (l : LockPath) (budget : Z) : script DiskE (result unit Error) :=
  do started <- instant_now;
  do r <- wait_loop (naps_for budget) l budget started;
  Done (default (Err (lock_wait_expired l None budget)) r).

Definition for_device (phone device : str) : script DiskE (result unit Error) :=
  do? r <- try_acquire (PhoneLock phone);
  Done (match r with
        | Ok tt => Ok tt
        | Err holder =>
            Err (bail (lit "another pipette-ios-proxy (" ++ holder_text holder ++ lit ") already drives " ++
              device ++ lit " (it holds " ++ lock_text (PhoneLock phone) ++
              lit "). One process per phone: stop the other one first"))
        end).
