(* ===== verification/ProxyStore.v ===== *)
(** * The archive store ([releases/store.rs], and [prune] of [commands.rs])

    [builds pull] and every claim put a published build's archive under
    [releases/<version>/], one pull at a time; [builds prune] removes what no phone and no
    catalog names. Each is a script over the state directory ([ProxyState]), to be
    interleaved with the others; [ProxyShared] proves what they keep together. *)

From Stdlib Require Import ZArith Lia String.
From stdpp Require Import prelude list fin_maps gmap.
From S2P Require Import Prelude Str Timing Json ProxyBase ProxyReleases ProxyVersion Script ProxyState.

Local Open Scope Z_scope.
Local Open Scope script_scope.

Definition ARCHIVE_EXTENSION : str := lit "xcarchive".

Definition WHAT : str := lit "the pulled builds".

(** ** Failures *)

Inductive PullError :=
| NotPublished (v bucket : str)
| Busy (holder : Holder)
| DigestChanged (v recorded published key : str)
| DigestMismatch (key downloaded published : str)
| UnpackFailed (key detail : str)
| NoArchive (key : str).

Definition pull_error_text (e : PullError) : str :=
  match e with
  | NotPublished v bucket =>
      bucket ++ lit " publishes no build " ++ v ++ lit "; `builds list` prints the ones it does"
  | Busy holder =>
      lit "another pipette-ios-proxy (" ++ holder_text holder ++ lit ") is pulling a build (it holds " ++
      lock_text ReleasesLock ++ lit "); run this again once it is done"
  | DigestChanged v recorded published key =>
      lit "build " ++ v ++ lit " was first pulled with sha256 " ++ recorded ++ lit ", and " ++ key ++
      lit " now publishes " ++ published ++
      lit ". A release must never change under a version, so this one is refused: publish the new bytes under a new version"
  | DigestMismatch key downloaded published =>
      key ++ lit " downloaded with sha256 " ++ downloaded ++ lit ", and its .sha256 says " ++ published ++
      lit ": nothing was kept"
  | UnpackFailed key detail => lit "`ditto -x -k` could not unpack " ++ key ++ lit ": " ++ detail
  | NoArchive key => key ++ lit " unpacked without an ." ++ ARCHIVE_EXTENSION ++ lit " in it"
  end.

(** A failure every phone pulling this version meets again. *)
Definition is_version_specific (e : PullError) : bool :=
  match e with
  | NotPublished _ _ | DigestChanged _ _ _ _ | DigestMismatch _ _ _ | NoArchive _ => true
  | Busy _ | UnpackFailed _ _ => false
  end.

(** The error of a pull: a [PullError], or any other. *)
Inductive PullFailure := PullRefused (e : PullError) | PullFailed (e : Error).

Definition failure_error (f : PullFailure) : Error :=
  match f with PullRefused e => bail (pull_error_text e) | PullFailed e => e end.

Definition transiently (e : Error) : UnreadyError := {| unready_fault := TransientFault; unready_error := e |}.

(** What [ensure_pulled] makes of a failed pull. *)
Definition unready_pull (f : PullFailure) : UnreadyError :=
  {| unready_fault :=
       match f with
       | PullRefused e => if is_version_specific e then VersionFault else TransientFault
       | PullFailed _ => TransientFault
       end;
     unready_error := failure_error f |}.

Inductive OnlyChildError :=
| ReadFailed (dir : Place) (source : IoError)
| NotOne (dir : Place) (what : str) (found : nat).

Definition place_text (p : Place) : str :=
  join [47] ((match p.1 with InReleases => lit "releases" | InSigned => lit "signed" end) :: p.2).

Definition only_child_text (e : OnlyChildError) : str :=
  match e with
  | ReadFailed dir source => lit "reading " ++ place_text dir ++ lit ": " ++ io_text source
  | NotOne dir what found =>
      place_text dir ++ lit " holds " ++ show_uint (Z.of_nat found) ++ lit " where one " ++ what ++ lit " was expected"
  end.

Definition layout_fault (e : OnlyChildError) : UnreadyError :=
  {| unready_fault := match e with
                      | ReadFailed _ source => if not_found source then VersionFault else TransientFault
                      | NotOne _ _ _ => VersionFault
                      end;
     unready_error := bail (only_child_text e) |}.

(** ** Names *)

Definition has_extension (ext name : str) : bool :=
  match extension name with
  | Some found => str_eqb (to_ascii_lowercase found) (to_ascii_lowercase ext)
  | None => false
  end.

Definition version_dir (v : str) : Place := (InReleases, [v]).

Definition inside (p : Place) (n : str) : Place := (p.1, p.2 ++ [n]).

(** ** The records *)

Record PullRecord := { record_sha256 : str; record_key : str; pulled_at : str }.

Notation Records := (gmap str PullRecord).

Inductive Held := Pulled | NotPulled | Changed (recorded : str).

Section Records.
Context `{ReleaseTypes}.

Definition record_of_value (v : Value) : option PullRecord :=
  sha ← get (lit "sha256") v ≫= as_str;
  key ← get (lit "key") v ≫= as_str;
  at_ ← get (lit "pulled_at") v ≫= as_str;
  if is_sha256 sha then Some {| record_sha256 := sha; record_key := key; pulled_at := at_ |} else None.

Definition record_to_value (r : PullRecord) : Value :=
  Json.Object [(lit "sha256", String (record_sha256 r)); (lit "key", String (record_key r));
               (lit "pulled_at", String (pulled_at r))].

(** A [BTreeMap]: the last of equal keys stays. *)
Fixpoint records_of_fields (acc : Records) (fields : list (str * Value)) : option Records :=
  match fields with
  | [] => Some acc
  | (v, value) :: fields => r ← record_of_value value; records_of_fields (<[v := r]> acc) fields
  end.

Definition records_of_value (v : Value) : option Records :=
  match get (lit "versions") v with
  | None => Some ∅
  | Some (Json.Object fields) => records_of_fields ∅ fields
  | Some _ => None
  end.

Definition records_to_value (rs : Records) : Value :=
  stamped [(lit "versions",
    Json.Object (map (fun kr => (kr.1, record_to_value kr.2))
      (sort_stable (fun a b => str_leb a.1 b.1) (map_to_list rs))))].

(** [Records::load]. *)
Definition records_read (r : DocRead) : result Records Error :=
  match load_json records_of_value WHAT r with
  | Ok rs => Ok (default ∅ rs)
  | Err e => Err e
  end.

Definition load_records : script DiskE (result Records Error) :=
  do r <- ask (LoadDoc RecordsDoc);
  Done (records_read r).

(** [Records::held]. *)
Definition held (rs : Records) (b : Build) : script DiskE Held :=
  match rs !! version b with
  | Some r =>
      if negb (str_eqb (record_sha256 r) (sha256 b)) then Done (Changed (record_sha256 r))
      else
        do there <- ask (IsDir (version_dir (version b)));
        Done (if there : bool then Pulled else NotPulled)
  | None => Done NotPulled
  end.
End Records.

(** ** Directories *)

(** [anyhow]'s context on a call. *)
Definition within {T} (what : str) (m : script DiskE (result T Error)) : script DiskE (result T Error) :=
  do r <- m;
  Done (in_context what r).

Definition reading_dir (p : Place) : script DiskE (result (list (str * bool)) Error) :=
  do r <- ask (ReadDir p);
  Done (in_context (lit "reading " ++ place_text p) (map_err io_error r)).

Definition only_child (p : Place) (ext what : str) : script DiskE (result Place OnlyChildError) :=
  do r <- ask (ReadDir p);
  Done (match r with
        | Err e => Err (ReadFailed p e)
        | Ok names =>
            match List.filter (fun n => has_extension ext n.1) names with
            | [only] => Ok (inside p only.1)
            | matching => Err (NotOne p what (length matching))
            end
        end).

Record Archived := { archived_archive : Place; archived_app : Place }.

Definition archived (p : Place) : script DiskE (result Archived UnreadyError) :=
  do r <- only_child p ARCHIVE_EXTENSION (lit "archive");
  match map_err layout_fault r with
  | Err e => Done (Err e)
  | Ok archive =>
      do r <- only_child (inside (inside archive (lit "Products")) (lit "Applications")) (lit "app") (lit "app");
      Done (match map_err layout_fault r with
            | Err e => Err e
            | Ok app => Ok {| archived_archive := archive; archived_app := app |}
            end)
  end.

(** Called under the lock, so whatever carries the prefix belongs to no one. *)
Definition sweep_partials (a : Area) : script DiskE (result unit Error) :=
  do? names <- reading_dir (a, []);
  try_all (fun n => within (lit "removing " ++ place_text (a, [n])) (remove_dir_all (a, [n])))
    (List.filter (fun n => starts_with n PARTIAL_PREFIX) (map fst names)).

Definition is_archive (n : str * bool) : bool := n.2 && has_extension ARCHIVE_EXTENSION n.1.

Definition by_name (a b : str * bool) : bool := str_leb a.1 b.1.

Definition sorted_children (p : Place) : script DiskE (result (list (str * bool)) Error) :=
  do r <- reading_dir p;
  Done (match r with Ok names => Ok (sort_stable by_name names) | Err e => Err e end).

(** The first of the folders that holds an archive. *)
Fixpoint wrapping (p : Place) (folders : list (str * bool)) : script DiskE (result (option Place) Error) :=
  match folders with
  | [] => Done (Ok None)
  | f :: folders =>
      do? names <- sorted_children (inside p f.1);
      if existsb is_archive names then Done (Ok (Some (inside p f.1))) else wrapping p folders
  end.

Definition archive_home (p : Place) : script DiskE (result (option Place) Error) :=
  do? top <- sorted_children p;
  if existsb is_archive top then Done (Ok (Some p)) else wrapping p (List.filter snd top).

(** ** Pulling *)

Section Pull.
Context `{ReleaseTypes} `{Archiver} (bucket_url : str) (rfc3339 : Z -> str).

Definition failing {T} (m : script DiskE (result T Error)) : script DiskE (result T PullFailure) :=
  do r <- m;
  Done (map_err PullFailed r).

Definition download_stopped : Error := bail (lit "the download was stopped: the lease was lost or a stop arrived").

(** [io::copy] into a [HashingFile]: what was written when all of it was. *)
Fixpoint copy (watched : bool) (to : Place) (written : list Z) (body : list (list Z)) (ended : option Error)
    : script DiskE (result (list Z) Error) :=
  match body with
  | [] => Done (match ended with Some e => Err e | None => Ok written end)
  | buf :: body =>
      do raised <- (if watched then signals_raised else Done false);
      if raised then Done (Err download_stopped)
      else
        do? _ <- within (lit "writing " ++ place_text to) (ask (AppendFile to buf));
        copy watched to (written ++ buf) body ended
  end.

(** The digest of what was written. *)
Definition download (watched : bool) (key : str) (to : Place) : script DiskE (result str Error) :=
  do? _ <- within (lit "creating " ++ place_text to) (ask (CreateFile to));
  do sent <- ask (GetObject key);
  do r <- within (lit "downloading " ++ key) (copy watched to [] sent.1 sent.2);
  Done (match r with Ok written => Ok (sha256_of written) | Err e => Err e end).

Definition unpack (zip into : Place) (key : str) : script DiskE (result unit PullFailure) :=
  do r <- ask (Ditto zip into);
  Done (match r with
        | Ok tt => Ok tt
        | Err (NotRun e) => Err (PullFailed (with_context (lit "running `ditto`") e))
        | Err (Refused detail) => Err (PullRefused (UnpackFailed key (trim detail)))
        end).

Definition in_scratch (scratch name : str) : Place := (InReleases, [scratch; name]).

(** What no matching record vouches for goes into the scratch directory. *)
Definition set_aside (v scratch : str) : script DiskE (result unit PullFailure) :=
  do r <- ask (Rename (version_dir v) (in_scratch scratch (lit "unverified")));
  Done (match r with
        | Ok tt => Ok tt
        | Err e =>
            if not_found e then Ok tt
            else Err (PullFailed (with_context (lit "moving " ++ place_text (version_dir v) ++ lit " aside") (io_error e)))
        end).

(** Recorded once the bytes are verified, and only the first time. *)
Definition record (rs : Records) (v : str) (b : Build) : script DiskE (result unit Error) :=
  match rs !! v with
  | Some _ => Done (Ok tt)
  | None =>
      do now <- instant_now;
      let r := {| record_sha256 := sha256 b; record_key := key b; pulled_at := rfc3339 now |} in
      within (lit "writing " ++ WHAT) (ask (StoreDoc RecordsDoc (records_to_value (<[v := r]> rs))))
  end.

(** [pull_locked] from its scratch directory on. *)
Definition pull_into (watched : bool) (rs : Records) (v : str) (b : Build) (scratch : str)
    : script DiskE (result Place PullFailure) :=
  do? _ <- set_aside v scratch;
  let zip := in_scratch scratch (lit "archive.zip") in
  do? downloaded <- failing (download watched (key b) zip);
  if negb (str_eqb downloaded (sha256 b)) then
    Done (Err (PullRefused (DigestMismatch (key b) downloaded (sha256 b))))
  else
    do? _ <- failing (record rs v b);
    let unpacked := in_scratch scratch (lit "unpacked") in
    do? _ <- unpack zip unpacked (key b);
    do? home <- failing (archive_home unpacked);
    match home with
    | None => Done (Err (PullRefused (NoArchive (key b))))
    | Some home =>
        do r <- ask (Rename home (version_dir v));
        Done (match r with
              | Ok tt => Ok (version_dir v)
              | Err e =>
                  Err (PullFailed (with_context
                    (lit "moving the unpacked archive to " ++ place_text (version_dir v)) (io_error e)))
              end)
    end.

(** The scratch directory is dropped on every way out. *)
Definition pull_afresh (watched : bool) (rs : Records) (v : str) (b : Build)
    : script DiskE (result Place PullFailure) :=
  do? _ <- failing (within (lit "creating releases") (ask (CreateDirAll InReleases)));
  do? _ <- failing (sweep_partials InReleases);
  do? scratch <- failing (within (lit "creating a scratch directory in releases") (ask MakeScratch));
  do r <- pull_into watched rs v b scratch;
  do _ <- remove_dir_all (InReleases, [scratch]);
  Done r.

(** [watched]: a claim's signals end the download. *)
Definition pull_locked (watched : bool) (v : str) : script DiskE (result Place PullFailure) :=
  do? found <- failing (ask (FindBuild v));
  match found with
  | None => Done (Err (PullRefused (NotPublished v bucket_url)))
  | Some b =>
      do? rs <- failing load_records;
      do h <- held rs b;
      match h with
      | Changed recorded => Done (Err (PullRefused (DigestChanged v recorded (sha256 b) (key b))))
      | Pulled => Done (Ok (version_dir v))
      | NotPulled => pull_afresh watched rs v b
      end
  end.

Definition pull (v : str) : script DiskE (result Place PullFailure) :=
  do? r <- failing (try_acquire ReleasesLock);
  match r with
  | Err holder => Done (Err (PullRefused (Busy holder)))
  | Ok tt =>
      do r <- pull_locked false v;
      do _ <- ask (Unlock ReleasesLock);
      Done r
  end.

Definition ensure_pulled (b : Build) : script DiskE (result Place UnreadyError) :=
  do r <- load_records;
  match r with
  | Err e => Done (Err (transiently e))
  | Ok rs =>
      do h <- held rs b;
      match h with
      | Pulled => Done (Ok (version_dir (version b)))
      | NotPulled | Changed _ =>
          do r <- wait_for ReleasesLock LOCK_WAIT_BUDGET;
          match r with
          | Err e => Done (Err (transiently e))
          | Ok tt =>
              do r <- pull_locked true (version b);
              do _ <- ask (Unlock ReleasesLock);
              Done (map_err unready_pull r)
          end
      end
  end.

(** ** Pruning *)

(** Dropping the locks taken, in order. *)
Fixpoint unlock_all (taken : list LockPath) : script DiskE unit :=
  match taken with
  | [] => Done tt
  | l :: taken => do _ <- ask (Unlock l); unlock_all taken
  end.

(** Every lock asked for: taken where free, else who holds it. *)
Fixpoint try_lock_all (taken : list LockPath) (in_use : list (LockPath * Holder)) (paths : list LockPath)
    : script DiskE (result (list LockPath * list (LockPath * Holder)) Error) :=
  match paths with
  | [] => Done (Ok (taken, in_use))
  | l :: paths =>
      do r <- try_acquire l;
      match r with
      | Err e => do _ <- unlock_all taken; Done (Err e)
      | Ok (Ok tt) => try_lock_all (taken ++ [l]) in_use paths
      | Ok (Err holder) => try_lock_all taken (in_use ++ [(l, holder)]) paths
      end
  end.

Definition state_in_use (in_use : list (LockPath * Holder)) : Error :=
  bail (lit "another pipette-ios-proxy is using the state directory (" ++
    join (lit ", ") (map (fun h => holder_text h.2 ++ lit " holds " ++ lock_text h.1) in_use) ++
    lit "): stop every process using the state directory, then prune").

Definition is_stale (keep : list str) (n : str * bool) : bool :=
  n.2 && (starts_with n.1 PARTIAL_PREFIX ||
          (bool_decide (is_Some (build_version n.1)) && negb (bool_decide (n.1 ∈ keep)))).

Definition prunable_in (a : Area) (keep : list str) : script DiskE (result (list Place) Error) :=
  do r <- ask (ReadDir (a, []));
  Done (match r with
        | Ok names => Ok (map (fun n => (a, [n.1])) (List.filter (is_stale keep) names))
        | Err e => if not_found e then Ok [] else Err (with_context (lit "reading " ++ place_text (a, [])) (io_error e))
        end).

Definition place_leb (a b : Place) : bool := str_leb (place_text a) (place_text b).

Definition prunable (keep : list str) : script DiskE (result (list Place) Error) :=
  do? stale <- prunable_in InReleases keep;
  do? signed <- prunable_in InSigned keep;
  Done (Ok (sort_stable place_leb (stale ++ signed))).

(** The version each phone's record names. *)
Fixpoint installed_versions (phones : list str) : script DiskE (result (list str) Error) :=
  match phones with
  | [] => Done (Ok [])
  | phone :: phones =>
      do r <- ask (LoadDoc (InstalledDoc phone));
      match load_installed_document r with
      | Err e => Done (Err e)
      | Ok b =>
          do? rest <- installed_versions phones;
          Done (Ok (option_list (ProxyBase.build_version b) ++ rest))
      end
  end.

Definition remove_stale (dry_run : bool) (p : Place) : script DiskE (result unit Error) :=
  do? _ <- (if dry_run then Done (Ok tt) else within (lit "removing " ++ place_text p) (remove_dir_all p));
  within (lit "writing to stdout") (ask (PrintLine p)).

(** [prune] with its locks taken. *)
Definition prune_now (dry_run : bool) (phones : list str) : script DiskE (result unit Error) :=
  do? catalog <- ask CatalogVersions;
  do? installed <- installed_versions phones;
  do? stale <- prunable (catalog ++ installed);
  try_all (remove_stale dry_run) stale.

Definition prune_locks (phones : list str) : list LockPath := ReleasesLock :: SignedLock :: map PhoneLock phones.

Definition prune (dry_run : bool) : script DiskE (result unit Error) :=
  do? phones <- ask Phones;
  if dry_run then prune_now true phones
  else
    do? locking <- try_lock_all [] [] (prune_locks phones);
    match locking.2 with
    | [] =>
        do r <- prune_now false phones;
        do _ <- unlock_all locking.1;
        Done r
    | in_use =>
        do _ <- unlock_all locking.1;
        Done (Err (state_in_use in_use))
    end.

(** ** The processes

    [builds pull], [builds prune], and a phone's loop: its lock for as long as it lives, and
    claim after claim the build's directory and the archive in it. *)

Inductive Job := PullJob (v : str) | PruneJob (dry_run : bool) | DriveJob (phone : str) (claims : list Build).

Inductive Outcome :=
| DidPull (r : result Place PullFailure)
| DidPrune (r : result unit Error)
| NotDriven (e : Error)
| Drove (ready : list (result Archived UnreadyError)).

Definition claim_archive (b : Build) : script DiskE (result Archived UnreadyError) :=
  do? dir <- ensure_pulled b;
  archived dir.

Fixpoint claim_archives (claims : list Build) : script DiskE (list (result Archived UnreadyError)) :=
  match claims with
  | [] => Done []
  | b :: claims =>
      do r <- claim_archive b;
      do rest <- claim_archives claims;
      Done (r :: rest)
  end.

Definition process (j : Job) : script DiskE Outcome :=
  match j with
  | PullJob v => do r <- pull v; Done (DidPull r)
  | PruneJob dry_run => do r <- prune dry_run; Done (DidPrune r)
  | DriveJob phone claims =>
      do r <- for_device phone phone;
      match r with
      | Err e => Done (NotDriven e)
      | Ok tt => do ready <- claim_archives claims; Done (Drove ready)
      end
  end.
End Pull.

(** ** Documents come back *)

Lemma load_stamped {T} (decode : Value -> option T) what body :
  load_json decode what (ReadValue (stamped body)) =
  match decode (stamped body) with
  | Some t => Ok (Some t)
  | None => Err (with_context (lit "reading " ++ what) bad_document)
  end.
Proof. done. Qed.

Section RecordsRead.
Context `{ReleaseTypes}.

Definition records_valid (rs : Records) : Prop := map_Forall (fun _ r => is_sha256 (record_sha256 r) = true) rs.

Lemma record_of_to_value r : is_sha256 (record_sha256 r) = true -> record_of_value (record_to_value r) = Some r.
Proof.
  intros Hr. unfold record_of_value.
  assert (get (lit "sha256") (record_to_value r) = Some (String (record_sha256 r))) as -> by done.
  assert (get (lit "key") (record_to_value r) = Some (String (record_key r))) as -> by done.
  assert (get (lit "pulled_at") (record_to_value r) = Some (String (pulled_at r))) as -> by done.
  cbn [mbind option_bind as_str]. rewrite Hr. by destruct r.
Qed.

Lemma record_of_value_valid v r : record_of_value v = Some r -> is_sha256 (record_sha256 r) = true.
Proof.
  unfold record_of_value. intros (sha & _ & (k & _ & (at_ & _ & Hr)%bind_Some)%bind_Some)%bind_Some.
  destruct (is_sha256 sha) eqn:E; [|done]. by injection Hr as <-.
Qed.

Lemma records_of_fields_valid acc fields rs :
  records_valid acc -> records_of_fields acc fields = Some rs -> records_valid rs.
Proof.
  revert acc. induction fields as [|[v value] fields IH]; cbn [records_of_fields]; intros acc Ha.
  - by intros [= <-].
  - intros (r & Hr & Hrs)%bind_Some. eapply IH; [|exact Hrs].
    apply map_Forall_insert_2; [by eapply record_of_value_valid|done].
Qed.

Lemma records_read_valid r rs : records_read r = Ok rs -> records_valid rs.
Proof.
  unfold records_read, load_json. destruct r as [| | |v]; try done; [intros [= <-]; apply map_Forall_empty|].
  destruct (head_schema v) as [found|]; [|done]. destruct (SCHEMA <? found); [done|].
  unfold records_of_value. destruct (get (lit "versions") v) as [[]|]; try done; [|intros [= <-]; apply map_Forall_empty].
  destruct (records_of_fields ∅ fields) eqn:E; [|done]. intros [= <-].
  eapply records_of_fields_valid; [|exact E]. apply map_Forall_empty.
Qed.

Lemma records_of_fields_written acc (l : list (str * PullRecord)) :
  NoDup l.*1 -> Forall (fun kr => is_sha256 (record_sha256 kr.2) = true) l ->
  records_of_fields acc (map (fun kr => (kr.1, record_to_value kr.2)) l) = Some (list_to_map l ∪ acc).
Proof.
  revert acc. induction l as [|[k r] l IH]; intros acc; cbn [map records_of_fields fmap list_fmap fst snd].
  - intros _ _. by rewrite list_to_map_nil, (left_id_L ∅ (∪)).
  - intros [Hk Hn]%NoDup_cons [Hr Hl]%Forall_cons. rewrite record_of_to_value by done. cbn [mbind option_bind].
    rewrite IH by done. rewrite list_to_map_cons.
    f_equal. rewrite <- insert_union_l. symmetry. apply insert_union_r. by apply not_elem_of_list_to_map_1.
Qed.

Lemma records_come_back rs : records_valid rs -> records_read (ReadValue (records_to_value rs)) = Ok rs.
Proof.
  intros Hv. unfold records_read, records_to_value. rewrite load_stamped. unfold records_of_value.
  change (get (lit "versions") (stamped ?b)) with (assoc (lit "versions") b). cbn [assoc].
  rewrite str_eqb_refl. set (l := sort_stable _ (map_to_list rs)).
  assert (Hp : l ≡ₚ map_to_list rs) by apply sort_stable_perm.
  assert (Hn : NoDup l.*1) by (rewrite Hp; apply NoDup_fst_map_to_list).
  rewrite records_of_fields_written; [|done|].
  - cbn [default]. rewrite (right_id_L ∅ (∪)). unfold id. f_equal.
    rewrite (list_to_map_proper l (map_to_list rs)) by done. apply list_to_map_to_list.
  - rewrite Hp. apply Forall_forall. intros [k r] Hkr%elem_of_map_to_list. by apply (Hv k).
Qed.
End RecordsRead.
