(* ===== verification/ProxyShared.v ===== *)
(** * What the processes of a state directory keep together

    Pulls, prunes and phones' loops, any number of them, interleaved operation by operation,
    each free to die at any of them. Every process relies on what the locks promise it and
    keeps what it promises the others ([wp] of [Script]): a recorded digest stands for good,
    and the directory of a recorded version is what the recorded bytes unpack to. A phone's
    loop relies on more, its lock keeping prunes away: the directory a claim was given is
    still that directory when the loop has gone through all its claims. *)

From Stdlib Require Import ZArith Lia String.
From stdpp Require Import prelude list fin_maps gmap.
From S2P Require Import Prelude Str Timing Json ProxyBase ProxyReleases ProxyVersion Script ProxyState ProxyStore.

Local Open Scope Z_scope.
Local Open Scope script_scope.

(** ** Names *)

Lemma version_not_partial v : is_Some (build_version v) -> starts_with v PARTIAL_PREFIX = false.
Proof.
  destruct v as [|c v]; [by intros [? [=]]|]. cbn [build_version]. intros [x E].
  destruct (plain c && _) eqn:Ec; [|done]. bool_to_prop.
  destruct (starts_with (c :: v) PARTIAL_PREFIX) eqn:Ep; [|done].
  apply starts_with_spec in Ep as [r Er]. unfold PARTIAL_PREFIX in Er. injection Er as -> _. done.
Qed.

(** ** Trees *)

Lemma tree_at_put sub new t : tree_at sub (tree_put sub new t) = Some new.
Proof.
  revert t. induction sub as [|n sub IH]; intros t; [done|]. cbn [tree_put tree_at children].
  rewrite assoc_insert_eq. apply IH.
Qed.

Section Shared.
Context `{RL : ReleaseTypes} `{AR : Archiver} (bucket_url : str) (rfc3339 : Z -> str).

(** The home of an archive in what was unpacked: the place [archive_home] finds. *)
Definition kids (t : Tree) : list (str * bool) := sort_stable by_name (listed (children t)).

Definition child (t : Tree) (n : str) : Tree := default (Dir []) (assoc n (children t)).

Definition home_of (t : Tree) : option Tree :=
  if existsb is_archive (kids t) then Some t
  else
    f ← List.find (fun f => existsb is_archive (kids (child t f.1))) (List.filter snd (kids t));
    Some (child t f.1).

(** Bytes of this digest unpack to this directory. *)
Definition genuine (sha : str) (t : Tree) : Prop :=
  exists bytes whole, sha256_of bytes = sha /\ unzip bytes = Some whole /\ home_of whole = Some t.

(** ** What the lock guards *)

Record Store := { st_entries : gmap str Tree; st_doc : option DocFile; st_torn : gset str }.

Definition store (d : Disk) : Store :=
  {| st_entries := entries d InReleases; st_doc := docs d !! RecordsDoc; st_torn := torn d |}.

Definition recorded (s : Store) : gmap str PullRecord :=
  match st_doc s with
  | Some (Written v) => match records_read (ReadValue v) with Ok rs => rs | Err _ => ∅ end
  | Some OtherText | None => ∅
  end.

Definition dir_at (s : Store) (v : str) : bool :=
  match st_entries s !! v with Some t => is_dir t | None => false end.

(** A recorded digest vouches for a directory. *)
Definition vouched (s : Store) (v : str) : Prop := is_Some (recorded s !! v) /\ dir_at s v = true.

Record store_ok (s : Store) : Prop := {
  ok_versions : forall v, is_Some (recorded s !! v) -> is_Some (build_version v);
  ok_genuine : forall v r t,
    recorded s !! v = Some r -> st_entries s !! v = Some t -> is_dir t = true -> v ∉ st_torn s ->
    genuine (record_sha256 r) t;
}.

Definition untouched (s s' : Store) (v : str) : Prop :=
  st_entries s' !! v = st_entries s !! v /\ (v ∈ st_torn s' -> v ∈ st_torn s).

(** [prunes]: every phone's lock is held. *)
Record step_ok (prunes : bool) (s s' : Store) : Prop := {
  step_store : store_ok s -> store_ok s';
  step_records : recorded s ⊆ recorded s';
  step_vouched : prunes = false -> store_ok s -> forall v, vouched s v -> untouched s s' v;
}.

(** ** Rely and guarantee *)

Context (known : list str).

Definition holds (d : Disk) (p : nat) (l : LockPath) : Prop :=
  exists f, locks d !! l = Some f /\ lock_holder f = Some p.

(** The phones known from the start have lock files. *)
Record disk_ok (d : Disk) : Prop := {
  ok_known : forall phone, phone ∈ known -> is_Some (locks d !! PhoneLock phone);
  ok_store : store_ok (store d);
}.

Record rely (p : nat) (d d' : Disk) : Prop := {
  rely_locks : forall l, holds d p l <-> holds d' p l;
  rely_still : holds d p ReleasesLock -> store d' = store d;
  rely_records : recorded (store d) ⊆ recorded (store d');
  rely_use : forall phone, phone ∈ known -> holds d p (PhoneLock phone) ->
    forall v, vouched (store d) v -> untouched (store d) (store d') v;
  rely_clock : clock d <= clock d';
}.

Record guar (p : nat) (d d' : Disk) : Prop := {
  guar_locks : forall q l, q <> p -> holds d q l <-> holds d' q l;
  guar_still : ~ holds d p ReleasesLock -> store d' = store d;
  guar_records : recorded (store d) ⊆ recorded (store d');
  guar_vouched : (forall phone, phone ∈ known -> holds d p (PhoneLock phone)) \/
    (forall v, vouched (store d) v -> untouched (store d) (store d') v);
  guar_clock : clock d <= clock d';
}.

Lemma holds_functional d p q l : holds d p l -> holds d q l -> p = q.
Proof. intros (f & Hf & Hp) (g & Hg & Hq). congruence. Qed.

Lemma vouched_untouched s s' v :
  recorded s ⊆ recorded s' -> untouched s s' v -> vouched s v -> vouched s' v.
Proof.
  intros Hr [He _] [[r Hv] Hd]. split.
  - exists r. by eapply lookup_weaken.
  - unfold dir_at in *. by rewrite He.
Qed.

#[export] Instance rely_preorder p : PreOrder (rely p).
Proof.
  split.
  - intros d. by constructor.
  - intros d1 d2 d3 H1 H2. constructor.
    + intros l. etrans; [apply (rely_locks _ _ _ H1)|apply (rely_locks _ _ _ H2)].
    + intros Hl. rewrite (rely_still _ _ _ H2), (rely_still _ _ _ H1); [done..|]. by apply (rely_locks _ _ _ H1).
    + etrans; [exact (rely_records _ _ _ H1)|exact (rely_records _ _ _ H2)].
    + intros phone Hk Hp v Hv. pose proof (rely_use _ _ _ H1 phone Hk Hp v Hv) as [He Ht].
      assert (Hv2 : vouched (store d2) v).
      { eapply vouched_untouched; [exact (rely_records _ _ _ H1)|done|done]. }
      apply (rely_locks _ _ _ H1) in Hp. destruct (rely_use _ _ _ H2 phone Hk Hp v Hv2) as [He2 Ht2].
      split; [congruence|auto].
    + pose proof (rely_clock _ _ _ H1); pose proof (rely_clock _ _ _ H2); lia.
Qed.

Lemma guar_is_rely p q d d' : p <> q -> disk_ok d -> guar p d d' -> rely q d d'.
Proof.
  intros Hne Hd Hg. constructor.
  - intros l. by apply (guar_locks _ _ _ Hg).
  - intros Hq. apply (guar_still _ _ _ Hg). intros Hp. by eapply Hne, holds_functional.
  - apply (guar_records _ _ _ Hg).
  - intros phone Hk Hq v Hv. destruct (guar_vouched _ _ _ Hg) as [Hp|Hu]; [|by apply Hu].
    exfalso. apply Hne. eapply holds_functional; [by apply Hp|done].
  - apply (guar_clock _ _ _ Hg).
Qed.

#[export] Instance guar_reflexive p : Reflexive (guar p).
Proof. intros d. constructor; try done. by right. Qed.

(** ** Scripts that hold the lock

    With [releases.lock] held what it guards changes only by the process's own operations.
    [under s m R]: [m] starts with the store [s], keeps what the others rely on, and ends
    with an answer and a store that [R] relates. *)

Definition WP {T} (p : nat) (m : script DiskE T) (Q : T -> Disk -> Prop) (d : Disk) : Prop :=
  wp act disk_ok rely guar p m Q d.

(** *** Scripts that only read

    [reads m Q]: no operation of [m] changes anything, and whatever they answer the result
    is in [Q]. *)

Fixpoint reads {T} (m : script DiskE T) (Q : T -> Prop) : Prop :=
  match m with
  | Done t => Q t
  | Ask e k => (forall p c d, (act _ p e c d).2 = d) /\ forall a, reads (k a) Q
  end.

Lemma script_reads_bind {T U} (m : script DiskE T) (k : T -> script DiskE U) P Q :
  reads m P -> (forall t, P t -> reads (k t) Q) -> reads (then_ m k) Q.
Proof.
  intros Hm Hk. induction m as [t|A e f IH]; cbn [reads then_] in *; [by apply Hk|].
  destruct Hm as [He Hf]. split; [done|]. intros a. by apply IH.
Qed.

Lemma reads_try {T U F} (m : script DiskE (result T F)) (k : T -> script DiskE (result U F)) P Q :
  reads m P -> (forall e, P (Err e) -> Q (Err e)) -> (forall t, P (Ok t) -> reads (k t) Q) -> reads (then_try m k) Q.
Proof. intros Hm He Hk. eapply script_reads_bind; [exact Hm|]. intros [t|e] HP; [by apply Hk|by apply He]. Qed.

Lemma reads_ask {A} (e : DiskE A) : (forall p c d, (act _ p e c d).2 = d) -> reads (ask e) (fun _ => True).
Proof. done. Qed.

Lemma reads_dir q : reads (ask (ReadDir q)) (fun _ => True).
Proof. apply reads_ask. intros p c d. by destruct c. Qed.

Lemma reads_installed_versions phones : reads (installed_versions phones) (fun _ => True).
Proof.
  induction phones as [|phone phones IH]; cbn [installed_versions]; [done|].
  eapply script_reads_bind; [by apply reads_ask|]. intros r _. destruct (load_installed_document r); [|done].
  by eapply reads_try; [exact IH|..].
Qed.

(** A place [prunable] answers is an entry of its area. *)
Definition top_entries (r : result (list Place) Error) : Prop :=
  forall stale, r = Ok stale -> Forall (fun q => exists n, q.2 = [n]) stale.

Lemma reads_prunable keep : reads (prunable keep) top_entries.
Proof.
  assert (Hin : forall a, reads (prunable_in a keep) top_entries).
  { intros a. eapply script_reads_bind; [apply reads_dir|]. intros r _ stale.
    destruct r as [names|e]; [|by destruct (not_found e); [intros [= <-]|]].
    intros [= <-]. apply Forall_forall. intros q Hq%list_elem_of_In%List.in_map_iff.
    destruct Hq as (x & <- & _). by exists x.1. }
  eapply reads_try; [apply Hin|done|]. intros stale Hs. eapply reads_try; [apply Hin|done|]. intros signed Hs2.
  intros all [= <-]. rewrite sort_stable_perm. apply Forall_app. split; [by apply Hs|by apply Hs2].
Qed.

Lemma reads_catalog : reads (ask CatalogVersions) (fun _ => True).
Proof. by apply reads_ask. Qed.

Lemma reads_print q : reads (ask (PrintLine q)) (fun _ => True).
Proof. apply reads_ask. intros p c d. by destruct c. Qed.

Lemma WP_reads {T} p (m : script DiskE T) Q d : reads m Q -> WP p m (fun t _ => Q t) d.
Proof.
  revert d. induction m as [t|A e k IH]; intros d; cbn [reads]; [by intros HQ d' _ _|]. intros [He Hk].
  apply wp_ask. intros d1 c _ Hd1. rewrite He. split_and!; [done|done|]. by apply IH.
Qed.

(** *** What an operation inside one entry leaves alone *)

Definition same_but (n : str) (s s' : Store) : Prop :=
  (forall m, m <> n -> st_entries s' !! m = st_entries s !! m) /\
  st_doc s' = st_doc s /\
  (forall m, m <> n -> m ∈ st_torn s' <-> m ∈ st_torn s).

#[export] Instance same_but_equiv n : Equivalence (same_but n).
Proof.
  split.
  - by intros s.
  - intros s s' (He & Hd & Ht). split_and!; [intros m Hm; by rewrite He|done|intros m Hm; by rewrite Ht].
  - intros s1 s2 s3 (He1 & Hd1 & Ht1) (He2 & Hd2 & Ht2). split_and!.
    + intros m Hm. by rewrite He2, He1.
    + congruence.
    + intros m Hm. by rewrite Ht2, Ht1.
Qed.

Lemma recorded_doc s s' : st_doc s' = st_doc s -> recorded s' = recorded s.
Proof. unfold recorded. by intros ->. Qed.

(** An entry no version can take is the pull's own. *)
Lemma private_step b n s s' : starts_with n PARTIAL_PREFIX = true -> same_but n s s' -> step_ok b s s'.
Proof.
  intros Hn (He & Hd & Ht). pose proof (recorded_doc _ _ Hd) as Hr.
  assert (Hv : store_ok s -> forall v, is_Some (recorded s !! v) -> v <> n).
  { intros Hs v Hv ->. apply (ok_versions _ Hs) in Hv. rewrite version_not_partial in Hn by done. done. }
  constructor.
  - intros Hs. constructor; rewrite Hr; [apply (ok_versions _ Hs)|]. intros v r t Hv' Hent Hdir Htorn.
    assert (v <> n) by (eapply Hv; eauto). rewrite He in Hent by done. rewrite Ht in Htorn by done.
    by eapply (ok_genuine _ Hs).
  - by rewrite Hr.
  - intros _ Hs v [Hv' _]. apply Hv in Hv'; [|done]. split; [by apply He|by apply Ht].
Qed.

Lemma entries_set a m d : entries (set_area a m d) a = m.
Proof. by destruct a. Qed.

Lemma store_put n sub t d :
  store (put (InReleases, n :: sub) t d) =
  {| st_entries := <[n := tree_put sub t (default (Dir []) (entries d InReleases !! n))]> (entries d InReleases);
     st_doc := docs d !! RecordsDoc; st_torn := torn d |}.
Proof. done. Qed.

Definition st_look (s : Store) (n : str) (sub : list str) : option Tree := st_entries s !! n ≫= tree_at sub.

Lemma look_put n sub t d : st_look (store (put (InReleases, n :: sub) t d)) n sub = Some t.
Proof. rewrite store_put. unfold st_look. cbn [st_entries]. rewrite lookup_insert_eq. apply tree_at_put. Qed.

Lemma same_but_put n sub t d : same_but n (store d) (store (put (InReleases, n :: sub) t d)).
Proof. rewrite store_put. split_and!; [|done|done]. intros m Hm. cbn [st_entries]. by rewrite lookup_insert_ne. Qed.

Lemma same_but_cut n sub d : same_but n (store d) (store (cut (InReleases, n :: sub) d)).
Proof.
  unfold cut. cbn [fst snd]. destruct sub as [|n' sub].
  - split_and!; [|done|done]. intros m Hm. cbn. by rewrite lookup_delete_ne.
  - destruct (entries d InReleases !! n) as [t|]; [|done].
    split_and!; [|done|done]. intros m Hm. cbn. by rewrite lookup_insert_ne.
Qed.

Lemma top_level_ne n sub m : m <> n -> m ∉ top_level (InReleases, n :: sub).
Proof. intros Hm. unfold top_level. destruct sub; set_solver. Qed.

Lemma same_but_begin n sub d : same_but n (store d) (store (begin_removal (InReleases, n :: sub) d)).
Proof.
  split_and!; [done|done|]. intros m Hm. cbn [store st_torn begin_removal set_torn torn].
  pose proof (top_level_ne n sub m Hm). set_solver.
Qed.

Lemma same_but_end n sub d : same_but n (store d) (store (end_removal (InReleases, n :: sub) d)).
Proof.
  split_and!; [done|done|]. intros m Hm. cbn [store st_torn end_removal set_torn torn].
  pose proof (top_level_ne n sub m Hm). set_solver.
Qed.

(** *** What a pull of [v] with scratch directory [n] leaves alone *)

Record pulling (v n : str) (s s' : Store) : Prop := {
  pulling_entries : forall m, m <> n -> m <> v -> st_entries s' !! m = st_entries s !! m;
  pulling_torn : forall m, m <> n -> m <> v -> m ∈ st_torn s' <-> m ∈ st_torn s;
  pulling_records : recorded s ⊆ recorded s';
  pulling_others : forall w, w <> v -> recorded s' !! w = recorded s !! w;
}.

#[export] Instance pulling_preorder v n : PreOrder (pulling v n).
Proof.
  split; [by constructor|]. intros s1 s2 s3 H1 H2. constructor.
  - intros m Hn Hv. by rewrite (pulling_entries _ _ _ _ H2), (pulling_entries _ _ _ _ H1).
  - intros m Hn Hv. by rewrite (pulling_torn _ _ _ _ H2), (pulling_torn _ _ _ _ H1).
  - etrans; [exact (pulling_records _ _ _ _ H1)|exact (pulling_records _ _ _ _ H2)].
  - intros w Hw. by rewrite (pulling_others _ _ _ _ H2), (pulling_others _ _ _ _ H1).
Qed.

Lemma same_but_pulling v n s s' : same_but n s s' -> pulling v n s s'.
Proof. intros (He & Hd & Ht). constructor; rewrite ?(recorded_doc _ _ Hd); auto. Qed.

Lemma same_but_pulling_at v n s s' : same_but v s s' -> pulling v n s s'.
Proof. intros (He & Hd & Ht). constructor; rewrite ?(recorded_doc _ _ Hd); auto. Qed.

(** A version nothing vouches for may be replaced by what its record vouches for. *)
Lemma pulling_step b v n s s' :
  starts_with n PARTIAL_PREFIX = true -> pulling v n s s' -> is_Some (build_version v) -> ~ vouched s v ->
  (forall r t, recorded s' !! v = Some r -> st_entries s' !! v = Some t -> is_dir t = true ->
    v ∉ st_torn s' -> genuine (record_sha256 r) t) ->
  step_ok b s s'.
Proof.
  intros Hn Hp Hv Hnv Hnew.
  assert (Hver : store_ok s -> forall w, is_Some (recorded s !! w) -> w <> n).
  { intros Hs w Hw ->. apply (ok_versions _ Hs) in Hw. rewrite version_not_partial in Hn by done. done. }
  constructor.
  - intros Hs. constructor.
    + intros w Hw. destruct (decide (w = v)) as [->|Hne]; [done|].
      rewrite (pulling_others _ _ _ _ Hp) in Hw by done. by apply (ok_versions _ Hs).
    + intros w r t Hw Hent Hdir Htorn. destruct (decide (w = v)) as [->|Hne]; [by apply Hnew|].
      rewrite (pulling_others _ _ _ _ Hp) in Hw by done.
      assert (w <> n) by (apply Hver; [done|by eexists]).
      rewrite (pulling_entries _ _ _ _ Hp) in Hent by done. rewrite (pulling_torn _ _ _ _ Hp) in Htorn by done.
      by eapply (ok_genuine _ Hs).
  - exact (pulling_records _ _ _ _ Hp).
  - intros _ Hs w Hw. destruct (decide (w = v)) as [->|Hne]; [done|].
    assert (w <> n) by (apply Hver; [done|by destruct Hw]).
    split; [by apply (pulling_entries _ _ _ _ Hp)|by apply (pulling_torn _ _ _ _ Hp)].
Qed.

Lemma recorded_valid s : records_valid (recorded s).
Proof.
  unfold recorded. destruct (st_doc s) as [[|v]|]; [apply map_Forall_empty| |apply map_Forall_empty].
  destruct (records_read (ReadValue v)) eqn:E; [by eapply records_read_valid|apply map_Forall_empty].
Qed.

(** What a place's operations leave of the rest of the state. *)
Definition elsewhere (d : Disk) : gmap LockPath LockFile * Z := (locks d, clock d).

Lemma elsewhere_put q t d : elsewhere (put q t d) = elsewhere d.
Proof. unfold put. by destruct q as [[] [|]]. Qed.

Lemma elsewhere_cut q d : elsewhere (cut q d) = elsewhere d.
Proof. destruct q as [[] [|? [|? ?]]]; cbn [cut fst snd]; try done; by case_match. Qed.

Section Under.
Context (p : nat) (L : list LockPath) (prunes : bool).
Context (prunes_locked : prunes = true -> forall phone, phone ∈ known -> PhoneLock phone ∈ L).

Definition mine (s : Store) (d : Disk) : Prop :=
  (forall l, l ∈ L -> holds d p l) /\ holds d p ReleasesLock /\ store d = s.

Definition under {T} (s : Store) (m : script DiskE T) (R : T -> Store -> Prop) : Prop :=
  forall d, disk_ok d -> mine s d -> WP p m (fun t d' => exists s', mine s' d' /\ R t s') d.

Lemma mine_rely s d d' : rely p d d' -> mine s d -> mine s d'.
Proof.
  intros Hr (Hl & Hp & <-). split_and!.
  - intros l Hin. by apply (rely_locks _ _ _ Hr), Hl.
  - by apply (rely_locks _ _ _ Hr).
  - by apply (rely_still _ _ _ Hr).
Qed.

Lemma under_done {T} s (t : T) (R : T -> Store -> Prop) : R t s -> under s (Done t) R.
Proof. intros HR d Hd Hm d' Hr Hi. exists s. split; [by eapply mine_rely|done]. Qed.

Lemma under_bind {T U} s (m : script DiskE T) (k : T -> script DiskE U) (P : T -> Store -> Prop) R :
  under s m P -> (forall t s', P t s' -> under s' (k t) R) -> under s (then_ m k) R.
Proof.
  intros Hm Hk d Hd Hs. eapply wp_bind; [apply _|by apply Hm|].
  intros t d' Hd' (s' & Hs' & HP). by eapply Hk.
Qed.

Lemma under_try {T U F} s (m : script DiskE (result T F)) (k : T -> script DiskE (result U F)) P R :
  under s m P ->
  (forall e s', P (Err e) s' -> R (Err e) s') ->
  (forall t s', P (Ok t) s' -> under s' (k t) R) ->
  under s (then_try m k) R.
Proof. intros Hm He Hk. eapply under_bind; [exact Hm|]. intros [t|e] s' HP; [by apply Hk|by apply under_done, He]. Qed.

Lemma under_mono {T} s (m : script DiskE T) (P R : T -> Store -> Prop) :
  under s m P -> (forall t s', P t s' -> R t s') -> under s m R.
Proof. intros Hm HR d Hd Hs. eapply wp_mono; [|by apply Hm]. intros t d' (s' & Hs' & HP). eauto. Qed.

(** What a store the lock guards is known to be. *)
Lemma under_ok {T} s (m : script DiskE T) (R : T -> Store -> Prop) : (store_ok s -> under s m R) -> under s m R.
Proof. intros Hm d Hd Hs. apply Hm; try done. destruct Hs as (_ & _ & <-). apply (ok_store _ Hd). Qed.

(** One operation that touches no lock. *)
Lemma under_op {A} s (e : DiskE A) (R : A -> Store -> Prop) :
  (forall d c, store d = s ->
    let d' := (act A p e c d).2 in
    locks d' = locks d /\ clock d <= clock d' /\ step_ok prunes s (store d') /\ R (act A p e c d).1 (store d')) ->
  under s (ask e) R.
Proof.
  intros Hop d Hd Hs. apply wp_ask. intros d1 c Hr Hd1.
  pose proof (mine_rely s d d1 Hr Hs) as (Hl & Hp & Hs1).
  destruct (Hop d1 c Hs1) as (El & Hc & Hstep & HR). set (d2 := (act A p e c d1).2) in *.
  assert (Hh : forall q l, holds d1 q l <-> holds d2 q l) by (intros q l; unfold holds; by rewrite El).
  split_and!.
  - constructor.
    + intros phone Hk. rewrite El. by apply (ok_known _ Hd1).
    + apply (step_store _ _ _ Hstep). rewrite <- Hs1. apply (ok_store _ Hd1).
  - constructor; rewrite ?Hs1; [by intros|done|apply (step_records _ _ _ Hstep)| |done].
    destruct prunes eqn:Ep; [left|right; apply (step_vouched _ _ _ Hstep eq_refl); rewrite <- Hs1; apply (ok_store _ Hd1)].
    intros phone Hk. by apply Hl, prunes_locked.
  - intros d3 Hr3 Hd3. exists (store d2). split; [|done].
    eapply mine_rely; [exact Hr3|]. split_and!; [|by apply Hh|done]. intros l Hin. by apply Hh, Hl.
Qed.

Lemma step_ok_refl b s : step_ok b s s.
Proof. done. Qed.

(** An operation that changes nothing the lock guards. *)
Lemma under_quiet {A} s (e : DiskE A) (R : A -> Store -> Prop) :
  (forall d c, store d = s ->
    let d' := (act A p e c d).2 in
    locks d' = locks d /\ clock d <= clock d' /\ store d' = s /\ R (act A p e c d).1 s) ->
  under s (ask e) R.
Proof.
  intros Hop. apply under_op. intros d c Hs. cbv zeta. destruct (Hop d c Hs) as (? & ? & -> & ?). by split_and!.
Qed.

(** *** The operations, each with what it answers *)

Lemma under_pure {A} s (e : DiskE A) (f : Choice -> Disk -> A) (R : A -> Store -> Prop) :
  (forall c d, act A p e c d = (f c d, d)) -> (forall c d, store d = s -> R (f c d) s) -> under s (ask e) R.
Proof. intros He HR. apply under_quiet. intros d c Hs. rewrite He. split_and!; [done|cbn; lia|done|by apply HR]. Qed.

Lemma under_find_build s v :
  under s (ask (FindBuild v))
    (fun r s' => s' = s /\ forall b, r = Ok (Some b) -> version b = v /\ is_sha256 (sha256 b) = true).
Proof.
  eapply under_pure with (f := fun c d => (act _ p (FindBuild v) c d).1); [intros c d; destruct c; cbn [act]; by repeat case_match|].
  intros c d _. split; [done|]. intros b. destruct c; cbn [act fst]; try done.
  destruct r as [[b'|]|]; cbn [fst]; try done. destruct (str_eqb _ _ && _) eqn:E; [|done].
  intros [= <-]. bool_to_prop. by rewrite <- str_eqb_eq.
Qed.

Lemma under_load_records s :
  under s load_records (fun r s' => s' = s /\ forall rs, r = Ok rs -> rs = recorded s).
Proof.
  eapply under_bind with (P := fun r s' => s' = s /\ forall rs, records_read r = Ok rs -> rs = recorded s).
  - eapply under_pure with (f := fun c d => read_document RecordsDoc c d); [done|].
    intros c d <-. split; [done|]. unfold recorded, read_document, store. cbn [st_doc].
    destruct c; intros rs Hrs; try done; (destruct (docs d !! RecordsDoc) as [[|v]|];
      [done|by rewrite Hrs|by injection Hrs]).
  - intros r s' [-> Hr]. by apply under_done.
Qed.

Lemma under_is_dir s v :
  under s (ask (IsDir (version_dir v))) (fun r s' => s' = s /\ r = dir_at s v).
Proof.
  eapply under_pure with (f := fun _ d => dir_at (store d) v); [|by intros c d <-].
  intros c d. cbn [act]. unfold look, version_dir, dir_at. cbn [fst snd store st_entries].
  by destruct (entries d InReleases !! v).
Qed.

Lemma under_read_dir s n sub :
  under s (ask (ReadDir (InReleases, n :: sub)))
    (fun r s' => s' = s /\ forall names, r = Ok names -> exists c, st_look s n sub = Some (Dir c) /\ names = listed c).
Proof.
  eapply under_pure with (f := fun c d => (act _ p (ReadDir (InReleases, n :: sub)) c d).1); [intros c d; by destruct c|].
  intros c d <-. split; [done|]. intros names. unfold st_look, store. cbn [st_entries].
  destruct c; cbn [act fst]; try done; unfold read_dir, look; cbn [fst snd];
    (destruct (entries d InReleases !! n ≫= tree_at sub) as [[|ch]|]; try done; intros [= <-]; eauto).
Qed.

Lemma under_read_area s :
  under s (ask (ReadDir (InReleases, [])))
    (fun r s' => s' = s /\ forall names, r = Ok names -> names = listed (map_to_list (st_entries s))).
Proof.
  eapply under_pure with (f := fun c d => (act _ p (ReadDir (InReleases, [])) c d).1); [intros c d; by destruct c|].
  intros c d <-. split; [done|]. intros names. unfold store, entries. cbn [st_entries].
  destruct c; cbn [act fst]; try done; unfold read_dir; cbn [fst snd]; cbn [area];
    (destruct (releases_dir d) as [m|]; [by intros [= <-]|done]).
Qed.

(** One operation inside the scratch directory. *)
Lemma under_private {A} s n (e : DiskE A) (R : A -> Store -> Prop) :
  starts_with n PARTIAL_PREFIX = true ->
  (forall d c, store d = s ->
    elsewhere (act A p e c d).2 = elsewhere d /\ same_but n s (store (act A p e c d).2) /\
    R (act A p e c d).1 (store (act A p e c d).2)) ->
  under s (ask e) R.
Proof.
  intros Hn Hop. apply under_op. intros d c Hs. cbv zeta. destruct (Hop d c Hs) as (He & Hb & HR).
  unfold elsewhere in He. injection He as El Ec. split_and!; [done|lia|by eapply private_step|done].
Qed.

(** One operation that changes nothing, or what the others can bear. *)
Lemma under_change {A} s (e : DiskE A) (R : A -> Store -> Prop) :
  (forall d c, store d = s ->
    elsewhere (act A p e c d).2 = elsewhere d /\
    (store (act A p e c d).2 = s \/ step_ok prunes s (store (act A p e c d).2)) /\
    R (act A p e c d).1 (store (act A p e c d).2)) ->
  under s (ask e) R.
Proof.
  intros Hop. apply under_op. intros d c Hs. cbv zeta. destruct (Hop d c Hs) as (He & Hst & HR).
  unfold elsewhere in He. injection He as El Ec. split_and!; [done|lia| |done].
  destruct Hst as [->|Hst]; done.
Qed.

Lemma under_create_dir_all s : under s (ask (CreateDirAll InReleases)) (fun r s' => s' = s).
Proof.
  apply under_quiet. intros d c <-. cbv zeta. cbn [act]. unfold done_or_broken.
  destruct c; cbn [fst snd]; (split_and!; [done|cbn; lia| |done]); try done;
    unfold store; by rewrite entries_set.
Qed.

Lemma under_make_scratch s :
  under s (ask MakeScratch) (fun r s' =>
    match r with
    | Ok n => starts_with n PARTIAL_PREFIX = true /\ same_but n s s'
    | Err _ => s' = s
    end).
Proof.
  apply under_op. intros d c <-. cbv zeta. cbn [act]. destruct c; try by (split_and!; [..|cbn; lia| |]).
  destruct (entries d InReleases !! (PARTIAL_PREFIX ++ name)) eqn:E; cbn [fst snd].
  - by split_and!; [..|cbn; lia| |].
  - assert (Hn : starts_with (PARTIAL_PREFIX ++ name) PARTIAL_PREFIX = true) by (apply starts_with_spec; eauto).
    split_and!; [done|cbn; lia| |done|apply same_but_put].
    eapply private_step; [exact Hn|apply same_but_put].
Qed.

Ltac scratch_step :=
  split; [|split]; try first
    [ done | by rewrite elsewhere_put | by rewrite elsewhere_cut | apply same_but_put
    | split; [done || apply same_but_put|]; try first [by intros [=]|intros _; apply look_put] ].

(** Writing a place of the scratch directory: a new file, more of a file, an archive unpacked. *)
Lemma under_create_file s n m :
  starts_with n PARTIAL_PREFIX = true ->
  under s (ask (CreateFile (in_scratch n m))) (fun r s' =>
    same_but n s s' /\ (r = Ok tt -> st_look s' n [m] = Some (File []))).
Proof.
  intros Hn. eapply under_private; [exact Hn|]. intros d c <-. cbn [act]. unfold done_or_broken, in_scratch.
  destruct c; cbn [fst snd]; scratch_step.
Qed.

Lemma under_append_file s n m old bytes :
  starts_with n PARTIAL_PREFIX = true -> st_look s n [m] = Some (File old) ->
  under s (ask (AppendFile (in_scratch n m) bytes)) (fun r s' =>
    same_but n s s' /\ (r = Ok tt -> st_look s' n [m] = Some (File (old ++ bytes)))).
Proof.
  intros Hn Hold. eapply under_private; [exact Hn|]. intros d c <-.
  assert (El : look d (in_scratch n m) = Some (File old)) by exact Hold.
  cbn [act]. rewrite El. unfold in_scratch.
  destruct c; cbn [fst snd]; scratch_step.
Qed.

Lemma under_ditto s n zip m bytes :
  starts_with n PARTIAL_PREFIX = true -> st_look s n [zip] = Some (File bytes) ->
  under s (ask (Ditto (in_scratch n zip) (in_scratch n m))) (fun r s' =>
    same_but n s s' /\ (r = Ok tt -> exists t, unzip bytes = Some t /\ st_look s' n [m] = Some t)).
Proof.
  intros Hn Hzip. eapply under_private; [exact Hn|]. intros d c <-.
  assert (El : look d (in_scratch n zip) = Some (File bytes)) by exact Hzip.
  cbn [act]. unfold ditto. rewrite El. unfold in_scratch.
  destruct c; cbn [fst snd]; try (by scratch_step);
    (destruct (unzip bytes) as [t0|]; cbn [fst snd]; scratch_step).
  all: intros _; exists t0; split; [done|apply look_put].
Qed.

Lemma under_shred s n :
  starts_with n PARTIAL_PREFIX = true -> under s (ask (Shred (InReleases, [n]))) (fun _ s' => same_but n s s').
Proof.
  intros Hn. eapply under_private; [exact Hn|]. intros d c <-. cbn [act].
  assert (Hb : same_but n (store d) (store (begin_removal (InReleases, [n]) d))) by apply same_but_begin.
  destruct (look d (InReleases, [n])) as [[]|]; try done.
  destruct c; cbn [fst snd]; try done.
  split; [done|split]; (etrans; [apply same_but_put|apply same_but_begin]).
Qed.

Lemma under_remove_rest s n :
  starts_with n PARTIAL_PREFIX = true -> under s (ask (RemoveRest (InReleases, [n]))) (fun _ s' => same_but n s s').
Proof.
  intros Hn. eapply under_private; [exact Hn|]. intros d c <-. cbn [act].
  assert (Hb : same_but n (store d) (store (end_removal (InReleases, [n]) d))) by apply same_but_end.
  assert (Hc : same_but n (store d) (store (end_removal (InReleases, [n]) (cut (InReleases, [n]) d)))).
  { etrans; [apply same_but_cut|apply same_but_end]. }
  destruct c, (look d (InReleases, [n])) as [[]|]; cbn [fst snd]; done.
Qed.

Lemma under_remove_dir s n :
  starts_with n PARTIAL_PREFIX = true -> under s (remove_dir_all (InReleases, [n])) (fun _ s' => same_but n s s').
Proof.
  intros Hn. eapply under_bind; [by apply under_shred|]. intros [] s1 H1.
  eapply under_mono; [by apply under_remove_rest|]. intros r s2 H2. cbn beta in *. by etrans.
Qed.

(** *** The operations that change what the lock guards *)

Lemma rename_steps from to t d r d' :
  look d from = Some t -> rename from to d = (r, d') ->
  d' = d /\ (exists why, r = Err {| not_found := false; io_text := why |}) \/
  r = Ok tt /\ d' = end_removal from (end_removal to (put to t (cut from d))).
Proof.
  intros El. unfold rename. rewrite El. destruct (look d to) as [[|[|? ?]]|]; intros [= <- <-]; eauto.
Qed.

Lemma elsewhere_renamed from to t d :
  elsewhere (end_removal from (end_removal to (put to t (cut from d)))) = elsewhere d.
Proof. etrans; [apply (elsewhere_put to t (cut from d))|apply elsewhere_cut]. Qed.

Definition aside_moved (v n : str) (d : Disk) (x : result unit IoError * Disk) : Prop :=
  elsewhere x.2 = elsewhere d /\ st_doc (store x.2) = st_doc (store d) /\ pulling v n (store d) (store x.2) /\
  match x.1 with
  | Ok tt => st_entries (store x.2) !! v = None
  | Err e => x.2 = d /\ (not_found e = true -> st_entries (store d) !! v = None)
  end.

Lemma rename_aside v n m d : v <> n -> aside_moved v n d (rename (version_dir v) (in_scratch n m) d).
Proof.
  intros Hvn. unfold aside_moved. destruct (look d (version_dir v)) as [t|] eqn:El.
  - destruct (rename _ _ d) as [r d'] eqn:Er. destruct (rename_steps _ _ _ _ _ _ El Er) as [[-> [why ->]]|[-> ->]].
    { by split_and!. }
    split; [apply elsewhere_renamed|split; [done|split]].
    + etrans; [apply same_but_pulling_at, (same_but_cut v [])|].
      etrans; [apply same_but_pulling, (same_but_put n [m])|].
      etrans; [apply same_but_pulling, (same_but_end n [m])|apply same_but_pulling_at, (same_but_end v [])].
    + cbn. rewrite lookup_insert_ne by done. apply lookup_delete_eq.
  - unfold rename. rewrite El. cbn [fst snd]. split; [done|split; [done|split; [done|split; [done|]]]].
    intros _. unfold look, version_dir in El. cbn [fst snd] in El.
    cbn [store st_entries]. by destruct (entries d InReleases !! v).
Qed.

Lemma under_set_aside s v n :
  starts_with n PARTIAL_PREFIX = true -> is_Some (build_version v) -> ~ vouched s v ->
  under s (set_aside v n) (fun r s' =>
    pulling v n s s' /\ recorded s' = recorded s /\
    match r with Ok tt => st_entries s' !! v = None | Err (PullFailed _) => True | Err (PullRefused _) => False end).
Proof.
  intros Hn Hv Hnv. assert (Hvn : v <> n) by (intros ->; rewrite version_not_partial in Hn; done).
  eapply under_bind with (P := fun r s' => pulling v n s s' /\ recorded s' = recorded s /\
    match r with Ok tt => st_entries s' !! v = None | Err e => not_found e = true -> st_entries s' !! v = None end).
  2: { intros [[]|e] s' (Hp & Hr & He); apply under_done; [done|].
       destruct (not_found e); auto. }
  apply under_change. intros d c <-.
  assert (Ha : aside_moved v n d (act _ p (Rename (version_dir v) (in_scratch n (lit "unverified"))) c d)).
  { destruct c; try by apply rename_aside. by split_and!. }
  destruct (act _ _ _ _ _) as [r d']. unfold aside_moved in Ha. cbn [fst snd] in *. destruct Ha as (Hl & Hdoc & Hp & Hr).
  split; [done|]. split; [|split; [done|split; [by apply recorded_doc|]]].
  - destruct r as [[]|e]; [right|left; by destruct Hr as [-> _]].
    eapply pulling_step; [done..|]. congruence.
  - destruct r as [[]|e]; [done|]. by destruct Hr as [-> ?].
Qed.

(** The first record of a version. *)
Lemma recorded_put d rs :
  records_valid rs -> recorded (store (set_doc RecordsDoc (Written (records_to_value rs)) d)) = rs.
Proof.
  intros Hv. unfold recorded, store. cbn [st_doc set_doc docs]. rewrite lookup_insert_eq.
  by rewrite records_come_back.
Qed.

Lemma under_record s v n b :
  starts_with n PARTIAL_PREFIX = true -> is_Some (build_version v) -> is_sha256 (sha256 b) = true ->
  st_entries s !! v = None ->
  under s (record rfc3339 (recorded s) v b) (fun r s' =>
    pulling v n s s' /\ st_entries s' = st_entries s /\
    match r with
    | Ok tt => exists rec, recorded s' !! v = Some rec /\
        (recorded s !! v = None -> record_sha256 rec = sha256 b) /\ (recorded s !! v = Some rec \/ recorded s !! v = None)
    | Err _ => recorded s' = recorded s
    end).
Proof.
  intros Hn Hv Hsha Hnone. unfold record. destruct (recorded s !! v) as [rec|] eqn:Erec.
  { apply under_done. split; [done|split; [done|]]. exists rec. split_and!; [done|done|by left]. }
  eapply under_bind with (P := fun _ s' => s' = s).
  { apply under_quiet. intros d c <-. cbv zeta. cbn [act fst snd]. unfold passed.
    split; [done|split; [destruct c; cbn; lia|done]]. }
  intros now s' ->. set (rec := {| record_sha256 := _ |}).
  eapply under_bind with (P := fun r s' => pulling v n s s' /\ st_entries s' = st_entries s /\
    match r with Ok tt => recorded s' !! v = Some rec | Err _ => recorded s' = recorded s end).
  2: { intros [[]|e] s' (Hp & He & Hr); apply under_done; [|done]. split; [done|split; [done|]]. exists rec. auto. }
  apply under_change. intros d c <-. cbn [act]. unfold done_or_broken.
  assert (Hr : recorded (store (set_doc RecordsDoc (Written (records_to_value (<[v:=rec]> (recorded (store d))))) d))
    = <[v:=rec]> (recorded (store d))).
  { apply recorded_put, map_Forall_insert_2; [done|apply recorded_valid]. }
  assert (Hp : pulling v n (store d)
    (store (set_doc RecordsDoc (Written (records_to_value (<[v:=rec]> (recorded (store d))))) d))).
  { constructor; rewrite ?Hr; [done|done|by apply insert_subseteq|]. intros w Hw. by apply lookup_insert_ne. }
  assert (Hs : step_ok prunes (store d)
    (store (set_doc RecordsDoc (Written (records_to_value (<[v:=rec]> (recorded (store d))))) d))).
  { eapply pulling_step; [done..| |].
    - intros [[x Hx] _]. congruence.
    - intros r t _ Ht. change (st_entries (store d) !! v = Some t) in Ht. congruence. }
  destruct c; cbn [fst snd]; try (split; [done|split; [by right|]]; split; [done|split; [done|]]; rewrite Hr;
    apply lookup_insert_eq).
  split; [done|split; [by left|]]. done.
Qed.

(** The bytes written are the file. *)
Lemma under_copy watched n m body ended : forall written s,
  starts_with n PARTIAL_PREFIX = true -> st_look s n [m] = Some (File written) ->
  under s (copy watched (in_scratch n m) written body ended) (fun r s' =>
    same_but n s s' /\ forall all, r = Ok all -> st_look s' n [m] = Some (File all)).
Proof.
  induction body as [|buf body IH]; intros written s Hn Hl; cbn [copy].
  { apply under_done. split; [done|]. destruct ended; [done|]. by intros all [= <-]. }
  eapply under_bind with (P := fun _ s' => s' = s).
  { destruct watched; [|by apply under_done]. by eapply under_pure with (f := fun c _ => match c with Signalled => true | _ => false end). }
  intros raised s' ->. destruct raised; [by apply under_done|].
  eapply under_try.
  - eapply under_bind; [by apply under_append_file|]. intros r s1 [Hb Hr]. apply under_done.
    instantiate (1 := fun r s' => same_but n s s' /\ (r = Ok tt -> st_look s' n [m] = Some (File (written ++ buf)))).
    split; [done|]. by destruct r as [[]|].
  - cbn beta. intros e s1 [Hb _]. done.
  - cbn beta. intros [] s1 [Hb Hr]. eapply under_mono; [apply IH; [done|by apply Hr]|].
    intros r s2 [Hb2 Hr2]. cbn beta. split; [by etrans|done].
Qed.

Lemma under_download watched s n m key :
  starts_with n PARTIAL_PREFIX = true ->
  under s (download watched key (in_scratch n m)) (fun r s' =>
    same_but n s s' /\
    forall sha, r = Ok sha -> exists all, sha = sha256_of all /\ st_look s' n [m] = Some (File all)).
Proof.
  intros Hn. unfold download. eapply under_try.
  - eapply under_bind; [by apply under_create_file|]. intros r s1 [Hb Hr]. apply under_done.
    instantiate (1 := fun r s' => same_but n s s' /\ (r = Ok tt -> st_look s' n [m] = Some (File []))).
    split; [done|]. by destruct r as [[]|].
  - cbn beta. intros e s1 [Hb _]. split; [done|by intros ? [=]].
  - cbn beta. intros [] s1 [Hb Hr]. eapply under_bind with (P := fun _ s' => s' = s1).
    { by eapply under_pure with (f := fun c _ => match c with Sent body ended => (body, ended) | _ => ([], None) end). }
    intros sent s' ->. eapply under_bind.
    + eapply under_bind; [by apply under_copy, Hr|]. intros r s2 [Hb2 Hr2]. apply under_done.
      instantiate (1 := fun r s' => same_but n s s' /\ forall all, r = Ok all -> st_look s' n [m] = Some (File all)).
      split; [by etrans|]. destruct r; [done|]. by intros all.
    + cbn beta. intros [all|e] s2 [Hb2 Hr2]; apply under_done; (split; [done|]); [|done].
      intros sha [= <-]. exists all. split; [done|by apply Hr2].
Qed.

Lemma under_unpack s n zip m key bytes :
  starts_with n PARTIAL_PREFIX = true -> st_look s n [zip] = Some (File bytes) ->
  under s (unpack (in_scratch n zip) (in_scratch n m) key) (fun r s' =>
    same_but n s s' /\
    match r with
    | Ok tt => exists t, unzip bytes = Some t /\ st_look s' n [m] = Some t
    | Err (PullRefused (UnpackFailed _ _)) | Err (PullFailed _) => True
    | Err _ => False
    end).
Proof.
  intros Hn Hl. eapply under_bind; [by apply under_ditto|]. intros r s1 [Hb Hr]. apply under_done.
  split; [done|]. destruct r as [[]|[]]; [by apply Hr|done..].
Qed.

(** *** The home of what was unpacked *)

Lemma under_sorted_children s n sub :
  under s (sorted_children (InReleases, n :: sub)) (fun r s' => s' = s /\
    forall names, r = Ok names -> exists c, st_look s n sub = Some (Dir c) /\ names = kids (Dir c)).
Proof.
  eapply under_bind with (P := fun r s' => s' = s /\
    forall names, r = Ok names -> exists c, st_look s n sub = Some (Dir c) /\ names = listed c).
  - eapply under_bind; [apply under_read_dir|]. intros r s' [-> Hr]. apply under_done. split; [done|].
    destruct r as [names|]; [|done]. cbn. intros names' [= <-]. by apply Hr.
  - intros r s' [-> Hr]. apply under_done. split; [done|]. destruct r as [names|]; [|done].
    intros names' [= <-]. destruct (Hr names eq_refl) as (c & Hc & ->). by exists c.
Qed.

Lemma st_look_child s n m t f : st_look s n [m] = Some t -> st_look s n [m; f] = assoc f (children t).
Proof.
  unfold st_look. destruct (st_entries s !! n) as [t0|]; [|done]. cbn [mbind option_bind tree_at].
  destruct (assoc m (children t0)) as [t1|]; [|done]. cbn [mbind option_bind]. intros [= ->].
  by destruct (assoc f (children t)).
Qed.

Lemma under_wrapping s n m t folders :
  st_look s n [m] = Some t ->
  under s (wrapping (in_scratch n m) folders) (fun r s' => s' = s /\
    forall o, r = Ok o ->
      match List.find (fun f => existsb is_archive (kids (child t f.1))) folders with
      | Some f => o = Some (InReleases, [n; m; f.1]) /\ st_look s n [m; f.1] = Some (child t f.1)
      | None => o = None
      end).
Proof.
  intros Ht. induction folders as [|f folders IH]; cbn [wrapping List.find].
  { apply under_done. split; [done|]. by intros o [= <-]. }
  eapply under_try; [apply (under_sorted_children s n [m; f.1])|by intros e s' [-> _]|].
  intros names s' [-> Hnames]. destruct (Hnames names eq_refl) as (c & Hc & ->).
  assert (Hchild : child t f.1 = Dir c).
  { unfold child. by rewrite <- (st_look_child s n m t), Hc. }
  rewrite Hchild. destruct (existsb is_archive (kids (Dir c))); [|done].
  apply under_done. split; [done|]. intros o [= <-]. by rewrite Hc, Hchild.
Qed.

Lemma under_archive_home s n m t :
  st_look s n [m] = Some t ->
  under s (archive_home (in_scratch n m)) (fun r s' => s' = s /\
    forall o, r = Ok o ->
      match o with
      | Some home => exists sub u, home = (InReleases, n :: m :: sub) /\ st_look s n (m :: sub) = Some u /\ home_of t = Some u
      | None => home_of t = None
      end).
Proof.
  intros Ht. eapply under_try; [apply (under_sorted_children s n [m])|by intros e s' [-> _]|].
  intros names s' [-> Hnames]. destruct (Hnames names eq_refl) as (c & Hc & ->).
  rewrite Hc in Ht. injection Ht as <-. unfold home_of. destruct (existsb is_archive (kids (Dir c))).
  - apply under_done. split; [done|]. intros o [= <-]. by exists [], (Dir c).
  - eapply under_mono; [by apply under_wrapping|]. intros r s' [-> Hr]. split; [done|]. intros o Ho.
    specialize (Hr o Ho). destruct (List.find _ _) as [f|]; [|by rewrite Hr].
    destruct Hr as [-> Hl]. by exists [f.1], (child (Dir c) f.1).
Qed.

Lemma home_is_dir t u : home_of t = Some u -> is_dir u = true.
Proof.
  assert (Hk : forall x, existsb is_archive (kids x) = true -> is_dir x = true) by (by intros [|]).
  unfold home_of. destruct (existsb is_archive (kids t)) eqn:E; [intros [= <-]; auto|].
  destruct (List.find _ _) as [f|] eqn:Ef; [|done]. apply List.find_some in Ef as [_ Ef].
  cbn. intros [= <-]. auto.
Qed.

Lemma under_rename_home s v n m sub u :
  starts_with n PARTIAL_PREFIX = true -> is_Some (build_version v) ->
  st_entries s !! v = None -> st_look s n (m :: sub) = Some u ->
  (forall r, recorded s !! v = Some r -> genuine (record_sha256 r) u) ->
  under s (ask (Rename (InReleases, n :: m :: sub) (version_dir v))) (fun r s' =>
    pulling v n s s' /\ recorded s' = recorded s /\
    (r = Ok tt -> st_entries s' !! v = Some u /\ v ∉ st_torn s')).
Proof.
  intros Hn Hv Hnone Hu Hgen. assert (Hvn : v <> n) by (intros ->; rewrite version_not_partial in Hn; done).
  apply under_change. intros d c <-. cbn [act].
  assert (El : look d (InReleases, n :: m :: sub) = Some u) by exact Hu.
  assert (Et : look d (version_dir v) = None).
  { unfold look, version_dir. cbn [fst snd]. cbn [store st_entries] in Hnone. by rewrite Hnone. }
  set (d1 := end_removal (InReleases, n :: m :: sub) (end_removal (version_dir v) (put (version_dir v) u (cut (InReleases, n :: m :: sub) d)))).
  assert (Er : rename (InReleases, n :: m :: sub) (version_dir v) d = (Ok tt, d1)).
  { unfold rename. by rewrite El, Et. }
  assert (Hp : pulling v n (store d) (store d1)).
  { etrans; [apply same_but_pulling, (same_but_cut n (m :: sub))|].
    etrans; [apply same_but_pulling_at, (same_but_put v [])|].
    etrans; [apply same_but_pulling_at, (same_but_end v [])|apply same_but_pulling, (same_but_end n (m :: sub))]. }
  assert (Hdoc : st_doc (store d1) = st_doc (store d)).
  { subst d1. unfold store, cut. cbn [fst snd st_doc]. by destruct (entries d InReleases !! n). }
  assert (Hent : st_entries (store d1) !! v = Some u).
  { subst d1. cbn [store st_entries end_removal set_torn]. apply lookup_insert_eq. }
  assert (Htorn : v ∉ st_torn (store d1)).
  { subst d1. cbn [store st_torn end_removal set_torn torn]. unfold top_level, version_dir. set_solver. }
  assert (Hs : step_ok prunes (store d) (store d1)).
  { eapply pulling_step; [done..| |].
    - intros [_ Hd]. unfold dir_at in Hd. by rewrite Hnone in Hd.
    - intros r t. rewrite (recorded_doc _ _ Hdoc), Hent. intros Hr [= <-] _ _. by apply Hgen. }
  rewrite Er. destruct c; cbn [fst snd];
    try (split; [apply elsewhere_renamed|split; [by right|split; [done|split; [by apply recorded_doc|done]]]]).
  split; [done|split; [by left|done]].
Qed.

(** *** A pull *)

(** [releases/<version>/] is what the digest of [b] vouches for. *)
Definition settled (b : Build) (s : Store) : Prop :=
  exists r t, recorded s !! version b = Some r /\ record_sha256 r = sha256 b /\
    st_entries s !! version b = Some t /\ is_dir t = true /\
    (version b ∉ st_torn s -> genuine (sha256 b) t).

(** A refusal after the download: what was there is gone with it. *)
Definition pull_outcome (b : Build) (r : result Place PullFailure) (s : Store) : Prop :=
  match r with
  | Ok q => q = version_dir (version b) /\ settled b s
  | Err (PullRefused (DigestMismatch _ _ _ | NoArchive _ | UnpackFailed _ _)) => st_entries s !! version b = None
  | Err (PullRefused (NotPublished _ _ | Busy _ | DigestChanged _ _ _ _)) => False
  | Err (PullFailed _) => True
  end.

Lemma under_failing {T} s (m : script DiskE (result T Error)) (P : result T Error -> Store -> Prop) :
  under s m P ->
  under s (failing m) (fun r s' => exists r0, r = map_err PullFailed r0 /\ P r0 s').
Proof. intros Hm. eapply under_bind; [exact Hm|]. intros r s' HP. apply under_done. eauto. Qed.

Lemma under_try_failing {T U} s (m : script DiskE (result T Error)) (k : T -> script DiskE (result U PullFailure))
    (P : result T Error -> Store -> Prop) R :
  under s m P ->
  (forall e s', P (Err e) s' -> R (Err (PullFailed e)) s') ->
  (forall t s', P (Ok t) s' -> under s' (k t) R) ->
  under s (then_try (failing m) k) R.
Proof.
  intros Hm He Hk. eapply under_try; [by apply under_failing|..].
  - intros e s' ([t|e0] & Hr & HP); [done|]. injection Hr as ->. auto.
  - intros t s' ([t0|e0] & Hr & HP); [|done]. injection Hr as ->. auto.
Qed.

Lemma under_within {T} s what (m : script DiskE (result T Error)) (P : result T Error -> Store -> Prop) (R : result T Error -> Store -> Prop) :
  under s m P ->
  (forall t s', P (Ok t) s' -> R (Ok t) s') -> (forall e s', P (Err e) s' -> R (Err (with_context what e)) s') ->
  under s (within what m) R.
Proof. intros Hm Hok He. eapply under_bind; [exact Hm|]. intros [t|e] s' HP; apply under_done; cbn; auto. Qed.

Lemma settled_same n b s s' :
  same_but n s s' -> version b <> n -> settled b s -> settled b s'.
Proof.
  intros (He & Hd & Ht) Hne (r & t & Hr & Hsha & Hent & Hdir & Hgen). exists r, t.
  rewrite (recorded_doc _ _ Hd), He, Ht by done. done.
Qed.

Lemma outcome_same n b r s s' :
  same_but n s s' -> version b <> n -> pull_outcome b r s -> pull_outcome b r s'.
Proof.
  intros Hs Hne. unfold pull_outcome. destruct r as [q|[[]|]]; try done;
    try (intros <-; by apply Hs). intros [-> Hset]. split; [done|by eapply settled_same].
Qed.

Section PullInto.
Context (watched : bool) (b : Build) (n : str).
Notation v := (version b).
Context (Hn : starts_with n PARTIAL_PREFIX = true) (Hv : is_Some (build_version v))
  (Hsha : is_sha256 (sha256 b) = true).

(** From the verified bytes on. *)
Lemma under_place s s0 bytes :
  pulling v n s0 s -> st_entries s !! v = None ->
  (forall r, recorded s !! v = Some r -> record_sha256 r = sha256 b) ->
  st_look s n [lit "archive.zip"] = Some (File bytes) -> sha256_of bytes = sha256 b ->
  under s (do? _ <- failing (record rfc3339 (recorded s) v b);
           let unpacked := in_scratch n (lit "unpacked") in
           do? _ <- unpack (in_scratch n (lit "archive.zip")) unpacked (key b);
           do? home <- failing (archive_home unpacked);
           match home with
           | None => Done (Err (PullRefused (NoArchive (key b))))
           | Some home =>
               do r <- ask (Rename home (version_dir v));
               Done (match r with
                     | Ok tt => Ok (version_dir v)
                     | Err e =>
                         Err (PullFailed (with_context
                           (lit "moving the unpacked archive to " ++ place_text (version_dir v)) (io_error e)))
                     end)
           end) (fun r s' => pulling v n s0 s' /\ pull_outcome b r s').
Proof.
  intros Hp0 Hnone Hrec Hzip Hbytes. assert (Hvn : v <> n) by (intros E; rewrite <- E, version_not_partial in Hn; done).
  eapply under_try_failing; [by apply (under_record s v n b)|intros e s1 (Hp & _); split; [by etrans|done]|].
  intros [] s1 (Hp1 & He1 & rec & Hr1 & Hnew & Hold). cbv zeta.
  assert (Hrec1 : record_sha256 rec = sha256 b) by (destruct Hold; auto).
  assert (Hzip1 : st_look s1 n [lit "archive.zip"] = Some (File bytes)) by (unfold st_look; by rewrite He1).
  eapply under_try; [by apply under_unpack|..].
  { intros e s2 [Hb2 He]. split; [etrans; [exact Hp0|etrans; [exact Hp1|by apply same_but_pulling]]|].
    destruct e as [[]|]; try done. cbn [pull_outcome]. by rewrite (proj1 Hb2), He1. }
  intros [] s2 [Hb2 (t & Hunzip & Hl2)].
  assert (Hp2 : pulling v n s0 s2) by (etrans; [exact Hp0|etrans; [exact Hp1|by apply same_but_pulling]]).
  assert (Hnone2 : st_entries s2 !! v = None) by (rewrite (proj1 Hb2), He1 by done; done).
  assert (Hr2 : recorded s2 !! v = Some rec) by (by rewrite (recorded_doc s1 s2) by apply Hb2).
  eapply under_try_failing; [by apply under_archive_home|by intros e s3 [-> _]|].
  intros o s3 [-> Ho]. specialize (Ho o eq_refl). destruct o as [home|]; [|by apply under_done].
  destruct Ho as (sub & u & -> & Hu & Hhome).
  assert (Hgen : genuine (sha256 b) u) by (exists bytes, t; done).
  eapply under_bind; [eapply (under_rename_home s2 v n (lit "unpacked") sub u); try done|].
  { intros r. rewrite Hr2. intros [= <-]. by rewrite Hrec1. }
  intros r s3 (Hp3 & Hr3 & Hmoved). apply under_done. split; [by etrans|]. destruct r as [[]|e]; [|done].
  destruct (Hmoved eq_refl) as [Hent Htorn]. split; [done|]. exists rec, u. rewrite Hr3.
  split_and!; try done. by eapply home_is_dir.
Qed.

Lemma under_pull_into s :
  ~ vouched s v -> (forall r, recorded s !! v = Some r -> record_sha256 r = sha256 b) ->
  under s (pull_into rfc3339 watched (recorded s) v b n) (fun r s' => pulling v n s s' /\ pull_outcome b r s').
Proof.
  intros Hnv Hrec. assert (Hvn : v <> n) by (intros E; rewrite <- E, version_not_partial in Hn; done).
  eapply under_try; [by apply under_set_aside|..].
  { intros e s1 (Hp & _ & He). split; [done|]. by destruct e as [[]|]. }
  intros [] s1 (Hp1 & Hr1 & Hnone1). cbv zeta.
  eapply under_try_failing; [by apply under_download|..].
  { intros e s2 [Hb2 _]. split; [etrans; [exact Hp1|by apply same_but_pulling]|done]. }
  intros sha s2 [Hb2 Hdown]. destruct (Hdown sha eq_refl) as (bytes & -> & Hzip).
  assert (Hp2 : pulling v n s s2) by (etrans; [exact Hp1|by apply same_but_pulling]).
  assert (Hnone2 : st_entries s2 !! v = None) by (by rewrite (proj1 Hb2)).
  assert (Hr2 : recorded s2 = recorded s) by (by rewrite (recorded_doc s1 s2) by apply Hb2).
  destruct (negb (str_eqb (sha256_of bytes) (sha256 b))) eqn:Esha; [by apply under_done|].
  apply negb_false_iff, str_eqb_eq in Esha. rewrite <- Hr2. apply (under_place s2 s bytes); try done.
  by rewrite Hr2.
Qed.
End PullInto.

(** Whatever carries the prefix belongs to no one. *)
Lemma under_try_all_private s (f : str -> script DiskE (result unit Error)) (l : list str) (Q : Store -> Prop) :
  Q s ->
  (forall n s, n ∈ l -> Q s -> under s (f n) (fun _ s' => Q s')) ->
  under s (try_all f l) (fun _ s' => Q s').
Proof.
  revert s. induction l as [|n l IH]; intros s Hs Hf; cbn [try_all]; [by apply under_done|].
  eapply under_try; [apply Hf; [by left|done]|done|]. cbn beta. intros _ s' Hs'. apply IH; [done|].
  intros m s2 Hm. apply Hf. by right.
Qed.

(** Nothing but what carries the prefix changes. *)
Record swept (s s' : Store) : Prop := {
  swept_entries : forall m, starts_with m PARTIAL_PREFIX = false -> st_entries s' !! m = st_entries s !! m;
  swept_torn : forall m, starts_with m PARTIAL_PREFIX = false -> m ∈ st_torn s' <-> m ∈ st_torn s;
  swept_doc : st_doc s' = st_doc s;
}.

#[export] Instance swept_preorder : PreOrder swept.
Proof.
  split; [by constructor|]. intros s1 s2 s3 H1 H2. constructor.
  - intros m Hm. by rewrite (swept_entries _ _ H2), (swept_entries _ _ H1).
  - intros m Hm. by rewrite (swept_torn _ _ H2), (swept_torn _ _ H1).
  - by rewrite (swept_doc _ _ H2), (swept_doc _ _ H1).
Qed.

Lemma same_but_swept n s s' : starts_with n PARTIAL_PREFIX = true -> same_but n s s' -> swept s s'.
Proof.
  intros Hn (He & Hd & Ht). constructor; [..|done]; intros m Hm; [apply He|apply Ht]; intros ->; congruence.
Qed.

Lemma under_sweep s : under s (sweep_partials InReleases) (fun _ s' => swept s s').
Proof.
  eapply under_try with (P := fun _ s' => s' = s); [|by intros e s' ->|].
  - eapply under_bind; [apply under_read_area|]. intros r s' [-> _]. by apply under_done.
  - intros names s' ->. apply under_try_all_private with (Q := swept s); [done|].
    intros n s1 Hin Hs1. apply list_elem_of_In, List.filter_In in Hin as [_ Hn].
    eapply under_within; [by apply under_remove_dir|..]; cbn beta; intros _ s2 Hb;
      (etrans; [exact Hs1|by eapply same_but_swept]).
Qed.

(** *** What a whole pull leaves alone *)

Record framed (v : str) (s s' : Store) : Prop := {
  framed_entries : forall m, starts_with m PARTIAL_PREFIX = false -> m <> v ->
    st_entries s' !! m = st_entries s !! m /\ (m ∈ st_torn s' <-> m ∈ st_torn s);
  framed_records : recorded s ⊆ recorded s';
  framed_others : forall w, w <> v -> recorded s' !! w = recorded s !! w;
}.

#[export] Instance framed_preorder v : PreOrder (framed v).
Proof.
  split; [by constructor|]. intros s1 s2 s3 H1 H2. constructor.
  - intros m Hm Hv. destruct (framed_entries _ _ _ H1 m Hm Hv) as [E1 T1], (framed_entries _ _ _ H2 m Hm Hv) as [E2 T2].
    split; [congruence|by rewrite T2].
  - etrans; [exact (framed_records _ _ _ H1)|exact (framed_records _ _ _ H2)].
  - intros w Hw. by rewrite (framed_others _ _ _ H2), (framed_others _ _ _ H1).
Qed.

Lemma pulling_framed v n s s' : starts_with n PARTIAL_PREFIX = true -> pulling v n s s' -> framed v s s'.
Proof.
  intros Hn Hp. constructor; [|exact (pulling_records _ _ _ _ Hp)|exact (pulling_others _ _ _ _ Hp)].
  intros m Hm Hv. assert (m <> n) by congruence.
  split; [by apply (pulling_entries _ _ _ _ Hp)|by apply (pulling_torn _ _ _ _ Hp)].
Qed.

Lemma swept_framed v s s' : swept s s' -> framed v s s'.
Proof.
  intros Hs. pose proof (recorded_doc _ _ (swept_doc _ _ Hs)) as Hr. constructor; rewrite ?Hr; [|done|done].
  intros m Hm _. split; [by apply (swept_entries _ _ Hs)|by apply (swept_torn _ _ Hs)].
Qed.

(** Every other directory a record vouches for stays. *)
Lemma framed_vouched v s s' w :
  store_ok s -> framed v s s' -> ~ vouched s v -> vouched s w -> vouched s' w.
Proof.
  intros Hs Hf Hnv [Hr Hd]. assert (Hne : w <> v) by (intros ->; by apply Hnv).
  assert (Hp : starts_with w PARTIAL_PREFIX = false) by by apply version_not_partial, (ok_versions _ Hs).
  split; [by rewrite (framed_others _ _ _ Hf)|]. unfold dir_at in *.
  by rewrite (proj1 (framed_entries _ _ _ Hf w Hp Hne)).
Qed.

Lemma under_held s b :
  under s (held (recorded s) b) (fun h s' => s' = s /\
    match h with
    | Changed found => exists r, recorded s !! version b = Some r /\ found = record_sha256 r /\ found <> sha256 b
    | Pulled => exists r, recorded s !! version b = Some r /\ record_sha256 r = sha256 b /\ vouched s (version b)
    | NotPulled => ~ vouched s (version b) /\
        forall r, recorded s !! version b = Some r -> record_sha256 r = sha256 b
    end).
Proof.
  unfold held. destruct (recorded s !! version b) as [r|] eqn:Er.
  2: { apply under_done. split; [done|]. split; [|done]. intros [[x Hx] _]. congruence. }
  destruct (negb (str_eqb (record_sha256 r) (sha256 b))) eqn:Es.
  { apply under_done. split; [done|]. exists r. split_and!; [done|done|].
    intros Hx. apply negb_true_iff in Es. by rewrite Hx, str_eqb_refl in Es. }
  apply negb_false_iff, str_eqb_eq in Es.
  eapply under_bind; [apply under_is_dir|]. intros there s' [-> ->]. apply under_done. split; [done|].
  destruct (dir_at s (version b)) eqn:Ed.
  - exists r. split_and!; [done|done|]. split; [by eexists|done].
  - split; [intros [_ Hd]; congruence|by intros r' [= <-]].
Qed.

Lemma under_pull_afresh watched b s :
  is_Some (build_version (version b)) -> is_sha256 (sha256 b) = true -> ~ vouched s (version b) ->
  (forall r, recorded s !! version b = Some r -> record_sha256 r = sha256 b) ->
  under s (pull_afresh rfc3339 watched (recorded s) (version b) b)
    (fun r s' => framed (version b) s s' /\ pull_outcome b r s').
Proof.
  intros Hv Hsha Hnv Hrec.
  eapply under_try_failing with (P := fun _ s' => s' = s);
    [by eapply under_within; [apply under_create_dir_all|..]|by intros e s1 ->|].
  intros [] s1 ->. eapply under_try_failing; [apply under_sweep|intros e s1 Hs1; split; [by apply swept_framed|done]|].
  intros [] s1 Hs1. cbn beta in Hs1. pose proof (recorded_doc _ _ (swept_doc _ _ Hs1)) as Hr1.
  assert (Hp : starts_with (version b) PARTIAL_PREFIX = false) by by apply version_not_partial.
  assert (Hnv1 : ~ vouched s1 (version b)).
  { unfold vouched, dir_at. by rewrite Hr1, (swept_entries _ _ Hs1) by done. }
  eapply under_try_failing with (P := fun r s' => match r with
    | Ok n => starts_with n PARTIAL_PREFIX = true /\ same_but n s1 s' | Err _ => s' = s1 end).
  { eapply under_within; [apply under_make_scratch|done|done]. }
  { intros e s2 E. cbn beta in E. subst s2. split; [by apply swept_framed|done]. }
  intros n s2 [Hn Hb2]. assert (Hvn : version b <> n) by congruence.
  assert (Hr2 : recorded s2 = recorded s) by (rewrite <- Hr1; apply recorded_doc, Hb2).
  rewrite <- Hr2. eapply under_bind; [apply (under_pull_into watched b n Hn Hv Hsha s2)|].
  { unfold vouched, dir_at. rewrite Hr2, <- Hr1, (proj1 Hb2) by done. done. }
  { by rewrite Hr2. }
  intros r s3 [Hp3 Ho]. eapply under_bind; [by apply under_remove_dir|]. intros x s4 Hb4. cbn beta in Hb4. apply under_done.
  split; [|by eapply outcome_same].
  etrans; [by apply swept_framed|]. etrans; [eapply pulling_framed, same_but_pulling, Hb2; done|].
  etrans; [by eapply pulling_framed|]. by eapply pulling_framed, same_but_pulling.
Qed.

Definition locked_outcome (v : str) (s : Store) (r : result Place PullFailure) (s' : Store) : Prop :=
  (vouched s v -> s' = s) /\
  match r with
  | Ok q => q = version_dir v /\ exists b, version b = v /\ settled b s'
  | Err (PullRefused (NotPublished _ _ | DigestChanged _ _ _ _)) => s' = s
  | Err (PullRefused (DigestMismatch _ _ _ | NoArchive _ | UnpackFailed _ _)) => st_entries s' !! v = None
  | Err (PullRefused (Busy _)) => False
  | Err (PullFailed _) => True
  end.

Lemma settled_vouched b s r :
  store_ok s -> recorded s !! version b = Some r -> record_sha256 r = sha256 b -> vouched s (version b) -> settled b s.
Proof.
  intros Hs Hr Hx [_ Hd]. unfold dir_at in Hd. destruct (st_entries s !! version b) as [t|] eqn:Et; [|done].
  exists r, t. split_and!; try done. intros Ht. rewrite <- Hx. by eapply (ok_genuine _ Hs).
Qed.

Lemma under_pull_locked watched v s :
  is_Some (build_version v) ->
  under s (pull_locked bucket_url rfc3339 watched v) (fun r s' => framed v s s' /\ locked_outcome v s r s').
Proof.
  intros Hv. apply under_ok. intros Hok.
  eapply under_try_failing; [apply under_find_build|by (intros e s1 [-> _]; split; [|split])|].
  intros [b|] s1 [-> Hb]; [|by (apply under_done; split; [|split])].
  destruct (Hb b eq_refl) as [<- Hsha]. clear Hb.
  eapply under_try_failing; [apply under_load_records|by (intros e s1 [-> _]; split; [|split])|].
  intros rs s1 [-> Hrs]. rewrite (Hrs rs eq_refl). clear rs Hrs.
  eapply under_bind; [apply under_held|]. intros h s1 [-> Hh]. destruct h as [| |found].
  - destruct Hh as (r & Hr & Hx & Hvou). apply under_done. split; [done|]. split; [done|]. split; [done|].
    exists b. split; [done|]. by eapply settled_vouched.
  - destruct Hh as [Hnv Hrec]. eapply under_mono; [by apply under_pull_afresh|]. intros r s' [Hf Ho]. split; [done|].
    split; [done|]. unfold pull_outcome in Ho. destruct r as [q|[[]|]]; try done.
    destruct Ho as [-> Hset]. split; [done|by exists b].
  - by (apply under_done; split; [|split]).
Qed.

(** *** A prune, every phone's lock held *)

Context (pruning : prunes = true).

Lemma pruning_step n s s' :
  same_but n s s' ->
  (forall t, st_entries s' !! n = Some t -> is_dir t = true -> n ∈ st_torn s') -> step_ok prunes s s'.
Proof.
  intros (He & Hd & Ht) Hn. pose proof (recorded_doc _ _ Hd) as Hr. constructor; [| |congruence].
  - intros Hs. constructor; rewrite Hr; [apply (ok_versions _ Hs)|]. intros v r t Hv Hent Hdir Htorn.
    destruct (decide (v = n)) as [->|Hne]; [by eapply Hn in Hent|].
    rewrite He in Hent by done. rewrite Ht in Htorn by done. by eapply (ok_genuine _ Hs).
  - by rewrite Hr.
Qed.

Lemma store_put_signed q t d : store (put (InSigned, q) t d) = store d.
Proof. by destruct q. Qed.

Lemma store_cut_signed q d : store (cut (InSigned, q) d) = store d.
Proof. destruct q as [|n [|n' q]]; try done. unfold cut. cbn [fst snd]. by destruct (entries d InSigned !! n). Qed.

Lemma store_begin_signed q d : store (begin_removal (InSigned, q) d) = store d.
Proof. unfold store, begin_removal, set_torn. cbn. f_equal. apply (right_id_L ∅ (∪)). Qed.

Lemma store_end_signed q d : store (end_removal (InSigned, q) d) = store d.
Proof. unfold store, end_removal, set_torn. cbn. f_equal. apply difference_empty_L. Qed.

Lemma under_shred_any s a n : under s (ask (Shred (a, [n]))) (fun _ _ => True).
Proof.
  apply under_change. intros d c <-. cbn [act].
  assert (Hb : forall d0, elsewhere d0 = elsewhere d -> (a = InSigned -> store d0 = store d) ->
    (a = InReleases -> same_but n (store d) (store d0)) ->
    elsewhere (begin_removal (a, [n]) d0) = elsewhere d /\
    (store (begin_removal (a, [n]) d0) = store d \/ step_ok prunes (store d) (store (begin_removal (a, [n]) d0))) /\ True).
  { intros d0 He Hs Hr. split; [done|split; [|done]]. destruct a.
    - right. apply (pruning_step n); [etrans; [by apply Hr|apply same_but_begin]|].
      intros t _ _. cbn [store st_torn begin_removal set_torn torn]. unfold top_level. set_solver.
    - left. rewrite store_begin_signed. by apply Hs. }
  destruct (look d (a, [n])) as [[]|]; [by apply Hb| |by apply Hb].
  destruct c; try (by apply Hb). apply Hb; [apply elsewhere_put| |]; intros ->; [apply store_put_signed|apply same_but_put].
Qed.

Lemma under_remove_rest_any s a n : under s (ask (RemoveRest (a, [n]))) (fun _ _ => True).
Proof.
  apply under_change. intros d c <-. cbn [act].
  assert (Hb : forall d0, elsewhere d0 = elsewhere d -> (a = InSigned -> store d0 = store d) ->
    (a = InReleases -> same_but n (store d) (store d0) /\ forall t, entries d0 InReleases !! n = Some t -> is_dir t = false) ->
    elsewhere (end_removal (a, [n]) d0) = elsewhere d /\
    (store (end_removal (a, [n]) d0) = store d \/ step_ok prunes (store d) (store (end_removal (a, [n]) d0))) /\ True).
  { intros d0 He Hs Hr. split; [done|split; [|done]]. destruct a.
    - right. destruct (Hr eq_refl) as [Hsame Hdir]. apply (pruning_step n); [etrans; [exact Hsame|apply same_but_end]|].
      intros t Ht Hd. apply Hdir in Ht. congruence.
    - left. rewrite store_end_signed. by apply Hs. }
  assert (Hlook : look d (a, [n]) = entries d a !! n).
  { unfold look. cbn [fst snd]. by destruct (entries d a !! n). }
  rewrite Hlook. destruct c; cbn [fst snd]; try (by split; [done|split; [by left|done]]);
    (destruct (entries d a !! n) as [[]|] eqn:Ee; cbn [fst snd];
     [apply Hb; [done|done|intros ->; split; [done|intros u Hu; by simplify_eq]]
     |apply Hb; [apply elsewhere_cut|intros ->; apply store_cut_signed|intros ->; split; [apply (same_but_cut n [])|]];
        cbn [cut fst snd]; rewrite entries_set, lookup_delete_eq; done
     |apply Hb; [done|done|intros ->; split; [done|intros u Hu; by simplify_eq]]]).
Qed.

Lemma under_reads {T} s (m : script DiskE T) Q : reads m Q -> under s m (fun t s' => s' = s /\ Q t).
Proof.
  induction m as [t|A e k IH]; cbn [reads]; intros Hm; [by apply under_done|]. destruct Hm as [He Hk].
  change (Ask e k) with (then_ (ask e) k). eapply under_bind with (P := fun _ s' => s' = s); [|intros a s' ->; by apply IH].
  eapply under_pure with (f := fun c d => (act _ p e c d).1); [|done]. intros c d. rewrite <- (He p c d) at 3. by destruct (act _ p e c d).
Qed.

Lemma under_prune_now s phones : under s (prune_now false phones) (fun _ _ => True).
Proof.
  eapply under_try; [apply under_reads, reads_catalog|done|]. intros catalog s' [-> _].
  eapply under_try; [apply under_reads, reads_installed_versions|done|]. intros installed s' [-> _].
  eapply under_try; [apply under_reads, reads_prunable|done|]. intros stale s' [-> Hstale]. specialize (Hstale stale eq_refl).
  clear catalog installed. revert s. induction Hstale as [|[a sub] stale (n & Hn) Hst IH]; intros s; [by apply under_done|].
  cbn [snd] in Hn. subst sub. cbn [try_all]. eapply under_try with (P := fun _ _ => True); [|done|by intros [] s' _].
  eapply under_try with (P := fun _ _ => True); [|done|].
  - eapply under_within with (P := fun _ _ => True); [|done|done].
    eapply under_bind; [apply under_shred_any|]. intros [] s1 _. apply under_remove_rest_any.
  - intros [] s1 _. by eapply under_within; [apply under_reads, reads_print|..].
Qed.
End Under.

(** ** Locks *)

Definition stable (p : nat) (P : Disk -> Prop) : Prop := forall d d', rely p d d' -> P d -> P d'.

Lemma WP_bind {T U} p (m : script DiskE T) (k : T -> script DiskE U) (P : T -> Disk -> Prop) Q d :
  WP p m P d -> (forall t d', disk_ok d' -> P t d' -> WP p (k t) Q d') -> WP p (then_ m k) Q d.
Proof. apply wp_bind, _. Qed.

Lemma WP_mono {T} p (m : script DiskE T) (P Q : T -> Disk -> Prop) d :
  (forall t d', P t d' -> Q t d') -> WP p m P d -> WP p m Q d.
Proof. apply wp_mono. Qed.

Lemma WP_done {T} p (t : T) (P : Disk -> Prop) (Q : T -> Disk -> Prop) d :
  stable p P -> P d -> (forall d', disk_ok d' -> P d' -> Q t d') -> WP p (Done t) Q d.
Proof. intros Hst Hd HQ d' Hr Hi. apply HQ; [done|by eapply Hst]. Qed.

Lemma WP_op {A} p (e : DiskE A) (P : Disk -> Prop) (Q : A -> Disk -> Prop) d :
  stable p P ->
  (forall d c, disk_ok d -> P d ->
    disk_ok (act A p e c d).2 /\ guar p d (act A p e c d).2 /\
    forall d', rely p (act A p e c d).2 d' -> Q (act A p e c d).1 d') ->
  P d -> WP p (ask e) Q d.
Proof.
  intros Hst Hop Hd. apply wp_ask. intros d1 c Hr Hd1.
  destruct (Hop d1 c Hd1) as (? & ? & HQ); [by eapply Hst|]. split_and!; [done..|].
  intros d2 Hr2 Hd2. by apply HQ.
Qed.

(** An operation that only reads. *)
Lemma WP_pure {A} p (e : DiskE A) (f : Choice -> Disk -> A) (P : Disk -> Prop) (Q : A -> Disk -> Prop) d :
  stable p P -> (forall c d, act A p e c d = (f c d, d)) ->
  (forall c d d', P d -> rely p d d' -> P d' -> Q (f c d) d') ->
  P d -> WP p (ask e) Q d.
Proof.
  intros Hst He HQ. apply WP_op; [done|]. intros d1 c Hd1 Hp. rewrite He. cbn [fst snd].
  split_and!; [done|done|]. intros d2 Hr. eauto.
Qed.

(** Locks come and go without the rest of the state. *)
Record same_rest (d d' : Disk) : Prop := {
  rest_store : store d' = store d;
  rest_clock : clock d <= clock d';
}.

Lemma lock_only_ok p d d' :
  disk_ok d -> same_rest d d' ->
  (forall l, is_Some (locks d !! l) -> is_Some (locks d' !! l)) ->
  (forall q l, q <> p -> holds d q l <-> holds d' q l) ->
  disk_ok d' /\ guar p d d'.
Proof.
  intros Hd [Hs Hc] Hl Hh. split.
  - constructor; [|rewrite Hs; apply (ok_store _ Hd)]. intros phone Hk. by apply Hl, (ok_known _ Hd).
  - constructor; rewrite ?Hs; try done. by right.
Qed.

Lemma holds_set_lock d q l f l' :
  holds (set_lock l f d) q l' <-> if decide (l' = l) then lock_holder f = Some q else holds d q l'.
Proof.
  unfold holds, set_lock. cbn [locks]. destruct (decide (l' = l)) as [->|Hne].
  - rewrite lookup_insert_eq. naive_solver.
  - by rewrite lookup_insert_ne.
Qed.

(** Taking a lock: it was free, and it is the taker's alone. *)
Lemma try_lock_ok p l c d :
  disk_ok d ->
  let '(r, d') := try_lock p l c d in
  disk_ok d' /\ guar p d d' /\ same_rest d d' /\ (r = Ok (Ok tt) -> holds d' p l) /\
  (forall l', holds d p l' -> holds d' p l').
Proof.
  intros Hd. unfold try_lock. assert (Hstay : same_rest d d) by done.
  set (f := default _ (locks d !! l)).
  assert (Hfree : lock_holder f = None -> forall q, ~ holds d q l).
  { intros Hf q (g & Hg & Hq). subst f. rewrite Hg in Hf. cbn in Hf. congruence. }
  assert (Htake : forall note, lock_holder f = None ->
    let d' := set_lock l {| lock_holder := Some p; pid_note := note |} d in
    disk_ok d' /\ guar p d d' /\ same_rest d d' /\ holds d' p l /\ (forall l', holds d p l' -> holds d' p l')).
  { intros note Hf d'. assert (Hs : same_rest d d') by by constructor.
    destruct (lock_only_ok p d d' Hd Hs) as [Hd' Hg].
    - intros l'. unfold d', set_lock. cbn [locks]. destruct (decide (l' = l)) as [->|?]; [by rewrite lookup_insert_eq|by rewrite lookup_insert_ne].
    - intros q l' Hne. unfold d'. rewrite holds_set_lock. destruct (decide (l' = l)) as [->|?]; [|done]. cbn.
      split; [by intros ?%Hfree|congruence].
    - split_and!; [done..| |].
      + unfold d'. apply holds_set_lock. by rewrite decide_True.
      + intros l' Hh. unfold d'. apply holds_set_lock. destruct (decide (l' = l)) as [->|?]; [done|done]. }
  destruct c; try (by split_and!);
    (destruct (lock_holder f) eqn:Ef; [by split_and!|];
     match goal with |- context [set_lock l {| lock_holder := Some p; pid_note := ?n |} d] =>
       destruct (Htake n eq_refl) as (? & ? & ? & ? & ?) end; by split_and!).
Qed.

(** Dropping locks. *)
Lemma holds_unlocked p q f : lock_holder (unlocked p f) = Some q <-> lock_holder f = Some q /\ q <> p.
Proof. unfold unlocked. case_bool_decide as Hp; cbn; naive_solver. Qed.

Lemma unlock_ok p l d :
  disk_ok d ->
  disk_ok (unlock p l d) /\ guar p d (unlock p l d) /\ same_rest d (unlock p l d) /\
  forall l', l' <> l -> holds d p l' -> holds (unlock p l d) p l'.
Proof.
  intros Hd. unfold unlock. destruct (locks d !! l) as [f|] eqn:El; [|done].
  set (d' := set_lock l (unlocked p f) d). assert (Hs : same_rest d d') by by constructor.
  destruct (lock_only_ok p d d' Hd Hs) as [Hd' Hg].
  - intros l'. unfold d', set_lock. cbn [locks].
    destruct (decide (l' = l)) as [->|?]; [by rewrite lookup_insert_eq|by rewrite lookup_insert_ne].
  - intros q l' Hne. unfold d'. rewrite holds_set_lock. destruct (decide (l' = l)) as [->|?]; [|done].
    rewrite holds_unlocked. unfold holds. rewrite El. naive_solver.
  - split_and!; [done..|]. intros l' Hne Hh. unfold d'. apply holds_set_lock. by rewrite decide_False.
Qed.

Lemma release_all_ok p d : disk_ok d -> disk_ok (release_all p d) /\ guar p d (release_all p d).
Proof.
  intros Hd. apply lock_only_ok; [done|by constructor| |].
  - intros l. unfold release_all. cbn [locks]. rewrite lookup_fmap. by intros [f ->].
  - intros q l Hne. unfold holds, release_all. cbn [locks]. setoid_rewrite lookup_fmap_Some. split.
    + intros (f & Hf & Hq). exists (unlocked p f). split; [by exists f|by apply holds_unlocked].
    + intros (g & (f & <- & Hf) & Hq). exists f. split; [done|]. by apply holds_unlocked in Hq as [? _].
Qed.

(** *** Waiting for one *)

Section Waiting.
Context (p : nat) (l : LockPath) (P : Disk -> Prop).
Context (Pstable : stable p P)
  (Ptry : forall d c, disk_ok d -> P d -> P (try_lock p l c d).2)
  (Pclock : forall d t, P d -> P (set_clock t d)).

Definition since (t : Z) (d : Disk) : Prop := P d /\ t <= clock d.

Lemma since_stable t : stable p (since t).
Proof. intros d d' Hr [Hp Ht]. split; [by eapply Pstable|]. pose proof (rely_clock _ _ _ Hr). lia. Qed.

Lemma set_clock_ok d t : disk_ok d -> clock d <= t -> disk_ok (set_clock t d) /\ guar p d (set_clock t d).
Proof. intros Hd Ht. by apply lock_only_ok. Qed.

Lemma WP_try_acquire t d :
  since t d -> WP p (try_acquire l) (fun r d' => since t d' /\ (r = Ok (Ok tt) -> holds d' p l)) d.
Proof.
  apply WP_op; [apply since_stable|]. intros d1 c Hd1 [Hp Ht]. cbn [act].
  pose proof (Ptry d1 c Hd1 Hp) as Hp'. pose proof (try_lock_ok p l c d1 Hd1) as Hok.
  destruct (try_lock p l c d1) as [r d2]. cbn [fst snd] in *. destruct Hok as (? & ? & [Hst Hc] & Hh & _).
  split_and!; [done..|]. intros d3 Hr. split; [|intros E; by apply (rely_locks _ _ _ Hr), Hh].
  eapply since_stable; [exact Hr|]. split; [done|lia].
Qed.

Lemma WP_now t d : since t d -> WP p instant_now (fun now d' => since now d' /\ t <= now) d.
Proof.
  apply WP_op; [apply since_stable|]. intros d1 c Hd1 [Hp Ht]. cbn [act fst snd].
  assert (0 <= passed c) by (destruct c; cbn; lia).
  destruct (set_clock_ok d1 (clock d1 + passed c) Hd1 ltac:(lia)) as [? ?]. split_and!; [done..|].
  intros d2 Hr. split; [|lia]. eapply since_stable; [exact Hr|]. split; [by apply Pclock|cbn; lia].
Qed.

Lemma WP_nap t ns d : 0 <= ns -> since t d -> WP p (ask (Nap ns)) (fun _ d' => since (t + ns) d') d.
Proof.
  intros Hns. apply WP_op; [apply since_stable|]. intros d1 c Hd1 [Hp Ht]. cbn [act fst snd].
  assert (0 <= passed c) by (destruct c; cbn; lia).
  destruct (set_clock_ok d1 (clock d1 + Z.max 0 ns + passed c) Hd1 ltac:(lia)) as [? ?]. split_and!; [done..|].
  intros d2 Hr. eapply since_stable; [exact Hr|]. split; [by apply Pclock|cbn; lia].
Qed.

Lemma WP_raised t d : since t d -> WP p signals_raised (fun _ d' => since t d') d.
Proof.
  eapply WP_pure with (f := fun c _ => match c with Signalled => true | _ => false end); [apply since_stable|done|done].
Qed.

(** The naps left and those taken use the budget up. *)
Lemma WP_wait_loop naps k budget started d :
  0 <= budget -> (0 < budget -> budget < Z.of_nat (naps + k) * Z.min LOCK_POLL budget) ->
  since (started + Z.of_nat k * Z.min LOCK_POLL budget) d ->
  WP p (wait_loop naps l budget started) (fun r d' =>
    P d' /\ match r with Some (Ok tt) => holds d' p l | Some (Err _) => True | None => False end) d.
Proof.
  intros Hb. assert (Hmin : 0 <= Z.min LOCK_POLL budget) by (unfold LOCK_POLL, from_secs, ns_per_sec; lia).
  revert k d. induction naps as [|naps IH]; intros k d Hnaps Hd; cbn [wait_loop];
    (eapply WP_bind; [by apply WP_try_acquire|]; intros [[[]|holder]|e] d1 _ [Hd1 Hh];
     [eapply WP_done with (P := fun d => P d /\ holds d p l);
        [intros x y Hr [Hx Hy]; split; [by eapply Pstable|by apply (rely_locks _ _ _ Hr)]
        |split; [apply Hd1|by apply Hh]|done]
     | |by eapply WP_done; [exact Pstable|apply Hd1|]]);
    (eapply WP_bind; [by apply WP_raised|]; intros [] d2 _ Hd2; [by eapply WP_done; [exact Pstable|apply Hd2|]|]);
    (eapply WP_bind; [by apply WP_now|]; intros now d3 _ [Hd3 Hnow]; cbn beta in *;
     destruct (budget <=? now - started) eqn:E; bool_to_prop; [by eapply WP_done; [exact Pstable|apply Hd3|]|]).
  - exfalso. destruct (decide (budget = 0)); [nia|]. specialize (Hnaps ltac:(lia)). cbn [Nat.add] in Hnaps. nia.
  - eapply WP_bind; [by apply WP_nap|]. intros [] d4 _ Hd4. cbn beta in Hd4. apply (IH (S k)).
    + intros Hp. specialize (Hnaps Hp). by rewrite Nat.add_succ_r.
    + destruct Hd4 as [Hp4 Ht4]. split; [done|]. nia.
Qed.

Lemma naps_suffice budget : 0 <= budget -> 0 < budget -> budget < Z.of_nat (naps_for budget + 0) * Z.min LOCK_POLL budget.
Proof.
  intros Hb Hpos. unfold naps_for. set (n := Z.min LOCK_POLL budget).
  assert (0 < n) by (unfold n, LOCK_POLL, from_secs, ns_per_sec; lia).
  assert (0 <= budget / n) by (apply Z.div_pos; lia).
  rewrite Nat.add_0_r, Nat2Z.inj_succ, Z2Nat.id by done. pose proof (Z.mul_succ_div_gt budget n ltac:(lia)). lia.
Qed.

Lemma WP_wait_for budget d :
  0 <= budget -> P d ->
  WP p (wait_for l budget) (fun r d' => P d' /\ (r = Ok tt -> holds d' p l)) d.
Proof.
  intros Hb Hd. eapply WP_bind; [apply (WP_now (clock d)); by split|]. intros started d1 _ [Hd1 _].
  eapply WP_bind.
  { apply (WP_wait_loop (naps_for budget) 0 budget started); [done| |].
    - intros Hp. by apply naps_suffice.
    - destruct Hd1. split; [done|lia]. }
  intros r d2 _ [Hp Hr]. eapply WP_done with (P := fun d => P d /\ (r = Some (Ok tt) -> holds d p l)).
  - intros x y Hxy [Hx Hy]. split; [by eapply Pstable|]. intros E. by apply (rely_locks _ _ _ Hxy), Hy.
  - split; [done|]. by intros ->.
  - intros d3 _ [? Hh]. split; [done|]. destruct r as [[[]|]|]; [by auto|done..].
Qed.
End Waiting.

(** ** A phone's loop *)

(** The directories of [dirs] are where their versions' records vouch for them. *)
Definition in_use (dirs : list (str * Tree)) (s : Store) : Prop :=
  forall v t, (v, t) ∈ dirs -> is_Some (recorded s !! v) /\ st_entries s !! v = Some t /\ is_dir t = true.

Lemma in_use_untouched dirs s s' :
  recorded s ⊆ recorded s' -> (forall v, vouched s v -> untouched s s' v) -> in_use dirs s -> in_use dirs s'.
Proof.
  intros Hr Hu Hin v t Hvt. destruct (Hin v t Hvt) as ([r Hrec] & He & Hd).
  assert (Hv : vouched s v) by (split; [by eexists|]; unfold dir_at; by rewrite He).
  split_and!; [exists r; by eapply lookup_weaken| |done]. rewrite <- He. by apply Hu.
Qed.

(** A pull of one version leaves the directories in use where they are. *)
Lemma in_use_framed dirs v s s' :
  store_ok s -> framed v s s' -> (vouched s v -> s' = s) -> in_use dirs s -> in_use dirs s'.
Proof.
  intros Hs Hf Hsame Hin w t Hwt. destruct (Hin w t Hwt) as (Hrec & He & Hd).
  assert (Hv : vouched s w) by (split; [done|]; unfold dir_at; by rewrite He).
  destruct (decide (w = v)) as [->|Hne]; [by rewrite Hsame|].
  assert (Hp : starts_with w PARTIAL_PREFIX = false) by by apply version_not_partial, (ok_versions _ Hs).
  rewrite (framed_others _ _ _ Hf), (proj1 (framed_entries _ _ _ Hf w Hp Hne)) by done. done.
Qed.

Section Driving.
Context (p : nat) (phone : str).

Definition driving (dirs : list (str * Tree)) (rs : Records) (d : Disk) : Prop :=
  holds d p (PhoneLock phone) /\ rs ⊆ recorded (store d) /\ (phone ∈ known -> in_use dirs (store d)).

Lemma driving_stable dirs rs : stable p (driving dirs rs).
Proof.
  intros d d' Hr (Hh & Hrs & Hin). split_and!.
  - by apply (rely_locks _ _ _ Hr).
  - etrans; [exact Hrs|exact (rely_records _ _ _ Hr)].
  - intros Hk. eapply in_use_untouched; [exact (rely_records _ _ _ Hr)| |by apply Hin].
    by apply (rely_use _ _ _ Hr phone).
Qed.

Lemma driving_rest dirs rs d d' :
  store d' = store d -> (holds d p (PhoneLock phone) -> holds d' p (PhoneLock phone)) -> driving dirs rs d -> driving dirs rs d'.
Proof. intros Hs Hh (? & ? & ?). split; [by apply Hh|]. by rewrite Hs. Qed.

Lemma driving_none dirs rs d : driving dirs rs d -> driving dirs ∅ d.
Proof. intros (? & ? & ?). split_and!; [done|apply map_empty_subseteq|done]. Qed.

Lemma driving_try dirs rs l d c :
  disk_ok d -> driving dirs rs d -> driving dirs rs (try_lock p l c d).2.
Proof.
  intros Hd. pose proof (try_lock_ok p l c d Hd) as Hok. destruct (try_lock p l c d) as [r d'].
  destruct Hok as (_ & _ & Hs & _ & Hh). apply driving_rest; [apply (rest_store _ _ Hs)|]. by apply Hh.
Qed.

Lemma driving_unlock dirs rs l d :
  l <> PhoneLock phone -> disk_ok d -> driving dirs rs d -> driving dirs rs (unlock p l d).
Proof.
  intros Hl Hd. destruct (unlock_ok p l d Hd) as (_ & _ & Hs & Hh). apply driving_rest; [apply (rest_store _ _ Hs)|].
  by apply Hh.
Qed.

Lemma driving_known dirs rs v d :
  driving dirs rs d -> is_Some (rs !! v) -> dir_at (store d) v = true ->
  exists t, driving ((v, t) :: dirs) rs d.
Proof.
  intros (Hh & Hrs & Hin) [r Hr] Hd. unfold dir_at in Hd.
  destruct (st_entries (store d) !! v) as [t|] eqn:Et; [|done]. exists t. split_and!; [done..|].
  intros Hk w u [[= -> ->]|Hw]%elem_of_cons; [|by apply Hin]. split_and!; [|done..].
  exists r. by eapply lookup_weaken.
Qed.

(** The records a process read are recorded ever after. *)
Lemma WP_load_records dirs d :
  driving dirs ∅ d ->
  WP p load_records (fun r d' => match r with Ok rs => driving dirs rs d' | Err _ => driving dirs ∅ d' end) d.
Proof.
  intros Hd. eapply WP_bind with (P := fun r d' =>
    match records_read r with Ok rs => driving dirs rs d' | Err _ => driving dirs ∅ d' end).
  - eapply WP_pure with (f := fun c d => read_document RecordsDoc c d); [apply driving_stable|done| |exact Hd].
    intros c d1 d2 Hd1 Hr Hd2. destruct (records_read _) as [rs|] eqn:E; [|done].
    eapply driving_stable; [exact Hr|]. destruct Hd1 as (? & ? & ?). split_and!; [done| |done].
    destruct c; cbn [read_document] in E; try done; unfold recorded, store; cbn [st_doc];
      (destruct (docs d1 !! RecordsDoc) as [[|v]|]; [done|by rewrite E|]; injection E as <-; done).
  - intros r d' _ Hr. destruct (records_read r) as [rs|] eqn:E; cbn beta; rewrite ?E;
      (eapply WP_done; [apply driving_stable|exact Hr|done]).
Qed.

Lemma WP_held dirs rs b d :
  driving dirs rs d ->
  WP p (held rs b) (fun h d' => driving dirs ∅ d' /\
    match h with Pulled => exists t, driving ((version b, t) :: dirs) ∅ d' | NotPulled | Changed _ => True end) d.
Proof.
  intros Hd. unfold held. destruct (rs !! version b) as [r|] eqn:Er.
  2: { eapply WP_done; [apply driving_stable|exact Hd|]. intros d' _ Hd'. split; [by eapply driving_none|done]. }
  destruct (negb _).
  { eapply WP_done; [apply driving_stable|exact Hd|]. intros d' _ Hd'. split; [by eapply driving_none|done]. }
  eapply WP_bind with (P := fun there d' => driving dirs rs d' /\
    (there = true -> exists t, driving ((version b, t) :: dirs) rs d')).
  - eapply WP_pure with (f := fun _ d => dir_at (store d) (version b)); [apply driving_stable| | |exact Hd].
    + intros c d1. cbn [act]. unfold look, version_dir, dir_at. cbn [fst snd store st_entries].
      by destruct (entries d1 InReleases !! version b).
    + intros c d1 d2 Hd1 Hr Hd2. split; [done|]. intros Hdir.
      destruct (driving_known dirs rs (version b) d1 Hd1) as [t Ht]; [by eexists|done|].
      exists t. by eapply driving_stable.
  - intros there d' _ [Hd' Ht]. destruct there.
    + destruct (Ht eq_refl) as [t Ht']. eapply WP_done; [apply (driving_stable ((version b, t) :: dirs) rs)|exact Ht'|].
      intros d2 _ Hd2. split; [|exists t; by eapply driving_none].
      apply driving_none in Hd2 as (? & ? & Hin). split_and!; [done..|]. intros Hk w u Hw. apply Hin; [done|]. by right.
    + eapply WP_done; [apply driving_stable|exact Hd'|]. intros d2 _ Hd2. split; [by eapply driving_none|done].
Qed.

(** A directory handed out, among those in use. *)
Definition handed {F} (dirs : list (str * Tree)) (v : str) (r : result Place F) (d : Disk) : Prop :=
  match r with
  | Ok q => q = version_dir v /\ exists t, driving ((v, t) :: dirs) ∅ d
  | Err _ => driving dirs ∅ d
  end.

Lemma WP_handed {F} dirs v (r : result Place F) d : handed dirs v r d -> WP p (Done r) (handed dirs v) d.
Proof.
  destruct r as [q|e]; cbn [handed].
  - intros [-> [t Ht]]. eapply WP_done; [apply (driving_stable ((v, t) :: dirs) ∅)|exact Ht|].
    intros d' _ Hd'. split; [done|by exists t].
  - intros Hd. by eapply WP_done; [apply driving_stable|exact Hd|].
Qed.

Lemma WP_pull_locked watched dirs v d :
  is_Some (build_version v) -> disk_ok d -> holds d p ReleasesLock -> driving dirs ∅ d ->
  WP p (pull_locked bucket_url rfc3339 watched v) (handed dirs v) d.
Proof.
  intros Hv Hd Hl (Hh & _ & Hin).
  eapply WP_mono; [|apply (under_pull_locked p [PhoneLock phone] false ltac:(done) watched v (store d) Hv d Hd)].
  2: { split_and!; [by intros l ->%list_elem_of_singleton|done|done]. }
  intros r d' (s' & (Hlocks & Hl' & <-) & Hf & Hsame & Ho).
  assert (Hd' : driving dirs ∅ d').
  { split_and!; [by apply Hlocks, list_elem_of_singleton|apply map_empty_subseteq|].
    intros Hk. eapply in_use_framed; [apply (ok_store _ Hd)|exact Hf|done|by apply Hin]. }
  destruct r as [q|e]; cbn [handed]; [|done]. destruct Ho as [-> (b & <- & (r & t & Hr & _ & He & Hdir & _))].
  split; [done|]. exists t. destruct Hd' as (Hp' & Hrs' & Hin'). split_and!; [done..|]. intros Hk w u [[= -> ->]|Hw]%elem_of_cons.
  - split_and!; [by eexists|done..].
  - by apply Hin'.
Qed.

Lemma WP_unlock dirs d :
  driving dirs ∅ d -> WP p (ask (Unlock ReleasesLock)) (fun _ d' => driving dirs ∅ d') d.
Proof.
  apply WP_op; [apply driving_stable|]. intros d1 c Hd1 Hp. cbn [act fst snd].
  destruct (unlock_ok p ReleasesLock d1 Hd1) as (? & ? & _). split_and!; [done..|].
  intros d2 Hr. eapply driving_stable; [exact Hr|]. by apply driving_unlock.
Qed.

Lemma WP_unlock_handed {F G} dirs v (r : result Place F) (f : F -> G) d :
  handed dirs v r d ->
  WP p (do _ <- ask (Unlock ReleasesLock); Done (map_err f r)) (handed dirs v) d.
Proof.
  destruct r as [q|e]; cbn [handed].
  - intros [-> [t Ht]]. eapply WP_bind; [by apply (WP_unlock ((v, t) :: dirs))|].
    intros [] d' _ Hd'. apply WP_handed. split; [done|by exists t].
  - intros Hd. eapply WP_bind; [by apply WP_unlock|]. intros [] d' _ Hd'. by apply WP_handed.
Qed.

Lemma WP_ensure_pulled dirs b d :
  is_Some (build_version (version b)) -> driving dirs ∅ d ->
  WP p (ensure_pulled bucket_url rfc3339 b) (handed dirs (version b)) d.
Proof.
  intros Hv Hd. eapply WP_bind; [by apply WP_load_records|]. intros [rs|e] d1 _ Hd1; [|by apply WP_handed].
  eapply WP_bind; [by apply WP_held|]. intros h d2 _ [Hd2 Hh].
  assert (Hwait : WP p (do r <- wait_for ReleasesLock LOCK_WAIT_BUDGET;
      match r with
      | Ok tt =>
          do r0 <- pull_locked bucket_url rfc3339 true (version b);
          do _ <- ask (Unlock ReleasesLock); Done (map_err unready_pull r0)
      | Err e => Done (Err (transiently e))
      end) (handed dirs (version b)) d2).
  { eapply WP_bind.
    - apply (WP_wait_for p ReleasesLock (driving dirs ∅) (driving_stable dirs ∅)); [| |done|exact Hd2].
      + intros d3 c. by apply driving_try.
      + intros d3 t. by apply driving_rest.
    - intros [[]|e] d3 Hok3 [Hd3 Hl]; [|by apply WP_handed].
      eapply WP_bind; [by apply WP_pull_locked; [..|by apply Hl|]|]. intros r d4 _ Hr. by apply WP_unlock_handed. }
  destruct h as [| |found]; [|done..]. destruct Hh as [t Ht]. apply WP_handed. split; [done|by exists t].
Qed.

(** *** The archive in a directory *)

Definition archive_in (t : Tree) (v : str) (a : Archived) : Prop :=
  exists n m, archived_archive a = (InReleases, [v; n]) /\ has_extension ARCHIVE_EXTENSION n = true /\
    archived_app a = (InReleases, [v; n; lit "Products"; lit "Applications"; m]) /\ has_extension (lit "app") m = true /\
    is_Some (tree_at [n; lit "Products"; lit "Applications"; m] t).

Lemma tree_at_app sub sub' t : tree_at (sub ++ sub') t = tree_at sub t ≫= tree_at sub'.
Proof.
  revert t. induction sub as [|n sub IH]; intros t; [done|]. cbn [app tree_at].
  destruct (assoc n (children t)) as [u|]; [|done]. apply IH.
Qed.

Lemma listed_assoc c n x : (n, x) ∈ listed c -> is_Some (assoc n c).
Proof.
  induction c as [|[m t] c IH]; cbn [listed map assoc]; [by intros ?%not_elem_of_nil|].
  intros [[= -> _]|Hin]%elem_of_cons; [by rewrite str_eqb_refl|]. destruct (str_eqb n m); [done|by apply IH].
Qed.

Lemma WP_only_child dirs v t place ext what d :
  driving ((v, t) :: dirs) ∅ d ->
  WP p (only_child place ext what) (fun r d' => driving ((v, t) :: dirs) ∅ d' /\
    (phone ∈ known -> forall sub q, place = (InReleases, v :: sub) -> r = Ok q ->
      exists n, q = (InReleases, v :: sub ++ [n]) /\ has_extension ext n = true /\ is_Some (tree_at (sub ++ [n]) t))) d.
Proof.
  intros Hd. eapply WP_bind with (P := fun r d' => driving ((v, t) :: dirs) ∅ d' /\
    (phone ∈ known -> forall sub names, place = (InReleases, v :: sub) -> r = Ok names ->
      exists c, tree_at sub t = Some (Dir c) /\ names = listed c)).
  - eapply WP_pure with (f := fun c d => (act _ p (ReadDir place) c d).1);
      [apply driving_stable|intros c d1; by destruct c| |exact Hd].
    intros c d1 d2 (_ & _ & Hin) _ Hd2. split; [done|]. intros Hk sub names -> Hnames.
    destruct (Hin Hk v t ltac:(by left)) as (_ & He & _). cbn [store st_entries] in He.
    assert (Hl : look d1 (InReleases, v :: sub) = tree_at sub t) by (unfold look; cbn [fst snd]; by rewrite He).
    destruct c; cbn [act fst] in Hnames; try done; unfold read_dir in Hnames; cbn [snd] in Hnames; rewrite Hl in Hnames;
      (destruct (tree_at sub t) as [[|c']|]; [done| |done]; injection Hnames as <-; by eauto).
  - intros r d1 _ [Hd1 Hr]. eapply WP_done; [apply driving_stable|exact Hd1|]. intros d2 _ Hd2. split; [done|].
    intros Hk sub q -> Hq. destruct r as [names|]; [|done].
    destruct (Hr Hk sub names eq_refl eq_refl) as (c & Hc & ->).
    destruct (List.filter _ (listed c)) as [|[n x] [|]] eqn:Ef; try done. injection Hq as <-.
    assert (Hn : (n, x) ∈ listed c /\ has_extension ext n = true).
    { assert (Hin : In (n, x) (List.filter (fun n => has_extension ext n.1) (listed c))) by (rewrite Ef; by left).
      apply List.filter_In in Hin as [Hin Hx]. split; [by apply list_elem_of_In|done]. }
    destruct Hn as [Hn Hx]. exists n. split_and!; [done|done|]. rewrite tree_at_app, Hc. cbn.
    destruct (listed_assoc c n x Hn) as [u ->]. by eexists.
Qed.

Lemma WP_archived dirs v t d :
  driving ((v, t) :: dirs) ∅ d ->
  WP p (archived (version_dir v)) (fun r d' => driving ((v, t) :: dirs) ∅ d' /\
    (phone ∈ known -> forall a, r = Ok a -> archive_in t v a)) d.
Proof.
  intros Hd. eapply WP_bind; [by apply WP_only_child|]. intros r d1 _ [Hd1 Hr].
  destruct r as [archive|e]; cbn [map_err].
  2: { by eapply WP_done; [apply driving_stable|exact Hd1|]. }
  eapply WP_bind; [by apply WP_only_child|]. intros r d2 _ [Hd2 Hr2].
  eapply WP_done; [apply driving_stable|exact Hd2|]. intros d3 _ Hd3. split; [done|]. intros Hk a Ha.
  destruct (Hr Hk [] archive eq_refl eq_refl) as (n & -> & Hn & _). destruct r as [app|]; [|done]. injection Ha as <-.
  destruct (Hr2 Hk [n; lit "Products"; lit "Applications"] app eq_refl eq_refl) as (m & -> & Hm & Hx).
  by exists n, m.
Qed.

Definition claim_ready (dirs : list (str * Tree)) (b : Build) (r : result Archived UnreadyError) : Prop :=
  forall a, r = Ok a -> exists t, (version b, t) ∈ dirs /\ archive_in t (version b) a.

Lemma WP_claim_archives claims : forall dirs d,
  Forall (fun b => is_Some (build_version (version b))) claims -> driving dirs ∅ d ->
  WP p (claim_archives bucket_url rfc3339 claims) (fun ready d' => exists dirs', dirs ⊆ dirs' /\ driving dirs' ∅ d' /\
    (phone ∈ known -> Forall2 (claim_ready dirs') claims ready)) d.
Proof.
  induction claims as [|b claims IH]; intros dirs d Hv Hd; cbn [claim_archives].
  { eapply WP_done; [apply driving_stable|exact Hd|]. intros d' _ Hd'. by exists dirs. }
  apply Forall_cons in Hv as [Hb Hv].
  eapply WP_bind with (P := fun r d' => exists dirs', dirs ⊆ dirs' /\ driving dirs' ∅ d' /\ (phone ∈ known -> claim_ready dirs' b r)).
  - eapply WP_bind; [by apply WP_ensure_pulled|]. intros [q|e] d1 _ Hd1; cbn [handed] in Hd1.
    + destruct Hd1 as [-> [t Ht]]. eapply WP_mono; [|by apply WP_archived].
      intros r d2 [Hd2 Hr]. exists ((version b, t) :: dirs). split_and!; [by right|done|].
      intros Hk a Ha. exists t. split; [by left|by apply Hr].
    + eapply WP_done; [apply driving_stable|exact Hd1|]. intros d2 _ Hd2. by exists dirs.
  - intros r d1 _ (dirs1 & Hsub1 & Hd1 & Hr). eapply WP_bind; [by apply (IH dirs1)|].
    intros ready d2 _ (dirs2 & Hsub2 & Hd2 & Hready). eapply WP_done; [apply driving_stable|exact Hd2|].
    intros d3 _ Hd3. exists dirs2. split_and!; [by etrans|done|]. intros Hk. constructor; [|by apply Hready].
    intros a Ha. destruct (Hr Hk a Ha) as (t & Ht & Hin). exists t. split; [by apply Hsub2|done].
Qed.
End Driving.

(** ** Pulls and prunes *)

Definition holds_all (p : nat) (taken : list LockPath) (d : Disk) : Prop := forall l, l ∈ taken -> holds d p l.

Lemma holds_all_stable p taken : stable p (holds_all p taken).
Proof. intros d d' Hr Hh l Hl. by apply (rely_locks _ _ _ Hr), Hh. Qed.

Lemma anything_stable p : stable p (fun _ => True).
Proof. done. Qed.

Lemma holds_nothing p d : holds_all p [] d.
Proof. by intros l ?%not_elem_of_nil. Qed.

Lemma WP_unlock_all p taken d : WP p (unlock_all taken) (fun _ _ => True) d.
Proof.
  revert d. induction taken as [|l taken IH]; intros d; cbn [unlock_all]; [done|].
  eapply WP_bind with (P := fun _ _ => True); [|by intros [] d' _ _].
  eapply WP_op; [apply anything_stable| |done]. intros d1 c Hd1 _. cbn [act fst snd].
  destruct (unlock_ok p l d1 Hd1) as (? & ? & _). done.
Qed.

Lemma WP_take p taken l d :
  holds_all p taken d ->
  WP p (try_acquire l) (fun r d' => holds_all p taken d' /\ (r = Ok (Ok tt) -> holds d' p l)) d.
Proof.
  apply WP_op; [apply holds_all_stable|]. intros d1 c Hd1 Hh. cbn [act].
  pose proof (try_lock_ok p l c d1 Hd1) as Hok. destruct (try_lock p l c d1) as [r d2]. cbn [fst snd].
  destruct Hok as (? & ? & _ & Hl & Hkeep). split_and!; [done..|]. intros d3 Hr. split.
  - eapply holds_all_stable; [exact Hr|]. intros l' Hl'. by apply Hkeep, Hh.
  - intros E. by apply (rely_locks _ _ _ Hr), Hl.
Qed.

(** No lock in use: every lock asked for is held. *)
Lemma WP_try_lock_all p paths : forall taken in_use d,
  holds_all p taken d ->
  WP p (try_lock_all taken in_use paths) (fun r d' =>
    match r with
    | Ok (t, u) => holds_all p t d' /\ (u = [] -> in_use = [] /\ t = taken ++ paths)
    | Err _ => True
    end) d.
Proof.
  induction paths as [|l paths IH]; intros taken in_use d Hh; cbn [try_lock_all].
  { eapply WP_done; [apply holds_all_stable|exact Hh|]. intros d' _ Hd'. by rewrite app_nil_r. }
  eapply WP_bind; [by apply WP_take|]. intros [[[]|holder]|e] d1 _ [Hh1 Hl].
  - eapply WP_mono; [|apply (IH (taken ++ [l]))].
    + intros [[t u]|e] d2; [|done]. intros [? Hu]. split; [done|]. intros E. by rewrite <- app_assoc in Hu; apply Hu.
    + intros l' [Hl'|Hl']%elem_of_app; [by apply Hh1|]. apply list_elem_of_singleton in Hl' as ->. by apply Hl.
  - eapply WP_mono; [|by apply (IH taken (in_use ++ [(l, holder)]))].
    intros [[t u]|e] d2; [|done]. intros [? Hu]. split; [done|]. intros E. destruct (Hu E) as [En _].
    by apply app_nil in En as [_ ?].
  - eapply WP_bind; [apply WP_unlock_all|]. by intros [] d2 _ _.
Qed.

Lemma in_phones d phone : is_Some (locks d !! PhoneLock phone) -> phone ∈ phones d.
Proof.
  intros [f Hf]. unfold phones. apply elem_of_sort_stable, list_elem_of_omap. exists (PhoneLock phone).
  split; [|done]. apply list_elem_of_fmap. exists (PhoneLock phone, f). split; [done|by apply elem_of_map_to_list].
Qed.

Lemma reads_prune_now phones : reads (prune_now true phones) (fun _ => True).
Proof.
  eapply reads_try; [apply reads_catalog|done|]. intros catalog _.
  eapply reads_try; [apply reads_installed_versions|done|]. intros installed _.
  eapply reads_try; [apply reads_prunable|done|]. intros stale _.
  induction stale as [|q stale IH]; [done|]. cbn [try_all]. eapply reads_try with (P := fun _ => True); [|done|by intros [] _].
  unfold remove_stale. cbn [then_try then_]. eapply script_reads_bind; [apply reads_print|done].
Qed.

(** [prune]: every phone that had a lock file when it began is kept out. *)
Lemma WP_prune p dry_run d : WP p (prune dry_run) (fun _ _ => True) d.
Proof.
  eapply wp_try with (P := fun r _ => forall phones, r = Ok phones -> forall phone, phone ∈ known -> phone ∈ phones);
    [apply _| |done|].
  { eapply WP_op; [apply anything_stable| |done]. intros d1 c Hd1 _. cbn [act].
    destruct c; (split_and!; [done|done|]); cbn [fst]; try done;
      intros d2 _ phones [= <-] phone Hk; by apply in_phones, (ok_known _ Hd1). }
  intros phones d1 Hd1 Hph. specialize (Hph phones eq_refl). destruct dry_run.
  { apply WP_reads, reads_prune_now. }
  eapply wp_try; [apply _|apply (WP_try_lock_all p (prune_locks phones) [] []), holds_nothing|done|].
  intros [taken in_use] d2 Hd2 [Hh Hall]. cbn [fst snd].
  destruct in_use as [|h in_use].
  2: { eapply WP_bind; [apply WP_unlock_all|]. by intros [] d3 _ _. }
  destruct (Hall eq_refl) as [_ ->]. cbn [app] in *.
  eapply WP_bind with (P := fun _ _ => True).
  - eapply WP_mono; [|apply (under_prune_now p (prune_locks phones) true) with (s := store d2)]; [done| |done|exact Hd2|].
    + intros _ phone Hk. unfold prune_locks. right. right. apply list_elem_of_fmap. exists phone. auto.
    + split_and!; [exact Hh|apply Hh; by left|done].
  - intros r d3 _ _. eapply WP_bind; [apply WP_unlock_all|]. by intros [] d4 _ _.
Qed.

(** What [builds pull] prints is recorded. *)
Definition pulled_to (v : str) (r : result Place PullFailure) (d : Disk) : Prop :=
  forall q, r = Ok q -> q = version_dir v /\ is_Some (recorded (store d) !! v).

Lemma pulled_grows v r d d' : recorded (store d) ⊆ recorded (store d') -> pulled_to v r d -> pulled_to v r d'.
Proof.
  intros Hr Hd q Hq. destruct (Hd q Hq) as [? [rec Hrec]]. split; [done|]. exists rec. by eapply lookup_weaken.
Qed.

Lemma pulled_stable p v r : stable p (pulled_to v r).
Proof. intros d d' Hr. apply pulled_grows. exact (rely_records _ _ _ Hr). Qed.

Lemma WP_pull p v d :
  is_Some (build_version v) -> WP p (pull bucket_url rfc3339 v) (pulled_to v) d.
Proof.
  intros Hv. eapply WP_bind with (P := fun r d' => match r with Ok (Ok tt) => holds_all p [ReleasesLock] d' | _ => True end).
  { eapply WP_bind; [apply (WP_take p []), holds_nothing|]. intros r d1 _ [_ Hl].
    eapply WP_done with (P := fun d => r = Ok (Ok tt) -> holds d p ReleasesLock); [|exact Hl|].
    - intros x y Hr Hx E. by apply (rely_locks _ _ _ Hr), Hx.
    - intros d2 _ Hd2. destruct r as [[[]|]|]; cbn [map_err]; try done.
      intros l Hl2. apply list_elem_of_singleton in Hl2 as ->. by apply Hd2. }
  intros r d1 Hd1 Hr. destruct r as [[[]|holder]|e]; [|done..].
  assert (Hl : holds d1 p ReleasesLock) by (apply Hr, list_elem_of_singleton; done).
  eapply WP_bind with (P := pulled_to v).
  - eapply WP_mono; [|apply (under_pull_locked p [] false ltac:(done) false v (store d1) Hv d1 Hd1)].
    2: { split_and!; [by intros l ?%not_elem_of_nil|done|done]. }
    intros r d2 (s' & (_ & _ & <-) & _ & _ & Ho) q ->. destruct Ho as [-> (b & <- & rec & _ & Hrec & _)].
    split; [done|by eexists].
  - intros r d2 Hd2 Hr2. eapply WP_bind with (P := fun _ => pulled_to v r).
    + eapply WP_op; [apply pulled_stable| |exact Hr2]. intros d3 c Hd3 Hx. cbn [act fst snd].
      destruct (unlock_ok p ReleasesLock d3 Hd3) as (? & ? & Hs & _). split_and!; [done..|].
      intros d4 Hr4. eapply pulled_stable; [exact Hr4|]. eapply pulled_grows; [|exact Hx]. by rewrite (rest_store _ _ Hs).
    + intros [] d3 _ Hd3. by eapply WP_done; [apply pulled_stable|exact Hd3|].
Qed.

(** ** All of them *)

(** A version of a job is one that parsed. *)
Definition is_version (v : str) : bool := bool_decide (is_Some (build_version v)).

Definition job_versions (j : Job) : list str :=
  match j with
  | PullJob v => [v]
  | PruneJob _ => []
  | DriveJob _ claims => map version claims
  end.

Definition may_start (p : nat) (j : Job) (d : Disk) : bool :=
  holds_none p d && forallb is_version (job_versions j).

(** An archive handed to a claim: in a directory its version's record vouches for. *)
Definition ready_in (d : Disk) (b : Build) (r : result Archived UnreadyError) : Prop :=
  forall a, r = Ok a -> exists rec t,
    recorded (store d) !! version b = Some rec /\
    entries d InReleases !! version b = Some t /\
    (version b ∉ torn d -> genuine (record_sha256 rec) t) /\
    archive_in t (version b) a.

Definition outcome_holds (p : nat) (j : Job) (o : Outcome) (d : Disk) : Prop :=
  match j, o with
  | PullJob v, DidPull r => pulled_to v r d
  | DriveJob phone claims, Drove ready => phone ∈ known -> Forall2 (ready_in d) claims ready
  | _, _ => True
  end.

Lemma ready_in_use d dirs b r :
  disk_ok d -> in_use dirs (store d) -> claim_ready dirs b r -> ready_in d b r.
Proof.
  intros Hd Hin Hr a Ha. destruct (Hr a Ha) as (t & Ht & Har). destruct (Hin _ _ Ht) as ([rec Hrec] & He & Hdir).
  exists rec, t. split_and!; [done|done| |done]. by apply (ok_genuine _ (ok_store _ Hd) (version b)).
Qed.

Lemma WP_drive p phone claims d :
  Forall (fun b => is_Some (build_version (version b))) claims ->
  WP p (process bucket_url rfc3339 (DriveJob phone claims)) (outcome_holds p (DriveJob phone claims)) d.
Proof.
  intros Hv. eapply WP_bind with (P := fun r d' => r = Ok tt -> driving p phone [] ∅ d').
  - eapply wp_try; [apply _|apply (WP_take p []), holds_nothing|done|]. intros r d1 _ [_ Hl].
    eapply WP_done with (P := fun d => r = Ok tt -> holds d p (PhoneLock phone)).
    + intros x y Hr Hx E. by apply (rely_locks _ _ _ Hr), Hx.
    + intros ->. by apply Hl.
    + intros d2 _ Hd2 Hr. destruct r as [[]|]; [|done]. split_and!; [by apply Hd2|apply map_empty_subseteq|].
      by intros _ v t ?%not_elem_of_nil.
  - intros [[]|e] d1 _ Hd1; [|done]. eapply WP_bind; [by apply (WP_claim_archives p phone claims []); [|by apply Hd1]|].
    intros ready d2 _ (dirs & _ & Hd2 & Hready). eapply WP_done; [apply driving_stable|exact Hd2|].
    intros d3 Hok3 (_ & _ & Hin) Hk. eapply Forall2_impl; [by apply Hready|]. intros b r. apply ready_in_use; [done|by apply Hin].
Qed.

Lemma process_ok p j d :
  disk_ok d -> may_start p j d = true -> WP p (process bucket_url rfc3339 j) (outcome_holds p j) d.
Proof.
  intros Hd Hj. unfold may_start in Hj. bool_to_prop. destruct j as [v|dry_run|phone claims].
  - assert (Hv : is_Some (build_version v)).
    { cbn [job_versions forallb] in *. bool_to_prop. by eapply bool_decide_eq_true. }
    eapply WP_bind; [by apply WP_pull|]. intros r d1 _ Hr. by eapply WP_done; [apply pulled_stable|exact Hr|].
  - eapply WP_bind; [apply WP_prune|]. by intros r d1 _ _.
  - apply WP_drive. cbn [job_versions] in *. apply Forall_forall. intros b Hb.
    assert (Hall : forallb is_version (map version claims) = true) by done.
    rewrite forallb_forall in Hall. eapply bool_decide_eq_true, Hall, List.in_map, list_elem_of_In, Hb.
Qed.

(** The processes of one state directory. *)
Notation state_step := (sys_step act (process bucket_url rfc3339) may_start release_all).
Notation state_system := (@system DiskE Disk Job Outcome).

Lemma state_sound d s :
  disk_ok d -> reachable (sys_init d) state_step s -> sys_ok act disk_ok rely guar outcome_holds s.
Proof.
  intros Hd. eapply system_sound; [apply _|exact guar_is_rely|exact release_all_ok|exact process_ok|done].
Qed.


(** C11: A digest once recorded stands: no later step of any process changes or drops it.
    And at every moment a directory in [releases/] under a recorded version, unless a prune
    is tearing it or died tearing it, is what bytes of that digest unpack to. *)
Theorem recorded_digests_stand d s s' v rec :
  disk_ok d -> reachable (sys_init d) state_step s -> rtc state_step s s' ->
  recorded (store (world s)) !! v = Some rec ->
  recorded (store (world s')) !! v = Some rec /\
  forall t, entries (world s') InReleases !! v = Some t -> is_dir t = true -> v ∉ torn (world s') ->
    genuine (record_sha256 rec) t.
Proof.
  intros Hd Hr Hs Hrec.
  assert (Hkeep : reachable (sys_init d) state_step s' /\ recorded (store (world s')) !! v = Some rec).
  { induction Hs as [s|s s1 s2 H1 H2 IH]; [done|]. apply IH; [by econstructor|].
    destruct (sys_step_guar act disk_ok rely guar (process bucket_url rfc3339) outcome_holds may_start release_all
      release_all_ok s s1 (state_sound d s Hd Hr) H1) as [->|[p Hg]]; [done|].
    eapply lookup_weaken; [exact Hrec|]. exact (guar_records _ _ _ Hg). }
  destruct Hkeep as [Hr' Hrec']. split; [done|]. intros t Ht Hdir Htorn.
  destruct (state_sound d s' Hd Hr') as [Hok _]. by apply (ok_genuine _ (ok_store _ Hok) v).
Qed.


(** The loop of [StateLock::wait_for] always ends within the naps its budget pays for,
    whatever the others do meanwhile and however the clock runs between two of its looks: with
    the lock, a stop, or the expiry. *)
Theorem waiting_ends_within_its_budget p l budget started d :
  0 <= budget -> started <= clock d ->
  WP p (wait_loop (naps_for budget) l budget started) (fun r d' =>
    match r with Some (Ok tt) => holds d' p l | Some (Err _) => True | None => False end) d.
Proof.
  intros Hb Hs. eapply WP_mono; [|apply (WP_wait_loop p l (fun _ => True)) with (k := 0%nat); try done].
  - by intros r d' [_ ?].
  - intros Hp. by apply naps_suffice.
  - split; [done|lia].
Qed.
End Shared.
