(* ===== verification/ProxyPrune.v ===== *)
(** * What [builds prune] removes, and what it does not

    A prune run to its end with its locks held: the versions that phones and the catalog name
    stay, every other version and every scratch directory goes. Then two interleavings that
    the locks do not cover, run on a small state directory. *)

From Stdlib Require Import ZArith Lia String.
From stdpp Require Import prelude list fin_maps gmap.
From S2P Require Import Prelude Str Timing Json ProxyBase ProxyApp ProxyReleases ProxyVersion Script ProxyState ProxyStore ProxyShared.

Local Open Scope Z_scope.
Local Open Scope script_scope.

Section Alone.
Context `{RL : ReleaseTypes} `{AR : Archiver} (p : nat).

(** [wp] of a process that nobody disturbs: it relies on the state staying as it is. *)
Definition alone {T} (m : script DiskE T) (Q : T -> Disk -> Prop) (d : Disk) : Prop :=
  wp act (fun _ => True) (fun _ => eq) (fun _ _ _ => True) p m Q d.

Lemma alone_done {T} (t : T) (Q : T -> Disk -> Prop) d : Q t d -> alone (Done t) Q d.
Proof. by intros HQ d' <- _. Qed.

Lemma alone_bind {T U} (m : script DiskE T) (k : T -> script DiskE U) (P : T -> Disk -> Prop) Q d :
  alone m P d -> (forall t d', P t d' -> alone (k t) Q d') -> alone (then_ m k) Q d.
Proof. intros Hm Hk. eapply wp_bind; [apply _|exact Hm|]. intros t d' _. apply Hk. Qed.

Lemma alone_try {T U F} (m : script DiskE (result T F)) (k : T -> script DiskE (result U F)) P Q d :
  alone m P d -> (forall e d', P (Err e) d' -> Q (Err e) d') -> (forall t d', P (Ok t) d' -> alone (k t) Q d') ->
  alone (then_try m k) Q d.
Proof. intros Hm He Hk. eapply alone_bind; [exact Hm|]. intros [t|e] d' HP; [by apply Hk|by apply alone_done, He]. Qed.

Lemma alone_op {A} (e : DiskE A) (Q : A -> Disk -> Prop) d :
  (forall c, Q (act A p e c d).1 (act A p e c d).2) -> alone (ask e) Q d.
Proof.
  intros HQ. apply wp_ask. intros d' c <- _. split_and!; [done|done|]. by intros d' <- _.
Qed.

Lemma alone_mono {T} (m : script DiskE T) (P Q : T -> Disk -> Prop) d :
  alone m P d -> (forall t d', P t d' -> Q t d') -> alone m Q d.
Proof. intros Hm HQ. by eapply wp_mono. Qed.

Lemma alone_within {T} what (m : script DiskE (result T Error)) (P Q : result T Error -> Disk -> Prop) d :
  alone m P d ->
  (forall t d', P (Ok t) d' -> Q (Ok t) d') -> (forall e d', P (Err e) d' -> Q (Err (with_context what e)) d') ->
  alone (within what m) Q d.
Proof. intros Hm Hok He. eapply alone_bind; [exact Hm|]. intros [t|e] d' HP; apply alone_done; cbn; auto. Qed.

Lemma alone_run {T} (m : script DiskE T) (Q : T -> Disk -> Prop) cs d :
  alone m Q d -> let '(t, d', _) := run act Fine p m cs d in Q t d'.
Proof.
  intros Hm. pose proof (wp_run act Fine (fun _ => True) (fun _ => eq) (fun _ _ _ => True) p m Q cs d ltac:(done) Hm) as Hr.
  destruct (run _ _ _ _ _ _) as [[t d'] cs']. apply Hr.
Qed.

(** ** What it reads *)

(** The version a phone's record names. *)
Definition runs_version (d : Disk) (phone v : str) : Prop :=
  exists b, load_installed_document (read_document (InstalledDoc phone) Fine d) = Ok b /\ ProxyBase.build_version b = Some v.

Lemma alone_installed phones d :
  alone (installed_versions phones) (fun r d' => d' = d /\
    forall vs, r = Ok vs -> forall v, v ∈ vs <-> exists phone, phone ∈ phones /\ runs_version d phone v) d.
Proof.
  induction phones as [|phone phones IH]; cbn [installed_versions].
  { apply alone_done. split; [done|]. intros vs [= <-] v. split; [by intros ?%not_elem_of_nil|].
    by intros (phone & ?%not_elem_of_nil & _). }
  eapply alone_bind with (P := fun r d' => d' = d /\
    forall b, load_installed_document r = Ok b -> load_installed_document (read_document (InstalledDoc phone) Fine d) = Ok b).
  { apply alone_op. intros c. split; [done|]. by destruct c. }
  intros r d' [-> Hr]. destruct (load_installed_document r) as [b|e]; [|by apply alone_done].
  eapply alone_try; [exact IH|by intros e d' [-> _]|]. intros rest d' [-> Hrest]. apply alone_done. split; [done|].
  specialize (Hr b eq_refl). intros vs [= <-] v. rewrite elem_of_app, (Hrest rest eq_refl). split.
  - intros [Hv|(ph & Hin & Hv)]; [|exists ph; split; [by right|done]]. exists phone. split; [by left|]. exists b.
    split; [done|]. destruct (ProxyBase.build_version b); [|by apply not_elem_of_nil in Hv].
    by apply list_elem_of_singleton in Hv as ->.
  - intros (ph & [->|Hin]%elem_of_cons & Hv); [left|right; by exists ph].
    destruct Hv as (b' & Hb' & Hbv). rewrite Hr in Hb'. injection Hb' as <-. rewrite Hbv. by left.
Qed.

Lemma listed_area d a n x :
  (n, x) ∈ listed (map_to_list (entries d a)) <-> exists t, entries d a !! n = Some t /\ x = is_dir t.
Proof.
  unfold listed. rewrite list_elem_of_In, List.in_map_iff. split.
  - intros ([m t] & [= <- <-] & Hin%list_elem_of_In%elem_of_map_to_list). by exists t.
  - intros (t & Ht & ->). exists (n, t). split; [done|]. by apply list_elem_of_In, elem_of_map_to_list.
Qed.

(** The stale entries of an area. *)
Definition stale_at (keep : list str) (d : Disk) (q : Place) : Prop :=
  exists a n t, q = (a, [n]) /\ entries d a !! n = Some t /\ is_stale keep (n, is_dir t) = true.

Lemma alone_prunable_in a keep d :
  alone (prunable_in a keep) (fun r d' => d' = d /\
    forall stale, r = Ok stale -> forall q, q ∈ stale <-> stale_at keep d q /\ q.1 = a) d.
Proof.
  eapply alone_bind with (P := fun r d' => d' = d /\
    match r with
    | Ok names => names = listed (map_to_list (entries d a))
    | Err e => not_found e = true -> entries d a = ∅
    end).
  { apply alone_op. intros c. split; [by destruct c|].
    destruct c; cbn [act fst]; try done; unfold read_dir, entries; cbn [fst snd]; by destruct (area d a). }
  intros r d' [-> Hr]. apply alone_done. split; [done|]. intros stale Hs. destruct r as [names|e].
  - injection Hs as <-. subst names. intros q. rewrite list_elem_of_In, List.in_map_iff. split.
    + intros ([n x] & <- & Hin). apply List.filter_In in Hin as [Hin%list_elem_of_In Hst].
      apply listed_area in Hin as (t & Ht & ->). split; [by exists a, n, t|done].
    + intros ((a' & n & t & -> & Ht & Hst) & Ha). cbn [fst] in Ha. subst a'. exists (n, is_dir t). split; [done|].
      apply List.filter_In. split; [|done]. apply list_elem_of_In, listed_area. eauto.
  - destruct (not_found e); [|done]. injection Hs as <-. intros q. split; [by intros ?%not_elem_of_nil|].
    intros ((a' & n & t & -> & Ht & _) & Ha). cbn [fst] in Ha. subst a'. by rewrite (Hr eq_refl), lookup_empty in Ht.
Qed.

Lemma alone_prunable keep d :
  alone (prunable keep) (fun r d' => d' = d /\ forall stale, r = Ok stale -> forall q, q ∈ stale <-> stale_at keep d q) d.
Proof.
  eapply alone_try; [apply alone_prunable_in|by intros e d' [-> _]|]. intros s1 d' [-> H1].
  eapply alone_try; [apply alone_prunable_in|by intros e d' [-> _]|]. intros s2 d' [-> H2].
  apply alone_done. split; [done|]. intros stale [= <-] q.
  rewrite elem_of_sort_stable, elem_of_app, (H1 s1 eq_refl), (H2 s2 eq_refl). split; [tauto|].
  intros Hq. pose proof Hq as (a & n & t & -> & _). cbn [fst]. destruct a; tauto.
Qed.

(** ** What it removes *)

(** Only the entries of [gone] may differ, none appears, and no document changes. *)
Definition removed_only (gone : list Place) (d d' : Disk) : Prop :=
  docs d' = docs d /\ forall a n,
    ((a, [n]) ∉ gone -> entries d' a !! n = entries d a !! n) /\
    (entries d a !! n = None -> entries d' a !! n = None).

#[export] Instance removed_only_preorder gone : PreOrder (removed_only gone).
Proof.
  split; [done|]. intros d1 d2 d3 [D1 E1] [D2 E2]. split; [congruence|]. intros a n.
  destruct (E1 a n) as [S1 N1], (E2 a n) as [S2 N2]. split; [intros Hn; by rewrite S2, S1|auto].
Qed.

Lemma removed_put gone a n t d :
  (a, [n]) ∈ gone -> is_Some (entries d a !! n) -> removed_only gone d (put (a, [n]) t d).
Proof.
  intros Hin [u Hu]. split; [done|]. intros a' n'. unfold put. cbn [fst snd].
  destruct (decide (a' = a)) as [->|Ha]; [|by destruct a, a'].
  rewrite entries_set. destruct (decide (n' = n)) as [->|Hn]; [|by rewrite lookup_insert_ne].
  split; [done|congruence].
Qed.

Lemma removed_cut gone a n d : (a, [n]) ∈ gone -> removed_only gone d (cut (a, [n]) d).
Proof.
  intros Hin. split; [done|]. intros a' n'. unfold cut. cbn [fst snd].
  destruct (decide (a' = a)) as [->|Ha]; [|by destruct a, a'].
  rewrite entries_set. destruct (decide (n' = n)) as [->|Hn]; [|by rewrite lookup_delete_ne].
  split; [done|]. by rewrite lookup_delete_eq.
Qed.

Lemma alone_remove gone a n d :
  (a, [n]) ∈ gone ->
  alone (remove_dir_all (a, [n])) (fun r d' => removed_only gone d d' /\ (r = Ok tt -> entries d' a !! n = None)) d.
Proof.
  intros Hin. eapply alone_bind with (P := fun _ d' => removed_only gone d d').
  { apply alone_op. intros c. cbn [act]. destruct (look d (a, [n])) as [[]|] eqn:El; [done| |done].
    destruct c; try done. apply (removed_put gone a n); [done|]. unfold look in El. cbn [fst snd] in El.
    by destruct (entries d a !! n). }
  intros [] d1 H1. apply alone_op. intros c. cbn [act].
  assert (Hc : removed_only gone d (end_removal (a, [n]) (cut (a, [n]) d1))).
  { etrans; [exact H1|]. by apply (removed_cut gone a n). }
  assert (Hgone : entries (end_removal (a, [n]) (cut (a, [n]) d1)) a !! n = None).
  { change (entries (cut (a, [n]) d1) a !! n = None). unfold cut. cbn [fst snd]. rewrite entries_set. apply lookup_delete_eq. }
  destruct c, (look d1 (a, [n])) as [[]|]; cbn [fst snd]; by split.
Qed.

Lemma alone_remove_stale gone todo : forall d,
  (forall q, q ∈ todo -> q ∈ gone /\ exists a n, q = (a, [n])) ->
  alone (try_all (remove_stale false) todo) (fun r d' => removed_only gone d d' /\
    (r = Ok tt -> forall a n, (a, [n]) ∈ todo -> entries d' a !! n = None)) d.
Proof.
  induction todo as [|q todo IH]; intros d Htodo; cbn [try_all].
  { apply alone_done. split; [done|]. by intros _ a n ?%not_elem_of_nil. }
  destruct (Htodo q ltac:(by left)) as [Hq (a & n & ->)].
  eapply alone_try with (P := fun r d' => removed_only gone d d' /\ (r = Ok tt -> entries d' a !! n = None)).
  - eapply alone_try with (P := fun r d' => removed_only gone d d' /\ (r = Ok tt -> entries d' a !! n = None)).
    + by eapply alone_within; [by apply (alone_remove gone a n)|..]; [|intros e d' [Hr _]; split].
    + intros e d' [Hr _]. by split.
    + intros [] d' [Hr Hn]. eapply alone_within with (P := fun _ d2 => d2 = d').
      * apply alone_op. intros c. by destruct c.
      * by intros [] d2 ->.
      * by intros e d2 ->.
  - intros e d' [Hr _]. by split.
  - intros [] d' [Hr Hn]. eapply alone_mono; [apply (IH d')|].
    + intros q Hin. apply Htodo. by right.
    + intros r d2 [Hr2 Hall]. split; [by etrans|]. intros E a' n' [[= -> ->]|Hin]%elem_of_cons; [|by apply Hall].
      apply Hr2. by apply Hn.
Qed.

(** A prune alone with its locks, from the catalog's answer on: no document changes and
    nothing appears. A version the catalog names or a phone of its list runs stays, as does
    every entry that is no directory, or neither a version nor scratch; and when it reports
    success the directories left are named ones, or no version's and no scratch. *)
Theorem a_prune_keeps_what_is_named phones catalog cs d :
  let named v := v ∈ catalog \/ exists phone, phone ∈ phones /\ runs_version d phone v in
  let '(r, d', _) := run act Fine p (prune_now false phones) (Published (Ok catalog) :: cs) d in
  docs d' = docs d /\
  (forall a n, entries d a !! n = None -> entries d' a !! n = None) /\
  (forall a v, named v -> is_Some (build_version v) -> entries d' a !! v = entries d a !! v) /\
  (forall a n t, entries d a !! n = Some t ->
    is_dir t = false \/ (starts_with n PARTIAL_PREFIX = false /\ build_version n = None) ->
    entries d' a !! n = Some t) /\
  (r = Ok tt -> forall a n t, entries d' a !! n = Some t -> is_dir t = true ->
    starts_with n PARTIAL_PREFIX = false /\ (is_Some (build_version n) -> named n)).
Proof.
  intros named. cbn [run act]. unfold prune_now. cbn [then_try then_ ask run act List.hd List.tl].
  apply alone_run. eapply alone_try; [apply alone_installed| |].
  { intros e d' [-> _]. by split_and!. }
  intros installed d' [-> Hinst]. specialize (Hinst installed eq_refl). set (keep := catalog ++ installed).
  assert (Hnamed : forall v, named v <-> v ∈ keep) by (intros v; unfold named, keep; by rewrite elem_of_app, Hinst).
  eapply alone_try; [apply alone_prunable| |].
  { intros e d' [-> _]. by split_and!. }
  intros stale d' [-> Hstale]. specialize (Hstale stale eq_refl).
  eapply alone_mono; [apply (alone_remove_stale stale stale)|].
  { intros q Hq. split; [done|]. apply Hstale in Hq as (a & n & t & -> & _). eauto. }
  assert (Hout : forall a n, (a, [n]) ∉ stale <-> forall t, entries d a !! n = Some t -> is_stale keep (n, is_dir t) = false).
  { intros a n. rewrite Hstale. split.
    - intros Hn t Ht. apply not_true_is_false. intros Hst. apply Hn. by exists a, n, t.
    - intros Hf (a' & n' & t & [= <- <-] & Ht & Hst). by rewrite (Hf t Ht) in Hst. }
  intros r d' [[Hdocs Hent] Hall]. split_and!; [done|intros a n; apply Hent| | |].
  - intros a v Hv Hver. apply Hent, Hout. intros t Ht. unfold is_stale. cbn [fst snd].
    rewrite version_not_partial by done. rewrite (bool_decide_eq_true_2 (v ∈ keep)) by by apply Hnamed.
    by rewrite andb_false_r, andb_false_r.
  - intros a n t Ht Hkept. rewrite (proj1 (Hent a n)); [done|]. apply Hout. intros t' Ht'. rewrite Ht in Ht'.
    injection Ht' as <-. unfold is_stale. cbn [fst snd]. destruct Hkept as [->|[-> ->]]; [done|]. by destruct (is_dir t).
  - intros E a n t Ht Hdir.
    assert (Hin : (a, [n]) ∉ stale) by (intros Hin; by rewrite (Hall E a n Hin) in Ht).
    rewrite (proj1 (Hent a n) Hin) in Ht. pose proof (proj1 (Hout a n) Hin t Ht) as Hst.
    unfold is_stale in Hst. cbn [fst snd] in Hst. rewrite Hdir in Hst. cbn [andb] in Hst.
    apply orb_false_iff in Hst as [Hp Hst]. split; [done|]. intros Hv. apply Hnamed, dec_stable. intros Hk.
    rewrite (bool_decide_eq_true_2 (is_Some _)), (bool_decide_eq_false_2 (n ∈ keep)) in Hst by done. done.
Qed.

(** ** When it refuses *)

Definition same_files (d d' : Disk) : Prop :=
  docs d' = docs d /\ torn d' = torn d /\ forall a, entries d' a = entries d a.

#[export] Instance same_files_preorder : PreOrder same_files.
Proof.
  split; [done|]. intros d1 d2 d3 (D1 & T1 & E1) (D2 & T2 & E2). split_and!; [congruence..|]. intros a. by rewrite E2, E1.
Qed.

Lemma try_lock_files l c d : same_files d (try_lock p l c d).2.
Proof. unfold try_lock. destruct c; try done; by destruct (lock_holder _). Qed.

Definition in_use_by_another (l : LockPath) (d : Disk) : Prop := exists q, q <> p /\ holds d q l.

Lemma try_lock_others l l' c d : in_use_by_another l' d -> in_use_by_another l' (try_lock p l c d).2.
Proof.
  intros (q & Hq & Hh). exists q. split; [done|]. unfold try_lock.
  destruct (lock_holder (default _ (locks d !! l))) as [x|] eqn:Ef; [by destruct c|].
  destruct c; cbn [snd]; try done; apply holds_set_lock; (destruct (decide (l' = l)) as [->|]; [|done]);
    destruct Hh as (f & Hf & Hq'); rewrite Hf in Ef; cbn in Ef; congruence.
Qed.

Lemma try_lock_refused l c d : in_use_by_another l d -> (try_lock p l c d).1 <> Ok (Ok tt).
Proof.
  intros (q & Hq & f & Hf & Hh). unfold try_lock. rewrite Hf. cbn [default]. unfold id. rewrite Hh. by destruct c.
Qed.

Lemma alone_unlock_all taken d : alone (unlock_all taken) (fun _ d' => same_files d d') d.
Proof.
  revert d. induction taken as [|l taken IH]; intros d; cbn [unlock_all]; [by apply alone_done|].
  eapply alone_bind with (P := fun _ d' => same_files d d').
  - apply alone_op. intros c. cbn [act snd]. unfold unlock. by destruct (locks d !! l).
  - intros [] d1 H1. eapply alone_mono; [apply IH|]. intros x d2 H2. cbn beta in *. by etrans.
Qed.

Lemma alone_try_lock_all paths : forall taken in_use d,
  alone (try_lock_all taken in_use paths) (fun r d' => same_files d d' /\
    forall t u, r = Ok (t, u) ->
      (in_use <> [] -> u <> []) /\ forall l, l ∈ paths -> in_use_by_another l d -> u <> []) d.
Proof.
  induction paths as [|l paths IH]; intros taken in_use d; cbn [try_lock_all].
  { apply alone_done. split; [done|]. intros t u [= <- <-]. split; [done|]. by intros l ?%not_elem_of_nil. }
  eapply alone_bind with (P := fun r d' => same_files d d' /\ (forall l', in_use_by_another l' d -> in_use_by_another l' d') /\
    (in_use_by_another l d -> r <> Ok (Ok tt))).
  { apply alone_op. intros c. cbn [act]. 
    split; [apply try_lock_files|split; [intros l' ?; by apply try_lock_others|by apply try_lock_refused]]. }
  intros r d1 (H1 & Hkeep & Hr). destruct r as [[[]|holder]|e].
  - eapply alone_mono; [apply IH|]. intros r d2 [H2 Hu]. split; [by etrans|]. intros t u E.
    destruct (Hu t u E) as [Hne Hl]. split; [done|]. intros l' [->|Hin]%elem_of_cons Ho; [by apply Hr in Ho|].
    apply (Hl l'); auto.
  - eapply alone_mono; [apply IH|]. intros r d2 [H2 Hu]. split; [by etrans|]. intros t u E.
    destruct (Hu t u E) as [Hne _]. assert (Hu' : u <> []) by (apply Hne; by destruct in_use). done.
  - eapply alone_bind; [apply alone_unlock_all|]. intros [] d2 H2. apply alone_done. split; [by etrans|done].
Qed.

(** While another process holds the pull lock, the signing lock or the lock of a phone
    that has one, a prune fails and changes no file: it refuses before it removes. *)
Theorem a_prune_refuses_a_directory_in_use l cs d :
  l ∈ prune_locks (phones d) -> in_use_by_another l d ->
  let '(r, d', _) := run act Fine p (prune false) cs d in
  (exists e, r = Err e) /\ same_files d d'.
Proof.
  intros Hl Ho. apply (alone_run (prune false) (fun r d' => (exists e, r = Err e) /\ same_files d d')).
  eapply alone_try with (P := fun r d' => d' = d /\ forall phs, r = Ok phs -> phs = phones d).
  { apply alone_op. intros c. by destruct c; cbn [act fst snd]; (split; [done|]); intros phs [=]. }
  { intros e d' [-> _]. split; [by exists e|done]. }
  intros phs d' [-> Hphs]. rewrite (Hphs phs eq_refl).
  eapply alone_try; [apply alone_try_lock_all| |].
  { intros e d' [H1 _]. split; [by exists e|done]. }
  intros [taken in_use] d' [H1 Hu]. destruct (Hu taken in_use eq_refl) as [_ Hin]. specialize (Hin l Hl Ho).
  cbn [fst snd]. destruct in_use as [|h in_use]; [done|].
  eapply alone_bind; [apply alone_unlock_all|]. intros [] d2 H2. apply alone_done. split; [by eexists|by etrans].
Qed.
End Alone.

(** ** A small state directory *)

Module Shelf.
#[export] Instance types : RuntimeTypes := {
  Runtime := Z;
  runtime_from_str _ := Err [];
  headless_token _ := [];
  first_document _ := None;
  document_end _ := None;
}.

#[export] Instance release_types : ReleaseTypes := {
  runtime_of_value _ := None;
  runtime_to_value _ := None;
  runtime_build_flag _ := Ok None;
  is_sha256 _ := true;
  manifest_of _ := None;
  s3_text _ := [];
}.

(** Bytes are their own digest, and unpack to one wrapped archive. *)
Definition app : Tree := Dir [(lit "Info.plist", File [1])].
Definition archive : Tree := Dir [(lit "Products", Dir [(lit "Applications", Dir [(lit "Pipette.app", app)])])].
Definition folder : Tree := Dir [(lit "NOTES.md", File []); (lit "Pipette.xcarchive", archive)].

#[export] Instance archiver : Archiver := {
  unzip _ := Some (Dir [(lit "pipette-ios-1.0", folder)]);
  sha256_of bytes := bytes;
}.

Definition build : Build :=
  {| version := lit "1.0"; tag := []; key := lit "a.zip"; sha256 := [1; 2; 3]; bytes := 3; uploaded_at := 0; build_runtimes := [] |}.

(** One phone, and nothing pulled. *)
Definition start : Disk :=
  {| locks := {[ PhoneLock (lit "phone") := {| lock_holder := None; pid_note := [] |} ]}; docs := ∅;
     releases_dir := None; signed_dir := None; clock := 0; torn := ∅ |}.

Definition known : list str := [lit "phone"].

Definition code : Job -> script DiskE Outcome := process [] show_uint.

Definition idle : @system DiskE Disk Job Outcome := {| world := start; running := ∅ |}.

Notation state_step := (sys_step act code may_start release_all).
Notation moves := (sys_moves act code may_start release_all).

(** The bucket answers a pull of the build; the first byte sequence it sends is the build's. *)
Definition pulling : list Choice :=
  [Fine; Replied (Ok (Some build)); Fine; Fine; Fine; Named (lit "x"); Fine; Fine; Sent [[1]; [2; 3]] None].

Definition turns (p : nat) (cs : list Choice) : list (move (Choice := Choice) (Job := Job)) := map (Turn p) cs.

(** The build is pulled, by a process that then ends. *)
Definition pulled : list (move (Choice := Choice) (Job := Job)) :=
  Start 1 (PullJob (lit "1.0")) :: turns 1 (pulling ++ repeat Fine 11) ++ [Die 1].

(** A prune is killed with half of the directory removed; then a phone claims the build. *)
Definition killed_prune : list (move (Choice := Choice) (Job := Job)) :=
  pulled ++ Start 2 (PruneJob false) :: turns 2 (repeat Fine 8 ++ [Left (Dir [])]) ++ [Die 2] ++
  Start 3 (DriveJob (lit "phone") [build]) :: turns 3 (repeat Fine 4).

(** A phone never seen before claims the build while a prune that has listed the phones goes on. *)
Definition late_phone : list (move (Choice := Choice) (Job := Job)) :=
  pulled ++ Start 2 (PruneJob false) :: turns 2 (repeat Fine 4) ++
  Start 3 (DriveJob (lit "other") [build]) :: turns 3 (repeat Fine 5) ++ turns 2 (repeat Fine 6).

Definition ended (s : @system DiskE Disk Job Outcome) (p : nat) : option Outcome :=
  match running s !! p with Some (_, Done o) => Some o | _ => None end.

(** The archive where the pull put it. *)
Definition archived_build : Archived :=
  {| archived_archive := (InReleases, [lit "1.0"; lit "Pipette.xcarchive"]);
     archived_app := (InReleases, [lit "1.0"; lit "Pipette.xcarchive"; lit "Products"; lit "Applications"; lit "Pipette.app"]) |}.

Definition faults (o : option Outcome) : list Fault :=
  match o with
  | Some (Drove ready) => map (fun r => match r with Err u => unready_fault u | Ok _ => OperatorFault end) ready
  | _ => []
  end.

Lemma start_ok : disk_ok known start.
Proof.
  assert (Hr : recorded (store start) = ∅) by done.
  constructor; [intros phone ->%list_elem_of_singleton; by eexists|].
  constructor; rewrite Hr; [by intros v [? ?%lookup_empty_Some]|by intros v r t ?%lookup_empty_Some].
Qed.

Lemma run_moves l s :
  moves l idle = Some s -> reachable (sys_init start) state_step s.
Proof. intros Hm. eapply sys_moves_reachable; [|exact Hm]. by constructor. Qed.

Lemma home_has_archive whole t : home_of whole = Some t -> existsb is_archive (kids t) = true.
Proof.
  unfold home_of. destruct (existsb is_archive (kids whole)) eqn:E; [by intros [= <-]|].
  destruct (List.find _ _) as [f|] eqn:Ef; [|done]. apply List.find_some in Ef as [_ Ef]. by intros [= <-].
Qed.


(** A prune lists the phones before it takes their locks, so a phone that never ran
    before is not kept out: it finds the build pulled, and the prune removes the directory
    while the claim is using it. *)
Theorem a_late_phone_loses_its_build :
  exists s, disk_ok known start /\ reachable (sys_init start) state_step s /\
    ended s 3 = Some (Drove [Ok archived_build]) /\ holds (world s) 3 (PhoneLock (lit "other")) /\
    entries (world s) InReleases !! version build = None.
Proof.
  destruct (moves late_phone idle) as [s|] eqn:Em; [|by vm_compute in Em].
  pose proof (run_moves late_phone s Em) as Hr. vm_compute in Em. injection Em as <-.
  eexists. split; [exact start_ok|]. split; [exact Hr|]. split; [by vm_compute|]. split; [|by vm_compute].
  eexists. split; [by vm_compute|done].
Qed.

(** The build pulled, then claimed by the phone. *)
Definition claimed : list (move (Choice := Choice) (Job := Job)) :=
  pulled ++ Start 3 (DriveJob (lit "phone") [build]) :: turns 3 (repeat Fine 5).


(** From the pulled build on to a claim that has ended. *)
Lemma recorded_digests_stand_witness :
  exists s s' rec, reachable (sys_init start) state_step s /\ rtc state_step s s' /\
    recorded (store (world s)) !! lit "1.0" = Some rec /\ recorded (store (world s')) !! lit "1.0" = Some rec.
Proof.
  destruct (moves pulled idle) as [s|] eqn:Em; [|by vm_compute in Em].
  pose proof (run_moves pulled s Em) as Hr.
  destruct (moves (Start 3 (DriveJob (lit "phone") [build]) :: turns 3 (repeat Fine 5)) s) as [s'|] eqn:Es.
  2: { vm_compute in Em. injection Em as <-. by vm_compute in Es. }
  assert (Hrec : recorded (store (world s)) !! lit "1.0" =
    Some {| record_sha256 := [1; 2; 3]; record_key := lit "a.zip"; pulled_at := lit "0" |}).
  { vm_compute in Em. injection Em as <-. by vm_compute. }
  assert (Hs : rtc state_step s s') by (eapply sys_moves_rtc, Es).
  exists s, s', {| record_sha256 := [1; 2; 3]; record_key := lit "a.zip"; pulled_at := lit "0" |}.
  split; [exact Hr|split; [exact Hs|split; [exact Hrec|]]].
  apply (recorded_digests_stand [] show_uint known start s s' (lit "1.0") _ start_ok Hr Hs Hrec).
Defined.

(** The lock taken, and nothing else. *)
Definition locked : Disk := (try_lock 1 ReleasesLock Fine start).2.


Lemma waiting_ends_within_its_budget_witness :
  WP known 1 (wait_loop (naps_for 0) ReleasesLock 0 0) (fun r d' =>
    match r with Some (Ok tt) => holds d' 1 ReleasesLock | Some (Err _) => True | None => False end) start.
Proof. apply (waiting_ends_within_its_budget known 1 ReleasesLock 0 0 start); [lia|by cbn]. Defined.

Lemma a_prune_refuses_a_directory_in_use_witness :
  in_use_by_another 2 ReleasesLock locked /\
  let '(r, d', _) := run act Fine 2 (prune false) [] locked in exists e, r = Err e.
Proof.
  assert (Ho : in_use_by_another 2 ReleasesLock locked).
  { exists 1%nat. split; [done|]. eexists. split; [by vm_compute|done]. }
  split; [exact Ho|].
  pose proof (a_prune_refuses_a_directory_in_use 2 ReleasesLock [] locked ltac:(by left) Ho) as Hrun.
  destruct (run _ _ _ _ _ _) as [[r d'] cs']. apply Hrun.
Defined.
End Shelf.
